(* ===== verification/_CoqProject ===== *)
-Q . S2P
Prelude.v
WsFrame.v
Dll.v
Semaphore.v
TimerWheel.v
RingBuffer.v
FramePool.v
Counting.v
Singleflight.v
IoSlots.v
Uring.v
Cancel.v
CancelOps.v
CancelSound.v
Coro.v
ReadyQueue.v
Scheduler.v
SchedulerSound.v
Park.v
Context.v
Executor.v
Wheels.v
CoroTimeout.v
Sockets.v
Join.v
Scope.v
Deadline.v
Protocol.v
Buffer.v
Serializer.v
HeadLines.v
Chunked.v
Headers.v
Parser.v
ParserHeaders.v
ParserFeed.v
Transport.v
TlsEngine.v
TlsStream.v
TlsContext.v
TlsTransport.v
TlsPeer.v
ParserBody.v
Url.v
Query.v
Clock.v
Config.v
ClientOpen.v
ClientRequest.v
ClientExchange.v
ClientReuse.v
ClientBody.v
ClientCases.v
ClientSend.v
ClientHandles.v
ClientPool.v
Dns.v
Router.v
ServerResponse.v
ServerStream.v
FileBody.v
Handshake.v
WsConnect.v
ServerLoop.v
ServerBody.v
ServerLife.v
Session.v
