(* ===== verification/Prelude.v ===== *)
(** * Cornet: a verification of an io_uring network framework

    Cornet (src/) is a C++20 coroutine framework on io_uring with an HTTP/1.1
    server and client and WebSocket sessions.  One thread owns one context;
    coroutines suspend at reads, writes, timers and queues.  This library
    models the protocol and connection code, the concurrency primitives and
    the event loop it is built on, as executable definitions, and proves what
    makes each part correct.

    ** How the program is put together

    A server connection ([connection_t]) reads into a receive buffer, feeds
    [parser_t], which drives llhttp and records the header section as offsets,
    matches the [router_t], takes the body whole or as a stream, runs the
    handler on a [response_t], and writes the responses of a batch of
    pipelined requests in one gather-write; a websocket route turns it into a
    [session_t].  The client builds a [client_request_t] from a parsed url,
    borrows a [client_connection_t] from [client_pool_t], exchanges, retries
    and follows redirects.  Both sit on the pooled buffers, the serialiser and
    the header table; timeouts come from a [timer_wheel_t], waiting from a
    [semaphore_t], and threads exchange work through [ringbuffer_t].

    Underneath, [context_t] runs [scheduler_t::sched] in a loop: it takes the
    handles other threads queued, resumes ready coroutines, reaps completions
    from [uring_t] and waits.  An operation ([utask_t]) is found again by the
    token of [io_slot_table_t]; [task_tracker_t] counts what is left to do;
    [canceler_t] reaches operations in flight, and [deadline_t], [scope_t],
    [when_all], [when_any] and [singleflight_t] are built on these.

    ** Files and sources (paths under src/)

    - Prelude: machine words, bytes, views and writes in blocks, error values
      (include/cornet/base/expected.h), shared lemmas and tactics.
    - Dll: doubly linked intrusive lists, shared by Semaphore, TimerWheel and
      Cancel; Counting: counting in finite maps.
    - Semaphore: include/cornet/concurrency/semaphore.h, src/semaphore.cc.
    - TimerWheel: include/cornet/concurrency/timer_wheel.h, src/timer_wheel.cc.
    - RingBuffer: include/cornet/utils/ringbuffer.h; FramePool:
      include/cornet/coroutine/frame_pool.h.
    - IoSlots: include/cornet/io_uring/io_slot.h; Uring: io_uring/uring and
      utask with src/uring.cc, src/task.cc, scheduling/task_tracker.h and the
      linked timeout of concurrency/combinators.h.
    - Cancel, CancelOps, CancelSound: coroutine/cancel.h and src/cancel.cc;
      the tree and its traversal, the awaiters, any use of both; Coro:
      coroutine/coro.h, wrappers, promises and generators.
    - ReadyQueue, Scheduler, SchedulerSound: scheduling/scheduler.h and
      src/scheduler.cc; Park: the hand-over between threads (park_scope,
      wakeup, executor workers); Context: the life of a context
      (src/context.cc), Wheels: its wheel registry, signals and sweeps;
      Executor: src/executor.cc with coroutine/atask.h, the awaiter of
      scheduling/context.h and the futures of scheduling/runtime.h.
    - Singleflight, Join ([when_all], [when_any]), CoroTimeout
      ([with_timeout] on coroutines), Scope, Deadline: the files
      singleflight.h, combinators.h, scope.h and deadline.h of
      include/cornet/concurrency.
    - Sockets: src/socket.cc.
    - Protocol, Buffer, Serializer, Headers, Url: the files of the same names
      under include/cornet/http/common and src/http/common.
    - HeadLines, Chunked: the text of message heads and the chunked coding,
      the specifications that server and client share.
    - Parser, ParserHeaders, ParserFeed, ParserBody: http/common/parser;
      its operations, what it records, how it is fed, how it behaves inside a
      body.
    - Transport: the scripted transport of both connections; TlsEngine,
      TlsContext, TlsStream, TlsTransport, TlsPeer: src/tls with
      include/cornet/tls, over an interface of OpenSSL (the classes [Ssl],
      [SslLaws], [CtxOps], [CtxLaws] and [VerifyLaws]); a TLS stream is used by
      one coroutine at a time.
    - ClientRequest: http/client/message and the framing of requests;
      ClientExchange, ClientReuse, ClientBody, ClientCases:
      http/client/connection; ClientSend: [client_t::send] of
      http/client/client, ClientHandles: its streams and uploads; ClientPool,
      Dns: http/client/pool; ClientOpen: the set-up of a client and the opening
      of its connections.
    - Router: http/server/router and the parameter slots.
    - ServerResponse, ServerStream: http/server/message and the writing half
      of http/server/connection, FileBody: its file bodies; ServerLoop,
      ServerBody: its reading half;
      ServerLife: http/server/server; Query: query strings of
      http/server/message.
    - Clock: include/cornet/utils/clock.h; Config: utils/config.h, the loaders of
      options, and what scheduler, executor and ring take from a configuration.
    - WsFrame, Handshake, Session: websocket/common and websocket/session;
      WsConnect: websocket/client; the server's upgrade check
      (websocket/server) is in ServerLoop.

    ** How code becomes definitions

    A class is a record of its fields; a method is a function on it, a
    coroutine a function that runs to its next suspension or over a script of
    what its suspensions return.  w-bit integers are [Z] with the wrap-around
    written out ([u8], [u16], [u32], [u64]); buffers are byte lists with the
    cursors of the source, and a copy that would leave its block is [None];
    failing operations return [expected].  A violated assertion or a null
    buffer is [None] or [Undefined], a C++ exception leaving a coroutine
    [Thrown].  Loops recurse on the data where they can; otherwise they take
    fuel, and theorems either show that a stated amount is enough
    ([supply] + 2 for a body read, one turn per redirect and retry, a bound in
    the length of the path for the router's walk, 64 doublings for a growing
    buffer) or hold for every result of every fuel.

    Not under src/ and therefore parameters: llhttp (a submodule; one run is
    the finite tree of callbacks it makes, and the classes [llhttp_laws] and
    [body_laws] state what its documentation promises, each with an instance),
    the kernel (scripts of reads and writes), OpenSSL (the class [Ssl] with its
    laws), liburing (the class [Liburing] with its laws), the memory allocator, the clock, the resolver,
    [inet_pton], random bytes, the queues between threads (what they hand
    over), and the coroutines, handlers, filters and callbacks of the
    application (the class [Program] for the scheduler).  Components meet at
    classes as well: [CancelBackend] is what a canceler needs of the ring,
    [OneTimer] and [KillSwitch] what a deadline needs of the wheel and of a
    canceler, [Delivery] what a whole write needs of a transport; each has
    instances from the component that provides it.

    ** What the theorems show

    - Sessions deliver messages, empty ones included, exactly and in order
      whatever the reads (an empty last one waits for the next byte), and send
      one Close frame, or two when the coroutine of the other direction runs
      between the write of a Close and the end of [close]; frame headers are
      canonical and are read back (a masking key of zero apart); masking equals
      its byte-wise definition; the handshake's SHA-1 and base64 meet their
      specifications; a client connects only on an answer it may accept, loses
      no byte behind it and no descriptor on failure.
    - The parser records exactly the header section of the message whatever
      the split into runs, with two exceptions that are part of the
      specification (first runs of 64K and more are cut to 16 bits, trailers
      without room or permission are left out); it keeps the feed window exact
      for pipelining, call by call and against what llhttp answered, and admits
      only requests that pass the framing checks.
    - The header table refines a list; heads cannot be injected into, by any
      overload and for readers that end lines at CR, LF or both; a round's
      responses and a streamed response of its own are on the wire intact and
      in order, files included; request bodies reach handlers completely,
      without disturbing the headers, and an aggregated one lies in a block of
      exactly its announced length.
    - A router match is a correct one, and its walk is the recursive search;
      query strings read as their pairs; the server counts, drains and joins
      its connections, those apart whose handler threw, which stay counted.
    - Requests are framed as specified; credentials stay with their origin;
      only safe requests are replayed, on the evidence of [responded]; sending
      terminates; a connection is reused only in a state that allows it;
      bodies are collected as they stream; uploads decode to what was written.
    - The pools: blocks are owned once; connections are counted, bounded and
      lent to one request at a time, waiters served in order, and returned
      once by streams and uploads; addresses come from the resolver and are
      fresh.
    - Semaphore and timer wheel keep their intrusive queues and lose no
      wake-up; timers fire at the tick they were armed for, counted from the
      cursor, which in time can be up to one tick before their delay; the
      cached date is the cached second; durations are read to within a
      nanosecond and loaded options stay within their types; the ring is a FIFO
      under every interleaving; frames of the frame pool never overlap.
    - Tokens find exactly the operation in flight they were made for, until the
      32-bit generation of a slot wraps around, after which only live ones are
      told apart; the counters of the loop are exact up to the over-count of
      waits that submit, which the theorem carries along; cancelling reaches
      exactly the pending operations of a subtree and no frame touches a freed
      canceler.
    - TLS streams seal and send exactly what is written, report an end only
      after [close_notify] and never wait for the peer with output unsent;
      contexts are set up as asked, with every object freed once, and the https
      and wss connections of a context that verifies have a verified peer, for
      the name that was asked; a dial keeps or closes its descriptor exactly
      once; coroutine frames have exactly one owner.
    - Scheduling is FIFO, bounded and fair; an owner that waits has no work or
      a wake-up coming; a stop of a running context is not undone until [run]
      is called again; offloaded callables run once and their endings reach
      exactly their awaits and futures; wheels are shared by tick.
    - Singleflight, [when_all], [when_any] and scopes resume their awaiters
      once, at the right time and with the right results, and free their state
      exactly when it is unused ([when_all] and [when_any] that nobody awaits
      apart, whose state leaks); deadlines latch, share their end, within a
      millisecond and a tick, and restore it; a timeout decides only what its
      target leaves open.
    - Theorems of kind error, and lemmas named in the findings, show where the
      code departs from its intent.

    ** Not modelled

    Kernel calls on sockets and the preparation of single system calls; the
    compiler's part of coroutines; thread start; the opening of files; logging and counters.
    Time appears as the clock value read or as a timeout firing in a script.
    In Session the in-place unmasking is modelled as a copy; the parser's
    null feed window cannot occur there.  Weak memory is represented in
    RingBuffer by the release/acquire protocol of its cursors only; Park and
    Context interleave sequentially consistent accesses. *)

From stdpp Require Import prelude list_numbers.
From Stdlib Require Import ZArith Lia Ascii.
From Stdlib Require String.

(** ** Machine words

    A [w]-bit unsigned integer of the source is a [Z]; the conversions below
    are the wrap-around of an assignment to that type. *)

Declare Scope word_scope.
Delimit Scope word_scope with word.
Open Scope Z_scope.

Definition u8 (x : Z) : Z := x mod 2 ^ 8.
Definition u16 (x : Z) : Z := x mod 2 ^ 16.
Definition u32 (x : Z) : Z := x mod 2 ^ 32.
Definition u64 (x : Z) : Z := x mod 2 ^ 64.

Notation "x '&&&' y" := (Z.land x y) (at level 40, left associativity) : word_scope.
Notation "x '|||' y" := (Z.lor x y) (at level 50, left associativity) : word_scope.
Notation "x '^^^' y" := (Z.lxor x y) (at level 45, left associativity) : word_scope.
Notation "x '<<<' y" := (Z.shiftl x y) (at level 35, no associativity) : word_scope.
Notation "x '>>>' y" := (Z.shiftr x y) (at level 35, no associativity) : word_scope.
Open Scope word_scope.

Definition is_byte (b : Z) : Prop := 0 <= b < 256.

#[global] Instance is_byte_dec b : Decision (is_byte b).
Proof. unfold is_byte; apply _. Defined.

(** A run of bytes: [std::string_view], [char*] with a length, a buffer. *)
Abbreviation bytes := (list Z).

Definition size (l : bytes) : Z := Z.of_nat (length l).

Lemma size_app (a b : bytes) : size (a ++ b) = size a + size b.
Proof. unfold size. rewrite length_app. lia. Qed.

Lemma size_nonneg (a : bytes) : 0 <= size a.
Proof. unfold size. lia. Qed.

(** The bytes of a string literal. *)
Definition str (s : String.string) : bytes :=
  map (fun a => Z.of_N (N_of_ascii a)) (String.list_ascii_of_string s).

(** [std::string_view::substr(off, n)] for an in-range offset. *)
Definition substr {A} (l : list A) (off n : nat) : list A := take n (drop off l).

(** ** Tactics and hint databases *)

Create HintDb cornet discriminated.

Ltac bool_destruct :=
  repeat match goal with
  | |- context [if ?b then _ else _] => destruct b eqn:?
  | H : context [if ?b then _ else _] |- _ => destruct b eqn:?
  end.

Ltac zify_bool :=
  rewrite ?andb_true_iff, ?orb_true_iff, ?negb_true_iff, ?andb_false_iff, ?orb_false_iff,
    ?negb_false_iff, ?Z.ltb_lt, ?Z.leb_le, ?Z.eqb_eq, ?Z.ltb_ge, ?Z.leb_gt, ?Z.eqb_neq in *.

(** ** Facts on words *)

Lemma u8_range x : is_byte (u8 x).
Proof. apply Z.mod_pos_bound; lia. Qed.

Lemma u32_range x : 0 <= u32 x < 2 ^ 32.
Proof. apply Z.mod_pos_bound; lia. Qed.

Lemma u64_range x : 0 <= u64 x < 2 ^ 64.
Proof. apply Z.mod_pos_bound; lia. Qed.

Lemma u8_small x : is_byte x -> u8 x = x.
Proof. intros; apply Z.mod_small; unfold is_byte in *; lia. Qed.

Lemma u16_small x : 0 <= x < 2 ^ 16 -> u16 x = x.
Proof. apply Z.mod_small. Qed.

Lemma u32_small x : 0 <= x < 2 ^ 32 -> u32 x = x.
Proof. apply Z.mod_small. Qed.

Lemma u64_small x : 0 <= x < 2 ^ 64 -> u64 x = x.
Proof. apply Z.mod_small. Qed.

#[export] Hint Resolve u8_range u32_range u64_range : cornet.

Lemma map_u8_byte {A} (f : A -> Z) l : Forall is_byte (map (fun x => u8 (f x)) l).
Proof. induction l; simpl; constructor; auto with cornet. Qed.

#[export] Hint Resolve map_u8_byte : cornet.

(** Closes [Forall is_byte] goals on explicit runs. *)
Ltac solve_bytes :=
  repeat first
    [ apply Forall_nil; exact I
    | apply Forall_app; split
    | apply Forall_cons; split
    | apply u8_range
    | apply map_u8_byte
    | assumption ]; auto with cornet.

(** A bitwise-or of a shifted high part with a low part is an addition. *)
Lemma lor_shiftl_add hi lo k :
  0 <= k -> 0 <= lo < 2 ^ k -> (hi <<< k) ||| lo = hi * 2 ^ k + lo.
Proof.
  intros Hk Hlo. rewrite <- Z.shiftl_mul_pow2 by lia.
  symmetry.
  rewrite <- Z.lxor_lor, Z.add_nocarry_lxor; [done| |].
  all: apply Z.bits_inj'; intros i Hi; rewrite Z.land_spec, Z.shiftl_spec, Z.bits_0 by lia.
  all: destruct (Z.lt_ge_cases i k).
  all: try (rewrite Z.testbit_neg_r by lia; done).
  all: rewrite andb_comm; replace (Z.testbit lo i) with false; [done|].
  all: symmetry; rewrite <- (Z.mod_small lo (2 ^ k)) by lia; apply Z.mod_pow2_bits_high; lia.
Qed.

Lemma shiftr8_div x k : 0 <= k -> x >>> k = x / 2 ^ k.
Proof. intros. by apply Z.shiftr_div_pow2. Qed.

Lemma testbit_high x k i : 0 <= x < 2 ^ k -> k <= i -> Z.testbit x i = false.
Proof.
  intros Hx Hi. destruct (Z.lt_ge_cases k 0) as [|Hk].
  { rewrite Z.pow_neg_r in Hx by lia. lia. }
  rewrite <- (Z.mod_small x (2 ^ k)) by lia. by apply Z.mod_pow2_bits_high.
Qed.

Lemma lxor_bound x y k : 0 <= k -> 0 <= x < 2 ^ k -> 0 <= y < 2 ^ k -> 0 <= x ^^^ y < 2 ^ k.
Proof.
  intros Hk Hx Hy. split; [by apply Z.lxor_nonneg; lia|].
  destruct (Z.eq_dec (x ^^^ y) 0) as [->|Hne]; [lia|].
  apply Z.log2_lt_pow2; [pose proof (Z.lxor_nonneg x y); lia|].
  destruct (Z.lt_ge_cases (Z.log2 (x ^^^ y)) k) as [|Hge]; [done|exfalso].
  assert (Z.testbit (x ^^^ y) (Z.log2 (x ^^^ y)) = true) as Ht.
  { apply Z.bit_log2. pose proof (Z.lxor_nonneg x y); lia. }
  rewrite Z.lxor_spec, !(testbit_high _ k) in Ht by lia. done.
Qed.

(** Exhaustion over the 256 values of a byte. *)
Lemma byte_forall (P : Z -> bool) :
  forallb P (seqZ 0 256) = true -> forall b, is_byte b -> P b = true.
Proof.
  intros H b Hb. rewrite forallb_forall in H. apply H.
  apply list_elem_of_In, elem_of_seqZ. unfold is_byte in Hb. lia.
Qed.

(** ** Little- and big-endian packing of byte runs *)

Fixpoint le_combine (l : bytes) : Z :=
  match l with
  | [] => 0
  | b :: l => b + 256 * le_combine l
  end.

Fixpoint le_split (n : nat) (v : Z) : bytes :=
  match n with
  | O => []
  | S n => u8 v :: le_split n (v / 256)
  end.

Lemma length_le_split n v : length (le_split n v) = n.
Proof. revert v. induction n; simpl; congruence. Qed.

Lemma le_split_byte n v : Forall is_byte (le_split n v).
Proof. revert v. induction n; simpl; constructor; auto with cornet. Qed.

Lemma le_combine_range l :
  Forall is_byte l -> 0 <= le_combine l < 2 ^ (8 * Z.of_nat (length l)).
Proof.
  induction 1 as [|b l Hb _ IH]; [simpl; lia|].
  cbn [le_combine length]. rewrite Nat2Z.inj_succ, Z.mul_succ_r, Z.pow_add_r by lia.
  unfold is_byte in Hb. change (2 ^ 8) with 256. lia.
Qed.

Lemma le_combine_split n v : le_combine (le_split n v) = v mod 2 ^ (8 * Z.of_nat n).
Proof.
  revert v. induction n as [|n IH]; intros v; [symmetry; apply Z.mod_1_r|].
  cbn [le_combine le_split]. rewrite IH, Nat2Z.inj_succ, Z.mul_succ_r, Z.add_comm.
  rewrite Z.add_comm, (Z.add_comm _ 8), Z.pow_add_r, Z.rem_mul_r by lia.
  reflexivity.
Qed.

Lemma le_split_combine l : Forall is_byte l -> le_split (length l) (le_combine l) = l.
Proof.
  induction 1 as [|b l Hb _ IH]; [done|]. cbn [le_combine le_split length].
  unfold u8, is_byte in *. change (2 ^ 8) with 256.
  rewrite (Z.mul_comm 256), Z.mod_add, Z.mod_small by lia.
  by rewrite Z.div_add, (Z.div_small b), Z.add_0_l, IH by lia.
Qed.

(** The accumulation loop [v = v << 8 | byte]. *)
Definition be_acc (v b : Z) : Z := (v <<< 8) ||| b.

Lemma be_acc_spec v b : is_byte b -> be_acc v b = v * 256 + b.
Proof. intros. unfold be_acc. by rewrite lor_shiftl_add. Qed.

Lemma fold_be_acc l v :
  Forall is_byte l ->
  fold_left be_acc l v = v * 2 ^ (8 * Z.of_nat (length l)) + le_combine (rev l).
Proof.
  intros Hl. revert v. induction Hl as [|b l Hb _ IH]; intros v; [simpl; lia|].
  cbn [fold_left]. rewrite IH, be_acc_spec by done.
  cbn [length rev]. rewrite Nat2Z.inj_succ, Z.mul_succ_r, Z.pow_add_r by lia.
  assert (forall m x, le_combine (m ++ [x]) = le_combine m + x * 2 ^ (8 * Z.of_nat (length m))) as Hsnoc.
  { clear. induction m as [|y m IHm]; intros x; [simpl; lia|].
    cbn [le_combine length app]. rewrite IHm, Nat2Z.inj_succ, Z.mul_succ_r, Z.pow_add_r by lia.
    change (2 ^ 8) with 256. lia. }
  rewrite Hsnoc, length_rev. change (2 ^ 8) with 256. lia.
Qed.

Lemma le_combine_lxor l1 l2 :
  length l1 = length l2 -> Forall is_byte l1 -> Forall is_byte l2 ->
  le_combine l1 ^^^ le_combine l2 = le_combine (zip_with Z.lxor l1 l2).
Proof.
  intros Hlen H1. revert l2 Hlen. induction H1 as [|b l Hb _ IH]; intros [|c m] Hlen H2; try done.
  inversion H2 as [|? ? Hc Hm]; simplify_eq/=. rewrite <- IH by done.
  assert (forall x y, is_byte x -> x + 256 * y = (y <<< 8) ||| x) as Hor.
  { intros x y Hx. rewrite lor_shiftl_add by done. change (2 ^ 8) with 256. lia. }
  rewrite !Hor by (done || by apply (lxor_bound _ _ 8)).
  apply Z.bits_inj'; intros i Hi.
  rewrite !Z.lxor_spec, !Z.lor_spec, !Z.shiftl_spec, !Z.lxor_spec by lia.
  destruct (Z.lt_ge_cases i 8).
  - by rewrite !(Z.testbit_neg_r _ (i - 8)) by lia.
  - by rewrite !(testbit_high b 8), !(testbit_high c 8), !orb_false_r by (done || lia).
Qed.

(** ** Fixed blocks of memory *)

(** [memcpy(d + off, src, len)] into a block [d]; writing past its end is
    undefined behaviour, [None]. *)
Definition write_at (d : bytes) (off : Z) (src : bytes) : option bytes :=
  if (0 <=? off) && (off + size src <=? size d)
  then Some (take (Z.to_nat off) d ++ src ++ drop (Z.to_nat (off + size src)) d)
  else None.

(** The run [[off, off + len)] of a block. *)
Definition view_at (d : bytes) (off len : Z) : bytes := substr d (Z.to_nat off) (Z.to_nat len).

Lemma write_at_some d off src :
  0 <= off -> off + size src <= size d -> exists d', write_at d off src = Some d' /\ size d' = size d.
Proof.
  intros H1 H2. unfold write_at. destruct (Z.leb_spec 0 off); [|lia].
  destruct (Z.leb_spec (off + size src) (size d)); [|lia]. eexists. split; [done|].
  unfold size in *. rewrite !length_app, length_take, length_drop. lia.
Qed.

Lemma write_at_below d off src d' o n :
  write_at d off src = Some d' -> 0 <= o -> 0 <= n -> o + n <= off -> view_at d' o n = view_at d o n.
Proof.
  unfold write_at. intros H Ho Hn Hb. bool_destruct; simplify_eq. zify_bool. unfold view_at, substr, size in *.
  rewrite drop_app_le by (rewrite length_take; lia).
  rewrite take_app_le by (rewrite length_drop, length_take; lia).
  rewrite <- (take_drop (Z.to_nat off) d) at 2. rewrite drop_app_le by (rewrite length_take; lia).
  by rewrite take_app_le by (rewrite length_drop, length_take; lia).
Qed.

Lemma write_at_view d off src d' :
  write_at d off src = Some d' -> view_at d' off (size src) = src.
Proof.
  unfold write_at. intros H. bool_destruct; simplify_eq. zify_bool. unfold view_at, substr, size in *.
  rewrite drop_app_ge by (rewrite length_take; lia). rewrite length_take_le by lia.
  rewrite Nat.sub_diag, drop_0, Nat2Z.id, take_app_length. done.
Qed.

Lemma view_at_split d o n m :
  0 <= o -> 0 <= n -> 0 <= m -> view_at d o (n + m) = view_at d o n ++ view_at d (o + n) m.
Proof.
  intros. unfold view_at, substr. rewrite !Z2Nat.inj_add, <- drop_drop by lia.
  rewrite <- (take_drop (Z.to_nat n) (drop (Z.to_nat o) d)) at 1.
  set (l := drop (Z.to_nat o) d). destruct (le_lt_dec (Z.to_nat n) (length l)) as [Hle|Hgt].
  - rewrite take_app, length_take_le by done. rewrite take_take. f_equal; f_equal; lia.
  - by rewrite (drop_ge l), take_nil, !app_nil_r, take_take, Nat.min_r by lia.
Qed.

(** Appending at the cursor extends the written prefix. *)
Lemma write_at_above d off src d' n :
  write_at d off src = Some d' -> off + size src <= Z.of_nat n -> drop n d' = drop n d.
Proof.
  unfold write_at. intros H Hn. bool_destruct; simplify_eq. zify_bool. unfold size in *.
  rewrite drop_app_ge by (rewrite length_take; lia). rewrite length_take_le by lia. rewrite drop_app_ge by lia.
  rewrite drop_drop. f_equal. lia.
Qed.

Lemma write_at_append d off src d' :
  write_at d off src = Some d' -> 0 <= off -> view_at d' 0 (off + size src) = view_at d 0 off ++ src.
Proof.
  intros H Ho. rewrite view_at_split, Z.add_0_l by (unfold size; lia).
  rewrite (write_at_below _ _ _ _ 0 off H), (write_at_view _ _ _ _ H) by lia. done.
Qed.

Lemma size_view_at d o n : 0 <= o -> 0 <= n -> o + n <= size d -> size (view_at d o n) = n.
Proof.
  intros. unfold view_at, substr, size in *. rewrite length_take, length_drop. lia.
Qed.

(** ** Results and errors: src/include/cornet/base/expected.h *)

Inductive error_domain :=
| DNone | DSystem | DResolve | DInternal | DException | DHttp | DTls | DWebsocket
| DExternal (idx : Z).

#[global] Instance error_domain_eq_dec : EqDecision error_domain.
Proof. solve_decision. Defined.

Record error_t := Error { code : Z; domain : error_domain }.

#[global] Instance error_t_eq_dec : EqDecision error_t.
Proof. solve_decision. Defined.

(** The default-constructed [error_t{}]. *)
Definition no_error : error_t := Error 0 DNone.

(** [explicit operator bool]: an error is set when its domain is not [None]. *)
Definition is_error (e : error_t) : bool :=
  match domain e with DNone => false | _ => true end.

Inductive expected (A : Type) :=
| Ok (a : A)
| Unexpected (e : error_t).
Arguments Ok {A} a.
Arguments Unexpected {A} e.

Definition system_error (errno : Z) : error_t := Error errno DSystem.
