(* ===== verification/WsFrame.v ===== *)
(** * WebSocket frame codec

    src/include/cornet/websocket/common/{protocol,frame}.h and
    src/src/websocket/common/frame.cc: opcodes, roles and close codes, the
    incremental frame-header parser, the header writer and the masking loop. *)

From stdpp Require Import prelude list_numbers.
From Stdlib Require Import ZArith Lia.
From S2P Require Import Prelude.

(** ** Protocol constants *)

Inductive opcode_t := Continue | Text | Binary | Close | Ping | Pong.

#[global] Instance opcode_t_eq_dec : EqDecision opcode_t.
Proof. solve_decision. Defined.

Definition opcode_val (op : opcode_t) : Z :=
  match op with
  | Continue => 0x0 | Text => 0x1 | Binary => 0x2
  | Close => 0x8 | Ping => 0x9 | Pong => 0xA
  end.

Inductive role_t := Client | Server.

#[global] Instance role_t_eq_dec : EqDecision role_t.
Proof. solve_decision. Defined.

Definition opcode_is_control (op : opcode_t) : bool := 0x8 <=? opcode_val op.

Definition opcode_is_data (op : opcode_t) : bool :=
  match op with Text | Binary => true | _ => false end.

Definition close_code_valid (code : Z) : bool :=
  if code <? 1000 then false
  else if 5000 <=? code then false
  else negb (code =? 1004) && negb (code =? 1005) && negb (code =? 1006) && negb (code =? 1015).

Inductive websocket_error_t :=
| ReservedBits | InvalidOpcode | UnmaskedFrame | MaskedFrame | FragmentedControl
| ControlTooLarge | NonCanonicalLength | MessageTooLarge | ContinuationExpected
| ContinuationUnexpected | InvalidCloseCode | HandshakeFailed | Closed.

#[global] Instance websocket_error_t_eq_dec : EqDecision websocket_error_t.
Proof. solve_decision. Defined.

Definition websocket_error_val (e : websocket_error_t) : Z :=
  match e with
  | ReservedBits => 1 | InvalidOpcode => 2 | UnmaskedFrame => 3 | MaskedFrame => 4
  | FragmentedControl => 5 | ControlTooLarge => 6 | NonCanonicalLength => 7
  | MessageTooLarge => 8 | ContinuationExpected => 9 | ContinuationUnexpected => 10
  | InvalidCloseCode => 11 | HandshakeFailed => 12 | Closed => 13
  end.

Definition websocket_error (e : websocket_error_t) : error_t :=
  Error (websocket_error_val e) DWebsocket.

Definition kMaxFrameHeaderLen : Z := 14.
Definition kMaxControlPayload : Z := 125.

(** ** The header parser *)

Record frame_t := mk_frame {
  fin : bool;
  opcode : opcode_t;
  payload_len : Z;
  masked : bool;
  mask_key : Z;
  header_len : Z
}.

Definition frame_init : frame_t := mk_frame false Continue 0 false 0 0.

Inductive result_t := NeedMore | Frame | FError.

Record frame_decoder_t := mk_decoder { role_ : role_t; err_ : error_t }.

Definition decoder_init (r : role_t) : frame_decoder_t := mk_decoder r no_error.

(** [window[i]], used only below [window.size()]. *)
Definition at_ (window : bytes) (i : nat) : Z := nth i window 0.

(** The [switch] over the opcode nibble. *)
Definition opcode_of (nibble : Z) : option opcode_t :=
  match nibble with
  | 0x0 => Some Continue | 0x1 => Some Text | 0x2 => Some Binary
  | 0x8 => Some Close | 0x9 => Some Ping | 0xA => Some Pong
  | _ => None
  end.

(** The outcome of the length stage: the decoded length and the offset behind it. *)
Inductive len_result :=
| LenNeedMore
| LenBad
| LenOk (len : Z) (off : nat).

Definition parse_len (window : bytes) (len : Z) : len_result :=
  let off := 2%nat in
  if len =? 126 then
    if size window <? 4 then LenNeedMore
    else
      let len := u64 ((at_ window off <<< 8) ||| at_ window (off + 1)) in
      if len <=? kMaxControlPayload then LenBad else LenOk len (off + 2)
  else if len =? 127 then
    if size window <? 10 then LenNeedMore
    else
      let v := fold_left (fun v b => u64 ((v <<< 8) ||| b)) (substr window off 8) 0 in
      if 0x7FFFFFFFFFFFFFFF <? v then LenBad
      else if v <=? 0xFFFF then LenBad
      else LenOk v (off + 8)
  else LenOk len off.

Definition parse (d : frame_decoder_t) (window : bytes) (out : frame_t)
    : result_t * frame_decoder_t * frame_t :=
  let fail e := (FError, mk_decoder (role_ d) (websocket_error e), out) in
  let more := (NeedMore, d, out) in
  if is_error (err_ d) then (FError, d, out)
  else if size window <? 2 then more
  else
    let b0 := at_ window 0 in
    let b1 := at_ window 1 in
    if negb ((b0 &&& 0x70) =? 0) then fail ReservedBits
    else
      match opcode_of (b0 &&& 0x0F) with
      | None => fail InvalidOpcode
      | Some op =>
          let fin := negb ((b0 &&& 0x80) =? 0) in
          let masked := negb ((b1 &&& 0x80) =? 0) in
          let len := b1 &&& 0x7F in
          if bool_decide (role_ d = Server) && negb masked then fail UnmaskedFrame
          else if bool_decide (role_ d = Client) && masked then fail MaskedFrame
          else if opcode_is_control op && negb fin then fail FragmentedControl
          else if opcode_is_control op && (kMaxControlPayload <? len) then fail ControlTooLarge
          else
            match parse_len window len with
            | LenNeedMore => more
            | LenBad => fail NonCanonicalLength
            | LenOk len off =>
                if masked then
                  if size window <? Z.of_nat off + 4 then more
                  else (Frame, d, mk_frame fin op len masked
                                    (le_combine (substr window off 4)) (Z.of_nat off + 4))
                else (Frame, d, mk_frame fin op len masked 0 (Z.of_nat off))
            end
      end.

(** ** The header writer

    [write_frame_header(out, ...)] fills a prefix of [out] and returns its
    length; the model returns that prefix. *)
Definition write_frame_header (fin : bool) (op : opcode_t) (payload_len mask_key : Z) : bytes :=
  let out0 := u8 ((if fin then 0x80 else 0x00) ||| opcode_val op) in
  let mask_bit := if mask_key =? 0 then 0x00 else 0x80 in
  let hdr :=
    if payload_len <=? kMaxControlPayload then
      [out0; u8 (mask_bit ||| u8 payload_len)]
    else if payload_len <=? 0xFFFF then
      [out0; u8 (mask_bit ||| 126); u8 (payload_len >>> 8); u8 payload_len]
    else
      [out0; u8 (mask_bit ||| 127)] ++
      map (fun i => u8 (payload_len >>> (56 - 8 * i))) (seqZ 0 8) in
  hdr ++ (if mask_key =? 0 then [] else le_split 4 mask_key).

(** ** Masking

    [apply_mask(key, data, len, offset)] rewrites [data] in place; the model
    returns the rewritten bytes. *)

Definition key_byte (key t : Z) : Z := u8 (key >>> (t * 8)).

(** head: byte-wise until the position is a multiple of four; returns the
    rewritten bytes and the untouched remainder *)
Fixpoint mask_head (key pos : Z) (data : bytes) : bytes * bytes :=
  match data with
  | [] => ([], [])
  | b :: rest =>
      if (u64 pos &&& 3) =? 0 then ([], data)
      else
        let '(dn, rst) := mask_head key (pos + 1) rest in
        ((b ^^^ key_byte key (u64 pos &&& 3)) :: dn, rst)
  end.

(** tail: the last bytes, key bytes counted from zero *)
Fixpoint mask_tail (key t : Z) (data : bytes) : bytes :=
  match data with
  | [] => []
  | b :: rest => (b ^^^ key_byte key t) :: mask_tail key (t + 1) rest
  end.

(** body: whole words, then the tail *)
Fixpoint mask_body (key : Z) (data : bytes) : bytes :=
  match data with
  | b0 :: b1 :: b2 :: b3 :: rest =>
      le_split 4 (le_combine [b0; b1; b2; b3] ^^^ key) ++ mask_body key rest
  | _ => mask_tail key 0 data
  end.

Definition apply_mask (key : Z) (data : bytes) (offset : Z) : bytes :=
  let '(dn, rst) := mask_head key offset data in dn ++ mask_body key rst.

(** Reference: byte [i] of the payload is XORed with key byte [(offset + i) mod 4]. *)
Definition mask_spec (key : Z) (data : bytes) (offset : Z) : bytes :=
  imap (fun i b => b ^^^ key_byte key ((offset + Z.of_nat i) mod 4)) data.

(** ** Masking: proofs *)

Section Masking.
Context (key : Z) (Hkey : 0 <= key < 2 ^ 32).

Lemma land3_mod4 x : x &&& 3 = x mod 4.
Proof. change 3 with (Z.ones 2). by rewrite Z.land_ones. Qed.

Lemma u64_mod4 x : u64 x mod 4 = x mod 4.
Proof.
  unfold u64. apply Z.mod_mod_divide. by exists (2 ^ 62).
Qed.

Lemma mask_spec_cons b l off :
  mask_spec key (b :: l) off = (b ^^^ key_byte key (off mod 4)) :: mask_spec key l (off + 1).
Proof.
  unfold mask_spec. cbn [imap]. rewrite Z.add_0_r. f_equal.
  apply imap_ext; intros i x _. simpl. do 3 f_equal. lia.
Qed.

Lemma mask_spec_app l1 l2 off :
  mask_spec key (l1 ++ l2) off = mask_spec key l1 off ++ mask_spec key l2 (off + size l1).
Proof.
  revert off. induction l1 as [|b l1 IH]; intros off.
  { simpl. unfold size; simpl. by rewrite Z.add_0_r. }
  cbn [app]. rewrite !mask_spec_cons, IH. cbn [app]. do 3 f_equal. unfold size; simpl. lia.
Qed.

Lemma mask_spec_cong l off off' :
  off mod 4 = off' mod 4 -> mask_spec key l off = mask_spec key l off'.
Proof.
  intros H. unfold mask_spec. apply imap_ext; intros i x _. simpl.
  by rewrite <- (Z.add_mod_idemp_l off), H, Z.add_mod_idemp_l by lia.
Qed.

Lemma length_mask_spec l off : length (mask_spec key l off) = length l.
Proof. apply length_imap. Qed.

Lemma mask_tail_spec l t :
  0 <= t -> t + size l <= 4 -> mask_tail key t l = mask_spec key l t.
Proof.
  revert t. induction l as [|b l IH]; intros t Ht Hl; [done|].
  unfold size in Hl; simpl in Hl. rewrite mask_spec_cons. simpl.
  rewrite IH by (unfold size; lia). by rewrite Z.mod_small by lia.
Qed.

Lemma key_le : le_split 4 key = [key_byte key 0; key_byte key 1; key_byte key 2; key_byte key 3].
Proof.
  unfold key_byte. cbn [le_split]. rewrite !Z.shiftr_div_pow2, !Z.div_div by lia.
  by rewrite Z.div_1_r.
Qed.

Lemma mask_word b0 b1 b2 b3 :
  Forall is_byte [b0; b1; b2; b3] ->
  le_split 4 (le_combine [b0; b1; b2; b3] ^^^ key) = mask_spec key [b0; b1; b2; b3] 0.
Proof.
  intros Hb. assert (key = le_combine (le_split 4 key)) as Hk.
  { rewrite le_combine_split. symmetry; apply Z.mod_small. done. }
  rewrite Hk at 1. rewrite le_combine_lxor; [|by rewrite length_le_split|done|apply le_split_byte].
  rewrite key_le. cbn [zip_with]. rewrite !mask_spec_cons.
  change 4%nat with (length [b0 ^^^ key_byte key 0; b1 ^^^ key_byte key 1;
                             b2 ^^^ key_byte key 2; b3 ^^^ key_byte key 3]).
  rewrite le_split_combine; [done|].
  decompose_Forall_hyps. repeat constructor; apply (lxor_bound _ _ 8); try done; apply u8_range.
Qed.

Lemma mask_body_spec l : Forall is_byte l -> mask_body key l = mask_spec key l 0.
Proof.
  remember (length l) as n eqn:Hn. revert l Hn.
  induction (lt_wf n) as [n _ IH]; intros l Hn Hl.
  destruct l as [|b0 [|b1 [|b2 [|b3 rest]]]].
  1-4: cbn [mask_body]; apply mask_tail_spec; unfold size; simpl; lia.
  cbn [mask_body]. change (b0 :: b1 :: b2 :: b3 :: rest) with ([b0; b1; b2; b3] ++ rest) in *.
  apply Forall_app in Hl as [H4 Hr]. rewrite mask_word, mask_spec_app by done. f_equal.
  rewrite (IH (length rest)) by (simpl in *; done || lia).
  by apply mask_spec_cong.
Qed.

Lemma mask_head_spec l pos dn rst :
  mask_head key pos l = (dn, rst) ->
  l = take (length dn) l ++ rst /\
  dn = mask_spec key (take (length dn) l) pos /\
  (rst = [] \/ (pos + size dn) mod 4 = 0).
Proof.
  revert pos dn rst. induction l as [|b l IH]; intros pos dn rst H; simpl in H.
  { simplify_eq. simpl. by auto. }
  rewrite land3_mod4, u64_mod4 in H. destruct (pos mod 4 =? 0) eqn:E.
  { simplify_eq. zify_bool. simpl. unfold size; simpl. rewrite Z.add_0_r. auto. }
  destruct (mask_head key (pos + 1) l) as [d r] eqn:Hr. simplify_eq.
  destruct (IH _ _ _ Hr) as (Hl & Hd & Hm). cbn [length take].
  rewrite mask_spec_cons. split; [|split].
  - simpl. by rewrite <- Hl.
  - by rewrite <- Hd.
  - destruct Hm as [|Hm]; [by left|right]. unfold size in *. simpl length.
    by replace (pos + Z.of_nat (S (length d))) with (pos + 1 + Z.of_nat (length d)) by lia.
Qed.

Lemma apply_mask_correct l off :
  Forall is_byte l -> apply_mask key l off = mask_spec key l off.
Proof.
  intros Hl. unfold apply_mask. destruct (mask_head key off l) as [d r] eqn:Hh.
  destruct (mask_head_spec _ _ _ _ Hh) as (Hsplit & Hd & Hm).
  assert (Forall is_byte r) as Hr by (rewrite Hsplit in Hl; by apply Forall_app in Hl as [_ ?]).
  rewrite mask_body_spec by done. rewrite Hsplit at 1. rewrite mask_spec_app, <- Hd. f_equal.
  destruct Hm as [->|Hm]; [done|]. apply mask_spec_cong.
  rewrite Hd in Hm. unfold size in Hm. rewrite length_mask_spec in Hm.
  unfold size. by rewrite Hm.
Qed.

Lemma mask_spec_byte l off : Forall is_byte l -> Forall is_byte (mask_spec key l off).
Proof.
  revert off. induction l as [|b l IH]; intros off Hl; [constructor|].
  inversion Hl; subst. rewrite mask_spec_cons. constructor; [|by apply IH].
  apply (lxor_bound _ _ 8); [lia|done|apply u8_range].
Qed.

Lemma mask_spec_involutive l off : mask_spec key (mask_spec key l off) off = l.
Proof.
  revert off. induction l as [|b l IH]; intros off; [done|].
  by rewrite !mask_spec_cons, IH, Z.lxor_assoc, Z.lxor_nilpotent, Z.lxor_0_r.
Qed.
End Masking.

(** ** Header codec: proofs *)

(** The first header byte and the seven-bit length field, as the writer emits them. *)
Definition byte0 (fin : bool) (op : opcode_t) : Z :=
  u8 ((if fin then 0x80 else 0x00) ||| opcode_val op).
Definition byte1 (masked : bool) (l7 : Z) : Z :=
  u8 ((if masked then 0x80 else 0x00) ||| u8 l7).

(** The seven-bit field and the extension bytes of a length in minimal form. *)
Definition len7 (len : Z) : Z :=
  if len <=? kMaxControlPayload then len else if len <=? 0xFFFF then 126 else 127.
Definition len_ext (len : Z) : bytes :=
  if len <=? kMaxControlPayload then []
  else if len <=? 0xFFFF then [u8 (len >>> 8); u8 len]
  else map (fun i => u8 (len >>> (56 - 8 * i))) (seqZ 0 8).
Definition mask_bytes (key : Z) : bytes := if key =? 0 then [] else le_split 4 key.

Lemma byte0_fields fin op :
  byte0 fin op &&& 0x70 = 0 /\ opcode_of (byte0 fin op &&& 0x0F) = Some op /\
  negb ((byte0 fin op &&& 0x80) =? 0) = fin.
Proof. by destruct fin, op. Qed.

Lemma byte0_inv b :
  is_byte b -> b &&& 0x70 = 0 -> forall op, opcode_of (b &&& 0x0F) = Some op ->
  b = byte0 (negb ((b &&& 0x80) =? 0)) op.
Proof.
  intros Hb Hr op Hop.
  pose proof (byte_forall (fun b => negb ((b &&& 0x70) =? 0) ||
    match opcode_of (b &&& 0x0F) with
    | Some op => b =? byte0 (negb ((b &&& 0x80) =? 0)) op | None => true end) eq_refl b Hb) as H.
  simpl in H. rewrite Hr, Hop in H. simpl in H. by apply Z.eqb_eq in H.
Qed.

Lemma byte1_fields m l :
  0 <= l <= 127 -> negb ((byte1 m l &&& 0x80) =? 0) = m /\ byte1 m l &&& 0x7F = l.
Proof.
  intros Hl.
  assert (forallb (fun l => (127 <? l) ||
    (eqb (negb ((byte1 m l &&& 0x80) =? 0)) m && ((byte1 m l &&& 0x7F) =? l))) (seqZ 0 256) = true)
    as Hall by by destruct m.
  pose proof (byte_forall _ Hall l) as H. specialize (H ltac:(unfold is_byte; lia)).
  simpl in H. apply orb_true_iff in H as [H|H]; zify_bool; [lia|].
  destruct H as [H1 H2]. by apply eqb_prop in H1.
Qed.

Lemma byte1_inv b :
  is_byte b -> b = byte1 (negb ((b &&& 0x80) =? 0)) (b &&& 0x7F) /\ 0 <= b &&& 0x7F <= 127.
Proof.
  intros Hb.
  pose proof (byte_forall (fun b =>
    (b =? byte1 (negb ((b &&& 0x80) =? 0)) (b &&& 0x7F)) &&
    (0 <=? b &&& 0x7F) && (b &&& 0x7F <=? 127)) eq_refl b Hb) as H. simpl in H. zify_bool. lia.
Qed.

Lemma len7_range len : 0 <= len -> 0 <= len7 len <= 127.
Proof. unfold len7, kMaxControlPayload. bool_destruct; zify_bool; lia. Qed.

Lemma write_shape fin op len key :
  0 <= len ->
  write_frame_header fin op len key =
    byte0 fin op :: byte1 (negb (key =? 0)) (len7 len) :: len_ext len ++ mask_bytes key.
Proof.
  intros Hlen. unfold write_frame_header, len7, len_ext, mask_bytes, byte0, byte1.
  by destruct (len <=? kMaxControlPayload), (len <=? 0xFFFF), (key =? 0).
Qed.

Lemma len_ext_byte len : Forall is_byte (len_ext len).
Proof.
  unfold len_ext. repeat case_match; solve_bytes.
Qed.

(** *** Big-endian extension bytes *)

Lemma fold_u64_be_acc l v :
  Forall is_byte l -> 0 <= v -> v * 2 ^ (8 * size l) + 2 ^ (8 * size l) <= 2 ^ 64 ->
  fold_left (fun v b => u64 ((v <<< 8) ||| b)) l v = fold_left be_acc l v.
Proof.
  intros Hl. revert v. induction Hl as [|b l Hb Hl IH]; intros v Hv Hbound; [done|].
  cbn [fold_left]. change ((v <<< 8) ||| b) with (be_acc v b). rewrite be_acc_spec by done.
  unfold size in *. simpl length in Hbound.
  rewrite Nat2Z.inj_succ, Z.mul_succ_r, Z.pow_add_r in Hbound by lia.
  unfold is_byte in Hb. pose proof (Z.pow_pos_nonneg 2 (8 * Z.of_nat (length l))).
  assert (0 <= v * 256 + b < 2 ^ 64) as Hr by nia.
  rewrite u64_small by done. apply IH; [lia|]. change (2 ^ 8) with 256 in Hbound. nia.
Qed.

Lemma be8_rev len :
  rev (map (fun i => u8 (len >>> (56 - 8 * i))) (seqZ 0 8)) = le_split 8 len.
Proof.
  cbn [le_split]. change (seqZ 0 8) with [0; 1; 2; 3; 4; 5; 6; 7]. cbn [map rev app].
  rewrite !Z.shiftr_div_pow2, !Z.div_div by lia. by rewrite Z.div_1_r.
Qed.

Lemma be8_combine len :
  0 <= len < 2 ^ 64 ->
  fold_left (fun v b => u64 ((v <<< 8) ||| b))
    (map (fun i => u8 (len >>> (56 - 8 * i))) (seqZ 0 8)) 0 = len.
Proof.
  intros Hlen. assert (Forall is_byte (map (fun i => u8 (len >>> (56 - 8 * i))) (seqZ 0 8))) as Hb.
  { solve_bytes. }
  rewrite fold_u64_be_acc, fold_be_acc, be8_rev, le_combine_split by (done || lia).
  rewrite Z.mod_small; [lia|exact Hlen].
Qed.

Lemma be8_inv l :
  length l = 8%nat -> Forall is_byte l ->
  map (fun i => u8 (fold_left (fun v b => u64 ((v <<< 8) ||| b)) l 0 >>> (56 - 8 * i))) (seqZ 0 8)
    = l /\ 0 <= fold_left (fun v b => u64 ((v <<< 8) ||| b)) l 0 < 2 ^ 64.
Proof.
  intros Hlen Hl.
  rewrite fold_u64_be_acc, fold_be_acc by (done || (unfold size; rewrite Hlen; lia)).
  rewrite Z.mul_0_l, Z.add_0_l. set (v := le_combine (rev l)).
  assert (Forall is_byte (rev l)) as Hr by (by apply Forall_rev).
  split.
  - rewrite <- (rev_involutive (map _ _)), be8_rev. unfold v.
    rewrite <- Hlen, <- (length_rev l), le_split_combine by done. apply rev_involutive.
  - pose proof (le_combine_range _ Hr) as H. rewrite length_rev, Hlen in H. exact H.
Qed.

(** *** The length stage *)

Lemma parse_len_ok x y len rest :
  0 <= len < 2 ^ 63 ->
  parse_len (x :: y :: len_ext len ++ rest) (len7 len) = LenOk len (2 + length (len_ext len)).
Proof.
  intros Hlen. unfold parse_len, len7, len_ext, kMaxControlPayload, size, at_, substr.
  destruct (Z.leb_spec len 125); [|destruct (Z.leb_spec len 0xFFFF)].
  - by destruct (Z.eqb_spec len 126), (Z.eqb_spec len 127); try lia.
  - cbn [app length nth Nat.add]. change (126 =? 126) with true. cbn match.
    replace (_ <? 4) with false by (symmetry; apply Z.ltb_ge; lia).
    replace (u64 _) with len; [by replace (len <=? 125) with false by (symmetry; apply Z.leb_gt; lia)|].
    change (_ ||| _) with (be_acc (u8 (len >>> 8)) (u8 len)). rewrite be_acc_spec by apply u8_range.
    unfold u8. rewrite Z.shiftr_div_pow2 by lia. change (2 ^ 8) with 256.
    rewrite (Z.mod_small (len / 256)) by (split; [apply Z.div_pos|apply Z.div_lt_upper_bound]; lia).
    rewrite u64_small; [rewrite (Z.div_mod len 256) at 1; lia|].
    pose proof (Z.div_mod len 256). lia.
  - change (127 =? 126) with false. change (127 =? 127) with true. cbn match.
    set (ext := map _ _). assert (length ext = 8%nat) as Hl by done.
    replace (_ <? 10) with false by (symmetry; apply Z.ltb_ge; rewrite !length_cons, length_app, Hl; lia).
    change (drop 2 (x :: y :: ext ++ rest)) with (ext ++ rest). rewrite take_app_length' by done. unfold ext. rewrite be8_combine by lia.
    replace (_ <? len) with false by (symmetry; apply Z.ltb_ge; lia).
    by replace (len <=? _) with false by (symmetry; apply Z.leb_gt; lia).
Qed.

Lemma parse_len_inv w l len off :
  Forall is_byte w -> 2 <= size w -> 0 <= l <= 127 ->
  parse_len w l = LenOk len off ->
  0 <= len < 2 ^ 63 /\ l = len7 len /\ off = (2 + length (len_ext len))%nat /\
  (off <= length w)%nat /\ take off w = take 2 w ++ len_ext len.
Proof.
  intros Hw H2 Hl. unfold parse_len, kMaxControlPayload, size, at_, substr in *.
  destruct w as [|x [|y w]]; try (simpl in H2; lia). cbn [nth drop].
  destruct (Z.eqb_spec l 126) as [->|]; [|destruct (Z.eqb_spec l 127) as [->|]].
  - destruct w as [|b0 [|b1 w]]; intros H; try (simpl in H; done).
    cbn [nth Nat.add] in H. decompose_Forall_hyps.
    change (_ ||| _) with (be_acc b0 b1) in H. rewrite be_acc_spec in H by done.
    unfold is_byte in *. rewrite u64_small in H by lia.
    bool_destruct; zify_bool; [done|done|]. simplify_eq.
    assert (len_ext (b0 * 256 + b1) = [b0; b1] /\ len7 (b0 * 256 + b1) = 126) as [-> ->].
    { unfold len_ext, len7, kMaxControlPayload.
      replace (_ <=? 125) with false by (symmetry; apply Z.leb_gt; lia).
      replace (_ <=? 0xFFFF) with true by (symmetry; apply Z.leb_le; lia).
      unfold u8. rewrite Z.shiftr_div_pow2 by lia. change (2 ^ 8) with 256.
      rewrite Z.div_add_l, (Z.div_small b1), Z.add_0_r by lia.
      rewrite (Z.mod_small b0), Z.add_comm, Z.mod_add, Z.mod_small by lia. done. }
    simpl. repeat split; lia.
  - destruct (Z.ltb_spec (Z.of_nat (length (x :: y :: w))) 10); [done|].
    simpl length in *. assert (length (take 8 w) = 8%nat) as H8 by (rewrite length_take; lia).
    decompose_Forall_hyps. assert (Forall is_byte (take 8 w)) as Hb8 by by apply Forall_take.
    destruct (be8_inv _ H8 Hb8) as [Hinv Hr].
    set (v := fold_left _ _ _) in *. intros Hp. bool_destruct; zify_bool; try done.
    injection Hp as <- <-.
    assert (len_ext v = take 8 w /\ len7 v = 127) as [-> ->].
    { unfold len_ext, len7, kMaxControlPayload.
      replace (v <=? 125) with false by (symmetry; apply Z.leb_gt; lia).
      by replace (v <=? 0xFFFF) with false by (symmetry; apply Z.leb_gt; lia). }
    rewrite H8. simpl. repeat split; lia.
  - intros H. simplify_eq.
    assert (len_ext len = [] /\ len7 len = len) as [-> ->].
    { unfold len_ext, len7, kMaxControlPayload.
      by replace (len <=? 125) with true by (symmetry; apply Z.leb_le; lia). }
    simpl. repeat split; lia.
Qed.

(** *** The whole parser *)

(** A decoder of role [r] accepts the masking a peer of the other role applies. *)
Definition mask_ok (r : role_t) (m : bool) : bool :=
  match r with Server => m | Client => negb m end.

Lemma parse_prefix d out fin op m l7 tail :
  is_error (err_ d) = false -> mask_ok (role_ d) m = true -> 0 <= l7 <= 127 ->
  (opcode_is_control op = true -> fin = true /\ l7 <= kMaxControlPayload) ->
  let w := byte0 fin op :: byte1 m l7 :: tail in
  parse d w out =
    match parse_len w l7 with
    | LenNeedMore => (NeedMore, d, out)
    | LenBad => (FError, mk_decoder (role_ d) (websocket_error NonCanonicalLength), out)
    | LenOk len off =>
        if m then
          if size w <? Z.of_nat off + 4 then (NeedMore, d, out)
          else (Frame, d, mk_frame fin op len true (le_combine (substr w off 4)) (Z.of_nat off + 4))
        else (Frame, d, mk_frame fin op len false 0 (Z.of_nat off))
    end.
Proof.
  intros He Hm Hl7 Hc w. unfold parse. rewrite He.
  replace (size w <? 2) with false by (symmetry; apply Z.ltb_ge; unfold size, w; simpl; lia).
  change (at_ w 0) with (byte0 fin op). change (at_ w 1) with (byte1 m l7).
  destruct (byte0_fields fin op) as (-> & -> & ->).
  destruct (byte1_fields m l7 Hl7) as [-> ->]. simpl negb. cbn match.
  replace (bool_decide (role_ d = Server) && negb m) with false by (by destruct (role_ d), m).
  replace (bool_decide (role_ d = Client) && m) with false by (by destruct (role_ d), m).
  destruct (opcode_is_control op) eqn:Hctl; simpl; [|by destruct m].
  destruct (Hc eq_refl) as [-> Hle]. simpl.
  replace (kMaxControlPayload <? l7) with false by (symmetry; apply Z.ltb_ge; lia). by destruct m.
Qed.

(** What a sender of the opposite role may pass to [write_frame_header]. *)
Definition sendable (r : role_t) (fin : bool) (op : opcode_t) (len key : Z) : Prop :=
  0 <= len < 2 ^ 63 /\
  (opcode_is_control op = true -> fin = true /\ len <= kMaxControlPayload) /\
  match r with Server => 0 < key < 2 ^ 32 | Client => key = 0 end.

Lemma sendable_len7 r fin op len key :
  sendable r fin op len key ->
  opcode_is_control op = true -> fin = true /\ len7 len <= kMaxControlPayload.
Proof.
  intros (Hlen & Hc & _) Hop. destruct (Hc Hop) as [-> Hle]. split; [done|].
  unfold len7. by rewrite (proj2 (Z.leb_le _ _) Hle).
Qed.

Lemma parse_write d out fin op len key rest :
  is_error (err_ d) = false -> sendable (role_ d) fin op len key ->
  let hdr := write_frame_header fin op len key in
  parse d (hdr ++ rest) out =
    (Frame, d, mk_frame fin op len (negb (key =? 0)) key (size hdr)).
Proof.
  intros He Hs hdr. pose proof (sendable_len7 _ _ _ _ _ Hs) as Hc7.
  destruct Hs as (Hlen & Hc & Hk). unfold hdr. rewrite write_shape by lia. cbn [app].
  rewrite parse_prefix; [|done| |by apply len7_range; lia|done].
  2:{ destruct (role_ d); simpl; [by subst|]. by destruct (Z.eqb_spec key 0); [lia|]. }
  rewrite <- app_assoc, parse_len_ok by lia. set (ext := len_ext len). unfold mask_bytes, size.
  destruct (Z.eqb_spec key 0) as [->|Hne]; simpl negb; cbn match.
  - do 2 f_equal. rewrite !length_cons, length_app. simpl. lia.
  - replace (_ <? _) with false
      by (symmetry; apply Z.ltb_ge; rewrite !length_cons, !length_app, length_le_split; lia).
    unfold substr. change (drop (2 + length ext) (?x :: ?y :: ?l)) with (drop (length ext) l).
    rewrite drop_app_length, take_app_length' by (symmetry; apply length_le_split).
    rewrite le_combine_split, Z.mod_small by (destruct (role_ d); simpl in *; lia).
    do 2 f_equal. rewrite !length_cons, length_app, length_le_split. lia.
Qed.

Lemma nth_ext_l (w e : bytes) i : (i < length w)%nat -> nth i (w ++ e) 0 = nth i w 0.
Proof. apply app_nth1. Qed.

Lemma substr_ext_l (w e : bytes) off n :
  (off + n <= length w)%nat -> substr (w ++ e) off n = substr w off n.
Proof. intros. unfold substr. rewrite drop_app_le, take_app_le; rewrite ?length_drop; lia || done. Qed.

Lemma parse_len_ext w e l :
  (2 <= length w)%nat -> parse_len w l <> LenNeedMore -> parse_len (w ++ e) l = parse_len w l.
Proof.
  unfold parse_len, size, at_. rewrite length_app. intros H2 Hn.
  destruct (l =? 126); [|destruct (l =? 127); [|done]].
  - destruct (Z.ltb_spec (Z.of_nat (length w)) 4); [done|].
    replace (_ <? 4) with false by (symmetry; apply Z.ltb_ge; lia).
    by rewrite !nth_ext_l by (simpl; lia).
  - destruct (Z.ltb_spec (Z.of_nat (length w)) 10); [done|].
    replace (_ <? 10) with false by (symmetry; apply Z.ltb_ge; lia).
    by rewrite substr_ext_l by lia.
Qed.

Lemma parse_len_off w l len off :
  (2 <= length w)%nat -> parse_len w l = LenOk len off -> (off <= length w)%nat.
Proof.
  unfold parse_len, size. intros H2 H. bool_destruct; zify_bool; simplify_eq; lia.
Qed.

Lemma parse_ext d w e out :
  (parse d w out).1.1 <> NeedMore -> parse d (w ++ e) out = parse d w out.
Proof.
  unfold parse. cbv zeta. destruct (is_error (err_ d)); [done|].
  destruct (Z.ltb_spec (size w) 2) as [|H2]; [done|]. unfold size in H2.
  replace (size (w ++ e) <? 2) with false
    by (symmetry; apply Z.ltb_ge; unfold size; rewrite length_app; lia).
  unfold at_ in *. rewrite !nth_ext_l by lia.
  destruct (negb ((nth 0 w 0 &&& 0x70) =? 0)); [done|].
  destruct (opcode_of _); [|done].
  repeat match goal with
  | |- context [if ?b then (FError, _, _) else _] => destruct b; [done|]
  end.
  destruct (parse_len w _) as [| |len off] eqn:Hpl; [done| |];
    intros Hn; rewrite parse_len_ext, Hpl by (lia || congruence); [done|].
  apply parse_len_off in Hpl; [|lia]. revert Hn.
  destruct (negb ((nth 1 w 0 &&& 0x80) =? 0)); [|done]. unfold size in *.
  destruct (Z.ltb_spec (Z.of_nat (length w)) (Z.of_nat off + 4)) as [|Ho]; [done|].
  intros _. rewrite length_app.
  replace (_ <? _) with false by (symmetry; apply Z.ltb_ge; lia).
  by rewrite substr_ext_l by lia.
Qed.

(** Inversion of a successful parse: every structural rule held and the
    window starts with the canonical encoding of the header. *)
Lemma parse_frame_inv d w out d' f :
  Forall is_byte w -> parse d w out = (Frame, d', f) ->
  d' = d /\ is_error (err_ d) = false /\ mask_ok (role_ d) (masked f) = true /\
  0 <= payload_len f < 2 ^ 63 /\
  (opcode_is_control (opcode f) = true -> fin f = true /\ payload_len f <= kMaxControlPayload) /\
  0 <= mask_key f < 2 ^ 32 /\ (masked f = false -> mask_key f = 0) /\
  header_len f = size (byte0 (fin f) (opcode f) :: byte1 (masked f) (len7 (payload_len f)) ::
                   len_ext (payload_len f) ++ (if masked f then le_split 4 (mask_key f) else [])) /\
  header_len f <= size w /\
  take (Z.to_nat (header_len f)) w =
    byte0 (fin f) (opcode f) :: byte1 (masked f) (len7 (payload_len f)) ::
      len_ext (payload_len f) ++ (if masked f then le_split 4 (mask_key f) else []).
Proof.
  intros Hw. unfold parse. cbv zeta. destruct (is_error (err_ d)); [done|].
  destruct (Z.ltb_spec (size w) 2) as [|H2]; [done|].
  destruct (negb ((at_ w 0 &&& 0x70) =? 0)) eqn:Hr; [done|].
  destruct (opcode_of _) as [op|] eqn:Hop; [|done].
  destruct (bool_decide (role_ d = Server) && _) eqn:Hs; [done|].
  destruct (bool_decide (role_ d = Client) && _) eqn:Hc; [done|].
  destruct (opcode_is_control op && negb (negb (at_ w 0 &&& 0x80 =? 0))) eqn:Hf; [done|].
  destruct (opcode_is_control op && (kMaxControlPayload <? at_ w 1 &&& 0x7F)) eqn:Hl; [done|].
  apply negb_false_iff, Z.eqb_eq in Hr.
  destruct w as [|b0 [|b1 w]]; try (unfold size in H2; simpl in H2; lia).
  change (at_ (b0 :: b1 :: w) 0) with b0 in *. change (at_ (b0 :: b1 :: w) 1) with b1 in *.
  pose proof Hw as Hw'. apply Forall_cons in Hw' as [Hb0 Hw'].
  apply Forall_cons in Hw' as [Hb1 Hw'].
  pose proof (byte0_inv _ Hb0 Hr _ Hop) as E0. destruct (byte1_inv _ Hb1) as [E1 Hl7].
  remember (negb (b0 &&& 0x80 =? 0)) as fi eqn:Hfi. remember (negb (b1 &&& 0x80 =? 0)) as m eqn:Hmi.
  remember (b1 &&& 0x7F) as l eqn:Hli. clear Hfi Hmi Hli Hop Hr.
  assert (mask_ok (role_ d) m = true) as Hm by (revert Hs Hc; by destruct (role_ d), m).
  destruct (parse_len _ l) as [| |len off] eqn:Hpl; [done|done|].
  destruct (parse_len_inv _ _ _ _ Hw H2 Hl7 Hpl) as (Hlen & Hl' & Hoff & Hle & Htake).
  assert (opcode_is_control op = true -> fi = true /\ len <= kMaxControlPayload) as Hctl.
  { intros Ho. rewrite Ho in Hf, Hl. simpl in *. zify_bool. destruct fi; [|done]. split; [done|].
    rewrite Hl' in Hl. unfold len7, kMaxControlPayload in *. bool_destruct; zify_bool; lia. }
  change (take 2 (b0 :: b1 :: w)) with [b0; b1] in Htake. rewrite Hl' in E1.
  destruct m; [destruct (Z.ltb_spec (size (b0 :: b1 :: w)) (Z.of_nat off + 4)) as [|Ho]; [done|]|];
    intros H; injection H as <- <-; cbn [fin opcode payload_len masked mask_key header_len];
    rewrite <- E0, <- E1.
  - assert (Forall is_byte (substr (b0 :: b1 :: w) off 4)) as Hb4
      by (by apply Forall_take, Forall_drop).
    assert (length (substr (b0 :: b1 :: w) off 4) = 4%nat) as H4.
    { unfold substr, size in *. rewrite length_take, length_drop. lia. }
    pose proof (le_combine_range _ Hb4) as Hk. rewrite H4 in Hk.
    pose proof (le_split_combine _ Hb4) as Hs4. rewrite H4 in Hs4. rewrite Hs4.
    split_and!; try done; try lia.
    + unfold size. rewrite !length_cons, length_app, H4. lia.
    + replace (Z.to_nat (Z.of_nat off + 4)) with (off + 4)%nat by lia.
      rewrite <- take_take_drop, Htake. done.
  - split_and!; try done; try lia.
    + unfold size. rewrite app_nil_r, !length_cons. lia.
    + unfold size. lia.
    + by rewrite Nat2Z.id, Htake, app_nil_r.
Qed.

Lemma write_size fin op len key :
  0 <= len -> 2 <= size (write_frame_header fin op len key) <= kMaxFrameHeaderLen.
Proof.
  intros. rewrite write_shape by done. unfold size, kMaxFrameHeaderLen, mask_bytes, len_ext.
  rewrite !length_cons, length_app. repeat case_match; rewrite ?length_le_split; simpl; lia.
Qed.

Lemma write_byte fin op len key :
  0 <= len -> Forall is_byte (write_frame_header fin op len key).
Proof.
  intros. rewrite write_shape by done. unfold byte0, byte1, mask_bytes.
  solve_bytes; [apply len_ext_byte|]. case_match; [constructor|apply le_split_byte].
Qed.

(** ** Properties *)

(** a header written by [write_frame_header] for a sender of the opposite role is parsed back to
    exactly the fields that were written, whatever bytes follow it, and occupies between 2 and 14
    bytes. *)
Theorem frame_header_roundtrip r fin op len key rest out :
  sendable r fin op len key ->
  let hdr := write_frame_header fin op len key in
  parse (decoder_init r) (hdr ++ rest) out =
    (Frame, decoder_init r, mk_frame fin op len (negb (key =? 0)) key (size hdr)) /\
  2 <= size hdr <= kMaxFrameHeaderLen.
Proof.
  intros Hs hdr. split; [by apply parse_write|].
  apply write_size. destruct Hs as [? _]; lia.
Qed.

Lemma frame_header_roundtrip_witness :
  sendable Server true Text 300 0xAABBCCDD /\
  (parse (decoder_init Server) (write_frame_header true Text 300 0xAABBCCDD ++ [7]) frame_init).1.1
    = Frame.
Proof.
  assert (sendable Server true Text 300 0xAABBCCDD) as H by (unfold sendable; split_and!; [lia|lia|done|lia|lia]).
  split; [exact H|].
  rewrite (proj1 (frame_header_roundtrip Server true Text 300 0xAABBCCDD [7] frame_init H)).
  reflexivity.
Defined.

Lemma parse_short d fin op len key out k :
  is_error (err_ d) = false -> sendable (role_ d) fin op len key ->
  (k < length (write_frame_header fin op len key))%nat ->
  parse d (take k (write_frame_header fin op len key)) out = (NeedMore, d, out).
Proof.
  intros He Hs Hk. set (hdr := write_frame_header fin op len key) in *.
  assert (0 <= len) as Hlen by (destruct Hs; lia).
  pose proof (parse_write d out fin op len key [] He Hs) as Hfull.
  cbv zeta in Hfull. fold hdr in Hfull. rewrite app_nil_r in Hfull.
  destruct (parse d (take k hdr) out) as [[res d'] f] eqn:Hp.
  assert (res = NeedMore) as ->.
  { destruct res; [done| |]; exfalso.
    all: assert (parse d hdr out = parse d (take k hdr) out) as E
      by (rewrite <- (take_drop k hdr) at 1; apply parse_ext; by rewrite Hp).
    - rewrite Hp, Hfull in E. simplify_eq.
      apply parse_frame_inv in Hp as (_ & _ & _ & _ & _ & _ & _ & _ & Hle & _);
        [|apply Forall_take, write_byte; done].
      simpl in Hle. unfold size in Hle. rewrite length_take in Hle. lia.
    - rewrite Hp, Hfull in E. simplify_eq. }
  unfold parse in Hp. cbv zeta in Hp. repeat case_match; simplify_eq; done.
Qed.

(** the parser is incremental: on every proper prefix of a header it asks for more without
    changing the decoder or the output frame, and once it has answered anything else further bytes
    never change the answer. *)
Theorem frame_parse_incremental r fin op len key out :
  sendable r fin op len key ->
  (forall k, (k < length (write_frame_header fin op len key))%nat ->
     parse (decoder_init r) (take k (write_frame_header fin op len key)) out =
       (NeedMore, decoder_init r, out)) /\
  (forall d w e, (parse d w out).1.1 <> NeedMore -> parse d (w ++ e) out = parse d w out).
Proof.
  intros Hs. split; [|intros; by apply parse_ext].
  intros k Hk. by apply parse_short.
Qed.

Lemma frame_parse_incremental_witness :
  sendable Client true Ping 5 0 /\
  parse (decoder_init Client) (take 1 (write_frame_header true Ping 5 0)) frame_init =
    (NeedMore, decoder_init Client, frame_init).
Proof.
  assert (sendable Client true Ping 5 0) as H by (unfold sendable; split_and!; [lia|lia|done|done]).
  split; [exact H|].
  apply (proj1 (frame_parse_incremental Client true Ping 5 0 frame_init H)). vm_compute; lia.
Defined.

(** The header of RFC 6455 for the fields of a frame: two bytes, the length in
    its shortest form, and the key of a masked frame, zero or not. *)
Definition rfc_header (f : frame_t) : bytes :=
  byte0 (fin f) (opcode f) :: byte1 (masked f) (len7 (payload_len f)) :: len_ext (payload_len f) ++ (if masked f then le_split 4 (mask_key f) else []).

(** C35: soundness of the parser: whenever it reports a frame, the frame obeys the protocol's
    structural rules (masked exactly when it comes from a client, control frames whole and at most
    125 bytes, a length below 2^63, a 32-bit key) and the consumed bytes are the canonical header
    of that frame: the flags, the length in its shortest form and the key.  That is what
    [write_frame_header] emits for it, except for a masked frame with the key 0, which the parser
    accepts and the writer cannot express. *)
Theorem frame_parse_canonical r w out d' f :
  Forall is_byte w -> parse (decoder_init r) w out = (Frame, d', f) ->
  (masked f = true <-> r = Server) /\
  0 <= payload_len f < 2 ^ 63 /\ 0 <= mask_key f < 2 ^ 32 /\
  (opcode_is_control (opcode f) = true -> fin f = true /\ payload_len f <= kMaxControlPayload) /\
  header_len f = size (rfc_header f) /\ header_len f <= size w /\
  take (Z.to_nat (header_len f)) w = rfc_header f /\
  (rfc_header f = write_frame_header (fin f) (opcode f) (payload_len f) (mask_key f) <-> (masked f = true -> mask_key f <> 0)).
Proof.
  intros Hw Hp. destruct (parse_frame_inv _ _ _ _ _ Hw Hp) as (_ & _ & Hm & Hlen & Hc & Hkr & Hk0 & Hh & Hle & Ht). simpl in Hm.
  split; [by destruct r, (masked f); simpl in Hm|]. do 6 (split; [done|]). rewrite write_shape by lia. unfold rfc_header, mask_bytes. destruct (masked f).
  - destruct (Z.eqb_spec (mask_key f) 0) as [E|E]; [|by split]. split; [|by intros H; destruct H].
    intros H. exfalso. apply (f_equal length) in H. simpl in H. rewrite !length_app in H. simpl in H. lia.
  - by rewrite Hk0.
Qed.

Lemma frame_parse_canonical_witness :
  let w := [0x82; 0xFE; 0x01; 0x2C; 1; 2; 3; 4; 99] in
  exists f, parse (decoder_init Server) w frame_init = (Frame, decoder_init Server, f) /\
    take (Z.to_nat (header_len f)) w = rfc_header f /\ masked f = true.
Proof.
  intros w. exists (mk_frame true Binary 300 true 0x04030201 8). split; [reflexivity|].
  pose proof (frame_parse_canonical Server w frame_init (decoder_init Server) (mk_frame true Binary 300 true 0x04030201 8)
    ltac:(unfold w; repeat constructor; lia) eq_refl) as (Hm & _ & _ & _ & _ & _ & Ht & _).
  split; [exact Ht|]. by apply Hm.
Defined.

(** the word-wise masking loop computes the byte-wise XOR of RFC 6455 at every alignment,
    undoes itself, and may be applied to a payload in runs when each run passes its offset. *)
Theorem apply_mask_reference key l1 l2 off :
  0 <= key < 2 ^ 32 -> Forall is_byte (l1 ++ l2) ->
  apply_mask key (l1 ++ l2) off = mask_spec key (l1 ++ l2) off /\
  apply_mask key (apply_mask key (l1 ++ l2) off) off = l1 ++ l2 /\
  apply_mask key (l1 ++ l2) off = apply_mask key l1 off ++ apply_mask key l2 (off + size l1).
Proof.
  intros Hk Hl. pose proof Hl as [H1 H2]%Forall_app.
  rewrite !apply_mask_correct; try done.
  - rewrite mask_spec_involutive, mask_spec_app. done.
  - by apply mask_spec_byte.
Qed.

Lemma apply_mask_reference_witness :
  apply_mask 0x37FA213D [0x7f; 0x9f; 0x4d; 0x51; 0x58] 0 =
    mask_spec 0x37FA213D [0x7f; 0x9f; 0x4d; 0x51; 0x58] 0.
Proof.
  apply (apply_mask_reference 0x37FA213D [0x7f; 0x9f] [0x4d; 0x51; 0x58] 0); [lia|].
  repeat constructor; lia.
Defined.
