(* ===== verification/Dll.v ===== *)
(** * Intrusive doubly-linked lists

    The timer wheel and the semaphore both thread their entries through
    [prev]/[next] pointers stored in the entries themselves.  The heap of
    those pointer pairs is a finite map from node identities to links; [dll]
    relates it to the list of nodes it represents.  The two pointer
    manipulations the sources share, head insertion and removal from an
    arbitrary position, and the semaphore's tail insertion, are proved here
    once to refine the list operations. *)

From stdpp Require Import prelude gmap list.
From Stdlib Require Import Lia.
From S2P Require Import Prelude.
Open Scope nat_scope.

Abbreviation node_id := nat.

Record link_t := mk_link { prev : option node_id; next : option node_id }.

Abbreviation links := (gmap node_id link_t).

Definition unlinked : link_t := mk_link None None.

(** [p->next = n] and [p->prev = n] on a possibly null [p]. *)
Definition set_next (h : links) (p n : option node_id) : links :=
  match p with
  | Some x => alter (fun lk => mk_link (prev lk) n) x h
  | None => h
  end.
Definition set_prev (h : links) (p n : option node_id) : links :=
  match p with
  | Some x => alter (fun lk => mk_link n (next lk)) x h
  | None => h
  end.

Definition link_of (h : links) (x : node_id) : link_t := default unlinked (h !! x).

(** The predecessor of position [i] in [l]. *)
Definition before (l : list node_id) (i : nat) : option node_id :=
  match i with O => None | S j => l !! j end.

Definition dll (h : links) (l : list node_id) : Prop :=
  NoDup l /\ forall i x, l !! i = Some x -> h !! x = Some (mk_link (before l i) (l !! S i)).

(** ** Basic facts *)

Lemma dll_nil h : dll h [].
Proof. split; [constructor|]. intros i x. by rewrite lookup_nil. Qed.

Lemma dll_nodup h l : dll h l -> NoDup l.
Proof. by intros [? _]. Qed.

Lemma dll_lookup h l i x :
  dll h l -> l !! i = Some x -> link_of h x = mk_link (before l i) (l !! S i).
Proof. intros [_ H] Hi. unfold link_of. by rewrite (H _ _ Hi). Qed.

(** A list is untouched by updates outside it. *)
Lemma dll_frame h h' l : dll h l -> (forall x, x ∈ l -> h' !! x = h !! x) -> dll h' l.
Proof.
  intros [Hn H] Heq. split; [done|]. intros i x Hi.
  rewrite Heq by (by eapply list_elem_of_lookup_2). by apply H.
Qed.

Lemma dll_suffix h l1 x l2 :
  dll h (l1 ++ x :: l2) -> next (link_of h x) = head l2.
Proof.
  intros Hd. rewrite (dll_lookup h (l1 ++ x :: l2) (length l1) x Hd).
  - simpl. rewrite lookup_app_r by lia. replace (S (length l1) - length l1) with 1 by lia.
    by destruct l2.
  - by rewrite list_lookup_middle.
Qed.

Lemma dll_prefix h l1 x l2 :
  dll h (l1 ++ x :: l2) -> prev (link_of h x) = last l1.
Proof.
  intros Hd. rewrite (dll_lookup h (l1 ++ x :: l2) (length l1) x Hd).
  - simpl. destruct l1 as [|y l1]; [done|]. simpl length. cbn [before].
    rewrite lookup_app_l by (simpl; lia). by rewrite last_lookup.
  - by rewrite list_lookup_middle.
Qed.

Lemma dll_dom h l x : dll h l -> x ∈ l -> is_Some (h !! x).
Proof. intros [_ H] [i Hi]%list_elem_of_lookup. rewrite (H _ _ Hi). by eexists. Qed.

(** A link of a list's node points into that list. *)
Lemma dll_links_in h l x :
  dll h l -> x ∈ l ->
  (forall y, prev (link_of h x) = Some y -> y ∈ l) /\
  (forall y, next (link_of h x) = Some y -> y ∈ l).
Proof.
  intros Hd [i Hi]%list_elem_of_lookup. rewrite (dll_lookup _ _ _ _ Hd Hi). simpl.
  split; intros y Hy; [destruct i; [done|]|]; by eapply list_elem_of_lookup_2.
Qed.

(** ** Head insertion *)

Definition push_front (h : links) (hd : option node_id) (x : node_id) : links :=
  set_prev (<[x := mk_link None hd]> h) hd (Some x).

Lemma lookup_push_front h hd x y :
  y <> x -> Some y <> hd -> push_front h hd x !! y = h !! y.
Proof.
  intros Hne Hhd. unfold push_front, set_prev. destruct hd as [z|].
  - rewrite lookup_alter_ne by congruence. by rewrite lookup_insert_ne.
  - by rewrite lookup_insert_ne.
Qed.

Lemma dll_push_front h l x :
  dll h l -> x ∉ l -> dll (push_front h (head l) x) (x :: l).
Proof.
  intros [Hn H] Hx. split; [by constructor|]. intros i y Hi. unfold push_front.
  destruct l as [|z l]; simpl.
  { destruct i; simplify_eq/=. by simplify_map_eq. }
  assert (x <> z) by set_solver.
  destruct i as [|[|i]]; simplify_eq/=.
  - by simplify_map_eq.
  - rewrite lookup_alter_eq, lookup_insert_ne by done. by rewrite (H 0 y eq_refl).
  - assert (y ∈ l) by by eapply list_elem_of_lookup_2.
    apply NoDup_cons in Hn as [Hz _].
    rewrite lookup_alter_ne, lookup_insert_ne by (intros ->; set_solver).
    by rewrite (H (S i) y Hi).
Qed.

(** ** Tail insertion *)

Definition push_back (h : links) (tl : option node_id) (x : node_id) : links :=
  set_next (<[x := mk_link tl None]> h) tl (Some x).

Lemma lookup_push_back h tl x y :
  y <> x -> Some y <> tl -> push_back h tl x !! y = h !! y.
Proof.
  intros Hne Htl. unfold push_back, set_next. destruct tl as [z|].
  - rewrite lookup_alter_ne by congruence. by rewrite lookup_insert_ne.
  - by rewrite lookup_insert_ne.
Qed.

Lemma before_snoc l x i : i <= length l -> before (l ++ [x]) i = before l i.
Proof. intros Hi. destruct i as [|i]; [done|]. simpl. by rewrite lookup_app_l by lia. Qed.

Lemma dll_push_back h l x :
  dll h l -> x ∉ l -> dll (push_back h (last l) x) (l ++ [x]).
Proof.
  intros [Hn H] Hx. split.
  { apply NoDup_app; split_and!; [done| |apply NoDup_singleton].
    intros y Hy ->%list_elem_of_singleton. done. }
  intros i y Hi. destruct (decide (i = length l)) as [->|Hne].
  - rewrite list_lookup_middle in Hi by done. simplify_eq.
    rewrite before_snoc, lookup_ge_None_2 by (rewrite ?length_app; simpl; lia).
    replace (before l (length l)) with (last l) by (by destruct l using rev_ind;
      rewrite ?last_snoc, ?length_app, ?Nat.add_1_r; simpl; rewrite ?list_lookup_middle).
    unfold push_back, set_next. destruct (last l) as [z|] eqn:Hz; [|by simplify_map_eq].
    apply last_Some_elem_of in Hz. rewrite lookup_alter_ne by (intros ->; set_solver). by simplify_map_eq.
  - assert (i < length l) as Hlt.
    { apply lookup_lt_Some in Hi. rewrite length_app in Hi. simpl in Hi. lia. }
    rewrite lookup_app_l in Hi by done. rewrite before_snoc by lia.
    assert (y ∈ l) by by eapply list_elem_of_lookup_2. assert (x <> y) by set_solver.
    unfold push_back, set_next. destruct (decide (S i = length l)) as [Hlast|Hnl].
    + rewrite Hlast, list_lookup_middle by done.
      replace (last l) with (Some y) by (by rewrite last_lookup, <- Hlast).
      rewrite lookup_alter_eq, lookup_insert_ne, (H _ _ Hi) by done. done.
    + rewrite lookup_app_l by lia. destruct (last l) as [z|] eqn:Hz.
      * rewrite last_lookup in Hz. assert (z <> y).
        { intros ->. pose proof (NoDup_lookup _ _ _ _ Hn Hi Hz). lia. }
        by rewrite lookup_alter_ne, lookup_insert_ne, (H _ _ Hi) by done.
      * by rewrite lookup_insert_ne, (H _ _ Hi) by done.
Qed.

(** ** Removal *)

(** [unlink]: the neighbours are joined and the node's own links cleared. *)
Definition unlink_node (h : links) (x : node_id) : links :=
  let lk := link_of h x in
  <[x := unlinked]> (set_prev (set_next h (prev lk) (next lk)) (next lk) (prev lk)).

Lemma lookup_unlink_node h x y :
  y <> x -> prev (link_of h x) <> Some y -> next (link_of h x) <> Some y ->
  unlink_node h x !! y = h !! y.
Proof.
  intros Hne Hp Hn. unfold unlink_node, set_prev, set_next. rewrite lookup_insert_ne by done.
  destruct (next (link_of h x)), (prev (link_of h x));
    rewrite ?lookup_alter_ne by congruence; done.
Qed.

(** The heap cell of a node after removal of [x], in closed form. *)
Lemma lookup_unlink_neighbour h x y lk :
  y <> x -> h !! y = Some lk ->
  unlink_node h x !! y = Some (mk_link
    (if decide (next (link_of h x) = Some y) then prev (link_of h x) else prev lk)
    (if decide (prev (link_of h x) = Some y) then next (link_of h x) else next lk)).
Proof.
  intros Hne Hy. unfold unlink_node. rewrite lookup_insert_ne by done.
  set (p := prev (link_of h x)). set (n := next (link_of h x)).
  assert (set_next h p n !! y =
    Some (mk_link (prev lk) (if decide (p = Some y) then n else next lk))) as Hs.
  { destruct p as [z|]; simpl; [|by destruct lk].
    destruct (decide (z = y)) as [->|].
    - rewrite lookup_alter_eq, Hy. simpl. by rewrite decide_True.
    - rewrite lookup_alter_ne, Hy, decide_False by congruence. by destruct lk. }
  destruct n as [z|]; simpl; [|by rewrite Hs].
  destruct (decide (z = y)) as [->|].
  - rewrite lookup_alter_eq, Hs. simpl. by rewrite (decide_True (P := Some y = Some y)).
  - rewrite lookup_alter_ne, Hs by done. by rewrite (decide_False (P := Some z = Some y)) by congruence.
Qed.

Lemma dll_unlink h l1 x l2 :
  dll h (l1 ++ x :: l2) -> dll (unlink_node h x) (l1 ++ l2).
Proof.
  intros Hd. pose proof Hd as [Hn H].
  pose proof (dll_prefix _ _ _ _ Hd) as Hp. pose proof (dll_suffix _ _ _ _ Hd) as Hs.
  assert (NoDup (l1 ++ l2) /\ x ∉ l1 ++ l2) as [Hn' Hx].
  { rewrite <- Permutation_middle in Hn. by apply NoDup_cons in Hn as [??]. }
  split; [done|]. intros i y Hi.
  assert (y <> x) as Hyx. { intros ->. apply Hx. by eapply list_elem_of_lookup_2. }
  destruct (decide (i < length l1)) as [Hlt|Hge].
  - rewrite lookup_app_l in Hi by done.
    assert (y ∈ l1) as Hy1 by by eapply list_elem_of_lookup_2.
    assert (head l2 <> Some y) as Hy2.
    { intros Hh. apply NoDup_app in Hn' as (_ & Hdis & _). apply (Hdis y Hy1).
      destruct l2; simplify_eq/=. set_solver. }
    rewrite (lookup_unlink_neighbour _ _ _ _ Hyx (H i y ltac:(by rewrite lookup_app_l))).
    rewrite Hp, Hs, (decide_False (P := head l2 = Some y)) by done. simpl. do 2 f_equal.
    + destruct i; [done|]. simpl. by rewrite !lookup_app_l by lia.
    + apply NoDup_app in Hn' as (Hn1 & _). destruct (decide (last l1 = Some y)) as [Hl|Hl].
      * rewrite last_lookup in Hl. pose proof (NoDup_lookup _ _ _ _ Hn1 Hi Hl) as ->.
        rewrite lookup_app_r by lia. replace (_ - _) with 0 by lia. by destruct l2.
      * assert (S i <> length l1) as Hne.
        { intros E. apply Hl. by rewrite last_lookup, <- E. }
        by rewrite !lookup_app_l by lia.
  - assert ((l1 ++ x :: l2) !! S i = Some y) as Hi'.
    { rewrite lookup_app_r in Hi |- * by lia. by replace (S i - length l1) with (S (i - length l1)) by lia. }
    rewrite lookup_app_r in Hi by lia.
    assert (y ∈ l2) as Hy2 by by eapply list_elem_of_lookup_2.
    assert (last l1 <> Some y) as Hy1.
    { intros Hh%last_Some_elem_of. apply NoDup_app in Hn' as (_ & Hdis & _). by apply (Hdis y Hh). }
    rewrite (lookup_unlink_neighbour _ _ _ _ Hyx (H (S i) y Hi')).
    rewrite Hp, Hs, (decide_False (P := last l1 = Some y)) by done. simpl. do 2 f_equal.
    + apply NoDup_app in Hn' as (_ & _ & Hn2). destruct (decide (head l2 = Some y)) as [Hl|Hl].
      * assert (l2 !! 0 = Some y) as H0 by (by destruct l2).
        pose proof (NoDup_lookup _ _ _ _ Hn2 Hi H0). replace i with (length l1) by lia.
        destruct l1 as [|z l1]; [done|]. cbn [length before].
        rewrite lookup_app_l by (simpl; lia). by rewrite last_lookup.
      * assert (i - length l1 <> 0) as Hne.
        { intros E. rewrite E in Hi. apply Hl. by destruct l2. }
        destruct i as [|i]; [lia|]. cbn [before]. rewrite !lookup_app_r by lia.
        by replace (S i - length l1) with (S (i - length l1)) by lia.
    + rewrite !lookup_app_r by lia.
      by replace (S (S i) - length l1) with (S (S i - length l1)) by lia.
Qed.

(** Removal leaves a disjoint list alone. *)
Lemma dll_unlink_other h l x m :
  dll h l -> x ∈ l -> dll h m -> l ## m -> dll (unlink_node h x) m.
Proof.
  intros Hl Hx Hm Hdis. destruct (dll_links_in _ _ _ Hl Hx) as [Hp Hn].
  apply (dll_frame h); [done|]. intros y Hy.
  apply lookup_unlink_node; [set_solver|intros E; set_solver..].
Qed.

Lemma dll_push_front_other h l x m :
  dll h m -> x ∉ m -> l ## m -> dll (push_front h (head l) x) m.
Proof.
  intros Hm Hx Hdis. apply (dll_frame h); [done|]. intros y Hy.
  apply lookup_push_front; [set_solver|]. destruct l; simpl; set_solver.
Qed.
