(* ===== verification/Semaphore.v ===== *)
(** * Coroutine semaphore

    src/include/cornet/concurrency/semaphore.h and src/src/semaphore.cc.  The
    waiters are intrusive nodes of a doubly-linked FIFO; their [prev_]/[next_]
    fields live in [lks], the other fields in [ws].  Waking a waiter appends
    its handle to the ready queue of the scheduler; a handle is identified
    with its waiter. *)

From stdpp Require Import prelude gmap list.
From Stdlib Require Import ZArith Lia.
From S2P Require Import Prelude Dll.
Open Scope Z_scope.

(** ** State *)

Record acquire_awaiter := mk_awaiter {
  need_ : Z;
  err_ : error_t;
  queued_ : bool;
  granted_ : bool;
  consumed_ : bool
}.

Record semaphore_t := mk_sem {
  count_ : Z;
  head_ : option node_id;
  tail_ : option node_id;
  abort_err_ : error_t;
  aborted_ : bool;
  lks : links;
  ws : gmap node_id acquire_awaiter;
  ready : list node_id
}.

Definition sem_init (initial : Z) : semaphore_t :=
  mk_sem initial None None no_error false ∅ ∅ [].

Definition set_count (s : semaphore_t) (c : Z) : semaphore_t :=
  mk_sem c (head_ s) (tail_ s) (abort_err_ s) (aborted_ s) (lks s) (ws s) (ready s).

Definition set_waiter (s : semaphore_t) (x : node_id) (w : acquire_awaiter) : semaphore_t :=
  mk_sem (count_ s) (head_ s) (tail_ s) (abort_err_ s) (aborted_ s) (lks s) (<[x := w]> (ws s)) (ready s).

Definition schedule (s : semaphore_t) (x : node_id) : semaphore_t :=
  mk_sem (count_ s) (head_ s) (tail_ s) (abort_err_ s) (aborted_ s) (lks s) (ws s) (ready s ++ [x]).

(** The waiter behind a pointer. *)
Definition dead_awaiter : acquire_awaiter := mk_awaiter 0 no_error false false false.
Definition waiter (s : semaphore_t) (x : node_id) : acquire_awaiter := default dead_awaiter (ws s !! x).

(** ** Queue manipulation *)

(** [semaphore_t::unlink] *)
Definition unlink (s : semaphore_t) (x : node_id) : semaphore_t :=
  let lk := link_of (lks s) x in
  let w := waiter s x in
  mk_sem (count_ s)
    (match prev lk with Some _ => head_ s | None => next lk end)
    (match next lk with Some _ => tail_ s | None => prev lk end)
    (abort_err_ s) (aborted_ s)
    (unlink_node (lks s) x)
    (<[x := mk_awaiter (need_ w) (err_ w) false (granted_ w) (consumed_ w)]> (ws s))
    (ready s).

(** The body of the [while] loop of [wake_ready]. *)
Definition wake_one (s : semaphore_t) (x : node_id) : semaphore_t :=
  let s := unlink s x in
  let w := waiter s x in
  let s := set_waiter s x (mk_awaiter (need_ w) (err_ w) (queued_ w) true (consumed_ w)) in
  let s := set_count s (u32 (count_ s - need_ w)) in
  schedule s x.

(** The loop; the fuel bounds its iterations. *)
Fixpoint wake_loop (fuel : nat) (s : semaphore_t) : semaphore_t :=
  match fuel with
  | O => s
  | S fuel =>
      match head_ s with
      | None => s
      | Some x =>
          if need_ (waiter s x) <=? count_ s then wake_loop fuel (wake_one s x) else s
      end
  end.

(** Every queued waiter is a live node, so their number bounds the loop. *)
Definition wake_ready (s : semaphore_t) : semaphore_t := wake_loop (base.size (ws s)) s.

(** ** The awaiter *)

(** [acquire(n)]: the awaiter is constructed in the caller's frame. *)
Definition acquire (s : semaphore_t) (x : node_id) (n : Z) : semaphore_t :=
  mk_sem (count_ s) (head_ s) (tail_ s) (abort_err_ s) (aborted_ s)
    (<[x := unlinked]> (lks s)) (<[x := mk_awaiter n no_error false false false]> (ws s)) (ready s).

Definition await_ready (s : semaphore_t) (x : node_id) : bool * semaphore_t :=
  let w := waiter s x in
  if aborted_ s then
    (true, set_waiter s x (mk_awaiter (need_ w) (abort_err_ s) (queued_ w) (granted_ w) true))
  else if need_ w <=? count_ s then
    (true, set_count (set_waiter s x (mk_awaiter (need_ w) (err_ w) (queued_ w) true true))
             (u32 (count_ s - need_ w)))
  else (false, s).

Definition await_suspend (s : semaphore_t) (x : node_id) : semaphore_t :=
  let w := waiter s x in
  mk_sem (count_ s)
    (match tail_ s with Some _ => head_ s | None => Some x end)
    (Some x) (abort_err_ s) (aborted_ s)
    (push_back (lks s) (tail_ s) x)
    (<[x := mk_awaiter (need_ w) (err_ w) true (granted_ w) (consumed_ w)]> (ws s))
    (ready s).

Definition await_resume (s : semaphore_t) (x : node_id) : expected unit * semaphore_t :=
  let w := waiter s x in
  let s' := set_waiter s x (mk_awaiter (need_ w) (err_ w) (queued_ w) (granted_ w) true) in
  if granted_ w then (Ok tt, s') else (Unexpected (err_ w), s').

(** [co_await sem.acquire(n)] up to its suspension: the result when it did not suspend. *)
Definition co_await_acquire (s : semaphore_t) (x : node_id) (n : Z)
    : option (expected unit) * semaphore_t :=
  let s := acquire s x n in
  let '(fast, s) := await_ready s x in
  if fast then let '(r, s) := await_resume s x in (Some r, s)
  else (None, await_suspend s x).

(** [~acquire_awaiter]: the node leaves the queue and repays an unconsumed grant. *)
Definition destroy (s : semaphore_t) (x : node_id) : semaphore_t :=
  let s := if queued_ (waiter s x) then unlink s x else s in
  let w := waiter s x in
  let s :=
    if granted_ w && negb (consumed_ w) then
      let s := set_count s (u32 (count_ s + need_ w)) in
      if aborted_ s then s else wake_ready s
    else s in
  mk_sem (count_ s) (head_ s) (tail_ s) (abort_err_ s) (aborted_ s)
    (delete x (lks s)) (delete x (ws s)) (ready s).

(** ** The semaphore *)

Definition try_acquire (s : semaphore_t) (n : Z) : bool * semaphore_t :=
  if aborted_ s || (count_ s <? n) then (false, s) else (true, set_count s (u32 (count_ s - n))).

Definition release (s : semaphore_t) (n : Z) : semaphore_t :=
  if n =? 0 then s
  else
    let s := set_count s (u32 (count_ s + n)) in
    if aborted_ s then s else wake_ready s.

Definition abort_one (err : error_t) (s : semaphore_t) (x : node_id) : semaphore_t :=
  let s := unlink s x in
  let w := waiter s x in
  let s := set_waiter s x (mk_awaiter (need_ w) err (queued_ w) (granted_ w) (consumed_ w)) in
  schedule s x.

Fixpoint abort_loop (fuel : nat) (err : error_t) (s : semaphore_t) : semaphore_t :=
  match fuel with
  | O => s
  | S fuel =>
      match head_ s with
      | None => s
      | Some x => abort_loop fuel err (abort_one err s x)
      end
  end.

Definition abort (s : semaphore_t) (err : error_t) : semaphore_t :=
  if aborted_ s then s
  else
    abort_loop (base.size (ws s)) err
      (mk_sem (count_ s) (head_ s) (tail_ s) err true (lks s) (ws s) (ready s)).

(** [waiting()] walks the queue from its head. *)
Fixpoint waiting_from (fuel : nat) (s : semaphore_t) (p : option node_id) : Z :=
  match fuel, p with
  | S fuel, Some x => 1 + waiting_from fuel s (next (link_of (lks s) x))
  | _, _ => 0
  end.
Definition waiting (s : semaphore_t) : Z := waiting_from (base.size (ws s)) s (head_ s).

(** ** Specification: a FIFO of waiters with their needs *)

Fixpoint grant (c : Z) (q : list (node_id * Z)) : Z * list node_id * list (node_id * Z) :=
  match q with
  | [] => (c, [], [])
  | (x, n) :: q' =>
      if n <=? c then let '(c', g, r) := grant (c - n) q' in (c', x :: g, r) else (c, [], q)
  end.

Definition needs (s : semaphore_t) (q : list node_id) : list (node_id * Z) :=
  map (fun x => (x, need_ (waiter s x))) q.

(** The representation invariant: [q] is the queue, front first. *)
Record wf (s : semaphore_t) (q : list node_id) : Prop := {
  wf_dll : dll (lks s) q;
  wf_head : head_ s = head q;
  wf_tail : tail_ s = last q;
  wf_queued : forall x, x ∈ q <-> exists w, ws s !! x = Some w /\ queued_ w = true;
  wf_fresh : forall x w, ws s !! x = Some w -> queued_ w = true -> granted_ w = false /\ consumed_ w = false;
  wf_need : forall x w, ws s !! x = Some w -> 0 <= need_ w < 2 ^ 32;
  wf_count : 0 <= count_ s < 2 ^ 32
}.

(** No waiter that would fit is left asleep. *)
Definition no_lost_wakeup (s : semaphore_t) : Prop :=
  match head_ s with Some x => count_ s < need_ (waiter s x) | None => True end.

(** ** Queue lemmas *)

Lemma waiter_lookup s x w : ws s !! x = Some w -> waiter s x = w.
Proof. intros H. unfold waiter. by rewrite H. Qed.

Lemma wf_waiter s q x :
  wf s q -> x ∈ q ->
  ws s !! x = Some (waiter s x) /\ queued_ (waiter s x) = true /\ granted_ (waiter s x) = false /\
  consumed_ (waiter s x) = false /\ 0 <= need_ (waiter s x) < 2 ^ 32.
Proof.
  intros Hwf Hx. apply (wf_queued _ _ Hwf) in Hx as (w & Hw & Hq).
  rewrite (waiter_lookup _ _ _ Hw). destruct (wf_fresh _ _ Hwf _ _ Hw Hq).
  pose proof (wf_need _ _ Hwf _ _ Hw). done.
Qed.

Lemma wf_queue_size s q : wf s q -> (length q <= base.size (ws s))%nat.
Proof.
  intros Hwf. rewrite <- size_dom.
  rewrite <- (size_list_to_set (C := gset node_id) q) by (eapply dll_nodup, wf_dll; done).
  apply subseteq_size. intros x Hx%elem_of_list_to_set. apply elem_of_dom.
  apply (wf_queued _ _ Hwf) in Hx as (w & -> & _). by eexists.
Qed.

Lemma wf_unlink s q1 x q2 :
  wf s (q1 ++ x :: q2) -> wf (unlink s x) (q1 ++ q2).
Proof.
  intros Hwf. pose proof (wf_dll _ _ Hwf) as Hd.
  pose proof (dll_prefix _ _ _ _ Hd) as Hp. pose proof (dll_suffix _ _ _ _ Hd) as Hn.
  assert (x ∈ q1 ++ x :: q2) as Hx by set_solver.
  destruct (wf_waiter _ _ _ Hwf Hx) as (Hw & Hq & Hg & Hc & Hne).
  assert (x ∉ q1 ++ q2) as Hnx.
  { pose proof (dll_nodup _ _ Hd) as Hnd. rewrite <- Permutation_middle in Hnd.
    by apply NoDup_cons in Hnd as [??]. }
  constructor; simpl.
  - by apply dll_unlink.
  - rewrite Hp, Hn, (wf_head _ _ Hwf). destruct q1 as [|y q1]; [done|].
    destruct (last (y :: q1)) eqn:E; [done|]. by apply last_None in E.
  - rewrite Hp, Hn, (wf_tail _ _ Hwf). destruct q2 as [|y q2]; simpl.
    + by rewrite app_nil_r.
    + rewrite !last_app, !last_cons. by destruct (last q2).
  - intros y. destruct (decide (x = y)) as [<-|Hxy].
    + rewrite lookup_insert_eq. split; [done|]. by intros (w & [= <-] & [=]).
    + rewrite lookup_insert_ne by done. rewrite <- (wf_queued _ _ Hwf).
      rewrite !elem_of_app, elem_of_cons. split; [tauto|]. intros [?|[->|?]]; tauto.
  - intros y w [[<- <-]|[_ Hy]]%lookup_insert_Some; [done|]. by apply (wf_fresh _ _ Hwf _ _ Hy).
  - intros y w [[<- <-]|[_ Hy]]%lookup_insert_Some; [done|]. by apply (wf_need _ _ Hwf _ _ Hy).
  - apply (wf_count _ _ Hwf).
Qed.

(** Updating a waiter that is not queued, keeping it off the queue. *)
Lemma wf_set_waiter s q x w :
  wf s q -> x ∉ q -> queued_ w = false -> 0 <= need_ w < 2 ^ 32 -> wf (set_waiter s x w) q.
Proof.
  intros Hwf Hx Hq Hn. constructor; simpl; try apply Hwf.
  - intros y. destruct (decide (x = y)) as [<-|].
    + rewrite lookup_insert_eq. split; [done|]. intros (w' & [= <-] & ?). congruence.
    + rewrite lookup_insert_ne by done. apply Hwf.
  - intros y w' [[<- <-]|[_ Hy]]%lookup_insert_Some; [congruence|]. by apply (wf_fresh _ _ Hwf _ _ Hy).
  - intros y w' [[<- <-]|[_ Hy]]%lookup_insert_Some; [done|]. by apply (wf_need _ _ Hwf _ _ Hy).
Qed.

Lemma wf_set_count s q c : wf s q -> 0 <= c < 2 ^ 32 -> wf (set_count s c) q.
Proof. intros Hwf Hc. constructor; simpl; try apply Hwf. done. Qed.

Lemma wf_schedule s q x : wf s q -> wf (schedule s x) q.
Proof. intros Hwf. constructor; simpl; apply Hwf. Qed.

Lemma nodup_head_notin s x q : wf s (x :: q) -> x ∉ q.
Proof. intros Hwf. pose proof (dll_nodup _ _ (wf_dll _ _ Hwf)) as H. by apply NoDup_cons in H as [??]. Qed.

(** [unlink] touches only the removed waiter's flags. *)
Lemma waiter_unlink s x y :
  waiter (unlink s x) y =
    if decide (x = y) then
      let w := waiter s x in mk_awaiter (need_ w) (err_ w) false (granted_ w) (consumed_ w)
    else waiter s y.
Proof.
  unfold waiter, unlink. simpl. destruct (decide (x = y)) as [<-|].
  - by rewrite lookup_insert_eq.
  - by rewrite lookup_insert_ne.
Qed.

(** ** Waking *)

Lemma wake_one_spec s x q :
  wf s (x :: q) -> need_ (waiter s x) <= count_ s ->
  let s' := wake_one s x in
  wf s' q /\ count_ s' = count_ s - need_ (waiter s x) /\ ready s' = ready s ++ [x] /\
  aborted_ s' = aborted_ s /\ abort_err_ s' = abort_err_ s /\
  waiter s' x = mk_awaiter (need_ (waiter s x)) (err_ (waiter s x)) false true false /\
  base.size (ws s') = base.size (ws s) /\
  (forall y, y <> x -> ws s' !! y = ws s !! y).
Proof.
  intros Hwf Hfit s'. destruct (wf_waiter _ _ x Hwf) as (Hw & Hq & Hg & Hc & Hn); [set_solver|].
  pose proof (nodup_head_notin _ _ _ Hwf) as Hx. pose proof (wf_count _ _ Hwf) as Hcnt.
  assert (count_ s' = count_ s - need_ (waiter s x)) as Hcount.
  { unfold s', wake_one. simpl. rewrite waiter_unlink, decide_True by done. simpl.
    apply u32_small. lia. }
  split_and!; try done.
  - unfold s', wake_one. apply wf_schedule, wf_set_count.
    + apply wf_set_waiter; [by apply (wf_unlink s [])|done| |].
      all: rewrite waiter_unlink, decide_True by done; done.
    + apply u32_range.
  - unfold s', wake_one. unfold waiter at 1. simpl. rewrite lookup_insert_eq. simpl.
    rewrite waiter_unlink, decide_True by done. simpl. by rewrite Hc.
  - unfold s', wake_one. simpl. by rewrite insert_insert_eq, map_size_insert, Hw.
  - intros y Hy. unfold s', wake_one. simpl. by rewrite !lookup_insert_ne.
Qed.

Lemma needs_ext s s' q :
  (forall y, y ∈ q -> ws s' !! y = ws s !! y) -> needs s' q = needs s q.
Proof.
  intros H. unfold needs. apply map_ext_in. intros y Hy%list_elem_of_In. unfold waiter.
  by rewrite H.
Qed.

Lemma needs_fst s q : map fst (needs s q) = q.
Proof. unfold needs. rewrite map_map. apply map_id. Qed.

Lemma wake_loop_spec fuel s q c g r :
  wf s q -> (length q <= fuel)%nat -> grant (count_ s) (needs s q) = (c, g, r) ->
  let s' := wake_loop fuel s in
  wf s' (map fst r) /\ q = g ++ map fst r /\ count_ s' = c /\ ready s' = ready s ++ g /\
  aborted_ s' = aborted_ s /\ abort_err_ s' = abort_err_ s /\
  (forall x, x ∈ g -> waiter s' x = mk_awaiter (need_ (waiter s x)) (err_ (waiter s x)) false true false) /\
  (forall y, y ∉ g -> ws s' !! y = ws s !! y) /\
  no_lost_wakeup s'.
Proof.
  revert fuel s c g r. induction q as [|x q IH]; intros fuel s c g r Hwf Hfuel Hgr.
  - simpl in Hgr. injection Hgr as <- <- <-. pose proof (wf_head _ _ Hwf) as Hh. simpl in Hh.
    assert (wake_loop fuel s = s) as ->. { destruct fuel; [done|]. simpl. by rewrite Hh. }
    unfold no_lost_wakeup. rewrite Hh.
    split_and!; rewrite ?app_nil_r; try done. by intros x Hx%elem_of_nil.
  - destruct fuel as [|fuel]; [simpl in Hfuel; lia|].
    pose proof (wf_head _ _ Hwf) as Hh. simpl in Hh. simpl in Hgr |- *. rewrite Hh.
    destruct (Z.leb_spec (need_ (waiter s x)) (count_ s)) as [Hfit|Hbig].
    + destruct (wake_one_spec _ _ _ Hwf Hfit) as (Hwf1 & Hc1 & Hr1 & Ha1 & He1 & Hw1 & _ & Ho1).
      pose proof (nodup_head_notin _ _ _ Hwf) as Hx.
      destruct (grant _ (needs s q)) as [[c' g'] r'] eqn:Hg'. injection Hgr as <- <- <-.
      rewrite <- Hc1, <- (needs_ext s (wake_one s x)) in Hg' by (intros y Hy; apply Ho1; set_solver).
      destruct (IH fuel (wake_one s x) c' g' r' Hwf1 ltac:(simpl in Hfuel; lia) Hg')
        as (Hwf2 & Hq2 & Hc2 & Hr2 & Ha2 & He2 & Hw2 & Ho2 & Hl2).
      assert (x ∉ g') as Hxg by (rewrite Hq2 in Hx; set_solver).
      split_and!; try done; try congruence.
      * by rewrite Hq2 at 1.
      * by rewrite Hr2, Hr1, <- app_assoc.
      * intros y [->|Hy]%elem_of_cons.
        { unfold waiter at 1. rewrite Ho2 by done. exact Hw1. }
        rewrite (Hw2 y Hy). unfold waiter. rewrite !Ho1 by set_solver. done.
      * intros y [Hyx Hyg]%not_elem_of_cons. by rewrite Ho2, Ho1.
    + injection Hgr as Hc0 Hg0 Hr0. subst c g.
      assert (map fst r = x :: q) as -> by (rewrite <- Hr0; exact (needs_fst s (x :: q))).
      unfold no_lost_wakeup. rewrite Hh.
      split_and!; rewrite ?app_nil_r; try done. by intros y Hy%elem_of_nil.
Qed.

Lemma wake_ready_spec s q c g r :
  wf s q -> grant (count_ s) (needs s q) = (c, g, r) ->
  let s' := wake_ready s in
  wf s' (map fst r) /\ q = g ++ map fst r /\ count_ s' = c /\ ready s' = ready s ++ g /\
  aborted_ s' = aborted_ s /\ abort_err_ s' = abort_err_ s /\
  (forall x, x ∈ g -> waiter s' x = mk_awaiter (need_ (waiter s x)) (err_ (waiter s x)) false true false) /\
  (forall y, y ∉ g -> ws s' !! y = ws s !! y) /\
  no_lost_wakeup s'.
Proof. intros Hwf. apply wake_loop_spec; [done|]. by apply wf_queue_size. Qed.

(** ** Aborting *)


Lemma abort_one_spec err s x q :
  wf s (x :: q) ->
  let s' := abort_one err s x in
  wf s' q /\ count_ s' = count_ s /\ ready s' = ready s ++ [x] /\
  aborted_ s' = aborted_ s /\ abort_err_ s' = abort_err_ s /\
  waiter s' x = mk_awaiter (need_ (waiter s x)) err false false false /\
  (forall y, y <> x -> ws s' !! y = ws s !! y).
Proof.
  intros Hwf s'. destruct (wf_waiter _ _ x Hwf) as (Hw & Hq & Hg & Hc & Hn); [set_solver|].
  pose proof (nodup_head_notin _ _ _ Hwf) as Hx. split_and!; try done.
  - unfold s', abort_one. apply wf_schedule, wf_set_waiter; [by apply (wf_unlink s [])|done| |].
    all: rewrite waiter_unlink, decide_True by done; done.
  - unfold s', abort_one. unfold waiter at 1. simpl. rewrite lookup_insert_eq. simpl.
    rewrite waiter_unlink, decide_True by done. simpl. by rewrite Hg, Hc.
  - intros y Hy. unfold s', abort_one. simpl. by rewrite !lookup_insert_ne.
Qed.

Lemma abort_loop_spec fuel err s q :
  wf s q -> (length q <= fuel)%nat ->
  let s' := abort_loop fuel err s in
  wf s' [] /\ count_ s' = count_ s /\ ready s' = ready s ++ q /\
  aborted_ s' = aborted_ s /\ abort_err_ s' = abort_err_ s /\
  (forall x, x ∈ q -> waiter s' x = mk_awaiter (need_ (waiter s x)) err false false false) /\
  (forall y, y ∉ q -> ws s' !! y = ws s !! y).
Proof.
  revert fuel s. induction q as [|x q IH]; intros fuel s Hwf Hfuel.
  - assert (abort_loop fuel err s = s) as ->.
    { destruct fuel; [done|]. simpl. by rewrite (wf_head _ _ Hwf). }
    split_and!; rewrite ?app_nil_r; try done. by intros x Hx%elem_of_nil.
  - destruct fuel as [|fuel]; [simpl in Hfuel; lia|]. simpl. rewrite (wf_head _ _ Hwf). simpl.
    pose proof (nodup_head_notin _ _ _ Hwf) as Hx.
    destruct (abort_one_spec err _ _ _ Hwf) as (Hwf1 & Hc1 & Hr1 & Ha1 & He1 & Hw1 & Ho1).
    destruct (IH fuel (abort_one err s x) Hwf1 ltac:(simpl in Hfuel; lia))
      as (Hwf2 & Hc2 & Hr2 & Ha2 & He2 & Hw2 & Ho2).
    split_and!; try done; try congruence.
    + by rewrite Hr2, Hr1, <- app_assoc.
    + intros y [->|Hy]%elem_of_cons.
      { unfold waiter at 1. rewrite Ho2 by done. exact Hw1. }
      rewrite (Hw2 y Hy). unfold waiter. rewrite !Ho1 by (intros ->; done). done.
    + intros y [Hyx Hyg]%not_elem_of_cons. by rewrite Ho2, Ho1.
Qed.

(** ** Suspending and destroying *)

Lemma wf_acquire s q x n :
  wf s q -> ws s !! x = None -> 0 <= n < 2 ^ 32 -> x ∉ q /\ wf (acquire s x n) q.
Proof.
  intros Hwf Hx Hn.
  assert (x ∉ q) as Hxq.
  { intros (w & Hw & _)%(wf_queued _ _ Hwf). congruence. }
  split; [done|]. constructor; simpl; try apply Hwf.
  - apply (dll_frame (lks s)); [apply Hwf|]. intros y Hy. apply lookup_insert_ne. by intros ->.
  - intros y. destruct (decide (x = y)) as [<-|].
    + rewrite lookup_insert_eq. split; [done|]. by intros (w' & [= <-] & ?).
    + rewrite lookup_insert_ne by done. apply Hwf.
  - intros y w' [[<- <-]|[_ Hy]]%lookup_insert_Some; [done|]. by apply (wf_fresh _ _ Hwf _ _ Hy).
  - intros y w' [[<- <-]|[_ Hy]]%lookup_insert_Some; [done|]. by apply (wf_need _ _ Hwf _ _ Hy).
Qed.

Lemma wf_suspend s q x w :
  wf s q -> x ∉ q -> ws s !! x = Some w -> granted_ w = false -> consumed_ w = false ->
  wf (await_suspend s x) (q ++ [x]).
Proof.
  intros Hwf Hx Hw Hg Hc. pose proof (wf_tail _ _ Hwf) as Ht.
  constructor; simpl; rewrite ?(waiter_lookup _ _ _ Hw).
  - rewrite Ht. apply dll_push_back; [apply Hwf|done].
  - rewrite Ht, (wf_head _ _ Hwf). destruct q as [|y q]; [done|].
    destruct (last (y :: q)) eqn:E; [done|]. by apply last_None in E.
  - by rewrite last_snoc.
  - intros y. rewrite elem_of_app, list_elem_of_singleton. destruct (decide (x = y)) as [<-|].
    + rewrite lookup_insert_eq. split; [intros _; by eexists|]. by right.
    + rewrite lookup_insert_ne by done. rewrite <- (wf_queued _ _ Hwf). naive_solver.
  - intros y w' [[<- <-]|[_ Hy]]%lookup_insert_Some; [done|]. by apply (wf_fresh _ _ Hwf _ _ Hy).
  - intros y w' [[<- <-]|[_ Hy]]%lookup_insert_Some; [by apply (wf_need _ _ Hwf _ _ Hw)|].
    by apply (wf_need _ _ Hwf _ _ Hy).
  - apply Hwf.
Qed.

Definition drop_node (s : semaphore_t) (x : node_id) : semaphore_t :=
  mk_sem (count_ s) (head_ s) (tail_ s) (abort_err_ s) (aborted_ s)
    (delete x (lks s)) (delete x (ws s)) (ready s).

Lemma wf_drop s q x : wf s q -> x ∉ q -> wf (drop_node s x) q.
Proof.
  intros Hwf Hx. constructor; simpl; try apply Hwf.
  - apply (dll_frame (lks s)); [apply Hwf|]. intros y Hy. apply lookup_delete_ne. by intros ->.
  - intros y. destruct (decide (x = y)) as [<-|].
    + rewrite lookup_delete_eq. split; [done|]. by intros (w' & [=] & ?).
    + rewrite lookup_delete_ne by done. apply Hwf.
  - intros y w' [_ Hy]%lookup_delete_Some. by apply (wf_fresh _ _ Hwf _ _ Hy).
  - intros y w' [_ Hy]%lookup_delete_Some. by apply (wf_need _ _ Hwf _ _ Hy).
Qed.

Lemma no_lost_drop s q x :
  wf s q -> x ∉ q -> no_lost_wakeup s -> no_lost_wakeup (drop_node s x).
Proof.
  intros Hwf Hx Hl. unfold no_lost_wakeup, drop_node, waiter in *. simpl.
  rewrite (wf_head _ _ Hwf) in *. destruct q as [|y q]; [done|]. simpl in *.
  rewrite lookup_delete_ne by set_solver. done.
Qed.

(** ** Interleavings

    One step per call a coroutine or the owner can make.  [kill] allows the
    destruction of a frame whose waiter is still queued. *)

Inductive sem_step (kill : bool) (s : semaphore_t) : semaphore_t -> Prop :=
| step_acquire x n :
    ws s !! x = None -> 0 <= n < 2 ^ 32 -> sem_step kill s (co_await_acquire s x n).2
| step_resume x w :
    ws s !! x = Some w -> queued_ w = false -> sem_step kill s (await_resume s x).2
| step_destroy x w :
    ws s !! x = Some w -> (queued_ w = true -> kill = true) ->
    count_ s + need_ w < 2 ^ 32 -> sem_step kill s (destroy s x)
| step_try_acquire n : 0 <= n < 2 ^ 32 -> sem_step kill s (try_acquire s n).2
| step_release n : 0 <= n -> count_ s + n < 2 ^ 32 -> sem_step kill s (release s n)
| step_abort e : sem_step kill s (abort s e).

Definition inv (s : semaphore_t) (q : list node_id) : Prop :=
  wf s q /\ (aborted_ s = true -> q = []).

Lemma inv_init n : 0 <= n < 2 ^ 32 -> inv (sem_init n) [].
Proof.
  intros Hn. split; [|done]. constructor; simpl; try done.
  - apply dll_nil.
  - intros x. split; [by intros ?%elem_of_nil|]. by intros (w & ? & _).
Qed.

Lemma inv_co_await s q x n :
  inv s q -> ws s !! x = None -> 0 <= n < 2 ^ 32 ->
  exists q', inv (co_await_acquire s x n).2 q' /\
    (no_lost_wakeup s -> no_lost_wakeup (co_await_acquire s x n).2).
Proof.
  intros [Hwf Ha] Hx Hn. destruct (wf_acquire _ _ x n Hwf Hx Hn) as [Hxq Hwf'].
  assert (waiter (acquire s x n) x = mk_awaiter n no_error false false false) as Hw.
  { unfold waiter, acquire. simpl. by rewrite lookup_insert_eq. }
  assert (forall y z, waiter (acquire s x n) y = z -> y <> x -> waiter s y = z) as Hoth.
  { intros y z <- Hy. unfold waiter, acquire. simpl. by rewrite lookup_insert_ne. }
  pose proof (wf_count _ _ Hwf) as Hc. pose proof (wf_head _ _ Hwf) as Hh.
  assert (head_ s <> Some x) as Hhx. { rewrite Hh. intros E. destruct q; simplify_eq/=. set_solver. }
  unfold co_await_acquire, await_ready. rewrite Hw. simpl.
  destruct (aborted_ s) eqn:Hab; [|destruct (Z.leb_spec n (count_ s)) as [Hle|Hgt]].
  - exists q. unfold await_resume. simpl. unfold waiter. simpl. rewrite lookup_insert_eq. simpl.
    split; [split; [|simpl; by rewrite Hab]|].
    + apply wf_set_waiter; [|done..]. by apply wf_set_waiter.
    + unfold no_lost_wakeup, waiter. simpl. destruct (head_ s) as [y|]; [|done].
      by rewrite !lookup_insert_ne by congruence.
  - exists q. unfold await_resume, waiter. simpl. rewrite lookup_insert_eq. simpl.
    split; [split; [|simpl; by rewrite Hab]|].
    + apply wf_set_waiter; [|done..]. apply wf_set_count; [by apply wf_set_waiter|apply u32_range].
    + unfold no_lost_wakeup, waiter. simpl. destruct (head_ s) as [y|]; [|done].
      rewrite !lookup_insert_ne by congruence. rewrite u32_small by lia. lia.
  - exists (q ++ [x]). split; [split; [|simpl; by rewrite Hab]|].
    + eapply wf_suspend; [done|done| |..]; [unfold acquire; simpl; by rewrite lookup_insert_eq|done..].
    + unfold no_lost_wakeup, waiter. simpl. rewrite (wf_tail _ _ Hwf), Hh.
      destruct q as [|y q]; simpl.
      * rewrite lookup_insert_eq. cbn [default need_]. by rewrite Hw.
      * destruct (last (y :: q)) eqn:E; [|by apply last_None in E].
        assert (x <> y) by (intros ->; set_solver). by rewrite !lookup_insert_ne.
Qed.

Lemma inv_resume s q x w :
  inv s q -> ws s !! x = Some w -> queued_ w = false ->
  inv (await_resume s x).2 q /\ (no_lost_wakeup s -> no_lost_wakeup (await_resume s x).2).
Proof.
  intros [Hwf Ha] Hx Hq. unfold await_resume. rewrite (waiter_lookup _ _ _ Hx).
  assert (x ∉ q) as Hxq. { intros (w' & ? & ?)%(wf_queued _ _ Hwf). congruence. }
  assert (inv (set_waiter s x (mk_awaiter (need_ w) (err_ w) (queued_ w) (granted_ w) true)) q).
  { split; [|done]. apply wf_set_waiter; try done. by apply (wf_need _ _ Hwf _ _ Hx). }
  assert (head_ s <> Some x) as Hhx.
  { rewrite (wf_head _ _ Hwf). intros E. destruct q; simplify_eq/=. set_solver. }
  destruct (granted_ w); simpl; (split; [done|]); unfold no_lost_wakeup, waiter; simpl;
    destruct (head_ s); try done; by rewrite lookup_insert_ne by congruence.
Qed.

Lemma inv_release s q n :
  inv s q -> 0 <= n -> count_ s + n < 2 ^ 32 ->
  exists q', inv (release s n) q' /\ (no_lost_wakeup s -> no_lost_wakeup (release s n)).
Proof.
  intros [Hwf Ha] Hn Hov. unfold release. destruct (n =? 0); [by exists q|].
  pose proof (wf_count _ _ Hwf) as Hc.
  assert (wf (set_count s (u32 (count_ s + n))) q) as Hwf1 by (apply wf_set_count; [done|apply u32_range]).
  simpl. destruct (aborted_ s) eqn:Hab.
  - exists q. split; [split; [done|intros _; by apply Ha]|]. unfold no_lost_wakeup. simpl.
    by rewrite (wf_head _ _ Hwf), (Ha eq_refl).
  - destruct (grant (count_ (set_count s (u32 (count_ s + n)))) (needs (set_count s (u32 (count_ s + n))) q))
      as [[c g] r] eqn:Hg.
    destruct (wake_ready_spec _ _ _ _ _ Hwf1 Hg) as (Hw & _ & _ & _ & Ha' & _ & _ & _ & Hl).
    exists (map fst r). split; [|done]. split; [done|]. rewrite Ha'. simpl. by rewrite Hab.
Qed.

Lemma inv_destroy s q x w :
  inv s q -> ws s !! x = Some w -> count_ s + need_ w < 2 ^ 32 ->
  exists q', inv (destroy s x) q' /\
    (queued_ w = false -> no_lost_wakeup s -> no_lost_wakeup (destroy s x)).
Proof.
  intros [Hwf Ha] Hx Hov. unfold destroy. rewrite (waiter_lookup _ _ _ Hx).
  destruct (queued_ w) eqn:Hq.
  - assert (x ∈ q) as Hxq by (apply (wf_queued _ _ Hwf); eauto).
    destruct (list_elem_of_split _ _ Hxq) as (q1 & q2 & ->).
    destruct (wf_fresh _ _ Hwf _ _ Hx Hq) as [Hg Hc].
    rewrite waiter_unlink, decide_True by done. simpl. rewrite (waiter_lookup _ _ _ Hx), Hg. simpl.
    assert (x ∉ q1 ++ q2) as Hnx.
    { pose proof (dll_nodup _ _ (wf_dll _ _ Hwf)) as Hnd. rewrite <- Permutation_middle in Hnd.
      by apply NoDup_cons in Hnd as [??]. }
    exists (q1 ++ q2). split; [|done]. split.
    + apply (wf_drop (unlink s x)); [by apply wf_unlink|done].
    + intros Hab. apply Ha in Hab. by apply app_nil in Hab as [_ ?].
  - assert (x ∉ q) as Hxq. { intros (w' & ? & ?)%(wf_queued _ _ Hwf). congruence. }
    rewrite (waiter_lookup _ _ _ Hx). destruct (granted_ w && negb (consumed_ w)) eqn:Hgc.
    + assert (wf (set_count s (u32 (count_ s + need_ w))) q) as Hwf1
        by (apply wf_set_count; [done|apply u32_range]).
      simpl. destruct (aborted_ s) eqn:Hab.
      * exists q. split; [split; [by apply (wf_drop _ _ _ Hwf1)|by rewrite (Ha eq_refl)]|].
        intros _ _. apply (no_lost_drop _ _ _ Hwf1 Hxq). unfold no_lost_wakeup. simpl.
        by rewrite (wf_head _ _ Hwf), (Ha eq_refl).
      * destruct (grant (count_ (set_count s (u32 (count_ s + need_ w))))
          (needs (set_count s (u32 (count_ s + need_ w))) q)) as [[c g] r] eqn:Hg.
        destruct (wake_ready_spec _ _ _ _ _ Hwf1 Hg) as (Hw & Hsplit & _ & _ & Ha' & _ & _ & _ & Hl).
        assert (x ∉ map fst r) as Hxr by (rewrite Hsplit in Hxq; by apply not_elem_of_app in Hxq as [_ ?]).
        exists (map fst r). split; [split; [by apply wf_drop|]|].
        { simpl. rewrite Ha'. simpl. by rewrite Hab. }
        intros _ _. by apply (no_lost_drop _ _ _ Hw Hxr).
    + exists q. split; [split; [by apply wf_drop|done]|]. intros _ Hl. by apply (no_lost_drop _ _ _ Hwf Hxq).
Qed.

Lemma inv_abort s q e :
  inv s q -> exists q', inv (abort s e) q' /\ (no_lost_wakeup s -> no_lost_wakeup (abort s e)).
Proof.
  intros [Hwf Ha]. unfold abort. destruct (aborted_ s) eqn:Hab; [by exists q; split; [split|]; auto|].
  assert (wf (mk_sem (count_ s) (head_ s) (tail_ s) e true (lks s) (ws s) (ready s)) q) as Hwf1.
  { constructor; simpl; apply Hwf. }
  destruct (abort_loop_spec (base.size (ws s)) e _ _ Hwf1 ltac:(by apply (wf_queue_size s q)))
    as (Hw & _). exists []. split; [by split|].
  intros _. unfold no_lost_wakeup. by rewrite (wf_head _ _ Hw).
Qed.

Lemma inv_try_acquire s q n :
  inv s q -> 0 <= n < 2 ^ 32 ->
  inv (try_acquire s n).2 q /\ (no_lost_wakeup s -> no_lost_wakeup (try_acquire s n).2).
Proof.
  intros [Hwf Ha] Hn. unfold try_acquire. destruct (aborted_ s || (count_ s <? n)) eqn:E; [done|].
  zify_bool. destruct E as [_ E]. pose proof (wf_count _ _ Hwf) as Hc. simpl.
  split; [split; [apply wf_set_count; [done|apply u32_range]|done]|].
  unfold no_lost_wakeup. simpl. destruct (head_ s); [|done]. unfold waiter. simpl.
  rewrite u32_small by lia. lia.
Qed.

Lemma inv_step kill s q s' :
  inv s q -> sem_step kill s s' ->
  exists q', inv s' q' /\ (kill = false -> no_lost_wakeup s -> no_lost_wakeup s').
Proof.
  intros Hi Hs. destruct Hs as [x n Hx Hn|x w Hx Hq|x w Hx Hk Hov|n Hn|n Hn Hov|e].
  - destruct (inv_co_await _ _ _ _ Hi Hx Hn) as (q' & ? & ?). eauto.
  - destruct (inv_resume _ _ _ _ Hi Hx Hq). eauto.
  - destruct (inv_destroy _ _ _ _ Hi Hx Hov) as (q' & ? & Hl). exists q'. split; [done|].
    intros ->. apply Hl. by destruct (queued_ w); [specialize (Hk eq_refl)|].
  - destruct (inv_try_acquire _ _ _ Hi Hn). eauto.
  - destruct (inv_release _ _ _ Hi Hn Hov) as (q' & ? & ?). eauto.
  - destruct (inv_abort _ _ e Hi) as (q' & ? & ?). eauto.
Qed.

Lemma reachable_inv kill s s' :
  rtc (sem_step kill) s s' -> forall q, inv s q ->
  exists q', inv s' q' /\ (kill = false -> no_lost_wakeup s -> no_lost_wakeup s').
Proof.
  induction 1 as [s|s s1 s2 Hstep _ IH]; intros q Hi; [by exists q|].
  destruct (inv_step _ _ _ _ Hi Hstep) as (q1 & Hi1 & Hl1).
  destruct (IH q1 Hi1) as (q2 & Hi2 & Hl2). exists q2. auto.
Qed.

(** ** Properties *)

(** in every state the semaphore can reach, whatever frames are destroyed on the way, the
    doubly-linked queue represents one duplicate-free FIFO whose members are exactly the awaiters
    flagged as queued, none of them granted or consumed; after an abort it is empty. *)
Theorem semaphore_invariant n s :
  0 <= n < 2 ^ 32 -> rtc (sem_step true) (sem_init n) s ->
  exists q, wf s q /\ (aborted_ s = true -> q = []).
Proof.
  intros Hn Hr. destruct (reachable_inv _ _ _ Hr [] (inv_init n Hn)) as (q & Hi & _).
  by exists q.
Qed.

Lemma semaphore_invariant_witness :
  exists q, wf (destroy (co_await_acquire (sem_init 0) 7%nat 3).2 7%nat) q.
Proof.
  destruct (semaphore_invariant 0 (destroy (co_await_acquire (sem_init 0) 7%nat 3).2 7%nat))
    as (q & Hq & _).
  - lia.
  - eapply rtc_l; [apply (step_acquire true (sem_init 0) 7%nat 3); [reflexivity|lia]|].
    eapply rtc_l; [|apply rtc_refl].
    eapply (step_destroy true _ 7%nat); [reflexivity|done|vm_compute; reflexivity].
  - by exists q.
Defined.

(** C32: as long as no frame is destroyed while its waiter is queued, no wakeup is ever lost: the
    waiter at the head of the queue needs more permits than are available. *)
Theorem semaphore_no_lost_wakeup n s :
  0 <= n < 2 ^ 32 -> rtc (sem_step false) (sem_init n) s -> no_lost_wakeup s.
Proof.
  intros Hn Hr. destruct (reachable_inv _ _ _ Hr [] (inv_init n Hn)) as (q & _ & Hl). by apply Hl.
Qed.

Lemma semaphore_no_lost_wakeup_witness :
  no_lost_wakeup (release (co_await_acquire (sem_init 1) 4%nat 3).2 1).
Proof.
  apply (semaphore_no_lost_wakeup 1); [lia|].
  eapply rtc_l; [apply (step_acquire false (sem_init 1) 4%nat 3); [reflexivity|lia]|].
  eapply rtc_l; [|apply rtc_refl].
  apply step_release; [lia|vm_compute; reflexivity].
Defined.

(** [release] on a live semaphore wakes exactly the longest prefix of the FIFO whose needs fit
    the permits, in queue order, hands each woken waiter its permits, and keeps the rest of the
    queue; the first waiter left behind does not fit. *)
Theorem semaphore_release_fifo s q n c g r :
  wf s q -> aborted_ s = false -> 0 < n -> count_ s + n < 2 ^ 32 ->
  grant (count_ s + n) (needs s q) = (c, g, r) ->
  wf (release s n) (map fst r) /\ q = g ++ map fst r /\
  count_ (release s n) = c /\ ready (release s n) = ready s ++ g /\
  (forall x, x ∈ g -> (await_resume (release s n) x).1 = Ok tt) /\
  no_lost_wakeup (release s n).
Proof.
  intros Hwf Hab Hn Hov Hg. pose proof (wf_count _ _ Hwf) as Hc. unfold release.
  replace (n =? 0) with false by (symmetry; apply Z.eqb_neq; lia).
  set (s1 := set_count s (u32 (count_ s + n))). assert (wf s1 q) as Hwf1.
  { apply wf_set_count; [done|apply u32_range]. }
  assert (grant (count_ s1) (needs s1 q) = (c, g, r)) as Hg1.
  { unfold s1. simpl. rewrite u32_small by lia. exact Hg. }
  simpl. rewrite Hab.
  destruct (wake_ready_spec _ _ _ _ _ Hwf1 Hg1) as (Hw & Hq & Hcc & Hr & _ & _ & Hwk & _ & Hl).
  split_and!; try done. intros x Hx. unfold await_resume. by rewrite (Hwk x Hx).
Qed.

Lemma semaphore_release_fifo_witness :
  let s := (co_await_acquire (co_await_acquire (sem_init 0) 1%nat 1).2 2%nat 3).2 in
  ready (release s 2) = [1%nat].
Proof.
  intros s. destruct (inv_co_await _ _ 1%nat 1 (inv_init 0 ltac:(lia)) eq_refl ltac:(lia)) as (q1 & H1 & _).
  destruct (inv_co_await _ _ 2%nat 3 H1 eq_refl ltac:(lia)) as (q & [Hwf _] & _). fold s in Hwf.
  assert (q = [1%nat; 2%nat]) as ->.
  { pose proof (wf_head _ _ Hwf) as Hh. pose proof (wf_tail _ _ Hwf) as Ht.
    pose proof (wf_dll _ _ Hwf) as Hd. vm_compute in Hh, Ht.
    destruct q as [|x [|y q]]; simplify_eq/=.
    pose proof (dll_suffix _ [] _ _ Hd) as Hn. vm_compute in Hn. simplify_eq. destruct q as [|z q]; [done|].
    pose proof (dll_suffix _ [1%nat] _ _ Hd) as Hn2. vm_compute in Hn2. done. }
  destruct (semaphore_release_fifo s [1%nat; 2%nat] 2 1 [1%nat] [(2%nat, 3)] Hwf) as (_ & _ & _ & Hr & _);
    [reflexivity|lia|vm_compute; reflexivity|reflexivity|].
  exact Hr.
Defined.

(** [abort] wakes every queued waiter in FIFO order; each of them, and every later [acquire],
    completes with the abort error, and the permit count does not change. *)
Theorem semaphore_abort_fails_all s q err :
  wf s q -> aborted_ s = false ->
  ready (abort s err) = ready s ++ q /\ count_ (abort s err) = count_ s /\
  wf (abort s err) [] /\
  (forall x, x ∈ q -> (await_resume (abort s err) x).1 = Unexpected err) /\
  (forall x n, (co_await_acquire (abort s err) x n).1 = Some (Unexpected err)).
Proof.
  intros Hwf Hab. unfold abort. rewrite Hab.
  set (s1 := mk_sem (count_ s) (head_ s) (tail_ s) err true (lks s) (ws s) (ready s)).
  assert (wf s1 q) as Hwf1 by (constructor; simpl; apply Hwf).
  destruct (abort_loop_spec (base.size (ws s)) err s1 q Hwf1 ltac:(by apply (wf_queue_size s q)))
    as (Hw & Hc & Hr & Ha & He & Hwk & _).
  split_and!; try done.
  - intros x Hx. unfold await_resume. by rewrite (Hwk x Hx).
  - intros x n. unfold co_await_acquire, await_ready. simpl.
    change (aborted_ s1) with true in Ha. change (abort_err_ s1) with err in He. rewrite Ha, He.
    unfold await_resume, waiter. simpl. by rewrite !lookup_insert_eq.
Qed.

Lemma semaphore_abort_fails_all_witness :
  (co_await_acquire (abort (sem_init 5) (system_error 125)) 1%nat 1).1 =
    Some (Unexpected (system_error 125)).
Proof.
  apply (semaphore_abort_fails_all (sem_init 5) [] (system_error 125)); [|reflexivity].
  apply inv_init. lia.
Defined.

(** destroying a frame whose waiter is queued can lose a wakeup: with one permit free, a waiter
    for three at the head and a waiter for one behind it, destroying the head leaves the second
    waiter asleep although its permit is available, and nothing is scheduled. *)
Theorem semaphore_destroy_loses_wakeup :
  exists s, rtc (sem_step true) (sem_init 0) s /\
    aborted_ s = false /\ head_ s = Some 2%nat /\ need_ (waiter s 2%nat) <= count_ s /\ ready s = [].
Proof.
  set (s1 := (co_await_acquire (sem_init 0) 1%nat 3).2). set (s2 := (co_await_acquire s1 2%nat 1).2).
  exists (destroy (release s2 1) 1%nat). split; [|vm_compute; done].
  eapply rtc_l; [apply (step_acquire true (sem_init 0) 1%nat 3); [reflexivity|lia]|].
  eapply rtc_l; [apply (step_acquire true s1 2%nat 1); [reflexivity|lia]|].
  eapply rtc_l; [apply (step_release true s2 1); [lia|vm_compute; reflexivity]|].
  eapply rtc_l; [|apply rtc_refl].
  eapply (step_destroy true _ 1%nat); [vm_compute; reflexivity|done|vm_compute; reflexivity].
Qed.

(** the fast path overtakes the queue: with a waiter for three queued on one free permit, a
    later [acquire(1)] completes at once. *)
Theorem semaphore_acquire_overtakes :
  let s := (co_await_acquire (sem_init 1) 1%nat 3).2 in
  head_ s = Some 1%nat /\
  (co_await_acquire s 2%nat 1).1 = Some (Ok tt) /\
  head_ (co_await_acquire s 2%nat 1).2 = Some 1%nat.
Proof. vm_compute. done. Qed.
