(* ===== verification/TimerWheel.v ===== *)
(** * Hashed timing wheel

    src/include/cornet/concurrency/timer_wheel.h and src/src/timer_wheel.cc.
    The timer nodes are intrusive: their [prev]/[next] fields live in [lks],
    [rounds], [slot] and the presence of [on_expire] in [nodes].  The expiry
    callback is the owner's code: it is a parameter [cb] of the model, run on
    the whole wheel because it may arm and cancel timers.  Each call is logged
    in [fired]; [spawned] counts the runner coroutines started. *)

From stdpp Require Import prelude gmap list.
From Stdlib Require Import ZArith Lia.
From S2P Require Import Prelude Dll.
Open Scope Z_scope.

Definition kSlots : Z := 512.
Definition kDefaultTick : Z := 500.

Record timer_node_t := mk_node { rounds : Z; slot : Z; on_expire : bool }.

Definition node_init (expire : bool) : timer_node_t := mk_node 0 (-1) expire.

Definition armed (nd : timer_node_t) : bool := 0 <=? slot nd.

Record timer_wheel_t := mk_wheel {
  tick_ : Z;
  slots_ : list (option node_id);
  cursor_ : Z;
  armed_ : Z;
  ticks_ : Z;
  running_ : bool;
  runner_live_ : bool;
  lks : links;
  nodes : gmap node_id timer_node_t;
  fired : list node_id;
  spawned : nat
}.

(** The constructor; the nodes of the users exist beside the wheel. *)
Definition make (tick : Z) (users : gmap node_id timer_node_t) : timer_wheel_t :=
  mk_wheel (if 0 <? tick then tick else kDefaultTick) (replicate (Z.to_nat kSlots) None)
    0 0 0 true false ∅ users [] 0.

Definition node (w : timer_wheel_t) (x : node_id) : timer_node_t :=
  default (node_init false) (nodes w !! x).

Definition set_node (w : timer_wheel_t) (x : node_id) (nd : timer_node_t) : timer_wheel_t :=
  mk_wheel (tick_ w) (slots_ w) (cursor_ w) (armed_ w) (ticks_ w) (running_ w) (runner_live_ w)
    (lks w) (<[x := nd]> (nodes w)) (fired w) (spawned w).

Definition slot_head (w : timer_wheel_t) (s : Z) : option node_id :=
  default None (slots_ w !! Z.to_nat s).

Definition link (w : timer_wheel_t) (x : node_id) (s : Z) : timer_wheel_t :=
  mk_wheel (tick_ w) (<[Z.to_nat s := Some x]> (slots_ w)) (cursor_ w) (u32 (armed_ w + 1))
    (ticks_ w) (running_ w) (runner_live_ w)
    (push_front (lks w) (slot_head w s) x)
    (<[x := mk_node (rounds (node w x)) s (on_expire (node w x))]> (nodes w)) (fired w) (spawned w).

Definition unlink (w : timer_wheel_t) (x : node_id) : timer_wheel_t :=
  let nd := node w x in
  if negb (armed nd) then w
  else
    let lk := link_of (lks w) x in
    mk_wheel (tick_ w)
      (match prev lk with
       | Some _ => slots_ w
       | None => <[Z.to_nat (slot nd) := next lk]> (slots_ w)
       end)
      (cursor_ w) (u32 (armed_ w - 1)) (ticks_ w) (running_ w) (runner_live_ w)
      (unlink_node (lks w) x) (<[x := mk_node (rounds nd) (-1) (on_expire nd)]> (nodes w))
      (fired w) (spawned w).

Definition ensure_runner (w : timer_wheel_t) : timer_wheel_t :=
  if runner_live_ w || negb (running_ w) then w
  else mk_wheel (tick_ w) (slots_ w) (cursor_ w) (armed_ w) (ticks_ w) (running_ w) true
         (lks w) (nodes w) (fired w) (S (spawned w)).

(** [uint64_t((delay + tick_ - 1ms) / tick_)], at least one. *)
Definition delay_ticks (w : timer_wheel_t) (delay : Z) : Z :=
  let ticks := u64 (Z.quot (delay + tick_ w - 1) (tick_ w)) in
  if ticks =? 0 then 1 else ticks.

Definition arm (w : timer_wheel_t) (x : node_id) (delay : Z) : timer_wheel_t :=
  let w := unlink w x in
  let ticks := delay_ticks w delay in
  let w := set_node w x (mk_node (u32 ((ticks - 1) / kSlots)) (slot (node w x)) (on_expire (node w x))) in
  let s := u32 (u64 (cursor_ w + ticks) mod kSlots) in
  ensure_runner (link w x s).

Definition cancel (w : timer_wheel_t) (x : node_id) : timer_wheel_t := unlink w x.

Definition stop (w : timer_wheel_t) : timer_wheel_t :=
  mk_wheel (tick_ w) (slots_ w) (cursor_ w) (armed_ w) (ticks_ w) false (runner_live_ w)
    (lks w) (nodes w) (fired w) (spawned w).

(** The destructor: every node still linked is made unarmed, slot by slot. *)
Fixpoint clear_list (fuel : nat) (w : timer_wheel_t) (cur : option node_id) : option timer_wheel_t :=
  match cur, fuel with
  | None, _ => Some w
  | Some _, O => None
  | Some x, S fuel =>
      let nx := next (link_of (lks w) x) in
      let nd := node w x in
      clear_list fuel
        (mk_wheel (tick_ w) (slots_ w) (cursor_ w) (armed_ w) (ticks_ w) (running_ w) (runner_live_ w)
           (<[x := unlinked]> (lks w)) (<[x := mk_node (rounds nd) (-1) (on_expire nd)]> (nodes w))
           (fired w) (spawned w)) nx
  end.

Definition clear_slot (ow : option timer_wheel_t) (s : nat) : option timer_wheel_t :=
  w ← ow;
  w ← clear_list (base.size (nodes w)) w (slot_head w (Z.of_nat s));
  Some (mk_wheel (tick_ w) (<[s := None]> (slots_ w)) (cursor_ w) (armed_ w) (ticks_ w) (running_ w)
          (runner_live_ w) (lks w) (nodes w) (fired w) (spawned w)).

Definition destroy_wheel (w : timer_wheel_t) : option timer_wheel_t :=
  w ← fold_left clear_slot (seq 0 (Z.to_nat kSlots)) (Some w);
  Some (mk_wheel (tick_ w) (slots_ w) (cursor_ w) 0 (ticks_ w) (running_ w) (runner_live_ w)
          (lks w) (nodes w) (fired w) (spawned w)).

(** ** Ticking *)

Section Ticking.
Context (cb : node_id -> timer_wheel_t -> timer_wheel_t).

Definition log_fire (w : timer_wheel_t) (x : node_id) : timer_wheel_t :=
  mk_wheel (tick_ w) (slots_ w) (cursor_ w) (armed_ w) (ticks_ w) (running_ w) (runner_live_ w)
    (lks w) (nodes w) (fired w ++ [x]) (spawned w).

(** The body of the loop of [advance] on the current node. *)
Definition visit (w : timer_wheel_t) (x : node_id) : timer_wheel_t :=
  let nd := node w x in
  if 0 <? rounds nd then set_node w x (mk_node (rounds nd - 1) (slot nd) (on_expire nd))
  else
    let w := unlink w x in
    if on_expire nd then cb x (log_fire w x) else w.

(** The loop: [next] is read before the node is visited.  [None] when the
    fuel does not suffice. *)
Fixpoint walk (fuel : nat) (w : timer_wheel_t) (cur : option node_id) : option timer_wheel_t :=
  match cur with
  | None => Some w
  | Some x =>
      match fuel with
      | O => None
      | S fuel => let nx := next (link_of (lks w) x) in walk fuel (visit w x) nx
      end
  end.

Definition advance_cursor (w : timer_wheel_t) : timer_wheel_t :=
  mk_wheel (tick_ w) (slots_ w) (u32 (cursor_ w + 1) mod kSlots) (armed_ w) (u64 (ticks_ w + 1))
    (running_ w) (runner_live_ w) (lks w) (nodes w) (fired w) (spawned w).

(** The current slot holds at most one entry per existing node. *)
Definition advance (w : timer_wheel_t) : option timer_wheel_t :=
  let w := advance_cursor w in walk (base.size (nodes w)) w (slot_head w (cursor_ w)).

(** [n] ticks. *)
Fixpoint advances (n : nat) (w : timer_wheel_t) : option timer_wheel_t :=
  match n with
  | O => Some w
  | S n => w ← advance w; advances n w
  end.

(** *** The runner coroutine

    [run_head] is the loop condition: [true] when the runner goes to sleep
    for a tick; otherwise the coroutine has returned.  [run_wake] is the code
    behind the sleep. *)
Definition runner_exit (w : timer_wheel_t) : timer_wheel_t :=
  mk_wheel (tick_ w) (slots_ w) (cursor_ w) (armed_ w) (ticks_ w) (running_ w) false
    (lks w) (nodes w) (fired w) (spawned w).

Definition run_head (ctx_running : bool) (w : timer_wheel_t) : bool * timer_wheel_t :=
  if (0 <? armed_ w) && running_ w && ctx_running then (true, w) else (false, runner_exit w).

Definition run_wake (ok ctx_running : bool) (w : timer_wheel_t)
    : option (bool * timer_wheel_t) :=
  if negb ok then Some (false, runner_exit w)
  else if negb (running_ w) then Some (false, runner_exit w)
  else w ← advance w; Some (run_head ctx_running w).
End Ticking.

(** ** Representation invariant

    [L] is the content of the slots, front first. *)

Definition total (L : list (list node_id)) : nat := sum_list (length <$> L).

Record wf (w : timer_wheel_t) (L : list (list node_id)) : Prop := {
  wf_len : length L = Z.to_nat kSlots;
  wf_slots : slots_ w = head <$> L;
  wf_dll : forall s l, L !! s = Some l -> dll (lks w) l;
  wf_slot : forall x nd, nodes w !! x = Some nd ->
    (slot nd = -1 \/ 0 <= slot nd < kSlots) /\ 0 <= rounds nd < 2 ^ 32;
  wf_in : forall s l x, L !! s = Some l ->
    (x ∈ l <-> exists nd, nodes w !! x = Some nd /\ slot nd = Z.of_nat s);
  wf_cursor : 0 <= cursor_ w < kSlots;
  wf_armed : armed_ w = u32 (Z.of_nat (total L));
  wf_tick : 0 < tick_ w
}.

(** Ticks until the node's deadline: the distance to its slot plus its laps. *)
Definition remaining (w : timer_wheel_t) (x : node_id) : Z :=
  let d := (slot (node w x) - cursor_ w) mod kSlots in
  (if d =? 0 then kSlots else d) + kSlots * rounds (node w x).

(** ** List and link lemmas *)

Lemma total_insert L s l l' :
  L !! s = Some l -> (total (<[s := l']> L) + length l = total L + length l')%nat.
Proof.
  unfold total. revert s. induction L as [|m L IH]; intros [|s] Hs; simplify_eq/=; [lia|].
  specialize (IH s Hs). lia.
Qed.

(** In a duplicate-free list an element splits it in one way. *)
Lemma app_cons_inj_nodup (l1 l2 m1 m2 : list node_id) x :
  NoDup (l1 ++ x :: l2) -> l1 ++ x :: l2 = m1 ++ x :: m2 -> l1 ++ l2 = m1 ++ m2.
Proof.
  revert m1. induction l1 as [|a l1 IH]; intros m1 Hn E.
  - destruct m1 as [|b m1]; simplify_eq/=; [done|].
    apply NoDup_cons in Hn as [Hx _]. exfalso. apply Hx. set_solver.
  - destruct m1 as [|b m1]; simplify_eq/=.
    + apply NoDup_cons in Hn as [Hx _]. exfalso. apply Hx. set_solver.
    + f_equal. apply NoDup_cons in Hn as [_ Hn]. by apply IH.
Qed.

Lemma wf_node w L s l x :
  wf w L -> L !! s = Some l -> x ∈ l ->
  exists nd, nodes w !! x = Some nd /\ node w x = nd /\ slot nd = Z.of_nat s /\ armed nd = true.
Proof.
  intros Hwf Hs Hx. apply (wf_in _ _ Hwf _ _ _ Hs) in Hx as (nd & Hnd & Hslot).
  exists nd. unfold node, armed. rewrite Hnd. split_and!; [done..|]. apply Z.leb_le. lia.
Qed.

Lemma wf_slot_unique w L s s' l l' x :
  wf w L -> L !! s = Some l -> L !! s' = Some l' -> x ∈ l -> x ∈ l' -> s = s'.
Proof.
  intros Hwf Hs Hs' Hx Hx'.
  destruct (wf_node _ _ _ _ _ Hwf Hs Hx) as (nd & Hn & _ & E1 & _).
  destruct (wf_node _ _ _ _ _ Hwf Hs' Hx') as (nd' & Hn' & _ & E2 & _). simplify_eq. lia.
Qed.

Lemma wf_disjoint w L s s' l l' :
  wf w L -> L !! s = Some l -> L !! s' = Some l' -> s <> s' -> l ## l'.
Proof. intros Hwf Hs Hs' Hne x Hx Hx'. apply Hne. by eapply wf_slot_unique. Qed.

Lemma wf_slot_lookup w L s :
  wf w L -> 0 <= s < kSlots -> exists l, L !! Z.to_nat s = Some l /\ slot_head w s = head l.
Proof.
  intros Hwf Hs. destruct (lookup_lt_is_Some_2 L (Z.to_nat s)) as [l Hl].
  { rewrite (wf_len _ _ Hwf). lia. }
  exists l. split; [done|]. unfold slot_head. by rewrite (wf_slots _ _ Hwf), list_lookup_fmap, Hl.
Qed.

Lemma wf_link w L s l x nd :
  wf w L -> L !! s = Some l -> nodes w !! x = Some nd -> slot nd = -1 ->
  wf (link w x (Z.of_nat s)) (<[s := x :: l]> L).
Proof.
  intros Hwf Hs Hx Hsl. pose proof (lookup_lt_Some _ _ _ Hs) as Hlt. rewrite (wf_len _ _ Hwf) in Hlt.
  assert (forall s' l', L !! s' = Some l' -> x ∉ l') as Hout.
  { intros s' l' Hs' Hin. destruct (wf_node _ _ _ _ _ Hwf Hs' Hin) as (nd' & ? & _ & ? & _).
    simplify_eq. lia. }
  assert (slot_head w (Z.of_nat s) = head l) as Hh.
  { unfold slot_head. by rewrite Nat2Z.id, (wf_slots _ _ Hwf), list_lookup_fmap, Hs. }
  assert (node w x = nd) as Hnode by (unfold node; by rewrite Hx).
  destruct (wf_slot _ _ Hwf _ _ Hx) as [_ Hrd].
  constructor; simpl; rewrite ?Nat2Z.id, ?Hh, ?Hnode; try apply Hwf.
  - by rewrite length_insert, (wf_len _ _ Hwf).
  - rewrite (wf_slots _ _ Hwf), list_fmap_insert. done.
  - intros s' l' Hl'. destruct (decide (s = s')) as [<-|Hne].
    + rewrite list_lookup_insert_eq in Hl' by (rewrite (wf_len _ _ Hwf); done). simplify_eq.
      apply dll_push_front; [by eapply wf_dll|by eapply Hout].
    + rewrite list_lookup_insert_ne in Hl' by done.
      apply dll_push_front_other; [by eapply wf_dll|by eapply Hout|by eapply wf_disjoint].
  - intros y nd' [[<- <-]|[_ Hy]]%lookup_insert_Some; [|by apply (wf_slot _ _ Hwf y)].
    simpl. split; [lia|done].
  - intros s' l' y Hl'. destruct (decide (x = y)) as [<-|Hxy].
    + rewrite lookup_insert_eq. destruct (decide (s = s')) as [<-|Hne].
      * rewrite list_lookup_insert_eq in Hl' by (rewrite (wf_len _ _ Hwf); done). simplify_eq.
        split; [|by left]. intros _. eexists. by split.
      * rewrite list_lookup_insert_ne in Hl' by done. split; [by intros ?%(Hout _ _ Hl')|].
        intros (nd' & [= <-] & E). simpl in E. lia.
    + rewrite lookup_insert_ne by done. destruct (decide (s = s')) as [<-|Hne].
      * rewrite list_lookup_insert_eq in Hl' by (rewrite (wf_len _ _ Hwf); done). simplify_eq.
        rewrite elem_of_cons. rewrite <- (wf_in _ _ Hwf _ _ _ Hs). naive_solver.
      * rewrite list_lookup_insert_ne in Hl' by done. by apply (wf_in _ _ Hwf).
  - pose proof (total_insert L s l (x :: l) Hs) as Ht. simpl in Ht.
    rewrite (wf_armed _ _ Hwf). unfold u32. rewrite Z.add_mod_idemp_l by lia. f_equal. lia.
Qed.

Lemma unlink_armed w L s l1 x l2 :
  wf w L -> L !! s = Some (l1 ++ x :: l2) ->
  wf (unlink w x) (<[s := l1 ++ l2]> L) /\
  nodes (unlink w x) = <[x := mk_node (rounds (node w x)) (-1) (on_expire (node w x))]> (nodes w).
Proof.
  intros Hwf Hs. pose proof (lookup_lt_Some _ _ _ Hs) as Hlt.
  destruct (wf_node _ _ _ _ x Hwf Hs) as (nd & Hx & Hnode & Hsl & Harm); [set_solver|].
  pose proof (wf_dll _ _ Hwf _ _ Hs) as Hd.
  assert (x ∉ l1 ++ l2) as Hnx.
  { pose proof (dll_nodup _ _ Hd) as Hnd. rewrite <- Permutation_middle in Hnd.
    by apply NoDup_cons in Hnd as [??]. }
  destruct (wf_slot _ _ Hwf _ _ Hx) as [_ Hrd].
  unfold unlink. rewrite Hnode, Harm. simpl negb. cbn match. split; [|done].
  constructor; simpl; try apply Hwf.
  - by rewrite length_insert, (wf_len _ _ Hwf).
  - rewrite (dll_prefix _ _ _ _ Hd), (dll_suffix _ _ _ _ Hd), Hsl, Nat2Z.id.
    rewrite list_fmap_insert, (wf_slots _ _ Hwf). destruct l1 as [|y l1]; [done|].
    destruct (last (y :: l1)) eqn:E; [|by apply last_None in E].
    symmetry. apply list_insert_id. by rewrite list_lookup_fmap, Hs.
  - intros s' l' Hl'. destruct (decide (s = s')) as [<-|Hne].
    + rewrite list_lookup_insert_eq in Hl' by done. simplify_eq. by apply dll_unlink.
    + rewrite list_lookup_insert_ne in Hl' by done.
      eapply dll_unlink_other; [done|set_solver|by eapply wf_dll|by eapply wf_disjoint].
  - intros y nd' [[<- <-]|[_ Hy]]%lookup_insert_Some; [|by apply (wf_slot _ _ Hwf y)].
    simpl. split; [by left|done].
  - intros s' l' y Hl'. destruct (decide (x = y)) as [<-|Hxy].
    + rewrite lookup_insert_eq. split; [|by intros (nd' & [= <-] & E); simpl in E; lia].
      intros Hin. exfalso. destruct (decide (s = s')) as [<-|Hne].
      * rewrite list_lookup_insert_eq in Hl' by done. simplify_eq. done.
      * rewrite list_lookup_insert_ne in Hl' by done. apply Hne.
        eapply (wf_slot_unique w L _ _ _ _ x); [done|done|done|set_solver|done].
    + rewrite lookup_insert_ne by done. destruct (decide (s = s')) as [<-|Hne].
      * rewrite list_lookup_insert_eq in Hl' by done. simplify_eq.
        rewrite <- (wf_in _ _ Hwf _ _ _ Hs). rewrite !elem_of_app, elem_of_cons.
        split; [tauto|]. intros [?|[->|?]]; tauto.
      * rewrite list_lookup_insert_ne in Hl' by done. by apply (wf_in _ _ Hwf).
  - pose proof (total_insert L s _ (l1 ++ l2) Hs) as Ht. rewrite !length_app in Ht. simpl in Ht.
    rewrite (wf_armed _ _ Hwf). unfold u32. rewrite Zminus_mod_idemp_l. f_equal. lia.
Qed.

(** [unlink] in general: it changes only the node's slot. *)
Lemma unlink_wf w L x nd :
  wf w L -> nodes w !! x = Some nd ->
  exists L', wf (unlink w x) L' /\
    nodes (unlink w x) !! x = Some (mk_node (rounds nd) (-1) (on_expire nd)) /\
    (forall y, y <> x -> nodes (unlink w x) !! y = nodes w !! y) /\
    (forall s pre todo, L !! s = Some (pre ++ todo) -> x ∉ todo ->
       exists pre', L' !! s = Some (pre' ++ todo)).
Proof.
  intros Hwf Hx. assert (node w x = nd) as Hnode by (unfold node; by rewrite Hx).
  destruct (wf_slot _ _ Hwf _ _ Hx) as [[Hs|Hs] _].
  - exists L. unfold unlink. rewrite Hnode. unfold armed. rewrite Hs. simpl.
    split_and!; [done|by destruct nd; simplify_eq/=|done|eauto].
  - destruct (wf_slot_lookup _ _ _ Hwf Hs) as (l & Hl & _).
    assert (x ∈ l) as Hin. { apply (wf_in _ _ Hwf _ _ _ Hl). exists nd. split; [done|lia]. }
    destruct (list_elem_of_split _ _ Hin) as (l1 & l2 & ->).
    destruct (unlink_armed _ _ _ _ _ _ Hwf Hl) as [Hwf' Hn]. rewrite Hn, Hnode.
    exists (<[Z.to_nat (slot nd) := l1 ++ l2]> L). split_and!.
    + done.
    + apply lookup_insert_eq.
    + intros y Hy. by apply lookup_insert_ne.
    + intros s pre todo Hps Hxt. pose proof (lookup_lt_Some _ _ _ Hl) as Hlt.
      destruct (decide (Z.to_nat (slot nd) = s)) as [<-|Hne].
      * rewrite list_lookup_insert_eq by done. rewrite Hl in Hps. injection Hps as Hps.
        assert (x ∈ pre) as Hxp.
        { assert (x ∈ pre ++ todo) as Hxx by (rewrite <- Hps; set_solver).
          by apply elem_of_app in Hxx as [?|?]. }
        destruct (list_elem_of_split _ _ Hxp) as (p1 & p2 & ->).
        exists (p1 ++ p2). f_equal. rewrite <- app_assoc in Hps |- *. simpl in Hps.
        pose proof (dll_nodup _ _ (wf_dll _ _ Hwf _ _ Hl)) as Hnd.
        eapply app_cons_inj_nodup; done.
      * rewrite list_lookup_insert_ne by done. eauto.
Qed.

(** Changes that keep the slots: a node's rounds, the flags, the log. *)
Lemma wf_set_rounds w L x nd r :
  wf w L -> nodes w !! x = Some nd -> 0 <= r < 2 ^ 32 ->
  wf (set_node w x (mk_node r (slot nd) (on_expire nd))) L.
Proof.
  intros Hwf Hx Hr. destruct (wf_slot _ _ Hwf _ _ Hx) as [Hs _].
  constructor; simpl; try apply Hwf.
  - intros y nd' [[<- <-]|[_ Hy]]%lookup_insert_Some; [done|by apply (wf_slot _ _ Hwf y)].
  - intros s l y Hl. rewrite (wf_in _ _ Hwf _ _ y Hl). destruct (decide (x = y)) as [<-|].
    + rewrite lookup_insert_eq, Hx. split; intros (nd' & [= <-] & E); eauto.
    + by rewrite lookup_insert_ne.
Qed.

Lemma wf_ensure_runner w L : wf w L -> wf (ensure_runner w) L.
Proof. intros Hwf. unfold ensure_runner. case_match; [done|]. constructor; simpl; apply Hwf. Qed.

Lemma wf_log_fire w L x : wf w L -> wf (log_fire w x) L.
Proof. intros Hwf. constructor; simpl; apply Hwf. Qed.

Lemma wf_stop w L : wf w L -> wf (stop w) L.
Proof. intros Hwf. constructor; simpl; apply Hwf. Qed.

Lemma wf_runner_exit w L : wf w L -> wf (runner_exit w) L.
Proof. intros Hwf. constructor; simpl; apply Hwf. Qed.

Lemma unlink_fields w x :
  tick_ (unlink w x) = tick_ w /\ cursor_ (unlink w x) = cursor_ w /\ ticks_ (unlink w x) = ticks_ w /\
  fired (unlink w x) = fired w /\ running_ (unlink w x) = running_ w /\
  runner_live_ (unlink w x) = runner_live_ w /\ spawned (unlink w x) = spawned w.
Proof. unfold unlink. by case_match. Qed.

Lemma ensure_runner_fields w :
  tick_ (ensure_runner w) = tick_ w /\ cursor_ (ensure_runner w) = cursor_ w /\
  ticks_ (ensure_runner w) = ticks_ w /\ fired (ensure_runner w) = fired w /\
  nodes (ensure_runner w) = nodes w /\ armed_ (ensure_runner w) = armed_ w.
Proof. unfold ensure_runner. by case_match. Qed.

Lemma arm_slot_range x : 0 <= u32 (u64 x mod kSlots) < kSlots /\ u32 (u64 x mod kSlots) = x mod kSlots.
Proof.
  assert (u64 x mod kSlots = x mod kSlots) as ->.
  { unfold u64, kSlots. apply Z.mod_mod_divide. by exists (2 ^ 55). }
  assert (0 <= x mod kSlots < kSlots) as H by (by apply Z.mod_pos_bound).
  rewrite u32_small by (unfold kSlots in *; lia). done.
Qed.

Lemma arm_wf w L x nd delay :
  wf w L -> nodes w !! x = Some nd ->
  exists L', wf (arm w x delay) L' /\
    nodes (arm w x delay) !! x =
      Some (mk_node (u32 ((delay_ticks w delay - 1) / kSlots))
              ((cursor_ w + delay_ticks w delay) mod kSlots) (on_expire nd)) /\
    (forall y, y <> x -> nodes (arm w x delay) !! y = nodes w !! y) /\
    (forall s pre todo, L !! s = Some (pre ++ todo) -> x ∉ todo ->
       exists pre', L' !! s = Some (pre' ++ todo)).
Proof.
  intros Hwf Hx. destruct (unlink_wf _ _ _ _ Hwf Hx) as (L1 & Hwf1 & Hx1 & Ho1 & Hl1).
  destruct (unlink_fields w x) as (Ht & Hc & _).
  unfold arm. set (w1 := unlink w x) in *.
  assert (delay_ticks w1 delay = delay_ticks w delay) as Hdt by (unfold delay_ticks; by rewrite Ht).
  rewrite Hdt. set (n := delay_ticks w delay).
  assert (node w1 x = mk_node (rounds nd) (-1) (on_expire nd)) as Hn1 by (unfold node; by rewrite Hx1).
  rewrite Hn1. cbn [slot on_expire].
  set (w2 := set_node w1 x _). change (cursor_ w2) with (cursor_ w1). rewrite Hc.
  destruct (arm_slot_range (cursor_ w + n)) as [Hr Hmod].
  set (s := u32 (u64 (cursor_ w + n) mod kSlots)) in *.
  assert (wf w2 L1) as Hwf2.
  { apply (wf_set_rounds w1 L1 x _ _ Hwf1 Hx1). apply u32_range. }
  destruct (wf_slot_lookup _ _ _ Hwf2 Hr) as (l & Hl & _).
  assert (nodes w2 !! x = Some (mk_node (u32 ((n - 1) / kSlots)) (-1) (on_expire nd))) as Hx2
    by apply lookup_insert_eq.
  pose proof (wf_link _ _ _ _ _ _ Hwf2 Hl Hx2 eq_refl) as Hwf3. rewrite Z2Nat.id in Hwf3 by lia.
  exists (<[Z.to_nat s := x :: l]> L1).
  destruct (ensure_runner_fields (link w2 x s)) as (_ & _ & _ & _ & -> & _).
  split_and!.
  - by apply wf_ensure_runner.
  - simpl. rewrite lookup_insert_eq. unfold node. rewrite Hx2. simpl. by rewrite <- Hmod.
  - intros y Hy. simpl. rewrite !lookup_insert_ne by done. by apply Ho1.
  - intros s' pre todo Hps Hxt. destruct (Hl1 s' pre todo Hps Hxt) as (pre' & Hpre').
    destruct (decide (Z.to_nat s = s')) as [<-|Hne].
    + rewrite list_lookup_insert_eq by (by eapply lookup_lt_Some).
      exists (x :: pre'). simpl. by simplify_eq.
    + rewrite list_lookup_insert_ne by done. eauto.
Qed.

(** ** Callbacks

    A callback acts on nodes through the operations of the wheel. *)
Inductive self_action (x : node_id) (w : timer_wheel_t) : timer_wheel_t -> Prop :=
| act_arm delay : self_action x w (arm w x delay)
| act_cancel : self_action x w (cancel w x)
| act_stop : self_action x w (stop w).

(** The callback of [x] may arm and cancel its own timer, and any other one that
    does not stand in the slot being walked (one that does still fires after it
    is cancelled there: [timer_cancelled_still_fires]); it leaves the timer
    [keep] of another owner alone.  The callbacks of this repository
    ([deadline_t::fire], [coro_timeout_awaiter_base], [on_idle_expired] and
    [on_wait_expired]) touch no timer but their own. *)
Inductive cb_action (keep : option node_id) (x : node_id) (w : timer_wheel_t) : timer_wheel_t -> Prop :=
| cb_self w' : self_action x w w' -> cb_action keep x w w'
| cb_other y nd w' : keep <> Some y -> nodes w !! y = Some nd -> slot nd <> cursor_ w -> self_action y w w' -> cb_action keep x w w'.

Definition polite (keep : option node_id) (cb : node_id -> timer_wheel_t -> timer_wheel_t) : Prop :=
  forall x w, rtc (cb_action keep x) w (cb x w).

(** What an action on [x] leaves alone. *)
Definition frames (x : node_id) (w w' : timer_wheel_t) : Prop :=
  tick_ w' = tick_ w /\ cursor_ w' = cursor_ w /\ ticks_ w' = ticks_ w /\ fired w' = fired w /\
  (forall y, y <> x -> nodes w' !! y = nodes w !! y) /\
  (runner_live_ w = true -> runner_live_ w' = true /\ spawned w' = spawned w).

Lemma self_action_frames x w w' L nd :
  self_action x w w' -> wf w L -> nodes w !! x = Some nd ->
  exists L', wf w' L' /\ frames x w w' /\
    (exists nd', nodes w' !! x = Some nd' /\ on_expire nd' = on_expire nd) /\
    (forall s pre todo, L !! s = Some (pre ++ todo) -> x ∉ todo ->
       exists pre', L' !! s = Some (pre' ++ todo)).
Proof.
  intros [delay| |] Hwf Hx.
  - destruct (arm_wf _ _ _ _ delay Hwf Hx) as (L' & Hwf' & Hx' & Ho & Hl).
    exists L'. split_and!; try done; [|eexists; by split].
    destruct (unlink_fields w x) as (?&?&?&?&_&Hrl&Hsp). unfold arm.
    set (w2 := link _ _ _). destruct (ensure_runner_fields w2) as (E1&E2&E3&E4&_).
    unfold frames. rewrite E1, E2, E3, E4. simpl. split_and!; try done.
    intros Hr. assert (runner_live_ w2 = true) as Hr2 by (simpl; congruence).
    unfold ensure_runner. rewrite Hr2. simpl. done.
  - destruct (unlink_wf _ _ _ _ Hwf Hx) as (L' & Hwf' & Hx' & Ho & Hl).
    destruct (unlink_fields w x) as (?&?&?&?&_&Hrl&Hsp). unfold cancel.
    exists L'. unfold frames. split_and!; try done; [|eexists; by split]. by rewrite Hrl, Hsp.
  - exists L. split_and!; [by apply wf_stop|done|eauto|eauto].
Qed.

(** What the callback of [x] leaves alone while [todo] is still to be walked. *)
Definition kept (keep : option node_id) (x : node_id) (todo : list node_id) (w w' : timer_wheel_t) : Prop :=
  tick_ w' = tick_ w /\ cursor_ w' = cursor_ w /\ ticks_ w' = ticks_ w /\ fired w' = fired w /\
  (forall y, y ∈ todo \/ (keep = Some y /\ y <> x) -> nodes w' !! y = nodes w !! y) /\
  (runner_live_ w = true -> runner_live_ w' = true /\ spawned w' = spawned w).

Lemma cb_kept_trans keep x todo w1 w2 w3 : kept keep x todo w1 w2 -> kept keep x todo w2 w3 -> kept keep x todo w1 w3.
Proof.
  intros (?&?&?&?&Hn1&Hr1) (?&?&?&?&Hn2&Hr2). unfold kept. split_and!; try congruence.
  - intros y Hy. by rewrite Hn2, Hn1.
  - intros Hr. destruct (Hr1 Hr) as [Hr' <-]. by apply Hr2.
Qed.

Lemma cb_action_kept keep x w w' L nd pre todo :
  cb_action keep x w w' -> wf w L -> nodes w !! x = Some nd -> L !! Z.to_nat (cursor_ w) = Some (pre ++ todo) -> x ∉ todo ->
  exists L' pre' nd', wf w' L' /\ kept keep x todo w w' /\ nodes w' !! x = Some nd' /\ L' !! Z.to_nat (cursor_ w) = Some (pre' ++ todo).
Proof.
  intros Ha Hwf Hx Hl Hxt.
  assert (exists y ndy, self_action y w w' /\ nodes w !! y = Some ndy /\ y ∉ todo /\ (y = x \/ keep <> Some y)) as (y & ndy & Hs & Hy & Hyt & Hk).
  { destruct Ha as [w' Hs|y ndy w' Hk Hy Hne Hs]; [by exists x, nd; auto|]. exists y, ndy. split_and!; auto.
    intros Hin. assert (y ∈ pre ++ todo) as Hin' by (apply elem_of_app; by right).
    apply (wf_in _ _ Hwf _ _ _ Hl) in Hin' as (nd' & Hy' & E). rewrite Z2Nat.id in E by apply Hwf. congruence. }
  destruct (self_action_frames _ _ _ _ _ Hs Hwf Hy) as (L' & Hwf' & (E1 & E2 & E3 & E4 & Hn & Hr) & (nd' & Hy' & _) & Hl').
  destruct (Hl' _ _ _ Hl Hyt) as (pre' & Hpre').
  assert (is_Some (nodes w' !! x)) as [ndx Hx'].
  { destruct (decide (x = y)) as [->|Hxy]; [by eexists|]. rewrite Hn by done. by eexists. }
  exists L', pre', ndx. unfold kept. split_and!; try done.
  intros z [Hz|[Hz Hzx]]; apply Hn; intros ->; [done|]. by destruct Hk.
Qed.

Lemma cb_actions_kept keep x w w' :
  rtc (cb_action keep x) w w' -> forall L nd pre todo, wf w L -> nodes w !! x = Some nd -> L !! Z.to_nat (cursor_ w) = Some (pre ++ todo) -> x ∉ todo ->
  exists L' pre', wf w' L' /\ kept keep x todo w w' /\ L' !! Z.to_nat (cursor_ w) = Some (pre' ++ todo).
Proof.
  induction 1 as [w|w w1 w2 Hs _ IH]; intros L nd pre todo Hwf Hx Hl Hxt.
  - exists L, pre. by split_and!.
  - destruct (cb_action_kept _ _ _ _ _ _ _ _ Hs Hwf Hx Hl Hxt) as (L1 & pre1 & nd1 & Hwf1 & Hk1 & Hx1 & Hl1).
    pose proof (proj1 (proj2 Hk1)) as Hc. rewrite <- Hc in Hl1.
    destruct (IH _ _ _ _ Hwf1 Hx1 Hl1 Hxt) as (L2 & pre2 & Hwf2 & Hk2 & Hl2). rewrite Hc in Hl2.
    exists L2, pre2. split_and!; [done|by eapply cb_kept_trans|done].
Qed.

(** ** A tick *)

(** The nodes of [todo] whose deadline has come. *)
Definition due (w : timer_wheel_t) (x : node_id) : bool := negb (0 <? rounds (node w x)).
Definition expiring (w : timer_wheel_t) (todo : list node_id) : list node_id :=
  List.filter (fun x => due w x && on_expire (node w x)) todo.

Lemma expiring_ext w w' todo :
  (forall y, y ∈ todo -> nodes w' !! y = nodes w !! y) -> expiring w' todo = expiring w todo.
Proof.
  intros H. apply List.filter_ext_in. intros y Hy%list_elem_of_In. unfold due, node.
  by rewrite (H y Hy).
Qed.

Section Tick.
Context (cb : node_id -> timer_wheel_t -> timer_wheel_t) (keep : option node_id) (Hcb : polite keep cb).

Lemma visit_spec w L pre x todo nd :
  wf w L -> L !! Z.to_nat (cursor_ w) = Some (pre ++ x :: todo) -> nodes w !! x = Some nd ->
  exists L' pre', wf (visit cb w x) L' /\ L' !! Z.to_nat (cursor_ w) = Some (pre' ++ todo) /\
    cursor_ (visit cb w x) = cursor_ w /\ tick_ (visit cb w x) = tick_ w /\
    ticks_ (visit cb w x) = ticks_ w /\
    fired (visit cb w x) = fired w ++ expiring w [x] /\
    (forall y, y ∈ todo \/ (keep = Some y /\ y <> x) -> nodes (visit cb w x) !! y = nodes w !! y) /\
    (due w x = false -> nodes (visit cb w x) !! x = Some (mk_node (rounds nd - 1) (slot nd) (on_expire nd))) /\
    (runner_live_ w = true -> runner_live_ (visit cb w x) = true /\ spawned (visit cb w x) = spawned w).
Proof.
  intros Hwf Hs Hx. assert (node w x = nd) as Hnode by (unfold node; by rewrite Hx).
  destruct (wf_slot _ _ Hwf _ _ Hx) as [_ Hr].
  assert (x ∉ todo) as Hxt.
  { pose proof (dll_nodup _ _ (wf_dll _ _ Hwf _ _ Hs)) as Hnd.
    apply NoDup_app in Hnd as (_ & _ & Hnd). by apply NoDup_cons in Hnd as [??]. }
  assert (forall y, y ∈ todo \/ (keep = Some y /\ y <> x) -> x <> y) as Hne by (intros y [?|[_ ?]] ->; done).
  unfold visit, expiring, due. simpl. rewrite Hnode.
  destruct (Z.ltb_spec 0 (rounds nd)) as [Hpos|Hzero]; simpl.
  - exists L, (pre ++ [x]). rewrite <- app_assoc, app_nil_r. split_and!; try done.
    + apply (wf_set_rounds w L x nd); [done|done|lia].
    + intros y Hy. apply lookup_insert_ne. by apply Hne.
    + intros _. apply lookup_insert_eq.
  - destruct (unlink_armed _ _ _ _ _ _ Hwf Hs) as [Hwf1 Hn1].
    destruct (unlink_fields w x) as (Ht & Hc & Hk & Hf & _ & Hrl & Hsp).
    pose proof (lookup_lt_Some _ _ _ Hs) as Hlt.
    assert (forall y, y ∈ todo \/ (keep = Some y /\ y <> x) -> nodes (unlink w x) !! y = nodes w !! y) as Ho.
    { intros y Hy. rewrite Hn1. apply lookup_insert_ne. by apply Hne. }
    destruct (on_expire nd) eqn:He; simpl.
    + assert (nodes (log_fire (unlink w x) x) !! x = Some (mk_node (rounds nd) (-1) true)) as Hx1.
      { simpl. rewrite Hn1, Hnode, He. apply lookup_insert_eq. }
      destruct (cb_actions_kept keep x _ _ (Hcb x (log_fire (unlink w x) x)) _ _ pre todo
                  (wf_log_fire _ _ x Hwf1) Hx1) as (L2 & pre' & Hwf2 & (Et & Ec & Ek & Ef & En & Er) & Hl2);
        [simpl; rewrite Hc; by apply list_lookup_insert_eq|done|]. simpl in Hl2. rewrite Hc in Hl2.
      exists L2, pre'. rewrite Et, Ec, Ek, Ef. simpl. rewrite Ht, Hc, Hk, Hf.
      split_and!; try done; [intros y Hy; rewrite En by done; simpl; by apply Ho|].
      simpl in Er. by rewrite Hrl, Hsp in Er.
    + exists (<[Z.to_nat (cursor_ w) := pre ++ todo]> L), pre. rewrite Ht, Hc, Hk, Hf, app_nil_r.
      split_and!; try done; [by apply list_lookup_insert_eq|by rewrite Hrl, Hsp].
Qed.

Lemma walk_spec fuel w L pre todo :
  wf w L -> L !! Z.to_nat (cursor_ w) = Some (pre ++ todo) -> (length todo <= fuel)%nat ->
  exists w' L', walk cb fuel w (head todo) = Some w' /\ wf w' L' /\
    cursor_ w' = cursor_ w /\ tick_ w' = tick_ w /\ ticks_ w' = ticks_ w /\
    fired w' = fired w ++ expiring w todo /\
    (forall y, keep = Some y -> y ∉ todo -> nodes w' !! y = nodes w !! y) /\
    (forall x nd, keep = Some x -> x ∈ todo -> nodes w !! x = Some nd -> due w x = false ->
       nodes w' !! x = Some (mk_node (rounds nd - 1) (slot nd) (on_expire nd))) /\
    (runner_live_ w = true -> runner_live_ w' = true /\ spawned w' = spawned w).
Proof using Hcb.
  revert fuel w L pre. induction todo as [|x todo IH]; intros fuel w L pre Hwf Hs Hfuel.
  - exists w, L. destruct fuel; simpl; rewrite app_nil_r; split_and!; try done;
      by intros x nd _ Hx%elem_of_nil.
  - destruct fuel as [|fuel]; [simpl in Hfuel; lia|].
    destruct (wf_node _ _ _ _ x Hwf Hs) as (nd & Hx & _ & _ & _); [set_solver|].
    destruct (visit_spec _ _ _ _ _ _ Hwf Hs Hx)
      as (L1 & pre1 & Hwf1 & Hs1 & Hc1 & Ht1 & Hk1 & Hf1 & Ho1 & Hd1 & Hr1).
    assert (x ∉ todo) as Hxt.
    { pose proof (dll_nodup _ _ (wf_dll _ _ Hwf _ _ Hs)) as Hnd.
      apply NoDup_app in Hnd as (_ & _ & Hnd). by apply NoDup_cons in Hnd as [??]. }
    cbn [walk head]. rewrite (dll_suffix _ _ _ _ (wf_dll _ _ Hwf _ _ Hs)). rewrite <- Hc1 in Hs1.
    destruct (IH fuel _ _ _ Hwf1 Hs1 ltac:(simpl in Hfuel; lia))
      as (w' & L' & Hw & Hwf' & Hc & Ht & Hk & Hf & Ho & Hd & Hr).
    assert (forall y, y ∈ todo -> nodes (visit cb w x) !! y = nodes w !! y) as Hsame.
    { intros y Hy. apply Ho1. by left. }
    exists w', L'. split_and!; try done; try congruence.
    + rewrite Hf, Hf1, (expiring_ext _ _ _ Hsame), <- app_assoc. f_equal.
      unfold expiring. simpl. by destruct (_ && _).
    + intros y Hk' [Hyx Hyt]%not_elem_of_cons. rewrite Ho by done. apply Ho1. by right.
    + intros y nd' Hk' [->|Hy]%elem_of_cons Hy' Hdue.
      * rewrite Ho by done. simplify_eq. by apply Hd1.
      * assert (nodes (visit cb w x) !! y = Some nd') as Hy1 by (by rewrite Hsame).
        apply (Hd y nd' Hk' Hy Hy1). unfold due, node in *. by rewrite Hsame.
    + intros Hrun. destruct (Hr1 Hrun) as [Hrun' <-]. by apply Hr.
Qed.

Lemma slot_size w L s l : wf w L -> L !! s = Some l -> (length l <= base.size (nodes w))%nat.
Proof.
  intros Hwf Hs. rewrite <- size_dom.
  rewrite <- (size_list_to_set (C := gset node_id) l) by (eapply dll_nodup, wf_dll; done).
  apply subseteq_size. intros x Hx%elem_of_list_to_set. apply elem_of_dom.
  apply (wf_in _ _ Hwf _ _ _ Hs) in Hx as (nd & -> & _). by eexists.
Qed.

Lemma wf_advance_cursor w L : wf w L -> wf (advance_cursor w) L.
Proof.
  intros Hwf. constructor; simpl; try apply Hwf. by apply Z.mod_pos_bound.
Qed.

Lemma cursor_next w L : wf w L -> cursor_ (advance_cursor w) = (cursor_ w + 1) mod kSlots.
Proof.
  intros Hwf. pose proof (wf_cursor _ _ Hwf). simpl. unfold kSlots in *. by rewrite u32_small by lia.
Qed.

(** The distance of a slot shrinks by one per tick, and restarts when reached. *)
Lemma distance_step s c :
  0 <= s < kSlots -> 0 <= c < kSlots ->
  let d := (s - c) mod kSlots in
  let d' := (s - (c + 1) mod kSlots) mod kSlots in
  if s =? (c + 1) mod kSlots then d = 1 /\ d' = 0
  else 0 < d' /\ (if d =? 0 then kSlots else d) = d' + 1.
Proof.
  unfold kSlots. intros Hs Hc. cbv zeta.
  assert ((c + 1) mod 512 = if c =? 511 then 0 else c + 1) as ->.
  { destruct (Z.eqb_spec c 511) as [->|]; [done|]. apply Z.mod_small. lia. }
  assert (forall z, -512 < z < 512 -> z mod 512 = if z <? 0 then z + 512 else z) as Hm.
  { intros z Hz. destruct (Z.ltb_spec z 0); [|apply Z.mod_small; lia].
    rewrite <- (Z.mod_add z 1) by lia. apply Z.mod_small. lia. }
  destruct (Z.eqb_spec c 511); rewrite !Hm by lia; bool_destruct; zify_bool; lia.
Qed.

Lemma advance_spec w L :
  wf w L ->
  exists w' L' f, advance cb w = Some w' /\ wf w' L' /\
    tick_ w' = tick_ w /\ cursor_ w' = (cursor_ w + 1) mod kSlots /\ ticks_ w' = u64 (ticks_ w + 1) /\
    fired w' = fired w ++ f /\ NoDup f /\
    (forall x, x ∈ f <-> exists nd, nodes w !! x = Some nd /\ armed nd = true /\
                         on_expire nd = true /\ remaining w x = 1) /\
    (forall x nd, keep = Some x -> nodes w !! x = Some nd -> armed nd = true -> 1 < remaining w x ->
       exists nd', nodes w' !! x = Some nd' /\ armed nd' = true /\ on_expire nd' = on_expire nd /\
                   remaining w' x = remaining w x - 1) /\
    (runner_live_ w = true -> runner_live_ w' = true /\ spawned w' = spawned w).
Proof using Hcb.
  intros Hwf. pose proof (wf_advance_cursor _ _ Hwf) as Hwf1. pose proof (cursor_next _ _ Hwf) as Hcur.
  set (w1 := advance_cursor w) in *.
  destruct (wf_slot_lookup _ _ _ Hwf1 (wf_cursor _ _ Hwf1)) as (l & Hl & Hh).
  destruct (walk_spec (base.size (nodes w1)) _ _ [] l Hwf1 Hl ltac:(by eapply slot_size))
    as (w' & L' & Hw & Hwf' & Hc & Ht & Hk & Hf & Ho & Hd & Hrun).
  assert (forall x nd, nodes w !! x = Some nd -> armed nd = true -> 0 <= slot nd < kSlots /\
            (x ∈ l <-> slot nd = cursor_ w1) /\ 0 <= rounds nd) as Hin.
  { intros x nd Hx Ha. unfold armed in Ha. apply Z.leb_le in Ha.
    destruct (wf_slot _ _ Hwf _ _ Hx) as [[Hs|Hs] Hr]; [lia|]. split_and!; try lia.
    pose proof (wf_cursor _ _ Hwf1) as Hcr. rewrite (wf_in _ _ Hwf1 _ _ x Hl).
    change (nodes w1) with (nodes w). split.
    - intros (nd' & Hx' & E). simplify_eq. lia.
    - intros E. exists nd. split; [done|]. lia. }
  assert (forall x nd, nodes w !! x = Some nd -> node w x = nd) as Hnode.
  { intros x nd Hx. unfold node. by rewrite Hx. }
  exists w', L', (expiring w1 l). unfold advance. fold w1. rewrite Hh.
  split_and!; try done; try congruence.
  - unfold expiring. apply NoDup_ListNoDup, List.NoDup_filter, NoDup_ListNoDup.
    exact (dll_nodup _ _ (wf_dll _ _ Hwf1 _ _ Hl)).
  - intros x. unfold expiring. rewrite list_elem_of_In, filter_In, <- list_elem_of_In.
    unfold due. split.
    + intros [Hx E]. destruct (wf_node _ _ _ _ _ Hwf1 Hl Hx) as (nd & Hn & Hnd & Hs & Ha).
      change (nodes w !! x = Some nd) in Hn. rewrite Hnd in E. zify_bool. destruct E as [E1 E2].
      exists nd. split_and!; try done. destruct (Hin _ _ Hn Ha) as (Hsr & Hiff & Hr).
      unfold remaining. rewrite (Hnode _ _ Hn).
      pose proof (distance_step (slot nd) (cursor_ w) Hsr (wf_cursor _ _ Hwf)) as D. cbv zeta in D.
      apply Hiff in Hx. rewrite <- Hcur, Hx, Z.eqb_refl in D. destruct D as [D _].
      assert (rounds nd = 0) as -> by lia. by rewrite Hx, D.
    + intros (nd & Hn & Ha & He & Hrem). destruct (Hin _ _ Hn Ha) as (Hsr & Hiff & Hr).
      unfold remaining in Hrem. rewrite (Hnode _ _ Hn) in Hrem.
      pose proof (distance_step (slot nd) (cursor_ w) Hsr (wf_cursor _ _ Hwf)) as D. cbv zeta in D.
      rewrite <- Hcur in D. change (node w1 x) with (node w x). rewrite (Hnode _ _ Hn), He.
      unfold kSlots in *. destruct (Z.eqb_spec (slot nd) (cursor_ w1)) as [E|E].
      * split; [by apply Hiff|]. destruct D as [D _]. rewrite D in Hrem. simpl in Hrem.
        zify_bool. lia.
      * destruct D as [D1 D2]. rewrite D2 in Hrem. lia.
  - intros x nd Hkp Hn Ha Hrem. destruct (Hin _ _ Hn Ha) as (Hsr & Hiff & Hr).
    unfold remaining in Hrem |- *. rewrite (Hnode _ _ Hn) in Hrem |- *.
    pose proof (distance_step (slot nd) (cursor_ w) Hsr (wf_cursor _ _ Hwf)) as D. cbv zeta in D.
    rewrite <- Hcur in D.
    destruct (Z.eqb_spec (slot nd) (cursor_ w1)) as [E|E].
    + destruct D as [D1 D2]. rewrite D1 in Hrem |- *. simpl in Hrem |- *.
      assert (due w1 x = false) as Hdue.
      { unfold due. change (node w1 x) with (node w x). rewrite (Hnode _ _ Hn).
        apply negb_false_iff, Z.ltb_lt. unfold kSlots in *. lia. }
      pose proof (Hd x nd Hkp ltac:(by apply Hiff) Hn Hdue) as Hx'.
      eexists. split; [done|]. split_and!; try done.
      unfold node. rewrite Hx'. simpl. rewrite Hc, D2. simpl. unfold kSlots. lia.
    + destruct D as [D1 D2]. assert (x ∉ l) as Hxl by (by rewrite Hiff).
      pose proof (Ho x Hkp Hxl) as Hx'. change (nodes w1) with (nodes w) in Hx'.
      exists nd. split; [congruence|]. split_and!; try done.
      unfold node. rewrite Hx', Hn. simpl. rewrite Hc, D2.
      destruct (Z.eqb_spec ((slot nd - cursor_ w1) mod kSlots) 0); lia.
Qed.

(** Ticking until the deadline. *)
Lemma advances_spec n w L x nd :
  keep = Some x -> wf w L -> nodes w !! x = Some nd -> armed nd = true -> on_expire nd = true ->
  remaining w x = Z.of_nat n ->
  (forall k, (k < n)%nat -> exists wk f, advances cb k w = Some wk /\ fired wk = fired w ++ f /\ x ∉ f) /\
  exists wn f g, advances cb n w = Some wn /\ fired wn = fired w ++ f ++ g /\
    x ∉ f /\ x ∈ g /\ NoDup g /\ (0 < n)%nat.
Proof using Hcb.
  intros Hkp. revert w L nd. induction n as [|n IH]; intros w L nd Hwf Hx Ha He Hrem.
  { exfalso. unfold remaining in Hrem. destruct (wf_slot _ _ Hwf _ _ Hx) as [_ Hr].
    unfold node in Hrem. rewrite Hx in Hrem. simpl in Hrem. unfold kSlots in *.
    pose proof (Z.mod_pos_bound (slot nd - cursor_ w) 512 ltac:(lia)).
    destruct (Z.eqb_spec ((slot nd - cursor_ w) mod 512) 0); lia. }
  destruct (advance_spec _ _ Hwf) as (w1 & L1 & f1 & Hw1 & Hwf1 & _ & _ & _ & Hf1 & Hnd1 & Hin1 & Hstep & _).
  destruct (decide (n = O)) as [->|Hn].
  - split.
    + intros k Hk. assert (k = O) as -> by lia. exists w, []. simpl. rewrite app_nil_r. set_solver.
    + exists w1, [], f1. cbn [advances]. rewrite Hw1. simpl. split_and!; try done; [set_solver| |lia].
      apply Hin1. exists nd. split_and!; try done.
  - destruct (Hstep _ _ Hkp Hx Ha ltac:(lia)) as (nd' & Hx' & Ha' & He' & Hrem').
    rewrite Hrem in Hrem'. destruct (IH w1 L1 nd' Hwf1 Hx' Ha' ltac:(congruence) ltac:(lia))
      as [Hlt (wn & f & g & Hwn & Hfn & Hxf & Hxg & Hng & _)].
    assert (x ∉ f1) as Hxf1.
    { intros Hin. apply Hin1 in Hin as (nd2 & ? & _ & _ & Hr). lia. }
    split.
    + intros k Hk. destruct k as [|k]; [exists w, []; simpl; rewrite app_nil_r; set_solver|].
      cbn [advances]. rewrite Hw1. simpl. destruct (Hlt k ltac:(lia)) as (wk & fk & Hwk & Hfk & Hxk).
      exists wk, (f1 ++ fk). split_and!; [done|by rewrite Hfk, Hf1, app_assoc|].
      rewrite elem_of_app. tauto.
    + cbn [advances]. rewrite Hw1. simpl. exists wn, (f1 ++ f), g. split_and!; try done; [| |lia].
      * by rewrite Hfn, Hf1, <- !app_assoc.
      * rewrite elem_of_app. tauto.
Qed.
End Tick.

(** ** Arming *)

(** The deadline in ticks: the delay rounded up, at least one tick. *)
Definition ceil_ticks (tick delay : Z) : Z := Z.max 1 ((delay + tick - 1) / tick).

Lemma delay_ticks_spec w delay :
  0 < tick_ w -> 0 <= delay -> delay + tick_ w < 2 ^ 63 ->
  delay_ticks w delay = ceil_ticks (tick_ w) delay.
Proof.
  intros Ht Hd Hov. unfold delay_ticks, ceil_ticks. rewrite Z.quot_div_nonneg by lia.
  set (q := (delay + tick_ w - 1) / tick_ w).
  assert (0 <= q <= delay + tick_ w - 1) as Hq.
  { split; [apply Z.div_pos; lia|]. apply Z.div_le_upper_bound; nia. }
  rewrite u64_small by lia. destruct (Z.eqb_spec q 0); lia.
Qed.

Lemma arm_remaining w L x nd delay :
  wf w L -> nodes w !! x = Some nd -> 0 <= delay -> delay + tick_ w < 2 ^ 63 ->
  ceil_ticks (tick_ w) delay <= 2 ^ 41 ->
  remaining (arm w x delay) x = ceil_ticks (tick_ w) delay /\
  exists nd', nodes (arm w x delay) !! x = Some nd' /\ armed nd' = true /\ on_expire nd' = on_expire nd.
Proof.
  intros Hwf Hx Hd Hov Hn. destruct (arm_wf _ _ _ _ delay Hwf Hx) as (L' & _ & Hx' & _).
  rewrite delay_ticks_spec in Hx' by (done || apply Hwf).
  set (n := ceil_ticks (tick_ w) delay) in *. assert (1 <= n) as Hn1 by (unfold n, ceil_ticks; lia).
  destruct (self_action_frames _ _ _ _ _ (act_arm x w delay) Hwf Hx) as (_ & _ & (_ & Hc & _) & _).
  split.
  - unfold remaining. rewrite Hc. unfold node. rewrite Hx'. simpl.
    rewrite Zminus_mod_idemp_l. replace (cursor_ w + n - cursor_ w) with n by lia.
    unfold kSlots. rewrite u32_small.
    2:{ split; [apply Z.div_pos; lia|]. apply Z.div_lt_upper_bound; lia. }
    pose proof (Z.div_mod n 512). pose proof (Z.div_mod (n - 1) 512).
    pose proof (Z.mod_pos_bound n 512). pose proof (Z.mod_pos_bound (n - 1) 512).
    destruct (Z.eqb_spec (n mod 512) 0); nia.
  - eexists. split; [done|]. split; [|done]. unfold armed. simpl. apply Z.leb_le.
    apply Z.mod_pos_bound. done.
Qed.

(** ** The wheel under its users and its runner *)

(** Fewer timers exist than the counter [armed_] can hold. *)
Definition few (w : timer_wheel_t) : Prop := Z.of_nat (base.size (nodes w)) < 2 ^ 32.

(** One user call, or one turn of the runner, in a context that keeps running. *)
Inductive wheel_step (cb : node_id -> timer_wheel_t -> timer_wheel_t) (w : timer_wheel_t)
  : timer_wheel_t -> Prop :=
| ws_arm x delay : is_Some (nodes w !! x) -> wheel_step cb w (arm w x delay)
| ws_cancel x : is_Some (nodes w !! x) -> wheel_step cb w (cancel w x)
| ws_stop : wheel_step cb w (stop w)
| ws_start w' b : runner_live_ w = true -> run_head true w = (b, w') -> wheel_step cb w w'
| ws_wake w' b : runner_live_ w = true -> run_wake cb true true w = Some (b, w') -> wheel_step cb w w'.

Definition wheel_run (cb : node_id -> timer_wheel_t -> timer_wheel_t) : relation timer_wheel_t :=
  rtc (fun w w' => few w' /\ wheel_step cb w w').

(** Something is ticking whenever a timer is armed on a wheel that was not stopped. *)
Definition ticking (w : timer_wheel_t) : Prop :=
  forall x nd, nodes w !! x = Some nd -> armed nd = true -> running_ w = true -> runner_live_ w = true.

Definition unarmed_users (users : gmap node_id timer_node_t) : Prop :=
  forall x nd, users !! x = Some nd -> slot nd = -1 /\ 0 <= rounds nd < 2 ^ 32.

Lemma wf_make tick users : unarmed_users users -> wf (make tick users) (replicate (Z.to_nat kSlots) []).
Proof.
  intros Hu. constructor; try done.
  - intros s l [-> _]%lookup_replicate. apply dll_nil.
  - intros x nd Hx. destruct (Hu x nd Hx). auto.
  - intros s l x [-> _]%lookup_replicate. split; [by intros ?%elem_of_nil|].
    intros (nd & Hx & E). destruct (Hu x nd Hx). lia.
  - simpl. by destruct (Z.ltb_spec 0 tick).
Qed.

Lemma total_bound (L : list (list node_id)) (X : gset node_id) :
  (forall s l, L !! s = Some l -> NoDup l /\ forall x, x ∈ l -> x ∈ X) ->
  (forall s s' l l', L !! s = Some l -> L !! s' = Some l' -> s <> s' -> l ## l') ->
  (total L <= base.size X)%nat.
Proof.
  revert X. induction L as [|l L IH]; intros X Hin Hdis; [apply Nat.le_0_l|].
  destruct (Hin 0%nat l eq_refl) as [Hnd Hl].
  assert (total L <= base.size (X ∖ list_to_set l))%nat as HL.
  { apply IH.
    - intros s m Hs. destruct (Hin (S s) m Hs) as [Hm Hsub]. split; [done|].
      intros x Hx. apply elem_of_difference. split; [by apply Hsub|].
      intros Hxl%elem_of_list_to_set. by apply (Hdis 0%nat (S s) l m eq_refl Hs ltac:(lia) x).
    - intros s s' m m' Hs Hs' Hne. by apply (Hdis (S s) (S s') m m' Hs Hs' ltac:(lia)). }
  rewrite size_difference in HL by (intros x Hx%elem_of_list_to_set; by apply Hl).
  rewrite size_list_to_set in HL by done.
  assert (length l <= base.size X)%nat as Hlen.
  { rewrite <- (size_list_to_set (C := gset node_id) l) by done. apply subseteq_size.
    intros x Hx%elem_of_list_to_set. by apply Hl. }
  change (total (l :: L)) with (length l + total L)%nat. lia.
Qed.

(** With few timers, [armed_] is zero only when none is armed. *)
Lemma armed_zero w L x nd :
  wf w L -> few w -> nodes w !! x = Some nd -> armed nd = true -> 0 < armed_ w.
Proof.
  intros Hwf Hfew Hx Ha.
  assert (total L <= base.size (nodes w))%nat as Hb.
  { rewrite <- size_dom. apply total_bound; [|intros; by eapply wf_disjoint].
    intros s l Hl. split; [by eapply dll_nodup, wf_dll|]. intros y Hy. apply elem_of_dom.
    destruct (wf_node _ _ _ _ _ Hwf Hl Hy) as (nd' & -> & _). by eexists. }
  unfold armed in Ha. apply Z.leb_le in Ha. destruct (wf_slot _ _ Hwf _ _ Hx) as [[|Hs] _]; [lia|].
  destruct (wf_slot_lookup _ _ _ Hwf Hs) as (l & Hl & _).
  assert (x ∈ l) as Hin. { apply (wf_in _ _ Hwf _ _ _ Hl). exists nd. split; [done|lia]. }
  destruct (list_elem_of_split _ _ Hin) as (l1 & l2 & ->).
  pose proof (total_insert L _ _ [] Hl) as Ht. rewrite length_app in Ht. simpl in Ht.
  rewrite (wf_armed _ _ Hwf), u32_small; unfold few in Hfew; lia.
Qed.

Lemma run_head_spec w L b w' :
  wf w L -> few w -> runner_live_ w = true -> run_head true w = (b, w') -> wf w' L /\ ticking w'.
Proof.
  intros Hwf Hfew Hr. unfold run_head. destruct (_ && _) eqn:E; intros [= <- <-].
  - split; [done|]. by intros x nd _ _ _.
  - split; [by apply wf_runner_exit|]. intros x nd Hx Ha Hrun. simpl in *.
    pose proof (armed_zero _ _ _ _ Hwf Hfew Hx Ha). zify_bool.
    destruct E as [[E|E]|E]; [lia|congruence|done].
Qed.

Lemma wheel_step_inv cb w L w' :
  polite None cb -> wf w L -> ticking w -> few w' -> wheel_step cb w w' -> exists L', wf w' L' /\ ticking w'.
Proof.
  intros Hcb Hwf Htk Hfew Hs. destruct Hs as [x delay [nd Hx]|x [nd Hx]| |w' b Hr Hh|w' b Hr Hw].
  - destruct (arm_wf _ _ _ _ delay Hwf Hx) as (L' & Hwf' & _). exists L'. split; [done|].
    intros y nd' _ _. unfold arm, ensure_runner. case_match eqn:E; simpl; [|done].
    apply orb_true_iff in E as [E|E]; [done|]. intros Hrun. simpl in *. by rewrite Hrun in E.
  - destruct (unlink_wf _ _ _ _ Hwf Hx) as (L' & Hwf' & Hx' & Ho & _). exists L'. split; [done|].
    destruct (unlink_fields w x) as (_&_&_&_&E1&E2&_). intros y nd' Hy Ha Hrun.
    unfold cancel in *. rewrite E1 in Hrun. rewrite E2. destruct (decide (y = x)) as [->|Hne].
    + rewrite Hx' in Hy. by simplify_eq.
    + rewrite Ho in Hy by done. by eapply Htk.
  - exists L. split; [by apply wf_stop|]. by intros x nd _ _ [=].
  - assert (few w) as Hfw.
    { unfold run_head in Hh. by destruct (_ && _); simplify_eq. }
    exists L. by apply (run_head_spec w L b).
  - unfold run_wake in Hw. simpl in Hw. destruct (running_ w) eqn:Hrun; simpl in Hw.
    + destruct (advance_spec cb None Hcb w L Hwf) as (w1 & L1 & f & Hw1 & Hwf1 & _ & _ & _ & _ & _ & _ & _ & Hlive).
      rewrite Hw1 in Hw. simpl in Hw. injection Hw as Hw. exists L1.
      assert (few w1) as Hfw. { unfold run_head in Hw. by destruct (_ && _); simplify_eq. }
      apply (run_head_spec w1 L1 b); try done. by apply Hlive.
    + simplify_eq. exists L. split; [by apply wf_runner_exit|]. intros x nd _ _ Hr'. simpl in Hr'.
      congruence.
Qed.

Lemma wheel_run_inv cb w w' :
  polite None cb -> wheel_run cb w w' -> forall L, wf w L -> ticking w -> exists L', wf w' L' /\ ticking w'.
Proof.
  intros Hcb. induction 1 as [w|w w1 w2 [Hfew Hs] _ IH]; intros L Hwf Htk; [eauto|].
  destruct (wheel_step_inv _ _ _ _ Hcb Hwf Htk Hfew Hs) as (L1 & Hwf1 & Htk1). eauto.
Qed.

(** ** Properties *)

(** C33: a timer armed for [delay] fires at exactly the [max 1 (ceil (delay/tick))]-th tick of the
    wheel counted from its cursor, not at an earlier tick and once at that one, at any wheel position
    and for deadlines of many laps; the wheel always completes those ticks.  Callbacks may arm and
    cancel their own timer and any other one outside the slot being walked, except this one.  The count
    is in ticks: the next tick of a wheel that runs already comes less than a full period after [arm],
    so in time the timer can ring up to one tick before [delay] has passed. *)
Theorem timer_fires_on_schedule cb w L x nd delay :
  polite (Some x) cb -> wf w L -> nodes w !! x = Some nd -> on_expire nd = true ->
  0 <= delay -> delay + tick_ w < 2 ^ 63 -> ceil_ticks (tick_ w) delay <= 2 ^ 41 ->
  let w0 := arm w x delay in
  let n := Z.to_nat (ceil_ticks (tick_ w) delay) in
  (forall k, (k < n)%nat ->
     exists wk f, advances cb k w0 = Some wk /\ fired wk = fired w ++ f /\ x ∉ f) /\
  exists wn f g, advances cb n w0 = Some wn /\ fired wn = fired w ++ f ++ g /\
    x ∉ f /\ x ∈ g /\ NoDup g.
Proof.
  intros Hcb Hwf Hx He Hd Hov Hn w0 n.
  destruct (arm_wf _ _ _ _ delay Hwf Hx) as (L' & Hwf' & _).
  destruct (arm_remaining _ _ _ _ _ Hwf Hx Hd Hov Hn) as (Hrem & nd' & Hx' & Ha' & He').
  destruct (self_action_frames _ _ _ _ _ (act_arm x w delay) Hwf Hx) as (_ & _ & (_ & _ & _ & Hf & _) & _).
  destruct (advances_spec cb _ Hcb n w0 L' x nd' eq_refl Hwf' Hx' Ha' ltac:(congruence)) as [Hlt Hfire].
  { unfold n. rewrite Z2Nat.id; [done|]. unfold ceil_ticks. lia. }
  fold w0 in Hf. rewrite Hf in *. split; [done|].
  destruct Hfire as (wn & f & g & ? & ? & ? & ? & ? & _). by exists wn, f, g.
Qed.

Lemma polite_none keep : polite keep (fun _ w => w).
Proof. intros x w. apply rtc_refl. Qed.

(** A callback that arms another timer when its own rings. *)
Definition chain_cb (x : node_id) (w : timer_wheel_t) : timer_wheel_t :=
  match nodes w !! 3%nat with
  | Some nd => if bool_decide (slot nd = cursor_ w) then w else arm w 3%nat 100
  | None => w
  end.
Lemma chain_cb_polite : polite (Some 1%nat) chain_cb.
Proof.
  intros x w. unfold chain_cb. destruct (nodes w !! 3%nat) as [nd|] eqn:E; [|apply rtc_refl]. case_bool_decide as Hs; [apply rtc_refl|].
  apply rtc_once, (cb_other _ _ _ 3%nat nd); [done|done|done|constructor].
Qed.

Lemma timer_fires_on_schedule_witness :
  let w := arm (make 100 {[1%nat := node_init true; 2%nat := node_init true; 3%nat := node_init true]}) 2%nat 150 in
  exists wn f g, advances chain_cb 3 (arm w 1%nat 250) = Some wn /\ fired wn = f ++ g /\ 1%nat ∉ f /\ 1%nat ∈ g.
Proof.
  intros w.
  assert (wf (make 100 {[1%nat := node_init true; 2%nat := node_init true; 3%nat := node_init true]}) (replicate (Z.to_nat kSlots) [])) as H0.
  { apply wf_make. intros x nd. rewrite !lookup_insert_Some, lookup_singleton_Some. intros [[_ <-]|[_ [[_ <-]|[_ [_ <-]]]]]; simpl; lia. }
  destruct (arm_wf _ _ 2%nat (node_init true) 150 H0 eq_refl) as (L & HL & _).
  destruct (timer_fires_on_schedule chain_cb w L 1%nat (node_init true) 250 chain_cb_polite) as [_ (wn & f & g & Hw & Hf & H1 & H2 & _)].
  - exact HL.
  - reflexivity.
  - reflexivity.
  - lia.
  - vm_compute. reflexivity.
  - vm_compute. discriminate.
  - exists wn, f, g. split_and!; [exact Hw|exact Hf|exact H1|exact H2].
Defined.

(** in every state reached by arming, cancelling, stopping and ticking, the slots are disjoint
    doubly-linked lists holding exactly the armed nodes, each in the slot its own field names, with
    [armed_] their number; and as long as a timer is armed on a wheel that was not stopped, a runner
    is ticking. *)
Theorem timer_wheel_invariant cb tick users w :
  polite None cb -> unarmed_users users -> wheel_run cb (make tick users) w ->
  exists L, wf w L /\ ticking w.
Proof.
  intros Hcb Hu Hrun. apply (wheel_run_inv cb _ _ Hcb Hrun _ (wf_make tick users Hu)).
  intros x nd Hx Ha. destruct (Hu x nd Hx) as [Hs _]. unfold armed in Ha. by rewrite Hs in Ha.
Qed.

Lemma timer_wheel_invariant_witness :
  exists L, wf (cancel (arm (make 0 {[1%nat := node_init true]}) 1%nat 700) 1%nat) L.
Proof.
  destruct (timer_wheel_invariant (fun _ w => w) 0 {[1%nat := node_init true]}
    (cancel (arm (make 0 {[1%nat := node_init true]}) 1%nat 700) 1%nat)) as (L & HL & _).
  - apply polite_none.
  - intros x nd. rewrite lookup_singleton_Some. intros [_ <-]. simpl. lia.
  - eapply rtc_l.
    { split; [|apply (ws_arm _ _ 1%nat 700); by eexists]. vm_compute. reflexivity. }
    eapply rtc_l; [|apply rtc_refl]. split; [|apply (ws_cancel _ _ 1%nat); by eexists].
    vm_compute. reflexivity.
  - by exists L.
Defined.

(** a tick never starts a second runner: while the runner is alive, a tick leaves it alive and
    spawns no other, whatever timers its callbacks arm. *)
Theorem timer_single_runner cb w L :
  polite None cb -> wf w L -> runner_live_ w = true ->
  exists w', advance cb w = Some w' /\ runner_live_ w' = true /\ spawned w' = spawned w.
Proof.
  intros Hcb Hwf Hr.
  destruct (advance_spec cb None Hcb w L Hwf) as (w' & L' & f & Hw & _ & _ & _ & _ & _ & _ & _ & _ & Hlive).
  exists w'. split; [done|]. by apply Hlive.
Qed.

Definition rearm_cb (x : node_id) (w : timer_wheel_t) : timer_wheel_t := arm w x 100.

Lemma timer_single_runner_witness :
  let w := arm (make 100 {[1%nat := node_init true]}) 1%nat 50 in
  exists w', advance rearm_cb w = Some w' /\ spawned w' = spawned w.
Proof.
  intros w.
  assert (wf (make 100 {[1%nat := node_init true]}) (replicate (Z.to_nat kSlots) [])) as H0.
  { apply wf_make. intros x nd. rewrite lookup_singleton_Some. intros [_ <-]. simpl. lia. }
  destruct (arm_wf _ _ 1%nat (node_init true) 50 H0 eq_refl) as (L & HL & _).
  destruct (timer_single_runner rearm_cb w L) as (w' & Hw & _ & Hs).
  - intros x w0. apply rtc_once. apply cb_self, act_arm.
  - exact HL.
  - reflexivity.
  - exists w'. split; [exact Hw|exact Hs].
Defined.

(** a timer that a callback cancels in the tick it is due fires nevertheless: [advance] has
    read the pointer to it before the callback ran, and finds its lap counter at zero. *)
Theorem timer_cancelled_still_fires :
  let cb := fun x w => if decide (x = 1%nat) then cancel w 2%nat else w in
  let w := arm (arm (make 100 {[1%nat := node_init true; 2%nat := node_init true]}) 2%nat 100) 1%nat 100 in
  armed (node (cancel w 2%nat) 2%nat) = false /\
  (fired <$> advance cb w) = Some [1%nat; 2%nat].
Proof. vm_compute. done. Qed.
