(* ===== verification/RingBuffer.v ===== *)
(** * Lock-free single-producer single-consumer ring buffer

    src/include/cornet/utils/ringbuffer.h.  [push] (and [emplace], the same
    code on a constructed value) and [pop] are translated once as sequential
    functions and once as the sequence of their memory actions, which
    interleave with the other thread's.  Each shared cursor has one writer and
    is published with release/acquire; the interleaving semantics orders the
    actions on it as that protocol does. *)

From stdpp Require Import prelude list.
From Stdlib Require Import ZArith Lia.
From S2P Require Import Prelude.
Open Scope Z_scope.

Section Ring.
Context {V : Type}.
(** The capacity parameter [N] of the template: a power of two. *)
Context (k : Z) (Hk : 0 <= k < 64).
#[local] Abbreviation N := (2 ^ k).

Record ringbuffer_t := mk_ring {
  read : Z;
  write_cache : Z;
  write : Z;
  read_cache : Z;
  container : list (option V)
}.

Definition ring_init : ringbuffer_t := mk_ring 0 0 0 0 (replicate (Z.to_nat N) None).

(** [(i + 1) & (N - 1)] *)
Definition succ_slot (i : Z) : Z := (i + 1) &&& (N - 1).

Definition store (s : ringbuffer_t) (i : Z) (v : V) : list (option V) :=
  <[Z.to_nat i := Some v]> (container s).

Definition push (s : ringbuffer_t) (v : V) : bool * ringbuffer_t :=
  let w := write s in
  let next_w := succ_slot w in
  let s := if next_w =? read_cache s
           then mk_ring (read s) (write_cache s) (write s) (read s) (container s) else s in
  if next_w =? read_cache s then (false, s)
  else (true, mk_ring (read s) (write_cache s) next_w (read_cache s) (store s w v)).

Definition pop (s : ringbuffer_t) : option V * ringbuffer_t :=
  let r := read s in
  let s := if r =? write_cache s
           then mk_ring (read s) (write s) (write s) (read_cache s) (container s) else s in
  if r =? write_cache s then (None, s)
  else (default None (container s !! Z.to_nat r),
        mk_ring (succ_slot r) (write_cache s) (write s) (read_cache s) (container s)).

(** ** Actions of the two threads *)

(** Where the producer stands inside [push(v)]: outside it, about to reload
    [read] because [next_w == read_cache], about to construct the value in
    slot [w], about to publish [write]. *)
Inductive producer :=
| PIdle
| PLoad (v : V)
| PStore (v : V) (w : Z)
| PPublish (v : V) (w : Z).

(** Where the consumer stands inside [pop]. *)
Inductive consumer :=
| CIdle
| CLoad
| CRead (r : Z)
| CPublish (v : V) (r : Z).

(** [pushed] logs the values whose push returned true, [popped] those pop returned. *)
Record machine := mk_machine {
  ring : ringbuffer_t;
  prod : producer;
  cons_ : consumer;
  pushed : list V;
  popped : list V
}.

Definition machine_init : machine := mk_machine ring_init PIdle CIdle [] [].

Inductive mstep (m : machine) : machine -> Prop :=
| p_begin v :
    prod m = PIdle ->
    mstep m (mk_machine (ring m)
      (if succ_slot (write (ring m)) =? read_cache (ring m) then PLoad v else PStore v (write (ring m)))
      (cons_ m) (pushed m) (popped m))
| p_load v :
    prod m = PLoad v ->
    let s := ring m in
    mstep m (mk_machine (mk_ring (read s) (write_cache s) (write s) (read s) (container s))
      (if succ_slot (write s) =? read s then PIdle else PStore v (write s))
      (cons_ m) (pushed m) (popped m))
| p_store v w :
    prod m = PStore v w ->
    let s := ring m in
    mstep m (mk_machine (mk_ring (read s) (write_cache s) (write s) (read_cache s) (store s w v))
      (PPublish v w) (cons_ m) (pushed m) (popped m))
| p_publish v w :
    prod m = PPublish v w ->
    let s := ring m in
    mstep m (mk_machine (mk_ring (read s) (write_cache s) (succ_slot w) (read_cache s) (container s))
      PIdle (cons_ m) (pushed m ++ [v]) (popped m))
| c_begin :
    cons_ m = CIdle ->
    mstep m (mk_machine (ring m) (prod m)
      (if read (ring m) =? write_cache (ring m) then CLoad else CRead (read (ring m)))
      (pushed m) (popped m))
| c_load :
    cons_ m = CLoad ->
    let s := ring m in
    mstep m (mk_machine (mk_ring (read s) (write s) (write s) (read_cache s) (container s)) (prod m)
      (if read s =? write s then CIdle else CRead (read s)) (pushed m) (popped m))
| c_read r v :
    cons_ m = CRead r -> container (ring m) !! Z.to_nat r = Some (Some v) ->
    mstep m (mk_machine (ring m) (prod m) (CPublish v r) (pushed m) (popped m))
| c_publish v r :
    cons_ m = CPublish v r ->
    let s := ring m in
    mstep m (mk_machine (mk_ring (succ_slot r) (write_cache s) (write s) (read_cache s) (container s))
      (prod m) CIdle (pushed m) (popped m ++ [v])).

(** ** Invariant

    [R] and [W] count the completed pops and pushes; the cursors are these
    counts modulo [N], and the caches are earlier values of them. *)
Record minv (m : machine) (q : list V) (RC WC : nat) : Prop := {
  mi_content : pushed m = popped m ++ q;
  mi_len : length (container (ring m)) = Z.to_nat N;
  mi_read : read (ring m) = Z.of_nat (length (popped m)) mod N;
  mi_write : write (ring m) = Z.of_nat (length (pushed m)) mod N;
  mi_rc : read_cache (ring m) = Z.of_nat RC mod N;
  mi_wc : write_cache (ring m) = Z.of_nat WC mod N;
  mi_rc_le : (RC <= length (popped m))%nat;
  mi_rc_room : Z.of_nat (length (pushed m)) - Z.of_nat RC < N;
  mi_wc_le : (length (popped m) <= WC <= length (pushed m))%nat;
  mi_slots : forall i v, q !! i = Some v ->
    container (ring m) !! Z.to_nat (Z.of_nat (length (popped m) + i) mod N) = Some (Some v);
  mi_prod : match prod m with
    | PIdle | PLoad _ => True
    | PStore _ w => w = write (ring m) /\ Z.of_nat (length (pushed m)) + 1 - Z.of_nat RC < N
    | PPublish v w => w = write (ring m) /\ Z.of_nat (length (pushed m)) + 1 - Z.of_nat RC < N /\
        container (ring m) !! Z.to_nat w = Some (Some v)
    end;
  mi_cons : match cons_ m with
    | CIdle | CLoad => True
    | CRead r => r = read (ring m) /\ (length (popped m) < WC)%nat
    | CPublish v r => r = read (ring m) /\ (length (popped m) < WC)%nat /\ head q = Some v
    end
}.

Lemma N_pos : 0 < N.
Proof. apply Z.pow_pos_nonneg; lia. Qed.

Lemma succ_slot_mod i : succ_slot (i mod N) = (i + 1) mod N.
Proof.
  unfold succ_slot. replace (N - 1) with (Z.ones k) by (rewrite Z.ones_equiv; lia).
  rewrite Z.land_ones by lia. by rewrite Z.add_mod_idemp_l by (pose proof N_pos; lia).
Qed.

Lemma mod_eq_close a b : 0 <= a - b < N -> a mod N = b mod N -> a = b.
Proof.
  intros Hd E. pose proof N_pos.
  assert ((a - b) mod N = 0) as Hm by (rewrite Zminus_mod, E, Z.sub_diag; by apply Z.mod_0_l; lia).
  rewrite Z.mod_small in Hm by done. lia.
Qed.

Lemma minv_init : minv machine_init [] 0 0.
Proof.
  pose proof N_pos. constructor; simpl; try done; try lia; try (by rewrite Z.mod_0_l by lia).
  by rewrite length_replicate.
Qed.

Lemma minv_room m q RC WC : minv m q RC WC -> Z.of_nat (length q) < N.
Proof.
  intros Hi. pose proof (mi_rc_room _ _ _ _ Hi). pose proof (mi_rc_le _ _ _ _ Hi).
  rewrite (mi_content _ _ _ _ Hi), length_app in *. lia.
Qed.

Lemma minv_begin_push m q RC WC v :
  minv m q RC WC -> prod m = PIdle ->
  minv (mk_machine (ring m)
    (if succ_slot (write (ring m)) =? read_cache (ring m) then PLoad v else PStore v (write (ring m)))
    (cons_ m) (pushed m) (popped m)) q RC WC.
Proof.
  intros Hi Hp. constructor; simpl; try apply Hi.
  rewrite (mi_write _ _ _ _ Hi), (mi_rc _ _ _ _ Hi), succ_slot_mod.
  destruct (Z.eqb_spec ((Z.of_nat (length (pushed m)) + 1) mod N) (Z.of_nat RC mod N)) as [|Hne]; [done|].
  split; [done|]. pose proof (mi_rc_room _ _ _ _ Hi).
  destruct (Z.eq_dec (Z.of_nat (length (pushed m)) + 1 - Z.of_nat RC) N) as [E|]; [|lia].
  exfalso. apply Hne. replace (Z.of_nat (length (pushed m)) + 1) with (Z.of_nat RC + 1 * N) by lia.
  apply Z.mod_add. pose proof N_pos. lia.
Qed.

Lemma minv_load m q RC WC v :
  minv m q RC WC -> prod m = PLoad v ->
  let s := ring m in
  minv (mk_machine (mk_ring (read s) (write_cache s) (write s) (read s) (container s))
    (if succ_slot (write s) =? read s then PIdle else PStore v (write s))
    (cons_ m) (pushed m) (popped m)) q (length (popped m)) WC.
Proof.
  intros Hi Hp s. unfold s. pose proof (minv_room _ _ _ _ Hi) as Hroom.
  pose proof (mi_content _ _ _ _ Hi) as Hc.
  assert (length (pushed m) = length (popped m) + length q)%nat as Hl by (by rewrite Hc, length_app).
  constructor; simpl; try apply Hi; try lia.
  rewrite (mi_write _ _ _ _ Hi), (mi_read _ _ _ _ Hi), succ_slot_mod.
  destruct (Z.eqb_spec ((Z.of_nat (length (pushed m)) + 1) mod N) (Z.of_nat (length (popped m)) mod N))
    as [|Hne]; [done|].
  split; [done|].
  destruct (Z.eq_dec (Z.of_nat (length (pushed m)) + 1 - Z.of_nat (length (popped m))) N) as [E|]; [|lia].
  exfalso. apply Hne.
  replace (Z.of_nat (length (pushed m)) + 1) with (Z.of_nat (length (popped m)) + 1 * N) by lia.
  apply Z.mod_add. pose proof N_pos. lia.
Qed.

(** The slot the producer fills holds no value the consumer may still read. *)
Lemma write_slot_free m q RC WC i v :
  minv m q RC WC -> q !! i = Some v -> Z.of_nat (length (pushed m)) + 1 - Z.of_nat RC < N ->
  Z.to_nat (Z.of_nat (length (popped m) + i) mod N) <> Z.to_nat (write (ring m)).
Proof.
  intros Hi Hv Hroom. pose proof N_pos as HN. rewrite (mi_write _ _ _ _ Hi).
  pose proof (mi_content _ _ _ _ Hi) as Hc. pose proof (mi_rc_le _ _ _ _ Hi).
  assert (length (pushed m) = length (popped m) + length q)%nat as Hl by (by rewrite Hc, length_app).
  pose proof (lookup_lt_Some _ _ _ Hv) as Hlt. intros E.
  apply Z2Nat.inj in E; try (apply Z.mod_pos_bound; lia).
  symmetry in E. apply mod_eq_close in E; lia.
Qed.

Lemma minv_store m q RC WC v w :
  minv m q RC WC -> prod m = PStore v w ->
  let s := ring m in
  minv (mk_machine (mk_ring (read s) (write_cache s) (write s) (read_cache s) (store s w v))
    (PPublish v w) (cons_ m) (pushed m) (popped m)) q RC WC.
Proof.
  intros Hi Hp s. pose proof N_pos as HN. pose proof (mi_prod _ _ _ _ Hi) as Hpi. rewrite Hp in Hpi.
  destruct Hpi as [-> Hroom]. unfold s, store.
  constructor; simpl; try apply Hi.
  - by rewrite length_insert, (mi_len _ _ _ _ Hi).
  - intros i x Hx. rewrite list_lookup_insert_ne; [by apply Hi|].
    intros E. by eapply write_slot_free.
  - split_and!; [done|done|]. apply list_lookup_insert_eq. rewrite (mi_len _ _ _ _ Hi).
    rewrite (mi_write _ _ _ _ Hi). pose proof (Z.mod_pos_bound (Z.of_nat (length (pushed m))) N HN). lia.
Qed.

Lemma minv_publish m q RC WC v w :
  minv m q RC WC -> prod m = PPublish v w ->
  let s := ring m in
  minv (mk_machine (mk_ring (read s) (write_cache s) (succ_slot w) (read_cache s) (container s))
    PIdle (cons_ m) (pushed m ++ [v]) (popped m)) (q ++ [v]) RC WC.
Proof.
  intros Hi Hp s. pose proof (mi_prod _ _ _ _ Hi) as Hpi. rewrite Hp in Hpi.
  destruct Hpi as (-> & Hroom & Hv). unfold s. pose proof (mi_content _ _ _ _ Hi) as Hc.
  pose proof (mi_wc_le _ _ _ _ Hi).
  constructor; simpl; try apply Hi; rewrite ?length_app; simpl; try lia.
  - by rewrite Hc, app_assoc.
  - rewrite (mi_write _ _ _ _ Hi), succ_slot_mod. f_equal. lia.
  - intros i x Hx. destruct (decide (i = length q)) as [->|Hne].
    + rewrite list_lookup_middle in Hx by done. simplify_eq.
      rewrite <- length_app, <- Hc, <- (mi_write _ _ _ _ Hi). exact Hv.
    + rewrite lookup_app_l in Hx; [by apply Hi|]. apply lookup_lt_Some in Hx.
      rewrite length_app in Hx. simpl in Hx. lia.
  - pose proof (mi_cons _ _ _ _ Hi) as Hci. destruct (cons_ m) as [| |r|u r]; try done.
    destruct Hci as (-> & Hlt & Hq). split_and!; [done..|]. by destruct q.
Qed.

Lemma minv_begin_pop m q RC WC :
  minv m q RC WC ->
  minv (mk_machine (ring m) (prod m)
    (if read (ring m) =? write_cache (ring m) then CLoad else CRead (read (ring m)))
    (pushed m) (popped m)) q RC WC.
Proof.
  intros Hi. constructor; simpl; try apply Hi.
  rewrite (mi_read _ _ _ _ Hi), (mi_wc _ _ _ _ Hi).
  destruct (Z.eqb_spec (Z.of_nat (length (popped m)) mod N) (Z.of_nat WC mod N)) as [|Hne]; [done|].
  split; [done|]. pose proof (mi_wc_le _ _ _ _ Hi) as Hwc.
  destruct (decide (length (popped m) = WC)) as [E|]; [by rewrite E in Hne|lia].
Qed.

Lemma minv_load_pop m q RC WC :
  minv m q RC WC ->
  let s := ring m in
  minv (mk_machine (mk_ring (read s) (write s) (write s) (read_cache s) (container s)) (prod m)
    (if read s =? write s then CIdle else CRead (read s)) (pushed m) (popped m)) q RC (length (pushed m)).
Proof.
  intros Hi s. unfold s. pose proof (mi_wc_le _ _ _ _ Hi).
  constructor; simpl; try apply Hi; try lia.
  rewrite (mi_read _ _ _ _ Hi), (mi_write _ _ _ _ Hi).
  destruct (Z.eqb_spec (Z.of_nat (length (popped m)) mod N) (Z.of_nat (length (pushed m)) mod N))
    as [|Hne]; [done|].
  split; [done|].
  destruct (decide (length (popped m) = length (pushed m))) as [E|]; [by rewrite E in Hne|lia].
Qed.

Lemma minv_read m q RC WC r :
  minv m q RC WC -> cons_ m = CRead r ->
  exists v, container (ring m) !! Z.to_nat r = Some (Some v) /\
    minv (mk_machine (ring m) (prod m) (CPublish v r) (pushed m) (popped m)) q RC WC.
Proof.
  intros Hi Hc. pose proof (mi_cons _ _ _ _ Hi) as Hci. rewrite Hc in Hci. destruct Hci as [-> Hlt].
  pose proof (mi_wc_le _ _ _ _ Hi) as Hwc. pose proof (mi_content _ _ _ _ Hi) as Hcont.
  destruct q as [|v q]; [rewrite Hcont, app_nil_r in Hwc; lia|].
  pose proof (mi_slots _ _ _ _ Hi 0%nat v eq_refl) as Hs. rewrite Nat.add_0_r in Hs.
  exists v. rewrite (mi_read _ _ _ _ Hi). split; [done|].
  constructor; simpl; try apply Hi. split_and!; [|done..]. symmetry. apply Hi.
Qed.

Lemma minv_publish_pop m q RC WC v r :
  minv m q RC WC -> cons_ m = CPublish v r ->
  let s := ring m in
  minv (mk_machine (mk_ring (succ_slot r) (write_cache s) (write s) (read_cache s) (container s))
    (prod m) CIdle (pushed m) (popped m ++ [v])) (tail q) RC WC.
Proof.
  intros Hi Hc s. unfold s. pose proof (mi_cons _ _ _ _ Hi) as Hci. rewrite Hc in Hci.
  destruct Hci as (-> & Hlt & Hh). destruct q as [|u q]; [done|]. simpl in Hh. simplify_eq.
  pose proof (mi_wc_le _ _ _ _ Hi). pose proof (mi_rc_le _ _ _ _ Hi).
  constructor; simpl; try apply Hi; rewrite ?length_app; simpl; try lia.
  - rewrite (mi_content _ _ _ _ Hi), <- app_assoc. done.
  - rewrite (mi_read _ _ _ _ Hi), succ_slot_mod. f_equal. lia.
  - intros i x Hx. replace (length (popped m) + 1 + i)%nat with (length (popped m) + S i)%nat by lia.
    by apply (mi_slots _ _ _ _ Hi).
Qed.

Lemma mstep_inv m m' q RC WC :
  minv m q RC WC -> mstep m m' -> exists q' RC' WC', minv m' q' RC' WC'.
Proof.
  intros Hi Hs. destruct Hs as [v Hp|v Hp s|v w Hp s|v w Hp s|Hc|Hc s|r v Hc Hv|v r Hc s].
  - eexists _, _, _. by apply minv_begin_push.
  - eexists _, _, _. by apply (minv_load _ _ _ _ _ Hi).
  - eexists _, _, _. by apply (minv_store _ _ _ _ _ _ Hi).
  - eexists _, _, _. by apply (minv_publish _ _ _ _ _ _ Hi).
  - eexists _, _, _. by apply minv_begin_pop.
  - eexists _, _, _. by apply (minv_load_pop _ _ _ _ Hi).
  - destruct (minv_read _ _ _ _ _ Hi Hc) as (u & Hu & Hi'). simplify_eq. by eexists _, _, _.
  - eexists _, _, _. by apply (minv_publish_pop _ _ _ _ _ _ Hi).
Qed.

Lemma run_minv m m' :
  rtc mstep m m' -> forall q RC WC, minv m q RC WC -> exists q' RC' WC', minv m' q' RC' WC'.
Proof.
  induction 1 as [m|m m1 m2 Hs _ IH]; intros q RC WC Hi; [eauto|].
  destruct (mstep_inv _ _ _ _ _ Hi Hs) as (q1 & RC1 & WC1 & Hi1). eauto.
Qed.

Lemma reachable_minv m : rtc mstep machine_init m -> exists q RC WC, minv m q RC WC.
Proof. intros Hr. eapply run_minv; [done|]. apply minv_init. Qed.

(** Run alone, the producer's actions compute [push], the consumer's [pop]. *)
Lemma push_alone s v c ps pp :
  rtc mstep (mk_machine s PIdle c ps pp)
    (mk_machine (push s v).2 PIdle c (if (push s v).1 then ps ++ [v] else ps) pp).
Proof.
  unfold push. set (m := mk_machine s PIdle c ps pp).
  eapply rtc_l; [by apply (p_begin m v)|]. simpl.
  destruct (succ_slot (write s) =? read_cache s) eqn:E; simpl.
  - eapply rtc_l; [by apply (p_load _ v)|]. simpl. rewrite ?E.
    destruct (succ_slot (write s) =? read s); simpl; [apply rtc_refl|].
    eapply rtc_l; [by apply (p_store _ v (write s))|]. eapply rtc_l; [by apply (p_publish _ v (write s))|].
    apply rtc_refl.
  - rewrite E. eapply rtc_l; [by apply (p_store _ v (write s))|].
    eapply rtc_l; [by apply (p_publish _ v (write s))|]. apply rtc_refl.
Qed.

Lemma full_iff m q RC WC :
  minv m q RC WC -> succ_slot (write (ring m)) = read (ring m) <-> Z.of_nat (length q) = N - 1.
Proof.
  intros Hi. pose proof N_pos as HN. pose proof (minv_room _ _ _ _ Hi) as Hroom.
  pose proof (mi_content _ _ _ _ Hi) as Hc.
  assert (length (pushed m) = length (popped m) + length q)%nat as Hl by (by rewrite Hc, length_app).
  rewrite (mi_write _ _ _ _ Hi), (mi_read _ _ _ _ Hi), succ_slot_mod. split.
  - intros E. destruct (Z.eq_dec (Z.of_nat (length q)) (N - 1)) as [|Hne]; [done|exfalso].
    apply mod_eq_close in E; lia.
  - intros E. replace (Z.of_nat (length (pushed m)) + 1) with (Z.of_nat (length (popped m)) + 1 * N) by lia.
    apply Z.mod_add. lia.
Qed.

Lemma empty_iff m q RC WC : minv m q RC WC -> read (ring m) = write (ring m) <-> q = [].
Proof.
  intros Hi. pose proof (minv_room _ _ _ _ Hi) as Hroom. pose proof (mi_content _ _ _ _ Hi) as Hc.
  assert (length (pushed m) = length (popped m) + length q)%nat as Hl by (by rewrite Hc, length_app).
  rewrite (mi_write _ _ _ _ Hi), (mi_read _ _ _ _ Hi). split.
  - intros E. symmetry in E. apply mod_eq_close in E; [|lia]. destruct q; [done|simpl in Hl; lia].
  - intros ->. f_equal. simpl in Hl. lia.
Qed.
End Ring.

(** ** Properties *)

(** C34: under every interleaving of the producer's and the consumer's memory actions the ring is a
    FIFO: what was popped is a prefix of what was pushed, at most N-1 values are inside, and the two
    threads never touch the same slot at the same time; a consumer about to read finds a value. *)
Theorem ring_fifo_race_free {V} k (m : machine (V := V)) :
  0 <= k < 64 -> rtc (mstep k) (machine_init k) m ->
  exists q, pushed m = popped m ++ q /\ Z.of_nat (length q) < 2 ^ k /\
    (forall v w r, prod m = PStore v w -> cons_ m = CRead r -> Z.to_nat w <> Z.to_nat r) /\
    (forall r, cons_ m = CRead r -> exists v, container (ring m) !! Z.to_nat r = Some (Some v) /\ head q = Some v).
Proof.
  intros Hk Hr. destruct (reachable_minv k Hk m Hr) as (q & RC & WC & Hi).
  exists q. split_and!; [by eapply mi_content|by eapply minv_room| |].
  - intros v w r Hp Hc. destruct (minv_read k _ _ _ _ _ Hi Hc) as (u & _ & Hi').
    pose proof (mi_cons _ _ _ _ _ Hi') as Hh. simpl in Hh. destruct Hh as (-> & _ & Hh).
    pose proof (mi_prod _ _ _ _ _ Hi) as Hpi. rewrite Hp in Hpi. destruct Hpi as [-> Hroom].
    rewrite (mi_read _ _ _ _ _ Hi).
    pose proof (write_slot_free k Hk _ _ _ _ 0%nat u Hi ltac:(by destruct q) Hroom) as Hfree.
    rewrite Nat.add_0_r in Hfree. done.
  - intros r Hc. destruct (minv_read k _ _ _ _ _ Hi Hc) as (u & Hu & Hi').
    pose proof (mi_cons _ _ _ _ _ Hi') as Hh. simpl in Hh. destruct Hh as (_ & _ & Hh). by exists u.
Qed.

Lemma ring_fifo_race_free_witness :
  exists q, pushed (mk_machine (push 2 (ring_init 2) 7%nat).2 PIdle CIdle [7%nat] []) = [] ++ q.
Proof.
  destruct (ring_fifo_race_free 2 (mk_machine (push 2 (ring_init 2) 7%nat).2 PIdle CIdle [7%nat] []))
    as (q & Hq & _).
  - lia.
  - apply (push_alone 2 (ring_init 2) 7%nat CIdle [] []).
  - by exists q.
Defined.

(** the answers are exact: the test that makes [push] fail after reloading [read] holds exactly
    when N-1 values are inside, the one that makes [pop] fail after reloading [write] exactly when
    none is; and running the producer's actions without interference is the sequential [push]. *)
Theorem ring_full_and_empty_exact {V} k (m : machine (V := V)) :
  0 <= k < 64 -> rtc (mstep k) (machine_init k) m ->
  (succ_slot k (write (ring m)) = read (ring m) <->
     Z.of_nat (length (pushed m)) - Z.of_nat (length (popped m)) = 2 ^ k - 1) /\
  (read (ring m) = write (ring m) <-> pushed m = popped m) /\
  (forall v, prod m = PIdle -> rtc (mstep k) m
     (mk_machine (push k (ring m) v).2 PIdle (cons_ m)
        (if (push k (ring m) v).1 then pushed m ++ [v] else pushed m) (popped m))).
Proof.
  intros Hk Hr. destruct (reachable_minv k Hk m Hr) as (q & RC & WC & Hi).
  pose proof (mi_content _ _ _ _ _ Hi) as Hc. split_and!.
  - rewrite (full_iff k Hk _ _ _ _ Hi), Hc, length_app. lia.
  - rewrite (empty_iff k Hk _ _ _ _ Hi), Hc. split; [intros ->; apply app_nil_r|].
    intros E. by apply (app_inv_head (popped m)); rewrite app_nil_r.
  - intros v Hp. destruct m as [s p c ps pp]. simpl in *. subst p. apply push_alone.
Qed.

Lemma ring_full_and_empty_exact_witness :
  let m := mk_machine (push 1 (ring_init 1) 7%nat).2 PIdle CIdle [7%nat] [] in
  succ_slot 1 (write (ring m)) = read (ring m).
Proof.
  intros m. destruct (ring_full_and_empty_exact 1 m) as ([_ H] & _).
  - lia.
  - apply (push_alone 1 (ring_init 1) 7%nat CIdle [] []).
  - apply H. reflexivity.
Defined.
