(* ===== verification/FramePool.v ===== *)
(** * The pool of coroutine frames

    src/include/cornet/coroutine/frame_pool.h: one pool per thread, with free
    lists of nine size classes threaded through the freed blocks, a bump
    chunk, and an inbound stack for blocks freed by other threads.

    Memory is the 16-byte headers in front of the frames, by address; the
    first word of a header is the owner while the frame lives and the link
    while the block is in a list.  A pool is identified with its thread.
    Addresses of new chunks and of oversized frames come from [operator new]:
    they are arguments. *)

From stdpp Require Import prelude gmap list list_numbers.
From Stdlib Require Import ZArith Lia.
From S2P Require Import Prelude.
Open Scope Z_scope.

(** ** State *)

Definition kHeaderSize : Z := 16.
Definition kMinClassSize : Z := 64.
Definition kMaxClassSize : Z := 2 ^ 14.
Definition kChunkSize : Z := 2 ^ 16.
Definition kClassCount : nat := 9.

Inductive word_t := Owner (pool : option Z) | Next (node : option Z).

Record header_t := mk_header { word : word_t; class_idx : nat; frame_size : Z }.

Record frame_pool_t := mk_pool {
  freelist_ : list (option Z); chunk_cur_ : Z; chunk_left_ : Z; chunks_ : list Z; remote_head_ : option Z
}.
Definition empty_pool : frame_pool_t := mk_pool (replicate kClassCount None) 0 0 [] None.

Record memory_t := mk_memory { pools : gmap Z frame_pool_t; heap : gmap Z header_t }.

(** ** Operations *)

Definition bit_width (x : Z) : Z := if x =? 0 then 0 else Z.log2 x + 1.
Definition class_index (total : Z) : nat := Z.to_nat (bit_width (total - 1) - 6).
Definition slot_size (i : nat) : Z := Z.shiftl kMinClassSize (Z.of_nat i).

Definition link_of (h : header_t) : option (option Z) := match word h with Next n => Some n | Owner _ => None end.
Definition set_word (w : word_t) (h : header_t) : header_t := mk_header w (class_idx h) (frame_size h).
Definition set_free (i : nat) (x : option Z) (p : frame_pool_t) : frame_pool_t :=
  mk_pool (<[i := x]> (freelist_ p)) (chunk_cur_ p) (chunk_left_ p) (chunks_ p) (remote_head_ p).
Definition free_head (i : nat) (p : frame_pool_t) : option Z := default None (freelist_ p !! i).
Definition set_pool (t : Z) (p : frame_pool_t) (m : memory_t) : memory_t := mk_memory (<[t := p]> (pools m)) (heap m).
Definition set_header (a : Z) (h : header_t) (m : memory_t) : memory_t := mk_memory (pools m) (<[a := h]> (heap m)).

(** Pushing a block on a free list of a pool. *)
Definition push_free (t : Z) (h : Z) (m : memory_t) : option memory_t :=
  match pools m !! t, heap m !! h with
  | Some p, Some hd =>
      let i := class_idx hd in
      Some (set_pool t (set_free i (Some h) p) (set_header h (set_word (Next (free_head i p)) hd) m))
  | _, _ => None
  end.

Definition new_chunk (c : Z) (p : frame_pool_t) : frame_pool_t :=
  mk_pool (freelist_ p) (c + 16) (kChunkSize - 16) (c :: chunks_ p) (remote_head_ p).

(** Takes the inbound stack and routes every block to its list. *)
Fixpoint drain_list (fuel : nat) (t : Z) (n : option Z) (m : memory_t) : option memory_t :=
  match n, fuel with
  | None, _ => Some m
  | Some _, O => None
  | Some h, S fuel =>
      match heap m !! h with
      | Some hd =>
          match link_of hd, push_free t h m with
          | Some next, Some m => drain_list fuel t next m
          | _, _ => None
          end
      | None => None
      end
  end.
Definition drain_remote (t : Z) (m : memory_t) : option memory_t :=
  match pools m !! t with
  | Some p => drain_list (S (base.size (heap m))) t (remote_head_ p)
                (set_pool t (mk_pool (freelist_ p) (chunk_cur_ p) (chunk_left_ p) (chunks_ p) None) m)
  | None => None
  end.

Definition alloc_global (n raw : Z) (m : memory_t) : memory_t * Z :=
  (set_header raw (mk_header (Owner None) 0 (u32 n)) m, raw + kHeaderSize).

(** [alloc] by thread [t]; [fresh] is the address [operator new] would
    return.  [None] is a corrupted list. *)
Definition alloc (t n fresh : Z) (m : memory_t) : option (memory_t * Z) :=
  match pools m !! t with
  | None => None
  | Some p0 =>
      match (match remote_head_ p0 with Some _ => drain_remote t m | None => Some m end) with
      | None => None
      | Some m =>
          let total := u64 (n + kHeaderSize) in
          if kMaxClassSize <? total then Some (alloc_global n fresh m)
          else
            let i := class_index total in
            match pools m !! t with
            | None => None
            | Some p =>
                let granted h p :=
                  Some (set_pool t p (set_header h (mk_header (Owner (Some t)) i (u32 n)) m), h + kHeaderSize) in
                match free_head i p with
                | Some h =>
                    match heap m !! h with
                    | Some hd => match link_of hd with Some next => granted h (set_free i next p) | None => None end
                    | None => None
                    end
                | None =>
                    let slot := slot_size i in
                    let p := if chunk_left_ p <? slot then new_chunk fresh p else p in
                    granted (chunk_cur_ p) (mk_pool (freelist_ p) (chunk_cur_ p + slot) (chunk_left_ p - slot) (chunks_ p) (remote_head_ p))
                end
            end
      end
  end.

(** [free_local_or_remote], a method of the pool [this]. *)
Definition free_local_or_remote (this h : Z) (m : memory_t) : option memory_t :=
  match heap m !! h with
  | None => None
  | Some hd =>
      match word hd with
      | Owner (Some owner) =>
          if owner =? this then push_free this h m
          else
            match pools m !! owner with
            | Some p =>
                let p' := mk_pool (freelist_ p) (chunk_cur_ p) (chunk_left_ p) (chunks_ p) (Some h) in
                Some (set_pool owner p' (set_header h (set_word (Next (remote_head_ p)) hd) m))
            | None => None
            end
      | _ => None
      end
  end.

(** [free] of a frame, on whatever thread. *)
Definition free (ptr : Z) (m : memory_t) : option memory_t :=
  let h := ptr - kHeaderSize in
  match heap m !! h with
  | None => None
  | Some hd =>
      match word hd with
      | Owner None => Some (mk_memory (pools m) (delete h (heap m)))
      | Owner (Some owner) => free_local_or_remote owner h m
      | Next _ => None
      end
  end.

(** ** Size classes *)

Lemma class_index_fits total : 17 <= total <= kMaxClassSize -> (class_index total < kClassCount)%nat /\ total <= slot_size (class_index total).
Proof.
  intros H. unfold class_index, slot_size, bit_width, kMaxClassSize, kClassCount, kMinClassSize in *.
  rewrite (proj2 (Z.eqb_neq _ _)) by lia. rewrite Z.shiftl_mul_pow2 by lia.
  pose proof (Z.log2_spec (total - 1) ltac:(lia)) as [L1 L2]. pose proof (Z.log2_nonneg (total - 1)).
  assert (Z.log2 (total - 1) < 14) by (apply Z.log2_lt_pow2; lia). split; [lia|].
  destruct (Z.leb_spec 6 (Z.log2 (total - 1) + 1)) as [Hl|Hl].
  - rewrite Z2Nat.id by lia. change 64 with (2 ^ 6). rewrite <- Z.pow_add_r by lia.
    replace (6 + (Z.log2 (total - 1) + 1 - 6)) with (Z.succ (Z.log2 (total - 1))) by lia. lia.
  - replace (Z.to_nat (Z.log2 (total - 1) + 1 - 6)) with 0%nat by lia. simpl.
    assert (2 ^ Z.succ (Z.log2 (total - 1)) <= 2 ^ 6) by (apply Z.pow_le_mono_r; lia). lia.
Qed.

Lemma slot_size_range i : (i < kClassCount)%nat -> 64 <= slot_size i <= kMaxClassSize /\ slot_size i mod 16 = 0.
Proof.
  unfold kClassCount. intros H. do 9 (destruct i as [|i]; [vm_compute; repeat split; congruence|]). lia.
Qed.

(** ** The invariant

    Every block ever carved from a chunk, and every live oversized block, is
    a slot: its extent, whom it belongs to and whether a frame lives in it.
    Slots and the uncarved rests of the chunks never overlap, and each free
    list holds exactly the dead slots of its pool and class. *)

Record slot_t := mk_slot { s_len : Z; s_home : option (Z * nat); s_frame : option Z }.

Definition apart (a la b lb : Z) : Prop := a + la <= b \/ b + lb <= a.

Fixpoint chain (hp : gmap Z header_t) (o : option Z) (l : list Z) : Prop :=
  match l with
  | [] => o = None
  | x :: l => o = Some x /\ exists h n, hp !! x = Some h /\ word h = Next n /\ chain hp n l
  end.

Definition dead_in (slots : gmap Z slot_t) (t : Z) (i : nat) (a : Z) : Prop :=
  exists n, slots !! a = Some (mk_slot n (Some (t, i)) None).

Record slot_ok (m : memory_t) (a : Z) (s : slot_t) : Prop := {
  so_align : 0 <= a /\ a mod 16 = 0;
  so_home : match s_home s with
            | Some (t, i) => is_Some (pools m !! t) /\ (i < kClassCount)%nat /\ s_len s = slot_size i
            | None => is_Some (s_frame s)
            end;
  so_frame : match s_frame s with
             | Some n => 0 < n /\ n + kHeaderSize <= s_len s /\ exists h, heap m !! a = Some h /\ word h = Owner (fst <$> s_home s) /\
                 (forall t i, s_home s = Some (t, i) -> class_idx h = i)
             | None => True
             end
}.

Record pool_ok (m : memory_t) (slots : gmap Z slot_t) (t : Z) (p : frame_pool_t) : Prop := {
  po_lists : length (freelist_ p) = kClassCount;
  po_remote : remote_head_ p = None;
  po_bump : 0 <= chunk_left_ p /\ 0 <= chunk_cur_ p /\ chunk_cur_ p mod 16 = 0;
  po_free : forall i, (i < kClassCount)%nat -> exists l, chain (heap m) (free_head i p) l /\ NoDup l /\ (forall a, a ∈ l <-> dead_in slots t i a)
}.

Record inv (m : memory_t) (slots : gmap Z slot_t) : Prop := {
  iv_slot : forall a s, slots !! a = Some s -> slot_ok m a s;
  iv_pool : forall t p, pools m !! t = Some p -> pool_ok m slots t p;
  iv_slots : forall a s b u, a <> b -> slots !! a = Some s -> slots !! b = Some u -> apart a (s_len s) b (s_len u);
  iv_bump : forall a s t p, slots !! a = Some s -> pools m !! t = Some p -> apart a (s_len s) (chunk_cur_ p) (chunk_left_ p);
  iv_bumps : forall t p u q, t <> u -> pools m !! t = Some p -> pools m !! u = Some q ->
    apart (chunk_cur_ p) (chunk_left_ p) (chunk_cur_ q) (chunk_left_ q)
}.

Lemma chain_frame hp a h o l : a ∉ l -> chain hp o l -> chain (<[a := h]> hp) o l.
Proof.
  revert o. induction l as [|x l IH]; intros o Ha; [done|]. intros [-> (hd & n & H1 & H2 & H3)].
  apply not_elem_of_cons in Ha as [Hx Ha]. split; [done|]. exists hd, n. rewrite lookup_insert_ne by done. split; [done|]. split; [done|]. by apply IH.
Qed.
Lemma chain_delete hp a o l : a ∉ l -> chain hp o l -> chain (delete a hp) o l.
Proof.
  revert o. induction l as [|x l IH]; intros o Ha; [done|]. intros [-> (hd & n & H1 & H2 & H3)].
  apply not_elem_of_cons in Ha as [Hx Ha]. split; [done|]. exists hd, n. rewrite lookup_delete_ne by done. split; [done|]. split; [done|]. by apply IH.
Qed.

(** ** Preservation *)

Section Steps.
Implicit Types (m : memory_t) (slots : gmap Z slot_t).

Lemma slot_len_pos m slots a s : inv m slots -> slots !! a = Some s -> 0 < s_len s.
Proof.
  intros I H. destruct (iv_slot _ _ I a s H) as [_ Hh Hf]. destruct (s_home s) as [[t i]|] eqn:E.
  - destruct Hh as (_ & Hi & ->). apply slot_size_range in Hi. lia.
  - destruct Hh as [n En]. rewrite En in Hf. unfold kHeaderSize in *. lia.
Qed.

Lemma slot_ok_mono m m' a s :
  slot_ok m a s -> (forall t, is_Some (pools m !! t) -> is_Some (pools m' !! t)) -> (is_Some (s_frame s) -> heap m' !! a = heap m !! a) -> slot_ok m' a s.
Proof.
  intros [A B C] Hp Hh. split; [done| |].
  - destruct (s_home s) as [[t i]|]; [|done]. destruct B as (B1 & B2). split; [by apply Hp|done].
  - destruct (s_frame s) as [n|]; [|done]. by rewrite Hh by by eexists.
Qed.

(** A pool none of whose dead blocks is [x]. *)
Lemma pool_ok_mono m m' slots slots' t p :
  pool_ok m slots t p ->
  (forall i a, dead_in slots' t i a <-> dead_in slots t i a) ->
  (forall i a, dead_in slots t i a -> heap m' !! a = heap m !! a) -> pool_ok m' slots' t p.
Proof.
  intros [A B C D] Hd Hh. split; [done..|]. intros i Hi. destruct (D i Hi) as (l & D1 & D2 & D3). exists l.
  split; [|split; [done|]; intros a; by rewrite D3, Hd].
  assert (Hl : forall a, a ∈ l -> heap m' !! a = heap m !! a) by (intros a Ha; apply (Hh i), D3, Ha).
  clear D2 D3. revert D1. generalize (free_head i p). induction l as [|x l IH]; intros o; [done|].
  intros [-> (h & n & E & W & H)]. split; [done|]. exists h, n. rewrite Hl by left. split; [done|]. split; [done|].
  apply IH; [|done]. intros a Ha. apply Hl. by right.
Qed.

Lemma dead_insert slots x s t i a :
  s_frame s <> None -> ~ dead_in slots t i x -> dead_in (<[x := s]> slots) t i a <-> dead_in slots t i a.
Proof.
  intros Hs Hx. unfold dead_in. destruct (decide (x = a)) as [->|Hne].
  - rewrite lookup_insert_eq. split; [|by intros H; destruct Hx]. intros (n & [= ->]). done.
  - by rewrite lookup_insert_ne.
Qed.

Lemma apart_sym a la b lb : apart a la b lb -> apart b lb a la.
Proof. unfold apart. lia. Qed.

(** A block of pool [t] becomes a live frame. *)
Lemma grant_inv m slots t p p' i x n :
  inv m slots -> pools m !! t = Some p -> (i < kClassCount)%nat -> 0 < n -> n + kHeaderSize <= slot_size i -> 0 <= x /\ x mod 16 = 0 ->
  let hd := mk_header (Owner (Some t)) i (u32 n) in
  let m' := set_pool t p' (set_header x hd m) in
  let slots' := <[x := mk_slot (slot_size i) (Some (t, i)) (Some n)]> slots in
  (forall u j, dead_in slots u j x -> u = t) -> pool_ok m' slots' t p' ->
  (forall a u, a <> x -> slots !! a = Some u -> apart x (slot_size i) a (s_len u)) ->
  (forall u q, u <> t -> pools m !! u = Some q -> apart x (slot_size i) (chunk_cur_ q) (chunk_left_ q)) ->
  apart x (slot_size i) (chunk_cur_ p') (chunk_left_ p') ->
  (forall a u, a <> x -> slots !! a = Some u -> apart a (s_len u) (chunk_cur_ p') (chunk_left_ p')) ->
  (forall u q, u <> t -> pools m !! u = Some q -> apart (chunk_cur_ p') (chunk_left_ p') (chunk_cur_ q) (chunk_left_ q)) ->
  inv m' slots'.
Proof.
  intros I Hp Hi Hn Hfit Hal hd m' slots' Hdead Hok Hx Hxb Hxp Hpb Hpp.
  assert (Hpools : forall u, is_Some (pools m !! u) -> is_Some (pools m' !! u)).
  { intros u Hu. subst m'. simpl. destruct (decide (t = u)) as [->|]; [rewrite lookup_insert_eq; by eexists|by rewrite lookup_insert_ne]. }
  split.
  - intros a s Ha. subst slots'. destruct (decide (x = a)) as [<-|Hne].
    + rewrite lookup_insert_eq in Ha. injection Ha as <-. split; [done| |]; simpl.
      * rewrite lookup_insert_eq. split; [by eexists|done].
      * split; [done|]. split; [done|]. exists hd. rewrite lookup_insert_eq. split; [done|]. split; [done|]. by intros ? ? [= <- <-].
    + rewrite lookup_insert_ne in Ha by done. eapply slot_ok_mono; [by apply (iv_slot _ _ I)|done|]. intros _. simpl. by rewrite lookup_insert_ne.
  - intros u q Hu. destruct (decide (t = u)) as [<-|Hne].
    + subst m'. simpl in Hu. rewrite lookup_insert_eq in Hu. injection Hu as <-. done.
    + simpl in Hu. rewrite lookup_insert_ne in Hu by done. eapply pool_ok_mono; [by apply (iv_pool _ _ I)| |].
      * intros j a. apply dead_insert; [done|]. intros H. by apply Hdead in H.
      * intros j a Ha. simpl. rewrite lookup_insert_ne; [done|]. intros ->. by apply Hdead in Ha.
  - intros a s b u Hab Ha Hb. subst slots'. destruct (decide (x = a)) as [<-|Ha'], (decide (x = b)) as [<-|Hb'].
    + done.
    + rewrite lookup_insert_eq in Ha. rewrite lookup_insert_ne in Hb by done. injection Ha as <-. by apply Hx.
    + rewrite lookup_insert_eq in Hb. rewrite lookup_insert_ne in Ha by done. injection Hb as <-. apply apart_sym. by apply Hx.
    + rewrite !lookup_insert_ne in * by done. by eapply (iv_slots _ _ I).
  - intros a s u q Ha Hq. simpl in Hq. subst slots'. destruct (decide (t = u)) as [<-|Hu], (decide (x = a)) as [<-|Ha'].
    all: rewrite ?lookup_insert_eq in Hq; rewrite ?lookup_insert_ne in Hq by done; rewrite ?lookup_insert_eq in Ha; rewrite ?lookup_insert_ne in Ha by done.
    + injection Hq as <-. by injection Ha as <-.
    + injection Hq as <-. by apply Hpb.
    + injection Ha as <-. by eapply Hxb.
    + by eapply (iv_bump _ _ I).
  - intros u q v r Huv Hq Hr. simpl in Hq, Hr. destruct (decide (t = u)) as [<-|Hu], (decide (t = v)) as [<-|Hv].
    all: rewrite ?lookup_insert_eq in Hq; rewrite ?lookup_insert_eq in Hr; rewrite ?lookup_insert_ne in Hq by done; rewrite ?lookup_insert_ne in Hr by done.
    + done.
    + injection Hq as <-. by eapply Hpp.
    + injection Hr as <-. apply apart_sym. by eapply Hpp.
    + exact (iv_bumps _ _ I u q v r Huv Hq Hr).
Qed.

(** What [operator new] promises of the [len] bytes at [a]. *)
Definition unused m slots (a len : Z) : Prop :=
  0 < a /\ a mod 64 = 0 /\ (forall b s, slots !! b = Some s -> apart a len b (s_len s)) /\
  (forall u q, pools m !! u = Some q -> apart a len (chunk_cur_ q) (chunk_left_ q)).

Lemma free_head_set i j x p : length (freelist_ p) = kClassCount -> (i < kClassCount)%nat ->
  free_head j (set_free i x p) = if decide (i = j) then x else free_head j p.
Proof.
  intros Hl Hi. unfold free_head. simpl. destruct (decide (i = j)) as [<-|Hne]; [by rewrite list_lookup_insert_eq by lia|by rewrite list_lookup_insert_ne].
Qed.

Lemma dead_home slots t i u j a : dead_in slots t i a -> dead_in slots u j a -> t = u /\ i = j.
Proof. intros [n H] [k E]. rewrite H in E. by injection E as -> -> ->. Qed.

(** Taking the first block of a free list. *)
Lemma pop_inv m slots t p i x hd next n :
  inv m slots -> pools m !! t = Some p -> (i < kClassCount)%nat -> 0 < n -> n + kHeaderSize <= slot_size i ->
  free_head i p = Some x -> heap m !! x = Some hd -> link_of hd = Some next ->
  inv (set_pool t (set_free i next p) (set_header x (mk_header (Owner (Some t)) i (u32 n)) m)) (<[x := mk_slot (slot_size i) (Some (t, i)) (Some n)]> slots) /\
  dead_in slots t i x.
Proof.
  intros I Hp Hi Hn Hfit Hh Hx Hl. pose proof (iv_pool _ _ I t p Hp) as [P1 P2 P3 P4].
  destruct (P4 i Hi) as (l & C & ND & M). rewrite Hh in C. destruct l as [|y l]; [done|]. destruct C as [[= <-] (h & nx & E1 & E2 & C)].
  rewrite Hx in E1. injection E1 as <-. unfold link_of in Hl. rewrite E2 in Hl. injection Hl as ->.
  assert (Hd : dead_in slots t i x) by (apply M; left). inversion ND as [|? ? Hnx ND']; subst. split; [|done].
  destruct Hd as [len Hd]. pose proof (iv_slot _ _ I x _ Hd) as [S1 S2 _]. simpl in S2. destruct S2 as (_ & _ & Hlen).
  eapply grant_inv; try done.
  - intros u j Hu. symmetry. apply (dead_home slots t i u j x); [by exists len|done].
  - split; [simpl; by rewrite length_insert|done|done|]. intros j Hj. rewrite free_head_set by done. simpl heap. destruct (decide (i = j)) as [<-|Hne].
    + exists l. split; [by apply chain_frame|]. split; [done|]. intros a. unfold dead_in. destruct (decide (x = a)) as [<-|Ha].
      * rewrite lookup_insert_eq. split; [done|]. by intros (k & [= ]).
      * rewrite lookup_insert_ne by done. rewrite <- (M a), elem_of_cons. split; [by right|]. by intros [->|].
    + destruct (P4 j Hj) as (l' & C' & ND2 & M'). exists l'.
      assert (x ∉ l') by (intros H; apply M' in H; destruct (dead_home slots t i t j x) as [_ ?]; [by exists len|done|done]).
      split; [by apply chain_frame|]. split; [done|]. intros a. rewrite M'. symmetry. apply dead_insert; [done|]. by rewrite <- M'.
  - intros a u Ha Hu. rewrite <- Hlen. by apply (iv_slots _ _ I x _ a u (not_eq_sym Ha) Hd Hu).
  - intros u q Hu Hq. rewrite <- Hlen. by apply (iv_bump _ _ I x _ u q Hd Hq).
  - rewrite <- Hlen. simpl. by apply (iv_bump _ _ I x _ t p Hd Hp).
  - intros a u Ha Hu. simpl. by apply (iv_bump _ _ I a u t p Hu Hp).
  - intros u q Hu Hq. simpl. exact (iv_bumps _ _ I t p u q (not_eq_sym Hu) Hp Hq).
Qed.

(** Carving a block from the chunk. *)
Lemma carve_inv m slots t p i n :
  inv m slots -> pools m !! t = Some p -> (i < kClassCount)%nat -> 0 < n -> n + kHeaderSize <= slot_size i -> slot_size i <= chunk_left_ p ->
  let x := chunk_cur_ p in
  let p' := mk_pool (freelist_ p) (x + slot_size i) (chunk_left_ p - slot_size i) (chunks_ p) (remote_head_ p) in
  inv (set_pool t p' (set_header x (mk_header (Owner (Some t)) i (u32 n)) m)) (<[x := mk_slot (slot_size i) (Some (t, i)) (Some n)]> slots) /\
  slots !! x = None.
Proof.
  intros I Hp Hi Hn Hfit Hroom x p'. pose proof (iv_pool _ _ I t p Hp) as [P1 P2 (P3 & P3z & P3') P4].
  destruct (slot_size_range i Hi) as [Hr Hr']. assert (Hx : slots !! x = None).
  { destruct (slots !! x) as [s|] eqn:E; [|done]. pose proof (iv_bump _ _ I x s t p E Hp) as A. pose proof (slot_len_pos _ _ _ _ I E).
    unfold apart in A. subst x. lia. }
  split; [|done]. assert (Hnd : forall u j, ~ dead_in slots u j x) by (intros u j [k E]; congruence).
  eapply grant_inv; try done.
  - intros u j H. by apply Hnd in H.
  - split; [done|done|simpl; split; [lia|]; split; [subst x; lia|subst x; rewrite Z.add_mod, P3', Hr' by lia; done]|]. intros j Hj.
    destruct (P4 j Hj) as (l & C & ND & M). exists l. simpl heap. change (free_head j p') with (free_head j p).
    split; [apply chain_frame; [rewrite M; apply Hnd|done]|]. split; [done|]. intros a. rewrite M. symmetry. apply dead_insert; [done|apply Hnd].
  - intros a u Ha Hu. pose proof (iv_bump _ _ I a u t p Hu Hp). unfold apart in *. subst x. lia.
  - intros u q Hu Hq. pose proof (iv_bumps _ _ I t p u q (not_eq_sym Hu) Hp Hq). unfold apart in *. subst x. lia.
  - unfold apart. simpl. lia.
  - intros a u Ha Hu. pose proof (iv_bump _ _ I a u t p Hu Hp). unfold apart in *. subst x. simpl. lia.
  - intros u q Hu Hq. pose proof (iv_bumps _ _ I t p u q (not_eq_sym Hu) Hp Hq). unfold apart in *. subst x. simpl. lia.
Qed.

Lemma chunk_inv m slots t p c : inv m slots -> pools m !! t = Some p -> unused m slots c kChunkSize -> inv (set_pool t (new_chunk c p) m) slots.
Proof.
  intros I Hp (U1 & U2 & U3 & U4). assert (Hpools : forall u, is_Some (pools m !! u) -> is_Some (pools (set_pool t (new_chunk c p) m) !! u)).
  { intros u Hu. simpl. destruct (decide (t = u)) as [<-|]; [rewrite lookup_insert_eq; by eexists|by rewrite lookup_insert_ne]. }
  assert (N : forall b l, apart c kChunkSize b l -> apart (c + 16) (kChunkSize - 16) b l) by (unfold apart; lia).
  split.
  - intros a s Ha. eapply slot_ok_mono; [by apply (iv_slot _ _ I)|done|done].
  - intros u q Hq. simpl in Hq. destruct (decide (t = u)) as [<-|Hne].
    + rewrite lookup_insert_eq in Hq. injection Hq as <-. destruct (iv_pool _ _ I t p Hp) as [P1 P2 P3 P4]. split; [done|done| |done].
      simpl. split; [done|]. split; [lia|]. assert (c mod 16 = 0) by (apply Z.div_exact in U2; [|lia]; rewrite U2; replace (64 * (c / 64)) with (c / 64 * 4 * 16) by lia; apply Z.mod_mul; lia).
      rewrite Z.add_mod, H by lia. done.
    + rewrite lookup_insert_ne in Hq by done. by eapply pool_ok_mono; [by apply (iv_pool _ _ I)|..].
  - apply (iv_slots _ _ I).
  - intros a s u q Ha Hq. simpl in Hq. destruct (decide (t = u)) as [<-|Hne].
    + rewrite lookup_insert_eq in Hq. injection Hq as <-. simpl. apply apart_sym, N. by apply U3.
    + rewrite lookup_insert_ne in Hq by done. by apply (iv_bump _ _ I a s u q).
  - intros u q v r Huv Hq Hr. simpl in Hq, Hr. destruct (decide (t = u)) as [<-|Hu], (decide (t = v)) as [<-|Hv].
    all: rewrite ?lookup_insert_eq in Hq; rewrite ?lookup_insert_eq in Hr; rewrite ?lookup_insert_ne in Hq by done; rewrite ?lookup_insert_ne in Hr by done.
    + done.
    + injection Hq as <-. simpl. apply N. by eapply U4.
    + injection Hr as <-. simpl. apply apart_sym, N. by eapply U4.
    + exact (iv_bumps _ _ I u q v r Huv Hq Hr).
Qed.

Lemma global_inv m slots x n : inv m slots -> 0 < n -> unused m slots x (n + kHeaderSize) ->
  inv (set_header x (mk_header (Owner None) 0 (u32 n)) m) (<[x := mk_slot (n + kHeaderSize) None (Some n)]> slots) /\ slots !! x = None.
Proof.
  intros I Hn (U1 & U2 & U3 & U4). unfold kHeaderSize in *. assert (Hx : slots !! x = None).
  { destruct (slots !! x) as [s|] eqn:E; [|done]. pose proof (U3 x s E) as A. pose proof (slot_len_pos _ _ _ _ I E). unfold apart in A. lia. }
  split; [|done]. assert (Hnd : forall u j, ~ dead_in slots u j x) by (intros u j [k E]; congruence).
  assert (Hal : x mod 16 = 0) by (apply Z.div_exact in U2; [|lia]; rewrite U2; replace (64 * (x / 64)) with (x / 64 * 4 * 16) by lia; apply Z.mod_mul; lia).
  split.
  - intros a s Ha. destruct (decide (x = a)) as [<-|Hne].
    + rewrite lookup_insert_eq in Ha. injection Ha as <-. split; [split; [lia|done]|by eexists|]. simpl. split; [done|]. split; [unfold kHeaderSize; lia|].
      eexists. rewrite lookup_insert_eq. split; [done|]. done.
    + rewrite lookup_insert_ne in Ha by done. eapply slot_ok_mono; [by apply (iv_slot _ _ I)|done|]. intros _. simpl. by rewrite lookup_insert_ne.
  - intros u q Hq. eapply pool_ok_mono; [by apply (iv_pool _ _ I)| |].
    + intros j a. by apply dead_insert.
    + intros j a Ha. simpl. rewrite lookup_insert_ne; [done|]. intros ->. by apply Hnd in Ha.
  - intros a s b u Hab Ha Hb. destruct (decide (x = a)) as [<-|Ha'], (decide (x = b)) as [<-|Hb'].
    all: rewrite ?lookup_insert_eq in Ha; rewrite ?lookup_insert_eq in Hb; rewrite ?lookup_insert_ne in Ha by done; rewrite ?lookup_insert_ne in Hb by done.
    + done.
    + injection Ha as <-. by apply U3.
    + injection Hb as <-. apply apart_sym. by apply U3.
    + by apply (iv_slots _ _ I a s b u).
  - intros a s u q Ha Hq. destruct (decide (x = a)) as [<-|Ha'].
    + rewrite lookup_insert_eq in Ha. injection Ha as <-. by apply (U4 u).
    + rewrite lookup_insert_ne in Ha by done. by apply (iv_bump _ _ I a s u q).
  - apply (iv_bumps _ _ I).
Qed.

(** The slot a request for [n] bytes by thread [t] is given. *)
Definition granted (t n : Z) : slot_t :=
  if kMaxClassSize <? n + kHeaderSize then mk_slot (n + kHeaderSize) None (Some n)
  else let i := class_index (n + kHeaderSize) in mk_slot (slot_size i) (Some (t, i)) (Some n).
(** What it may ask of [operator new]. *)
Definition demand (n : Z) : Z := if kMaxClassSize <? n + kHeaderSize then n + kHeaderSize else kChunkSize.

Definition live slots (x n : Z) : Prop := exists len home, slots !! x = Some (mk_slot len home (Some n)).

Lemma alloc_inv m slots t p n fresh :
  inv m slots -> pools m !! t = Some p -> 0 < n < 2 ^ 32 -> unused m slots fresh (demand n) ->
  exists m' x, alloc t n fresh m = Some (m', x + kHeaderSize) /\ inv m' (<[x := granted t n]> slots) /\ (forall k, ~ live slots x k).
Proof.
  intros I Hp Hn Hu. unfold alloc, granted, demand in *. rewrite Hp. pose proof (iv_pool _ _ I t p Hp) as [P1 P2 P3 P4]. rewrite P2.
  assert (u64 (n + kHeaderSize) = n + kHeaderSize) as -> by (apply u64_small; unfold kHeaderSize; lia).
  destruct (Z.ltb_spec kMaxClassSize (n + kHeaderSize)) as [Hbig|Hsmall].
  { destruct (global_inv m slots fresh n I) as [G1 G2]; [lia|done|]. eexists _, fresh. split; [done|]. split; [done|]. intros k (? & ? & E). congruence. }
  destruct (class_index_fits (n + kHeaderSize)) as [Hi Hfit]; [unfold kHeaderSize in *; lia|]. set (i := class_index _) in *. rewrite Hp.
  destruct (free_head i p) as [x|] eqn:Ef.
  - destruct (P4 i Hi) as (l & C & _). rewrite Ef in C. destruct l as [|y l]; [done|]. destruct C as [[= <-] (h & nx & E1 & E2 & _)].
    rewrite E1. assert (link_of h = Some nx) as El by (unfold link_of; by rewrite E2). rewrite El.
    destruct (pop_inv m slots t p i x h nx n I Hp Hi ltac:(lia) Hfit Ef E1 El) as [G1 [len G2]].
    eexists _, x. split; [done|]. split; [done|]. intros k (? & ? & E). congruence.
  - destruct (Z.ltb_spec (chunk_left_ p) (slot_size i)) as [Hless|Hroom].
    + pose proof (chunk_inv m slots t p fresh I Hp Hu) as I'. destruct (slot_size_range i Hi) as [Hr _]. unfold kChunkSize, kMaxClassSize in *.
      destruct (carve_inv _ slots t (new_chunk fresh p) i n I') as [G1 G2]; [simpl; by rewrite lookup_insert_eq|done|lia|done|simpl; unfold kChunkSize; lia|].
      eexists _, _. split; [done|]. split; [|intros k (? & ? & E); discriminate (eq_trans (eq_sym E) G2)].
      unfold set_pool, set_header in G1 |- *. simpl in G1 |- *. by rewrite insert_insert_eq in G1.
    + destruct (carve_inv m slots t p i n I Hp Hi ltac:(lia) Hfit Hroom) as [G1 G2].
      eexists _, _. split; [done|]. split; [done|]. intros k (? & ? & E). congruence.
Qed.

(** The ledger after a frame dies. *)
Definition buried slots (x : Z) (s : slot_t) : gmap Z slot_t :=
  match s_home s with None => delete x slots | Some _ => <[x := mk_slot (s_len s) (s_home s) None]> slots end.

Lemma free_global_inv m slots x len k :
  inv m slots -> slots !! x = Some (mk_slot len None (Some k)) -> inv (mk_memory (pools m) (delete x (heap m))) (delete x slots).
Proof.
  intros I Hx. assert (Hnd : forall u j, ~ dead_in slots u j x) by (intros u j [n E]; congruence). split.
  - intros a s Ha. apply lookup_delete_Some in Ha as [Hne Ha]. eapply slot_ok_mono; [by apply (iv_slot _ _ I)|done|]. intros _. simpl. by rewrite lookup_delete_ne.
  - intros u q Hq. eapply pool_ok_mono; [by apply (iv_pool _ _ I)| |].
    + intros j a. unfold dead_in. destruct (decide (x = a)) as [<-|Hne]; [|by rewrite lookup_delete_ne].
      rewrite lookup_delete_eq. split; [by intros [? ?]|]. intros H. by apply Hnd in H.
    + intros j a Ha. simpl. rewrite lookup_delete_ne; [done|]. intros ->. by apply Hnd in Ha.
  - intros a s b u Hab Ha Hb. apply lookup_delete_Some in Ha as [_ Ha]. apply lookup_delete_Some in Hb as [_ Hb]. by apply (iv_slots _ _ I a s b u).
  - intros a s u q Ha Hq. apply lookup_delete_Some in Ha as [_ Ha]. by apply (iv_bump _ _ I a s u q).
  - apply (iv_bumps _ _ I).
Qed.

Lemma push_inv m slots t p i x len k h :
  inv m slots -> slots !! x = Some (mk_slot len (Some (t, i)) (Some k)) -> pools m !! t = Some p -> (i < kClassCount)%nat ->
  heap m !! x = Some h -> class_idx h = i ->
  inv (set_pool t (set_free i (Some x) p) (set_header x (set_word (Next (free_head i p)) h) m)) (<[x := mk_slot len (Some (t, i)) None]> slots).
Proof.
  intros I Hx Hp Hi Hh Hc. assert (Hnd : forall u j, ~ dead_in slots u j x) by (intros u j [n E]; congruence).
  set (h' := set_word _ _). set (slots' := <[x := _]> slots). set (p' := set_free i (Some x) p).
  assert (Hold : forall a s, slots' !! a = Some s -> exists s0, slots !! a = Some s0 /\ s_len s0 = s_len s).
  { intros a s Ha. subst slots'. destruct (decide (x = a)) as [<-|Hne].
    - rewrite lookup_insert_eq in Ha. injection Ha as <-. by eexists.
    - rewrite lookup_insert_ne in Ha by done. by eexists. }
  assert (Hpool : forall u q, pools (set_pool t p' (set_header x h' m)) !! u = Some q -> exists q0, pools m !! u = Some q0 /\ chunk_cur_ q0 = chunk_cur_ q /\ chunk_left_ q0 = chunk_left_ q).
  { intros u q Hq. simpl in Hq. destruct (decide (t = u)) as [<-|Hne].
    - rewrite lookup_insert_eq in Hq. injection Hq as <-. by exists p.
    - rewrite lookup_insert_ne in Hq by done. by exists q. }
  split.
  - intros a s Ha. subst slots'. destruct (decide (x = a)) as [<-|Hne].
    + rewrite lookup_insert_eq in Ha. injection Ha as <-. destruct (iv_slot _ _ I x _ Hx) as [S1 S2 _]. split; [done| |done]. simpl in *.
      destruct S2 as (_ & S2). split; [rewrite lookup_insert_eq; by eexists|done].
    + rewrite lookup_insert_ne in Ha by done. eapply slot_ok_mono; [by apply (iv_slot _ _ I)| |].
      * intros u Hu. simpl. destruct (decide (t = u)) as [<-|]; [rewrite lookup_insert_eq; by eexists|by rewrite lookup_insert_ne].
      * intros _. simpl. by rewrite lookup_insert_ne.
  - intros u q Hq. simpl in Hq. assert (Hdd : forall u j a, (u, j) <> (t, i) -> dead_in slots' u j a <-> dead_in slots u j a).
    { intros v j a Hv. unfold dead_in, slots'. destruct (decide (x = a)) as [<-|Hne]; [|by rewrite lookup_insert_ne].
      rewrite lookup_insert_eq. split; [intros (? & [= _ -> ->]); done|]. intros H. by apply Hnd in H. }
    assert (Hhh : forall v j a, dead_in slots v j a -> <[x := h']> (heap m) !! a = heap m !! a).
    { intros v j a Ha. rewrite lookup_insert_ne; [done|]. intros ->. by apply Hnd in Ha. }
    destruct (decide (t = u)) as [<-|Hne].
    + rewrite lookup_insert_eq in Hq. injection Hq as <-. destruct (iv_pool _ _ I t p Hp) as [P1 P2 P3 P4].
      split; [simpl; by rewrite length_insert|done|done|]. intros j Hj. destruct (P4 j Hj) as (l & C & ND & M). simpl heap.
      assert (Hxl : x ∉ l) by (rewrite M; apply Hnd). unfold p'. rewrite free_head_set by done. destruct (decide (i = j)) as [<-|Hij].
      * exists (x :: l). split; [|split; [by constructor|]].
        -- split; [done|]. exists h', (free_head i p). rewrite lookup_insert_eq. split; [done|]. split; [done|]. by apply chain_frame.
        -- intros a. rewrite elem_of_cons, M. unfold dead_in, slots'. destruct (decide (x = a)) as [<-|Ha].
           ++ rewrite lookup_insert_eq. split; [intros _; by exists len|by left].
           ++ rewrite lookup_insert_ne by done. split; [by intros [->|]|by right].
      * exists l. split; [by apply chain_frame|]. split; [done|]. intros a. rewrite M. symmetry. apply Hdd. congruence.
    + rewrite lookup_insert_ne in Hq by done. eapply pool_ok_mono; [by apply (iv_pool _ _ I)| |].
      * intros j a. apply Hdd. congruence.
      * intros j a Ha. simpl. by apply (Hhh u j).
  - intros a s b u Hab Ha Hb. apply Hold in Ha as (s0 & Ha & <-). apply Hold in Hb as (u0 & Hb & <-). by apply (iv_slots _ _ I a s0 b u0).
  - intros a s u q Ha Hq. apply Hold in Ha as (s0 & Ha & <-). apply Hpool in Hq as (q0 & Hq & <- & <-). by apply (iv_bump _ _ I a s0 u q0).
  - intros u q v r Huv Hq Hr. apply Hpool in Hq as (q0 & Hq & <- & <-). apply Hpool in Hr as (r0 & Hr & <- & <-). exact (iv_bumps _ _ I u q0 v r0 Huv Hq Hr).
Qed.

Lemma free_inv m slots x s k :
  inv m slots -> slots !! x = Some s -> s_frame s = Some k -> exists m', free (x + kHeaderSize) m = Some m' /\ inv m' (buried slots x s).
Proof.
  intros I Hx Hk. destruct (iv_slot _ _ I x s Hx) as [_ Hh Hf]. rewrite Hk in Hf. destruct Hf as (_ & _ & h & E & W & C).
  unfold free, buried. replace (x + kHeaderSize - kHeaderSize) with x by lia. rewrite E, W. destruct s as [len [[t i]|] fr]; simpl in *; subst fr.
  - destruct Hh as ([p Hp] & Hi & _). unfold free_local_or_remote. rewrite E, W, Z.eqb_refl. unfold push_free. rewrite Hp, E, (C t i eq_refl).
    eexists. split; [done|]. by eapply push_inv; eauto.
  - eexists. split; [done|]. by eapply free_global_inv.
Qed.

Lemma start_inv m slots t : inv m slots -> pools m !! t = None -> inv (set_pool t empty_pool m) slots.
Proof.
  intros I Ht. assert (Ha0 : forall a s, slots !! a = Some s -> 0 <= a) by (intros a s Ha; apply (so_align _ _ _ (iv_slot _ _ I a s Ha))).
  assert (Hq0 : forall u q, pools m !! u = Some q -> 0 <= chunk_cur_ q) by (intros u q Hq; apply (po_bump _ _ _ _ (iv_pool _ _ I u q Hq))). assert (Hno : forall j a, ~ dead_in slots t j a).
  { intros j a [n E]. destruct (iv_slot _ _ I a _ E) as [_ [Hp _] _]. rewrite Ht in Hp. by destruct Hp. }
  split.
  - intros a s Ha. eapply slot_ok_mono; [by apply (iv_slot _ _ I)| |done]. intros u Hu. simpl.
    destruct (decide (t = u)) as [<-|]; [rewrite lookup_insert_eq; by eexists|by rewrite lookup_insert_ne].
  - intros u q Hq. simpl in Hq. destruct (decide (t = u)) as [<-|Hne].
    + rewrite lookup_insert_eq in Hq. injection Hq as <-. split; [done..|]. intros j Hj. exists []. split; [|split; [constructor|]].
      * unfold free_head. simpl. unfold kClassCount in Hj. do 9 (destruct j as [|j]; [done|]). lia.
      * intros a. split; [by intros ?%not_elem_of_nil|]. intros H. by apply Hno in H.
    + rewrite lookup_insert_ne in Hq by done. by eapply pool_ok_mono; [by apply (iv_pool _ _ I)|..].
  - apply (iv_slots _ _ I).
  - intros a s u q Ha Hq. simpl in Hq. destruct (decide (t = u)) as [<-|Hne].
    + rewrite lookup_insert_eq in Hq. injection Hq as <-. specialize (Ha0 a s Ha). unfold apart. simpl. lia.
    + rewrite lookup_insert_ne in Hq by done. by apply (iv_bump _ _ I a s u q).
  - intros u q v r Huv Hq Hr. simpl in Hq, Hr. destruct (decide (t = u)) as [<-|Hu], (decide (t = v)) as [<-|Hv].
    all: rewrite ?lookup_insert_eq in Hq; rewrite ?lookup_insert_eq in Hr; rewrite ?lookup_insert_ne in Hq by done; rewrite ?lookup_insert_ne in Hr by done.
    + done.
    + injection Hq as <-. specialize (Hq0 v r Hr). unfold apart. simpl. lia.
    + injection Hr as <-. specialize (Hq0 u q Hq). unfold apart. simpl. lia.
    + exact (iv_bumps _ _ I u q v r Huv Hq Hr).
Qed.
End Steps.

(** ** The pools in use *)

(** Threads start, allocate and free; a frame is freed once, by any thread,
    each operation running undisturbed.  The second component is the ledger
    of blocks. *)
Inductive reach : memory_t -> gmap Z slot_t -> Prop :=
| r_init : reach (mk_memory ∅ ∅) ∅
| r_start m slots t : reach m slots -> pools m !! t = None -> reach (set_pool t empty_pool m) slots
| r_alloc m slots t n fresh m' ptr :
    reach m slots -> 0 < n < 2 ^ 32 -> unused m slots fresh (demand n) -> alloc t n fresh m = Some (m', ptr) ->
    reach m' (<[ptr - kHeaderSize := granted t n]> slots)
| r_free m slots x s m' :
    reach m slots -> slots !! x = Some s -> is_Some (s_frame s) -> free (x + kHeaderSize) m = Some m' -> reach m' (buried slots x s).

Lemma reach_inv m slots : reach m slots -> inv m slots.
Proof.
  induction 1 as [|m slots t R IH Ht|m slots t n fresh m' ptr R IH Hn Hu Ha|m slots x s m' R IH Hx [k Hk] Hf].
  - split; simpl; intros; exfalso; match goal with H : ∅ !! _ = Some _ |- _ => by rewrite lookup_empty in H end.
  - by apply start_inv.
  - assert (exists p, pools m !! t = Some p) as [p Hp] by (unfold alloc in Ha; destruct (pools m !! t); [by eexists|done]).
    destruct (alloc_inv m slots t p n fresh IH Hp Hn Hu) as (m1 & x & E & I & _). rewrite E in Ha. injection Ha as <- <-.
    by replace (x + kHeaderSize - kHeaderSize) with x by lia.
  - destruct (free_inv m slots x s k IH Hx Hk) as (m1 & E & I). rewrite E in Hf. by injection Hf as <-.
Qed.

(** frames never alias. However threads allocate and free frames, with
    each operation running undisturbed: live frames occupy disjoint,
    16-byte-aligned memory; an allocation by a thread that has a pool always
    succeeds, with a frame disjoint from every live one and large enough; a
    live frame can always be freed (no list is ever corrupted). *)
Theorem frame_pool_sound m slots :
  reach m slots ->
  (forall x n y k, x <> y -> live slots x n -> live slots y k -> apart (x + kHeaderSize) n (y + kHeaderSize) k) /\
  (forall x n, live slots x n -> (x + kHeaderSize) mod 16 = 0 /\ is_Some (free (x + kHeaderSize) m)) /\
  (forall t n fresh, is_Some (pools m !! t) -> 0 < n < 2 ^ 32 -> unused m slots fresh (demand n) ->
     exists m' ptr, alloc t n fresh m = Some (m', ptr) /\ forall y k, live slots y k -> apart ptr n (y + kHeaderSize) k).
Proof.
  intros R. apply reach_inv in R as I.
  assert (D : forall m slots, inv m slots -> forall x n y k, x <> y -> live slots x n -> live slots y k -> apart (x + kHeaderSize) n (y + kHeaderSize) k).
  { clear. intros m slots I x n y k Hne (l1 & h1 & E1) (l2 & h2 & E2). pose proof (iv_slots _ _ I x _ y _ Hne E1 E2) as A.
    destruct (iv_slot _ _ I x _ E1) as [_ _ (F1 & F2 & _)], (iv_slot _ _ I y _ E2) as [_ _ (G1 & G2 & _)].
    unfold apart, kHeaderSize in *. simpl in *. lia. }
  split; [by apply D with m|]. split.
  - intros x n (len & home & E). split.
    + destruct (iv_slot _ _ I x _ E) as [[_ A] _ _]. unfold kHeaderSize. rewrite Z.add_mod, A by lia. done.
    + destruct (free_inv m slots x _ n I E eq_refl) as (m' & -> & _). by eexists.
  - intros t n fresh [p Hp] Hn Hu. destruct (alloc_inv m slots t p n fresh I Hp Hn Hu) as (m' & x & E & I' & Hx).
    exists m', (x + kHeaderSize). split; [done|]. intros y k Hy. assert (x <> y) as Hne by (intros ->; by apply Hx in Hy).
    apply (D m' _ I' x n y k Hne).
    + unfold live, granted. rewrite lookup_insert_eq. destruct (_ <? _); by eexists _, _.
    + destruct Hy as (len & home & E2). exists len, home. by rewrite lookup_insert_ne.
Qed.

(** A thread, a frame of 100 bytes and one of 20000, the first freed again. *)
Definition two_frames : memory_t * gmap Z slot_t :=
  let m := set_pool 1 empty_pool (mk_memory ∅ ∅) in
  match alloc 1 100 65536 m with
  | Some (m, p) => match alloc 1 20000 1048576 m with
                   | Some (m, q) => (m, <[q - 16 := granted 1 20000]> (<[p - 16 := granted 1 100]> ∅))
                   | None => (m, ∅)
                   end
  | None => (m, ∅)
  end.

Lemma two_frames_reach : reach two_frames.1 two_frames.2.
Proof.
  set (m0 := set_pool 1 empty_pool (mk_memory ∅ ∅)). assert (R0 : reach m0 ∅) by (apply r_start; [constructor|done]).
  assert (U0 : unused m0 ∅ 65536 (demand 100)).
  { split; [done|]. split; [done|]. split; [intros b s H; by rewrite lookup_empty in H|]. intros u q. simpl. destruct (decide (1 = u)) as [<-|Hne].
    - rewrite lookup_insert_eq. intros [= <-]. vm_compute. by right.
    - by rewrite lookup_insert_ne, lookup_empty. }
  pose proof (r_alloc m0 ∅ 1 100 65536 _ _ R0 ltac:(lia) U0 eq_refl) as R1. set (m1 := set_pool _ _ _) in R1. set (s1 := <[_ := _]> _) in R1.
  assert (U1 : unused m1 s1 1048576 (demand 20000)).
  { split; [done|]. split; [done|]. split.
    - intros b s H. apply lookup_insert_Some in H as [[<- <-]|[_ H]]; [vm_compute; right; congruence|by rewrite lookup_empty in H].
    - intros u q H. simpl in H. apply lookup_insert_Some in H as [[<- <-]|[Hne H]]; [vm_compute; right; congruence|]. by rewrite lookup_insert_ne, lookup_empty in H. }
  exact (r_alloc m1 s1 1 20000 1048576 _ _ R1 ltac:(lia) U1 eq_refl).
Qed.

Lemma frame_pool_sound_witness :
  apart (65552 + 16) 100 (1048576 + 16) 20000 /\ is_Some (free (65552 + 16) two_frames.1).
Proof.
  destruct (frame_pool_sound _ _ two_frames_reach) as (H1 & H2 & _).
  assert (L1 : live two_frames.2 65552 100) by (vm_compute; eexists _, _; reflexivity).
  assert (L2 : live two_frames.2 1048576 20000) by (vm_compute; eexists _, _; reflexivity).
  split; [exact (H1 65552 100 1048576 20000 ltac:(lia) L1 L2)|exact (proj2 (H2 65552 100 L1))].
Defined.

(** ** Freeing from another thread *)

(** [free] calls the method on the owner, so its comparison of the owner with
    itself always holds: the block goes on the owner's list, whatever thread
    calls, and the inbound stack is never used. *)
Lemma free_on_owner ptr m hd t :
  heap m !! (ptr - kHeaderSize) = Some hd -> word hd = Owner (Some t) -> free ptr m = push_free t (ptr - kHeaderSize) m.
Proof. intros E W. unfold free, free_local_or_remote. by rewrite E, W, Z.eqb_refl. Qed.

(** The memory accesses of [alloc] and of [push_free] on one list, one at a
    time: the owner pops while another thread pushes. *)
Inductive access := PopRead | PopNext | PopWrite | PushRead | PushLink (h : Z) | PushWrite (h : Z).

Record list_t := mk_list {
  l_head : option Z; l_next : gmap Z (option Z); pop_node : option Z; pop_next : option Z; push_head : option Z; popped : list Z
}.

Definition access_step (a : access) (s : list_t) : list_t :=
  match a with
  | PopRead => mk_list (l_head s) (l_next s) (l_head s) (pop_next s) (push_head s) (popped s)
  | PopNext => mk_list (l_head s) (l_next s) (pop_node s) (match pop_node s with Some n => default None (l_next s !! n) | None => None end) (push_head s) (popped s)
  | PopWrite => mk_list (pop_next s) (l_next s) (pop_node s) (pop_next s) (push_head s) (popped s ++ match pop_node s with Some n => [n] | None => [] end)
  | PushRead => mk_list (l_head s) (l_next s) (pop_node s) (pop_next s) (l_head s) (popped s)
  | PushLink h => mk_list (l_head s) (<[h := push_head s]> (l_next s)) (pop_node s) (pop_next s) (push_head s) (popped s)
  | PushWrite h => mk_list (Some h) (l_next s) (pop_node s) (pop_next s) (push_head s) (popped s)
  end.
Definition run_accesses (l : list access) (s : list_t) : list_t := fold_left (fun s a => access_step a s) l s.

(** The list of class [i] of pool [t]. *)
Definition seen_as (m : memory_t) (t : Z) (i : nat) (s : list_t) : Prop :=
  exists p, pools m !! t = Some p /\ l_head s = free_head i p /\
  forall a hd n, heap m !! a = Some hd -> word hd = Next n -> l_next s !! a = Some n.

(** Undisturbed, freeing a pooled frame makes exactly the accesses of a push
    on the list its owner allocates from. *)
Lemma free_accesses ptr m hd t p i s :
  heap m !! (ptr - kHeaderSize) = Some hd -> word hd = Owner (Some t) -> class_idx hd = i ->
  pools m !! t = Some p -> (i < length (freelist_ p))%nat -> seen_as m t i s ->
  let h := ptr - kHeaderSize in
  exists m', free ptr m = Some m' /\ seen_as m' t i (run_accesses [PushRead; PushLink h; PushWrite h] s).
Proof.
  intros E W Hc Hp Hi (p0 & Hp0 & Hh & Hn) h. rewrite Hp in Hp0. injection Hp0 as <-.
  rewrite (free_on_owner ptr m hd t E W). unfold push_free. fold h. fold h in E. rewrite Hp, E, Hc. eexists. split; [done|].
  exists (set_free i (Some h) p). split; [simpl; by rewrite lookup_insert_eq|]. split.
  - simpl. unfold free_head. simpl. by rewrite list_lookup_insert_eq.
  - intros a hd' n. simpl. destruct (decide (h = a)) as [<-|Hne].
    + rewrite !lookup_insert_eq. intros [= <-]. simpl. intros [= <-]. by rewrite Hh.
    + rewrite !lookup_insert_ne by done. apply Hn.
Qed.

(** a frame freed by another thread while its owner allocates. [free]
    pushes on the owner's list from whatever thread it runs on ([free_on_owner],
    [free_accesses]), although the pool is documented to hand such blocks over
    through a stack of their own; interleaved with an allocation the accesses
    lose the update of the head, and the owner is given the block at 16 for
    two live frames. *)
Theorem frame_pool_race :
  popped (run_accesses
    [PushRead; PopRead; PopNext; PopWrite; PushLink 80; PushWrite 80; PopRead; PopNext; PopWrite; PopRead; PopNext; PopWrite]
    (mk_list (Some 16) {[16 := None]} None None None [])) = [16; 80; 16].
Proof. reflexivity. Qed.
