(* ===== verification/Counting.v ===== *)
(** * Counting entries of a finite map

    The counters of the sources (followers of a flight, operations in flight,
    references to a shared state) count the objects in a certain state; the
    objects are a finite map. *)

From stdpp Require Import prelude gmap fin_maps.
From Stdlib Require Import Lia.
From S2P Require Import Prelude.
Open Scope nat_scope.

Definition one (b : bool) : nat := if b then 1 else 0.

Section Count.
Context {K : Type} `{Countable K} {V : Type}.
Implicit Types (P : V -> bool) (m : gmap K V).

Definition count_if P m : nat := base.size (filter (fun kv : K * V => P kv.2 = true) m).

Lemma count_empty P : count_if P ∅ = 0.
Proof. unfold count_if. by rewrite map_filter_empty, map_size_empty. Qed.

Lemma count_insert P m k x : m !! k = None -> count_if P (<[k := x]> m) = one (P x) + count_if P m.
Proof.
  intros Hk. unfold count_if. destruct (P x) eqn:E.
  - rewrite map_filter_insert_True by done. rewrite map_size_insert_None; [done|]. apply map_lookup_filter_None. by left.
  - rewrite map_filter_insert_not'; [done|by simpl; rewrite E|]. intros y Hy. congruence.
Qed.
Lemma count_delete P m k y : m !! k = Some y -> one (P y) + count_if P (delete k m) = count_if P m.
Proof. intros Hk. rewrite <- (insert_delete_id m k y Hk) at 2. by rewrite count_insert by apply lookup_delete_eq. Qed.
Lemma count_replace P m k y x : m !! k = Some y -> one (P y) + count_if P (<[k := x]> m) = one (P x) + count_if P m.
Proof.
  intros Hk. rewrite <- (count_delete P m k y Hk), <- (insert_delete_eq m k x). rewrite count_insert by apply lookup_delete_eq. lia.
Qed.
Lemma count_same P m k y x : m !! k = Some y -> P x = P y -> count_if P (<[k := x]> m) = count_if P m.
Proof. intros Hk E. pose proof (count_replace P m k y x Hk) as C. rewrite E in C. lia. Qed.

Lemma count_pos P m k x : m !! k = Some x -> P x = true -> 0 < count_if P m.
Proof. intros Hk Hp. rewrite <- (count_delete P m k x Hk), Hp. simpl. lia. Qed.
Lemma count_some P m : count_if P m <> 0 -> exists k x, m !! k = Some x /\ P x = true.
Proof. unfold count_if. intros (k & x & Hk)%map_size_ne_0_lookup. apply map_lookup_filter_Some in Hk as [Hk Hp]. by exists k, x. Qed.
Lemma count_none P m : (forall k x, m !! k = Some x -> P x = false) -> count_if P m = 0.
Proof. intros Hn. destruct (decide (count_if P m = 0)) as [|Hc]; [done|]. destruct (count_some P m Hc) as (k & x & Hk & Hp). by rewrite (Hn k x Hk) in Hp. Qed.
Lemma count_ext P Q m : (forall k x, m !! k = Some x -> P x = Q x) -> count_if P m = count_if Q m.
Proof.
  intros E. unfold count_if. f_equal. apply map_filter_ext. intros k x Hk. simpl. by rewrite (E k x Hk).
Qed.
Lemma count_le P m : count_if P m <= base.size m.
Proof. apply map_size_filter. Qed.
End Count.
