(* ===== verification/Singleflight.v ===== *)
(** * Coalescing duplicate work

    src/include/cornet/concurrency/singleflight.h.  Callers of [run] are
    numbered; the first for a key leads a flight, the others park on it.  The
    suspension points are the states of a caller: leading (inside [fn()]) and
    waiting (linked on the flight's chain, or woken and not yet resumed).
    Flights are heap objects by address; using one that was deleted is
    [None]. *)

From stdpp Require Import prelude gmap list fin_maps.
From Stdlib Require Import ZArith Lia.
From S2P Require Import Prelude Counting.
Open Scope Z_scope.

Definition EOWNERDEAD : Z := 130.

Section Singleflight.
Context {K : Type} {EK : EqDecision K} {CK : Countable K} {V : Type}.

(** ** State *)

Record flight_t := mk_flight { result : option V; err : error_t; waiters : list Z; waiter_n : Z; done_ : bool }.
Definition new_flight : flight_t := mk_flight None no_error [] 0 false.

Inductive caller_t :=
| Leading (k : K) (f : Z)
| Waiting (f : Z) (linked : bool)
| Returned (r : expected (option V)).

Record singleflight_t := mk_sf {
  in_flight_ : gmap K Z; flights : gmap Z flight_t; callers : gmap Z caller_t; ready : list Z; fresh : Z
}.
Definition empty_sf : singleflight_t := mk_sf ∅ ∅ ∅ [] 0.

Implicit Types s : singleflight_t.

Definition set_flight (f : Z) (x : option flight_t) s : singleflight_t :=
  mk_sf (in_flight_ s) (match x with Some fl => <[f := fl]> (flights s) | None => delete f (flights s) end) (callers s) (ready s) (fresh s).
Definition set_caller (c : Z) (x : caller_t) s : singleflight_t :=
  mk_sf (in_flight_ s) (flights s) (<[c := x]> (callers s)) (ready s) (fresh s).

(** ** Operations *)

(** [run] up to its first suspension: as a follower ([await_suspend]), or as
    the leader calling [fn()]. *)
Definition run (c : Z) (k : K) s : option singleflight_t :=
  match in_flight_ s !! k with
  | Some f =>
      match flights s !! f with
      | Some fl =>
          Some (set_caller c (Waiting f true)
            (set_flight f (Some (mk_flight (result fl) (err fl) (c :: waiters fl) (u32 (waiter_n fl + 1)) (done_ fl))) s))
      | None => None
      end
  | None =>
      let f := fresh s in
      Some (set_caller c (Leading k f) (mk_sf (<[k := f]> (in_flight_ s)) (<[f := new_flight]> (flights s)) (callers s) (ready s) (f + 1)))
  end.

Definition wake_all (f : Z) (ws : list Z) (cs : gmap Z caller_t) : gmap Z caller_t :=
  fold_right (fun w cs => <[w := Waiting f false]> cs) cs ws.

Definition leader_finish (f : Z) (k : K) (fl : flight_t) s : singleflight_t :=
  mk_sf (delete k (in_flight_ s))
    (if waiter_n fl =? 0 then delete f (flights s) else <[f := mk_flight (result fl) (err fl) [] (waiter_n fl) true]> (flights s))
    (wake_all f (waiters fl) (callers s)) (ready s ++ waiters fl) (fresh s).

(** [fn()] returned [r]. *)
Definition land (c : Z) (r : expected (option V)) s : option singleflight_t :=
  match callers s !! c with
  | Some (Leading k f) =>
      match flights s !! f with
      | Some fl =>
          let fl := match r with
                    | Ok v => mk_flight v (err fl) (waiters fl) (waiter_n fl) (done_ fl)
                    | Unexpected e => mk_flight (result fl) e (waiters fl) (waiter_n fl) (done_ fl)
                    end in
          Some (set_caller c (Returned r) (leader_finish f k fl s))
      | None => None
      end
  | _ => None
  end.

Definition drop_caller (c : Z) s : singleflight_t :=
  mk_sf (in_flight_ s) (flights s) (delete c (callers s)) (filter (fun x => x <> c) (ready s)) (fresh s).

(** The leader's frame is destroyed while [fn()] runs: the guard. *)
Definition leader_dies (c : Z) s : option singleflight_t :=
  match callers s !! c with
  | Some (Leading k f) =>
      match flights s !! f with
      | Some fl => Some (drop_caller c (leader_finish f k (mk_flight (result fl) (system_error EOWNERDEAD) (waiters fl) (waiter_n fl) (done_ fl)) s))
      | None => None
      end
  | _ => None
  end.

Definition await_resume (fl : flight_t) : expected (option V) :=
  if code (err fl) =? 0 then Ok (result fl) else Unexpected (err fl).

Definition release_waiter (f : Z) s : option singleflight_t :=
  match flights s !! f with
  | Some fl =>
      let n := u32 (waiter_n fl - 1) in
      Some (set_flight f (if (n =? 0) && done_ fl then None else Some (mk_flight (result fl) (err fl) (waiters fl) n (done_ fl))) s)
  | None => None
  end.

Definition unlink_waiter (f c : Z) s : option singleflight_t :=
  match flights s !! f with
  | Some fl => Some (set_flight f (Some (mk_flight (result fl) (err fl) (filter (fun x => x <> c) (waiters fl)) (waiter_n fl) (done_ fl))) s)
  | None => None
  end.

(** A woken follower runs: its result, then the awaiter's destructor. *)
Definition follower_resumes (c : Z) s : option singleflight_t :=
  match callers s !! c with
  | Some (Waiting f false) =>
      match flights s !! f with
      | Some fl =>
          match release_waiter f s with
          | Some s => Some (set_caller c (Returned (await_resume fl))
              (mk_sf (in_flight_ s) (flights s) (callers s) (filter (fun x => x <> c) (ready s)) (fresh s)))
          | None => None
          end
      | None => None
      end
  | _ => None
  end.

(** A follower's frame is destroyed. *)
Definition follower_dies (c : Z) s : option singleflight_t :=
  match callers s !! c with
  | Some (Waiting f linked) =>
      match (if linked then unlink_waiter f c s else Some s) with
      | Some s => match release_waiter f s with Some s => Some (drop_caller c s) | None => None end
      | None => None
      end
  | _ => None
  end.

(** ** Counting followers *)

Definition follows (f : Z) (x : caller_t) : bool := match x with Waiting g _ => bool_decide (g = f) | _ => false end.
Definition cnt (cs : gmap Z caller_t) (f : Z) : nat := count_if (follows f) cs.

Lemma cnt_insert cs c x f : cs !! c = None -> cnt (<[c := x]> cs) f = (one (follows f x) + cnt cs f)%nat.
Proof. apply count_insert. Qed.
Lemma cnt_delete cs c y f : cs !! c = Some y -> (one (follows f y) + cnt (delete c cs) f)%nat = cnt cs f.
Proof. apply count_delete. Qed.
Lemma cnt_replace cs c y x f : cs !! c = Some y -> (one (follows f y) + cnt (<[c := x]> cs) f)%nat = (one (follows f x) + cnt cs f)%nat.
Proof. apply count_replace. Qed.

Lemma wake_all_lookup f ws cs c : wake_all f ws cs !! c = if decide (c ∈ ws) then Some (Waiting f false) else cs !! c.
Proof.
  induction ws as [|w ws IH]; simpl; [by destruct (decide (c ∈ [])) as [Hc|]; [apply not_elem_of_nil in Hc|]|].
  destruct (decide (w = c)) as [->|Hne].
  - rewrite lookup_insert_eq. destruct (decide (c ∈ c :: ws)) as [|Hn]; [done|]. destruct Hn. left.
  - rewrite lookup_insert_ne, IH by done. destruct (decide (c ∈ ws)) as [Hi|Hi], (decide (c ∈ w :: ws)) as [Hj|Hj]; try done.
    + destruct Hj. by right.
    + apply elem_of_cons in Hj as [->|]; done.
Qed.
Lemma wake_all_cnt f ws cs g : (forall w, w ∈ ws -> cs !! w = Some (Waiting f true)) -> cnt (wake_all f ws cs) g = cnt cs g.
Proof.
  induction ws as [|w ws IH]; intros Hw; [done|]. simpl.
  assert (E : exists b, wake_all f ws cs !! w = Some (Waiting f b)).
  { rewrite wake_all_lookup. destruct (decide (w ∈ ws)); [by eexists|]. rewrite Hw by left. by eexists. }
  destruct E as [b E]. pose proof (cnt_replace _ w _ (Waiting f false) g E) as C. simpl in C. rewrite IH in C; [lia|]. intros v Hv. apply Hw. by right.
Qed.
Lemma cnt_zero cs f c b : cnt cs f = 0%nat -> cs !! c <> Some (Waiting f b).
Proof. intros H E. apply (count_pos (follows f)) in E; [unfold cnt in H; lia|]. simpl. by rewrite bool_decide_true. Qed.
Lemma cnt_none cs f : (forall c b, cs !! c <> Some (Waiting f b)) -> cnt cs f = 0%nat.
Proof.
  intros Hn. apply count_none. intros c x Hx. destruct x as [?|g b|?]; try done. simpl.
  destruct (decide (g = f)) as [->|]; [by apply Hn in Hx|by rewrite bool_decide_false].
Qed.
Lemma cnt_some cs f : cnt cs f <> 0%nat -> exists c b, cs !! c = Some (Waiting f b).
Proof.
  intros (c & x & H & F)%count_some. destruct x as [?|g b|?]; try done. simpl in F. apply bool_decide_eq_true in F as ->. by exists c, b.
Qed.

(** ** The invariant *)

Record sf_ok s : Prop := {
  ok_flight : forall f fl, flights s !! f = Some fl ->
    f < fresh s /\ waiter_n fl = Z.of_nat (cnt (callers s) f) /\ NoDup (waiters fl) /\
    (forall c, c ∈ waiters fl <-> callers s !! c = Some (Waiting f true)) /\
    if done_ fl then 0 < waiter_n fl else result fl = None /\ err fl = no_error /\ exists k c, callers s !! c = Some (Leading k f);
  ok_lead : forall c k f, callers s !! c = Some (Leading k f) -> in_flight_ s !! k = Some f /\ exists fl, flights s !! f = Some fl /\ done_ fl = false;
  ok_key : forall k f, in_flight_ s !! k = Some f -> exists c, callers s !! c = Some (Leading k f);
  ok_one : forall c c' k k' f, callers s !! c = Some (Leading k f) -> callers s !! c' = Some (Leading k' f) -> c = c';
  ok_wait : forall c f b, callers s !! c = Some (Waiting f b) -> is_Some (flights s !! f)
}.

(** A caller joins a flight. *)
Lemma join_ok c k f fl s :
  sf_ok s -> callers s !! c = None -> (forall f, Z.of_nat (cnt (callers s) f) + 1 < 2 ^ 32) -> in_flight_ s !! k = Some f -> flights s !! f = Some fl ->
  sf_ok (set_caller c (Waiting f true) (set_flight f (Some (mk_flight (result fl) (err fl) (c :: waiters fl) (u32 (waiter_n fl + 1)) (done_ fl))) s)).
Proof.
  intros O Hc Hb Ek Ef.
  destruct (ok_flight s O f fl Ef) as (F1 & F2 & F3 & F4 & F5).
  assert (Hoth : forall d x, d <> c -> <[c := Waiting f true]> (callers s) !! d = Some x <-> callers s !! d = Some x) by (intros; by rewrite lookup_insert_ne).
  assert (Hl : forall d k' g, <[c := Waiting f true]> (callers s) !! d = Some (Leading k' g) <-> callers s !! d = Some (Leading k' g)).
  { intros d k' g. destruct (decide (d = c)) as [->|Hne]; [rewrite lookup_insert_eq, Hc; done|by apply Hoth]. }
  split; simpl.
  - intros g gl Hg. rewrite cnt_insert by done. simpl. destruct (decide (f = g)) as [<-|Hne].
    + rewrite lookup_insert_eq in Hg. injection Hg as <-. simpl. rewrite bool_decide_true by done. split; [done|].
      split; [rewrite F2, u32_small; [simpl; lia|specialize (Hb f); lia]|]. split; [constructor; [rewrite F4, Hc; done|done]|]. split.
      * intros d. rewrite elem_of_cons. destruct (decide (d = c)) as [->|Hd]; [rewrite lookup_insert_eq; naive_solver|].
         rewrite lookup_insert_ne, F4 by done. naive_solver.
      * destruct (done_ fl); [rewrite u32_small; [lia|specialize (Hb f); lia]|]. destruct F5 as (? & ? & k' & d & Hd). split; [done|]. split; [done|].
         exists k', d. by apply Hl.
    + rewrite lookup_insert_ne in Hg by done. destruct (ok_flight s O g gl Hg) as (G1 & G2 & G3 & G4 & G5). rewrite bool_decide_false by done.
      split; [done|]. split; [done|]. split; [done|]. split.
      * intros d. rewrite G4. destruct (decide (d = c)) as [->|Hd]; [rewrite lookup_insert_eq, Hc; naive_solver|symmetry; by apply Hoth].
      * destruct (done_ gl); [done|]. destruct G5 as (? & ? & k' & d & Hd). split; [done|]. split; [done|]. exists k', d. by apply Hl.
  - intros d k' g Hd. apply Hl in Hd. destruct (ok_lead s O d k' g Hd) as (H1 & gl & H2 & H3). split; [done|]. destruct (decide (f = g)) as [<-|Hne].
    + rewrite Ef in H2. injection H2 as <-. eexists. by rewrite lookup_insert_eq.
    + exists gl. by rewrite lookup_insert_ne.
  - intros k' g Hg. destruct (ok_key s O k' g Hg) as [d Hd]. exists d. by apply Hl.
  - intros d d' k1 k2 g H1 H2. apply Hl in H1. apply Hl in H2. exact (ok_one s O _ _ _ _ _ H1 H2).
  - intros d g b Hd. destruct (decide (f = g)) as [<-|Hne]; [rewrite lookup_insert_eq; by eexists|]. rewrite lookup_insert_ne by done.
    destruct (decide (d = c)) as [->|Hdc]; [rewrite lookup_insert_eq in Hd; congruence|]. rewrite lookup_insert_ne in Hd by done. by eapply (ok_wait s O).
Qed.

(** A caller opens a flight. *)
Lemma lead_ok c k s :
  sf_ok s -> callers s !! c = None -> in_flight_ s !! k = None ->
  sf_ok (set_caller c (Leading k (fresh s)) (mk_sf (<[k := fresh s]> (in_flight_ s)) (<[fresh s := new_flight]> (flights s)) (callers s) (ready s) (fresh s + 1))).
Proof.
  intros O Hc Ek.
  set (f := fresh s).
  assert (Hnf : flights s !! f = None).
  { destruct (flights s !! f) as [fl|] eqn:E; [|done]. destruct (ok_flight s O f fl E) as (? & _). subst f. lia. }
  assert (Hnw : forall d b, callers s !! d <> Some (Waiting f b)).
  { intros d b Hd. destruct (ok_wait s O d f b Hd) as [? E]. congruence. }
  assert (Hnl : forall d k', callers s !! d <> Some (Leading k' f)).
  { intros d k' Hd. destruct (ok_lead s O d k' f Hd) as (_ & ? & E & _). congruence. }
  assert (Hz : cnt (callers s) f = 0%nat).
  { apply cnt_none. intros d b. apply Hnw. }
  split; simpl.
  - intros g gl Hg. rewrite cnt_insert by done. simpl. destruct (decide (f = g)) as [<-|Hne].
    + rewrite lookup_insert_eq in Hg. injection Hg as <-. simpl. rewrite Hz. split; [lia|]. split; [done|]. split; [constructor|]. split.
      * intros d. split; [by intros ?%not_elem_of_nil|]. destruct (decide (d = c)) as [->|Hd]; [by rewrite lookup_insert_eq|].
         rewrite lookup_insert_ne by done. intros E. by apply Hnw in E.
      * split; [done|]. split; [done|]. exists k, c. apply lookup_insert_eq.
    + rewrite lookup_insert_ne in Hg by done. destruct (ok_flight s O g gl Hg) as (G1 & G2 & G3 & G4 & G5).
      split; [lia|]. split; [done|]. split; [done|]. split.
      * intros d. rewrite G4. destruct (decide (d = c)) as [->|Hd]; [rewrite lookup_insert_eq, Hc; naive_solver|by rewrite lookup_insert_ne].
      * destruct (done_ gl); [done|]. destruct G5 as (? & ? & k' & d & Hd). split; [done|]. split; [done|]. exists k', d.
         rewrite lookup_insert_ne; [done|]. intros ->. congruence.
  - intros d k' g Hd. destruct (decide (d = c)) as [->|Hdc].
    + rewrite lookup_insert_eq in Hd. injection Hd as <- <-. rewrite lookup_insert_eq. split; [done|]. eexists. by rewrite lookup_insert_eq.
    + rewrite lookup_insert_ne in Hd by done. destruct (ok_lead s O d k' g Hd) as (H1 & gl & H2 & H3).
      split; [rewrite lookup_insert_ne; [done|congruence]|]. exists gl. rewrite lookup_insert_ne; [done|congruence].
  - intros k' g Hg. destruct (decide (k = k')) as [<-|Hne].
    + rewrite lookup_insert_eq in Hg. injection Hg as <-. exists c. apply lookup_insert_eq.
    + rewrite lookup_insert_ne in Hg by done. destruct (ok_key s O k' g Hg) as [d Hd]. exists d. rewrite lookup_insert_ne; [done|]. intros ->. congruence.
  - intros d d' k1 k2 g H1 H2. destruct (decide (d = c)) as [->|D1], (decide (d' = c)) as [->|D2]; [done| | |].
    + rewrite lookup_insert_eq in H1. injection H1 as _ <-. rewrite lookup_insert_ne in H2 by done. by apply Hnl in H2.
    + rewrite lookup_insert_eq in H2. injection H2 as _ <-. rewrite lookup_insert_ne in H1 by done. by apply Hnl in H1.
    + rewrite lookup_insert_ne in H1, H2 by done. exact (ok_one s O _ _ _ _ _ H1 H2).
  - intros d g b Hd. destruct (decide (d = c)) as [->|Hdc]; [by rewrite lookup_insert_eq in Hd|]. rewrite lookup_insert_ne in Hd by done.
    destruct (ok_wait s O d g b Hd) as [gl E]. exists gl. rewrite lookup_insert_ne; [done|congruence].
Qed.

Lemma flight_run_ok c k s s' : sf_ok s -> callers s !! c = None -> (forall f, Z.of_nat (cnt (callers s) f) + 1 < 2 ^ 32) -> run c k s = Some s' -> sf_ok s'.
Proof.
  intros O Hc Hb. unfold run. destruct (in_flight_ s !! k) as [f|] eqn:Ek.
  - destruct (flights s !! f) as [fl|] eqn:Ef; [|done]. intros [= <-]. by apply (join_ok c k).
  - intros [= <-]. by apply lead_ok.
Qed.

(** A caller that has no part in any flight. *)
Definition idle (x : option caller_t) : Prop := match x with None | Some (Returned _) => True | _ => False end.

(** The leader leaves its flight, which lands. *)
Lemma finish_ok s c k f fl fl' cs' rd' :
  sf_ok s -> callers s !! c = Some (Leading k f) -> flights s !! f = Some fl -> waiters fl' = waiters fl -> waiter_n fl' = waiter_n fl ->
  idle (cs' !! c) -> (forall d, d <> c -> cs' !! d = wake_all f (waiters fl) (callers s) !! d) -> (forall g, cnt cs' g = cnt (callers s) g) ->
  sf_ok (mk_sf (delete k (in_flight_ s))
    (if waiter_n fl' =? 0 then delete f (flights s) else <[f := mk_flight (result fl') (err fl') [] (waiter_n fl') true]> (flights s)) cs' rd' (fresh s)).
Proof.
  intros O Hc Ef Ew En Hi Hd Hn. destruct (ok_flight s O f fl Ef) as (F1 & F2 & F3 & F4 & _).
  assert (Hlead : forall d k' g, cs' !! d = Some (Leading k' g) <-> callers s !! d = Some (Leading k' g) /\ d <> c).
  { intros d k' g. destruct (decide (d = c)) as [->|Hne]; [split; [intros E; rewrite E in Hi; done|by intros [_ ?]]|].
    rewrite Hd, wake_all_lookup by done. destruct (decide (d ∈ waiters fl)) as [Hw|]; [apply F4 in Hw; rewrite Hw; naive_solver|naive_solver]. }
  assert (Hwait : forall d g b, cs' !! d = Some (Waiting g b) -> exists b', callers s !! d = Some (Waiting g b')).
  { intros d g b E. destruct (decide (d = c)) as [->|Hne]; [by rewrite E in Hi|]. rewrite Hd, wake_all_lookup in E by done.
    destruct (decide (d ∈ waiters fl)) as [Hw|]; [apply F4 in Hw; injection E as <- <-; by eexists|by eexists]. }
  assert (Hlinked : forall d g, cs' !! d = Some (Waiting g true) <-> callers s !! d = Some (Waiting g true) /\ g <> f).
  { intros d g. destruct (decide (d = c)) as [->|Hne]; [rewrite Hc; split; [intros E; by rewrite E in Hi|by intros [? _]]|].
    rewrite Hd, wake_all_lookup by done. destruct (decide (d ∈ waiters fl)) as [Hw|Hw]; [apply F4 in Hw; rewrite Hw; naive_solver|].
    split; [|by intros [? _]]. intros E. split; [done|]. intros ->. by apply Hw, F4. }
  match goal with |- sf_ok (mk_sf _ ?x _ _ _) => set (fs := x) end.
  assert (Hfs : forall g, g <> f -> fs !! g = flights s !! g).
  { intros g Hg. subst fs. destruct (_ =? 0); [by rewrite lookup_delete_ne|by rewrite lookup_insert_ne]. }
  split; simpl.
  - intros g gl Hg. rewrite Hn. destruct (decide (g = f)) as [->|Hne].
    + subst fs. destruct (Z.eqb_spec (waiter_n fl') 0) as [E0|E0]; [by rewrite lookup_delete_eq in Hg|]. rewrite lookup_insert_eq in Hg. injection Hg as <-. simpl.
      split; [done|]. split; [by rewrite En|]. split; [constructor|]. split; [|rewrite En, F2 in *; lia].
      intros d. rewrite Hlinked. split; [by intros ?%not_elem_of_nil|naive_solver].
    + rewrite Hfs in Hg by done. destruct (ok_flight s O g gl Hg) as (G1 & G2 & G3 & G4 & G5). split; [done|]. split; [done|]. split; [done|]. split.
      * intros d. rewrite G4, Hlinked. naive_solver.
      * destruct (done_ gl); [done|]. destruct G5 as (? & ? & k' & d & E). split; [done|]. split; [done|]. exists k', d. apply Hlead. split; [done|].
        intros ->. rewrite Hc in E. by injection E as _ ->.
  - intros d k' g E. apply Hlead in E as [E Hdc]. destruct (ok_lead s O d k' g E) as (H1 & gl & H2 & H3).
    assert (g <> f) by (intros ->; apply Hdc; exact (ok_one s O _ _ _ _ _ E Hc)). split; [|exists gl; by rewrite Hfs].
    rewrite lookup_delete_ne; [done|]. intros <-. destruct (ok_lead s O c k f Hc) as [H4 _]. congruence.
  - intros k' g E. apply lookup_delete_Some in E as [Hk E]. destruct (ok_key s O k' g E) as [d Hd']. exists d. apply Hlead. split; [done|].
    intros ->. rewrite Hc in Hd'. by injection Hd' as -> _.
  - intros d d' k1 k2 g H1 H2. apply Hlead in H1 as [H1 _]. apply Hlead in H2 as [H2 _]. exact (ok_one s O _ _ _ _ _ H1 H2).
  - intros d g b E. destruct (Hwait d g b E) as [b' E']. destruct (decide (g = f)) as [->|Hne]; [|rewrite Hfs by done; by eapply (ok_wait s O)].
    subst fs. destruct (Z.eqb_spec (waiter_n fl') 0) as [E0|]; [|rewrite lookup_insert_eq; by eexists].
    exfalso. rewrite En, F2 in E0. apply (cnt_zero (callers s) f d b'); [lia|done].
Qed.

Lemma filter_absent (c : Z) (l : list Z) : c ∉ l -> filter (fun x => x <> c) l = l.
Proof.
  induction l as [|x l IH]; intros H; [done|]. apply not_elem_of_cons in H as [H1 H2]. rewrite filter_cons_True by congruence. by rewrite IH.
Qed.

(** A follower leaves its flight. *)
Lemma leave_ok s c f b fl cs' rd' :
  sf_ok s -> callers s !! c = Some (Waiting f b) -> flights s !! f = Some fl ->
  idle (cs' !! c) -> (forall d, d <> c -> cs' !! d = callers s !! d) -> (forall g, (one (bool_decide (f = g)) + cnt cs' g)%nat = cnt (callers s) g) ->
  let n := u32 (waiter_n fl - 1) in
  sf_ok (mk_sf (in_flight_ s)
    (if (n =? 0) && done_ fl then delete f (flights s) else <[f := mk_flight (result fl) (err fl) (filter (fun x => x <> c) (waiters fl)) n (done_ fl)]> (flights s))
    cs' rd' (fresh s)) \/ 2 ^ 32 <= waiter_n fl.
Proof.
  intros O Hc Ef Hi Hd Hn n. destruct (ok_flight s O f fl Ef) as (F1 & F2 & F3 & F4 & F5).
  destruct (Z.leb_spec (2 ^ 32) (waiter_n fl)) as [|Hb]; [by right|left].
  assert (Hcf : (1 <= cnt (callers s) f)%nat) by (rewrite <- Hn, bool_decide_true by done; simpl; lia).
  assert (En : n = Z.of_nat (cnt cs' f)). { subst n. specialize (Hn f). rewrite bool_decide_true in Hn by done. simpl in Hn. rewrite u32_small; lia. }
  assert (Hlead : forall d k' g, cs' !! d = Some (Leading k' g) <-> callers s !! d = Some (Leading k' g)).
  { intros d k' g. destruct (decide (d = c)) as [->|Hne]; [rewrite Hc; split; [intros E; by rewrite E in Hi|done]|by rewrite Hd]. }
  assert (Hwait : forall d g b', cs' !! d = Some (Waiting g b') <-> callers s !! d = Some (Waiting g b') /\ d <> c).
  { intros d g b'. destruct (decide (d = c)) as [->|Hne]; [split; [intros E; by rewrite E in Hi|by intros [_ ?]]|rewrite Hd by done; naive_solver]. }
  match goal with |- sf_ok (mk_sf _ ?x _ _ _) => set (fs := x) end.
  assert (Hfs : forall g, g <> f -> fs !! g = flights s !! g).
  { intros g Hg. subst fs. destruct (_ && _); [by rewrite lookup_delete_ne|by rewrite lookup_insert_ne]. }
  split; simpl.
  - intros g gl Hg. destruct (decide (g = f)) as [->|Hne].
    + subst fs. destruct (_ && _) eqn:E0; [by rewrite lookup_delete_eq in Hg|]. rewrite lookup_insert_eq in Hg. injection Hg as <-. simpl.
      split; [done|]. split; [done|]. split; [by apply NoDup_filter|]. split.
      * intros d. rewrite list_elem_of_filter, F4, Hwait. naive_solver.
      * destruct (done_ fl); [rewrite andb_true_r in E0; apply Z.eqb_neq in E0; lia|]. destruct F5 as (? & ? & k' & d & E). split; [done|]. split; [done|].
        exists k', d. by apply Hlead.
    + rewrite Hfs in Hg by done. destruct (ok_flight s O g gl Hg) as (G1 & G2 & G3 & G4 & G5).
      specialize (Hn g). rewrite bool_decide_false in Hn by congruence. simpl in Hn. rewrite Hn. split; [done|]. split; [done|]. split; [done|]. split.
      * intros d. rewrite G4, Hwait. split; [|by intros [? _]]. intros E. split; [done|]. intros ->. congruence.
      * destruct (done_ gl); [done|]. destruct G5 as (? & ? & k' & d & E). split; [done|]. split; [done|]. exists k', d. by apply Hlead.
  - intros d k' g E. apply Hlead in E. destruct (ok_lead s O d k' g E) as (H1 & gl & H2 & H3). split; [done|].
    destruct (decide (g = f)) as [->|Hne]; [|exists gl; by rewrite Hfs]. rewrite Ef in H2. injection H2 as <-. subst fs. rewrite H3, andb_false_r.
    rewrite lookup_insert_eq. by eexists.
  - intros k' g E. destruct (ok_key s O k' g E) as [d Hd']. exists d. by apply Hlead.
  - intros d d' k1 k2 g H1 H2. apply Hlead in H1. apply Hlead in H2. exact (ok_one s O _ _ _ _ _ H1 H2).
  - intros d g b' E. destruct (decide (g = f)) as [->|Hne]; [|rewrite Hfs by done; apply Hwait in E as [E _]; by eapply (ok_wait s O)].
    subst fs. destruct (_ && _) eqn:E0; [|rewrite lookup_insert_eq; by eexists]. apply andb_true_iff in E0 as [E0 _]. apply Z.eqb_eq in E0.
    exfalso. rewrite En in E0. apply (cnt_zero cs' f d b'); [lia|done].
Qed.

(** ** Any use *)

(** What the followers of a flight that landed with [r] are to get. *)
Definition shared (r : expected (option V)) : expected (option V) :=
  match r with Ok v => Ok v | Unexpected e => if code e =? 0 then Ok None else Unexpected e end.

(** Callers arrive, leaders land or die, followers resume or die, in any
    order; [outs] records how each flight landed.  No flight has 2^32
    followers. *)
Inductive reach : singleflight_t -> gmap Z (expected (option V)) -> Prop :=
| q_init : reach empty_sf ∅
| q_run s outs c k s' : reach s outs -> callers s !! c = None -> (forall f, Z.of_nat (cnt (callers s) f) + 1 < 2 ^ 32) -> run c k s = Some s' -> reach s' outs
| q_land s outs c k f r s' : reach s outs -> callers s !! c = Some (Leading k f) -> land c r s = Some s' -> reach s' (<[f := shared r]> outs)
| q_leader_dies s outs c k f s' : reach s outs -> callers s !! c = Some (Leading k f) -> leader_dies c s = Some s' ->
    reach s' (<[f := Unexpected (system_error EOWNERDEAD)]> outs)
| q_resume s outs c s' : reach s outs -> follower_resumes c s = Some s' -> reach s' outs
| q_follower_dies s outs c s' : reach s outs -> follower_dies c s = Some s' -> reach s' outs.

Record good s (outs : gmap Z (expected (option V))) : Prop := {
  g_ok : sf_ok s;
  g_bound : forall f, Z.of_nat (cnt (callers s) f) < 2 ^ 32;
  g_woken : forall c f b fl, callers s !! c = Some (Waiting f b) -> flights s !! f = Some fl -> done_ fl = negb b;
  g_outs : forall f fl, flights s !! f = Some fl -> done_ fl = true -> outs !! f = Some (await_resume fl);
  g_ready : forall c, c ∈ ready s <-> exists f, callers s !! c = Some (Waiting f false)
}.

Lemma run_good s outs c k s' :
  good s outs -> callers s !! c = None -> (forall f, Z.of_nat (cnt (callers s) f) + 1 < 2 ^ 32) -> run c k s = Some s' -> good s' outs.
Proof.
  intros [O B W U Q] Hc Hb Hr. split; [by eapply flight_run_ok| | | |]; unfold run in Hr; destruct (in_flight_ s !! k) as [f|] eqn:Ek.
  all: try (destruct (flights s !! f) as [fl|] eqn:Ef; [|done]); injection Hr as <-; simpl.
  - intros g. rewrite cnt_insert by done. specialize (Hb g). unfold one. destruct (follows _ _); lia.
  - intros g. rewrite cnt_insert by done. specialize (Hb g). unfold one. destruct (follows _ _); lia.
  - intros d g b gl Hd Hg. destruct (decide (d = c)) as [->|Hne].
    { rewrite lookup_insert_eq in Hd. injection Hd as <- <-. rewrite lookup_insert_eq in Hg. injection Hg as <-. simpl.
      destruct (ok_key s O k f Ek) as [e He]. destruct (ok_lead s O e k f He) as (_ & fl0 & E0 & D). congruence. }
    rewrite lookup_insert_ne in Hd by done. destruct (decide (f = g)) as [<-|Hfg].
    + rewrite lookup_insert_eq in Hg. injection Hg as <-. exact (W d f b fl Hd Ef).
    + rewrite lookup_insert_ne in Hg by done. by apply (W d g).
  - intros d g b gl Hd Hg. destruct (decide (d = c)) as [->|Hne]; [by rewrite lookup_insert_eq in Hd|]. rewrite lookup_insert_ne in Hd by done.
    destruct (ok_wait s O d g b Hd) as [g0 E]. destruct (ok_flight s O g g0 E) as (Hlt & _). rewrite lookup_insert_ne in Hg by lia. by apply (W d g).
  - intros g gl Hg Hdone. destruct (decide (f = g)) as [<-|Hfg].
    + rewrite lookup_insert_eq in Hg. injection Hg as <-. exact (U f fl Ef Hdone).
    + rewrite lookup_insert_ne in Hg by done. by apply U.
  - intros g gl Hg Hdone. destruct (decide (fresh s = g)) as [<-|Hfg]; [rewrite lookup_insert_eq in Hg; by injection Hg as <-|].
    rewrite lookup_insert_ne in Hg by done. by apply U.
  - intros d. rewrite Q. destruct (decide (d = c)) as [->|Hne]; [rewrite lookup_insert_eq, Hc; naive_solver|by rewrite lookup_insert_ne].
  - intros d. rewrite Q. destruct (decide (d = c)) as [->|Hne]; [rewrite lookup_insert_eq, Hc; naive_solver|by rewrite lookup_insert_ne].
Qed.

(** The flight of a leader lands with the contents of [fl']. *)
Lemma finish_good s outs c k f fl fl' cs' rd' :
  good s outs -> callers s !! c = Some (Leading k f) -> flights s !! f = Some fl -> waiters fl' = waiters fl -> waiter_n fl' = waiter_n fl ->
  idle (cs' !! c) -> (forall d, d <> c -> cs' !! d = wake_all f (waiters fl) (callers s) !! d) -> (forall g, cnt cs' g = cnt (callers s) g) ->
  (forall d, d ∈ rd' <-> d <> c /\ (d ∈ ready s \/ d ∈ waiters fl)) ->
  good (mk_sf (delete k (in_flight_ s))
    (if waiter_n fl' =? 0 then delete f (flights s) else <[f := mk_flight (result fl') (err fl') [] (waiter_n fl') true]> (flights s)) cs' rd' (fresh s))
    (<[f := await_resume fl']> outs).
Proof.
  intros [O B W U Q] Hc Ef Ew En Hi Hd Hn Hrd. split; simpl.
  - by eapply finish_ok.
  - intros g. by rewrite Hn.
  - intros d g b gl E Hg. destruct (decide (d = c)) as [->|Hne]; [by rewrite E in Hi|]. rewrite Hd, wake_all_lookup in E by done.
    destruct (decide (g = f)) as [->|Hgf].
    + destruct (_ =? 0); [by rewrite lookup_delete_eq in Hg|]. rewrite lookup_insert_eq in Hg. injection Hg as <-. simpl.
      destruct (decide (d ∈ waiters fl)) as [|Hw]; [by injection E as <-|]. destruct b; [|done]. by apply (ok_flight s O f fl Ef) in E.
    + destruct (decide (d ∈ waiters fl)); [congruence|]. apply (W d g); [done|]. destruct (_ =? 0); [by rewrite lookup_delete_ne in Hg|by rewrite lookup_insert_ne in Hg].
  - intros g gl Hg Hdone. destruct (decide (f = g)) as [<-|Hgf].
    + rewrite lookup_insert_eq. destruct (_ =? 0); [by rewrite lookup_delete_eq in Hg|]. rewrite lookup_insert_eq in Hg. by injection Hg as <-.
    + rewrite lookup_insert_ne by done. apply U; [|done]. destruct (_ =? 0); [by rewrite lookup_delete_ne in Hg|by rewrite lookup_insert_ne in Hg].
  - intros d. rewrite Hrd. destruct (decide (d = c)) as [->|Hne]; [split; [by intros []|intros [g E]; by rewrite E in Hi]|].
    rewrite Hd, wake_all_lookup, Q by done. destruct (decide (d ∈ waiters fl)); naive_solver.
Qed.

(** The callers after the leader [c] left, as [x] or not at all. *)
Lemma left_cnt s c k f fl g x : sf_ok s -> callers s !! c = Some (Leading k f) -> flights s !! f = Some fl ->
  cnt (<[c := Returned x]> (wake_all f (waiters fl) (callers s))) g = cnt (callers s) g /\
  cnt (delete c (wake_all f (waiters fl) (callers s))) g = cnt (callers s) g.
Proof.
  intros O Hc Ef. destruct (ok_flight s O f fl Ef) as (_ & _ & _ & F4 & _).
  assert (Ec : wake_all f (waiters fl) (callers s) !! c = Some (Leading k f)).
  { rewrite wake_all_lookup. destruct (decide (c ∈ waiters fl)) as [Hw|]; [|done]. apply F4 in Hw. congruence. }
  assert (Ea : cnt (wake_all f (waiters fl) (callers s)) g = cnt (callers s) g) by (apply wake_all_cnt; intros w; apply F4).
  pose proof (cnt_replace _ c _ (Returned x) g Ec) as C1. pose proof (cnt_delete _ c _ g Ec) as C2. simpl in C1, C2. lia.
Qed.

Lemma leader_absent s outs c k f fl : good s outs -> callers s !! c = Some (Leading k f) -> flights s !! f = Some fl -> ~ (c ∈ ready s \/ c ∈ waiters fl).
Proof.
  intros G Hc Ef. destruct (ok_flight s (g_ok _ _ G) f fl Ef) as (_ & _ & _ & F4 & _). rewrite (g_ready _ _ G), F4. intros [[g E]|E]; congruence.
Qed.

Lemma land_good s outs c k f r s' : good s outs -> callers s !! c = Some (Leading k f) -> land c r s = Some s' -> good s' (<[f := shared r]> outs).
Proof.
  intros G Hc. pose proof (g_ok _ _ G) as O. unfold land. rewrite Hc. destruct (flights s !! f) as [fl|] eqn:Ef; [|done]. intros [= <-].
  destruct (ok_lead s O c k f Hc) as (_ & fl0 & E0 & D0). rewrite Ef in E0. injection E0 as <-.
  destruct (ok_flight s O f fl Ef) as (_ & _ & _ & _ & F5). rewrite D0 in F5. destruct F5 as (R & E & _).
  set (fl' := match r with Ok v => _ | Unexpected e => _ end).
  assert (A : waiters fl' = waiters fl /\ waiter_n fl' = waiter_n fl /\ shared r = await_resume fl').
  { subst fl'. destruct r; simpl; (split; [done|]); (split; [done|]); unfold await_resume; simpl; [by rewrite E|by rewrite R]. }
  destruct A as (A1 & A2 & ->). unfold leader_finish, set_caller. simpl. rewrite A1.
  eapply finish_good; try done.
  - by rewrite lookup_insert_eq.
  - intros d Hd. by rewrite lookup_insert_ne.
  - intros g. by apply (left_cnt s c k f fl g r).
  - intros d. rewrite elem_of_app. split; [|by intros [_ ?]]. intros Hd. split; [|done]. intros ->. exact (leader_absent s outs c k f fl G Hc Ef Hd).
Qed.

Lemma leader_dies_good s outs c k f s' : good s outs -> callers s !! c = Some (Leading k f) -> leader_dies c s = Some s' ->
  good s' (<[f := Unexpected (system_error EOWNERDEAD)]> outs).
Proof.
  intros G Hc. pose proof (g_ok _ _ G) as O. unfold leader_dies. rewrite Hc. destruct (flights s !! f) as [fl|] eqn:Ef; [|done]. intros [= <-].
  unfold leader_finish, drop_caller. simpl.
  apply (finish_good s outs c k f fl (mk_flight (result fl) (system_error EOWNERDEAD) (waiters fl) (waiter_n fl) (done_ fl))); try done.
  - by rewrite lookup_delete_eq.
  - intros d Hd. by rewrite lookup_delete_ne.
  - intros g. by apply (left_cnt s c k f fl g (Ok None)).
  - intros d. by rewrite list_elem_of_filter, elem_of_app.
Qed.

Lemma leave_good s outs c f b fl cs' rd' :
  good s outs -> callers s !! c = Some (Waiting f b) -> flights s !! f = Some fl ->
  idle (cs' !! c) -> (forall d, d <> c -> cs' !! d = callers s !! d) -> (forall g, (one (bool_decide (f = g)) + cnt cs' g)%nat = cnt (callers s) g) ->
  (forall d, d ∈ rd' <-> d <> c /\ d ∈ ready s) ->
  let n := u32 (waiter_n fl - 1) in
  good (mk_sf (in_flight_ s)
    (if (n =? 0) && done_ fl then delete f (flights s) else <[f := mk_flight (result fl) (err fl) (filter (fun x => x <> c) (waiters fl)) n (done_ fl)]> (flights s))
    cs' rd' (fresh s)) outs.
Proof.
  intros [O B W U Q] Hc Ef Hi Hd Hn Hrd n.
  assert (Hold : forall g gl, (if (n =? 0) && done_ fl then delete f (flights s) else <[f := mk_flight (result fl) (err fl) (filter (fun x => x <> c) (waiters fl)) n (done_ fl)]> (flights s)) !! g = Some gl ->
    exists g0, flights s !! g = Some g0 /\ done_ gl = done_ g0 /\ await_resume gl = await_resume g0).
  { intros g gl Hg. destruct (decide (f = g)) as [<-|Hne].
    - destruct (_ && _); [by rewrite lookup_delete_eq in Hg|]. rewrite lookup_insert_eq in Hg. injection Hg as <-. by exists fl.
    - exists gl. destruct (_ && _); [rewrite lookup_delete_ne in Hg by done|rewrite lookup_insert_ne in Hg by done]; done. }
  split; simpl.
  - destruct (leave_ok s c f b fl cs' rd' O Hc Ef Hi Hd Hn) as [H|H]; [done|]. destruct (ok_flight s O f fl Ef) as (_ & F2 & _). specialize (B f). lia.
  - intros g. specialize (B g). rewrite <- Hn in B. lia.
  - intros d g b' gl E Hg. destruct (Hold g gl Hg) as (g0 & E0 & -> & _). destruct (decide (d = c)) as [->|Hne]; [by rewrite E in Hi|].
    rewrite Hd in E by done. by apply (W d g).
  - intros g gl Hg Hdone. destruct (Hold g gl Hg) as (g0 & E0 & D0 & ->). apply U; [done|congruence].
  - intros d. rewrite Hrd, Q. destruct (decide (d = c)) as [->|Hne]; [split; [by intros []|intros [g E]; by rewrite E in Hi]|]. rewrite Hd by done. naive_solver.
Qed.

Lemma waiting_linked s c f b fl : sf_ok s -> callers s !! c = Some (Waiting f b) -> flights s !! f = Some fl -> b = false ->
  filter (fun x => x <> c) (waiters fl) = waiters fl.
Proof. intros O Hc Ef ->. destruct (ok_flight s O f fl Ef) as (_ & _ & _ & F4 & _). apply filter_absent. rewrite F4. congruence. Qed.

Lemma resume_good s outs c s' : good s outs -> follower_resumes c s = Some s' -> good s' outs.
Proof.
  intros G. unfold follower_resumes, release_waiter. destruct (callers s !! c) as [[|f []|]|] eqn:Hc; try done.
  destruct (flights s !! f) as [fl|] eqn:Ef; [|done]. intros [= <-].
  pose proof (leave_good s outs c f false fl (<[c := Returned (await_resume fl)]> (callers s)) (filter (fun x => x <> c) (ready s)) G Hc Ef) as H.
  rewrite (waiting_linked s c f false fl (g_ok _ _ G) Hc Ef eq_refl) in H.
  unfold set_caller, set_flight. simpl. cbv zeta in H. destruct (_ && _); apply H.
  all: try (by rewrite lookup_insert_eq); try (intros d Hd; by rewrite lookup_insert_ne).
  all: try (intros d; by rewrite list_elem_of_filter).
  all: intros g; pose proof (cnt_replace _ c _ (Returned (await_resume fl)) g Hc) as C; simpl in C; lia.
Qed.

Lemma follower_dies_good s outs c s' : good s outs -> follower_dies c s = Some s' -> good s' outs.
Proof.
  intros G. unfold follower_dies, unlink_waiter, release_waiter. destruct (callers s !! c) as [[|f b|]|] eqn:Hc; try done.
  assert (Hcnt : forall g, (one (bool_decide (f = g)) + cnt (delete c (callers s)) g)%nat = cnt (callers s) g) by (intros g; exact (cnt_delete _ c _ g Hc)).
  assert (L : forall fl, flights s !! f = Some fl -> let n := u32 (waiter_n fl - 1) in
    good (mk_sf (in_flight_ s) (if (n =? 0) && done_ fl then delete f (flights s) else <[f := mk_flight (result fl) (err fl) (filter (fun x => x <> c) (waiters fl)) n (done_ fl)]> (flights s))
      (delete c (callers s)) (filter (fun x => x <> c) (ready s)) (fresh s)) outs).
  { intros fl Ef. apply (leave_good s outs c f b fl); try done; [by rewrite lookup_delete_eq|intros d Hd; by rewrite lookup_delete_ne|intros d; by rewrite list_elem_of_filter]. }
  destruct b.
  - destruct (flights s !! f) as [fl|] eqn:Ef; [|done]. simpl. rewrite lookup_insert_eq. intros [= <-]. specialize (L fl eq_refl). cbv zeta in L.
    unfold drop_caller, set_flight. simpl. destruct (_ && _); simpl in *; [by rewrite delete_insert_eq|by rewrite insert_insert_eq].
  - destruct (flights s !! f) as [fl|] eqn:Ef; [|done]. intros [= <-]. specialize (L fl eq_refl). cbv zeta in L.
    rewrite (waiting_linked s c f false fl (g_ok _ _ G) Hc Ef eq_refl) in L. unfold drop_caller, set_flight. simpl. destruct (_ && _); done.
Qed.

Lemma reach_good s outs : reach s outs -> good s outs.
Proof.
  induction 1 as [|s outs c k s' R IH Hc Hb Hr|s outs c k f r s' R IH Hc Hl|s outs c k f s' R IH Hc Hl|s outs c s' R IH Hl|s outs c s' R IH Hl].
  - split; [split|..]; simpl; intros; try (exfalso; match goal with H : ∅ !! _ = Some _ |- _ => by rewrite lookup_empty in H end).
    + rewrite cnt_none; [done|]. intros d b. by rewrite lookup_empty.
    + split; [by intros ?%not_elem_of_nil|intros [f E]; by rewrite lookup_empty in E].
  - by eapply run_good.
  - by eapply land_good.
  - by eapply leader_dies_good.
  - by eapply resume_good.
  - by eapply follower_dies_good.
Qed.

(** A flight object exists exactly as long as a caller uses it. *)
Lemma reached_flight s f : sf_ok s -> is_Some (flights s !! f) <-> exists c, (exists k, callers s !! c = Some (Leading k f)) \/ exists b, callers s !! c = Some (Waiting f b).
Proof.
  intros O. split.
  - intros [fl E]. destruct (ok_flight s O f fl E) as (_ & F2 & _ & _ & F5). destruct (done_ fl).
    + destruct (cnt_some (callers s) f) as (c & b & H); [lia|]. exists c. right. by exists b.
    + destruct F5 as (_ & _ & k & c & H). exists c. left. by exists k.
  - intros [c [[k H]|[b H]]]; [destruct (ok_lead s O c k f H) as (_ & fl & E & _); by exists fl|by eapply (ok_wait s O)].
Qed.

(** in any interleaving of callers arriving, leaders landing or dying,
    and followers resuming or dying, no operation of [singleflight_t] touches
    a deleted flight; a key has at most one leader; a flight object exists
    exactly as long as a caller leads or follows it; a follower still parked
    has a live leader and a woken one is in the ready queue; and a follower
    that resumes returns what its flight landed with ([EOWNERDEAD] if the
    leader died). *)
Theorem singleflight_sound s outs : reach s outs ->
  (forall c k, callers s !! c = None -> is_Some (run c k s)) /\
  (forall c k f, callers s !! c = Some (Leading k f) -> in_flight_ s !! k = Some f /\ (forall r, is_Some (land c r s)) /\ is_Some (leader_dies c s)) /\
  (forall c c' k f f', callers s !! c = Some (Leading k f) -> callers s !! c' = Some (Leading k f') -> c = c' /\ f = f') /\
  (forall f, is_Some (flights s !! f) <-> exists c, (exists k, callers s !! c = Some (Leading k f)) \/ exists b, callers s !! c = Some (Waiting f b)) /\
  (forall c f b, callers s !! c = Some (Waiting f b) -> is_Some (follower_dies c s)) /\
  (forall c f, callers s !! c = Some (Waiting f true) -> exists d k, callers s !! d = Some (Leading k f)) /\
  (forall c f, callers s !! c = Some (Waiting f false) -> c ∈ ready s /\
    exists s' r, follower_resumes c s = Some s' /\ callers s' !! c = Some (Returned r) /\ outs !! f = Some r).
Proof.
  intros R. apply reach_good in R. destruct R as [O B W U Q]. split_and!.
  - intros c k Hc. unfold run. destruct (in_flight_ s !! k) as [f|] eqn:Ek; [|done]. destruct (ok_key s O k f Ek) as [d Hd].
    destruct (ok_lead s O d k f Hd) as (_ & fl & -> & _). done.
  - intros c k f Hc. destruct (ok_lead s O c k f Hc) as (Hk & fl & E & _). split; [done|]. unfold land, leader_dies. rewrite Hc, E. done.
  - intros c c' k f f' H1 H2. destruct (ok_lead s O _ _ _ H1) as [K1 _], (ok_lead s O _ _ _ H2) as [K2 _].
    assert (f = f') as <- by congruence. split; [exact (ok_one s O _ _ _ _ _ H1 H2)|done].
  - intros f. by apply reached_flight.
  - intros c f b Hc. destruct (ok_wait s O c f b Hc) as [fl E]. unfold follower_dies, unlink_waiter, release_waiter. rewrite Hc, E.
    destruct b; simpl; [rewrite lookup_insert_eq|rewrite E]; by eexists.
  - intros c f Hc. destruct (ok_wait s O c f true Hc) as [fl E]. destruct (ok_flight s O f fl E) as (_ & _ & _ & F4 & F5).
    rewrite (W c f true fl Hc E) in F5. destruct F5 as (_ & _ & k & d & H). by exists d, k.
  - intros c f Hc. split; [apply Q; by exists f|]. destruct (ok_wait s O c f false Hc) as [fl E]. unfold follower_resumes, release_waiter. rewrite Hc, E.
    eexists _, _. split; [done|]. simpl. rewrite lookup_insert_eq. split; [done|]. apply U; [done|]. by rewrite (W c f false fl Hc E).
Qed.
End Singleflight.

(** ** A concrete use *)

(** Two callers for key 7 while the first leads, then the first lands with
    42, and a third caller opens a new flight. *)
Definition landed : option (@singleflight_t Z _ _ Z) :=
  s ← run 1 7 empty_sf; s ← run 2 7 s; s ← land 1 (Ok (Some 42)) s; run 3 7 s.

Lemma landed_reach : match landed with Some s => reach s {[0 := Ok (Some 42)]} | None => False end.
Proof.
  assert (B : forall (cs : gmap Z (@caller_t Z Z)), (base.size cs < 10)%nat -> forall f, Z.of_nat (cnt cs f) + 1 < 2 ^ 32).
  { intros cs Hs f. pose proof (count_le (follows f) cs). unfold cnt. lia. }
  assert (L : forall (o : option (@singleflight_t Z _ _ Z)), match o with Some _ => true | None => false end = true -> o = Some (default empty_sf o)).
  { by intros [|]. }
  set (s1 := default empty_sf (run 1 7 empty_sf : option (@singleflight_t Z _ _ Z))). set (s2 := default empty_sf (run 2 7 s1)).
  set (s3 := default empty_sf (land 1 (Ok (Some 42)) s2)). set (s4 := default empty_sf (run 3 7 s3)).
  assert (R1 : reach s1 ∅) by (apply (q_run empty_sf ∅ 1 7); [apply q_init|vm_compute; done|apply B; vm_compute; lia|apply L; vm_compute; done]).
  assert (R2 : reach s2 ∅) by (apply (q_run s1 ∅ 2 7); [done|vm_compute; done|apply B; vm_compute; lia|apply L; vm_compute; done]).
  assert (R3 : reach s3 {[0 := Ok (Some 42)]}) by (apply (q_land s2 ∅ 1 7 0 (Ok (Some 42))); [done|vm_compute; done|apply L; vm_compute; done]).
  assert (R4 : reach s4 {[0 := Ok (Some 42)]}) by (apply (q_run s3 _ 3 7); [done|vm_compute; done|apply B; vm_compute; lia|apply L; vm_compute; done]).
  assert (E : landed = Some s4) by (vm_compute; reflexivity). by rewrite E.
Qed.

Lemma singleflight_sound_witness :
  match landed with
  | Some s => callers s !! 2 = Some (Waiting 0 false) /\ 2 ∈ ready s /\
      exists s', follower_resumes 2 s = Some s' /\ callers s' !! 2 = Some (Returned (Ok (Some 42)))
  | None => False
  end.
Proof.
  pose proof landed_reach as R.
  assert (C : match landed with Some s => callers s !! 2 = Some (Waiting 0 false) | None => False end) by (vm_compute; reflexivity).
  destruct landed as [s|]; [|destruct R]. split; [exact C|].
  destruct (singleflight_sound s _ R) as (_ & _ & _ & _ & _ & _ & H). destruct (H 2 0 C) as (Hr & s' & r & H1 & H2 & H3).
  split; [exact Hr|]. exists s'. split; [exact H1|]. rewrite H2. rewrite lookup_singleton_eq in H3. congruence.
Defined.
