(* ===== verification/IoSlots.v ===== *)
(** * Tokens of operations in flight

    src/include/cornet/io_uring/io_slot.h.  Every operation handed to the
    kernel carries a 64-bit token: the index of a slot and the generation the
    slot had.  A slot freed before its completion arrives has a new generation,
    so the late completion finds nothing, until the 32-bit generation wraps
    around.  [free_list_] keeps its [back()] at the end of the list. *)

From stdpp Require Import prelude gmap list list_numbers fin_maps.
From Stdlib Require Import ZArith Lia.
From S2P Require Import Prelude.
Open Scope Z_scope.

(** ** State *)

Record io_slot_t := mk_slot { slot_task : option Z; generation : Z }.
Definition fresh_slot : io_slot_t := mk_slot None 1.

Definition encode_slot (index gen : Z) : Z := (u64 (gen <<< 32)) ||| index.
Definition decode_slot_index (user_data : Z) : Z := u32 (user_data &&& 0xFFFFFFFF).
Definition decode_slot_generation (user_data : Z) : Z := u32 (user_data >>> 32).

Record io_slot_table_t := mk_table { slots_ : list io_slot_t; free_list_ : list Z }.

Definition slot_count (t : io_slot_table_t) : Z := Z.of_nat (length (slots_ t)).

Definition make_table (capacity : Z) : io_slot_table_t :=
  mk_table (replicate (Z.to_nat capacity) fresh_slot) (seqZ 0 capacity).

(** ** Operations

    [None] is undefined behaviour: [back()] of an empty free list, or an index
    past the slots. *)

Definition resize (n : Z) (l : list io_slot_t) : list io_slot_t := list.resize (Z.to_nat n) fresh_slot l.

Definition grow (t : io_slot_table_t) : io_slot_table_t :=
  let old_size := u32 (slot_count t) in
  let new_size := u32 (old_size * 2) in
  mk_table (resize new_size (slots_ t)) (free_list_ t ++ seqZ old_size (new_size - old_size)).

Definition slot_alloc (task : Z) (t : io_slot_table_t) : option (io_slot_table_t * Z) :=
  let t := match free_list_ t with [] => grow t | _ :: _ => t end in
  match last (free_list_ t) with
  | None => None
  | Some idx =>
      match slots_ t !! Z.to_nat idx with
      | None => None
      | Some slot =>
          Some (mk_table (<[Z.to_nat idx := mk_slot (Some task) (generation slot)]> (slots_ t)) (removelast (free_list_ t)),
                encode_slot idx (generation slot))
      end
  end.

Definition slot_free (user_data : Z) (t : io_slot_table_t) : option io_slot_table_t :=
  let idx := decode_slot_index user_data in
  match slots_ t !! Z.to_nat idx with
  | None => None
  | Some slot => Some (mk_table (<[Z.to_nat idx := mk_slot None (u32 (generation slot + 1))]> (slots_ t)) (free_list_ t ++ [idx]))
  end.

Definition slot_lookup (user_data : Z) (t : io_slot_table_t) : option Z :=
  let idx := decode_slot_index user_data in
  let gen := decode_slot_generation user_data in
  if slot_count t <=? idx then None
  else match slots_ t !! Z.to_nat idx with
       | Some slot => if negb (generation slot =? gen) then None else slot_task slot
       | None => None
       end.

(** The tokens [for_each_active] visits, in order. *)
Definition active (t : io_slot_table_t) : list Z :=
  omap (fun p : nat * io_slot_t => match slot_task p.2 with Some _ => Some (encode_slot (Z.of_nat p.1) (generation p.2)) | None => None end)
    (imap pair (slots_ t)).

(** ** Tokens *)

Definition index_ok (i : Z) : Prop := 0 <= i < 2 ^ 32.

Lemma encode_value i g : index_ok i -> index_ok g -> encode_slot i g = g * 2 ^ 32 + i.
Proof.
  intros Hi Hg. unfold encode_slot, index_ok in *.
  assert (E : u64 (g <<< 32) = g <<< 32). { rewrite Z.shiftl_mul_pow2 by lia. apply u64_small. lia. }
  rewrite E. by apply lor_shiftl_add.
Qed.

Lemma slot_decode_encode i g : index_ok i -> index_ok g -> decode_slot_index (encode_slot i g) = i /\ decode_slot_generation (encode_slot i g) = g.
Proof.
  intros Hi Hg. rewrite encode_value by done. unfold decode_slot_index, decode_slot_generation, u32, index_ok in *.
  change 0xFFFFFFFF with (Z.ones 32). rewrite Z.land_ones, Z.shiftr_div_pow2 by lia.
  rewrite Zmod_mod, Z.add_comm, Z.mod_add, Z.div_add by lia. rewrite (Z.div_small i), !Z.mod_small by lia. lia.
Qed.

(** ** The invariant

    [live] maps the tokens given out and not freed to their operations,
    [dead] holds tokens freed that have not come back, [low] is the least
    generation a slot can have: 1 until one of them wraps, 0 from then on. *)

Record table_inv (low : Z) (t : io_slot_table_t) (live : gmap Z Z) (dead : gset Z) : Prop := {
  t_size : 0 < slot_count t < 2 ^ 32;
  t_gen : forall i s, slots_ t !! i = Some s -> low <= generation s < 2 ^ 32;
  t_free : NoDup (free_list_ t);
  t_idle : forall i, i ∈ free_list_ t <-> 0 <= i /\ exists g, slots_ t !! Z.to_nat i = Some (mk_slot None g);
  t_live : forall d x, live !! d = Some x <->
    exists i g, d = encode_slot (Z.of_nat i) g /\ slots_ t !! i = Some (mk_slot (Some x) g);
  t_dead : forall d, d ∈ dead -> exists i g s, d = encode_slot (Z.of_nat i) g /\ slots_ t !! i = Some s /\ 0 <= g < generation s
}.
Notation table_ok := (table_inv 1).

Section Inv.
Context (low : Z) (Hlow : 0 <= low <= 1).

Lemma t_index t live dead i s : table_inv low t live dead -> slots_ t !! i = Some s -> index_ok (Z.of_nat i) /\ index_ok (generation s).
Proof.
  intros O E. pose proof (t_gen _ _ _ _ O _ _ E). apply lookup_lt_Some in E. pose proof (t_size _ _ _ _ O). unfold slot_count, index_ok in *. lia.
Qed.

Lemma encode_inj t live dead i j s g : table_inv low t live dead -> slots_ t !! i = Some s -> index_ok (Z.of_nat j) -> index_ok g ->
  encode_slot (Z.of_nat i) (generation s) = encode_slot (Z.of_nat j) g -> i = j /\ generation s = g.
Proof.
  intros O E Hj Hg H. destruct (t_index _ _ _ _ _ O E) as [Hi Hs].
  destruct (slot_decode_encode _ _ Hi Hs) as [D1 D2], (slot_decode_encode _ _ Hj Hg) as [D3 D4]. rewrite H in D1, D2. split; [lia|congruence].
Qed.

Lemma make_ok capacity : 0 < capacity < 2 ^ 32 -> table_inv low (make_table capacity) ∅ ∅.
Proof.
  intros Hc. split; unfold make_table, slot_count; simpl.
  - rewrite length_replicate. lia.
  - intros i s [-> _]%lookup_replicate. simpl. lia.
  - apply NoDup_seqZ.
  - intros i. rewrite elem_of_seqZ. split.
    + intros Hi. split; [lia|]. exists 1. apply lookup_replicate. split; [done|lia].
    + intros [Hi [g [_ Hl]%lookup_replicate]]. lia.
  - intros d x. split; [by rewrite lookup_empty|]. intros (i & g & _ & [H _]%lookup_replicate). done.
  - intros d Hd. set_solver.
Qed.

Lemma grow_ok t live dead : table_inv low t live dead -> free_list_ t = [] -> slot_count t < 2 ^ 31 ->
  table_inv low (grow t) live dead /\ free_list_ (grow t) <> [].
Proof.
  intros O Hf Hs. pose proof (t_size _ _ _ _ O) as Hz. unfold grow. rewrite Hf. simpl.
  rewrite (u32_small (slot_count t)), u32_small by lia. unfold resize. set (n := slot_count t) in *.
  assert (El : list.resize (Z.to_nat (n * 2)) fresh_slot (slots_ t) = slots_ t ++ replicate (Z.to_nat n) fresh_slot).
  { rewrite resize_ge by (unfold n, slot_count; lia). f_equal. f_equal. unfold n, slot_count. lia. }
  rewrite El. assert (Hlen : length (slots_ t) = Z.to_nat n) by (unfold n, slot_count; lia).
  assert (Hlk : forall i s, (slots_ t ++ replicate (Z.to_nat n) fresh_slot) !! i = Some s <->
    slots_ t !! i = Some s \/ (s = fresh_slot /\ (Z.to_nat n <= i < Z.to_nat (n * 2))%nat)).
  { intros i s. rewrite lookup_app_Some, lookup_replicate, Hlen. split; [intros [H|(H1 & H2 & H3)]; [by left|right; split; [done|lia]]|].
    intros [H|[-> H]]; [by left|right]. split; [lia|]. split; [done|lia]. }
  split; [|rewrite seqZ_cons by lia; done]. split; simpl.
  - unfold slot_count. simpl. rewrite length_app, length_replicate, Hlen. lia.
  - intros i s [H|[-> _]]%Hlk; [by eapply (t_gen _ _ _ _ O)|simpl; lia].
  - apply NoDup_seqZ.
  - intros i. rewrite elem_of_seqZ. split.
    + intros Hi. split; [lia|]. exists 1. apply Hlk. right. split; [done|lia].
    + intros [Hi [g [H|[_ H]]%Hlk]]; [|lia]. exfalso. assert (Hin : i ∈ free_list_ t) by (apply (t_idle _ _ _ _ O); split; [done|by exists g]).
      rewrite Hf in Hin. by apply not_elem_of_nil in Hin.
  - intros d x. rewrite (t_live _ _ _ _ O). split; intros (i & g & -> & H); exists i, g; (split; [done|]); [apply Hlk; by left|].
    by apply Hlk in H as [H|[? _]].
  - intros d Hd. destruct (t_dead _ _ _ _ O d Hd) as (i & g & s & -> & H & Hg). exists i, g, s. split; [done|]. split; [apply Hlk; by left|done].
Qed.

Lemma removelast_spec {A} (l : list A) x : last l = Some x -> l = removelast l ++ [x].
Proof. intros H. apply last_Some in H as [l' ->]. by rewrite removelast_app, app_nil_r. Qed.

Lemma take_ok x t live dead : table_inv low t live dead -> free_list_ t <> [] ->
  exists idx s, last (free_list_ t) = Some idx /\ slots_ t !! Z.to_nat idx = Some s /\
    let d := encode_slot idx (generation s) in
    (low = 1 -> d <> 0) /\ live !! d = None /\ d ∉ dead /\
    table_inv low (mk_table (<[Z.to_nat idx := mk_slot (Some x) (generation s)]> (slots_ t)) (removelast (free_list_ t))) (<[d := x]> live) dead.
Proof.
  intros O Hne. destruct (last (free_list_ t)) as [idx|] eqn:El; [|by apply last_None in El]. pose proof (removelast_spec _ _ El) as Ef.
  assert (Hin : idx ∈ free_list_ t) by (rewrite Ef; apply elem_of_app; right; by left).
  apply (t_idle _ _ _ _ O) in Hin as [Hi [g E]]. exists idx, (mk_slot None g). split; [done|]. split; [done|]. simpl.
  destruct (t_index _ _ _ _ _ O E) as [Ri Rg]. rewrite Z2Nat.id in Ri by done. simpl in Rg.
  assert (Hd : encode_slot idx g = encode_slot (Z.of_nat (Z.to_nat idx)) g) by (by rewrite Z2Nat.id).
  pose proof (t_gen _ _ _ _ O _ _ E) as Hg1. simpl in Hg1.
  assert (Hfresh : live !! encode_slot idx g = None).
  { destruct (live !! encode_slot idx g) as [y|] eqn:Ey; [|done]. apply (t_live _ _ _ _ O) in Ey as (j & h & Hj & Ej).
    destruct (t_index _ _ _ _ _ O Ej) as [Rj Rh]. rewrite Hd in Hj. destruct (encode_inj _ _ _ _ _ _ _ O E Rj Rh Hj) as [<- _]. congruence. }
  split; [intros El1; rewrite encode_value by done; unfold index_ok in *; lia|]. split; [done|]. split.
  { intros Hin. destruct (t_dead _ _ _ _ O _ Hin) as (j & h & s & Hj & Ej & Hh). destruct (t_index _ _ _ _ _ O Ej) as [Rj Rs].
    rewrite Hd in Hj. assert (Rh : index_ok h) by (unfold index_ok in *; lia). destruct (encode_inj _ _ _ _ _ _ _ O E Rj Rh Hj) as [<- Hgh].
    rewrite E in Ej. injection Ej as <-. simpl in *. lia. }
  assert (Hlt : (Z.to_nat idx < length (slots_ t))%nat) by (by eapply lookup_lt_Some).
  assert (Hnd : NoDup (removelast (free_list_ t)) /\ idx ∉ removelast (free_list_ t)).
  { pose proof (t_free _ _ _ _ O) as Hn. rewrite Ef in Hn. apply NoDup_app in Hn as (H1 & H2 & _). split; [done|]. intros H. by apply (H2 idx H); left. }
  split; simpl.
  - unfold slot_count. simpl. rewrite length_insert. apply (t_size _ _ _ _ O).
  - intros i s Hs. apply list_lookup_insert_Some in Hs as [(_ & <- & _)|[_ Hs]]; [done|by eapply (t_gen _ _ _ _ O)].
  - apply Hnd.
  - intros i. assert (Hfi : i ∈ free_list_ t <-> i ∈ removelast (free_list_ t) \/ i = idx) by (rewrite Ef at 1; rewrite elem_of_app, list_elem_of_singleton; done).
    destruct (decide (Z.to_nat i = Z.to_nat idx)) as [Hii|Hii].
    + rewrite Hii, list_lookup_insert_eq by done. split; [|by intros [_ [? ?]]]. intros H. assert (i <> idx) by (intros ->; by apply Hnd).
      assert (Hm : i ∈ free_list_ t) by (apply Hfi; by left). apply (t_idle _ _ _ _ O) in Hm as [? _]. lia.
    + rewrite list_lookup_insert_ne by done. rewrite <- (t_idle _ _ _ _ O), Hfi. split; [by left|]. intros [H|H]; [done|congruence].
  - intros d y. rewrite lookup_insert_Some. split.
    + intros [[<- <-]|[Hne' H]]; [exists (Z.to_nat idx), g; by rewrite list_lookup_insert_eq|].
      apply (t_live _ _ _ _ O) in H as (j & h & -> & Ej). exists j, h. split; [done|]. rewrite list_lookup_insert_ne; [done|]. intros <-. congruence.
    + intros (j & h & -> & Ej). apply list_lookup_insert_Some in Ej as [(<- & Ej & _)|[Hj Ej]]; [injection Ej as -> ->; left; split; congruence|].
      right. split; [|apply (t_live _ _ _ _ O); by exists j, h]. intros Hq. destruct (t_index _ _ _ _ _ O Ej) as [Rj Rh].
      rewrite Hd in Hq. destruct (encode_inj _ _ _ _ _ _ _ O E Rj Rh Hq) as [<- _]. congruence.
  - intros d Hin. destruct (t_dead _ _ _ _ O d Hin) as (j & h & s & -> & Ej & Hh). destruct (decide (j = Z.to_nat idx)) as [->|Hj].
    + exists (Z.to_nat idx), h, (mk_slot (Some x) g). rewrite list_lookup_insert_eq by done. split; [done|]. split; [done|]. rewrite E in Ej. by injection Ej as <-.
    + exists j, h, s. by rewrite list_lookup_insert_ne.
Qed.

(** Giving a token back: the slot gets its next generation, modulo 2^32; what
    may be kept of [dead] is the caller's to say. *)
Lemma release_inv d x t live dead dead' : table_inv low t live dead -> live !! d = Some x ->
  exists i s t', d = encode_slot (Z.of_nat i) (generation s) /\ slots_ t !! i = Some s /\ slots_ t !! Z.to_nat (decode_slot_index d) = Some s /\ slot_free d t = Some t' /\
    slots_ t' = <[i := mk_slot None (u32 (generation s + 1))]> (slots_ t) /\
    (low <= u32 (generation s + 1) ->
     (forall d, d ∈ dead' -> exists i g s, d = encode_slot (Z.of_nat i) g /\ slots_ t' !! i = Some s /\ 0 <= g < generation s) ->
     table_inv low t' (delete d live) dead').
Proof.
  intros O Hd. pose proof Hd as H. apply (t_live _ _ _ _ O) in H as (i & g & -> & E). destruct (t_index _ _ _ _ _ O E) as [Ri Rg]. simpl in Rg.
  destruct (slot_decode_encode _ _ Ri Rg) as [D1 D2]. unfold slot_free. rewrite D1, Nat2Z.id, E.
  exists i, (mk_slot (Some x) g). eexists. cbn [generation]. split; [reflexivity|]. split; [exact E|]. split; [reflexivity|]. split; [reflexivity|]. split; [reflexivity|]. simpl. intros Hg Hdead. pose proof (u32_range (g + 1)) as Hu.
  assert (Hlt : (i < length (slots_ t))%nat) by (by eapply lookup_lt_Some).
  assert (Hnf : Z.of_nat i ∉ free_list_ t). { intros H. apply (t_idle _ _ _ _ O) in H as [_ [h H]]. rewrite Nat2Z.id in H. congruence. }
  split; simpl; [| | | | |exact Hdead].
  - unfold slot_count. simpl. rewrite length_insert. apply (t_size _ _ _ _ O).
  - intros j s Hs. apply list_lookup_insert_Some in Hs as [(_ & <- & _)|[_ Hs]]; [simpl; lia|by eapply (t_gen _ _ _ _ O)].
  - apply NoDup_app. split; [apply (t_free _ _ _ _ O)|]. split; [|apply NoDup_singleton]. intros j Hj ->%list_elem_of_singleton. done.
  - intros j. rewrite elem_of_app, list_elem_of_singleton, (t_idle _ _ _ _ O). destruct (decide (Z.to_nat j = i)) as [<-|Hj].
    + rewrite list_lookup_insert_eq by done. split.
      * intros [[Hj [h H]]|Hj]; [congruence|]. split; [lia|by eexists].
      * intros [Hj _]. right. lia.
    + rewrite list_lookup_insert_ne by done. split; [intros [H|H]; [done|exfalso; apply Hj; lia]|by left].
  - intros d y. rewrite lookup_delete_Some, (t_live _ _ _ _ O). split.
    + intros (Hne & j & h & -> & Ej). exists j, h. split; [done|]. rewrite list_lookup_insert_ne; [done|]. intros <-. congruence.
    + intros (j & h & -> & Ej). apply list_lookup_insert_Some in Ej as [(_ & Ej & _)|[Hj Ej]]; [done|]. split; [|by exists j, h].
      intros Hq. destruct (t_index _ _ _ _ _ O Ej) as [Rj Rh]. destruct (encode_inj _ _ _ _ _ _ _ O E Rj Rh Hq) as [-> _]. congruence.
Qed.

(** As long as the generation does not wrap the token stays dead. *)
Lemma slot_release_ok d x t live dead : table_inv low t live dead -> live !! d = Some x ->
  exists s t', slots_ t !! Z.to_nat (decode_slot_index d) = Some s /\ slot_free d t = Some t' /\
    (generation s + 1 < 2 ^ 32 -> table_inv low t' (delete d live) ({[d]} ∪ dead)).
Proof.
  intros O Hd. destruct (release_inv d x t live dead ({[d]} ∪ dead) O Hd) as (i & s & t' & Ed & E & Es & Ef & Et & Hinv).
  exists s, t'. split; [done|]. split; [done|]. intros Hg. pose proof (t_gen _ _ _ _ O _ _ E) as Hg1. rewrite (u32_small (generation s + 1)) in Et, Hinv by lia.
  apply Hinv; [lia|]. assert (Hlt : (i < length (slots_ t))%nat) by (by eapply lookup_lt_Some). rewrite Et.
  intros d' Hin. apply elem_of_union in Hin as [->%elem_of_singleton|Hin].
  - exists i, (generation s). eexists. rewrite list_lookup_insert_eq by done. split; [done|]. split; [done|]. simpl. lia.
  - destruct (t_dead _ _ _ _ O d' Hin) as (j & h & s' & -> & Ej & Hh). destruct (decide (i = j)) as [<-|Hj].
    + exists i, h. eexists. rewrite list_lookup_insert_eq by done. split; [done|]. split; [done|]. rewrite E in Ej. injection Ej as <-. simpl in *. lia.
    + exists j, h, s'. by rewrite list_lookup_insert_ne.
Qed.

Lemma lookup_at t live dead i s g : table_inv low t live dead -> slots_ t !! i = Some s -> index_ok g ->
  slot_lookup (encode_slot (Z.of_nat i) g) t = if generation s =? g then slot_task s else None.
Proof.
  intros O E Hg. destruct (t_index _ _ _ _ _ O E) as [Ri Rs]. destruct (slot_decode_encode _ _ Ri Hg) as [D1 D2].
  unfold slot_lookup. rewrite D1, D2, Nat2Z.id, E. assert (Z.of_nat i < slot_count t) by (apply lookup_lt_Some in E; unfold slot_count; lia).
  destruct (Z.leb_spec (slot_count t) (Z.of_nat i)); [lia|]. by destruct (_ =? g).
Qed.

Lemma lookup_live d x t live dead : table_inv low t live dead -> live !! d = Some x -> slot_lookup d t = Some x.
Proof.
  intros O H. apply (t_live _ _ _ _ O) in H as (i & g & -> & E). destruct (t_index _ _ _ _ _ O E) as [Ri Rg].
  simpl in Rg. rewrite (lookup_at _ _ _ _ _ g O E Rg). simpl. by rewrite Z.eqb_refl.
Qed.

Lemma lookup_dead d t live dead : table_inv low t live dead -> d ∈ dead -> slot_lookup d t = None.
Proof.
  intros O H. destruct (t_dead _ _ _ _ O d H) as (i & g & s & -> & E & Hg). destruct (t_index _ _ _ _ _ O E) as [Ri Rs].
  rewrite (lookup_at _ _ _ _ _ _ O E) by (unfold index_ok in *; lia). destruct (Z.eqb_spec (generation s) g); [lia|done].
Qed.

Lemma active_spec d t live dead : table_inv low t live dead -> d ∈ active t <-> is_Some (live !! d).
Proof.
  intros O. unfold active. rewrite list_elem_of_omap. split.
  - intros ([i s] & Hin & Hf). apply elem_of_lookup_imap in Hin as (j & s' & [= <- <-] & E). simpl in Hf.
    destruct s as [[x|] g]; [|done]. injection Hf as <-. exists x. apply (t_live _ _ _ _ O). by exists i, g.
  - intros [x H]. apply (t_live _ _ _ _ O) in H as (i & g & -> & E). exists (i, mk_slot (Some x) g). split; [|done].
    apply elem_of_lookup_imap. by exists i, (mk_slot (Some x) g).
Qed.

Lemma alloc_ok x t live dead : table_inv low t live dead -> slot_count t < 2 ^ 31 ->
  exists t' d, slot_alloc x t = Some (t', d) /\ (low = 1 -> d <> 0) /\ live !! d = None /\ d ∉ dead /\ table_inv low t' (<[d := x]> live) dead.
Proof.
  intros O Hs. unfold slot_alloc.
  assert (H : exists t0, match free_list_ t with [] => grow t | _ :: _ => t end = t0 /\ table_inv low t0 live dead /\ free_list_ t0 <> []).
  { destruct (free_list_ t) as [|i l] eqn:E; [destruct (grow_ok t live dead O E Hs); by eexists|]. exists t. by rewrite E. }
  destruct H as (t0 & -> & O0 & Hne). destruct (take_ok x t0 live dead O0 Hne) as (idx & s & -> & -> & H1 & H2 & H3 & H4).
  eexists _, _. split; [done|]. done.
Qed.
End Inv.

Lemma low_one : 0 <= 1 <= 1.
Proof. lia. Qed.

(** ** Any use *)

(** Operations take and give back tokens, without end: [wrapped] tells whether
    a generation has gone round, after 2^32 - 1 uses of one slot.  There are
    fewer than 2^31 slots whenever the table grows. *)
Inductive table_reach : bool -> io_slot_table_t -> gmap Z Z -> gset Z -> Prop :=
| tr_make capacity : 0 < capacity < 2 ^ 32 -> table_reach false (make_table capacity) ∅ ∅
| tr_alloc wrapped t live dead x t' d : table_reach wrapped t live dead -> slot_count t < 2 ^ 31 -> slot_alloc x t = Some (t', d) -> table_reach wrapped t' (<[d := x]> live) dead
| tr_free wrapped t live dead d x s t' : table_reach wrapped t live dead -> live !! d = Some x ->
    slots_ t !! Z.to_nat (decode_slot_index d) = Some s -> slot_free d t = Some t' ->
    table_reach (wrapped || (2 ^ 32 <=? generation s + 1)) t' (delete d live) ({[d]} ∪ dead).

Lemma table_reach_ok wrapped t live dead : table_reach wrapped t live dead -> table_inv 0 t live ∅ /\ (wrapped = false -> table_ok t live dead).
Proof.
  induction 1 as [capacity Hc|w t live dead x t' d R [IH0 IH1] Hs Ha|w t live dead d x s t' R [IH0 IH1] Hd Es Hf].
  - split; [by apply make_ok|]. intros _. by apply make_ok.
  - destruct (alloc_ok 0 ltac:(lia) x t live ∅ IH0 Hs) as (t1 & d1 & E & _ & _ & _ & O). rewrite Ha in E. injection E as <- <-. split; [done|].
    intros Hw. destruct (alloc_ok 1 low_one x t live dead (IH1 Hw) Hs) as (t1 & d1 & E & _ & _ & _ & O1). rewrite Ha in E. by injection E as <- <-.
  - destruct (release_inv 0 ltac:(lia) d x t live ∅ ∅ IH0 Hd) as (i & s1 & t1 & _ & _ & _ & E2 & _ & O). rewrite Hf in E2. injection E2 as <-. split.
    { apply O; [apply u32_range|]. intros d' Hin. set_solver. }
    intros [Hw Hg]%orb_false_iff. apply Z.leb_gt in Hg. destruct (slot_release_ok 1 low_one d x t live dead (IH1 Hw) Hd) as (s2 & t2 & F1 & F2 & O1).
    rewrite Es in F1. injection F1 as <-. rewrite Hf in F2. injection F2 as <-. by apply O1.
Qed.

(** C23: whatever sequence of operations takes and gives back tokens (with
    fewer than 2^31 slots when the table grows), a token of an operation in
    flight finds exactly that operation, distinct operations have distinct
    tokens, and the cancellation sweep visits exactly the tokens in flight;
    these hold for ever. As long as no slot has been given back 2^32 - 1
    times, so that no 32-bit generation has wrapped, also a token given back
    never finds anything again, a new token repeats no earlier one, and none
    is zero (the mark of "no operation"). *)
Theorem slot_table_sound wrapped t live dead : table_reach wrapped t live dead ->
  (forall d x, live !! d = Some x -> slot_lookup d t = Some x) /\
  (forall d, d ∈ active t <-> is_Some (live !! d)) /\
  (forall x, slot_count t < 2 ^ 31 -> exists t' d, slot_alloc x t = Some (t', d) /\ live !! d = None /\
     (wrapped = false -> d <> 0 /\ d ∉ dead)) /\
  (wrapped = false -> forall d, d ∈ dead -> slot_lookup d t = None).
Proof.
  intros [R0 R1]%table_reach_ok. assert (0 <= 0 <= 1) as L0 by lia. split_and!.
  - intros d x. by apply (lookup_live 0 L0 d x t live ∅).
  - intros d. by apply (active_spec 0 d t live ∅).
  - intros x Hs. destruct (alloc_ok 0 L0 x t live ∅ R0 Hs) as (t' & d & E & _ & Hl & _). exists t', d. split; [done|]. split; [done|]. intros Hw.
    destruct (alloc_ok 1 low_one x t live dead (R1 Hw) Hs) as (t1 & d1 & E1 & H0 & _ & H1 & _). rewrite E in E1. injection E1 as <- <-. split; [by apply H0|done].
  - intros Hw d. by apply (lookup_dead 1 low_one d t live dead), R1.
Qed.

(** One slot: taken, given back, taken again. *)
Lemma slot_table_sound_witness :
  exists t live dead, table_reach false t live dead /\ 4294967296 ∈ dead /\ slot_lookup 4294967296 t = None /\ slot_lookup 8589934592 t = Some 9.
Proof.
  pose proof (tr_make 1 ltac:(lia)) as R0.
  pose proof (tr_alloc _ _ _ _ 7 _ _ R0 ltac:(vm_compute; done) eq_refl) as R1.
  pose proof (tr_free _ _ _ _ 4294967296 7 _ _ R1 eq_refl eq_refl eq_refl) as R2.
  pose proof (tr_alloc _ _ _ _ 9 _ _ R2 ltac:(vm_compute; done) eq_refl) as R3.
  eexists _, _, _. split; [exact R3|]. destruct (slot_table_sound _ _ _ _ R3) as (H1 & _ & _ & H2).
  split; [set_solver|]. split; [apply (H2 eq_refl); set_solver|]. apply H1. vm_compute. reflexivity.
Defined.

(** The generation is 32 bits wide and not kept away from zero: after 2^32 - 1
    reuses of slot 0 its token is 0, the value that means "no operation". *)
Theorem slot_zero_wraps x :
  (t ← slot_free (encode_slot 0 (2 ^ 32 - 1)) (mk_table [mk_slot (Some x) (2 ^ 32 - 1)] []); slot_alloc x t)
  = Some (mk_table [mk_slot (Some x) 0] [], 0).
Proof. reflexivity. Qed.
