(* ===== verification/Uring.v ===== *)
(** * Operations on the ring

    The counters of src/include/cornet/scheduling/task_tracker.h, the wrapper
    [uring_t] (src/include/cornet/io_uring/uring.h, src/src/uring.cc) and the
    life of an operation [utask_t] (src/include/cornet/io_uring/utask.h,
    src/src/task.cc).

    liburing and the kernel are not part of the sources.  [Liburing] is what
    the code uses of them: a ring with the entries acquired and not yet
    submitted, which [io_uring_get_sqe] extends and a submission shortens from
    the front; how many entries the kernel takes is its choice.  The memory of
    the entries is [sqes]; a submission hands the kernel the contents an entry
    has at that moment ([handed]).  Operations ([utask_t] objects) and
    coroutine handles are numbered. *)

From stdpp Require Import prelude gmap list fin_maps.
From Stdlib Require Import ZArith Lia.
From S2P Require Import Prelude Counting IoSlots.
Open Scope Z_scope.

Definition ENOBUFS : Z := 105.
Definition ETIME : Z := 62.
Definition ECANCELED : Z := 125.

(** ** Work counters *)

Record task_tracker_t := mk_tracker { ready_ : Z; cpu_ : Z; user_io_ : Z; io_inflight_ : Z }.
Definition tracker_init : task_tracker_t := mk_tracker 0 0 0 0.

Definition io_submit (n : Z) (t : task_tracker_t) := mk_tracker (ready_ t) (cpu_ t) (user_io_ t) (u32 (io_inflight_ t + n)).
Definition io_complete (n : Z) (t : task_tracker_t) := mk_tracker (ready_ t) (cpu_ t) (user_io_ t) (u32 (io_inflight_ t - n)).
Definition user_io_add (n : Z) (t : task_tracker_t) := mk_tracker (ready_ t) (cpu_ t) (u32 (user_io_ t + n)) (io_inflight_ t).
Definition user_io_remove (n : Z) (t : task_tracker_t) := mk_tracker (ready_ t) (cpu_ t) (u32 (user_io_ t - n)) (io_inflight_ t).
Definition executor_add (n : Z) (t : task_tracker_t) := mk_tracker (ready_ t) (u32 (cpu_ t + n)) (user_io_ t) (io_inflight_ t).
Definition executor_remove (n : Z) (t : task_tracker_t) := mk_tracker (ready_ t) (u32 (cpu_ t - n)) (user_io_ t) (io_inflight_ t).
Definition coroutine_add (n : Z) (t : task_tracker_t) := mk_tracker (u32 (ready_ t + n)) (cpu_ t) (user_io_ t) (io_inflight_ t).
Definition coroutine_remove (n : Z) (t : task_tracker_t) := mk_tracker (u32 (ready_ t - n)) (cpu_ t) (user_io_ t) (io_inflight_ t).

Definition user_idle (t : task_tracker_t) : bool := u32 (u32 (ready_ t + cpu_ t) + user_io_ t) =? 0.
Definition tracker_idle (t : task_tracker_t) : bool := user_idle t && (io_inflight_ t =? 0).

(** ** The library *)

Class Liburing (R : Type) := {
  lib_get_sqe : R -> R * option Z;
  lib_submit : R -> R * Z;
  (** the return value, and how many entries the kernel took *)
  lib_submit_and_wait : R -> R * Z * nat;
  lib_sq_ready : R -> Z;
  acquired : R -> list Z
}.

Class LiburingLaws (R : Type) `{Liburing R} := {
  get_sqe_some : forall r r' i, lib_get_sqe r = (r', Some i) -> acquired r' = acquired r ++ [i] /\ i ∉ acquired r;
  get_sqe_none : forall r r', lib_get_sqe r = (r', None) -> acquired r' = acquired r;
  submit_taken : forall r r' n, lib_submit r = (r', n) -> n <= Z.of_nat (length (acquired r)) /\ acquired r' = drop (Z.to_nat n) (acquired r);
  wait_taken : forall r r' n k, lib_submit_and_wait r = (r', n, k) -> (k <= length (acquired r))%nat /\ acquired r' = drop k (acquired r);
  sq_ready_spec : forall r, lib_sq_ready r = Z.of_nat (length (acquired r))
}.

(** What an entry holds. *)
Inductive op_t := OpTask (t : Z) | OpCancel (token : Z) | OpNop | OpLinkTimeout | OpOther.
Record sqe_t := mk_sqe { sqe_op : op_t; sqe_data : Z; sqe_link : bool }.

(** ** Operations *)

Record utask_t := mk_utask {
  completed : bool; user_work : bool; user_io_counted : bool; value : Z; handle : option Z; has_ctx : bool; slot_data_ : Z
}.
Definition new_utask (user : bool) : utask_t := mk_utask false user false 0 None true 0.

Section Uring.
Context {R : Type} `{Liburing R}.

(** The part of [context_t] an operation touches. *)
Record io_t := mk_io {
  ring : R; sqes : gmap Z sqe_t; handed : list sqe_t; tracker : task_tracker_t;
  slots : io_slot_table_t; tasks : gmap Z utask_t; queue : list Z
}.

Implicit Types w : io_t.

Definition set_ring (r : R) w := mk_io r (sqes w) (handed w) (tracker w) (slots w) (tasks w) (queue w).
Definition set_sqe (i : Z) (e : sqe_t) w := mk_io (ring w) (<[i := e]> (sqes w)) (handed w) (tracker w) (slots w) (tasks w) (queue w).
Definition set_tracker (t : task_tracker_t) w := mk_io (ring w) (sqes w) (handed w) t (slots w) (tasks w) (queue w).
Definition set_slots (s : io_slot_table_t) w := mk_io (ring w) (sqes w) (handed w) (tracker w) s (tasks w) (queue w).
Definition set_task (t : Z) (x : utask_t) w := mk_io (ring w) (sqes w) (handed w) (tracker w) (slots w) (<[t := x]> (tasks w)) (queue w).
Definition drop_task (t : Z) w := mk_io (ring w) (sqes w) (handed w) (tracker w) (slots w) (delete t (tasks w)) (queue w).

(** The contents of an entry; a fresh ring is zeroed. *)
Definition sqe_at (i : Z) w : sqe_t := default (mk_sqe OpNop 0 false) (sqes w !! i).

(** The kernel takes the first [k] acquired entries. *)
Definition hand_over (k : nat) (r' : R) w : io_t :=
  mk_io r' (sqes w) (handed w ++ map (fun i => sqe_at i w) (take k (acquired (ring w)))) (tracker w) (slots w) (tasks w) (queue w).

(** [io_uring_submit] and its accounting, as every caller writes it. *)
Definition flush w : io_t * Z :=
  let (r, n) := lib_submit (ring w) in
  let w := hand_over (Z.to_nat n) r w in
  (if 0 <? n then set_tracker (io_submit n (tracker w)) w else w, n).

(** ** [uring_t] *)

Definition get_sqe w : io_t * expected Z :=
  match lib_get_sqe (ring w) with
  | (r, Some i) => (set_ring r w, Ok i)
  | (r, None) =>
      let (w, _) := flush (set_ring r w) in
      match lib_get_sqe (ring w) with
      | (r, Some i) => (set_ring r w, Ok i)
      | (r, None) => (set_ring r w, Unexpected (system_error ENOBUFS))
      end
  end.

(** The slots already grabbed become no-ops. *)
Definition nop_out (out : list Z) w : io_t := fold_left (fun w i => set_sqe i (mk_sqe OpNop 0 false) w) out w.

Fixpoint get_sqes_loop (n : nat) (out : list Z) w : io_t * expected (list Z) :=
  match n with
  | O => (w, Ok out)
  | S n =>
      match lib_get_sqe (ring w) with
      | (r, Some i) => get_sqes_loop n (out ++ [i]) (set_ring r w)
      | (r, None) =>
          let (w, _) := flush (set_ring r w) in
          match lib_get_sqe (ring w) with
          | (r, Some i) => get_sqes_loop n (out ++ [i]) (set_ring r w)
          | (r, None) => (nop_out out (set_ring r w), Unexpected (system_error ENOBUFS))
          end
      end
  end.
Definition get_sqes (n : nat) w : io_t * expected (list Z) := get_sqes_loop n [] w.

Definition submit w : io_t * Z := flush w.

(** ** [utask_t] *)

(** The reference to [this] is valid. *)
Definition slot_data_of (t : Z) w : Z := match tasks w !! t with Some x => slot_data_ x | None => 0 end.

Definition prepare_into (t i : Z) w : option io_t :=
  match tasks w !! t with
  | Some x =>
      match slot_alloc t (slots w) with
      | Some (tb, d) =>
          let w := set_sqe i (mk_sqe (OpTask t) d false) (set_slots tb w) in
          let counts := user_work x && negb (user_io_counted x) in
          let w := if counts then set_tracker (user_io_add 1 (tracker w)) w else w in
          Some (set_task t (mk_utask (completed x) (user_work x) (user_io_counted x || counts) (value x) (handle x) (has_ctx x) d) w)
      | None => None
      end
  | None => None
  end.

Definition fail_task (err : Z) (x : utask_t) : utask_t :=
  mk_utask true (user_work x) (user_io_counted x) (- err) (handle x) (has_ctx x) (slot_data_ x).
Definition set_handle (h : Z) (x : utask_t) : utask_t :=
  mk_utask (completed x) (user_work x) (user_io_counted x) (value x) (Some h) (has_ctx x) (slot_data_ x).

(** The flag is [await_suspend]'s answer: stay suspended. *)
Definition await_suspend (t h : Z) w : option (io_t * bool) :=
  match tasks w !! t with
  | Some x =>
      if negb (has_ctx x) then None
      else
        let w := set_task t (set_handle h x) w in
        let (w, r) := get_sqe w in
        match r with
        | Unexpected e => Some (set_task t (fail_task (code e) (set_handle h x)) w, false)
        | Ok i => match prepare_into t i w with Some w => Some (w, true) | None => None end
        end
  | None => None
  end.

Definition utask_resume (x : utask_t) : expected Z :=
  if value x <? 0 then Unexpected (system_error (- value x)) else Ok (value x).

(** Whether the coroutine behind a handle has finished. *)
Context (handle_done : Z -> bool).

Definition spawn_handle (h : Z) w : io_t :=
  mk_io (ring w) (sqes w) (handed w) (coroutine_add 1 (tracker w)) (slots w) (tasks w) (queue w ++ [h]).

Definition complete (t res : Z) w : option io_t :=
  match tasks w !! t with
  | Some x =>
      let w := if user_io_counted x then set_tracker (user_io_remove 1 (tracker w)) w else w in
      match slot_free (slot_data_ x) (slots w) with
      | Some tb =>
          let w := set_task t (mk_utask true (user_work x) false res (handle x) (has_ctx x) 0) (set_slots tb w) in
          Some (match handle x with Some h => if negb (handle_done h) then spawn_handle h w else w | None => w end)
      | None => None
      end
  | None => None
  end.

Definition process_utask (data res : Z) w : option io_t :=
  if data =? 0 then Some w
  else match slot_lookup data (slots w) with
       | None => Some w
       | Some t => complete t res w
       end.

Definition destroy_utask (t : Z) w : option io_t :=
  match tasks w !! t with
  | Some x =>
      let w := if user_io_counted x && has_ctx x then set_tracker (user_io_remove 1 (tracker w)) w else w in
      if negb (slot_data_ x =? 0) && has_ctx x
      then match slot_free (slot_data_ x) (slots w) with Some tb => Some (drop_task t (set_slots tb w)) | None => None end
      else Some (drop_task t w)
  | None => None
  end.

(** The move constructor: [t'] is the new object. *)
Definition move_utask (t t' : Z) w : option io_t :=
  match tasks w !! t with
  | Some x =>
      Some (set_task t' x (set_task t (mk_utask (completed x) (user_work x) false (value x) (handle x) false 0) w))
  | None => None
  end.

(** ** Completions *)

(** One completion: the token and the result. *)
Definition cqe_t : Type := Z * Z.

Fixpoint process_each (cqes : list cqe_t) w : option io_t :=
  match cqes with
  | [] => Some w
  | (data, res) :: cqes => match process_utask data res w with Some w => process_each cqes w | None => None end
  end.

Definition process_cqes (cqes : list cqe_t) w : option (io_t * Z) :=
  match process_each cqes w with
  | Some w => let count := Z.of_nat (length cqes) in Some (set_tracker (io_complete count (tracker w)) w, count)
  | None => None
  end.

Definition peek_cqes (cqes : list cqe_t) w : option (io_t * Z) :=
  match process_each cqes w with
  | Some w =>
      let count := Z.of_nat (length cqes) in
      if count =? 0 then Some (w, 0) else Some (set_tracker (io_complete count (tracker w)) w, count)
  | None => None
  end.

(** [cqes] is what the completion queue holds after the call. *)
Definition submit_and_wait_cqes (cqes : list cqe_t) w : option (io_t * Z) :=
  let to_submit := lib_sq_ready (ring w) in
  let '(r, ret, k) := lib_submit_and_wait (ring w) in
  let w := hand_over k r w in
  let w := if 0 <? to_submit then set_tracker (io_submit to_submit (tracker w)) w else w in
  if ret =? - ETIME then Some (w, 0) else process_cqes cqes w.

(** ** Operations without a [utask_t] *)

(** [io_detach] *)
Definition io_detach w : io_t * expected unit :=
  let (w, r) := get_sqe w in
  match r with
  | Unexpected e => (w, Unexpected e)
  | Ok i => (set_sqe i (mk_sqe OpOther 0 false) w, Ok tt)
  end.

(** The cancellation of one operation; without an entry it stays in flight. *)
Definition prep_cancel (token : Z) w : io_t :=
  let (w, r) := get_sqe w in
  match r with
  | Unexpected _ => w
  | Ok i => set_sqe i (mk_sqe (OpCancel token) 0 false) w
  end.

(** ** The linked timeout of [timeout_awaiter::await_suspend] *)

Definition timeout_suspend (t h : Z) w : option (io_t * bool) :=
  match tasks w !! t with
  | Some x =>
      let w := set_task t (set_handle h x) w in
      let (w, r) := get_sqes 2 w in
      match r with
      | Ok [i; j] =>
          match prepare_into t i w with
          | Some w =>
              let w := set_sqe i (mk_sqe (sqe_op (sqe_at i w)) (sqe_data (sqe_at i w)) true) w in
              Some (set_sqe j (mk_sqe OpLinkTimeout 0 false) w, true)
          | None => None
          end
      | _ => Some (set_task t (fail_task ENOBUFS (set_handle h x)) w, false)
      end
  | None => None
  end.

(** ** What the ring operations leave alone *)

(** Only the ring, its entries and the in-flight counter differ. *)
Definition ring_frame w w' : Prop :=
  slots w' = slots w /\ tasks w' = tasks w /\ queue w' = queue w /\
  ready_ (tracker w') = ready_ (tracker w) /\ cpu_ (tracker w') = cpu_ (tracker w) /\ user_io_ (tracker w') = user_io_ (tracker w).

Lemma ring_frame_trans w1 w2 w3 : ring_frame w1 w2 -> ring_frame w2 w3 -> ring_frame w1 w3.
Proof. unfold ring_frame. intuition congruence. Qed.
Lemma flush_frame w : ring_frame w (flush w).1.
Proof. unfold flush. destruct (lib_submit _) as [r n]. destruct (0 <? n); repeat split; done. Qed.

(** A state reached from [w] by ring operations, entry by entry. *)
Ltac frame_step := repeat match goal with
  | |- ring_frame ?w (set_ring _ ?v) => change (ring_frame w v)
  | |- ring_frame ?w (set_sqe _ _ ?v) => change (ring_frame w v)
  end.

Lemma get_sqe_frame w : ring_frame w (get_sqe w).1.
Proof.
  unfold get_sqe. destruct (lib_get_sqe (ring w)) as [r [i|]]; [by repeat split|].
  pose proof (flush_frame (set_ring r w)) as F. destruct (flush _) as [w1 n]. simpl in F.
  destruct (lib_get_sqe (ring w1)) as [r1 [i|]]; exact F.
Qed.
Lemma submit_frame w : ring_frame w (submit w).1.
Proof. apply flush_frame. Qed.
Lemma io_detach_frame w : ring_frame w (io_detach w).1.
Proof. unfold io_detach. pose proof (get_sqe_frame w) as F. destruct (get_sqe w) as [w1 [i|e]]; exact F. Qed.
Lemma prep_cancel_frame token w : ring_frame w (prep_cancel token w).
Proof. unfold prep_cancel. pose proof (get_sqe_frame w) as F. destruct (get_sqe w) as [w1 [i|e]]; exact F. Qed.

(** ** The books of the operations

    [live] and [dead] are the tokens in flight and given back; [held] is the
    number of [work_token_t] alive. *)

Definition in_flight (x : utask_t) : bool := negb (slot_data_ x =? 0).

Record io_ok w (live : gmap Z Z) (dead : gset Z) (held : nat) : Prop := {
  io_tbl : table_ok (slots w) live dead;
  io_task : forall t x, tasks w !! t = Some x -> in_flight x = true -> live !! slot_data_ x = Some t /\ has_ctx x = true;
  io_live : forall d t, live !! d = Some t -> exists x, tasks w !! t = Some x /\ slot_data_ x = d;
  io_counted : forall t x, tasks w !! t = Some x -> user_io_counted x = user_work x && in_flight x;
  io_nonzero : live !! 0 = None;
  io_user : user_io_ (tracker w) = u32 (Z.of_nat (count_if user_io_counted (tasks w) + held));
  io_ready : ready_ (tracker w) = u32 (Z.of_nat (length (queue w)))
}.

Lemma ring_frame_ok w w' live dead held : ring_frame w w' -> io_ok w live dead held -> io_ok w' live dead held.
Proof. intros (F1 & F2 & F3 & F4 & F5 & F6) [O1 O2 O3 O4 O5 O6 O7]. split; rewrite ?F1, ?F2, ?F3, ?F4, ?F6; done. Qed.

Lemma u32_add_l x y : u32 (u32 x + y) = u32 (x + y).
Proof. unfold u32. by rewrite Zplus_mod_idemp_l. Qed.
Lemma u32_sub_l x y : u32 (u32 x - y) = u32 (x - y).
Proof. unfold u32. by rewrite Zminus_mod_idemp_l. Qed.

(** A token may be given back without its slot's generation wrapping. *)
Definition may_free (d : Z) w : Prop := forall s, slots_ (slots w) !! Z.to_nat (decode_slot_index d) = Some s -> generation s + 1 < 2 ^ 32.

(** A task leaves the flight: its token is freed and its record becomes [y],
    or disappears. *)
Lemma land_ok w live dead held t x tb ts' tr' q' rg sq hd :
  io_ok w live dead held -> tasks w !! t = Some x -> in_flight x = true -> may_free (slot_data_ x) w ->
  slot_free (slot_data_ x) (slots w) = Some tb ->
  (forall u, u <> t -> ts' !! u = tasks w !! u) ->
  (forall y, ts' !! t = Some y -> slot_data_ y = 0 /\ user_io_counted y = false) ->
  user_io_ tr' = u32 (user_io_ (tracker w) - Z.of_nat (one (user_io_counted x))) ->
  (one (user_io_counted x) + count_if user_io_counted ts')%nat = count_if user_io_counted (tasks w) ->
  ready_ tr' = u32 (Z.of_nat (length q')) ->
  io_ok (mk_io rg sq hd tr' tb ts' q') (delete (slot_data_ x) live) ({[slot_data_ x]} ∪ dead) held.
Proof.
  intros [O1 O2 O3 O4 O5 O6 O7] Ht Ha Hf Es Hu Hy Htr Hc Hq. destruct (O2 t x Ht Ha) as [Hl Hctx].
  destruct (slot_release_ok 1 low_one _ _ _ _ _ O1 Hl) as (s & tb' & Eb & Es' & Ok). rewrite Es in Es'. injection Es' as <-.
  split; simpl.
  - apply Ok. by apply Hf.
  - intros u y Hut Hy0. destruct (decide (u = t)) as [->|Hne].
    { destruct (Hy y Hut) as [E _]. unfold in_flight in Hy0. by rewrite E in Hy0. }
    rewrite Hu in Hut by done. destruct (O2 u y Hut Hy0) as [Hl' Hc']. split; [|done]. rewrite lookup_delete_ne; [done|]. intros E. congruence.
  - intros d u Hd. apply lookup_delete_Some in Hd as [Hne Hd]. destruct (O3 d u Hd) as (y & Hut & Ey). exists y. split; [|done].
    rewrite Hu; [done|]. intros ->. rewrite Ht in Hut. injection Hut as <-. done.
  - intros u y Hut. destruct (decide (u = t)) as [->|Hne]; [|rewrite Hu in Hut by done; by apply (O4 u)].
    destruct (Hy y Hut) as [E ->]. unfold in_flight. by rewrite E, andb_false_r.
  - by rewrite lookup_delete_None, O5; right.
  - rewrite Htr, O6, u32_sub_l. f_equal. lia.
  - exact Hq.
Qed.

(** A task takes off: it gets the token [d]. *)
Lemma prepare_ok t i w live dead held x :
  io_ok w live dead held -> tasks w !! t = Some x -> in_flight x = false -> has_ctx x = true -> slot_count (slots w) < 2 ^ 31 ->
  exists w' d, prepare_into t i w = Some w' /\ io_ok w' (<[d := t]> live) dead held /\ live !! d = None /\ d <> 0.
Proof.
  intros [O1 O2 O3 O4 O5 O6 O7] Ht Hx Hctx Hn. unfold prepare_into. rewrite Ht.
  destruct (alloc_ok 1 low_one t _ _ _ O1 Hn) as (tb & d & -> & Hd1 & Hdl & Hdd & Ok). specialize (Hd1 eq_refl). rename Hd1 into Hd0.
  pose proof (O4 t x Ht) as Hcx. rewrite Hx, andb_false_r in Hcx. rewrite Hcx, andb_true_r. simpl.
  set (y := mk_utask _ _ _ _ _ _ d). eexists _, d. split; [done|]. split; [|done].
  assert (Hy : in_flight y = true /\ user_io_counted y = user_work x) by (unfold in_flight; simpl; apply Z.eqb_neq in Hd0; by rewrite Hd0).
  destruct Hy as [Hya Hyc]. pose proof (count_replace user_io_counted (tasks w) t x y Ht) as Hcnt. rewrite Hcx, Hyc in Hcnt. simpl in Hcnt.
  assert (Ok' : io_ok (set_task t y (mk_io (ring w) (<[i := mk_sqe (OpTask t) d false]> (sqes w)) (handed w)
    (if user_work x then user_io_add 1 (tracker w) else tracker w) tb (tasks w) (queue w))) (<[d := t]> live) dead held).
  { split; simpl.
    - exact Ok.
    - intros u z Hu Hz. destruct (decide (u = t)) as [->|Hne].
      + rewrite lookup_insert_eq in Hu. injection Hu as <-. simpl. by rewrite lookup_insert_eq.
      + rewrite lookup_insert_ne in Hu by done. destruct (O2 u z Hu Hz) as [Hl Hc]. split; [|done]. rewrite lookup_insert_ne; [done|]. congruence.
    - intros e u He. apply lookup_insert_Some in He as [[<- <-]|[Hne He]]; [exists y; by rewrite lookup_insert_eq|].
      destruct (O3 e u He) as (z & Hu & Ez). exists z. split; [|done]. rewrite lookup_insert_ne; [done|]. intros <-.
      rewrite Ht in Hu. injection Hu as <-. subst e. unfold in_flight in Hx. apply negb_false_iff, Z.eqb_eq in Hx. rewrite Hx in He. congruence.
    - intros u z Hu. destruct (decide (u = t)) as [->|Hne]; [|rewrite lookup_insert_ne in Hu by done; by apply (O4 u)].
      rewrite lookup_insert_eq in Hu. injection Hu as <-. rewrite Hya, Hyc. simpl. by rewrite andb_true_r.
    - by rewrite lookup_insert_ne.
    - rewrite Hcnt. destruct (user_work x); simpl; rewrite O6; [rewrite u32_add_l; f_equal; lia|done].
    - by destruct (user_work x). }
  destruct (user_work x); exact Ok'.
Qed.

Lemma set_quiet_ok t x y w live dead held : io_ok w live dead held -> tasks w !! t = Some x ->
  slot_data_ y = slot_data_ x -> user_work y = user_work x -> user_io_counted y = user_io_counted x -> has_ctx y = has_ctx x ->
  io_ok (set_task t y w) live dead held.
Proof.
  intros [O1 O2 O3 O4 O5 O6 O7] Ht E1 E2 E3 E4.
  assert (Hold : forall u z, <[t := y]> (tasks w) !! u = Some z -> exists z0, tasks w !! u = Some z0 /\ slot_data_ z = slot_data_ z0 /\
    user_work z = user_work z0 /\ user_io_counted z = user_io_counted z0 /\ has_ctx z = has_ctx z0).
  { intros u z Hu. apply lookup_insert_Some in Hu as [[<- <-]|[_ Hu]]; [by exists x|by exists z]. }
  split; simpl; try done.
  - intros u z Hu Hz. destruct (Hold u z Hu) as (z0 & Hu0 & D1 & _ & _ & D4). rewrite D1, D4. apply (O2 u); [done|]. unfold in_flight in *. by rewrite <- D1.
  - intros d u Hd. destruct (O3 d u Hd) as (z & Hu & Ez). destruct (decide (t = u)) as [<-|Hne]; [exists y; rewrite lookup_insert_eq; split; [done|congruence]|].
    exists z. by rewrite lookup_insert_ne.
  - intros u z Hu. destruct (Hold u z Hu) as (z0 & Hu0 & D1 & D2 & D3 & _). unfold in_flight. rewrite D1, D2, D3. by apply (O4 u).
  - by rewrite (count_same user_io_counted _ _ _ _ Ht E3).
Qed.

Lemma suspend_ok t h w live dead held x :
  io_ok w live dead held -> tasks w !! t = Some x -> in_flight x = false -> has_ctx x = true -> slot_count (slots w) < 2 ^ 31 ->
  exists w' b, await_suspend t h w = Some (w', b) /\
    ((b = true /\ exists d, io_ok w' (<[d := t]> live) dead held /\ live !! d = None /\ d <> 0) \/
     (b = false /\ io_ok w' live dead held /\ exists y, tasks w' !! t = Some y /\ utask_resume y = Unexpected (system_error ENOBUFS))).
Proof.
  intros O Ht Hx Hctx Hn. unfold await_suspend. rewrite Ht, Hctx. simpl.
  assert (Ok1 : io_ok (set_task t (set_handle h x) w) live dead held) by (eapply set_quiet_ok; try done).
  pose proof (get_sqe_frame (set_task t (set_handle h x) w)) as F.
  assert (Hcode : forall e, (get_sqe (set_task t (set_handle h x) w)).2 = Unexpected e -> e = system_error ENOBUFS).
  { intros e. unfold get_sqe. destruct (lib_get_sqe _) as [r [i|]]; [done|]. destruct (flush _) as [w1 n]. destruct (lib_get_sqe _) as [r1 [i|]]; [done|]. simpl. congruence. }
  destruct (get_sqe _) as [w1 [i|e]]; simpl in F, Hcode.
  - pose proof (ring_frame_ok _ _ _ _ _ F Ok1) as Ok2.
    destruct F as (Fs & Ft & _). assert (Ht1 : tasks w1 !! t = Some (set_handle h x)) by (rewrite Ft; apply lookup_insert_eq).
    destruct (prepare_ok t i w1 live dead held _ Ok2 Ht1 Hx Hctx ltac:(rewrite Fs; exact Hn)) as (w' & d & -> & Ok3 & Hd & Hd0).
    exists w', true. split; [done|]. left. split; [done|]. by exists d.
  - rewrite (Hcode e eq_refl). pose proof (ring_frame_ok _ _ _ _ _ F Ok1) as Ok2. destruct F as (Fs & Ft & _).
    eexists _, false. split; [done|]. right. split; [done|]. split.
    + eapply (set_quiet_ok t (set_handle h x)); try done. rewrite Ft. apply lookup_insert_eq.
    + eexists. simpl. rewrite lookup_insert_eq. split; [done|]. done.
Qed.

(** ** Completions *)

Lemma complete_ok t res w live dead held x :
  io_ok w live dead held -> tasks w !! t = Some x -> in_flight x = true -> may_free (slot_data_ x) w ->
  exists w', complete t res w = Some w' /\ io_ok w' (delete (slot_data_ x) live) ({[slot_data_ x]} ∪ dead) held /\
    (exists y, tasks w' !! t = Some y /\ completed y = true /\ value y = res /\ in_flight y = false) /\
    (forall u, u <> t -> tasks w' !! u = tasks w !! u) /\
    queue w' = queue w ++ (match handle x with Some h => if handle_done h then [] else [h] | None => [] end).
Proof.
  intros O Ht Ha Hf. pose proof (io_task _ _ _ _ O t x Ht Ha) as [Hl Hctx]. pose proof (io_ready _ _ _ _ O) as Hr.
  destruct (slot_release_ok 1 low_one _ _ _ _ _ (io_tbl _ _ _ _ O) Hl) as (s & tb & Eb & Es & _).
  unfold complete. rewrite Ht. set (y := mk_utask true _ false res _ _ 0).
  set (w1 := if user_io_counted x then _ else w). assert (E1 : slots w1 = slots w /\ tasks w1 = tasks w /\ queue w1 = queue w /\
    ready_ (tracker w1) = ready_ (tracker w) /\ user_io_ (tracker w1) = u32 (user_io_ (tracker w) - Z.of_nat (one (user_io_counted x)))).
  { subst w1. destruct (user_io_counted x); simpl; [done|]. rewrite Z.sub_0_r, (io_user _ _ _ _ O). unfold u32. by rewrite Zmod_mod. }
  destruct E1 as (E1 & E2 & E3 & E4 & E5). rewrite E1, Es.
  pose proof (count_replace user_io_counted (tasks w) t x y Ht) as Hc. simpl in Hc.
  assert (L : forall tr q rg sq hd, user_io_ tr = user_io_ (tracker w1) -> ready_ tr = u32 (Z.of_nat (length q)) ->
    io_ok (mk_io rg sq hd tr tb (<[t := y]> (tasks w1)) q) (delete (slot_data_ x) live) ({[slot_data_ x]} ∪ dead) held).
  { intros tr q rg sq hd Hu Hq. rewrite E2. eapply land_ok; try done.
    - intros u Hne. by rewrite lookup_insert_ne.
    - intros z Hz. rewrite lookup_insert_eq in Hz. by injection Hz as <-.
    - by rewrite Hu. }
  destruct (handle x) as [h|]; [destruct (handle_done h)|]; simpl; eexists; (split; [done|]);
    (split; [apply L; [done|]; simpl; try (by rewrite E3, E4)|]); simpl; try (rewrite length_app, E4, Hr, E3; simpl; rewrite u32_add_l; f_equal; lia).
  all: split; [exists y; by rewrite lookup_insert_eq|]. all: split; [intros u Hne; by rewrite lookup_insert_ne, E2|]. all: by rewrite E3, ?app_nil_r.
Qed.

(** A completion reaches exactly the operation its token names; a token that
    was given back, and the null token, change nothing. *)
Lemma process_live d t res w live dead held : io_ok w live dead held -> live !! d = Some t -> may_free d w ->
  exists x w', tasks w !! t = Some x /\ slot_data_ x = d /\ process_utask d res w = Some w' /\ io_ok w' (delete d live) ({[d]} ∪ dead) held /\
    (exists y, tasks w' !! t = Some y /\ completed y = true /\ value y = res) /\ (forall u, u <> t -> tasks w' !! u = tasks w !! u) /\
    queue w' = queue w ++ (match handle x with Some h => if handle_done h then [] else [h] | None => [] end).
Proof.
  intros O Hd Hf. destruct (io_live _ _ _ _ O d t Hd) as (x & Ht & <-). assert (Hd0 : slot_data_ x <> 0).
  { intros E. rewrite E, (io_nonzero _ _ _ _ O) in Hd. done. }
  assert (Ha : in_flight x = true) by (unfold in_flight; by apply negb_true_iff, Z.eqb_neq).
  destruct (complete_ok t res w live dead held x O Ht Ha Hf) as (w' & Ec & Ok & (y & H1 & H2 & H3 & _) & Hu & Hq).
  exists x, w'. split; [done|]. split; [done|]. split; [|split; [done|split; [by exists y|done]]].
  unfold process_utask. apply Z.eqb_neq in Hd0. rewrite Hd0. rewrite (lookup_live 1 low_one _ _ _ _ _ (io_tbl _ _ _ _ O) Hd). exact Ec.
Qed.
Lemma process_stale d res w live dead held : io_ok w live dead held -> d = 0 \/ d ∈ dead -> process_utask d res w = Some w.
Proof.
  intros O Hd. unfold process_utask. destruct (d =? 0) eqn:E; [done|]. destruct Hd as [->|Hd]; [done|].
  by rewrite (lookup_dead 1 low_one _ _ _ _ (io_tbl _ _ _ _ O) Hd).
Qed.

(** ** Objects come and go *)

Lemma new_ok t user w live dead held : io_ok w live dead held -> tasks w !! t = None -> io_ok (set_task t (new_utask user) w) live dead held.
Proof.
  intros [O1 O2 O3 O4 O5 O6 O7] Ht. split; simpl; try done.
  - intros u x Hu Hx. apply lookup_insert_Some in Hu as [[_ <-]|[_ Hu]]; [done|by apply (O2 u)].
  - intros d u Hd. destruct (O3 d u Hd) as (x & Hu & Ex). exists x. split; [|done]. rewrite lookup_insert_ne; [done|]. congruence.
  - intros u x Hu. apply lookup_insert_Some in Hu as [[_ <-]|[_ Hu]]; [by rewrite andb_false_r|by apply (O4 u)].
  - by rewrite count_insert.
Qed.

Lemma utask_destroy_ok t w live dead held x : io_ok w live dead held -> tasks w !! t = Some x -> (in_flight x = true -> may_free (slot_data_ x) w) ->
  exists w', destroy_utask t w = Some w' /\ tasks w' !! t = None /\
    io_ok w' (delete (slot_data_ x) live) (if in_flight x then {[slot_data_ x]} ∪ dead else dead) held.
Proof.
  intros O Ht Hf. pose proof (io_counted _ _ _ _ O t x Ht) as Hcx. pose proof (count_delete user_io_counted (tasks w) t x Ht) as Hc.
  unfold destroy_utask. rewrite Ht. fold (in_flight x). destruct (in_flight x) eqn:Ha.
  - destruct (io_task _ _ _ _ O t x Ht Ha) as [Hl Hctx]. rewrite Hctx, andb_true_r. simpl.
    destruct (slot_release_ok 1 low_one _ _ _ _ _ (io_tbl _ _ _ _ O) Hl) as (s & tb & Eb & Es & _).
    assert (L : forall tr, user_io_ tr = u32 (user_io_ (tracker w) - Z.of_nat (one (user_io_counted x))) -> ready_ tr = ready_ (tracker w) ->
      io_ok (mk_io (ring w) (sqes w) (handed w) tr tb (delete t (tasks w)) (queue w)) (delete (slot_data_ x) live) ({[slot_data_ x]} ∪ dead) held).
    { intros tr H1 H2. apply (land_ok w live dead held t x); try done; [by apply Hf|intros u Hu; by rewrite lookup_delete_ne|by rewrite lookup_delete_eq|].
      rewrite H2. apply (io_ready _ _ _ _ O). }
    destruct (user_io_counted x); simpl; rewrite Es; eexists; (split; [done|]); (split; [apply lookup_delete_eq|]); apply L; try done.
    simpl. rewrite Z.sub_0_r, (io_user _ _ _ _ O). unfold u32. by rewrite Zmod_mod.
  - rewrite andb_false_r in Hcx. rewrite Hcx. simpl. eexists. split; [done|]. split; [apply lookup_delete_eq|].
    assert (E0 : slot_data_ x = 0) by (unfold in_flight in Ha; by apply negb_false_iff, Z.eqb_eq in Ha).
    rewrite E0, (delete_id _ _ (io_nonzero _ _ _ _ O)). destruct O as [O1 O2 O3 O4 O5 O6 O7]. split; simpl; try done.
    + intros u y Hu Hy. apply lookup_delete_Some in Hu as [_ Hu]. by apply (O2 u).
    + intros d u Hd. destruct (O3 d u Hd) as (y & Hu & Ey). exists y. split; [|done]. rewrite lookup_delete_ne; [done|]. intros <-.
      rewrite Ht in Hu. injection Hu as <-. congruence.
    + intros u y Hu. apply lookup_delete_Some in Hu as [_ Hu]. by apply (O4 u).
    + rewrite Hcx in Hc. simpl in Hc. by rewrite Hc.
Qed.

(** An operation that is not in flight may be moved. *)
Lemma move_ok t t' w live dead held x : io_ok w live dead held -> tasks w !! t = Some x -> tasks w !! t' = None -> in_flight x = false ->
  exists w', move_utask t t' w = Some w' /\ io_ok w' live dead held.
Proof.
  intros O Ht Ht' Ha. unfold move_utask. rewrite Ht. eexists. split; [done|].
  pose proof (io_counted _ _ _ _ O t x Ht) as Hcx. rewrite Ha, andb_false_r in Hcx.
  assert (E0 : slot_data_ x = 0) by (unfold in_flight in Ha; by apply negb_false_iff, Z.eqb_eq in Ha).
  assert (Hne : t' <> t) by congruence. destruct O as [O1 O2 O3 O4 O5 O6 O7]. split; simpl; try done.
  - intros u y Hu Hy. apply lookup_insert_Some in Hu as [[_ <-]|[_ Hu]]; [congruence|].
    apply lookup_insert_Some in Hu as [[_ <-]|[_ Hu]]; [done|by apply (O2 u)].
  - intros d u Hd. destruct (O3 d u Hd) as (y & Hu & Ey). exists y. split; [|done]. rewrite lookup_insert_ne, lookup_insert_ne; [done| |congruence].
    intros <-. rewrite Ht in Hu. injection Hu as <-. congruence.
  - intros u y Hu. apply lookup_insert_Some in Hu as [[_ <-]|[_ Hu]]; [by rewrite Hcx, Ha, andb_false_r|].
    apply lookup_insert_Some in Hu as [[_ <-]|[_ Hu]]; [simpl; unfold in_flight; by rewrite andb_false_r|by apply (O4 u)].
  - rewrite count_insert by (by rewrite lookup_insert_ne). rewrite Hcx.
    assert (Ec : forall y, user_io_counted y = false -> count_if user_io_counted (<[t := y]> (tasks w)) = count_if user_io_counted (tasks w)).
    { intros y Ey. apply (count_same _ _ _ x); [done|congruence]. }
    by rewrite Ec.
Qed.

(** [work_token_t]: taken and released. *)
Definition token_take w : io_t := set_tracker (user_io_add 1 (tracker w)) w.
Definition token_release w : io_t := set_tracker (user_io_remove 1 (tracker w)) w.

Lemma token_take_ok w live dead held : io_ok w live dead held -> io_ok (token_take w) live dead (S held).
Proof. intros [O1 O2 O3 O4 O5 O6 O7]. split; simpl; try done. rewrite O6, u32_add_l. f_equal. lia. Qed.
Lemma token_release_ok w live dead held : io_ok w live dead (S held) -> io_ok (token_release w) live dead held.
Proof. intros [O1 O2 O3 O4 O5 O6 O7]. split; simpl; try done. rewrite O6, u32_sub_l. f_equal. lia. Qed.

(** ** Entries in flight *)

(** [io_inflight_] is what the kernel holds, taken minus [reaped], and [over]
    entries more. *)
Definition inflight_ok w (reaped over : nat) : Prop := io_inflight_ (tracker w) = u32 (Z.of_nat (length (handed w)) - Z.of_nat reaped + Z.of_nat over).

Definition same_flow w w' : Prop := handed w' = handed w /\ io_inflight_ (tracker w') = io_inflight_ (tracker w).
Lemma same_flow_ok w w' reaped over : same_flow w w' -> inflight_ok w reaped over -> inflight_ok w' reaped over.
Proof. unfold inflight_ok. by intros [-> ->]. Qed.

Lemma hand_over_length k r w : (k <= length (acquired (ring w)))%nat -> length (handed (hand_over k r w)) = (length (handed w) + k)%nat.
Proof. intros Hk. simpl. rewrite length_app, length_map, length_take_le by done. done. Qed.
End Uring.

Section Books.
Context {R : Type} `{LiburingLaws R} (handle_done : Z -> bool).
Implicit Types w : io_t (R := R).

Lemma flush_inflight w reaped over : inflight_ok w reaped over -> inflight_ok (flush w).1 reaped over.
Proof.
  unfold inflight_ok, flush. intros E. destruct (lib_submit (ring w)) as [r n] eqn:El. destruct (submit_taken _ _ _ El) as [Hn _].
  destruct (Z.ltb_spec 0 n) as [Hp|Hp]; cbn [fst set_tracker tracker io_submit io_inflight_ handed hand_over].
  - pose proof (hand_over_length (Z.to_nat n) r w ltac:(lia)) as L. cbn [handed hand_over] in L. rewrite L, E, u32_add_l. f_equal. lia.
  - replace (Z.to_nat n) with 0%nat by lia. by rewrite take_0, app_nil_r.
Qed.

Lemma get_sqe_inflight w reaped over : inflight_ok w reaped over -> inflight_ok (get_sqe w).1 reaped over.
Proof.
  intros E. unfold get_sqe. destruct (lib_get_sqe (ring w)) as [r [i|]]; [exact E|].
  pose proof (flush_inflight (set_ring r w) reaped over E) as F. destruct (flush _) as [w1 n]. destruct (lib_get_sqe _) as [r1 [i|]]; exact F.
Qed.
Lemma prep_cancel_inflight token w reaped over : inflight_ok w reaped over -> inflight_ok (prep_cancel token w) reaped over.
Proof. intros E. unfold prep_cancel. pose proof (get_sqe_inflight w reaped over E) as F. destruct (get_sqe w) as [w1 [i|e]]; exact F. Qed.
Lemma io_detach_inflight w reaped over : inflight_ok w reaped over -> inflight_ok (io_detach w).1 reaped over.
Proof. intros E. unfold io_detach. pose proof (get_sqe_inflight w reaped over E) as F. destruct (get_sqe w) as [w1 [i|e]]; exact F. Qed.

Lemma nop_out_flow out w : ring_frame w (nop_out out w) /\ same_flow w (nop_out out w).
Proof.
  unfold nop_out. revert w. induction out as [|i out IH]; intros w; [by repeat split|]. simpl.
  destruct (IH (set_sqe i (mk_sqe OpNop 0 false) w)) as [F S]. split; [exact F|exact S].
Qed.
Lemma get_sqes_flow n out w reaped over : inflight_ok w reaped over ->
  ring_frame w (get_sqes_loop n out w).1 /\ inflight_ok (get_sqes_loop n out w).1 reaped over.
Proof.
  revert out w. induction n as [|n IH]; intros out w E; simpl; [by repeat split|].
  destruct (lib_get_sqe (ring w)) as [r [i|]]; [exact (IH _ (set_ring r w) E)|].
  pose proof (flush_inflight (set_ring r w) reaped over E) as F. pose proof (flush_frame (set_ring r w)) as G. destruct (flush _) as [w1 m].
  destruct (lib_get_sqe (ring w1)) as [r1 [i|]].
  - destruct (IH (out ++ [i]) (set_ring r1 w1) F) as [G1 F1]. split; [exact (ring_frame_trans _ _ _ G G1)|exact F1].
  - destruct (nop_out_flow out (set_ring r1 w1)) as [G1 S1]. split; [exact (ring_frame_trans _ _ _ G G1)|]. by apply (same_flow_ok _ _ _ _ S1).
Qed.

Lemma prepare_flow t i w w' : prepare_into t i w = Some w' -> same_flow w w'.
Proof.
  unfold prepare_into. destruct (tasks w !! t) as [x|]; [|done]. destruct (slot_alloc _ _) as [[tb d]|]; [|done]. intros [= <-].
  by destruct (_ && _).
Qed.
Lemma suspend_flow t h w w' b reaped over : inflight_ok w reaped over -> await_suspend t h w = Some (w', b) -> inflight_ok w' reaped over.
Proof.
  intros E. unfold await_suspend. destruct (tasks w !! t) as [x|]; [|done]. destruct (negb _); [done|].
  pose proof (get_sqe_inflight (set_task t (set_handle h x) w) reaped over E) as F. destruct (get_sqe _) as [w1 [i|e]]; simpl in F.
  - destruct (prepare_into t i w1) as [w2|] eqn:Ep; [|done]. intros [= <- <-]. by apply (same_flow_ok _ _ _ _ (prepare_flow _ _ _ _ Ep)).
  - by intros [= <- <-].
Qed.
Lemma complete_flow t res w w' : complete handle_done t res w = Some w' -> same_flow w w'.
Proof.
  unfold complete. destruct (tasks w !! t) as [x|]; [|done]. destruct (slot_free _ _) as [tb|]; [|done]. intros [= <-].
  destruct (user_io_counted x); destruct (handle x) as [h|]; try destruct (negb _); done.
Qed.
Lemma process_flow d res w w' : process_utask handle_done d res w = Some w' -> same_flow w w'.
Proof.
  unfold process_utask. destruct (d =? 0); [by intros [= <-]|]. destruct (slot_lookup _ _); [apply complete_flow|by intros [= <-]].
Qed.
Lemma process_each_flow cqes w w' : process_each handle_done cqes w = Some w' -> same_flow w w'.
Proof.
  revert w. induction cqes as [|[d res] cqes IH]; intros w; simpl; [by intros [= <-]|].
  destruct (process_utask handle_done d res w) as [w1|] eqn:E; [|done]. intros H1. destruct (process_flow _ _ _ _ E) as [A1 A2].
  destruct (IH w1 H1) as [B1 B2]. split; congruence.
Qed.
Lemma destroy_flow t w w' : destroy_utask t w = Some w' -> same_flow w w'.
Proof.
  unfold destroy_utask. destruct (tasks w !! t) as [x|]; [|done].
  destruct (user_io_counted x && has_ctx x), (negb (slot_data_ x =? 0) && has_ctx x); simpl; try (destruct (slot_free _ _) as [tb|]; [|done]); by intros [= <-].
Qed.
Lemma move_flow t t' w w' : move_utask t t' w = Some w' -> same_flow w w'.
Proof. unfold move_utask. destruct (tasks w !! t) as [x|]; [|done]. by intros [= <-]. Qed.

Lemma timeout_ok t h w live dead held x w' b reaped over :
  io_ok w live dead held -> inflight_ok w reaped over -> tasks w !! t = Some x -> in_flight x = false -> has_ctx x = true -> slot_count (slots w) < 2 ^ 31 ->
  timeout_suspend t h w = Some (w', b) -> io_ok w' (if b then <[slot_data_of t w' := t]> live else live) dead held /\ inflight_ok w' reaped over.
Proof.
  intros O I Ht Hx Hc Hn. unfold timeout_suspend. rewrite Ht.
  assert (Ok1 : io_ok (set_task t (set_handle h x) w) live dead held) by (eapply set_quiet_ok; try done).
  destruct (get_sqes_flow 2 [] (set_task t (set_handle h x) w) reaped over I) as [F I1]. unfold get_sqes.
  destruct (get_sqes_loop 2 [] _) as [w1 r]; simpl in F, I1. pose proof (ring_frame_ok _ _ _ _ _ F Ok1) as Ok2. destruct F as (Fs & Ft & _).
  assert (Ht1 : tasks w1 !! t = Some (set_handle h x)) by (rewrite Ft; apply lookup_insert_eq).
  assert (Hfail : Some (set_task t (fail_task ENOBUFS (set_handle h x)) w1, false) = Some (w', b) ->
    io_ok w' (if b then <[slot_data_of t w' := t]> live else live) dead held /\ inflight_ok w' reaped over).
  { intros [= <- <-]. split; [eapply (set_quiet_ok t (set_handle h x)); try done|exact I1]. }
  destruct r as [[|i [|j [|]]]|e]; try exact Hfail.
  destruct (prepare_ok t i w1 live dead held _ Ok2 Ht1 Hx Hc ltac:(rewrite Fs; exact Hn)) as (w2 & d & Ep & Ok3 & _). rewrite Ep. intros [= <- <-].
  assert (Ed : slot_data_of t w2 = d).
  { destruct (io_live _ _ _ _ Ok3 d t (lookup_insert_eq _ _ _)) as (y & Hy & Ey). unfold slot_data_of. by rewrite Hy. }
  set (w3 := set_sqe j _ _). assert (F3 : ring_frame w2 w3) by done. split.
  - change (slot_data_of t w3) with (slot_data_of t w2). rewrite Ed. exact (ring_frame_ok _ _ _ _ _ F3 Ok3).
  - exact (same_flow_ok _ _ _ _ (prepare_flow _ _ _ _ Ep) I1).
Qed.

(** ** Waiting

    [lib_submit_and_wait] took [k] of the entries that were ready; the code
    counts all of them. *)
Definition untaken w (k : nat) : nat := (length (acquired (ring w)) - k)%nat.

Lemma wait_flow w w' n reaped over r ret k :
  inflight_ok w reaped over -> lib_submit_and_wait (ring w) = (r, ret, k) -> submit_and_wait_cqes handle_done [] w = Some (w', n) ->
  ring_frame w w' /\ inflight_ok w' reaped (over + untaken w k).
Proof.
  intros E El. unfold submit_and_wait_cqes. rewrite El, sq_ready_spec. destruct (wait_taken _ _ _ _ El) as [Hk _].
  set (m := Z.of_nat (length (acquired (ring w)))). set (w1 := if 0 <? m then _ else _).
  assert (G : ring_frame w w1 /\ inflight_ok w1 reaped (over + untaken w k)).
  { unfold inflight_ok, untaken in *. pose proof (hand_over_length k r w Hk) as Hl. subst w1. destruct (Z.ltb_spec 0 m) as [Hm|Hm].
    - split; [by repeat split|]. cbn [set_tracker tracker io_submit io_inflight_ handed hand_over] in *. rewrite Hl, E, u32_add_l. f_equal. lia.
    - split; [by repeat split|]. cbn [tracker handed hand_over] in *. rewrite Hl, E. f_equal. lia. }
  destruct (ret =? - ETIME); [by intros [= <- _]|]. unfold process_cqes. simpl. intros [= <- _]. destruct G as [G1 G2]. split; [exact G1|].
  unfold inflight_ok in *. cbn [set_tracker tracker io_complete io_inflight_ handed]. rewrite Z.sub_0_r, G2. unfold u32. by rewrite Zmod_mod.
Qed.

(** A batch of completions is one after the other. *)
Lemma process_complete_comm d res k w :
  process_utask handle_done d res (set_tracker (io_complete k (tracker w)) w) =
  match process_utask handle_done d res w with Some w' => Some (set_tracker (io_complete k (tracker w')) w') | None => None end.
Proof.
  unfold process_utask. destruct (d =? 0); [done|]. cbn [slots set_tracker]. destruct (slot_lookup d (slots w)) as [t|]; [|done].
  unfold complete. cbn [tasks set_tracker]. destruct (tasks w !! t) as [x|]; [|done].
  destruct (user_io_counted x); cbn [slots set_tracker]; destruct (slot_free _ _) as [tb|]; try done; destruct (handle x) as [h|]; try done; by destruct (negb _).
Qed.

Lemma process_each_comm cqes k : forall w,
  process_each handle_done cqes (set_tracker (io_complete k (tracker w)) w) =
  match process_each handle_done cqes w with Some w' => Some (set_tracker (io_complete k (tracker w')) w') | None => None end.
Proof.
  induction cqes as [|[d res] cqes IH]; intros w; [done|]. cbn [process_each]. rewrite process_complete_comm.
  destruct (process_utask handle_done d res w) as [w1|]; [apply IH|done].
Qed.

Lemma process_batch d res cqes w :
  process_cqes handle_done ((d, res) :: cqes) w =
  match process_cqes handle_done [(d, res)] w with
  | Some (w1, _) => match process_cqes handle_done cqes w1 with Some (w2, n) => Some (w2, n + 1) | None => None end
  | None => None
  end.
Proof.
  unfold process_cqes. cbn [process_each]. destruct (process_utask handle_done d res w) as [w1|]; [|done]. rewrite process_each_comm.
  destruct (process_each handle_done cqes w1) as [w2|]; [|done]. cbn [length].
  assert (E : io_complete (Z.of_nat (S (length cqes))) (tracker w2) = io_complete (Z.of_nat (length cqes)) (io_complete (Z.of_nat 1) (tracker w2))).
  { unfold io_complete. cbn. f_equal. rewrite u32_sub_l. f_equal. lia. }
  f_equal. f_equal; [|lia]. unfold set_tracker. cbn [tracker ring sqes handed slots tasks queue]. f_equal. exact E.
Qed.

(** ** Any use

    Objects are created, moved before they are awaited, awaited and destroyed;
    entries are submitted, alone or by a wait; completions arrive for the
    operations in flight, late or for none, one by one or in batches
    ([process_batch]); [reaped] counts the completions, [over] the entries that
    waits counted and the kernel had not taken.  A slot is not given back when
    that would wrap its generation ([may_free]), and there are fewer than 2^31
    slots when an operation is awaited. *)
Inductive io_reach : io_t (R := R) -> gmap Z Z -> gset Z -> nat -> nat -> nat -> Prop :=
| ior_start r capacity : 0 < capacity < 2 ^ 32 -> io_reach (mk_io r ∅ [] tracker_init (make_table capacity) ∅ []) ∅ ∅ 0 0 0
| ior_new w live dead held reaped over t user : io_reach w live dead held reaped over -> tasks w !! t = None -> io_reach (set_task t (new_utask user) w) live dead held reaped over
| ior_move w live dead held reaped over t t' x w' : io_reach w live dead held reaped over -> tasks w !! t = Some x -> tasks w !! t' = None -> in_flight x = false ->
    move_utask t t' w = Some w' -> io_reach w' live dead held reaped over
| ior_await w live dead held reaped over t h x w' b live' : io_reach w live dead held reaped over -> tasks w !! t = Some x -> in_flight x = false -> has_ctx x = true ->
    slot_count (slots w) < 2 ^ 31 -> await_suspend t h w = Some (w', b) ->
    live' = (if b then <[slot_data_of t w' := t]> live else live) -> io_reach w' live' dead held reaped over
| ior_timeout w live dead held reaped over t h x w' b live' : io_reach w live dead held reaped over -> tasks w !! t = Some x -> in_flight x = false -> has_ctx x = true ->
    slot_count (slots w) < 2 ^ 31 -> timeout_suspend t h w = Some (w', b) ->
    live' = (if b then <[slot_data_of t w' := t]> live else live) -> io_reach w' live' dead held reaped over
| ior_destroy w live dead held reaped over t x w' : io_reach w live dead held reaped over -> tasks w !! t = Some x -> (in_flight x = true -> may_free (slot_data_ x) w) ->
    destroy_utask t w = Some w' -> io_reach w' (delete (slot_data_ x) live) (if in_flight x then {[slot_data_ x]} ∪ dead else dead) held reaped over
| ior_cqe w live dead held reaped over d t res w' n : io_reach w live dead held reaped over -> live !! d = Some t -> may_free d w ->
    process_cqes handle_done [(d, res)] w = Some (w', n) -> io_reach w' (delete d live) ({[d]} ∪ dead) held (S reaped) over
| ior_late w live dead held reaped over d res w' n : io_reach w live dead held reaped over -> d = 0 \/ d ∈ dead ->
    process_cqes handle_done [(d, res)] w = Some (w', n) -> io_reach w' live dead held (S reaped) over
| ior_submit w live dead held reaped over : io_reach w live dead held reaped over -> io_reach (submit w).1 live dead held reaped over
| ior_wait w live dead held reaped over r ret k w' n : io_reach w live dead held reaped over -> lib_submit_and_wait (ring w) = (r, ret, k) ->
    submit_and_wait_cqes handle_done [] w = Some (w', n) -> io_reach w' live dead held reaped (over + untaken w k)
| ior_detach w live dead held reaped over : io_reach w live dead held reaped over -> io_reach (io_detach w).1 live dead held reaped over
| ior_cancel w live dead held reaped over token : io_reach w live dead held reaped over -> io_reach (prep_cancel token w) live dead held reaped over
| ior_take w live dead held reaped over : io_reach w live dead held reaped over -> io_reach (token_take w) live dead (S held) reaped over
| ior_release w live dead held reaped over : io_reach w live dead (S held) reaped over -> io_reach (token_release w) live dead held reaped over.

Lemma suspend_token t h w live dead held x w' b :
  io_ok w live dead held -> tasks w !! t = Some x -> in_flight x = false -> has_ctx x = true -> slot_count (slots w) < 2 ^ 31 ->
  await_suspend t h w = Some (w', b) -> io_ok w' (if b then <[slot_data_of t w' := t]> live else live) dead held.
Proof.
  intros O Ht Hx Hc Hn Ha. destruct (suspend_ok t h w live dead held x O Ht Hx Hc Hn) as (w1 & b1 & E & D). rewrite Ha in E. injection E as <- <-.
  destruct D as [(-> & d & Ok & _ & _)|(-> & Ok & _)]; [|exact Ok]. destruct (io_live _ _ _ _ Ok d t (lookup_insert_eq _ _ _)) as (y & Hy & Ey).
  unfold slot_data_of. by rewrite Hy, Ey.
Qed.

Lemma io_complete_ok n w live dead held : io_ok w live dead held -> io_ok (set_tracker (io_complete n (tracker w)) w) live dead held.
Proof. intros [O1 O2 O3 O4 O5 O6 O7]. by split. Qed.

Lemma one_cqe d res w w' n reaped over : inflight_ok w reaped over -> process_cqes handle_done [(d, res)] w = Some (w', n) ->
  exists w1, process_utask handle_done d res w = Some w1 /\ w' = set_tracker (io_complete 1 (tracker w1)) w1 /\ inflight_ok w' (S reaped) over.
Proof.
  intros E. unfold process_cqes. simpl. destruct (process_utask handle_done d res w) as [w1|] eqn:Ep; [|done]. intros [= <- <-].
  exists w1. split; [done|]. split; [done|]. destruct (process_flow _ _ _ _ Ep) as [F1 F2]. unfold inflight_ok in *. simpl.
  rewrite F1, F2, E, u32_sub_l. f_equal. lia.
Qed.

Lemma io_reach_ok w live dead held reaped over : io_reach w live dead held reaped over -> io_ok w live dead held /\ inflight_ok w reaped over.
Proof.
  induction 1 as [r capacity Hc|w live dead held reaped over t user R0 [O I] Ht|w live dead held reaped over t t' x w' R0 [O I] Ht Ht' Hx Hm
    |w live dead held reaped over t h x w' b live' R0 [O I] Ht Hx Hctx Hn Ha ->|w live dead held reaped over t h x w' b live' R0 [O I] Ht Hx Hctx Hn Ha ->|w live dead held reaped over t x w' R0 [O I] Ht Hf Hd
    |w live dead held reaped over d t res w' n R0 [O I] Hd Hf Hp|w live dead held reaped over d res w' n R0 [O I] Hd Hp
    |w live dead held reaped over R0 [O I]|w live dead held reaped over r ret k w' n R0 [O I] El Hw|w live dead held reaped over R0 [O I]|w live dead held reaped over token R0 [O I]
    |w live dead held reaped over R0 [O I]|w live dead held reaped over R0 [O I]].
  - split; [|done]. split; simpl; try done; [by apply (make_ok 1 low_one)].
  - split; [by apply new_ok|exact I].
  - destruct (move_ok t t' w live dead held x O Ht Ht' Hx) as (w1 & E & Ok). rewrite Hm in E. injection E as <-.
    split; [done|]. by apply (same_flow_ok _ _ _ _ (move_flow _ _ _ _ Hm)).
  - split; [by eapply suspend_token|by eapply suspend_flow].
  - by eapply timeout_ok.
  - destruct (utask_destroy_ok t w live dead held x O Ht Hf) as (w1 & E & _ & Ok). rewrite Hd in E. injection E as <-.
    split; [done|]. by apply (same_flow_ok _ _ _ _ (destroy_flow _ _ _ Hd)).
  - destruct (one_cqe _ _ _ _ _ _ _ I Hp) as (w1 & E & -> & I1). split; [|exact I1].
    destruct (process_live handle_done d t res w live dead held O Hd Hf) as (x & w2 & _ & _ & E2 & Ok & _). rewrite E in E2. injection E2 as <-. by apply io_complete_ok.
  - destruct (one_cqe _ _ _ _ _ _ _ I Hp) as (w1 & E & -> & I1). split; [|exact I1].
    rewrite (process_stale handle_done d res w live dead held O Hd) in E. injection E as <-. by apply io_complete_ok.
  - split; [exact (ring_frame_ok _ _ _ _ _ (submit_frame w) O)|by apply flush_inflight].
  - destruct (wait_flow _ _ _ _ _ _ _ _ I El Hw) as [F I1]. split; [exact (ring_frame_ok _ _ _ _ _ F O)|exact I1].
  - split; [exact (ring_frame_ok _ _ _ _ _ (io_detach_frame w) O)|by apply io_detach_inflight].
  - split; [exact (ring_frame_ok _ _ _ _ _ (prep_cancel_frame token w) O)|by apply prep_cancel_inflight].
  - split; [by apply token_take_ok|exact I].
  - split; [by apply token_release_ok|exact I].
Qed.

(** C22: in any use of the ring, waits included, the books are known exactly:
    [user_io_] is the number of the application's operations in flight plus
    the work tokens held, [ready_] the length of the ready queue, and
    [io_inflight_] the entries the kernel took minus the completions reaped,
    plus the entries that waits counted although the kernel had not taken
    them (as 32-bit counters); it is exact as long as every wait flushes what
    was ready.  A completion whose token is in flight completes exactly that
    operation with that result and schedules its coroutine once; a completion
    whose operation was destroyed, and the null token, change nothing; and an
    operation can be destroyed at any moment, which keeps the books.  This is
    as long as no slot is given back 2^32 - 1 times and there are fewer than
    2^31 slots. *)
Theorem uring_books w live dead held reaped over : io_reach w live dead held reaped over ->
  user_io_ (tracker w) = u32 (Z.of_nat (count_if (fun x => user_work x && in_flight x) (tasks w) + held)) /\
  io_inflight_ (tracker w) = u32 (Z.of_nat (length (handed w)) - Z.of_nat reaped + Z.of_nat over) /\
  ready_ (tracker w) = u32 (Z.of_nat (length (queue w))) /\
  (forall t x, tasks w !! t = Some x -> in_flight x = true -> live !! slot_data_ x = Some t) /\
  (forall d t res, live !! d = Some t -> may_free d w -> exists x w', tasks w !! t = Some x /\ process_utask handle_done d res w = Some w' /\
    (exists y, tasks w' !! t = Some y /\ completed y = true /\ value y = res) /\ (forall u, u <> t -> tasks w' !! u = tasks w !! u) /\
    queue w' = queue w ++ (match handle x with Some h => if handle_done h then [] else [h] | None => [] end)) /\
  (forall d res, d = 0 \/ d ∈ dead -> process_utask handle_done d res w = Some w) /\
  (forall t x, tasks w !! t = Some x -> (in_flight x = true -> may_free (slot_data_ x) w) -> exists w', destroy_utask t w = Some w' /\ tasks w' !! t = None).
Proof.
  intros R0. apply io_reach_ok in R0 as [O I]. split_and!.
  - rewrite (io_user _ _ _ _ O). do 2 f_equal. f_equal. apply count_ext. intros t x. apply (io_counted _ _ _ _ O).
  - exact I.
  - apply (io_ready _ _ _ _ O).
  - intros t x Ht Hx. by apply (io_task _ _ _ _ O).
  - intros d t res Hd Hf. destruct (process_live handle_done d t res w live dead held O Hd Hf) as (x & w' & H1 & _ & H3 & _ & H4 & H5 & H6). by exists x, w'.
  - intros d res Hd. by apply (process_stale handle_done d res w live dead held).
  - intros t x Ht Hf. destruct (utask_destroy_ok t w live dead held x O Ht Hf) as (w' & E & N & _). by exists w'.
Qed.

(** A wait counts the entries that were ready whatever the call did: if the
    kernel took fewer, the counter is ahead of it from then on, since a later
    submission counts the rest again. *)
Theorem wait_overcounts w w' n reaped r ret k :
  inflight_ok w reaped 0 -> lib_submit_and_wait (ring w) = (r, ret, k) -> (k < length (acquired (ring w)))%nat ->
  submit_and_wait_cqes handle_done [] w = Some (w', n) -> exists m, (0 < m)%nat /\ inflight_ok w' reaped m.
Proof.
  intros E El Hk Ew. destruct (wait_flow _ _ _ _ _ _ _ _ E El Ew) as [_ I]. exists (untaken w k). split; [|exact I]. unfold untaken. lia.
Qed.

(** [get_sqes] when only the last free entry is left: the forced submission
    also hands over the entry just acquired, whose contents are whatever the
    previous user of that slot left there. *)
Theorem get_sqes_ships_unprepared w r1 r2 r3 r4 i j n :
  lib_get_sqe (ring w) = (r1, Some i) -> lib_get_sqe r1 = (r2, None) -> lib_submit r2 = (r3, n) -> n = Z.of_nat (length (acquired r2)) ->
  lib_get_sqe r3 = (r4, Some j) ->
  exists w', get_sqes 2 w = (w', Ok [i; j]) /\ handed w' = handed w ++ map (fun k => sqe_at k w) (acquired (ring w)) ++ [sqe_at i w] /\ acquired (ring w') = [j].
Proof.
  intros E1 E2 E3 -> E4. destruct (get_sqe_some _ _ _ E1) as [A1 _]. pose proof (get_sqe_none _ _ E2) as A2.
  destruct (submit_taken _ _ _ E3) as [_ A3]. destruct (get_sqe_some _ _ _ E4) as [A4 _].
  assert (Hp : 0 <? Z.of_nat (length (acquired r2)) = true) by (apply Z.ltb_lt; rewrite A2, A1, length_app; simpl; lia).
  unfold get_sqes. cbn [get_sqes_loop set_ring ring app]. rewrite E1. cbn [get_sqes_loop set_ring ring app]. rewrite E2. unfold flush.
  cbn [set_ring ring]. rewrite E3, Hp. cbn [set_tracker hand_over ring]. rewrite E4. eexists. split; [done|]. simpl. split.
  - rewrite Nat2Z.id, take_ge, A2, A1, map_app by lia. done.
  - rewrite A4, A3, Nat2Z.id, drop_ge by lia. done.
Qed.
End Books.

(** ** A small ring

    [cap] entries; a submission hands over all of them. *)
Record toy_ring := mk_toy { cap : Z; acq : list Z }.

#[local] Instance toy_lib : Liburing toy_ring := {
  lib_get_sqe r := match filter (fun i => i ∉ acq r) (seqZ 0 (cap r)) with
                   | i :: _ => (mk_toy (cap r) (acq r ++ [i]), Some i)
                   | [] => (r, None)
                   end;
  lib_submit r := (mk_toy (cap r) [], Z.of_nat (length (acq r)));
  lib_submit_and_wait r := (mk_toy (cap r) [], 0, length (acq r));
  lib_sq_ready r := Z.of_nat (length (acq r));
  acquired := acq
}.

#[local] Instance toy_laws : LiburingLaws toy_ring.
Proof.
  split; simpl.
  - intros r r' i E. destruct (filter _ _) as [|k l] eqn:F; [done|]. injection E as <- <-. split; [done|].
    assert (Hk : k ∈ filter (fun i => i ∉ acq r) (seqZ 0 (cap r))) by (rewrite F; left). by apply list_elem_of_filter in Hk as [? _].
  - intros r r' E. destruct (filter _ _); [by injection E as <-|done].
  - intros r r' n [= <- <-]. split; [lia|]. simpl. by rewrite Nat2Z.id, drop_ge.
  - intros r r' n k [= <- <- <-]. split; [lia|]. simpl. by rewrite drop_ge.
  - done.
Qed.

(** Two operations awaited, the first destroyed in flight. *)
Definition two_ops : io_t (R := toy_ring) :=
  set_task 2 (new_utask true) (set_task 1 (new_utask true) (mk_io (mk_toy 4 []) ∅ [] tracker_init (make_table 2) ∅ [])).
Definition or_else (o : option (io_t (R := toy_ring) * bool)) : io_t := match o with Some (w, _) => w | None => two_ops end.
Definition awaited1 : io_t := or_else (await_suspend 1 71 two_ops).
Definition awaited2 : io_t := or_else (await_suspend 2 70 awaited1).
Definition destroyed : io_t := match destroy_utask 1 awaited2 with Some w => w | None => awaited2 end.

Lemma may_free_check d (w : io_t (R := toy_ring)) :
  match slots_ (slots w) !! Z.to_nat (decode_slot_index d) with Some s => generation s + 1 <? 2 ^ 32 | None => true end = true -> may_free d w.
Proof. intros E s Hs. rewrite Hs in E. by apply Z.ltb_lt in E. Qed.

Lemma destroyed_reach (hd : Z -> bool) : io_reach hd destroyed {[4294967296 := 2]} {[4294967297]} 0 0 0.
Proof.
  assert (R2 : io_reach hd two_ops ∅ ∅ 0 0 0).
  { apply ior_new; [apply ior_new; [apply ior_start; lia|]|]; vm_compute; reflexivity. }
  assert (E3 : await_suspend 1 71 two_ops = Some (awaited1, true)) by (vm_compute; reflexivity).
  assert (R3 : io_reach hd awaited1 {[4294967297 := 1]} ∅ 0 0 0).
  { eapply (ior_await hd two_ops ∅ ∅ 0 0 0 1 71 (new_utask true)); [exact R2|vm_compute; reflexivity..|exact E3|vm_compute; reflexivity]. }
  assert (E4 : await_suspend 2 70 awaited1 = Some (awaited2, true)) by (vm_compute; reflexivity).
  assert (R4 : io_reach hd awaited2 (<[4294967296 := 2]> {[4294967297 := 1]}) ∅ 0 0 0).
  { eapply (ior_await hd awaited1 _ ∅ 0 0 0 2 70 (new_utask true)); [exact R3|vm_compute; reflexivity..|exact E4|vm_compute; reflexivity]. }
  assert (E5 : destroy_utask 1 awaited2 = Some destroyed) by (vm_compute; reflexivity).
  assert (Et : tasks awaited2 !! 1 = Some (mk_utask false true true 0 (Some 71) true 4294967297)) by (vm_compute; reflexivity).
  assert (F : may_free 4294967297 awaited2) by (apply may_free_check; vm_compute; reflexivity).
  pose proof (ior_destroy hd awaited2 _ ∅ 0 0 0 1 _ _ R4 Et (fun _ => F) E5) as R5.
  assert (El : delete 4294967297 (<[4294967296 := 2]> {[4294967297 := 1]}) = {[4294967296 := 2]} :> gmap Z Z) by (vm_compute; reflexivity).
  cbn [slot_data_] in R5. rewrite El in R5. rewrite union_empty_r_L in R5. exact R5.
Qed.

Lemma uring_books_witness :
  user_io_ (tracker destroyed) = 1 /\ process_utask (fun _ => false) 4294967297 5 destroyed = Some destroyed /\
  exists w', process_utask (fun _ => false) 4294967296 5 destroyed = Some w' /\ queue w' = [70].
Proof.
  destruct (uring_books (fun _ => false) _ _ _ _ _ _ (destroyed_reach _)) as (_ & _ & _ & _ & H5 & H6 & _).
  split; [vm_compute; reflexivity|]. split; [apply H6; right; set_solver|].
  destruct (H5 4294967296 2 5) as (x & w' & Hx & Hp & _ & _ & Hq); [vm_compute; reflexivity|apply may_free_check; vm_compute; reflexivity|].
  exists w'. split; [exact Hp|]. rewrite Hq. vm_compute in Hx. injection Hx as <-. reflexivity.
Defined.

(** A ring of two entries with one in use: an operation with a linked timeout
    is submitted with the contents of the previous user of its entry, and its
    timeout is left for the next batch. *)
Definition stale_ring : io_t (R := toy_ring) :=
  mk_io (mk_toy 2 [0]) {[0 := mk_sqe OpOther 0 false; 1 := mk_sqe (OpTask 9) 77 false]} [] tracker_init (make_table 4) {[5 := new_utask true]} [].

Theorem linked_timeout_ships_stale :
  match timeout_suspend 5 50 stale_ring with
  | Some (w, suspended) => suspended = true /\ handed w = [mk_sqe OpOther 0 false; mk_sqe (OpTask 9) 77 false] /\ acquired (ring w) = [0] /\
      sqe_at 0 w = mk_sqe OpLinkTimeout 0 false
  | None => False
  end.
Proof. vm_compute. done. Qed.
