(* ===== verification/Cancel.v ===== *)
(** * Cancellation scopes

    [canceler_t] and [cancellable_awaiter]: src/include/cornet/coroutine/cancel.h
    and src/src/cancel.cc.  Cancelers form a tree threaded through
    [first_child_], [parent_] and the sibling links ([sibs]); each keeps an
    intrusive list of the operations it can reach ([nlks]).  A node of such a
    list lives in the awaiter of its operation and is named after it.  [None] is
    the use of a deleted object.

    What a canceler and its awaiters use of the ring is the interface
    [CancelBackend]: the token of an operation, the request to the kernel to
    cancel a token, and the submission of an operation ([await_suspend] of
    [utask_t]).  Uring.v implements it. *)

From stdpp Require Import prelude gmap list fin_maps.
From Stdlib Require Import ZArith Lia.
From S2P Require Import Prelude Dll Uring.
Open Scope Z_scope.

(** ** The ring, as seen from here *)

Class CancelBackend (U : Type) := {
  io_token : Z -> U -> Z;
  prep_cancel : Z -> U -> U;
  op_suspend : Z -> U -> option (U * bool)
}.
Class CancelBackendLaws (U : Type) `{CancelBackend U} := {
  cancel_keeps_tokens : forall t tok u, io_token t (prep_cancel tok u) = io_token t u
}.

#[export] Instance uring_backend {R} `{Liburing R} (handle_of : Z -> Z) : CancelBackend (io_t (R := R)) := {
  io_token := slot_data_of;
  prep_cancel := Uring.prep_cancel;
  op_suspend t := Uring.await_suspend t (handle_of t)
}.
#[export] Instance uring_backend_laws {R} `{Liburing R} (handle_of : Z -> Z) : @CancelBackendLaws io_t (uring_backend handle_of).
Proof. split. intros t tok u. simpl. unfold slot_data_of. destruct (prep_cancel_frame tok u) as (_ & E & _). by rewrite E. Qed.

Definition EBUSY : Z := 16.

(** ** State *)

Record canceler_t := mk_canceler {
  cancelled_ : bool; active_head_ : option node_id; tracked_ops_ : Z; orphaned_ : bool;
  parent_ : option node_id; first_child_ : option node_id
}.

Section Cancel.
Context {U : Type} `{CancelBackend U}.

(** [ntask]: the operation of a node, as its number in the ring's books. *)
Record scopes_t := mk_scopes { cs : gmap node_id canceler_t; sibs : links; nlks : links; ntask : gmap node_id Z; io : U }.

Implicit Types w : scopes_t.

Definition set_c (c : node_id) (x : canceler_t) w := mk_scopes (<[c := x]> (cs w)) (sibs w) (nlks w) (ntask w) (io w).
Definition set_nlks (h : links) w := mk_scopes (cs w) (sibs w) h (ntask w) (io w).
Definition set_io (u : U) w := mk_scopes (cs w) (sibs w) (nlks w) (ntask w) u.

Definition with_cancelled (x : canceler_t) := mk_canceler true (active_head_ x) (tracked_ops_ x) (orphaned_ x) (parent_ x) (first_child_ x).
Definition with_head (h : option node_id) (x : canceler_t) := mk_canceler (cancelled_ x) h (tracked_ops_ x) (orphaned_ x) (parent_ x) (first_child_ x).
Definition with_tracked (n : Z) (x : canceler_t) := mk_canceler (cancelled_ x) (active_head_ x) n (orphaned_ x) (parent_ x) (first_child_ x).
Definition with_child (h : option node_id) (x : canceler_t) := mk_canceler (cancelled_ x) (active_head_ x) (tracked_ops_ x) (orphaned_ x) (parent_ x) h.

(** ** Construction and destruction *)

Definition make_root (c : node_id) w : scopes_t := set_c c (mk_canceler false None 0 false None None) w.

Definition make_child (c p : node_id) w : option scopes_t :=
  match cs w !! p with
  | Some y =>
      Some (mk_scopes (<[p := with_child (Some c) y]> (<[c := mk_canceler false None 0 false (Some p) None]> (cs w)))
              (push_front (sibs w) (first_child_ y) c) (nlks w) (ntask w) (io w))
  | None => None
  end.

Definition destroy_canceler (c : node_id) w : option scopes_t :=
  match cs w !! c with
  | Some x =>
      match parent_ x with
      | None => Some (mk_scopes (delete c (cs w)) (sibs w) (nlks w) (ntask w) (io w))
      | Some p =>
          match cs w !! p with
          | Some y =>
              let lk := link_of (sibs w) c in
              let y := match prev lk with Some _ => y | None => with_child (next lk) y end in
              Some (mk_scopes (delete c (<[p := y]> (cs w))) (unlink_node (sibs w) c) (nlks w) (ntask w) (io w))
          | None => None
          end
      end
  | None => None
  end.

(** ** Cancellation *)

(** One node of the active list is detached and its operation cancelled. *)
Definition detach (x : node_id) w : scopes_t :=
  let w := set_nlks (<[x := unlinked]> (nlks w)) w in
  match ntask w !! x with
  | Some t => let tok := io_token t (io w) in if negb (tok =? 0) then set_io (prep_cancel tok (io w)) w else w
  | None => w
  end.

Fixpoint detach_list (fuel : nat) (cur : option node_id) w : option scopes_t :=
  match cur, fuel with
  | None, _ => Some w
  | Some _, O => None
  | Some x, S fuel => let nx := next (link_of (nlks w) x) in detach_list fuel nx (detach x w)
  end.

Definition cancel_active_tasks (c : node_id) w : option scopes_t :=
  match cs w !! c with
  | Some x => detach_list (base.size (nlks w)) (active_head_ x) (set_c c (with_head None x) w)
  | None => None
  end.

(** The body of the loop of [cancel_subtree] on the current canceler. *)
Definition mark (c : node_id) w : option scopes_t :=
  match cs w !! c with
  | Some x => if negb (cancelled_ x) then cancel_active_tasks c (set_c c (with_cancelled x) w) else Some w
  | None => None
  end.

(** The inner loop: up to an ancestor with a next sibling; [Some None] when it
    ends at [this]. *)
Fixpoint climb (fuel : nat) (this cur : node_id) w : option (option node_id) :=
  if decide (cur = this) then Some None
  else match fuel with
       | O => None
       | S fuel =>
           match next (link_of (sibs w) cur) with
           | Some n => Some (Some n)
           | None => match cs w !! cur with
                     | Some x => match parent_ x with Some p => climb fuel this p w | None => Some None end
                     | None => None
                     end
           end
       end.

Fixpoint subtree_loop (fuel depth : nat) (this cur : node_id) w : option scopes_t :=
  match fuel with
  | O => None
  | S fuel =>
      match mark cur w with
      | None => None
      | Some w =>
          match cs w !! cur with
          | None => None
          | Some x =>
              match first_child_ x with
              | Some k => subtree_loop fuel depth this k w
              | None => match climb depth this cur w with
                        | None => None
                        | Some None => Some w
                        | Some (Some n) => subtree_loop fuel depth this n w
                        end
              end
          end
      end
  end.

(** Each canceler is visited at most once, and climbing takes at most as many
    steps as there are cancelers. *)
Definition cancel_subtree (c : node_id) w : option scopes_t :=
  subtree_loop (base.size (cs w)) (base.size (cs w)) c c w.

Fixpoint cancel_children (fuel : nat) (cur : option node_id) w : option scopes_t :=
  match cur, fuel with
  | None, _ => Some w
  | Some _, O => None
  | Some k, S fuel =>
      match cancel_subtree k w with
      | Some w => cancel_children fuel (next (link_of (sibs w) k)) w
      | None => None
      end
  end.

Definition cancel (c : node_id) w : option scopes_t :=
  match cs w !! c with
  | Some x =>
      if cancelled_ x then Some w
      else match cancel_active_tasks c (set_c c (with_cancelled x) w) with
           | Some w => cancel_children (base.size (cs w)) (match cs w !! c with Some x => first_child_ x | None => None end) w
           | None => None
           end
  | None => None
  end.

Definition reset (c : node_id) w : option (scopes_t * expected unit) :=
  match cs w !! c with
  | Some x =>
      if negb (tracked_ops_ x =? 0) then Some (w, Unexpected (system_error EBUSY))
      else Some (set_c c (mk_canceler false (active_head_ x) (tracked_ops_ x) (orphaned_ x) (parent_ x) (first_child_ x)) w, Ok tt)
  | None => None
  end.

(** ** Operations come and go *)

Definition orphan (c : node_id) w : option scopes_t :=
  match cs w !! c with
  | Some x =>
      let w := set_c c (mk_canceler (cancelled_ x) (active_head_ x) (tracked_ops_ x) true (parent_ x) (first_child_ x)) w in
      if tracked_ops_ x =? 0 then destroy_canceler c w else Some w
  | None => None
  end.

Definition op_resolved (c : node_id) w : option scopes_t :=
  match cs w !! c with
  | Some x =>
      let n := u32 (tracked_ops_ x - 1) in
      let w := set_c c (with_tracked n x) w in
      if (n =? 0) && orphaned_ x then destroy_canceler c w else Some w
  | None => None
  end.

Definition link_op (c x : node_id) w : option scopes_t :=
  match cs w !! c with
  | Some y =>
      Some (mk_scopes (<[c := mk_canceler (cancelled_ y) (Some x) (u32 (tracked_ops_ y + 1)) (orphaned_ y) (parent_ y) (first_child_ y)]> (cs w))
              (sibs w) (push_front (nlks w) (active_head_ y) x) (ntask w) (io w))
  | None => None
  end.

Definition unlink_op (c x : node_id) w : option scopes_t :=
  match cs w !! c with
  | Some y =>
      let lk := link_of (nlks w) x in
      if bool_decide (prev lk = None) && bool_decide (next lk = None) && negb (bool_decide (active_head_ y = Some x)) then Some w
      else
        let y' := match prev lk with Some _ => y | None => with_head (next lk) y end in
        Some (mk_scopes (<[c := y']> (cs w)) (sibs w) (unlink_node (nlks w) x) (ntask w) (io w))
  | None => None
  end.

(** ** The tree *)

Inductive tree := Node (c : node_id) (kids : list tree).
Definition root_of (t : tree) : node_id := match t with Node c _ => c end.
Definition kids_of (t : tree) : list tree := match t with Node _ ks => ks end.

Fixpoint preorder (t : tree) : list node_id := match t with Node c ks => c :: flat_map preorder ks end.
Fixpoint height (t : tree) : nat := match t with Node _ ks => S (foldr Nat.max 0%nat (map height ks)) end.

(** The pointers of the cancelers describe [t], below the parent [p]. *)
Fixpoint rep w (p : option node_id) (t : tree) : Prop :=
  match t with
  | Node c ks =>
      (exists x, cs w !! c = Some x /\ parent_ x = p /\ first_child_ x = head (map root_of ks)) /\
      dll (sibs w) (map root_of ks) /\ foldr and True (map (rep w (Some c)) ks)
  end.

Lemma rep_node w p c ks : rep w p (Node c ks) <->
  (exists x, cs w !! c = Some x /\ parent_ x = p /\ first_child_ x = head (map root_of ks)) /\ dll (sibs w) (map root_of ks) /\ Forall (rep w (Some c)) ks.
Proof. simpl. rewrite <- Forall_fold_right. by rewrite Forall_map. Qed.

(** Induction with the hypothesis for every child. *)
Lemma tree_ind' (P : tree -> Prop) : (forall c ks, Forall P ks -> P (Node c ks)) -> forall t, P t.
Proof.
  intros IH. fix F 1. intros [c ks]. apply IH. induction ks as [|k ks IHk]; constructor; [apply F|exact IHk].
Qed.

(** ** What a cancellation leaves alone *)

Definition shape_of (x : canceler_t) : option node_id * option node_id := (parent_ x, first_child_ x).
Definition shape w w' : Prop := sibs w' = sibs w /\ forall c, shape_of <$> cs w' !! c = shape_of <$> cs w !! c.

Lemma shape_refl w : shape w w.
Proof. by split. Qed.
Lemma shape_trans w1 w2 w3 : shape w1 w2 -> shape w2 w3 -> shape w1 w3.
Proof. intros [A1 A2] [B1 B2]. split; [congruence|]. intros c. by rewrite B2, A2. Qed.
Lemma shape_lookup w w' c x : shape w w' -> cs w !! c = Some x -> exists x', cs w' !! c = Some x' /\ parent_ x' = parent_ x /\ first_child_ x' = first_child_ x.
Proof.
  intros [_ S] E. specialize (S c). rewrite E in S. simpl in S. destruct (cs w' !! c) as [x'|]; [|done]. exists x'. injection S as S1 S2. done.
Qed.
Lemma shape_size w w' : shape w w' -> base.size (cs w') = base.size (cs w).
Proof.
  intros [_ S]. rewrite <- !(size_dom (cs _)). f_equal. apply set_eq. intros c. rewrite !elem_of_dom. specialize (S c).
  destruct (cs w' !! c), (cs w !! c); simpl in S; try done; split; intros [? ?]; done.
Qed.

Lemma rep_shape w w' p t : shape w w' -> rep w p t -> rep w' p t.
Proof.
  intros S. revert p. induction t as [c ks IH] using tree_ind'. intros p. rewrite !rep_node. intros ((x & E & Hp & Hf) & Hd & Hk).
  destruct (shape_lookup _ _ _ _ S E) as (x' & E' & Hp' & Hf'). split; [exists x'; split; [done|split; congruence]|].
  split; [by destruct S as [-> _]|]. rewrite Forall_forall in *. intros k Hin. by apply IH; [|apply Hk].
Qed.
Lemma climb_shape fuel this cur w w' : shape w w' -> climb fuel this cur w' = climb fuel this cur w.
Proof.
  intros S. revert cur. induction fuel as [|fuel IH]; intros cur; [done|]. cbn [climb]. destruct (decide (cur = this)); [done|].
  destruct S as [Hs Hc]. rewrite Hs. destruct (next _); [done|]. specialize (Hc cur).
  destruct (cs w' !! cur) as [x'|], (cs w !! cur) as [x|]; simpl in Hc; try done. injection Hc as Hp _. rewrite Hp. destruct (parent_ x); [apply IH|done].
Qed.
Lemma climb_fuel n fuel this cur w r : climb n this cur w = Some r -> (n <= fuel)%nat -> climb fuel this cur w = Some r.
Proof.
  revert fuel cur. induction n as [|n IH]; intros fuel cur E Hf.
  - destruct fuel; cbn [climb] in *; destruct (decide (cur = this)); done.
  - destruct fuel as [|fuel]; [lia|]. cbn [climb] in *. destruct (decide (cur = this)); [done|]. destruct (next _); [done|].
    destruct (cs w !! cur) as [x|]; [|done]. destruct (parent_ x); [|done]. apply IH; [done|lia].
Qed.

Lemma detach_shape x w : shape w (detach x w) /\ cs (detach x w) = cs w.
Proof. unfold detach. simpl. destruct (ntask w !! x); [|done]. destruct (negb _); done. Qed.
Lemma detach_list_shape fuel cur w w' : detach_list fuel cur w = Some w' -> sibs w' = sibs w /\ cs w' = cs w.
Proof.
  revert cur w. induction fuel as [|fuel IH]; intros [x|] w; simpl; try done; try (by intros [= <-]).
  intros E. destruct (IH _ _ E) as [H1 H2]. destruct (detach_shape x w) as [[S1 _] S2]. split; congruence.
Qed.
Lemma set_c_shape c x y w : cs w !! c = Some x -> shape_of y = shape_of x -> shape w (set_c c y w).
Proof.
  intros E S. split; [done|]. intros d. simpl. destruct (decide (c = d)) as [<-|Hne]; [rewrite lookup_insert_eq, E; simpl; congruence|by rewrite lookup_insert_ne].
Qed.
Lemma active_shape c w w' : cancel_active_tasks c w = Some w' -> shape w w'.
Proof.
  unfold cancel_active_tasks. destruct (cs w !! c) as [x|] eqn:E; [|done]. intros D. destruct (detach_list_shape _ _ _ _ D) as [D1 D2].
  pose proof (set_c_shape c x (with_head None x) w E eq_refl) as [S1 S2]. split; [by rewrite D1|]. intros d. rewrite D2. apply S2.
Qed.
Lemma mark_shape c w w' : mark c w = Some w' -> shape w w'.
Proof.
  unfold mark. destruct (cs w !! c) as [x|] eqn:E; [|done]. destruct (negb _); [|by intros [= <-]]. intros D. apply active_shape in D.
  by apply (shape_trans _ _ _ (set_c_shape c x (with_cancelled x) w E eq_refl)).
Qed.

(** ** The traversal is the preorder *)

Fixpoint marks (l : list node_id) w : option scopes_t :=
  match l with [] => Some w | c :: l => match mark c w with Some w => marks l w | None => None end end.

Lemma marks_app l1 l2 w : marks (l1 ++ l2) w = marks l1 w ≫= marks l2.
Proof. revert w. induction l1 as [|c l1 IH]; intros w; simpl; [done|]. destruct (mark c w); [apply IH|done]. Qed.
Lemma marks_shape l w w' : marks l w = Some w' -> shape w w'.
Proof.
  revert w. induction l as [|c l IH]; intros w; simpl; [intros [= <-]; apply shape_refl|]. destruct (mark c w) as [w1|] eqn:E; [|done].
  intros M. exact (shape_trans _ _ _ (mark_shape _ _ _ E) (IH _ M)).
Qed.

(** What the loop does after a subtree. *)
Definition after (D m : nat) (this : node_id) (r : option node_id) w : option scopes_t :=
  match r with None => Some w | Some n => subtree_loop m D this n w end.

Definition walks (D : nat) (this : node_id) (t : tree) : Prop := forall w p m n r,
  rep w p t -> this ∉ flat_map preorder (kids_of t) -> climb n this (root_of t) w = Some r -> (n + height t <= S D)%nat ->
  subtree_loop (length (preorder t) + m) D this (root_of t) w = marks (preorder t) w ≫= after D m this r.

Lemma height_le ks k : k ∈ ks -> (height k <= foldr Nat.max 0 (map height ks))%nat.
Proof. induction 1 as [k ks|k k' ks _ IH]; simpl; lia. Qed.

(** The children of [c] from [ks] on; afterwards the loop is at [c] again. *)
Lemma walk_forest D this c ks : forall l1 k w m n r,
  Forall (walks D this) (k :: ks) -> Forall (rep w (Some c)) (k :: ks) -> dll (sibs w) (l1 ++ map root_of (k :: ks)) ->
  this ∉ flat_map preorder (k :: ks) -> climb n this c w = Some r -> (n + foldr Nat.max 0%nat (map height (k :: ks)) <= D)%nat ->
  subtree_loop (length (flat_map preorder (k :: ks)) + m) D this (root_of k) w = marks (flat_map preorder (k :: ks)) w ≫= after D m this r.
Proof.
  induction ks as [|k2 ks IH]; intros l1 k w m n r Hw Hr Hd Ht Hc Hn; inversion Hw as [|? ? Wk Wks]; subst; inversion Hr as [|? ? Rk Rks]; subst; cbn [flat_map map] in *.
  all: assert (Hne : root_of k <> this) by (intros E; apply Ht; destruct k; simpl in *; subst; set_solver).
  all: assert (Hin : this ∉ flat_map preorder (kids_of k)) by (intros Hin; apply Ht; destruct k; simpl in *; set_solver).
  all: assert (Ek : exists x, cs w !! root_of k = Some x /\ parent_ x = Some c) by (destruct k; apply rep_node in Rk as ((x & ? & ? & _) & _); by exists x).
  all: destruct Ek as (x & Ex & Px). all: pose proof (dll_suffix _ _ _ _ Hd) as Hnext.
  - rewrite app_nil_r. apply (Wk w (Some c) m (S n) r Rk Hin); [|cbn [foldr map] in Hn; lia].
    cbn [climb]. rewrite decide_False, Hnext by done. simpl. by rewrite Ex, Px.
  - rewrite length_app, <- Nat.add_assoc. rewrite (Wk w (Some c) _ 1%nat (Some (root_of k2)) Rk Hin); [| |cbn [foldr map] in Hn; lia].
    2: { cbn [climb]. by rewrite decide_False, Hnext. }
    rewrite marks_app. destruct (marks (preorder k) w) as [w1|] eqn:M; [|done]. simpl. pose proof (marks_shape _ _ _ M) as S.
    apply (IH (l1 ++ [root_of k]) k2 w1 m n r Wks); [|by destruct S as [-> _]; rewrite <- app_assoc|set_solver|by rewrite (climb_shape _ _ _ _ _ S)|cbn [foldr map] in *; lia].
    rewrite Forall_forall in *. intros t Hin'. apply (rep_shape _ _ _ _ S). by apply Rks.
Qed.

Lemma walk_tree D this t : walks D this t.
Proof.
  induction t as [c ks IH] using tree_ind'. intros w p m n r Hr Ht Hc Hn. pose proof Hr as Hr0. apply rep_node in Hr0 as ((x & Ex & Hp & Hf) & Hd & Hk).
  cbn [preorder length kids_of root_of height] in *. cbn [Nat.add subtree_loop marks]. destruct (mark c w) as [w1|] eqn:M; [|done].
  pose proof (mark_shape _ _ _ M) as S. destruct (shape_lookup _ _ _ _ S Ex) as (x1 & E1 & _ & F1). rewrite E1, F1, Hf.
  destruct ks as [|k ks].
  - simpl. rewrite (climb_shape _ _ _ _ _ S), (climb_fuel n D) with (r := r); [by destruct r|done|simpl in Hn; lia].
  - cbn [map head]. apply (walk_forest D this c ks [] k w1 m n r IH); [| |done| |lia].
    + rewrite Forall_forall in *. intros t Hin. apply (rep_shape _ _ _ _ S). by apply Hk.
    + by destruct S as [-> _].
    + by rewrite (climb_shape _ _ _ _ _ S).
Qed.

Lemma rep_in_cs w p t c : rep w p t -> c ∈ preorder t -> is_Some (cs w !! c).
Proof.
  revert p. induction t as [d ks IH] using tree_ind'. intros p Hr Hc. apply rep_node in Hr as ((x & Ex & _) & _ & Hk). cbn [preorder] in Hc.
  apply elem_of_cons in Hc as [->|Hc]; [by exists x|]. apply list_elem_of_In, in_flat_map in Hc as (k & Hin & Hc). apply list_elem_of_In in Hin, Hc.
  rewrite Forall_forall in *. by apply (IH k Hin (Some d)); [apply Hk|].
Qed.
Lemma preorder_size w p t : rep w p t -> NoDup (preorder t) -> (length (preorder t) <= base.size (cs w))%nat.
Proof.
  intros Hr Hn. rewrite <- (size_list_to_set (C := gset node_id) (preorder t)) by done. rewrite <- (size_dom (cs w)). apply subseteq_size.
  intros c. rewrite elem_of_list_to_set, elem_of_dom. by apply (rep_in_cs w p).
Qed.
Lemma height_preorder t : (height t <= length (preorder t))%nat.
Proof.
  induction t as [c ks IH] using tree_ind'. cbn [height preorder length]. apply le_n_S. induction IH as [|k ks Hk _ IHk]; cbn [map foldr flat_map]; [done|].
  rewrite length_app. lia.
Qed.

(** [cancel_subtree] visits the cancelers of its subtree in preorder. *)
Lemma subtree_spec w p t : rep w p t -> NoDup (preorder t) -> cancel_subtree (root_of t) w = marks (preorder t) w.
Proof.
  intros Hr Hn. unfold cancel_subtree. pose proof (preorder_size w p t Hr Hn) as Hs. pose proof (height_preorder t) as Hh.
  assert (Ht : root_of t ∉ flat_map preorder (kids_of t)) by (destruct t; cbn [preorder] in Hn; by apply NoDup_cons in Hn as [? _]).
  assert (Hc : climb 0 (root_of t) (root_of t) w = Some None) by (cbn [climb]; by rewrite decide_True).
  pose proof (walk_tree (base.size (cs w)) (root_of t) t w p (base.size (cs w) - length (preorder t))%nat 0%nat None Hr Ht Hc ltac:(lia)) as W.
  replace (length (preorder t) + (base.size (cs w) - length (preorder t)))%nat with (base.size (cs w)) in W by lia. rewrite W.
  by destruct (marks (preorder t) w).
Qed.

Lemma children_spec c ks : forall l1 w fuel,
  Forall (rep w (Some c)) ks -> dll (sibs w) (l1 ++ map root_of ks) -> NoDup (flat_map preorder ks) -> (length ks <= fuel)%nat ->
  cancel_children fuel (head (map root_of ks)) w = marks (flat_map preorder ks) w.
Proof.
  induction ks as [|k ks IH]; intros l1 w fuel Hr Hd Hn Hf; [by destruct fuel|]. destruct fuel as [|fuel]; [simpl in Hf; lia|].
  inversion Hr as [|? ? Rk Rks]; subst. cbn [map head flat_map cancel_children] in *. apply NoDup_app in Hn as (Hn1 & _ & Hn2).
  rewrite (subtree_spec w (Some c) k Rk Hn1), marks_app. destruct (marks (preorder k) w) as [w1|] eqn:M; [|done]. simpl.
  pose proof (marks_shape _ _ _ M) as S. pose proof (dll_suffix _ _ _ _ Hd) as Hnext. pose proof S as [Hs _]. rewrite Hs, Hnext.
  apply (IH (l1 ++ [root_of k])); [|by rewrite Hs, <- app_assoc|done|simpl in Hf; lia].
  rewrite Forall_forall in *. intros t Hin. apply (rep_shape _ _ _ _ S). by apply Rks.
Qed.

Lemma kids_le ks : (length ks <= length (flat_map preorder ks))%nat.
Proof. induction ks as [|[c ks'] ks IH]; simpl; [done|]. rewrite length_app. lia. Qed.

(** [cancel] on a canceler that is not cancelled does the same. *)
Lemma cancel_spec w p t x : rep w p t -> NoDup (preorder t) -> cs w !! root_of t = Some x -> cancelled_ x = false ->
  cancel (root_of t) w = marks (preorder t) w.
Proof.
  intros Hr Hn Ex Hx. pose proof (preorder_size w p t Hr Hn) as Hs. destruct t as [c ks]. cbn [root_of preorder length] in *. unfold cancel. cbn [marks].
  assert (Em : mark c w = cancel_active_tasks c (set_c c (with_cancelled x) w)) by (unfold mark; by rewrite Ex, Hx). rewrite Ex, Hx, <- Em.
  destruct (mark c w) as [w1|] eqn:M; [|done]. pose proof (mark_shape _ _ _ M) as S. apply rep_node in Hr as ((x0 & E0 & _ & Hf) & Hd & Hk).
  destruct (shape_lookup _ _ _ _ S E0) as (x1 & E1 & _ & F1). rewrite E1, F1, Hf. apply NoDup_cons in Hn as [_ Hn]. pose proof (kids_le ks).
  apply (children_spec c ks []); [|by destruct S as [-> _]|done|rewrite (shape_size _ _ S); lia].
  rewrite Forall_forall in *. intros t Hin. apply (rep_shape _ _ _ _ S). by apply Hk.
Qed.
End Cancel.
