(* ===== verification/CancelOps.v ===== *)
(** * Operations under a canceler

    [cancellable_awaiter] of src/include/cornet/coroutine/cancel.h and the
    invariant that ties awaiters, cancelers and the tree together. *)

From stdpp Require Import prelude gmap list fin_maps relations.
From Stdlib Require Import ZArith Lia.
From S2P Require Import Prelude Dll Counting Uring Cancel.
Open Scope Z_scope.

(** ** State *)

Record awaiter_t := mk_awaiter {
  canceler_ : option node_id; submitted_ : bool; submit_failed_ : bool; cancelled_before_submit_ : bool; resolved_ : bool
}.
Definition new_awaiter (c : option node_id) : awaiter_t := mk_awaiter c false false false false.

Section Ops.
Context {U : Type} `{CancelBackend U}.

(** The cancelers and the awaiters; the node and the operation of awaiter [a]
    are named after it. *)
Record ops_t := mk_ops { sc : scopes_t (U := U); aws : gmap node_id awaiter_t }.
Implicit Types s : ops_t.

Definition set_aw (a : node_id) (x : awaiter_t) s := mk_ops (sc s) (<[a := x]> (aws s)).
Definition set_sc (w : scopes_t) s := mk_ops w (aws s).

Definition is_cancelled (c : node_id) (w : scopes_t (U := U)) : option bool := cancelled_ <$> cs w !! c.

Definition with_task (a : node_id) (w : scopes_t (U := U)) : scopes_t :=
  mk_scopes (cs w) (sibs w) (nlks w) (<[a := Z.of_nat a]> (ntask w)) (io w).

(** [unlink_node] and [op_resolved]: the frame is done with the canceler. *)
Definition resolve (c a : node_id) (w : scopes_t (U := U)) : option scopes_t :=
  match unlink_op c a w with Some w => op_resolved c w | None => None end.

(** ** Operations of the awaiter *)

(** [op_ready] is the answer of the operation's own [await_ready]. *)
Definition await_ready (a : node_id) (op_ready : bool) s : option (ops_t * bool) :=
  match aws s !! a with
  | Some x =>
      match canceler_ x with
      | Some c =>
          match is_cancelled c (sc s) with
          | Some true => Some (set_aw a (mk_awaiter (canceler_ x) (submitted_ x) (submit_failed_ x) true (resolved_ x)) s, true)
          | Some false => Some (s, op_ready)
          | None => None
          end
      | None => Some (s, op_ready)
      end
  | None => None
  end.

Definition suspend_op (a : node_id) (c : option node_id) (x : awaiter_t) s : option (ops_t * bool) :=
  match op_suspend (Z.of_nat a) (io (sc s)) with
  | Some (u, true) => Some (set_aw a (mk_awaiter c true (submit_failed_ x) (cancelled_before_submit_ x) (resolved_ x)) (set_sc (set_io u (sc s)) s), true)
  | Some (u, false) =>
      let s := set_sc (set_io u (sc s)) s in
      let x := mk_awaiter c (submitted_ x) true (cancelled_before_submit_ x) (resolved_ x) in
      match c with
      | Some c => match resolve c a (sc s) with Some w => Some (set_aw a x (set_sc w s), false) | None => None end
      | None => Some (set_aw a x s, false)
      end
  | None => None
  end.

Definition await_suspend (a : node_id) s : option (ops_t * bool) :=
  match aws s !! a with
  | Some x =>
      match canceler_ x with
      | Some c =>
          match is_cancelled c (sc s) with
          | Some true => Some (set_aw a (mk_awaiter (canceler_ x) (submitted_ x) (submit_failed_ x) true (resolved_ x)) s, false)
          | Some false =>
              match link_op c a (with_task a (sc s)) with
              | Some w => suspend_op a (Some c) x (set_sc w s)
              | None => None
              end
          | None => None
          end
      | None => suspend_op a None x s
      end
  | None => None
  end.

(** [res] is what the operation's own [await_resume] returns. *)
Definition await_resume {V} (a : node_id) (res : expected V) s : option (ops_t * expected V) :=
  match aws s !! a with
  | Some x =>
      match canceler_ x with
      | Some c =>
          if cancelled_before_submit_ x then Some (s, Unexpected (system_error ECANCELED))
          else if submitted_ x && negb (resolved_ x)
          then match resolve c a (sc s) with
               | Some w => Some (set_aw a (mk_awaiter (canceler_ x) (submitted_ x) (submit_failed_ x) (cancelled_before_submit_ x) true) (set_sc w s), res)
               | None => None
               end
          else Some (s, res)
      | None => Some (s, res)
      end
  | None => None
  end.

Definition destroy_awaiter (a : node_id) s : option ops_t :=
  match aws s !! a with
  | Some x =>
      match canceler_ x with
      | Some c =>
          if submitted_ x && negb (resolved_ x)
          then match resolve c a (sc s) with Some w => Some (mk_ops w (delete a (aws s))) | None => None end
          else Some (mk_ops (sc s) (delete a (aws s)))
      | None => Some (mk_ops (sc s) (delete a (aws s)))
      end
  | None => None
  end.

(** ** The invariant *)

(** Awaiter [x] has an operation in flight that refers to canceler [c]. *)
Definition pending_on (c : node_id) (x : awaiter_t) : bool := bool_decide (canceler_ x = Some c) && submitted_ x && negb (resolved_ x).

(** [pend c a]: so does the awaiter [a]; [A c] is the active list of [c],
    [K c] its children, [born] the order of construction, up to [clock]. *)
Definition pend (aw : gmap node_id awaiter_t) (c a : node_id) : Prop := exists x, aw !! a = Some x /\ pending_on c x = true.

Record lists_ok (w : scopes_t (U := U)) (aw : gmap node_id awaiter_t) (A : node_id -> list node_id) : Prop := {
  l_head : forall c x, cs w !! c = Some x -> active_head_ x = head (A c);
  l_dll : forall c, is_Some (cs w !! c) -> dll (nlks w) (A c);
  l_in : forall c a, is_Some (cs w !! c) -> a ∈ A c -> pend aw c a;
  l_out : forall c a, pend aw c a -> a ∉ A c -> link_of (nlks w) a = unlinked
}.

Record tree_ok (w : scopes_t (U := U)) (K : node_id -> list node_id) (born : node_id -> nat) (clock : nat) : Prop := {
  k_head : forall c x, cs w !! c = Some x -> first_child_ x = head (K c);
  k_dll : forall c, is_Some (cs w !! c) -> dll (sibs w) (K c);
  k_in : forall c k, is_Some (cs w !! c) -> k ∈ K c <-> exists y, cs w !! k = Some y /\ parent_ y = Some c;
  k_parent : forall k y c, cs w !! k = Some y -> parent_ y = Some c -> is_Some (cs w !! c);
  k_born : forall c, is_Some (cs w !! c) -> (born c < clock)%nat;
  k_order : forall k y c, cs w !! k = Some y -> parent_ y = Some c -> (born c < born k)%nat
}.

(** All but the last field also holds between the two halves of [op_resolved]. *)
Record core_ok (w : scopes_t (U := U)) (aw : gmap node_id awaiter_t) (A K : node_id -> list node_id) (born : node_id -> nat) (clock : nat) : Prop := {
  o_lists : lists_ok w aw A;
  o_tree : tree_ok w K born clock;
  o_alive : forall c a, pend aw c a -> is_Some (cs w !! c);
  o_tracked : forall c x, cs w !! c = Some x -> tracked_ops_ x = Z.of_nat (count_if (pending_on c) aw) /\ tracked_ops_ x < 2 ^ 32;
  o_leaf : forall c x, cs w !! c = Some x -> orphaned_ x = true -> K c = [];
  o_linked : forall c x a, cs w !! c = Some x -> a ∈ A c <-> pend aw c a /\ cancelled_ x = false
}.
Definition orphans_busy (w : scopes_t (U := U)) : Prop := forall c x, cs w !! c = Some x -> orphaned_ x = true -> 0 < tracked_ops_ x.
Definition ops_ok s (A K : node_id -> list node_id) (born : node_id -> nat) (clock : nat) : Prop :=
  core_ok (sc s) (aws s) A K born clock /\ orphans_busy (sc s).

(** ** Emptying an active list *)

Definition detach_all (l : list node_id) (w : scopes_t (U := U)) : scopes_t := foldl (fun w x => detach x w) w l.

Lemma detach_fields x (w : scopes_t (U := U)) : cs (detach x w) = cs w /\ sibs (detach x w) = sibs w /\ ntask (detach x w) = ntask w /\ nlks (detach x w) = <[x := unlinked]> (nlks w).
Proof. unfold detach. simpl. destruct (ntask w !! x); [|done]. destruct (negb _); done. Qed.
Lemma detach_all_fields l : forall (w : scopes_t (U := U)), cs (detach_all l w) = cs w /\ sibs (detach_all l w) = sibs w /\ ntask (detach_all l w) = ntask w /\
  (forall a, nlks (detach_all l w) !! a = if decide (a ∈ l) then Some unlinked else nlks w !! a).
Proof.
  induction l as [|x l IH]; intros w.
  - by repeat split.
  - simpl. destruct (IH (detach x w)) as (I1 & I2 & I3 & I4). destruct (detach_fields x w) as (D1 & D2 & D3 & D4).
    split_and!; [congruence..|]. intros a. rewrite I4, D4. destruct (decide (a ∈ l)) as [Hl|Hl], (decide (a ∈ x :: l)) as [Hx|Hx]; try done.
    + destruct Hx. by right.
    + apply elem_of_cons in Hx as [->|]; [by rewrite lookup_insert_eq|done].
    + rewrite lookup_insert_ne; [done|]. intros ->. apply Hx. left.
Qed.

Lemma detach_run l : forall (w : scopes_t (U := U)) fuel, NoDup l -> (forall l1 x l2, l = l1 ++ x :: l2 -> next (link_of (nlks w) x) = head l2) ->
  (length l <= fuel)%nat -> detach_list fuel (head l) w = Some (detach_all l w).
Proof.
  induction l as [|x l IH]; intros w fuel Hn Hl Hf; [by destruct fuel|]. destruct fuel as [|fuel]; [simpl in Hf; lia|]. cbn [head detach_list].
  rewrite (Hl [] x l eq_refl). apply NoDup_cons in Hn as [Hx Hn]. apply IH; [done| |simpl in Hf; lia].
  intros l1 y l2 ->. destruct (detach_fields x w) as (_ & _ & _ & E). rewrite E. unfold link_of. rewrite lookup_insert_ne by set_solver.
  by apply (Hl (x :: l1)).
Qed.

(** The tokens of the operations of [l] that have one. *)
Definition tokens (l : list node_id) (w : scopes_t (U := U)) : list Z :=
  filter (fun tok => tok <> 0) (omap (fun a => (fun t => io_token t (io w)) <$> ntask w !! a) l).

Lemma detach_all_io `{!CancelBackendLaws U} l : forall (w : scopes_t (U := U)), io (detach_all l w) = foldl (fun u tok => prep_cancel tok u) (io w) (tokens l w) /\
  (forall t, io_token t (io (detach_all l w)) = io_token t (io w)).
Proof.
  induction l as [|x l IH]; intros w; [done|]. simpl.
  assert (D : (forall t, io_token t (io (detach x w)) = io_token t (io w)) /\ io (detach x w) = foldl (fun u tok => prep_cancel tok u) (io w) (tokens [x] w)).
  { unfold detach, tokens. simpl. destruct (ntask w !! x) as [t|]; simpl; [|done]. rewrite filter_cons, filter_nil. destruct (Z.eqb_spec (io_token t (io w)) 0) as [E|E]; simpl.
    - rewrite decide_False by (rewrite E; tauto). done.
    - rewrite decide_True by done. split; [intros t'; apply cancel_keeps_tokens|done]. }
  destruct D as [D1 D2]. destruct (IH (detach x w)) as [I1 I2]. split; [|intros t; by rewrite I2, D1].
  assert (Eo : forall m, tokens m (detach x w) = tokens m w).
  { intros m. destruct (detach_fields x w) as (_ & _ & E & _). unfold tokens. rewrite E. f_equal.
    induction m as [|y m IHm]; [done|]. cbn [omap list_omap]. destruct (ntask w !! y) as [t|]; simpl; rewrite ?D1; [f_equal|]; exact IHm. }
  rewrite I1, D2, <- foldl_app, Eo. f_equal. unfold tokens. rewrite <- filter_app, <- omap_app. done.
Qed.

Lemma pend_unique aw c d a : pend aw c a -> pend aw d a -> c = d.
Proof.
  intros (x & E & P) (y & E' & P'). rewrite E in E'. injection E' as <-. unfold pending_on in P, P'.
  destruct (decide (canceler_ x = Some c)) as [E1|]; [|by rewrite bool_decide_false in P]. destruct (decide (canceler_ x = Some d)); [congruence|by rewrite bool_decide_false in P'].
Qed.

(** The state after [c] was visited and its list emptied. *)
Definition emptied (c : node_id) (x : canceler_t) (l : list node_id) (w : scopes_t (U := U)) : scopes_t :=
  detach_all l (set_c c (with_head None (with_cancelled x)) w).

Lemma mark_run w aw A c x : lists_ok w aw A -> cs w !! c = Some x ->
  mark c w = Some (if cancelled_ x then w else emptied c x (A c) w).
Proof.
  intros L E. unfold mark. rewrite E. destruct (cancelled_ x); [done|]. simpl. unfold cancel_active_tasks. simpl. rewrite lookup_insert_eq. simpl.
  pose proof (l_dll _ _ _ L c ltac:(by eexists)) as D. rewrite (l_head _ _ _ L c x E).
  assert (Es : set_c c (with_head None (with_cancelled x)) (set_c c (with_cancelled x) w) = set_c c (with_head None (with_cancelled x)) w).
  { unfold set_c. simpl. by rewrite insert_insert_eq. }
  rewrite Es. apply detach_run; [by apply (dll_nodup (nlks w))| |].
  - intros l1 y l2 El. simpl. apply (dll_suffix (nlks w) l1 y l2). by rewrite <- El.
  - simpl. rewrite <- (size_list_to_set (C := gset node_id) (A c)) by (by apply (dll_nodup (nlks w))). rewrite <- (size_dom (nlks w)). apply subseteq_size.
    intros a. rewrite elem_of_list_to_set, elem_of_dom. intros Ha. exact (dll_dom _ _ _ D Ha).
Qed.

Lemma emptied_lists w aw A c x : lists_ok w aw A -> cs w !! c = Some x ->
  lists_ok (emptied c x (A c) w) aw (fun d => if decide (d = c) then [] else A d).
Proof.
  intros L E. unfold emptied. destruct (detach_all_fields (A c) (set_c c (with_head None (with_cancelled x)) w)) as (F1 & _ & _ & F4). simpl in F1, F4.
  assert (Hdom : forall d, is_Some (cs (emptied c x (A c) w) !! d) -> is_Some (cs w !! d)).
  { intros d. unfold emptied. rewrite F1. destruct (decide (d = c)) as [->|Hne]; [by eexists|by rewrite lookup_insert_ne]. }
  split.
  - intros d y Hd. rewrite F1 in Hd. destruct (decide (d = c)) as [->|Hne]; [rewrite lookup_insert_eq in Hd; by injection Hd as <-|].
    rewrite lookup_insert_ne in Hd by done. by apply (l_head _ _ _ L).
  - intros d Hd. apply Hdom in Hd. destruct (decide (d = c)) as [->|Hne]; [apply dll_nil|]. apply (dll_frame (nlks w)); [by apply (l_dll _ _ _ L)|].
    intros a Ha. rewrite F4, decide_False; [done|]. intros Hc. apply Hne. apply (pend_unique aw d c a); by apply (l_in _ _ _ L).
  - intros d a Hd Ha. apply Hdom in Hd. destruct (decide (d = c)) as [->|Hne]; [by apply not_elem_of_nil in Ha|by apply (l_in _ _ _ L)].
  - intros d a Hp Ha. unfold link_of. rewrite F4. destruct (decide (a ∈ A c)) as [|Hc]; [done|]. apply (l_out _ _ _ L d a Hp). by destruct (decide (d = c)) as [->|].
Qed.

(** The operations a cancellation of the cancelers [l] reaches. *)
Definition reached (w : scopes_t (U := U)) (A : node_id -> list node_id) (l : list node_id) : list node_id :=
  flat_map (fun d => match cs w !! d with Some x => if cancelled_ x then [] else A d | None => [] end) l.

Record marked (w w' : scopes_t (U := U)) (A A' : node_id -> list node_id) (l : list node_id) : Prop := {
  m_shape : shape w w';
  m_c : forall d x, cs w !! d = Some x -> exists x', cs w' !! d = Some x' /\ tracked_ops_ x' = tracked_ops_ x /\ orphaned_ x' = orphaned_ x /\
    cancelled_ x' = (cancelled_ x || bool_decide (d ∈ l));
  m_lists : forall d x, cs w !! d = Some x -> A' d = if decide (d ∈ l) then (if cancelled_ x then A d else []) else A d;
  m_ntask : ntask w' = ntask w
}.

Lemma marks_run `{!CancelBackendLaws U} l : forall (w : scopes_t (U := U)) aw A, lists_ok w aw A -> NoDup l -> (forall c, c ∈ l -> is_Some (cs w !! c)) ->
  exists w' A', marks l w = Some w' /\ lists_ok w' aw A' /\ marked w w' A A' l /\ io w' = foldl (fun u tok => prep_cancel tok u) (io w) (tokens (reached w A l) w).
Proof.
  induction l as [|c l IH]; intros w aw A L Hn Hl.
  { exists w, A. split; [done|]. split; [done|]. split; [|done]. split; try done. intros d x E. exists x. split_and!; try done. rewrite bool_decide_false, orb_false_r; [done|apply not_elem_of_nil]. }
  apply NoDup_cons in Hn as [Hc Hn]. destruct (Hl c) as [x E]; [by left|].
  set (w1 := if cancelled_ x then w else emptied c x (A c) w). set (A1 := if cancelled_ x then A else fun d => if decide (d = c) then [] else A d).
  assert (M : mark c w = Some w1) by (by apply (mark_run w aw A)). pose proof (mark_shape _ _ _ M) as S.
  assert (L1 : lists_ok w1 aw A1) by (subst w1 A1; destruct (cancelled_ x); [done|by apply emptied_lists]).
  assert (W : (forall d, d <> c -> cs w1 !! d = cs w !! d /\ A1 d = A d) /\ ntask w1 = ntask w /\ (forall t, io_token t (io w1) = io_token t (io w)) /\
    io w1 = foldl (fun u tok => prep_cancel tok u) (io w) (tokens (if cancelled_ x then [] else A c) w) /\
    cs w1 !! c = Some (if cancelled_ x then x else with_head None (with_cancelled x)) /\ A1 c = if cancelled_ x then A c else []).
  { subst w1 A1. destruct (cancelled_ x) eqn:Ex; [by split_and!|]. unfold emptied.
    destruct (detach_all_fields (A c) (set_c c (with_head None (with_cancelled x)) w)) as (F1 & _ & F3 & _).
    destruct (detach_all_io (A c) (set_c c (with_head None (with_cancelled x)) w)) as [G1 G2]. simpl in *. rewrite F1, F3, G1, lookup_insert_eq.
    split_and!; try done.
    - intros d Hd. rewrite lookup_insert_ne, decide_False by done. done.
    - intros t. rewrite <- G1. apply G2.
    - by rewrite decide_True. }
  destruct W as (W1 & W2 & W3 & W4 & W5 & W6).
  destruct (IH w1 aw A1 L1 Hn) as (w' & A' & M' & L' & [S' C' Ls' T'] & I').
  { intros d Hd. rewrite (proj1 (W1 d ltac:(congruence))). apply Hl. by right. }
  exists w', A'. split; [cbn [marks]; by rewrite M|]. split; [done|]. split.
  - split; [exact (shape_trans _ _ _ S S')| | |congruence].
    + intros d y Hd. destruct (decide (d = c)) as [->|Hne].
      * rewrite E in Hd. injection Hd as <-. destruct (C' c _ W5) as (x' & E' & D1 & D2 & D3). exists x'. split; [done|].
        rewrite D1, D2, D3. rewrite (bool_decide_true (c ∈ c :: l)) by left. destruct (cancelled_ x) eqn:Ex; simpl; rewrite ?Ex; done.
      * rewrite <- (proj1 (W1 d Hne)) in Hd. destruct (C' d y Hd) as (x' & E' & D1 & D2 & D3). exists x'. split_and!; try done. rewrite D3.
        f_equal. apply bool_decide_ext. set_solver.
    + intros d y Hd. destruct (decide (d = c)) as [->|Hne].
      * rewrite E in Hd. injection Hd as <-. rewrite (Ls' c _ W5), W6. rewrite (decide_False (P := c ∈ l)) by done. rewrite decide_True by left. done.
      * rewrite <- (proj1 (W1 d Hne)) in Hd. rewrite (Ls' d y Hd), (proj2 (W1 d Hne)). destruct (decide (d ∈ l)), (decide (d ∈ c :: l)); try done; set_solver.
  - rewrite I', W4. rewrite <- foldl_app. f_equal.
    assert (Et : forall m, tokens m w1 = tokens m w).
    { intros m. unfold tokens. rewrite W2. f_equal. induction m as [|y m IHm]; [done|]. cbn [omap list_omap]. destruct (ntask w !! y); simpl; rewrite ?W3; [f_equal|]; exact IHm. }
    assert (Er : reached w1 A1 l = reached w A l).
    { unfold reached. clear IH I' M' C' Ls' Hl. induction l as [|d l IHl]; [done|]. cbn [flat_map]. destruct (W1 d ltac:(set_solver)) as [-> ->]. f_equal. apply IHl; [set_solver|]. by apply NoDup_cons in Hn as [_ ?]. }
    rewrite Et, Er. cbn [reached flat_map]. fold (reached w A l). rewrite E. unfold tokens. rewrite <- filter_app, <- omap_app. done.
Qed.

(** ** The tree below a canceler *)

Definition child_of (w : scopes_t (U := U)) (c k : node_id) : Prop := exists y, cs w !! k = Some y /\ parent_ y = Some c.

Lemma below_born w K born clock c d : tree_ok w K born clock -> rtc (child_of w) c d -> c = d \/ (born c < born d)%nat.
Proof.
  intros T. induction 1 as [c|c k d (y & E & P) _ IH]; [by left|]. right. pose proof (k_order _ _ _ _ T k y c E P). destruct IH as [->|]; lia.
Qed.

(** The cancelers above one are ordered. *)
Lemma above_linear w c1 c2 d : rtc (child_of w) c1 d -> rtc (child_of w) c2 d -> rtc (child_of w) c1 c2 \/ rtc (child_of w) c2 c1.
Proof.
  intros H1 H2. revert c1 H1. induction H2 as [c2|c2 k d Hk H2 IH]; intros c1 H1; [by left|].
  destruct (IH c1 H1) as [H3|H3].
  - apply rtc_inv_r in H3 as [->|(m & H3 & (y & E & P))]; [right; by apply rtc_once|]. destruct Hk as (y' & E' & P').
    rewrite E in E'. injection E' as <-. rewrite P in P'. injection P' as ->. by left.
  - right. by eapply rtc_l.
Qed.

Lemma siblings_apart w K born clock c k1 k2 d : tree_ok w K born clock -> child_of w c k1 -> child_of w c k2 ->
  rtc (child_of w) k1 d -> rtc (child_of w) k2 d -> k1 = k2.
Proof.
  intros T (y1 & E1 & P1) (y2 & E2 & P2) H1 H2.
  assert (Hw : forall k k' y y', cs w !! k = Some y -> parent_ y = Some c -> cs w !! k' = Some y' -> parent_ y' = Some c -> rtc (child_of w) k k' -> k = k').
  { intros k k' y y' E P E' P' R. apply rtc_inv_r in R as [->|(m & R & (z & Ez & Pz))]; [done|]. exfalso. rewrite E' in Ez. injection Ez as <-. rewrite P' in Pz. injection Pz as <-.
    pose proof (k_order _ _ _ _ T k y c E P). destruct (below_born _ _ _ _ _ _ T R) as [->|]; lia. }
  destruct (above_linear _ _ _ _ H1 H2) as [R|R]; [by eapply Hw|symmetry; by eapply Hw].
Qed.

Definition tree_at (w : scopes_t (U := U)) (c : node_id) (t : tree) : Prop :=
  root_of t = c /\ (exists p, rep w p t) /\ (forall x p, cs w !! c = Some x -> parent_ x = p -> rep w p t) /\ NoDup (preorder t) /\
  (forall d, d ∈ preorder t <-> rtc (child_of w) c d).

(** The trees of a list of children, in order. *)
Lemma kids_trees w K born clock c : tree_ok w K born clock -> forall ks, NoDup ks ->
  (forall k, k ∈ ks -> child_of w c k /\ exists t, tree_at w k t) ->
  exists ts, map root_of ts = ks /\ Forall (rep w (Some c)) ts /\ NoDup (flat_map preorder ts) /\
    (forall d, d ∈ flat_map preorder ts <-> exists k, k ∈ ks /\ rtc (child_of w) k d).
Proof.
  intros T. induction ks as [|k ks IH]; intros Hn Hk.
  { exists []. split; [done|]. split; [constructor|]. split; [constructor|]. intros d. simpl. set_solver. }
  apply NoDup_cons in Hn as [Hin Hn]. destruct (IH Hn) as (ts & Er & Hf & Hd & Hi); [intros k' Hk'; apply Hk; by right|].
  destruct (Hk k) as [(y & Ey & Py) (t & Et & _ & Ht & Htn & Hti)]; [by left|]. exists (t :: ts). cbn [map flat_map]. split; [by rewrite Er, Et|].
  split; [constructor; [by apply (Ht y)|done]|]. split.
  - apply NoDup_app. split; [done|]. split; [|done]. intros d Hd1 Hd2. apply Hti in Hd1. apply Hi in Hd2 as (k' & Hk' & R). apply Hin.
    rewrite (siblings_apart _ _ _ _ c k k' d T); [done|by exists y|apply Hk; by right|done|done].
  - intros d. rewrite elem_of_app, Hti, Hi. split.
    + intros [R|(k' & Hk' & R)]; [exists k; split; [left|done]|exists k'; split; [by right|done]].
    + intros (k' & Hk' & R). apply elem_of_cons in Hk' as [->|Hk']; [by left|right; by exists k'].
Qed.

Lemma tree_exists w K born clock c : tree_ok w K born clock -> is_Some (cs w !! c) -> exists t, tree_at w c t.
Proof.
  intros T. remember (clock - born c)%nat as n eqn:En. revert c En. induction (lt_wf n) as [n _ IH]. intros c En [x E].
  destruct (kids_trees w K born clock c T (K c)) as (ts & Er & Hf & Hn & Hi).
  - apply (dll_nodup (sibs w)), (k_dll _ _ _ _ T). by eexists.
  - intros k Hk. apply (k_in _ _ _ _ T) in Hk as (y & Ey & Py); [|by eexists]. split; [by exists y|].
    pose proof (k_order _ _ _ _ T k y c Ey Py). pose proof (k_born _ _ _ _ T k ltac:(by eexists)). apply (IH (clock - born k)%nat); [lia|done|by eexists].
  - exists (Node c ts). assert (Hr : rep w (parent_ x) (Node c ts)).
    { apply rep_node. split; [exists x; split; [done|]; split; [done|]; rewrite Er; by apply (k_head _ _ _ _ T)|]. split; [|done].
      rewrite Er. apply (k_dll _ _ _ _ T). by eexists. }
    assert (Hin : forall d, d ∈ flat_map preorder ts <-> exists k, child_of w c k /\ rtc (child_of w) k d).
    { intros d. rewrite Hi. split; intros (k & Hk & R); exists k; (split; [|done]); [apply (k_in _ _ _ _ T); [by eexists|done]|apply (k_in _ _ _ _ T) in Hk; [done|by eexists]]. }
    split; [done|]. split; [by eexists|]. split; [intros y p Ey <-; rewrite E in Ey; by injection Ey as <-|]. split.
    + cbn [preorder]. constructor; [|done]. rewrite Hin. intros (k & (y & Ey & Py) & R). pose proof (k_order _ _ _ _ T k y c Ey Py).
      destruct (below_born _ _ _ _ _ _ T R) as [->|]; lia.
    + intros d. cbn [preorder]. rewrite elem_of_cons, Hin. split; [intros [->|(k & Hk & R)]; [done|by eapply rtc_l]|].
      intros R. inversion R as [|? k ? Hk R']; subst; [by left|right; by exists k].
Qed.

(** ** Construction and destruction keep the invariant *)

Definition upd {B} (f : node_id -> B) (c : node_id) (b : B) : node_id -> B := fun d => if decide (d = c) then b else f d.
Lemma upd_eq {B} (f : node_id -> B) c b : upd f c b c = b.
Proof. unfold upd. by rewrite decide_True. Qed.
Lemma upd_ne {B} (f : node_id -> B) c b d : d <> c -> upd f c b d = f d.
Proof. intros Hd. unfold upd. by rewrite decide_False. Qed.

Lemma none_pending w aw A K born clock c : core_ok w aw A K born clock -> cs w !! c = None -> forall a, ~ pend aw c a.
Proof. intros O E a P. apply (o_alive _ _ _ _ _ _ O) in P as [x Ex]. congruence. Qed.
Lemma count_zero_pend aw c : count_if (pending_on c) aw = 0%nat <-> forall a, ~ pend aw c a.
Proof.
  split.
  - intros E a (x & Ex & P). pose proof (count_pos (pending_on c) aw a x Ex P). lia.
  - intros Hn. apply count_none. intros a x Ex. destruct (pending_on c x) eqn:P; [|done]. destruct (Hn a). by exists x.
Qed.

(** The lists of the other cancelers when [c] appears. *)
Lemma lists_new w w' aw A K born clock c y : core_ok w aw A K born clock -> cs w !! c = None -> active_head_ y = None -> nlks w' = nlks w ->
  (forall d x, d <> c -> cs w' !! d = Some x -> exists x0, cs w !! d = Some x0 /\ active_head_ x = active_head_ x0) -> cs w' !! c = Some y -> lists_ok w' aw (upd A c []).
Proof.
  intros O Ec Hy Hn Hd Ey. pose proof (none_pending _ _ _ _ _ _ _ O Ec) as Np. destruct (o_lists _ _ _ _ _ _ O) as [L1 L2 L3 L4]. split.
  - intros d x Ex. destruct (decide (d = c)) as [->|Hne]; [rewrite upd_eq; simpl; congruence|]. rewrite upd_ne by done. destruct (Hd d x Hne Ex) as (x0 & E0 & ->). by apply L1.
  - intros d [x Ex]. rewrite Hn. destruct (decide (d = c)) as [->|Hne]; [rewrite upd_eq; apply dll_nil|]. rewrite upd_ne by done. destruct (Hd d x Hne Ex) as (x0 & E0 & _). apply L2. by eexists.
  - intros d a [x Ex] Ha. destruct (decide (d = c)) as [->|Hne]; [rewrite upd_eq in Ha; by apply not_elem_of_nil in Ha|]. rewrite upd_ne in Ha by done.
    destruct (Hd d x Hne Ex) as (x0 & E0 & _). apply L3; [by eexists|done].
  - intros d a P Ha. rewrite Hn. destruct (decide (d = c)) as [->|Hne]; [by destruct (Np a)|]. rewrite upd_ne in Ha by done. by apply (L4 d).
Qed.

Lemma make_root_ok w aw A K born clock c : core_ok w aw A K born clock -> cs w !! c = None ->
  core_ok (make_root c w) aw (upd A c []) (upd K c []) (upd born c clock) (S clock).
Proof.
  intros O Ec. pose proof (none_pending _ _ _ _ _ _ _ O Ec) as Np. pose proof O as [OL [T1 T2 T3 T4 T5 T6] OA OT OF OQ].
  assert (Hp : forall d x, cs w !! d = Some x -> parent_ x <> Some c) by (intros d x Ed Hc; destruct (T4 d x c Ed Hc) as [? ?]; congruence).
  split; simpl.
  - apply (lists_new w (make_root c w) aw A K born clock c (mk_canceler false None 0 false None None)); try done; [|apply lookup_insert_eq].
    intros d x Hne Ex. simpl in Ex. rewrite lookup_insert_ne in Ex by done. by exists x.
  - split; simpl.
    + intros d x Ed. destruct (decide (d = c)) as [->|Hne]; [rewrite lookup_insert_eq in Ed; injection Ed as <-; by rewrite upd_eq|]. rewrite lookup_insert_ne in Ed by done. rewrite upd_ne by done. by apply T1.
    + intros d Hd. destruct (decide (d = c)) as [->|Hne]; [rewrite upd_eq; apply dll_nil|]. rewrite lookup_insert_ne in Hd by done. rewrite upd_ne by done. by apply T2.
    + intros d k Hd. destruct (decide (d = c)) as [->|Hne].
      * rewrite upd_eq. split; [by intros ?%not_elem_of_nil|]. intros (y & Ey & Py). apply lookup_insert_Some in Ey as [[_ <-]|[_ Ey]]; [done|]. by apply Hp in Ey.
      * rewrite lookup_insert_ne in Hd by done. rewrite upd_ne by done. rewrite T3 by done. split; intros (y & Ey & Py).
        -- exists y. rewrite lookup_insert_ne; [done|]. intros <-. congruence.
        -- apply lookup_insert_Some in Ey as [[_ <-]|[_ Ey]]; [done|by exists y].
    + intros k y d Ey Py. destruct (decide (d = c)) as [->|Hne]; [rewrite lookup_insert_eq; by eexists|]. rewrite lookup_insert_ne by done.
      apply lookup_insert_Some in Ey as [[_ <-]|[_ Ey]]; [done|by eapply T4].
    + intros d Hd. destruct (decide (d = c)) as [->|Hne]; [rewrite upd_eq; lia|]. rewrite lookup_insert_ne in Hd by done. rewrite upd_ne by done. specialize (T5 d Hd). lia.
    + intros k y d Ey Py. apply lookup_insert_Some in Ey as [[_ <-]|[Hne Ey]]; [done|]. destruct (decide (d = c)) as [->|Hdc]; [by apply Hp in Ey|].
      rewrite !upd_ne by done. by eapply T6.
  - intros d a P. destruct (decide (d = c)) as [->|Hne]; [rewrite lookup_insert_eq; by eexists|]. rewrite lookup_insert_ne by done. by apply (OA d a).
  - intros d x Ed. destruct (decide (d = c)) as [->|Hne]; [|rewrite lookup_insert_ne in Ed by done; by apply OT].
    rewrite lookup_insert_eq in Ed. injection Ed as <-. simpl. apply count_zero_pend in Np. rewrite Np. done.
  - intros d x Ed Ho. destruct (decide (d = c)) as [->|Hne]; [by rewrite upd_eq|]. rewrite lookup_insert_ne in Ed by done. rewrite upd_ne by done. by eapply OF.
  - intros d x a Ed. destruct (decide (d = c)) as [->|Hne]; [rewrite upd_eq; split; [by intros ?%not_elem_of_nil|intros [P _]; by destruct (Np a)]|].
    rewrite lookup_insert_ne in Ed by done. rewrite upd_ne by done. by apply OQ.
Qed.

Lemma kids_apart w K born clock c d : tree_ok w K born clock -> is_Some (cs w !! c) -> is_Some (cs w !! d) -> c <> d -> K c ## K d.
Proof.
  intros T Hc Hd Hne k H1 H2. apply (k_in _ _ _ _ T) in H1 as (y & E & P); [|done]. apply (k_in _ _ _ _ T) in H2 as (z & E' & P'); [|done]. congruence.
Qed.

Lemma make_child_ok w aw A K born clock c p y : core_ok w aw A K born clock -> cs w !! c = None -> cs w !! p = Some y -> orphaned_ y = false ->
  exists w', make_child c p w = Some w' /\ core_ok w' aw (upd A c []) (upd (upd K c []) p (c :: K p)) (upd born c clock) (S clock) /\
    (forall d x, cs w' !! d = Some x -> orphaned_ x = true -> cs w !! d = Some x).
Proof.
  intros O Ec Ep Hy. unfold make_child. rewrite Ep. eexists. split; [done|]. assert (Hcp : p <> c) by congruence.
  pose proof (none_pending _ _ _ _ _ _ _ O Ec) as Np. pose proof O as [OL T OA OT OF OQ]. pose proof T as [T1 T2 T3 T4 T5 T6]. set (x0 := mk_canceler false None 0 false (Some p) None).
  assert (Hlk : forall d x, <[p := with_child (Some c) y]> (<[c := x0]> (cs w)) !! d = Some x ->
    (d = p /\ x = with_child (Some c) y) \/ (d = c /\ x = x0) \/ (d <> p /\ d <> c /\ cs w !! d = Some x)).
  { intros d x [[<- <-]|[Hdp Hd]]%lookup_insert_Some; [by left|]. apply lookup_insert_Some in Hd as [[<- <-]|[Hdc Hd]]; [by right; left|right; right; by split_and!]. }
  assert (Hal : forall d, is_Some (<[p := with_child (Some c) y]> (<[c := x0]> (cs w)) !! d) <-> d = c \/ is_Some (cs w !! d)).
  { intros d. rewrite !lookup_insert_is_Some. split; [intros [<-|[_ [<-|[_ ?]]]]; [right; by eexists|by left|by right]|].
    intros [->|Hd]; [right; split; [done|by left]|]. destruct (decide (p = d)); [by left|right; split; [done|]]. destruct (decide (c = d)); [by left|by right]. }
  assert (Hfresh : forall d, is_Some (cs w !! d) -> c ∉ K d) by (intros d Hd Hin; apply T3 in Hin as (z & Ez & _); [congruence|done]).
  assert (Hpc : forall d x, cs w !! d = Some x -> parent_ x <> Some c) by (intros d x Ed Hx; destruct (T4 d x c Ed Hx) as [? ?]; congruence).
  split; [split; simpl|].
  - apply (lists_new w _ aw A K born clock c x0); try done; simpl; [|by rewrite lookup_insert_ne, lookup_insert_eq].
    intros d x Hne Ex. destruct (Hlk d x Ex) as [[-> ->]|[[-> _]|(_ & _ & E)]]; [by exists y|done|by exists x].
  - split; simpl.
    + intros d x Ed. destruct (Hlk d x Ed) as [[-> ->]|[[-> ->]|(Hdp & Hdc & E)]]; [by rewrite upd_eq|by rewrite upd_ne, upd_eq|]. rewrite !upd_ne by done. by apply T1.
    + intros d Hd. apply Hal in Hd. rewrite (T1 p y Ep). destruct (decide (d = p)) as [->|Hdp]; [rewrite upd_eq; apply dll_push_front; [apply T2; by eexists|apply Hfresh; by eexists]|].
      rewrite upd_ne by done. destruct (decide (d = c)) as [->|Hdc]; [rewrite upd_eq; apply dll_nil|]. rewrite upd_ne by done. destruct Hd as [->|Hd]; [done|].
      apply dll_push_front_other; [by apply T2|by apply Hfresh|]. apply (kids_apart w K born clock); done.
    + intros d k Hd. apply Hal in Hd.
      assert (Hk : (exists z, <[p := with_child (Some c) y]> (<[c := x0]> (cs w)) !! k = Some z /\ parent_ z = Some d) <-> (k = c /\ d = p) \/ exists z, cs w !! k = Some z /\ parent_ z = Some d).
      { split.
        - intros (z & Ez & Pz). destruct (Hlk k z Ez) as [[-> ->]|[[-> ->]|(_ & _ & E)]]; [right; by exists y|left; simpl in Pz; split; congruence|right; by exists z].
        - intros [[-> ->]|(z & Ez & Pz)]; [exists x0; by rewrite lookup_insert_ne, lookup_insert_eq|]. destruct (decide (k = p)) as [->|Hkp].
          + exists (with_child (Some c) y). rewrite lookup_insert_eq. split; [done|]. simpl. congruence.
          + exists z. rewrite lookup_insert_ne, lookup_insert_ne; [done| |done]. congruence. }
      rewrite Hk. destruct (decide (d = p)) as [->|Hdp].
      * rewrite upd_eq, elem_of_cons, T3 by (by eexists). split; [intros [->|?]; [by left; split|by right]|intros [[-> _]|?]; [by left|by right]].
      * rewrite upd_ne by done. destruct (decide (d = c)) as [->|Hdc].
        -- rewrite upd_eq. split; [by intros ?%not_elem_of_nil|]. intros [[_ ->]|(z & Ez & Pz)]; [done|by apply Hpc in Ez].
        -- rewrite upd_ne by done. destruct Hd as [->|Hd]; [done|]. rewrite T3 by done. split; [by right|intros [[_ ->]|?]; done].
    + intros k z d Ez Pz. apply Hal. destruct (Hlk k z Ez) as [[-> ->]|[[-> ->]|(_ & _ & E)]]; [right; by eapply (T4 p y)|right; simpl in Pz; injection Pz as <-; by eexists|right; by eapply T4].
    + intros d Hd. apply Hal in Hd. destruct (decide (d = c)) as [->|Hdc]; [rewrite upd_eq; lia|]. rewrite upd_ne by done. destruct Hd as [->|Hd]; [done|]. specialize (T5 d Hd). lia.
    + intros k z d Ez Pz. destruct (Hlk k z Ez) as [[-> ->]|[[-> ->]|(Hkp & Hkc & E)]].
      * rewrite !upd_ne; [by apply (T6 p y)|done|]. intros ->. exact (Hpc p y Ep Pz).
      * simpl in Pz. injection Pz as <-. rewrite upd_eq, upd_ne by done. apply T5. by eexists.
      * rewrite !upd_ne; [by apply (T6 k z)|done|]. intros ->. exact (Hpc k z E Pz).
  - intros d a P. apply Hal. right. by apply (OA d a).
  - intros d x Ed. destruct (Hlk d x Ed) as [[-> ->]|[[-> ->]|(_ & _ & E)]]; [by apply (OT p y)| |by apply OT]. simpl. apply count_zero_pend in Np. by rewrite Np.
  - intros d x Ed Ho. destruct (Hlk d x Ed) as [[-> ->]|[[-> ->]|(Hdp & Hdc & E)]]; [simpl in Ho; congruence|done|]. rewrite !upd_ne by done. by eapply OF.
  - intros d x a Ed. destruct (Hlk d x Ed) as [[-> ->]|[[-> ->]|(Hdp & Hdc & E)]]; [rewrite upd_ne by done; by apply (OQ p y)| |rewrite upd_ne by done; by apply OQ].
    rewrite upd_eq. split; [by intros ?%not_elem_of_nil|intros [P _]; by destruct (Np a)].
  - intros d x Ed Ho. simpl in Ed. destruct (Hlk d x Ed) as [[-> ->]|[[-> ->]|(_ & _ & E)]]; [simpl in Ho; congruence|done|done].
Qed.

(** Everything but [first_child_] is the same. *)
Definition same_c (x y : canceler_t) : Prop := with_child None x = with_child None y.

(** The lists and counters of the cancelers that remain. *)
Lemma rest_ok w w' aw A K K' born clock c : core_ok w aw A K born clock -> (forall a, ~ pend aw c a) -> nlks w' = nlks w -> cs w' !! c = None ->
  (forall d, d <> c -> match cs w' !! d, cs w !! d with Some x', Some x => same_c x' x | None, None => True | _, _ => False end) ->
  tree_ok w' K' born clock -> (forall d x, cs w' !! d = Some x -> K d = [] -> K' d = []) -> core_ok w' aw A K' born clock.
Proof.
  intros O Np Hn Ec Hd T HK. pose proof O as [[L1 L2 L3 L4] _ OA OT OF OQ].
  assert (Hs : forall d x', cs w' !! d = Some x' -> exists x, cs w !! d = Some x /\ same_c x' x).
  { intros d x' E'. assert (d <> c) as Hne by congruence. specialize (Hd d Hne). rewrite E' in Hd. destruct (cs w !! d) as [x|]; [by exists x|done]. }
  split; [split|done|..].
  - intros d x' E'. destruct (Hs d x' E') as (x & E & S). injection S as ? -> ? ? ?. by apply L1.
  - intros d [x' E']. destruct (Hs d x' E') as (x & E & S). rewrite Hn. apply L2. by eexists.
  - intros d a [x' E'] Ha. destruct (Hs d x' E') as (x & E & S). apply L3; [by eexists|done].
  - intros d a P Ha. rewrite Hn. by apply (L4 d).
  - intros d a P. destruct (OA d a P) as [x E]. assert (d <> c) as Hne by (intros ->; by destruct (Np a)). specialize (Hd d Hne). rewrite E in Hd. destruct (cs w' !! d); [by eexists|done].
  - intros d x' E'. destruct (Hs d x' E') as (x & E & S). injection S as ? ? -> ? ?. by apply OT.
  - intros d x' E' Ho. destruct (Hs d x' E') as (x & E & S). injection S as ? ? ? Ho' ?. apply (HK d x' E'). apply (OF d x E). congruence.
  - intros d x' a E'. destruct (Hs d x' E') as (x & E & S). injection S as -> _ _ _ _. by apply OQ.
Qed.

(** [c] is gone; its parent keeps everything but its first child. *)
Definition remains (w w' : scopes_t (U := U)) (c : node_id) : Prop :=
  cs w' !! c = None /\ forall d, d <> c -> match cs w' !! d, cs w !! d with Some x', Some x => same_c x' x | None, None => True | _, _ => False end.
Definition tree_loses (w : scopes_t (U := U)) (K : node_id -> list node_id) (born : node_id -> nat) (clock : nat) (c : node_id) : Prop :=
  exists w' K', destroy_canceler c w = Some w' /\ tree_ok w' K' born clock /\ nlks w' = nlks w /\ remains w w' c /\
    (forall d x, cs w' !! d = Some x -> K d = [] -> K' d = []).

Lemma leaf_parent w K born clock c : tree_ok w K born clock -> is_Some (cs w !! c) -> K c = [] -> forall d y, cs w !! d = Some y -> parent_ y <> Some c.
Proof.
  intros T Hc Hk d y Ed Hp. assert (Hin : d ∈ K c) by (apply (k_in _ _ _ _ T); [done|by exists y]). rewrite Hk in Hin. by apply not_elem_of_nil in Hin.
Qed.

Lemma destroy_child_tree w K born clock c x p : tree_ok w K born clock -> cs w !! c = Some x -> K c = [] -> parent_ x = Some p -> tree_loses w K born clock c.
Proof.
  intros T Ec Hk Ep. pose proof T as [T1 T2 T3 T4 T5 T6]. unfold tree_loses, remains, destroy_canceler. rewrite Ec, Ep.
  assert (Hleaf : forall d y, cs w !! d = Some y -> parent_ y <> Some c) by (apply (leaf_parent w K born clock c T ltac:(by eexists) Hk)).
  destruct (T4 c x p Ec Ep) as [y Ey]. rewrite Ey. assert (Hpc : p <> c) by (intros ->; by apply (Hleaf c x)).
  assert (Hin : c ∈ K p) by (apply T3; [by eexists|by exists x]). apply list_elem_of_split in Hin as (l1 & l2 & EK).
  pose proof (T2 p ltac:(by eexists)) as D. rewrite EK in D. rewrite (dll_prefix _ _ _ _ D), (dll_suffix _ _ _ _ D).
  set (y' := match last l1 with Some _ => y | None => with_child (head l2) y end).
  assert (Hy' : same_c y' y /\ first_child_ y' = head (l1 ++ l2)).
  { subst y'. pose proof (T1 p y Ey) as Hf. rewrite EK in Hf. destruct l1 as [|z l1]; [done|]. destruct (last (z :: l1)) eqn:El; [by split|]. by apply last_None in El. }
  destruct Hy' as [Hs Hf]. assert (Hnd : NoDup (l1 ++ c :: l2)) by (by apply (dll_nodup (sibs w))).
  assert (Hlk : forall d z, d <> c -> delete c (<[p := y']> (cs w)) !! d = Some z -> (d = p /\ z = y') \/ (d <> p /\ cs w !! d = Some z)).
  { intros d z Hne E. rewrite lookup_delete_ne in E by done. apply lookup_insert_Some in E as [[<- <-]|[? ?]]; [by left|by right]. }
  eexists _, (upd K p (l1 ++ l2)). split; [done|]. assert (Hd : forall d, d <> c -> match delete c (<[p := y']> (cs w)) !! d, cs w !! d with Some x', Some x => same_c x' x | None, None => True | _, _ => False end).
  { intros d Hne. rewrite lookup_delete_ne by done. destruct (decide (p = d)) as [<-|Hpd]; [rewrite lookup_insert_eq, Ey; done|]. rewrite lookup_insert_ne by done. by destruct (cs w !! d). }
  assert (Hal : forall d, is_Some (delete c (<[p := y']> (cs w)) !! d) <-> d <> c /\ is_Some (cs w !! d)).
  { intros d. destruct (decide (d = c)) as [->|Hne]; [rewrite lookup_delete_eq; split; [by intros []|by intros []]|]. specialize (Hd d Hne).
    destruct (delete c (<[p := y']> (cs w)) !! d), (cs w !! d); try done; split; try (intros []; done); intros [_ []]; done. }
  split; [|split; [done|split; [split; [simpl; apply lookup_delete_eq|exact Hd]|]]]; simpl.
  + split; simpl.
    * intros d z E. assert (d <> c) as Hne by (intros ->; by rewrite lookup_delete_eq in E). destruct (Hlk d z Hne E) as [[-> ->]|[Hdp E']]; [by rewrite upd_eq|]. rewrite upd_ne by done. by apply T1.
    * intros d Hd'. apply Hal in Hd' as [Hne Hd']. destruct (decide (d = p)) as [->|Hdp]; [rewrite upd_eq; by apply dll_unlink|]. rewrite upd_ne by done.
      apply (dll_unlink_other _ (l1 ++ c :: l2)); [done|apply elem_of_app; right; left|by apply T2|]. rewrite <- EK. by apply (kids_apart w K born clock).
    * intros d k Hd'. apply Hal in Hd' as [Hne Hd'].
      assert (Hkk : (exists z, delete c (<[p := y']> (cs w)) !! k = Some z /\ parent_ z = Some d) <-> k <> c /\ exists z, cs w !! k = Some z /\ parent_ z = Some d).
      { injection Hs as _ _ _ _ Hpar. split.
        - intros (z & Ez & Pz). assert (k <> c) as Hkc by (intros ->; by rewrite lookup_delete_eq in Ez). split; [done|]. destruct (Hlk k z Hkc Ez) as [[-> ->]|[_ E']]; [exists y; split; congruence|by exists z].
        - intros [Hkc (z & Ez & Pz)]. rewrite lookup_delete_ne by done. destruct (decide (p = k)) as [<-|Hkp]; [exists y'; rewrite lookup_insert_eq; split; congruence|]. exists z. by rewrite lookup_insert_ne. }
      rewrite Hkk. destruct (decide (d = p)) as [->|Hdp].
      -- rewrite upd_eq, <- (T3 p k ltac:(by eexists)), EK, !elem_of_app, elem_of_cons. rewrite <- Permutation_middle in Hnd. apply NoDup_cons in Hnd as [Hc _]. rewrite elem_of_app in Hc.
         split; [intros Hi; split; [intros ->; by apply Hc|tauto]|tauto].
      -- rewrite upd_ne, T3 by done. split; [|by intros [_ ?]]. intros (z & Ez & Pz). split; [|by exists z]. intros ->. congruence.
    * intros k z d Ez Pz. apply Hal. assert (k <> c) as Hkc by (intros ->; by rewrite lookup_delete_eq in Ez). injection Hs as _ _ _ _ Hpar.
      assert (Hz : exists z0, cs w !! k = Some z0 /\ parent_ z0 = Some d) by (destruct (Hlk k z Hkc Ez) as [[-> ->]|[_ E']]; [exists y; split; congruence|by exists z]).
      destruct Hz as (z0 & E0 & P0). split; [intros ->; by apply (Hleaf k z0)|by eapply T4].
    * intros d Hd'. apply Hal in Hd' as [_ Hd']. by apply T5.
    * intros k z d Ez Pz. assert (k <> c) as Hkc by (intros ->; by rewrite lookup_delete_eq in Ez). injection Hs as _ _ _ _ Hpar.
      destruct (Hlk k z Hkc Ez) as [[-> ->]|[_ E']]; [apply (T6 p y); [done|congruence]|by apply (T6 k z)].
  + intros d z E Hd0. destruct (decide (d = p)) as [->|Hdp]; [|by rewrite upd_ne]. rewrite EK in Hd0. by destruct l1.
Qed.

Lemma destroy_root_tree w K born clock c x : tree_ok w K born clock -> cs w !! c = Some x -> K c = [] -> parent_ x = None -> tree_loses w K born clock c.
Proof.
  intros T Ec Hk Ep. pose proof T as [T1 T2 T3 T4 T5 T6]. unfold tree_loses, remains, destroy_canceler. rewrite Ec, Ep.
  assert (Hleaf : forall d y, cs w !! d = Some y -> parent_ y <> Some c) by (apply (leaf_parent w K born clock c T ltac:(by eexists) Hk)).
  eexists _, K. split; [done|].
  assert (Hd : forall d, d <> c -> match delete c (cs w) !! d, cs w !! d with Some x', Some x => same_c x' x | None, None => True | _, _ => False end).
  { intros d Hne. rewrite lookup_delete_ne by done. by destruct (cs w !! d). }
  split; [|split; [done|split; [split; [simpl; apply lookup_delete_eq|exact Hd]|done]]]. split; simpl.
  + intros d z [_ E]%lookup_delete_Some. by apply T1.
  + intros d [z [_ E]%lookup_delete_Some]. apply T2. by eexists.
  + intros d k [z0 [Hne E0]%lookup_delete_Some]. rewrite (T3 d k ltac:(by eexists)). split; intros (z & Ez & Pz).
    * exists z. rewrite lookup_delete_ne; [done|]. intros <-. congruence.
    * apply lookup_delete_Some in Ez as [_ Ez]. by exists z.
  + intros k z d [_ Ez]%lookup_delete_Some Pz. rewrite lookup_delete_ne; [by eapply T4|]. intros <-. by apply (Hleaf k z).
  + intros d [z [_ E]%lookup_delete_Some]. apply T5. by eexists.
  + intros k z d [_ Ez]%lookup_delete_Some Pz. by apply (T6 k z).
Qed.

Lemma destroy_core w aw A K born clock c x : core_ok w aw A K born clock -> cs w !! c = Some x -> K c = [] -> (forall a, ~ pend aw c a) ->
  exists w' K', destroy_canceler c w = Some w' /\ core_ok w' aw A K' born clock /\ cs w' !! c = None /\
    (forall d, d <> c -> match cs w' !! d, cs w !! d with Some x', Some x => same_c x' x | None, None => True | _, _ => False end).
Proof.
  intros O Ec Hk Np. pose proof (o_tree _ _ _ _ _ _ O) as T. assert (D : tree_loses w K born clock c).
  { destruct (parent_ x) as [p|] eqn:Ep; [by apply (destroy_child_tree _ _ _ _ _ x p)|by apply (destroy_root_tree _ _ _ _ _ x)]. }
  destruct D as (w' & K' & E & T' & Hn & [Hc Hr] & HK). exists w', K'. split; [done|]. split; [|done]. by apply (rest_ok w w' aw A K K' born clock c).
Qed.

(** ** Operations resolve *)

(** [aw'] is [aw] with awaiter [a] no longer pending. *)
Definition settled (aw aw' : gmap node_id awaiter_t) (a : node_id) : Prop :=
  (forall b, b <> a -> aw' !! b = aw !! b) /\ (forall c, ~ pend aw' c a).

Lemma settled_pend aw aw' a c b : settled aw aw' a -> pend aw' c b <-> pend aw c b /\ b <> a.
Proof.
  intros [S1 S2]. unfold pend. destruct (decide (b = a)) as [->|Hne]; [split; [intros P; by destruct (S2 c)|by intros [_ ?]]|].
  rewrite S1 by done. naive_solver.
Qed.
Lemma settled_count aw aw' a c x : settled aw aw' a -> aw !! a = Some x ->
  (one (pending_on c x) + count_if (pending_on c) aw')%nat = count_if (pending_on c) aw.
Proof.
  intros [S1 S2] E. rewrite <- (count_delete (pending_on c) aw a x E). f_equal.
  assert (Ed : delete a aw = delete a aw').
  { apply map_eq. intros b. destruct (decide (a = b)) as [<-|Hne]; [by rewrite !lookup_delete_eq|]. rewrite !lookup_delete_ne by done. by rewrite S1. }
  rewrite Ed. destruct (aw' !! a) as [y|] eqn:Ey; [|by rewrite delete_id]. rewrite <- (count_delete (pending_on c) aw' a y Ey).
  destruct (pending_on c y) eqn:P; [|done]. destruct (S2 c). by exists y.
Qed.

Lemma unlink_ok w aw aw' A c a y : lists_ok w aw A -> cs w !! c = Some y -> pend aw c a -> settled aw aw' a ->
  exists h w1 A1, unlink_op c a w = Some w1 /\ lists_ok w1 aw' A1 /\ cs w1 = <[c := with_head h y]> (cs w) /\ sibs w1 = sibs w /\
    (forall d b, is_Some (cs w !! d) -> b ∈ A1 d <-> b ∈ A d /\ b <> a).
Proof.
  intros [L1 L2 L3 L4] Ec P S. unfold unlink_op. rewrite Ec. pose proof (L1 c y Ec) as Hh. pose proof (L2 c ltac:(by eexists)) as D.
  destruct (decide (a ∈ A c)) as [Ha|Ha].
  - apply list_elem_of_split in Ha as (l1 & l2 & EA). rewrite EA in D, Hh. rewrite (dll_prefix _ _ _ _ D), (dll_suffix _ _ _ _ D).
    assert (Hcond : bool_decide (last l1 = None) && bool_decide (head l2 = None) && negb (bool_decide (active_head_ y = Some a)) = false).
    { destruct l1 as [|z l1]; [rewrite Hh; simpl; rewrite (bool_decide_true (Some a = Some a)), andb_false_r; done|]. rewrite bool_decide_false; [done|]. intros E. by apply last_None in E. }
    rewrite Hcond. pose proof (dll_nodup _ _ D) as Hnd. rewrite <- Permutation_middle in Hnd. apply NoDup_cons in Hnd as [Hna _].
    exists (head (l1 ++ l2)). eexists _, (upd A c (l1 ++ l2)). split; [done|].
    assert (Ey : match last l1 with Some _ => y | None => with_head (head l2) y end = with_head (head (l1 ++ l2)) y).
    { destruct l1 as [|z l1]; [done|]. destruct (last (z :: l1)) eqn:El; [|by apply last_None in El]. simpl in *. rewrite <- Hh. by destruct y. }
    rewrite Ey. split; [|split; [done|split; [done|]]].
    2: { intros d b Hd. destruct (decide (d = c)) as [->|Hne]; [rewrite upd_eq, EA; set_solver|]. rewrite upd_ne by done. split; [|by intros [? _]]. intros Hb. split; [done|].
         intros ->. apply Hne. apply (pend_unique aw d c a); [by apply L3|done]. }
    split; simpl.
    + intros d x Ed. destruct (decide (d = c)) as [->|Hne]; [rewrite lookup_insert_eq in Ed; injection Ed as <-; by rewrite upd_eq|]. rewrite lookup_insert_ne in Ed by done. rewrite upd_ne by done. by apply L1.
    + intros d Hd. destruct (decide (d = c)) as [->|Hne]; [rewrite upd_eq; by apply dll_unlink|]. rewrite lookup_insert_ne in Hd by done. rewrite upd_ne by done.
      apply (dll_unlink_other _ (l1 ++ a :: l2)); [done|apply elem_of_app; right; left|by apply L2|]. rewrite <- EA. intros b H1 H2. apply Hne.
      apply (pend_unique aw d c b); by apply L3.
    + intros d b Hd Hb. apply (settled_pend _ _ _ _ _ S). destruct (decide (d = c)) as [->|Hne].
      * rewrite upd_eq in Hb. split; [apply L3; [by eexists|rewrite EA; set_solver]|]. intros ->. done.
      * rewrite lookup_insert_ne in Hd by done. rewrite upd_ne in Hb by done. split; [by apply L3|]. intros ->. apply Hne. apply (pend_unique aw d c a); [by apply L3|done].
    + intros d b Pb Hb. apply (settled_pend _ _ _ _ _ S) in Pb as [Pb Hba].
      assert (Hbl : b ∉ A d). { destruct (decide (d = c)) as [->|Hne]; [rewrite upd_eq in Hb; rewrite EA; set_solver|by rewrite upd_ne in Hb]. }
      assert (Hbc : b ∉ A c). { intros Hbc. apply Hbl. assert (d = c) as -> by (apply (pend_unique aw d c b); [done|apply L3; [by eexists|done]]). done. }
      pose proof (L4 d b Pb Hbl) as Hu. unfold link_of in *. rewrite lookup_unlink_node; [done|done| |].
      * rewrite (dll_prefix _ _ _ _ D). intros El%last_Some_elem_of. rewrite EA in Hbc. set_solver.
      * rewrite (dll_suffix _ _ _ _ D). intros El. rewrite EA in Hbc. destruct l2; simplify_eq/=. set_solver.
  - rewrite (L4 c a P Ha). simpl. rewrite (bool_decide_false (active_head_ y = Some a)) by (rewrite Hh; intros E; apply Ha; destruct (A c); simplify_eq/=; set_solver).
    simpl. exists (active_head_ y), w, A. split; [done|]. split; [|split; [destruct y; simpl; by rewrite insert_id|split; [done|]]].
    2: { intros d b Hd. split; [|by intros [? _]]. intros Hb. split; [done|]. intros ->. apply Ha. assert (d = c) as -> by (apply (pend_unique aw d c a); [by apply L3|done]). done. }
    split; try done.
    + intros d b Hd Hb. apply (settled_pend _ _ _ _ _ S). split; [by apply L3|]. intros ->. assert (d = c) as -> by (apply (pend_unique aw d c a); [by apply L3|done]). done.
    + intros d b Pb Hb. apply (settled_pend _ _ _ _ _ S) in Pb as [Pb _]. by apply (L4 d).
Qed.

Lemma shape_sym (w w' : scopes_t (U := U)) : shape w w' -> shape w' w.
Proof. intros [S1 S2]. split; [done|]. intros c. by rewrite S2. Qed.
Lemma shape_alive (w w' : scopes_t (U := U)) c : shape w w' -> is_Some (cs w' !! c) -> is_Some (cs w !! c).
Proof. intros S [x E]. destruct (shape_lookup _ _ _ _ (shape_sym _ _ S) E) as (y & Ey & _). by eexists. Qed.
Lemma tree_shape w w' K born clock : shape w w' -> tree_ok w K born clock -> tree_ok w' K born clock.
Proof.
  intros S [T1 T2 T3 T4 T5 T6]. pose proof (shape_sym _ _ S) as S'.
  assert (Hk : forall k d, (exists y, cs w' !! k = Some y /\ parent_ y = Some d) <-> exists y, cs w !! k = Some y /\ parent_ y = Some d).
  { intros k d. split; intros (y & E & P); [destruct (shape_lookup _ _ _ _ S' E) as (z & Ez & Pz & _)|destruct (shape_lookup _ _ _ _ S E) as (z & Ez & Pz & _)]; exists z; split; congruence. }
  split.
  - intros c x E. destruct (shape_lookup _ _ _ _ S' E) as (z & Ez & _ & Fz). rewrite <- Fz. by apply T1.
  - intros c Hc. rewrite (proj1 S). apply T2. by apply (shape_alive w w').
  - intros c k Hc. rewrite Hk. apply T3. by apply (shape_alive w w').
  - intros k y c E P. destruct (proj1 (Hk k c) ltac:(by exists y)) as (z & Ez & Pz). apply (shape_alive w' w); [done|]. by eapply T4.
  - intros c Hc. apply T5. by apply (shape_alive w w').
  - intros k y c E P. destruct (proj1 (Hk k c) ltac:(by exists y)) as (z & Ez & Pz). by apply (T6 k z).
Qed.

(** One canceler changes its flags or counter. *)
Lemma lists_set_c w aw A c x y : lists_ok w aw A -> cs w !! c = Some x -> active_head_ y = active_head_ x -> lists_ok (set_c c y w) aw A.
Proof.
  intros [L1 L2 L3 L4] E Hy.
  assert (Hal : forall d, is_Some (<[c := y]> (cs w) !! d) -> is_Some (cs w !! d)) by (intros d; destruct (decide (c = d)) as [<-|]; [by eexists|by rewrite lookup_insert_ne]).
  split; simpl; try done.
  - intros d z Ed. destruct (decide (c = d)) as [<-|Hne]; [rewrite lookup_insert_eq in Ed; injection Ed as <-; rewrite Hy; by apply L1|]. rewrite lookup_insert_ne in Ed by done. by apply L1.
  - intros d Hd. by apply L2, Hal.
  - intros d a Hd. by apply L3, Hal.
Qed.

Lemma resolve_ok w aw aw' A K born clock c a x :
  core_ok w aw A K born clock -> orphans_busy w -> aw !! a = Some x -> pending_on c x = true -> settled aw aw' a ->
  exists w' A' K', resolve c a w = Some w' /\ core_ok w' aw' A' K' born clock /\ orphans_busy w' /\
    (forall d, d <> c -> is_Some (cs w !! d) <-> is_Some (cs w' !! d)).
Proof.
  intros O Ob Ea Px S. assert (P : pend aw c a) by (by exists x). destruct (o_alive _ _ _ _ _ _ O c a P) as [y Ec].
  destruct (unlink_ok w aw aw' A c a y (o_lists _ _ _ _ _ _ O) Ec P S) as (h & w1 & A1 & Eu & L1 & C1 & S1 & Q1). unfold resolve. rewrite Eu.
  unfold op_resolved. rewrite C1, lookup_insert_eq. cbn [tracked_ops_ with_head orphaned_].
  destruct (o_tracked _ _ _ _ _ _ O c y Ec) as [Ht Hb]. pose proof (settled_count aw aw' a c x S Ea) as Hc. rewrite Px in Hc. simpl in Hc.
  rewrite u32_small by lia. set (n := tracked_ops_ y - 1). set (y2 := with_tracked n (with_head h y)). set (w2 := set_c c y2 w1).
  assert (C2 : cs w2 = <[c := y2]> (cs w)) by (subst w2; simpl; rewrite C1; by rewrite insert_insert_eq).
  assert (O2 : core_ok w2 aw' A1 K born clock).
  { split.
    - apply (lists_set_c w1 aw' A1 c (with_head h y) y2 L1); [rewrite C1; apply lookup_insert_eq|done].
    - apply (tree_shape w); [|exact (o_tree _ _ _ _ _ _ O)]. split; [exact S1|]. intros d. rewrite C2. destruct (decide (c = d)) as [<-|Hne]; [by rewrite lookup_insert_eq, Ec|by rewrite lookup_insert_ne].
    - intros d b Pb. apply (settled_pend _ _ _ _ _ S) in Pb as [Pb _]. rewrite C2. destruct (decide (c = d)) as [<-|Hne]; [rewrite lookup_insert_eq; by eexists|]. rewrite lookup_insert_ne by done. by apply (o_alive _ _ _ _ _ _ O d b).
    - intros d z Ed. rewrite C2 in Ed. destruct (decide (c = d)) as [<-|Hne]; [rewrite lookup_insert_eq in Ed; injection Ed as <-; simpl; lia|]. rewrite lookup_insert_ne in Ed by done.
      pose proof (settled_count aw aw' a d x S Ea) as Hd. assert (Hf : pending_on d x = false). { destruct (pending_on d x) eqn:Pd; [|done]. destruct Hne. apply (pend_unique aw c d a); [done|by exists x]. }
      rewrite Hf in Hd. simpl in Hd. rewrite Hd. by apply (o_tracked _ _ _ _ _ _ O).
    - intros d z Ed Ho. rewrite C2 in Ed. destruct (decide (c = d)) as [<-|Hne]; [rewrite lookup_insert_eq in Ed; injection Ed as <-; by apply (o_leaf _ _ _ _ _ _ O c y)|]. rewrite lookup_insert_ne in Ed by done. by eapply (o_leaf _ _ _ _ _ _ O).
    - intros d z b Ed. rewrite C2 in Ed. rewrite (settled_pend _ _ _ _ _ S). destruct (decide (c = d)) as [<-|Hne].
      + rewrite lookup_insert_eq in Ed. injection Ed as <-. rewrite Q1, (o_linked _ _ _ _ _ _ O c y b Ec) by (by eexists). simpl. tauto.
      + rewrite lookup_insert_ne in Ed by done. rewrite Q1, (o_linked _ _ _ _ _ _ O d z b Ed) by (by eexists). tauto. }
  assert (E2 : cs w2 !! c = Some y2) by (rewrite C2; apply lookup_insert_eq).
  assert (Hoth : forall d z, d <> c -> cs w2 !! d = Some z -> orphaned_ z = true -> 0 < tracked_ops_ z).
  { intros d z Hne Ed. rewrite C2, lookup_insert_ne in Ed by done. by apply (Ob d z). }
  destruct ((n =? 0) && orphaned_ y) eqn:Eo.
  - apply andb_true_iff in Eo as [En Ho]. apply Z.eqb_eq in En.
    destruct (destroy_core w2 aw' A1 K born clock c y2 O2 E2) as (w' & K' & Ed & O' & Ec' & Hs).
    + apply (o_leaf _ _ _ _ _ _ O2 c y2 E2). exact Ho.
    + apply count_zero_pend. lia.
    + exists w', A1, K'. split; [exact Ed|]. split; [done|]. split.
      * intros d z Edz Hoz. assert (d <> c) as Hne by congruence. specialize (Hs d Hne). rewrite Edz in Hs. destruct (cs w2 !! d) as [z2|] eqn:Ez2; [|done].
        injection Hs as _ _ Et Eo' _. rewrite Et. apply (Hoth d z2 Hne Ez2). congruence.
      * intros d Hne. specialize (Hs d Hne). rewrite C2, lookup_insert_ne in Hs by done. destruct (cs w' !! d), (cs w !! d); try done; split; intros []; done.
  - exists w2, A1, K. split; [done|]. split; [done|]. split.
    + intros d z Ed Ho. destruct (decide (d = c)) as [->|Hne]; [|by eapply Hoth]. rewrite E2 in Ed. injection Ed as <-. simpl in *. rewrite Ho, andb_true_r in Eo. apply Z.eqb_neq in Eo. lia.
    + intros d Hne. rewrite C2, lookup_insert_ne by done. done.
Qed.

(** ** Operations start *)

Lemma link_ok w aw A K born clock c a x x' y :
  core_ok w aw A K born clock -> orphans_busy w -> aw !! a = Some x -> (forall d, pending_on d x = false) -> pending_on c x' = true ->
  cs w !! c = Some y -> cancelled_ y = false -> tracked_ops_ y + 1 < 2 ^ 32 ->
  exists w', link_op c a (with_task a w) = Some w' /\ core_ok w' (<[a := x']> aw) (upd A c (a :: A c)) K born clock /\ orphans_busy w' /\
    (forall d, is_Some (cs w !! d) <-> is_Some (cs w' !! d)).
Proof.
  intros [OL OT OA OC OF OQ] Ob Ea Hx Hx' Ec Hy Hb. pose proof OL as [L1 L2 L3 L4]. unfold link_op. simpl. rewrite Ec. eexists. split; [done|]. set (y' := mk_canceler _ _ _ _ _ _).
  assert (Hnp : forall d, ~ pend aw d a) by (intros d (z & Ez & Pz); rewrite Ea in Ez; injection Ez as <-; by rewrite Hx in Pz).
  assert (Hpend : forall d b, pend (<[a := x']> aw) d b <-> (b = a /\ d = c) \/ (b <> a /\ pend aw d b)).
  { intros d b. unfold pend. destruct (decide (b = a)) as [->|Hne].
    - rewrite lookup_insert_eq. split; [|intros [[_ ->]|[? _]]; [by exists x'|done]]. intros (z & [= <-] & Pz). left. split; [done|].
      unfold pending_on in Pz, Hx'. destruct (decide (canceler_ x' = Some d)) as [E1|]; [|by rewrite bool_decide_false in Pz]. destruct (decide (canceler_ x' = Some c)); [congruence|by rewrite bool_decide_false in Hx'].
    - rewrite lookup_insert_ne by done. split; [by right|]. intros [[? _]|[_ ?]]; done. }
  assert (Hna : forall d, is_Some (cs w !! d) -> a ∉ A d) by (intros d Hd Ha; exact (Hnp d (L3 d a Hd Ha))).
  assert (Hal : forall d, is_Some (cs w !! d) <-> is_Some (<[c := y']> (cs w) !! d)).
  { intros d. destruct (decide (c = d)) as [<-|Hne]; [rewrite lookup_insert_eq, Ec; split; by eexists|by rewrite lookup_insert_ne]. }
  assert (Hcnt : forall d, count_if (pending_on d) (<[a := x']> aw) = (one (bool_decide (d = c)) + count_if (pending_on d) aw)%nat).
  { intros d. pose proof (count_replace (pending_on d) aw a x x' Ea) as Hc. rewrite (Hx d) in Hc. simpl in Hc. rewrite Hc. f_equal. f_equal.
    destruct (decide (d = c)) as [->|Hne]; [by rewrite bool_decide_true|]. rewrite bool_decide_false by done. destruct (pending_on d x') eqn:P; [|done].
    destruct Hne. assert (pend (<[a := x']> aw) d a) as [[_ ->]|[? _]]%Hpend by (exists x'; by rewrite lookup_insert_eq); done. }
  split; [split; simpl|split; [|exact Hal]].
  - split; simpl.
    + intros d z Ed. destruct (decide (d = c)) as [->|Hne]; [rewrite lookup_insert_eq in Ed; injection Ed as <-; by rewrite upd_eq|]. rewrite lookup_insert_ne in Ed by done. rewrite upd_ne by done. by apply L1.
    + intros d Hd. apply Hal in Hd. rewrite (L1 c y Ec). destruct (decide (d = c)) as [->|Hne]; [rewrite upd_eq; apply dll_push_front; [by apply L2|by apply Hna]|].
      rewrite upd_ne by done. apply dll_push_front_other; [by apply L2|by apply Hna|]. intros b H1 H2. apply Hne. apply (pend_unique aw d c b); by apply L3.
    + intros d b Hd Hb'. apply Hal in Hd. apply Hpend. destruct (decide (d = c)) as [->|Hne].
      * rewrite upd_eq in Hb'. apply elem_of_cons in Hb' as [->|Hb']; [by left|right]. split; [intros ->; by apply (Hna c)|by apply L3].
      * rewrite upd_ne in Hb' by done. right. split; [intros ->; by apply (Hna d)|by apply L3].
    + intros d b P Hb'. apply Hpend in P as [[-> ->]|[Hba P]]; [rewrite upd_eq in Hb'; set_solver|].
      assert (Hbd : b ∉ A d) by (destruct (decide (d = c)) as [->|Hne]; [rewrite upd_eq in Hb'; set_solver|by rewrite upd_ne in Hb']).
      unfold link_of. rewrite lookup_push_front; [by apply (L4 d)|done|]. rewrite (L1 c y Ec). intros E. assert (Hbc : b ∈ A c) by (destruct (A c); simplify_eq/=; set_solver).
      apply Hbd. assert (d = c) as -> by (apply (pend_unique aw d c b); [done|apply L3; [by eexists|done]]). done.
  - apply (tree_shape w); [|exact OT]. split; [done|]. intros d. simpl. destruct (decide (c = d)) as [<-|Hne]; [by rewrite lookup_insert_eq, Ec|by rewrite lookup_insert_ne].
  - intros d b P. apply Hal. apply Hpend in P as [[-> ->]|[_ P]]; [by eexists|by apply (OA d b)].
  - intros d z Ed. rewrite Hcnt. destruct (decide (d = c)) as [->|Hne].
    + rewrite lookup_insert_eq in Ed. injection Ed as <-. rewrite bool_decide_true by done. destruct (OC c y Ec) as [E1 E2]. simpl. rewrite u32_small by lia. lia.
    + rewrite lookup_insert_ne in Ed by done. rewrite bool_decide_false by done. by apply OC.
  - intros d z Ed Ho. destruct (decide (d = c)) as [->|Hne]; [rewrite lookup_insert_eq in Ed; injection Ed as <-; by apply (OF c y)|]. rewrite lookup_insert_ne in Ed by done. by eapply OF.
  - intros d z b Ed. rewrite Hpend. destruct (decide (d = c)) as [->|Hne].
    + rewrite lookup_insert_eq in Ed. injection Ed as <-. rewrite upd_eq, elem_of_cons, (OQ c y b Ec). simpl. rewrite Hy. split.
      * intros [->|[P _]]; [by split; [left|]|]. split; [right|done]. split; [|done]. intros ->. by apply (Hnp c).
      * intros [[[-> _]|[_ P]] _]; [by left|by right].
    + rewrite lookup_insert_ne in Ed by done. rewrite upd_ne, (OQ d z b Ed) by done. split.
      * intros [P Hz]. split; [right|done]. split; [|done]. intros ->. by apply (Hnp d).
      * intros [[[_ ->]|[_ P]] Hz]; done.
  - intros d z Ed Ho. simpl in Ed. destruct (decide (d = c)) as [->|Hne]; [|rewrite lookup_insert_ne in Ed by done; by apply (Ob d z)].
    rewrite lookup_insert_eq in Ed. injection Ed as <-. simpl. destruct (OC c y Ec). rewrite u32_small by lia. lia.
Qed.

Lemma core_set_io w aw A K born clock u : core_ok w aw A K born clock -> core_ok (set_io u w) aw A K born clock.
Proof. intros [[L1 L2 L3 L4] [T1 T2 T3 T4 T5 T6] OA OC OF OQ]. by split; [split|split|..]. Qed.

(** ** Cancelling *)

(** What cancelling [c], not cancelled before, does. *)
Definition cancels (w w' : scopes_t (U := U)) (aw : gmap node_id awaiter_t) (c : node_id) : Prop :=
  (forall d x', cs w' !! d = Some x' -> exists x, cs w !! d = Some x /\ (cancelled_ x' = true <-> cancelled_ x = true \/ rtc (child_of w) c d)) /\
  exists l, NoDup l /\ (forall a, a ∈ l <-> exists d x, rtc (child_of w) c d /\ cs w !! d = Some x /\ cancelled_ x = false /\ pend aw d a) /\
    io w' = foldl (fun u tok => prep_cancel tok u) (io w) (tokens l w).

Lemma reached_spec w aw A K born clock l : core_ok w aw A K born clock -> NoDup l ->
  NoDup (reached w A l) /\ (forall a, a ∈ reached w A l <-> exists d x, d ∈ l /\ cs w !! d = Some x /\ cancelled_ x = false /\ pend aw d a).
Proof.
  intros O. induction l as [|c l IH]; intros Hn; [split; [constructor|]; intros a; simpl; set_solver|]. apply NoDup_cons in Hn as [Hc Hn]. destruct (IH Hn) as [I1 I2].
  cbn [reached flat_map]. fold (reached w A l). assert (Hin : forall a, a ∈ reached w A (c :: l) <-> exists d x, d ∈ c :: l /\ cs w !! d = Some x /\ cancelled_ x = false /\ pend aw d a).
  { intros a. cbn [reached flat_map]. fold (reached w A l). rewrite elem_of_app, I2. split.
    - intros [Ha|(d & x & Hd & H')]; [|exists d, x; split; [by right|done]]. destruct (cs w !! c) as [x|] eqn:E; [|by apply not_elem_of_nil in Ha].
      destruct (cancelled_ x) eqn:Hx; [by apply not_elem_of_nil in Ha|]. exists c, x. split; [left|]. split_and!; try done. apply (o_linked _ _ _ _ _ _ O c x a E) in Ha as [? _]. done.
    - intros (d & x & Hd & E & Hx & P). apply elem_of_cons in Hd as [->|Hd]; [left|right; by exists d, x]. rewrite E, Hx. by apply (o_linked _ _ _ _ _ _ O c x a E). }
  split; [|exact Hin]. apply NoDup_app. split; [|split; [|done]].
  - destruct (cs w !! c) as [x|] eqn:E; [|constructor]. destruct (cancelled_ x); [constructor|]. apply (dll_nodup (nlks w)), (l_dll _ _ _ (o_lists _ _ _ _ _ _ O)). by eexists.
  - intros a Ha Hr. apply I2 in Hr as (d & y & Hd & Ey & _ & P). destruct (cs w !! c) as [x|] eqn:E; [|by apply not_elem_of_nil in Ha].
    destruct (cancelled_ x); [by apply not_elem_of_nil in Ha|]. apply (o_linked _ _ _ _ _ _ O c x a E) in Ha as [P' _]. apply Hc. by rewrite (pend_unique aw c d a).
Qed.

Lemma marked_core w w' aw A A' K born clock l : core_ok w aw A K born clock -> lists_ok w' aw A' -> marked w w' A A' l -> core_ok w' aw A' K born clock.
Proof.
  intros [OL OT OA OC OF OQ] L' [S C Ls _]. pose proof (shape_sym _ _ S) as S'.
  assert (Hb : forall d x', cs w' !! d = Some x' -> exists x, cs w !! d = Some x /\ tracked_ops_ x' = tracked_ops_ x /\ orphaned_ x' = orphaned_ x /\ cancelled_ x' = (cancelled_ x || bool_decide (d ∈ l))).
  { intros d x' E'. destruct (shape_lookup _ _ _ _ S' E') as (x & E & _). destruct (C d x E) as (x2 & E2 & D). rewrite E' in E2. injection E2 as <-. by exists x. }
  split; [done|by apply (tree_shape w)|..].
  - intros d a P. apply (shape_alive w' w); [done|]. by apply (OA d a).
  - intros d x' E'. destruct (Hb d x' E') as (x & E & -> & _). by apply OC.
  - intros d x' E' Ho. destruct (Hb d x' E') as (x & E & _ & Hox & _). apply (OF d x E). congruence.
  - intros d x' a E'. destruct (Hb d x' E') as (x & E & _ & _ & Hc). rewrite (Ls d x E), Hc. destruct (decide (d ∈ l)) as [Hd|Hd].
    + rewrite bool_decide_true, orb_true_r by done. destruct (cancelled_ x) eqn:Hx; [rewrite (OQ d x a E), Hx; naive_solver|]. split; [by intros ?%not_elem_of_nil|by intros [_ ?]].
    + rewrite bool_decide_false, orb_false_r by done. by apply OQ.
Qed.

Lemma cancel_ok `{!CancelBackendLaws U} w aw A K born clock c x : core_ok w aw A K born clock -> orphans_busy w -> cs w !! c = Some x ->
  exists w' A', cancel c w = Some w' /\ core_ok w' aw A' K born clock /\ orphans_busy w' /\ shape w w' /\ (if cancelled_ x then w' = w else cancels w w' aw c).
Proof.
  intros O Ob E. destruct (cancelled_ x) eqn:Hx.
  { exists w, A. split; [unfold cancel; by rewrite E, Hx|]. split; [done|]. split; [done|]. split; [apply shape_refl|done]. }
  destruct (tree_exists w K born clock c (o_tree _ _ _ _ _ _ O)) as (t & Er & (p & Hr) & _ & Hn & Hd); [by eexists|]. subst c.
  destruct (marks_run (preorder t) w aw A (o_lists _ _ _ _ _ _ O) Hn) as (w' & A' & M & L' & Mk & Hio).
  { intros d Hin. by apply (rep_in_cs w p t). }
  exists w', A'. rewrite (cancel_spec w p t x Hr Hn E Hx). split; [exact M|]. split; [by apply (marked_core w w' aw A A' K born clock (preorder t))|].
  destruct Mk as [S C Ls _]. pose proof (shape_sym _ _ S) as S'.
  assert (Hb : forall d x', cs w' !! d = Some x' -> exists x, cs w !! d = Some x /\ tracked_ops_ x' = tracked_ops_ x /\ orphaned_ x' = orphaned_ x /\ cancelled_ x' = (cancelled_ x || bool_decide (d ∈ preorder t))).
  { intros d x' E'. destruct (shape_lookup _ _ _ _ S' E') as (x1 & E1 & _). destruct (C d x1 E1) as (x2 & E2 & D). rewrite E' in E2. injection E2 as <-. by exists x1. }
  split; [intros d x' E' Ho; destruct (Hb d x' E') as (x1 & E1 & -> & Ho1 & _); apply (Ob d x1 E1); congruence|]. split; [done|]. split.
  - intros d x' E'. destruct (Hb d x' E') as (x1 & E1 & _ & _ & Hc). exists x1. split; [done|]. rewrite Hc, orb_true_iff, bool_decide_eq_true, Hd. done.
  - destruct (reached_spec w aw A K born clock (preorder t) O Hn) as [R1 R2]. exists (reached w A (preorder t)). split; [done|]. split; [|done].
    intros a. rewrite R2. split; intros (d & x1 & Hin & H'); exists d, x1; (split; [by apply Hd|done]).
Qed.

(** One canceler changes its flags; its list does not. *)
Lemma flags_ok w aw A K born clock c x y : core_ok w aw A K born clock -> cs w !! c = Some x -> active_head_ y = active_head_ x -> shape_of y = shape_of x ->
  tracked_ops_ y = tracked_ops_ x -> (orphaned_ y = true -> K c = []) -> (cancelled_ y = cancelled_ x \/ forall a, ~ pend aw c a) -> core_ok (set_c c y w) aw A K born clock.
Proof.
  intros [OL OT OA OC OF OQ] E Hh Hs Ht Ho Hq.
  split; [by apply (lists_set_c w aw A c x y)|apply (tree_shape w); [by apply (set_c_shape c x)|done]|..]; simpl.
  - intros d a P. destruct (decide (c = d)) as [<-|Hne]; [rewrite lookup_insert_eq; by eexists|]. rewrite lookup_insert_ne by done. by apply (OA d a).
  - intros d z Ed. destruct (decide (c = d)) as [<-|Hne]; [rewrite lookup_insert_eq in Ed; injection Ed as <-; rewrite Ht; by apply OC|]. rewrite lookup_insert_ne in Ed by done. by apply OC.
  - intros d z Ed Hz. destruct (decide (c = d)) as [<-|Hne]; [rewrite lookup_insert_eq in Ed; injection Ed as <-; by apply Ho|]. rewrite lookup_insert_ne in Ed by done. by eapply OF.
  - intros d z a Ed. destruct (decide (c = d)) as [<-|Hne]; [|rewrite lookup_insert_ne in Ed by done; by apply OQ]. rewrite lookup_insert_eq in Ed. injection Ed as <-.
    rewrite (OQ c x a E). destruct Hq as [->|Hq]; [done|]. split; intros [P _]; by destruct (Hq a).
Qed.

End Ops.
