(* ===== verification/CancelSound.v ===== *)
(** * Any use of the cancelers

    Every program over cancelers and [cancellable_awaiter]s
    (src/include/cornet/coroutine/cancel.h, src/src/cancel.cc) as the steps it
    takes, and what holds of all of them. *)

From stdpp Require Import prelude gmap list fin_maps relations.
From Stdlib Require Import ZArith Lia.
From S2P Require Import Prelude Dll Counting Uring Cancel CancelOps.
Open Scope Z_scope.

Section Any_use.
Context {U : Type} `{CancelBackend U} `{!CancelBackendLaws U}.
Implicit Types s : ops_t (U := U).

(** ** Steps

    Scopes are made, derived, cancelled, reset, orphaned and destroyed;
    operations start under them, resolve, or lose their frame; the ring moves
    on.  A scope is destroyed by its owner only when no operation refers to it
    and it has no children, and after [orphan] the owner's pointer is dead. *)
Inductive ops_reach : ops_t -> Prop :=
| opr_start u : ops_reach (mk_ops (mk_scopes ∅ ∅ ∅ ∅ u) ∅)
| opr_io s u : ops_reach s -> ops_reach (set_sc (set_io u (sc s)) s)
| opr_root s c : ops_reach s -> cs (sc s) !! c = None -> ops_reach (set_sc (make_root c (sc s)) s)
| opr_child s c p y w : ops_reach s -> cs (sc s) !! c = None -> cs (sc s) !! p = Some y -> orphaned_ y = false -> make_child c p (sc s) = Some w -> ops_reach (set_sc w s)
| opr_destroy s c x w : ops_reach s -> cs (sc s) !! c = Some x -> tracked_ops_ x = 0 -> first_child_ x = None -> destroy_canceler c (sc s) = Some w -> ops_reach (set_sc w s)
| opr_cancel s c w : ops_reach s -> cancel c (sc s) = Some w -> ops_reach (set_sc w s)
| opr_reset s c w r : ops_reach s -> reset c (sc s) = Some (w, r) -> ops_reach (set_sc w s)
| opr_orphan s c x w : ops_reach s -> cs (sc s) !! c = Some x -> first_child_ x = None -> orphan c (sc s) = Some w -> ops_reach (set_sc w s)
| opr_new s a c : ops_reach s -> aws s !! a = None -> ops_reach (set_aw a (new_awaiter c) s)
| opr_ready s a b s' r : ops_reach s -> await_ready a b s = Some (s', r) -> ops_reach s'
| opr_suspend s a x s' b : ops_reach s -> aws s !! a = Some x -> submitted_ x = false -> resolved_ x = false ->
    (forall c y, canceler_ x = Some c -> cs (sc s) !! c = Some y -> tracked_ops_ y + 1 < 2 ^ 32) -> await_suspend a s = Some (s', b) -> ops_reach s'
| opr_resume s a (r : expected Z) s' r' : ops_reach s -> await_resume a r s = Some (s', r') -> ops_reach s'
| opr_frame_dies s a s' : ops_reach s -> destroy_awaiter a s = Some s' -> ops_reach s'.

Definition reach_ok s : Prop := exists A K born clock, ops_ok s A K born clock.

(** An awaiter that is not pending before and after changes its flags. *)
Lemma quiet_aw s a x y : reach_ok s -> aws s !! a = Some x -> (forall c, pending_on c y = pending_on c x) -> reach_ok (set_aw a y s).
Proof.
  intros (A & K & born & clock & [[L1 L2 L3 L4] OT OA OC OF OQ] & Ob) E Hy. exists A, K, born, clock. split; [|done].
  assert (Hp : forall c b, pend (<[a := y]> (aws s)) c b <-> pend (aws s) c b).
  { intros c b. unfold pend. destruct (decide (a = b)) as [<-|Hne]; [|by rewrite lookup_insert_ne]. rewrite lookup_insert_eq, E. split; intros (z & [= <-] & P); eexists; (split; [done|]); [by rewrite <- Hy|by rewrite Hy]. }
  split; simpl; [split|done|..]; try done.
  - intros c b Hc Hb. apply Hp. by apply L3.
  - intros c b P. apply (L4 c). by apply Hp.
  - intros c b P. apply (OA c b). by apply Hp.
  - intros c z Ec. rewrite (count_same (pending_on c) (aws s) a x y E (Hy c)). by apply OC.
  - intros c z b Ec. rewrite Hp. by apply OQ.
Qed.

Lemma settled_insert s a x y : aws s !! a = Some x -> (forall c, pending_on c y = false) -> settled (aws s) (<[a := y]> (aws s)) a.
Proof.
  intros E Hy. split; [intros b Hb; by rewrite lookup_insert_ne|]. intros c (z & Ez & P). rewrite lookup_insert_eq in Ez. injection Ez as <-. by rewrite Hy in P.
Qed.
Lemma settled_delete (aw : gmap node_id awaiter_t) a : settled aw (delete a aw) a.
Proof. split; [intros b Hb; by rewrite lookup_delete_ne|]. intros c (z & Ez & _). by rewrite lookup_delete_eq in Ez. Qed.

Lemma resolve_reach s a c x aw' : reach_ok s -> aws s !! a = Some x -> pending_on c x = true -> settled (aws s) aw' a ->
  exists w, resolve c a (sc s) = Some w /\ reach_ok (mk_ops w aw').
Proof.
  intros (A & K & born & clock & O & Ob) E P S. destruct (resolve_ok _ _ aw' _ _ _ _ c a x O Ob E P S) as (w & A' & K' & Er & O' & Ob' & _).
  exists w. split; [done|]. by exists A', K', born, clock.
Qed.

Lemma pending_flags c x : pending_on c x = true <-> canceler_ x = Some c /\ submitted_ x = true /\ resolved_ x = false.
Proof. unfold pending_on. rewrite !andb_true_iff, bool_decide_eq_true, negb_true_iff. tauto. Qed.
Lemma not_pending x : submitted_ x = false \/ resolved_ x = true \/ canceler_ x = None -> forall c, pending_on c x = false.
Proof. intros Hx c. destruct (pending_on c x) eqn:P; [|done]. apply pending_flags in P as (? & ? & ?). naive_solver congruence. Qed.

Lemma resume_reach {V} s a x (r : expected V) : reach_ok s -> aws s !! a = Some x ->
  exists s' r', await_resume a r s = Some (s', r') /\ reach_ok s' /\ (r' = if cancelled_before_submit_ x && bool_decide (is_Some (canceler_ x)) then Unexpected (system_error ECANCELED) else r).
Proof.
  intros O E. unfold await_resume. rewrite E. destruct (canceler_ x) as [c|] eqn:Ec; simpl; [|exists s, r; by rewrite andb_false_r].
  destruct (cancelled_before_submit_ x); [by eexists _, _|]. simpl. destruct (submitted_ x && negb (resolved_ x)) eqn:Ep; [|by eexists _, _].
  apply andb_true_iff in Ep as [E1 E2]. apply negb_true_iff in E2.
  destruct (resolve_reach s a c x (<[a := mk_awaiter (Some c) (submitted_ x) (submit_failed_ x) false true]> (aws s)) O E) as (w & -> & O').
  - by apply pending_flags.
  - apply (settled_insert s a x); [done|]. apply not_pending. simpl. tauto.
  - eexists _, _. by split.
Qed.

Lemma frame_dies_reach s a x : reach_ok s -> aws s !! a = Some x -> exists s', destroy_awaiter a s = Some s' /\ reach_ok s'.
Proof.
  intros O E. unfold destroy_awaiter. rewrite E.
  assert (Hq : (forall c, pending_on c x = false) -> reach_ok (mk_ops (sc s) (delete a (aws s)))).
  { intros Hx. destruct O as (A & K & born & clock & [[L1 L2 L3 L4] OT OA OC OF OQ] & Ob). exists A, K, born, clock. split; [|done].
    assert (Hp : forall c b, pend (delete a (aws s)) c b <-> pend (aws s) c b).
    { intros c b. rewrite (settled_pend _ _ _ _ _ (settled_delete (aws s) a)). split; [by intros [? _]|]. intros P. split; [done|]. intros ->. destruct P as (z & Ez & P). rewrite E in Ez. injection Ez as <-. by rewrite Hx in P. }
    split; simpl; [split|done|..]; try done.
    - intros c b Hc Hb. apply Hp. by apply L3.
    - intros c b P. apply (L4 c). by apply Hp.
    - intros c b P. apply (OA c b). by apply Hp.
    - intros c z Ec. pose proof (count_delete (pending_on c) (aws s) a x E) as Hc. rewrite Hx in Hc. simpl in Hc. rewrite Hc. by apply OC.
    - intros c z b Ec. rewrite Hp. by apply OQ. }
  destruct (canceler_ x) as [c|] eqn:Ec; [|eexists; split; [done|]; apply Hq, not_pending; tauto].
  destruct (submitted_ x && negb (resolved_ x)) eqn:Ep.
  - apply andb_true_iff in Ep as [E1 E2]. apply negb_true_iff in E2. destruct (resolve_reach s a c x (delete a (aws s)) O E) as (w & -> & O'); [by apply pending_flags|apply settled_delete|]. by eexists.
  - eexists. split; [done|]. apply Hq, not_pending. apply andb_false_iff in Ep as [?|Hr]; [tauto|]. apply negb_false_iff in Hr. tauto.
Qed.

Lemma ring_moves_ok s u : reach_ok s -> reach_ok (set_sc (set_io u (sc s)) s).
Proof. intros (A & K & born & clock & O & Ob). exists A, K, born, clock. split; [by apply core_set_io|done]. Qed.

Lemma suspend_reach s a x s' b : reach_ok s -> aws s !! a = Some x -> submitted_ x = false -> resolved_ x = false ->
  (forall c y, canceler_ x = Some c -> cs (sc s) !! c = Some y -> tracked_ops_ y + 1 < 2 ^ 32) -> await_suspend a s = Some (s', b) -> reach_ok s'.
Proof.
  intros O E Hsub Hres Hb. unfold await_suspend. rewrite E. pose proof (not_pending x ltac:(tauto)) as Hnp.
  destruct (canceler_ x) as [c|] eqn:Ec.
  - unfold is_cancelled. destruct (cs (sc s) !! c) as [y|] eqn:Ey; [|done]. simpl. destruct (cancelled_ y) eqn:Hy.
    { intros [= <- <-]. apply (quiet_aw s a x); [done|done|]. intros d. rewrite Hnp. apply not_pending. simpl. tauto. }
    destruct O as (A & K & born & clock & O & Ob). set (x' := mk_awaiter (Some c) true (submit_failed_ x) (cancelled_before_submit_ x) false).
    destruct (link_ok (sc s) (aws s) A K born clock c a x x' y O Ob E Hnp ltac:(by apply pending_flags) Ey Hy (Hb c y eq_refl Ey)) as (w & -> & O1 & Ob1 & _).
    assert (R1 : forall u, reach_ok (mk_ops (set_io u w) (<[a := x']> (aws s)))) by (intros u; eexists _, K, born, clock; split; [by apply core_set_io|done]).
    unfold suspend_op. simpl. destruct (op_suspend _ _) as [[u []]|]; [| |done].
    + intros [= <- <-]. specialize (R1 u). unfold set_aw, set_sc. simpl. rewrite Hres. exact R1.
    + simpl. destruct (resolve_reach (mk_ops (set_io u w) (<[a := x']> (aws s))) a c x' (<[a := mk_awaiter (Some c) (submitted_ x) true (cancelled_before_submit_ x) (resolved_ x)]> (aws s)) (R1 u)) as (w2 & Er & O2).
      * apply lookup_insert_eq.
      * by apply pending_flags.
      * simpl. split; [intros d Hd; by rewrite !lookup_insert_ne|]. intros d (z & Ez & P). rewrite lookup_insert_eq in Ez. injection Ez as <-. apply pending_flags in P as (_ & P & _). simpl in P. congruence.
      * simpl in Er. rewrite Er. intros [= <- <-]. exact O2.
  - unfold suspend_op. destruct (op_suspend _ _) as [[u []]|]; [| |done]; intros [= <- <-]; apply (quiet_aw _ a x); try (by apply ring_moves_ok); try done;
      intros d; rewrite Hnp; apply not_pending; simpl; tauto.
Qed.

Lemma no_ops_pend w aw A K born clock c x : core_ok (U := U) w aw A K born clock -> cs w !! c = Some x -> tracked_ops_ x = 0 -> forall a, ~ pend aw c a.
Proof. intros O E Hx. apply count_zero_pend. destruct (o_tracked _ _ _ _ _ _ O c x E). lia. Qed.

Lemma no_kids w aw A K born clock c x : core_ok (U := U) w aw A K born clock -> cs w !! c = Some x -> first_child_ x = None -> K c = [].
Proof. intros O E Hx. pose proof (k_head _ _ _ _ (o_tree _ _ _ _ _ _ O) c x E) as Hh. rewrite Hx in Hh. by destruct (K c). Qed.

(** A destroyed canceler leaves the others busy if they were. *)
Lemma remains_busy (w w' : scopes_t (U := U)) c : remains w w' c -> (forall d x, d <> c -> cs w !! d = Some x -> orphaned_ x = true -> 0 < tracked_ops_ x) -> orphans_busy w'.
Proof.
  intros [Hc Hr] Ob d x' E' Ho. assert (Hne : d <> c) by congruence. specialize (Hr d Hne). rewrite E' in Hr. destruct (cs w !! d) as [x|] eqn:E; [|done].
  injection Hr as _ _ Ht Ho' _. rewrite Ht. apply (Ob d x Hne E). congruence.
Qed.

Lemma destroy_reach s c x : reach_ok s -> cs (sc s) !! c = Some x -> tracked_ops_ x = 0 -> first_child_ x = None ->
  exists w, destroy_canceler c (sc s) = Some w /\ reach_ok (set_sc w s).
Proof.
  intros (A & K & born & clock & O & Ob) E Ht Hf.
  destruct (destroy_core _ _ A K born clock c x O E (no_kids _ _ _ _ _ _ _ _ O E Hf) (no_ops_pend _ _ _ _ _ _ _ _ O E Ht)) as (w & K' & Ed & O' & Hc & Hr).
  exists w. split; [done|]. exists A, K', born, clock. split; [done|]. apply (remains_busy (sc s) w c); [by split|]. intros d y _. apply Ob.
Qed.

Lemma orphan_reach s c x : reach_ok s -> cs (sc s) !! c = Some x -> first_child_ x = None -> exists w, orphan c (sc s) = Some w /\ reach_ok (set_sc w s).
Proof.
  intros (A & K & born & clock & O & Ob) E Hf. unfold orphan. rewrite E. set (y := mk_canceler _ _ _ true _ _). pose proof (no_kids _ _ _ _ _ _ _ _ O E Hf) as Hk.
  assert (O1 : core_ok (set_c c y (sc s)) (aws s) A K born clock) by (apply (flags_ok _ _ _ _ _ _ c x y O E); try done; by left).
  assert (E1 : cs (set_c c y (sc s)) !! c = Some y) by apply lookup_insert_eq.
  assert (Hne : forall d z, d <> c -> cs (set_c c y (sc s)) !! d = Some z -> orphaned_ z = true -> 0 < tracked_ops_ z).
  { intros d z Hd. simpl. rewrite lookup_insert_ne by done. apply Ob. }
  destruct (Z.eqb_spec (tracked_ops_ x) 0) as [Ht|Ht].
  - destruct (destroy_core _ _ A K born clock c y O1 E1 Hk (no_ops_pend _ _ _ _ _ _ _ _ O E Ht)) as (w & K' & Ed & O' & Hc & Hr).
    exists w. split; [done|]. exists A, K', born, clock. split; [done|]. apply (remains_busy (set_c c y (sc s)) w c); [by split|done].
  - eexists. split; [done|]. exists A, K, born, clock. split; [done|]. intros d z Ed Ho. destruct (decide (d = c)) as [->|Hd]; [|by apply (Hne d z)].
    change (cs (set_c c y (sc s)) !! c = Some z) in Ed. rewrite E1 in Ed. injection Ed as <-. simpl. destruct (o_tracked _ _ _ _ _ _ O c x E). lia.
Qed.

Lemma reset_reach s c x : reach_ok s -> cs (sc s) !! c = Some x ->
  exists w, reset c (sc s) = Some (w, if tracked_ops_ x =? 0 then Ok tt else Unexpected (system_error EBUSY)) /\ reach_ok (set_sc w s) /\
    (tracked_ops_ x = 0 -> is_cancelled c w = Some false) /\ (tracked_ops_ x <> 0 -> w = sc s).
Proof.
  intros (A & K & born & clock & O & Ob) E. unfold reset. rewrite E. destruct (Z.eqb_spec (tracked_ops_ x) 0) as [Ht|Ht]; simpl; eexists; (split; [done|]).
  - split; [|split; [intros _; unfold is_cancelled; simpl; by rewrite lookup_insert_eq|done]]. exists A, K, born, clock. split.
    + apply (flags_ok _ _ _ _ _ _ c x); try done; simpl; [intros Ho; by apply (o_leaf _ _ _ _ _ _ O c x)|]. right. by apply (no_ops_pend _ _ _ _ _ _ _ _ O E).
    + intros d z Ed Ho. simpl in Ed. destruct (decide (d = c)) as [->|Hd]; [rewrite lookup_insert_eq in Ed; injection Ed as <-; by apply (Ob c x)|]. rewrite lookup_insert_ne in Ed by done. by apply (Ob d z).
  - split; [by exists A, K, born, clock|done].
Qed.

Lemma new_reach s a c : reach_ok s -> aws s !! a = None -> reach_ok (set_aw a (new_awaiter c) s).
Proof.
  intros (A & K & born & clock & [[L1 L2 L3 L4] OT OA OC OF OQ] & Ob) E. exists A, K, born, clock. split; [|done].
  assert (Hp : forall d b, pend (<[a := new_awaiter c]> (aws s)) d b <-> pend (aws s) d b).
  { intros d b. unfold pend. destruct (decide (a = b)) as [<-|Hne]; [|by rewrite lookup_insert_ne]. rewrite lookup_insert_eq, E. split; [|by intros (? & ? & _)].
    intros (z & [= <-] & P). by rewrite not_pending in P by (simpl; tauto). }
  split; simpl; [split|done|..]; try done.
  - intros d b Hd Hb. apply Hp. by apply L3.
  - intros d b P. apply (L4 d). by apply Hp.
  - intros d b P. apply (OA d b). by apply Hp.
  - intros d z Ed. rewrite count_insert by done. rewrite (not_pending (new_awaiter c)) by (simpl; tauto). by apply OC.
  - intros d z b Ed. rewrite Hp. by apply OQ.
Qed.

Lemma start_reach u : reach_ok (mk_ops (mk_scopes ∅ ∅ ∅ ∅ u) ∅).
Proof.
  exists (fun _ => []), (fun _ => []), (fun _ => 0%nat), 0%nat. split; [|by intros c x].
  split; [split|split|..]; simpl; try done; try (intros c [x E]; done); try (by intros c a (x & E & _)).
  all: intros c a; try (intros [? ?]; done); by intros (? & ? & _).
Qed.

Lemma ops_reach_ok s : ops_reach s -> reach_ok s.
Proof.
  induction 1 as [u|s u _ IH|s c _ IH E|s c p y w _ IH E Ep Ho Em|s c x w _ IH E Ht Hf Ed|s c w _ IH Ec|s c w r _ IH Er|s c x w _ IH E Hf Eo|s a c _ IH E
    |s a b s' r _ IH Er|s a x s' b _ IH E Hs Hr Hb Es|s a r s' r' _ IH Er|s a s' _ IH Ed].
  - apply start_reach.
  - by apply ring_moves_ok.
  - destruct IH as (A & K & born & clock & O & Ob). exists (upd A c []), (upd K c []), (upd born c clock), (S clock). split; [by apply make_root_ok|].
    intros d z Ed Hz. simpl in Ed. apply lookup_insert_Some in Ed as [[_ <-]|[_ Ed]]; [done|by apply (Ob d z)].
  - destruct IH as (A & K & born & clock & O & Ob). destruct (make_child_ok _ _ _ _ _ _ c p y O E Ep Ho) as (w' & Em' & O' & Hor). rewrite Em in Em'. injection Em' as <-.
    eexists _, _, _, _. split; [exact O'|]. intros d z Ed Hz. apply (Ob d z); [by apply Hor|done].
  - destruct (destroy_reach s c x IH E Ht Hf) as (w' & Ed' & R). congruence.
  - destruct IH as (A & K & born & clock & O & Ob). unfold cancel in Ec. destruct (cs (sc s) !! c) as [x|] eqn:E; [|done].
    destruct (cancel_ok _ _ A K born clock c x O Ob E) as (w' & A' & Ec' & O' & Ob' & _). unfold cancel in Ec'. rewrite E, Ec in Ec'. injection Ec' as <-. by exists A', K, born, clock.
  - destruct (cs (sc s) !! c) as [x|] eqn:E; [|unfold reset in Er; by rewrite E in Er]. destruct (reset_reach s c x IH E) as (w' & Er' & R & _). congruence.
  - destruct (orphan_reach s c x IH E Hf) as (w' & Eo' & R). congruence.
  - by apply new_reach.
  - unfold await_ready in Er. destruct (aws s !! a) as [x|] eqn:E; [|done]. destruct (canceler_ x) as [c|] eqn:Hc; [|by injection Er as <- <-].
    destruct (is_cancelled c (sc s)) as [[]|]; [|by injection Er as <- <-|done]. injection Er as <- <-. apply (quiet_aw s a x _ IH E). intros d. unfold pending_on. simpl. by rewrite Hc.
  - by apply (suspend_reach s a x s' b).
  - destruct (aws s !! a) as [x|] eqn:E; [|unfold await_resume in Er; by rewrite E in Er]. destruct (resume_reach s a x r IH E) as (s2 & r2 & Er' & R & _). congruence.
  - destruct (aws s !! a) as [x|] eqn:E; [|unfold destroy_awaiter in Ed; by rewrite E in Ed]. destruct (frame_dies_reach s a x IH E) as (s2 & Ed' & R). congruence.
Qed.

(** C21: Whatever cancelers, awaiters and the ring went through, the bookkeeping
    of [canceler_t] holds: [tracked_ops_] is the number of operations whose frame
    still refers to the canceler, every such operation's canceler is alive, and
    an orphaned canceler is alive only while one is left.  So an awaiter can
    always resume and its frame can always be destroyed without touching freed
    memory; [cancel] terminates, flags exactly the subtree and asks the kernel to
    cancel, once each, exactly the pending operations of the cancelers it newly
    flags; and [reset] succeeds exactly when no operation is left, else EBUSY. *)
Theorem canceler_sound s : ops_reach s ->
  (forall c x, cs (sc s) !! c = Some x -> tracked_ops_ x = Z.of_nat (count_if (pending_on c) (aws s)) /\ (orphaned_ x = true -> exists a, pend (aws s) c a)) /\
  (forall c a, pend (aws s) c a -> is_Some (cs (sc s) !! c)) /\
  (forall a x (r : expected Z), aws s !! a = Some x ->
    (exists s', await_resume a r s = Some (s', if cancelled_before_submit_ x && bool_decide (is_Some (canceler_ x)) then Unexpected (system_error ECANCELED) else r)) /\
    exists s', destroy_awaiter a s = Some s') /\
  (forall c x, cs (sc s) !! c = Some x -> exists w, cancel c (sc s) = Some w /\ if cancelled_ x then w = sc s else cancels (sc s) w (aws s) c) /\
  (forall c x, cs (sc s) !! c = Some x -> exists w, reset c (sc s) = Some (w, if tracked_ops_ x =? 0 then Ok tt else Unexpected (system_error EBUSY)) /\
    (tracked_ops_ x = 0 -> is_cancelled c w = Some false) /\ (tracked_ops_ x <> 0 -> w = sc s)).
Proof.
  intros R%ops_reach_ok. pose proof R as (A & K & born & clock & O & Ob). split_and!.
  - intros c x E. destruct (o_tracked _ _ _ _ _ _ O c x E) as [Ht _]. split; [done|]. intros Ho. specialize (Ob c x E Ho).
    destruct (count_some (pending_on c) (aws s)) as (a & y & Ea & P); [lia|]. by exists a, y.
  - apply (o_alive _ _ _ _ _ _ O).
  - intros a x r E. split.
    + destruct (resume_reach s a x r R E) as (s' & r' & Er & _ & ->). by exists s'.
    + destruct (frame_dies_reach s a x R E) as (s' & Ed & _). by exists s'.
  - intros c x E. destruct (cancel_ok _ _ A K born clock c x O Ob E) as (w & A' & Ec & _ & _ & _ & Hc). by exists w.
  - intros c x E. destruct (reset_reach s c x R E) as (w & Er & _ & H1 & H2). by exists w.
Qed.
End Any_use.

(** ** On a small ring

    A root with a child; one operation under each. *)
#[local] Existing Instance toy_lib.
Definition toy_handle (t : Z) : Z := 70 + t.
#[local] Instance toy_backend : CancelBackend (io_t (R := toy_ring)) := uring_backend toy_handle.

Definition ops_else (o : option (ops_t (U := io_t (R := toy_ring)) * bool)) (s : ops_t) : ops_t := match o with Some (s', _) => s' | None => s end.
Definition sc_else (o : option (scopes_t (U := io_t (R := toy_ring)))) (s : ops_t) : ops_t := match o with Some w => set_sc w s | None => s end.

Definition toy_start : ops_t (U := io_t (R := toy_ring)) := mk_ops (mk_scopes ∅ ∅ ∅ ∅ two_ops) ∅.
Definition toy_root := set_sc (make_root 7 (sc toy_start)) toy_start.
Definition toy_child := sc_else (make_child 8 7 (sc toy_root)) toy_root.
Definition toy_ops := set_aw 2 (new_awaiter (Some 8%nat)) (set_aw 1 (new_awaiter (Some 7%nat)) toy_child).
Definition toy_one := ops_else (await_suspend 1 toy_ops) toy_ops.
Definition toy_two := ops_else (await_suspend 2 toy_one) toy_one.

Lemma toy_two_reach : ops_reach toy_two.
Proof.
  assert (R0 : ops_reach toy_start) by apply opr_start.
  assert (R1 : ops_reach toy_root) by (apply (opr_root toy_start 7); [exact R0|vm_compute; reflexivity]).
  assert (E2 : make_child 8 7 (sc toy_root) = Some (sc toy_child)) by (vm_compute; reflexivity).
  assert (R2 : ops_reach (set_sc (sc toy_child) toy_root)).
  { eapply (opr_child toy_root 8 7); [exact R1|vm_compute; reflexivity|vm_compute; reflexivity|vm_compute; reflexivity|exact E2]. }
  assert (R3 : ops_reach toy_ops) by (apply opr_new; [apply opr_new; [exact R2|vm_compute; reflexivity]|vm_compute; reflexivity]).
  assert (Hb : forall x (s : ops_t (U := io_t (R := toy_ring))) c0 y0, canceler_ x = Some c0 -> cs (sc s) !! c0 = Some y0 -> tracked_ops_ y0 = 0 ->
    forall c y, canceler_ x = Some c -> cs (sc s) !! c = Some y -> tracked_ops_ y + 1 < 2 ^ 32).
  { intros x s c0 y0 E0 Ey0 Ht c y E Ey. rewrite E0 in E. injection E as <-. rewrite Ey0 in Ey. injection Ey as <-. lia. }
  assert (E4 : await_suspend 1 toy_ops = Some (toy_one, true)) by (vm_compute; reflexivity).
  assert (R4 : ops_reach toy_one).
  { eapply (opr_suspend toy_ops 1 (new_awaiter (Some 7%nat))); [exact R3|vm_compute; reflexivity..| |exact E4]. eapply (Hb _ _ 7%nat); vm_compute; reflexivity. }
  assert (E5 : await_suspend 2 toy_one = Some (toy_two, true)) by (vm_compute; reflexivity).
  eapply (opr_suspend toy_one 2 (new_awaiter (Some 8%nat))); [exact R4|vm_compute; reflexivity..| |exact E5]. eapply (Hb _ _ 8%nat); vm_compute; reflexivity.
Qed.

(** Both operations are found from the root, which cannot be reset. *)
Lemma canceler_sound_witness :
  (exists w, cancel 7 (sc toy_two) = Some w /\ cancels (sc toy_two) w (aws toy_two) 7) /\
  (exists w, reset 7 (sc toy_two) = Some (w, Unexpected (system_error EBUSY))) /\
  match cancel 7 (sc toy_two) with Some w => is_cancelled 8 w = Some true /\ map (fun i => sqe_op (sqe_at i (io w))) [2; 3] = [OpCancel 4294967297; OpCancel 4294967296] | None => False end.
Proof.
  destruct (canceler_sound toy_two toy_two_reach) as (_ & _ & _ & H4 & H5). split_and!.
  - destruct (H4 7%nat (mk_canceler false (Some 1%nat) 1 false None (Some 8%nat))) as (w & Hw & Hc); [vm_compute; reflexivity|]. by exists w.
  - destruct (H5 7%nat (mk_canceler false (Some 1%nat) 1 false None (Some 8%nat))) as (w & Hw & _); [vm_compute; reflexivity|]. by exists w.
  - vm_compute. split; reflexivity.
Defined.

(** A child derived from a canceler that was cancelled before is not cancelled,
    and cancelling the parent again does not reach it. *)
Lemma late_child_escapes {U} `{CancelBackend U} (w w' : scopes_t (U := U)) c p y :
  cs w !! p = Some y -> cancelled_ y = true -> c <> p -> make_child c p w = Some w' -> is_cancelled c w' = Some false /\ cancel p w' = Some w'.
Proof.
  intros E Hy Hne. unfold make_child, is_cancelled, cancel. rewrite E. intros [= <-]. simpl. rewrite lookup_insert_ne, !lookup_insert_eq by done. simpl. by rewrite Hy.
Qed.

(** An orphaned canceler is freed when its last operation resolves, so a frame
    that still names it and awaits again reads freed memory. *)
Definition toy_orphan := sc_else (orphan 8 (sc toy_two)) toy_two.
Definition toy_freed := match await_resume 2 (Ok 0) toy_orphan with Some (s, _) => set_aw 3 (new_awaiter (Some 8%nat)) s | None => toy_orphan end.

Lemma orphan_outlived :
  is_Some (cs (sc toy_orphan) !! 8%nat) /\ cs (sc toy_freed) !! 8%nat = None /\ await_ready 3 false toy_freed = None.
Proof. split; [eexists|split]; vm_compute; reflexivity. Qed.
