(* ===== verification/Coro.v ===== *)
(** * Coroutine wrappers

    [basic_coro_t], the promises and [coro_final_awaiter] of
    src/include/cornet/coroutine/coro.h: who owns a coroutine frame and who
    destroys it.  Frames and wrapper objects are named by numbers; [cur] is the
    coroutine that runs, [None] the scheduler.  The bodies of the coroutines are
    the steps they take.  [None] is the use of a destroyed frame. *)

From stdpp Require Import prelude gmap list fin_maps.
From Stdlib Require Import ZArith Lia.
From S2P Require Import Prelude.
Open Scope Z_scope.

(** ** State *)

(** The variant of [base_promise_t]. *)
Inductive promise_value := Monostate | Value (v : Z) | ExceptionPtr.

Record frame_t := mk_frame { done : bool; detached : bool; continuation : option Z; value : promise_value }.
Definition new_frame : frame_t := mk_frame false false None Monostate.

Record coros_t := mk_coros { frames : gmap Z frame_t; wraps : gmap Z (option Z); cur : option Z }.
Implicit Types s : coros_t.

Definition set_frame (h : Z) (f : frame_t) s := mk_coros (<[h := f]> (frames s)) (wraps s) (cur s).
Definition set_wrap (x : Z) (o : option Z) s := mk_coros (frames s) (<[x := o]> (wraps s)) (cur s).
Definition drop_wrap (x : Z) s := mk_coros (frames s) (delete x (wraps s)) (cur s).
Definition set_cur (c : option Z) s := mk_coros (frames s) (wraps s) c.

(** [handle.destroy()] *)
Definition destroy (h : Z) s : option coros_t :=
  match frames s !! h with Some _ => Some (mk_coros (delete h (frames s)) (wraps s) (cur s)) | None => None end.

(** ** The wrapper *)

(** A call of a coroutine function: the frame and the object returned. *)
Definition make_coro (x h : Z) s : coros_t := set_wrap x (Some h) (set_frame h new_frame s).

Definition destroy_coro (x : Z) s : option coros_t :=
  match wraps s !! x with
  | Some (Some h) =>
      match frames s !! h with
      | Some f => if detached f then Some (drop_wrap x s) else match destroy h s with Some s => Some (drop_wrap x s) | None => None end
      | None => None
      end
  | Some None => Some (drop_wrap x s)
  | None => None
  end.

(** The new object [y] is made from [x]. *)
Definition move_coro (x y : Z) s : option coros_t :=
  match wraps s !! x with Some o => Some (set_wrap y o (set_wrap x None s)) | None => None end.

Definition assign_coro (y x : Z) s : option coros_t :=
  match wraps s !! x, wraps s !! y with
  | Some o, Some o' =>
      if decide (x = y) then Some s
      else match o' with
           | Some h => match destroy h s with Some s => Some (set_wrap y o (set_wrap x None s)) | None => None end
           | None => Some (set_wrap y o (set_wrap x None s))
           end
  | _, _ => None
  end.

(** The handle returned, and the wrapper empty unless the coroutine is done. *)
Definition detach (x : Z) s : option (coros_t * option Z) :=
  match wraps s !! x with
  | Some (Some h) =>
      match frames s !! h with
      | Some f => if done f then Some (s, Some h) else Some (set_wrap x None (set_frame h (mk_frame (done f) true (continuation f) (value f)) s), Some h)
      | None => None
      end
  | Some None => Some (s, None)
  | None => None
  end.

(** ** Awaiting *)

Inductive awaited := Got (v : Z) | Rethrown | LogicError | BadVariant.

Definition coro_await_ready (x : Z) s : option bool :=
  match wraps s !! x with
  | Some (Some h) => match frames s !! h with Some f => Some (done f) | None => None end
  | Some None => Some true
  | None => None
  end.

(** The running coroutine suspends; control goes to the child. *)
Definition coro_await_suspend (x : Z) s : option coros_t :=
  match wraps s !! x with
  | Some (Some h) =>
      match frames s !! h with
      | Some f => Some (set_cur (Some h) (set_frame h (mk_frame (done f) (detached f) (cur s) (value f)) s))
      | None => None
      end
  | _ => None
  end.

Definition read_value (v : promise_value) : awaited := match v with Value v => Got v | ExceptionPtr => Rethrown | Monostate => BadVariant end.

Definition coro_await_resume (x : Z) s : option awaited :=
  match wraps s !! x with
  | Some (Some h) => match frames s !! h with Some f => Some (read_value (value f)) | None => None end
  | Some None => Some LogicError
  | None => None
  end.

(** ** The end of a coroutine *)

(** [return_value] or [unhandled_exception], then [coro_final_awaiter]; a
    coroutine that has ended must not be resumed. *)
Definition finish (v : promise_value) s : option coros_t :=
  match cur s with
  | Some h =>
      match frames s !! h with
      | Some f =>
          if done f then None
          else
            let s := set_frame h (mk_frame true (detached f) (continuation f) v) s in
            match (if detached f then destroy h s else Some s) with
            | Some s => Some (set_cur (continuation f) s)
            | None => None
            end
      | None => None
      end
  | None => None
  end.

(** The scheduler resumes a handle that is not done; a running coroutine
    suspends on an operation. *)
Definition resume_handle (h : Z) s : option coros_t :=
  match frames s !! h with Some f => Some (if done f then s else set_cur (Some h) s) | None => None end.
Definition suspend s : coros_t := set_cur None s.

(** ** Any use

    A wrapper is not destroyed or overwritten by the coroutine it owns while
    that runs. *)
Inductive coro_reach : coros_t -> Prop :=
| cr_start : coro_reach (mk_coros ∅ ∅ None)
| cr_make s x h : coro_reach s -> wraps s !! x = None -> frames s !! h = None -> coro_reach (make_coro x h s)
| cr_destroy s x s' : coro_reach s -> (forall h, cur s = Some h -> wraps s !! x <> Some (Some h)) -> destroy_coro x s = Some s' -> coro_reach s'
| cr_move s x y s' : coro_reach s -> wraps s !! y = None -> move_coro x y s = Some s' -> coro_reach s'
| cr_assign s x y s' : coro_reach s -> (forall h, cur s = Some h -> wraps s !! y <> Some (Some h)) -> assign_coro y x s = Some s' -> coro_reach s'
| cr_detach s x s' o : coro_reach s -> detach x s = Some (s', o) -> coro_reach s'
| cr_await s x s' : coro_reach s -> is_Some (cur s) -> coro_await_ready x s = Some false -> coro_await_suspend x s = Some s' -> coro_reach s'
| cr_finish s v s' : coro_reach s -> finish v s = Some s' -> coro_reach s'
| cr_resume s h s' : coro_reach s -> cur s = None -> resume_handle h s = Some s' -> coro_reach s'
| cr_suspend s : coro_reach s -> coro_reach (suspend s).

Definition owns s (x h : Z) : Prop := wraps s !! x = Some (Some h).

Record coro_ok s : Prop := {
  o_frame : forall x h, owns s x h -> exists f, frames s !! h = Some f /\ detached f = false;
  o_once : forall x y h, owns s x h -> owns s y h -> x = y;
  o_owned : forall h f, frames s !! h = Some f -> detached f = false -> exists x, owns s x h;
  o_alone : forall h f, frames s !! h = Some f -> detached f = true -> done f = false
}.

(** ** Preservation *)

Ltac coro_cases :=
  repeat match goal with
  | H : context [match ?x with _ => _ end] |- _ => destruct x eqn:?; simplify_eq/=
  end.


(** A new value of an existing frame that leaves ownership as it is. *)
Lemma ok_set_frame s h f g :
  coro_ok s -> frames s !! h = Some f -> detached g = detached f -> (detached f = true -> done g = false) -> coro_ok (set_frame h g s).
Proof.
  intros [A B C D] Hf Hd Hn. constructor; unfold owns; simpl.
  - intros x k Hx. destruct (A x k Hx) as (f' & Hf' & Hd'). destruct (decide (h = k)) as [<-|Hk].
    + rewrite lookup_insert_eq. exists g. split; [done | congruence].
    + rewrite lookup_insert_ne by done. eauto.
  - exact B.
  - intros k f'. destruct (decide (h = k)) as [<-|Hk].
    + rewrite lookup_insert_eq. intros [= <-] Hg. apply (C h f Hf). congruence.
    + rewrite lookup_insert_ne by done. apply C.
  - intros k f'. destruct (decide (h = k)) as [<-|Hk].
    + rewrite lookup_insert_eq. intros [= <-] Hg. apply Hn. congruence.
    + rewrite lookup_insert_ne by done. apply D.
Qed.

(** Control alone changes hands. *)
Lemma ok_set_cur s c : coro_ok s -> coro_ok (set_cur c s).
Proof. by intros [A B C D]. Qed.

(** The owner of [h] gives the frame up, and the frame goes. *)
Lemma ok_free_owned s s' x h :
  coro_ok s -> owns s x h -> frames s' = delete h (frames s) -> (forall y k, owns s' y k <-> owns s y k /\ y <> x) -> coro_ok s'.
Proof.
  intros [A B C D] Hx Hfr Hw. constructor.
  - intros y k [Hy Hn]%Hw. rewrite Hfr, lookup_delete_ne; [eauto|]. intros <-. eauto.
  - intros y z k [Hy _]%Hw [Hz _]%Hw. eauto.
  - intros k f. rewrite Hfr. intros [Hk Hf]%lookup_delete_Some Hd. destruct (C k f Hf Hd) as [y Hy].
    exists y. apply Hw. split; [done|]. intros ->. unfold owns in *. congruence.
  - intros k f. rewrite Hfr. intros [Hk Hf]%lookup_delete_Some. eauto.
Qed.

(** The owner of a frame that has not ended gives it its own lifetime. *)
Lemma ok_release_owned s s' x h f :
  coro_ok s -> owns s x h -> frames s !! h = Some f -> done f = false ->
  frames s' = <[h := mk_frame (done f) true (continuation f) (value f)]> (frames s) ->
  (forall y k, owns s' y k <-> owns s y k /\ y <> x) -> coro_ok s'.
Proof.
  intros [A B C D] Hx Hf Hn Hfr Hw. constructor.
  - intros y k [Hy Hyx]%Hw. rewrite Hfr, lookup_insert_ne; [eauto|]. intros <-. eauto.
  - intros y z k [Hy _]%Hw [Hz _]%Hw. eauto.
  - intros k g. rewrite Hfr. intros [[<- <-]|[Hk Hg]]%lookup_insert_Some Hd; [done|]. destruct (C k g Hg Hd) as [y Hy].
    exists y. apply Hw. split; [done|]. intros ->. unfold owns in *. congruence.
  - intros k g. rewrite Hfr. intros [[<- <-]|[Hk Hg]]%lookup_insert_Some; [done | eauto].
Qed.

(** A detached frame goes at its end. *)
Lemma ok_free_detached s s' h f :
  coro_ok s -> frames s !! h = Some f -> detached f = true -> frames s' = delete h (frames s) -> wraps s' = wraps s -> coro_ok s'.
Proof.
  intros [A B C D] Hf Hd Hfr Hw. unfold owns in *. constructor; unfold owns; rewrite ?Hfr, ?Hw.
  - intros x k Hx. destruct (A x k Hx) as (g & Hg & Hgd). rewrite lookup_delete_ne; [eauto|]. intros <-. congruence.
  - exact B.
  - intros k g [Hk Hg]%lookup_delete_Some. eauto.
  - intros k g [Hk Hg]%lookup_delete_Some. eauto.
Qed.

(** Frames and ownership as they were, the wrapper objects renamed by [r]. *)
Lemma ok_rename s s' (r : Z -> Z) :
  coro_ok s -> frames s' = frames s -> (forall y k, owns s y k -> owns s' (r y) k) ->
  (forall y k, owns s' y k -> exists y', y = r y' /\ owns s y' k) -> coro_ok s'.
Proof.
  intros [A B C D] Hfr Hto Hfrom. constructor.
  - intros y k (y' & _ & Hy)%Hfrom. rewrite Hfr. eauto.
  - intros y z k (y' & -> & Hy)%Hfrom (z' & -> & Hz)%Hfrom. f_equal. eauto.
  - intros k f. rewrite Hfr. intros Hf Hd. destruct (C k f Hf Hd) as [x Hx]. eauto.
  - intros k f. rewrite Hfr. eauto.
Qed.

Lemma ok_make s x h : coro_ok s -> wraps s !! x = None -> frames s !! h = None -> coro_ok (make_coro x h s).
Proof.
  intros [A B C D] Hx Hh. constructor; unfold owns, make_coro; simpl.
  - intros y k [[<- [= <-]]|[Hy Hk]]%lookup_insert_Some; [rewrite lookup_insert_eq; eauto|].
    destruct (A y k Hk) as (f & Hf & Hd). rewrite lookup_insert_ne by congruence. eauto.
  - intros y z k [[<- ?]|[Hy Hk]]%lookup_insert_Some [[<- ?]|[Hz Hk']]%lookup_insert_Some; simplify_eq; try done.
    + destruct (A z k Hk') as (f & Hf & _). congruence.
    + destruct (A y k Hk) as (f & Hf & _). congruence.
    + eapply B; eauto.
  - intros k f [[<- <-]|[Hk Hf]]%lookup_insert_Some Hd; [exists x; by rewrite lookup_insert_eq|].
    destruct (C k f Hf Hd) as [y Hy]. exists y. rewrite lookup_insert_ne; [done|]. unfold owns in Hy. congruence.
  - intros k f [[<- <-]|[Hk Hf]]%lookup_insert_Some; [done | eauto].
Qed.

Lemma ok_move s x y s' : coro_ok s -> wraps s !! y = None \/ wraps s !! y = Some None -> x <> y -> move_coro x y s = Some s' -> coro_ok s'.
Proof.
  intros H Hy Hxy. unfold move_coro. destruct (wraps s !! x) as [o|] eqn:Hx; [|done]. intros [= <-].
  apply (ok_rename s _ (fun z => if decide (z = x) then y else z)); [done..| |]; unfold owns; simpl.
  - intros z k Hz. destruct (decide (z = x)) as [->|Hn]; [rewrite lookup_insert_eq; congruence|].
    rewrite !lookup_insert_ne; [done..|]. intros ->. destruct Hy; congruence.
  - intros z k. rewrite !lookup_insert_Some. intros [[<- ->]|[Hn [[<- ?]|[Hn' Hz]]]]; [exists x|done|exists z].
    + by rewrite decide_True.
    + by rewrite decide_False.
Qed.

Lemma destroy_coro_ok s x s' : coro_ok s -> destroy_coro x s = Some s' -> coro_ok s'.
Proof.
  intros H. unfold destroy_coro, destroy. intros Hs. coro_cases.
  - destruct (o_frame s H x z) as (g & Hg & Hd); [done|]. congruence.
  - apply (ok_free_owned s _ x z); [done..|]. intros y k. unfold owns; simpl. rewrite lookup_delete_Some. naive_solver.
  - apply (ok_rename s _ id); [done..| |]; unfold owns; simpl; intros y k; rewrite lookup_delete_Some; [|naive_solver].
    intros Hy. split; [congruence | done].
Qed.

Lemma assign_coro_ok s x y s' : coro_ok s -> assign_coro y x s = Some s' -> coro_ok s'.
Proof.
  intros H. unfold assign_coro. destruct (wraps s !! x) as [o|] eqn:Hx; [|done]. destruct (wraps s !! y) as [[h|]|] eqn:Hy; [| |done].
  - destruct (decide (x = y)) as [->|Hn]; [by intros [= <-]|]. unfold destroy. destruct (frames s !! h) as [f|]; [|done]. intros [= <-].
    set (s1 := mk_coros (delete h (frames s)) (<[y := None]> (wraps s)) (cur s)).
    assert (H1 : coro_ok s1).
    { apply (ok_free_owned s _ y h); [done..|]. intros z k. unfold owns; simpl. rewrite lookup_insert_Some. naive_solver. }
    apply (ok_move s1 x y); [done|right; apply lookup_insert_eq|done|]. unfold move_coro; simpl.
    rewrite lookup_insert_ne, Hx by done. unfold set_wrap; simpl. by rewrite (insert_insert_ne _ x y), insert_insert_eq by done.
  - destruct (decide (x = y)) as [->|Hn]; [by intros [= <-]|]. intros Hs. apply (ok_move s x y); [done|by right|done|].
    unfold move_coro. by rewrite Hx.
Qed.

Lemma detach_ok s x s' o : coro_ok s -> detach x s = Some (s', o) -> coro_ok s'.
Proof.
  intros H. unfold detach. intros Hs. coro_cases; [done| |done].
  apply (ok_release_owned s _ x z f); try done; [simpl; by rewrite Heqb|]. intros y k. unfold owns; simpl. rewrite lookup_insert_Some. naive_solver.
Qed.

Lemma coro_await_suspend_ok s x s' : coro_ok s -> coro_await_suspend x s = Some s' -> coro_ok s'.
Proof.
  intros H. unfold coro_await_suspend. intros Hs. coro_cases.
  apply ok_set_cur, (ok_set_frame s z f); try done. exact (o_alone s H z f Heqo0).
Qed.

Lemma coro_finish_ok s v s' : coro_ok s -> finish v s = Some s' -> coro_ok s'.
Proof.
  intros H. unfold finish. destruct (cur s) as [h|]; [|done]. destruct (frames s !! h) as [f|] eqn:Hf; [|done].
  destruct (done f); [done|]. destruct (detached f) eqn:Hd.
  - unfold destroy; simpl. rewrite lookup_insert_eq. intros [= <-]. apply (ok_free_detached s _ h f); try done; simpl. by rewrite delete_insert_eq.
  - intros [= <-]. apply ok_set_cur, (ok_set_frame s h f); try done. congruence.
Qed.

Lemma coro_reach_ok s : coro_reach s -> coro_ok s.
Proof.
  induction 1 as [|s x h _ IH Hx Hh|s x s' _ IH _ Hs|s x y s' _ IH Hy Hs|s x y s' _ IH _ Hs|s x s' o _ IH Hs|s x s' _ IH _ _ Hs|s v s' _ IH Hs|s h s' _ IH _ Hs|s _ IH].
  - constructor; unfold owns; simpl; intros *; rewrite lookup_empty; done.
  - by apply ok_make.
  - by eapply destroy_coro_ok.
  - destruct (decide (x = y)) as [->|Hn]; [|by eapply ok_move; eauto]. unfold move_coro in Hs. by rewrite Hy in Hs.
  - by eapply assign_coro_ok.
  - by eapply detach_ok.
  - by eapply coro_await_suspend_ok.
  - by eapply coro_finish_ok.
  - unfold resume_handle in Hs. coro_cases. destruct (done f); [done | by apply ok_set_cur].
  - by apply ok_set_cur.
Qed.

(** ** Ownership *)

Lemma destroy_coro_safe s x : coro_ok s -> is_Some (wraps s !! x) -> is_Some (destroy_coro x s).
Proof.
  intros H [[h|] Hx]; unfold destroy_coro; rewrite Hx; [|by eexists].
  destruct (o_frame s H x h Hx) as (f & Hf & Hd). unfold destroy. rewrite Hf, Hd. by eexists.
Qed.

Lemma assign_coro_safe s x y : coro_ok s -> is_Some (wraps s !! x) -> is_Some (wraps s !! y) -> is_Some (assign_coro y x s).
Proof.
  intros H [o Hx] [o' Hy]. unfold assign_coro. rewrite Hx, Hy. destruct (decide (x = y)); [by eexists|]. destruct o' as [h|]; [|by eexists].
  destruct (o_frame s H y h Hy) as (f & Hf & Hd). unfold destroy. rewrite Hf. by eexists.
Qed.

(** Who answers for a frame: one wrapper, or the coroutine itself. *)
Definition answered_for s (h : Z) (f : frame_t) : Prop :=
  (detached f = false /\ exists x, owns s x h /\ forall y, owns s y h -> y = x) \/ (detached f = true /\ done f = false /\ forall x, ~ owns s x h).

Lemma ok_answered s h f : coro_ok s -> frames s !! h = Some f -> answered_for s h f.
Proof.
  intros H Hf. destruct (detached f) eqn:Hd; [right|left]; split; try done.
  - split; [by apply (o_alone s H h)|]. intros x Hx. destruct (o_frame s H x h Hx) as (g & Hg & Hgd). congruence.
  - destruct (o_owned s H h f Hf Hd) as [x Hx]. exists x. split; [done|]. intros y Hy. by apply (o_once s H y x h).
Qed.

(** What the end of the running coroutine [h] leaves. *)
Definition ended_well (v : promise_value) (h : Z) (f : frame_t) s' : Prop :=
  cur s' = continuation f /\
  if detached f then frames s' !! h = None
  else exists x, owns s' x h /\ coro_await_ready x s' = Some true /\ coro_await_resume x s' = Some (read_value v).

Lemma finish_ends s v h f s' : coro_ok s -> cur s = Some h -> frames s !! h = Some f -> finish v s = Some s' -> ended_well v h f s'.
Proof.
  intros H Hc Hf. unfold finish, ended_well. rewrite Hc, Hf. destruct (done f); [done|]. destruct (detached f) eqn:Hd.
  - unfold destroy; simpl. rewrite lookup_insert_eq. intros [= <-]; simpl. by rewrite lookup_delete_eq.
  - intros [= <-]. split; [done|]. destruct (o_owned s H h f Hf Hd) as [x Hx]. exists x.
    unfold owns, coro_await_ready, coro_await_resume in *; simpl. rewrite Hx, lookup_insert_eq. done.
Qed.

(** C28: Ownership of coroutine frames: after any sequence of calls, moves,
    assignments, detaches, awaits, resumptions and ends, every wrapper can be
    destroyed and assigned to without the use of a dead frame; every frame is
    answered for, by exactly one wrapper or, detached and not ended, by itself
    and by no wrapper; and at the end of the running coroutine control passes to
    its continuation, a detached frame is gone, and otherwise its one owner is
    ready and reads the value or the exception the coroutine ended with. *)
Theorem coro_ownership s :
  coro_reach s ->
  (forall x, is_Some (wraps s !! x) -> is_Some (destroy_coro x s)) /\
  (forall x y, is_Some (wraps s !! x) -> is_Some (wraps s !! y) -> is_Some (assign_coro y x s)) /\
  (forall h f, frames s !! h = Some f -> answered_for s h f) /\
  (forall v h f s', cur s = Some h -> frames s !! h = Some f -> finish v s = Some s' -> ended_well v h f s').
Proof.
  intros H%coro_reach_ok. split_and!.
  - intros x. by apply destroy_coro_safe.
  - intros x y. by apply assign_coro_safe.
  - intros h f. by apply ok_answered.
  - intros v h f s'. by apply finish_ends.
Qed.

Definition coros_empty : coros_t := mk_coros ∅ ∅ None.

(** A parent [10] awaits the child [20] of wrapper [2]. *)
Definition awaiting : coros_t :=
  let s := set_cur (Some 10) (make_coro 2 20 (make_coro 1 10 coros_empty)) in
  default s (coro_await_suspend 2 s).

Lemma awaiting_reach : coro_reach awaiting.
Proof.
  apply (cr_await (set_cur (Some 10) (make_coro 2 20 (make_coro 1 10 coros_empty))) 2); [|by eexists|reflexivity..].
  apply (cr_resume (make_coro 2 20 (make_coro 1 10 coros_empty)) 10); [|reflexivity..].
  apply cr_make; [|reflexivity..]. apply cr_make; [|reflexivity..]. apply cr_start.
Qed.

(** The child returns 7: the parent runs and reads 7. *)
Lemma coro_ownership_witness : exists s', finish (Value 7) awaiting = Some s' /\ cur s' = Some 10 /\ coro_await_resume 2 s' = Some (Got 7).
Proof.
  destruct (coro_ownership awaiting awaiting_reach) as (_ & _ & _ & H).
  eexists. split; [reflexivity|].
  destruct (H (Value 7) 20 _ _ eq_refl eq_refl eq_refl) as [Hc He]. simpl in He. destruct He as (x & Hx & _ & Hr). split; [exact Hc|].
  assert (x = 2) as -> by (apply (o_once _ (coro_reach_ok _ (cr_finish _ (Value 7) _ awaiting_reach eq_refl)) x 2 20 Hx); reflexivity).
  exact Hr.
Defined.

(** ** The continuation of an orphan

    [~coro_timeout_awaiter_base] detaches a target that still runs; nothing
    clears the continuation that its [await_suspend] stored. *)
Definition orphan_target (x : Z) s : option coros_t :=
  match detach x s with
  | Some (s, _) => destroy_coro x s
  | None => None
  end.

(** The parent's frame is destroyed while the target is suspended; the target
    ends and control passes to the frame that is gone. *)
Lemma orphan_resumes_dead_parent :
  exists s1 s2 s3 s4,
    orphan_target 2 (suspend awaiting) = Some s1 /\ destroy_coro 1 s1 = Some s2 /\ coro_reach s2 /\
    resume_handle 20 s2 = Some s3 /\ finish (Value 7) s3 = Some s4 /\
    cur s4 = Some 10 /\ frames s4 !! 10 = None /\ finish (Value 0) s4 = None.
Proof.
  assert (H := cr_suspend _ awaiting_reach).
  do 4 eexists. split; [reflexivity|]. split; [reflexivity|]. split; [|repeat split; reflexivity].
  refine (cr_destroy _ 1 _ (cr_destroy _ 2 _ (cr_detach _ 2 _ _ H eq_refl) _ eq_refl) _ eq_refl); discriminate.
Qed.

(** [context_t::spawn] of a temporary: the handle [detach] returns goes to the
    scheduler and the temporary is destroyed. *)
Definition spawn_temporary (x : Z) s : option (coros_t * option Z) :=
  match detach x s with
  | Some (s, h) => match destroy_coro x s with Some s => Some (s, h) | None => None end
  | None => None
  end.

(** A coroutine that has not ended outlives the temporary it came in. *)
Lemma spawn_keeps_running s x h f :
  owns s x h -> frames s !! h = Some f -> done f = false ->
  exists s', spawn_temporary x s = Some (s', Some h) /\ exists g, frames s' !! h = Some g /\ detached g = true.
Proof.
  unfold owns, spawn_temporary, detach, destroy_coro. intros Hx Hf Hn. rewrite Hx, Hf, Hn; simpl. rewrite lookup_insert_eq; simpl.
  eexists. split; [done|]. simpl. rewrite lookup_insert_eq. eauto.
Qed.

(** One that has ended is destroyed with it, and its handle is queued. *)
Lemma spawn_done_dangles s x h f :
  owns s x h -> frames s !! h = Some f -> done f = true -> detached f = false ->
  exists s', spawn_temporary x s = Some (s', Some h) /\ resume_handle h s' = None.
Proof.
  unfold owns, spawn_temporary, detach, destroy_coro, destroy, resume_handle. intros Hx Hf Hn Hd. rewrite Hx, Hf, Hn; simpl. rewrite Hx, Hf, Hd.
  eexists. split; [done|]. simpl. by rewrite lookup_delete_eq.
Qed.

(** ** Generators

    The body of a generator is what is left of it: the values it yields and how
    it ends.  [None] is the resumption of a generator that has ended, the use
    of an empty handle, or the read of a value never yielded. *)
Module Generator.

Inductive body := Return | Throw | Yield (v : Z) (k : body).

Record gen_frame := mk_gen { rest : body; gdone : bool; current_value : option Z; gvalue : promise_value }.
Definition new_gen (b : body) : gen_frame := mk_gen b false None Monostate.

(** [handle.resume()]: to the next [co_yield] or to the end. *)
Definition resume (g : gen_frame) : option gen_frame :=
  if gdone g then None
  else match rest g with
       | Yield v k => Some (mk_gen k false (Some v) (gvalue g))
       | Return => Some (mk_gen Return true (current_value g) (gvalue g))
       | Throw => Some (mk_gen Return true (current_value g) ExceptionPtr)
       end.

Definition begin (g : option gen_frame) : option gen_frame := match g with Some g => resume g | None => None end.
Definition not_end (g : gen_frame) : bool := negb (gdone g).
Definition deref (g : gen_frame) : option Z := current_value g.

(** A range-based [for] over the generator: the values its body sees and the
    frame at the end. *)
Fixpoint loop (fuel : nat) (g : gen_frame) : option (list Z * gen_frame) :=
  match fuel with
  | O => None
  | S fuel =>
      if not_end g then
        match deref g, resume g with
        | Some v, Some g => match loop fuel g with Some (vs, g) => Some (v :: vs, g) | None => None end
        | _, _ => None
        end
      else Some ([], g)
  end.
Definition range_for (fuel : nat) (g : option gen_frame) : option (list Z * gen_frame) :=
  match begin g with Some g => loop fuel g | None => None end.

Fixpoint yields (b : body) : list Z := match b with Yield v k => v :: yields k | _ => [] end.
Fixpoint ending (b : body) : promise_value := match b with Yield _ k => ending k | Throw => ExceptionPtr | Return => Monostate end.

Lemma loop_yields b v e :
  e = Monostate -> exists g, loop (2 + length (yields b)) (mk_gen b false (Some v) e) = Some (v :: yields b, g) /\ gdone g = true /\ gvalue g = ending b.
Proof.
  intros ->. revert v. induction b as [| |w b IH]; intros v; [by eexists.. |].
  destruct (IH w) as (g & Hg & Hd & Hv). exists g.
  change (loop (2 + length (yields (Yield w b))) (mk_gen (Yield w b) false (Some v) Monostate)) with
    (match loop (2 + length (yields b)) (mk_gen b false (Some w) Monostate) with Some (vs, g) => Some (v :: vs, g) | None => None end).
  by rewrite Hg.
Qed.

(** The loop sees the values in the order they are yielded and ends; whether
    the body returned or threw is in the frame, where nothing reads it. *)
Lemma generator_in_order b :
  exists g, range_for (1 + length (yields b)) (Some (new_gen b)) = Some (yields b, g) /\ gdone g = true /\ gvalue g = ending b.
Proof.
  destruct b as [| |v b]; [by eexists..|]. destruct (loop_yields b v Monostate eq_refl) as (g & Hg & H). exists g. split; [exact Hg | exact H].
Qed.

(** A body that throws looks like one that returned. *)
Lemma generator_swallows_exception :
  exists g g', range_for 2 (Some (new_gen (Yield 1 Throw))) = Some ([1], g) /\ range_for 2 (Some (new_gen (Yield 1 Return))) = Some ([1], g') /\
  gvalue g = ExceptionPtr /\ gvalue g' = Monostate.
Proof. do 2 eexists. repeat split. Qed.

End Generator.
