(* ===== verification/ReadyQueue.v ===== *)
(** * The ready queue

    [scheduler_t::ring_queue_t] of src/include/cornet/scheduling/scheduler.h: a
    circular buffer of coroutine handles whose capacity is a power of two and
    doubles when it is full.  Indices are 64-bit counters that only grow (and
    wrap around); a slot is the counter masked by the capacity.  A handle is a
    number, 0 the null handle. *)

From stdpp Require Import prelude list.
From Stdlib Require Import ZArith Lia.
From S2P Require Import Prelude.
Open Scope Z_scope.

Record ring_queue_t := mk_queue { buf_ : list Z; mask_ : Z; head_ : Z; tail_ : Z }.

Definition new_queue : ring_queue_t := mk_queue (replicate 1024 0) 1023 0 0.

Definition queue_size (q : ring_queue_t) : Z := u64 (tail_ q - head_ q).
Definition queue_empty (q : ring_queue_t) : bool := head_ q =? tail_ q.

Definition slot_of (i mask : Z) : nat := Z.to_nat (Z.land i mask).

(** The loop of [grow]: from [i] until the tail, [n] steps away. *)
Fixpoint regroup (n : nat) (i : Z) (q : ring_queue_t) (new_cap : Z) (new_buf : list Z) : list Z :=
  match n with
  | O => new_buf
  | S n => regroup n (u64 (i + 1)) q new_cap (<[slot_of i (new_cap - 1) := default 0 (buf_ q !! slot_of i (mask_ q))]> new_buf)
  end.

Definition queue_grow (q : ring_queue_t) : ring_queue_t :=
  let old_cap := Z.of_nat (length (buf_ q)) in
  let new_cap := old_cap * 2 in
  mk_queue (regroup (Z.to_nat (queue_size q)) (head_ q) q new_cap (replicate (Z.to_nat new_cap) 0)) (new_cap - 1) (head_ q) (tail_ q).

Definition queue_push (h : Z) (q : ring_queue_t) : ring_queue_t :=
  let q := if queue_size q =? Z.of_nat (length (buf_ q)) then queue_grow q else q in
  mk_queue (<[slot_of (tail_ q) (mask_ q) := h]> (buf_ q)) (mask_ q) (head_ q) (u64 (tail_ q + 1)).

Definition queue_front (q : ring_queue_t) : option Z := buf_ q !! slot_of (head_ q) (mask_ q).

Definition queue_pop (q : ring_queue_t) : ring_queue_t := mk_queue (buf_ q) (mask_ q) (u64 (head_ q + 1)) (tail_ q).

(** ** Slots *)

(** The slot of a wrapped counter depends on the counter modulo the capacity. *)
Lemma slot_mod i k : 0 <= k <= 64 -> slot_of (u64 i) (2 ^ k - 1) = Z.to_nat (i mod 2 ^ k).
Proof.
  intros Hk. unfold slot_of, u64. replace (2 ^ k - 1) with (Z.ones k) by (rewrite Z.ones_equiv; lia). rewrite Z.land_ones by lia. f_equal.
  rewrite <- Znumtheory.Zmod_div_mod; [done|apply Z.pow_pos_nonneg; lia|apply Z.pow_pos_nonneg; lia|].
  exists (2 ^ (64 - k)). rewrite <- Z.pow_add_r by lia. f_equal. lia.
Qed.
Lemma slot_lt i k : 0 <= k <= 64 -> (slot_of (u64 i) (2 ^ k - 1) < Z.to_nat (2 ^ k))%nat.
Proof. intros Hk. rewrite slot_mod by done. assert (0 < 2 ^ k) by (apply Z.pow_pos_nonneg; lia). pose proof (Z.mod_pos_bound i (2 ^ k)). lia. Qed.

(** Counters less than a capacity apart have different slots. *)
Lemma slot_ne i a b k : 0 <= k <= 64 -> a <> b -> Z.abs (a - b) < 2 ^ k -> slot_of (u64 (i + a)) (2 ^ k - 1) <> slot_of (u64 (i + b)) (2 ^ k - 1).
Proof.
  intros Hk Hne Hab. assert (0 < 2 ^ k) by (apply Z.pow_pos_nonneg; lia). rewrite !slot_mod by done.
  pose proof (Z.mod_pos_bound (i + a) (2 ^ k)). pose proof (Z.mod_pos_bound (i + b) (2 ^ k)). intros E%Z2Nat.inj; [|lia..].
  pose proof (Z.div_mod (i + a) (2 ^ k)) as D1. pose proof (Z.div_mod (i + b) (2 ^ k)) as D2. rewrite E in D1.
  assert (Hd : a - b = 2 ^ k * ((i + a) / 2 ^ k - (i + b) / 2 ^ k)) by lia. revert Hd. generalize ((i + a) / 2 ^ k - (i + b) / 2 ^ k). intros d Hd.
  assert (d <> 0) by nia. nia.
Qed.

(** ** The queue it stands for *)

(** [l] is the contents, oldest first. *)
Record queue_rep (q : ring_queue_t) (l : list Z) : Prop := {
  q_cap : exists k, 0 <= k <= 62 /\ Z.of_nat (length (buf_ q)) = 2 ^ k /\ mask_ q = 2 ^ k - 1;
  q_fits : (length l <= length (buf_ q))%nat;
  q_head : 0 <= head_ q < 2 ^ 64;
  q_tail : tail_ q = u64 (head_ q + Z.of_nat (length l));
  q_slots : forall j h, l !! j = Some h -> buf_ q !! slot_of (u64 (head_ q + Z.of_nat j)) (mask_ q) = Some h
}.

Lemma u64_idem i j : u64 (u64 i + j) = u64 (i + j).
Proof. unfold u64. by rewrite Zplus_mod_idemp_l. Qed.

Lemma rep_size q l : queue_rep q l -> queue_size q = Z.of_nat (length l).
Proof.
  intros [(k & Hk & Hc & _) Hf Hh Ht _]. unfold queue_size. rewrite Ht. unfold u64. rewrite Zminus_mod_idemp_l.
  replace (head_ q + Z.of_nat (length l) - head_ q) with (Z.of_nat (length l)) by lia. apply Z.mod_small.
  assert (2 ^ k <= 2 ^ 62) by (apply Z.pow_le_mono_r; lia). lia.
Qed.

Lemma regroup_length n : forall i q cap b, length (regroup n i q cap b) = length b.
Proof. induction n as [|n IH]; intros i q cap b; [done|]. simpl. by rewrite IH, length_insert. Qed.

(** What the copy does to one slot of the new buffer. *)
Lemma regroup_spec k q : 0 <= k <= 64 -> forall n i b, Z.of_nat n <= 2 ^ k -> Z.of_nat (length b) = 2 ^ k ->
  (forall j, (j < n)%nat -> is_Some (buf_ q !! slot_of (u64 (i + Z.of_nat j)) (mask_ q))) ->
  (forall j, (j < n)%nat -> regroup n (u64 i) q (2 ^ k) b !! slot_of (u64 (i + Z.of_nat j)) (2 ^ k - 1) = buf_ q !! slot_of (u64 (i + Z.of_nat j)) (mask_ q)) /\
  (forall s, (forall j, (j < n)%nat -> s <> slot_of (u64 (i + Z.of_nat j)) (2 ^ k - 1)) -> regroup n (u64 i) q (2 ^ k) b !! s = b !! s).
Proof.
  intros Hk. induction n as [|n IH]; intros i b Hn Hb Hq; [split; [lia|done]|]. cbn [regroup]. rewrite u64_idem.
  set (b' := <[_ := _]> b). destruct (IH (i + 1) b') as [I1 I2]; [lia|by unfold b'; rewrite length_insert| |].
  { intros j Hj. replace (i + 1 + Z.of_nat j) with (i + Z.of_nat (S j)) by lia. apply Hq. lia. }
  split.
  - intros [|j] Hj.
    + rewrite Z.add_0_r, I2.
      * destruct (Hq 0%nat ltac:(lia)) as [h Eh]. rewrite Z.add_0_r in Eh. rewrite Eh. unfold b'. rewrite Eh. apply list_lookup_insert_eq.
        pose proof (slot_lt i k Hk). lia.
      * intros j Hj'. replace (i + 1 + Z.of_nat j) with (i + (1 + Z.of_nat j)) by lia. rewrite <- (Z.add_0_r i) at 1. apply slot_ne; lia.
    + replace (i + Z.of_nat (S j)) with (i + 1 + Z.of_nat j) by lia. apply I1. lia.
  - intros s Hs. rewrite I2.
    + unfold b'. apply list_lookup_insert_ne. specialize (Hs 0%nat ltac:(lia)). rewrite Z.add_0_r in Hs. congruence.
    + intros j Hj. replace (i + 1 + Z.of_nat j) with (i + Z.of_nat (S j)) by lia. apply Hs. lia.
Qed.

Lemma grow_rep q l : queue_rep q l -> Z.of_nat (length (buf_ q)) < 2 ^ 62 -> queue_rep (queue_grow q) l /\ (length (buf_ q) < length (buf_ (queue_grow q)))%nat.
Proof.
  intros R Hlt. pose proof (rep_size q l R) as Hs. destruct R as [(k & Hk & Hc & Hm) Hf Hh Ht Hl].
  assert (Hk' : k < 62) by (apply (Z.pow_lt_mono_r_iff 2); lia). assert (Hp : 0 < 2 ^ k) by (apply Z.pow_pos_nonneg; lia).
  assert (E2 : Z.of_nat (length (buf_ q)) * 2 = 2 ^ (k + 1)) by (rewrite Z.pow_add_r by lia; lia).
  unfold queue_grow. rewrite Hs, Nat2Z.id, E2.
  destruct (regroup_spec (k + 1) q ltac:(lia) (length l) (head_ q) (replicate (Z.to_nat (2 ^ (k + 1))) 0)) as [G _].
  - lia.
  - rewrite length_replicate. lia.
  - intros j Hj. destruct (lookup_lt_is_Some_2 l j Hj) as [h E]. rewrite (Hl j h E). by eexists.
  - rewrite (u64_small (head_ q)) in G by lia. split; [split; simpl|simpl; rewrite regroup_length, length_replicate; lia].
    + exists (k + 1). rewrite regroup_length, length_replicate. lia.
    + rewrite regroup_length, length_replicate. lia.
    + done.
    + done.
    + intros j h E. rewrite (G j) by (by eapply lookup_lt_Some). by apply Hl.
Qed.

Lemma push_rep q l h : queue_rep q l -> Z.of_nat (length l) < 2 ^ 62 -> queue_rep (queue_push h q) (l ++ [h]).
Proof.
  intros R Hlt. unfold queue_push. rewrite (rep_size q l R).
  set (q' := if _ =? _ then _ else q). assert (R' : queue_rep q' l /\ (length l < length (buf_ q'))%nat).
  { subst q'. destruct (Z.eqb_spec (Z.of_nat (length l)) (Z.of_nat (length (buf_ q)))) as [E|E].
    - destruct (grow_rep q l R) as [G1 G2]; [lia|]. split; [done|lia].
    - split; [done|]. pose proof (q_fits _ _ R). lia. }
  clearbody q'. destruct R' as [[(k & Hk & Hc & Hm) Hf Hh Ht Hl] Hr]. rewrite Ht.
  split; cbn [buf_ mask_ head_ tail_].
  - exists k. by rewrite length_insert.
  - rewrite length_insert, length_app. simpl. lia.
  - done.
  - rewrite u64_idem, length_app. f_equal. simpl. lia.
  - intros j x E. destruct (decide (j = length l)) as [->|Hne].
    + rewrite lookup_app_r, Nat.sub_diag in E by done. injection E as <-. apply list_lookup_insert_eq. rewrite Hm. pose proof (slot_lt (head_ q' + Z.of_nat (length l)) k). lia.
    + assert (Hj : (j < length l)%nat) by (apply lookup_lt_Some in E; rewrite length_app in E; simpl in E; lia). rewrite lookup_app_l in E by done.
      rewrite list_lookup_insert_ne; [by apply Hl|]. rewrite Hm. apply slot_ne; lia.
Qed.

Lemma front_rep q h l : queue_rep q (h :: l) -> queue_front q = Some h.
Proof.
  intros [_ _ Hh _ Hl]. specialize (Hl 0%nat h eq_refl). rewrite Z.add_0_r in Hl. unfold queue_front. by rewrite (u64_small (head_ q)) in Hl.
Qed.

Lemma pop_rep q h l : queue_rep q (h :: l) -> queue_rep (queue_pop q) l.
Proof.
  intros [Hc Hf Hh Ht Hl]. split; cbn [buf_ mask_ head_ tail_ queue_pop]; [done|simpl in Hf; lia|apply u64_range| |].
  - rewrite u64_idem, Ht. f_equal. simpl. lia.
  - intros j x E. rewrite u64_idem. replace (head_ q + 1 + Z.of_nat j) with (head_ q + Z.of_nat (S j)) by lia. by apply Hl.
Qed.

Lemma new_rep : queue_rep new_queue [].
Proof. split; simpl; [exists 10; done|lia|lia|done|done]. Qed.

(** ** Any use *)

Inductive queue_reach : ring_queue_t -> list Z -> Prop :=
| qr_new : queue_reach new_queue []
| qr_push q l h : queue_reach q l -> Z.of_nat (length l) < 2 ^ 62 -> queue_reach (queue_push h q) (l ++ [h])
| qr_pop q h l : queue_reach q (h :: l) -> queue_reach (queue_pop q) l.

Lemma queue_reach_rep q l : queue_reach q l -> queue_rep q l.
Proof. induction 1 as [|q l h _ IH Hl|q h l _ IH]; [apply new_rep|by apply push_rep|by apply pop_rep in IH]. Qed.

(** The ready queue is a FIFO: after any pushes and pops its size and
    emptiness are those of the list of handles pushed and not popped, its front
    is the oldest of them, and growing the buffer or wrapping its 64-bit
    counters loses, duplicates or reorders nothing. *)
Theorem ready_queue_fifo q l : queue_reach q l ->
  queue_size q = Z.of_nat (length l) /\ queue_empty q = bool_decide (l = []) /\ (forall h l', l = h :: l' -> queue_front q = Some h) /\
  (length l <= length (buf_ q))%nat.
Proof.
  intros R%queue_reach_rep. pose proof (rep_size q l R) as Hs. split_and!; [done| |intros h l' ->; by eapply front_rep|apply (q_fits _ _ R)].
  unfold queue_empty. destruct R as [(k & Hk & Hc & _) Hf Hh Ht _]. assert (2 ^ k <= 2 ^ 62) by (apply Z.pow_le_mono_r; lia).
  destruct l as [|h l].
  - rewrite Ht. simpl. rewrite Z.add_0_r, u64_small by lia. by rewrite Z.eqb_refl.
  - rewrite bool_decide_false by done. apply Z.eqb_neq. intros E. unfold queue_size in Hs. rewrite <- E, Z.sub_diag in Hs. done.
Qed.

(** Two pushes and a pop. *)
Lemma ready_queue_fifo_witness : exists q, queue_reach q [8] /\ queue_front q = Some 8 /\ queue_size q = 1.
Proof.
  exists (queue_pop (queue_push 8 (queue_push 7 new_queue))).
  assert (R : queue_reach (queue_pop (queue_push 8 (queue_push 7 new_queue))) [8]).
  { apply (qr_pop _ 7), (qr_push _ [7] 8); [apply (qr_push _ [] 7); [apply qr_new|]|]; simpl; lia. }
  destruct (ready_queue_fifo _ _ R) as (H1 & _ & H3 & _). split; [exact R|]. split; [by apply (H3 8 [])|exact H1].
Defined.
