(* ===== verification/Scheduler.v ===== *)
(** * The scheduler

    [scheduler_t] of src/include/cornet/scheduling/scheduler.h and
    src/src/scheduler.cc: one [sched] cycle harvests what other threads queued,
    resumes ready coroutines up to [cpu_batch_], reaps completions, submits or
    waits, and adapts [cpu_batch_] and [io_wait_] to the pressure it measured.

    The ring, the counters and the ready queue are [io_t] of Uring.v; its
    [queue] is the list that ReadyQueue.v shows [ring_queue_t] to be.  What runs
    when a handle is resumed is the application's code: the class [Program].
    What arrives during a cycle, from the kernel, from other threads and from
    the clock, is a [cycle_t].  Doubles are the binary64 numbers of SpecFloat.
    The park token of the waiting branch is in Park.v. *)

From stdpp Require Import prelude gmap list fin_maps.
From Stdlib Require Import ZArith Lia SpecFloat.
From S2P Require Import Prelude IoSlots Uring.
Open Scope Z_scope.

(** ** Doubles *)

Definition f64 (z : Z) : spec_float := binary_normalize 53 1024 z 0 false.
Definition fadd : spec_float -> spec_float -> spec_float := SFadd 53 1024.
Definition fsub : spec_float -> spec_float -> spec_float := SFsub 53 1024.
Definition fmul : spec_float -> spec_float -> spec_float := SFmul 53 1024.
Definition fdiv : spec_float -> spec_float -> spec_float := SFdiv 53 1024.
(** The literal nearest to [n / d]. *)
Definition lit (n d : Z) : spec_float := fdiv (f64 n) (f64 d).
(** [static_cast<int>] of a finite double in range: towards zero. *)
Definition ftrunc (x : spec_float) : Z :=
  match x with
  | S754_finite s m e => (if s then Z.opp else id) (if 0 <=? e then Z.pos m * 2 ^ e else Z.pos m / 2 ^ (- e))
  | _ => 0
  end.
Definition s32 (x : Z) : Z := u32 (x + 2 ^ 31) - 2 ^ 31.

(** ** State *)

Record sched_stats := mk_stats { inflight : Z; cqes_ready : Z; tasks_resumed : Z; task_runtime_ns : Z; loop_runtime_ns : Z }.
Definition no_stats : sched_stats := mk_stats 0 0 0 0 0.

Record scheduler_t := mk_sched {
  cpu_batch_ : Z; io_wait_ : Z; io_sat_fast_ : spec_float; cpu_pressure_fast_ : spec_float; adapt_phase_ : Z; stats : sched_stats
}.
Definition default_sched : scheduler_t := mk_sched 64 1000000 (S754_zero false) (S754_zero false) 0 no_stats.

Definition kAdaptInterval : Z := 1.
Definition min_batch_ : Z := 32.
Definition max_batch_ : Z := 2048.
Definition min_wait_ : Z := 50000.
Definition max_wait_ : Z := 1000000.

Definition with_stats (t : sched_stats) (s : scheduler_t) : scheduler_t :=
  mk_sched (cpu_batch_ s) (io_wait_ s) (io_sat_fast_ s) (cpu_pressure_fast_ s) (adapt_phase_ s) t.

(** ** Adaptation *)

Definition gtb (x y : spec_float) : bool := SFltb y x.

(** [ready_cnt] is the length of the ready queue. *)
Definition batch_delta (cpu io : spec_float) (resumed batch ready_cnt : Z) : Z :=
  let d :=
    if gtb cpu (lit 80 100) then - ftrunc (fmul (f64 batch) (lit 15 100))
    else if gtb io (lit 65 100) then - ftrunc (fmul (f64 batch) (lit 8 100))
    else if SFltb cpu (lit 30 100) && SFltb io (lit 20 100) && (batch / 2 <=? resumed) then ftrunc (fmul (f64 batch) (lit 10 100))
    else 0 in
  if u64 (batch * 4) <? ready_cnt then s32 (d + 16)
  else if (ready_cnt <? batch / 4) && SFltb cpu (lit 3 10) then s32 (d - 8)
  else d.

Definition next_batch (batch delta : Z) : Z := Z.min max_batch_ (Z.max min_batch_ (Z.max 0 (s32 (s32 batch + delta)))).

Definition next_wait (idle : bool) (cpu io : spec_float) (wait : Z) : Z :=
  if idle then Z.min max_wait_ (wait + Z.quot wait 2)
  else if gtb cpu (lit 8 10) || gtb io (lit 6 10) then Z.max min_wait_ (Z.quot wait 2)
  else Z.max min_wait_ (wait - Z.quot wait 5).

Definition instant_io_sat (t : sched_stats) : spec_float :=
  let total := u32 (inflight t + cqes_ready t) in
  if 0 <? total then fdiv (f64 (cqes_ready t)) (f64 total) else S754_zero false.

Definition instant_cpu_pressure (t : sched_stats) : spec_float :=
  if 0 <? loop_runtime_ns t
  then let p := fdiv (f64 (task_runtime_ns t)) (f64 (loop_runtime_ns t)) in if gtb p (f64 1) then f64 1 else p
  else S754_zero false.

(** [old * (1 - alpha) + instant * alpha] *)
Definition ewma (alpha old instant : spec_float) : spec_float := fadd (fmul old (fsub (f64 1) alpha)) (fmul instant alpha).

Definition adapt (ready_cnt : Z) (s : scheduler_t) : scheduler_t :=
  let t := stats s in
  let io := ewma (lit 3 10) (io_sat_fast_ s) (instant_io_sat t) in
  let cpu := ewma (lit 2 10) (cpu_pressure_fast_ s) (instant_cpu_pressure t) in
  let delta := batch_delta cpu io (tasks_resumed t) (cpu_batch_ s) ready_cnt in
  let idle := (tasks_resumed t =? 0) && (cqes_ready t =? 0) && (ready_cnt =? 0) && (inflight t =? 0) in
  mk_sched (next_batch (cpu_batch_ s) delta) (next_wait idle cpu io (io_wait_ s)) io cpu (adapt_phase_ s) t.

(** ** The application

    [E] is the state of the coroutines' frames; [run_handle] runs one until it
    suspends or ends, with what it does to the ring. *)
Class Program (E W : Type) := { run_handle : Z -> E -> W -> E * W; frame_done : E -> Z -> bool }.

Section Sched.
Context {R : Type} `{Liburing R} {E : Type} `{!Program E (io_t (R := R))}.

(** [log]: the handles taken from the ready queue so far. *)
Record loop_t := mk_loop { sch : scheduler_t; lio : io_t (R := R); env : E; log : list Z }.
Implicit Types l : loop_t.

Definition set_lio (w : io_t) l := mk_loop (sch l) w (env l) (log l).
Definition set_sch (s : scheduler_t) l := mk_loop s (lio l) (env l) (log l).

(** What a cycle meets: the handles and the executor's batches dequeued by the
    first and by the second harvest, the completion queue when it is peeked and
    after the wait, and the elapsed times of the three runs and of the cycle. *)
Record cycle_t := mk_cycle {
  remote1 : list Z; async1 : list (list (option Z)); cq1 : io_t (R := R) -> list cqe_t;
  remote2 : list Z; async2 : list (list (option Z)); cq2 : io_t (R := R) -> list cqe_t;
  run1 : Z; run2 : Z; run3 : Z; turn : Z
}.

Definition schedule (h : Z) l : loop_t := set_lio (spawn_handle h (lio l)) l.

Definition harvest_remote (hs : list Z) l : loop_t * Z := (foldl (fun l h => schedule h l) l hs, u32 (Z.of_nat (length hs))).

Definition get_completed (batch : list (option Z)) l : loop_t :=
  set_lio (set_tracker (executor_remove (Z.of_nat (length batch)) (tracker (lio l))) (lio l)) l.

Definition resume_of (o : option Z) l : loop_t := match o with Some h => schedule h l | None => l end.

(** The loop ends at the first empty batch. *)
Fixpoint harvest_async (batches : list (list (option Z))) l : loop_t * Z :=
  match batches with
  | [] => (get_completed [] l, 0)
  | [] :: _ => (get_completed [] l, 0)
  | batch :: batches =>
      let l := foldl (fun l o => resume_of o l) (get_completed batch l) batch in
      let (l, n) := harvest_async batches l in (l, u64 (Z.of_nat (length batch) + n))
  end.

Definition drop_front (w : io_t (R := R)) : io_t :=
  mk_io (ring w) (sqes w) (handed w) (coroutine_remove 1 (tracker w)) (slots w) (tasks w) (tail (queue w)).

Definition resume_task l : loop_t :=
  match queue (lio l) with
  | [] => l
  | h :: _ =>
      let w := drop_front (lio l) in
      if negb (h =? 0) && negb (frame_done (env l) h)
      then let (e, w) := run_handle h (env l) w in mk_loop (sch l) w e (log l ++ [h])
      else mk_loop (sch l) w (env l) (log l ++ [h])
  end.

Definition count_resumed l : loop_t :=
  let t := stats (sch l) in
  set_sch (with_stats (mk_stats (inflight t) (cqes_ready t) (u32 (tasks_resumed t + 1)) (task_runtime_ns t) (loop_runtime_ns t)) (sch l)) l.

(** At most [cpu_batch_ - tasks_resumed] turns. *)
Fixpoint resume_loop (fuel : nat) l : loop_t :=
  match fuel with
  | O => l
  | S fuel =>
      if negb (bool_decide (queue (lio l) = [])) && (tasks_resumed (stats (sch l)) <? cpu_batch_ (sch l))
      then resume_loop fuel (count_resumed (resume_task l))
      else l
  end.

Definition add_runtime (ns : Z) l : loop_t :=
  let t := stats (sch l) in
  set_sch (with_stats (mk_stats (inflight t) (cqes_ready t) (tasks_resumed t) (u64 (task_runtime_ns t + ns)) (loop_runtime_ns t)) (sch l)) l.

Definition resume_ready (ns : Z) l : loop_t :=
  if bool_decide (queue (lio l) = []) then l
  else add_runtime ns (resume_loop (Z.to_nat (cpu_batch_ (sch l) - tasks_resumed (stats (sch l)))) l).

Definition add_cqes (n : Z) l : loop_t :=
  let t := stats (sch l) in
  set_sch (with_stats (mk_stats (inflight t) (u32 (cqes_ready t + n)) (tasks_resumed t) (task_runtime_ns t) (loop_runtime_ns t)) (sch l)) l.

Definition peek (cq : io_t -> list cqe_t) l : option loop_t :=
  if 0 <? io_inflight_ (tracker (lio l))
  then match peek_cqes (frame_done (env l)) (cq (lio l)) (lio l) with
       | Some (w, n) => Some (add_cqes n (set_lio w l))
       | None => None
       end
  else Some l.

Definition submit_only l : loop_t := set_lio (submit (lio l)).1 l.

Definition wait (cq : io_t -> list cqe_t) l : option loop_t :=
  match submit_and_wait_cqes (frame_done (env l)) (cq (lio l)) (lio l) with
  | Some (w, n) => Some (add_cqes n (set_lio w l))
  | None => None
  end.

(** Submit when work is ready, else look once more and wait. *)
Definition submit_or_wait (c : cycle_t) l : option loop_t :=
  if negb (bool_decide (queue (lio l) = [])) then Some (submit_only l)
  else
    let (l, n) := harvest_remote (remote2 c) l in
    if n =? 0
    then let (l, m) := harvest_async (async2 c) l in
         if m =? 0 then wait (cq2 c) l else Some (submit_only l)
    else Some (submit_only l).

Definition end_turn (ns : Z) l : loop_t :=
  let t := stats (sch l) in
  set_sch (with_stats (mk_stats (io_inflight_ (tracker (lio l))) (cqes_ready t) (tasks_resumed t) (task_runtime_ns t) (u64 (loop_runtime_ns t + ns))) (sch l)) l.

Definition begin_turn l : loop_t :=
  let s := sch l in set_sch (mk_sched (cpu_batch_ s) (io_wait_ s) (io_sat_fast_ s) (cpu_pressure_fast_ s) (u32 (adapt_phase_ s + 1)) no_stats) l.

Definition adapt_turn l : loop_t :=
  if kAdaptInterval <=? adapt_phase_ (sch l)
  then let s := sch l in
       let s := mk_sched (cpu_batch_ s) (io_wait_ s) (io_sat_fast_ s) (cpu_pressure_fast_ s) 0 (stats s) in
       set_sch (adapt (Z.of_nat (length (queue (lio l)))) s) l
  else l.

Definition sched (c : cycle_t) l : option loop_t :=
  let l := begin_turn l in
  let l := (harvest_remote (remote1 c) l).1 in
  let l := (harvest_async (async1 c) l).1 in
  let l := resume_ready (run1 c) l in
  match peek (cq1 c) l with
  | None => None
  | Some l =>
      let l := resume_ready (run2 c) l in
      match submit_or_wait c l with
      | None => None
      | Some l => Some (adapt_turn (end_turn (turn c) (resume_ready (run3 c) l)))
      end
  end.

Fixpoint sched_cycles (cs : list cycle_t) l : option loop_t :=
  match cs with
  | [] => Some l
  | c :: cs => match sched c l with Some l => sched_cycles cs l | None => None end
  end.
End Sched.
