(* ===== verification/SchedulerSound.v ===== *)
(** * What the scheduler guarantees

    Cycles of src/src/scheduler.cc (Scheduler.v) always return, resume handles
    in the order in which they became ready, at most [cpu_batch_] of them in a
    cycle, and leave none behind for longer than the handles in front of it take
    at 32 a cycle. *)

From stdpp Require Import prelude gmap list fin_maps.
From Stdlib Require Import ZArith Lia SpecFloat.
From S2P Require Import Prelude IoSlots Uring Scheduler.
Open Scope Z_scope.

(** ** The controllers stay in range *)

Definition tuned (s : scheduler_t) : Prop := min_batch_ <= cpu_batch_ s <= max_batch_ /\ min_wait_ <= io_wait_ s <= max_wait_.

Lemma next_wait_range idle cpu io wait : min_wait_ <= wait <= max_wait_ -> min_wait_ <= next_wait idle cpu io wait <= max_wait_.
Proof.
  unfold next_wait, min_wait_, max_wait_. intros Hw. rewrite !Z.quot_div_nonneg by lia.
  pose proof (Z.div_lt wait 2 ltac:(lia) ltac:(lia)). pose proof (Z.div_pos wait 2). pose proof (Z.div_pos wait 5). pose proof (Z.div_le_upper_bound wait 2 wait).
  destruct idle; [lia|]. destruct (_ || _); lia.
Qed.

(** A configured batch may lie outside the controller's limits: it is taken as
    it is until the first adaptation. *)
Definition sane (s : scheduler_t) : Prop := 0 <= cpu_batch_ s < 2 ^ 32.

Lemma adapt_batch n s : min_batch_ <= cpu_batch_ (adapt n s) <= max_batch_.
Proof. simpl. unfold next_batch, min_batch_, max_batch_. lia. Qed.

Lemma adapt_tuned n s : tuned s -> tuned (adapt n s).
Proof. intros [Hb Hw]. split; [|by apply next_wait_range]. simpl. unfold next_batch, min_batch_, max_batch_. lia. Qed.

(** ** The books are in order *)

Section Sound.
Context {R : Type} `{LiburingLaws R} {E : Type} `{!Program E (io_t (R := R))}.
Implicit Types w : io_t (R := R).

Definition io_fine w : Prop := exists live dead held, io_ok w live dead held.

(** No slot's generation wraps within [n] reuses. *)
Definition young w (n : nat) : Prop := forall i s, slots_ (slots w) !! i = Some s -> generation s + Z.of_nat n < 2 ^ 32.

(** Completions carry 64-bit tokens, whatever tokens they are. *)
Definition cqes_ok w (cqes : list cqe_t) : Prop := Forall (fun c => 0 <= c.1 < 2 ^ 64) cqes /\ young w (length cqes).

(** What the application may do to the ring while it runs: everything that
    keeps the books of Uring.v, and it never takes handles out of the queue. *)
Class ProgramLaws : Prop := {
  run_fine : forall h e w, io_fine w -> io_fine (run_handle h e w).2;
  run_queues : forall h e w, exists added, queue (run_handle h e w).2 = queue w ++ added
}.

Lemma fine_frame w w' : ring_frame w w' -> io_fine w -> io_fine w'.
Proof. intros F (live & dead & held & O). exists live, dead, held. by apply (ring_frame_ok w). Qed.

Lemma fine_spawn h w : io_fine w -> io_fine (spawn_handle h w).
Proof.
  intros (live & dead & held & [O1 O2 O3 O4 O5 O6 O7]). exists live, dead, held. split; simpl; try done.
  rewrite O7, u32_add_l, length_app. f_equal. simpl. lia.
Qed.

Lemma fine_pop h q w : io_fine w -> queue w = h :: q -> io_fine (drop_front w).
Proof.
  intros (live & dead & held & [O1 O2 O3 O4 O5 O6 O7]) Eq. exists live, dead, held. split; simpl; try done.
  rewrite O7, u32_sub_l, Eq. f_equal. simpl. lia.
Qed.

Lemma fine_executor n w : io_fine w -> io_fine (set_tracker (executor_remove n (tracker w)) w).
Proof. intros (live & dead & held & [O1 O2 O3 O4 O5 O6 O7]). exists live, dead, held. by split. Qed.

Lemma token_halves d : 0 <= d < 2 ^ 64 -> index_ok (decode_slot_index d) /\ index_ok (decode_slot_generation d) /\ encode_slot (decode_slot_index d) (decode_slot_generation d) = d.
Proof.
  intros Hd. assert (Hi : index_ok (decode_slot_index d)) by (unfold index_ok, decode_slot_index; apply u32_range).
  assert (Hg : index_ok (decode_slot_generation d)) by (unfold index_ok, decode_slot_generation; apply u32_range).
  split; [done|]. split; [done|]. rewrite encode_value by done. unfold decode_slot_index, decode_slot_generation, u32.
  change 0xFFFFFFFF with (Z.ones 32). rewrite Z.land_ones, Z.shiftr_div_pow2 by lia. rewrite Zmod_mod, (Z.mod_small (d / 2 ^ 32)) by (split; [apply Z.div_pos|apply Z.div_lt_upper_bound]; lia).
  pose proof (Z.div_mod d (2 ^ 32)). lia.
Qed.

Lemma lookup_found d x t live dead : table_ok t live dead -> 0 <= d < 2 ^ 64 -> slot_lookup d t = Some x -> live !! d = Some x.
Proof.
  intros O Hd. destruct (token_halves d Hd) as (Hi & Hg & Ed). unfold slot_lookup. destruct (_ <=? _); [done|].
  destruct (slots_ t !! Z.to_nat (decode_slot_index d)) as [[y g]|] eqn:Es; [|done]. simpl. destruct (Z.eqb_spec g (decode_slot_generation d)) as [->|]; [|done]. simpl. intros ->.
  apply (t_live _ _ _ _ O). exists (Z.to_nat (decode_slot_index d)), (decode_slot_generation d). rewrite Z2Nat.id by (unfold index_ok in Hi; lia). by rewrite Ed.
Qed.

(** One completion, whatever its token. *)
Lemma process_fine hd d res w n : io_fine w -> 0 <= d < 2 ^ 64 -> young w (S n) ->
  exists w', process_utask hd d res w = Some w' /\ io_fine w' /\ young w' n /\ exists added, queue w' = queue w ++ added.
Proof.
  intros (live & dead & held & O) Hd Hy.
  assert (Hid : process_utask hd d res w = Some w -> exists w', process_utask hd d res w = Some w' /\ io_fine w' /\ young w' n /\ exists added, queue w' = queue w ++ added).
  { intros Ep. exists w. split; [done|]. split; [by exists live, dead, held|]. split; [intros i s Es; specialize (Hy i s Es); lia|]. exists []. by rewrite app_nil_r. }
  destruct (slot_lookup d (slots w)) as [t|] eqn:El; [|apply Hid; unfold process_utask; rewrite El; by destruct (d =? 0)].
  pose proof (lookup_found _ _ _ _ _ (io_tbl _ _ _ _ O) Hd El) as Hl. assert (Hf : may_free d w) by (intros s Es; specialize (Hy _ _ Es); lia).
  destruct (process_live hd d t res w live dead held O Hl Hf) as (x & w' & Ht & Hs & Ep & O' & _ & _ & Hq).
  exists w'. split; [done|]. split; [by eexists _, _, _|]. split; [|by eexists].
  intros i s Es. pose proof (io_tbl _ _ _ _ O) as T. revert Ep. unfold process_utask. destruct (d =? 0); [intros [= ->]; specialize (Hy _ _ Es); lia|].
  rewrite El. unfold complete. rewrite Ht. set (w1 := if user_io_counted x then _ else w). assert (E1 : slots w1 = slots w) by (subst w1; by destruct (user_io_counted x)).
  rewrite E1, Hs. unfold slot_free. destruct (slots_ (slots w) !! Z.to_nat (decode_slot_index d)) as [sl|] eqn:Esl; [|done].
  intros [= Ew]. assert (E2 : slots_ (slots w') = <[Z.to_nat (decode_slot_index d) := mk_slot None (u32 (generation sl + 1))]> (slots_ (slots w))).
  { rewrite <- Ew. destruct (handle x) as [h|]; [destruct (negb (hd h))|]; done. }
  rewrite E2 in Es. apply list_lookup_insert_Some in Es as [(_ & <- & _)|[_ Es]]; [|specialize (Hy _ _ Es); lia].
  simpl. pose proof (t_gen _ _ _ _ T _ _ Esl). specialize (Hy _ _ Esl). rewrite u32_small; lia.
Qed.

Lemma process_each_fine hd cqes : forall w, io_fine w -> cqes_ok w cqes ->
  exists w', process_each hd cqes w = Some w' /\ io_fine w' /\ exists added, queue w' = queue w ++ added.
Proof.
  induction cqes as [|[d res] cqes IH]; intros w F [Hd Hy]; [exists w; split; [done|]; split; [done|]; exists []; by rewrite app_nil_r|].
  apply Forall_cons in Hd as [Hd Hds]. destruct (process_fine hd d res w (length cqes) F Hd Hy) as (w1 & E1 & F1 & Y1 & a1 & Q1).
  destruct (IH w1 F1 (conj Hds Y1)) as (w2 & E2 & F2 & a2 & Q2). exists w2. simpl. rewrite E1. split; [done|]. split; [done|]. exists (a1 ++ a2). by rewrite Q2, Q1, app_assoc.
Qed.

Lemma fine_io_complete n w : io_fine w -> io_fine (set_tracker (io_complete n (tracker w)) w).
Proof. intros (live & dead & held & O). exists live, dead, held. by apply io_complete_ok. Qed.

Lemma peek_fine hd cqes w : io_fine w -> cqes_ok w cqes ->
  exists w' n, peek_cqes hd cqes w = Some (w', n) /\ io_fine w' /\ exists added, queue w' = queue w ++ added.
Proof.
  intros F C. destruct (process_each_fine hd cqes w F C) as (w1 & E1 & F1 & a & Q). unfold peek_cqes. rewrite E1.
  destruct (_ =? 0); eexists _, _; (split; [done|]); (split; [|by exists a]); [done|by apply fine_io_complete].
Qed.

Lemma wait_fine hd cqes w : io_fine w -> cqes_ok w cqes ->
  exists w' n, submit_and_wait_cqes hd cqes w = Some (w', n) /\ io_fine w' /\ exists added, queue w' = queue w ++ added.
Proof.
  intros F C. unfold submit_and_wait_cqes. destruct (lib_submit_and_wait (ring w)) as [[r ret] k].
  set (w1 := if 0 <? _ then _ else _). assert (Fr : ring_frame w w1) by (subst w1; destruct (0 <? _); by repeat split).
  pose proof Fr as (S1 & _ & S3 & _). pose proof (fine_frame _ _ Fr F) as F1.
  destruct (ret =? - ETIME); [exists w1, 0; split; [done|]; split; [done|]; exists []; by rewrite app_nil_r|].
  destruct (process_each_fine hd cqes w1 F1) as (w2 & E2 & F2 & a & Q2); [destruct C as [C1 C2]; split; [done|]; unfold young; by rewrite S1|].
  unfold process_cqes. rewrite E2. eexists _, _. split; [done|]. split; [by apply fine_io_complete|]. exists a. simpl. by rewrite Q2, S3.
Qed.

(** ** What a part of a cycle does *)

Context `{!ProgramLaws}.
Implicit Types l : loop_t (R := R) (E := E).

Definition resumed l : Z := tasks_resumed (stats (sch l)).

Record loop_ok l : Prop := {
  lo_fine : io_fine (lio l);
  lo_sane : sane (sch l);
  lo_count : 0 <= resumed l <= cpu_batch_ (sch l)
}.

(** Handles join at the back of the ready queue and leave it at the front, into
    the log; every one that leaves is counted. *)
Record step_ok l l' : Prop := {
  so_ok : loop_ok l';
  so_flow : exists added, log l' ++ queue (lio l') = (log l ++ queue (lio l)) ++ added;
  so_log : log l `prefix_of` log l';
  so_batch : cpu_batch_ (sch l') = cpu_batch_ (sch l);
  so_wait : io_wait_ (sch l') = io_wait_ (sch l);
  so_count : resumed l' - resumed l = Z.of_nat (length (log l')) - Z.of_nat (length (log l))
}.

Lemma step_refl l : loop_ok l -> step_ok l l.
Proof. intros O. split; [done|exists []; by rewrite app_nil_r|done|done|done|lia]. Qed.
Lemma step_trans l1 l2 l3 : step_ok l1 l2 -> step_ok l2 l3 -> step_ok l1 l3.
Proof.
  intros [_ (a & Fa) P1 B1 W1 C1] [O (b & Fb) P2 B2 W2 C2]. split; [done| |by etrans|congruence|congruence|lia].
  exists (a ++ b). by rewrite Fb, Fa, app_assoc.
Qed.

(** Only the ring side changes, and its queue grows. *)
Lemma step_io w l : loop_ok l -> io_fine w -> (exists added, queue w = queue (lio l) ++ added) -> step_ok l (set_lio w l).
Proof. intros [_ T C] F (a & Q). split; [by split|exists a; simpl; by rewrite Q, app_assoc|done|done|done|unfold resumed; simpl; lia]. Qed.
(** Only figures of the scheduler change. *)
Lemma step_sch s l : loop_ok l -> cpu_batch_ s = cpu_batch_ (sch l) -> io_wait_ s = io_wait_ (sch l) -> tasks_resumed (stats s) = resumed l -> step_ok l (set_sch s l).
Proof.
  intros [F T C] Hb Hw Hr. unfold resumed in *. split; [split; simpl; [done|unfold sane in *; lia|unfold resumed; simpl; lia]|exists []; simpl; by rewrite app_nil_r|done|done|done|unfold resumed; simpl; lia].
Qed.

Lemma step_schedule h l : loop_ok l -> step_ok l (schedule h l).
Proof. intros O. apply step_io; [done|apply fine_spawn, (lo_fine _ O)|by exists [h]]. Qed.
Lemma step_completed b l : loop_ok l -> step_ok l (get_completed b l).
Proof. intros O. apply step_io; [done|apply fine_executor, (lo_fine _ O)|exists []; by rewrite app_nil_r]. Qed.
Lemma step_resume_of o l : loop_ok l -> step_ok l (resume_of o l).
Proof. destruct o; [apply step_schedule|apply step_refl]. Qed.

Lemma step_fold {A} (f : A -> loop_t -> loop_t) xs : (forall x l, loop_ok l -> step_ok l (f x l)) -> forall l, loop_ok l -> step_ok l (foldl (fun l x => f x l) l xs).
Proof.
  intros Hf. induction xs as [|x xs IH]; intros l O; [by apply step_refl|]. simpl. pose proof (Hf x l O) as S. apply (step_trans _ _ _ S), IH, (so_ok _ _ S).
Qed.

Lemma step_remote hs l : loop_ok l -> step_ok l (harvest_remote hs l).1.
Proof. apply (step_fold schedule), step_schedule. Qed.

Lemma step_async batches : forall l, loop_ok l -> step_ok l (harvest_async batches l).1.
Proof.
  induction batches as [|[|o b] batches IH]; intros l O; [by apply step_completed..|]. cbn [harvest_async].
  pose proof (step_completed (o :: b) l O) as S1. pose proof (step_fold resume_of (o :: b) step_resume_of _ (so_ok _ _ S1)) as S2.
  specialize (IH _ (so_ok _ _ S2)). destruct (harvest_async batches _) as [l' n]. exact (step_trans _ _ _ S1 (step_trans _ _ _ S2 IH)).
Qed.

(** One handle is taken from the front, run, and counted. *)
Lemma step_resume l : loop_ok l -> queue (lio l) <> [] -> resumed l < cpu_batch_ (sch l) ->
  step_ok l (count_resumed (resume_task l)) /\ resumed (count_resumed (resume_task l)) = resumed l + 1.
Proof.
  intros [F T C] Hq Hlt. pose proof T as Tb. unfold sane in Tb. unfold resume_task. destruct (queue (lio l)) as [|h q] eqn:Eq; [done|].
  pose proof (fine_pop h q _ F Eq) as Fp.
  assert (G : forall w e, io_fine w -> (exists added, queue w = q ++ added) -> let l' := count_resumed (mk_loop (sch l) w e (log l ++ [h])) in step_ok l l' /\ resumed l' = resumed l + 1).
  { intros w e Fw (a & Qa). assert (Hr : u32 (resumed l + 1) = resumed l + 1) by (apply u32_small; lia). unfold resumed in *. split; [|simpl; exact Hr].
    split; simpl; unfold resumed; simpl; rewrite ?Hr.
    - split; simpl; [done|done|unfold resumed; simpl; rewrite Hr; lia].
    - exists a. by rewrite Qa, Eq, <- !app_assoc.
    - by exists [h].
    - done.
    - done.
    - rewrite length_app. simpl. lia. }
  destruct (negb (h =? 0) && negb (frame_done (env l) h)).
  - destruct (run_handle h (env l) (drop_front (lio l))) as [e w] eqn:Er. apply G.
    + pose proof (run_fine h (env l) _ Fp) as Fr. by rewrite Er in Fr.
    + destruct (run_queues h (env l) (drop_front (lio l))) as (a & Qa). rewrite Er in Qa. simpl in Qa. rewrite Eq in Qa. by exists a.
  - apply G; [done|]. exists []. simpl. by rewrite Eq, app_nil_r.
Qed.

(** The run ends when nothing is ready or the batch is used up. *)
Lemma step_loop n : forall l, loop_ok l -> cpu_batch_ (sch l) - resumed l <= Z.of_nat n ->
  step_ok l (resume_loop n l) /\ (queue (lio (resume_loop n l)) = [] \/ resumed (resume_loop n l) = cpu_batch_ (sch l)).
Proof.
  induction n as [|n IH]; intros l O Hn; cbn [resume_loop]; [split; [by apply step_refl|right; pose proof (lo_count _ O); lia]|].
  destruct (bool_decide_reflect (queue (lio l) = [])) as [Eq|Eq]; simpl; [split; [by apply step_refl|by left]|].
  destruct (Z.ltb_spec (tasks_resumed (stats (sch l))) (cpu_batch_ (sch l))) as [Hlt|Hge].
  - destruct (step_resume l O Eq Hlt) as [S1 Hr]. destruct (IH _ (so_ok _ _ S1)) as [S2 D]; [rewrite (so_batch _ _ S1); lia|].
    split; [exact (step_trans _ _ _ S1 S2)|]. rewrite <- (so_batch _ _ S1). exact D.
  - split; [by apply step_refl|]. right. pose proof (lo_count _ O). unfold resumed in *. lia.
Qed.

Lemma step_ready ns l : loop_ok l -> step_ok l (resume_ready ns l) /\ (queue (lio (resume_ready ns l)) = [] \/ resumed (resume_ready ns l) = cpu_batch_ (sch l)).
Proof.
  intros O. unfold resume_ready. destruct (bool_decide_reflect (queue (lio l) = [])) as [Eq|Eq]; [split; [by apply step_refl|by left]|].
  destruct (step_loop (Z.to_nat (cpu_batch_ (sch l) - tasks_resumed (stats (sch l)))) l O) as [S D]; [unfold resumed; lia|].
  split; [|exact D]. apply (step_trans _ _ _ S). apply step_sch; [apply (so_ok _ _ S)|done|done|done].
Qed.

Lemma step_add_cqes n l : loop_ok l -> step_ok l (add_cqes n l).
Proof. intros O. apply step_sch; [done|done|done|done]. Qed.

Lemma step_peek cq l : loop_ok l -> (forall w, io_fine w -> cqes_ok w (cq w)) -> exists l', peek cq l = Some l' /\ step_ok l l'.
Proof.
  intros O Hc. unfold peek. destruct (0 <? _); [|exists l; split; [done|by apply step_refl]].
  destruct (peek_fine (frame_done (env l)) (cq (lio l)) (lio l) (lo_fine _ O) (Hc _ (lo_fine _ O))) as (w & n & -> & F & Q).
  pose proof (step_io w l O F Q) as S. eexists. split; [done|]. apply (step_trans _ _ _ S), step_add_cqes, (so_ok _ _ S).
Qed.

Lemma step_wait cq l : loop_ok l -> (forall w, io_fine w -> cqes_ok w (cq w)) -> exists l', wait cq l = Some l' /\ step_ok l l'.
Proof.
  intros O Hc. unfold wait. destruct (wait_fine (frame_done (env l)) (cq (lio l)) (lio l) (lo_fine _ O) (Hc _ (lo_fine _ O))) as (w & n & -> & F & Q).
  pose proof (step_io w l O F Q) as S. eexists. split; [done|]. apply (step_trans _ _ _ S), step_add_cqes, (so_ok _ _ S).
Qed.

Lemma step_submit l : loop_ok l -> step_ok l (submit_only l).
Proof.
  intros O. pose proof (submit_frame (lio l)) as F. apply step_io; [done|apply (fine_frame _ _ F), (lo_fine _ O)|]. exists []. destruct F as (_ & _ & -> & _). by rewrite app_nil_r.
Qed.

Lemma step_submit_or_wait c l : loop_ok l -> (forall w, io_fine w -> cqes_ok w (cq2 c w)) -> exists l', submit_or_wait c l = Some l' /\ step_ok l l'.
Proof.
  intros O Hc. unfold submit_or_wait. destruct (negb _); [eexists; split; [done|by apply step_submit]|].
  pose proof (step_remote (remote2 c) l O) as S1. destruct (harvest_remote (remote2 c) l) as [l1 n]. simpl in S1.
  destruct (n =? 0); [|eexists; split; [done|]; apply (step_trans _ _ _ S1), step_submit, (so_ok _ _ S1)].
  pose proof (step_async (async2 c) l1 (so_ok _ _ S1)) as S2. destruct (harvest_async (async2 c) l1) as [l2 m]. simpl in S2. pose proof (step_trans _ _ _ S1 S2) as S3.
  destruct (m =? 0); [|eexists; split; [done|]; apply (step_trans _ _ _ S3), step_submit, (so_ok _ _ S3)].
  destruct (step_wait (cq2 c) l2 (so_ok _ _ S3) Hc) as (l3 & E3 & S4). exists l3. split; [done|exact (step_trans _ _ _ S3 S4)].
Qed.

(** ** Whole cycles *)

Definition cycle_ok (c : cycle_t (R := R)) : Prop := forall w, io_fine w -> cqes_ok w (cq1 c w) /\ cqes_ok w (cq2 c w).

(** Between cycles only the books and the controllers matter. *)
Definition loop_fine l : Prop := io_fine (lio l) /\ sane (sch l).

(** What one cycle does, seen from outside. *)
Record cycle_does l l' : Prop := {
  cd_fine : loop_fine l';
  cd_flow : exists added, log l' ++ queue (lio l') = (log l ++ queue (lio l)) ++ added;
  cd_log : log l `prefix_of` log l';
  cd_most : Z.of_nat (length (log l')) <= Z.of_nat (length (log l)) + cpu_batch_ (sch l);
  cd_batch : cpu_batch_ (sch l') = cpu_batch_ (sch l) \/ min_batch_ <= cpu_batch_ (sch l') <= max_batch_;
  cd_tuned : tuned (sch l) -> tuned (sch l');
  cd_least : queue (lio l') = [] \/ Z.of_nat (length (log l')) = Z.of_nat (length (log l)) + cpu_batch_ (sch l)
}.

Lemma begin_ok l : loop_fine l -> loop_ok (begin_turn l).
Proof. intros [F T]. split; [done|done|]. unfold resumed. simpl. unfold sane in T. lia. Qed.

(** What the end of a cycle leaves of the controllers. *)
Lemma end_adapts ns l :
  let s' := sch (adapt_turn (end_turn ns l)) in
  (cpu_batch_ s' = cpu_batch_ (sch l) \/ min_batch_ <= cpu_batch_ s' <= max_batch_) /\ (tuned (sch l) -> tuned s').
Proof.
  cbv zeta. unfold adapt_turn. destruct (_ <=? _); [|split; [by left|done]]. split; [right; apply adapt_batch|]. intros T. by apply adapt_tuned.
Qed.

Lemma sched_does c l : loop_fine l -> cycle_ok c -> exists l', sched c l = Some l' /\ cycle_does l l'.
Proof.
  intros F Hc. unfold sched. pose proof (begin_ok l F) as O0. set (l0 := begin_turn l) in *.
  pose proof (step_remote (remote1 c) l0 O0) as S1. set (l1 := (harvest_remote (remote1 c) l0).1) in *.
  pose proof (step_async (async1 c) l1 (so_ok _ _ S1)) as S2. set (l2 := (harvest_async (async1 c) l1).1) in *.
  destruct (step_ready (run1 c) l2 (so_ok _ _ S2)) as [S3 _]. set (l3 := resume_ready (run1 c) l2) in *.
  destruct (step_peek (cq1 c) l3 (so_ok _ _ S3)) as (l4 & -> & S4); [intros w Fw; apply (Hc w Fw)|].
  destruct (step_ready (run2 c) l4 (so_ok _ _ S4)) as [S5 _]. set (l5 := resume_ready (run2 c) l4) in *.
  destruct (step_submit_or_wait c l5 (so_ok _ _ S5)) as (l6 & -> & S6); [intros w Fw; apply (Hc w Fw)|].
  destruct (step_ready (run3 c) l6 (so_ok _ _ S6)) as [S7 D]. set (l7 := resume_ready (run3 c) l6) in *.
  assert (S : step_ok l0 l6) by (eapply step_trans; [exact S1|]; eapply step_trans; [exact S2|]; eapply step_trans; [exact S3|]; eapply step_trans; [exact S4|]; eapply step_trans; [exact S5|exact S6]).
  rewrite (so_batch _ _ S) in D. pose proof (step_trans _ _ _ S S7) as [[F7 T7 C7] (a & Fa) P7 B7 W7 N7]. clear S S1 S2 S3 S4 S5 S6 S7. eexists. split; [done|].
  change (resumed l0) with 0 in N7. change (log l0) with (log l) in *. change (lio l0) with (lio l) in *. change (cpu_batch_ (sch l0)) with (cpu_batch_ (sch l)) in *. change (io_wait_ (sch l0)) with (io_wait_ (sch l)) in *.
  assert (K : lio (adapt_turn (end_turn (turn c) l7)) = lio l7 /\ log (adapt_turn (end_turn (turn c) l7)) = log l7) by (unfold adapt_turn; by destruct (_ <=? _)).
  destruct K as (K2 & K3). pose proof (end_adapts (turn c) l7) as [Kb Kt]. rewrite B7 in Kb. unfold tuned in Kt. rewrite B7, W7 in Kt.
  split; rewrite ?K2, ?K3; [|by exists a|done|lia|done|done|destruct D as [D|D]; [by left|right; lia]].
  split; [by rewrite K2|]. unfold sane, min_batch_, max_batch_ in *. lia.
Qed.

(** C24: Whatever arrives during the cycles, they all return; handles leave the
    ready queue in exactly the order in which they joined it; each cycle takes at
    most [cpu_batch_] of them and fewer only when none is left; so a handle [k]
    places behind the front has been resumed after [k / b + 1] cycles, however
    many handles arrive or reschedule themselves meanwhile, where [b] is 32 or
    the batch the loop starts with when that is smaller (a configured batch is
    not clamped; adaptation keeps it between 32 and 2048).  [ready_] stays the
    length of the queue, and controllers that start within their limits stay
    within them. *)
Theorem scheduler_fair cs l b : loop_fine l -> Forall cycle_ok cs -> b <= 32 -> b <= cpu_batch_ (sch l) ->
  exists l', sched_cycles cs l = Some l' /\
    (exists added, log l' ++ queue (lio l') = (log l ++ queue (lio l)) ++ added) /\ log l `prefix_of` log l' /\
    (forall k h, queue (lio l) !! k = Some h -> Z.of_nat k < b * Z.of_nat (length cs) -> log l' !! (length (log l) + k)%nat = Some h) /\
    ready_ (tracker (lio l')) = u32 (Z.of_nat (length (queue (lio l')))) /\ (tuned (sch l) -> tuned (sch l')) /\
    (forall c, cycle_ok c -> exists l2, sched c l' = Some l2 /\
       Z.of_nat (length (log l2)) <= Z.of_nat (length (log l')) + cpu_batch_ (sch l') /\
       (queue (lio l2) <> [] -> Z.of_nat (length (log l2)) = Z.of_nat (length (log l')) + cpu_batch_ (sch l'))).
Proof.
  intros F Hc. revert l F. induction Hc as [|c cs Hc _ IH]; intros l F B32 Hb.
  { exists l. split; [done|]. split; [exists []; by rewrite app_nil_r|]. split; [done|]. split; [intros k h _ Hk; simpl in Hk; lia|]. split_and!; [|done|].
    - destruct F as [(live & dead & held & O) T]. apply (io_ready _ _ _ _ O).
    - intros c Hc. destruct (sched_does c l F Hc) as (l2 & E2 & [_ _ _ M _ _ L]). exists l2. split_and!; [done|done|]. by destruct L. }
  destruct (sched_does c l F Hc) as (l1 & E1 & [F1 (a1 & Fl1) P1 M1 Bt1 Tn1 L1]).
  destruct (IH l1 F1 B32) as (l2 & E2 & (a2 & Fl2) & P2 & K2 & R2 & T2 & Each); [unfold min_batch_ in Bt1; lia|].
  exists l2. split; [simpl; by rewrite E1|]. split; [exists (a1 ++ a2); by rewrite Fl2, Fl1, app_assoc|]. split; [by etrans|]. split; [|split_and!; [done|auto|done]].
  intros k h Ek Hk. assert (Ef : (log l1 ++ queue (lio l1)) !! (length (log l) + k)%nat = Some h).
  { rewrite Fl1. apply lookup_app_l_Some. rewrite lookup_app_r by lia. by replace (length (log l) + k - length (log l))%nat with k by lia. }
  destruct (decide (length (log l) + k < length (log l1))%nat) as [Hlt|Hge].
  - rewrite lookup_app_l in Ef by done. by apply (prefix_lookup_Some _ _ _ _ Ef).
  - destruct L1 as [L1|L1]; [rewrite L1, app_nil_r in Ef; apply lookup_lt_Some in Ef; lia|]. rewrite lookup_app_r in Ef by lia.
    specialize (K2 _ _ Ef). cbn [length] in Hk. replace (length (log l) + k)%nat with (length (log l1) + (length (log l) + k - length (log l1)))%nat by lia. apply K2. lia.
Qed.
End Sound.

(** ** A coroutine that never stops yielding

    Handle 5 reschedules itself whenever it runs; 6 and 7 still get their turn. *)
#[local] Existing Instance toy_lib.
#[local] Existing Instance toy_laws.
#[local] Instance spinner : Program unit (io_t (R := toy_ring)) := {
  run_handle h e w := (e, if h =? 5 then spawn_handle 5 w else w);
  frame_done e h := false
}.
#[local] Instance spinner_laws : ProgramLaws (R := toy_ring) (E := unit).
Proof.
  split; intros h e w; simpl; destruct (h =? 5).
  - apply fine_spawn.
  - done.
  - by exists [5].
  - exists []. by rewrite app_nil_r.
Qed.

Definition spin_loop : loop_t (R := toy_ring) (E := unit) := mk_loop default_sched (spawn_handle 7 (spawn_handle 6 (spawn_handle 5 two_ops))) tt [].
Definition quiet_cycle : cycle_t (R := toy_ring) := mk_cycle [] [] (fun _ => []) [] [] (fun _ => []) 0 0 0 1000.

Lemma scheduler_fair_witness :
  (exists l', sched_cycles [quiet_cycle] spin_loop = Some l' /\ log l' !! 2%nat = Some 7) /\
  (match sched_cycles [quiet_cycle] spin_loop with Some l' => length (log l') = 64%nat /\ take 5 (log l') = [5; 6; 7; 5; 5] /\ cpu_batch_ (sch l') = 62 | None => False end).
Proof.
  split; [|vm_compute; repeat split; reflexivity].
  assert (F0 : io_fine (R := toy_ring) two_ops).
  { exists ∅, ∅, 0%nat. apply new_ok; [apply new_ok; [|vm_compute; reflexivity]|vm_compute; reflexivity]. split; simpl; try done. apply (make_ok 1 low_one). lia. }
  assert (F : loop_fine spin_loop) by (split; [by repeat apply fine_spawn|vm_compute; by split]).
  assert (C : Forall (cycle_ok (R := toy_ring)) [quiet_cycle]).
  { constructor; [|constructor]. intros w (live & dead & held & O). assert (Q : cqes_ok w []) by (split; [constructor|]; intros i s Es; pose proof (t_gen _ _ _ _ (io_tbl _ _ _ _ O) _ _ Es); simpl; lia). by split. }
  destruct (scheduler_fair [quiet_cycle] spin_loop 32 F C ltac:(lia) ltac:(vm_compute; discriminate)) as (l' & E' & _ & _ & K & _). exists l'. split; [exact E'|]. apply (K 2%nat 7); [reflexivity|simpl; lia].
Defined.
