(* ===== verification/Park.v ===== *)
(** * Parking and waking

    The handshake between the owner thread, which blocks in the wait of
    [scheduler_t::sched] (src/src/scheduler.cc) holding a [park_scope]
    (src/include/cornet/scheduling/context.h), and the threads that hand it
    work: [spawn_remote] and the executor's workers (src/src/executor.cc) first
    enqueue, then call [wakeup] (src/src/context.cc).

    Threads interleave at the granularity of one access to shared memory: the
    park token [parked_] and the two queues, whose operations are atomic.  The
    token's accesses are sequentially consistent in the code.  [wake] says that
    the eventfd was written and the owner has not consumed it: while the owner
    waits, the watcher's read of the eventfd is armed, because the ready queue
    was empty and the wait submits what the watcher queued. *)

From stdpp Require Import prelude gmap list fin_maps relations.
From Stdlib Require Import ZArith Lia.
From S2P Require Import Prelude.
Open Scope Z_scope.

(** ** State *)

(** Where the owner is: at the harvests that begin a cycle, running coroutines,
    at the two re-checks after the token was set, waiting, or leaving. *)
Inductive owner_pc := HarvestRemote | HarvestAsync | Busy | CheckRemote | CheckAsync | Waiting | Leaving.

(** A producer: outside, after its enqueue, or with the token in hand. *)
Inductive producer_pc := Outside | Enqueued | HasToken.

Inductive channel := Remote | Completed.

Record park_t := mk_park {
  owner : owner_pc; parked_ : bool; wake : bool; remote_tasks_ : list Z; completed_tasks : list Z; producers : gmap nat producer_pc;
  harvested : list Z; sent : list Z
}.

Definition with_owner (o : owner_pc) (s : park_t) : park_t :=
  mk_park o (parked_ s) (wake s) (remote_tasks_ s) (completed_tasks s) (producers s) (harvested s) (sent s).
Definition with_token (o : owner_pc) (b : bool) (s : park_t) : park_t :=
  mk_park o b (wake s) (remote_tasks_ s) (completed_tasks s) (producers s) (harvested s) (sent s).
Definition take_remote (o : owner_pc) (s : park_t) : park_t :=
  mk_park o (parked_ s) (wake s) [] (completed_tasks s) (producers s) (harvested s ++ remote_tasks_ s) (sent s).
Definition take_completed (o : owner_pc) (s : park_t) : park_t :=
  mk_park o (parked_ s) (wake s) (remote_tasks_ s) [] (producers s) (harvested s ++ completed_tasks s) (sent s).
Definition consume_wake (o : owner_pc) (s : park_t) : park_t :=
  mk_park o (parked_ s) false (remote_tasks_ s) (completed_tasks s) (producers s) (harvested s) (sent s).
Definition set_producer (p : nat) (pc : producer_pc) (s : park_t) : park_t :=
  mk_park (owner s) (parked_ s) (wake s) (remote_tasks_ s) (completed_tasks s) (<[p := pc]> (producers s)) (harvested s) (sent s).

Definition producer_at (s : park_t) (p : nat) : producer_pc := default Outside (producers s !! p).

(** ** The owner *)

(** Its next access; [more] says that coroutines are ready after the run, so
    that the cycle submits and goes round instead of parking; [seen], that the
    peek of the cycle found the completion of the eventfd's read. *)
Definition owner_step (more seen : bool) (s : park_t) : option park_t :=
  match owner s with
  | HarvestRemote => Some (take_remote HarvestAsync s)
  | HarvestAsync => Some (take_completed Busy s)
  | Busy => let s := if seen then consume_wake Busy s else s in if more then Some (with_owner HarvestRemote s) else Some (with_token CheckRemote true s)
  | CheckRemote => match remote_tasks_ s with [] => Some (with_owner CheckAsync s) | _ => Some (take_remote Leaving s) end
  | CheckAsync => match completed_tasks s with [] => Some (with_owner Waiting s) | _ => Some (take_completed Leaving s) end
  | Waiting => if wake s then Some (consume_wake Leaving s) else None
  | Leaving => Some (with_token HarvestRemote false s)
  end.

(** The wait also ends by its timeout and by other completions. *)
Definition owner_returns (s : park_t) : park_t := with_owner Leaving s.

(** ** The producers *)

Definition enqueue (p : nat) (ch : channel) (h : Z) (s : park_t) : park_t :=
  let s := set_producer p Enqueued s in
  match ch with
  | Remote => mk_park (owner s) (parked_ s) (wake s) (remote_tasks_ s ++ [h]) (completed_tasks s) (producers s) (harvested s) (sent s ++ [h])
  | Completed => mk_park (owner s) (parked_ s) (wake s) (remote_tasks_ s) (completed_tasks s ++ [h]) (producers s) (harvested s) (sent s ++ [h])
  end.

(** The two accesses of [wakeup]. *)
Definition exchange (p : nat) (s : park_t) : park_t :=
  set_producer p (if parked_ s then HasToken else Outside) (with_token (owner s) false s).
Definition write_eventfd (p : nat) (s : park_t) : park_t :=
  let s := set_producer p Outside s in
  mk_park (owner s) (parked_ s) true (remote_tasks_ s) (completed_tasks s) (producers s) (harvested s) (sent s).

Definition park_init : park_t := mk_park HarvestRemote false false [] [] ∅ [] [].

Inductive park_step : park_t -> park_t -> Prop :=
| ps_owner s more seen s' : owner_step more seen s = Some s' -> park_step s s'
| ps_returns s : owner s = Waiting -> park_step s (owner_returns s)
| ps_enqueue s p ch h : producer_at s p = Outside -> park_step s (enqueue p ch h s)
| ps_exchange s p : producer_at s p = Enqueued -> park_step s (exchange p s)
| ps_write s p : producer_at s p = HasToken -> park_step s (write_eventfd p s).

(** ** The invariant *)

Definition settling (s : park_t) : Prop := wake s = true \/ exists p, producer_at s p = HasToken.
Definition coming (s : park_t) : Prop := settling s \/ exists p, producer_at s p = Enqueued.

Definition holds_token (o : owner_pc) : bool := match o with CheckRemote | CheckAsync | Waiting => true | _ => false end.

Record park_ok (s : park_t) : Prop := {
  pk_token : holds_token (owner s) = true -> parked_ s = true \/ settling s;
  pk_remote : owner s = CheckAsync \/ owner s = Waiting -> remote_tasks_ s <> [] -> coming s;
  pk_completed : owner s = Waiting -> completed_tasks s <> [] -> coming s;
  pk_sent : harvested s ++ remote_tasks_ s ++ completed_tasks s ≡ₚ sent s
}.

Lemma at_set p pc s q : producer_at (set_producer p pc s) q = if decide (q = p) then pc else producer_at s q.
Proof. unfold producer_at. simpl. destruct (decide (q = p)) as [->|]; [by rewrite lookup_insert_eq|by rewrite lookup_insert_ne]. Qed.

(** Everything is settled by the accesses of the others. *)
Lemma owner_ok more seen s s' : park_ok s -> owner_step more seen s = Some s' -> park_ok s'.
Proof.
  intros [T Rm Cm Sn]. destruct s as [o pk wk rt ct ps hv st]. unfold owner_step. simpl in *.
  destruct o; simpl in *; intros E.
  - injection E as <-. split; simpl; try done; try (by intros [? | ?]). by rewrite <- Sn, <- app_assoc.
  - injection E as <-. split; simpl; try done; try (by intros [? | ?]). rewrite <- Sn, app_nil_r, <- app_assoc. f_equiv. apply Permutation_app_comm.
  - destruct seen, more; injection E as <-; split; simpl; try done; try (by intros [? | ?]); by left.
  - destruct rt as [|h rt]; injection E as <-; split; simpl in *; try done; try (by intros [? | ?]).
    rewrite <- Sn. rewrite <- app_assoc. done.
  - destruct ct as [|h ct]; injection E as <-; split; simpl in *; try done; try (by intros [? | ?]).
    + intros _ Hr. apply Rm; [by left|done].
    + rewrite <- Sn, app_nil_r, <- app_assoc. f_equiv. apply Permutation_app_comm.
  - destruct wk; [|done]. injection E as <-. split; simpl; try done; try (by intros [? | ?]).
  - injection E as <-. split; simpl; try done; try (by intros [? | ?]).
Qed.

Lemma enqueue_ok p ch h s : park_ok s -> producer_at s p = Outside -> park_ok (enqueue p ch h s).
Proof.
  intros [T Rm Cm Sn] Hp. assert (Hat : forall q, producer_at (enqueue p ch h s) q = if decide (q = p) then Enqueued else producer_at s q) by (intros q; destruct ch; apply at_set).
  assert (Hs : settling s -> settling (enqueue p ch h s)).
  { intros [Hw|[q Hq]]; [left; by destruct ch|right; exists q]. rewrite Hat. destruct (decide (q = p)) as [->|]; [congruence|done]. }
  assert (Hc : coming (enqueue p ch h s)) by (right; exists p; rewrite Hat; by rewrite decide_True).
  split.
  - intros Ho. destruct (T ltac:(by destruct ch)) as [?|?]; [left; by destruct ch|right; by apply Hs].
  - done.
  - done.
  - destruct ch; simpl; rewrite <- Sn; [rewrite <- app_assoc, (Permutation_app_comm [h]), !app_assoc|rewrite !app_assoc]; done.
Qed.

Lemma exchange_ok p s : park_ok s -> producer_at s p = Enqueued -> park_ok (exchange p s).
Proof.
  intros [T Rm Cm Sn] Hp.
  assert (Hat : forall q, producer_at (exchange p s) q = if decide (q = p) then (if parked_ s then HasToken else Outside) else producer_at s q) by (intros q; etrans; [apply at_set|done]).
  assert (Hs : settling s -> settling (exchange p s)).
  { intros [Hw|[q Hq]]; [by left|right; exists q]. rewrite Hat. destruct (decide (q = p)) as [->|]; [congruence|done]. }
  assert (Ht : holds_token (owner s) = true -> settling (exchange p s)).
  { intros Ho. destruct (T Ho) as [Ht|?]; [|by apply Hs]. right. exists p. by rewrite Hat, decide_True, Ht. }
  split; simpl.
  - intros Ho. right. by apply Ht.
  - intros Ho _. left. apply Ht. by destruct Ho as [-> | ->].
  - intros Ho _. left. apply Ht. by rewrite Ho.
  - done.
Qed.

Lemma write_ok p s : park_ok s -> park_ok (write_eventfd p s).
Proof. intros [T Rm Cm Sn]. split; simpl; [intros _; right; by left|intros _ _; left; by left|intros _ _; left; by left|done]. Qed.

Lemma returns_ok s : park_ok s -> park_ok (owner_returns s).
Proof. intros [T Rm Cm Sn]. by split; simpl; try done; try (by intros [? | ?]). Qed.

Lemma park_reach_ok s : rtc park_step park_init s -> park_ok s.
Proof.
  revert s. apply (rtc_ind_r (fun s => park_ok s)); [split; simpl; try done; by intros [? | ?]|].
  intros s1 s2 _ St O. destruct St as [s more seen s' E|s|s p ch h Hp|s p Hp|s p Hp]; [by eapply owner_ok|by apply returns_ok|by apply enqueue_ok|by apply exchange_ok|by apply write_ok].
Qed.

(** ** No lost wakeup *)

(** The owner's accesses from the end of its wait up to its next run. *)
Fixpoint owner_steps (n : nat) (s : park_t) : option park_t :=
  match n with O => Some s | S n => match owner_step false true s with Some s => owner_steps n s | None => None end end.

(** C26: Under every interleaving, when the owner waits while work is queued
    for it, the eventfd has been written or a producer that will write it, or
    that is about to look at the token, is still on its way; so once the
    producers are done the owner is not blocked, and four accesses later it has
    taken all the work.  Nothing handed over is lost, duplicated or invented. *)
Theorem no_lost_wakeup s : rtc park_step park_init s ->
  (harvested s ++ remote_tasks_ s ++ completed_tasks s ≡ₚ sent s) /\
  (owner s = Waiting -> remote_tasks_ s <> [] \/ completed_tasks s <> [] -> coming s) /\
  (owner s = Waiting -> remote_tasks_ s <> [] \/ completed_tasks s <> [] -> (forall p, producer_at s p = Outside) ->
    exists s', owner_steps 4 s = Some s' /\ harvested s' ≡ₚ sent s' /\ sent s' = sent s).
Proof.
  intros R%park_reach_ok. pose proof R as [T Rm Cm Sn]. assert (C : owner s = Waiting -> remote_tasks_ s <> [] \/ completed_tasks s <> [] -> coming s).
  { intros Ho [Hr|Hc]; [apply Rm; [by right|done]|by apply Cm]. }
  split; [done|]. split; [done|]. intros Ho Hw Hp. assert (W : wake s = true).
  { destruct (C Ho Hw) as [[?|[p E]]|[p E]]; [done|by rewrite Hp in E..]. }
  destruct s as [o pk wk rt ct ps hv st]. simpl in *. subst o wk. eexists. split; [done|]. simpl. split; [|done]. by rewrite <- Sn, <- app_assoc.
Qed.

(** A producer enqueues after the owner set the token and before it waits. *)
Definition parked_state : park_t :=
  match owner_steps 4 park_init with Some s => s | None => park_init end.
Definition late_state : park_t :=
  match owner_steps 1 (enqueue 1 Remote 9 parked_state) with Some s => write_eventfd 1 (exchange 1 s) | None => park_init end.

Lemma no_lost_wakeup_witness : owner late_state = Waiting /\ remote_tasks_ late_state = [9] /\ exists s', owner_steps 4 late_state = Some s' /\ harvested s' ≡ₚ [9].
Proof.
  assert (R : rtc park_step park_init late_state).
  { do 4 (eapply rtc_l; [eapply (ps_owner _ false true); reflexivity|]). eapply rtc_l; [apply (ps_enqueue _ 1%nat Remote 9); reflexivity|].
    eapply rtc_l; [eapply (ps_owner _ false true); reflexivity|]. eapply rtc_l; [apply (ps_exchange _ 1%nat); reflexivity|]. eapply rtc_l; [apply (ps_write _ 1%nat); reflexivity|]. apply rtc_refl. }
  destruct (no_lost_wakeup late_state R) as (_ & _ & H3). split; [reflexivity|]. split; [reflexivity|].
  destruct H3 as (s' & E & P & Hs); [reflexivity|left; discriminate| |exists s'; split; [exact E|]; by rewrite P, Hs].
  intros p. unfold late_state, parked_state. cbn. unfold producer_at. simpl. destruct (decide (p = 1%nat)) as [->|Hp]; [reflexivity|]. rewrite !lookup_insert_ne by done. reflexivity.
Defined.

(** A call of [wakeup] without an enqueue, as [stop] makes, in the window
    between the owner's look at the state and its token leaves the owner
    waiting for the timeout. *)
Lemma stop_before_token_waits :
  match owner_steps 5 (exchange 1 (set_producer 1 Enqueued (mk_park HarvestRemote false false [] [] ∅ [] []))) with
  | Some s => owner s = Waiting /\ owner_step false true s = None /\ producer_at s 1 = Outside
  | None => False
  end.
Proof. by vm_compute. Qed.
