(* ===== verification/Context.v ===== *)
(** * The life of a context

    The state machine of [context_t]: src/include/cornet/scheduling/context.h
    and src/src/context.cc ([run], [stop], [shutdown], the cancel sweep), with
    the start of a worker of [runtime_t] (src/src/runtime.cc).  The owner thread
    runs the loop; any other thread may call [stop] or [shutdown], whose atomic
    accesses to [state_] interleave with the owner's.  [keep_alive_] is a plain
    bool in the code; its accesses are taken as atomic here. *)

From stdpp Require Import prelude gmap list fin_maps relations.
From Stdlib Require Import ZArith Lia.
From S2P Require Import Prelude.

(** ** State *)

Inductive state_t := Running | Draining | Canceling | Terminated.
#[export] Instance state_eq_dec : EqDecision state_t.
Proof. solve_decision. Defined.

(** Where the owner is: before the first [run], in the loop, or after it (from
    where [run] may be called again). *)
Inductive owner_pc := Before | InLoop | After.
#[export] Instance owner_eq_dec : EqDecision owner_pc.
Proof. solve_decision. Defined.

(** A thread inside [stop] or [shutdown], at its next access; [seen] is what
    the first compare-exchange found.  [DrainTimer] is the coroutine that
    [shutdown] spawns.  [era] remembers how often [run] had been entered when
    the call began. *)
Inductive caller_pc :=
| StopKeep | StopFirst (era : nat) | StopSecond (era : nat) (seen : state_t) | StopDone (era : nat)
| ShutKeep | ShutFirst (era : nat) | ShutSecond (era : nat) | ShutDone (era : nat) | DrainTimer (era : nat).

Record context_t := mk_context {
  state_ : state_t; keep_alive_ : bool; cancel_inflight_ : bool; sweeps : nat; owner : owner_pc; runs : nat; callers : gmap nat caller_pc
}.
Implicit Types s : context_t.

Definition set_state (x : state_t) s := mk_context x (keep_alive_ s) (cancel_inflight_ s) (sweeps s) (owner s) (runs s) (callers s).
Definition set_keep_alive (b : bool) s := mk_context (state_ s) b (cancel_inflight_ s) (sweeps s) (owner s) (runs s) (callers s).
Definition set_owner (o : owner_pc) s := mk_context (state_ s) (keep_alive_ s) (cancel_inflight_ s) (sweeps s) o (runs s) (callers s).
Definition set_caller (c : nat) (pc : caller_pc) s := mk_context (state_ s) (keep_alive_ s) (cancel_inflight_ s) (sweeps s) (owner s) (runs s) (<[c := pc]> (callers s)).

(** [compare_exchange_strong]: the state found, which is [old] on success. *)
Definition cas (old new : state_t) s : context_t * state_t := (if decide (state_ s = old) then set_state new s else s, state_ s).

(** ** The owner *)

Definition user_idle (tracker_user_idle : bool) s : bool := if keep_alive_ s then false else tracker_user_idle.
Definition idle (tracker_idle : bool) s : bool := if keep_alive_ s then false else tracker_idle.

(** [run] begins, the first time or again. *)
Definition run_begin s : context_t :=
  let s := (cas Terminated Running s).1 in
  mk_context (state_ s) (keep_alive_ s) (cancel_inflight_ s) (sweeps s) InLoop (S (runs s)) (callers s).

(** The head of the loop when it goes on: start a sweep if one is due. *)
Definition run_sweep s : context_t :=
  if bool_decide (state_ s = Canceling) && negb (cancel_inflight_ s)
  then mk_context (state_ s) (keep_alive_ s) true (S (sweeps s)) (owner s) (runs s) (callers s)
  else s.

Definition run_after_sched (tracker_user_idle : bool) s : context_t := if user_idle tracker_user_idle s then set_state Canceling s else s.

Definition run_end s : context_t := set_owner After (set_state Terminated s).

(** The end of [cancel_sweep]. *)
Definition sweep_done s : context_t := mk_context (state_ s) (keep_alive_ s) false (pred (sweeps s)) (owner s) (runs s) (callers s).

(** ** The callers, one access at a time *)

Definition caller_step (c : nat) (pc : caller_pc) s : context_t :=
  match pc with
  | StopKeep => set_caller c (StopFirst (runs s)) (set_keep_alive false s)
  | StopFirst era =>
      let (s, found) := cas Running Canceling s in
      set_caller c (match found with Draining | Terminated => StopSecond era found | _ => StopDone era end) s
  | StopSecond era seen => set_caller c (StopDone era) (cas seen Canceling s).1
  | StopDone _ => s
  | ShutKeep => set_caller c (ShutFirst (runs s)) (set_keep_alive false s)
  | ShutFirst era =>
      let (s, found) := cas Running Draining s in
      set_caller c (match found with Running => DrainTimer (runs s) | _ => ShutSecond era end) s
  | ShutSecond era => set_caller c (ShutDone era) (cas Terminated Canceling s).1
  | ShutDone _ => s
  | DrainTimer era => set_caller c (ShutDone era) (cas Draining Canceling s).1
  end.

Definition new_context : context_t := mk_context Terminated false false 0 Before 0 ∅.

Inductive context_step : context_t -> context_t -> Prop :=
| cs_keep s b : owner s <> InLoop -> context_step s (set_keep_alive b s)
| cs_begin s : owner s <> InLoop -> context_step s (run_begin s)
| cs_sweep s tracker_idle : owner s = InLoop -> idle tracker_idle s = false -> context_step s (run_sweep s)
| cs_sched s b : owner s = InLoop -> context_step s (run_after_sched b s)
| cs_sweep_done s : owner s = InLoop -> cancel_inflight_ s = true -> context_step s (sweep_done s)
| cs_end s : owner s = InLoop -> idle true s = true -> context_step s (run_end s)
| cs_stop s c : callers s !! c = None -> context_step s (set_caller c StopKeep s)
| cs_shutdown s c : callers s !! c = None -> context_step s (set_caller c ShutKeep s)
| cs_caller s c pc : callers s !! c = Some pc -> context_step s (caller_step c pc s)
| cs_timer_cancelled s c era : callers s !! c = Some (DrainTimer era) -> context_step s (set_caller c (ShutDone era) s).

(** ** The invariant *)

(** The states the owner's phase allows. *)
Definition phase_ok (o : owner_pc) (x : state_t) : Prop := match o with InLoop => x <> Terminated | _ => x = Terminated \/ x = Canceling end.

Definition era_of (pc : caller_pc) : nat :=
  match pc with
  | StopKeep | ShutKeep => 0
  | StopFirst e | StopSecond e _ | StopDone e | ShutFirst e | ShutSecond e | ShutDone e | DrainTimer e => e
  end.

(** What a call that began in the current run, or after it has ended, has
    achieved; nothing is said of one that began before [run] was last entered. *)
Definition caller_ok (x : state_t) (o : owner_pc) (pc : caller_pc) : Prop :=
  match pc with
  | StopSecond _ seen => x <> Running /\ (seen = Draining \/ (seen = Terminated /\ o = After))
  | StopDone _ => x = Canceling \/ x = Terminated
  | DrainTimer _ | ShutSecond _ | ShutDone _ => x <> Running
  | _ => True
  end.

Record context_ok s : Prop := {
  c_phase : phase_ok (owner s) (state_ s);
  c_runs : owner s = Before <-> runs s = O;
  c_eras : forall c pc, callers s !! c = Some pc -> (era_of pc <= runs s)%nat;
  c_callers : forall c pc, callers s !! c = Some pc -> era_of pc = runs s -> runs s <> O -> caller_ok (state_ s) (owner s) pc;
  c_sweeps : sweeps s = if cancel_inflight_ s then 1%nat else 0%nat
}.

(** A call that ended is not undone: the state only moves forward while the
    run goes on and after it. *)
Definition forward (x y : state_t) : Prop :=
  match x with Running => True | Draining => y <> Running | Canceling | Terminated => y = Canceling \/ y = Terminated end.
Lemma caller_forward x y o o' pc : caller_ok x o pc -> forward x y -> (o = After -> o' = After) -> caller_ok y o' pc.
Proof. destruct pc as [| |e seen| | | | | |]; simpl; try done; destruct x; simpl; intuition (subst; simpl in *; intuition congruence). Qed.

(** The owner moves within a run; the callers stand where they are. *)
Lemma owner_moves s s' : context_ok s -> callers s' = callers s -> runs s' = runs s -> (owner s' = Before <-> owner s = Before) -> phase_ok (owner s') (state_ s') ->
  (owner s <> Before -> forward (state_ s) (state_ s')) -> (owner s = After -> owner s' = After) -> sweeps s' = (if cancel_inflight_ s' then 1%nat else 0%nat) -> context_ok s'.
Proof.
  intros [P R E C _] Hc Hr Ho Hp Hf Ha Hs. split; rewrite ?Hr, ?Hc; try done; [by rewrite Ho|]. intros c pc Hpc He Hn.
  apply (caller_forward (state_ s) _ (owner s)); [by apply (C c)| |done]. apply Hf. by rewrite R.
Qed.

(** A caller moves to [pc'], with the state at [y]. *)
Lemma caller_moves s c pc' y b : context_ok s -> phase_ok (owner s) y -> (owner s <> Before -> forward (state_ s) y) ->
  (era_of pc' <= runs s)%nat -> (era_of pc' = runs s -> owner s <> Before -> caller_ok y (owner s) pc') ->
  context_ok (set_caller c pc' (mk_context y b (cancel_inflight_ s) (sweeps s) (owner s) (runs s) (callers s))).
Proof.
  intros [P R E C S] Hp Hf He Hpc. split; simpl; try done.
  - intros d pc Hd. apply lookup_insert_Some in Hd as [[_ <-]|[_ Hd]]; [done|by apply (E d)].
  - intros d pc Hd Hera Hn. apply lookup_insert_Some in Hd as [[_ <-]|[_ Hd]]; [apply Hpc; [done|by rewrite R]|].
    apply (caller_forward (state_ s) y (owner s)); [by apply (C d)| |done]. apply Hf. by rewrite R.
Qed.

Lemma forward_refl x : forward x x.
Proof. destruct x; simpl; intuition congruence. Qed.
Lemma cas_eq old new s : cas old new s = (mk_context (if decide (state_ s = old) then new else state_ s) (keep_alive_ s) (cancel_inflight_ s) (sweeps s) (owner s) (runs s) (callers s), state_ s).
Proof. unfold cas. destruct s as [x k cf sw o r cl]. simpl. by destruct (decide (x = old)). Qed.

Lemma caller_step_ok s c pc : context_ok s -> callers s !! c = Some pc -> context_ok (caller_step c pc s).
Proof.
  intros O E. pose proof (c_eras _ O c pc E) as He. pose proof (c_callers _ O c pc E) as Hc. pose proof (c_phase _ O) as Hp. pose proof (c_runs _ O) as Hr.
  assert (Hk : forall pc', (era_of pc' <= runs s)%nat -> (era_of pc' = runs s -> owner s <> Before -> caller_ok (state_ s) (owner s) pc') ->
    context_ok (set_caller c pc' (set_keep_alive false s))).
  { intros pc' H1 H2. apply caller_moves; [done|done|intros _; apply forward_refl|done|done]. }
  destruct pc as [|e|e seen|e| |e|e|e|e]; cbn [caller_step]; try done; rewrite ?cas_eq; try (apply Hk; simpl; [lia|done]);
    apply caller_moves; try done; cbn [era_of] in *; destruct (state_ s) eqn:Ex, (owner s) eqn:Eo; try destruct seen; simpl in *; try lia; intuition congruence.
Qed.

(** A new run makes every earlier call one of the past. *)
Lemma run_begin_ok s : context_ok s -> owner s <> InLoop -> context_ok (run_begin s).
Proof.
  intros O Ho. pose proof (c_phase _ O) as Hp. pose proof (c_eras _ O) as He. unfold run_begin. rewrite cas_eq. split; simpl; try done.
  - destruct (decide (state_ s = Terminated)); [done|]. destruct (owner s); simpl in Hp; [|done|]; by destruct Hp as [?| ->].
  - intros c pc Hpc. specialize (He c pc Hpc). lia.
  - intros c pc Hpc Hera. specialize (He c pc Hpc). lia.
  - apply O.
Qed.

Lemma context_step_ok s s' : context_ok s -> context_step s s' -> context_ok s'.
Proof.
  intros O St. pose proof (c_phase _ O) as Hp. pose proof (c_sweeps _ O) as Hs. pose proof (c_runs _ O) as Hr.
  destruct St as [s b Ho|s Ho|s ti Ho Hi|s b Ho|s Ho Hc|s Ho Hi|s c Hc|s c Hc|s c pc Hc|s c e Hc].
  - apply (owner_moves s); try done. intros _. apply forward_refl.
  - by apply run_begin_ok.
  - unfold run_sweep. destruct (bool_decide_reflect (state_ s = Canceling)) as [Ex|Ex]; simpl; [|done]. destruct (cancel_inflight_ s) eqn:Ec; simpl; [done|].
    apply (owner_moves s); simpl; try done; [intros _; apply forward_refl|by rewrite Hs].
  - unfold run_after_sched. destruct (user_idle b s); [|done]. apply (owner_moves s); simpl; try done; [by rewrite Ho|]. intros _. destruct (state_ s); simpl; intuition congruence.
  - apply (owner_moves s); simpl; try done; [intros _; apply forward_refl|by rewrite Hs, Hc].
  - apply (owner_moves s); simpl; try done; [by rewrite Ho|by left|]. intros _. destruct (state_ s); simpl; intuition congruence.
  - destruct s as [x k cf sw o r cl]. apply (caller_moves (mk_context x k cf sw o r cl) c StopKeep x k); simpl in *; try done; [intros _; apply forward_refl|lia].
  - destruct s as [x k cf sw o r cl]. apply (caller_moves (mk_context x k cf sw o r cl) c ShutKeep x k); simpl in *; try done; [intros _; apply forward_refl|lia].
  - by apply caller_step_ok.
  - pose proof (c_callers _ O c _ Hc) as Hd. pose proof (c_eras _ O c _ Hc) as He. destruct s as [x k cf sw o r cl].
    apply (caller_moves (mk_context x k cf sw o r cl) c (ShutDone e) x k); simpl in *; try done; [intros _; apply forward_refl|]. intros He' Ho. apply Hd; [done|]. by rewrite <- Hr.
Qed.

Lemma context_reach_ok s : rtc context_step new_context s -> context_ok s.
Proof.
  revert s. apply (rtc_ind_r (fun s => context_ok s)); [|intros s1 s2 _ St O; by apply (context_step_ok s1)].
  split; simpl; try done. by left.
Qed.

(** C27: However calls of [stop] and [shutdown] from other threads interleave
    with the loop, and however often [run] is called again after it returned:
    at most one cancel sweep is in flight; the loop is never in state
    Terminated; a [stop] that began while a run was going on, or after it
    ended, leaves the context Canceling or Terminated when it returns and
    until [run] is called again, and a [shutdown] never leaves it Running
    until then. *)
Theorem context_stop_sticks s : rtc context_step new_context s ->
  (sweeps s <= 1)%nat /\ (owner s = InLoop -> state_ s <> Terminated) /\
  (forall c, callers s !! c = Some (StopDone (runs s)) -> runs s <> O -> state_ s = Canceling \/ state_ s = Terminated) /\
  (forall c, callers s !! c = Some (DrainTimer (runs s)) \/ callers s !! c = Some (ShutDone (runs s)) -> runs s <> O -> state_ s <> Running).
Proof.
  intros O%context_reach_ok. split_and!.
  - rewrite (c_sweeps _ O). destruct (cancel_inflight_ s); lia.
  - intros Ho. pose proof (c_phase _ O) as Hp. by rewrite Ho in Hp.
  - intros c E Hn. by apply (c_callers _ O c _ E).
  - intros c [E|E] Hn; by apply (c_callers _ O c _ E).
Qed.

(** A running context is stopped, then a second thread shuts it down. *)
Definition stopped_running : context_t :=
  let s := run_begin new_context in
  let s := set_caller 1 StopKeep s in
  let s := caller_step 1 StopKeep s in
  let s := caller_step 1 (StopFirst 1) s in
  let s := set_caller 2 ShutKeep s in
  let s := caller_step 2 ShutKeep s in
  let s := caller_step 2 (ShutFirst 1) s in
  caller_step 2 (ShutSecond 1) s.

Lemma context_stop_sticks_witness : state_ stopped_running = Canceling /\ (state_ stopped_running = Canceling \/ state_ stopped_running = Terminated) /\ state_ stopped_running <> Running.
Proof.
  assert (R : rtc context_step new_context stopped_running).
  { eapply rtc_l; [apply cs_begin; discriminate|]. eapply rtc_l; [apply (cs_stop _ 1%nat); reflexivity|]. do 2 (eapply rtc_l; [apply (cs_caller _ 1%nat); reflexivity|]).
    eapply rtc_l; [apply (cs_shutdown _ 2%nat); reflexivity|]. do 3 (eapply rtc_l; [apply (cs_caller _ 2%nat); reflexivity|]). apply rtc_refl. }
  destruct (context_stop_sticks stopped_running R) as (_ & _ & H3 & H4). split; [reflexivity|]. split; [apply (H3 1%nat); [reflexivity|discriminate]|apply (H4 2%nat); [right; reflexivity|discriminate]].
Defined.

(** ** Calls that race with the start *)

(** [stop] finds Terminated, [run] starts, and the second compare-exchange of
    [stop] finds Running: the call returns and the context runs on. *)
Definition stop_races_run : context_t :=
  let s := set_caller 1 StopKeep new_context in
  let s := caller_step 1 StopKeep s in
  let s := caller_step 1 (StopFirst 0) s in
  let s := run_begin s in
  caller_step 1 (StopSecond 0 Terminated) s.

Lemma stop_lost : rtc context_step new_context stop_races_run /\ callers stop_races_run !! 1%nat = Some (StopDone 0) /\ state_ stop_races_run = Running.
Proof.
  split; [|split; reflexivity]. eapply rtc_l; [apply (cs_stop _ 1%nat); reflexivity|]. do 2 (eapply rtc_l; [apply (cs_caller _ 1%nat); reflexivity|]).
  eapply rtc_l; [apply cs_begin; discriminate|]. eapply rtc_l; [apply (cs_caller _ 1%nat); reflexivity|]. apply rtc_refl.
Qed.

(** [stop] on a context whose loop has ended takes it out of Terminated. *)
Lemma stop_unterminates s c : owner s = After -> state_ s = Terminated ->
  state_ (caller_step c (StopSecond (runs s) Terminated) (caller_step c (StopFirst (runs s)) (caller_step c StopKeep s))) = Canceling.
Proof. intros _ Ex. destruct s as [x k cf sw o r cl]. simpl in *. by subst. Qed.

(** A context that was stopped and whose loop has ended runs again, from
    Terminated to Running. *)
Definition run_again : context_t := run_begin (run_end stopped_running).

Lemma stop_until_next_run : rtc context_step stopped_running run_again /\ callers run_again !! 1%nat = Some (StopDone 1) /\ runs run_again = 2%nat /\ state_ run_again = Running.
Proof.
  split; [|done]. eapply rtc_l; [apply cs_end; reflexivity|]. eapply rtc_l; [apply cs_begin; discriminate|]. apply rtc_refl.
Qed.

(** A worker of the runtime sets keep-alive after an early [stop]: the loop
    finds the context Canceling and never idle. *)
Lemma keepalive_after_stop_spins ti s : keep_alive_ s = true -> idle ti s = false /\ keep_alive_ (run_sweep s) = true /\ keep_alive_ (run_after_sched ti s) = true.
Proof.
  intros Hk. unfold idle, run_sweep, run_after_sched, user_idle. rewrite Hk. split; [done|]. split; [by destruct (_ && _)|done].
Qed.
