(* ===== verification/Executor.v ===== *)
(** * The executor and its awaiters

    [executor_t] of src/executor.cc with the tasks of
    include/cornet/coroutine/atask.h, the awaiter [async_awaiter] of
    include/cornet/scheduling/context.h, the harvest of src/scheduler.cc, and
    the futures of include/cornet/scheduling/runtime.h.

    The owner thread and the workers interleave at the operations on the two
    queues and at the calls of the tasks.  A queue hands out its elements in any
    order; whether it has room is an argument.  A callable is what it does when
    it is called: return a value or throw. *)

From stdpp Require Import prelude gmap list list_numbers.
From Stdlib Require Import ZArith Lia.
From S2P Require Import Prelude.
Open Scope Z_scope.

(** ** Tasks *)

Inductive exn_t := User (n : Z) | QueueFull.
Inductive ending := Value (v : Z) | Raised (x : exn_t).
Inductive callable := Returns (v : Z) | Throws (n : Z).
Definition ending_of (f : callable) : ending := match f with Returns v => Value v | Throws n => Raised (User n) end.

(** [async_task_t]; [runs] counts the calls of the callable. *)
Record atask_t := mk_task { handle : option Z; exception : option exn_t; result_ : option Z; func_ : callable; runs : nat }.
Definition new_task (f : callable) : atask_t := mk_task None None None f 0.
Definition set_handle (h : option Z) (t : atask_t) := mk_task h (exception t) (result_ t) (func_ t) (runs t).
Definition set_exception (x : exn_t) (t : atask_t) := mk_task (handle t) (Some x) (result_ t) (func_ t) (runs t).

(** [fn]: what a worker calls. *)
Definition fn (t : atask_t) : atask_t :=
  match func_ t with
  | Returns v => mk_task (handle t) (exception t) (Some v) (func_ t) (S (runs t))
  | Throws n => mk_task (handle t) (Some (User n)) (result_ t) (func_ t) (S (runs t))
  end.

(** ** State *)

Record async_awaiter := mk_awaiter { frame : Z; submitted_ : bool; resumed_ : bool }.

(** A worker: at the test of [terminated], in the timed wait, running the tasks
    it dequeued (those it ran, those to run), about to wake the owner, gone. *)
Inductive worker_pc := WTest | WWait | WRun (ran todo : list nat) | WWake | WExit.
Inductive owner_pc := OLoop | OJoin | ODrain | OPut (x : nat) | ODone.

(** [ready]: the handles the executor's side scheduled, with the task they wait
    for.  The rest is history: the tasks handed back, the answers awaits got, the
    frames destroyed while scheduled, and those resumed all the same. *)
Record exec_t := mk_exec {
  tasks : gmap nat atask_t; awaiters : gmap nat async_awaiter; pending_tasks : list nat; completed_tasks : list nat;
  workers : list worker_pc; owner : owner_pc; terminated : bool; cpu_ : Z; ready : list (Z * nat);
  collected : list nat; answers : list (nat * ending); late : list nat; dead : list nat
}.
Definition executor : exec_t := mk_exec ∅ ∅ [] [] [] OLoop false 0 [] [] [] [] [].

Definition with_tasks ts aw s := mk_exec ts aw (pending_tasks s) (completed_tasks s) (workers s) (owner s) (terminated s) (cpu_ s) (ready s) (collected s) (answers s) (late s) (dead s).
Definition with_queues p c n s := mk_exec (tasks s) (awaiters s) p c (workers s) (owner s) (terminated s) n (ready s) (collected s) (answers s) (late s) (dead s).
Definition with_workers ws s := mk_exec (tasks s) (awaiters s) (pending_tasks s) (completed_tasks s) ws (owner s) (terminated s) (cpu_ s) (ready s) (collected s) (answers s) (late s) (dead s).
Definition with_owner o b s := mk_exec (tasks s) (awaiters s) (pending_tasks s) (completed_tasks s) (workers s) o b (cpu_ s) (ready s) (collected s) (answers s) (late s) (dead s).
Definition with_ready r s := mk_exec (tasks s) (awaiters s) (pending_tasks s) (completed_tasks s) (workers s) (owner s) (terminated s) (cpu_ s) r (collected s) (answers s) (late s) (dead s).
Definition with_history c a l d s := mk_exec (tasks s) (awaiters s) (pending_tasks s) (completed_tasks s) (workers s) (owner s) (terminated s) (cpu_ s) (ready s) c a l d.

(** Taking these elements out of a queue. *)
Fixpoint remove1 (x : nat) (q : list nat) : option (list nat) :=
  match q with
  | [] => None
  | y :: q => if decide (x = y) then Some q else match remove1 x q with Some q => Some (y :: q) | None => None end
  end.
Fixpoint dequeue (xs q : list nat) : option (list nat) :=
  match xs with [] => Some q | x :: xs => match remove1 x q with Some q => dequeue xs q | None => None end end.

(** ** The owner thread *)

Definition ensure_workers (thread_nr_ : nat) s : exec_t :=
  match workers s with [] => with_workers (replicate thread_nr_ WTest) s | _ => s end.

(** [sz]: what [size_approx] returned; [room]: whether [try_enqueue] had room. *)
Definition add (thread_nr_ : nat) (max_task_nr sz : Z) (room : bool) (id : nat) s : exec_t * bool :=
  let s := ensure_workers thread_nr_ s in
  if max_task_nr <? sz then (s, false)
  else if room then (with_queues (pending_tasks s ++ [id]) (completed_tasks s) (u32 (cpu_ s + 1)) s, true)
  else (s, false).

Definition update (f : atask_t -> atask_t) (id : nat) s : exec_t := with_tasks (alter f id (tasks s)) (awaiters s) s.

(** [co_await ctx.async(f)] up to its suspension. *)
Definition await_suspend (thread_nr_ : nat) (max_task_nr sz : Z) (room : bool) (id : nat) (h : Z) (f : callable) s : exec_t :=
  let s := with_tasks (<[id := set_handle (Some h) (new_task f)]> (tasks s)) (<[id := mk_awaiter h true false]> (awaiters s)) s in
  let (s, ok) := add thread_nr_ max_task_nr sz room id s in
  if ok then s else let s := update (set_exception QueueFull) id s in with_ready (ready s ++ [(h, id)]) s.

Definition get_completed (xs q : list nat) s : exec_t :=
  with_history (collected s ++ xs) (answers s) (late s) (dead s)
    (with_queues (pending_tasks s) q (u32 (cpu_ s - Z.of_nat (length xs))) s).

Definition schedule_completed (id : nat) s : exec_t :=
  match tasks s !! id with
  | Some t => match handle t with Some h => with_ready (ready s ++ [(h, id)]) s | None => s end
  | None => s
  end.
(** One round of [harvest_async]. *)
Definition harvest (xs q : list nat) s : exec_t := foldl (fun s id => schedule_completed id s) (get_completed xs q s) xs.

Definition await_resume (t : atask_t) : ending :=
  match exception t with Some x => Raised x | None => Value (default 0 (result_ t)) end.

(** The destructor of the awaiter. *)
Definition destroy_awaiter (a : async_awaiter) (id : nat) s : exec_t :=
  let s := if submitted_ a && negb (resumed_ a) then update (set_handle None) id s else s in
  with_tasks (tasks s) (delete id (awaiters s)) s.

(** The front of the ready queue is resumed: the await ends, its awaiter is
    destroyed; [dead] notes a frame that is gone. *)
Definition resume_front s : option exec_t :=
  match ready s with
  | [] => None
  | (h, id) :: r =>
      let s := with_ready r s in
      match awaiters s !! id, tasks s !! id with
      | Some a, Some t =>
          Some (destroy_awaiter (mk_awaiter (frame a) (submitted_ a) true) id
                  (with_history (collected s) (answers s ++ [(id, await_resume t)]) (late s) (dead s) s))
      | _, _ => Some (with_history (collected s) (answers s) (late s) (dead s ++ [id]) s)
      end
  end.

(** The frame that awaits task [id] is destroyed. *)
Definition kill (id : nat) s : option exec_t :=
  match awaiters s !! id with
  | Some a =>
      let s := if bool_decide (id ∈ (ready s).*2) then with_history (collected s) (answers s) (late s ++ [id]) (dead s) s else s in
      Some (destroy_awaiter a id s)
  | None => None
  end.

(** ** Workers and the steps *)

Inductive op :=
| Await (id : nat) (h : Z) (f : callable) (sz : Z) (room : bool) | Harvest (xs : list nat) | Resume | Kill (id : nat)
| Terminate | Joined | Drain (x : nat) | DrainPut | DrainEnd
| Test_ (i : nat) | Take (i : nat) (xs : list nat) | RunOne (i : nat) | Put (i : nat) | Wake (i : nat).

Definition to_worker (i : nat) (w : worker_pc) s : exec_t := with_workers (<[i := w]> (workers s)) s.

Definition worker_step (o : op) s : option exec_t :=
  match o with
  | Test_ i => match workers s !! i with Some WTest => Some (to_worker i (if terminated s then WExit else WWait) s) | _ => None end
  | Take i xs =>
      match workers s !! i, dequeue xs (pending_tasks s) with
      | Some WWait, Some p =>
          if (length xs <=? 8)%nat
          then Some (with_queues p (completed_tasks s) (cpu_ s) (to_worker i (match xs with [] => WTest | _ => WRun [] xs end) s))
          else None
      | _, _ => None
      end
  | RunOne i => match workers s !! i with Some (WRun ran (x :: todo)) => Some (update fn x (to_worker i (WRun (ran ++ [x]) todo) s)) | _ => None end
  | Put i =>
      match workers s !! i with
      | Some (WRun ran []) => Some (with_queues (pending_tasks s) (completed_tasks s ++ ran) (cpu_ s) (to_worker i WWake s))
      | _ => None
      end
  | Wake i => match workers s !! i with Some WWake => Some (to_worker i WTest s) | _ => None end
  | _ => None
  end.

(** [terminate] of the destructors: join, then drain. *)
Definition terminate_step (o : op) s : option exec_t :=
  match o, owner s with
  | Terminate, OLoop => Some (if terminated s then s else with_owner OJoin true s)
  | Joined, OJoin => if forallb (fun w => match w with WExit => true | _ => false end) (workers s) then Some (with_owner ODrain true s) else None
  | Drain x, ODrain => match dequeue [x] (pending_tasks s) with Some p => Some (update fn x (with_owner (OPut x) true (with_queues p (completed_tasks s) (cpu_ s) s))) | None => None end
  | DrainPut, OPut x => Some (with_owner ODrain true (with_queues (pending_tasks s) (completed_tasks s ++ [x]) (cpu_ s) s))
  | DrainEnd, ODrain => match pending_tasks s with [] => Some (with_owner ODone true s) | _ => None end
  | _, _ => None
  end.

Definition exec_step (thread_nr_ : nat) (max_task_nr : Z) (o : op) s : option exec_t :=
  match o with
  | Await id h f sz room =>
      match owner s, tasks s !! id with OLoop, None => Some (await_suspend thread_nr_ max_task_nr sz room id h f s) | _, _ => None end
  | Harvest xs =>
      match owner s, dequeue xs (completed_tasks s) with
      | OLoop, Some q => if (length xs <=? 32)%nat then Some (harvest xs q s) else None
      | _, _ => None
      end
  | Resume => match owner s with OLoop => resume_front s | _ => None end
  | Kill id => match owner s with OLoop => kill id s | _ => None end
  | Terminate | Joined | Drain _ | DrainPut | DrainEnd => terminate_step o s
  | _ => worker_step o s
  end.

Fixpoint exec_run (thread_nr_ : nat) (max_task_nr : Z) (l : list op) s : option exec_t :=
  match l with [] => Some s | o :: l => match exec_step thread_nr_ max_task_nr o s with Some s => exec_run thread_nr_ max_task_nr l s | None => None end end.

(** ** Where tasks are *)

Definition todo_of (w : worker_pc) : list nat := match w with WRun _ todo => todo | _ => [] end.
Definition ran_of (w : worker_pc) : list nat := match w with WRun ran _ => ran | _ => [] end.
Definition put_of (o : owner_pc) : list nat := match o with OPut x => [x] | _ => [] end.

Definition todo s : list nat := pending_tasks s ++ concat (todo_of <$> workers s).
Definition ran s : list nat := concat (ran_of <$> workers s) ++ put_of (owner s) ++ completed_tasks s.

Definition untouched (t : atask_t) : Prop := runs t = O /\ exception t = None /\ result_ t = None.
Definition settled (t : atask_t) : Prop := runs t = 1%nat /\ await_resume t = ending_of (func_ t).
Definition refused (t : atask_t) : Prop := runs t = O /\ exception t = Some QueueFull.

(** The books on the tasks to run, run and handed back. *)
Record books (ts : gmap nat atask_t) (T R C : list nat) (cpu : Z) : Prop := {
  bk_nodup : NoDup (T ++ R ++ C);
  bk_todo : forall id, id ∈ T -> exists t, ts !! id = Some t /\ untouched t;
  bk_ran : forall id, id ∈ R ++ C -> exists t, ts !! id = Some t /\ settled t;
  bk_all : forall id t, ts !! id = Some t -> id ∈ T ++ R ++ C \/ refused t;
  bk_cpu : cpu = u32 (Z.of_nat (length (T ++ R)))
}.

(** The awaits: [F] are the tasks in flight. *)
Record waits (ts : gmap nat atask_t) (aw : gmap nat async_awaiter) (rd : list (Z * nat)) (ans : list (nat * ending)) (lt dd F C : list nat) : Prop := {
  wt_flight : forall id t, id ∈ F -> ts !! id = Some t ->
    match handle t with Some h => aw !! id = Some (mk_awaiter h true false) | None => aw !! id = None end;
  wt_ready : forall h id, (h, id) ∈ rd -> aw !! id = Some (mk_awaiter h true false) \/ (aw !! id = None /\ id ∈ lt);
  wt_past : forall id, id ∈ rd.*2 ++ ans.*1 ++ dd -> id ∈ C \/ exists t, ts !! id = Some t /\ refused t;
  wt_once : NoDup (rd.*2 ++ ans.*1 ++ dd);
  wt_live : forall id, is_Some (aw !! id) -> is_Some (ts !! id) /\ (id ∈ F \/ id ∈ rd.*2);
  wt_gone : forall id, id ∈ ans.*1 ++ dd -> aw !! id = None;
  wt_exact : forall id e, (id, e) ∈ ans -> exists t, ts !! id = Some t /\ (id ∈ C /\ e = ending_of (func_ t) \/ refused t /\ e = Raised QueueFull);
  wt_dead : forall id, id ∈ dd -> id ∈ lt
}.

Record exec_ok s : Prop := {
  ok_books : books (tasks s) (todo s) (ran s) (collected s) (cpu_ s);
  ok_waits : waits (tasks s) (awaiters s) (ready s) (answers s) (late s) (dead s) (todo s ++ ran s) (collected s);
  ok_exit : match owner s with ODrain | OPut _ | ODone => Forall (eq WExit) (workers s) | _ => True end;
  ok_done : owner s = ODone -> pending_tasks s = []
}.

Lemma remove1_perm x q q' : remove1 x q = Some q' -> q ≡ₚ x :: q'.
Proof.
  revert q'. induction q as [|y q IH]; intros q'; simpl; [done|]. destruct (decide (x = y)) as [->|]; [by intros [= ->]|].
  destruct (remove1 x q) as [r|]; [|done]. intros [= <-]. rewrite (IH r eq_refl). apply Permutation_swap.
Qed.
Lemma dequeue_perm xs q q' : dequeue xs q = Some q' -> q ≡ₚ xs ++ q'.
Proof.
  revert q. induction xs as [|x xs IH]; intros q; simpl; [by intros [= ->]|]. destruct (remove1 x q) as [r|] eqn:Hr; [|done].
  intros Hd. rewrite (remove1_perm _ _ _ Hr), (IH _ Hd). done.
Qed.

#[export] Instance books_perm : Proper (eq ==> (≡ₚ) ==> (≡ₚ) ==> (≡ₚ) ==> eq ==> impl) books.
Proof.
  intros ts ? <- T T' HT R R' HR C C' HC cpu ? <- [B1 B2 B3 B4 B5]. constructor.
  - by rewrite <- HT, <- HR, <- HC.
  - intros id. rewrite <- HT. apply B2.
  - intros id. rewrite <- HR, <- HC. apply B3.
  - intros id t. rewrite <- HT, <- HR, <- HC. apply B4.
  - rewrite B5. do 2 f_equal. by rewrite HT, HR.
Qed.

Lemma waits_flight ts aw rd ans lt dd F F' C : F ≡ₚ F' -> waits ts aw rd ans lt dd F C -> waits ts aw rd ans lt dd F' C.
Proof.
  intros HF [W1 W2 W3 W4 W5 W6 W7 W8]. constructor; try done.
  - intros id t. rewrite <- HF. apply W1.
  - intros id. rewrite <- HF. apply W5.
Qed.

(** Changing one worker. *)
Lemma concat_worker (f : worker_pc -> list nat) ws i w :
  ws !! i = Some w -> exists r, concat (f <$> ws) ≡ₚ f w ++ r /\ forall w', concat (f <$> <[i := w']> ws) ≡ₚ f w' ++ r.
Proof.
  intros Hi. exists (concat (f <$> take i ws) ++ concat (f <$> drop (S i) ws)). rewrite <- (take_drop_middle _ _ _ Hi) at 1. split.
  - rewrite fmap_app, fmap_cons, concat_app. simpl. solve_Permutation.
  - intros w'. rewrite (insert_take_drop _ _ _ (lookup_lt_Some _ _ _ Hi)), fmap_app, fmap_cons, concat_app. simpl. solve_Permutation.
Qed.

(** ** Keeping the books *)

Section Books.
Implicit Types (ts : gmap nat atask_t) (T R C : list nat).

Lemma fn_settles t : untouched t -> settled (fn t).
Proof. destruct t as [h x r f n]. intros (Hr & Hx & Hv). simpl in *. subst. unfold settled, fn, await_resume. by destruct f. Qed.
Lemma untouched_not_refused t : untouched t -> ~ refused t.
Proof. intros (_ & H1 & _) (_ & H2). congruence. Qed.
Lemma settled_not_refused t : settled t -> ~ refused t.
Proof. intros (H1 & _) (H2 & _). congruence. Qed.

Lemma books_in ts T R C n id : books ts T R C n -> id ∈ T ++ R ++ C -> exists t, ts !! id = Some t /\ ~ refused t.
Proof.
  intros B Hi. apply elem_of_app in Hi as [Hi|Hi].
  - destruct (bk_todo _ _ _ _ _ B id Hi) as (t & Ht & Hu). eauto using untouched_not_refused.
  - destruct (bk_ran _ _ _ _ _ B id Hi) as (t & Ht & Hu). eauto using settled_not_refused.
Qed.

Lemma books_run ts x T R C n : books ts (x :: T) R C n -> books (alter fn x ts) T (x :: R) C n.
Proof.
  intros [B1 B2 B3 B4 B5]. pose proof B1 as [Hx HN]%NoDup_cons. destruct (B2 x ltac:(by left)) as (t & Ht & Hu). constructor.
  - simpl. rewrite <- Permutation_middle. done.
  - intros id Hi. rewrite lookup_alter_ne by (intros ->; apply Hx; set_solver). apply B2. by right.
  - intros id Hi. destruct (decide (id = x)) as [->|Hne].
    + rewrite lookup_alter_eq, Ht. exists (fn t). split; [done|by apply fn_settles].
    + rewrite lookup_alter_ne by done. apply B3. set_solver.
  - intros id t'. destruct (decide (id = x)) as [->|Hne]; [left; set_solver|]. rewrite lookup_alter_ne by done. intros [Hi|]%B4; [left; set_solver|by right].
  - rewrite B5. do 2 f_equal. simpl. rewrite !length_app. simpl. lia.
Qed.

Lemma books_new ts T R C n id t : ts !! id = None -> books ts T R C n -> untouched t -> books (<[id := t]> ts) (T ++ [id]) R C (u32 (n + 1)).
Proof.
  intros Hn B Hu. assert (Hni : id ∉ T ++ R ++ C) by (intros Hi; destruct (books_in _ _ _ _ _ _ B Hi) as (? & ? & _); congruence).
  destruct B as [B1 B2 B3 B4 B5]. rewrite <- Permutation_cons_append. constructor.
  - simpl. by apply NoDup_cons.
  - intros x [->|Hx]%elem_of_cons; [rewrite lookup_insert_eq; by exists t|]. rewrite lookup_insert_ne by (intros ->; set_solver). by apply B2.
  - intros x Hx. rewrite lookup_insert_ne by (intros ->; set_solver). by apply B3.
  - intros x t'. destruct (decide (x = id)) as [->|Hne]; [left; set_solver|]. rewrite lookup_insert_ne by done. intros [Hi|]%B4; [left; set_solver|by right].
  - rewrite B5. simpl. unfold u32. rewrite Zplus_mod_idemp_l. f_equal. lia.
Qed.

Lemma books_refuse ts T R C n id t : ts !! id = None -> books ts T R C n -> refused t -> books (<[id := t]> ts) T R C n.
Proof.
  intros Hn B Hr. assert (Hni : id ∉ T ++ R ++ C) by (intros Hi; destruct (books_in _ _ _ _ _ _ B Hi) as (? & ? & _); congruence).
  destruct B as [B1 B2 B3 B4 B5]. constructor; try done.
  - intros x Hx. rewrite lookup_insert_ne by (intros ->; set_solver). by apply B2.
  - intros x Hx. rewrite lookup_insert_ne by (intros ->; set_solver). by apply B3.
  - intros x t'. destruct (decide (x = id)) as [->|Hne]; [rewrite lookup_insert_eq; intros [= <-]; by right|]. rewrite lookup_insert_ne by done. apply B4.
Qed.

Lemma books_collect ts T xs R C n : books ts T (xs ++ R) C n -> books ts T R (C ++ xs) (u32 (n - Z.of_nat (length xs))).
Proof.
  intros [B1 B2 B3 B4 B5]. constructor.
  - eapply NoDup_Permutation_proper; [|exact B1]. solve_Permutation.
  - done.
  - intros id Hi. apply B3. set_solver.
  - intros id t Ht. destruct (B4 id t Ht) as [Hi|]; [left; set_solver|by right].
  - rewrite B5. unfold u32. rewrite Zminus_mod_idemp_l. f_equal. rewrite !length_app. lia.
Qed.

Lemma books_handle ts T R C n h id : books ts T R C n -> books (alter (set_handle h) id ts) T R C n.
Proof.
  intros [B1 B2 B3 B4 B5]. constructor; try done.
  - intros x Hx. destruct (B2 x Hx) as (t & Ht & Hu). destruct (decide (x = id)) as [->|]; [|rewrite lookup_alter_ne by done; eauto]. rewrite lookup_alter_eq, Ht. by exists (set_handle h t).
  - intros x Hx. destruct (B3 x Hx) as (t & Ht & Hu). destruct (decide (x = id)) as [->|]; [|rewrite lookup_alter_ne by done; eauto]. rewrite lookup_alter_eq, Ht. by exists (set_handle h t).
  - intros x t. destruct (decide (x = id)) as [->|]; [|rewrite lookup_alter_ne by done; apply B4]. rewrite lookup_alter_eq. destruct (ts !! id) as [t0|] eqn:Ht; [|done].
    intros [= <-]. destruct (B4 id t0 Ht) as [|Hr]; [by left|by right].
Qed.
End Books.

Section Waits.
Implicit Types (ts : gmap nat atask_t) (aw : gmap nat async_awaiter) (F C lt dd : list nat).

(** The tasks an await reads, up to what it does not. *)
Definition alike ts ts' : Prop :=
  (forall id, is_Some (ts !! id) -> is_Some (ts' !! id)) /\
  forall id t', ts' !! id = Some t' -> exists t, ts !! id = Some t /\ func_ t' = func_ t /\ (refused t <-> refused t').

Lemma alike_past ts ts' id : alike ts ts' -> (exists t, ts !! id = Some t /\ refused t) -> exists t, ts' !! id = Some t /\ refused t.
Proof. intros [A1 A2] (t & Ht & Hr). destruct (A1 id ltac:(eauto)) as [t' Ht']. destruct (A2 _ _ Ht') as (t0 & Ht0 & _ & Hrr). exists t'. split; [done|]. apply Hrr. congruence. Qed.

Lemma waits_alike ts ts' aw rd ans lt dd F C :
  alike ts ts' -> (forall id t', id ∈ F -> ts' !! id = Some t' -> exists t, ts !! id = Some t /\ handle t' = handle t) ->
  waits ts aw rd ans lt dd F C -> waits ts' aw rd ans lt dd F C.
Proof.
  intros HA HH [W1 W2 W3 W4 W5 W6 W7 W8]. constructor; try done.
  - intros id t Hi Ht. destruct (HH id t Hi Ht) as (t0 & Ht0 & ->). by apply W1.
  - intros id Hi. destruct (W3 id Hi) as [|Hr]; [by left|]. right. by apply (alike_past ts).
  - intros id Hi. destruct (W5 id Hi) as [Ht Hl]. split; [by apply HA|done].
  - intros id e Hi. destruct (W7 id e Hi) as (t & Ht & Hc). destruct HA as [A1 A2]. destruct (A1 id ltac:(eauto)) as [t' Ht']. destruct (A2 _ _ Ht') as (t0 & Ht0 & Hf & Hr).
    assert (t0 = t) as -> by congruence. exists t'. split; [done|]. rewrite Hf. destruct Hc as [|[Hc ->]]; [by left|]. right. split; [by apply Hr|done].
Qed.

Lemma waits_run ts aw rd ans lt dd F C x t : ts !! x = Some t -> untouched t -> waits ts aw rd ans lt dd F C -> waits (alter fn x ts) aw rd ans lt dd F C.
Proof.
  intros Hx Hu. assert (Hf : func_ (fn t) = func_ t /\ handle (fn t) = handle t) by (unfold fn; destruct (func_ t) eqn:E; simpl; by rewrite ?E).
  apply waits_alike; [split|].
  - intros id [t0 H0]. destruct (decide (id = x)) as [->|]; [rewrite lookup_alter_eq, H0|rewrite lookup_alter_ne, H0 by done]; eauto.
  - intros id t'. destruct (decide (id = x)) as [->|]; [|rewrite lookup_alter_ne by done; eauto]. rewrite lookup_alter_eq, Hx. intros [= <-]. exists t. split; [done|].
    split; [apply Hf|]. split; intros Hr; exfalso; [by eapply untouched_not_refused|]. eapply settled_not_refused; [by apply fn_settles|done].
  - intros id t' _. destruct (decide (id = x)) as [->|]; [|rewrite lookup_alter_ne by done; eauto]. rewrite lookup_alter_eq, Hx. intros [= <-]. exists t. split; [done|apply Hf].
Qed.

(** A new await, in flight. *)
Lemma waits_new ts aw rd ans lt dd F C id h f :
  ts !! id = None -> waits ts aw rd ans lt dd F C -> (forall x, x ∈ C -> is_Some (ts !! x)) ->
  waits (<[id := set_handle (Some h) (new_task f)]> ts) (<[id := mk_awaiter h true false]> aw) rd ans lt dd (id :: F) C.
Proof.
  intros Hn [W1 W2 W3 W4 W5 W6 W7 W8] HC.
  assert (Hp : forall x, x ∈ rd.*2 ++ ans.*1 ++ dd -> x <> id). { intros x [Hx|(t & Ht & _)]%W3 ->; [|congruence]. destruct (HC _ Hx); congruence. }
  constructor; try done.
  - intros x t [->|Hx]%elem_of_cons; [rewrite !lookup_insert_eq; by intros [= <-]|]. destruct (decide (x = id)) as [->|]; [rewrite !lookup_insert_eq; by intros [= <-]|].
    rewrite !lookup_insert_ne by done. by apply W1.
  - intros h' x Hx. rewrite lookup_insert_ne; [by apply W2|]. symmetry. apply Hp. apply elem_of_app. left. apply (list_elem_of_fmap_2 snd _ _ Hx).
  - intros x Hx. destruct (W3 x Hx) as [|Hr]; [by left|]. right. rewrite lookup_insert_ne by (symmetry; by apply Hp). done.
  - intros x. destruct (decide (x = id)) as [->|]; [rewrite !lookup_insert_eq; intros _; split; [by eexists|left; by left]|]. rewrite !lookup_insert_ne by done.
    intros [Ht Hl]%W5. split; [done|]. destruct Hl; [left; by right|by right].
  - intros x Hx. rewrite lookup_insert_ne; [by apply W6|]. symmetry. apply Hp. set_solver.
  - intros x e Hx. destruct (W7 x e Hx) as (t & Ht & Hc). exists t. split; [|done]. rewrite lookup_insert_ne; [done|]. intros <-. congruence.
Qed.

(** A new await that is refused. *)
Lemma waits_refused ts aw rd ans lt dd F C id h f :
  ts !! id = None -> waits ts aw rd ans lt dd F C -> (forall x, x ∈ F ++ C -> is_Some (ts !! x)) ->
  waits (<[id := set_exception QueueFull (set_handle (Some h) (new_task f))]> ts) (<[id := mk_awaiter h true false]> aw) (rd ++ [(h, id)]) ans lt dd F C.
Proof.
  intros Hn [W1 W2 W3 W4 W5 W6 W7 W8] HC. assert (HCn : id ∉ F ++ C) by (intros Hi; destruct (HC _ Hi); congruence).
  assert (Hp : forall x, x ∈ rd.*2 ++ ans.*1 ++ dd -> x <> id). { intros x [Hx|(t & Ht & _)]%W3 ->; [set_solver|congruence]. }
  constructor; try done.
  - intros x t Hx. rewrite !lookup_insert_ne by (intros ->; set_solver). by apply W1.
  - intros h' x [Hx|[= -> ->]%list_elem_of_singleton]%elem_of_app; [|left; by rewrite lookup_insert_eq].
    rewrite lookup_insert_ne; [by apply W2|]. symmetry. apply Hp. apply elem_of_app. left. apply (list_elem_of_fmap_2 snd _ _ Hx).
  - intros x Hx. destruct (decide (x = id)) as [->|Hne]; [right; eexists; split; [apply lookup_insert_eq|done]|]. rewrite fmap_app in Hx.
    destruct (W3 x ltac:(set_solver)) as [|Hr]; [by left|]. right. by rewrite lookup_insert_ne.
  - rewrite fmap_app. simpl. eapply NoDup_Permutation_proper; [|apply (NoDup_cons_2 id); [|exact W4]]; [solve_Permutation|]. intros Hi. by destruct (Hp id).
  - intros x. destruct (decide (x = id)) as [->|]; [rewrite !lookup_insert_eq; intros _; split; [by eexists|right; rewrite fmap_app; set_solver]|]. rewrite !lookup_insert_ne by done.
    intros [Ht Hl]%W5. split; [done|]. rewrite fmap_app. set_solver.
  - intros x Hx. rewrite lookup_insert_ne; [by apply W6|]. symmetry. apply Hp. set_solver.
  - intros x e Hx. destruct (W7 x e Hx) as (t & Ht & Hc). exists t. split; [|done]. rewrite lookup_insert_ne; [done|]. intros <-. congruence.
Qed.

(** A task handed back. *)
Definition scheduled ts (id : nat) : list (Z * nat) :=
  match ts !! id with Some t => match handle t with Some h => [(h, id)] | None => [] end | None => [] end.

Lemma waits_collect ts aw rd ans lt dd F C id :
  waits ts aw rd ans lt dd (id :: F) C -> id ∉ C -> (exists t, ts !! id = Some t /\ ~ refused t) -> waits ts aw (rd ++ scheduled ts id) ans lt dd F (C ++ [id]).
Proof.
  intros [W1 W2 W3 W4 W5 W6 W7 W8] HC (t & Ht & Hr). pose proof (W1 id t ltac:(by left) Ht) as Hh. unfold scheduled. rewrite Ht.
  assert (Hp : id ∉ rd.*2 ++ ans.*1 ++ dd) by (intros [Hx|(t0 & Ht0 & ?)]%W3; [done|naive_solver]).
  assert (W3' : forall x, x ∈ rd.*2 ++ ans.*1 ++ dd -> x ∈ C ++ [id] \/ exists t, ts !! x = Some t /\ refused t). { intros x [|]%W3; [left; set_solver|by right]. }
  assert (W7' : forall x e, (x, e) ∈ ans -> exists t, ts !! x = Some t /\ (x ∈ C ++ [id] /\ e = ending_of (func_ t) \/ refused t /\ e = Raised QueueFull)).
  { intros x e (t0 & Ht0 & [[Hi He]|Hc])%W7; exists t0; (split; [done|]); [left; set_solver|by right]. }
  destruct (handle t) as [h|]; [|rewrite app_nil_r]; constructor; try done.
  - intros x t0 Hx. apply W1. by right.
  - intros h' x [Hx|[= -> ->]%list_elem_of_singleton]%elem_of_app; [by apply W2|by left].
  - intros x Hx. rewrite fmap_app in Hx. destruct (decide (x = id)) as [->|]; [left; set_solver|]. apply W3'. set_solver.
  - rewrite fmap_app. simpl. eapply NoDup_Permutation_proper; [|apply (NoDup_cons_2 id); [exact Hp|exact W4]]. solve_Permutation.
  - intros x [Hx Hl]%W5. split; [done|]. rewrite fmap_app. set_solver.
  - intros x t0 Hx. apply W1. by right.
  - intros x Hx. pose proof (W5 x Hx) as [Hs Hl]. split; [done|]. destruct Hl as [[->|]%elem_of_cons|]; [|by left|by right]. rewrite Hh in Hx. by destruct Hx.
Qed.
End Waits.

Section Ends.
Implicit Types (ts : gmap nat atask_t) (aw : gmap nat async_awaiter) (F C lt dd : list nat).

Lemma waits_answer ts aw h rd ans lt dd F C id t :
  waits ts aw ((h, id) :: rd) ans lt dd F C -> ts !! id = Some t -> (id ∈ C -> settled t) -> id ∉ F ->
  waits ts (delete id aw) rd (ans ++ [(id, await_resume t)]) lt dd F C.
Proof.
  intros [W1 W2 W3 W4 W5 W6 W7 W8] Ht Hs HF. simpl in W4. apply NoDup_cons in W4 as [Hid W4].
  assert (Hc : id ∈ C \/ refused t). { destruct (W3 id ltac:(simpl; set_solver)) as [|(t0 & Ht0 & Hr)]; [by left|right; congruence]. }
  constructor; try done.
  - intros x t0 Hx Ht0. rewrite lookup_delete_ne by (intros ->; done). by apply W1.
  - intros h' x Hx. rewrite lookup_delete_ne; [apply W2; by right|]. intros <-. apply Hid. apply elem_of_app. left. apply (list_elem_of_fmap_2 snd _ _ Hx).
  - intros x Hx. rewrite fmap_app in Hx. apply W3. simpl in *. set_solver.
  - rewrite fmap_app. simpl. eapply NoDup_Permutation_proper; [|apply (NoDup_cons_2 id); [exact Hid|exact W4]]. solve_Permutation.
  - intros x. destruct (decide (x = id)) as [->|Hne]; [rewrite lookup_delete_eq; by intros [? ?]|]. rewrite lookup_delete_ne by done. intros [H1 H2]%W5. split; [done|]. simpl in H2. set_solver.
  - intros x Hx. rewrite fmap_app in Hx. destruct (decide (x = id)) as [->|Hne]; [apply lookup_delete_eq|]. rewrite lookup_delete_ne by done. apply W6. simpl in *. set_solver.
  - intros x e [Hx|[= -> ->]%list_elem_of_singleton]%elem_of_app; [by apply W7|]. exists t. split; [done|]. destruct Hc as [Hc|Hr]; [left; split; [done|by apply Hs]|].
    right. split; [done|]. destruct Hr as [_ Hr]. unfold await_resume. by rewrite Hr.
Qed.

Lemma waits_dangle ts aw h rd ans lt dd F C id :
  waits ts aw ((h, id) :: rd) ans lt dd F C -> aw !! id = None -> waits ts aw rd ans lt (dd ++ [id]) F C.
Proof.
  intros [W1 W2 W3 W4 W5 W6 W7 W8] Hn. destruct (W2 h id ltac:(by left)) as [|[_ Hl]]; [congruence|]. constructor; try done.
  - intros h' x Hx. apply W2. by right.
  - intros x Hx. apply W3. simpl. set_solver.
  - eapply NoDup_Permutation_proper; [|exact W4]. simpl. solve_Permutation.
  - intros x Hx. pose proof (W5 x Hx) as [H1 H2]. split; [done|]. simpl in H2. destruct H2 as [|[->|]%elem_of_cons]; [by left| |by right]. rewrite Hn in Hx. by destruct Hx.
  - intros x Hx. destruct (decide (x = id)) as [->|]; [done|]. apply W6. set_solver.
  - intros x [Hx|Hx]%elem_of_app; [by apply W8|]. apply list_elem_of_singleton in Hx as ->. done.
Qed.

Lemma awaiter_shape ts aw rd ans lt dd F C id a :
  waits ts aw rd ans lt dd F C -> aw !! id = Some a -> exists h, a = mk_awaiter h true false.
Proof.
  intros [W1 W2 W3 W4 W5 W6 W7 W8] Ha. destruct (W5 id ltac:(eauto)) as [[t Ht] [HF|HR]].
  - pose proof (W1 id t HF Ht) as Hh. destruct (handle t) as [h|]; [|congruence]. exists h. congruence.
  - apply list_elem_of_fmap in HR as ([h x] & -> & Hx). destruct (W2 h x Hx) as [|[? ?]]; [|simpl in *; congruence]. exists h. simpl in *. congruence.
Qed.

Lemma alike_handle ts h id : alike ts (alter (set_handle h) id ts).
Proof.
  split; intros x.
  - intros [t Ht]. destruct (decide (x = id)) as [->|]; [rewrite lookup_alter_eq, Ht|rewrite lookup_alter_ne, Ht by done]; eauto.
  - intros t'. destruct (decide (x = id)) as [->|]; [|rewrite lookup_alter_ne by done; eauto]. rewrite lookup_alter_eq. destruct (ts !! id) as [t|]; [|done]. intros [= <-]. by exists t.
Qed.

(** A frame is destroyed: before its task is handed back, or while it is
    scheduled. *)
Lemma waits_kill ts aw rd ans lt dd F C id :
  waits ts aw rd ans lt dd F C ->
  waits (alter (set_handle None) id ts) (delete id aw) rd ans (if bool_decide (id ∈ rd.*2) then lt ++ [id] else lt) dd F C.
Proof.
  intros [W1 W2 W3 W4 W5 W6 W7 W8]. pose proof (alike_handle ts None id) as HA. set (lt' := if bool_decide _ then _ else _).
  assert (Hlt : forall x, x ∈ lt -> x ∈ lt') by (intros x Hx; subst lt'; case_bool_decide; set_solver). constructor; try done.
  - intros x t Hx. destruct (decide (x = id)) as [->|]; [rewrite lookup_alter_eq, lookup_delete_eq; destruct (ts !! id); simpl; [by intros [= <-]|done]|].
    rewrite lookup_alter_ne, lookup_delete_ne by done. by apply W1.
  - intros h x Hx. destruct (decide (x = id)) as [->|].
    + right. rewrite lookup_delete_eq. split; [done|]. subst lt'. rewrite bool_decide_true by apply (list_elem_of_fmap_2 snd _ _ Hx). set_solver.
    + rewrite lookup_delete_ne by done. destruct (W2 h x Hx) as [|[? ?]]; [by left|right; auto].
  - intros x Hx. destruct (W3 x Hx) as [|Hr]; [by left|]. right. by apply (alike_past ts).
  - intros x. destruct (decide (x = id)) as [->|]; [rewrite lookup_delete_eq; by intros [? ?]|]. rewrite lookup_delete_ne by done. intros [H1 H2]%W5. split; [by apply HA|done].
  - intros x Hx. destruct (decide (x = id)) as [->|]; [apply lookup_delete_eq|]. rewrite lookup_delete_ne by done. by apply W6.
  - intros x e Hx. destruct (W7 x e Hx) as (t & Ht & Hc). destruct HA as [A1 A2]. destruct (A1 x ltac:(eauto)) as [t' Ht']. destruct (A2 _ _ Ht') as (t0 & Ht0 & Hf & Hr).
    assert (t0 = t) as -> by congruence. exists t'. split; [done|]. rewrite Hf. destruct Hc as [|[Hc ->]]; [by left|]. right. split; [by apply Hr|done].
  - intros x Hx. by apply Hlt, W8.
Qed.
End Ends.

(** ** Every step keeps them *)

Section Steps.
Variables (thread_nr_ : nat) (max_task_nr : Z).

(** Facts on a step follow from what it does to the lists. *)
Lemma ok_moved s s' :
  exec_ok s -> tasks s' = tasks s -> awaiters s' = awaiters s -> ready s' = ready s -> collected s' = collected s -> answers s' = answers s ->
  late s' = late s -> dead s' = dead s -> cpu_ s' = cpu_ s -> todo s' ≡ₚ todo s -> ran s' ≡ₚ ran s ->
  match owner s' with ODrain | OPut _ | ODone => Forall (eq WExit) (workers s') | _ => True end -> (owner s' = ODone -> pending_tasks s' = []) -> exec_ok s'.
Proof.
  intros [B W _ _] E1 E2 E3 E4 E5 E6 E7 E8 HT HR HX HD. constructor; try done.
  - rewrite E1, E4, E8, HT, HR. exact B.
  - rewrite E1, E2, E3, E4, E5, E6, E7. eapply waits_flight; [|exact W]. by rewrite HT, HR.
Qed.

(** A task is run. *)
Lemma ok_ran s s' x T R :
  exec_ok s -> todo s ≡ₚ x :: T -> ran s ≡ₚ R -> tasks s' = alter fn x (tasks s) -> awaiters s' = awaiters s -> ready s' = ready s -> collected s' = collected s ->
  answers s' = answers s -> late s' = late s -> dead s' = dead s -> cpu_ s' = cpu_ s -> todo s' ≡ₚ T -> ran s' ≡ₚ x :: R ->
  match owner s' with ODrain | OPut _ | ODone => Forall (eq WExit) (workers s') | _ => True end -> owner s' <> ODone -> exec_ok s'.
Proof.
  intros [B W _ _] HT HR E1 E2 E3 E4 E5 E6 E7 E8 HT' HR' HX HD. rewrite HT, HR in B. destruct (bk_todo _ _ _ _ _ B x ltac:(by left)) as (t & Ht & Hu). constructor; try done.
  - rewrite E1, E4, E8, HT', HR'. by apply books_run.
  - rewrite E1, E2, E3, E4, E5, E6, E7. eapply waits_run; [exact Ht|done|]. eapply waits_flight; [|exact W]. rewrite HT, HR, HT', HR'. solve_Permutation.
Qed.

Lemma ensure_workers_ok s : exec_ok s -> owner s = OLoop -> exec_ok (ensure_workers thread_nr_ s).
Proof.
  intros Hs Ho. unfold ensure_workers. destruct (workers s) as [|w ws] eqn:Hw; [|done].
  assert (Hc : forall f : worker_pc -> list nat, f WTest = [] -> concat (f <$> replicate thread_nr_ WTest) = []) by (intros f Hf; induction thread_nr_; simpl; rewrite ?Hf; auto).
  eapply (ok_moved s); try done; unfold todo, ran; simpl; rewrite ?Hw, ?Ho, ?Hc by done; done.
Qed.

Lemma books_known ts T R C n x : books ts T R C n -> x ∈ (T ++ R) ++ C -> is_Some (ts !! x).
Proof. intros B Hx. destruct (books_in _ _ _ _ _ x B) as (t & Ht & _); [set_solver|eauto]. Qed.

Lemma await_ok s id h f sz room : exec_ok s -> owner s = OLoop -> tasks s !! id = None -> exec_ok (await_suspend thread_nr_ max_task_nr sz room id h f s).
Proof.
  intros Hs Ho Hn. set (s0 := ensure_workers thread_nr_ s). assert (H0 : exec_ok s0) by by apply ensure_workers_ok.
  assert (E0 : tasks s0 = tasks s /\ awaiters s0 = awaiters s /\ owner s0 = OLoop) by (unfold s0, ensure_workers; by destruct (workers s)). destruct E0 as (E1 & E2 & E3).
  unfold await_suspend, add. set (ts := <[id := _]> (tasks s)). set (aw := <[id := _]> (awaiters s)).
  replace (ensure_workers thread_nr_ (with_tasks ts aw s)) with (with_tasks ts aw s0) by (unfold s0, ensure_workers; simpl; by destruct (workers s)).
  destruct H0 as [B W X D]. subst ts aw. rewrite <- E1, <- E2. rewrite <- E1 in Hn. clearbody s0. clear s Hs Ho E1 E2.
  assert (Hno : exec_ok (let s := update (set_exception QueueFull) id (with_tasks (<[id := set_handle (Some h) (new_task f)]> (tasks s0)) (<[id := mk_awaiter h true false]> (awaiters s0)) s0) in with_ready (ready s ++ [(h, id)]) s)).
  { unfold update. cbn [tasks with_tasks awaiters]. rewrite alter_insert_eq. constructor; try done.
    - by apply books_refuse.
    - apply waits_refused; [done|exact W|]. intros x Hx. by eapply books_known. }
  destruct (max_task_nr <? sz); [exact Hno|]. destruct room; [|exact Hno]. constructor; try done.
  - simpl. unfold todo, ran. simpl. rewrite <- app_assoc, (Permutation_app_comm [id]), app_assoc. by apply books_new.
  - eapply waits_flight; [|simpl; apply waits_new; [done|exact W|]].
    + unfold todo, ran; simpl. solve_Permutation.
    + intros x Hx. eapply books_known; [exact B|]. set_solver.
  - simpl. by rewrite E3.
Qed.

(** The tasks of a batch are scheduled in turn. *)
Lemma schedule_fold xs s :
  foldl (fun s id => schedule_completed id s) s xs = with_ready (ready s ++ concat (scheduled (tasks s) <$> xs)) s.
Proof.
  revert s. induction xs as [|x xs IH]; intros s; simpl; [rewrite app_nil_r; by destruct s|]. rewrite IH. unfold schedule_completed, scheduled.
  destruct (tasks s !! x) as [t|]; [destruct (handle t)|]; simpl; rewrite <- ?app_assoc; done.
Qed.

Lemma waits_batch ts aw ans lt dd F xs : forall rd C,
  waits ts aw rd ans lt dd (xs ++ F) C -> NoDup (xs ++ C) -> (forall x, x ∈ xs -> exists t, ts !! x = Some t /\ ~ refused t) ->
  waits ts aw (rd ++ concat (scheduled ts <$> xs)) ans lt dd F (C ++ xs).
Proof.
  induction xs as [|x xs IH]; intros rd C W HN Hx; simpl; [by rewrite !app_nil_r|].
  rewrite (cons_middle x C xs), !app_assoc. simpl in HN. apply NoDup_cons in HN as [HxC HN]. apply IH.
  - apply waits_collect; [exact W|set_solver|apply Hx; by left].
  - eapply NoDup_Permutation_proper; [|apply (NoDup_cons_2 x); [exact HxC|exact HN]]. solve_Permutation.
  - intros y Hy. apply Hx. by right.
Qed.

Lemma harvest_ok s xs q : exec_ok s -> owner s = OLoop -> dequeue xs (completed_tasks s) = Some q -> exec_ok (harvest xs q s).
Proof.
  intros [B W X D] Ho Hq%dequeue_perm. unfold harvest. rewrite schedule_fold.
  assert (HR : ran s ≡ₚ xs ++ concat (ran_of <$> workers s) ++ put_of (owner s) ++ q) by (unfold ran; rewrite Hq; solve_Permutation).
  rewrite HR in B. constructor; simpl; rewrite ?Ho; try done.
  - unfold todo, ran. simpl. by apply books_collect.
  - apply waits_batch.
    + eapply waits_flight; [|exact W]. unfold todo at 2, ran at 2. simpl. rewrite HR. unfold todo. solve_Permutation.
    + pose proof (bk_nodup _ _ _ _ _ B) as HN. apply NoDup_app in HN as (_ & _ & HN). rewrite <- app_assoc in HN. eapply NoDup_Permutation_proper in HN; [|apply (Permutation_app_swap_app (concat (ran_of <$> workers s) ++ put_of (owner s) ++ q) xs)].
      by apply NoDup_app in HN as (_ & _ & HN).
    + intros x Hx. eapply books_in; [exact B|]. set_solver.
Qed.

Lemma exec_resume_ok s s' : exec_ok s -> owner s = OLoop -> resume_front s = Some s' -> exec_ok s'.
Proof.
  intros [B W X D] Ho. unfold resume_front. destruct (ready s) as [|[h id] r] eqn:Hr; [done|]. cbn [awaiters tasks with_ready].
  assert (HF : id ∉ todo s ++ ran s).
  { intros Hi. destruct (books_in _ _ _ _ _ id B) as (t & Ht & Hnr); [set_solver|]. destruct (wt_past _ _ _ _ _ _ _ _ W id ltac:(simpl; set_solver)) as [HC|(t0 & Ht0 & Hrf)]; [|naive_solver].
    pose proof (bk_nodup _ _ _ _ _ B) as HN. rewrite app_assoc in HN. apply NoDup_app in HN as (_ & HN & _). by destruct (HN id Hi). }
  destruct (awaiters s !! id) as [a|] eqn:Ha.
  - destruct (wt_live _ _ _ _ _ _ _ _ W id ltac:(eauto)) as [[t Ht] _]. rewrite Ht. intros [= <-].
    unfold destroy_awaiter. simpl. rewrite andb_false_r. constructor; try done. simpl. apply (waits_answer _ _ h); try done.
    intros HC. destruct (bk_ran _ _ _ _ _ B id ltac:(set_solver)) as (t0 & Ht0 & Hst). congruence.
  - intros [= <-]. constructor; try done. by apply (waits_dangle _ _ h).
Qed.

Lemma kill_ok s s' id : exec_ok s -> owner s = OLoop -> kill id s = Some s' -> exec_ok s'.
Proof.
  intros [B W X D] Ho. unfold kill. destruct (awaiters s !! id) as [a|] eqn:Ha; [|done]. intros [= <-].
  destruct (awaiter_shape _ _ _ _ _ _ _ _ _ _ W Ha) as [h ->]. pose proof (waits_kill _ _ _ _ _ _ _ _ id W) as W'.
  unfold destroy_awaiter. simpl. case_bool_decide; (constructor; simpl; [by apply books_handle|exact W'|done..]).
Qed.

(** A worker moves. *)
Lemma worker_lists s i w : workers s !! i = Some w -> exists T R, todo s ≡ₚ pending_tasks s ++ todo_of w ++ T /\ ran s ≡ₚ ran_of w ++ completed_tasks s ++ R /\
  forall w' p c n, todo (with_queues p c n (to_worker i w' s)) ≡ₚ p ++ todo_of w' ++ T /\ ran (with_queues p c n (to_worker i w' s)) ≡ₚ ran_of w' ++ c ++ R.
Proof.
  intros Hi. destruct (concat_worker todo_of _ _ _ Hi) as (T & T1 & T2). destruct (concat_worker ran_of _ _ _ Hi) as (R & R1 & R2).
  exists T, (R ++ put_of (owner s)). unfold todo, ran. rewrite T1, R1. split; [done|]. split; [solve_Permutation|]. intros w' p c n. simpl. rewrite T2, R2. split; [done|]. solve_Permutation.
Qed.

Lemma exit_kept s i w w' : exec_ok s -> workers s !! i = Some w -> w <> WExit ->
  match owner s with ODrain | OPut _ | ODone => Forall (eq WExit) (<[i := w']> (workers s)) | _ => True end /\ owner s <> ODone.
Proof.
  intros [_ _ X _] Hi Hw. destruct (owner s); try done; exfalso; apply Hw; symmetry; by eapply (Forall_lookup_1 (eq WExit)).
Qed.

Lemma with_queues_id s : with_queues (pending_tasks s) (completed_tasks s) (cpu_ s) s = s.
Proof. by destruct s. Qed.

Lemma worker_move s i w w' p c :
  exec_ok s -> workers s !! i = Some w -> w <> WExit -> p ++ todo_of w' ≡ₚ pending_tasks s ++ todo_of w -> ran_of w' ++ c ≡ₚ ran_of w ++ completed_tasks s ->
  exec_ok (with_queues p c (cpu_ s) (to_worker i w' s)).
Proof.
  intros Hs Hi Hw HT HR. destruct (worker_lists s i w Hi) as (T & R & T1 & R1 & H2). destruct (H2 w' p c (cpu_ s)) as [T2 R2]. destruct (exit_kept s i w w' Hs Hi Hw) as [X D].
  eapply (ok_moved s); try done; [by rewrite T2, T1, !app_assoc, HT|by rewrite R2, R1, !app_assoc, HR].
Qed.

Lemma worker_stays s i w w' : exec_ok s -> workers s !! i = Some w -> w <> WExit -> todo_of w' = todo_of w -> ran_of w' = ran_of w -> exec_ok (to_worker i w' s).
Proof.
  intros Hs Hi Hw HT HR. rewrite <- (with_queues_id (to_worker i w' s)). apply (worker_move s i w); try done; by rewrite ?HT, ?HR.
Qed.

Lemma worker_ok o s s' : exec_ok s -> worker_step o s = Some s' -> exec_ok s'.
Proof.
  intros Hs. destruct o as [| | | | | | | | |i|i xs|i|i|i]; try done; cbn [worker_step]; destruct (workers s !! i) as [w|] eqn:Hi; try done.
  - destruct w; try done. intros [= <-]. apply (worker_stays s i WTest); try done; by destruct (terminated s).
  - destruct w; try done. destruct (dequeue xs (pending_tasks s)) as [p|] eqn:Hd; [|done]. destruct (length xs <=? 8)%nat; [|done]. intros [= <-].
    apply dequeue_perm in Hd. apply (worker_move s i WWait); try done; destruct xs; simpl; rewrite ?app_nil_r, ?Hd; solve_Permutation.
  - destruct w as [| |rn [|x td]| |]; try done. intros [= <-]. destruct (worker_lists s i _ Hi) as (T & R & T1 & R1 & H2).
    destruct (H2 (WRun (rn ++ [x]) td) (pending_tasks s) (completed_tasks s) (cpu_ s)) as [T2 R2]. destruct (exit_kept s i _ (WRun (rn ++ [x]) td) Hs Hi ltac:(done)) as [X D].
    eapply (ok_ran s _ x); [exact Hs|rewrite T1; simpl; symmetry; apply Permutation_middle|exact R1|try done..]; cbn [todo_of ran_of] in *.
    etrans; [exact R2|]. simpl. solve_Permutation.
  - destruct w as [| |rn [|x td]| |]; try done. intros [= <-]. apply (worker_move s i (WRun rn [])); try done; simpl; solve_Permutation.
  - destruct w; try done. intros [= <-]. by apply (worker_stays s i WWake).
Qed.

Lemma terminate_ok o s s' : exec_ok s -> terminate_step o s = Some s' -> exec_ok s'.
Proof.
  intros Hs. pose proof Hs as [B W X D]. destruct o as [| | | | | |x| | | | | | |]; try done; cbn [terminate_step]; destruct (owner s) as [| | |y|] eqn:Ho; try done.
  - destruct (terminated s); intros [= <-]; [done|]. eapply (ok_moved s); try done. unfold ran. simpl. by rewrite Ho.
  - destruct (forallb _ _) eqn:Hf; [|done]. intros [= <-]. eapply (ok_moved s); try done; [unfold ran; simpl; by rewrite Ho|].
    simpl. apply Forall_forall. intros w Hw. rewrite forallb_forall in Hf. apply list_elem_of_In, Hf in Hw. by destruct w.
  - destruct (dequeue [x] (pending_tasks s)) as [p|] eqn:Hd; [|done]. apply dequeue_perm in Hd. intros [= <-].
    eapply (ok_ran s _ x (p ++ concat (todo_of <$> workers s)) (ran s)); try done; [unfold todo; by rewrite Hd|]. unfold ran. simpl. rewrite Ho. simpl. solve_Permutation.
  - intros [= <-]. eapply (ok_moved s); try done. unfold ran. simpl. rewrite Ho. simpl. solve_Permutation.
  - destruct (pending_tasks s) as [|z q] eqn:Hp; [|done]. intros [= <-]. eapply (ok_moved s); try done. unfold ran. simpl. by rewrite Ho.
Qed.

Lemma step_ok o s s' : exec_ok s -> exec_step thread_nr_ max_task_nr o s = Some s' -> exec_ok s'.
Proof.
  intros Hs. destruct o as [id h f sz room|xs| |id| | |x| | |i|i xs|i|i|i]; cbn [exec_step]; try apply terminate_ok, Hs; try apply worker_ok, Hs; destruct (owner s) eqn:Ho; try done.
  - destruct (tasks s !! id) eqn:Hn; [done|]. intros [= <-]. by apply await_ok.
  - destruct (dequeue xs (completed_tasks s)) as [q|] eqn:Hq; [|done]. destruct (length xs <=? 32)%nat; [|done]. intros [= <-]. by apply harvest_ok.
  - by apply exec_resume_ok.
  - by apply kill_ok.
Qed.

Lemma exec_run_ok l s : exec_run thread_nr_ max_task_nr l executor = Some s -> exec_ok s.
Proof.
  assert (H0 : exec_ok executor).
  { constructor; try done; constructor; try done; try apply NoDup_nil_2; try (by intros ? ?%elem_of_nil); simpl; try set_solver. by intros id [? ?]. }
  revert H0. generalize executor. induction l as [|o l IH]; intros s0 H0; simpl; [by intros [= <-]|].
  destruct (exec_step _ _ o s0) as [s1|] eqn:Hs; [|done]. apply IH. by eapply step_ok.
Qed.
End Steps.

(** C25: The executor, under every interleaving of the owner with the workers and
    whatever the queues hand out and refuse.  Every callable runs at most once;
    one handed back, or any that was accepted once [terminate] is through, ran
    exactly once.  The tracker counts the tasks accepted and not handed back.
    An await gets exactly what its own callable returned or threw, or the error
    of a full queue and then the callable never runs; it is resumed at most
    once, and while it waits its task is in flight or its coroutine scheduled.
    A coroutine destroyed before its task was handed back is not resumed. *)
Theorem executor_sound thread_nr_ max_task_nr l s :
  exec_run thread_nr_ max_task_nr l executor = Some s ->
  (forall id t, tasks s !! id = Some t -> (runs t <= 1)%nat /\ (id ∈ collected s \/ owner s = ODone -> runs t = 1%nat \/ refused t)) /\
  cpu_ s = u32 (Z.of_nat (length (todo s ++ ran s))) /\
  (forall id e, (id, e) ∈ answers s ->
     exists t, tasks s !! id = Some t /\ (e = ending_of (func_ t) /\ runs t = 1%nat \/ e = Raised QueueFull /\ runs t = O)) /\
  NoDup ((ready s).*2 ++ (answers s).*1 ++ dead s) /\
  (forall id, is_Some (awaiters s !! id) -> id ∈ todo s ++ ran s \/ id ∈ (ready s).*2) /\
  (forall id, id ∈ dead s -> id ∈ late s).
Proof.
  intros Hrun. destruct (exec_run_ok _ _ _ _ Hrun) as [B W X D]. split_and!.
  - intros id t Ht. destruct (bk_all _ _ _ _ _ B id t Ht) as [Hi|Hr]; [|split; [destruct Hr; lia|by right]]. apply elem_of_app in Hi as [Hi|Hi].
    + destruct (bk_todo _ _ _ _ _ B id Hi) as (t0 & Ht0 & Hu & _). assert (t0 = t) as -> by congruence. split; [lia|]. intros [HC|Ho]; exfalso.
      * pose proof (bk_nodup _ _ _ _ _ B) as HN. apply NoDup_app in HN as (_ & HN & _). apply (HN id Hi). set_solver.
      * rewrite Ho in X. unfold todo in Hi. rewrite (D Ho) in Hi. simpl in Hi. clear -X Hi. induction X as [|w ws <- X IH]; [by apply elem_of_nil in Hi|]. by apply IH.
    + destruct (bk_ran _ _ _ _ _ B id Hi) as (t0 & Ht0 & Hu & _). assert (t0 = t) as -> by congruence. split; [lia|auto].
  - apply B.
  - intros id e Hi. destruct (wt_exact _ _ _ _ _ _ _ _ W id e Hi) as (t & Ht & Hc). exists t. split; [done|]. destruct Hc as [[HC ->]|[[Hr _] ->]]; [|by right].
    left. split; [done|]. destruct (bk_ran _ _ _ _ _ B id ltac:(set_solver)) as (t0 & Ht0 & Hu & _). congruence.
  - apply W.
  - intros id Hi. by apply (wt_live _ _ _ _ _ _ _ _ W).
  - apply W.
Qed.

Lemma executor_sound_witness :
  let l := [Await 0 100 (Returns 7) 0 true; Await 1 101 (Throws 3) 0 true; Await 2 102 (Returns 9) 9 true; Test_ 0; Take 0 [1; 0]%nat; RunOne 0; Kill 1; RunOne 0; Put 0; Wake 0;
            Harvest [0; 1]%nat; Resume; Resume] in
  exists s, exec_run 1 8 l executor = Some s /\ answers s = [(2%nat, Raised QueueFull); (0%nat, Value 7)] /\ cpu_ s = 0 /\ dead s = [] /\
    (forall id t, tasks s !! id = Some t -> (runs t <= 1)%nat).
Proof.
  intros l. destruct (exec_run 1 8 l executor) as [s|] eqn:E; [|vm_compute in E; discriminate E].
  destruct (executor_sound 1 8 l s E) as (H1 & _). exists s. split; [reflexivity|].
  assert (Hs : answers s = [(2%nat, Raised QueueFull); (0%nat, Value 7)] /\ cpu_ s = 0 /\ dead s = []) by (vm_compute in E; injection E as <-; repeat split).
  destruct Hs as (A & B & C). repeat split; try assumption. intros id t Ht. exact (proj1 (H1 id t Ht)).
Defined.

(** The test of the handle is at the harvest: a coroutine destroyed between the
    harvest and its turn is resumed all the same. *)
Example harvested_then_destroyed :
  option_map dead (exec_run 1 8 [Await 0 100 (Returns 7) 0 true; Test_ 0; Take 0 [0%nat]; RunOne 0; Put 0; Harvest [0%nat]; Kill 0; Resume] executor) = Some [0%nat].
Proof. reflexivity. Qed.

(** ** Futures

    [task_state_t]: every operation holds the mutex.  [None]: a value that was
    moved out. *)
Inductive slot_t := Monostate | Held (v : option Z) | Thrown (x : exn_t).
Record task_state_t := mk_state { value_ : slot_t; done_ : bool }.
Definition new_state : task_state_t := mk_state Monostate false.

Definition set_value (v : Z) (_ : task_state_t) : task_state_t := mk_state (Held (Some v)) true.
Definition set_error (x : exn_t) (_ : task_state_t) : task_state_t := mk_state (Thrown x) true.
Definition set_done (st : task_state_t) : task_state_t := mk_state (value_ st) true.
Definition is_done (st : task_state_t) : bool := done_ st.

(** What [get] does when it may go on; [Broken] is a bad variant access. *)
Inductive got := Blocked | Got (v : option Z) | GotVoid | Rethrown (x : exn_t) | Broken.
Definition get (is_void : bool) (st : task_state_t) : got * task_state_t :=
  if done_ st then
    match value_ st with
    | Thrown x => (Rethrown x, st)
    | Held v => if is_void then (Broken, st) else (Got v, mk_state (Held None) true)
    | Monostate => if is_void then (GotVoid, st) else (Broken, st)
    end
  else (Blocked, st).

(** The calls the wrapper coroutines make on the state, given how the inner
    coroutine or the await ended. *)
Inductive publish := PValue (v : Z) | PError (x : exn_t) | PDone.
Definition apply_publish (p : publish) (st : task_state_t) : task_state_t :=
  match p with PValue v => set_value v st | PError x => set_error x st | PDone => set_done st end.
Definition make_submit_wrapper (is_void : bool) (e : ending) : list publish :=
  match e with
  | Value v => if is_void then [PDone] else [PValue v; PDone]
  | Raised x => [PError x; PDone]
  end.
Definition make_async_wrapper (e : ending) : list publish := match e with Value v => [PValue v; PDone] | Raised x => [PError x; PDone] end.

(** The wrapper's calls interleave with the callers'. *)
Inductive call := Publish | Get | IsDone.
Fixpoint calls (is_void : bool) (todo : list publish) (st : task_state_t) (l : list call) : list got * task_state_t :=
  match l with
  | [] => ([], st)
  | Publish :: l => match todo with [] => calls is_void [] st l | p :: todo => calls is_void todo (apply_publish p st) l end
  | Get :: l => let (g, st) := get is_void st in let (gs, st) := calls is_void todo st l in (g :: gs, st)
  | IsDone :: l => calls is_void todo st l
  end.

(** The answers of the gets: blocked ones, then the ending, once as a value. *)
Definition first_of (is_void : bool) (e : ending) : got := match e with Raised x => Rethrown x | Value v => if is_void then GotVoid else Got (Some v) end.
Definition later_of (is_void : bool) (e : ending) : got := match e with Raised x => Rethrown x | Value v => if is_void then GotVoid else Got None end.
Definition answered_with (is_void : bool) (e : ending) (gs : list got) : Prop :=
  exists n, gs = replicate n Blocked \/ exists m, gs = replicate n Blocked ++ first_of is_void e :: replicate m (later_of is_void e).

Definition final_slot (is_void : bool) (e : ending) (moved : bool) : slot_t :=
  match e with Raised x => Thrown x | Value v => if is_void then Monostate else Held (if moved then None else Some v) end.

Lemma calls_moved is_void e todo l : (todo = [] \/ todo = [PDone]) ->
  exists m, (calls is_void todo (mk_state (final_slot is_void e true) true) l).1 = replicate m (later_of is_void e).
Proof.
  revert todo. induction l as [|[] l IH]; intros todo Ht; simpl; [by exists O| | |by apply IH].
  - destruct Ht as [-> | ->]; simpl; apply IH; by left.
  - destruct (IH todo Ht) as (m & Hm). destruct e as [v|x], is_void; simpl in *; destruct (calls _ _ _ l); simpl in *; exists (S m); simpl; by rewrite Hm.
Qed.

Lemma calls_published is_void e todo l : (todo = [] \/ todo = [PDone]) ->
  exists gs, (calls is_void todo (mk_state (final_slot is_void e false) true) l).1 = gs /\ (gs = [] \/ exists m, gs = first_of is_void e :: replicate m (later_of is_void e)).
Proof.
  revert todo. induction l as [|[] l IH]; intros todo Ht; simpl; [eauto| | |by apply IH].
  - destruct Ht as [-> | ->]; simpl; apply IH; by left.
  - destruct (calls_moved is_void e todo l Ht) as (m & Hm). eexists. split; [done|]. right. exists m.
    destruct e as [v|x], is_void; simpl in *; destruct (calls _ _ _ l); simpl in *; by rewrite Hm.
Qed.

Lemma calls_blocked is_void e l : exists n gs, (calls is_void (make_submit_wrapper is_void e) new_state l).1 = replicate n Blocked ++ gs /\
  (gs = [] \/ exists m, gs = first_of is_void e :: replicate m (later_of is_void e)).
Proof.
  induction l as [|[] l IH]; simpl; [exists O, []; auto| | |exact IH].
  - exists O. destruct e as [v|x], is_void; simpl; [apply (calls_published true (Value v))|apply (calls_published false (Value v))|apply (calls_published true (Raised x))|apply (calls_published false (Raised x))]; auto.
  - destruct IH as (n & gs & Hn & Hg). destruct (calls _ _ _ l) as [g st]. simpl in *. exists (S n), gs. split; [by rewrite Hn|done].
Qed.

(** Futures: however the calls of the wrapper interleave with the callers', a
    [get] blocks until the ending is published; the first that goes on returns
    or rethrows exactly the task's ending, every later one rethrows the same
    exception or finds the value moved out; none meets a variant without its
    value. *)
Theorem future_exact is_void e l : answered_with is_void e (calls is_void (make_submit_wrapper is_void e) new_state l).1.
Proof.
  destruct (calls_blocked is_void e l) as (n & gs & -> & Hg). exists n. destruct Hg as [->|(m & ->)]; [left; by rewrite app_nil_r|right; by exists m].
Qed.

(** [submit_async] publishes the same calls. *)
Lemma async_publishes e : make_async_wrapper e = make_submit_wrapper false e.
Proof. by destruct e. Qed.

(** ** Spreading over the contexts *)

(** [select_context]: the index, and the thread's counter. *)
Definition select_context (thread_nr_ : Z) (idx : Z) : Z * Z := (idx mod thread_nr_, u64 (idx + 1)).
Fixpoint select_run (n : nat) (thread_nr_ idx : Z) : list Z :=
  match n with O => [] | S n => let (c, idx) := select_context thread_nr_ idx in c :: select_run n thread_nr_ idx end.

Lemma select_run_seq n k idx : 0 < k -> 0 <= idx -> idx + Z.of_nat n <= 2 ^ 64 -> select_run n k idx = (fun i => (idx + i) mod k) <$> seqZ 0 (Z.of_nat n).
Proof.
  revert idx. induction n as [|n IH]; intros idx Hk H0 Hn; [done|]. replace (Z.of_nat (S n)) with (1 + Z.of_nat n) by lia. rewrite seqZ_app by lia. simpl. rewrite Z.add_0_r. f_equal.
  destruct n as [|n]; [done|]. rewrite u64_small by lia. rewrite IH by lia. change (Z.of_nat 1) with 1. rewrite <- (fmap_add_seqZ 1 0), <- list_fmap_compose. apply list_fmap_ext. intros i x _. simpl. f_equal. lia.
Qed.

(** As many submissions of one thread as there are contexts reach every
    context once. *)
Lemma select_context_fair k idx : 0 < k -> 0 <= idx -> idx + k <= 2 ^ 64 -> select_run (Z.to_nat k) k idx ≡ₚ seqZ 0 k.
Proof.
  intros Hk H0 Hn. rewrite select_run_seq by lia. rewrite Z2Nat.id by lia. apply submseteq_length_Permutation; [|by rewrite length_fmap].
  apply NoDup_submseteq.
  - apply NoDup_fmap_2_strong; [|apply NoDup_seqZ]. intros x y Hx%elem_of_seqZ Hy%elem_of_seqZ Heq.
    assert (Hd : (x - y) mod k = 0). { replace (x - y) with ((idx + x) - (idx + y)) by lia. rewrite Zminus_mod, Heq, Z.sub_diag. apply Z.mod_0_l. lia. }
    apply Z.mod_divide in Hd as [q Hq]; [|lia]. assert (q = 0) by nia. lia.
  - intros c (i & -> & Hi)%list_elem_of_fmap. apply elem_of_seqZ. pose proof (Z.mod_pos_bound (idx + i) k). lia.
Qed.
