(* ===== verification/Wheels.v ===== *)
(** * The wheels, watchers and sweeps of a context

    The registry of timing wheels of src/context.cc ([wheel_for],
    [timeout_wheel], [stop_wheels]) over the wheels of TimerWheel, and the two
    coroutines a context runs for itself: [watch_loop] with [on_signal], and
    [cancel_sweep].  A shared wheel dies when its last holder lets go of it; the
    context holds weak references, and one strong one to its own wheel. *)

From stdpp Require Import prelude gmap list list_numbers.
From Stdlib Require Import ZArith Lia.
From S2P Require Import Prelude TimerWheel IoSlots.
Open Scope Z_scope.

(** ** The registry *)

(** [heap]: the wheels alive, by address; [made] counts the wheels built. *)
Record registry_t := mk_registry { wheels_ : list (Z * nat); heap : gmap nat timer_wheel_t; deadline_wheel_ : option nat; made : nat }.
Implicit Types g : registry_t.
Definition no_wheels : registry_t := mk_registry [] ∅ None 0.

Definition key (tick : Z) : Z := if tick <=? 0 then kDefaultTick else tick.

(** The scan: the wheel found, else the index of the first entry that expired. *)
Fixpoint scan (h : gmap nat timer_wheel_t) (tick : Z) (l : list (Z * nat)) (i : nat) (free_slot : option nat) : nat + option nat :=
  match l with
  | [] => inr free_slot
  | (t, w) :: l =>
      match h !! w with
      | Some _ => if t =? tick then inl w else scan h tick l (S i) free_slot
      | None => scan h tick l (S i) (match free_slot with None => Some i | f => f end)
      end
  end.

Definition wheel_for (tick : Z) g : nat * registry_t :=
  let tick := key tick in
  match scan (heap g) tick (wheels_ g) 0 None with
  | inl w => (w, g)
  | inr free_slot =>
      let w := made g in
      let l := match free_slot with Some i => <[i := (tick, w)]> (wheels_ g) | None => wheels_ g ++ [(tick, w)] end in
      (w, mk_registry l (<[w := make tick ∅]> (heap g)) (deadline_wheel_ g) (S w))
  end.

Definition timeout_wheel g : nat * registry_t :=
  match deadline_wheel_ g with
  | Some w => (w, g)
  | None => let (w, g) := wheel_for 5 g in (w, mk_registry (wheels_ g) (heap g) (Some w) (made g))
  end.

Definition stop_wheels g : registry_t :=
  mk_registry (wheels_ g) (foldl (fun h (e : Z * nat) => alter stop e.2 h) (heap g) (wheels_ g)) (deadline_wheel_ g) (made g).

(** What happens to the registry.  [Use]: a holder works on its wheel. *)
Inductive wheel_op := For (tick : Z) | Timeout | StopAll | Expire (w : nat) | Use (w : nat) (x : timer_wheel_t).
Definition wheel_step (o : wheel_op) g : option registry_t :=
  match o with
  | For tick => Some (wheel_for tick g).2
  | Timeout => Some (timeout_wheel g).2
  | StopAll => Some (stop_wheels g)
  | Expire w => if bool_decide (deadline_wheel_ g = Some w) then None else Some (mk_registry (wheels_ g) (delete w (heap g)) (deadline_wheel_ g) (made g))
  | Use w x =>
      match heap g !! w with
      | Some y => if bool_decide (tick_ x = tick_ y) then Some (mk_registry (wheels_ g) (<[w := x]> (heap g)) (deadline_wheel_ g) (made g)) else None
      | None => None
      end
  end.
Fixpoint wheel_run (l : list wheel_op) g : option registry_t :=
  match l with [] => Some g | o :: l => match wheel_step o g with Some g => wheel_run l g | None => None end end.

(** The ticks that were asked for. *)
Definition asked (l : list wheel_op) : gset Z :=
  list_to_set (omap (fun o => match o with For t => Some (key t) | Timeout => Some (key 5) | _ => None end) l).

(** Every live wheel is in the registry once and under its own tick, and no two
    share a tick. *)
Record registry_ok (A : gset Z) g : Prop := {
  rg_entry : forall i t w, wheels_ g !! i = Some (t, w) -> (w < made g)%nat /\ t ∈ A /\ forall x, heap g !! w = Some x -> tick_ x = t;
  rg_live : forall w x, heap g !! w = Some x -> exists i, wheels_ g !! i = Some (tick_ x, w);
  rg_once : forall i j ti tj w v, wheels_ g !! i = Some (ti, w) -> wheels_ g !! j = Some (tj, v) -> is_Some (heap g !! w) -> is_Some (heap g !! v) -> ti = tj -> i = j;
  rg_size : (length (wheels_ g) <= base.size A)%nat;
  rg_pin : forall w, deadline_wheel_ g = Some w -> exists x, heap g !! w = Some x /\ tick_ x = 5
}.

Lemma wheel_scan_spec h tick l : forall i f,
  match scan h tick l i f with
  | inl w => exists j, l !! j = Some (tick, w) /\ is_Some (h !! w)
  | inr r => (forall j t w, l !! j = Some (t, w) -> is_Some (h !! w) -> t <> tick) /\
      match f with
      | Some _ => r = f
      | None => match r with Some k => exists j t w, k = (i + j)%nat /\ l !! j = Some (t, w) /\ h !! w = None | None => forall j t w, l !! j = Some (t, w) -> is_Some (h !! w) end
      end
  end.
Proof.
  induction l as [|[t w] l IH]; intros i f; simpl; [split; [done|by destruct f]|]. destruct (h !! w) as [x|] eqn:Hw.
  - destruct (Z.eqb_spec t tick) as [->|Hne]; [exists O; eauto|]. pose proof (IH (S i) f) as HI. destruct (scan _ _ _ _ _) as [v|r].
    + destruct HI as (j & Hj & Hv). by exists (S j).
    + destruct HI as [H1 H2]. split; [intros [|j] t' w'; simpl; [intros [= <- <-] _; done|apply H1]|]. destruct f; [done|]. destruct r as [k|].
      * destruct H2 as (j & t' & w' & -> & Hj & Hn). exists (S j), t', w'. split; [lia|done].
      * intros [|j] t' w'; simpl; [intros [= <- <-]; eauto|apply H2].
  - pose proof (IH (S i) (match f with None => Some i | f => f end)) as HI. destruct (scan _ _ _ _ _) as [v|r].
    + destruct HI as (j & Hj & Hv). by exists (S j).
    + destruct HI as [H1 H2]. split; [intros [|j] t' w'; simpl; [intros [= <- <-]; rewrite Hw; by intros [? ?]|apply H1]|]. destruct f; [done|]. subst r.
      exists O, t, w. split; [lia|done].
Qed.

Lemma made_fresh A g : registry_ok A g -> heap g !! made g = None.
Proof.
  intros [R1 R2 R3 R4 R5]. destruct (heap g !! made g) as [x|] eqn:Hx; [|done]. destruct (R2 _ _ Hx) as (i & Hi). destruct (R1 _ _ _ Hi) as [? _]. lia.
Qed.

Lemma registry_wider A B g : A ⊆ B -> registry_ok A g -> registry_ok B g.
Proof.
  intros HA [R1 R2 R3 R4 R5]. constructor; try done; [|pose proof (subseteq_size _ _ HA); lia].
  intros i t w Hi. destruct (R1 i t w Hi) as (? & ? & ?). split_and!; [done|set_solver|done].
Qed.

Lemma key_positive tick : 0 < key tick.
Proof. unfold key, kDefaultTick. destruct (Z.leb_spec tick 0); lia. Qed.
Lemma make_tick tick : tick_ (make (key tick) ∅) = key tick.
Proof. simpl. pose proof (key_positive tick). by destruct (Z.ltb_spec 0 (key tick)); [|lia]. Qed.

(** With every entry alive, their ticks are as many different ones. *)
Lemma full_registry A g tick :
  registry_ok A g -> (forall j t w, wheels_ g !! j = Some (t, w) -> is_Some (heap g !! w)) -> (forall j t w, wheels_ g !! j = Some (t, w) -> is_Some (heap g !! w) -> t <> tick) ->
  (S (length (wheels_ g)) <= base.size (A ∪ {[tick]}))%nat.
Proof.
  intros [R1 R2 R3 R4 R5] Hl Hn. assert (HN : NoDup (tick :: (wheels_ g).*1)).
  { apply NoDup_cons. split.
    - intros ([t w] & Ht & [i Hi]%list_elem_of_lookup)%list_elem_of_fmap. simpl in Ht. subst. by eapply (Hn i _ _ Hi); [by eapply Hl|].
    - apply NoDup_alt. intros i j t Hi Hj. rewrite !list_lookup_fmap in Hi, Hj. destruct (wheels_ g !! i) as [[ti w]|] eqn:Ei; [|done]. destruct (wheels_ g !! j) as [[tj v]|] eqn:Ej; [|done].
      simpl in *. simplify_eq. eapply (R3 i j); eauto. }
  pose proof (size_list_to_set (C := gset Z) _ HN) as Hs. simpl in Hs. rewrite length_fmap in Hs. rewrite <- Hs. apply subseteq_size.
  intros t [->%elem_of_singleton|Ht]%elem_of_union; [set_solver|]. apply elem_of_list_to_set, list_elem_of_fmap in Ht as ([t' w] & -> & [i Hi]%list_elem_of_lookup).
  destruct (R1 _ _ _ Hi) as (_ & ? & _). set_solver.
Qed.

(** A new wheel in place of an expired entry, or behind the last one. *)
Lemma registry_new A g tick k :
  let tick := key tick in let w := made g in
  registry_ok A g -> (forall j t v, wheels_ g !! j = Some (t, v) -> is_Some (heap g !! v) -> t <> tick) ->
  (k = length (wheels_ g) \/ exists t v, wheels_ g !! k = Some (t, v) /\ heap g !! v = None) ->
  forall l, (forall j, l !! j = if decide (j = k) then Some (tick, w) else wheels_ g !! j) -> (length l <= base.size (A ∪ {[tick]}))%nat ->
  registry_ok (A ∪ {[tick]}) (mk_registry l (<[w := make tick ∅]> (heap g)) (deadline_wheel_ g) (S w)).
Proof.
  intros tk w Hg Hn Hk l Hl Hsz. subst tk. pose proof (made_fresh _ _ Hg) as Hf. destruct Hg as [R1 R2 R3 R4 R5].
  assert (Hne : forall j t v, wheels_ g !! j = Some (t, v) -> v <> w) by (intros j t v Hj; destruct (R1 _ _ _ Hj) as [? _]; unfold w; lia).
  constructor; simpl; try done.
  - intros j t v. rewrite Hl. destruct (decide (j = k)) as [->|].
    + intros [= <- <-]. split; [lia|]. split; [set_solver|]. rewrite lookup_insert_eq. intros x [= <-]. apply make_tick.
    + intros Hj. destruct (R1 _ _ _ Hj) as (H1 & H2 & H3). split; [unfold w; lia|]. split; [set_solver|]. rewrite lookup_insert_ne by (symmetry; by eapply Hne). done.
  - intros v x. destruct (decide (v = w)) as [->|Hv].
    + rewrite lookup_insert_eq. intros [= <-]. exists k. rewrite Hl, decide_True, make_tick by done. done.
    + rewrite lookup_insert_ne by done. intros Hx. destruct (R2 _ _ Hx) as (i & Hi). exists i. rewrite Hl, decide_False; [done|].
      intros ->. destruct Hk as [->|(t & v' & Hk & Hd)]; [apply lookup_lt_Some in Hi; lia|]. rewrite Hk in Hi. injection Hi as _ <-. by rewrite Hx in Hd.
  - intros i j ti tj a b. rewrite !Hl. destruct (decide (i = k)) as [->|Hi], (decide (j = k)) as [->|Hj]; try done.
    + intros [= <- <-] Hb. rewrite lookup_insert_eq, lookup_insert_ne by (symmetry; by eapply Hne). intros _ Hlv <-. by destruct (Hn _ _ _ Hb Hlv).
    + intros Ha [= <- <-]. rewrite lookup_insert_eq, lookup_insert_ne by (symmetry; by eapply Hne). intros Hlv _ ->. by destruct (Hn _ _ _ Ha Hlv).
    + intros Ha Hb. rewrite !lookup_insert_ne by (symmetry; by eapply Hne). by apply R3.
  - intros v Hv. destruct (R5 v Hv) as (x & Hx & Ht). exists x. split; [|done]. rewrite lookup_insert_ne; [done|]. intros <-. unfold w in Hx. by rewrite Hf in Hx.
Qed.

Lemma wheel_for_ok A g tick :
  registry_ok A g ->
  let (w, g') := wheel_for tick g in
  registry_ok (A ∪ {[key tick]}) g' /\ (exists x, heap g' !! w = Some x /\ tick_ x = key tick) /\
  (forall v y, heap g !! v = Some y -> tick_ y = key tick -> w = v /\ g' = g) /\ deadline_wheel_ g' = deadline_wheel_ g /\
  (forall v y, heap g !! v = Some y -> heap g' !! v = Some y).
Proof.
  intros Hg. unfold wheel_for. pose proof (wheel_scan_spec (heap g) (key tick) (wheels_ g) 0 None) as Hs. destruct (scan _ _ _ _ _) as [w|f].
  - destruct Hs as (j & Hj & [x Hx]). destruct (rg_entry _ _ Hg _ _ _ Hj) as (_ & Hin & Ht). split; [by eapply registry_wider; [|exact Hg]; set_solver|].
    split; [exists x; auto|]. split; [|done]. intros v y Hv Hy. split; [|done]. destruct (rg_live _ _ Hg _ _ Hv) as (i & Hi). rewrite Hy in Hi.
    assert (i = j) as -> by (eapply (rg_once _ _ Hg i j); eauto). congruence.
  - destruct Hs as [Hn Hf]. split; [|split_and!; [eexists; split; [apply lookup_insert_eq|apply make_tick]| |done|]].
    2: { intros v y Hv Hy. destruct (rg_live _ _ Hg _ _ Hv) as (i & Hi). exfalso. by eapply (Hn i _ _ Hi); [by eexists|]. }
    2: { intros v y Hv. simpl. rewrite lookup_insert_ne; [done|]. intros <-. by rewrite (made_fresh _ _ Hg) in Hv. }
    destruct f as [k|].
    + destruct Hf as (j & t & v & -> & Hj & Hd). apply (registry_new A g tick j); try done; [right; eauto| |].
      * intros i. destruct (decide (i = j)) as [->|]; [apply list_lookup_insert_eq; by eapply lookup_lt_Some|by apply list_lookup_insert_ne].
      * rewrite length_insert. pose proof (rg_size _ _ Hg). pose proof (subseteq_size A (A ∪ {[key tick]}) ltac:(set_solver)). lia.
    + apply (registry_new A g tick (length (wheels_ g))); try done; [by left| |].
      * intros i. destruct (decide (i = length (wheels_ g))) as [->|]; [by apply list_lookup_middle|].
        destruct (decide (i < length (wheels_ g))%nat); [by apply lookup_app_l|]. rewrite !lookup_ge_None_2; [done|lia|rewrite length_app; simpl; lia].
      * rewrite length_app. simpl. rewrite Nat.add_1_r. by apply full_registry.
Qed.

Lemma stop_fold l : forall (h : gmap nat timer_wheel_t) w, foldl (fun h (e : Z * nat) => alter stop e.2 h) h l !! w = (if bool_decide (w ∈ l.*2) then stop else id) <$> h !! w.
Proof.
  induction l as [|[t v] l IH]; intros h w; simpl; [by destruct (h !! w)|]. rewrite IH. destruct (decide (w = v)) as [->|Hne].
  - rewrite lookup_alter_eq, (bool_decide_true (v ∈ v :: _)) by set_solver. destruct (h !! v); simpl; [|done]. by case_bool_decide.
  - rewrite lookup_alter_ne by done. f_equal. case_bool_decide; case_bool_decide; done || set_solver.
Qed.

Lemma stop_spec A g w : registry_ok A g -> heap (stop_wheels g) !! w = stop <$> heap g !! w.
Proof.
  intros Hg. unfold stop_wheels. cbn [heap]. rewrite stop_fold. destruct (heap g !! w) as [x|] eqn:Hx; [|done]. destruct (rg_live _ _ Hg _ _ Hx) as (i & Hi).
  rewrite bool_decide_true; [done|]. apply list_elem_of_fmap. exists (tick_ x, w). split; [done|by eapply list_elem_of_lookup_2].
Qed.

(** The same registry over wheels with the same ticks. *)
Lemma registry_heap A g h :
  (forall w x, h !! w = Some x -> exists y, heap g !! w = Some y /\ tick_ x = tick_ y) -> (forall w, deadline_wheel_ g = Some w -> is_Some (heap g !! w) -> is_Some (h !! w)) ->
  registry_ok A g -> registry_ok A (mk_registry (wheels_ g) h (deadline_wheel_ g) (made g)).
Proof.
  intros Hh Hd [R1 R2 R3 R4 R5]. assert (Hs : forall w, is_Some (h !! w) -> is_Some (heap g !! w)) by (intros w [x Hx]; destruct (Hh _ _ Hx) as (y & ? & _); eauto). constructor; simpl; try done.
  - intros i t w Hi. destruct (R1 _ _ _ Hi) as (H1 & H2 & H3). split_and!; try done. intros x Hx. destruct (Hh _ _ Hx) as (y & Hy & ->). auto.
  - intros w x Hx. destruct (Hh _ _ Hx) as (y & Hy & ->). by apply R2.
  - intros i j ti tj w v Hi Hj Hw Hv. apply (R3 i j ti tj w v); auto.
  - intros w Hw. destruct (R5 w Hw) as (x & Hx & Ht). destruct (Hd w Hw ltac:(eauto)) as [y Hy]. exists y. split; [done|]. destruct (Hh _ _ Hy) as (z & Hz & ->). congruence.
Qed.

Lemma wheel_step_ok A o g g' : registry_ok A g -> wheel_step o g = Some g' -> registry_ok (A ∪ asked [o]) g'.
Proof.
  intros Hg. destruct o as [tick| | |w|w x]; simpl.
  - intros [= <-]. pose proof (wheel_for_ok A g tick Hg) as H. destruct (wheel_for tick g). unfold asked. simpl. rewrite union_empty_r_L. apply H.
  - intros [= <-]. unfold timeout_wheel. destruct (deadline_wheel_ g) as [w|] eqn:Hd; [eapply registry_wider; [|exact Hg]; set_solver|].
    pose proof (wheel_for_ok A g 5 Hg) as H. destruct (wheel_for 5 g) as [w g1]. destruct H as ([R1 R2 R3 R4 R5] & (x & Hx & Ht) & _). unfold asked. simpl. rewrite union_empty_r_L.
    constructor; try done. simpl. intros v [= <-]. by exists x.
  - intros [= <-]. eapply registry_wider; [apply union_subseteq_l|]. apply registry_heap; [| |exact Hg].
    + intros w x. change (foldl _ _ _) with (heap (stop_wheels g)). rewrite (stop_spec A g w Hg). destruct (heap g !! w) as [y|]; [|done]. intros [= <-]. by exists y.
    + intros w _ [x Hx]. change (foldl _ _ _) with (heap (stop_wheels g)). rewrite (stop_spec A g w Hg), Hx. by eexists.
  - case_bool_decide as Hp; [done|]. intros [= <-]. eapply registry_wider; [apply union_subseteq_l|]. apply registry_heap; [| |exact Hg].
    + intros v x [_ Hx]%lookup_delete_Some. by exists x.
    + intros v Hv Hx. rewrite lookup_delete_ne; [done|]. intros ->. done.
  - destruct (heap g !! w) as [y|] eqn:Hy; [|done]. case_bool_decide as Ht; [|done]. intros [= <-]. eapply registry_wider; [apply union_subseteq_l|]. apply registry_heap; [| |exact Hg].
    + intros v z. destruct (decide (v = w)) as [->|]; [rewrite lookup_insert_eq; intros [= <-]; eauto|]. rewrite lookup_insert_ne by done. eauto.
    + intros v _ Hv. destruct (decide (v = w)) as [->|]; [rewrite lookup_insert_eq; by eexists|]. by rewrite lookup_insert_ne.
Qed.

Lemma wheel_run_ok l : forall A g g', registry_ok A g -> wheel_run l g = Some g' -> registry_ok (A ∪ asked l) g'.
Proof.
  induction l as [|o l IH]; intros A g g' Hg; simpl; [intros [= <-]; eapply registry_wider; [|exact Hg]; set_solver|].
  destruct (wheel_step o g) as [g1|] eqn:Hs; [|done]. intros Hr. pose proof (IH _ _ _ (wheel_step_ok _ _ _ _ Hg Hs) Hr) as HI.
  eapply registry_wider; [|exact HI]. unfold asked. simpl. destruct o; simpl; set_solver.
Qed.

Lemma registry_start : registry_ok ∅ no_wheels.
Proof. constructor; try done. Qed.

(** The wheel registry: however wheels are asked for, used, let go of and
    stopped, [wheel_for] returns a live wheel of the tick asked for (the default
    one for a tick that is not positive), the one already alive with that tick
    if there is one, and disturbs no other; the registry is never longer than
    the number of ticks ever asked for; the context's own wheel stays alive with
    its tick of 5 ms; stopping reaches every live wheel. *)
Theorem wheels_shared l g tick :
  wheel_run l no_wheels = Some g ->
  let (w, g') := wheel_for tick g in
  (exists x, heap g' !! w = Some x /\ tick_ x = key tick) /\
  (forall v y, heap g !! v = Some y -> heap g' !! v = Some y /\ (tick_ y = key tick -> w = v)) /\
  (length (wheels_ g') <= base.size (asked (l ++ [For tick])))%nat /\
  (exists x, heap (timeout_wheel g).2 !! (timeout_wheel g).1 = Some x /\ tick_ x = 5) /\
  (forall v x, heap (stop_wheels g) !! v = Some x -> running_ x = false).
Proof.
  intros Hr. pose proof (wheel_run_ok _ _ _ _ registry_start Hr) as Hg. rewrite union_empty_l_L in Hg. pose proof (wheel_for_ok _ g tick Hg) as H.
  destruct (wheel_for tick g) as [w g']. destruct H as (H1 & H2 & H3 & H4 & H5). split_and!.
  - done.
  - intros v y Hv. split; [by apply H5|]. intros Hy. by apply (H3 v y).
  - pose proof (rg_size _ _ H1) as Hs. etrans; [exact Hs|]. apply subseteq_size. unfold asked. rewrite omap_app, list_to_set_app. simpl. set_solver.
  - unfold timeout_wheel. destruct (deadline_wheel_ g) as [d|] eqn:Hd; [by apply (rg_pin _ _ Hg)|]. pose proof (wheel_for_ok _ g 5 Hg) as H. destruct (wheel_for 5 g) as [w5 g5]. by destruct H as (_ & H & _).
  - intros v x. rewrite (stop_spec _ _ _ Hg). destruct (heap g !! v); [|done]. by intros [= <-].
Qed.

Lemma wheels_shared_witness :
  exists g, wheel_run [For 500; Timeout; For 0; For 20; Expire 2; For 30; StopAll] no_wheels = Some g /\ wheels_ g = [(500, 0%nat); (5, 1%nat); (30, 3%nat)] /\ (wheel_for 0 g).1 = 0%nat /\
    (length (wheels_ (wheel_for 0 g).2) <= 4)%nat.
Proof.
  destruct (wheel_run [For 500; Timeout; For 0; For 20; Expire 2; For 30; StopAll] no_wheels) as [g|] eqn:E; [|vm_compute in E; discriminate E].
  pose proof (wheels_shared _ g 0 E) as H. exists g. split; [reflexivity|].
  assert (Hg : wheels_ g = [(500, 0%nat); (5, 1%nat); (30, 3%nat)] /\ (wheel_for 0 g).1 = 0%nat) by (vm_compute in E; injection E as <-; split; vm_compute; reflexivity).
  destruct Hg as [A B]. split; [exact A|]. split; [exact B|]. destruct (wheel_for 0 g) as [w g']. destruct H as (_ & _ & H & _). exact H.
Defined.

(** A run of the context ends by stopping its wheels, and a wheel that was
    stopped starts no runner again: in the next run of the same context the
    deadlines of coroutines are armed on a wheel that does not tick. *)
Lemma next_run_has_no_timeouts A g w x n d :
  registry_ok A g -> deadline_wheel_ g = Some w -> heap g !! w = Some x -> runner_live_ x = false ->
  exists y, timeout_wheel (stop_wheels g) = (w, stop_wheels g) /\ heap (stop_wheels g) !! w = Some y /\ runner_live_ (arm y n d) = false /\ spawned (arm y n d) = spawned x.
Proof.
  intros Hg Hd Hx Hl. exists (stop x). split; [unfold timeout_wheel, stop_wheels; simpl; by rewrite Hd|]. rewrite (stop_spec A g w Hg), Hx. split; [done|].
  unfold arm, ensure_runner. set (y := unlink (stop x) n). assert (Hy : runner_live_ y = false /\ running_ y = false /\ spawned y = spawned x) by (unfold y, unlink; by destruct (negb _)).
  destruct Hy as (H1 & H2 & H3). simpl. rewrite H1, H2. done.
Qed.

(** ** Watching descriptors *)

Definition EINTR : Z := 4.
Definition ECANCELED : Z := 125.

(** [reads]: what the reads return, in order.  The buffers handed to [on_data],
    and the error the watcher retired on. *)
Fixpoint watch_loop (reads : list (expected bytes)) : list bytes * option error_t :=
  match reads with
  | [] => ([], None)
  | Unexpected e :: reads => if code e =? ECANCELED then ([], Some e) else if code e =? EINTR then watch_loop reads else ([], Some e)
  | Ok d :: reads => let (ds, e) := watch_loop reads in (d :: ds, e)
  end.

(** Interruptions apart, everything read is handed on, in order, up to the one
    error the watcher retires on. *)
Lemma watch_loop_spec reads : let (ds, e) := watch_loop reads in
  exists seen rest, reads = seen ++ rest /\ ds = omap (fun r => match r with Ok d => Some d | _ => None end) seen /\
    Forall (fun r => match r with Ok _ => True | Unexpected e => code e = EINTR end) seen /\
    match e with None => rest = [] | Some e => code e <> EINTR /\ exists r, rest = Unexpected e :: r end.
Proof.
  induction reads as [|[d|e] reads IH]; simpl; [by exists [], []| |].
  - destruct (watch_loop reads) as [ds e]. destruct IH as (seen & rest & -> & -> & Hf & He). exists (Ok d :: seen), rest. split_and!; try done. by constructor.
  - destruct (Z.eqb_spec (code e) ECANCELED) as [Hc|Hc]; [exists [], (Unexpected e :: reads); split_and!; try done; [rewrite Hc; done|eauto]|].
    destruct (Z.eqb_spec (code e) EINTR) as [Hi|Hi]; [|exists [], (Unexpected e :: reads); split_and!; eauto].
    destruct (watch_loop reads) as [ds e']. destruct IH as (seen & rest & -> & -> & Hf & He). exists (Unexpected e :: seen), rest. split_and!; try done. by constructor.
Qed.

(** The handlers, the mask of the descriptor, the descriptor, and how often a
    watcher was started. *)
Record signals_t := mk_signals { signal_handlers_ : gmap Z Z; mask : gset Z; signal_fd_ : Z; watchers : nat }.
Definition no_signal : signals_t := mk_signals ∅ ∅ (-1) 0.

(** [fd]: what [signalfd] returns. *)
Definition on_signal (sigs : list Z) (handler fd : Z) (s : signals_t) : signals_t :=
  let hs := foldl (fun m sig => <[sig := handler]> m) (signal_handlers_ s) sigs in
  if 0 <=? signal_fd_ s then mk_signals hs (dom hs) (signal_fd_ s) (watchers s)
  else if fd <? 0 then mk_signals hs (mask s) fd (watchers s)
  else mk_signals hs (dom hs) fd (S (watchers s)).
Definition dispatch (sig : Z) (s : signals_t) : option Z := signal_handlers_ s !! sig.

Lemma handlers_fold sigs (handler : Z) : forall (m : gmap Z Z) sig, foldl (fun m sig => <[sig := handler]> m) m sigs !! sig = if bool_decide (sig ∈ sigs) then Some handler else m !! sig.
Proof.
  induction sigs as [|x sigs IH]; intros m sig; simpl; [done|]. rewrite IH. case_bool_decide as H1; case_bool_decide as H2; try done; [set_solver| |].
  - assert (sig = x) as -> by set_solver. apply lookup_insert_eq.
  - apply lookup_insert_ne. set_solver.
Qed.

(** What the descriptor delivers has a handler; there is one watcher, while the
    descriptor is open. *)
Record signals_ok (s : signals_t) : Prop := {
  sg_mask : mask s ⊆ dom (signal_handlers_ s);
  sg_open : 0 <= signal_fd_ s -> mask s = dom (signal_handlers_ s);
  sg_watcher : watchers s = if 0 <=? signal_fd_ s then 1%nat else O
}.

Lemma on_signal_ok sigs h fd s : signals_ok s -> signals_ok (on_signal sigs h fd s).
Proof.
  intros [M O W]. unfold on_signal. set (hs := foldl _ _ _).
  assert (Hdom : dom (signal_handlers_ s) ⊆ dom hs) by (intros x [y Hy]%elem_of_dom; apply elem_of_dom; unfold hs; rewrite handlers_fold; case_bool_decide; eauto).
  destruct (Z.leb_spec 0 (signal_fd_ s)) as [H|H]; [constructor; simpl; try done; by destruct (Z.leb_spec 0 (signal_fd_ s)); [|lia]|].
  destruct (Z.ltb_spec fd 0); constructor; simpl; try done; try set_solver; try lia;
    rewrite W; destruct (Z.leb_spec 0 fd), (Z.leb_spec 0 (signal_fd_ s)); done || lia.
Qed.

(** The last handler registered for a signal gets it. *)
Lemma on_signal_serves (l : list (list Z * Z * Z)) :
  let s := foldl (fun s r => on_signal r.1.1 r.1.2 r.2 s) no_signal l in
  signals_ok s /\ forall sigs h fd sig, sig ∈ sigs -> dispatch sig (on_signal sigs h fd s) = Some h.
Proof.
  assert (H0 : signals_ok no_signal) by (constructor; simpl; done || lia). revert H0. generalize no_signal. induction l as [|r l IH]; intros s H0; cbn [foldl]; [|apply IH, on_signal_ok, H0].
  split; [done|]. intros sigs h fd sig Hin. unfold dispatch, on_signal.
  assert (Hh : foldl (fun m sig => <[sig := h]> m) (signal_handlers_ s) sigs !! sig = Some h) by by rewrite handlers_fold, bool_decide_true.
  destruct (0 <=? signal_fd_ s); [done|]. by destruct (fd <? 0).
Qed.

(** ** Cancelling everything *)

Definition ENOENT : Z := 2.

(** The cancel operations a sweep issues, given their results: one for all, over
    and over while it finds something; or one for each operation in the table.
    The flag: whether the sweep came to its end. *)
Fixpoint cancel_any (rets : list (expected Z)) : nat * bool :=
  match rets with
  | [] => (1%nat, false)
  | Unexpected _ :: _ => (1%nat, true)
  | Ok n :: rets => if n =? 0 then (1%nat, true) else let (k, b) := cancel_any rets in (S k, b)
  end.
Definition cancel_sweep (kernel_ge_5_19_ : bool) (table : io_slot_table_t) (rets : list (expected Z)) : list (option Z) * bool :=
  if kernel_ge_5_19_ then let (k, b) := cancel_any rets in (replicate k None, b)
  else (Some <$> active table, true).

(** Against a ring that cancels no more operations than are [left] in all, a
    sweep is at its end after as many results and one. *)
Lemma cancel_any_ends rets : forall left, (left < length rets)%nat -> (forall i n, rets !! i = Some (Ok n) -> 0 <= n) ->
  (sum_list_with (fun r => match r with Ok n => Z.to_nat n | Unexpected _ => O end) rets <= left)%nat -> (cancel_any rets).2 = true.
Proof.
  induction rets as [|[n|e] rets IH]; intros left Hl Hp Hs; simpl in *; [lia| |done]. destruct (Z.eqb_spec n 0) as [|Hn]; [done|]. pose proof (Hp 0%nat n eq_refl).
  destruct (cancel_any rets) as [k b] eqn:Ec. simpl. change b with ((k, b).2). apply (IH (left - Z.to_nat n)%nat); [lia| |lia]. intros i m Hi. by apply (Hp (S i)).
Qed.
