(* ===== verification/CoroTimeout.v ===== *)
(** * Timeouts of coroutines

    [coro_timeout_awaiter_base] and its two awaiters in
    include/cornet/concurrency/combinators.h: a coroutine raced against a timer
    on the context's wheel of 5 ms.  The wheel is its ticks: an armed timer
    fires after [delay_ticks] of them (the theorem of TimerWheel); the canceler
    is whether it was asked to cancel, and whether it was deleted or left to
    itself (CancelSound has its life). *)

From stdpp Require Import prelude gmap.
From Stdlib Require Import ZArith Lia.
From S2P Require Import Prelude TimerWheel.
Open Scope Z_scope.

Definition ETIMEDOUT : Z := 110.

(** How the target ends: a value ([expected], or void) or an exception. *)
Inductive target_t := Fresh | Running | Ended (v : expected Z) | Threw (x : Z).
Inductive answer_t := Returned (v : expected Z) | Rethrown (x : Z).
Inductive canceler_t := Held (cancelled : bool) | Deleted | Orphaned.

Record timeout_t := mk_timeout {
  timeout_ : Z; started_ : bool; timed_out_ : bool; node_ : option Z; canceler_ : canceler_t; target : target_t;
  alive : bool; answer : option answer_t; elapsed : Z
}.
Implicit Types s : timeout_t.

Definition with_timeout (timeout : Z) : timeout_t := mk_timeout timeout false false None (Held false) Fresh true None 0.

Definition wheel : timer_wheel_t := make 5 ∅.

(** Whole milliseconds, rounded up. *)
Definition delay_ms (timeout : Z) : Z := Z.quot (timeout + 1000000 - 1) 1000000.

Definition await_suspend s : timeout_t :=
  mk_timeout (timeout_ s) true (timed_out_ s) (Some (delay_ticks wheel (delay_ms (timeout_ s)))) (canceler_ s) Running (alive s) (answer s) 0.

(** [on_expire] *)
Definition on_expire s : timeout_t :=
  mk_timeout (timeout_ s) (started_ s) true None (match canceler_ s with Held _ => Held true | c => c end) (target s) (alive s) (answer s) (elapsed s).

(** One tick of the wheel. *)
Definition tick s : timeout_t :=
  let s := mk_timeout (timeout_ s) (started_ s) (timed_out_ s) (match node_ s with Some n => Some (n - 1) | None => None end) (canceler_ s) (target s) (alive s) (answer s) (elapsed s + 1) in
  match node_ s with Some n => if n <=? 0 then on_expire s else s | None => s end.

Definition await_resume s : option answer_t :=
  match target s with
  | Threw x => Some (Rethrown x)
  | Ended v => Some (Returned (if timed_out_ s then Unexpected (system_error ETIMEDOUT) else v))
  | _ => None
  end.

(** The destructor of the awaiter. *)
Definition destroy s : timeout_t :=
  let c := match started_ s, target s with
           | false, _ | _, Ended _ | _, Threw _ => Deleted
           | true, _ => Orphaned
           end in
  mk_timeout (timeout_ s) (started_ s) (timed_out_ s) None c (target s) false (answer s) (elapsed s).

(** The target ends: its awaiting coroutine goes on, if there is one, with the
    result; the awaiter dies with the expression. *)
Definition finish (e : target_t) s : timeout_t :=
  let s := mk_timeout (timeout_ s) (started_ s) (timed_out_ s) (node_ s) (canceler_ s) e (alive s) (answer s) (elapsed s) in
  if alive s then destroy (mk_timeout (timeout_ s) (started_ s) (timed_out_ s) (node_ s) (canceler_ s) e true (await_resume s) (elapsed s)) else s.

Inductive timeout_op := Start | Tick | Finish (v : expected Z) | Throw (x : Z) | Destroy.
Definition timeout_step (o : timeout_op) s : option timeout_t :=
  match o with
  | Start => if alive s && negb (started_ s) then Some (await_suspend s) else None
  | Tick => Some (tick s)
  | Finish v => match target s with Running => Some (finish (Ended v) s) | _ => None end
  | Throw x => match target s with Running => Some (finish (Threw x) s) | _ => None end
  | Destroy => if alive s then Some (destroy s) else None
  end.
Fixpoint timeout_run (l : list timeout_op) s : option timeout_t :=
  match l with [] => Some s | o :: l => match timeout_step o s with Some s => timeout_run l s | None => None end end.

(** ** The race *)

Definition ticks_of s : Z := delay_ticks wheel (delay_ms (timeout_ s)).

Record timeout_ok s : Prop := {
  to_elapsed : 0 <= elapsed s;
  to_node : match node_ s with
            | Some n => alive s = true /\ started_ s = true /\ target s = Running /\ timed_out_ s = false /\ 0 < n /\ n + elapsed s = ticks_of s
            | None => alive s = true -> target s = Running -> timed_out_ s = true
            end;
  to_fired : timed_out_ s = true -> started_ s = true /\ ticks_of s <= elapsed s;
  to_cancel : alive s = true -> canceler_ s = Held (timed_out_ s);
  to_gone : alive s = false -> canceler_ s = (match answer s with Some _ => Deleted | None => if started_ s then Orphaned else Deleted end);
  to_started : started_ s = false <-> target s = Fresh;
  to_answer : match answer s with
              | Some (Rethrown x) => target s = Threw x
              | Some (Returned v) => exists w, target s = Ended w /\ v = if timed_out_ s then Unexpected (system_error ETIMEDOUT) else w
              | None => True
              end;
  to_ended : alive s = true -> answer s = None /\ (target s = Fresh \/ target s = Running)
}.

Lemma delay_ms_spec t : 0 <= t < 2 ^ 63 -> t <= delay_ms t * 1000000 /\ 0 <= delay_ms t < 2 ^ 63.
Proof.
  intros Ht. unfold delay_ms. rewrite Z.quot_div_nonneg by lia. pose proof (Z.div_mod (t + 1000000 - 1) 1000000). pose proof (Z.mod_pos_bound (t + 1000000 - 1) 1000000).
  split; [lia|]. split; [apply Z.div_pos; lia|]. apply Z.div_lt_upper_bound; lia.
Qed.

Lemma ticks_enough s : 0 <= timeout_ s < 2 ^ 63 -> 0 < ticks_of s /\ timeout_ s <= ticks_of s * 5000000.
Proof.
  intros Ht. destruct (delay_ms_spec _ Ht) as [H1 H2]. unfold ticks_of, delay_ticks, wheel. cbn [tick_ make]. change (if 0 <? 5 then 5 else kDefaultTick) with 5.
  set (ms := delay_ms (timeout_ s)) in *. rewrite Z.quot_div_nonneg by lia. set (tk := (ms + 5 - 1) / 5). assert (Htk : ms <= tk * 5 /\ 0 <= tk < 2 ^ 64).
  { unfold tk. pose proof (Z.div_mod (ms + 5 - 1) 5). pose proof (Z.mod_pos_bound (ms + 5 - 1) 5). split; [lia|]. split; [apply Z.div_pos; lia|]. apply Z.div_lt_upper_bound; lia. }
  rewrite u64_small by lia. destruct (Z.eqb_spec tk 0); lia.
Qed.

Lemma race_start_ok s : timeout_ok s -> 0 <= timeout_ s < 2 ^ 63 -> alive s = true -> started_ s = false -> timeout_ok (await_suspend s).
Proof.
  intros [E N F C G S A D] Ht Ha Hs. assert (Hf : timed_out_ s = false) by (destruct (timed_out_ s); [destruct (F eq_refl); congruence|done]).
  destruct (D Ha) as [Hn _]. constructor; simpl.
  - lia.
  - split_and!; try done; [apply (ticks_enough s Ht)|unfold ticks_of; simpl; lia].
  - rewrite Hf. done.
  - done.
  - rewrite Ha. done.
  - done.
  - by rewrite Hn.
  - split; [done|by right].
Qed.

Lemma tick_ok s : timeout_ok s -> timeout_ok (tick s).
Proof.
  intros [E N F C G S A D]. unfold tick. cbn [node_]. destruct (node_ s) as [n|] eqn:Hn.
  - destruct N as (N1 & N2 & N3 & N4 & N5 & N6). destruct (D N1) as [D1 D2]. unfold ticks_of in *. destruct (Z.leb_spec (n - 1) 0); constructor; unfold ticks_of; simpl; try done; try lia.
    all: try (intros Hx; congruence). all: try (by rewrite D1). all: try (by intros _; rewrite (C N1)).
    + intros _. split; [done|lia].
    + split_and!; done || lia.

  - constructor; simpl; try done; try lia. intros Hx. destruct (F Hx) as [F1 F2]. split; [done|]. unfold ticks_of in *. simpl. lia.
Qed.

Lemma race_destroy_ok s : timeout_ok s -> alive s = true -> timeout_ok (destroy s).
Proof.
  intros [E N F C G S A D] Ha. destruct (D Ha) as [D1 D2]. constructor; simpl; try done. intros _. rewrite D1.
  destruct (started_ s) eqn:Hs; [|done]. destruct D2 as [Hx|Hx]; rewrite Hx; [|done]. apply S in Hx. congruence.
Qed.

Lemma race_finish_ok s e : timeout_ok s -> target s = Running -> (exists v, e = Ended v) \/ (exists x, e = Threw x) -> timeout_ok (finish e s).
Proof.
  intros [E N F C G S A D] Hr He. assert (Hst : started_ s = true) by (destruct (started_ s); [done|]; destruct S as [S _]; specialize (S eq_refl); congruence).
  unfold finish. cbn [alive]. destruct (alive s) eqn:Ha.
  - destruct (D eq_refl) as [D1 _]. constructor; simpl; try done.
    + intros _. rewrite Hst. destruct He as [[v ->]|[x ->]]; simpl; done.
    + rewrite Hst. destruct He as [[v ->]|[x ->]]; done.
    + destruct He as [[v ->]|[x ->]]; simpl; [by exists v|done].
  - assert (Hnone : answer s = None). { destruct (answer s) as [[v|x]|]; [destruct A as (w & Hw & _); congruence|congruence|done]. }
    constructor; simpl; try done; [destruct (node_ s); [by destruct N|done]|by rewrite Hst; destruct He as [[v ->]|[x ->]]|by rewrite Hnone].
Qed.

Lemma timeout_step_ok o s s' : timeout_ok s -> 0 <= timeout_ s < 2 ^ 63 -> timeout_step o s = Some s' -> timeout_ok s' /\ timeout_ s' = timeout_ s.
Proof.
  intros Hs Ht. destruct o; simpl.
  - destruct (alive s) eqn:Ha; simpl; [|done]. destruct (started_ s) eqn:Hst; simpl; [done|]. intros [= <-]. split; [by apply race_start_ok|done].
  - intros [= <-]. split; [by apply tick_ok|]. unfold tick. cbn [node_]. destruct (node_ s) as [n|]; [|done]. by destruct (n - 1 <=? 0).
  - destruct (target s) eqn:Hr; try done. intros [= <-]. split; [apply race_finish_ok; eauto|]. unfold finish. cbn [alive]. by destruct (alive s).
  - destruct (target s) eqn:Hr; try done. intros [= <-]. split; [apply race_finish_ok; eauto|]. unfold finish. cbn [alive]. by destruct (alive s).
  - destruct (alive s) eqn:Ha; [|done]. intros [= <-]. split; [by apply race_destroy_ok|done].
Qed.

Lemma timeout_run_ok l s : forall s0, timeout_ok s0 -> 0 <= timeout_ s0 < 2 ^ 63 -> timeout_run l s0 = Some s -> timeout_ok s /\ timeout_ s = timeout_ s0.
Proof.
  induction l as [|o l IH]; intros s0 H0 Ht; simpl; [by intros [= <-]|]. destruct (timeout_step o s0) as [s1|] eqn:Hs; [|done].
  destruct (timeout_step_ok _ _ _ H0 Ht Hs) as [H1 E1]. intros Hr. destruct (IH s1 H1 ltac:(by rewrite E1) Hr) as [H2 E2]. split; [done|congruence].
Qed.

(** A coroutine raced against a timeout, whatever the order of ticks, its
    end and the destruction of the one that waits: the answer is the exception
    it threw, else ETIMEDOUT if the timer had fired, else its result, and comes
    only once it has ended; the timer fires at the tick it was armed for, never
    before the timeout is over, and then the canceler has been asked; no timer
    is armed once the awaiter is gone; the canceler is deleted by the awaiter
    exactly when the target was never started or has ended, and left to itself
    while it runs. *)
Theorem coro_timeout_sound timeout l s :
  0 <= timeout < 2 ^ 63 -> timeout_run l (with_timeout timeout) = Some s ->
  match answer s with
  | Some (Rethrown x) => target s = Threw x
  | Some (Returned v) => exists w, target s = Ended w /\ v = if timed_out_ s then Unexpected (system_error ETIMEDOUT) else w
  | None => True
  end /\
  (timed_out_ s = true -> timeout <= elapsed s * 5000000) /\
  (alive s = true -> target s = Running -> (timed_out_ s = true <-> ticks_of s <= elapsed s)) /\
  (alive s = true -> canceler_ s = Held (timed_out_ s)) /\
  (is_Some (node_ s) -> alive s = true) /\
  (alive s = false -> canceler_ s = match answer s with Some _ => Deleted | None => if started_ s then Orphaned else Deleted end).
Proof.
  intros Ht Hr. assert (H0 : timeout_ok (with_timeout timeout)) by (constructor; simpl; done || auto). destruct (timeout_run_ok l s _ H0 Ht Hr) as [[E N F C G S A D] Et]. simpl in Et.
  split_and!; try done.
  - intros Hf. destruct (F Hf) as [_ Hle]. destruct (ticks_enough s ltac:(rewrite Et; done)) as [_ H2]. rewrite Et in H2. lia.
  - intros Ha Hrun. split; [intros Hf; apply (F Hf)|]. intros Hle. destruct (node_ s) as [n|]; [|by apply N]. destruct N as (_ & _ & _ & _ & ? & ?). lia.
  - intros [n Hn]. rewrite Hn in N. apply N.
Qed.

Lemma coro_timeout_sound_witness :
  exists s, timeout_run [Start; Tick; Tick; Finish (Ok 7)] (with_timeout 6000000) = Some s /\ answer s = Some (Returned (Unexpected (system_error ETIMEDOUT))) /\ 6000000 <= elapsed s * 5000000.
Proof.
  destruct (timeout_run [Start; Tick; Tick; Finish (Ok 7)] (with_timeout 6000000)) as [s|] eqn:E; [|vm_compute in E; discriminate E].
  destruct (coro_timeout_sound 6000000 _ s ltac:(lia) E) as (_ & H & _). exists s. split; [reflexivity|].
  assert (Hs : answer s = Some (Returned (Unexpected (system_error ETIMEDOUT))) /\ timed_out_ s = true) by (vm_compute in E; injection E as <-; split; reflexivity).
  destruct Hs as [A B]. split; [exact A|exact (H B)].
Defined.
