(* ===== verification/Sockets.v ===== *)
(** * Sockets

    The ownership of descriptors by the sockets of src/socket.cc (constructors,
    moves, [release], [close], the destructor), the choice of an address by
    [resolve], and the addresses of local sockets with [bind].  [inet_pton],
    [getaddrinfo], the file system and [::bind] are arguments. *)

From stdpp Require Import prelude gmap list list_numbers.
From Stdlib Require Import ZArith Lia.
From S2P Require Import Prelude.
Open Scope Z_scope.

(** ** Descriptors *)

(** The sockets by name; -1 is none.  History: the descriptors made, closed by a
    destructor or an assignment, and handed on ([release], [close]). *)
Record sockets_t := mk_sockets { socks : gmap nat Z; opened : list Z; closed : list Z; handed : list Z }.
Implicit Types s : sockets_t.

Inductive sock_op := Make (x : nat) (fd : Z) | MoveTo (y x : nat) | Assign (y x : nat) | Release (x : nat) | Close (x : nat) | Destroy (x : nat).

Definition close_fd (fd : Z) : list Z := if fd =? -1 then [] else [fd].

(** [None]: the name is taken, or there is no such socket. *)
Definition sock_step (o : sock_op) s : option sockets_t :=
  match o with
  | Make x fd =>
      match socks s !! x with
      | None => if fd <? 0 then Some s else Some (mk_sockets (<[x := fd]> (socks s)) (opened s ++ [fd]) (closed s) (handed s))
      | Some _ => None
      end
  | MoveTo y x =>
      match socks s !! x, socks s !! y with
      | Some fd, None => Some (mk_sockets (<[y := fd]> (<[x := -1]> (socks s))) (opened s) (closed s) (handed s))
      | _, _ => None
      end
  | Assign y x =>
      match socks s !! x, socks s !! y with
      | Some fd, Some old =>
          if decide (x = y) then Some s
          else Some (mk_sockets (<[x := -1]> (<[y := fd]> (socks s))) (opened s) (closed s ++ close_fd old) (handed s))
      | _, _ => None
      end
  | Release x | Close x =>
      match socks s !! x with
      | Some fd => Some (mk_sockets (<[x := -1]> (socks s)) (opened s) (closed s) (handed s ++ close_fd fd))
      | None => None
      end
  | Destroy x =>
      match socks s !! x with
      | Some fd => Some (mk_sockets (delete x (socks s)) (opened s) (closed s ++ close_fd fd) (handed s))
      | None => None
      end
  end.
Fixpoint sock_run (l : list sock_op) s : option sockets_t :=
  match l with [] => Some s | o :: l => match sock_step o s with Some s => sock_run l s | None => None end end.
Definition no_sockets : sockets_t := mk_sockets ∅ [] [] [].

(** The descriptors held. *)
Definition held (m : gmap nat Z) : list Z := concat (close_fd <$> (map_to_list m).*2).

Lemma held_insert m x fd : m !! x = None -> held (<[x := fd]> m) ≡ₚ close_fd fd ++ held m.
Proof. intros Hx. unfold held. rewrite (map_to_list_insert m x fd Hx), fmap_cons, fmap_cons. done. Qed.
Lemma held_delete m x fd : m !! x = Some fd -> held m ≡ₚ close_fd fd ++ held (delete x m).
Proof. intros Hx. rewrite <- (insert_delete_id m x fd Hx) at 1. apply held_insert, lookup_delete_eq. Qed.
Lemma held_update m x fd fd' : m !! x = Some fd -> exists r, held m ≡ₚ close_fd fd ++ r /\ held (<[x := fd']> m) ≡ₚ close_fd fd' ++ r.
Proof.
  intros Hx. exists (held (delete x m)). split; [by apply held_delete|]. rewrite <- insert_delete_eq. apply held_insert, lookup_delete_eq.
Qed.

Definition accounted s : Prop := opened s ≡ₚ held (socks s) ++ closed s ++ handed s.

Lemma sock_step_ok o s s' : accounted s -> sock_step o s = Some s' -> accounted s'.
Proof.
  unfold accounted. intros Ha. destruct o as [x fd|y x|y x|x|x|x]; simpl.
  - destruct (socks s !! x) eqn:Hx; [done|]. destruct (Z.ltb_spec fd 0); intros [= <-]; [done|]. simpl. rewrite held_insert, Ha by done. unfold close_fd. destruct (Z.eqb_spec fd (-1)); [lia|]. solve_Permutation.
  - destruct (socks s !! x) as [fd|] eqn:Hx; [|done]. destruct (socks s !! y) eqn:Hy; [done|]. intros [= <-]. simpl. destruct (held_update _ x fd (-1) Hx) as (r & H1 & H2).
    rewrite held_insert, H2, Ha, H1 by (rewrite lookup_insert_ne; [done|]; intros ->; congruence). done.
  - destruct (socks s !! x) as [fd|] eqn:Hx; [|done]. destruct (socks s !! y) as [old|] eqn:Hy; [|done]. destruct (decide (x = y)) as [|Hne]; intros [= <-]; [done|]. simpl.
    destruct (held_update _ y old fd Hy) as (r & H1 & H2). destruct (held_update (<[y := fd]> (socks s)) x fd (-1) ltac:(by rewrite lookup_insert_ne)) as (r2 & H3 & H4).
    rewrite H4, Ha, H1. rewrite H2 in H3. apply Permutation_app_inv_l in H3. rewrite <- H3. simpl. solve_Permutation.
  - destruct (socks s !! x) as [fd|] eqn:Hx; [|done]. intros [= <-]. simpl. destruct (held_update _ x fd (-1) Hx) as (r & H1 & H2). rewrite H2, Ha, H1. simpl. solve_Permutation.
  - destruct (socks s !! x) as [fd|] eqn:Hx; [|done]. intros [= <-]. simpl. destruct (held_update _ x fd (-1) Hx) as (r & H1 & H2). rewrite H2, Ha, H1. simpl. solve_Permutation.
  - destruct (socks s !! x) as [fd|] eqn:Hx; [|done]. intros [= <-]. simpl. rewrite Ha, (held_delete _ _ _ Hx). solve_Permutation.
Qed.

(** Sockets own their descriptors: after any constructions, moves, assignments
    (to itself too), releases, closes and destructions, every descriptor that a
    socket was made with is held by exactly one socket, or was closed exactly
    once, or was handed on exactly once, and once no socket is left none is
    open. *)
Theorem sockets_own l s :
  sock_run l no_sockets = Some s -> opened s ≡ₚ held (socks s) ++ closed s ++ handed s /\ (socks s = ∅ -> opened s ≡ₚ closed s ++ handed s).
Proof.
  intros Hr. assert (Hok : accounted s).
  { assert (H0 : accounted no_sockets) by (unfold accounted, held; simpl; by rewrite map_to_list_empty). revert H0 Hr. generalize no_sockets. induction l as [|o l IH]; intros s0 H0; simpl; [by intros [= <-]|].
    destruct (sock_step o s0) as [s1|] eqn:Hs; [|done]. apply IH. by eapply sock_step_ok. }
  split; [exact Hok|]. intros He. unfold accounted in Hok. rewrite He in Hok. exact Hok.
Qed.

Lemma sockets_own_witness :
  exists s, sock_run [Make 0 5; Make 1 6; MoveTo 2 0; Assign 1 2; Assign 1 1; Close 1; Destroy 0; Destroy 1; Destroy 2] no_sockets = Some s /\ closed s = [6] /\ handed s = [5] /\ opened s ≡ₚ closed s ++ handed s.
Proof.
  destruct (sock_run [Make 0 5; Make 1 6; MoveTo 2 0; Assign 1 2; Assign 1 1; Close 1; Destroy 0; Destroy 1; Destroy 2] no_sockets) as [s|] eqn:E; [|vm_compute in E; discriminate E].
  destruct (sockets_own _ s E) as [_ H]. exists s. split; [reflexivity|].
  assert (Hs : closed s = [6] /\ handed s = [5] /\ socks s = ∅) by (vm_compute in E; injection E as <-; repeat split).
  destruct Hs as (A & B & C). split; [exact A|]. split; [exact B|exact (H C)].
Defined.

(** ** Resolving *)

Inductive family_t := AF_UNSPEC | AF_UNIX | AF_INET | AF_INET6.
#[global] Instance family_t_eq_dec : EqDecision family_t.
Proof. solve_decision. Defined.

Record address_t := mk_address { family : family_t; host_part : bytes; port : Z }.

Definition try_resolve_numeric (pton4 pton6 : bytes -> option bytes) (host : bytes) (p : Z) : option address_t :=
  match pton4 host with
  | Some a => Some (mk_address AF_INET a p)
  | None => match pton6 host with Some a => Some (mk_address AF_INET6 a p) | None => None end
  end.

(** The walk over the list: [pick] is the entry chosen so far, [first] whether it
    is still the head. *)
Fixpoint pick_from (pick : address_t) (first : bool) (at_head : bool) (l : list address_t) : address_t :=
  match l with
  | [] => pick
  | a :: l =>
      if bool_decide (family a = AF_INET) then a
      else if first && bool_decide (family a = AF_INET6) then pick_from a at_head false l
      else pick_from pick first false l
  end.
Definition pick_address (l : list address_t) : option address_t :=
  match l with [] => None | a :: _ => Some (pick_from a true true l) end.

Definition EAI_NONAME : Z := -2.
Definition resolve_error (n : Z) : error_t := Error n DResolve.

(** [lookup]: what [getaddrinfo] returns for the host. *)
Definition resolve (pton4 pton6 : bytes -> option bytes) (lookup : Z + list address_t) (host : bytes) (p : Z) (fam : family_t) : expected address_t :=
  let slow := match lookup with
              | inl n => Unexpected (resolve_error n)
              | inr l => match pick_address l with Some a => Ok a | None => Unexpected (resolve_error EAI_NONAME) end
              end in
  match try_resolve_numeric pton4 pton6 host p with
  | Some a => if bool_decide (fam = AF_UNSPEC) || bool_decide (family a = fam) then Ok a else slow
  | None => slow
  end.

Lemma pick_from_v4 l : forall pick first at_head, existsb (fun a => bool_decide (family a = AF_INET)) l = true ->
  exists pre a post, l = pre ++ a :: post /\ family a = AF_INET /\ Forall (fun b => family b <> AF_INET) pre /\ pick_from pick first at_head l = a.
Proof.
  induction l as [|a l IH]; intros pick first at_head; simpl; [done|]. case_bool_decide as Ha; simpl; [intros _; by exists [], a, l|]. intros Hl.
  destruct (first && _); [destruct (IH a at_head false Hl) as (pre & b & post & -> & Hb & Hf & Hp)|destruct (IH pick first false Hl) as (pre & b & post & -> & Hb & Hf & Hp)];
    exists (a :: pre), b, post; split_and!; try done; by constructor.
Qed.

(** A name with an IPv4 address resolves to the first of them; a numeric host of
    the family asked for never reaches the resolver; an empty list is an error. *)
Lemma resolve_prefers_v4 pton4 pton6 lookup host p fam a :
  resolve pton4 pton6 lookup host p fam = Ok a ->
  (try_resolve_numeric pton4 pton6 host p = Some a /\ port a = p) \/
  (exists l, lookup = inr l /\ pick_address l = Some a /\
     (existsb (fun a => bool_decide (family a = AF_INET)) l = true -> exists pre post, l = pre ++ a :: post /\ family a = AF_INET /\ Forall (fun b => family b <> AF_INET) pre)).
Proof.
  unfold resolve. assert (Hslow : (match lookup with inl n => Unexpected (resolve_error n) | inr l => match pick_address l with Some a => Ok a | None => Unexpected (resolve_error EAI_NONAME) end end) = Ok a ->
    exists l, lookup = inr l /\ pick_address l = Some a /\ (existsb (fun a => bool_decide (family a = AF_INET)) l = true -> exists pre post, l = pre ++ a :: post /\ family a = AF_INET /\ Forall (fun b => family b <> AF_INET) pre)).
  { destruct lookup as [n|l]; [done|]. destruct (pick_address l) as [b|] eqn:Hp; [|done]. intros [= ->]. exists l. split_and!; try done. intros Hl. destruct l as [|x l]; [done|].
    assert (Hb : Some (pick_from x true true (x :: l)) = Some a) by exact Hp.
    destruct (pick_from_v4 (x :: l) x true true Hl) as (pre & y & post & H1 & H2 & H3 & H4). rewrite H4 in Hb. injection Hb as ->. eauto. }
  destruct (try_resolve_numeric pton4 pton6 host p) as [b|] eqn:Hn; [|auto]. destruct (_ || _); [|auto]. intros [= ->]. left. split; [done|].
  unfold try_resolve_numeric in Hn. destruct (pton4 host); [injection Hn as <-; done|]. destruct (pton6 host); [injection Hn as <-; done|done].
Qed.

(** With IPv6 addresses only, the second is taken before the first, against the
    order of the resolver. *)
Example second_v6_first :
  pick_address [mk_address AF_INET6 [1] 80; mk_address AF_INET6 [2] 80; mk_address AF_INET6 [3] 80] = Some (mk_address AF_INET6 [2] 80).
Proof. reflexivity. Qed.

(** ** Local sockets *)

Definition sun_path_size : Z := 108.
Definition ENAMETOOLONG : Z := 36.

(** The address of a path: its bytes, a zero behind them. *)
Definition to_address (path : bytes) : expected bytes :=
  if sun_path_size - 1 <? size path then Unexpected (system_error ENAMETOOLONG) else Ok (path ++ [0]).

(** What is at a path. *)
Inductive node_t := Missing | SocketFile | OtherFile.

(** [bind] on a local socket: the result, and what is at the path before
    [::bind]; [bound]: what [::bind] returns. *)
Definition bind_local (bound : expected unit) (path : bytes) (at_path : node_t) : expected unit * node_t :=
  let n := match at_path with SocketFile => Missing | n => n end in
  match to_address path with
  | Unexpected e => (Unexpected e, n)
  | Ok _ => (bound, n)
  end.

(** A path that fits is stored whole and ended; nothing but a socket is removed. *)
Lemma bind_local_safe bound path n :
  (snd (bind_local bound path n) <> n -> n = SocketFile) /\
  match to_address path with Ok a => size a <= sun_path_size /\ take (length path) a = path /\ last a = Some 0 | Unexpected _ => sun_path_size <= size path end.
Proof.
  unfold bind_local, to_address. destruct (Z.ltb_spec (sun_path_size - 1) (size path)); simpl; (split; [by destruct n|]); [lia|].
  rewrite size_app. change (size [0]) with 1. split; [lia|]. split; [by rewrite take_app_length|by rewrite last_snoc].
Qed.

(** A path that is too long is refused after the socket file at it was removed. *)
Example too_long_unlinks : bind_local (Ok tt) (replicate 108 47) SocketFile = (Unexpected (system_error ENAMETOOLONG), Missing).
Proof. reflexivity. Qed.
