(* ===== verification/Join.v ===== *)
(** * Waiting for several coroutines

    [when_all] and both forms of [when_any] of
    src/include/cornet/concurrency/combinators.h: a heap state with a plain
    reference count, shared by the awaiter and one wrapper coroutine per task.
    All of them run on the owner thread, so each operation below is atomic.
    [None] is a use of the state after it was deleted. *)

From stdpp Require Import prelude list.
From Stdlib Require Import ZArith Lia.
From S2P Require Import Prelude.
Open Scope Z_scope.

Definition EFAULT : Z := 14.

(** ** Tasks *)

(** How a task ends: with its (flattened) result or by an exception. *)
Inductive outcome := Returned (r : expected Z) | Threw.

Definition slot_of (o : outcome) : expected Z :=
  match o with Returned r => r | Threw => Unexpected (Error EFAULT DException) end.

(** A wrapper coroutine: not spawned yet, spawned, or past its last access. *)
Inductive task_pc := Unlaunched | Launched | Finished (o : outcome).

Definition unfinished (t : task_pc) : bool := match t with Finished _ => false | _ => true end.
(** Tasks whose wrapper has not ended, spawned or not: what [remaining] counts. *)
Definition pending (ts : list task_pc) : nat := length (filter (fun t => unfinished t = true) ts).

(** Wrappers that exist and will still use the shared state. *)
Definition running (t : task_pc) : bool := match t with Launched => true | _ => false end.
Definition users (ts : list task_pc) : nat := length (filter (fun t => running t = true) ts).
(** A join of some tasks that nobody has awaited: no wrapper was spawned. *)
Definition unawaited (h : option Z) (ts : list task_pc) : Prop := h = None /\ ts <> [].

Definition launch (t : task_pc) : task_pc := match t with Unlaunched => Launched | t => t end.

(** The state on the heap (gone when deleted), whether the awaiter object
    exists, the wrappers, the coroutines control was transferred to and the
    number of calls of [cancel] on the caller's canceler. *)
Record join_t (St : Type) := mk_join { cell : option St; awaiting : bool; tasks : list task_pc; woken : list Z; cancels : nat }.
Arguments mk_join {St}.
Arguments cell {St}.
Arguments awaiting {St}.
Arguments tasks {St}.
Arguments woken {St}.
Arguments cancels {St}.

(** Releases one reference. *)
Definition drop_ref {St} (refs : St -> Z) (set : Z -> St -> St) (s : St) : option St :=
  let s := set (refs s - 1) s in if refs s =? 0 then None else Some s.

(** ** [when_all] *)

Record when_all_state := mk_all { results : list (option (expected Z)); remaining : Z; refs : Z; continuation : option Z }.

Definition all_set_refs (r : Z) (s : when_all_state) : when_all_state := mk_all (results s) (remaining s) r (continuation s).
Definition all_drop (s : when_all_state) : option when_all_state := drop_ref refs all_set_refs s.

Definition when_all (n : nat) : join_t when_all_state :=
  mk_join (Some (mk_all (replicate n None) (Z.of_nat n) (Z.of_nat n + 1) None)) true (replicate n Unlaunched) [] 0.

Definition all_await_ready (j : join_t when_all_state) : bool := (length (tasks j) =? 0)%nat.

Definition all_await_suspend (h : Z) (j : join_t when_all_state) : option (join_t when_all_state) :=
  match cell j with
  | Some s => Some (mk_join (Some (mk_all (results s) (remaining s) (refs s) (Some h))) (awaiting j) (map launch (tasks j)) (woken j) (cancels j))
  | None => None
  end.

(** The wrapper of task [i] from the end of the task on. *)
Definition when_all_task (i : nat) (o : outcome) (j : join_t when_all_state) : option (join_t when_all_state) :=
  match cell j with
  | Some s =>
      let s := mk_all (<[i := Some (slot_of o)]> (results s)) (remaining s - 1) (refs s) (continuation s) in
      let to_wake := if remaining s =? 0 then continuation s else None in
      let s := if remaining s =? 0 then mk_all (results s) (remaining s) (refs s) None else s in
      Some (mk_join (all_drop s) (awaiting j) (<[i := Finished o]> (tasks j)) (woken j ++ option_list to_wake) (cancels j))
  | None => None
  end.

Definition all_await_resume (j : join_t when_all_state) : option (list (option (expected Z))) := results <$> cell j.

Definition all_destroy (j : join_t when_all_state) : option (join_t when_all_state) :=
  match cell j with
  | Some s => Some (mk_join (all_drop (mk_all (results s) (remaining s) (refs s) None)) false (tasks j) (woken j) (cancels j))
  | None => None
  end.

(** ** [when_any] *)

Record when_any_state := mk_any { any_results : list (option (expected Z)); done : bool; completed_index : Z; any_refs : Z; any_continuation : option Z; canceler : bool }.

Definition any_set_refs (r : Z) (s : when_any_state) : when_any_state := mk_any (any_results s) (done s) (completed_index s) r (any_continuation s) (canceler s).
Definition any_drop (s : when_any_state) : option when_any_state := drop_ref any_refs any_set_refs s.

(** [with_canceler]: the overload that takes a canceler. *)
Definition when_any (with_canceler : bool) (n : nat) : join_t when_any_state :=
  mk_join (Some (mk_any (replicate n None) false (-1) (Z.of_nat n + 1) None with_canceler)) true (replicate n Unlaunched) [] 0.

Definition any_await_suspend (h : Z) (j : join_t when_any_state) : option (join_t when_any_state) :=
  match cell j with
  | Some s => Some (mk_join (Some (mk_any (any_results s) (done s) (completed_index s) (any_refs s) (Some h) (canceler s))) (awaiting j) (map launch (tasks j)) (woken j) (cancels j))
  | None => None
  end.

Definition when_any_task (i : nat) (o : outcome) (j : join_t when_any_state) : option (join_t when_any_state) :=
  match cell j with
  | Some s =>
      let s1 := if negb (done s) then mk_any (<[i := Some (slot_of o)]> (any_results s)) (done s) (completed_index s) (any_refs s) (any_continuation s) (canceler s) else s in
      if negb (done s1)
      then
        let s2 := mk_any (any_results s1) true (Z.of_nat i) (any_refs s1) None (canceler s1) in
        Some (mk_join (any_drop s2) (awaiting j) (<[i := Finished o]> (tasks j)) (woken j ++ option_list (any_continuation s1))
                (if canceler s1 then S (cancels j) else cancels j))
      else Some (mk_join (any_drop s1) (awaiting j) (<[i := Finished o]> (tasks j)) (woken j) (cancels j))
  | None => None
  end.

Definition any_await_resume (j : join_t when_any_state) : option (list (option (expected Z)) * Z) :=
  match cell j with Some s => Some (any_results s, completed_index s) | None => None end.

Definition any_destroy (j : join_t when_any_state) : option (join_t when_any_state) :=
  match cell j with
  | Some s => Some (mk_join (any_drop (mk_any (any_results s) (done s) (completed_index s) (any_refs s) None (canceler s))) false (tasks j) (woken j) (cancels j))
  | None => None
  end.

(** ** Counting the wrappers *)

Lemma pending_finish ts i t o : ts !! i = Some t -> unfinished t = true -> pending ts = S (pending (<[i := Finished o]> ts)).
Proof.
  intros E Ht. unfold pending. rewrite <- (take_drop_middle ts i t E) at 1. rewrite insert_take_drop by (by eapply lookup_lt_Some).
  rewrite !filter_app, !filter_cons. rewrite decide_True by done. rewrite decide_False by done. rewrite !length_app. simpl. lia.
Qed.
Lemma pending_launch ts : pending (map launch ts) = pending ts.
Proof. induction ts as [|t ts IH]; [done|]. unfold pending in *. cbn [map]. rewrite !filter_cons. destruct t; cbn [launch]; repeat case_decide; cbn [length]; try done; by rewrite IH. Qed.
Lemma pending_zero ts : pending ts = 0%nat <-> Forall (fun t => unfinished t = false) ts.
Proof.
  unfold pending. rewrite length_zero_iff_nil. induction ts as [|t ts IH]; [split; [constructor|done]|]. rewrite filter_cons, Forall_cons, <- IH.
  destruct (decide (unfinished t = true)) as [Ht|Ht]; [split; [done|intros [? _]; congruence]|]. apply not_true_is_false in Ht. tauto.
Qed.
Lemma pending_new n : pending (replicate n Unlaunched) = n.
Proof. unfold pending. induction n as [|n IH]; [done|]. cbn [replicate]. rewrite filter_cons, decide_True by done. cbn [length]. by rewrite IH. Qed.
Lemma pending_pos ts i t : ts !! i = Some t -> unfinished t = true -> (0 < pending ts)%nat.
Proof. intros E Ht. rewrite (pending_finish ts i t Threw E Ht). lia. Qed.

(** Once the wrappers are spawned, the pending ones are the users. *)
Lemma users_launched ts : Forall (fun t => t <> Unlaunched) ts -> users ts = pending ts.
Proof.
  unfold users, pending. induction 1 as [|t ts Ht _ IH]; [done|]. rewrite !filter_cons. destruct t; [done| |]; repeat case_decide; try done. cbn [length]. by rewrite IH.
Qed.
Lemma users_unlaunched ts : Forall (fun t => t = Unlaunched) ts -> users ts = 0%nat /\ pending ts = length ts.
Proof.
  unfold users, pending. induction 1 as [|t ts -> _ [IH1 IH2]]; [done|]. rewrite !filter_cons, decide_False, decide_True by done. cbn [length]. by rewrite IH1, IH2.
Qed.

(** Deletion in terms of the users: exact once awaited, never before. *)
Lemma deleted_by_users {St} (c : option St) (a : bool) (h : option Z) ts :
  (c = None <-> a = false /\ pending ts = 0%nat) -> match h with None => Forall (fun t => t = Unlaunched) ts | Some _ => Forall (fun t => t <> Unlaunched) ts end ->
  (~ unawaited h ts -> c = None <-> a = false /\ users ts = 0%nat) /\ (unawaited h ts -> is_Some c /\ users ts = 0%nat).
Proof.
  intros C L. split.
  - intros Hn. destruct h as [h|]; [by rewrite (users_launched ts L)|]. assert (ts = []) as -> by (destruct ts; [done|]; exfalso; by apply Hn). done.
  - intros [-> Hne]. destruct (users_unlaunched ts L) as [U P]. split; [|done]. destruct c; [by eexists|]. destruct C as [C _]. destruct (C eq_refl) as [_ Hz]. rewrite P in Hz. by apply nil_length_inv in Hz.
Qed.

(** The slot of each task. *)
Definition slots_of (ts : list task_pc) : list (option (expected Z)) := map (fun t => match t with Finished o => Some (slot_of o) | _ => None end) ts.
Lemma slots_finish ts i o : slots_of (<[i := Finished o]> ts) = <[i := Some (slot_of o)]> (slots_of ts).
Proof. unfold slots_of. by rewrite list_fmap_insert. Qed.
Lemma slots_launch ts : slots_of (map launch ts) = slots_of ts.
Proof. unfold slots_of. rewrite map_map. apply map_ext. by intros []. Qed.

(** ** Any use of [when_all]

    [h] is the awaiting coroutine once it suspended. *)
Inductive all_reach : join_t when_all_state -> option Z -> Prop :=
| ar_make n : all_reach (when_all n) None
| ar_suspend j h j' : all_reach j None -> awaiting j = true -> all_await_ready j = false -> all_await_suspend h j = Some j' -> all_reach j' (Some h)
| ar_task j h i o j' : all_reach j h -> tasks j !! i = Some Launched -> when_all_task i o j = Some j' -> all_reach j' h
| ar_destroy j h j' : all_reach j h -> awaiting j = true -> all_destroy j = Some j' -> all_reach j' h.

Definition held (b : bool) : Z := if b then 1 else 0.

Record all_ok (j : join_t when_all_state) (h : option Z) : Prop := {
  al_cell : match cell j with
            | Some s => refs s = Z.of_nat (pending (tasks j)) + held (awaiting j) /\ 0 < refs s /\ remaining s = Z.of_nat (pending (tasks j)) /\ results s = slots_of (tasks j) /\
                continuation s = (if awaiting j && negb (pending (tasks j) =? 0)%nat then h else None)
            | None => awaiting j = false /\ pending (tasks j) = 0%nat
            end;
  al_launched : match h with None => Forall (fun t => t = Unlaunched) (tasks j) /\ woken j = [] | Some _ => Forall (fun t => t <> Unlaunched) (tasks j) end;
  al_woken : woken j = [] \/ exists c, h = Some c /\ woken j = [c] /\ pending (tasks j) = 0%nat;
  al_waiting : forall c, h = Some c -> awaiting j = true -> pending (tasks j) = 0%nat -> tasks j <> [] -> woken j = [c];
  al_some : is_Some h -> tasks j <> []
}.

Lemma all_make_ok n : all_ok (when_all n) None.
Proof.
  split; simpl; [|split; [apply Forall_replicate; done|done]|by left|done|by intros []]. rewrite pending_new. split_and!; try (simpl; lia); try done.
  - unfold slots_of. by rewrite fmap_replicate.
  - by destruct (n =? 0)%nat.
Qed.

Lemma all_suspend_ok j h j' : all_ok j None -> awaiting j = true -> all_await_ready j = false -> all_await_suspend h j = Some j' -> all_ok j' (Some h).
Proof.
  intros [C L W T N] Ha Hr. unfold all_await_suspend. destruct (cell j) as [s|]; [|done]. intros [= <-]. destruct C as (C1 & C2 & C3 & C4 & C5). destruct L as [L1 L2].
  assert (Hp : pending (tasks j) <> 0%nat).
  { intros Hp%pending_zero. unfold all_await_ready in Hr. destruct (tasks j) as [|t ts]; [done|]. apply Forall_cons in L1 as [-> _]. by apply Forall_cons in Hp as [? _]. }
  split; simpl; rewrite ?pending_launch, ?slots_launch, ?Ha in *; simpl.
  - split_and!; try done. by rewrite (proj2 (Nat.eqb_neq _ _) Hp).
  - apply Forall_fmap. eapply Forall_impl; [exact L1|]. by intros t ->.
  - by left.
  - intros c _ _ Hz. done.
  - intros _ E%fmap_nil_inv. unfold all_await_ready in Hr. by rewrite E in Hr.
Qed.

(** The last reference goes exactly when nobody is left. *)
Lemma all_drop_spec s : 0 < refs s -> all_drop s = if refs s =? 1 then None else Some (all_set_refs (refs s - 1) s).
Proof.
  intros Hr. unfold all_drop, drop_ref. simpl. destruct (Z.eqb_spec (refs s - 1) 0), (Z.eqb_spec (refs s) 1); try lia; done.
Qed.

Lemma finish_launched ts i o : Forall (fun t => t <> Unlaunched) ts -> Forall (fun t => t <> Unlaunched) (<[i := Finished o]> ts).
Proof. intros F. by apply Forall_insert. Qed.

Lemma all_task_ok j h i o : all_ok j h -> tasks j !! i = Some Launched -> exists j', when_all_task i o j = Some j' /\ all_ok j' h.
Proof.
  intros [C L W T N] Ei. pose proof (pending_finish _ _ _ o Ei eq_refl) as Hp. unfold when_all_task.
  destruct (cell j) as [s|]; [|lia]. destruct C as (C1 & C2 & C3 & C4 & C5). eexists. split; [done|].
  assert (Hh : is_Some h). { destruct h; [by eexists|]. destruct L as [L _]. rewrite Forall_lookup in L. specialize (L i _ Ei). done. }
  destruct Hh as [c ->]. assert (Wn : woken j = []) by (destruct W as [?|(? & _ & _ & Hz)]; [done|lia]).
  assert (Hr : remaining s - 1 = Z.of_nat (pending (<[i := Finished o]> (tasks j)))) by lia.
  rewrite Hp in C5. simpl in C5. set (P := pending (<[i := Finished o]> (tasks j))) in *.
  split; cbn [cell awaiting tasks woken cancels].
  - cbn [remaining refs continuation results]. rewrite all_drop_spec by (destruct (_ =? 0); simpl; lia).
    replace (refs (if remaining s - 1 =? 0 then _ else _)) with (refs s) by (by destruct (_ =? 0)). fold P.
    destruct (Z.eqb_spec (refs s) 1) as [E1|E1]; [destruct (awaiting j); simpl in C1; split; try done; lia|].
    rewrite slots_finish, <- C4. destruct (Z.eqb_spec (remaining s - 1) 0) as [Ez|Ez]; simpl; split_and!; try done; try lia.
    + assert (HP : P = 0%nat) by lia. rewrite HP. simpl. by rewrite andb_false_r.
    + rewrite C5. destruct (awaiting j); simpl; [|done]. by rewrite (proj2 (Nat.eqb_neq P 0)) by lia.
  - by apply finish_launched.
  - simpl. rewrite Wn. fold P. destruct (Z.eqb_spec (remaining s - 1) 0) as [Ez|Ez]; simpl; [|by left]. rewrite C5. destruct (awaiting j); simpl; [right; exists c; split_and!; try done; lia|by left].
  - intros c' [= <-] Ha HP _. fold P in HP. simpl. rewrite Wn. destruct (Z.eqb_spec (remaining s - 1) 0); [|lia]. rewrite C5, Ha. done.
  - intros _ E%(f_equal length). rewrite length_insert in E. apply nil_length_inv in E. by rewrite E in Ei.
Qed.

Lemma all_destroy_ok j h : all_ok j h -> awaiting j = true -> exists j', all_destroy j = Some j' /\ all_ok j' h.
Proof.
  intros [C L W T N] Ha. unfold all_destroy. rewrite Ha in *. destruct (cell j) as [s|]; [|by destruct C]. destruct C as (C1 & C2 & C3 & C4 & C5). eexists. split; [done|].
  split; simpl; try done. rewrite all_drop_spec by done. simpl. simpl in C1. destruct (Z.eqb_spec (refs s) 1); [split; [done|lia]|]. simpl. split_and!; try done; lia.
Qed.

Lemma all_reach_ok j h : all_reach j h -> all_ok j h.
Proof.
  induction 1 as [n|j h j' _ IH Ha Hr E|j h i o j' _ IH Ei E|j h j' _ IH Ha E]; [apply all_make_ok|by eapply all_suspend_ok| |].
  - destruct (all_task_ok j h i o IH Ei) as (j2 & E2 & O). congruence.
  - destruct (all_destroy_ok j h IH Ha) as (j2 & E2 & O). congruence.
Qed.

Lemma all_deleted j h : all_ok j h ->
  (~ unawaited h (tasks j) -> cell j = None <-> awaiting j = false /\ users (tasks j) = 0%nat) /\ (unawaited h (tasks j) -> is_Some (cell j) /\ users (tasks j) = 0%nat).
Proof.
  intros [C L _ _ _]. apply deleted_by_users; [|destruct h; [done|by destruct L]].
  destruct (cell j) as [s|]; [|by split]. destruct C as (C1 & C2 & _). split; [done|]. intros [Ha Hp]. rewrite Ha, Hp in C1. simpl in C1. lia.
Qed.

(** C29: Whatever the order in which the tasks of a [when_all] end, with results
    or exceptions, and whenever the awaiting frame is destroyed: no wrapper, nor
    the awaiter, touches the shared state after it was deleted; the state of a
    [when_all] that was awaited is deleted exactly when the awaiter is gone and
    no spawned wrapper is left; that of one nobody has awaited, on the other
    hand, is never deleted, not even with its awaiter, although no wrapper
    exists (it leaks when the awaiter is dropped); the awaiting coroutine is resumed at most once and only when every task has
    ended, it is resumed if it still waits then, and it reads every task's
    result, or the exception error, in the order of the arguments. *)
Theorem when_all_sound j h : all_reach j h ->
  (forall i o, tasks j !! i = Some Launched -> is_Some (when_all_task i o j)) /\
  (awaiting j = true -> is_Some (all_destroy j) /\ all_await_resume j = Some (slots_of (tasks j))) /\
  (~ unawaited h (tasks j) -> cell j = None <-> awaiting j = false /\ users (tasks j) = 0%nat) /\
  (unawaited h (tasks j) -> is_Some (cell j) /\ users (tasks j) = 0%nat) /\
  (woken j = [] \/ exists c, h = Some c /\ woken j = [c] /\ Forall (fun t => unfinished t = false) (tasks j)) /\
  (forall c, h = Some c -> awaiting j = true -> Forall (fun t => unfinished t = false) (tasks j) -> woken j = [c]).
Proof.
  intros O%all_reach_ok. pose proof O as [C L W T N]. split_and!.
  - intros i o Ei. destruct (all_task_ok j h i o O Ei) as (j' & E & _). by exists j'.
  - intros Ha. split; [destruct (all_destroy_ok j h O Ha) as (j' & E & _); by exists j'|]. unfold all_await_resume. destruct (cell j) as [s|]; [|by destruct C; congruence]. simpl. by destruct C as (_ & _ & _ & -> & _).
  - apply (all_deleted j h O).
  - apply (all_deleted j h O).
  - destruct W as [?|(c & ? & ? & ?%pending_zero)]; [by left|right; by exists c].
  - intros c -> Ha F. apply (T c eq_refl Ha); [by apply pending_zero|by apply N].
Qed.

(** Two tasks, the second ends first and throws. *)
Definition two_all : join_t when_all_state :=
  match all_await_suspend 40 (when_all 2) with
  | Some j => match when_all_task 1 Threw j with
              | Some j => match when_all_task 0 (Returned (Ok 5)) j with Some j => j | None => j end
              | None => j end
  | None => when_all 2
  end.

Lemma when_all_sound_witness : woken two_all = [40] /\ all_await_resume two_all = Some [Some (Ok 5); Some (Unexpected (Error EFAULT DException))].
Proof.
  assert (R : all_reach two_all (Some 40)).
  { eapply (ar_task _ _ 0 (Returned (Ok 5))); [eapply (ar_task _ _ 1 Threw); [eapply (ar_suspend _ 40); [apply (ar_make 2)|reflexivity..]|reflexivity..]|reflexivity..]. }
  destruct (when_all_sound two_all (Some 40) R) as (_ & H2 & _ & _ & _ & H5). split; [apply H5; [reflexivity..|repeat constructor]|]. destruct (H2 eq_refl) as [_ H3]. rewrite H3. reflexivity.
Defined.

(** The state of a [when_all] that is dropped without being awaited is never
    deleted: its wrappers, which hold references, do not exist. *)
Lemma when_all_unawaited_leaks n : (0 < n)%nat -> exists j, all_destroy (when_all n) = Some j /\ is_Some (cell j) /\ Forall (fun t => t = Unlaunched) (tasks j).
Proof.
  intros Hn. unfold all_destroy. simpl. eexists. split; [done|]. split; [|by apply Forall_replicate]. simpl. rewrite all_drop_spec by (simpl; lia). simpl.
  destruct (Z.eqb_spec (Z.of_nat n + 1) 1); [lia|by eexists].
Qed.

(** ** Any use of [when_any]

    [first] is the task that ended first. *)
Inductive any_reach (k : bool) : join_t when_any_state -> option Z -> option (nat * outcome) -> Prop :=
| nr_make n : any_reach k (when_any k n) None None
| nr_suspend j h j' : any_reach k j None None -> awaiting j = true -> tasks j <> [] -> any_await_suspend h j = Some j' -> any_reach k j' (Some h) None
| nr_task j h first i o j' : any_reach k j h first -> tasks j !! i = Some Launched -> when_any_task i o j = Some j' ->
    any_reach k j' h (match first with Some f => Some f | None => Some (i, o) end)
| nr_destroy j h first j' : any_reach k j h first -> awaiting j = true -> any_destroy j = Some j' -> any_reach k j' h first.

(** Only the winner's slot is filled. *)
Definition winner_slots (n : nat) (first : option (nat * outcome)) : list (option (expected Z)) :=
  match first with Some (i, o) => <[i := Some (slot_of o)]> (replicate n None) | None => replicate n None end.
Definition winner_index (first : option (nat * outcome)) : Z := match first with Some (i, _) => Z.of_nat i | None => -1 end.
Definition decided (first : option (nat * outcome)) : bool := match first with Some _ => true | None => false end.

Record any_ok (k : bool) (j : join_t when_any_state) (h : option Z) (first : option (nat * outcome)) : Prop := {
  an_cell : match cell j with
            | Some s => any_refs s = Z.of_nat (pending (tasks j)) + held (awaiting j) /\ 0 < any_refs s /\ done s = decided first /\ completed_index s = winner_index first /\
                any_results s = winner_slots (length (tasks j)) first /\ canceler s = k /\ any_continuation s = (if awaiting j && negb (done s) then h else None)
            | None => awaiting j = false /\ pending (tasks j) = 0%nat
            end;
  an_launched : match h with None => Forall (fun t => t = Unlaunched) (tasks j) /\ first = None | Some _ => Forall (fun t => t <> Unlaunched) (tasks j) end;
  an_first : match first with Some (i, o) => tasks j !! i = Some (Finished o) | None => Forall (fun t => unfinished t = true) (tasks j) end;
  an_cancels : cancels j = if k && decided first then 1%nat else 0%nat;
  an_woken : woken j = [] \/ exists c, h = Some c /\ woken j = [c] /\ decided first = true;
  an_waiting : forall c, h = Some c -> awaiting j = true -> decided first = true -> woken j = [c]
}.

Lemma any_make_ok k n : any_ok k (when_any k n) None None.
Proof.
  split; simpl; [|split; [apply Forall_replicate; done|done]|apply Forall_replicate; done|by rewrite andb_false_r|by left|done].
  rewrite pending_new, length_replicate. split_and!; try done; lia.
Qed.

Lemma any_suspend_ok k j h j' : any_ok k j None None -> awaiting j = true -> any_await_suspend h j = Some j' -> any_ok k j' (Some h) None.
Proof.
  intros [C L F N W T] Ha. unfold any_await_suspend. destruct (cell j) as [s|]; [|done]. intros [= <-]. destruct C as (C1 & C2 & C3 & C4 & C5 & C6 & C7). destruct L as [L _].
  split; cbn [cell awaiting tasks woken cancels any_refs done completed_index any_results canceler any_continuation]; rewrite ?pending_launch, ?length_map, ?Ha in *; try done.
  - rewrite C3. by split_and!.
  - apply Forall_fmap. eapply Forall_impl; [exact L|]. by intros t ->.
  - apply Forall_fmap. eapply Forall_impl; [exact L|]. by intros t ->.
  - destruct W as [->|(c & ? & _)]; [by left|done].
Qed.

Lemma any_drop_spec s : 0 < any_refs s -> any_drop s = if any_refs s =? 1 then None else Some (any_set_refs (any_refs s - 1) s).
Proof.
  intros Hr. unfold any_drop, drop_ref. simpl. destruct (Z.eqb_spec (any_refs s - 1) 0), (Z.eqb_spec (any_refs s) 1); try lia; done.
Qed.

Lemma any_task_ok k j h first i o : any_ok k j h first -> tasks j !! i = Some Launched ->
  exists j', when_any_task i o j = Some j' /\ any_ok k j' h (match first with Some f => Some f | None => Some (i, o) end).
Proof.
  intros [C L F N W T] Ei. pose proof (pending_finish _ _ _ o Ei eq_refl) as Hp. unfold when_any_task.
  destruct (cell j) as [s|]; [|lia]. destruct C as (C1 & C2 & C3 & C4 & C5 & C6 & C7). assert (Hlt : (i < length (tasks j))%nat) by (by eapply lookup_lt_Some).
  assert (Hh : is_Some h). { destruct h; [by eexists|]. destruct L as [L _]. rewrite Forall_lookup in L. specialize (L i _ Ei). done. }
  destruct Hh as [c ->]. destruct first as [[f x]|]; simpl in C3, C7; rewrite C3 in C7 |- *; simpl.
  - eexists. split; [by rewrite C3|]. rewrite andb_false_r in C7. split; cbn [cell awaiting tasks woken cancels]; try done.
    + rewrite any_drop_spec by done. rewrite length_insert. destruct (Z.eqb_spec (any_refs s) 1) as [E1|E1]; [destruct (awaiting j); simpl in C1; split; try done; lia|].
      simpl. rewrite C3. simpl. rewrite andb_false_r. split_and!; try done; lia.
    + by apply finish_launched.
    + rewrite list_lookup_insert_ne; [done|]. intros ->. congruence.
  - eexists. split; [done|]. assert (Wn : woken j = []) by (destruct W as [?|(? & _ & _ & Hz)]; [done|done]).
    split; cbn [cell awaiting tasks woken cancels].
    + rewrite any_drop_spec by (simpl; lia). cbn [any_refs]. rewrite length_insert. destruct (Z.eqb_spec (any_refs s) 1) as [E1|E1]; [destruct (awaiting j); simpl in C1; split; try done; lia|].
      simpl. rewrite andb_false_r. split_and!; try done; try lia. by rewrite C5.
    + by apply finish_launched.
    + by apply list_lookup_insert_eq.
    + rewrite C6, N. simpl. rewrite andb_false_r. by destruct k.
    + rewrite Wn, C7. simpl. destruct (awaiting j); simpl; [right; by exists c|by left].
    + intros c' [= <-] Ha _. by rewrite Wn, C7, Ha.
Qed.

Lemma any_destroy_ok k j h first : any_ok k j h first -> awaiting j = true -> exists j', any_destroy j = Some j' /\ any_ok k j' h first.
Proof.
  intros [C L F N W T] Ha. unfold any_destroy. rewrite Ha in *. destruct (cell j) as [s|]; [|by destruct C]. destruct C as (C1 & C2 & C3 & C4 & C5 & C6 & C7). eexists. split; [done|].
  split; simpl; try done. rewrite any_drop_spec by done. simpl. simpl in C1. destruct (Z.eqb_spec (any_refs s) 1); [split; [done|lia]|]. simpl. split_and!; try done; lia.
Qed.

Lemma any_reach_ok k j h first : any_reach k j h first -> any_ok k j h first.
Proof.
  induction 1 as [n|j h j' _ IH Ha Hr E|j h first i o j' _ IH Ei E|j h first j' _ IH Ha E]; [apply any_make_ok|by eapply any_suspend_ok| |].
  - destruct (any_task_ok k j h first i o IH Ei) as (j2 & E2 & O). congruence.
  - destruct (any_destroy_ok k j h first IH Ha) as (j2 & E2 & O). congruence.
Qed.

Lemma any_deleted k j h first : any_ok k j h first ->
  (~ unawaited h (tasks j) -> cell j = None <-> awaiting j = false /\ users (tasks j) = 0%nat) /\ (unawaited h (tasks j) -> is_Some (cell j) /\ users (tasks j) = 0%nat).
Proof.
  intros [C L _ _ _ _]. apply deleted_by_users; [|destruct h; [done|by destruct L]].
  destruct (cell j) as [s|]; [|by split]. destruct C as (C1 & C2 & _). split; [done|]. intros [Ha Hp]. rewrite Ha, Hp in C1. simpl in C1. lia.
Qed.

(** Whatever the order in which the tasks of a [when_any] end and whenever
    the awaiting frame is destroyed: nobody touches the shared state after it was
    deleted, which happens exactly when the awaiter is gone and no spawned
    wrapper is left (and never when nobody has awaited it); the first task to end, and only it, fills its slot and gives the
    index; the awaiting coroutine is resumed exactly once, by that task, if it
    still waits then; and the caller's canceler is cancelled exactly once, by
    that task too. *)
Theorem when_any_sound k j h first : any_reach k j h first ->
  (forall i o, tasks j !! i = Some Launched -> is_Some (when_any_task i o j)) /\
  (awaiting j = true -> is_Some (any_destroy j) /\ any_await_resume j = Some (winner_slots (length (tasks j)) first, winner_index first)) /\
  (~ unawaited h (tasks j) -> cell j = None <-> awaiting j = false /\ users (tasks j) = 0%nat) /\
  (unawaited h (tasks j) -> is_Some (cell j) /\ users (tasks j) = 0%nat) /\
  (woken j = [] \/ exists c, h = Some c /\ woken j = [c] /\ decided first = true) /\
  (forall c, h = Some c -> awaiting j = true -> decided first = true -> woken j = [c]) /\
  (forall i o, first = Some (i, o) -> tasks j !! i = Some (Finished o)) /\ cancels j = (if k && decided first then 1%nat else 0%nat).
Proof.
  intros O%any_reach_ok. pose proof O as [C L F N W T]. split_and!; try done.
  - intros i o Ei. destruct (any_task_ok k j h first i o O Ei) as (j' & E & _). by exists j'.
  - intros Ha. split; [destruct (any_destroy_ok k j h first O Ha) as (j' & E & _); by exists j'|]. unfold any_await_resume. destruct (cell j) as [s|]; [|by destruct C; congruence].
    by destruct C as (_ & _ & _ & -> & -> & _).
  - apply (any_deleted k j h first O).
  - apply (any_deleted k j h first O).
  - by intros i o ->.
Qed.

(** Two tasks with a canceler; the second wins, the first ends later. *)
Definition two_any : join_t when_any_state :=
  match any_await_suspend 40 (when_any true 2) with
  | Some j => match when_any_task 1 (Returned (Ok 6)) j with
              | Some j => match when_any_task 0 Threw j with Some j => j | None => j end
              | None => j end
  | None => when_any true 2
  end.

Lemma when_any_sound_witness : woken two_any = [40] /\ any_await_resume two_any = Some ([None; Some (Ok 6)], 1) /\ cancels two_any = 1%nat.
Proof.
  assert (R : any_reach true two_any (Some 40) (Some (1%nat, Returned (Ok 6)))).
  { eapply (nr_task _ _ _ (Some (1%nat, Returned (Ok 6))) 0 Threw); [eapply (nr_task _ _ _ None 1 (Returned (Ok 6))); [eapply (nr_suspend _ _ 40); [apply (nr_make _ 2)|reflexivity|discriminate|reflexivity]|reflexivity..]|reflexivity..]. }
  destruct (when_any_sound _ two_any _ _ R) as (_ & H2 & _ & _ & _ & H5 & _ & H7). split; [apply H5; reflexivity|]. destruct (H2 eq_refl) as [_ H3]. split; [rewrite H3; reflexivity|exact H7].
Defined.

(** The awaiting frame, where the canceler usually lives, is gone; the first
    task to end still calls [cancel] on it. *)
Lemma when_any_cancels_after_death :
  match any_await_suspend 40 (when_any true 1) with
  | Some j => match any_destroy j with
              | Some j => match when_any_task 0 Threw j with Some j => awaiting j = false /\ cancels j = 1%nat /\ cell j = None | None => False end
              | None => False end
  | None => False
  end.
Proof. by vm_compute. Qed.
