(* ===== verification/Scope.v ===== *)
(** * Structured concurrency

    [scope_t], [scope_join_awaiter], [scope_runner] and [task_scope] of
    src/include/cornet/concurrency/scope.h.  A runner coroutine executes the
    body under the scope, joins the children and then resumes the coroutine that
    awaits the scope.  Everything runs on the owner thread; an operation below
    is what happens between two suspension points. *)

From stdpp Require Import prelude gmap list fin_maps.
From Stdlib Require Import ZArith Lia.
From S2P Require Import Prelude Counting Join.
Open Scope Z_scope.

(** ** State *)

(** The overloads of [spawn]: discard the result, store it in a [T&], store it
    in an [expected<T>&]. *)
Inductive child_kind := Discarding | WithResult | WithExpected.

Inductive child_pc := ChildRunning (k : child_kind) | ChildEnded (o : outcome).
Definition running (c : child_pc) : bool := match c with ChildRunning _ => true | ChildEnded _ => false end.

(** The runner: in the body, suspended in the join, queued, or ended. *)
Inductive runner_pc := InBody | Joining | Queued | Ended.

(** [outs]: the caller's result variables; [ready]: the handles spawned for
    resumption, [None] the runner itself; [body]: how the body ended. *)
Record scope_t := mk_scope {
  active_count_ : Z; waiter_ : option unit; first_error_ : option error_t; scope_cancelled : bool;
  children : gmap nat child_pc; outs : gmap nat (expected Z); runner : runner_pc; body : option outcome; ready : list (option Z)
}.
Implicit Types s : scope_t.

Definition new_scope : scope_t := mk_scope 0 None None false ∅ ∅ InBody None [].

(** ** Operations *)

Definition spawn (c : nat) (k : child_kind) s : scope_t :=
  mk_scope (active_count_ s + 1) (waiter_ s) (first_error_ s) (scope_cancelled s) (<[c := ChildRunning k]> (children s)) (outs s) (runner s) (body s) (ready s).

Definition cancel s : scope_t :=
  mk_scope (active_count_ s) (waiter_ s) (first_error_ s) true (children s) (outs s) (runner s) (body s) (ready s).

Definition record_failure s : scope_t :=
  match first_error_ s with
  | Some _ => s
  | None => mk_scope (active_count_ s) (waiter_ s) (Some (Error EFAULT DException)) true (children s) (outs s) (runner s) (body s) (ready s)
  end.

Definition as_expected s : expected unit := match first_error_ s with Some e => Unexpected e | None => Ok tt end.

Definition on_child_done s : scope_t :=
  let n := active_count_ s - 1 in
  match waiter_ s with
  | Some _ =>
      if n =? 0
      then mk_scope n None (first_error_ s) (scope_cancelled s) (children s) (outs s) Queued (body s) (ready s ++ [None])
      else mk_scope n (waiter_ s) (first_error_ s) (scope_cancelled s) (children s) (outs s) (runner s) (body s) (ready s)
  | None => mk_scope n (waiter_ s) (first_error_ s) (scope_cancelled s) (children s) (outs s) (runner s) (body s) (ready s)
  end.

(** What the runner of kind [k] stores. *)
Definition store (c : nat) (k : child_kind) (o : outcome) s : scope_t :=
  let put r := mk_scope (active_count_ s) (waiter_ s) (first_error_ s) (scope_cancelled s) (children s) (<[c := r]> (outs s)) (runner s) (body s) (ready s) in
  match k, o with
  | Discarding, _ => s
  | WithResult, Returned r => put r
  | WithResult, Threw => s
  | WithExpected, o => put (slot_of o)
  end.

Definition failed (o : outcome) : bool := match o with Threw => true | Returned _ => false end.

(** The end of [scoped_runner] and its variants. *)
Definition child_done (c : nat) (k : child_kind) (o : outcome) s : scope_t :=
  let s := store c k o s in
  let s := if failed o then record_failure s else s in
  let s := mk_scope (active_count_ s) (waiter_ s) (first_error_ s) (scope_cancelled s) (<[c := ChildEnded o]> (children s)) (outs s) (runner s) (body s) (ready s) in
  on_child_done s.

(** The end of [scope_runner]: the continuation is resumed. *)
Definition runner_ends (continuation : Z) s : scope_t :=
  mk_scope (active_count_ s) (waiter_ s) (first_error_ s) (scope_cancelled s) (children s) (outs s) Ended (body s) (ready s ++ [Some continuation]).

Definition join_await_ready s : bool := active_count_ s =? 0.
Definition join_await_suspend s : scope_t :=
  mk_scope (active_count_ s) (Some tt) (first_error_ s) (scope_cancelled s) (children s) (outs s) Joining (body s) (ready s).

(** The body ends; the runner joins. *)
Definition body_done (continuation : Z) (o : outcome) s : scope_t :=
  let s := if failed o then record_failure s else s in
  let s := mk_scope (active_count_ s) (waiter_ s) (first_error_ s) (scope_cancelled s) (children s) (outs s) (runner s) (Some o) (ready s) in
  if join_await_ready s then runner_ends continuation s else join_await_suspend s.

(** ** Any use

    Children are spawned by the body or by a child that still runs. *)
Inductive scope_reach (h : Z) : scope_t -> Prop :=
| sr_new : scope_reach h new_scope
| sr_spawn s c k : scope_reach h s -> children s !! c = None -> runner s = InBody \/ (exists d k', children s !! d = Some (ChildRunning k')) -> scope_reach h (spawn c k s)
| sr_child s c k o : scope_reach h s -> children s !! c = Some (ChildRunning k) -> scope_reach h (child_done c k o s)
| sr_body s o : scope_reach h s -> runner s = InBody -> scope_reach h (body_done h o s)
| sr_resume s : scope_reach h s -> runner s = Queued -> scope_reach h (runner_ends h s)
| sr_cancel s : scope_reach h s -> scope_reach h (cancel s).

Definition live s : nat := count_if running (children s).

(** Somebody threw. *)
Definition thrown s : Prop := body s = Some Threw \/ exists c, children s !! c = Some (ChildEnded Threw).

Record scope_ok (h : Z) s : Prop := {
  s_count : active_count_ s = Z.of_nat (live s);
  s_runner : match runner s with
             | InBody => waiter_ s = None /\ body s = None /\ ready s = []
             | Joining => waiter_ s = Some tt /\ is_Some (body s) /\ ready s = [] /\ live s <> 0%nat
             | Queued => waiter_ s = None /\ is_Some (body s) /\ ready s = [None] /\ live s = 0%nat
             | Ended => waiter_ s = None /\ is_Some (body s) /\ live s = 0%nat /\ (ready s = [Some h] \/ ready s = [None; Some h])
             end;
  s_error : first_error_ s = None \/ first_error_ s = Some (Error EFAULT DException);
  s_thrown : first_error_ s <> None <-> thrown s;
  s_cancel : first_error_ s <> None -> scope_cancelled s = true
}.

Lemma live_pos s c k : children s !! c = Some (ChildRunning k) -> (0 < live s)%nat.
Proof. intros E. by apply (count_pos running _ c (ChildRunning k)). Qed.

Lemma spawn_ok h s c k : scope_ok h s -> children s !! c = None -> runner s = InBody \/ (exists d k', children s !! d = Some (ChildRunning k')) -> scope_ok h (spawn c k s).
Proof.
  intros [C P Er T Ca] Hc Hw. assert (Hl : live (spawn c k s) = S (live s)) by (unfold live; simpl; by rewrite count_insert).
  assert (Ht : thrown (spawn c k s) <-> thrown s).
  { unfold thrown. simpl. split; (intros [?|[d Hd]]; [by left|right; exists d]).
    - apply lookup_insert_Some in Hd as [[_ ?]|[_ ?]]; done.
    - rewrite lookup_insert_ne; [done|]. intros ->. congruence. }
  split; try done; [rewrite Hl; simpl; lia| |by rewrite Ht].
  destruct Hw as [Hr|(d & k' & Hd)]; [simpl; rewrite Hr in P |- *; done|]. pose proof (live_pos s d k' Hd). simpl. rewrite Hl. destruct (runner s); simpl in *; intuition lia.
Qed.

(** A failure, or none, and then the change [f] of the rest. *)
Lemma record_fields s : active_count_ (record_failure s) = active_count_ s /\ waiter_ (record_failure s) = waiter_ s /\ children (record_failure s) = children s /\
  runner (record_failure s) = runner s /\ body (record_failure s) = body s /\ ready (record_failure s) = ready s.
Proof. unfold record_failure. by destruct (first_error_ s). Qed.
Lemma record_error s : first_error_ (record_failure s) <> None.
Proof. unfold record_failure. destruct (first_error_ s) eqn:E; simpl; congruence. Qed.
Lemma store_fields c k o s : active_count_ (store c k o s) = active_count_ s /\ waiter_ (store c k o s) = waiter_ s /\ children (store c k o s) = children s /\
  runner (store c k o s) = runner s /\ body (store c k o s) = body s /\ ready (store c k o s) = ready s /\ first_error_ (store c k o s) = first_error_ s /\ scope_cancelled (store c k o s) = scope_cancelled s.
Proof. unfold store. by destruct k, o. Qed.
Lemma record_cancel s : (first_error_ s <> None -> scope_cancelled s = true) -> (first_error_ (record_failure s) <> None -> scope_cancelled (record_failure s) = true).
Proof. unfold record_failure. intros Hc. destruct (first_error_ s) eqn:E; simpl; [rewrite E; exact Hc|done]. Qed.
Lemma record_kind s : first_error_ s = None \/ first_error_ s = Some (Error EFAULT DException) -> first_error_ (record_failure s) = None \/ first_error_ (record_failure s) = Some (Error EFAULT DException).
Proof. unfold record_failure. intros Hc. destruct (first_error_ s) eqn:E; simpl; [rewrite E; exact Hc|by right]. Qed.

(** What a runner does before it counts itself out. *)
Definition settle (o : outcome) s : scope_t := if failed o then record_failure s else s.

Record settled (o : outcome) s s' : Prop := {
  se_count : active_count_ s' = active_count_ s; se_waiter : waiter_ s' = waiter_ s; se_children : children s' = children s;
  se_runner : runner s' = runner s; se_body : body s' = body s; se_ready : ready s' = ready s;
  se_error : first_error_ s' <> None <-> first_error_ s <> None \/ o = Threw;
  se_kind : first_error_ s = None \/ first_error_ s = Some (Error EFAULT DException) -> first_error_ s' = None \/ first_error_ s' = Some (Error EFAULT DException);
  se_cancel : (first_error_ s <> None -> scope_cancelled s = true) -> first_error_ s' <> None -> scope_cancelled s' = true
}.

Lemma settle_settled o s : settled o s (settle o s).
Proof.
  unfold settle. destruct o; simpl; [by split; try done; intuition congruence|].
  destruct (record_fields s) as (? & ? & ? & ? & ? & ?). split; try done; [|apply record_kind|apply record_cancel].
  split; [intros _; by right|intros _; apply record_error].
Qed.
Lemma store_settled c k o s : settled o s (settle o (store c k o s)).
Proof.
  destruct (store_fields c k o s) as (? & ? & ? & ? & ? & ? & E1 & E2). destruct (settle_settled o (store c k o s)) as [? ? ? ? ? ? ? K C]. rewrite E1, ?E2 in *. split; try congruence; try done.
Qed.

Lemma child_ok h s c k o : scope_ok h s -> children s !! c = Some (ChildRunning k) -> scope_ok h (child_done c k o s).
Proof.
  intros [C P Er T Ca] Hc. unfold child_done. fold (settle o (store c k o s)). pose proof (store_settled c k o s) as [S1 S2 S3 S4 S5 S6 S7 S8 S9]. set (s1 := settle o (store c k o s)) in *.
  pose proof (count_replace running (children s) c _ (ChildEnded o) Hc) as Hl. simpl in Hl. fold (live s) in Hl. set (ch := <[c := ChildEnded o]> (children s)) in *.
  assert (Ht : (body s = Some Threw \/ exists d, ch !! d = Some (ChildEnded Threw)) <-> thrown s \/ o = Threw).
  { unfold thrown, ch. split.
    - intros [?|[d Hd]]; [left; by left|]. apply lookup_insert_Some in Hd as [[_ [= ->]]|[_ Hd]]; [by right|left; right; by exists d].
    - intros [[?|[d Hd]]| ->]; [by left|right; exists d; rewrite lookup_insert_ne; [done|]; intros ->; congruence|right; exists c; apply lookup_insert_eq]. }
  unfold on_child_done. simpl. rewrite S1, S2, S3, S4, S5, S6. fold ch. destruct (waiter_ s) as [[]|] eqn:Ew; [destruct (Z.eqb_spec (active_count_ s - 1) 0) as [Ez|Ez]|].
  all: split; simpl; unfold live; simpl; try (by apply S8); try (by apply S9); try lia; try (unfold thrown; simpl; rewrite S7, Ht, T; done).
  all: destruct (runner s); simpl in *; try (by destruct P; congruence).
  - destruct P as (_ & Hb & Hr & _). rewrite Hr. split_and!; try done. lia.
  - destruct P as (Hw & Hb & Hr & _). split_and!; try done. lia.
  - done.
  - destruct P as (_ & Hb & Hr & Hz). pose proof (live_pos s c k Hc). lia.
  - destruct P as (_ & Hb & Hz & Hr). pose proof (live_pos s c k Hc). lia.
Qed.

Lemma body_ok h s o : scope_ok h s -> runner s = InBody -> scope_ok h (body_done h o s).
Proof.
  intros [C P Er T Ca] Hr. rewrite Hr in P. destruct P as (P1 & P2 & P3). unfold body_done. fold (settle o s). pose proof (settle_settled o s) as [S1 S2 S3 S4 S5 S6 S7 S8 S9]. set (s1 := settle o s) in *.
  assert (Ht : (Some o = Some Threw \/ exists d, children s !! d = Some (ChildEnded Threw)) <-> thrown s \/ o = Threw).
  { unfold thrown. rewrite P2. split; [intros [[= ->]|?]; [by right|left; by right]|intros [[?|?]| ->]; [done|by right|by left]]. }
  unfold join_await_ready. simpl. rewrite S1. destruct (Z.eqb_spec (active_count_ s) 0) as [Ez|Ez].
  all: split; simpl; unfold live; simpl; rewrite ?S1, ?S3; try (by apply S8); try (by apply S9); try done; try (unfold thrown; simpl; rewrite ?S3, S7, Ht, T; done).
  - rewrite S2, S6, P3. split_and!; try done; try (by left); unfold live in C; lia.
  - rewrite S6, P3. split_and!; try done. intros Hz. unfold live in C. lia.
Qed.

Lemma scope_reach_ok h s : scope_reach h s -> scope_ok h s.
Proof.
  induction 1 as [|s c k _ IH Hc Hw|s c k o _ IH Hc|s o _ IH Hr|s _ IH Hr|s _ IH].
  - split; simpl; try done; [by left|]. split; [done|]. by intros [?|[c Hc]].
  - by apply spawn_ok.
  - by apply child_ok.
  - by apply body_ok.
  - destruct IH as [C P Er T Ca]. rewrite Hr in P. destruct P as (P1 & P2 & P3 & P4). split; simpl; try done. split_and!; try done. rewrite P3. by right.
  - destruct IH as [C P Er T Ca]. by split.
Qed.

(** C30: However the body and the children of a scope spawn, end, throw and
    cancel: [active_count_] is the number of children running; the coroutine that
    awaits the scope is resumed exactly once, when the runner has ended, and the
    runner ends only after the body and every child have; when they all have, the
    runner has ended or is queued to run, never left waiting; the awaiting
    coroutine sees an error exactly when the body or some child threw, and then
    the scope was cancelled. *)
Theorem scope_joins h s : scope_reach h s ->
  active_count_ s = Z.of_nat (live s) /\
  (runner s = Ended <-> Some h ∈ ready s) /\ (length (filter (fun x => x = Some h) (ready s)) <= 1)%nat /\
  (runner s = Ended -> is_Some (body s) /\ live s = 0%nat) /\
  (is_Some (body s) -> live s = 0%nat -> runner s = Ended \/ (runner s = Queued /\ None ∈ ready s)) /\
  (as_expected s = Ok tt <-> ~ thrown s) /\ (thrown s -> as_expected s = Unexpected (Error EFAULT DException) /\ scope_cancelled s = true).
Proof.
  intros O%scope_reach_ok. pose proof O as [C P Er T Ca]. split_and!; try done.
  - destruct (runner s); destruct P as (P1 & P2 & P3); rewrite ?P3; try (rewrite (proj1 P3)); try (split; [done|]; intros Hi; by set_solver).
    split; [intros _|done]. destruct P3 as [_ [-> | ->]]; set_solver.
  - destruct (runner s); destruct P as (P1 & P2 & P3); rewrite ?P3; try (rewrite (proj1 P3)); try (simpl; lia).
    destruct P3 as [_ [-> | ->]]; rewrite ?filter_cons, filter_nil; repeat case_decide; simpl; try lia; done.
  - intros Hr. rewrite Hr in P. destruct P as (_ & Hb & Hl & _). done.
  - intros Hb Hl. destruct (runner s); [destruct P as (_ & P2 & _); rewrite P2 in Hb; by destruct Hb|by destruct P as (_ & _ & _ & ?)|right; split; [done|]; destruct P as (_ & _ & -> & _); set_solver|by left].
  - rewrite <- T. unfold as_expected. destruct (first_error_ s); split; intros; try done; try congruence. by destruct H.
  - intros Ht. apply T in Ht. split; [|by apply Ca]. unfold as_expected. by destruct Er as [? | ->].
Qed.

(** Two children; the body ends while both run, one throws. *)
Definition two_children : scope_t := child_done 1 Discarding (Returned (Ok 0)) (child_done 2 WithExpected Threw (body_done 30 (Returned (Ok 0)) (spawn 2 WithExpected (spawn 1 Discarding new_scope)))).

Lemma scope_joins_witness : runner two_children = Queued /\ as_expected two_children = Unexpected (Error EFAULT DException) /\ outs two_children !! 2%nat = Some (Unexpected (Error EFAULT DException)).
Proof.
  assert (R : scope_reach 30 two_children).
  { apply sr_child; [|reflexivity]. apply sr_child; [|reflexivity]. apply sr_body; [|reflexivity]. apply sr_spawn; [|reflexivity|left; reflexivity]. apply sr_spawn; [|reflexivity|left; reflexivity]. apply sr_new. }
  destruct (scope_joins 30 two_children R) as (_ & _ & _ & _ & H5 & _ & H7).
  assert (Hq : runner two_children = Ended \/ (runner two_children = Queued /\ None ∈ ready two_children)) by (apply H5; [eexists; reflexivity|reflexivity]).
  assert (Ht : thrown two_children) by (right; exists 2%nat; reflexivity).
  destruct (H7 Ht) as [H8 _]. split; [destruct Hq as [Hq|[Hq _]]; [discriminate Hq|exact Hq]|]. split; [exact H8|reflexivity].
Defined.
