(* ===== verification/Deadline.v ===== *)
(** * Deadlines

    [deadline_t] of src/include/cornet/concurrency/deadline.h, the one visit of
    [deadline_bound_awaiter] (src/include/cornet/concurrency/combinators.h), and
    the two components it drives, seen through interfaces: its timer node on a
    wheel ([OneTimer], implemented by TimerWheel.v) and its canceler
    ([KillSwitch], implemented by Cancel.v and CancelOps.v).  Durations are
    milliseconds, the coarse clock counts nanoseconds. *)

From stdpp Require Import prelude gmap list fin_maps.
From Stdlib Require Import ZArith Lia.
From S2P Require Import Prelude Dll TimerWheel Counting Uring Cancel CancelOps CancelSound.
Open Scope Z_scope.

(** ** What a deadline uses *)

(** One timer node: the ticks left while it is armed. *)
Class OneTimer (W : Type) := {
  tm_arm : Z -> W -> W; tm_cancel : W -> W; tm_left : W -> option Z; tm_tick : W -> Z; tm_ok : W -> Prop
}.
Class OneTimerLaws (W : Type) `{OneTimer W} : Prop := {
  arm_law : forall d w, tm_ok w -> 0 < d <= 2 ^ 41 -> tm_ok (tm_arm d w) /\ tm_left (tm_arm d w) = Some (ceil_ticks (tm_tick w) d) /\ tm_tick (tm_arm d w) = tm_tick w;
  cancel_law : forall w, tm_ok w -> tm_ok (tm_cancel w) /\ tm_left (tm_cancel w) = None /\ tm_tick (tm_cancel w) = tm_tick w
}.

(** One canceler. *)
Class KillSwitch (C : Type) := {
  ks_cancel : C -> option C; ks_reset : C -> option (C * expected unit); ks_cancelled : C -> bool; ks_ok : C -> Prop
}.
Class KillSwitchLaws (C : Type) `{KillSwitch C} : Prop := {
  ks_cancel_law : forall c, ks_ok c -> exists c', ks_cancel c = Some c' /\ ks_ok c' /\ ks_cancelled c' = true;
  ks_reset_law : forall c, ks_ok c -> exists c' r, ks_reset c = Some (c', r) /\ ks_ok c' /\ match r with Ok _ => ks_cancelled c' = false | Unexpected _ => c' = c end
}.

(** ** The wheel and the canceler provide it *)

#[export] Instance wheel_timer (x : node_id) : OneTimer timer_wheel_t := {
  tm_arm d w := arm w x d;
  tm_cancel w := TimerWheel.cancel w x;
  tm_left w := if armed (node w x) then Some (remaining w x) else None;
  tm_tick w := tick_ w;
  tm_ok w := tick_ w < 2 ^ 62 /\ (exists nd, nodes w !! x = Some nd) /\ exists L, wf w L
}.

Lemma ceil_ticks_le tick d : 0 < tick -> 0 < d -> ceil_ticks tick d <= d.
Proof. intros Ht Hd. unfold ceil_ticks. assert ((d + tick - 1) / tick <= d) by (apply Z.div_le_upper_bound; nia). lia. Qed.
Lemma arm_tick w x d : tick_ (arm w x d) = tick_ w.
Proof.
  unfold arm, ensure_runner. destruct (unlink_fields w x) as (E & _). by destruct (_ || _).
Qed.

#[export] Instance wheel_timer_laws (x : node_id) : @OneTimerLaws timer_wheel_t (wheel_timer x).
Proof.
  split; simpl.
  - intros d w (Ht & [nd Hn] & L & Hw) Hd. pose proof (wf_tick _ _ Hw). pose proof (ceil_ticks_le (tick_ w) d ltac:(lia) ltac:(lia)).
    destruct (arm_wf w L x nd d Hw Hn) as (L' & Hw' & Hn' & _). destruct (arm_remaining w L x nd d Hw Hn ltac:(lia) ltac:(lia) ltac:(lia)) as (Hr & nd' & Hnd & Ha & _).
    rewrite arm_tick. split; [split; [done|]; split; [by eexists|by exists L']|]. split; [|done]. unfold node. rewrite Hnd. simpl. by rewrite Ha, Hr.
  - intros w (Ht & [nd Hn] & L & Hw). unfold TimerWheel.cancel. destruct (unlink_wf w L x nd Hw Hn) as (L' & Hw' & Hn' & _). destruct (unlink_fields w x) as (E & _).
    rewrite E. split; [split; [done|]; split; [by eexists|by exists L']|]. split; [|done]. unfold node. by rewrite Hn'.
Qed.

Section Switch.
Context {U : Type} `{CancelBackend U} `{!CancelBackendLaws U}.

#[export] Instance canceler_switch (c : node_id) : KillSwitch (ops_t (U := U)) := {
  ks_cancel s := match Cancel.cancel c (sc s) with Some w => Some (set_sc w s) | None => None end;
  ks_reset s := match Cancel.reset c (sc s) with Some (w, r) => Some (set_sc w s, r) | None => None end;
  ks_cancelled s := match cs (sc s) !! c with Some x => cancelled_ x | None => false end;
  ks_ok s := reach_ok s /\ is_Some (cs (sc s) !! c)
}.

#[export] Instance canceler_switch_laws (c : node_id) : @KillSwitchLaws (ops_t (U := U)) (canceler_switch c).
Proof.
  split; simpl.
  - intros s [(A & K & born & clock & O & Ob) [x E]]. destruct (cancel_ok _ _ A K born clock c x O Ob E) as (w & A' & Ec & O' & Ob' & Sh & Hc).
    rewrite Ec. eexists. split; [done|]. destruct (shape_lookup _ _ _ _ Sh E) as (x' & E' & _). split; [split; [by exists A', K, born, clock|by exists x']|]. simpl. rewrite E'.
    destruct (cancelled_ x) eqn:Hx; [subst w; congruence|]. destruct Hc as [Hc _]. destruct (Hc c x' E') as (x1 & E1 & Hi). apply Hi. right. apply rtc_refl.
  - intros s [R [x E]]. destruct (reset_reach s c x R E) as (w & Er & R' & H1 & H2). rewrite Er. eexists _, _. split; [done|].
    destruct (Z.eqb_spec (tracked_ops_ x) 0) as [Ez|Ez].
    + specialize (H1 Ez). unfold is_cancelled in H1. simpl. destruct (cs w !! c) as [y|] eqn:Ey; [|done]. injection H1 as H1. split; [split; [done|by exists y]|done].
    + rewrite (H2 Ez). split; [split; [by rewrite (H2 Ez) in R'|by exists x]|]. by destruct s.
Qed.
End Switch.

(** ** The deadline *)

Definition ETIMEDOUT : Z := 110.

Section Deadline.
Context {W C : Type} `{OneTimerLaws W} `{KillSwitchLaws C}.

Record deadline_t := mk_deadline { wheel_ : W; canceler_ : C; budget_ns_ : Z; fired_ : bool; timeouts_ : option Z; now_ns : Z }.
Implicit Types s : deadline_t.

Definition with_wheel (w : W) s := mk_deadline w (canceler_ s) (budget_ns_ s) (fired_ s) (timeouts_ s) (now_ns s).
Definition with_budget (b : Z) s := mk_deadline (wheel_ s) (canceler_ s) b (fired_ s) (timeouts_ s) (now_ns s).

Definition fire s : option deadline_t :=
  match ks_cancel (canceler_ s) with
  | Some c => Some (mk_deadline (wheel_ s) c (budget_ns_ s) true (match timeouts_ s with Some n => Some (u64 (n + 1)) | None => None end) (now_ns s))
  | None => None
  end.

Definition set_budget (d : Z) s : deadline_t :=
  if fired_ s then s
  else
    let b := if 0 <? d then u64 (now_ns s + u64 (d * 1000000)) else 0 in
    let s := with_budget b s in
    if negb (b =? 0) then with_wheel (tm_arm d (wheel_ s)) s else with_wheel (tm_cancel (wheel_ s)) s.

(** What is left of the era, in whole milliseconds. *)
Definition left_ms s : Z := (budget_ns_ s - now_ns s) / 1000000 + 1.

Definition cap (d : Z) s : option deadline_t :=
  if fired_ s then Some s
  else if negb (budget_ns_ s =? 0) && (budget_ns_ s <=? now_ns s) then fire s
  else
    let d := if negb (budget_ns_ s =? 0) && (left_ms s <? d) then left_ms s else d in
    let d := if d <=? 0 then 1 else d in
    Some (with_wheel (tm_arm d (wheel_ s)) s).

Definition reset_deadline s : option (deadline_t * expected unit) :=
  match ks_reset (canceler_ s) with
  | Some (c, Unexpected e) => Some (mk_deadline (wheel_ s) c (budget_ns_ s) (fired_ s) (timeouts_ s) (now_ns s), Unexpected e)
  | Some (c, Ok u) => Some (mk_deadline (tm_cancel (wheel_ s)) c 0 false (timeouts_ s) (now_ns s), Ok u)
  | None => None
  end.

Definition map_error (e : error_t) s : error_t := if fired_ s then Error ETIMEDOUT DSystem else e.

Definition restore_after_op s : option deadline_t :=
  if fired_ s then Some s
  else if budget_ns_ s =? 0 then Some (with_wheel (tm_cancel (wheel_ s)) s)
  else if budget_ns_ s <=? now_ns s then fire s
  else Some (with_wheel (tm_arm (left_ms s) (wheel_ s)) s).

Definition disarm s : deadline_t := with_wheel (tm_cancel (wheel_ s)) s.

(** The constructor: no era, or the first one. *)
Definition make_deadline (w : W) (c : C) (budget : Z) (timeouts : option Z) (now : Z) : deadline_t :=
  let s := mk_deadline w c 0 false timeouts now in if 0 <? budget then set_budget budget s else s.

(** ** Any use

    Durations are below 2^40 ms.  Time passes: the clock advances, the wheel
    ticks, others use the wheel and the canceler.  When the node expires the
    wheel has unlinked it and calls [fire]. *)
Definition short (d : Z) : Prop := d <= 2 ^ 40.

Inductive deadline_reach : deadline_t -> Prop :=
| dr_make w c b n now : tm_ok w -> tm_left w = None -> ks_ok c -> ks_cancelled c = false -> short b -> 0 <= now < 2 ^ 63 -> deadline_reach (make_deadline w c b n now)
| dr_budget s d : deadline_reach s -> short d -> deadline_reach (set_budget d s)
| dr_cap s d s' : deadline_reach s -> short d -> cap d s = Some s' -> deadline_reach s'
| dr_restore s s' : deadline_reach s -> restore_after_op s = Some s' -> deadline_reach s'
| dr_reset s s' r : deadline_reach s -> reset_deadline s = Some (s', r) -> deadline_reach s'
| dr_expire s w s' : deadline_reach s -> tm_left (wheel_ s) <> None -> tm_ok w -> tm_left w = None -> tm_tick w = tm_tick (wheel_ s) -> fire (with_wheel w s) = Some s' -> deadline_reach s'
| dr_time s w c now : deadline_reach s -> tm_ok w -> tm_tick w = tm_tick (wheel_ s) ->
    match tm_left w, tm_left (wheel_ s) with Some k', Some k => k' <= k | None, None => True | _, _ => False end ->
    ks_ok c -> (ks_cancelled (canceler_ s) = true -> ks_cancelled c = true) -> now_ns s <= now < 2 ^ 63 ->
    deadline_reach (mk_deadline w c (budget_ns_ s) (fired_ s) (timeouts_ s) now).

(** [base_ok] holds between the parts of an operation too. *)
Record base_ok s : Prop := {
  d_timer : tm_ok (wheel_ s);
  d_switch : ks_ok (canceler_ s);
  d_now : 0 <= now_ns s < 2 ^ 63;
  d_budget : 0 <= budget_ns_ s <= now_ns s + 2 ^ 40 * 1000000;
  d_fired : fired_ s = true -> ks_cancelled (canceler_ s) = true
}.
Definition guarded s : Prop := fired_ s = false -> budget_ns_ s <> 0 -> tm_left (wheel_ s) <> None.
Definition deadline_ok s : Prop := base_ok s /\ guarded s.

Lemma fire_ok s : base_ok s -> exists s', fire s = Some s' /\ deadline_ok s' /\ fired_ s' = true /\ wheel_ s' = wheel_ s.
Proof.
  intros [T K N B F]. destruct (ks_cancel_law _ K) as (c & Ec & Kc & Hc). unfold fire. rewrite Ec. eexists. split; [done|]. split; [by split; [split|]|done].
Qed.

Lemma arm_ok d s : base_ok s -> 0 < d <= 2 ^ 41 -> deadline_ok (with_wheel (tm_arm d (wheel_ s)) s) /\ tm_left (tm_arm d (wheel_ s)) = Some (ceil_ticks (tm_tick (wheel_ s)) d).
Proof. intros [T K N B F] Hd. destruct (arm_law d _ T Hd) as (A1 & A2 & _). split; [|done]. split; [by split|]. intros _ _. simpl. by rewrite A2. Qed.

Lemma off_ok s : base_ok s -> budget_ns_ s = 0 -> deadline_ok (with_wheel (tm_cancel (wheel_ s)) s).
Proof. intros [T K N B F] Hb. destruct (cancel_law _ T) as (A1 & A2 & _). split; [by split|]. intros _ Hn. done. Qed.

Lemma left_range s : base_ok s -> now_ns s < budget_ns_ s -> 0 < left_ms s <= 2 ^ 41 /\ budget_ns_ s < now_ns s + left_ms s * 1000000 <= budget_ns_ s + 1000000.
Proof.
  intros [_ _ N B _] Hlt. unfold left_ms. pose proof (Z.div_mod (budget_ns_ s - now_ns s) 1000000 ltac:(lia)). pose proof (Z.mod_pos_bound (budget_ns_ s - now_ns s) 1000000 ltac:(lia)).
  assert ((budget_ns_ s - now_ns s) / 1000000 <= 2 ^ 40) by (apply Z.div_le_upper_bound; lia). lia.
Qed.

Lemma set_budget_ok d s : deadline_ok s -> short d -> deadline_ok (set_budget d s).
Proof.
  intros [O G] Hd. unfold set_budget, short in *. destruct (fired_ s) eqn:Hf; [by split|]. pose proof O as [T K N B F].
  destruct (Z.ltb_spec 0 d) as [Hp|Hp].
  - rewrite !u64_small by (rewrite ?u64_small; lia). destruct (Z.eqb_spec (now_ns s + d * 1000000) 0); [lia|]. apply arm_ok; [|lia]. split; simpl; try done; lia.
  - apply (off_ok (with_budget 0 s)); [|done]. split; simpl; try done; lia.
Qed.

(** The [m] milliseconds [cap d] arms for: the cap, at least one millisecond,
    or, in an era, what is left of it if that is less. *)
Definition capped (d m : Z) s : Prop :=
  (m = Z.max 1 d \/ (budget_ns_ s <> 0 /\ budget_ns_ s < now_ns s + m * 1000000)) /\ (budget_ns_ s <> 0 -> now_ns s + m * 1000000 <= budget_ns_ s + 1000000).

(** What [cap] and [restore_after_op] do when the deadline has not fired. *)
Lemma cap_ok d s : deadline_ok s -> short d -> fired_ s = false ->
  exists s', cap d s = Some s' /\ deadline_ok s' /\
    if negb (budget_ns_ s =? 0) && (budget_ns_ s <=? now_ns s) then fired_ s' = true
    else fired_ s' = false /\ exists m, 0 < m <= Z.max 1 d /\ tm_left (wheel_ s') = Some (ceil_ticks (tm_tick (wheel_ s)) m) /\ capped d m s.
Proof.
  intros [O G] Hd Hf. unfold cap, short in *. rewrite Hf. destruct (Z.eqb_spec (budget_ns_ s) 0) as [Eb|Eb]; simpl.
  - set (m := if d <=? 0 then 1 else d). assert (Hm : 0 < m <= Z.max 1 d) by (subst m; destruct (Z.leb_spec d 0); lia).
    destruct (arm_ok m s O ltac:(lia)) as [A1 A2]. eexists. split; [done|]. split; [done|]. split; [done|]. exists m. split; [done|]. split; [done|]. split; [left; subst m; destruct (Z.leb_spec d 0); lia|]. intros Hn. by destruct Hn.
  - destruct (Z.leb_spec (budget_ns_ s) (now_ns s)) as [Hs|Hs].
    + destruct (fire_ok s O) as (s' & Ef & O' & Hf' & _). by exists s'.
    + destruct (left_range s O Hs) as [L1 L2]. set (m := if left_ms s <? d then left_ms s else d). set (m' := if m <=? 0 then 1 else m).
      assert (Hm : 0 < m' <= Z.max 1 d /\ m' <= left_ms s /\ (m' = Z.max 1 d \/ m' = left_ms s)) by (subst m' m; destruct (Z.ltb_spec (left_ms s) d), (Z.leb_spec d 0), (Z.leb_spec (left_ms s) 0); lia).
      destruct (arm_ok m' s O ltac:(lia)) as [A1 A2]. eexists. split; [done|]. split; [done|]. split; [done|]. exists m'. split; [lia|]. split; [done|]. split; [|intros _; lia]. destruct Hm as (_ & _ & [?|Hm]); [by left|right; split; [done|lia]].
Qed.

Lemma restore_ok s : deadline_ok s -> fired_ s = false ->
  exists s', restore_after_op s = Some s' /\ deadline_ok s' /\
    if budget_ns_ s =? 0 then fired_ s' = false /\ tm_left (wheel_ s') = None
    else if budget_ns_ s <=? now_ns s then fired_ s' = true
    else fired_ s' = false /\ exists m, tm_left (wheel_ s') = Some (ceil_ticks (tm_tick (wheel_ s)) m) /\ budget_ns_ s < now_ns s + m * 1000000 <= budget_ns_ s + 1000000.
Proof.
  intros [O G] Hf. unfold restore_after_op. rewrite Hf. destruct (Z.eqb_spec (budget_ns_ s) 0) as [Eb|Eb].
  - eexists. split; [done|]. split; [by apply off_ok|]. split; [done|]. by destruct (cancel_law _ (d_timer _ O)) as (_ & ? & _).
  - destruct (Z.leb_spec (budget_ns_ s) (now_ns s)) as [Hs|Hs].
    + destruct (fire_ok s O) as (s' & Ef & O' & Hf' & _). by exists s'.
    + destruct (left_range s O Hs) as [L1 L2]. destruct (arm_ok (left_ms s) s O L1) as [A1 A2]. eexists. split; [done|]. split; [done|]. split; [done|]. by exists (left_ms s).
Qed.

Lemma reset_ok s : deadline_ok s -> exists s' r, reset_deadline s = Some (s', r) /\ deadline_ok s' /\
  match r with Ok _ => fired_ s' = false /\ ks_cancelled (canceler_ s') = false /\ budget_ns_ s' = 0 /\ tm_left (wheel_ s') = None | Unexpected _ => s' = s end.
Proof.
  intros [O G]. pose proof O as [T K N B F]. destruct (ks_reset_law _ K) as (c & r & Er & Kc & Hc). unfold reset_deadline. rewrite Er. destruct (cancel_law _ T) as (A1 & A2 & _).
  destruct r as [u|e]; eexists _, _; (split; [done|]).
  - split; [|by split_and!]. split; [split; simpl; try done; lia|]. intros _ Hb. done.
  - subst c. destruct s. split; [|done]. by split.
Qed.

Lemma deadline_reach_ok s : deadline_reach s -> deadline_ok s.
Proof.
  induction 1 as [w c b n now Tw Lw Kc Hc Hb Hn|s d _ IH Hd|s d s' _ IH Hd E|s s' _ IH E|s s' r _ IH E|s w s' _ IH Ha Tw Lw Ht E|s w c now _ IH Tw Ht Hl Kc Hc Hn].
  - assert (O : deadline_ok (mk_deadline w c 0 false n now)) by (split; [split; simpl; try done; lia|]; intros _ ?; done).
    unfold make_deadline. destruct (0 <? b); [by apply set_budget_ok|done].
  - by apply set_budget_ok.
  - destruct (fired_ s) eqn:Hf; [unfold cap in E; rewrite Hf in E; by injection E as <-|]. destruct (cap_ok d s IH Hd Hf) as (s2 & E2 & O & _). congruence.
  - destruct (fired_ s) eqn:Hf; [unfold restore_after_op in E; rewrite Hf in E; by injection E as <-|]. destruct (restore_ok s IH Hf) as (s2 & E2 & O & _). congruence.
  - destruct (reset_ok s IH) as (s2 & r2 & E2 & O & _). congruence.
  - destruct IH as [[T K N B F] G]. destruct (fire_ok (with_wheel w s)) as (s2 & E2 & O & _); [by split|]. congruence.
  - destruct IH as [[T K N B F] G]. split; [split; simpl; try done; [lia|lia|auto]|]. intros Hf Hb. specialize (G Hf Hb). simpl in *. destruct (tm_left w); [done|]. by destruct (tm_left (wheel_ s)).
Qed.

(** C31: In any use of a deadline: as long as an era is open and has not fired
    its timer is armed; a fired deadline has cancelled its canceler, stays fired
    through every [set_budget], [cap] and the end of any operation, and reports
    ETIMEDOUT, while one that has not fired reports the operation's own error;
    [cap] and the end of an operation fire at once when the era is spent.
    Otherwise [cap] arms the timer for the cap or the rest of the era, whichever
    is less, and the end of an operation for the rest of the era; the rest is
    rounded up to at most one millisecond beyond the shared end, and the wheel
    rounds it up to ticks;
    [reset] brings everything back or, while operations are left, changes
    nothing. *)
Theorem deadline_sound s : deadline_reach s ->
  guarded s /\
  (fired_ s = true -> ks_cancelled (canceler_ s) = true /\ (forall d, set_budget d s = s /\ cap d s = Some s) /\ restore_after_op s = Some s /\ forall e, map_error e s = Error ETIMEDOUT DSystem) /\
  (fired_ s = false -> forall e, map_error e s = e) /\
  (forall d, short d -> fired_ s = false -> exists s', cap d s = Some s' /\
    if negb (budget_ns_ s =? 0) && (budget_ns_ s <=? now_ns s) then fired_ s' = true
    else fired_ s' = false /\ exists m, 0 < m <= Z.max 1 d /\ tm_left (wheel_ s') = Some (ceil_ticks (tm_tick (wheel_ s)) m) /\ capped d m s) /\
  (fired_ s = false -> exists s', restore_after_op s = Some s' /\
    if budget_ns_ s =? 0 then fired_ s' = false /\ tm_left (wheel_ s') = None
    else if budget_ns_ s <=? now_ns s then fired_ s' = true
    else fired_ s' = false /\ exists m, tm_left (wheel_ s') = Some (ceil_ticks (tm_tick (wheel_ s)) m) /\ budget_ns_ s < now_ns s + m * 1000000 <= budget_ns_ s + 1000000) /\
  (exists s' r, reset_deadline s = Some (s', r) /\
    match r with Ok _ => fired_ s' = false /\ ks_cancelled (canceler_ s') = false /\ budget_ns_ s' = 0 /\ tm_left (wheel_ s') = None | Unexpected _ => s' = s end).
Proof.
  intros O%deadline_reach_ok. pose proof O as [B G]. split_and!.
  - done.
  - intros Hf. split; [by apply (d_fired _ B)|]. unfold set_budget, cap, restore_after_op, map_error. by rewrite Hf.
  - intros Hf e. unfold map_error. by rewrite Hf.
  - intros d Hd Hf. destruct (cap_ok d s O Hd Hf) as (s' & E & _ & Hs). by exists s'.
  - intros Hf. destruct (restore_ok s O Hf) as (s' & E & _ & Hs). by exists s'.
  - destruct (reset_ok s O) as (s' & r & E & _ & Hs). by exists s', r.
Qed.

(** An era found spent by [cap] fires there and leaves its timer armed: when
    that expires too, the counter is bumped again. *)
Lemma spent_cap_fires_twice s d n w : base_ok s -> fired_ s = false -> budget_ns_ s <> 0 -> budget_ns_ s <= now_ns s -> timeouts_ s = Some n -> 0 <= n < 2 ^ 63 -> tm_ok w ->
  exists s1 s2, cap d s = Some s1 /\ tm_left (wheel_ s1) = tm_left (wheel_ s) /\ fire (with_wheel w s1) = Some s2 /\ timeouts_ s2 = Some (n + 2).
Proof.
  intros O Hf Hb Hs Ht Hn Tw. unfold cap. rewrite Hf, (proj2 (Z.eqb_neq _ _) Hb), (proj2 (Z.leb_le _ _) Hs). simpl. destruct (ks_cancel_law _ (d_switch _ O)) as (c & Ec & Kc & _).
  unfold fire at 1. rewrite Ec, Ht. destruct (ks_cancel_law _ Kc) as (c2 & Ec2 & _). eexists _, _. split; [done|]. split; [done|]. unfold fire. simpl. rewrite Ec2. split; [done|]. simpl.
  rewrite !u64_small by (rewrite ?u64_small; lia). f_equal. lia.
Qed.
End Deadline.

(** ** A budget of 10 ms on a wheel of 5 ms ticks *)
#[local] Existing Instance toy_lib.
#[local] Existing Instance toy_backend.
#[local] Instance toy_backend_laws : CancelBackendLaws (io_t (R := toy_ring)) := uring_backend_laws toy_handle.

Definition ten_ms : deadline_t (W := timer_wheel_t) (C := ops_t (U := io_t (R := toy_ring))) :=
  make_deadline (H := wheel_timer 1) (make 5 {[1%nat := node_init true]}) toy_root 10 (Some 0) 0.
Definition ten_ms_late := mk_deadline (wheel_ ten_ms) (canceler_ ten_ms) (budget_ns_ ten_ms) (fired_ ten_ms) (timeouts_ ten_ms) 20000000.

Lemma deadline_sound_witness :
  (exists k, tm_left (OneTimer := wheel_timer 1) (wheel_ ten_ms) = Some k) /\
  (exists s', cap (H := wheel_timer 1) (H1 := canceler_switch 7) 3 ten_ms_late = Some s' /\ fired_ s' = true).
Proof.
  assert (Tm : tm_ok (OneTimer := wheel_timer 1) (make 5 {[1%nat := node_init true]})).
  { split; [simpl; lia|]. split; [by eexists|]. eexists. apply wf_make. intros x nd [<- <-]%lookup_singleton_Some. vm_compute. repeat split; discriminate. }
  assert (Ks : ks_ok (KillSwitch := canceler_switch 7) toy_root).
  { split; [|by eexists]. apply ops_reach_ok. apply (opr_root toy_start 7); [apply opr_start|reflexivity]. }
  assert (R : deadline_reach (H := wheel_timer 1) (H1 := canceler_switch 7) ten_ms) by (apply dr_make; [exact Tm|reflexivity|exact Ks|reflexivity|unfold short; lia|lia]).
  assert (R2 : deadline_reach (H := wheel_timer 1) (H1 := canceler_switch 7) ten_ms_late).
  { apply dr_time; [exact R| |reflexivity| |exact Ks|done|simpl; lia].
    - exact (proj1 (arm_law (OneTimerLaws := wheel_timer_laws 1) 10 _ Tm ltac:(lia))).
    - destruct (arm_law (OneTimerLaws := wheel_timer_laws 1) 10 _ Tm ltac:(lia)) as (_ & E & _). change (wheel_ ten_ms) with (tm_arm (OneTimer := wheel_timer 1) 10 (make 5 {[1%nat := node_init true]})). rewrite E. lia. }
  destruct (deadline_sound ten_ms R) as (G & _). destruct (deadline_sound ten_ms_late R2) as (_ & _ & _ & H4 & _). split.
  - assert (Hg : tm_left (OneTimer := wheel_timer 1) (wheel_ ten_ms) <> None) by (apply G; [reflexivity|vm_compute; discriminate]).
    destruct (tm_left (OneTimer := wheel_timer 1) (wheel_ ten_ms)) as [k|]; [by exists k|done].
  - destruct (H4 3) as (s' & E & Hs); [unfold short; lia|reflexivity|]. exists s'. split; [exact E|exact Hs].
Defined.
