(* ===== verification/Protocol.v ===== *)
(** * HTTP protocol tables

    src/include/cornet/http/common/protocol.h and src/src/http/common/protocol.cc:
    methods, statuses and header fields, the pre-rendered text tables, the
    SWAR header-name recogniser and the error-to-status map. *)

From stdpp Require Import prelude list_numbers strings.
From Stdlib Require Import ZArith Lia.
From S2P Require Import Prelude.
Open Scope Z_scope.

(** ** Enumerations *)

Inductive method_t :=
| Delete | Get | Head | Post | Put | Connect | Options | Trace | Patch | MUnknown.

Inductive version_t := Http10 | Http11 | VUnknown.

#[global] Instance method_t_eq_dec : EqDecision method_t.
Proof. solve_decision. Defined.
#[global] Instance version_t_eq_dec : EqDecision version_t.
Proof. solve_decision. Defined.

(** A status carries its wire value; any 16-bit value may occur. *)
Abbreviation status_t := Z (only parsing).

Inductive field_t :=
| Host | ContentLength | ContentType | TransferEncoding | Connection | Accept | AcceptEncoding
| AcceptLanguage | UserAgent | Expect | Upgrade | Date | Server | Location | Cookie | SetCookie
| Authorization | Referer | Range | IfNoneMatch | IfModifiedSince | ETag | CacheControl | Origin
| Other.

#[global] Instance field_t_eq_dec : EqDecision field_t.
Proof. solve_decision. Defined.

(** The enumerated fields in the order of the enum. *)
Definition all_fields : list field_t :=
  [Host; ContentLength; ContentType; TransferEncoding; Connection; Accept; AcceptEncoding;
   AcceptLanguage; UserAgent; Expect; Upgrade; Date; Server; Location; Cookie; SetCookie;
   Authorization; Referer; Range; IfNoneMatch; IfModifiedSince; ETag; CacheControl; Origin].

Definition field_index (f : field_t) : Z :=
  match f with
  | Host => 0 | ContentLength => 1 | ContentType => 2 | TransferEncoding => 3 | Connection => 4
  | Accept => 5 | AcceptEncoding => 6 | AcceptLanguage => 7 | UserAgent => 8 | Expect => 9
  | Upgrade => 10 | Date => 11 | Server => 12 | Location => 13 | Cookie => 14 | SetCookie => 15
  | Authorization => 16 | Referer => 17 | Range => 18 | IfNoneMatch => 19 | IfModifiedSince => 20
  | ETag => 21 | CacheControl => 22 | Origin => 23 | Other => 24
  end.

Definition kFieldCount : Z := 24.

(** [kFieldText], in the order of the enum. *)
Definition field_name (f : field_t) : bytes :=
  str match f with
  | Host => "Host" | ContentLength => "Content-Length" | ContentType => "Content-Type"
  | TransferEncoding => "Transfer-Encoding" | Connection => "Connection" | Accept => "Accept"
  | AcceptEncoding => "Accept-Encoding" | AcceptLanguage => "Accept-Language"
  | UserAgent => "User-Agent" | Expect => "Expect" | Upgrade => "Upgrade" | Date => "Date"
  | Server => "Server" | Location => "Location" | Cookie => "Cookie" | SetCookie => "Set-Cookie"
  | Authorization => "Authorization" | Referer => "Referer" | Range => "Range"
  | IfNoneMatch => "If-None-Match" | IfModifiedSince => "If-Modified-Since" | ETag => "ETag"
  | CacheControl => "Cache-Control" | Origin => "Origin" | Other => ""
  end.

Definition field_prefix (f : field_t) : option bytes :=
  match f with Other => None | _ => Some (field_name f ++ str ": ") end.

(** ** Statuses *)

(** [CORNET_STATUS_MAP]: wire value and reason phrase. *)
Definition status_map : list (Z * string) :=
  [(100, "Continue"); (101, "Switching Protocols"); (200, "OK"); (201, "Created");
   (202, "Accepted"); (204, "No Content"); (205, "Reset Content"); (206, "Partial Content");
   (301, "Moved Permanently"); (302, "Found"); (303, "See Other"); (304, "Not Modified");
   (307, "Temporary Redirect"); (308, "Permanent Redirect"); (400, "Bad Request");
   (401, "Unauthorized"); (403, "Forbidden"); (404, "Not Found"); (405, "Method Not Allowed");
   (406, "Not Acceptable"); (408, "Request Timeout"); (409, "Conflict"); (410, "Gone");
   (411, "Length Required"); (412, "Precondition Failed"); (413, "Content Too Large");
   (414, "URI Too Long"); (415, "Unsupported Media Type"); (417, "Expectation Failed");
   (422, "Unprocessable Content"); (426, "Upgrade Required"); (429, "Too Many Requests");
   (431, "Request Header Fields Too Large"); (500, "Internal Server Error");
   (501, "Not Implemented"); (502, "Bad Gateway"); (503, "Service Unavailable");
   (504, "Gateway Timeout"); (505, "HTTP Version Not Supported")]%string.

Definition status_lookup (s : status_t) : option string :=
  match List.find (fun e => fst e =? s) status_map with Some (_, p) => Some p | None => None end.

Definition reason_phrase (s : status_t) : bytes :=
  str match status_lookup s with Some p => p | None => "Unknown" end.

(** The decimal digits of a three-digit code, as the preprocessor stringises them. *)
Definition code_text (s : Z) : bytes := [48 + s / 100; 48 + s / 10 mod 10; 48 + s mod 10].

Definition status_line (s : status_t) : option bytes :=
  match status_lookup s with
  | Some p => Some (str "HTTP/1.1 " ++ code_text s ++ str " " ++ str p ++ [13; 10])
  | None => None
  end.

Definition method_name (m : method_t) : bytes :=
  str match m with
  | Get => "GET" | Head => "HEAD" | Post => "POST" | Put => "PUT" | Delete => "DELETE"
  | Connect => "CONNECT" | Options => "OPTIONS" | Trace => "TRACE" | Patch => "PATCH"
  | MUnknown => "UNKNOWN"
  end.

Definition method_is_idempotent (m : method_t) : bool :=
  match m with Get | Head | Put | Delete | Options | Trace => true | _ => false end.

Definition status_forbids_body (s : status_t) : bool :=
  ((100 <=? s) && (s <? 200)) || (s =? 204) || (s =? 304).

Definition status_is_informational (s : status_t) : bool := (100 <=? s) && (s <? 200).

Definition field_forbidden_in_trailer (f : field_t) : bool :=
  match f with
  | ContentLength | TransferEncoding | ContentType
  | Host | Connection | Upgrade
  | Expect | Range | CacheControl
  | Authorization | Cookie | SetCookie
  | Date | Location => true
  | _ => false
  end.

(** ** Errors *)

Definition kProtocolErrorBase : Z := 1000.
Definition kProtocolClientErrorBase : Z := 2000.

Inductive http_error_t :=
| HeaderTooLarge | TooManyHeaders | BodyTooLarge | BadContentLength | BadHeader
| UnsupportedVersion | OutputOverflow | InvalidState | BadUpgrade
| BadUrl | UnsupportedScheme | TooManyRedirects | PoolExhausted | ResponseIncomplete | InvalidHeader.

Definition http_error_val (e : http_error_t) : Z :=
  match e with
  | HeaderTooLarge => kProtocolErrorBase + 1 | TooManyHeaders => kProtocolErrorBase + 2
  | BodyTooLarge => kProtocolErrorBase + 3 | BadContentLength => kProtocolErrorBase + 4
  | BadHeader => kProtocolErrorBase + 5 | UnsupportedVersion => kProtocolErrorBase + 6
  | OutputOverflow => kProtocolErrorBase + 7 | InvalidState => kProtocolErrorBase + 8
  | BadUpgrade => kProtocolErrorBase + 9
  | BadUrl => kProtocolClientErrorBase + 1 | UnsupportedScheme => kProtocolClientErrorBase + 2
  | TooManyRedirects => kProtocolClientErrorBase + 3 | PoolExhausted => kProtocolClientErrorBase + 4
  | ResponseIncomplete => kProtocolClientErrorBase + 5 | InvalidHeader => kProtocolClientErrorBase + 6
  end.

Definition http_error (e : http_error_t) : error_t := Error (http_error_val e) DHttp.

(** ** Header-name recognition *)

Definition kLower : Z := 0x2020202020202020.

(** [pack(s)]: up to eight bytes of a literal, lowercased, little-endian. *)
Fixpoint pack_from (i : Z) (s : bytes) (v : Z) : Z :=
  match s with
  | [] => v
  | c :: s => pack_from (i + 1) s (v ||| ((c ||| 0x20) <<< (8 * i)))
  end.
Definition pack (s : bytes) : Z := pack_from 0 (take 8 s) 0.

(** [ld<N>(p)]: load [N] bytes and lowercase them in one OR. *)
Definition ld (n : nat) (p : bytes) : Z :=
  let v := le_combine (take n p) ||| kLower in
  if (n <? 8)%nat then v &&& ((1 <<< (8 * Z.of_nat n)) - 1) else v.

Definition word_is (n : nat) (p : bytes) (lit : string) : bool := ld n p =? pack (str lit).

(** [HTTP_M8(p, lit, len)]: the first and the last word. *)
Definition m8 (p : bytes) (lit : string) (len : nat) : bool :=
  (ld 8 p =? pack (str lit)) && (ld 8 (drop (len - 8) p) =? pack (drop (len - 8) (str lit))).

Definition field_from_name (p : bytes) : field_t :=
  match length p with
  | 4%nat => if word_is 4 p "host" then Host else if word_is 4 p "date" then Date
             else if word_is 4 p "etag" then ETag else Other
  | 5%nat => if word_is 5 p "range" then Range else Other
  | 6%nat => if word_is 6 p "accept" then Accept else if word_is 6 p "expect" then Expect
             else if word_is 6 p "server" then Server else if word_is 6 p "cookie" then Cookie
             else if word_is 6 p "origin" then Origin else Other
  | 7%nat => if word_is 7 p "upgrade" then Upgrade else if word_is 7 p "referer" then Referer else Other
  | 8%nat => if word_is 8 p "location" then Location else Other
  | 10%nat => if m8 p "connection" 10 then Connection else if m8 p "user-agent" 10 then UserAgent
              else if m8 p "set-cookie" 10 then SetCookie else Other
  | 12%nat => if m8 p "content-type" 12 then ContentType else Other
  | 13%nat => if m8 p "authorization" 13 then Authorization
              else if m8 p "if-none-match" 13 then IfNoneMatch
              else if m8 p "cache-control" 13 then CacheControl else Other
  | 14%nat => if m8 p "content-length" 14 then ContentLength else Other
  | 15%nat => if m8 p "accept-encoding" 15 then AcceptEncoding
              else if m8 p "accept-language" 15 then AcceptLanguage else Other
  | 17%nat => if m8 p "transfer-encoding" 17 then TransferEncoding
              else if m8 p "if-modified-since" 17 then IfModifiedSince else Other
  | _ => Other
  end.

(** [iequals(a, b)] *)
Fixpoint iequals (a b : bytes) : bool :=
  match a, b with
  | [], [] => true
  | x :: a, y :: b => ((x ||| 0x20) =? (y ||| 0x20)) && iequals a b
  | _, _ => false
  end.

(** The error-to-status map.  The llhttp codes it switches on are constants
    of that library. *)
Section Llhttp.
Context (HPE_INVALID_METHOD HPE_INVALID_VERSION HPE_INVALID_URL : Z).

Definition status_for_error (err : error_t) : status_t :=
  if negb (bool_decide (domain err = DHttp)) then 500
  else
    let c := code err in
    if (c =? http_error_val HeaderTooLarge) || (c =? http_error_val TooManyHeaders) then 431
    else if c =? http_error_val BodyTooLarge then 413
    else if c =? http_error_val UnsupportedVersion then 505
    else if (c =? http_error_val OutputOverflow) || (c =? http_error_val InvalidState) then 500
    else if (c =? http_error_val InvalidHeader) || (c =? http_error_val BadHeader) then 400
    else if c =? HPE_INVALID_METHOD then 501
    else if c =? HPE_INVALID_VERSION then 505
    else if c =? HPE_INVALID_URL then 414
    else 400.
End Llhttp.

(** ** SWAR words as folded byte runs *)

Definition fold_byte (c : Z) : Z := c ||| 0x20.
Definition fold_case (p : bytes) : bytes := map fold_byte p.

Lemma fold_byte_range c : is_byte c -> is_byte (fold_byte c).
Proof.
  intros Hc. pose proof (byte_forall (fun c => bool_decide (is_byte (fold_byte c))) eq_refl c Hc) as H.
  by apply bool_decide_eq_true in H.
Qed.

Lemma fold_case_bytes p : Forall is_byte p -> Forall is_byte (fold_case p).
Proof. induction 1; simpl; constructor; auto using fold_byte_range. Qed.

Lemma str_bytes s : Forall is_byte (str s).
Proof.
  unfold str. induction (String.list_ascii_of_string s) as [|a l IH]; simpl; constructor; [|done].
  unfold is_byte. pose proof (Ascii.N_ascii_bounded a). lia.
Qed.
#[export] Hint Resolve str_bytes fold_case_bytes : cornet.

Lemma le_combine_app_lor l1 l2 :
  Forall is_byte l1 ->
  le_combine (l1 ++ l2) = (le_combine l2 <<< (8 * size l1)) ||| le_combine l1.
Proof.
  intros H1. rewrite lor_shiftl_add.
  - unfold size. induction H1 as [|b l Hb Hl IH]; [simpl; lia|].
    cbn [le_combine app length]. rewrite IH, Nat2Z.inj_succ, Z.mul_succ_r, Z.pow_add_r by lia.
    change (2 ^ 8) with 256. lia.
  - unfold size. lia.
  - by apply le_combine_range.
Qed.

Lemma pack_from_spec done s :
  Forall is_byte (fold_case s) -> Forall is_byte done ->
  pack_from (size done) s (le_combine done) = le_combine (done ++ fold_case s).
Proof.
  intros Hs. revert done. induction s as [|c s IH]; intros dn Hd; simpl.
  { by rewrite app_nil_r. }
  inversion Hs as [|? ? Hc Hs']; subst. change (fold_case (c :: s)) with (fold_byte c :: fold_case s).
  rewrite cons_middle, app_assoc, <- IH; [|done|by apply Forall_app; split; [|apply Forall_singleton]].
  f_equal; [unfold size; rewrite length_app; simpl; lia|].
  rewrite le_combine_app_lor by done. rewrite Z.lor_comm. do 2 f_equal.
  unfold fold_byte. cbn [le_combine]. lia.
Qed.

Lemma pack_spec s : Forall is_byte s -> pack s = le_combine (fold_case (take 8 s)).
Proof.
  intros Hs. unfold pack. apply (pack_from_spec []); [|constructor].
  by apply fold_case_bytes, Forall_take.
Qed.

(** OR with a word of 0x20 bytes folds every loaded byte. *)
Lemma le_combine_lor l1 l2 :
  length l1 = length l2 -> Forall is_byte l1 -> Forall is_byte l2 ->
  le_combine l1 ||| le_combine l2 = le_combine (zip_with Z.lor l1 l2).
Proof.
  intros Hlen H1. revert l2 Hlen. induction H1 as [|b l Hb Hl IH]; intros [|c m] Hlen H2; try done.
  inversion H2 as [|? ? Hc Hm]; simplify_eq/=. rewrite <- IH by done.
  assert (forall x y, is_byte x -> x + 256 * y = (y <<< 8) ||| x) as Hor.
  { intros x y Hx. rewrite lor_shiftl_add by done. change (2 ^ 8) with 256. lia. }
  rewrite (Hor b), (Hor c) by done.
  assert (is_byte (b ||| c)) as Hbc.
  { unfold is_byte. split; [apply Z.lor_nonneg; unfold is_byte in *; lia|].
    destruct (Z.eq_dec (b ||| c) 0) as [->|Hne]; [lia|]. apply (Z.log2_lt_cancel _ 256).
    rewrite Z.log2_lor by (unfold is_byte in *; lia). unfold is_byte in *.
    change (Z.log2 256) with 8. apply Z.max_lub_lt.
    - destruct (Z.eq_dec b 0) as [->|]; [done|]. apply Z.log2_lt_pow2; lia.
    - destruct (Z.eq_dec c 0) as [->|]; [done|]. apply Z.log2_lt_pow2; lia. }
  rewrite (Hor (b ||| c)) by done. rewrite Z.shiftl_lor.
  rewrite <- !Z.lor_assoc. f_equal. rewrite !Z.lor_assoc, (Z.lor_comm b). done.
Qed.

Lemma ld_spec n p :
  (n <= 8)%nat -> (n <= length p)%nat -> Forall is_byte p -> ld n p = le_combine (fold_case (take n p)).
Proof.
  intros Hn Hlen Hp. unfold ld. set (t := take n p).
  assert (length t = n) as Ht by (unfold t; rewrite length_take; lia).
  assert (Forall is_byte t) as Htb by by apply Forall_take.
  assert (kLower = le_combine (replicate n 0x20 ++ replicate (8 - n) 0x20)) as Hk.
  { rewrite <- replicate_add. by replace (n + (8 - n))%nat with 8%nat by lia. }
  assert (forall j, Forall is_byte (replicate j 0x20)) as Hrep.
  { intros j. apply Forall_replicate. done. }
  assert (zip_with Z.lor t (replicate n 0x20) = fold_case t) as Hz.
  { clear -Ht. rewrite <- Ht. clear Ht. induction t as [|c t IH]; [done|]. simpl. by rewrite IH. }
  assert (le_combine t ||| kLower =
    (le_combine (replicate (8 - n) 0x20) <<< (8 * Z.of_nat n)) ||| le_combine (fold_case t)) as E.
  { rewrite Hk, le_combine_app_lor by done. unfold size. rewrite length_replicate.
    rewrite <- Hz, <- le_combine_lor by (rewrite ?length_replicate; done).
    rewrite Z.lor_assoc, (Z.lor_comm (le_combine t)), <- Z.lor_assoc. done. }
  pose proof (le_combine_range _ (fold_case_bytes _ Htb)) as Hr.
  unfold fold_case in Hr at 3. rewrite length_map, Ht in Hr.
  rewrite E. destruct (Nat.ltb_spec n 8) as [Hlt|Hge].
  - replace ((1 <<< (8 * Z.of_nat n)) - 1) with (Z.ones (8 * Z.of_nat n)).
    2:{ rewrite Z.ones_equiv, Z.shiftl_1_l. lia. }
    rewrite Z.land_ones, lor_shiftl_add by lia.
    rewrite Z.add_comm, Z.mod_add by (apply Z.pow_nonzero; lia). by apply Z.mod_small.
  - replace (8 - n)%nat with 0%nat by lia. simpl. by rewrite Z.shiftl_0_l.
Qed.

Lemma le_combine_inj l1 l2 :
  length l1 = length l2 -> Forall is_byte l1 -> Forall is_byte l2 ->
  le_combine l1 = le_combine l2 -> l1 = l2.
Proof.
  intros Hlen H1 H2 E. rewrite <- (le_split_combine l1), <- (le_split_combine l2) by done.
  by rewrite E, Hlen.
Qed.

Lemma fold_take n p : fold_case (take n p) = take n (fold_case p).
Proof. unfold fold_case. by rewrite fmap_take. Qed.
Lemma fold_drop n p : fold_case (drop n p) = drop n (fold_case p).
Proof. unfold fold_case. by rewrite fmap_drop. Qed.
Lemma length_fold p : length (fold_case p) = length p.
Proof. apply length_map. Qed.

(** One word decides equality up to case bits on its window. *)
Lemma word_spec n p lit :
  (n <= 8)%nat -> (n <= length p)%nat -> Forall is_byte p -> length lit = n -> Forall is_byte lit ->
  (ld n p =? pack lit) = bool_decide (take n (fold_case p) = fold_case lit).
Proof.
  intros Hn Hlen Hp Hl Hlit. rewrite ld_spec, pack_spec, <- fold_take by done.
  rewrite (take_ge lit) by lia.
  destruct (Z.eqb_spec (le_combine (fold_case (take n p))) (le_combine (fold_case lit))) as [E|E].
  - symmetry. apply bool_decide_eq_true. apply le_combine_inj in E; [done| |auto using Forall_take with cornet..].
    rewrite !length_fold, length_take. lia.
  - symmetry. apply bool_decide_eq_false. congruence.
Qed.

Lemma fold_byte_idem c : is_byte c -> fold_byte (fold_byte c) = fold_byte c.
Proof. intros _. unfold fold_byte. by rewrite <- Z.lor_assoc, Z.lor_diag. Qed.

Lemma fold_case_idem p : Forall is_byte p -> fold_case (fold_case p) = fold_case p.
Proof. induction 1 as [|c p Hc Hp IH]; [done|]. simpl. by rewrite IH, fold_byte_idem. Qed.

Lemma ld_fold n p :
  (n <= 8)%nat -> (n <= length p)%nat -> Forall is_byte p -> ld n (fold_case p) = ld n p.
Proof.
  intros Hn Hl Hp. rewrite !ld_spec by (rewrite ?length_fold; auto with cornet).
  by rewrite !fold_take, fold_case_idem.
Qed.

Lemma word_is_fold n p lit :
  (n <= 8)%nat -> (n <= length p)%nat -> Forall is_byte p -> word_is n (fold_case p) lit = word_is n p lit.
Proof. intros. unfold word_is. by rewrite ld_fold. Qed.

Lemma m8_fold p lit n :
  (8 <= n)%nat -> length p = n -> Forall is_byte p -> m8 (fold_case p) lit n = m8 p lit n.
Proof.
  intros Hn Hl Hp. unfold m8. rewrite <- fold_drop.
  by rewrite !ld_fold by (rewrite ?length_drop; auto using Forall_drop; lia).
Qed.

(** The recogniser sees a name only through its case-folded bytes. *)
Lemma field_from_name_fold p :
  Forall is_byte p -> field_from_name (fold_case p) = field_from_name p.
Proof.
  intros Hp. unfold field_from_name. rewrite length_fold.
  destruct (length p) as [|n] eqn:Hl; [done|].
  do 17 (destruct n as [|n]; [rewrite ?word_is_fold, ?m8_fold by (done || lia); reflexivity|]).
  reflexivity.
Qed.

Lemma word_is_true n p lit :
  word_is n p lit = true -> (n <= 8)%nat -> length p = n -> length (str lit) = n -> Forall is_byte p ->
  fold_case p = fold_case (str lit).
Proof.
  unfold word_is. intros H Hn Hp Hl Hb.
  rewrite word_spec in H by (auto using str_bytes; lia). apply bool_decide_eq_true in H.
  by rewrite take_ge in H by (rewrite length_fold; lia).
Qed.

(** Two overlapping words cover a name of eight to sixteen bytes. *)
Lemma m8_true n p lit :
  m8 p lit n = true -> (8 <= n <= 16)%nat -> length p = n -> length (str lit) = n -> Forall is_byte p ->
  fold_case p = fold_case (str lit).
Proof.
  unfold m8. intros H Hn Hp Hl Hb. apply andb_true_iff in H as [H1 H2].
  assert (pack (str lit) = pack (take 8 (str lit))) as E by (unfold pack; by rewrite take_take).
  rewrite E, word_spec in H1 by (auto using str_bytes, Forall_take; rewrite ?length_take; lia).
  rewrite word_spec in H2 by (auto using str_bytes, Forall_drop; rewrite ?length_drop; lia).
  apply bool_decide_eq_true in H1, H2. rewrite fold_take in H1. rewrite !fold_drop in H2.
  rewrite (take_ge (drop _ _)) in H2 by (rewrite length_drop, length_fold; lia).
  rewrite <- (take_drop 8 (fold_case p)), <- (take_drop 8 (fold_case (str lit))), H1. f_equal.
  replace 8%nat with ((n - 8) + (16 - n))%nat by lia. by rewrite <- !drop_drop, H2.
Qed.

Lemma iequals_fold a b : iequals a b = bool_decide (fold_case a = fold_case b).
Proof.
  revert b. induction a as [|x a IH]; intros [|y b]; try done. simpl. rewrite IH.
  fold (fold_byte x) (fold_byte y). destruct (Z.eqb_spec (fold_byte x) (fold_byte y)) as [E|E]; simpl.
  - apply bool_decide_ext. rewrite E. split; congruence.
  - symmetry. apply bool_decide_eq_false. congruence.
Qed.

Ltac recognised := match goal with
  | H : word_is _ _ _ = true |- _ => eapply word_is_true in H; [rewrite H; reflexivity| | |reflexivity|]; (done || lia)
  | H : m8 _ _ _ = true |- _ => eapply m8_true in H; [rewrite H; reflexivity| | |reflexivity|]; (done || lia)
  end.

Lemma field_from_name_sound p :
  Forall is_byte p -> length p <> 17%nat -> field_from_name p <> Other ->
  fold_case p = fold_case (field_name (field_from_name p)).
Proof.
  intros Hp H17. unfold field_from_name. destruct (length p) as [|n] eqn:Hl; [done|].
  do 17 (destruct n as [|n]; [try done; bool_destruct; intros ?; try done; recognised|]); done.
Qed.

(** the word-at-a-time header-name recogniser agrees with the
    case-insensitive comparison: every enumerated field is recognised from
    any spelling of its name, and (except for 17-byte names) a recognised
    name is a spelling of the field's name. *)
Theorem field_from_name_exact p :
  Forall is_byte p ->
  (forall f, f <> Other -> iequals p (field_name f) = true -> field_from_name p = f) /\
  (length p <> 17%nat -> field_from_name p <> Other ->
   iequals p (field_name (field_from_name p)) = true).
Proof.
  intros Hp. split.
  - intros f Hf E. rewrite iequals_fold in E. apply bool_decide_eq_true in E.
    rewrite <- field_from_name_fold, E by done. by destruct f; vm_compute.
  - intros Hl Hf. rewrite iequals_fold. apply bool_decide_eq_true. by apply field_from_name_sound.
Qed.

Lemma field_from_name_exact_witness :
  field_from_name (str "cOnTeNt-LeNgTh") = ContentLength /\
  iequals (str "ETAG") (field_name (field_from_name (str "ETAG"))) = true.
Proof.
  split.
  - apply (proj1 (field_from_name_exact (str "cOnTeNt-LeNgTh") (str_bytes _))); [done|reflexivity].
  - apply (proj2 (field_from_name_exact (str "ETAG") (str_bytes _))); vm_compute; congruence.
Defined.

(** the two words compared for a 17-byte name leave its ninth byte
    unread: a name with any byte there in place of the hyphen is taken for
    Transfer-Encoding or If-Modified-Since. *)
Theorem field_from_name_skips_ninth_byte b :
  is_byte b ->
  field_from_name (str "Transfer" ++ [b] ++ str "Encoding") = TransferEncoding /\
  field_from_name (str "If-Modif" ++ [b] ++ str "ed-Since") = IfModifiedSince /\
  iequals (str "TransferXEncoding") (field_name TransferEncoding) = false.
Proof. intros Hb. repeat split; reflexivity. Qed.

Lemma field_from_name_skips_ninth_byte_witness :
  field_from_name (str "Transfer" ++ [88] ++ str "Encoding") = TransferEncoding.
Proof. apply (field_from_name_skips_ninth_byte 88). unfold is_byte; lia. Defined.

(** Bytes a token may contain on which OR-ing 0x20 is exactly ASCII
    lowercasing: letters, digits and the hyphen. *)
Definition alnum_dash (c : Z) : bool :=
  ((48 <=? c) && (c <=? 57)) || ((65 <=? c) && (c <=? 90)) || ((97 <=? c) && (c <=? 122)) || (c =? 45).

Definition to_lower (c : Z) : Z := if (65 <=? c) && (c <=? 90) then c + 32 else c.

Lemma fold_byte_lower x : is_byte x -> alnum_dash x = true -> fold_byte x = to_lower x.
Proof.
  intros Hx Ha.
  pose proof (byte_forall (fun c => implb (alnum_dash c) (fold_byte c =? to_lower c)) eq_refl x Hx) as H.
  simpl in H. rewrite Ha in H. simpl in H. by apply Z.eqb_eq.
Qed.

(** on names made of letters, digits and hyphens, [iequals] is equality
    of the ASCII-lowercased names; outside that alphabet it also identifies
    bytes that differ in bit 0x20 only. *)
Theorem iequals_case_insensitive a b :
  Forall is_byte a -> Forall is_byte b ->
  forallb alnum_dash a = true -> forallb alnum_dash b = true ->
  iequals a b = bool_decide (map to_lower a = map to_lower b).
Proof.
  intros Ha Hb Aa Ab. rewrite iequals_fold.
  assert (forall l, Forall is_byte l -> forallb alnum_dash l = true -> fold_case l = map to_lower l) as E.
  { induction 1 as [|x l Hx Hl IH]; simpl; [done|]. intros [Hx' Hl']%andb_true_iff.
    by rewrite fold_byte_lower, IH. }
  by rewrite !E.
Qed.

Lemma iequals_case_insensitive_witness :
  iequals (str "Content-MD5") (str "content-md5") = true.
Proof.
  rewrite (iequals_case_insensitive (str "Content-MD5") (str "content-md5"));
    [reflexivity|apply str_bytes|apply str_bytes|reflexivity|reflexivity].
Defined.

(** the fold is not case folding on every token byte: '^' and '~' are
    both legal in a field name and compare equal, and so do the underscore
    and DEL. *)
Theorem iequals_conflates_tokens :
  iequals (str "x^id") (str "x~id") = true /\ iequals (str "x_id") (str "x" ++ [127] ++ str "id") = true.
Proof. split; reflexivity. Qed.
