(* ===== verification/Buffer.v ===== *)
(** * Pooled blocks and the message buffers

    src/include/cornet/http/common/buffer.h and src/src/http/common/buffer.cc.

    [Module Pool] is [buffer_pool_t] with its leases, over an explicit heap
    (live [malloc] blocks and their sizes) and the [next] words that the free
    lists thread through the blocks themselves.  [Module Head], [Module Body]
    and [Module Spill] are the three buffers built on a lease.  A lease is
    the only reference to its block (the pool's ownership theorem), so these
    modules hold the bytes of the block in the buffer's own state. *)

From stdpp Require Import prelude gmap list list_numbers strings.
From Stdlib Require Import ZArith Lia.
From S2P Require Import Prelude Protocol.
Open Scope Z_scope.

(** [body_mode_t] and [body_source_t] *)
Inductive body_mode_t := BEmpty | BExact | BStream.
Inductive body_source_t := SrcNone | SrcInline | SrcExternal | SrcStreaming | SrcFile.

#[global] Instance body_mode_t_eq_dec : EqDecision body_mode_t.
Proof. solve_decision. Defined.
#[global] Instance body_source_t_eq_dec : EqDecision body_source_t.
Proof. solve_decision. Defined.

Definition ENOMEM : Z := 12.

(** ** Block pool *)

Module Pool.

Definition addr := positive.

Definition kClassCount : nat := 4.
Definition kClassSize : list Z := [4 <<< 10; 16 <<< 10; 64 <<< 10; 256 <<< 10].

Record buffer_lease_t := Lease { pool_ : bool; data_ : addr; cap_ : Z }.

Record buffer_pool_t := mk_pool {
  free_ : list (option addr);
  allocations_ : Z;
  hits_ : Z;
  oversized_ : Z
}.

(** The pool, the [node_t::next] word of each pooled block, and the heap. *)
Record world := World {
  pool : buffer_pool_t;
  nexts : gmap addr (option addr);
  heap : gmap addr Z
}.

Definition init : world := World (mk_pool (replicate kClassCount None) 0 0 0) ∅ ∅.

(** [std::free]: freeing a block that is not live is undefined behaviour. *)
Definition free (w : world) (a : addr) : option world :=
  match heap w !! a with
  | Some _ => Some (World (pool w) (nexts w) (delete a (heap w)))
  | None => None
  end.

(** [std::malloc(n)], whose answer is [m]. *)
Definition malloc (w : world) (n : Z) (m : option addr) : world :=
  match m with
  | Some a => World (pool w) (nexts w) (<[a := n]> (heap w))
  | None => w
  end.

Fixpoint class_from (i : nat) (sizes : list Z) (n : Z) : option nat :=
  match sizes with
  | [] => None
  | s :: sizes => if n <=? s then Some i else class_from (S i) sizes n
  end.
Definition class_of (n : Z) : option nat := class_from 0 kClassSize n.

Definition acquire (w : world) (min_bytes : Z) (m : option addr) : world * option buffer_lease_t :=
  let p := pool w in
  match class_of min_bytes with
  | None =>
      let w := World (mk_pool (free_ p) (allocations_ p) (hits_ p) (oversized_ p + 1)) (nexts w) (heap w) in
      (malloc w min_bytes m, match m with Some a => Some (Lease false a min_bytes) | None => None end)
  | Some cls =>
      let cap := nth cls kClassSize 0 in
      match nth cls (free_ p) None with
      | Some node =>
          (World (mk_pool (<[cls := default None (nexts w !! node)]> (free_ p))
                    (allocations_ p) (hits_ p + 1) (oversized_ p)) (nexts w) (heap w),
           Some (Lease true node cap))
      | None =>
          let w := World (mk_pool (free_ p) (allocations_ p + 1) (hits_ p) (oversized_ p)) (nexts w) (heap w) in
          (malloc w cap m, match m with Some a => Some (Lease true a cap) | None => None end)
      end
  end.

Definition recycle (w : world) (data : addr) (cap : Z) : option world :=
  let p := pool w in
  match class_of cap with
  | None => free w data
  | Some cls =>
      if negb (nth cls kClassSize 0 =? cap) then free w data
      else Some (World (mk_pool (<[cls := Some data]> (free_ p)) (allocations_ p) (hits_ p) (oversized_ p))
                   (<[data := nth cls (free_ p) None]> (nexts w)) (heap w))
  end.

(** [buffer_lease_t::release] of a valid lease; an empty one does nothing. *)
Definition release (w : world) (l : buffer_lease_t) : option world :=
  if pool_ l then recycle w (data_ l) (cap_ l) else free w (data_ l).

(** [~buffer_pool_t]: the walk of one free list; the fuel bounds its length. *)
Fixpoint free_list (fuel : nat) (w : world) (node : option addr) : option world :=
  match node with
  | None => Some w
  | Some a =>
      match fuel with
      | O => None
      | S fuel =>
          match free w a with
          | Some w' => free_list fuel w' (default None (nexts w !! a))
          | None => None
          end
      end
  end.

Fixpoint destroy_lists (fuel : nat) (w : world) (fs : list (option addr)) : option world :=
  match fs with
  | [] => Some w
  | f :: fs => match free_list fuel w f with Some w => destroy_lists fuel w fs | None => None end
  end.
Definition destroy (w : world) : option world :=
  match destroy_lists (base.size (heap w)) w (free_ (pool w)) with
  | Some w => Some (World (mk_pool (replicate kClassCount None) (allocations_ (pool w)) (hits_ (pool w))
                             (oversized_ (pool w))) (nexts w) (heap w))
  | None => None
  end.

(** The clients: any sequence of acquisitions and releases of held leases.
    [malloc] answers with an address that is not live, or fails. *)
Inductive step : world * list buffer_lease_t -> world * list buffer_lease_t -> Prop :=
| step_acquire w ls n m w' l :
    (forall a, m = Some a -> heap w !! a = None) ->
    acquire w n m = (w', l) ->
    step (w, ls) (w', match l with Some l => l :: ls | None => ls end)
| step_release w ls1 l ls2 w' :
    release w l = Some w' ->
    step (w, ls1 ++ l :: ls2) (w', ls1 ++ ls2).

(** ** Ownership *)

Fixpoint chain (nx : gmap addr (option addr)) (h : option addr) (xs : list addr) : Prop :=
  match xs with
  | [] => h = None
  | x :: xs => h = Some x /\ exists n, nx !! x = Some n /\ chain nx n xs
  end.

Definition held (ls : list buffer_lease_t) : list addr := map data_ ls.

(** Every live block is in exactly one place: one free list, or one lease. *)
Record owned (w : world) (ls : list buffer_lease_t) (fs : list (list addr)) : Prop := {
  ow_chain : Forall2 (chain (nexts w)) (free_ (pool w)) fs;
  ow_count : length fs = kClassCount;
  ow_nodup : NoDup (concat fs ++ held ls);
  ow_free : forall i xs a, fs !! i = Some xs -> a ∈ xs -> heap w !! a = Some (nth i kClassSize 0);
  ow_held : forall l, l ∈ ls -> heap w !! data_ l = Some (cap_ l) /\
              (if pool_ l then exists i, nth_error kClassSize i = Some (cap_ l) else True);
  ow_live : forall a n, heap w !! a = Some n -> a ∈ concat fs ++ held ls
}.

Lemma chain_insert nx h xs a n : a ∉ xs -> chain nx h xs -> chain (<[a := n]> nx) h xs.
Proof.
  revert h. induction xs as [|x xs IH]; intros h Ha Hc; [done|].
  destruct Hc as [-> (n' & Hn & Hc)]. apply not_elem_of_cons in Ha as [Hne Ha].
  split; [done|]. exists n'. by rewrite lookup_insert_ne by done; eauto.
Qed.

Lemma concat_insert {A} (fs : list (list A)) i f g :
  fs !! i = Some f -> f ++ concat (<[i := g]> fs) ≡ₚ g ++ concat fs.
Proof.
  revert i. induction fs as [|x fs IH]; intros [|i] H; try done; simpl in *.
  - injection H as ->. by rewrite Permutation_app_swap_app.
  - rewrite (Permutation_app_swap_app f), (IH _ H). by rewrite Permutation_app_swap_app.
Qed.

Lemma class_of_spec n cls :
  class_of n = Some cls -> (cls < kClassCount)%nat /\ n <= nth cls kClassSize 0.
Proof.
  unfold class_of, kClassSize, kClassCount. simpl. intros.
  bool_destruct; simplify_eq; zify_bool; simpl; lia.
Qed.

Lemma class_of_size i s : nth_error kClassSize i = Some s -> class_of s = Some i /\ nth i kClassSize 0 = s.
Proof. do 5 (destruct i as [|i]; [intros; simplify_eq/=; done|]). done. Qed.

Lemma init_owned : owned init [] (replicate 4 []).
Proof.
  split; simpl.
  - by repeat constructor.
  - done.
  - constructor.
  - intros i xs a Hi Ha. do 5 (destruct i as [|i]; [simplify_eq/=; set_solver|]). done.
  - set_solver.
  - intros a n H. by rewrite lookup_empty in H.
Qed.

Lemma owned_counters p nx h ls fs a b c d :
  owned (World p nx h) ls fs -> free_ p = d -> owned (World (mk_pool d a b c) nx h) ls fs.
Proof. intros [] <-. by split. Qed.

Lemma owned_fresh w ls fs a :
  owned w ls fs -> heap w !! a = None -> a ∉ concat fs ++ held ls.
Proof.
  intros H Ha [Hin|Hin]%elem_of_app.
  - apply list_elem_of_In, in_concat in Hin as (xs & Hxs & Hin).
    apply list_elem_of_In in Hxs, Hin. apply list_elem_of_lookup in Hxs as [i Hi].
    pose proof (ow_free _ _ _ H _ _ _ Hi Hin). congruence.
  - apply list_elem_of_fmap in Hin as (l & -> & Hl).
    destruct (ow_held _ _ _ H _ Hl) as [E _]. congruence.
Qed.

Lemma owned_malloc w ls fs a l :
  owned w ls fs -> heap w !! a = None -> data_ l = a ->
  (if pool_ l then exists i, nth_error kClassSize i = Some (cap_ l) else True) ->
  owned (World (pool w) (nexts w) (<[a := cap_ l]> (heap w))) (l :: ls) fs.
Proof.
  intros H Ha Hl Hc. pose proof (owned_fresh _ _ _ _ H Ha) as Hf. destruct H. split; simpl; try done.
  - rewrite Hl, <- Permutation_middle. apply NoDup_cons. split; done.
  - intros i xs b Hi Hb. rewrite lookup_insert_ne; [exact (ow_free0 _ _ _ Hi Hb)|]. intros <-.
    pose proof (ow_free0 _ _ _ Hi Hb). congruence.
  - intros l' [->|Hin]%elem_of_cons.
    + by rewrite Hl, lookup_insert_eq.
    + destruct (ow_held0 _ Hin) as [E ?]. rewrite lookup_insert_ne by congruence. done.
  - intros b n. rewrite Hl. destruct (decide (a = b)) as [<-|Hne]; [set_solver|].
    rewrite lookup_insert_ne by done. intros Hb. specialize (ow_live0 _ _ Hb). set_solver.
Qed.

Lemma owned_head w ls fs cls :
  owned w ls fs -> (cls < kClassCount)%nat ->
  exists h xs, free_ (pool w) !! cls = Some h /\ nth cls (free_ (pool w)) None = h /\
    fs !! cls = Some xs /\ chain (nexts w) h xs.
Proof.
  intros H Hc. destruct H.
  assert (is_Some (fs !! cls)) as [xs Hxs] by (apply lookup_lt_is_Some; lia).
  destruct (Forall2_lookup_r _ _ _ _ _ ow_chain0 Hxs) as (h & Hh & Hch).
  exists h, xs. repeat split; try done. by rewrite nth_lookup, Hh.
Qed.

Lemma owned_insert_other fs cls xs ys i zs :
  (<[cls := ys]> fs : list (list addr)) !! i = Some zs -> fs !! cls = Some xs ->
  (forall a, a ∈ ys -> a ∈ xs) -> exists zs', fs !! i = Some zs' /\ forall a, a ∈ zs -> a ∈ zs'.
Proof.
  intros Hi Hx Hsub. destruct (decide (i = cls)) as [->|Hne].
  - rewrite list_lookup_insert_eq in Hi by (by eapply lookup_lt_Some). simplify_eq. eauto.
  - rewrite list_lookup_insert_ne in Hi by done. eauto.
Qed.

(** Taking the head of a free list. *)
Lemma owned_hit w ls fs cls node xs p :
  owned w ls fs -> fs !! cls = Some (node :: xs) ->
  free_ p = <[cls := default None (nexts w !! node)]> (free_ (pool w)) ->
  owned (World p (nexts w) (heap w)) (Lease true node (nth cls kClassSize 0) :: ls) (<[cls := xs]> fs).
Proof.
  intros H Hfs Hp. pose proof (lookup_lt_Some _ _ _ Hfs) as Hlt.
  assert (concat (<[cls := xs]> fs) ++ node :: held ls ≡ₚ concat fs ++ held ls) as Hperm.
  { rewrite <- Permutation_middle, app_comm_cons. f_equiv.
    pose proof (concat_insert fs cls _ xs Hfs) as E. simpl in E.
    apply (Permutation_app_inv_l xs). rewrite <- E. by rewrite Permutation_middle. }
  assert (heap w !! node = Some (nth cls kClassSize 0)) as Hn.
  { destruct H; eapply ow_free0; [done|set_solver]. }
  destruct H. split; simpl.
  - rewrite Hp. apply Forall2_insert; [exact ow_chain0|].
    destruct (Forall2_lookup_r _ _ _ _ _ ow_chain0 Hfs) as (h & _ & _ & n & -> & Hch). exact Hch.
  - by rewrite length_insert.
  - by rewrite Hperm.
  - intros i zs a Hi Ha. edestruct owned_insert_other as (zs' & Hz & Hsub); [done..|set_solver|].
    exact (ow_free0 _ _ _ Hz (Hsub _ Ha)).
  - intros l [->|Hin]%elem_of_cons; [|by eauto]. split; [done|]. exists cls.
    apply (nth_error_nth' kClassSize). unfold kClassCount in *. simpl. lia.
  - intros a n Ha. rewrite Hperm. eauto.
Qed.

Lemma owned_acquire w ls fs n m w' l :
  owned w ls fs -> (forall a, m = Some a -> heap w !! a = None) -> acquire w n m = (w', l) ->
  exists fs', owned w' (match l with Some l => l :: ls | None => ls end) fs'.
Proof.
  intros H Hm. destruct w as [p nx h]. unfold acquire. simpl in *.
  destruct (class_of n) as [cls|] eqn:Hc.
  - destruct (class_of_spec _ _ Hc) as [Hlt Hn].
    destruct (owned_head _ _ _ _ H Hlt) as (hd & xs & Hh & Hnth & Hfs & Hch). simpl in *.
    rewrite Hnth. destruct hd as [node|].
    + intros [= <- <-]. destruct xs as [|x xs]; [done|]. destruct Hch as [[= ->] Hch].
      eexists. exact (owned_hit (World p nx h) ls fs cls x xs
        (mk_pool _ (allocations_ p) (hits_ p + 1) (oversized_ p)) H Hfs eq_refl).
    + intros [= <- <-]. exists fs.
      apply (owned_counters _ _ _ _ _ (allocations_ p + 1) (hits_ p) (oversized_ p) (free_ p)) in H; [|done].
      destruct m as [a|]; [|exact H].
      apply (owned_malloc _ _ _ a (Lease true a (nth cls kClassSize 0)) H); [auto|done|].
      exists cls. apply nth_error_nth'. unfold kClassCount in *. simpl. lia.
  - intros [= <- <-]. exists fs.
    apply (owned_counters _ _ _ _ _ (allocations_ p) (hits_ p) (oversized_ p + 1) (free_ p)) in H; [|done].
    destruct m as [a|]; [|exact H]. apply (owned_malloc _ _ _ a (Lease false a n) H); [auto|done|exact I].
Qed.

(** Returning a block to its free list. *)
Lemma owned_recycle w ls1 l ls2 fs cls xs p :
  owned w (ls1 ++ l :: ls2) fs -> fs !! cls = Some xs -> cap_ l = nth cls kClassSize 0 ->
  free_ p = <[cls := Some (data_ l)]> (free_ (pool w)) ->
  owned (World p (<[data_ l := nth cls (free_ (pool w)) None]> (nexts w)) (heap w))
    (ls1 ++ ls2) (<[cls := data_ l :: xs]> fs).
Proof.
  intros H Hfs Hcap Hp. pose proof (lookup_lt_Some _ _ _ Hfs) as Hlt.
  assert (concat (<[cls := data_ l :: xs]> fs) ++ held (ls1 ++ ls2)
          ≡ₚ concat fs ++ held (ls1 ++ l :: ls2)) as Hperm.
  { unfold held. rewrite !map_app. cbn [map].
    rewrite <- (Permutation_middle (map data_ ls1)), <- Permutation_middle, app_comm_cons. f_equiv.
    apply (Permutation_app_inv_l xs). rewrite (concat_insert fs cls _ (data_ l :: xs) Hfs).
    by rewrite <- (Permutation_middle xs). }
  assert (data_ l ∉ concat fs) as Hout.
  { destruct H. intros Hin. apply NoDup_app in ow_nodup0 as (_ & Hd & _). apply (Hd _ Hin).
    unfold held. rewrite map_app. set_solver. }
  assert (heap w !! data_ l = Some (cap_ l)) as Hlive.
  { destruct H. apply ow_held0. set_solver. }
  assert (forall i zs, fs !! i = Some zs -> data_ l ∉ zs) as Hnot.
  { intros i zs Hi Hin. apply Hout, list_elem_of_In, in_concat. exists zs.
    split; apply list_elem_of_In; [by eapply list_elem_of_lookup_2|done]. }
  destruct H. split; simpl.
  - rewrite Hp. apply Forall2_insert.
    + apply Forall2_same_length_lookup in ow_chain0 as [Hlen Hch].
      apply Forall2_same_length_lookup. split; [done|]. intros i h zs Hh Hz.
      apply chain_insert; eauto.
    + split; [done|]. eexists. rewrite lookup_insert_eq. split; [done|].
      destruct (Forall2_lookup_r _ _ _ _ _ ow_chain0 Hfs) as (h & Hh & Hch).
      rewrite nth_lookup, Hh. apply chain_insert; eauto.
  - by rewrite length_insert.
  - by rewrite Hperm.
  - intros i zs a Hi Ha. destruct (decide (i = cls)) as [->|Hne].
    + rewrite list_lookup_insert_eq in Hi by done. simplify_eq. apply elem_of_cons in Ha as [->|Ha].
      * by rewrite Hlive, Hcap.
      * exact (ow_free0 _ _ _ Hfs Ha).
    + rewrite list_lookup_insert_ne in Hi by done. exact (ow_free0 _ _ _ Hi Ha).
  - intros l' Hl'. apply ow_held0. set_solver.
  - intros a n Ha. rewrite Hperm. eauto.
Qed.

(** Freeing a block that bypasses the pool. *)
Lemma owned_free w ls1 l ls2 fs :
  owned w (ls1 ++ l :: ls2) fs ->
  owned (World (pool w) (nexts w) (delete (data_ l) (heap w))) (ls1 ++ ls2) fs.
Proof.
  intros H.
  assert (concat fs ++ held (ls1 ++ l :: ls2) ≡ₚ data_ l :: concat fs ++ held (ls1 ++ ls2)) as Hperm.
  { unfold held. rewrite !map_app. cbn [map]. by rewrite <- !Permutation_middle. }
  destruct H. rewrite Hperm in ow_nodup0. apply NoDup_cons in ow_nodup0 as [Hnot Hnd].
  assert (forall i xs a, fs !! i = Some xs -> a ∈ xs -> a ∈ concat fs) as Hin.
  { intros i xs a Hi Ha. apply list_elem_of_In, in_concat. exists xs.
    split; apply list_elem_of_In; [by eapply list_elem_of_lookup_2|done]. }
  split; simpl; try done.
  - intros i xs a Hi Ha. rewrite lookup_delete_ne; [exact (ow_free0 _ _ _ Hi Ha)|].
    intros <-. apply Hnot, elem_of_app. eauto.
  - intros l' Hl'. destruct (ow_held0 l') as [E ?]; [set_solver|].
    rewrite lookup_delete_ne; [done|]. intros Heq. apply Hnot, elem_of_app. right.
    rewrite Heq. unfold held. by apply list_elem_of_fmap_2.
  - intros a n Ha. apply lookup_delete_Some in Ha as [Hne Ha]. specialize (ow_live0 _ _ Ha).
    rewrite Hperm in ow_live0. set_solver.
Qed.

(** Releasing a held lease never frees a dead block. *)
Lemma owned_release w ls1 l ls2 fs :
  owned w (ls1 ++ l :: ls2) fs ->
  exists w' fs', release w l = Some w' /\ owned w' (ls1 ++ ls2) fs'.
Proof.
  intros H. assert (l ∈ ls1 ++ l :: ls2) as Hin by set_solver.
  destruct (ow_held _ _ _ H _ Hin) as [Hlive Hcls]. unfold release.
  destruct (pool_ l).
  - destruct Hcls as [i Hi]. destruct (class_of_size _ _ Hi) as [Hc Hn].
    unfold recycle. rewrite Hc, Hn, Z.eqb_refl. simpl.
    destruct (class_of_spec _ _ Hc) as [Hlt _].
    destruct (owned_head _ _ _ _ H Hlt) as (h & xs & _ & _ & Hfs & _).
    eexists _, _. split; [done|].
    by eapply (owned_recycle w ls1 l ls2 fs i xs (mk_pool _ (allocations_ (pool w)) (hits_ (pool w)) (oversized_ (pool w)))).
  - unfold free. rewrite Hlive. eexists _, _. split; [done|]. by apply owned_free.
Qed.

Definition reachable (s : world * list buffer_lease_t) : Prop := rtc step (init, []) s.

Lemma reachable_owned w ls : reachable (w, ls) -> exists fs, owned w ls fs.
Proof.
  unfold reachable. intros H. remember (init, []) as s0 eqn:E0. remember (w, ls) as s eqn:Es.
  assert (exists fs, owned s0.1 s0.2 fs) as H0 by (subst; eauto using init_owned).
  clear E0. revert w ls Es. induction H as [s|s1 s2 s3 Hst _ IH]; intros w ls ->; [done|].
  apply IH; [|done]. destruct H0 as [fs H0]. destruct Hst as [w0 l0 n m w' l Hm E|w0 ls1 l ls2 w' E]; simpl in *.
  - by eapply owned_acquire.
  - destruct (owned_release _ _ _ _ _ H0) as (w2 & fs' & E2 & H2). rewrite E in E2. simplify_eq. eauto.
Qed.

(** Walking a free list frees exactly its blocks. *)
Lemma free_list_spec fuel p nx h hd xs :
  chain nx hd xs -> NoDup xs -> (forall a, a ∈ xs -> is_Some (h !! a)) -> (length xs <= fuel)%nat ->
  exists h', free_list fuel (World p nx h) hd = Some (World p nx h') /\
    forall a, h' !! a = if decide (a ∈ xs) then None else h !! a.
Proof.
  revert h hd xs. induction fuel as [|fuel IH]; intros h hd [|x xs] Hc Hnd Hl Hf;
    cbn [chain length] in *; try lia.
  1, 2: subst; exists h; split; [done|]; intros a; by rewrite decide_False by set_solver.
  cbn [free_list]. destruct Hc as [-> (n & Hn & Hc)]. apply NoDup_cons in Hnd as [Hx Hnd].
  unfold free. simpl. destruct (Hl x) as [v Hv]; [set_solver|]. rewrite Hv, Hn. simpl.
  destruct (IH (delete x h) n xs Hc Hnd) as (h' & -> & Hh'); [|lia|].
  { intros a Ha. rewrite lookup_delete_ne by set_solver. apply Hl. set_solver. }
  exists h'. split; [done|]. intros a. rewrite Hh'.
  destruct (decide (a = x)) as [->|Hne].
  - rewrite lookup_delete_eq. repeat case_decide; set_solver.
  - rewrite lookup_delete_ne by done. repeat case_decide; set_solver.
Qed.

Lemma destroy_lists_spec fuel p nx h hs fs :
  Forall2 (chain nx) hs fs -> NoDup (concat fs) -> (forall a, a ∈ concat fs -> is_Some (h !! a)) ->
  (length (concat fs) <= fuel)%nat ->
  exists h', destroy_lists fuel (World p nx h) hs = Some (World p nx h') /\
    forall a, h' !! a = if decide (a ∈ concat fs) then None else h !! a.
Proof.
  intros Hc. revert h. induction Hc as [|hd xs hs fs Hc _ IH]; intros h Hnd Hl Hf;
    cbn [concat destroy_lists] in *.
  { exists h. split; [done|]. intros a. by rewrite decide_False by set_solver. }
  rewrite length_app in Hf. apply NoDup_app in Hnd as (Hnd1 & Hdisj & Hnd2).
  destruct (free_list_spec fuel p nx h hd xs) as (h1 & -> & H1); [done|done|set_solver|lia|].
  destruct (IH h1) as (h2 & -> & H2); [done| |lia|].
  { intros a Ha. rewrite H1. case_decide; [set_solver|]. apply Hl. set_solver. }
  exists h2. split; [done|]. intros a. rewrite H2, H1. repeat case_decide; set_solver.
Qed.

Lemma owned_blocks w ls fs a :
  owned w ls fs -> a ∈ concat fs ++ held ls -> is_Some (heap w !! a).
Proof.
  intros H Ha. destruct (heap w !! a) eqn:E; [done|]. by destruct (owned_fresh _ _ _ _ H E).
Qed.

(** The fuel of the destructor's walk, one step per live block, is enough. *)
Lemma owned_fuel w ls fs : owned w ls fs -> (length (concat fs) <= base.size (heap w))%nat.
Proof.
  intros H. pose proof (ow_nodup _ _ _ H) as Hnd. apply NoDup_app in Hnd as (Hnd & _ & _).
  rewrite <- (size_list_to_set (C := gset addr) _ Hnd), <- size_dom. apply subseteq_size.
  intros a. rewrite elem_of_list_to_set, elem_of_dom. intros Ha. eapply owned_blocks; [done|set_solver].
Qed.

Lemma owned_destroy w ls fs :
  owned w ls fs -> exists w', destroy w = Some w' /\ forall a, is_Some (heap w' !! a) <-> a ∈ held ls.
Proof.
  intros H. pose proof (owned_fuel _ _ _ H) as Hf. pose proof (fun a => owned_blocks _ _ _ a H) as Hb.
  pose proof (ow_nodup _ _ _ H) as Hnd. apply NoDup_app in Hnd as (Hnd & Hdisj & _).
  destruct w as [p nx h]. unfold destroy. simpl in *.
  destruct (destroy_lists_spec (base.size h) p nx h (free_ p) fs) as (h' & -> & Hh');
    [apply H|done| |done|].
  { intros a Ha. apply Hb. set_solver. }
  eexists. split; [done|]. intros a. simpl. rewrite Hh'. case_decide as Hd.
  - split; [intros [? ?]; done|]. intros Ha. by destruct (Hdisj _ Hd).
  - split.
    + intros [n Hn]. pose proof (ow_live _ _ _ H _ _ Hn). set_solver.
    + intros Ha. apply Hb. set_solver.
Qed.

Lemma acquire_capacity w n m w' l : acquire w n m = (w', Some l) -> n <= cap_ l.
Proof.
  unfold acquire. destruct (class_of n) as [cls|] eqn:Hc.
  - destruct (class_of_spec _ _ Hc) as [_ Hn]. destruct (nth cls (free_ (pool w)) None); [|destruct m];
      intros; simplify_eq/=; done.
  - destruct m; intros; simplify_eq/=; lia.
Qed.

(** over any sequence of acquisitions and releases, with [malloc]
    free to fail: the leases held never alias one another or a pooled block,
    each covers a live block of its capacity, releasing any of them never
    frees a dead block, and destroying the pool frees every block that is
    not leased and no other. *)
Theorem pool_ownership w ls :
  reachable (w, ls) ->
  NoDup (held ls) /\
  (forall l, l ∈ ls -> heap w !! data_ l = Some (cap_ l) /\ is_Some (release w l)) /\
  (forall n m w' l, (forall a, m = Some a -> heap w !! a = None) ->
     acquire w n m = (w', Some l) -> n <= cap_ l /\ data_ l ∉ held ls) /\
  (exists w', destroy w = Some w' /\ forall a, is_Some (heap w' !! a) <-> a ∈ held ls).
Proof.
  intros Hr. destruct (reachable_owned _ _ Hr) as [fs H].
  pose proof (ow_nodup _ _ _ H) as Hnd. apply NoDup_app in Hnd as (_ & _ & Hnd).
  split; [done|]. split; [|split; [|by eapply owned_destroy]].
  - intros l Hl. split; [apply H, Hl|].
    apply list_elem_of_split in Hl as (ls1 & ls2 & ->).
    destruct (owned_release _ _ _ _ _ H) as (w' & _ & E & _). by rewrite E.
  - intros n m w' l Hm E. split; [by eapply acquire_capacity|].
    destruct (owned_acquire _ _ _ _ _ _ _ H Hm E) as [fs' H'].
    pose proof (ow_nodup _ _ _ H') as Hnd'. apply NoDup_app in Hnd' as (_ & _ & Hnd').
    by apply NoDup_cons in Hnd' as [? _].
Qed.

Lemma pool_ownership_witness :
  reachable ((acquire init 100 (Some 1%positive)).1, [Lease true 1%positive (4 <<< 10)]) /\
  NoDup (held [Lease true 1%positive (4 <<< 10)]).
Proof.
  assert (reachable ((acquire init 100 (Some 1%positive)).1, [Lease true 1%positive (4 <<< 10)])) as H.
  { apply rtc_once.
    exact (step_acquire init [] 100 (Some 1%positive) _ (Some (Lease true 1%positive (4 <<< 10)))
             (fun a _ => lookup_empty a) eq_refl). }
  split; [exact H|]. exact (proj1 (pool_ownership _ _ H)).
Defined.
End Pool.

(** ** Header buffer *)

Module Head.

Record head_buffer_t := mk_head { lease_ : option bytes; r_ : Z; w_ : Z; parsing_ : bool }.

Definition empty : head_buffer_t := mk_head None 0 0 false.
Definition reset (lease : option bytes) (_ : head_buffer_t) : head_buffer_t := mk_head lease 0 0 false.
Definition release (_ : head_buffer_t) : head_buffer_t := empty.

Definition block (h : head_buffer_t) : bytes := default [] (lease_ h).
Definition capacity (h : head_buffer_t) : Z := size (block h).
Definition readable (h : head_buffer_t) : Z := u32 (w_ h - r_ h).

(** The size of [writable()]; the span starts at [w_]. *)
Definition writable (h : head_buffer_t) : Z :=
  match lease_ h with Some d => size d - w_ h | None => 0 end.

Definition commit (n : Z) (h : head_buffer_t) : head_buffer_t :=
  mk_head (lease_ h) (r_ h) (u32 (w_ h + n)) (parsing_ h).
Definition consume (n : Z) (h : head_buffer_t) : head_buffer_t :=
  mk_head (lease_ h) (u32 (r_ h + n)) (w_ h) (parsing_ h).
Definition begin_message (h : head_buffer_t) : head_buffer_t := mk_head (lease_ h) (r_ h) (w_ h) true.
Definition end_message (h : head_buffer_t) : head_buffer_t := mk_head (lease_ h) (r_ h) (w_ h) false.
Definition rewind_to (pos : Z) (h : head_buffer_t) : head_buffer_t :=
  mk_head (lease_ h) pos pos (parsing_ h).
Definition view (h : head_buffer_t) (off len : Z) : bytes := view_at (block h) off len.

(** [compact()]; [None] is the failed assertion. *)
Definition compact (h : head_buffer_t) : option (head_buffer_t * bool) :=
  if parsing_ h then None
  else if r_ h =? 0 then Some (h, false)
  else
    let n := u32 (w_ h - r_ h) in
    match (if 0 <? n then write_at (block h) 0 (view_at (block h) (r_ h) n) else Some (block h)) with
    | Some d => Some (mk_head (if 0 <? n then Some d else lease_ h) 0 n (parsing_ h), true)
    | None => None
    end.

(** A read into [writable()] followed by [commit]: how the connections fill it. *)
Definition fill (data : bytes) (h : head_buffer_t) : option head_buffer_t :=
  match write_at (block h) (w_ h) data with
  | Some d => Some (commit (size data) (mk_head (Some d) (r_ h) (w_ h) (parsing_ h)))
  | None => None
  end.

Definition ok (h : head_buffer_t) : Prop := 0 <= r_ h <= w_ h /\ w_ h <= capacity h /\ capacity h < 2 ^ 32.

Definition unread (h : head_buffer_t) : bytes := view h (r_ h) (w_ h - r_ h).

Lemma fill_spec data h h' :
  ok h -> fill data h = Some h' ->
  ok h' /\ w_ h' = w_ h + size data /\ r_ h' = r_ h /\ parsing_ h' = parsing_ h /\
  (forall o n, 0 <= o -> 0 <= n -> o + n <= w_ h -> view h' o n = view h o n) /\
  view h' (w_ h) (size data) = data.
Proof.
  unfold ok, capacity, fill. intros (Hr & Hw & Hc) H.
  destruct (write_at (block h) (w_ h) data) as [d|] eqn:E; [|done]. injection H as <-. simpl.
  assert (w_ h + size data <= size (block h)) as Hfit by (unfold write_at in E; bool_destruct; [zify_bool; lia|done]).
  destruct (write_at_some (block h) (w_ h) data) as (d2 & E2 & Hs); [lia|done|].
  rewrite E in E2. injection E2 as <-. unfold block at 1 2. simpl. rewrite Hs.
  rewrite u32_small by (unfold size in *; lia). unfold size at 1 in Hfit.
  repeat split; try (unfold size in *; lia).
  - intros o n Ho Hn Hb. by apply (write_at_below _ _ _ _ o n E).
  - by apply (write_at_view _ _ _ _ E).
Qed.

(** One operation of a connection or of the parser on the buffer. *)
Inductive op := Fill (data : bytes) | Consume (n : Z) | Rewind (pos : Z) | Compact | Begin.

Definition apply (o : op) (h : head_buffer_t) : option head_buffer_t :=
  match o with
  | Fill data => fill data h
  | Consume n => if (0 <=? n) && (n <=? readable h) then Some (consume n h) else None
  | Rewind pos => if pos <=? capacity h then Some (rewind_to pos h) else None
  | Compact => match compact h with Some (h, _) => Some h | None => None end
  | Begin => Some (begin_message h)
  end.

Fixpoint run (os : list op) (h : head_buffer_t) : option head_buffer_t :=
  match os with
  | [] => Some h
  | o :: os => match apply o h with Some h => run os h | None => None end
  end.

Definition rewinds_above (mark : Z) (o : op) : Prop :=
  match o with Rewind pos => mark <= pos | _ => True end.

Lemma apply_stable mark o h h' :
  ok h -> parsing_ h = true -> mark <= w_ h -> 0 <= mark -> rewinds_above mark o ->
  apply o h = Some h' ->
  ok h' /\ parsing_ h' = true /\ mark <= w_ h' /\
  forall off len, 0 <= off -> 0 <= len -> off + len <= mark -> view h' off len = view h off len.
Proof.
  intros Hok Hp Hm H0 Hrw. pose proof Hok as (Hr & Hw & Hc). destruct o as [data|n|pos| |]; simpl.
  - intros H. destruct (fill_spec _ _ _ Hok H) as (? & Hw' & _ & ? & Hv & _).
    pose proof (Nat2Z.is_nonneg (length data)). unfold size in Hw'.
    repeat split; try done; try apply H1; try lia; try congruence.
    intros. apply Hv; lia.
  - unfold readable. rewrite u32_small by lia.
    intros. bool_destruct; simplify_eq. zify_bool. unfold ok, capacity, block in *. simpl in *.
    rewrite u32_small by lia. repeat split; try done; lia.
  - intros. bool_destruct; simplify_eq. zify_bool. unfold ok, capacity, block in *. simpl in *.
    repeat split; try done; lia.
  - unfold compact. by rewrite Hp.
  - intros [= <-]. done.
Qed.

(** while a message is being parsed, no sequence of reads, consumes and
    rewinds at or above [mark] disturbs a header view below [mark]: the
    recorded (offset, length) pairs keep denoting the same bytes, however
    long the body that streams through the tail of the buffer. *)
Theorem head_views_stable mark os h h' off len :
  ok h -> parsing_ h = true -> 0 <= mark <= w_ h -> Forall (rewinds_above mark) os ->
  0 <= off -> 0 <= len -> off + len <= mark ->
  run os h = Some h' -> view h' off len = view h off len.
Proof.
  intros Hok Hp Hm Hos Ho Hl Hb. revert h Hok Hp Hm.
  induction Hos as [|o os Hrw _ IH]; intros h Hok Hp Hm; simpl; [by intros [= ->]|].
  destruct (apply o h) as [h1|] eqn:E; [|done]. intros Hrun.
  destruct (apply_stable mark o h h1) as (Hok1 & Hp1 & Hm1 & Hv); try done; try lia.
  rewrite (IH h1) by (done || lia). apply Hv; done.
Qed.

Definition sample : head_buffer_t := mk_head (Some (str "GET / HTTP/1.1....")) 0 14 true.

Definition sample_ops : list op := [Fill (str "body"); Consume 18; Rewind 14; Fill (str "more")].

Lemma head_views_stable_witness : view (default empty (run sample_ops sample)) 0 3 = str "GET".
Proof.
  assert (run sample_ops sample = Some (default empty (run sample_ops sample))) as E by reflexivity.
  rewrite (head_views_stable 14 sample_ops sample _ 0 3); [reflexivity|..|exact E];
    try (vm_compute; repeat split; congruence).
  repeat constructor; simpl; lia.
Defined.

Lemma compact_spec h :
  ok h ->
  match compact h with
  | Some (h', _) => parsing_ h = false /\ parsing_ h' = false /\ ok h' /\ r_ h' = 0 /\ unread h' = unread h /\ capacity h' = capacity h
  | None => parsing_ h = true
  end.
Proof.
  intros Hok. pose proof Hok as (Hr & Hw & Hc). unfold compact.
  destruct (parsing_ h) eqn:Hp; [done|]. destruct (Z.eqb_spec (r_ h) 0) as [E|E]; [done|].
  rewrite u32_small by lia. destruct (Z.ltb_spec 0 (w_ h - r_ h)) as [Hn|Hn].
  - assert (size (view_at (block h) (r_ h) (w_ h - r_ h)) = w_ h - r_ h) as Hs
      by (apply size_view_at; unfold capacity in *; lia).
    destruct (write_at_some (block h) 0 (view_at (block h) (r_ h) (w_ h - r_ h))) as (d & Ew & Hd);
      [lia|unfold capacity in *; lia|]. rewrite Ew. apply write_at_view in Ew. rewrite Hs in Ew.
    unfold ok, capacity, unread, view, block in *. simpl. rewrite Hd, Z.sub_0_r, Ew.
    repeat split; lia.
  - replace (w_ h - r_ h) with 0 by lia. unfold ok, capacity, unread, view, block in *. simpl.
    replace (w_ h - r_ h) with 0 by lia. repeat split; lia.
Qed.

(** compaction between messages keeps the unread bytes and moves them
    to the front; during a message it does not happen. *)
Theorem compact_keeps_unread h :
  ok h ->
  match compact h with
  | Some (h', _) => parsing_ h = false /\ parsing_ h' = false /\ ok h' /\ r_ h' = 0 /\ unread h' = unread h /\ capacity h' = capacity h
  | None => parsing_ h = true
  end.
Proof. apply compact_spec. Qed.

Lemma compact_keeps_unread_witness :
  unread (match compact (consume 4 (end_message sample)) with Some (h, _) => h | None => empty end)
  = str "/ HTTP/1.1".
Proof.
  assert (ok (consume 4 (end_message sample))) as Hok by (vm_compute; repeat split; congruence).
  pose proof (compact_keeps_unread _ Hok) as H.
  destruct (compact (consume 4 (end_message sample))) as [[h b]|]; [|discriminate H].
  destruct H as (_ & _ & _ & _ & H & _). rewrite H. reflexivity.
Defined.
End Head.

(** ** Body aggregation buffer *)

Module Body.
Section Body.

(** What [pool.acquire(n)] hands over: a block, or nothing when the
    allocator fails. *)
Context (acquire : Z -> option bytes).

Record body_buffer_t := mk_body { lease_ : option bytes; size_ : Z; cap_ : Z }.

Definition released : body_buffer_t := mk_body None 0 0.
Definition release (_ : body_buffer_t) : body_buffer_t := released.
Definition clear (b : body_buffer_t) : body_buffer_t := mk_body (lease_ b) 0 (cap_ b).
Definition block (b : body_buffer_t) : bytes := default [] (lease_ b).
Definition view (b : body_buffer_t) : bytes :=
  if size_ b =? 0 then [] else view_at (block b) 0 (size_ b).

Definition reserve_window (n : Z) (b : body_buffer_t) : body_buffer_t * expected unit :=
  let b := release b in
  if n =? 0 then (b, Ok tt)
  else match acquire n with
       | None => (b, Unexpected (system_error ENOMEM))
       | Some d => (mk_body (Some d) 0 n, Ok tt)
       end.

Definition reserve_exact (n : Z) (b : body_buffer_t) : body_buffer_t * expected unit :=
  if n =? 0 then (release b, Ok tt)
  else if 0xffffffff <? n then (release b, Unexpected (http_error BodyTooLarge))
  else match acquire (u32 n) with
       | None => (release b, Unexpected (system_error ENOMEM))
       | Some d => (mk_body (Some d) 0 (u32 n), Ok tt)
       end.

(** Results of the operations that copy are [None] when a copy leaves its block. *)
Definition grow (n : Z) (b : body_buffer_t) : option (body_buffer_t * expected unit) :=
  if n <=? cap_ b then Some (b, Ok tt)
  else match acquire n with
       | None => Some (b, Unexpected (system_error ENOMEM))
       | Some d =>
           match (if 0 <? size_ b then write_at d 0 (view_at (block b) 0 (size_ b)) else Some d) with
           | Some d => Some (mk_body (Some d) (size_ b) (size d), Ok tt)
           | None => None
           end
       end.

Definition append (data : bytes) (b : body_buffer_t) : option (body_buffer_t * expected unit) :=
  if size data =? 0 then Some (b, Ok tt)
  else if cap_ b <? u32 (size_ b + size data) then Some (b, Unexpected (http_error OutputOverflow))
  else match write_at (block b) (size_ b) data with
       | Some d => Some (mk_body (Some d) (u32 (size_ b + size data)) (cap_ b), Ok tt)
       | None => None
       end.

Definition ok (b : body_buffer_t) : Prop :=
  0 <= size_ b <= cap_ b /\ cap_ b <= size (block b) /\ cap_ b < 2 ^ 32.

Hypothesis acquire_enough : forall n d, acquire n = Some d -> n <= size d < 2 ^ 32.

Lemma view_block b : ok b -> view b = view_at (block b) 0 (size_ b).
Proof. intros Hok. unfold view. by destruct (Z.eqb_spec (size_ b) 0) as [->|]. Qed.

Lemma size_view b : ok b -> size (view b) = size_ b.
Proof. intros Hok. rewrite view_block by done. destruct Hok as (? & ? & ?). apply size_view_at; lia. Qed.

Lemma released_ok : ok released.
Proof. by vm_compute. Qed.

Lemma append_spec data b :
  ok b -> size_ b + size data < 2 ^ 32 ->
  exists b' r, append data b = Some (b', r) /\ ok b' /\ cap_ b' = cap_ b /\
    if size_ b + size data <=? cap_ b then r = Ok tt /\ view b' = view b ++ data
    else r = Unexpected (http_error OutputOverflow) /\ b' = b.
Proof.
  intros Hok Hlt. pose proof Hok as (Hs & Hc & Hw). assert (0 <= size data) by (unfold size; lia).
  unfold append. destruct (Z.eqb_spec (size data) 0) as [E|E].
  - destruct data; [|discriminate E]. rewrite E, Z.add_0_r. destruct (Z.leb_spec (size_ b) (cap_ b)); [|lia].
    exists b, (Ok tt). rewrite app_nil_r. done.
  - rewrite u32_small by lia.
    destruct (Z.ltb_spec (cap_ b) (size_ b + size data)) as [Ho|Ho].
    + destruct (Z.leb_spec (size_ b + size data) (cap_ b)); [lia|]. eauto 10.
    + destruct (Z.leb_spec (size_ b + size data) (cap_ b)); [|lia].
      destruct (write_at_some (block b) (size_ b) data) as (d & Ew & Hd); [lia..|]. rewrite Ew.
      eexists _, _. split; [done|]. apply write_at_append in Ew; [|lia].
      assert (ok (mk_body (Some d) (size_ b + size data) (cap_ b))) as Hok'
        by (unfold ok, block; simpl; lia).
      rewrite (view_block _ Hok'), (view_block _ Hok). simpl in *. done.
Qed.

(** [append] checks its room in 32 bits; [append_spec] covers the runs
    that do not wrap the sum, which every caller's read size guarantees. *)

(** The aggregation of a list of runs, stopping at the first refusal. *)
Fixpoint append_all (runs : list bytes) (b : body_buffer_t) : option (body_buffer_t * expected unit) :=
  match runs with
  | [] => Some (b, Ok tt)
  | data :: runs =>
      match append data b with
      | Some (b, Ok _) => append_all runs b
      | r => r
      end
  end.

Lemma append_all_spec runs b :
  ok b -> size (view b) + size (concat runs) <= cap_ b ->
  exists b', append_all runs b = Some (b', Ok tt) /\ ok b' /\ view b' = view b ++ concat runs.
Proof.
  revert b. induction runs as [|data runs IH]; intros b Hok Hfit; simpl in *.
  { exists b. by rewrite app_nil_r. }
  pose proof Hok as (Hs & Hc & Hw). rewrite size_view in Hfit by done.
  assert (size (data ++ concat runs) = size data + size (concat runs)) as Ea
    by (unfold size; rewrite length_app; lia).
  assert (0 <= size (concat runs)) by (unfold size; lia).
  destruct (append_spec data b Hok) as (b1 & r & -> & Hok1 & Hcap & Hr); [lia|].
  destruct (Z.leb_spec (size_ b + size data) (cap_ b)); [|lia]. destruct Hr as [-> Hv].
  destruct (IH b1 Hok1) as (b2 & -> & Hok2 & Hv2).
  { rewrite Hv, Hcap. unfold size in *. rewrite length_app. fold (size (view b)).
    pose proof (size_view b Hok) as Hsv. unfold size in Hsv. lia. }
  exists b2. by rewrite Hv2, Hv, app_assoc.
Qed.

(** No append touches a byte at or above the capacity. *)
Lemma append_above data b b' r :
  ok b -> size_ b + size data < 2 ^ 32 -> append data b = Some (b', r) ->
  drop (Z.to_nat (cap_ b)) (block b') = drop (Z.to_nat (cap_ b)) (block b).
Proof.
  intros (Hs & Hc & Hw) Hlt. assert (0 <= size data) by (unfold size; lia). unfold append.
  destruct (Z.eqb_spec (size data) 0); [by intros [= <- <-]|]. rewrite u32_small by lia.
  destruct (Z.ltb_spec (cap_ b) (size_ b + size data)); [by intros [= <- <-]|].
  destruct (write_at (block b) (size_ b) data) as [d|] eqn:Ew; [|done]. intros [= <- <-].
  apply (write_at_above _ _ _ _ _ Ew). lia.
Qed.

(** Any runs at all, as long as no single one wraps the 32-bit sum: the
    aggregation succeeds exactly when they fit, stops at the first run that
    does not with the runs before it stored, and writes below the capacity
    only. *)
Lemma append_all_exact runs b :
  ok b -> Forall (fun r => cap_ b + size r < 2 ^ 32) runs ->
  exists b' r, append_all runs b = Some (b', r) /\ ok b' /\ cap_ b' = cap_ b /\
    drop (Z.to_nat (cap_ b)) (block b') = drop (Z.to_nat (cap_ b)) (block b) /\
    if size (view b) + size (concat runs) <=? cap_ b then r = Ok tt /\ view b' = view b ++ concat runs
    else r = Unexpected (http_error OutputOverflow) /\
         exists n, (n < length runs)%nat /\ view b' = view b ++ concat (take n runs) /\
                   cap_ b < size (view b) + size (concat (take (S n) runs)).
Proof.
  revert b. induction runs as [|data runs IH]; intros b Hok Hall; pose proof Hok as (Hs & Hc & Hw).
  { exists b, (Ok tt). simpl. rewrite size_view by done. change (size []) with 0. rewrite Z.add_0_r.
    destruct (Z.leb_spec (size_ b) (cap_ b)); [by rewrite app_nil_r|lia]. }
  apply Forall_cons in Hall as [Hd Hall]. assert (size_ b + size data < 2 ^ 32) as Hlt by lia.
  destruct (append_spec data b Hok Hlt) as (b1 & r1 & E1 & Hok1 & Hcap & Hr). pose proof (append_above data b b1 r1 Hok Hlt E1) as Hab.
  cbn [append_all concat]. rewrite E1, (size_app data), (size_view b Hok). pose proof (size_nonneg (concat runs)) as Hn.
  destruct (Z.leb_spec (size_ b + size data) (cap_ b)) as [Hfit|Hno].
  - destruct Hr as [-> Hv]. destruct (IH b1 Hok1) as (b2 & r2 & -> & Hok2 & Hcap2 & Hab2 & Hr2); [by rewrite Hcap|].
    rewrite Hcap in *. exists b2, r2. split_and!; [done..|congruence|].
    rewrite Hv, (size_app (view b)), (size_view b Hok), <- Z.add_assoc in Hr2.
    destruct (Z.leb_spec (size_ b + (size data + size (concat runs))) (cap_ b)).
    { destruct Hr2 as [-> ->]. by rewrite app_assoc. }
    destruct Hr2 as (-> & n & Hln & Hv2 & Hc2). split; [done|]. exists (S n). cbn [length take concat] in *.
    split; [lia|]. rewrite Hv2, app_assoc, (size_app data). split; [done|lia].
  - destruct Hr as [-> ->]. exists b, (Unexpected (http_error OutputOverflow)). split_and!; try done.
    destruct (Z.leb_spec (size_ b + (size data + size (concat runs))) (cap_ b)); [lia|].
    split; [done|]. exists 0%nat. cbn [take concat length]. rewrite !app_nil_r. split; [lia|]. split; [done|lia].
Qed.

(** a body reserved for [n] bytes takes any split of at most [n] bytes
    into runs, never writes outside its block, and hands them out as one
    contiguous view; a run past the reservation is refused and changes
    nothing. *)
Theorem body_aggregates n b runs b' :
  0 < n -> reserve_exact n b = (b', Ok tt) ->
  (size (concat runs) <= n ->
   exists b2, append_all runs b' = Some (b2, Ok tt) /\ view b2 = concat runs /\ size_ b2 = size (concat runs)) /\
  (forall data, n < size data < 2 ^ 32 ->
   append data b' = Some (b', Unexpected (http_error OutputOverflow))).
Proof.
  intros Hn. unfold reserve_exact. destruct (Z.eqb_spec n 0); [lia|].
  destruct (Z.ltb_spec 0xffffffff n) as [|Hlt]; [done|]. rewrite u32_small by lia.
  destruct (acquire n) as [d|] eqn:E; [|done]. intros [= <-]. pose proof (acquire_enough _ _ E) as Hd.
  set (b0 := mk_body (Some d) 0 n).
  assert (ok b0) as Hok by (unfold ok, b0, block; simpl; lia). split.
  - intros Hfit. destruct (append_all_spec runs b0 Hok) as (b2 & -> & Hok2 & Hv); [done|].
    exists b2. split; [done|]. split; [done|]. rewrite <- (size_view b2 Hok2), Hv. done.
  - intros data Hl. destruct (append_spec data b0 Hok) as (b1 & r & -> & _ & _ & Hr); [simpl; lia|].
    change (cap_ b0) with n in Hr. change (size_ b0) with 0 in Hr. rewrite Z.add_0_l in Hr.
    destruct (Z.leb_spec (size data) n); [lia|]. by destruct Hr as [-> ->].
Qed.

Lemma grow_spec n b :
  ok b -> 0 <= n < 2 ^ 32 ->
  exists b' r, grow n b = Some (b', r) /\ ok b' /\ view b' = view b /\ (r = Ok tt -> n <= cap_ b') /\
    size_ b' = size_ b /\ (n <= cap_ b \/ is_Some (acquire n) -> r = Ok tt).
Proof.
  intros Hok Hn. pose proof Hok as (Hs & Hc & Hw). unfold grow.
  destruct (Z.leb_spec n (cap_ b)) as [Hle|Hgt]; [by exists b, (Ok tt)|].
  destruct (acquire n) as [d|] eqn:E.
  2:{ exists b, (Unexpected (system_error ENOMEM)). repeat split; try done; try apply Hok.
      intros [|[? ?]]; [lia|done]. }
  pose proof (acquire_enough _ _ E) as Hd.
  assert (size (view_at (block b) 0 (size_ b)) = size_ b) as Hsz by (apply size_view_at; lia).
  destruct (Z.ltb_spec 0 (size_ b)) as [Hpos|Hz].
  - destruct (write_at_some d 0 (view_at (block b) 0 (size_ b))) as (d2 & Ew & Hd2); [lia..|].
    rewrite Ew. eexists _, _. split; [done|]. apply write_at_view in Ew. rewrite Hsz in Ew.
    assert (ok (mk_body (Some d2) (size_ b) (size d2))) as Hok' by (unfold ok, block; simpl; lia).
    rewrite (view_block _ Hok'), (view_block _ Hok). simpl.
    split; [exact Hok'|]. split; [done|]. split; [lia|done].
  - eexists _, _. split; [done|]. unfold ok, view, block. simpl.
    replace (size_ b) with 0 by lia. simpl. repeat split; (done || lia).
Qed.

(** growing keeps the bytes already aggregated, whether it succeeds
    or the allocator fails, and on success leaves room for [n]. *)
Theorem body_grow_keeps n b :
  ok b -> 0 <= n < 2 ^ 32 ->
  exists b' r, grow n b = Some (b', r) /\ ok b' /\ view b' = view b /\ (r = Ok tt -> n <= cap_ b').
Proof.
  intros Hok Hn. destruct (grow_spec n b Hok Hn) as (b' & r & H1 & H2 & H3 & H4 & _). by exists b', r.
Qed.
End Body.

Definition zeros (n : Z) : option bytes := if n <? 1000 then Some (replicate (Z.to_nat n) 0) else None.

Lemma zeros_enough n d : zeros n = Some d -> n <= size d < 2 ^ 32.
Proof.
  unfold zeros, size. destruct (Z.ltb_spec n 1000); [|done]. intros [= <-]. rewrite length_replicate. lia.
Qed.

Lemma body_aggregates_witness :
  exists b2, append_all [str "ab"; []; str "cde"] (reserve_exact zeros 5 released).1 = Some (b2, Ok tt) /\
    view b2 = str "abcde".
Proof.
  destruct (proj1 (body_aggregates zeros zeros_enough 5 released [str "ab"; []; str "cde"]
    (reserve_exact zeros 5 released).1 eq_refl eq_refl)) as (b2 & H1 & H2 & _).
  - vm_compute. congruence.
  - exists b2. split; [exact H1|exact H2].
Defined.

Lemma body_grow_keeps_witness :
  exists b' r, grow zeros 8 (mk_body (Some (str "hi")) 2 2) = Some (b', r) /\ view b' = str "hi".
Proof.
  destruct (body_grow_keeps zeros zeros_enough 8 (mk_body (Some (str "hi")) 2 2)) as (b' & r & H1 & _ & H2 & _).
  - vm_compute. repeat split; congruence.
  - lia.
  - exists b', r. split; [exact H1|]. rewrite H2. reflexivity.
Defined.
End Body.

(** ** Spill buffer *)

Module Spill.

Definition kCapacity : Z := 512.

Record spill_buffer_t := mk_spill { used_ : Z; data_ : bytes }.

Definition init : spill_buffer_t := mk_spill 0 (replicate 512 0).
Definition clear (s : spill_buffer_t) : spill_buffer_t := mk_spill 0 (data_ s).
Definition view (s : spill_buffer_t) (off len : Z) : bytes := view_at (data_ s) off len.

(** [None] when the copy leaves the array. *)
Definition put (d : bytes) (s : spill_buffer_t) : option (spill_buffer_t * expected Z) :=
  if kCapacity <? u32 (used_ s + size d) then Some (s, Unexpected (http_error HeaderTooLarge))
  else match write_at (data_ s) (used_ s) d with
       | Some a => Some (mk_spill (u32 (used_ s + size d)) a, Ok (used_ s))
       | None => None
       end.

Definition extend (d : bytes) (s : spill_buffer_t) : option (spill_buffer_t * expected unit) :=
  if kCapacity <? u32 (used_ s + size d) then Some (s, Unexpected (http_error HeaderTooLarge))
  else match write_at (data_ s) (used_ s) d with
       | Some a => Some (mk_spill (u32 (used_ s + size d)) a, Ok tt)
       | None => None
       end.

Definition ok (s : spill_buffer_t) : Prop := 0 <= used_ s <= kCapacity /\ size (data_ s) = kCapacity.

Lemma put_spec d s :
  ok s -> size d < 2 ^ 31 ->
  exists s' r, put d s = Some (s', r) /\ ok s' /\
    (forall o n, 0 <= o -> 0 <= n -> o + n <= used_ s -> view s' o n = view s o n) /\
    if used_ s + size d <=? kCapacity
    then r = Ok (used_ s) /\ used_ s' = used_ s + size d /\ view s' (used_ s) (size d) = d
    else r = Unexpected (http_error HeaderTooLarge) /\ s' = s.
Proof.
  unfold ok, kCapacity. intros [Hu Hs] Hd. assert (0 <= size d) by (unfold size; lia).
  unfold put, kCapacity. rewrite u32_small by lia.
  destruct (Z.ltb_spec 512 (used_ s + size d)) as [Ho|Ho].
  - destruct (Z.leb_spec (used_ s + size d) 512); [lia|]. eexists _, _. done.
  - destruct (Z.leb_spec (used_ s + size d) 512); [|lia].
    destruct (write_at_some (data_ s) (used_ s) d) as (a & Ew & Ha); [lia..|]. rewrite Ew.
    eexists _, _. split; [done|]. simpl. split; [lia|]. split; [|split; [done|split; [done|]]].
    + intros o n Ho' Hn Hb. by apply (write_at_below _ _ _ _ _ _ Ew).
    + by apply (write_at_view _ _ _ _ Ew).
Qed.

Lemma extend_put d s : extend d s = match put d s with
  | Some (s', Ok _) => Some (s', Ok tt) | Some (s', Unexpected e) => Some (s', Unexpected e) | None => None end.
Proof. unfold extend, put. by repeat case_match; simplify_eq. Qed.

(** a value that arrives in two pieces, spilled by [put] and lengthened
    by [extend], reads back as the concatenation at the offset [put]
    returned, leaves every earlier spilled run intact, and is refused as a
    whole when it does not fit. *)
Theorem spill_roundtrip a b s :
  ok s -> size a + size b < 2 ^ 31 ->
  match put a s with
  | Some (s1, Ok off) =>
      match extend b s1 with
      | Some (s2, Ok _) => view s2 off (size a + size b) = a ++ b /\
          (forall o n, 0 <= o -> 0 <= n -> o + n <= used_ s -> view s2 o n = view s o n)
      | Some (s2, Unexpected e) => e = http_error HeaderTooLarge /\ s2 = s1 /\ kCapacity < used_ s1 + size b
      | None => False
      end
  | Some (s1, Unexpected e) => e = http_error HeaderTooLarge /\ s1 = s /\ kCapacity < used_ s + size a
  | None => False
  end.
Proof.
  intros Hok Hd. assert (0 <= size a /\ 0 <= size b) as [Ha Hb] by (unfold size; lia).
  destruct (put_spec a s Hok) as (s1 & r1 & -> & Hok1 & Hv1 & H1); [lia|].
  destruct (Z.leb_spec (used_ s + size a) kCapacity) as [Hf|Hf]; [|by destruct H1 as [-> ->]].
  destruct H1 as (-> & Hu1 & Hw1). rewrite extend_put.
  destruct (put_spec b s1 Hok1) as (s2 & r2 & -> & Hok2 & Hv2 & H2); [lia|].
  destruct (Z.leb_spec (used_ s1 + size b) kCapacity) as [Hg|Hg]; [|by destruct H2 as [-> ->]].
  destruct H2 as (-> & Hu2 & Hw2). pose proof Hok as [Hu _]. split.
  - unfold view in *. rewrite view_at_split, Hv2, Hw1 by lia. by rewrite <- Hu1, Hw2.
  - intros o n Ho Hn Hle. rewrite Hv2, Hv1; lia || done.
Qed.

Lemma spill_roundtrip_witness :
  ok init /\ (match put (str "gzip,") init with
  | Some (s1, Ok off) => match extend (str " br") s1 with
                         | Some (s2, Ok _) => view s2 off 8 = str "gzip, br" | _ => False end
  | _ => False end).
Proof.
  assert (ok init) as Hok by (vm_compute; repeat split; congruence).
  split; [exact Hok|].
  pose proof (spill_roundtrip (str "gzip,") (str " br") init Hok eq_refl) as H.
  vm_compute in H |- *. exact (proj1 H).
Defined.
End Spill.
