(* ===== verification/Serializer.v ===== *)
(** * Serialisation

    src/include/cornet/http/common/serializer.h and
    src/src/http/common/serializer.cc: the integer writers, the latching
    output buffer, and the writers of request lines, status lines and
    headers. *)

From stdpp Require Import prelude list list_numbers strings.
From Stdlib Require Import ZArith Lia.
From S2P Require Import Prelude Protocol Buffer.
Open Scope Z_scope.

(** ** Integers *)

Definition kDigitPairs : bytes :=
  str "00010203040506070809" ++
  str "10111213141516171819" ++
  str "20212223242526272829" ++
  str "30313233343536373839" ++
  str "40414243444546474849" ++
  str "50515253545556575859" ++
  str "60616263646566676869" ++
  str "70717273747576777879" ++
  str "80818283848586878889" ++
  str "90919293949596979899".
Definition kHexDigits : bytes := str "0123456789abcdef".

Definition digit_at (tbl : bytes) (i : Z) : Z := nth (Z.to_nat i) tbl 0.

(** The loop [while (v >= 100)]: the scratch buffer is filled from its end,
    so [acc] is the run from [p] on.  The fuel bounds the twenty digits. *)
Fixpoint write_pairs (fuel : nat) (v : Z) (acc : bytes) : Z * bytes :=
  match fuel with
  | O => (v, acc)
  | S fuel =>
      if 100 <=? v then
        let idx := u32 (v mod 100) * 2 in
        write_pairs fuel (v / 100) (digit_at kDigitPairs idx :: digit_at kDigitPairs (idx + 1) :: acc)
      else (v, acc)
  end.

Definition write_u64 (v : Z) : bytes :=
  if v =? 0 then [48]
  else
    let '(v, acc) := write_pairs 10 v [] in
    if 10 <=? v then
      let idx := u32 v * 2 in digit_at kDigitPairs idx :: digit_at kDigitPairs (idx + 1) :: acc
    else u8 (48 + v) :: acc.

Fixpoint write_hex (fuel : nat) (v : Z) (acc : bytes) : bytes :=
  match fuel with
  | O => acc
  | S fuel => if v =? 0 then acc else write_hex fuel (v >>> 4) (digit_at kHexDigits (v &&& 0xf) :: acc)
  end.

Definition write_chunk_size (v : Z) : bytes :=
  (if v =? 0 then [48] else write_hex 16 v []) ++ [13; 10].

(** ** Output buffer *)

Record out_buffer_t := mk_out { lease_ : option bytes; size_ : Z; err_ : error_t }.

Definition reset (lease : option bytes) (_ : out_buffer_t) : out_buffer_t := mk_out lease 0 no_error.
Definition out_release (_ : out_buffer_t) : out_buffer_t := mk_out None 0 no_error.
Definition clear (o : out_buffer_t) : out_buffer_t := mk_out (lease_ o) 0 no_error.

Definition block (o : out_buffer_t) : bytes := default [] (lease_ o).
Definition remaining (o : out_buffer_t) : Z :=
  match lease_ o with Some d => u32 (size d - size_ o) | None => 0 end.
Definition failed (o : out_buffer_t) : bool := is_error (err_ o).
Definition out_view (o : out_buffer_t) : bytes :=
  if size_ o =? 0 then [] else view_at (block o) 0 (size_ o).

Definition fail (e : error_t) (o : out_buffer_t) : out_buffer_t :=
  if is_error (err_ o) then o else mk_out (lease_ o) (size_ o) e.

(** The copy after the room check.  [write_at] would refuse it if it left
    the block; [put_spec] below shows that it does not. *)
Definition raw_put (d : bytes) (o : out_buffer_t) : out_buffer_t :=
  match write_at (block o) (size_ o) d with
  | Some b => mk_out (match lease_ o with Some _ => Some b | None => None end) (u32 (size_ o + size d)) (err_ o)
  | None => o
  end.

(** [put(std::string_view)] narrows the length to 32 bits first. *)
Definition put (d : bytes) (o : out_buffer_t) : out_buffer_t :=
  let len := u32 (size d) in
  if is_error (err_ o) then o
  else if remaining o <? len then mk_out (lease_ o) (size_ o) (http_error OutputOverflow)
  else raw_put (take (Z.to_nat len) d) o.

Definition put_byte (c : Z) (o : out_buffer_t) : out_buffer_t := put [c] o.
Definition put_crlf (o : out_buffer_t) : out_buffer_t := put [13; 10] o.

Definition put_u64 (v : Z) (o : out_buffer_t) : out_buffer_t :=
  if is_error (err_ o) then o
  else if remaining o <? 20 then mk_out (lease_ o) (size_ o) (http_error OutputOverflow)
  else raw_put (write_u64 v) o.

Definition reserve (len : Z) (o : out_buffer_t) : out_buffer_t * Z :=
  if is_error (err_ o) then (o, 0)
  else if remaining o <? len then (mk_out (lease_ o) (size_ o) (http_error OutputOverflow), 0)
  else (raw_put (replicate (Z.to_nat len) 32) o, size_ o).

(** The offset is the caller's; [None] when the run leaves the block. *)
Definition patch_u64 (off len v : Z) (o : out_buffer_t) : option out_buffer_t :=
  match lease_ o with
  | None => Some o
  | Some d =>
      if is_error (err_ o) then Some o
      else
        let tmp := write_u64 v in
        let n := size tmp in
        if len <? n then Some (mk_out (lease_ o) (size_ o) (http_error OutputOverflow))
        else match write_at d off (replicate (Z.to_nat (len - n)) 32 ++ tmp) with
             | Some d => Some (mk_out (Some d) (size_ o) (err_ o))
             | None => None
             end
  end.

(** ** Lines *)

Definition has_crlf (s : bytes) : bool := existsb (Z.eqb 13) s || existsb (Z.eqb 10) s.

Definition request_line (m : method_t) (path query : bytes) (v : version_t) (o : out_buffer_t) : out_buffer_t :=
  let o := put_byte 32 (put (method_name m) o) in
  let o := match path with [] => put_byte 47 o | _ => put path o end in
  let o := match query with [] => o | _ => put query (put_byte 63 o) end in
  match v with
  | Http10 => put (str " HTTP/1.0" ++ [13; 10]) o
  | _ => put (str " HTTP/1.1" ++ [13; 10]) o
  end.

Definition put_status_line (s : status_t) (o : out_buffer_t) : out_buffer_t :=
  match status_line s with
  | Some line => put line o
  | None => put_crlf (put (reason_phrase s) (put_byte 32 (put_u64 (u16 s) (put (str "HTTP/1.1 ") o))))
  end.

Definition put_prefix (f : field_t) (o : out_buffer_t) : out_buffer_t :=
  match field_prefix f with Some p => put p o | None => o end.

Definition header_field (f : field_t) (value : bytes) (o : out_buffer_t) : out_buffer_t :=
  if has_crlf value then fail (http_error InvalidHeader) o
  else put_crlf (put value (put_prefix f o)).

Definition header_name (name value : bytes) (o : out_buffer_t) : out_buffer_t :=
  if has_crlf name || has_crlf value then fail (http_error InvalidHeader) o
  else put_crlf (put value (put (str ": ") (put name o))).

Definition header_u64 (f : field_t) (value : Z) (o : out_buffer_t) : out_buffer_t :=
  put_crlf (put_u64 value (put_prefix f o)).

Definition date_header (imf_date : option bytes) (o : out_buffer_t) : out_buffer_t :=
  match imf_date with
  | None | Some [] => o
  | Some d => put_crlf (put d (put_prefix Date o))
  end.

Definition end_headers (o : out_buffer_t) : out_buffer_t := put_crlf o.

(** ** Positional numerals *)

(** The value of a run of digits, most significant first. *)
Definition dec_value (l : bytes) : Z := fold_left (fun v c => v * 10 + (c - 48)) l 0.

Definition hex_digit (c : Z) : Z := if c <? 58 then c - 48 else c - 87.
Definition hex_value (l : bytes) : Z := fold_left (fun v c => v * 16 + hex_digit c) l 0.

Definition is_digit (c : Z) : Prop := 48 <= c <= 57.

Lemma fold_dec_app l v w :
  fold_left (fun v c => v * 10 + (c - 48)) l (v + w) =
  v * 10 ^ size l + fold_left (fun v c => v * 10 + (c - 48)) l w.
Proof.
  revert v w. induction l as [|c l IH]; intros v w; [unfold size; simpl; lia|]. simpl.
  replace ((v + w) * 10 + (c - 48)) with (v * 10 + (w * 10 + (c - 48))) by lia. rewrite IH.
  unfold size. cbn [length]. rewrite Nat2Z.inj_succ, Z.pow_succ_r by lia. lia.
Qed.

Lemma dec_value_cons c l : dec_value (c :: l) = (c - 48) * 10 ^ size l + dec_value l.
Proof.
  unfold dec_value. cbn [fold_left]. replace (0 * 10 + (c - 48)) with ((c - 48) + 0) by lia.
  apply fold_dec_app.
Qed.

Lemma digit_pairs i :
  0 <= i < 100 ->
  digit_at kDigitPairs (i * 2) = 48 + i / 10 /\ digit_at kDigitPairs (i * 2 + 1) = 48 + i mod 10.
Proof.
  intros Hi.
  assert (forallb (fun i => (digit_at kDigitPairs (i * 2) =? 48 + i / 10) &&
    (digit_at kDigitPairs (i * 2 + 1) =? 48 + i mod 10)) (seqZ 0 100) = true) as H by (vm_compute; done).
  rewrite forallb_forall in H. specialize (H i).
  rewrite andb_true_iff, !Z.eqb_eq in H. apply H, list_elem_of_In, elem_of_seqZ. lia.
Qed.

(** The digits already produced stand for the low end of the number. *)
Lemma write_pairs_spec fuel v acc v' acc' :
  0 < v < 100 ^ Z.of_nat fuel * 100 -> v < 2 ^ 64 -> Forall is_digit acc ->
  write_pairs fuel v acc = (v', acc') ->
  0 < v' < 100 /\ Forall is_digit acc' /\ (length acc' <= length acc + 2 * fuel)%nat /\
  v' * 10 ^ size acc' + dec_value acc' = v * 10 ^ size acc + dec_value acc.
Proof.
  revert v acc. induction fuel as [|fuel IH]; intros v acc Hv H64 Hd.
  { intros [= <- <-]. split; [lia|]. split; [done|]. split; [lia|done]. }
  cbn [write_pairs]. rewrite Nat2Z.inj_succ, Z.pow_succ_r in Hv by lia.
  destruct (Z.leb_spec 100 v) as [Hge|Hlt].
  2:{ intros [= <- <-]. split; [lia|]. split; [done|]. split; [lia|done]. }
  pose proof (Z.mod_pos_bound v 100 ltac:(lia)) as Hm.
  destruct (digit_pairs (v mod 100) Hm) as [E1 E2]. rewrite u32_small, E1, E2 by lia.
  intros H. apply IH in H.
  - destruct H as (H1 & H2 & H3 & H4). simpl in H3. split; [done|]. split; [done|]. split; [lia|].
    rewrite H4, !dec_value_cons. unfold size. cbn [length]. rewrite !Nat2Z.inj_succ, !Z.pow_succ_r by lia.
    pose proof (Z.div_mod v 100 ltac:(lia)). pose proof (Z.div_mod (v mod 100) 10 ltac:(lia)). nia.
  - split; [apply Z.div_str_pos; lia|]. apply Z.div_lt_upper_bound; lia.
  - apply Z.div_lt_upper_bound; lia.
  - pose proof (Z.mod_pos_bound (v mod 100) 10 ltac:(lia)).
    pose proof (Z.div_lt_upper_bound (v mod 100) 10 10). pose proof (Z.div_pos (v mod 100) 10).
    apply Forall_cons; split; [unfold is_digit; lia|]. apply Forall_cons; split; [unfold is_digit; lia|done].
Qed.

Lemma dec_value_nonneg l : Forall is_digit l -> 0 <= dec_value l.
Proof.
  induction 1 as [|c l Hc Hl IH]; [done|]. rewrite dec_value_cons. unfold is_digit in Hc.
  pose proof (Z.pow_nonneg 10 (size l)). nia.
Qed.

(** A numeral without a leading zero has as few digits as its value allows. *)
Lemma dec_length c l k :
  is_digit c -> Forall is_digit l -> c <> 48 -> dec_value (c :: l) < 10 ^ k -> 0 <= k -> size (c :: l) <= k.
Proof.
  intros Hc Hl Hnz Hv Hk. rewrite dec_value_cons in Hv. pose proof (dec_value_nonneg l Hl).
  unfold is_digit in Hc. destruct (Z.le_gt_cases k (size l)) as [Hge|Hlt].
  - pose proof (Z.pow_le_mono_r 10 k (size l) ltac:(lia) Hge). pose proof (Z.pow_pos_nonneg 10 k). nia.
  - unfold size in *. cbn [length]. lia.
Qed.

Lemma write_u64_spec v :
  0 <= v < 2 ^ 64 ->
  dec_value (write_u64 v) = v /\ Forall is_digit (write_u64 v) /\ 1 <= size (write_u64 v) <= 20 /\
  (v <> 0 -> hd_error (write_u64 v) <> Some 48).
Proof.
  intros Hv. unfold write_u64. destruct (Z.eqb_spec v 0) as [->|Hnz].
  { repeat split; try done. by repeat constructor. }
  destruct (write_pairs 10 v []) as [v' acc] eqn:E.
  apply write_pairs_spec in E as (H1 & H2 & _ & H4); [|change (100 ^ Z.of_nat 10 * 100) with (10 ^ 22); lia|lia|constructor].
  change (size []) with 0 in H4. change (dec_value []) with 0 in H4. rewrite Z.pow_0_r, Z.mul_1_r, Z.add_0_r in H4.
  assert (forall c l, is_digit c -> Forall is_digit l -> c <> 48 -> dec_value (c :: l) = v ->
    dec_value (c :: l) = v /\ Forall is_digit (c :: l) /\ 1 <= size (c :: l) <= 20 /\
    (v <> 0 -> hd_error (c :: l) <> Some 48)) as Hfin.
  { intros c l Hc Hl Hne Hval. split; [done|]. split; [by constructor|].
    pose proof (dec_length c l 20 Hc Hl Hne). unfold size in *. cbn [length] in *. simpl. split; [lia|congruence]. }
  destruct (Z.leb_spec 10 v').
  - destruct (digit_pairs v' ltac:(lia)) as [E1 E2]. rewrite u32_small, E1, E2 by lia.
    pose proof (Z.div_mod v' 10 ltac:(lia)). pose proof (Z.mod_pos_bound v' 10 ltac:(lia)).
    apply Hfin; unfold is_digit; [lia| |lia|].
    + apply Forall_cons. split; [unfold is_digit; lia|done].
    + rewrite !dec_value_cons. unfold size in *. cbn [length]. rewrite Nat2Z.inj_succ, Z.pow_succ_r by lia. nia.
  - rewrite u8_small by (unfold is_byte; lia). apply Hfin; unfold is_digit; [lia|done|lia|].
    rewrite dec_value_cons. lia.
Qed.

(** *** Hexadecimal *)

Lemma hex_value_snoc l c : hex_value (l ++ [c]) = hex_value l * 16 + hex_digit c.
Proof. unfold hex_value. by rewrite fold_left_app. Qed.

Lemma fold_hex_app l v w :
  fold_left (fun v c => v * 16 + hex_digit c) l (v + w) =
  v * 16 ^ size l + fold_left (fun v c => v * 16 + hex_digit c) l w.
Proof.
  revert v w. induction l as [|c l IH]; intros v w; [unfold size; simpl; lia|]. cbn [fold_left].
  replace ((v + w) * 16 + hex_digit c) with (v * 16 + (w * 16 + hex_digit c)) by lia. rewrite IH.
  unfold size. cbn [length]. rewrite Nat2Z.inj_succ, Z.pow_succ_r by lia. lia.
Qed.

Lemma hex_value_cons c l : hex_value (c :: l) = hex_digit c * 16 ^ size l + hex_value l.
Proof.
  unfold hex_value. cbn [fold_left]. replace (0 * 16 + hex_digit c) with (hex_digit c + 0) by lia.
  apply fold_hex_app.
Qed.

(** Lowercase hexadecimal digits. *)
Definition is_hex (c : Z) : Prop := 48 <= c <= 57 \/ 97 <= c <= 102.

Lemma hex_digits d :
  0 <= d < 16 -> hex_digit (digit_at kHexDigits d) = d /\ is_hex (digit_at kHexDigits d).
Proof.
  intros Hd. assert (forallb (fun d => let c := digit_at kHexDigits d in (hex_digit c =? d) &&
    (((48 <=? c) && (c <=? 57)) || ((97 <=? c) && (c <=? 102)))) (seqZ 0 16) = true) as H by (vm_compute; done).
  rewrite forallb_forall in H. specialize (H d). cbv zeta in H.
  rewrite andb_true_iff, orb_true_iff, !andb_true_iff, Z.eqb_eq, !Z.leb_le in H. unfold is_hex.
  apply H, list_elem_of_In, elem_of_seqZ. lia.
Qed.

Lemma write_hex_spec fuel v acc :
  0 <= v < 16 ^ Z.of_nat fuel -> Forall is_hex acc ->
  hex_value (write_hex fuel v acc) = v * 16 ^ size acc + hex_value acc /\
  Forall is_hex (write_hex fuel v acc) /\ (length (write_hex fuel v acc) <= length acc + fuel)%nat /\
  (0 < v -> (length acc < length (write_hex fuel v acc))%nat).
Proof.
  revert v acc. induction fuel as [|fuel IH]; intros v acc Hv Ha; cbn [write_hex].
  { change (16 ^ Z.of_nat 0) with 1 in Hv. assert (v = 0) as -> by lia. repeat split; try done; lia. }
  destruct (Z.eqb_spec v 0) as [->|Hnz]; [repeat split; (done || lia)|].
  rewrite Nat2Z.inj_succ, Z.pow_succ_r in Hv by lia.
  change 0xf with (Z.ones 4). rewrite Z.land_ones, Z.shiftr_div_pow2 by lia. change (2 ^ 4) with 16.
  pose proof (Z.mod_pos_bound v 16 ltac:(lia)) as Hm. destruct (hex_digits _ Hm) as [E Hh].
  destruct (IH (v / 16) (digit_at kHexDigits (v mod 16) :: acc)) as (H1 & H2 & H3 & H4).
  - split; [apply Z.div_pos; lia|apply Z.div_lt_upper_bound; lia].
  - by constructor.
  - rewrite H1, hex_value_cons, E. cbn [length] in *. unfold size. cbn [length].
    rewrite Nat2Z.inj_succ, Z.pow_succ_r by lia. pose proof (Z.div_mod v 16 ltac:(lia)).
    split; [nia|]. split; [done|]. split; [lia|]. intros _.
    destruct (Z.eq_dec (v / 16) 0) as [E0|]; [|pose proof (Z.div_pos v 16); lia].
    rewrite E0. destruct fuel; simpl; lia.
Qed.

(** [write_u64] writes the shortest decimal numeral of any 64-bit
    value, at most the twenty bytes its caller reserves; [write_chunk_size]
    writes a lowercase hexadecimal numeral of one to sixteen digits and a
    CRLF, at most eighteen bytes; both read back as the value. *)
Theorem write_u64_chunk_roundtrip v :
  0 <= v < 2 ^ 64 ->
  (dec_value (write_u64 v) = v /\ Forall is_digit (write_u64 v) /\ 1 <= size (write_u64 v) <= 20 /\
   (v <> 0 -> hd_error (write_u64 v) <> Some 48)) /\
  (exists ds, write_chunk_size v = ds ++ [13; 10] /\ hex_value ds = v /\ Forall is_hex ds /\
   1 <= size ds <= 16).
Proof.
  intros Hv. split; [by apply write_u64_spec|]. unfold write_chunk_size. eexists. split; [done|].
  destruct (Z.eqb_spec v 0) as [->|Hnz].
  - repeat split; try done. apply Forall_singleton. left. lia.
  - destruct (write_hex_spec 16 v []) as (H1 & H2 & H3 & H4); [|constructor|].
    + change (16 ^ Z.of_nat 16) with (2 ^ 64). lia.
    + split; [rewrite H1; change (hex_value []) with 0; unfold size; simpl; lia|]. split; [done|].
      unfold size. cbn [length] in *. lia.
Qed.

Lemma write_u64_chunk_roundtrip_witness :
  dec_value (write_u64 18446744073709551615) = 18446744073709551615 /\ write_chunk_size 500 = str "1f4" ++ [13; 10].
Proof.
  split; [|reflexivity].
  exact (proj1 (proj1 (write_u64_chunk_roundtrip 18446744073709551615 ltac:(lia)))).
Defined.

(** ** The output buffer as an append-only log with a latched error *)

Definition ok (o : out_buffer_t) : Prop :=
  0 <= size_ o <= size (block o) /\ size (block o) < 2 ^ 32.

(** [writes f d need]: on a healthy buffer [f] appends exactly [d], or
    latches [OutputOverflow] after a prefix of it, and certainly succeeds
    with [need] bytes of room; on a failed buffer it does nothing. *)
Record writes (f : out_buffer_t -> out_buffer_t) (d : bytes) (need : Z) : Prop := {
  wr_ok : forall o, ok o -> ok (f o) /\ size (block (f o)) = size (block o);
  wr_latched : forall o, failed o = true -> f o = o;
  wr_done : forall o, ok o -> failed o = false -> failed (f o) = false ->
    out_view (f o) = out_view o ++ d /\ size_ (f o) = size_ o + size d;
  wr_fits : forall o, ok o -> failed o = false -> size_ o + need <= size (block o) -> failed (f o) = false;
  wr_fail : forall o, ok o -> failed o = false -> failed (f o) = true ->
    err_ (f o) = http_error OutputOverflow /\ exists p, p `prefix_of` d /\ out_view (f o) = out_view o ++ p
}.

Lemma out_view_block o : ok o -> out_view o = view_at (block o) 0 (size_ o).
Proof. intros _. unfold out_view. by destruct (Z.eqb_spec (size_ o) 0) as [->|]. Qed.

Lemma remaining_ok o : ok o -> remaining o = size (block o) - size_ o.
Proof.
  unfold ok, remaining, block. destruct (lease_ o); simpl.
  - intros. rewrite u32_small; lia.
  - unfold size. simpl. lia.
Qed.

Lemma raw_put_spec d o :
  ok o -> size_ o + size d <= size (block o) ->
  ok (raw_put d o) /\ size (block (raw_put d o)) = size (block o) /\ err_ (raw_put d o) = err_ o /\
  out_view (raw_put d o) = out_view o ++ d /\ size_ (raw_put d o) = size_ o + size d.
Proof.
  intros Hok Hfit. pose proof Hok as (Hs & Hc). assert (0 <= size d) by (unfold size; lia).
  unfold raw_put. destruct (write_at_some (block o) (size_ o) d) as (b & Ew & Hb); [lia|done|]. rewrite Ew.
  rewrite u32_small by lia.
  destruct (lease_ o) as [l|] eqn:El.
  - assert (ok (mk_out (Some b) (size_ o + size d) (err_ o))) as Hok' by (unfold ok, block; simpl; lia).
    rewrite (out_view_block _ Hok'), (out_view_block _ Hok).
    apply write_at_append in Ew; [|lia]. unfold block in *. simpl in *. done.
  - unfold block in *. rewrite El in *. simpl in *.
    assert (d = []) as -> by (destruct d; [done|unfold size in *; simpl in *; lia]).
    assert (size_ o = 0) as E0 by (unfold size in *; simpl in *; lia). rewrite E0 in *.
    unfold ok, out_view, block. simpl. rewrite E0. simpl. done.
Qed.

Lemma err_overflow : is_error (http_error OutputOverflow) = true.
Proof. done. Qed.

(** The shape shared by [put] and [put_u64]: check for [need] bytes, copy [d]. *)
Lemma guarded_writes d need :
  size d <= need ->
  writes (fun o => if is_error (err_ o) then o
                   else if remaining o <? need then mk_out (lease_ o) (size_ o) (http_error OutputOverflow)
                   else raw_put d o) d need.
Proof.
  intros Hd. assert (0 <= size d) by (unfold size; lia). split; intros o; unfold failed.
  - intros Hok. rewrite remaining_ok by done. bool_destruct; try done. zify_bool.
    destruct (raw_put_spec d o Hok) as (? & ? & _); [lia|done].
  - by intros ->.
  - intros Hok ->. rewrite remaining_ok by done. destruct (Z.ltb_spec (size (block o) - size_ o) need); [done|].
    intros _. by destruct (raw_put_spec d o Hok) as (_ & _ & _ & ? & ?); [lia|].
  - intros Hok E Hf. rewrite E, remaining_ok by done.
    destruct (Z.ltb_spec (size (block o) - size_ o) need); [lia|].
    destruct (raw_put_spec d o Hok) as (_ & _ & -> & _); [lia|done].
  - intros Hok E. rewrite E, remaining_ok by done.
    destruct (Z.ltb_spec (size (block o) - size_ o) need).
    + intros _. split; [done|]. exists []. split; [apply prefix_nil|]. by rewrite app_nil_r.
    + destruct (raw_put_spec d o Hok) as (_ & _ & -> & _); [lia|congruence].
Qed.

Lemma put_writes d : size d < 2 ^ 32 -> writes (put d) d (size d).
Proof.
  intros Hd. assert (0 <= size d) by (unfold size; lia). unfold put. rewrite u32_small by lia.
  assert (take (Z.to_nat (size d)) d = d) as -> by (apply take_ge; unfold size; lia).
  by apply guarded_writes.
Qed.

Lemma put_u64_writes v : 0 <= v < 2 ^ 64 -> writes (put_u64 v) (write_u64 v) 20.
Proof. intros Hv. apply guarded_writes. destruct (write_u64_spec v Hv) as (_ & _ & ? & _). lia. Qed.

(** Writers compose: the second needs room after what the first wrote. *)
Lemma writes_seq f g d1 d2 n1 n2 :
  writes f d1 n1 -> writes g d2 n2 ->
  writes (fun o => g (f o)) (d1 ++ d2) (Z.max n1 (size d1 + n2)).
Proof.
  intros F G. split; intros o.
  - intros Hok. destruct (wr_ok _ _ _ F o Hok) as [H1 E1]. destruct (wr_ok _ _ _ G _ H1) as [H2 E2].
    split; [done|]. by rewrite E2.
  - intros Hf. by rewrite (wr_latched _ _ _ F), (wr_latched _ _ _ G).
  - intros Hok Hf Hd. destruct (wr_ok _ _ _ F o Hok) as [H1 E1].
    destruct (failed (f o)) eqn:Hm; [by rewrite (wr_latched _ _ _ G), Hm in Hd|].
    destruct (wr_done _ _ _ F o Hok Hf Hm) as [V1 S1]. destruct (wr_done _ _ _ G _ H1 Hm Hd) as [V2 S2].
    rewrite V2, V1, S2, S1, app_assoc. split; [done|]. unfold size. rewrite length_app. lia.
  - intros Hok Hf Hr. destruct (wr_ok _ _ _ F o Hok) as [H1 E1].
    assert (failed (f o) = false) as Hm by (apply (wr_fits _ _ _ F); done || lia).
    destruct (wr_done _ _ _ F o Hok Hf Hm) as [V1 S1]. apply (wr_fits _ _ _ G); [done|done|lia].
  - intros Hok Hf Hd. destruct (wr_ok _ _ _ F o Hok) as [H1 E1]. destruct (failed (f o)) eqn:Hm.
    + rewrite (wr_latched _ _ _ G) in * by done.
      destruct (wr_fail _ _ _ F o Hok Hf Hm) as (E & p & Hp & V). split; [done|]. exists p.
      split; [by apply prefix_app_r|done].
    + destruct (wr_done _ _ _ F o Hok Hf Hm) as [V1 S1].
      destruct (wr_fail _ _ _ G _ H1 Hm Hd) as (E & p & Hp & V). split; [done|]. exists (d1 ++ p).
      split; [by apply prefix_app|]. by rewrite V, V1, app_assoc.
Qed.

Lemma writes_nil : writes (fun o => o) [] 0.
Proof. split; intros o; rewrite ?app_nil_r; try done; [|congruence]. unfold size. simpl. split; [done|lia]. Qed.

Lemma writes_eq f d d' n n' : writes f d n -> d = d' -> n <= n' -> writes f d' n'.
Proof. intros [H1 H2 H3 H4 H5] <- Hn. split; try done. intros o Hok Hf Hr. apply H4; (done || lia). Qed.

(** ** Lines *)

Definition crlf : bytes := [13; 10].

(** The line a header call is to produce. *)
Definition header_line (name value : bytes) : bytes := name ++ str ": " ++ value ++ crlf.

Lemma header_name_writes name value :
  has_crlf name = false -> has_crlf value = false -> size name < 2 ^ 32 -> size value < 2 ^ 32 ->
  writes (header_name name value) (header_line name value) (size (header_line name value)).
Proof.
  intros Hn Hv Sn Sv. unfold header_name. rewrite Hn, Hv. simpl. eapply writes_eq.
  - refine (writes_seq _ _ _ _ _ _ (writes_seq _ _ _ _ _ _ (writes_seq _ _ _ _ _ _
      (put_writes name Sn) (put_writes (str ": ") _)) (put_writes value Sv)) (put_writes crlf _)); done.
  - unfold header_line. by rewrite !app_assoc.
  - unfold header_line. rewrite !size_app. change (size (str ": ")) with 2. change (size crlf) with 2.
    pose proof (size_nonneg name). pose proof (size_nonneg value). lia.
Qed.

Lemma put_prefix_writes f : writes (put_prefix f) (default [] (field_prefix f)) (size (default [] (field_prefix f))).
Proof.
  unfold put_prefix. destruct (field_prefix f) as [p|] eqn:E; [|apply writes_nil].
  apply put_writes. by destruct f; simplify_eq/=.
Qed.

Lemma header_field_writes f value :
  has_crlf value = false -> size value < 2 ^ 32 ->
  writes (header_field f value) (default [] (field_prefix f) ++ value ++ crlf)
    (size (default [] (field_prefix f)) + size value + 2).
Proof.
  intros Hv Sv. unfold header_field. rewrite Hv.
  pose proof (put_prefix_writes f) as Hp.
  eapply writes_eq.
  - refine (writes_seq _ _ _ _ _ _ (writes_seq _ _ _ _ _ _ Hp (put_writes value Sv)) (put_writes crlf _)); done.
  - by rewrite app_assoc.
  - rewrite !size_app. change (size crlf) with 2.
    pose proof (size_nonneg value). pose proof (size_nonneg (default [] (field_prefix f))). lia.
Qed.

(** a status line is written as "HTTP/1.1 code reason" and CRLF for
    every 16-bit status, tabulated or composed, and fits in 64 bytes. *)
Theorem status_line_exact s :
  0 <= s < 2 ^ 16 ->
  writes (put_status_line s) (str "HTTP/1.1 " ++ write_u64 s ++ str " " ++ reason_phrase s ++ crlf) 64.
Proof.
  intros Hs. unfold put_status_line. destruct (status_line s) as [line|] eqn:E.
  - assert (line = str "HTTP/1.1 " ++ write_u64 s ++ str " " ++ reason_phrase s ++ crlf /\ size line <= 64) as [-> Hl].
    { unfold status_line, reason_phrase in *. destruct (status_lookup s) as [p|] eqn:El; [|done]. simplify_eq.
      unfold status_lookup in El. destruct (List.find _ status_map) as [[s' p']|] eqn:Ef; [|done]. simplify_eq.
      apply find_some in Ef as [Hin Heq]. simpl in Heq. apply Z.eqb_eq in Heq as ->.
      repeat (destruct Hin as [Hin|Hin]; [injection Hin as <- <-; split; [reflexivity|vm_compute; congruence]|]).
      destruct Hin. }
    eapply writes_eq; [apply put_writes; lia|done|done].
  - assert (reason_phrase s = str "Unknown") as ->.
    { unfold status_line, reason_phrase in *. by destruct (status_lookup s). }
    rewrite u16_small by done. eapply writes_eq.
    + refine (writes_seq _ _ _ _ _ _ (writes_seq _ _ _ _ _ _ (writes_seq _ _ _ _ _ _ (writes_seq _ _ _ _ _ _
        (put_writes (str "HTTP/1.1 ") _) (put_u64_writes s _)) (put_writes [32] _))
        (put_writes (str "Unknown") _)) (put_writes crlf _)); done || lia.
    + by rewrite <- !app_assoc.
    + destruct (write_u64_spec s) as (_ & _ & Hl & _); [lia|]. rewrite !size_app.
      change (size (str "HTTP/1.1 ")) with 9. change (size (str "Unknown")) with 7.
      change (size [32]) with 1. change (size crlf) with 2. lia.
Qed.

Definition sample_out : out_buffer_t := mk_out (Some (replicate 128 0)) 0 no_error.

Lemma sample_out_ok : ok sample_out.
Proof. vm_compute. repeat split; congruence. Qed.

Lemma status_line_exact_witness :
  out_view (put_status_line 299 sample_out) = str "HTTP/1.1 299 Unknown" ++ crlf.
Proof.
  destruct (wr_done _ _ _ (status_line_exact 299 ltac:(lia)) sample_out sample_out_ok eq_refl eq_refl) as [H _].
  rewrite H. reflexivity.
Defined.

(** The request line that is to reach the wire. *)
Definition request_line_text (m : method_t) (path query : bytes) (v : version_t) : bytes :=
  method_name m ++ str " " ++ (match path with [] => str "/" | _ => path end) ++
  (match query with [] => [] | _ => str "?" ++ query end) ++
  (match v with Http10 => str " HTTP/1.0" | _ => str " HTTP/1.1" end) ++ crlf.

(** a request line is the method, the path (or "/"), the query with
    its "?" only when there is one, the version and CRLF; it needs no more
    room than its own length. *)
Theorem request_line_exact m path query v :
  size path < 2 ^ 32 -> size query < 2 ^ 32 ->
  writes (request_line m path query v) (request_line_text m path query v)
    (size (request_line_text m path query v)).
Proof.
  intros Sp Sq. unfold request_line, request_line_text.
  set (P := match path with [] => str "/" | _ => path end).
  set (Q := match query with [] => [] | _ => str "?" ++ query end).
  set (V := match v with Http10 => str " HTTP/1.0" ++ crlf | _ => str " HTTP/1.1" ++ crlf end).
  assert (size (method_name m) < 2 ^ 32) as Sm by by destruct m.
  assert (writes (fun o => match path with [] => put_byte 47 o | _ => put path o end) P (size P)) as WP.
  { unfold P. destruct path; [by apply (put_writes [47])|by apply put_writes]. }
  assert (writes (fun o => match query with [] => o | _ => put query (put_byte 63 o) end) Q (size Q)) as WQ.
  { unfold Q. destruct query as [|c q]; [apply writes_nil|]. eapply writes_eq.
    - exact (writes_seq _ _ _ _ _ _ (put_writes [63] eq_refl) (put_writes (c :: q) Sq)).
    - done.
    - rewrite size_app. change (size (str "?")) with 1. change (size [63]) with 1.
      pose proof (size_nonneg (c :: q)). lia. }
  assert (writes (fun o => match v with Http10 => put (str " HTTP/1.0" ++ [13; 10]) o
    | _ => put (str " HTTP/1.1" ++ [13; 10]) o end) V (size V)) as WV.
  { unfold V. destruct v; by apply put_writes. }
  eapply writes_eq.
  - exact (writes_seq _ _ _ _ _ _ (writes_seq _ _ _ _ _ _ (writes_seq _ _ _ _ _ _ (writes_seq _ _ _ _ _ _
      (put_writes (method_name m) Sm) (put_writes [32] eq_refl)) WP) WQ) WV).
  - rewrite <- !app_assoc. do 4 f_equal. by destruct v.
  - rewrite !size_app. assert (size V = size (match v with Http10 => str " HTTP/1.0" | _ => str " HTTP/1.1" end) + size crlf)
      as -> by by destruct v.
    change (size (str " ")) with 1. change (size [32]) with 1.
    pose proof (size_nonneg (method_name m)). pose proof (size_nonneg P). pose proof (size_nonneg Q).
    change (size crlf) with 2 in *.
    pose proof (size_nonneg (match v with Http10 => str " HTTP/1.0" | _ => str " HTTP/1.1" end)). lia.
Qed.

Lemma request_line_exact_witness :
  out_view (request_line Get [] (str "x=1") Http11 sample_out) = str "GET /?x=1 HTTP/1.1" ++ crlf.
Proof.
  destruct (wr_done _ _ _ (request_line_exact Get [] (str "x=1") Http11 eq_refl eq_refl)
    sample_out sample_out_ok eq_refl eq_refl) as [H _].
  rewrite H. reflexivity.
Defined.

(** *** Header sections *)

(** The header calls of one message, in order. *)
Definition put_headers (hs : list (bytes * bytes)) (o : out_buffer_t) : out_buffer_t :=
  fold_left (fun o h => header_name h.1 h.2 o) hs o.

(** A reader of the wire: the lines up to each CRLF. *)
Fixpoint split_lines (l : bytes) (cur : bytes) : list bytes :=
  match l with
  | [] => [cur]
  | 13 :: (10 :: l) => cur :: split_lines l []
  | c :: l => split_lines l (cur ++ [c])
  end.

Lemma split_lines_run s l cur :
  has_crlf s = false -> split_lines (s ++ crlf ++ l) cur = (cur ++ s) :: split_lines l [].
Proof.
  revert cur. induction s as [|c s IH]; intros cur H; [by rewrite app_nil_r|].
  unfold has_crlf in H. apply orb_false_iff in H as [H1 H2]. cbn [existsb] in H1, H2.
  apply orb_false_iff in H1 as [Hc1 H1]. apply orb_false_iff in H2 as [Hc2 H2].
  apply Z.eqb_neq in Hc1. rewrite <- app_comm_cons. 
  transitivity (split_lines (s ++ crlf ++ l) (cur ++ [c])).
  - cbn [split_lines]. destruct c as [|[p|p|]|]; try done.
    do 3 (destruct p as [p|p|]; try done).
  - rewrite IH by (unfold has_crlf; by rewrite H1, H2). by rewrite <- app_assoc.
Qed.

Lemma put_headers_cons h hs o : put_headers (h :: hs) o = put_headers hs (header_name h.1 h.2 o).
Proof. done. Qed.

Lemma put_headers_latched hs o : failed o = true -> put_headers hs o = o.
Proof.
  revert o. induction hs as [|[n v] hs IH]; intros o Hf; [done|]. rewrite put_headers_cons. simpl.
  assert (header_name n v o = o) as ->; [|by apply IH].
  unfold header_name, fail, put_crlf, put. unfold failed in Hf. by rewrite ?Hf; bool_destruct.
Qed.

Lemma header_name_clean n v o :
  failed o = false -> failed (header_name n v o) = false -> has_crlf n = false /\ has_crlf v = false.
Proof.
  unfold header_name, fail, failed. intros Hf. destruct (has_crlf n || has_crlf v) eqn:E.
  - by rewrite Hf.
  - by apply orb_false_iff in E.
Qed.

Definition header_text (h : bytes * bytes) : bytes := h.1 ++ str ": " ++ h.2.

Lemma has_crlf_app a b : has_crlf (a ++ b) = has_crlf a || has_crlf b.
Proof.
  unfold has_crlf. rewrite !existsb_app. by destruct (existsb (Z.eqb 13) a), (existsb (Z.eqb 13) b),
    (existsb (Z.eqb 10) a), (existsb (Z.eqb 10) b).
Qed.

Lemma put_headers_view hs o :
  ok o -> failed o = false -> Forall (fun h => size h.1 < 2 ^ 32 /\ size h.2 < 2 ^ 32) hs ->
  failed (put_headers hs o) = false ->
  ok (put_headers hs o) /\ Forall (fun h => has_crlf (header_text h) = false) hs /\
  out_view (put_headers hs o) = out_view o ++ concat (map (fun h => header_text h ++ crlf) hs).
Proof.
  intros Hok Hf Hs. revert o Hok Hf. induction Hs as [|[n v] hs [Sn Sv] _ IH]; intros o Hok Hf Hd;
    rewrite ?put_headers_cons in *; cbn [map concat fst snd] in *.
  { by rewrite app_nil_r. }
  destruct (failed (header_name n v o)) eqn:Hm; [by rewrite put_headers_latched, Hm in Hd|].
  destruct (header_name_clean _ _ _ Hf Hm) as [Hn Hv].
  pose proof (header_name_writes n v Hn Hv Sn Sv) as W. destruct (wr_ok _ _ _ W o Hok) as [Hok1 _].
  destruct (wr_done _ _ _ W o Hok Hf Hm) as [V _]. destruct (IH _ Hok1 Hm Hd) as (Hok2 & Hc & V2).
  split; [done|]. split.
  - constructor; [|done]. unfold header_text. cbn [fst snd]. rewrite !has_crlf_app, Hn, Hv. done.
  - rewrite V2, V. unfold header_line, header_text. cbn [fst snd]. by rewrite <- !app_assoc.
Qed.

(** *** Header sections as any reader may cut them *)

(** The ways a header line is written: the overloads of [serializer_t::header],
    [header_u64] and [date_header]. *)
Inductive header_call :=
  | HField (f : field_t) (value : bytes)
  | HName (name value : bytes)
  | HU64 (f : field_t) (value : Z)
  | HDate (imf_date : option bytes).

Definition write_header (c : header_call) : out_buffer_t -> out_buffer_t :=
  match c with
  | HField f v => header_field f v
  | HName n v => header_name n v
  | HU64 f v => header_u64 f v
  | HDate d => date_header d
  end.

Definition write_section (cs : list header_call) (o : out_buffer_t) : out_buffer_t :=
  end_headers (fold_left (fun o c => write_header c o) cs o).

(** The lines a call stands for: one, or none for a date that is not known. *)
Definition call_lines (c : header_call) : list bytes :=
  match c with
  | HField f v => [default [] (field_prefix f) ++ v]
  | HName n v => [header_text (n, v)]
  | HU64 f v => [default [] (field_prefix f) ++ write_u64 v]
  | HDate None | HDate (Some []) => []
  | HDate (Some d) => [default [] (field_prefix Date) ++ d]
  end.

Definition no_break (l : bytes) : Prop := Forall (fun c => c <> 13 /\ c <> 10) l.

(** Machine widths, and the one text that is not checked: the date, which
    the clock formats. *)
Definition call_fits (c : header_call) : Prop :=
  match c with
  | HField _ v => size v < 2 ^ 32
  | HName n v => size n < 2 ^ 32 /\ size v < 2 ^ 32
  | HU64 _ v => 0 <= v < 2 ^ 64
  | HDate d => size (default [] d) < 2 ^ 32 /\ no_break (default [] d)
  end.

(** The most lenient reader: a line ends at CR LF, at a bare CR and at a
    bare LF. *)
Fixpoint lenient_lines (l : bytes) (cur : bytes) : list bytes :=
  match l with
  | [] => [cur]
  | c :: l =>
      if c =? 13 then
        cur :: match l with
               | d :: l' => if d =? 10 then lenient_lines l' [] else lenient_lines l []
               | [] => [[]]
               end
      else if c =? 10 then cur :: lenient_lines l []
      else lenient_lines l (cur ++ [c])
  end.

Lemma lenient_lines_run s l cur :
  no_break s -> lenient_lines (s ++ crlf ++ l) cur = (cur ++ s) :: lenient_lines l [].
Proof.
  intros H. revert cur. induction H as [|c s [H1 H2] _ IH]; intros cur; [by rewrite app_nil_r|].
  rewrite <- app_comm_cons. cbn [lenient_lines]. apply Z.eqb_neq in H1, H2. rewrite H1, H2, IH. by rewrite <- app_assoc.
Qed.

Lemma lenient_lines_text ls l :
  Forall no_break ls -> lenient_lines (concat (map (fun t => t ++ crlf) ls) ++ l) [] = ls ++ lenient_lines l [].
Proof.
  induction 1 as [|t ls Ht _ IH]; [done|]. cbn [map concat]. rewrite <- !app_assoc, lenient_lines_run by done. by rewrite IH.
Qed.

Lemma has_crlf_no_break s : has_crlf s = false -> no_break s.
Proof.
  unfold has_crlf, no_break. intros [H1 H2]%orb_false_iff. apply Forall_forall. intros c Hc. apply list_elem_of_In in Hc.
  split; intros ->; [rewrite <- not_true_iff_false, existsb_exists in H1; apply H1|
    rewrite <- not_true_iff_false, existsb_exists in H2; apply H2]; eauto using Z.eqb_refl.
Qed.

Lemma prefix_no_break f : no_break (default [] (field_prefix f)).
Proof. apply has_crlf_no_break. by destruct f. Qed.

Lemma digits_no_break l : Forall is_digit l -> no_break l.
Proof. intros H. apply (Forall_impl _ _ _ H). unfold is_digit. lia. Qed.

(** A call that did not fail wrote its lines, and none of them has a break
    inside. *)
Lemma write_header_done c o :
  call_fits c -> ok o -> failed o = false -> failed (write_header c o) = false ->
  exists n, writes (write_header c) (concat (map (fun t => t ++ crlf) (call_lines c))) n /\ Forall no_break (call_lines c).
Proof.
  intros Hc Hok Hf Hd.
  assert (Hline : forall (p : field_t) (g : out_buffer_t -> out_buffer_t) d n, writes g d n -> no_break d ->
    exists n, writes (fun o => put_crlf (g (put_prefix p o))) (concat (map (fun t => t ++ crlf) [default [] (field_prefix p) ++ d])) n /\
      Forall no_break [default [] (field_prefix p) ++ d]).
  { intros p g d n W Hb. eexists. split.
    - eapply writes_eq; [exact (writes_seq _ _ _ _ _ _ (writes_seq _ _ _ _ _ _ (put_prefix_writes p) W) (put_writes crlf eq_refl))| |reflexivity].
      cbn [map concat]. by rewrite app_nil_r.
    - constructor; [|done]. apply Forall_app. split; [apply prefix_no_break|done]. }
  destruct c as [f v|n v|f v|[[|x d]|]]; cbn [call_fits write_header call_lines] in *.
  - assert (has_crlf v = false) as Hv.
    { unfold header_field, fail, failed in *. destruct (has_crlf v); [by rewrite Hf in Hd|done]. }
    unfold header_field. rewrite Hv. apply (Hline f (put v) v (size v)); [by apply put_writes|by apply has_crlf_no_break].
  - destruct (header_name_clean n v o Hf Hd) as [Hn Hv]. destruct Hc as [Sn Sv]. eexists. split.
    + eapply writes_eq; [by apply header_name_writes| |reflexivity].
      unfold header_line, header_text. cbn. by rewrite app_nil_r, <- !app_assoc.
    + constructor; [|done]. apply has_crlf_no_break. unfold header_text. cbn [fst snd]. by rewrite !has_crlf_app, Hn, Hv.
  - destruct (write_u64_spec v Hc) as (_ & Hdig & _). apply (Hline f (put_u64 v) (write_u64 v) 20); [by apply put_u64_writes|by apply digits_no_break].
  - exists 0. split; [exact writes_nil|constructor].
  - destruct Hc. apply (Hline Date (put (x :: d)) (x :: d) (size (x :: d))); [by apply put_writes|done].
  - exists 0. split; [exact writes_nil|constructor].
Qed.

Lemma write_header_latched c o : failed o = true -> write_header c o = o.
Proof.
  unfold failed. intros Hf. assert (H : forall d o, is_error (err_ o) = true -> put d o = o) by (intros d o' E; unfold put; by rewrite E).
  assert (Hp : forall f, put_prefix f o = o) by (intros f; unfold put_prefix; destruct (field_prefix f); [by apply H|done]).
  destruct c as [f v|n v|f v|[[|x d]|]]; cbn [write_header]; try done;
    unfold header_field, header_name, header_u64, date_header, put_crlf, put_u64, fail; rewrite ?Hp, ?Hf.
  - destruct (has_crlf v); [done|]. by rewrite !(H _ o Hf).
  - destruct (has_crlf n || has_crlf v); [done|]. by rewrite !(H _ o Hf).
  - by apply H.
  - by rewrite !(H _ o Hf).
Qed.

Lemma write_headers_view cs o :
  Forall call_fits cs -> ok o -> failed o = false -> failed (fold_left (fun o c => write_header c o) cs o) = false ->
  ok (fold_left (fun o c => write_header c o) cs o) /\ Forall no_break (concat (map call_lines cs)) /\
  out_view (fold_left (fun o c => write_header c o) cs o) = out_view o ++ concat (map (fun t => t ++ crlf) (concat (map call_lines cs))).
Proof.
  intros Hs. revert o. induction Hs as [|c cs Hc _ IH]; intros o Hok Hf Hd; cbn [fold_left map concat] in *.
  { by rewrite app_nil_r. }
  destruct (failed (write_header c o)) eqn:Hm.
  { exfalso. clear IH. revert Hd. generalize (write_header c o) Hm. induction cs as [|c' cs IH]; intros o' Hm' Hd; cbn in Hd; [congruence|].
    rewrite write_header_latched in Hd by done. by eapply IH. }
  destruct (write_header_done c o Hc Hok Hf Hm) as (n & W & Hb). destruct (wr_ok _ _ _ W o Hok) as [Hok1 _].
  destruct (wr_done _ _ _ W o Hok Hf Hm) as [V _]. destruct (IH _ Hok1 Hm Hd) as (Hok2 & Hb2 & V2).
  split; [done|]. split; [by apply Forall_app|]. by rewrite V2, V, map_app, concat_app, app_assoc.
Qed.

(** Only a value written under no name at all can look like the end. *)
Lemma call_lines_end c : call_fits c -> [] ∈ call_lines c -> c = HField Other [].
Proof.
  assert (Hp : forall f d, [] = default [] (field_prefix f) ++ d -> f = Other /\ d = []) by (intros f d; by destruct f, d).
  intros Hc. destruct c as [f v|n v|f v|[[|x d]|]]; cbn [call_lines]; rewrite ?list_elem_of_singleton; intros H.
  - by destruct (Hp _ _ H) as [-> ->].
  - by destruct n.
  - destruct (Hp _ _ H) as [_ E]. destruct (write_u64_spec v Hc) as (_ & _ & Hl & _). rewrite E in Hl. by destruct Hl.
  - by apply not_elem_of_nil in H.
  - by destruct (Hp Date _ H).
  - by apply not_elem_of_nil in H.
Qed.

(** C37: whatever names, values and numbers a handler passes to the header
    writers (by name, by known field, as a number, or the date), a header
    section that was written without failing is, for a reader that ends a
    line at CR LF, at a bare CR or at a bare LF alike, exactly the one line
    of each call (none for a date that is not known) and then the empty
    line: no call can inject a second header, and none can end the section
    early except a header of the unnamed field [Other] with an empty value.
    Assumed are machine widths and that the date text the clock formats has
    no line break; names and values may hold anything. *)
Theorem header_section_no_injection cs o :
  ok o -> failed o = false -> Forall call_fits cs -> failed (write_section cs o) = false ->
  exists d, out_view (write_section cs o) = out_view o ++ d /\
    lenient_lines d [] = concat (map call_lines cs) ++ [[]; []] /\
    (HField Other [] ∉ cs -> [] ∉ concat (map call_lines cs)).
Proof.
  intros Hok Hf Hs. unfold write_section. set (o1 := fold_left _ cs o). intros Hd. destruct (failed o1) eqn:Hm.
  { unfold end_headers, put_crlf in Hd. rewrite (wr_latched _ _ _ (put_writes crlf eq_refl)) in Hd; congruence. }
  destruct (write_headers_view cs o Hs Hok Hf Hm) as (Hok1 & Hc & V). fold o1 in Hok1, V.
  destruct (wr_done _ _ _ (put_writes crlf eq_refl) _ Hok1 Hm Hd) as [V2 _].
  eexists. split; [change (end_headers o1) with (put crlf o1); rewrite V2, V, <- app_assoc; reflexivity|].
  split; [by rewrite lenient_lines_text|]. intros Hn Hin.
  rewrite list_elem_of_In, in_concat in Hin. destruct Hin as (ls & (c & <- & Hcs)%in_map_iff & Hin). apply list_elem_of_In in Hcs. apply list_elem_of_In in Hin.
  rewrite Forall_forall in Hs. apply Hn. by rewrite <- (call_lines_end c (Hs c Hcs) Hin).
Qed.

Definition section_calls : list header_call :=
  [HField ContentType (str "text/plain"); HU64 ContentLength 11; HName (str "X") (str "a b"); HDate (Some (str "now")); HDate None].

Lemma header_section_no_injection_witness :
  failed (write_section section_calls sample_out) = false /\
  exists d, out_view (write_section section_calls sample_out) = out_view sample_out ++ d /\
    lenient_lines d [] = [str "Content-Type: text/plain"; str "Content-Length: 11"; str "X: a b"; str "Date: now"; []; []].
Proof.
  split; [reflexivity|].
  destruct (header_section_no_injection section_calls sample_out sample_out_ok eq_refl) as (d & V & L & _);
    [|reflexivity|]; [|exists d; split; [exact V|exact L]].
  unfold section_calls. rewrite !Forall_cons. cbn. repeat split; try (by apply Forall_nil); try lia; by apply has_crlf_no_break.
Defined.

(** A name or value with either break alone fails the buffer. *)
Example bare_breaks_refused :
  failed (write_section [HName (str "X") (str "a" ++ [10] ++ str "Y: b")] sample_out) = true /\
  failed (write_section [HField Location (str "a" ++ [13] ++ str "Y: b")] sample_out) = true.
Proof. split; reflexivity. Qed.

(** *** Patching a reserved run *)

(** a run of [len] bytes reserved for a length and patched later
    reads as the value's numeral right-aligned in spaces, and every byte
    outside the run is as it was. *)
Theorem patch_u64_exact o len o1 off v :
  ok o -> failed o = false -> reserve len o = (o1, off) -> failed o1 = false ->
  0 <= v < 2 ^ 64 -> size (write_u64 v) <= len ->
  exists o2, patch_u64 off len v o1 = Some o2 /\ ok o2 /\ size_ o2 = size_ o + len /\
    out_view o2 = out_view o ++ replicate (Z.to_nat (len - size (write_u64 v))) 32 ++ write_u64 v.
Proof.
  intros Hok Hf Hr Hf1 Hv Hlen. pose proof Hok as [Hs Hc].
  destruct (write_u64_spec v Hv) as (_ & _ & Hn0 & _).
  unfold reserve in Hr. unfold failed in Hf. rewrite Hf, remaining_ok in Hr by done.
  destruct (Z.ltb_spec (size (block o) - size_ o) len) as [|Hfit]; [by simplify_eq|].
  assert (size (replicate (Z.to_nat len) 32) = len) as Hsz by (unfold size; rewrite length_replicate; lia).
  destruct (raw_put_spec (replicate (Z.to_nat len) 32) o Hok) as (Hok1 & Hb1 & He1 & Hv1 & Hs1); [lia|].
  simplify_eq. set (o1 := raw_put _ o) in *. unfold patch_u64.
  set (run := replicate (Z.to_nat (len - size (write_u64 v))) 32 ++ write_u64 v).
  assert (size run = len) as Hrun
    by (unfold run; rewrite size_app; unfold size at 1; rewrite length_replicate; lia).
  unfold failed in Hf1. destruct (lease_ o1) as [d|] eqn:El.
  - rewrite Hf1. destruct (Z.ltb_spec len (size (write_u64 v))); [lia|].
    assert (block o1 = d) as Hbd by (unfold block; by rewrite El).
    destruct (write_at_some d (size_ o) run) as (d2 & Ew & Hd2); [lia|rewrite <- Hbd; lia|].
    rewrite Ew. eexists. split; [done|].
    assert (ok (mk_out (Some d2) (size_ o1) (err_ o1))) as Hok2.
    { destruct Hok1 as [? ?]. unfold ok, block. simpl. rewrite Hbd in *. lia. }
    split; [done|]. simpl. split; [lia|]. rewrite (out_view_block _ Hok2), (out_view_block _ Hok). simpl.
    apply write_at_append in Ew; [|lia]. rewrite Hrun in Ew. rewrite Hs1, Hsz. unfold block at 1. simpl. rewrite Ew. f_equal.
    rewrite (out_view_block _ Hok1), (out_view_block _ Hok), Hbd, Hs1, Hsz in Hv1.
    rewrite view_at_split, Z.add_0_l in Hv1 by lia. apply app_inj_1 in Hv1 as [Hv1 _]; [done|].
    assert (forall x, 0 <= size_ o <= size x -> length (view_at x 0 (size_ o)) = Z.to_nat (size_ o)) as Hl.
    { intros x Hx. pose proof (size_view_at x 0 (size_ o)). unfold size in *. lia. }
    rewrite !Hl; [done|lia|rewrite <- Hbd; lia].
  - assert (size (block o1) = 0) by (unfold block; by rewrite El). lia.
Qed.

Lemma patch_u64_exact_witness :
  exists o2, patch_u64 0 6 42 (reserve 6 sample_out).1 = Some o2 /\ out_view o2 = str "    42".
Proof.
  destruct (patch_u64_exact sample_out 6 (reserve 6 sample_out).1 0 42) as (o2 & H1 & _ & _ & H2);
    [apply sample_out_ok|reflexivity|reflexivity|reflexivity|lia|vm_compute; congruence|].
  exists o2. split; [exact H1|exact H2].
Defined.
