(* ===== verification/HeadLines.v ===== *)
(** * Heads written line by line

    What the request framing of the client and the response framing of the
    server share: writers that append one line or fail, and the text of a
    head as a list of lines. *)

From stdpp Require Import prelude list list_numbers strings.
From Stdlib Require Import ZArith Lia.
From S2P Require Import Prelude Protocol Serializer.
Open Scope Z_scope.

(** A conditional call. *)
Definition when (b : bool) (f : out_buffer_t -> out_buffer_t) (o : out_buffer_t) : out_buffer_t := if b then f o else o.

(** [emits f d P]: a call that does not fail appends exactly [d], and [P]
    holds; a failed buffer stays failed. *)
Record emits (f : out_buffer_t -> out_buffer_t) (d : bytes) (P : Prop) : Prop := {
  em_latched : forall o, failed o = true -> failed (f o) = true;
  em_done : forall o, ok o -> failed o = false -> failed (f o) = false -> ok (f o) /\ out_view (f o) = out_view o ++ d /\ P
}.

Lemma emits_writes f d n : writes f d n -> emits f d True.
Proof.
  intros H. split.
  - intros o Ho. by rewrite (wr_latched _ _ _ H).
  - intros o Hok Hf Hf'. destruct (wr_done _ _ _ H o Hok Hf Hf') as [? _]. destruct (wr_ok _ _ _ H o Hok). done.
Qed.

Lemma emits_seq f g d1 d2 P Q : emits f d1 P -> emits g d2 Q -> emits (fun o => g (f o)) (d1 ++ d2) (P /\ Q).
Proof.
  intros F G. split.
  - intros o Ho. by apply (em_latched _ _ _ G), (em_latched _ _ _ F).
  - intros o Hok Hf Hd. destruct (failed (f o)) eqn:Hm; [by rewrite (em_latched _ _ _ G _ Hm) in Hd|].
    destruct (em_done _ _ _ F o Hok Hf Hm) as (H1 & V1 & HP). destruct (em_done _ _ _ G _ H1 Hm Hd) as (H2 & V2 & HQ).
    split; [done|]. split; [by rewrite V2, V1, <- app_assoc|done].
Qed.

Lemma emits_when b f d P : emits f d P -> emits (when b f) (if b then d else []) (b = true -> P).
Proof.
  intros F. destruct b; simpl; split; try done.
  - apply (em_latched _ _ _ F).
  - intros o Hok Hf Hd. destruct (em_done _ _ _ F o Hok Hf Hd) as (? & ? & ?). auto.
  - intros o Hok Hf _. by rewrite app_nil_r.
Qed.

Lemma emits_mono f d d' (P Q : Prop) : emits f d P -> d = d' -> (P -> Q) -> emits f d' Q.
Proof. intros [H1 H2] <- HQ. split; [done|]. intros o Hok Hf Hd. destruct (H2 o Hok Hf Hd) as (? & ? & ?). auto. Qed.

(** A header line without its CRLF. *)
Definition field_line (f : field_t) (value : bytes) : bytes := field_name f ++ str ": " ++ value.

Lemma emits_header_field f v :
  f <> Other -> size v < 2 ^ 32 -> emits (header_field f v) (field_line f v ++ crlf) (has_crlf v = false).
Proof.
  intros Hf Hv. destruct (has_crlf v) eqn:E.
  - split; unfold header_field; rewrite E.
    + intros o Ho. unfold fail. unfold failed in *. by rewrite Ho.
    + intros o Hok Ho. unfold fail, failed in *. by rewrite Ho.
  - eapply emits_mono; [eapply emits_writes, header_field_writes; [done|done]| |done].
    unfold field_line. unfold field_prefix. destruct f; try done; by rewrite <- !app_assoc.
Qed.

Lemma emits_header_u64 f n :
  f <> Other -> 0 <= n < 2 ^ 64 -> emits (header_u64 f n) (field_line f (write_u64 n) ++ crlf) True.
Proof.
  intros Hf Hn. assert (Hp : emits (put_prefix f) (field_name f ++ str ": ") True).
  { unfold put_prefix, field_prefix. eapply emits_mono; [eapply emits_writes|done|done].
    destruct f; try done; (apply put_writes; vm_compute; congruence). }
  eapply emits_mono; [refine (emits_seq _ _ _ _ _ _ (emits_seq _ _ _ _ _ _ Hp (emits_writes _ _ _ (put_u64_writes n Hn))) (emits_writes _ _ _ (put_writes crlf eq_refl)))| |done].
  unfold field_line. by rewrite <- !app_assoc.
Qed.

Definition text_of (ls : list bytes) : bytes := concat (map (fun t => t ++ crlf) ls).

Lemma text_of_app a b : text_of (a ++ b) = text_of a ++ text_of b.
Proof. unfold text_of. by rewrite map_app, concat_app. Qed.

Lemma split_text_of ls rest :
  Forall (fun t => has_crlf t = false) ls -> split_lines (text_of ls ++ rest) [] = ls ++ split_lines rest [].
Proof.
  induction 1 as [|t ls Ht _ IH]; [done|]. unfold text_of in *. cbn [map concat]. rewrite <- !app_assoc.
  by rewrite split_lines_run, IH.
Qed.

Lemma emits_line f (P : Prop) t (b : bool) :
  emits f (t ++ crlf) P -> (P -> has_crlf t = false) ->
  emits (when b f) (text_of (if b then [t] else [])) (Forall (fun t => has_crlf t = false) (if b then [t] else [])).
Proof.
  intros H HP. eapply emits_mono; [apply (emits_when b), H| |].
  - destruct b; [|done]. unfold text_of. simpl. by rewrite app_nil_r.
  - destruct b; [|done]. intros Hb. constructor; [auto|done].
Qed.

Lemma emits_then f g (a b : list bytes) :
  emits f (text_of a) (Forall (fun t => has_crlf t = false) a) -> emits g (text_of b) (Forall (fun t => has_crlf t = false) b) ->
  emits (fun o => g (f o)) (text_of (a ++ b)) (Forall (fun t => has_crlf t = false) (a ++ b)).
Proof.
  intros F G. eapply emits_mono; [eapply emits_seq; [exact F|exact G]|by rewrite text_of_app|].
  intros [? ?]. by apply Forall_app.
Qed.

Lemma field_line_clean f v : has_crlf v = false -> has_crlf (field_line f v) = false.
Proof. intros H. unfold field_line. rewrite !has_crlf_app, H. by destruct f. Qed.

Lemma decimal_clean n : 0 <= n < 2 ^ 64 -> has_crlf (write_u64 n) = false.
Proof.
  intros Hn. destruct (write_u64_spec n Hn) as (_ & Hd & _). unfold has_crlf. apply orb_false_iff.
  assert (forall c, c < 48 -> existsb (Z.eqb c) (write_u64 n) = false) as Hc; [|split; by apply Hc].
  intros c Hlt. apply not_true_iff_false. rewrite existsb_exists. intros (x & Hx & ->%Z.eqb_eq).
  rewrite Forall_forall in Hd. apply list_elem_of_In in Hx. specialize (Hd _ Hx). unfold is_digit in Hd. lia.
Qed.

