(* ===== verification/Chunked.v ===== *)
(** * The chunked coding

    The form of a chunked body on the wire, and a reference decoder: what the
    server's streamed responses and the client's streamed uploads are read
    back with. *)

From stdpp Require Import prelude list list_numbers strings.
From Stdlib Require Import ZArith Lia.
From S2P Require Import Prelude Serializer HeadLines.
Open Scope Z_scope.

Definition chunk (d : bytes) : bytes := match d with [] => [] | _ => write_chunk_size (size d) ++ d ++ crlf end.
Definition chunked_body (ds : list bytes) : bytes := concat (map chunk ds) ++ str "0" ++ crlf ++ crlf.

(** A reference decoder of the chunked coding (RFC 9112, section 7.1), for
    messages without extensions and trailers. *)
Definition is_hexb (c : Z) : bool := ((48 <=? c) && (c <=? 57)) || ((97 <=? c) && (c <=? 102)).
Fixpoint hex_prefix (l : bytes) : bytes * bytes :=
  match l with
  | c :: l' => if is_hexb c then let '(a, b) := hex_prefix l' in (c :: a, b) else ([], l)
  | [] => ([], [])
  end.
Fixpoint dechunk (fuel : nat) (l : bytes) : option bytes :=
  match fuel with
  | O => None
  | S fuel =>
      match hex_prefix l with
      | ([], _) => None
      | (ds, 13 :: 10 :: rest) =>
          let n := Z.to_nat (hex_value ds) in
          if (n =? 0)%nat then if bool_decide (rest = crlf) then Some [] else None
          else match drop n rest with
               | 13 :: 10 :: more => option_map (app (take n rest)) (dechunk fuel more)
               | _ => None
               end
      | _ => None
      end
  end.

(** ** Decoding *)

Lemma hex_prefix_run ds rest : Forall is_hex ds -> hex_prefix (ds ++ 13 :: rest) = (ds, 13 :: rest).
Proof.
  induction 1 as [|c ds Hc _ IH]; [done|]. simpl. rewrite IH.
  assert (is_hexb c = true) as -> by (unfold is_hexb, is_hex in *; rewrite orb_true_iff, !andb_true_iff, !Z.leb_le; lia). done.
Qed.

Lemma dechunk_chunk fuel d rest :
  d <> [] -> size d < 2 ^ 64 -> dechunk (S fuel) (chunk d ++ rest) = option_map (app d) (dechunk fuel rest).
Proof.
  intros Hd Hs. pose proof (size_nonneg d). assert (0 < size d) as Hpos by (destruct d; [done|unfold size; simpl; lia]).
  destruct (write_u64_chunk_roundtrip (size d) ltac:(lia)) as (_ & ds & E & Hv & Hx & Hl).
  assert (chunk d = write_chunk_size (size d) ++ d ++ crlf) as -> by (by destruct d). rewrite E, <- !app_assoc. cbn [app dechunk].
  rewrite (hex_prefix_run ds) by done. destruct ds as [|x ds]; [unfold size in Hl; simpl in Hl; lia|].
  rewrite Hv. assert ((Z.to_nat (size d) =? 0)%nat = false) as -> by (apply Nat.eqb_neq; lia).
  assert (Z.to_nat (size d) = length d) as -> by (unfold size; lia). by rewrite drop_app_length, take_app_length.
Qed.

Lemma dechunk_body ds : forall fuel, (length ds < fuel)%nat -> Forall (fun d => size d < 2 ^ 64) ds ->
  dechunk fuel (chunked_body ds) = Some (concat ds).
Proof.
  induction ds as [|d ds IH]; intros fuel Hf Hs; (destruct fuel as [|fuel]; [simpl in Hf; lia|]); [done|].
  inversion Hs as [|? ? H1 H2]; subst. simpl in Hf. unfold chunked_body in *. cbn [map concat].
  destruct d as [|x d]; [by apply IH; [lia|]|]. rewrite <- app_assoc, dechunk_chunk by done. by rewrite IH by (done || lia).
Qed.
