(* ===== verification/Headers.v ===== *)
(** * The header section of a message

    src/include/cornet/http/common/headers.h and src/src/http/common/headers.cc:
    entries as offsets into the header buffer or the spill buffer, 32 of
    them inline and the rest in an overflow vector, with one presence bitmap
    for headers and one for trailers. *)

From stdpp Require Import prelude list list_numbers strings.
From Stdlib Require Import ZArith Lia.
From S2P Require Import Prelude Protocol Buffer.
Open Scope Z_scope.

(** ** State *)

Record header_ref := mk_ref {
  name_off : Z; value_off : Z; name_len : Z; value_len : Z;
  field : field_t; spilled : bool; name_spilled : bool; trailer : bool
}.

Definition kInline : nat := 32.

Definition blank_ref : header_ref := mk_ref 0 0 0 0 Other false false false.

Record headers_t := mk_headers {
  inline_ : list header_ref;
  size_ : Z;
  trailers_ : Z;
  bitmap_ : Z;
  trailer_bitmap_ : Z;
  overflow_ : option (list header_ref);
  head_ : option Head.head_buffer_t;
  spill_ : option Spill.spill_buffer_t
}.

Definition empty_headers : headers_t := mk_headers (replicate kInline blank_ref) 0 0 0 0 None None None.

Definition bind (head : Head.head_buffer_t) (spill : Spill.spill_buffer_t) (h : headers_t) : headers_t :=
  mk_headers (inline_ h) (size_ h) (trailers_ h) (bitmap_ h) (trailer_bitmap_ h) (overflow_ h)
    (Some head) (Some spill).

Definition clear (h : headers_t) : headers_t :=
  mk_headers (inline_ h) 0 0 0 0 (match overflow_ h with Some _ => Some [] | None => None end)
    (head_ h) (spill_ h).

(** ** Operations *)

Definition field_bit (f : field_t) : Z := 1 <<< field_index f.

Definition add (ref : header_ref) (max_entries : Z) (h : headers_t) : headers_t * expected unit :=
  let used := if trailer ref then trailers_ h else u32 (size_ h - trailers_ h) in
  if max_entries <=? used then (h, Unexpected (http_error TooManyHeaders))
  else
    let inl := size_ h <? Z.of_nat kInline in
    let tracked := negb (bool_decide (field ref = Other)) in
    (mk_headers
       (if inl then <[Z.to_nat (size_ h) := ref]> (inline_ h) else inline_ h)
       (u32 (size_ h + 1))
       (if trailer ref then u32 (trailers_ h + 1) else trailers_ h)
       (if tracked && negb (trailer ref) then bitmap_ h ||| field_bit (field ref) else bitmap_ h)
       (if tracked && trailer ref then trailer_bitmap_ h ||| field_bit (field ref) else trailer_bitmap_ h)
       (if inl then overflow_ h
        else Some (match overflow_ h with Some o => o ++ [ref] | None => [ref] end))
       (head_ h) (spill_ h),
     Ok tt).

Definition at_ (h : headers_t) (i : nat) : header_ref :=
  if (i <? kInline)%nat then nth i (inline_ h) blank_ref
  else nth (i - kInline) (default [] (overflow_ h)) blank_ref.

Definition resolve (h : headers_t) (off len : Z) (spilled : bool) : bytes :=
  if len =? 0 then []
  else if spilled then match spill_ h with Some s => Spill.view s off len | None => [] end
  else match head_ h with Some b => Head.view b off len | None => [] end.

Definition ref_name (h : headers_t) (r : header_ref) : bytes :=
  resolve h (name_off r) (name_len r) (name_spilled r).
Definition ref_value (h : headers_t) (r : header_ref) : bytes :=
  resolve h (value_off r) (value_len r) (spilled r).

Definition name_at (h : headers_t) (i : nat) : bytes := ref_name h (at_ h i).
Definition value_at (h : headers_t) (i : nat) : bytes := ref_value h (at_ h i).

(** The loop [for (i = 0; i < size_; ++i)] that returns the value of the
    first entry satisfying [p]; [n] iterations are left. *)
Fixpoint scan (h : headers_t) (p : header_ref -> bool) (i n : nat) : bytes :=
  match n with
  | O => []
  | S n => if p (at_ h i) then ref_value h (at_ h i) else scan h p (S i) n
  end.
Definition scan_all (h : headers_t) (p : header_ref -> bool) : bytes := scan h p 0 (Z.to_nat (size_ h)).

Definition has (h : headers_t) (f : field_t) : bool :=
  negb (bool_decide (f = Other)) && negb ((bitmap_ h &&& field_bit f) =? 0).
Definition has_trailer (h : headers_t) (f : field_t) : bool :=
  negb (bool_decide (f = Other)) && negb ((trailer_bitmap_ h &&& field_bit f) =? 0).

Definition get_field (h : headers_t) (f : field_t) : bytes :=
  if negb (has h f) then []
  else scan_all h (fun r => negb (trailer r) && bool_decide (field r = f)).

Definition trailer_field (h : headers_t) (f : field_t) : bytes :=
  if negb (has_trailer h f) then []
  else scan_all h (fun r => trailer r && bool_decide (field r = f)).

Definition trailer_name (h : headers_t) (name : bytes) : bytes :=
  if trailers_ h =? 0 then []
  else
    let f := field_from_name name in
    if negb (bool_decide (f = Other)) then trailer_field h f
    else scan_all h (fun r => trailer r && bool_decide (field r = Other) && iequals (ref_name h r) name).

Definition get_name (h : headers_t) (name : bytes) : bytes :=
  let f := field_from_name name in
  if negb (bool_decide (f = Other)) then get_field h f
  else scan_all h (fun r => negb (trailer r) && bool_decide (field r = Other) && iequals (ref_name h r) name).

(** *** Token lists *)

Definition is_ows (c : Z) : bool := (c =? 32) || (c =? 9).

Fixpoint trim_front (p : bytes) : bytes :=
  match p with [] => [] | c :: r => if is_ows c then trim_front r else p end.
Definition trim (p : bytes) : bytes := rev (trim_front (rev (trim_front p))).

(** [value.find(',', pos)] on the part from [pos] on: the piece before the
    comma and, if there is one, the part after it. *)
Fixpoint cut_comma (v : bytes) : bytes * option bytes :=
  match v with
  | [] => ([], None)
  | c :: v => if c =? 44 then ([], Some v)
              else let '(piece, r) := cut_comma v in (c :: piece, r)
  end.

(** The loop [while (pos < value.size())]; each turn drops at least a comma,
    so the length of the value bounds the turns. *)
Fixpoint token_loop (fuel : nat) (v token : bytes) : bool :=
  match fuel with
  | O => false
  | S fuel =>
      match v with
      | [] => false
      | _ => let '(piece, r) := cut_comma v in
             if iequals (trim piece) token then true
             else match r with None => false | Some v => token_loop fuel v token end
      end
  end.

Definition contains_token (h : headers_t) (f : field_t) (token : bytes) : bool :=
  let value := get_field h f in
  match value with [] => false | _ => token_loop (length value) value token end.

(** ** Refinement to a list of entries *)

(** The entries in arrival order. *)
Definition entries (h : headers_t) : list header_ref := map (at_ h) (seq 0 (Z.to_nat (size_ h))).

Definition bits_of (es : list header_ref) (tr : bool) (bm : Z) : Prop :=
  forall f, f <> Other ->
    Z.testbit bm (field_index f) = existsb (fun r => eqb (trailer r) tr && bool_decide (field r = f)) es.

(** How many entries are trailers ([tr = true]) or headers. *)
Fixpoint count_kind (tr : bool) (es : list header_ref) : Z :=
  match es with
  | [] => 0
  | r :: es => (if eqb (trailer r) tr then 1 else 0) + count_kind tr es
  end.

Record repr (h : headers_t) (es : list header_ref) : Prop := {
  rp_size : size_ h = Z.of_nat (length es);
  rp_small : size_ h < 2 ^ 32 - 1;
  rp_inline : length (inline_ h) = kInline;
  rp_front : forall i r, (i < kInline)%nat -> es !! i = Some r -> inline_ h !! i = Some r;
  rp_over : default [] (overflow_ h) = drop kInline es;
  rp_trailers : trailers_ h = count_kind true es;
  rp_bits : bits_of es false (bitmap_ h);
  rp_tbits : bits_of es true (trailer_bitmap_ h)
}.

Lemma at_repr h es i r : repr h es -> es !! i = Some r -> at_ h i = r.
Proof.
  intros H Hi. unfold at_. destruct (Nat.ltb_spec i kInline) as [Hlt|Hge].
  - by rewrite nth_lookup, (rp_front _ _ H _ _ Hlt Hi).
  - rewrite (rp_over _ _ H), nth_lookup, lookup_drop.
    by replace (kInline + (i - kInline))%nat with i by lia; rewrite Hi.
Qed.

Lemma scan_spec h es p i n :
  repr h es -> (i + n = length es)%nat ->
  scan h p i n = match List.find p (drop i es) with Some r => ref_value h r | None => [] end.
Proof.
  intros H. revert i. induction n as [|n IH]; intros i Hn; cbn [scan].
  { by rewrite drop_ge by lia. }
  destruct (lookup_lt_is_Some_2 es i) as [r Hr]; [lia|].
  rewrite (at_repr _ _ _ _ H Hr), (drop_S _ _ _ Hr). cbn [List.find].
  destruct (p r); [done|]. apply IH. lia.
Qed.

Lemma scan_all_spec h es p :
  repr h es -> scan_all h p = match List.find p es with Some r => ref_value h r | None => [] end.
Proof.
  intros H. unfold scan_all. rewrite (rp_size _ _ H), Nat2Z.id. by rewrite (scan_spec h es) by done.
Qed.

Lemma field_index_inj f g : field_index f = field_index g -> f = g.
Proof. by destruct f, g. Qed.

Lemma field_index_range f : 0 <= field_index f <= 24.
Proof. destruct f; simpl; lia. Qed.

Lemma testbit_field_bit f g : Z.testbit (field_bit f) (field_index g) = bool_decide (f = g).
Proof.
  unfold field_bit. rewrite Z.shiftl_1_l, Z.pow2_bits_eqb by apply field_index_range.
  destruct (Z.eqb_spec (field_index f) (field_index g)) as [E|E].
  - symmetry. apply bool_decide_eq_true. by apply field_index_inj.
  - symmetry. apply bool_decide_eq_false. congruence.
Qed.

(** [bitmap & (1 << f)] tests one bit. *)
Lemma land_field_bit bm f : negb ((bm &&& field_bit f) =? 0) = Z.testbit bm (field_index f).
Proof.
  pose proof (field_index_range f) as Hr. destruct (Z.eqb_spec (bm &&& field_bit f) 0) as [E|E]; simpl.
  - assert (Z.testbit (bm &&& field_bit f) (field_index f) = false) as H by (by rewrite E, Z.bits_0).
    rewrite Z.land_spec, testbit_field_bit, bool_decide_eq_true_2, andb_true_r in H by done. done.
  - destruct (Z.testbit bm (field_index f)) eqn:Hb; [done|]. destruct E. apply Z.bits_inj'. intros i Hi.
    rewrite Z.land_spec, Z.bits_0. unfold field_bit. rewrite Z.shiftl_1_l, Z.pow2_bits_eqb by lia.
    destruct (Z.eqb_spec (field_index f) i) as [<-|]; [by rewrite Hb|by rewrite andb_false_r].
Qed.

Lemma bits_add es tr bm r :
  bits_of es tr bm ->
  bits_of (es ++ [r]) tr
    (if negb (bool_decide (field r = Other)) && eqb (trailer r) tr then bm ||| field_bit (field r) else bm).
Proof.
  intros H f Hf. rewrite existsb_app. cbn [existsb]. rewrite orb_false_r, <- (H f Hf).
  destruct (eqb (trailer r) tr); [|by rewrite andb_false_r, orb_false_r].
  rewrite andb_true_r. simpl. case_bool_decide as E; simpl.
  - rewrite bool_decide_eq_false_2 by congruence. by rewrite orb_false_r.
  - by rewrite Z.lor_spec, testbit_field_bit.
Qed.

Lemma count_kind_app tr es fs : count_kind tr (es ++ fs) = count_kind tr es + count_kind tr fs.
Proof. induction es as [|r es IH]; simpl; [done|]. rewrite IH. lia. Qed.

Lemma count_kind_nonneg tr es : 0 <= count_kind tr es.
Proof. induction es as [|r es IH]; simpl; [done|]. destruct (eqb (trailer r) tr); lia. Qed.

Lemma count_kind_total es : count_kind true es + count_kind false es = Z.of_nat (length es).
Proof. induction es as [|r es IH]; [done|]. cbn [count_kind length]. destruct (trailer r); simpl; lia. Qed.

Lemma add_spec ref max h es :
  repr h es -> size_ h < 2 ^ 32 - 2 ->
  if max <=? count_kind (trailer ref) es then add ref max h = (h, Unexpected (http_error TooManyHeaders))
  else exists h', add ref max h = (h', Ok tt) /\ repr h' (es ++ [ref]) /\
         head_ h' = head_ h /\ spill_ h' = spill_ h.
Proof.
  intros H Hsz. destruct H as [Hs Hsm Hil Hf Ho Ht Hb Htb].
  pose proof (count_kind_total es). pose proof (count_kind_nonneg true es). pose proof (count_kind_nonneg false es).
  assert ((if trailer ref then trailers_ h else u32 (size_ h - trailers_ h)) = count_kind (trailer ref) es) as Hu.
  { destruct (trailer ref); [done|]. rewrite u32_small; lia. }
  unfold add. rewrite Hu. destruct (max <=? count_kind (trailer ref) es); [done|].
  eexists. split; [done|]. split; [|done].
  destruct (Z.ltb_spec (size_ h) (Z.of_nat kInline)) as [Hin|Hout]; split; simpl.
  all: try (rewrite length_app; simpl; rewrite ?u32_small by lia; lia).
  all: try (rewrite u32_small by lia; lia).
  all: try (rewrite ?length_insert; done).
  - intros i r Hi Hr. destruct (decide (i = length es)) as [->|Hne].
    + rewrite lookup_app_r, Nat.sub_diag in Hr by lia. simplify_eq/=.
      rewrite Hs, Nat2Z.id. apply list_lookup_insert_eq. lia.
    + pose proof (lookup_lt_Some _ _ _ Hr) as Hlt. rewrite length_app in Hlt. simpl in Hlt.
      rewrite lookup_app_l in Hr by lia. rewrite list_lookup_insert_ne by (rewrite Hs, Nat2Z.id; done). auto.
  - by rewrite Ho, !drop_ge by (rewrite ?length_app; simpl; lia).
  - rewrite count_kind_app, Ht. simpl. destruct (trailer ref); simpl; rewrite ?u32_small; lia.
  - pose proof (bits_add es false _ ref Hb) as E. by destruct (trailer ref).
  - pose proof (bits_add es true _ ref Htb) as E. by destruct (trailer ref).
  - intros i r Hi Hr. rewrite lookup_app_l in Hr by (unfold kInline in *; lia). auto.
  - rewrite drop_app_le by lia. rewrite <- Ho. by destruct (overflow_ h).
  - rewrite count_kind_app, Ht. simpl. destruct (trailer ref); simpl; rewrite ?u32_small; lia.
  - pose proof (bits_add es false _ ref Hb) as E. by destruct (trailer ref).
  - pose proof (bits_add es true _ ref Htb) as E. by destruct (trailer ref).
Qed.

Lemma clear_repr h es : repr h es -> repr (clear h) [].
Proof.
  intros [Hs Hsm Hil Hf Ho Ht Hb Htb]. split; simpl; try done; try lia.
  - destruct (overflow_ h); done.
  - intros f Hf'. by rewrite Z.bits_0.
  - intros f Hf'. by rewrite Z.bits_0.
Qed.

Lemma empty_repr : repr empty_headers [].
Proof. split; simpl; try done; intros f Hf; by rewrite Z.bits_0. Qed.

Lemma entries_repr h es : repr h es -> entries h = es.
Proof.
  intros H.
  unfold entries. rewrite (rp_size _ _ H), Nat2Z.id. apply list_eq. intros i.
  rewrite list_lookup_fmap. destruct (decide (i < length es)%nat) as [Hlt|Hge].
  - rewrite lookup_seq_lt by done. simpl. destruct (lookup_lt_is_Some_2 es i Hlt) as [r Hr].
    by rewrite (at_repr _ _ _ _ H Hr), Hr.
  - rewrite lookup_seq_ge, lookup_ge_None_2 by lia. done.
Qed.

(** the entry array refines a list. Starting from an empty or
    cleared section, an accepted [add] appends exactly its entry (inline or
    overflow alike) and keeps both bitmaps and both counts exact; it is
    refused, with no change, exactly when the entries of its own kind have
    reached the limit, so trailers never use up the headers' budget. *)
Theorem headers_add_refines h es ref max :
  repr h es -> size_ h < 2 ^ 32 - 2 ->
  entries h = es /\ repr (clear h) [] /\
  (if max <=? count_kind (trailer ref) es
   then add ref max h = (h, Unexpected (http_error TooManyHeaders))
   else exists h', add ref max h = (h', Ok tt) /\ repr h' (es ++ [ref]) /\
          head_ h' = head_ h /\ spill_ h' = spill_ h).
Proof.
  intros H Hs. split; [by apply entries_repr|]. split; [by eapply clear_repr|by apply add_spec].
Qed.

Definition sample_ref : header_ref := mk_ref 0 6 4 3 Host false false false.

Lemma headers_add_refines_witness :
  exists h', add sample_ref 1 empty_headers = (h', Ok tt) /\ repr h' [sample_ref].
Proof.
  destruct (headers_add_refines empty_headers [] sample_ref 1 empty_repr eq_refl) as (_ & _ & h' & E & H & _).
  exists h'. split; [exact E|exact H].
Defined.

(** ** Lookups against a reference *)

(** Every entry was filed under the field its name denotes. *)
Definition filed (h : headers_t) (es : list header_ref) : Prop :=
  Forall (fun r => field r = field_from_name (ref_name h r) /\ Forall is_byte (ref_name h r)) es.

(** The value of the first entry of the given kind with that name. *)
Definition lookup_ref (h : headers_t) (tr : bool) (name : bytes) (es : list header_ref) : bytes :=
  match List.find (fun r => eqb (trailer r) tr && iequals (ref_name h r) name) es with
  | Some r => ref_value h r
  | None => []
  end.

Lemma field_name_length p :
  field_from_name p <> Other -> length (field_name (field_from_name p)) = length p.
Proof.
  unfold field_from_name. destruct (length p) as [|n]; [done|].
  do 17 (destruct n as [|n]; [bool_destruct; intros ?; done|]). done.
Qed.

(** Equal folded names are filed alike, and conversely for a known field. *)
Lemma same_field a b :
  Forall is_byte a -> Forall is_byte b -> length b <> 17%nat ->
  bool_decide (field_from_name a = field_from_name b) &&
  (negb (bool_decide (field_from_name b = Other)) || iequals a b) = iequals a b.
Proof.
  intros Ha Hb Hl. rewrite iequals_fold. case_bool_decide as E; simpl.
  - destruct (bool_decide (field_from_name b = Other)) eqn:Eo; simpl; [done|].
    apply bool_decide_eq_false in Eo. symmetry. apply bool_decide_eq_true.
    assert (length a = length b) as Hlen by (rewrite <- (field_name_length a), E, field_name_length; congruence).
    rewrite (field_from_name_sound a), (field_from_name_sound b) by congruence. by rewrite E.
  - symmetry. apply bool_decide_eq_false. intros Hf. destruct E.
    by rewrite <- (field_from_name_fold a), <- (field_from_name_fold b), Hf.
Qed.

Lemma find_ext {A} (p q : A -> bool) l :
  Forall (fun x => p x = q x) l -> List.find p l = List.find q l.
Proof. induction 1 as [|x l Hx _ IH]; simpl; [done|]. by rewrite Hx, IH. Qed.

Lemma find_existsb {A} (p : A -> bool) l : existsb p l = false -> List.find p l = None.
Proof.
  induction l as [|x l IH]; simpl; [done|]. intros [Hx Hl]%orb_false_iff. by rewrite Hx, IH.
Qed.

(** A scan for a tracked field, guarded by its bitmap. *)
Lemma guarded_scan h es tr f bm :
  repr h es -> f <> Other -> bits_of es tr bm ->
  (if negb (negb (bool_decide (f = Other)) && negb ((bm &&& field_bit f) =? 0)) then []
   else scan_all h (fun r => (if tr then trailer r else negb (trailer r)) && bool_decide (field r = f))) =
  match List.find (fun r => eqb (trailer r) tr && bool_decide (field r = f)) es with
  | Some r => ref_value h r | None => [] end.
Proof.
  intros H Hf Hb. rewrite land_field_bit, Hb, bool_decide_eq_false_2 by done. cbn [negb andb].
  destruct (existsb _ es) eqn:E; cbn [negb].
  - rewrite scan_all_spec with (es := es) by done. erewrite find_ext; [done|].
    apply Forall_forall. intros r _. by destruct tr, (trailer r).
  - by rewrite find_existsb.
Qed.

Lemma get_name_spec h es name :
  repr h es -> filed h es -> Forall is_byte name -> length name <> 17%nat ->
  get_name h name = lookup_ref h false name es.
Proof.
  intros H Hfiled Hn Hl. unfold get_name, lookup_ref. destruct (decide (field_from_name name = Other)) as [E|E].
  - rewrite bool_decide_eq_true_2 by done. cbn [negb]. rewrite (scan_all_spec h es) by done.
    erewrite find_ext; [done|]. eapply Forall_impl; [exact Hfiled|]. intros r [Hr Hb]. simpl.
    rewrite <- (same_field _ _ Hb Hn Hl), Hr, !E, (bool_decide_eq_true_2 (Other = Other)) by done.
    by destruct (trailer r), (bool_decide _).
  - rewrite bool_decide_eq_false_2 by done. cbn [negb]. unfold get_field, has.
    rewrite (guarded_scan h es false) by (done || apply H).
    erewrite find_ext; [done|]. eapply Forall_impl; [exact Hfiled|]. intros r [Hr Hb]. simpl.
    rewrite <- (same_field _ _ Hb Hn Hl), Hr, (bool_decide_eq_false_2 (_ = Other)) by done.
    by rewrite orb_true_l, andb_true_r.
Qed.

Lemma no_trailers es p : count_kind true es = 0 -> List.find (fun r => eqb (trailer r) true && p r) es = None.
Proof.
  induction es as [|r es IH]; [done|]. cbn [count_kind List.find].
  pose proof (count_kind_nonneg true es). destruct (trailer r); simpl; [lia|]. apply IH.
Qed.

Lemma trailer_name_spec h es name :
  repr h es -> filed h es -> Forall is_byte name -> length name <> 17%nat ->
  trailer_name h name = lookup_ref h true name es.
Proof.
  intros H Hfiled Hn Hl. unfold trailer_name, lookup_ref.
  destruct (Z.eqb_spec (trailers_ h) 0) as [E0|_].
  { rewrite no_trailers; [done|]. by rewrite <- (rp_trailers _ _ H). }
  destruct (decide (field_from_name name = Other)) as [E|E].
  - rewrite bool_decide_eq_true_2 by done. cbn [negb]. rewrite (scan_all_spec h es) by done.
    erewrite find_ext; [done|]. eapply Forall_impl; [exact Hfiled|]. intros r [Hr Hb]. simpl.
    rewrite <- (same_field _ _ Hb Hn Hl), Hr, !E, (bool_decide_eq_true_2 (Other = Other)) by done.
    by destruct (trailer r), (bool_decide _).
  - rewrite bool_decide_eq_false_2 by done. cbn [negb]. unfold trailer_field, has_trailer.
    rewrite (guarded_scan h es true) by (done || apply H).
    erewrite find_ext; [done|]. eapply Forall_impl; [exact Hfiled|]. intros r [Hr Hb]. simpl.
    rewrite <- (same_field _ _ Hb Hn Hl), Hr, (bool_decide_eq_false_2 (_ = Other)) by done.
    by rewrite orb_true_l, andb_true_r.
Qed.

(** a lookup by name, through the recogniser, the bitmaps and the
    guarded scans, returns the value of the first header with that name up
    to case, and a trailer lookup the first trailer: neither kind ever
    answers for the other. *)
Theorem headers_lookup_reference h es name :
  repr h es -> filed h es -> Forall is_byte name -> length name <> 17%nat ->
  get_name h name = lookup_ref h false name es /\ trailer_name h name = lookup_ref h true name es.
Proof. intros. split; [by apply get_name_spec|by apply trailer_name_spec]. Qed.

(** A two-header, one-trailer section over one buffer. *)
Definition sample_head : Head.head_buffer_t :=
  Head.mk_head (Some (str "host: a.b x-k: v1  Etag: z")) 0 26 true.
Definition sample_refs : list header_ref :=
  [mk_ref 0 6 4 3 Host false false false; mk_ref 10 15 3 2 Other false false false;
   mk_ref 19 25 4 1 ETag false false true].
Definition sample_headers : headers_t :=
  fold_left (fun h r => (add r 8 h).1) sample_refs (bind sample_head Spill.init empty_headers).

Lemma sample_repr : repr sample_headers sample_refs.
Proof.
  split; try reflexivity.
  - intros i r Hi Hr. do 3 (destruct i as [|i]; [simplify_eq/=; reflexivity|]). done.
  - intros f Hf. by destruct f; vm_compute.
  - intros f Hf. by destruct f; vm_compute.
Qed.

Lemma headers_lookup_reference_witness :
  get_name sample_headers (str "X-K") = str "v1" /\ get_name sample_headers (str "etag") = [] /\
  trailer_name sample_headers (str "etag") = str "z".
Proof.
  assert (filed sample_headers sample_refs) as Hf.
  { repeat (apply Forall_cons; split; [split; [reflexivity|]|]); [..|constructor];
      apply (bool_decide_unpack _); reflexivity. }
  destruct (headers_lookup_reference _ _ (str "X-K") sample_repr Hf (str_bytes _) ltac:(vm_compute; congruence)) as [E1 _].
  destruct (headers_lookup_reference _ _ (str "etag") sample_repr Hf (str_bytes _) ltac:(vm_compute; congruence)) as [E2 E3].
  rewrite E1, E2, E3. repeat split; reflexivity.
Defined.

(** ** Token lists *)

(** The comma-separated pieces of a value. *)
Fixpoint split_comma (v : bytes) : list bytes :=
  match v with
  | [] => [[]]
  | c :: v => if c =? 44 then [] :: split_comma v
              else match split_comma v with p :: ps => (c :: p) :: ps | [] => [[c]] end
  end.

Lemma cut_split v :
  split_comma v = let '(p, r) := cut_comma v in p :: match r with Some v => split_comma v | None => [] end.
Proof.
  induction v as [|c v IH]; simpl; [done|]. destruct (c =? 44); [done|]. rewrite IH.
  by destruct (cut_comma v).
Qed.

Lemma cut_shorter v p r : cut_comma v = (p, Some r) -> (length r < length v)%nat.
Proof.
  revert p. induction v as [|c v IH]; intros p; simpl; [done|]. destruct (c =? 44).
  - intros [= <- <-]. lia.
  - destruct (cut_comma v) as [p' r'] eqn:E. intros [= <- ->]. specialize (IH _ eq_refl). lia.
Qed.

Lemma token_loop_spec fuel v token :
  (length v <= fuel)%nat -> token <> [] ->
  token_loop fuel v token = existsb (fun p => iequals (trim p) token) (split_comma v).
Proof.
  intros Hf Ht. revert v Hf. induction fuel as [|fuel IH]; intros v Hf.
  - destruct v; [|simpl in Hf; lia]. simpl. by destruct token.
  - cbn [token_loop]. destruct v as [|c v].
    { simpl. by destruct token. }
    rewrite cut_split. destruct (cut_comma (c :: v)) as [p [r|]] eqn:E; cbn [existsb].
    + destruct (iequals (trim p) token); [done|]. simpl. apply IH. apply cut_shorter in E. simpl in *. lia.
    + by destruct (iequals (trim p) token).
Qed.

(** [contains_token] holds exactly when some comma-separated piece of
    the field's value, trimmed of spaces and tabs, is the token up to case. *)
Theorem contains_token_reference h f token :
  token <> [] ->
  contains_token h f token = existsb (fun p => iequals (trim p) token) (split_comma (get_field h f)).
Proof.
  intros Ht. unfold contains_token. destruct (get_field h f) as [|c v] eqn:E.
  - simpl. by destruct token.
  - by rewrite token_loop_spec.
Qed.

Lemma contains_token_reference_witness :
  contains_token sample_headers Host (str "A.B") = true.
Proof. rewrite (contains_token_reference sample_headers Host (str "A.B")); [reflexivity|discriminate]. Defined.
