(* ===== verification/Parser.v ===== *)
(** * The HTTP parser

    src/include/cornet/http/common/parser.h and src/src/http/common/parser.cc:
    the callbacks that llhttp drives, which record header names and values as
    offsets into the receive buffer or copies in the spill buffer, and the
    feeding of llhttp window by window.

    llhttp itself is a submodule and a parameter.  One run of
    [llhttp_execute] is the finite tree of the callbacks it makes, each
    branching on what the callback returns, and ending in an error number and
    an error position; pointers into the receive buffer are offsets. *)

From stdpp Require Import prelude list list_numbers strings.
From Stdlib Require Import ZArith Lia.
From S2P Require Import Prelude Protocol Buffer Headers.
Open Scope Z_scope.

(** ** What llhttp shows *)

(** The enumerators of [llhttp_method_t] the table names, and the others. *)
Inductive ll_method :=
| HTTP_DELETE | HTTP_GET | HTTP_HEAD | HTTP_POST | HTTP_PUT | HTTP_CONNECT | HTTP_OPTIONS
| HTTP_TRACE | HTTP_PATCH | HTTP_OTHER.

Definition method_from_raw (raw : ll_method) : method_t :=
  match raw with
  | HTTP_DELETE => Delete
  | HTTP_GET => Get
  | HTTP_HEAD => Protocol.Head
  | HTTP_POST => Post
  | HTTP_PUT => Put
  | HTTP_CONNECT => Connect
  | HTTP_OPTIONS => Options
  | HTTP_TRACE => Trace
  | HTTP_PATCH => Patch
  | HTTP_OTHER => MUnknown
  end.

(** The fields and getters of [llhttp_t] that the callbacks read. *)
Record ll_view := mk_llv {
  ll_trailing : bool;          (* p->flags & F_TRAILING *)
  ll_get_method : ll_method;
  ll_status_code : Z;
  ll_major : Z;
  ll_minor : Z;
  ll_should_keep_alive : bool;
  ll_upgrade : bool;
  ll_content_length : Z
}.

Definition in_trailer (v : ll_view) : bool := ll_trailing v.

Inductive ll_callback :=
| OnMessageBegin
| OnUrl (at_ n : Z)
| OnStatus (at_ n : Z)
| OnHeaderField (at_ n : Z)
| OnHeaderFieldComplete
| OnHeaderValue (at_ n : Z)
| OnHeaderValueComplete
| OnHeadersComplete
| OnBody (at_ n : Z)
| OnMessageComplete.

#[global] Instance ll_callback_eq_dec : EqDecision ll_callback.
Proof. solve_decision. Defined.

(** The integers the callbacks return: 0, -1, 1 and [HPE_PAUSED]. *)
Inductive cb_ret := RetOk | RetFail | RetNoBody | RetPaused.

Inductive ll_errno := HPE_OK | HPE_PAUSED | HPE_PAUSED_UPGRADE | HPE_OTHER (code : Z).

(** A run of [llhttp_execute] or [llhttp_finish]. *)
Inductive ll_run (L : Type) :=
| LReturn (err : ll_errno) (error_pos : option Z) (l : L)
| LCall (c : ll_callback) (v : ll_view) (k : cb_ret -> ll_run L).
Arguments LReturn {L}. Arguments LCall {L}.

Record llhttp_ops (L : Type) := mk_llhttp {
  llhttp_execute : L -> Z -> bytes -> ll_run L;
  llhttp_finish : L -> ll_run L;
  llhttp_resume : L -> L;
  llhttp_resume_after_upgrade : L -> L;
  llhttp_reset : L -> L;
  llhttp_set_lenient : bool -> bool -> bool -> L -> L;
  ll_code : ll_errno -> Z
}.
Arguments llhttp_execute {L}. Arguments llhttp_finish {L}. Arguments llhttp_resume {L}.
Arguments llhttp_resume_after_upgrade {L}. Arguments llhttp_reset {L}.
Arguments llhttp_set_lenient {L}. Arguments ll_code {L}.

(** ** State *)

Inductive type_t := Request | Response.

#[global] Instance type_t_eq_dec : EqDecision type_t.
Proof. solve_decision. Defined.

Inductive result_t := NeedMore | HeadersReady | MessageReady | BodyPaused | UpgradeReady | PError.

Record parser_limits_t := mk_limits {
  max_headers : Z; max_trailers : Z; max_body_bytes : Z;
  lenient_headers : bool; lenient_chunked_length : bool; lenient_keep_alive : bool
}.

Definition default_limits : parser_limits_t := mk_limits 64 0 (8 <<< 20) false false false.

(** The three bound buffers, which the connection shares with the parser. *)
Record store_t := mk_store {
  head_ : Head.head_buffer_t; spill_ : Spill.spill_buffer_t; headers_ : headers_t
}.

(** The header being assembled. *)
Record pend_t := mk_pend { pending_ : header_ref; pending_valid_ : bool; skip_trailer_ : bool }.

Record target_t := mk_target { target_off_ : Z; target_len_ : Z; target_spilled_ : bool }.

Record facts_t := mk_facts {
  method_ : method_t; version_ : version_t; status_code_ : Z;
  has_content_length_ : bool; content_length_ : Z; chunked_ : bool;
  keep_alive_ : bool; upgrade_ : bool; expects_continue_ : bool
}.

Record signals_t := mk_signals { headers_signal_ : bool; message_done_ : bool; body_paused_ : bool }.

Record body_t := mk_bodyt {
  body_sink_ : option Body.body_buffer_t;
  body_run_ : option (Z * Z);
  body_received_ : Z
}.

(** The feed window, [None] while null, and the accounting of what was fed. *)
Record feed_t := mk_feed {
  feed_ : option (Z * Z); consumed_ : Z; consumed_offset_ : Z; zero_fed_ : bool
}.

Record parser_t (L : Type) := mk_parser {
  state_ : L;
  type_ : type_t;
  limits_ : parser_limits_t;
  response_to_ : method_t;
  store_ : option store_t;
  pend_ : pend_t;
  target_ : target_t;
  facts_ : facts_t;
  signals_ : signals_t;
  body_ : body_t;
  feedst_ : feed_t;
  error_ : error_t
}.
Arguments mk_parser {L}. Arguments state_ {L}. Arguments type_ {L}. Arguments limits_ {L}.
Arguments response_to_ {L}. Arguments store_ {L}. Arguments pend_ {L}. Arguments target_ {L}.
Arguments facts_ {L}. Arguments signals_ {L}. Arguments body_ {L}. Arguments feedst_ {L}.
Arguments error_ {L}.

Definition no_pend : pend_t := mk_pend blank_ref false false.
Definition no_target : target_t := mk_target 0 0 false.
Definition no_facts : facts_t := mk_facts MUnknown VUnknown 0 false 0 false true false false.
Definition no_signals : signals_t := mk_signals false false false.

Section Setters.
Context {L : Type}.
Implicit Types p : parser_t L.

Definition set_state p (l : L) : parser_t L :=
  mk_parser l (type_ p) (limits_ p) (response_to_ p) (store_ p) (pend_ p) (target_ p) (facts_ p)
    (signals_ p) (body_ p) (feedst_ p) (error_ p).
Definition set_store p (s : store_t) : parser_t L :=
  mk_parser (state_ p) (type_ p) (limits_ p) (response_to_ p) (Some s) (pend_ p) (target_ p)
    (facts_ p) (signals_ p) (body_ p) (feedst_ p) (error_ p).
Definition set_pend p (q : pend_t) : parser_t L :=
  mk_parser (state_ p) (type_ p) (limits_ p) (response_to_ p) (store_ p) q (target_ p) (facts_ p)
    (signals_ p) (body_ p) (feedst_ p) (error_ p).
Definition set_target p (t : target_t) : parser_t L :=
  mk_parser (state_ p) (type_ p) (limits_ p) (response_to_ p) (store_ p) (pend_ p) t (facts_ p)
    (signals_ p) (body_ p) (feedst_ p) (error_ p).
Definition set_facts p (f : facts_t) : parser_t L :=
  mk_parser (state_ p) (type_ p) (limits_ p) (response_to_ p) (store_ p) (pend_ p) (target_ p) f
    (signals_ p) (body_ p) (feedst_ p) (error_ p).
Definition set_signals p (s : signals_t) : parser_t L :=
  mk_parser (state_ p) (type_ p) (limits_ p) (response_to_ p) (store_ p) (pend_ p) (target_ p)
    (facts_ p) s (body_ p) (feedst_ p) (error_ p).
Definition set_body p (b : body_t) : parser_t L :=
  mk_parser (state_ p) (type_ p) (limits_ p) (response_to_ p) (store_ p) (pend_ p) (target_ p)
    (facts_ p) (signals_ p) b (feedst_ p) (error_ p).
Definition set_feed p (f : feed_t) : parser_t L :=
  mk_parser (state_ p) (type_ p) (limits_ p) (response_to_ p) (store_ p) (pend_ p) (target_ p)
    (facts_ p) (signals_ p) (body_ p) f (error_ p).
Definition set_error p (e : error_t) : parser_t L :=
  mk_parser (state_ p) (type_ p) (limits_ p) (response_to_ p) (store_ p) (pend_ p) (target_ p)
    (facts_ p) (signals_ p) (body_ p) (feedst_ p) e.
End Setters.

(** [headers_] as read now: its pointers see the current buffers. *)
Definition live (s : store_t) : headers_t := Headers.bind (head_ s) (spill_ s) (headers_ s).

Definition set_head (s : store_t) (h : Head.head_buffer_t) : store_t := mk_store h (spill_ s) (headers_ s).
Definition set_spill (s : store_t) (sp : Spill.spill_buffer_t) : store_t := mk_store (head_ s) sp (headers_ s).
Definition set_headers (s : store_t) (hs : headers_t) : store_t := mk_store (head_ s) (spill_ s) hs.

(** ** Header accumulation *)

(** Where a name or value lives: offset, length, in the spill buffer or not. *)
Record span_t := mk_span { sp_off : Z; sp_len : Z; sp_spilled : bool }.

(** [accumulate]: the run is [n] bytes at offset [at_] of the head buffer;
    [None] when a copy leaves the spill buffer's array. *)
Definition accumulate (s : store_t) (a : span_t) (at_ n : Z) (allow_spill must_copy : bool)
    : option (store_t * span_t * expected unit) :=
  let d := Head.view (head_ s) at_ n in
  if n =? 0 then Some (s, a, Ok tt)
  else if sp_len a =? 0 then
    if sp_spilled a || must_copy then
      match Spill.put d (spill_ s) with
      | Some (sp, Ok o) => Some (set_spill s sp, mk_span o (u16 n) true, Ok tt)
      | Some (sp, Unexpected e) => Some (set_spill s sp, mk_span (sp_off a) (sp_len a) true, Unexpected e)
      | None => None
      end
    else Some (s, mk_span (u32 at_) (u16 n) false, Ok tt)
  else if negb (sp_spilled a) && (u32 (sp_off a + sp_len a) =? u32 at_) then
    if 0xffff <? sp_len a + n then Some (s, a, Unexpected (http_error HeaderTooLarge))
    else Some (s, mk_span (sp_off a) (u16 (sp_len a + n)) false, Ok tt)
  else if negb (sp_spilled a) && negb allow_spill then Some (s, a, Unexpected (http_error HeaderTooLarge))
  else
    match (if sp_spilled a then Some (spill_ s, Ok (sp_off a))
           else Spill.put (Head.view (head_ s) (sp_off a) (sp_len a)) (spill_ s)) with
    | None => None
    | Some (sp, Unexpected e) => Some (set_spill s sp, a, Unexpected e)
    | Some (sp, Ok o) =>
        match Spill.extend d sp with
        | None => None
        | Some (sp, Unexpected e) => Some (set_spill s sp, mk_span o (sp_len a) true, Unexpected e)
        | Some (sp, Ok _) =>
            if 0xffff <? sp_len a + n
            then Some (set_spill s sp, mk_span o (sp_len a) true, Unexpected (http_error HeaderTooLarge))
            else Some (set_spill s sp, mk_span o (u16 (sp_len a + n)) true, Ok tt)
        end
    end.

Definition name_span (r : header_ref) : span_t := mk_span (name_off r) (name_len r) (name_spilled r).
Definition value_span (r : header_ref) : span_t := mk_span (value_off r) (value_len r) (spilled r).
Definition set_name_span (r : header_ref) (a : span_t) : header_ref :=
  mk_ref (sp_off a) (value_off r) (sp_len a) (value_len r) (field r) (spilled r) (sp_spilled a) (trailer r).
Definition set_value_span (r : header_ref) (a : span_t) : header_ref :=
  mk_ref (name_off r) (sp_off a) (name_len r) (sp_len a) (field r) (sp_spilled a) (name_spilled r) (trailer r).
Definition set_trailer (r : header_ref) (b : bool) : header_ref :=
  mk_ref (name_off r) (value_off r) (name_len r) (value_len r) (field r) (spilled r) (name_spilled r) b.
Definition set_field (r : header_ref) (f : field_t) : header_ref :=
  mk_ref (name_off r) (value_off r) (name_len r) (value_len r) f (spilled r) (name_spilled r) (trailer r).

(** [finish_header]. *)
Definition finish_header (lim : parser_limits_t) (s : store_t) (q : pend_t) : store_t * pend_t * expected unit :=
  if negb (pending_valid_ q) then (s, q, Ok tt)
  else
    let entry := pending_ q in
    let q := mk_pend blank_ref false (skip_trailer_ q) in
    if trailer entry then
      if max_trailers lim <=? trailers_ (headers_ s) then (s, q, Ok tt)
      else if field_forbidden_in_trailer (field entry) then (s, q, Ok tt)
      else (set_headers s (fst (add entry (max_trailers lim) (headers_ s))), q, Ok tt)
    else
      let '(hs, r) := add entry (max_headers lim) (headers_ s) in
      (set_headers s hs, q, r).

(** How many header entries are Host: the scan in [on_headers_complete]. *)
Definition host_count (h : headers_t) : nat :=
  length (List.filter (fun r => negb (trailer r) && bool_decide (field r = Host))
            (map (at_ h) (seq 0 (Z.to_nat (size_ h))))).

(** ** Callbacks

    Each returns the new state and the integer handed to llhttp; [None] is a
    null buffer or a copy outside its block. *)

Section Parser.
Context {L : Type} (ops : llhttp_ops L).
Implicit Types p : parser_t L.

Definition on_message_begin p : option (parser_t L * cb_ret) :=
  match store_ p with
  | None => None
  | Some s =>
      let s := set_headers s (Headers.clear (headers_ s)) in
      let p := set_pend p no_pend in
      let p := set_target p no_target in
      let p := set_body p (mk_bodyt (body_sink_ (body_ p)) (body_run_ (body_ p)) 0) in
      let p := set_signals p (mk_signals false false (body_paused_ (signals_ p))) in
      Some (set_store p (set_head s (Head.begin_message (head_ s))), RetOk)
  end.

Definition on_url p (at_ n : Z) : option (parser_t L * cb_ret) :=
  match store_ p with
  | None => None
  | Some s =>
      let t := target_ p in
      match accumulate s (mk_span (target_off_ t) (target_len_ t) (target_spilled_ t)) at_ n true false with
      | None => None
      | Some (s, a, r) =>
          let p := set_target (set_store p s) (mk_target (sp_off a) (sp_len a) (sp_spilled a)) in
          match r with
          | Ok _ => Some (p, RetOk)
          | Unexpected e => Some (set_error p e, RetFail)
          end
      end
  end.

(** A trailer that cannot be kept: swallow the rest of it. *)
Definition drop_trailer p : parser_t L := set_pend p (mk_pend blank_ref false true).

Definition ignored p (v : ll_view) : bool :=
  in_trailer v && ((max_trailers (limits_ p) =? 0) || skip_trailer_ (pend_ p)).

Definition on_header_field p (v : ll_view) (at_ n : Z) : option (parser_t L * cb_ret) :=
  let trailer := in_trailer v in
  if ignored p v then Some (p, RetOk)
  else
    match store_ p with
    | None => None
    | Some s =>
        let q := pend_ p in
        match accumulate s (name_span (pending_ q)) at_ n trailer trailer with
        | None => None
        | Some (s, a, r) =>
            let p := set_store p s in
            let e := set_name_span (pending_ q) a in
            match r with
            | Unexpected err =>
                if trailer then Some (drop_trailer p, RetOk)
                else Some (set_error (set_pend p (mk_pend e (pending_valid_ q) (skip_trailer_ q))) err, RetFail)
            | Ok _ => Some (set_pend p (mk_pend (set_trailer e trailer) true (skip_trailer_ q)), RetOk)
            end
        end
    end.

Definition on_header_field_complete p : option (parser_t L * cb_ret) :=
  let q := pend_ p in
  if negb (pending_valid_ q) then Some (p, RetOk)
  else
    match store_ p with
    | None => None
    | Some s =>
        let r := pending_ q in
        let name := if name_spilled r then Spill.view (spill_ s) (name_off r) (name_len r)
                    else Head.view (head_ s) (name_off r) (name_len r) in
        Some (set_pend p (mk_pend (set_field r (field_from_name name)) true (skip_trailer_ q)), RetOk)
    end.

Definition on_header_value p (v : ll_view) (at_ n : Z) : option (parser_t L * cb_ret) :=
  let trailer := in_trailer v in
  if ignored p v then Some (p, RetOk)
  else
    match store_ p with
    | None => None
    | Some s =>
        let q := pend_ p in
        match accumulate s (value_span (pending_ q)) at_ n true trailer with
        | None => None
        | Some (s, a, r) =>
            let p := set_store p s in
            let e := set_value_span (pending_ q) a in
            match r with
            | Unexpected err =>
                if trailer then Some (drop_trailer p, RetOk)
                else Some (set_error (set_pend p (mk_pend e (pending_valid_ q) (skip_trailer_ q))) err, RetFail)
            | Ok _ => Some (set_pend p (mk_pend e (pending_valid_ q) (skip_trailer_ q)), RetOk)
            end
        end
    end.

Definition on_header_value_complete p : option (parser_t L * cb_ret) :=
  match store_ p with
  | None => None
  | Some s =>
      let q := mk_pend (pending_ (pend_ p)) (pending_valid_ (pend_ p)) false in
      let '(s, q, r) := finish_header (limits_ p) s q in
      let p := set_pend (set_store p s) q in
      match r with
      | Ok _ => Some (p, RetOk)
      | Unexpected e => Some (set_error p e, RetFail)
      end
  end.

Definition headers_end_message p (status : Z) : bool :=
  match type_ p with
  | Request => false
  | Response => status_forbids_body status || bool_decide (response_to_ p = Protocol.Head)
  end.

Definition on_headers_complete p (v : ll_view) : option (parser_t L * cb_ret) :=
  match store_ p with
  | None => None
  | Some s =>
      let h := live s in
      let version :=
        if (ll_major v =? 1) && (ll_minor v =? 1) then Http11
        else if (ll_major v =? 1) && (ll_minor v =? 0) then Http10 else VUnknown in
      let f := mk_facts (method_from_raw (ll_get_method v)) version (u16 (ll_status_code v))
                 (has h ContentLength) (ll_content_length v)
                 (contains_token h TransferEncoding (str "chunked")) (ll_should_keep_alive v)
                 (ll_upgrade v) (contains_token h Expect (str "100-continue")) in
      let p := set_facts p f in
      let sg := signals_ p in
      let signalled := set_signals p (mk_signals true (message_done_ sg) (body_paused_ sg)) in
      let bad e := Some (set_error p (http_error e), RetFail) in
      if bool_decide (type_ p = Request) && bool_decide (version = Http11) && negb (has h Host) then bad BadHeader
      else if bool_decide (type_ p = Request) && has h Host && (1 <? host_count h)%nat then bad BadHeader
      else if has_content_length_ f && (max_body_bytes (limits_ p) <? content_length_ f) then bad BodyTooLarge
      else if headers_end_message p (status_code_ f) then Some (signalled, RetNoBody)
      else Some (signalled, RetPaused)
  end.

Definition on_body p (at_ n : Z) : option (parser_t L * cb_ret) :=
  let b := body_ p in
  let received := u64 (body_received_ b + n) in
  let p := set_body p (mk_bodyt (body_sink_ b) (body_run_ b) received) in
  if max_body_bytes (limits_ p) <? received then Some (set_error p (http_error BodyTooLarge), RetFail)
  else
    match store_ p with
    | None => None
    | Some s =>
        match body_sink_ b with
        | Some sink =>
            match Body.append (Head.view (head_ s) at_ (u32 n)) sink with
            | None => None
            | Some (sink, r) =>
                let p := set_body p (mk_bodyt (Some sink) (body_run_ b) received) in
                match r with
                | Ok _ => Some (p, RetOk)
                | Unexpected e => Some (set_error p e, RetFail)
                end
            end
        | None =>
            let sg := signals_ p in
            Some (set_signals (set_body p (mk_bodyt None (Some (at_, u32 n)) received))
                    (mk_signals (headers_signal_ sg) (message_done_ sg) true), RetPaused)
        end
    end.

Definition on_message_complete p : option (parser_t L * cb_ret) :=
  let sg := signals_ p in
  Some (set_signals p (mk_signals (headers_signal_ sg) true (body_paused_ sg)), RetPaused).

(** The settings table. *)
Definition callback (c : ll_callback) (v : ll_view) p : option (parser_t L * cb_ret) :=
  match c with
  | OnMessageBegin => on_message_begin p
  | OnUrl a n => on_url p a n
  | OnStatus _ _ => Some (p, RetOk)
  | OnHeaderField a n => on_header_field p v a n
  | OnHeaderFieldComplete => on_header_field_complete p
  | OnHeaderValue a n => on_header_value p v a n
  | OnHeaderValueComplete => on_header_value_complete p
  | OnHeadersComplete => on_headers_complete p v
  | OnBody a n => on_body p a n
  | OnMessageComplete => on_message_complete p
  end.

(** ** Driving llhttp *)

(** One run of llhttp with these callbacks. *)
Fixpoint drive (t : ll_run L) p : option (parser_t L * ll_errno * option Z) :=
  match t with
  | LReturn err pos l => Some (set_state p l, err, pos)
  | LCall c v k => match callback c v p with Some (p, r) => drive (k r) p | None => None end
  end.

Definition make (l : L) (t : type_t) : parser_t L :=
  mk_parser (llhttp_set_lenient ops false false false l) t default_limits MUnknown None no_pend no_target
    no_facts no_signals (mk_bodyt None None 0) (mk_feed None 0 0 false) no_error.

Definition bind (head : Head.head_buffer_t) (spill : Spill.spill_buffer_t) (hs : headers_t) p : parser_t L :=
  set_feed (set_store p (mk_store head spill (Headers.bind head spill hs)))
    (mk_feed None (consumed_ (feedst_ p)) 0 (zero_fed_ (feedst_ p))).

Definition set_limits (lim : parser_limits_t) p : parser_t L :=
  mk_parser (llhttp_set_lenient ops (lenient_headers lim) (lenient_chunked_length lim) (lenient_keep_alive lim) (state_ p))
    (type_ p) lim (response_to_ p) (store_ p) (pend_ p) (target_ p) (facts_ p) (signals_ p) (body_ p) (feedst_ p) (error_ p).

Definition end_message p : parser_t L :=
  match store_ p with
  | Some s => set_store p (set_head s (Head.end_message (head_ s)))
  | None => p
  end.

Definition reset p : parser_t L :=
  let s := match store_ p with
           | Some s => Some (mk_store (Head.end_message (head_ s)) (Spill.clear (spill_ s)) (headers_ s))
           | None => None
           end in
  mk_parser (llhttp_reset ops (state_ p)) (type_ p) (limits_ p) (response_to_ p) s no_pend no_target
    no_facts no_signals (mk_bodyt (body_sink_ (body_ p)) None 0)
    (mk_feed (feed_ (feedst_ p)) 0 (consumed_offset_ (feedst_ p)) false) no_error.

Definition target p : bytes :=
  let t := target_ p in
  if target_len_ t =? 0 then []
  else match store_ p with
       | Some s => if target_spilled_ t then Spill.view (spill_ s) (target_off_ t) (target_len_ t)
                   else Head.view (head_ s) (target_off_ t) (target_len_ t)
       | None => []
       end.

Definition mid_header p : bool :=
  let q := pend_ p in
  let r := pending_ q in
  (pending_valid_ q && (0 <? name_len r) && negb (name_spilled r)) || ((0 <? value_len r) && negb (spilled r)).

(** The feed window [[pos, end_)] moved up to [x], and the counts with it. *)
Definition advance_to p (pos end_ x : Z) : parser_t L :=
  let fd := feedst_ p in
  set_feed p (mk_feed (Some (x, end_)) (u32 (consumed_ fd + u32 (x - pos))) (u32 x) (zero_fed_ fd)).

Definition latch_error p (err : ll_errno) : parser_t L :=
  if is_error (error_ p) then p else set_error p (Error (ll_code ops err) DHttp).

(** What [pump] makes of the way llhttp stopped. *)
Definition classify p (pos end_ : Z) (err : ll_errno) (stop : option Z) : parser_t L * result_t :=
  match err with
  | HPE_OK => (advance_to p pos end_ end_, NeedMore)
  | HPE_PAUSED =>
      let p := advance_to p pos end_ (default pos stop) in
      let p := set_state p (llhttp_resume ops (state_ p)) in
      if message_done_ (signals_ p) then (end_message p, if upgrade_ (facts_ p) then UpgradeReady else MessageReady)
      else if headers_signal_ (signals_ p) then (p, HeadersReady)
      else if body_paused_ (signals_ p) then (p, BodyPaused)
      else (set_error p (Error (ll_code ops HPE_PAUSED) DHttp), PError)
  | HPE_PAUSED_UPGRADE =>
      let p := advance_to p pos end_ (default pos stop) in
      (set_state p (llhttp_resume_after_upgrade ops (state_ p)), UpgradeReady)
  | HPE_OTHER _ => (latch_error p err, PError)
  end.

(** [pump] on the window [[pos, end_)]. *)
Definition pump p : option (parser_t L * result_t) :=
  let fd := feedst_ p in
  match feed_ fd, store_ p with
  | Some (pos, end_), Some s =>
      let empty := end_ <=? pos in
      if empty && zero_fed_ fd then
        Some (set_feed p (mk_feed (feed_ fd) (consumed_ fd) (u32 pos) true), NeedMore)
      else
        let p := set_feed p (mk_feed (feed_ fd) (consumed_ fd) (consumed_offset_ fd) empty) in
        let p := set_signals p no_signals in
        match drive (llhttp_execute ops (state_ p) pos (Head.view (head_ s) pos (end_ - pos))) p with
        | None => None
        | Some (p, err, stop) => Some (classify p pos end_ err stop)
        end
  | _, _ => None
  end.

Definition execute (off len : Z) p : option (parser_t L * result_t) :=
  match store_ p with
  | None => Some (set_error p (http_error InvalidState), PError)
  | Some _ =>
      let fd := feedst_ p in
      pump (set_feed p (mk_feed (Some (off, off + len)) (consumed_ fd) (consumed_offset_ fd) false))
  end.

Definition resume p : option (parser_t L * result_t) :=
  match store_ p with
  | None => Some (set_error p (http_error InvalidState), PError)
  | Some _ => pump p
  end.

Definition finish p : option (parser_t L * result_t) :=
  match drive (llhttp_finish ops (state_ p)) p with
  | None => None
  | Some (p, err, _) =>
      match err with
      | HPE_OK => Some (end_message p, MessageReady)
      | HPE_PAUSED =>
          if message_done_ (signals_ p)
          then Some (end_message (set_state p (llhttp_resume ops (state_ p))), MessageReady)
          else Some (latch_error p err, PError)
      | _ => Some (latch_error p err, PError)
      end
  end.

End Parser.

(** ** What a span denotes *)

Definition store_ok (s : store_t) : Prop := Head.ok (head_ s) /\ Spill.ok (spill_ s).

(** [a] locates the bytes [l]. *)
Definition spells (s : store_t) (a : span_t) (l : bytes) : Prop :=
  sp_len a = size l /\ size l < 2 ^ 16 /\
  (l <> [] ->
   if sp_spilled a
   then 0 <= sp_off a /\ sp_off a + sp_len a <= Spill.used_ (spill_ s) /\
        Spill.view (spill_ s) (sp_off a) (sp_len a) = l
   else 0 <= sp_off a /\ sp_off a + sp_len a <= Head.w_ (head_ s) /\
        Head.view (head_ s) (sp_off a) (sp_len a) = l).

(** A spilled run that can still be extended is the last one. *)
Definition at_tail (s : store_t) (a : span_t) : Prop :=
  sp_spilled a = true -> sp_len a <> 0 -> sp_off a + sp_len a = Spill.used_ (spill_ s).

(** Not a view into the receive buffer. *)
Definition detached (a : span_t) : Prop := sp_len a = 0 \/ sp_spilled a = true.

(** A run llhttp reports: received bytes, less than 2 GiB of them. *)
Definition run_ok (s : store_t) (at_ n : Z) : Prop :=
  0 <= at_ /\ 0 <= n < 2 ^ 31 /\ at_ + n <= Head.w_ (head_ s).

Definition spill_grows (x y : Spill.spill_buffer_t) : Prop :=
  Spill.ok y /\ Spill.used_ x <= Spill.used_ y /\
  forall o n, 0 <= o -> 0 <= n -> o + n <= Spill.used_ x -> Spill.view y o n = Spill.view x o n.

Lemma spill_grows_refl x : Spill.ok x -> spill_grows x x.
Proof. intros H. split; [done|]. split; [lia|done]. Qed.

Lemma spill_grows_trans x y z : spill_grows x y -> spill_grows y z -> spill_grows x z.
Proof.
  intros (_ & H1 & V1) (Hz & H2 & V2). split_and!; [done|lia|]. intros. rewrite V2, V1 by lia. done.
Qed.

Lemma put_grows d x :
  Spill.ok x -> size d < 2 ^ 31 ->
  exists y r, Spill.put d x = Some (y, r) /\ spill_grows x y /\
    match r with
    | Ok o => o = Spill.used_ x /\ Spill.used_ y = Spill.used_ x + size d /\ Spill.view y o (size d) = d
    | Unexpected e => e = http_error HeaderTooLarge
    end.
Proof.
  intros Hx Hd. destruct (Spill.put_spec d x Hx Hd) as (y & r & -> & Hy & V & H).
  exists y, r. split; [done|]. pose proof (size_nonneg d).
  destruct (_ <=? _); destruct H as [-> H]; split.
  - destruct H. split_and!; [done|lia|done].
  - by destruct H.
  - subst. by apply spill_grows_refl.
  - done.
Qed.

Lemma extend_grows d x :
  Spill.ok x -> size d < 2 ^ 31 ->
  exists y r, Spill.extend d x = Some (y, r) /\ spill_grows x y /\
    match r with
    | Ok _ => Spill.used_ y = Spill.used_ x + size d /\ Spill.view y (Spill.used_ x) (size d) = d
    | Unexpected e => e = http_error HeaderTooLarge
    end.
Proof.
  intros Hx Hd. rewrite Spill.extend_put. destruct (put_grows d x Hx Hd) as (y & r & -> & Hg & H).
  destruct r as [o|e]; eexists _, _; (split; [done|]); split; try done. by destruct H as (-> & ?).
Qed.

Lemma run_view s at_ n :
  store_ok s -> run_ok s at_ n -> size (Head.view (head_ s) at_ n) = n.
Proof.
  intros [(Hr & Hw & Hc) _] (Ha & Hn & Hb). apply size_view_at; unfold Head.capacity in *; lia.
Qed.

Lemma spells_grow s a l s' :
  head_ s' = head_ s -> spill_grows (spill_ s) (spill_ s') -> spells s a l -> spells s' a l.
Proof.
  intros Eh (_ & Hu & Hv) (Hl & Hs & H). split; [done|]. split; [done|]. intros Hne. specialize (H Hne).
  pose proof (size_nonneg l). destruct (sp_spilled a).
  - destruct H as (H1 & H2 & H3). split_and!; [done|lia|]. rewrite Hv; [done|lia..].
  - by rewrite Eh.
Qed.

Lemma size_zero (l : bytes) : size l = 0 -> l = [].
Proof. unfold size. destruct l; simpl; [done|lia]. Qed.

(** What a run makes of the bytes gathered so far: they grow by the run,
    except that the length of a first run is cut to 16 bits. *)
Definition grown (l d : bytes) : bytes :=
  match l with [] => take (Z.to_nat (u16 (size d))) d | _ => l ++ d end.

Lemma grown_small l d : size (l ++ d) < 2 ^ 16 -> grown l d = l ++ d.
Proof.
  destruct l as [|x l]; [|done]. cbn [grown app]. intros H. pose proof (size_nonneg d). rewrite u16_small by lia.
  apply take_ge. unfold size. lia.
Qed.

Lemma grown_bytes l d : Forall is_byte l -> Forall is_byte d -> Forall is_byte (grown l d).
Proof. intros Hl Hd. destruct l; [by apply Forall_take|by apply Forall_app]. Qed.

(** What one of the branches of [accumulate] may leave behind. *)
Definition taken (s : store_t) (a : span_t) (l d : bytes) (mc : bool) (stop : Z) (o : option (store_t * span_t * expected unit)) : Prop :=
  exists s' a' r, o = Some (s', a', r) /\
    head_ s' = head_ s /\ headers_ s' = headers_ s /\ spill_grows (spill_ s) (spill_ s') /\
    match r with
    | Ok _ => spells s' a' (grown l d) /\ at_tail s' a' /\ (mc = true -> detached a -> detached a') /\
              (detached a' \/ a' = a \/ sp_off a' + sp_len a' <= stop)
    | Unexpected e => e = http_error HeaderTooLarge
    end.

Lemma taken_refused s a l d mc stop s' a' e :
  head_ s' = head_ s -> headers_ s' = headers_ s -> spill_grows (spill_ s) (spill_ s') ->
  e = http_error HeaderTooLarge -> taken s a l d mc stop (Some (s', a', Unexpected e)).
Proof. intros. by exists s', a', (Unexpected e). Qed.

(** A run that ends up copied behind what the span already spells. *)
Lemma taken_spilled s a l d mc stop y off k :
  spill_grows (spill_ s) y -> k = size (l ++ d) -> k < 2 ^ 16 -> 0 <= off -> off + k = Spill.used_ y ->
  Spill.view y off k = l ++ d ->
  taken s a l d mc stop (Some (set_spill s y, mk_span off (u16 k) true, Ok tt)).
Proof.
  intros Hg -> Hlt Ho He Hv. pose proof (size_nonneg (l ++ d)). eexists _, _, _. do 4 (split; [done|]).
  rewrite grown_small by done.
  unfold u16. rewrite Z.mod_small by lia. split; [|split; [intros _ _; exact He|split; [intros _ _; by right|left; by right]]].
  split; [done|]. split; [done|]. intros _. simpl. split_and!; [lia|lia|done].
Qed.

(** The spilled bytes of a span, extended. *)
Lemma extend_taken s a l d mc stop sp o :
  spill_grows (spill_ s) sp -> size l < 2 ^ 16 -> size d < 2 ^ 31 ->
  0 <= o -> o + size l = Spill.used_ sp -> Spill.view sp o (size l) = l ->
  taken s a l d mc stop
    (match Spill.extend d sp with
     | None => None
     | Some (sp, Unexpected e) => Some (set_spill s sp, mk_span o (size l) true, Unexpected e)
     | Some (sp, Ok _) =>
         if 0xffff <? size l + size d
         then Some (set_spill s sp, mk_span o (size l) true, Unexpected (http_error HeaderTooLarge))
         else Some (set_spill s sp, mk_span o (u16 (size l + size d)) true, Ok tt)
     end).
Proof.
  intros Hg Hl Hd Ho He Hv. pose proof (size_nonneg l). destruct (extend_grows d sp) as (y & r & -> & Hg2 & H2); [apply Hg|lia|].
  pose proof (spill_grows_trans _ _ _ Hg Hg2) as Hg3.
  destruct r as [[]|e]; [|by apply taken_refused]. destruct H2 as [Hu2 Hv2].
  destruct (Z.ltb_spec 0xffff (size l + size d)); [by apply taken_refused|].
  pose proof (size_nonneg d). apply taken_spilled; try done; try lia; [by rewrite size_app|].
  unfold Spill.view. rewrite view_at_split by lia. f_equal; [|by rewrite He].
  destruct Hg2 as (_ & _ & G). fold (Spill.view y o (size l)). rewrite G by lia. done.
Qed.

(** Runs that stay views of the receive buffer. *)
Lemma taken_in_place s a l d mc stop off k :
  store_ok s -> k = size (l ++ d) -> k < 2 ^ 16 -> 0 <= off -> off + k <= Head.w_ (head_ s) ->
  off + k = stop -> Head.view (head_ s) off k = l ++ d -> (mc = true -> ~ detached a) ->
  taken s a l d mc stop (Some (s, mk_span off (u16 k) false, Ok tt)).
Proof.
  intros [_ Hsp] -> Hlt Ho Hw Hstop Hv Hmc. pose proof (size_nonneg (l ++ d)). eexists _, _, _.
  do 3 (split; [done|]). split; [by apply spill_grows_refl|]. rewrite grown_small by done.
  unfold u16. rewrite Z.mod_small by lia. split; [|split; [done|split; [intros H1 H2; by destruct (Hmc H1)|right; right; simpl; lia]]].
  split; [done|]. split; [done|]. intros _. simpl. split_and!; [lia|lia|done].
Qed.

Lemma accumulate_first s a at_ n sp mc :
  store_ok s -> sp_len a = 0 -> run_ok s at_ n -> n <> 0 ->
  taken s a [] (Head.view (head_ s) at_ n) mc (at_ + n) (accumulate s a at_ n sp mc).
Proof.
  intros Hok E0 Hrun Hn. pose proof (run_view s at_ n Hok Hrun) as Hd. pose proof Hok as [(Hr & Hw & Hc) Hsp].
  destruct Hrun as (Ra & Rn & Rw). unfold accumulate. set (d := Head.view (head_ s) at_ n) in *.
  rewrite (proj2 (Z.eqb_neq n 0) Hn), E0. cbn [Z.eqb].
  destruct (sp_spilled a || mc) eqn:Em.
  - destruct (put_grows d (spill_ s) Hsp) as (y & r & -> & Hg & H); [lia|].
    destruct r as [o|e]; [|by apply taken_refused]. destruct H as (-> & Hu & Hv). destruct Hsp as [[? ?] ?].
    pose proof (proj1 Hg) as [[_ Hy] _]. unfold Spill.kCapacity in *.
    apply taken_spilled; simpl; try done; try lia. by rewrite <- Hd.
  - apply orb_false_iff in Em as [Es ->]. rewrite (u32_small at_) by (unfold Head.capacity in *; lia).
    pose proof (Z.mod_pos_bound n (2 ^ 16) ltac:(lia)) as Hm. pose proof (Z.mod_le n (2 ^ 16) ltac:(lia) ltac:(lia)) as Hle.
    fold (u16 n) in Hm, Hle. eexists _, _, _. do 3 (split; [done|]). split; [by apply spill_grows_refl|].
    assert (grown [] d = Head.view (head_ s) at_ (u16 n)) as Eg.
    { cbn [grown]. rewrite Hd. unfold d, Head.view, view_at, substr. rewrite take_take. f_equal. lia. }
    assert (size (grown [] d) = u16 n) as Es'.
    { rewrite Eg. apply size_view_at; unfold Head.capacity in *; lia. }
    split; [|split; [done|split; [done|right; right; simpl; lia]]]. unfold spells. cbn [sp_len sp_off sp_spilled]. rewrite Es'.
    split; [done|]. split; [lia|]. intros _. split_and!; [lia|lia|by rewrite Eg].
Qed.

(** The ways [accumulate] takes a run: the span then spells the run behind
    what it spelled, in place when the runs are adjacent, copied otherwise. *)
Lemma accumulate_spec s a l at_ n sp mc :
  store_ok s -> spells s a l -> at_tail s a -> run_ok s at_ n ->
  taken s a l (Head.view (head_ s) at_ n) mc (at_ + n) (accumulate s a at_ n sp mc).
Proof.
  intros Hok Ha Ht Hrun. pose proof (run_view s at_ n Hok Hrun) as Hd. pose proof Hok as [(Hr & Hw & Hc) Hsp].
  pose proof Ha as (Hl & Hmax & Hat). pose proof Hrun as (Ra & Rn & Rw).
  destruct (decide (n = 0)) as [->|Hn0].
  { exists s, a, (Ok tt). rewrite (size_zero _ Hd). replace (grown l []) with l by (destruct l; [done|by rewrite <- (app_nil_r (z :: l)) at 1]).
    split; [done|]. split; [done|]. split; [done|].
    split; [by apply spill_grows_refl|]. auto 6. }
  destruct (decide (sp_len a = 0)) as [E0|E0].
  { rewrite (size_zero l) by lia. by apply accumulate_first. }
  assert (l <> []) as Hne by (intros ->; done). specialize (Hat Hne). pose proof (size_nonneg l).
  unfold accumulate. set (d := Head.view (head_ s) at_ n) in *.
  rewrite (proj2 (Z.eqb_neq n 0) Hn0), (proj2 (Z.eqb_neq (sp_len a) 0) E0).
  destruct (sp_spilled a) eqn:Es; cbn [negb andb]; destruct Hat as (A1 & A2 & A3); rewrite Hl in A2, A3.
  - specialize (Ht Es E0). rewrite Hl in Ht |- *. rewrite <- Hd.
    eapply extend_taken; try done; try lia; by apply spill_grows_refl.
  - rewrite Hl. unfold u32. rewrite !Z.mod_small by (unfold Head.capacity in *; lia).
    destruct (Z.eqb_spec (sp_off a + size l) at_) as [Eadj|_].
    + destruct (Z.ltb_spec 0xffff (size l + n)) as [|Hle]; [apply taken_refused; try done; by apply spill_grows_refl|].
      apply taken_in_place; try done; try lia.
      * by rewrite size_app, Hd.
      * unfold Head.view in *. rewrite view_at_split by lia. by rewrite A3, Eadj.
      * intros _ [?|?]; [lia|congruence].
    + destruct sp; cbn [negb]; [|apply taken_refused; try done; by apply spill_grows_refl].
      rewrite A3. destruct (put_grows l (spill_ s) Hsp) as (y & r & -> & Hg & H2); [lia|].
      destruct r as [o|e]; [|by apply taken_refused]. destruct H2 as (-> & Hu & Hv).
      rewrite <- Hd. destruct Hsp as [[? ?] ?]. apply extend_taken; try done; lia.
Qed.

(** A trailer's run is always copied, so whether it is taken depends only on
    the room left in the spill buffer. *)
Lemma accumulate_room s a l at_ n s' a' r :
  store_ok s -> spells s a l -> at_tail s a -> detached a -> run_ok s at_ n -> accumulate s a at_ n true true = Some (s', a', r) ->
  r = (if (n =? 0) || (Spill.used_ (spill_ s) + n <=? Spill.kCapacity) then Ok tt else Unexpected (http_error HeaderTooLarge)).
Proof.
  intros Hok (Hl & Hmax & Hat) Ht Hdet Hrun. pose proof (run_view s at_ n Hok Hrun) as Hd. pose proof Hok as [_ Hsp].
  destruct Hrun as (Ra & Rn & Rw). unfold accumulate. set (d := Head.view (head_ s) at_ n) in *.
  destruct (Z.eqb_spec n 0); [by intros [= <- <- <-]|]. cbn [orb].
  destruct (Spill.put_spec d (spill_ s) Hsp) as (y & q & Ep & Hy & _ & Hq); [lia|]. rewrite Hd in Hq.
  destruct (Z.eqb_spec (sp_len a) 0) as [E0|E0].
  - rewrite orb_true_r, Ep. destruct (_ <=? _); destruct Hq as [-> Hq]; by intros [= <- <- <-].
  - destruct Hdet as [?|Es]; [done|]. rewrite Es. cbn [negb andb]. specialize (Ht Es E0). rewrite Spill.extend_put, Ep.
    destruct (_ <=? _) eqn:El; destruct Hq as [-> Hq]; [|by intros [= <- <- <-]].
    assert (l <> []) as Hne by (intros ->; done). specialize (Hat Hne). rewrite Es in Hat. destruct Hsp as [[_ Hu] _].
    unfold Spill.kCapacity in *. zify_bool. destruct (Z.ltb_spec 0xffff (sp_len a + n)); [lia|]. by intros [= <- <- <-].
Qed.
