(* ===== verification/ParserHeaders.v ===== *)
(** * What the parser records

    The header callbacks of Parser.v against a specification that works on
    the bytes themselves: names and values are the concatenations of the runs
    llhttp reports, whether those are adjacent in the receive buffer, split
    by a read, folded, or overwritten later.  The specification has the two
    things the code does silently: a first run of 64K or more is cut to 16 bits
    of length, and trailers, which are kept apart within their own limit, are
    dropped when they have no room; they never disturb a header. *)

From stdpp Require Import prelude list list_numbers strings.
From Stdlib Require Import ZArith Lia.
From S2P Require Import Prelude Protocol Buffer Headers Parser.
Open Scope Z_scope.

(** ** The specification *)

Record entry_t := mk_entry { en_trailer : bool; en_name : bytes; en_value : bytes }.

(** The recorded entries, the one being assembled, and whether the rest of a
    dropped trailer is being swallowed. *)
Record spec_t := mk_spec { sp_done : list entry_t; sp_cur : option entry_t; sp_skip : bool }.

Inductive heard_t :=
| HField (tr : bool) (d : bytes) (room : bool) | HFieldEnd | HValue (tr : bool) (d : bytes) (room : bool) | HValueEnd.

Definition spec_count (tr : bool) (es : list entry_t) : Z :=
  Z.of_nat (length (List.filter (fun e => eqb (en_trailer e) tr) es)).

(** A trailer worth keeping. *)
Definition keeps_trailer (lim : parser_limits_t) (es : list entry_t) (e : entry_t) : bool :=
  negb (max_trailers lim <=? spec_count true es) && negb (field_forbidden_in_trailer (field_from_name (en_name e))).

Definition spec_ignored (lim : parser_limits_t) (tr : bool) (sp : spec_t) : bool :=
  tr && ((max_trailers lim =? 0) || sp_skip sp).

(** One event; [room] tells whether the spill buffer has room for the run,
    which only a trailer needs: one that finds none is dropped as a whole.
    A name or value is what its runs add up to ([grown]: a first run of 64K
    or more is cut to its length modulo 64K). *)
Definition hear (lim : parser_limits_t) (ev : heard_t) (sp : spec_t) : spec_t :=
  match ev with
  | HField tr d room =>
      if spec_ignored lim tr sp then sp
      else if tr && negb room then mk_spec (sp_done sp) None true
      else
        let e := default (mk_entry tr [] []) (sp_cur sp) in
        mk_spec (sp_done sp) (Some (mk_entry tr (grown (en_name e) d) (en_value e))) (sp_skip sp)
  | HFieldEnd => sp
  | HValue tr d room =>
      if spec_ignored lim tr sp then sp
      else if tr && negb room then mk_spec (sp_done sp) None true
      else
        let cur := match sp_cur sp with
                   | Some e => Some (mk_entry (en_trailer e) (en_name e) (grown (en_value e) d))
                   | None => None
                   end in
        mk_spec (sp_done sp) cur (sp_skip sp)
  | HValueEnd =>
      match sp_cur sp with
      | None => mk_spec (sp_done sp) None false
      | Some e =>
          if en_trailer e && negb (keeps_trailer lim (sp_done sp) e) then mk_spec (sp_done sp) None false
          else mk_spec (sp_done sp ++ [e]) None false
      end
  end.

(** ** Runs of the parser

    Callbacks interleaved with what the connections do to the receive buffer
    between them.  The order of the callbacks is llhttp's; [mark] separates
    the header section from the bytes that later reads may overwrite. *)

Inductive phase_t := Idle | InName (tr : bool) | InValue (tr : bool).

Inductive pop := PCall (c : ll_callback) (v : ll_view) | PFill (data : bytes) | PRewind (pos : Z).

(** The phase after a header callback, [None] out of order. *)
Definition next_phase (ph : phase_t) (c : ll_callback) (tr : bool) : option phase_t :=
  match ph, c with
  | Idle, OnHeaderField _ _ => Some (InName tr)
  | InName t, OnHeaderField _ _ => if eqb t tr then Some (InName tr) else None
  | InName t, OnHeaderFieldComplete => if eqb t tr then Some (InValue tr) else None
  | InValue t, OnHeaderValue _ _ => if eqb t tr then Some (InValue tr) else None
  | InValue t, OnHeaderValueComplete => if eqb t tr then Some Idle else None
  | _, _ => None
  end.

Definition in_bounds (s : store_t) (mark : Z) (tr : bool) (c : ll_callback) : bool :=
  match c with
  | OnHeaderField a n | OnHeaderValue a n =>
      (0 <=? a) && (0 <=? n) && (n <? 2 ^ 31) && (a + n <=? Head.w_ (head_ s)) && (tr || (a + n <=? mark))
  | _ => true
  end.

(** Room for a copy of [n] bytes. *)
Definition room_for (s : store_t) (n : Z) : bool := (n =? 0) || (Spill.used_ (spill_ s) + n <=? Spill.kCapacity).

Definition heard_of (s : store_t) (tr : bool) (c : ll_callback) : list heard_t :=
  match c with
  | OnHeaderField a n => [HField tr (Head.view (head_ s) a n) (room_for s n)]
  | OnHeaderFieldComplete => [HFieldEnd]
  | OnHeaderValue a n => [HValue tr (Head.view (head_ s) a n) (room_for s n)]
  | OnHeaderValueComplete => [HValueEnd]
  | _ => []
  end.

(** How a run ends: after its last operation, at a callback that failed with
    an error, at an operation that was not legal there, or broken by a null
    pointer or a copy outside its block. *)
Inductive outcome_t (L : Type) :=
| Done (p : parser_t L) (ph : phase_t) (log : list heard_t)
| Refused (e : error_t)
| Illegal
| Broken.
Arguments Done {L}. Arguments Refused {L}. Arguments Illegal {L}. Arguments Broken {L}.

Section Runs.
Context {L : Type}.
Implicit Types p : parser_t L.

Definition run_op (mark : Z) (o : pop) (ph : phase_t) p : outcome_t L :=
  match store_ p with
  | None => Broken
  | Some s =>
      match o with
      | PCall c v =>
          match next_phase ph c (in_trailer v) with
          | Some ph' =>
              if in_bounds s mark (in_trailer v) c then
                match callback c v p with
                | Some (p', RetOk) => Done p' ph' (heard_of s (in_trailer v) c)
                | Some (p', _) => Refused (error_ p')
                | None => Broken
                end
              else Illegal
          | None => Illegal
          end
      | PFill data =>
          match Head.fill data (head_ s) with
          | Some h => if forallb (fun b => bool_decide (is_byte b)) data
                      then Done (set_store p (set_head s h)) ph [] else Illegal
          | None => Illegal
          end
      | PRewind pos =>
          if mid_header p || (pos <? mark) || (Head.capacity (head_ s) <? pos) then Illegal
          else Done (set_store p (set_head s (Head.rewind_to pos (head_ s)))) ph []
      end
  end.

Fixpoint run_ops (mark : Z) (os : list pop) (ph : phase_t) p : outcome_t L :=
  match os with
  | [] => Done p ph []
  | o :: os =>
      match run_op mark o ph p with
      | Done p ph log =>
          match run_ops mark os ph p with
          | Done p ph log' => Done p ph (log ++ log')
          | r => r
          end
      | r => r
      end
  end.
End Runs.

(** ** The refinement *)

Definition span_low (mark : Z) (a : span_t) : Prop :=
  sp_spilled a = false -> sp_len a <> 0 -> sp_off a + sp_len a <= mark.

(** An entry of the table denotes an entry of the specification. *)
Definition denotes (s : store_t) (mark : Z) (r : header_ref) (e : entry_t) : Prop :=
  trailer r = en_trailer e /\ spells s (name_span r) (en_name e) /\ spells s (value_span r) (en_value e) /\
  span_low mark (name_span r) /\ span_low mark (value_span r) /\
  (en_trailer e = true -> detached (name_span r) /\ detached (value_span r)).

Definition filed_as (r : header_ref) (e : entry_t) : Prop :=
  field r = field_from_name (en_name e) /\ Forall is_byte (en_name e).

(** The header being assembled, by phase. *)
Definition assembling (s : store_t) (mark : Z) (ph : phase_t) (q : pend_t) (cur : option entry_t) : Prop :=
  match cur with
  | None => pending_valid_ q = false /\ pending_ q = blank_ref
  | Some e =>
      pending_valid_ q = true /\ denotes s mark (pending_ q) e /\ Forall is_byte (en_name e) /\
      match ph with
      | Idle => False
      | InName tr => en_trailer e = tr /\ at_tail s (name_span (pending_ q)) /\ value_span (pending_ q) = mk_span 0 0 false
      | InValue tr => en_trailer e = tr /\ at_tail s (value_span (pending_ q)) /\ field (pending_ q) = field_from_name (en_name e)
      end
  end.

(** A header in progress is being assembled; a trailer in progress is, or is ignored. *)
Definition attended (lim : parser_limits_t) (ph : phase_t) (sp : spec_t) : Prop :=
  match ph with
  | Idle => sp_cur sp = None /\ sp_skip sp = false
  | InName tr | InValue tr => sp_cur sp = None -> spec_ignored lim tr sp = true
  end.

Record refines {L} (mark : Z) (ph : phase_t) (p : parser_t L) (sp : spec_t) (s : store_t) (es : list header_ref) : Prop := {
  rf_store : store_ p = Some s;
  rf_ok : store_ok s;
  rf_bytes : Forall is_byte (Head.block (head_ s));
  rf_repr : repr (headers_ s) es;
  rf_done : Forall2 (denotes s mark) es (sp_done sp);
  rf_filed : Forall2 filed_as es (sp_done sp);
  rf_cur : assembling s mark ph (pend_ p) (sp_cur sp);
  rf_skip : skip_trailer_ (pend_ p) = sp_skip sp;
  rf_attended : attended (limits_ p) ph sp;
  rf_limits : 0 <= max_headers (limits_ p) /\ 0 <= max_trailers (limits_ p) /\
              max_headers (limits_ p) + max_trailers (limits_ p) < 2 ^ 32 - 2;
  rf_count : forall tr, spec_count tr (sp_done sp) <=
               (if tr then max_trailers (limits_ p) else max_headers (limits_ p))
}.

(** *** Stores that keep what was recorded *)

Definition keeps (mark : Z) (s s' : store_t) : Prop :=
  spill_grows (spill_ s) (spill_ s') /\
  forall o n, 0 <= o -> 0 <= n -> o + n <= Head.w_ (head_ s) -> o + n <= mark ->
    o + n <= Head.w_ (head_ s') /\ Head.view (head_ s') o n = Head.view (head_ s) o n.

Lemma keeps_spill mark s s' :
  head_ s' = head_ s -> spill_grows (spill_ s) (spill_ s') -> keeps mark s s'.
Proof. intros E H. split; [done|]. intros. by rewrite E. Qed.

Lemma spells_keep mark s s' a l : keeps mark s s' -> span_low mark a -> spells s a l -> spells s' a l.
Proof.
  intros [(_ & Hu & Hv) Hk] Hlow (Hl & Hs & H). split; [done|]. split; [done|]. intros Hne. specialize (H Hne).
  pose proof (size_nonneg l). unfold span_low in Hlow. destruct (sp_spilled a).
  - destruct H as (H1 & H2 & H3). split_and!; [done|lia|]. rewrite Hv; [done|lia..].
  - destruct H as (H1 & H2 & H3). assert (sp_len a <> 0) as Hn0 by (intros E; rewrite Hl in E; by apply size_zero in E).
    destruct (Hk (sp_off a) (sp_len a)) as [K1 K2]; try done; [lia|by apply Hlow|]. split_and!; congruence.
Qed.

Lemma denotes_keep mark s s' r e : keeps mark s s' -> denotes s mark r e -> denotes s' mark r e.
Proof.
  intros Hk (Ht & Hn & Hv & Ln & Lv & Hd). split_and!; try done; by eapply spells_keep.
Qed.

Lemma head_fill_keeps mark s data h :
  store_ok s -> Head.fill data (head_ s) = Some h ->
  keeps mark s (set_head s h) /\ store_ok (set_head s h).
Proof.
  intros [Hh Hsp] E. destruct (Head.fill_spec _ _ _ Hh E) as (Hh' & Hw & _ & _ & Hv & _).
  pose proof (size_nonneg data). split; [|done]. split; [by apply spill_grows_refl|]. simpl.
  intros o n Ho Hn Hb _. split; [lia|]. by apply Hv.
Qed.

Lemma rewind_keeps mark s pos :
  store_ok s -> 0 <= mark <= pos -> pos <= Head.capacity (head_ s) ->
  keeps mark s (set_head s (Head.rewind_to pos (head_ s))) /\ store_ok (set_head s (Head.rewind_to pos (head_ s))).
Proof.
  intros [(Hr & Hw & Hc) Hsp] Hm Hp. split.
  - split; [by apply spill_grows_refl|]. simpl. intros o n Ho Hn _ Hb. split; [lia|done].
  - split; [|done]. unfold Head.ok, Head.capacity, Head.block in *. simpl. lia.
Qed.

Lemma assembling_keep mark s s' ph q cur :
  keeps mark s s' -> spill_ s' = spill_ s -> assembling s mark ph q cur -> assembling s' mark ph q cur.
Proof.
  intros Hk Hs. unfold assembling. destruct cur as [e|]; [|done]. intros (H1 & H2 & H3 & H4).
  split; [done|]. split; [by apply (denotes_keep mark s)|]. split; [done|]. unfold at_tail in *. by rewrite Hs.
Qed.

Lemma view_bytes s o n :
  Forall is_byte (Head.block (head_ s)) -> Forall is_byte (Head.view (head_ s) o n).
Proof. intros H. unfold Head.view, view_at, substr. by apply Forall_take, Forall_drop. Qed.

Lemma spells_nil s : spells s (mk_span 0 0 false) [].
Proof. done. Qed.

Lemma denotes_blank s mark tr : denotes s mark (set_trailer blank_ref tr) (mk_entry tr [] []).
Proof.
  repeat split; try done; try (intros _ H; by destruct H); by left.
Qed.

Section Steps.
Context {L : Type}.
Implicit Types p : parser_t L.

Lemma set_pend_store p s : set_pend (set_store p s) (pend_ p) = set_store p s.
Proof. by destruct p. Qed.

(** A new store for the same parser, its tables untouched. *)
Lemma refines_keep mark ph p sp s es s' ph' q' sp' :
  refines mark ph p sp s es -> keeps mark s s' -> store_ok s' -> headers_ s' = headers_ s ->
  Forall is_byte (Head.block (head_ s')) -> sp_done sp' = sp_done sp ->
  assembling s' mark ph' q' (sp_cur sp') -> skip_trailer_ q' = sp_skip sp' -> attended (limits_ p) ph' sp' ->
  refines mark ph' (set_pend (set_store p s') q') sp' s' es.
Proof.
  intros [] Hk Hok Hh Hb Hd Ha Hs Hat. constructor; simpl; try done; rewrite ?Hh, ?Hd; try done.
  eapply Forall2_impl; [exact rf_done0|]. intros r e. by apply denotes_keep with (s := s).
Qed.

(** The span being lengthened when a run of a name or of a value arrives. *)
Lemma pending_entry s mark ph q cur tr :
  assembling s mark ph q cur -> (cur = None \/ ph = InName tr) ->
  let e := default (mk_entry tr [] []) cur in
  denotes s mark (set_trailer (pending_ q) tr) (mk_entry tr (en_name e) (en_value e)) /\
  at_tail s (name_span (pending_ q)) /\ value_span (pending_ q) = mk_span 0 0 false /\
  Forall is_byte (en_name e) /\ en_value e = [].
Proof.
  destruct cur as [e|]; simpl.
  - intros (_ & Hd & Hb & Hph) [[=]| ->]. destruct Hph as (Htr & Ht & Hv). destruct e as [t nm v]. simpl in *. subst t.
    destruct Hd as (D1 & D2 & D3 & D4 & D5 & D6). split_and!; try done.
    rewrite Hv in D3. destruct D3 as (D3 & _ & _). simpl in D3. by apply size_zero.
  - intros [_ ->] _. split_and!; try done. apply denotes_blank.
Qed.

Lemma span_low_taken mark a a' stop :
  span_low mark a -> stop <= mark -> (detached a' \/ a' = a \/ sp_off a' + sp_len a' <= stop) -> span_low mark a'.
Proof. intros H Hs [[E|E]|[ ->|E]] H1 H2; [contradiction|congruence|by apply H|lia]. Qed.

Lemma span_low_detached mark a : detached a -> span_low mark a.
Proof. intros [?|?] ? ?; [done|congruence]. Qed.

(** A run of a name. *)
Lemma field_step mark ph ph' p sp s es v a n :
  refines mark ph p sp s es -> 0 <= mark ->
  next_phase ph (OnHeaderField a n) (in_trailer v) = Some ph' ->
  in_bounds s mark (in_trailer v) (OnHeaderField a n) = true ->
  exists p' r, on_header_field p v a n = Some (p', r) /\ limits_ p' = limits_ p /\
    match r with
    | RetOk => exists s',
        refines mark ph' p' (hear (limits_ p) (HField (in_trailer v) (Head.view (head_ s) a n) (room_for s n)) sp) s' es
    | RetFail => in_trailer v = false /\ error_ p' = http_error HeaderTooLarge
    | _ => False
    end.
Proof.
  intros HR Hm Hph Hb. set (tr := in_trailer v) in *. pose proof HR as [Hst Hok Hby Hre Hdo Hfi Hcu Hsk Hat Hli Hco].
  assert (ph' = InName tr /\ (sp_cur sp = None \/ ph = InName tr)) as [-> Hcase].
  { destruct ph; simpl in Hph; [|destruct (eqb tr0 tr) eqn:E; [apply eqb_prop in E as ->|]|]; simplify_eq; split; auto.
    destruct Hat; auto. }
  unfold on_header_field. unfold hear. fold tr.
  assert (ignored p v = spec_ignored (limits_ p) tr sp) as -> by (unfold ignored, spec_ignored; by rewrite Hsk).
  destruct (spec_ignored (limits_ p) tr sp) eqn:Eig.
  { exists p, RetOk. split; [done|]. split; [done|]. exists s. constructor; try done; [|by intros _].
    unfold assembling in *. destruct (sp_cur sp); [|done]. by destruct Hcase as [[=]| ->]. }
  rewrite Hst. destruct (pending_entry _ _ _ _ _ tr Hcu Hcase) as (Hden & Htl & Hval & Hnb & Hv0).
  set (e := default (mk_entry tr [] []) (sp_cur sp)) in *. destruct Hden as (D1 & D2 & D3 & D4 & D5 & D6).
  unfold in_bounds in Hb. rewrite !andb_true_iff, orb_true_iff in Hb. zify_bool.
  destruct Hb as [[[[B1 B2] B3] B4] B5].
  destruct (accumulate_spec s (name_span (pending_ (pend_ p))) (en_name e) a n tr tr) as (s' & a' & r & Eac & Hh & Hhs & Hg & Hr);
    [done|exact D2|done|unfold run_ok; lia|].
  assert (tr = true -> r = if room_for s n then Ok tt else Unexpected (http_error HeaderTooLarge)) as Hroom.
  { intros Et. rewrite Et in Eac. eapply (accumulate_room s _ _ a n); [done|exact D2|done|by apply D6|unfold run_ok; lia|exact Eac]. }
  rewrite Eac.
  assert (keeps mark s s') as Hk by by apply keeps_spill.
  assert (store_ok s') as Hok' by (destruct Hok; split; [by rewrite Hh|apply Hg]).
  destruct r as [[]|err].
  - destruct Hr as (R1 & R2 & R3 & R4). destruct a' as [ao al asp]. eexists _, _. split; [done|]. split; [done|]. exists s'.
    assert (tr && negb (room_for s n) = false) as -> by (destruct tr; [|done]; specialize (Hroom eq_refl); by destruct (room_for s n)).
    apply (refines_keep mark ph p sp s es); try done; [by rewrite Hh|].
    simpl. split; [done|]. split; [|split; [apply grown_bytes; [done|by apply view_bytes]|done]].
    assert (tr = true -> detached (mk_span ao al asp)) as Hdet by (intros Et; rewrite Et in *; apply R3; [done|apply D6; done]).
    split_and!; try done.
    + by eapply spells_keep.
    + simpl. destruct tr; [by apply span_low_detached, Hdet|]. apply (span_low_taken _ _ _ (a + n) D4); [|exact R4].
      destruct B5 as [[=]|B5]. lia.
    + intros Et. split; [by apply Hdet|]. by apply D6.
  - destruct tr.
    + eexists _, _. split; [done|]. split; [done|]. exists s'. specialize (Hroom eq_refl). destruct (room_for s n); [done|]. simpl.
      apply (refines_keep mark ph p sp s es); try done; [by rewrite Hh|]. intros _. unfold spec_ignored. simpl. by rewrite orb_true_r.
    + eexists _, _. split; [done|]. done.
Qed.

(** A run of a value. *)
Lemma value_step mark ph ph' p sp s es v a n :
  refines mark ph p sp s es -> 0 <= mark ->
  next_phase ph (OnHeaderValue a n) (in_trailer v) = Some ph' ->
  in_bounds s mark (in_trailer v) (OnHeaderValue a n) = true ->
  exists p' r, on_header_value p v a n = Some (p', r) /\ limits_ p' = limits_ p /\
    match r with
    | RetOk => exists s',
        refines mark ph' p' (hear (limits_ p) (HValue (in_trailer v) (Head.view (head_ s) a n) (room_for s n)) sp) s' es
    | RetFail => in_trailer v = false /\ error_ p' = http_error HeaderTooLarge
    | _ => False
    end.
Proof.
  intros HR Hm Hph Hb. set (tr := in_trailer v) in *. pose proof HR as [Hst Hok Hby Hre Hdo Hfi Hcu Hsk Hat Hli Hco].
  assert (ph = InValue tr /\ ph' = InValue tr) as [-> ->].
  { destruct ph; simpl in Hph; try done. destruct (eqb tr0 tr) eqn:E; [apply eqb_prop in E as ->|]; by simplify_eq. }
  unfold on_header_value, hear. fold tr.
  assert (ignored p v = spec_ignored (limits_ p) tr sp) as -> by (unfold ignored, spec_ignored; by rewrite Hsk).
  destruct (spec_ignored (limits_ p) tr sp) eqn:Eig.
  { exists p, RetOk. split; [done|]. split; [done|]. by exists s. }
  rewrite Hst. destruct (sp_cur sp) as [e|] eqn:Ecur; [|by specialize (Hat Ecur); rewrite Hat in Eig].
  destruct Hcu as (Hpv & (D1 & D2 & D3 & D4 & D5 & D6) & Hnb & Htr & Htl & Hfd).
  unfold in_bounds in Hb. rewrite !andb_true_iff, orb_true_iff in Hb. zify_bool.
  destruct Hb as [[[[B1 B2] B3] B4] B5].
  destruct (accumulate_spec s (value_span (pending_ (pend_ p))) (en_value e) a n true tr) as (s' & a' & r & Eac & Hh & Hhs & Hg & Hr);
    [done|exact D3|done|unfold run_ok; lia|].
  assert (tr = true -> r = if room_for s n then Ok tt else Unexpected (http_error HeaderTooLarge)) as Hroom.
  { intros Et. rewrite Et in Eac. eapply (accumulate_room s _ _ a n); [done|exact D3|done|apply D6; congruence|unfold run_ok; lia|exact Eac]. }
  rewrite Eac.
  assert (keeps mark s s') as Hk by by apply keeps_spill.
  assert (store_ok s') as Hok' by (destruct Hok; split; [by rewrite Hh|apply Hg]).
  destruct r as [[]|err].
  - destruct Hr as (R1 & R2 & R3 & R4). destruct a' as [ao al asp]. eexists _, _. split; [done|]. split; [done|]. exists s'.
    assert (tr && negb (room_for s n) = false) as -> by (destruct tr; [|done]; specialize (Hroom eq_refl); by destruct (room_for s n)).
    apply (refines_keep mark (InValue tr) p sp s es); try done; [by rewrite Hh|].
    simpl. split; [done|]. split; [|by rewrite Htr].
    assert (tr = true -> detached (mk_span ao al asp)) as Hdet by (intros Et; apply R3; [done|apply D6; congruence]).
    split_and!; try done.
    + by apply (spells_keep mark s).
    + simpl. destruct tr; [by apply span_low_detached, Hdet|]. apply (span_low_taken _ _ _ (a + n) D5); [|exact R4].
      destruct B5 as [[=]|B5]. lia.
    + intros Et. split; [by apply D6|]. apply Hdet. simpl in Et. congruence.
  - destruct tr.
    + eexists _, _. split; [done|]. split; [done|]. exists s'. specialize (Hroom eq_refl). destruct (room_for s n); [done|]. simpl.
      apply (refines_keep mark (InValue true) p sp s es); try done; [by rewrite Hh|].
      intros _. unfold spec_ignored. simpl. by rewrite orb_true_r.
    + eexists _, _. split; [done|]. done.
Qed.

(** The end of a name: it is filed. *)
Lemma field_end_step mark tr p sp s es :
  refines mark (InName tr) p sp s es ->
  exists p', on_header_field_complete p = Some (p', RetOk) /\ limits_ p' = limits_ p /\ refines mark (InValue tr) p' sp s es.
Proof.
  intros HR. pose proof HR as [Hst Hok Hby Hre Hdo Hfi Hcu Hsk Hat Hli Hco].
  unfold on_header_field_complete. destruct (sp_cur sp) as [e|] eqn:Ecur; unfold assembling in Hcu.
  - destruct Hcu as (-> & (D1 & D2 & D3 & D4 & D5 & D6) & Hnb & Htr & Htl & Hval). simpl. rewrite Hst.
    set (name := if name_spilled _ then _ else _). assert (name = en_name e) as ->.
    { unfold name. destruct D2 as (N1 & N2 & N3). destruct (decide (en_name e = [])) as [E|E].
      - rewrite E in *. change (name_len (pending_ (pend_ p)) = 0) in N1. rewrite N1. unfold Spill.view, Head.view, view_at, substr.
        by destruct (name_spilled _).
      - specialize (N3 E). simpl in N3, N1. by case_match; destruct N3 as (_ & _ & ->). }
    eexists. split; [done|]. split; [done|]. constructor; try done; rewrite Ecur; try done.
    simpl. split; [done|].
    split; [exact (conj D1 (conj D2 (conj D3 (conj D4 (conj D5 D6)))))|]. split; [done|]. split; [done|]. split; [|done].
    intros _. unfold value_span, set_field in *. simpl in *. congruence.
  - destruct Hcu as [Hpv Hpe]. rewrite Hpv. simpl. eexists. split; [done|]. split; [done|].
    constructor; try done; rewrite ?Ecur; done.
Qed.

Lemma spec_count_kind tr es ds : Forall2 (fun r e => trailer r = en_trailer e) es ds ->
  count_kind tr es = spec_count tr ds.
Proof.
  induction 1 as [|r e es ds Hr _ IH]; [done|]. unfold spec_count in *. cbn [count_kind List.filter].
  rewrite Hr, IH. destruct (eqb (en_trailer e) tr); simpl; lia.
Qed.

Lemma spec_count_app tr ds e :
  spec_count tr (ds ++ [e]) = spec_count tr ds + (if eqb (en_trailer e) tr then 1 else 0).
Proof.
  unfold spec_count. induction ds as [|d ds IH]; cbn [app List.filter]; [destruct (eqb _ _); simpl; lia|].
  destruct (eqb (en_trailer d) tr); cbn [length]; lia.
Qed.

Lemma denotes_trailers s mark es ds :
  Forall2 (denotes s mark) es ds -> Forall2 (fun r e => trailer r = en_trailer e) es ds.
Proof. intros H. eapply Forall2_impl; [exact H|]. by intros r e (? & _). Qed.

(** Recording an entry. *)
Lemma record_step mark ph p sp s es e r :
  refines mark ph p sp s es -> denotes s mark r e -> filed_as r e ->
  spec_count (en_trailer e) (sp_done sp) < (if en_trailer e then max_trailers (limits_ p) else max_headers (limits_ p)) ->
  exists hs, add r (if en_trailer e then max_trailers (limits_ p) else max_headers (limits_ p)) (headers_ s) = (hs, Ok tt) /\
    forall q, pending_valid_ q = false -> pending_ q = blank_ref -> skip_trailer_ q = false ->
      refines mark Idle (set_pend (set_store p (set_headers s hs)) q)
        (mk_spec (sp_done sp ++ [e]) None false) (set_headers s hs) (es ++ [r]).
Proof.
  intros [Hst Hok Hby Hre Hdo Hfi Hcu Hsk Hat Hli Hco] Hd Hf Hc.
  pose proof (denotes_trailers _ _ _ _ Hdo) as Htr.
  pose proof (spec_count_kind true _ _ Htr) as C1. pose proof (spec_count_kind false _ _ Htr) as C2.
  pose proof (count_kind_total es) as Ct. pose proof (Hco true) as C3. pose proof (Hco false) as C4.
  assert (size_ (headers_ s) < 2 ^ 32 - 2) as Hsz by (rewrite (rp_size _ _ Hre); simpl in *; lia).
  pose proof (add_spec r (if en_trailer e then max_trailers (limits_ p) else max_headers (limits_ p)) _ _ Hre Hsz) as Ha.
  assert (count_kind (trailer r) es = spec_count (en_trailer e) (sp_done sp)) as Ek.
  { destruct Hd as (-> & _). by destruct (en_trailer e). }
  rewrite Ek in Ha. destruct (Z.leb_spec (if en_trailer e then max_trailers (limits_ p) else max_headers (limits_ p))
    (spec_count (en_trailer e) (sp_done sp))); [lia|]. destruct Ha as (hs & Ea & Hre' & _).
  exists hs. split; [done|]. intros q Q1 Q2 Q3. constructor; simpl; try done.
  - apply Forall2_app; [|by constructor]. exact Hdo.
  - apply Forall2_app; [done|by constructor].
  - intros tr. rewrite spec_count_app. specialize (Hco tr). destruct (en_trailer e), tr; simpl in *; lia.
Qed.

(** The end of a value: a header is added or the limit refuses it, a
    trailer is kept or dropped. *)
Lemma value_end_step mark tr p sp s es :
  refines mark (InValue tr) p sp s es ->
  exists p' r, on_header_value_complete p = Some (p', r) /\ limits_ p' = limits_ p /\
    match r with
    | RetOk => exists s' es', refines mark Idle p' (hear (limits_ p) HValueEnd sp) s' es'
    | RetFail => tr = false /\ error_ p' = http_error TooManyHeaders
    | _ => False
    end.
Proof.
  intros HR. pose proof HR as [Hst Hok Hby Hre Hdo Hfi Hcu Hsk Hat Hli Hco].
  unfold on_header_value_complete, finish_header, hear. rewrite Hst.
  assert (forall s', headers_ s' = headers_ s -> s' = s ->
    refines mark Idle (set_pend (set_store p s') (mk_pend blank_ref false false)) (mk_spec (sp_done sp) None false) s' es) as Hdrop.
  { intros s' _ ->. by constructor. }
  destruct (sp_cur sp) as [e|] eqn:Ecur; unfold assembling in Hcu.
  - destruct Hcu as (Hpv & Hd & Hnb & Htr & Htl & Hfd). cbn [pending_valid_ pending_]. rewrite Hpv. cbn [negb].
    pose proof Hd as (D1 & _). rewrite D1.
    pose proof (denotes_trailers _ _ _ _ Hdo) as Htrs. unfold keeps_trailer.
    destruct (en_trailer e) eqn:Et; cbn [andb].
    + rewrite (rp_trailers _ _ Hre), (spec_count_kind true _ _ Htrs), <- Hfd.
      destruct (Z.leb_spec (max_trailers (limits_ p)) (spec_count true (sp_done sp))) as [|Hlt]; cbn [negb andb];
        [eexists _, _; split; [done|]; split; [done|]; by exists s, es; apply Hdrop|].
      destruct (field_forbidden_in_trailer _) eqn:Ef; cbn [negb];
        [eexists _, _; split; [done|]; split; [done|]; by exists s, es; apply Hdrop|].
      destruct (record_step mark _ p sp s es e (pending_ (pend_ p)) HR Hd) as (hs & Ea & Hre'); [done|by rewrite Et|].
      rewrite Et in Ea. rewrite Ea. eexists _, _. split; [done|]. split; [done|]. eexists _, _. by apply Hre'.
    + pose proof (rp_size _ _ Hre). pose proof (count_kind_total es). pose proof (Hco true). pose proof (Hco false).
      pose proof (spec_count_kind true _ _ Htrs). pose proof (spec_count_kind false _ _ Htrs) as C2.
      destruct (Z.leb_spec (max_headers (limits_ p)) (spec_count false (sp_done sp))) as [Hfull|Hlt].
      * pose proof (add_spec (pending_ (pend_ p)) (max_headers (limits_ p)) _ _ Hre) as Ha.
        rewrite D1, C2, (proj2 (Z.leb_le _ _) Hfull) in Ha. rewrite Ha by (simpl in *; lia).
        eexists _, _. split; [done|]. split; [done|]. split; [congruence|done].
      * destruct (record_step mark _ p sp s es e (pending_ (pend_ p)) HR Hd) as (hs & Ea & Hre'); [done|by rewrite Et|].
        rewrite Et in Ea. rewrite Ea. eexists _, _. split; [done|]. split; [done|]. eexists _, _. by apply Hre'.
  - destruct Hcu as [Hpv Hpe]. rewrite Hpv, Hpe. cbn. eexists _, _. split; [done|]. split; [done|]. exists s, es. by apply Hdrop.
Qed.
End Steps.

(** ** Whole runs *)

(** The specification over a log. *)
Definition hear_all (lim : parser_limits_t) (log : list heard_t) (sp : spec_t) : spec_t :=
  fold_left (fun sp ev => hear lim ev sp) log sp.

Lemma hear_all_app lim l1 l2 sp : hear_all lim (l1 ++ l2) sp = hear_all lim l2 (hear_all lim l1 sp).
Proof. apply fold_left_app. Qed.

Section RunSteps.
Context {L : Type}.
Implicit Types p : parser_t L.

Definition trailing_op (o : pop) : bool := match o with PCall _ v => in_trailer v | _ => true end.

(** One operation: it refines one event of the specification, or fails with
    one of the two header errors, which no trailer causes. *)
Lemma run_op_step mark o ph p sp s es :
  refines mark ph p sp s es -> 0 <= mark ->
  match run_op mark o ph p with
  | Done p' ph' log => limits_ p' = limits_ p /\
      exists s' es', refines mark ph' p' (hear_all (limits_ p) log sp) s' es'
  | Refused e => trailing_op o = false /\ (e = http_error HeaderTooLarge \/ e = http_error TooManyHeaders)
  | Illegal => True
  | Broken => False
  end.
Proof.
  intros HR Hm. pose proof HR as [Hst Hok Hby Hre Hdo Hfi Hcu Hsk Hat Hli Hco]. unfold run_op. rewrite Hst.
  destruct o as [c v|data|pos].
  - destruct (next_phase ph c (in_trailer v)) as [ph'|] eqn:Eph; [|done].
    destruct (in_bounds s mark (in_trailer v) c) eqn:Eb; [|done].
    destruct c; try (by destruct ph); cbn [callback heard_of trailing_op].
    + destruct (field_step _ _ _ _ _ _ _ _ _ _ HR Hm Eph Eb) as (p' & r & -> & Hl & H). destruct r; try done.
      * destruct H as (s' & H). split; [done|]. by exists s', es.
      * destruct H as [? ->]. auto.
    + destruct ph as [|tr|tr]; try done. simpl in Eph. destruct (eqb tr _) eqn:E; [apply eqb_prop in E as ->|done]. simplify_eq.
      destruct (field_end_step _ _ _ _ _ _ HR) as (p' & -> & Hl & H). split; [done|]. by exists s, es.
    + destruct (value_step _ _ _ _ _ _ _ _ _ _ HR Hm Eph Eb) as (p' & r & -> & Hl & H). destruct r; try done.
      * destruct H as (s' & H). split; [done|]. by exists s', es.
      * destruct H as [? ->]. auto.
    + destruct ph as [|tr|tr]; try done. simpl in Eph. destruct (eqb tr _) eqn:E; [apply eqb_prop in E as ->|done]. simplify_eq.
      destruct (value_end_step _ _ _ _ _ _ HR) as (p' & r & -> & Hl & H). destruct r; try done.
      destruct H as [? ->]. auto.
  - destruct (Head.fill data (head_ s)) as [h|] eqn:E; [|done].
    destruct (forallb _ data) eqn:Ed; [|done]. split; [done|].
    destruct (head_fill_keeps mark s data h Hok E) as [Hk Hok']. exists (set_head s h), es.
    assert (Forall is_byte (Head.block h)) as Hb'.
    { unfold Head.fill, write_at in E. bool_destruct; simplify_eq. unfold Head.block at 1. simpl.
      rewrite forallb_forall in Ed. rewrite !Forall_app. split; [by apply Forall_take|]. split; [|by apply Forall_drop].
      apply Forall_forall. intros b Hb%list_elem_of_In. apply Ed in Hb. by apply bool_decide_eq_true in Hb. }
    rewrite <- set_pend_store. apply (refines_keep mark ph p sp s es); try done. by apply (assembling_keep mark s).
  - destruct (_ || _ || _) eqn:E; [done|]. rewrite !orb_false_iff in E. zify_bool. destruct E as [[E1 E2] E3].
    destruct (rewind_keeps mark s pos Hok) as [Hk Hok']; [lia|lia|]. split; [done|].
    exists (set_head s (Head.rewind_to pos (head_ s))), es.
    rewrite <- set_pend_store. apply (refines_keep mark ph p sp s es); try done. by apply (assembling_keep mark s).
Qed.

Lemma run_ops_step mark os : forall ph p sp s es,
  refines mark ph p sp s es -> 0 <= mark ->
  match run_ops mark os ph p with
  | Done p' ph' log => limits_ p' = limits_ p /\
      exists s' es', refines mark ph' p' (hear_all (limits_ p) log sp) s' es'
  | Refused e => forallb trailing_op os = false /\ (e = http_error HeaderTooLarge \/ e = http_error TooManyHeaders)
  | Illegal => True
  | Broken => False
  end.
Proof.
  induction os as [|o os IH]; intros ph p sp s es HR Hm; simpl; [split; [done|]; by exists s, es|].
  pose proof (run_op_step mark o ph p sp s es HR Hm) as H1. destruct (run_op mark o ph p) as [p1 ph1 log1|e| |]; try done.
  - destruct H1 as (Hl & s1 & es1 & H1). specialize (IH _ _ _ _ _ H1 Hm). rewrite Hl in IH.
    destruct (run_ops mark os ph1 p1) as [p2 ph2 log2|e| |]; try done.
    + destruct IH as (Hl2 & s2 & es2 & H2). split; [congruence|].
      exists s2, es2. by rewrite hear_all_app.
    + destruct IH as [-> ?]. by rewrite andb_false_r.
  - destruct H1 as [-> ?]. done.
Qed.

(** What the callback that opens a message leaves. *)
Lemma begin_refines mark p s es p0 :
  store_ p = Some s -> store_ok s -> Forall is_byte (Head.block (head_ s)) -> repr (headers_ s) es ->
  0 <= max_headers (limits_ p) -> 0 <= max_trailers (limits_ p) ->
  max_headers (limits_ p) + max_trailers (limits_ p) < 2 ^ 32 - 2 ->
  on_message_begin p = Some (p0, RetOk) ->
  limits_ p0 = limits_ p /\ exists s0, refines mark Idle p0 (mk_spec [] None false) s0 [].
Proof.
  intros Hst [Hh Hs] Hb Hre H1 H2 H3 E. unfold on_message_begin in E. rewrite Hst in E. simplify_eq.
  split; [done|]. eexists. constructor; simpl; try done; [by eapply clear_repr|].
  intros tr. unfold spec_count. simpl. by destruct tr.
Qed.
End RunSteps.

(** ** What the table then says *)

Lemma spells_resolve s a l : spells s a l -> resolve (live s) (sp_off a) (sp_len a) (sp_spilled a) = l.
Proof.
  intros (Hl & _ & H). unfold resolve. simpl. destruct (decide (l = [])) as [->|Hne].
  - by rewrite Hl.
  - specialize (H Hne). destruct (Z.eqb_spec (sp_len a) 0) as [E|_].
    + rewrite Hl in E. by apply size_zero in E.
    + by destruct (sp_spilled a); destruct H as (_ & _ & ->).
Qed.

(** The entry the lookups would answer with. *)
Definition lookup_entry (tr : bool) (name : bytes) (es : list entry_t) : bytes :=
  match List.find (fun e => eqb (en_trailer e) tr && iequals (en_name e) name) es with
  | Some e => en_value e
  | None => []
  end.

Definition entry_of (s : store_t) (r : header_ref) : entry_t :=
  mk_entry (trailer r) (ref_name (live s) r) (ref_value (live s) r).

Lemma repr_live s es : repr (headers_ s) es -> repr (live s) es.
Proof. by intros []. Qed.

Lemma denotes_entry s mark r e : denotes s mark r e -> entry_of s r = e.
Proof.
  intros (H1 & H2 & H3 & _). destruct e as [t nm v]. unfold entry_of, ref_name, ref_value. simpl in *.
  pose proof (spells_resolve s (name_span r) nm H2) as E2. pose proof (spells_resolve s (value_span r) v H3) as E3.
  simpl in E2, E3. by rewrite H1, E2, E3.
Qed.

Lemma denotes_entries s mark es ds : Forall2 (denotes s mark) es ds -> map (entry_of s) es = ds.
Proof. induction 1 as [|r e es ds H _ IH]; [done|]. simpl. by rewrite (denotes_entry _ _ _ _ H), IH. Qed.

Lemma filed_live s mark es ds :
  Forall2 (denotes s mark) es ds -> Forall2 filed_as es ds -> filed (live s) es.
Proof.
  intros H1 H2. unfold filed. revert H2. induction H1 as [|r e es ds H _ IH]; intros H2; [done|].
  apply Forall2_cons in H2 as [[F1 F2] H2]. constructor; [|by apply IH].
  apply denotes_entry in H. subst e. done.
Qed.

Lemma lookup_ref_entry s tr name es :
  lookup_ref (live s) tr name es = lookup_entry tr name (map (entry_of s) es).
Proof.
  unfold lookup_ref, lookup_entry. induction es as [|r es IH]; [done|]. simpl.
  destruct (eqb (trailer r) tr && _); [done|exact IH].
Qed.

(** A state that refines the specification answers lookups with it. *)
Lemma refines_lookup {L} mark ph (p : parser_t L) sp s es :
  refines mark ph p sp s es ->
  map (entry_of s) (entries (headers_ s)) = sp_done sp /\
  forall name, Forall is_byte name -> length name <> 17%nat ->
    get_name (live s) name = lookup_entry false name (sp_done sp) /\
    trailer_name (live s) name = lookup_entry true name (sp_done sp).
Proof.
  intros [Hst Hok Hby Hre Hdo Hfi _ _ _ _ _]. pose proof (denotes_entries _ _ _ _ Hdo) as E.
  pose proof (repr_live _ _ Hre) as Hl. pose proof (filed_live _ _ _ _ Hdo Hfi) as Hf. split.
  - by rewrite (entries_repr _ _ Hre).
  - intros name Hn Hl17. rewrite (get_name_spec _ es), (trailer_name_spec _ es), !lookup_ref_entry, E by done. done.
Qed.

(** C3: the parser records what llhttp reports. From the start of a message,
    over any header section split into runs by reads, folding or chunk
    boundaries, with the buffer filled and the body's part of it overwritten
    in between, the parser never copies outside its buffers, fails only for
    an oversized or surplus header, and otherwise its table holds exactly the
    entries of the specification, name by name and value by value, and
    answers every lookup (17-byte names apart) with the first of them. The
    specification is a function of the runs: names and values are the
    concatenations of their runs, except that a first run of 64K or more is
    cut to its length modulo 64K; a trailer is left out when trailers are off
    or at their limit, when its field may not be a trailer, or when one of
    its runs finds no room in the spill buffer. The operations are assumed
    legal: callbacks in llhttp's order on received bytes (runs below 2 GiB),
    and the buffer overwritten only behind the header section and never under
    a header that is still being assembled. *)
Theorem parser_records_headers {L} (p p0 : parser_t L) s es mark os :
  store_ p = Some s -> store_ok s -> Forall is_byte (Head.block (head_ s)) -> repr (headers_ s) es ->
  0 <= max_headers (limits_ p) -> 0 <= max_trailers (limits_ p) ->
  max_headers (limits_ p) + max_trailers (limits_ p) < 2 ^ 32 - 2 -> 0 <= mark ->
  on_message_begin p = Some (p0, RetOk) -> run_ops mark os Idle p0 <> Illegal ->
  match run_ops mark os Idle p0 with
  | Done p' _ log =>
      exists s', store_ p' = Some s' /\
      let ds := sp_done (hear_all (limits_ p) log (mk_spec [] None false)) in
      map (entry_of s') (entries (headers_ s')) = ds /\
      (forall name, Forall is_byte name -> length name <> 17%nat ->
         get_name (live s') name = lookup_entry false name ds /\
         trailer_name (live s') name = lookup_entry true name ds)
  | Refused e => e = http_error HeaderTooLarge \/ e = http_error TooManyHeaders
  | Illegal | Broken => False
  end.
Proof.
  intros Hst Hok Hby Hre H1 H2 H3 Hm Hb Hleg.
  destruct (begin_refines mark p s es p0 Hst Hok Hby Hre H1 H2 H3 Hb) as (Hl & s0 & HR).
  pose proof (run_ops_step mark os _ _ _ _ _ HR Hm) as H. destruct (run_ops mark os Idle p0); try done.
  - destruct H as (_ & s' & es' & H). rewrite Hl in H. exists s'. split; [apply H|]. by eapply refines_lookup.
  - by destruct H.
Qed.

(** A request whose second value straddles a read and is then folded, and a
    trailer received over bytes of the body. *)
Definition no_view : ll_view := mk_llv false HTTP_GET 0 1 1 true false 0.
Definition trailing_view : ll_view := mk_llv true HTTP_GET 0 1 1 true false 0.

Definition sample_store : store_t :=
  mk_store (Head.mk_head (Some (str "Host: a.b X-K: v1" ++ replicate 30 0)) 0 17 false) Spill.init empty_headers.

Definition sample_parser : parser_t unit :=
  mk_parser tt Request (mk_limits 64 4 1000 false false false) MUnknown (Some sample_store)
    no_pend no_target no_facts no_signals (mk_bodyt None None 0) (mk_feed None 0 0 false) no_error.

Definition sample_headers_run : list pop :=
  [PCall (OnHeaderField 0 2) no_view; PCall (OnHeaderField 2 2) no_view; PCall OnHeaderFieldComplete no_view;
   PCall (OnHeaderValue 6 3) no_view; PCall OnHeaderValueComplete no_view;
   PCall (OnHeaderField 10 3) no_view; PCall OnHeaderFieldComplete no_view; PCall (OnHeaderValue 15 2) no_view;
   PFill (str "23  4"); PCall (OnHeaderValue 17 2) no_view; PCall (OnHeaderValue 20 2) no_view;
   PCall OnHeaderValueComplete no_view].
Definition sample_trailers_run : list pop :=
  [PFill (str "SUM"); PCall (OnHeaderField 22 3) trailing_view; PRewind 22; PFill (str "MY: ok");
   PCall (OnHeaderField 22 2) trailing_view; PCall OnHeaderFieldComplete trailing_view;
   PCall (OnHeaderValue 26 2) trailing_view; PRewind 22; PFill (str "******");
   PCall OnHeaderValueComplete trailing_view].

Ltac solve_bytes_concrete := vm_compute; repeat (apply Forall_cons_2; [split; [discriminate|reflexivity]|]); constructor.

Lemma parser_records_headers_witness :
  exists p0 p' ph log s', on_message_begin sample_parser = Some (p0, RetOk) /\
    run_ops 22 (sample_headers_run ++ sample_trailers_run) Idle p0 = Done p' ph log /\ store_ p' = Some s' /\
    get_name (live s') (str "x-k") = str "v123 4" /\ trailer_name (live s') (str "summy") = str "ok" /\
    str "v123 4" = lookup_entry false (str "x-k")
      (sp_done (hear_all (limits_ sample_parser) log (mk_spec [] None false))).
Proof.
  destruct (on_message_begin sample_parser) as [[p0 r]|] eqn:E0; [|discriminate E0].
  assert (r = RetOk) as -> by (vm_compute in E0; congruence).
  assert (Hleg : run_ops 22 (sample_headers_run ++ sample_trailers_run) Idle p0 <> Illegal)
    by (injection E0 as E0; subst p0; vm_compute; discriminate).
  pose proof (parser_records_headers sample_parser p0 sample_store [] 22 (sample_headers_run ++ sample_trailers_run)
    eq_refl ltac:(vm_compute; repeat split; congruence) ltac:(solve_bytes_concrete)
    empty_repr ltac:(vm_compute; congruence) ltac:(vm_compute; congruence) eq_refl ltac:(lia) E0 Hleg) as H.
  clear Hleg. revert H. destruct (run_ops 22 (sample_headers_run ++ sample_trailers_run) Idle p0) as [p' ph log|e| |] eqn:Er;
    injection E0 as E0; subst p0; vm_compute in Er; try discriminate Er.
  intros (s' & Hs & _ & Hl). injection Er as Ep Eph Elog.
  destruct (Hl (str "x-k") ltac:(solve_bytes_concrete) ltac:(discriminate)) as [E1 _].
  eexists _, p', ph, log, s'. split; [reflexivity|]. split; [vm_compute; congruence|]. split; [exact Hs|].
  rewrite <- E1. subst p'. injection Hs as Hs. subst s'. split; [reflexivity|]. split; reflexivity.
Defined.

(** ** Trailers *)

Definition trailing_event (ev : heard_t) : bool :=
  match ev with HField tr _ _ | HValue tr _ _ => tr | _ => true end.

Definition allowed_trailer (e : entry_t) : Prop :=
  en_trailer e = true -> field_forbidden_in_trailer (field_from_name (en_name e)) = false.

Lemma hear_allowed lim ev sp :
  Forall allowed_trailer (sp_done sp) -> Forall allowed_trailer (sp_done (hear lim ev sp)).
Proof.
  intros H. destruct ev as [tr x rm| |tr x rm|]; unfold hear; [by repeat case_match|done|by repeat case_match|].
  destruct (sp_cur sp) as [e|]; [|done]. destruct (en_trailer e && negb _) eqn:E; [done|]. simpl.
  apply Forall_app. split; [done|]. constructor; [|done]. intros Ht. rewrite Ht in E. unfold keeps_trailer in E.
  destruct (field_forbidden_in_trailer _); [|done]. by rewrite andb_false_r in E.
Qed.

Lemma hear_all_allowed lim log : forall sp,
  Forall allowed_trailer (sp_done sp) -> Forall allowed_trailer (sp_done (hear_all lim log sp)).
Proof. induction log as [|ev log IH]; intros sp H; simpl; [done|]. by apply IH, hear_allowed. Qed.

(** A trailer section only appends trailers. *)
Lemma hear_trailing lim log : forall sp,
  forallb trailing_event log = true -> (forall e, sp_cur sp = Some e -> en_trailer e = true) ->
  exists ts, sp_done (hear_all lim log sp) = sp_done sp ++ ts /\ Forall (fun e => en_trailer e = true) ts.
Proof.
  induction log as [|ev log IH]; intros sp Hev Hcur; simpl in *; [exists []; by rewrite app_nil_r|].
  apply andb_true_iff in Hev as [Hev Hlog].
  assert (exists t1, sp_done (hear lim ev sp) = sp_done sp ++ t1 /\ Forall (fun e => en_trailer e = true) t1 /\
    forall e, sp_cur (hear lim ev sp) = Some e -> en_trailer e = true) as (t1 & E1 & H1 & Hc).
  { destruct ev as [tr x rm| |tr x rm|]; simpl in Hev; try subst tr; unfold hear.
    - exists []. rewrite app_nil_r. by repeat case_match; simplify_eq/=; split_and!; intros; simplify_eq/=; auto.
    - exists []. by rewrite app_nil_r.
    - exists []. rewrite app_nil_r. destruct (spec_ignored _ _ _); [done|]. destruct (_ && _); [by split_and!|].
      split_and!; [done|done|]. destruct (sp_cur sp) as [e|]; simpl; [|done]. intros ? [= <-]. simpl. by apply Hcur.
    - destruct (sp_cur sp) as [e|] eqn:E; [|exists []; by rewrite app_nil_r]. specialize (Hcur e eq_refl).
      destruct (en_trailer e && _); [exists []; by rewrite app_nil_r|]. exists [e]. split_and!; [done|by constructor|done]. }
  destruct (IH _ Hlog Hc) as (t2 & E2 & H2). exists (t1 ++ t2).
  rewrite E2, E1, app_assoc. split; [done|]. by apply Forall_app.
Qed.

(** Answers by field, in terms of the recorded entries. *)
Definition header_for (f : field_t) (e : entry_t) : bool :=
  negb (en_trailer e) && bool_decide (field_from_name (en_name e) = f).

Lemma refines_fields {L} mark ph (p : parser_t L) sp s es f :
  refines mark ph p sp s es -> f <> Other ->
  has (live s) f = existsb (header_for f) (sp_done sp) /\
  get_field (live s) f = match List.find (header_for f) (sp_done sp) with Some e => en_value e | None => [] end.
Proof.
  intros [Hst Hok Hby Hre Hdo Hfi _ _ _ _ _] Hf. pose proof (denotes_entries _ _ _ _ Hdo) as E.
  pose proof (repr_live _ _ Hre) as Hl. pose proof (filed_live _ _ _ _ Hdo Hfi) as Hfl. split.
  - unfold has. rewrite bool_decide_eq_false_2, land_field_bit by done. cbn [negb andb].
    change (bitmap_ (live s)) with (bitmap_ (headers_ s)). rewrite (rp_bits _ _ Hre f Hf), <- E.
    clear -Hfl. induction Hfl as [|r es [Hr _] _ IH]; [done|]. simpl. rewrite IH. unfold header_for. simpl.
    rewrite <- Hr. by destruct (trailer r).
  - unfold get_field, has. rewrite (guarded_scan (live s) es false f _ Hl Hf (rp_bits _ _ Hl)), <- E.
    clear -Hfl. induction Hfl as [|r es [Hr _] _ IH]; [done|]. simpl. unfold header_for at 1. simpl.
    rewrite <- Hr. destruct (trailer r); simpl; [exact IH|]. by case_bool_decide.
Qed.

Lemma find_app_none {A} (p : A -> bool) l k : Forall (fun x => p x = false) k -> List.find p (l ++ k) = List.find p l.
Proof.
  intros Hk. induction l as [|x l IH]; simpl; [|by rewrite IH]. induction Hk as [|y k Hy _ IHk]; simpl; [done|by rewrite Hy].
Qed.

Lemma existsb_app_none {A} (p : A -> bool) l k : Forall (fun x => p x = false) k -> existsb p (l ++ k) = existsb p l.
Proof.
  intros Hk. rewrite existsb_app. replace (existsb p k) with false; [by rewrite orb_false_r|].
  induction Hk as [|y k Hy _ IHk]; simpl; [done|by rewrite Hy].
Qed.

Lemma has_other h : has h Other = false.
Proof. done. Qed.
Lemma get_field_other h : get_field h Other = [].
Proof. done. Qed.

(** Two refined states whose entries differ by trailers answer header lookups alike. *)
Lemma trailers_inert {L} mark ph1 ph2 (p1 p2 : parser_t L) sp1 sp2 s1 s2 es1 es2 ts :
  refines mark ph1 p1 sp1 s1 es1 -> refines mark ph2 p2 sp2 s2 es2 ->
  sp_done sp2 = sp_done sp1 ++ ts -> Forall (fun e => en_trailer e = true) ts ->
  (forall f, has (live s2) f = has (live s1) f /\ get_field (live s2) f = get_field (live s1) f) /\
  (forall name, Forall is_byte name -> length name <> 17%nat -> get_name (live s2) name = get_name (live s1) name).
Proof.
  intros H1 H2 E Hts. split.
  - intros f. destruct (decide (f = Other)) as [->|Hf]; [by rewrite !has_other, !get_field_other|].
    destruct (refines_fields _ _ _ _ _ _ f H1 Hf) as [-> ->]. destruct (refines_fields _ _ _ _ _ _ f H2 Hf) as [-> ->].
    rewrite E. assert (Forall (fun e => header_for f e = false) ts) as Hn.
    { eapply Forall_impl; [exact Hts|]. intros e He. unfold header_for. simpl in He. by rewrite He. }
    by rewrite existsb_app_none, find_app_none.
  - intros name Hn Hl. destruct (refines_lookup _ _ _ _ _ _ H1) as [_ L1]. destruct (refines_lookup _ _ _ _ _ _ H2) as [_ L2].
    destruct (L1 name Hn Hl) as [-> _]. destruct (L2 name Hn Hl) as [-> _]. unfold lookup_entry. rewrite E, find_app_none; [done|].
    eapply Forall_impl; [exact Hts|]. intros e He. simpl in He. cbv beta. by rewrite He.
Qed.

(** The log of a trailing run holds trailing events. *)
Lemma run_ops_trailing {L} mark os : forall ph (p p' : parser_t L) ph' log,
  forallb trailing_op os = true -> run_ops mark os ph p = Done p' ph' log -> forallb trailing_event log = true.
Proof.
  induction os as [|o os IH]; intros ph p p' ph' log Ho E; simpl in *; [by simplify_eq|].
  apply andb_true_iff in Ho as [Ho Hos]. destruct (run_op mark o ph p) as [p1 ph1 log1|e| |] eqn:E1; try done.
  destruct (run_ops mark os ph1 p1) as [p2 ph2 log2|e| |] eqn:E2; try done. simplify_eq.
  rewrite forallb_app, (IH _ _ _ _ _ Hos E2), andb_true_r. unfold run_op in E1.
  destruct (store_ p); [|done]. destruct o as [c v|data|pos]; repeat case_match; simplify_eq; try done.
  simpl in Ho. destruct c; simpl; by rewrite ?Ho.
Qed.

(** trailers are inert. Once the header section is recorded, a trailer
    section, with the body region of the buffer overwritten around it, never
    fails the message, never changes the answer of a header lookup by field
    or name, never records a field that framing, routing or authentication
    use, and never more entries than its own limit. *)
Theorem parser_trailers_inert {L} (p p0 p1 : parser_t L) s es mark os1 os2 log1 :
  store_ p = Some s -> store_ok s -> Forall is_byte (Head.block (head_ s)) -> repr (headers_ s) es ->
  0 <= max_headers (limits_ p) -> 0 <= max_trailers (limits_ p) ->
  max_headers (limits_ p) + max_trailers (limits_ p) < 2 ^ 32 - 2 -> 0 <= mark ->
  on_message_begin p = Some (p0, RetOk) ->
  run_ops mark os1 Idle p0 = Done p1 Idle log1 -> forallb trailing_op os2 = true ->
  match run_ops mark os2 Idle p1 with
  | Done p2 _ _ =>
      exists s1 s2, store_ p1 = Some s1 /\ store_ p2 = Some s2 /\
      (forall f, has (live s2) f = has (live s1) f /\ get_field (live s2) f = get_field (live s1) f) /\
      (forall name, Forall is_byte name -> length name <> 17%nat -> get_name (live s2) name = get_name (live s1) name) /\
      Forall (fun r => trailer r = true -> field_forbidden_in_trailer (field r) = false) (entries (headers_ s2)) /\
      trailers_ (headers_ s2) <= max_trailers (limits_ p)
  | Refused _ => False
  | Illegal => True
  | Broken => False
  end.
Proof.
  intros Hst Hok Hby Hre H1 H2 H3 Hm Hb E1 Hos.
  destruct (begin_refines mark p s es p0 Hst Hok Hby Hre H1 H2 H3 Hb) as (Hl & s0 & HR).
  pose proof (run_ops_step mark os1 _ _ _ _ _ HR Hm) as Hr1. rewrite E1, Hl in Hr1.
  destruct Hr1 as (Hl1 & s1 & es1 & R1).
  pose proof (run_ops_step mark os2 _ _ _ _ _ R1 Hm) as Hr2.
  destruct (run_ops mark os2 Idle p1) as [p2 ph2 log2|e| |] eqn:E2; try done.
  - destruct Hr2 as (Hl2 & s2 & es2 & R2). exists s1, s2. split; [apply R1|]. split; [apply R2|].
    pose proof (rf_attended _ _ _ _ _ _ R1) as [Hcur _].
    destruct (hear_trailing (limits_ p1) log2 _ (run_ops_trailing _ _ _ _ _ _ _ Hos E2)
      (fun e He => ltac:(rewrite Hcur in He; discriminate He))) as (ts & Ets & Hts).
    destruct (trailers_inert _ _ _ _ _ _ _ _ _ _ _ ts R1 R2 Ets Hts) as [Hf Hn]. split; [done|]. split; [done|].
    destruct R2 as [_ _ _ Hre2 Hdo2 Hfi2 _ _ _ _ Hco2]. split.
    + rewrite (entries_repr _ _ Hre2).
      assert (Forall allowed_trailer (sp_done (hear_all (limits_ p1) log2 (hear_all (limits_ p) log1 (mk_spec [] None false))))) as Ha
        by (apply hear_all_allowed, hear_all_allowed; constructor).
      revert Ha. clear -Hdo2 Hfi2. revert Hfi2. induction Hdo2 as [|r e es ds Hd _ IH]; intros Hfi Ha; [done|].
      apply Forall2_cons in Hfi as [[Hf _] Hfi]. apply Forall_cons in Ha as [Ha1 Ha]. constructor; [|by apply IH].
      destruct Hd as (-> & _). intros Ht. rewrite Hf. by apply Ha1.
    + rewrite (rp_trailers _ _ Hre2), (spec_count_kind true _ _ (denotes_trailers _ _ _ _ Hdo2)).
      specialize (Hco2 true). simpl in Hco2. congruence.
  - destruct Hr2 as [Hr2 _]. congruence.
Qed.

Lemma parser_trailers_inert_witness :
  exists p0 p1 p2 ph log1 log2 s1 s2, on_message_begin sample_parser = Some (p0, RetOk) /\
    run_ops 22 sample_headers_run Idle p0 = Done p1 Idle log1 /\
    run_ops 22 sample_trailers_run Idle p1 = Done p2 ph log2 /\
    store_ p1 = Some s1 /\ store_ p2 = Some s2 /\ trailers_ (headers_ s2) = 1 /\
    get_field (live s2) Host = get_field (live s1) Host.
Proof.
  destruct (on_message_begin sample_parser) as [[p0 r]|] eqn:E0; [|discriminate E0].
  assert (r = RetOk) as -> by (vm_compute in E0; congruence).
  destruct (run_ops 22 sample_headers_run Idle p0) as [p1 ph1 log1|e| |] eqn:E1;
    injection E0 as E0; subst p0; pose proof E1 as E1'; vm_compute in E1'; try discriminate E1'.
  assert (ph1 = Idle) as -> by congruence.
  pose proof (parser_trailers_inert sample_parser _ p1 sample_store [] 22 sample_headers_run sample_trailers_run log1
    eq_refl ltac:(vm_compute; repeat split; congruence) ltac:(solve_bytes_concrete)
    empty_repr ltac:(vm_compute; congruence) ltac:(vm_compute; congruence) eq_refl ltac:(lia) eq_refl E1 eq_refl) as H.
  injection E1' as Ep Elog. clear E1. subst log1. revert H.
  destruct (run_ops 22 sample_trailers_run Idle p1) as [p2 ph2 log2|e| |] eqn:E2; subst p1;
    pose proof E2 as E2'; vm_compute in E2'; try discriminate E2'.
  intros (s1 & s2 & Hs1 & Hs2 & Hf & _). destruct (Hf Host) as [_ Hh].
  eexists _, _, p2, ph2, _, log2, s1, s2. split; [reflexivity|]. split; [vm_compute; reflexivity|].
  split; [exact E2|]. split; [exact Hs1|]. split; [exact Hs2|]. split; [|exact Hh].
  injection E2' as Ep2 _ _. subst p2. injection Hs2 as Hs2. subst s2. reflexivity.
Defined.
