(* ===== verification/ParserFeed.v ===== *)
(** * Feeding the parser

    How [parser_t] drives llhttp over a window of the receive buffer: the
    accounting of consumed bytes that pipelining relies on, the checks a
    request passes before its headers are reported, and the body runs. *)

From stdpp Require Import prelude list list_numbers strings.
From Stdlib Require Import ZArith Lia.
From S2P Require Import Prelude Protocol Buffer Headers Parser.
Open Scope Z_scope.

(** ** What is documented of llhttp *)

(** Every way a run can end, its error position lies in the window. *)
Fixpoint returns_in {L} (lo hi : Z) (t : ll_run L) : Prop :=
  match t with
  | LReturn _ (Some x) _ => lo <= x <= hi
  | LReturn _ None _ => True
  | LCall _ _ k => forall r, returns_in lo hi (k r)
  end.

(** A callback that pauses or fails ends the run, with the matching error. *)
Fixpoint obeys {L} (t : ll_run L) : Prop :=
  match t with
  | LReturn _ _ _ => True
  | LCall _ _ k =>
      (exists pos l, k RetPaused = LReturn HPE_PAUSED pos l) /\
      (exists c pos l, k RetFail = LReturn (HPE_OTHER c) pos l) /\
      forall r, obeys (k r)
  end.

Class llhttp_laws {L} (ops : llhttp_ops L) : Prop := {
  execute_stops : forall l off data, returns_in off (off + size data) (llhttp_execute ops l off data);
  execute_obeys : forall l off data, obeys (llhttp_execute ops l off data)
}.

Section Feed.
Context {L : Type} (ops : llhttp_ops L) `{!llhttp_laws ops}.
Implicit Types p : parser_t L.

(** ** What a run of llhttp leaves alone *)

Definition same_frame p p' : Prop :=
  feedst_ p' = feedst_ p /\ limits_ p' = limits_ p /\ type_ p' = type_ p /\
  (forall s, store_ p = Some s -> exists s', store_ p' = Some s' /\ Head.block (head_ s') = Head.block (head_ s)).

Lemma same_frame_refl p : same_frame p p.
Proof. split_and!; try done. intros s Hs. by exists s. Qed.

Lemma same_frame_trans p1 p2 p3 : same_frame p1 p2 -> same_frame p2 p3 -> same_frame p1 p3.
Proof.
  intros (F1 & F2 & F3 & F4) (G1 & G2 & G3 & G4). unfold same_frame. rewrite G1, G2, G3. split_and!; try done.
  intros s Hs. destruct (F4 s Hs) as (s' & Hs' & <-). by apply G4.
Qed.

Lemma accumulate_head s a at_ n x y s' a' r : accumulate s a at_ n x y = Some (s', a', r) -> head_ s' = head_ s.
Proof. unfold accumulate. intros E. by repeat case_match; simplify_eq. Qed.

Lemma callback_frame c v p p' r : callback c v p = Some (p', r) -> same_frame p p'.
Proof.
  unfold same_frame. destruct c; simpl; unfold on_message_begin, on_url, on_header_field, on_header_field_complete,
    on_header_value, on_header_value_complete, finish_header, on_headers_complete, on_body, on_message_complete; intros E;
    repeat case_match; simplify_eq; simpl; split_and!; try done; intros ss Hs; simplify_eq; eexists; (split; [done|]);
    try done; simpl; by erewrite accumulate_head by eassumption.
Qed.

Lemma drive_frame t : forall p p' err pos, drive t p = Some (p', err, pos) -> same_frame p p'.
Proof.
  induction t as [e x l|c v k IH]; intros p p' err pos E; simpl in E; [simplify_eq; apply (same_frame_refl p)|].
  destruct (callback c v p) as [[p1 r]|] eqn:Ec; [|done].
  eapply same_frame_trans; [by eapply callback_frame|by eapply IH].
Qed.

Lemma drive_stop t lo hi : forall p p' err pos,
  returns_in lo hi t -> drive t p = Some (p', err, Some pos) -> lo <= pos <= hi.
Proof.
  induction t as [e x l|c v k IH]; intros p p' err pos Hr E; simpl in *; [by simplify_eq|].
  destruct (callback c v p) as [[p1 r]|]; [|done]. by eapply IH.
Qed.

(** ** Accounting *)

(** The parser stands at [pos] of a window that ends at [end_]; [base] is
    what the count of consumed bytes was at offset zero. *)
Record stands p (pos end_ base : Z) : Prop := {
  st_feed : feed_ (feedst_ p) = Some (pos, end_);
  st_range : 0 <= pos <= end_ /\ end_ < 2 ^ 32;
  st_consumed : consumed_ (feedst_ p) = u32 (base + pos);
  st_store : exists s, store_ p = Some s /\ end_ <= Head.capacity (head_ s)
}.

Lemma end_message_frame p : same_frame p (end_message p).
Proof.
  unfold end_message. destruct (store_ p) as [s|] eqn:E; [|apply same_frame_refl].
  unfold same_frame. simpl. rewrite E. split_and!; try done. intros ? [= <-]. by eexists.
Qed.

Lemma latch_frame p err : same_frame p (latch_error ops p err).
Proof. unfold latch_error. destruct (is_error _); apply (same_frame_refl p). Qed.

Lemma stands_frame p q pos end_ base : same_frame p q -> stands p pos end_ base -> stands q pos end_ base.
Proof.
  intros (G1 & _ & _ & G4) [Hf Hr Hc (s & Hs & Hcap)]. constructor; rewrite ?G1; try done.
  destruct (G4 s Hs) as (s2 & Hs2 & Hb2). exists s2. split; [done|]. unfold Head.capacity in *. by rewrite Hb2.
Qed.

Lemma advance_stands p pos end_ base x :
  stands p pos end_ base -> pos <= x <= end_ ->
  stands (advance_to p pos end_ x) x end_ base /\ consumed_offset_ (feedst_ (advance_to p pos end_ x)) = x.
Proof.
  intros [Hf Hr Hc Hs] Hx. split; [|apply u32_small; lia]. constructor; simpl; [done|lia| |done].
  rewrite Hc. unfold u32. rewrite <- Zplus_mod. f_equal. lia.
Qed.

(** One call moved forward and reports where it stands; only a failed one
    may instead have stayed. *)
Definition moves p p' (pos end_ base : Z) (r : result_t) : Prop :=
  exists pos', stands p' pos' end_ base /\ pos <= pos' /\
    (consumed_offset_ (feedst_ p') = pos' \/
     r = PError /\ pos' = pos /\ consumed_offset_ (feedst_ p') = consumed_offset_ (feedst_ p)).

Lemma classify_moves p pos end_ base err stop :
  stands p pos end_ base -> pos <= default pos stop <= end_ ->
  moves p (classify ops p pos end_ err stop).1 pos end_ base (classify ops p pos end_ err stop).2.
Proof.
  intros Hst Hx. pose proof (st_range _ _ _ _ Hst) as Hr.
  assert (forall x q r, pos <= x <= end_ -> same_frame (advance_to p pos end_ x) q -> moves p q pos end_ base r) as Hadv.
  { intros x q r Hxx Hq. destruct (advance_stands _ _ _ _ x Hst Hxx) as [H1 H2]. exists x.
    split; [by eapply stands_frame|]. split; [lia|]. left. destruct Hq as (-> & _). done. }
  destruct err; unfold classify.
  - apply (Hadv end_); [lia|apply same_frame_refl].
  - set (q := set_state _ _). assert (same_frame (advance_to p pos end_ (default pos stop)) q) as Hq by exact (same_frame_refl (advance_to p pos end_ (default pos stop))).
    destruct (message_done_ _); [apply (Hadv _ _ _ Hx); eapply same_frame_trans; [exact Hq|apply end_message_frame]|].
    destruct (headers_signal_ _); [by apply (Hadv _ _ _ Hx)|].
    destruct (body_paused_ _); by apply (Hadv _ _ _ Hx).
  - apply (Hadv _ _ _ Hx). exact (same_frame_refl (advance_to p pos end_ (default pos stop))).
  - exists pos. pose proof (latch_frame p (HPE_OTHER code)) as Hl. split; [by eapply stands_frame|]. split; [lia|].
    right. destruct Hl as (Hl & _). cbn [fst snd]. by rewrite Hl.
Qed.

Lemma pump_moves p pos end_ base p' r :
  stands p pos end_ base -> pump ops p = Some (p', r) -> moves p p' pos end_ base r.
Proof.
  intros Hst E. pose proof Hst as [Hf Hr Hc (s & Hs & Hcap)]. unfold pump in E. rewrite Hf, Hs in E.
  destruct ((end_ <=? pos) && zero_fed_ (feedst_ p)) eqn:Ez.
  { simplify_eq. exists pos. split; [by constructor; simpl; eauto|]. split; [lia|]. left. simpl. apply u32_small. lia. }
  set (p0 := set_signals _ no_signals) in E. set (tree := llhttp_execute _ _ _ _) in E.
  destruct (drive tree p0) as [[[p1 err] stop]|] eqn:Ed; [|done].
  assert (stands p0 pos end_ base) as Hst0 by (constructor; simpl; eauto).
  pose proof (drive_frame _ _ _ _ _ Ed) as Hfr.
  assert (pos <= default pos stop <= end_) as Hstop.
  { destruct stop as [x|]; simpl; [|lia]. apply (drive_stop tree pos end_ p0 p1 err); [|done].
    pose proof (execute_stops (state_ p0) pos (Head.view (head_ s) pos (end_ - pos))) as H.
    assert (size (Head.view (head_ s) pos (end_ - pos)) = end_ - pos) as Hsz
      by (apply size_view_at; unfold Head.capacity in *; lia).
    rewrite Hsz in H. by replace (pos + (end_ - pos)) with end_ in H by lia. }
  pose proof (classify_moves p1 pos end_ base err stop (stands_frame _ _ _ _ _ Hfr Hst0) Hstop) as (x & H1 & H2 & H3).
  destruct (classify ops p1 pos end_ err stop) as [p2 r2] eqn:Ec. injection E as <- <-. simpl in H1, H3. exists x.
  split; [done|]. split; [done|]. destruct H3 as [H3|(-> & -> & H3)]; [by left|right]. split_and!; try done.
  rewrite H3. destruct Hfr as (-> & _). done.
Qed.

Lemma execute_pump off len p s :
  store_ p = Some s ->
  execute ops off len p =
  pump ops (set_feed p (mk_feed (Some (off, off + len)) (consumed_ (feedst_ p)) (consumed_offset_ (feedst_ p)) false)).
Proof. intros Hs. unfold execute. by rewrite Hs. Qed.

(** Resuming [n] times. *)
Fixpoint resumes (n : nat) p : option (parser_t L * list result_t) :=
  match n with
  | O => Some (p, [])
  | S n => match resume ops p with
           | Some (p, r) => match resumes n p with Some (p, rs) => Some (p, r :: rs) | None => None end
           | None => None
           end
  end.

Lemma resumes_stands n : forall p pos end_ base p' rs,
  stands p pos end_ base -> resumes n p = Some (p', rs) -> exists pos', stands p' pos' end_ base /\ pos <= pos'.
Proof.
  induction n as [|n IH]; intros p pos end_ base p' rs Hst E; simpl in E; [simplify_eq; eauto with lia|].
  destruct (resume ops p) as [[p1 r]|] eqn:Er; [|done]. destruct (resumes n p1) as [[p2 rs2]|] eqn:E2; [|done]. simplify_eq.
  unfold resume in Er. destruct (st_store _ _ _ _ Hst) as (s & Hs & _). rewrite Hs in Er.
  destruct (pump_moves _ _ _ _ _ _ Hst Er) as (x & H1 & H2 & _).
  destruct (IH _ _ _ _ _ _ H1 E2) as (y & ? & ?). exists y. split; [done|lia].
Qed.

(** What llhttp answered when this call fed it the rest of the window:
    [None] when it was not asked, the window being used up and already
    reported. *)
Definition llhttp_answer p : option (ll_errno * option Z) :=
  match feed_ (feedst_ p), store_ p with
  | Some (pos, end_), Some s =>
      if (end_ <=? pos) && zero_fed_ (feedst_ p) then None
      else
        let fed := mk_feed (feed_ (feedst_ p)) (consumed_ (feedst_ p)) (consumed_offset_ (feedst_ p)) (end_ <=? pos) in
        match drive (llhttp_execute ops (state_ p) pos (Head.view (head_ s) pos (end_ - pos)))
                (set_signals (set_feed p fed) no_signals) with
        | Some (_, err, stop) => Some (err, stop)
        | None => None
        end
  | _, _ => None
  end.

(** A call that answered [r] took the parser from [pos] to [pos'] of the
    window that ends at [end_]: to its end when llhttp took everything, to
    where llhttp stopped when it paused, nowhere when it failed or was not
    asked. *)
Definition fed p p' (r : result_t) (off end_ base : Z) : Prop :=
  exists pos pos', off <= pos <= pos' /\ pos' <= end_ /\
    feed_ (feedst_ p) = Some (pos, end_) /\ feed_ (feedst_ p') = Some (pos', end_) /\
    consumed_ (feedst_ p) = u32 (base + pos) /\ consumed_ (feedst_ p') = u32 (base + pos') /\
    (r <> PError -> consumed_offset_ (feedst_ p') = pos') /\ (r = NeedMore -> pos' = end_) /\
    match llhttp_answer p with
    | None => r = NeedMore /\ pos = end_ /\ state_ p' = state_ p /\ store_ p' = store_ p
    | Some (HPE_OK, _) => r = NeedMore
    | Some (HPE_PAUSED, stop) => pos' = default pos stop /\ r <> NeedMore
    | Some (HPE_PAUSED_UPGRADE, stop) => pos' = default pos stop /\ r = UpgradeReady
    | Some (HPE_OTHER _, _) => pos' = pos /\ r = PError
    end.

Lemma classify_answer p pos end_ err stop :
  0 <= pos <= end_ -> end_ < 2 ^ 32 -> feed_ (feedst_ p) = Some (pos, end_) -> pos <= default pos stop <= end_ ->
  let '(q, r) := classify ops p pos end_ err stop in
  exists pos', feed_ (feedst_ q) = Some (pos', end_) /\ (r <> PError -> consumed_offset_ (feedst_ q) = pos') /\
    (r = NeedMore -> pos' = end_) /\
    match err with
    | HPE_OK => r = NeedMore
    | HPE_PAUSED => pos' = default pos stop /\ r <> NeedMore
    | HPE_PAUSED_UPGRADE => pos' = default pos stop /\ r = UpgradeReady
    | HPE_OTHER _ => pos' = pos /\ r = PError
    end.
Proof.
  intros Hp He Hf Hs. destruct err; unfold classify.
  - exists end_. simpl. rewrite u32_small by lia. done.
  - set (q := set_state _ _). assert (feedst_ (end_message q) = feedst_ q) as Hq by apply (end_message_frame q).
    assert (feedst_ q = mk_feed (Some (default pos stop, end_)) (u32 (consumed_ (feedst_ p) + u32 (default pos stop - pos)))
      (u32 (default pos stop)) (zero_fed_ (feedst_ p))) as Hfq by done.
    destruct (message_done_ _); [|destruct (headers_signal_ _); [|destruct (body_paused_ _)]]; exists (default pos stop);
      cbn [set_error feedst_]; rewrite ?Hq, Hfq; cbn; rewrite ?u32_small by lia; repeat split; try done; by destruct (upgrade_ _).
  - exists (default pos stop). cbn. rewrite u32_small by lia. done.
  - exists pos. pose proof (latch_frame p (HPE_OTHER code)) as (-> & _). done.
Qed.

Lemma pump_fed p pos end_ base p' r :
  stands p pos end_ base -> pump ops p = Some (p', r) -> fed p p' r pos end_ base.
Proof.
  intros Hst E. destruct (pump_moves _ _ _ _ _ _ Hst E) as (pos1 & Hst1 & Hle & _).
  pose proof Hst as [Hf Hr Hc (s & Hs & Hcap)]. pose proof (st_range _ _ _ _ Hst1) as Hr1.
  exists pos, pos1. split; [lia|]. split; [lia|]. split; [done|]. split; [apply Hst1|]. split; [done|]. split; [apply Hst1|].
  unfold pump in E. unfold llhttp_answer. rewrite Hf, Hs in *.
  destruct ((end_ <=? pos) && zero_fed_ (feedst_ p)) eqn:Ez.
  { apply andb_true_iff in Ez as [Ez _]. zify_bool. assert (pos = end_) as -> by lia. injection E as <- <-.
    pose proof (st_feed _ _ _ _ Hst1) as Hf1. simpl in Hf1. injection Hf1 as <-. simpl. rewrite u32_small by lia. done. }
  set (p0 := set_signals _ no_signals) in *. set (tree := llhttp_execute _ _ _ _) in E.
  change (llhttp_execute ops (state_ p) pos (Head.view (head_ s) pos (end_ - pos))) with tree.
  destruct (drive tree p0) as [[[p1 err] stop]|] eqn:Ed; [|done].
  assert (stands p0 pos end_ base) as Hst0 by (constructor; simpl; eauto).
  pose proof (drive_frame _ _ _ _ _ Ed) as (Hfr & _).
  assert (pos <= default pos stop <= end_) as Hstop.
  { destruct stop as [x|]; simpl; [|lia]. apply (drive_stop tree pos end_ p0 p1 err); [|done].
    pose proof (execute_stops (state_ p0) pos (Head.view (head_ s) pos (end_ - pos))) as H.
    assert (size (Head.view (head_ s) pos (end_ - pos)) = end_ - pos) as Hsz
      by (apply size_view_at; unfold Head.capacity in *; lia).
    rewrite Hsz in H. by replace (pos + (end_ - pos)) with end_ in H by lia. }
  pose proof (classify_answer p1 pos end_ err stop ltac:(lia) ltac:(lia) ltac:(by rewrite Hfr) Hstop) as Hc1.
  injection E as E. rewrite E in Hc1. destruct Hc1 as (x & H1 & H2 & H3 & H4).
  rewrite (st_feed _ _ _ _ Hst1) in H1. injection H1 as <-. done.
Qed.
End Feed.

Section KeptHead.
Context {L : Type}.
Implicit Types p : parser_t L.

(** The receive buffer is the same, but for its parsing flag. *)
Definition kept_head p p' : Prop :=
  forall s, store_ p = Some s -> exists s', store_ p' = Some s' /\ Head.lease_ (head_ s') = Head.lease_ (head_ s) /\ Head.w_ (head_ s') = Head.w_ (head_ s) /\ Head.r_ (head_ s') = Head.r_ (head_ s).

Lemma kept_head_refl p : kept_head p p.
Proof. intros s Hs. by exists s. Qed.
Lemma kept_head_trans p1 p2 p3 : kept_head p1 p2 -> kept_head p2 p3 -> kept_head p1 p3.
Proof. intros H1 H2 s Hs. destruct (H1 s Hs) as (s2 & Hs2 & A1 & A2 & A3). destruct (H2 s2 Hs2) as (s3 & Hs3 & B1 & B2 & B3). exists s3. split; [done|]. split_and!; congruence. Qed.

Lemma callback_keeps c v p p' r : callback c v p = Some (p', r) -> kept_head p p'.
Proof.
  unfold kept_head. destruct c; simpl; unfold on_message_begin, on_url, on_header_field, on_header_field_complete,
    on_header_value, on_header_value_complete, finish_header, on_headers_complete, on_body, on_message_complete; intros E;
    repeat case_match; simplify_eq; intros ss Hs; simplify_eq; eexists; (split; [done|]); try done; simpl; by erewrite accumulate_head by eassumption.
Qed.

Lemma drive_keeps t : forall p p' err pos, drive t p = Some (p', err, pos) -> kept_head p p'.
Proof.
  induction t as [e x l|c v k IH]; intros p p' err pos E; simpl in E; [simplify_eq; exact (kept_head_refl p)|].
  destruct (callback c v p) as [[p1 r]|] eqn:Ec; [|done]. eapply kept_head_trans; [by eapply callback_keeps|by eapply IH].
Qed.

Lemma pump_keeps (ops : llhttp_ops L) p p' r : pump ops p = Some (p', r) -> kept_head p p'.
Proof.
  unfold pump. destruct (feed_ (feedst_ p)) as [[pos end_]|]; [|done]. destruct (store_ p) as [s|] eqn:Hs; [|done].
  destruct (_ && _); [intros [= <- <-]; intros s' Hs'; by exists s'|].
  destruct (drive _ _) as [[[p1 err] stop]|] eqn:Ed; [|done]. apply drive_keeps in Ed. intros [= Hc]. assert (H1 : kept_head p p1) by exact Ed.
  eapply kept_head_trans; [exact H1|]. unfold classify, latch_error, end_message in Hc.
  repeat case_match; simplify_eq; intros s1 Hs1; simpl in *; simplify_eq; eexists; (split; [done|]); done.
Qed.

End KeptHead.


(** ** A request whose headers are reported *)

(** What [on_headers_complete] has checked. *)
Definition request_valid {L} (p : parser_t L) : Prop :=
  exists s, store_ p = Some s /\
    (version_ (facts_ p) = Http11 -> has (live s) Host = true) /\
    (has (live s) Host = true -> (host_count (live s) <= 1)%nat) /\
    has_content_length_ (facts_ p) = has (live s) ContentLength /\
    (has_content_length_ (facts_ p) = true -> content_length_ (facts_ p) <= max_body_bytes (limits_ p)) /\
    chunked_ (facts_ p) = contains_token (live s) TransferEncoding (str "chunked").

Section Validity.
Context {L : Type}.
Implicit Types p : parser_t L.

Lemma headers_complete_valid p v p' r :
  type_ p = Request -> on_headers_complete p v = Some (p', r) ->
  (r = RetPaused /\ request_valid p') \/ r = RetFail.
Proof.
  intros Ht E. unfold on_headers_complete in E. destruct (store_ p) as [s|] eqn:Hs; [|done]. cbv zeta in E.
  set (q := set_facts p _) in E. assert (type_ q = Request) as Hq by done. rewrite Hq in E.
  rewrite bool_decide_eq_true_2 in E by done. cbn [andb] in E.
  destruct (bool_decide (_ = Http11) && negb _) eqn:E1; [simplify_eq; by right|].
  destruct (has (live s) Host && _) eqn:E2; [simplify_eq; by right|].
  destruct (_ && (max_body_bytes _ <? _)) eqn:E3; [simplify_eq; by right|].
  unfold headers_end_message in E. rewrite Hq in E. injection E as <- <-. left. split; [done|].
  exists s. split; [done|]. simpl. split_and!; [| |done| |done].
  - intros Hv. rewrite Hv, bool_decide_eq_true_2 in E1 by done. by apply negb_false_iff in E1.
  - intros Hh. rewrite Hh in E2. by apply Nat.ltb_ge in E2.
  - intros Hc. simpl in E3. rewrite Hc in E3. by apply Z.ltb_ge in E3.
Qed.

(** No other callback of a request raises the headers signal or answers that there is no body. *)
Lemma callback_quiet c v p p' r :
  callback c v p = Some (p', r) -> c <> OnHeadersComplete -> headers_signal_ (signals_ p) = false ->
  headers_signal_ (signals_ p') = false /\ r <> RetNoBody.
Proof.
  destruct c; simpl; unfold on_message_begin, on_url, on_header_field, on_header_field_complete,
    on_header_value, on_header_value_complete, on_body, on_message_complete; intros E Hc Hs; try done;
    repeat case_match; by simplify_eq.
Qed.

Lemma drive_valid t : forall p p' pos,
  obeys t -> type_ p = Request -> headers_signal_ (signals_ p) = false ->
  drive t p = Some (p', HPE_PAUSED, pos) -> headers_signal_ (signals_ p') = true -> request_valid p'.
Proof.
  induction t as [e x l|c v k IH]; intros p p' pos Ho Ht Hs E Hs'; simpl in *; [simplify_eq; simpl in Hs'; congruence|].
  destruct Ho as ((px & lx & Ep) & (cf & pf & lf & Ef) & Ho).
  destruct (callback c v p) as [[p1 r]|] eqn:Ec; [|done].
  assert (type_ p1 = Request) as Ht1 by (apply callback_frame in Ec as (_ & _ & -> & _); done).
  destruct (decide (c = OnHeadersComplete)) as [->|Hc].
  - destruct (headers_complete_valid _ _ _ _ Ht Ec) as [[-> Hv]| ->].
    + rewrite Ep in E. simpl in E. simplify_eq. destruct Hv as (s & ? & ?). by exists s.
    + rewrite Ef in E. by simpl in E.
  - destruct (callback_quiet _ _ _ _ _ Ec Hc Hs) as [Hs1 Hr]. destruct r; [by eapply IH| | |].
    + rewrite Ef in E. by simpl in E.
    + done.
    + rewrite Ep in E. simpl in E. simplify_eq. simpl in Hs'. congruence.
Qed.

(** Body runs, one after the other; [heads] are the receive buffers at the
    times of the runs. *)
Fixpoint body_runs (runs : list (Head.head_buffer_t * Z * Z)) p : option (parser_t L * cb_ret) :=
  match runs with
  | [] => Some (p, RetOk)
  | (h, a, n) :: runs =>
      match store_ p with
      | None => None
      | Some s =>
          match on_body (set_store p (set_head s h)) a n with
          | Some (p, RetOk) => body_runs runs p
          | r => r
          end
      end
  end.

Definition runs_bytes (runs : list (Head.head_buffer_t * Z * Z)) : list bytes :=
  map (fun '(h, a, n) => Head.view h a n) runs.

Definition run_fits (x : Head.head_buffer_t * Z * Z) : Prop :=
  let '(h, a, n) := x in 0 <= a /\ 0 <= n < 2 ^ 32 /\ a + n <= Head.capacity h.

Lemma body_runs_spec runs : forall p sink,
  is_Some (store_ p) -> body_sink_ (body_ p) = Some sink -> Body.ok sink -> Forall run_fits runs ->
  0 <= body_received_ (body_ p) -> max_body_bytes (limits_ p) < 2 ^ 63 ->
  body_received_ (body_ p) <= max_body_bytes (limits_ p) ->
  Body.cap_ sink < 2 ^ 31 -> Forall (fun x => snd x < 2 ^ 31) runs ->
  exists p' r, body_runs runs p = Some (p', r) /\
    match r with
    | RetOk => exists sink', body_sink_ (body_ p') = Some sink' /\
        Body.view sink' = Body.view sink ++ concat (runs_bytes runs) /\
        body_received_ (body_ p') = body_received_ (body_ p) + size (concat (runs_bytes runs)) /\
        body_received_ (body_ p') <= max_body_bytes (limits_ p)
    | RetFail => error_ p' = http_error BodyTooLarge /\ max_body_bytes (limits_ p) < body_received_ (body_ p) + size (concat (runs_bytes runs)) \/
                 error_ p' = http_error OutputOverflow /\ Body.cap_ sink < size (Body.view sink) + size (concat (runs_bytes runs))
    | _ => False
    end.
Proof.
  induction runs as [|[[h a] n] runs IH]; intros p sink Hst Hsk Hok Hfit Hr Hmax Hle Hcap Hlen; cbn [body_runs runs_bytes map concat].
  { exists p, RetOk. split; [done|]. exists sink. rewrite app_nil_r. change (size []) with 0. split_and!; try done; lia. }
  apply Forall_cons in Hfit as [(Ha & Hn & Hb) Hfit]. apply Forall_cons in Hlen as [Hl1 Hlen]. simpl in Hl1.
  destruct Hst as [s Hs]. rewrite Hs. fold (runs_bytes runs).
  assert (size (Head.view h a n) = n) as Hsz by (apply size_view_at; unfold Head.capacity in *; lia).
  pose proof (size_nonneg (concat (runs_bytes runs))) as Hrest. rewrite size_app, Hsz.
  unfold on_body. simpl. rewrite Hsk. unfold u64, u32. rewrite !Z.mod_small by lia.
  destruct (Z.ltb_spec (max_body_bytes (limits_ p)) (body_received_ (body_ p) + n)) as [Hbig|Hok1].
  { eexists _, _. split; [done|]. left. simpl. split; [done|lia]. }
  pose proof Hok as (Hs1 & Hs2 & Hs3).
  destruct (Body.append_spec (Head.view h a n) sink Hok) as (sink1 & r & -> & Hok' & Hcap' & Hap); [lia|]. rewrite Hsz in Hap.
  destruct (Z.leb_spec (Body.size_ sink + n) (Body.cap_ sink)) as [Hfits|Hover]; destruct Hap as [-> Hv].
  - match goal with |- context [body_runs runs ?q] => set (p1 := q) end.
    destruct (IH p1 sink1) as (p' & r & -> & H); try done; try (simpl; lia).
    exists p', r. split; [done|]. destruct r; try done.
    + destruct H as (sk & E1 & E2 & E3 & E4). exists sk. split; [done|]. simpl in E3, E4. split_and!; [|lia|lia].
      by rewrite E2, Hv, app_assoc.
    + destruct H as [[-> H]|[-> H]]; [left|right]; (split; [done|]); [simpl in H; lia|].
      rewrite Hv, size_app, Hsz, Hcap' in H. lia.
  - eexists _, _. split; [done|]. right. simpl. split; [done|]. rewrite (Body.size_view sink Hok). lia.
Qed.
End Validity.

(** a request is reported to the server only with its headers checked:
    when [pump] answers HeadersReady, an HTTP/1.1 request has a Host header
    and no request has two, and a declared Content-Length does not exceed
    the body limit. *)
Theorem parser_request_valid {L} (ops : llhttp_ops L) {Hl : llhttp_laws ops} p p' :
  type_ p = Request -> pump ops p = Some (p', HeadersReady) -> request_valid p'.
Proof.
  intros Ht E. unfold pump in E. destruct (feed_ (feedst_ p)) as [[pos end_]|]; [|done].
  destruct (store_ p) as [s|] eqn:Hs; [|done]. destruct (_ && _); [by simplify_eq|].
  set (p0 := set_signals _ no_signals) in E. set (tree := llhttp_execute _ _ _ _) in E.
  destruct (drive tree p0) as [[[p1 err] stop]|] eqn:Ed; [|done].
  destruct err; unfold classify in E; try (by simplify_eq).
  destruct (message_done_ _); [by destruct (upgrade_ _); simplify_eq|].
  destruct (headers_signal_ _) eqn:Eh; [|by destruct (body_paused_ _); simplify_eq].
  injection E as <-. destruct (drive_valid tree p0 p1 stop (execute_obeys _ _ _) Ht eq_refl Ed Eh) as (x & ? & ?).
  by exists x.
Qed.

(** an aggregated body is the concatenation of the runs llhttp
    delivers, in the buffer the connection reserved, whatever the receive
    buffer holds between them; it never exceeds the body limit, and a body
    that is too large for the limit or for the reservation is refused. *)
Theorem parser_body_aggregated {L} (p : parser_t L) sink runs :
  is_Some (store_ p) -> body_sink_ (body_ p) = Some sink -> Body.ok sink -> Body.view sink = [] ->
  body_received_ (body_ p) = 0 -> 0 <= max_body_bytes (limits_ p) < 2 ^ 63 -> Body.cap_ sink < 2 ^ 31 ->
  Forall run_fits runs -> Forall (fun x => snd x < 2 ^ 31) runs ->
  exists p' r, body_runs runs p = Some (p', r) /\
    match r with
    | RetOk => exists sink', body_sink_ (body_ p') = Some sink' /\
        Body.view sink' = concat (runs_bytes runs) /\
        body_received_ (body_ p') = size (concat (runs_bytes runs)) /\
        body_received_ (body_ p') <= max_body_bytes (limits_ p)
    | RetFail => error_ p' = http_error BodyTooLarge /\ max_body_bytes (limits_ p) < size (concat (runs_bytes runs)) \/
                 error_ p' = http_error OutputOverflow /\ Body.cap_ sink < size (concat (runs_bytes runs))
    | _ => False
    end.
Proof.
  intros Hst Hsk Hok Hv Hr Hm Hcap Hf Hl.
  destruct (body_runs_spec runs p sink) as (p' & r & E & H); try done; try lia. exists p', r. split; [done|].
  rewrite Hv, Hr in H. change (size []) with 0 in H. by destruct r.
Qed.

(** ** An llhttp that satisfies the laws

    It takes any input for the one header "Host: a" of a request without a
    body, one byte per name and value run, and pauses where it is told to. *)

Definition after {L} (r : cb_ret) (pos : Z) (l : L) (t : ll_run L) : ll_run L :=
  match r with
  | RetPaused => LReturn HPE_PAUSED (Some pos) l
  | RetFail => LReturn (HPE_OTHER 8) (Some pos) l
  | _ => t
  end.

Lemma after_returns {L} lo hi c v pos (l : L) t :
  lo <= pos <= hi -> returns_in lo hi t -> returns_in lo hi (LCall c v (fun r => after r pos l t)).
Proof. intros H1 H2 r. by destruct r. Qed.

Lemma after_obeys {L} c v pos (l : L) t : obeys t -> obeys (LCall c v (fun r => after r pos l t)).
Proof. intros H. split; [by eexists _, _|]. split; [by eexists _, _, _|]. intros r. by destruct r. Qed.

Definition toy_view : ll_view := mk_llv false HTTP_GET 0 1 1 true false 0.

Definition toy_execute (l : nat) (off : Z) (data : bytes) : ll_run nat :=
  let fin := off + size data in
  match l with
  | O =>
      match data with
      | [] => LReturn HPE_OK None l
      | _ =>
          LCall OnMessageBegin toy_view (fun r => after r off l
          (LCall (OnHeaderField off 4) toy_view (fun r => after r off l
          (LCall OnHeaderFieldComplete toy_view (fun r => after r off l
          (LCall (OnHeaderValue (off + 6) 1) toy_view (fun r => after r off l
          (LCall OnHeaderValueComplete toy_view (fun r => after r off l
          (LCall OnHeadersComplete toy_view (fun r => after r fin 1%nat
          (LReturn HPE_OK None l))))))))))))
      end
  | _ => LCall OnMessageComplete toy_view (fun r => after r fin 0%nat (LReturn HPE_OK None 0%nat))
  end.

Definition toy_llhttp : llhttp_ops nat :=
  mk_llhttp nat toy_execute (fun l => LReturn HPE_OK None l) (fun l => l) (fun l => l) (fun _ => O) (fun _ _ _ l => l) (fun _ => 0).

#[export] Instance toy_laws : llhttp_laws toy_llhttp.
Proof.
  split; intros l off data; simpl; unfold toy_execute; pose proof (size_nonneg data).
  - destruct l; [destruct data; [done|]|]; repeat apply after_returns; done || lia.
  - destruct l; [destruct data; [done|]|]; by repeat apply after_obeys.
Qed.

Definition toy_parser : parser_t nat :=
  mk_parser 0%nat Request default_limits MUnknown
    (Some (mk_store (Head.mk_head (Some (str "Host: a")) 0 7 false) Spill.init empty_headers))
    no_pend no_target no_facts no_signals (mk_bodyt None None 0) (mk_feed None 0 0 false) no_error.


Lemma parser_request_valid_witness :
  exists p', execute toy_llhttp 0 7 toy_parser = Some (p', HeadersReady) /\ request_valid p'.
Proof.
  destruct (execute toy_llhttp 0 7 toy_parser) as [[p1 r1]|] eqn:E1; [|discriminate E1].
  assert (r1 = HeadersReady) as -> by (vm_compute in E1; congruence).
  exists p1. split; [reflexivity|].
  rewrite (execute_pump toy_llhttp 0 7 toy_parser _ eq_refl) in E1.
  exact (parser_request_valid toy_llhttp (set_feed toy_parser (mk_feed (Some (0, 0 + 7)) 0 0 false)) p1 eq_refl E1).
Defined.

Lemma parser_body_aggregated_witness :
  let h := Head.mk_head (Some (str "3 abc 2 de ")) 0 11 true in
  let p := set_body toy_parser (mk_bodyt (Some (Body.mk_body (Some (replicate 8 0)) 0 8)) None 0) in
  exists p' r, body_runs [(h, 2, 3); (h, 8, 2)] p = Some (p', r) /\ r = RetOk.
Proof.
  intros h p.
  destruct (parser_body_aggregated p (Body.mk_body (Some (replicate 8 0)) 0 8) [(h, 2, 3); (h, 8, 2)]) as (p' & r & E & H);
    [eexists; reflexivity|reflexivity|vm_compute; repeat split; congruence|reflexivity|reflexivity
    |vm_compute; split; congruence|reflexivity
    |repeat (apply Forall_cons_2; [vm_compute; repeat split; congruence|]); constructor
    |repeat (apply Forall_cons_2; [reflexivity|]); constructor|].
  exists p', r. split; [exact E|]. vm_compute in E. congruence.
Defined.
