(* ===== verification/Transport.v ===== *)
(** * What the connections share: the transport and the parser's ports

    The server's and the client's connection both read from a scripted
    transport into a receive buffer and drive the parser over it.  An element
    of the script is what one read delivers; what exceeds the window stays
    for the next.  [Suspended] is a connection waiting for more of the script,
    [Thrown] a C++ exception leaving the coroutine, [Undefined] a failed
    assertion or a null buffer, [Starved] a fuel that was too small.

    Also here: the small accessors of [parser_t]
    (src/include/cornet/http/common/parser.h) that the connections use, and
    what a read does to the receive buffer. *)

From stdpp Require Import prelude list list_numbers strings.
From Stdlib Require Import ZArith Lia.
From S2P Require Import Prelude Protocol Buffer Headers Parser.
Open Scope Z_scope.

(** ** The transport's side *)

Inductive recv_t := Received (d : bytes) | RecvFailed (e : error_t) | TimedOut.

Inductive outcome (A : Type) := Ret (a : A) | Suspended | Thrown | Undefined | Starved.
Arguments Ret {A}. Arguments Suspended {A}. Arguments Thrown {A}. Arguments Undefined {A}. Arguments Starved {A}.

Definition bind_out {A B} (x : outcome A) (f : A -> outcome B) : outcome B :=
  match x with Ret a => f a | Suspended => Suspended | Thrown => Thrown | Undefined => Undefined | Starved => Starved end.
Notation "'let+' p ':=' x 'in' e" := (bind_out x (fun p => e)) (at level 200, p pattern, e at level 200).

Definition of_option {A} (x : option A) : outcome A := match x with Some a => Ret a | None => Undefined end.

Definition EAGAIN : Z := 11.
Definition ECONNRESET : Z := 104.
Definition ETIMEDOUT : Z := 110.

(** ** The parser's ports *)

Section Ports.
Context {L : Type}.

Definition has_pending_input (p : parser_t L) : bool :=
  match feed_ (feedst_ p) with Some (pos, end_) => pos <? end_ | None => false end.
Definition put_sink (k : option Body.body_buffer_t) (p : parser_t L) : parser_t L :=
  Parser.set_body p (mk_bodyt k (body_run_ (body_ p)) (body_received_ (body_ p))).
Definition set_response_to (m : method_t) (p : parser_t L) : parser_t L :=
  mk_parser (state_ p) (type_ p) (limits_ p) m (store_ p) (pend_ p) (target_ p) (facts_ p) (signals_ p) (body_ p) (feedst_ p) (error_ p).
Definition pending_run (p : parser_t L) : bytes :=
  match store_ p, body_run_ (body_ p) with Some st, Some (off, n) => Head.view (head_ st) off n | _, _ => [] end.
Definition clear_pending_run (p : parser_t L) : parser_t L :=
  Parser.set_body p (mk_bodyt (body_sink_ (body_ p)) None (body_received_ (body_ p))).
End Ports.

(** ** The receive buffer during a read *)

(** Bytes and deliveries still to come. *)
Fixpoint supply (i : list recv_t) : nat :=
  match i with
  | [] => 0
  | Received d :: i => S (length d) + supply i
  | _ :: i => S (supply i)
  end.

(** The receive buffer grew to [h'] and kept everything below its cursor. *)
Record filled (h h' : Head.head_buffer_t) (n : Z) : Prop := {
  fi_ok : Head.ok h';
  fi_w : Head.w_ h' = Head.w_ h + n;
  fi_cap : Head.capacity h' = Head.capacity h;
  fi_below : forall o m, 0 <= o -> 0 <= m -> o + m <= Head.w_ h -> Head.view h' o m = Head.view h o m
}.

Lemma head_filled d h : Head.ok h -> Head.w_ h + size d <= Head.capacity h -> exists h', Head.fill d h = Some h' /\ filled h h' (size d).
Proof.
  intros (H1 & H2 & H3) Hfit. pose proof (size_nonneg d). unfold Head.fill, Head.capacity in *.
  destruct (write_at_some (Head.block h) (Head.w_ h) d) as (b & E & Hb); [lia|done|]. rewrite E. eexists. split; [done|].
  assert (u32 (Head.w_ h + size d) = Head.w_ h + size d) as Eu by (apply u32_small; lia).
  constructor; unfold Head.ok, Head.capacity, Head.block in *; simpl; rewrite ?Eu, ?Hb; try done; [lia|].
  intros o m Ho Hm Hom. unfold Head.view. simpl. by eapply write_at_below.
Qed.
