(* ===== verification/TlsEngine.v ===== *)
(** * The TLS engine

    [tls_engine_t] of src/include/cornet/tls/engine.h and src/tls/engine.cc in
    a build with TLS: the state machine over an OpenSSL connection and its two
    memory BIOs.  OpenSSL is not part of the repository: [Ssl] is its
    interface as the engine calls it, [SslLaws] what its documentation promises
    about these calls. *)

From stdpp Require Import prelude list list_numbers.
From Stdlib Require Import ZArith Lia.
From S2P Require Import Prelude.
Open Scope Z_scope.

(** ** OpenSSL *)

(** What [SSL_get_error] distinguishes; [SSL_ERROR_SSL] and every other code
    take the default branch. *)
Inductive ssl_error := SSL_ERROR_NONE | SSL_ERROR_WANT_READ | SSL_ERROR_WANT_WRITE | SSL_ERROR_ZERO_RETURN | SSL_ERROR_SYSCALL | SSL_ERROR_SSL.

(** A call that may fail returns its C result and the connection after it.
    [wbio] and [rbio] are the memory BIOs given to [SSL_set_bio]. *)
Class Ssl := {
  SSL_CTX : Type; SSL : Type;
  SSL_new : SSL_CTX -> option SSL;
  BIO_new_pair : SSL -> option SSL;
  SSL_set_accept_state : SSL -> SSL;
  SSL_set_connect_state : SSL -> SSL;
  SSL_set_tlsext_host_name : bytes -> SSL -> Z * SSL;
  SSL_set1_host : bytes -> SSL -> Z * SSL;
  SSL_do_handshake : SSL -> Z * SSL;
  SSL_read : Z -> SSL -> Z * bytes * SSL;
  SSL_write : bytes -> SSL -> Z * SSL;
  SSL_shutdown : SSL -> Z * SSL;
  SSL_get_error : SSL -> Z -> ssl_error;
  reason_verify_failed : SSL -> bool;
  errno : SSL -> Z;
  verify_result_ok : SSL -> bool;
  verify_mode_none : SSL -> bool;
  wbio_pending : SSL -> Z;
  wbio_read : Z -> SSL -> Z * bytes * SSL;
  rbio_write : bytes -> SSL -> Z * SSL
}.

(** What can be said of a connection without its keys: the ciphertext it ever
    produced and what of it still lies in the write BIO, the runs of plaintext
    it sealed and the plaintext it opened. *)
Class SslView `{Ssl} := { produced : SSL -> bytes; outq : SSL -> bytes; sealed : SSL -> list bytes; opened : SSL -> bytes }.

Definition emits `{SslView} (s s' : SSL) : Prop := exists x, produced s' = produced s ++ x /\ outq s' = outq s ++ x.

(** From the manual pages of the calls: [SSL_do_handshake] returns 1, 0 or a
    negative number; protocol calls add to the write BIO;
    without partial writes [SSL_write] takes all of its buffer or nothing;
    [SSL_ERROR_NONE] is reported if and only if the result is positive; a memory
    BIO never refuses data, so nothing waits to write; reading it takes from its
    front. *)
Class SslLaws `{SslView} := {
  handshake_law s : let '(r, s') := SSL_do_handshake s in r <= 1 /\ emits s s' /\ sealed s' = sealed s /\ opened s' = opened s;
  read_law n s : 0 < n -> let '(r, d, s') := SSL_read n s in
    emits s s' /\ sealed s' = sealed s /\ (if 0 <? r then size d = r /\ r <= n /\ opened s' = opened s ++ d else opened s' = opened s);
  write_law d s : d <> [] -> let '(r, s') := SSL_write d s in
    emits s s' /\ opened s' = opened s /\ sealed s' = (if 0 <? r then sealed s ++ [d] else sealed s);
  shutdown_law s : let '(r, s') := SSL_shutdown s in emits s s' /\ sealed s' = sealed s /\ opened s' = opened s;
  error_none_law s r : SSL_get_error s r = SSL_ERROR_NONE <-> 0 < r;
  want_write_law s r : SSL_get_error s r <> SSL_ERROR_WANT_WRITE;
  pending_law s : wbio_pending s = size (outq s);
  wbio_law n s : 0 < n -> outq s <> [] -> let '(r, d, s') := wbio_read n s in
    r = size d /\ d = take (Z.to_nat n) (outq s) /\ outq s' = drop (Z.to_nat n) (outq s) /\
    produced s' = produced s /\ sealed s' = sealed s /\ opened s' = opened s;
  rbio_law d s : let '(r, s') := rbio_write d s in outq s' = outq s /\ produced s' = produced s /\ sealed s' = sealed s /\ opened s' = opened s
}.

(** A connection that has just been set up has produced nothing. *)
Definition quiet `{SslView} (s : SSL) : Prop := produced s = [] /\ outq s = [].
Class SslSetupLaws `{SslView} := {
  new_law ctx s s' : SSL_new ctx = Some s -> BIO_new_pair s = Some s' -> quiet s';
  state_law s : quiet s -> quiet (SSL_set_accept_state s) /\ quiet (SSL_set_connect_state s);
  name_law n s : quiet s -> quiet (SSL_set_tlsext_host_name n s).2 /\ quiet (SSL_set1_host n s).2
}.

(** ** The engine *)

(** [tls_error_t] *)
Inductive tls_error_t := TlsOk | Disabled | Init | HandshakeError | VerifyFailed | UnexpectedEof | ProtocolError.
Definition tls_code (e : tls_error_t) : Z :=
  match e with TlsOk => 0 | Disabled => 1 | Init => 2 | HandshakeError => 3 | VerifyFailed => 4 | UnexpectedEof => 5 | ProtocolError => 6 end.
Definition tls_error (e : tls_error_t) : error_t := Error (tls_code e) DTls.

Inductive engine_mode_t := Client | Server.
Inductive engine_step_t := StepDone | WantRead | WantWrite | StepClosed | StepFailed.
#[global] Instance engine_step_eq_dec : EqDecision engine_step_t.
Proof. solve_decision. Defined.

Definition kRecordPayload : Z := 16 * 1024.

(** [static_cast<int>] *)
Definition to_int (n : Z) : Z := (n + 2 ^ 31) mod 2 ^ 32 - 2 ^ 31.

(** [std::string(name).c_str()]: what a C function sees of it. *)
Fixpoint c_str (b : bytes) : bytes := match b with c :: b => if c =? 0 then [] else c :: c_str b | [] => [] end.

Section Engine.
Context `{Ssl}.

Record tls_engine_t := mk_engine { ssl : SSL; server_side : bool; err_ : error_t; handshaken_ : bool }.
Implicit Types e : tls_engine_t.

Definition with_ssl (s : SSL) e := mk_engine s (server_side e) (err_ e) (handshaken_ e).
Definition with_err (x : error_t) e := mk_engine (ssl e) (server_side e) x (handshaken_ e).

(** [ctx]: the context's [SSL_CTX], [None] when it is not valid. *)
Definition create (ctx : option SSL_CTX) (mode : engine_mode_t) (server_name : bytes) : expected tls_engine_t :=
  match ctx with
  | None => Unexpected (tls_error Init)
  | Some ctx =>
      match SSL_new ctx with
      | None => Unexpected (tls_error Init)
      | Some s =>
          match BIO_new_pair s with
          | None => Unexpected (tls_error Init)
          | Some s =>
              match mode with
              | Server => Ok (mk_engine (SSL_set_accept_state s) true no_error false)
              | Client =>
                  let s := SSL_set_connect_state s in
                  if bool_decide (server_name = []) then Ok (mk_engine s false no_error false)
                  else
                    let '(r1, s) := SSL_set_tlsext_host_name (c_str server_name) s in
                    if negb (r1 =? 1) then Unexpected (tls_error Init)
                    else
                      let '(r2, s) := SSL_set1_host (c_str server_name) s in
                      if negb (r2 =? 1) then Unexpected (tls_error Init) else Ok (mk_engine s false no_error false)
              end
          end
      end
  end.

Definition classify (ret : Z) (in_handshake : bool) e : engine_step_t * tls_engine_t :=
  match SSL_get_error (ssl e) ret with
  | SSL_ERROR_NONE => (StepDone, e)
  | SSL_ERROR_WANT_READ => (WantRead, e)
  | SSL_ERROR_WANT_WRITE => (WantWrite, e)
  | SSL_ERROR_ZERO_RETURN => (StepClosed, e)
  | SSL_ERROR_SYSCALL => (StepFailed, with_err (if ret =? 0 then tls_error UnexpectedEof else system_error (errno (ssl e))) e)
  | SSL_ERROR_SSL =>
      (StepFailed, with_err (tls_error (if reason_verify_failed (ssl e) then VerifyFailed else if in_handshake then HandshakeError else ProtocolError)) e)
  end.

Definition engine_handshake e : engine_step_t * tls_engine_t :=
  if handshaken_ e then (StepDone, e)
  else
    let '(ret, s) := SSL_do_handshake (ssl e) in
    let e := with_ssl s e in
    if ret =? 1 then
      let e := mk_engine (ssl e) (server_side e) (err_ e) true in
      if negb (server_side e) && negb (verify_result_ok s) && negb (verify_mode_none s)
      then (StepFailed, with_err (tls_error VerifyFailed) e)
      else (StepDone, e)
    else classify ret true e.

(** The bytes are those in [buf]; [got] is their number. *)
Definition engine_read (len : Z) e : engine_step_t * bytes * tls_engine_t :=
  let '(ret, d, s) := SSL_read (to_int len) (ssl e) in
  let e := with_ssl s e in
  if 0 <? ret then (StepDone, d, e) else let '(st, e) := classify ret false e in (st, [], e).

Definition engine_write (buf : bytes) e : engine_step_t * tls_engine_t :=
  let buf := if kRecordPayload <? size buf then take (Z.to_nat kRecordPayload) buf else buf in
  let '(ret, s) := SSL_write buf (ssl e) in
  let e := with_ssl s e in
  if 0 <? ret then (StepDone, e) else classify ret false e.

Definition engine_shutdown e : engine_step_t * tls_engine_t :=
  let '(ret, s) := SSL_shutdown (ssl e) in
  let e := with_ssl s e in
  if 0 <=? ret then (StepDone, e) else classify ret false e.

Definition output_pending e : Z := wbio_pending (ssl e).

Definition take_output (len : Z) e : bytes * tls_engine_t :=
  let '(ret, d, s) := wbio_read (to_int len) (ssl e) in
  (if 0 <? ret then d else [], with_ssl s e).

Definition feed_input (buf : bytes) e : expected unit * tls_engine_t :=
  let '(ret, s) := rbio_write buf (ssl e) in
  (if negb (ret =? to_int (size buf)) then Unexpected (tls_error ProtocolError) else Ok tt, with_ssl s e).

End Engine.

Lemma create_quiet `{SslSetupLaws} ctx mode name e :
  create ctx mode name = Ok e -> quiet (ssl e) /\ handshaken_ e = false /\ server_side e = match mode with Server => true | Client => false end.
Proof.
  unfold create. destruct ctx as [ctx|]; [|done]. destruct (SSL_new ctx) as [s|] eqn:Hn; [|done]. destruct (BIO_new_pair s) as [s'|] eqn:Hb; [|done].
  pose proof (new_law _ _ _ Hn Hb) as Hq. destruct (state_law s' Hq) as [Ha Hc]. destruct mode; [|by intros [= <-]].
  case_bool_decide; [by intros [= <-]|]. destruct (name_law (c_str name) _ Hc) as [Hn1 _].
  destruct (SSL_set_tlsext_host_name (c_str name) _) as [r1 s1]. destruct (negb (r1 =? 1)); [done|].
  destruct (name_law (c_str name) _ Hn1) as [_ Hn2]. destruct (SSL_set1_host (c_str name) _) as [r2 s2]. destruct (negb (r2 =? 1)); [done|]. by intros [= <-].
Qed.

(** ** What a step of the engine does *)

Section Laws.
Context `{HL : SslLaws}.
Implicit Types e : tls_engine_t.

Lemma emits_refl s : emits s s.
Proof. exists []. by rewrite !app_nil_r. Qed.

Lemma to_int_small n : 0 <= n < 2 ^ 31 -> to_int n = n.
Proof. intros Hn. unfold to_int. rewrite Z.mod_small by lia. lia. Qed.

Lemma classify_ssl ret b e st e' : classify ret b e = (st, e') -> ssl e' = ssl e /\ (ret <= 0 -> st <> StepDone) /\ st <> WantWrite.
Proof.
  unfold classify. pose proof (error_none_law (ssl e) ret) as Hn. pose proof (want_write_law (ssl e) ret) as Hw.
  destruct (SSL_get_error (ssl e) ret); intros [= <- <-]; (split; [done|]; split; [|done]); try done. intros Hr _. assert (0 < ret) by by apply Hn. lia.
Qed.

(** A step of the engine that seals [recs] and opens [plain]. *)
Definition stepped (recs : list bytes) (plain : bytes) e e' : Prop :=
  emits (ssl e) (ssl e') /\ sealed (ssl e') = sealed (ssl e) ++ recs /\ opened (ssl e') = opened (ssl e) ++ plain.

(** [close_notify] was observed. *)
Definition notified (s : SSL) : Prop := exists r, SSL_get_error s r = SSL_ERROR_ZERO_RETURN.

Lemma classify_closed ret b e e' : classify ret b e = (StepClosed, e') -> notified (ssl e').
Proof. unfold classify. destruct (SSL_get_error (ssl e) ret) eqn:Hg; intros [= <-]. by exists ret. Qed.

Lemma read_closed len e d e' : engine_read len e = (StepClosed, d, e') -> notified (ssl e').
Proof.
  unfold engine_read. destruct (SSL_read (to_int len) (ssl e)) as [[ret x] s]. destruct (0 <? ret); [done|].
  destruct (classify ret false (with_ssl s e)) as [st e''] eqn:Hc. intros [= -> <- <-]. by eapply classify_closed.
Qed.

Lemma handshake_step e st e' : engine_handshake e = (st, e') -> stepped [] [] e e' /\ st <> WantWrite.
Proof.
  unfold engine_handshake, stepped. destruct (handshaken_ e).
  { intros [= <- <-]. rewrite !app_nil_r. split; [by split; [apply emits_refl|]|done]. }
  pose proof (handshake_law (ssl e)) as Hs. destruct (SSL_do_handshake (ssl e)) as [ret s]. destruct Hs as (_ & He & Hd & Ho).
  destruct (ret =? 1).
  - case_match; intros [= <- <-]; simpl; rewrite !app_nil_r; done.
  - intros (-> & _ & Hw)%classify_ssl. simpl. by rewrite !app_nil_r.
Qed.

Lemma read_step len e st d e' :
  0 < len < 2 ^ 31 -> engine_read len e = (st, d, e') -> stepped [] d e e' /\ st <> WantWrite /\ (if decide (st = StepDone) then 0 < size d <= len else d = []).
Proof.
  intros Hl. unfold engine_read, stepped. rewrite to_int_small by lia. pose proof (read_law len (ssl e) ltac:(lia)) as Hs.
  destruct (SSL_read len (ssl e)) as [[ret x] s]. destruct Hs as (He & Hd & Ho). destruct (Z.ltb_spec 0 ret) as [Hr|Hr].
  - destruct Ho as (Hx & Hle & Ho). intros [= <- <- <-]. simpl. rewrite app_nil_r. split_and!; try done; lia.
  - destruct (classify ret false (with_ssl s e)) as [st' e''] eqn:Hc. apply classify_ssl in Hc as (Hs & Hn & Hw).
    intros [= <- <- <-]. rewrite Hs, !app_nil_r. simpl. split_and!; try done. rewrite decide_False; [done|auto].
Qed.

Lemma write_step buf e st e' :
  0 < size buf <= kRecordPayload -> engine_write buf e = (st, e') -> stepped (if decide (st = StepDone) then [buf] else []) [] e e'.
Proof.
  intros Hb. unfold engine_write, stepped. destruct (Z.ltb_spec kRecordPayload (size buf)); [lia|].
  pose proof (write_law buf (ssl e)) as Hs. destruct (SSL_write buf (ssl e)) as [ret s].
  destruct Hs as (He & Ho & Hd); [intros ->; change (size []) with 0 in Hb; lia|]. destruct (Z.ltb_spec 0 ret) as [Hr|Hr].
  - intros [= <- <-]. simpl. by rewrite app_nil_r.
  - intros (Hs & Hn & Hw)%classify_ssl. rewrite Hs, !app_nil_r. simpl. rewrite decide_False, app_nil_r by auto. done.
Qed.

Lemma shutdown_step e st e' : engine_shutdown e = (st, e') -> stepped [] [] e e' /\ st <> WantWrite.
Proof.
  unfold engine_shutdown, stepped. pose proof (shutdown_law (ssl e)) as Hs. destruct (SSL_shutdown (ssl e)) as [ret s]. destruct Hs as (He & Hd & Ho).
  rewrite !app_nil_r. destruct (0 <=? ret); [by intros [= <- <-]|]. intros (Hs & _ & Hw)%classify_ssl. by rewrite Hs.
Qed.

Lemma take_step n e d e' :
  0 < n < 2 ^ 31 -> outq (ssl e) <> [] -> take_output n e = (d, e') ->
  d = take (Z.to_nat n) (outq (ssl e)) /\ outq (ssl e') = drop (Z.to_nat n) (outq (ssl e)) /\
  produced (ssl e') = produced (ssl e) /\ sealed (ssl e') = sealed (ssl e) /\ opened (ssl e') = opened (ssl e).
Proof.
  intros Hn Hq. unfold take_output. rewrite to_int_small by lia. pose proof (wbio_law n (ssl e) ltac:(lia) Hq) as Hs.
  destruct (wbio_read n (ssl e)) as [[ret x] s]. destruct Hs as (-> & Hx & Hs). intros [= <- <-]. split; [|done].
  destruct (Z.ltb_spec 0 (size x)) as [|Hz]; [done|]. rewrite <- Hx. symmetry. apply length_zero_iff_nil. unfold size in Hz. lia.
Qed.

Lemma feed_step d e r e' :
  feed_input d e = (r, e') -> outq (ssl e') = outq (ssl e) /\ produced (ssl e') = produced (ssl e) /\ sealed (ssl e') = sealed (ssl e) /\ opened (ssl e') = opened (ssl e).
Proof. unfold feed_input. pose proof (rbio_law d (ssl e)) as Hs. destruct (rbio_write d (ssl e)) as [ret s]. by intros [= <- <-]. Qed.

(** The check of the peer's certificate passed, or none was asked for. *)
Definition checked e : Prop := server_side e = true \/ verify_result_ok (ssl e) = true \/ verify_mode_none (ssl e) = true.

(** The handshake of an engine that has not finished one: it is not reported
    as done before OpenSSL says so and the certificate was checked, and the
    engine remembers it only when OpenSSL said so. *)
Lemma handshake_checks e st e' :
  handshaken_ e = false -> engine_handshake e = (st, e') ->
  server_side e' = server_side e /\ (st = StepDone -> handshaken_ e' = true /\ checked e') /\ (st = WantRead \/ st = WantWrite -> handshaken_ e' = false).
Proof.
  intros Hh. unfold engine_handshake, checked. rewrite Hh. pose proof (handshake_law (ssl e)) as Hs. destruct (SSL_do_handshake (ssl e)) as [ret s].
  destruct (Z.eqb_spec ret 1) as [|Hr].
  - cbn [server_side with_ssl ssl]. destruct (server_side e), (verify_result_ok s) eqn:?, (verify_mode_none s) eqn:?; simpl; intros [= <- <-]; simpl; naive_solver.
  - intros Hc. pose proof (classify_ssl _ _ _ _ _ Hc) as (_ & Hn & _). unfold classify in Hc.
    split; [repeat case_match; by simplify_eq/=|]. split; [intros ->; by destruct Hn; [lia|]|intros _]. by repeat case_match; simplify_eq/=.
Qed.

End Laws.
