(* ===== verification/TlsStream.v ===== *)
(** * TLS streams

    [tls_stream_t] of src/include/cornet/tls/stream.h and src/tls/stream.cc: the
    coroutines that move ciphertext between the engine and the socket.  The
    socket is scripted: what each send takes, what each receive delivers, in
    order; what exceeds the window of a receive stays for the next.
    [Suspended] is a stream that waits for more of the script.

    The file ends with the theorem on gather writes: the record layer gets
    exactly the bytes of the vector, and the socket all the ciphertext. *)

From stdpp Require Import prelude list list_numbers.
From Stdlib Require Import ZArith Lia.
From S2P Require Import Prelude Transport TlsEngine.
Open Scope Z_scope.

(** ** The socket *)

Inductive send_ev := Sent (k : Z) | SendError (e : error_t).
Inductive recv_ev := Arrived (d : bytes) | RecvError (e : error_t).

(** [wire]: the bytes sent.  [waits]: for every receive, the bytes that lay
    unsent in the engine when it began. *)
Record sock_t := mk_sock { fd_ : Z; sends : list send_ev; recvs : list recv_ev; wire : bytes; waits : list Z }.

Definition EPIPE : Z := 32.
Definition kMinIoBiteSize : Z := 16 * 1024.
Definition kMaxIoBiteSize : Z := 64 * 1024.

Section Stream.
Context `{Ssl}.

(** The scratch blocks [stage_] and [io_bite_] are shared by all operations and
    carry nothing from one to the next; they are left out, so this models a
    stream that one coroutine uses at a time. *)
Record tls_stream_t := mk_stream { sock_ : sock_t; engine_ : tls_engine_t; io_bite_size_ : Z }.
Implicit Types st : tls_stream_t.

Definition new_stream (s : sock_t) (e : tls_engine_t) : tls_stream_t := mk_stream s e kMinIoBiteSize.
Definition with_sock (s : sock_t) st := mk_stream s (engine_ st) (io_bite_size_ st).
Definition with_engine (e : tls_engine_t) st := mk_stream (sock_ st) e (io_bite_size_ st).

(** A coroutine on the stream: it returns an [expected] or waits. *)
Definition M (A : Type) := tls_stream_t -> outcome (expected A * tls_stream_t).
Definition ret {A} (a : A) : M A := fun st => Ret (Ok a, st).
Definition fail {A} (e : error_t) : M A := fun st => Ret (Unexpected e, st).
Definition bind {A B} (m : M A) (k : A -> M B) : M B :=
  fun st => match m st with
            | Ret (Ok a, st) => k a st
            | Ret (Unexpected e, st) => Ret (Unexpected e, st)
            | Suspended => Suspended | Thrown => Thrown | Undefined => Undefined | Starved => Starved
            end.
Notation "x <- m ;; k" := (bind m (fun x => k)) (at level 100, m at next level, right associativity).
Definition starved {A} : M A := fun _ => Starved.
Definition on_engine {A} (f : tls_engine_t -> A * tls_engine_t) : M A := fun st => let '(a, e) := f (engine_ st) in Ret (Ok a, with_engine e st).
Definition get {A} (f : tls_stream_t -> A) : M A := fun st => Ret (Ok (f st), st).

(** [sock_.send] and [sock_.recv] *)
Definition sock_send (d : bytes) : M Z := fun st =>
  match sends (sock_ st) with
  | [] => Suspended
  | Sent k :: l =>
      let n := Z.max 0 (Z.min k (size d)) in
      Ret (Ok n, with_sock (mk_sock (fd_ (sock_ st)) l (recvs (sock_ st)) (wire (sock_ st) ++ take (Z.to_nat n) d) (waits (sock_ st))) st)
  | SendError e :: l => Ret (Unexpected e, with_sock (mk_sock (fd_ (sock_ st)) l (recvs (sock_ st)) (wire (sock_ st)) (waits (sock_ st))) st)
  end.

Definition sock_recv (len : Z) : M bytes := fun st =>
  let w := waits (sock_ st) ++ [output_pending (engine_ st)] in
  match recvs (sock_ st) with
  | [] => Suspended
  | Arrived d :: l =>
      let l := match drop (Z.to_nat len) d with [] => l | r => Arrived r :: l end in
      Ret (Ok (take (Z.to_nat len) d), with_sock (mk_sock (fd_ (sock_ st)) (sends (sock_ st)) l (wire (sock_ st)) w) st)
  | RecvError e :: l => Ret (Unexpected e, with_sock (mk_sock (fd_ (sock_ st)) (sends (sock_ st)) l (wire (sock_ st)) w) st)
  end.

Definition maybe_grow_io_bite : M unit := fun st =>
  Ret (Ok tt, if io_bite_size_ st <? kMaxIoBiteSize then mk_stream (sock_ st) (engine_ st) kMaxIoBiteSize else st).

(** ** Moving ciphertext *)

(** [while (off < n)] of [flush_output]: [d] is what is left of the piece. *)
Fixpoint send_piece (fuel : nat) (d : bytes) : M unit :=
  match d, fuel with
  | [], _ => ret tt
  | _, O => starved
  | _, S fuel => w <- sock_send d ;; if w =? 0 then fail (system_error EPIPE) else send_piece fuel (drop (Z.to_nat w) d)
  end.

Fixpoint flush_loop (fuel : nat) : M unit :=
  p <- get (fun st => output_pending (engine_ st)) ;;
  if 0 <? p then
    match fuel with
    | O => starved
    | S fuel =>
        bite <- get io_bite_size_ ;;
        d <- on_engine (take_output bite) ;;
        _ <- send_piece (length d) d ;;
        _ <- (if size d =? bite then maybe_grow_io_bite else ret tt) ;;
        flush_loop fuel
    end
  else ret tt.
(** Every round takes a byte at least. *)
Definition flush_output : M unit := fun st => flush_loop (Z.to_nat (output_pending (engine_ st))) st.

Definition of_expected {A} (r : expected A) : M A := match r with Ok a => ret a | Unexpected e => fail e end.

Definition fill_input : M unit :=
  bite <- get io_bite_size_ ;;
  d <- sock_recv bite ;;
  if bool_decide (d = []) then fail (tls_error UnexpectedEof)
  else
    r <- on_engine (feed_input d) ;;
    _ <- of_expected r ;;
    if size d =? bite then maybe_grow_io_bite else ret tt.

(** ** The operations *)

Definition engine_failed {A} : M A := e <- get (fun st => err_ (engine_ st)) ;; fail e.

Fixpoint handshake (fuel : nat) : M unit :=
  match fuel with
  | O => starved
  | S fuel =>
      _ <- flush_output ;;
      s <- on_engine engine_handshake ;;
      match s with
      | StepDone => ret tt
      | WantRead => _ <- flush_output ;; _ <- fill_input ;; handshake fuel
      | WantWrite => handshake fuel
      | StepClosed => fail (tls_error HandshakeError)
      | StepFailed => engine_failed
      end
  end.

Fixpoint recv (fuel : nat) (len : Z) : M bytes :=
  match fuel with
  | O => starved
  | S fuel =>
      s <- on_engine (fun e => let '(s, d, e) := engine_read len e in ((s, d), e)) ;;
      match s with
      | (StepDone, d) => ret d
      | (StepClosed, _) => ret []
      | (WantRead, _) => _ <- flush_output ;; _ <- fill_input ;; recv fuel len
      | (WantWrite, _) => _ <- flush_output ;; recv fuel len
      | (StepFailed, _) => engine_failed
      end
  end.

(** The loop that seals the staged bytes, written twice in [writev]. *)
Fixpoint write_record (fuel : nat) (staged : bytes) : M unit :=
  match fuel with
  | O => starved
  | S fuel =>
      s <- (if bool_decide (staged = []) then ret StepDone else on_engine (engine_write staged)) ;;
      match s with
      | StepDone => ret tt
      | WantWrite | WantRead =>
          _ <- flush_output ;;
          p <- get (fun st => output_pending (engine_ st)) ;;
          _ <- (if p =? 0 then fill_input else ret tt) ;;
          write_record fuel staged
      | StepClosed => fail (system_error EPIPE)
      | StepFailed => engine_failed
      end
  end.

(** [while (left > 0)]: the slice [p] joins the staged bytes; [n] bounds the
    rounds by the bytes left. *)
Fixpoint stage_slice (fuel n : nat) (p staged : bytes) (total : Z) : M (bytes * Z) :=
  match p, n with
  | [], _ => ret (staged, total)
  | _, O => starved
  | _, S n =>
      let room := kRecordPayload - size staged in
      let take_ := if size p <? room then size p else room in
      let staged := staged ++ take (Z.to_nat take_) p in
      let p := drop (Z.to_nat take_) p in
      let total := total + take_ in
      if size staged <? kRecordPayload then stage_slice fuel n p staged total
      else _ <- write_record fuel staged ;; stage_slice fuel n p [] total
  end.

Fixpoint stage_slices (fuel : nat) (iov : list bytes) (staged : bytes) (total : Z) : M (bytes * Z) :=
  match iov with
  | [] => ret (staged, total)
  | p :: iov => x <- stage_slice fuel (length p) p staged total ;; let '(staged, total) := x in stage_slices fuel iov staged total
  end.

Definition writev (fuel : nat) (iov : list bytes) : M Z :=
  x <- stage_slices fuel iov [] 0 ;;
  let '(staged, total) := x in
  _ <- (if 0 <? size staged then write_record fuel staged else ret tt) ;;
  _ <- flush_output ;;
  ret total.

Fixpoint shutdown_write (fuel : nat) : M unit :=
  match fuel with
  | O => starved
  | S fuel =>
      s <- on_engine engine_shutdown ;;
      match s with
      | StepDone | StepClosed => _ <- flush_output ;; ret tt
      | WantWrite => _ <- flush_output ;; shutdown_write fuel
      | WantRead => _ <- flush_output ;; _ <- fill_input ;; shutdown_write fuel
      | StepFailed => engine_failed
      end
  end.

End Stream.

(** ** Reasoning about coroutines

    [runs m st Q E]: from [st] the coroutine [m] never gets stuck; if it returns
    a value then [Q] holds, if it returns an error then [E] holds. *)

Section Runs.
Context `{HL : SslLaws}.
Implicit Types st : tls_stream_t.

Definition runs {A} (m : M A) st (Q : A -> tls_stream_t -> Prop) (E : error_t -> tls_stream_t -> Prop) : Prop :=
  match m st with
  | Ret (Ok a, st') => Q a st'
  | Ret (Unexpected e, st') => E e st'
  | Suspended => True
  | _ => False
  end.

Lemma runs_bind {A B} (m : M A) (k : A -> M B) st Q' Q E :
  runs m st Q' E -> (forall a st', Q' a st' -> runs (k a) st' Q E) -> runs (bind m k) st Q E.
Proof. unfold runs, bind. intros Hm Hk. destruct (m st) as [[[a|e] st']| | | |]; try done. by apply Hk. Qed.

Lemma runs_mono {A} (m : M A) st (Q Q' : A -> tls_stream_t -> Prop) (E E' : error_t -> tls_stream_t -> Prop) :
  runs m st Q E -> (forall a st', Q a st' -> Q' a st') -> (forall e st', E e st' -> E' e st') -> runs m st Q' E'.
Proof. unfold runs. intros Hm HQ HE. destruct (m st) as [[[a|e] st']| | | |]; try done; auto. Qed.

Lemma runs_seq {A B} (m : M A) (k : A -> M B) st Q1 (E1 E : error_t -> tls_stream_t -> Prop) Q :
  runs m st Q1 E1 -> (forall e st', E1 e st' -> E e st') -> (forall a st', Q1 a st' -> runs (k a) st' Q E) -> runs (bind m k) st Q E.
Proof. intros Hm HE Hk. eapply runs_bind; [eapply runs_mono; [exact Hm | intros a st' HQ; exact HQ | exact HE] | exact Hk]. Qed.

Lemma runs_engine {A} f st (Q : A -> tls_stream_t -> Prop) E :
  (forall a e', f (engine_ st) = (a, e') -> Q a (with_engine e' st)) -> runs (on_engine f) st Q E.
Proof. unfold runs, on_engine. intros Hf. destruct (f (engine_ st)) as [a e'] eqn:He. by apply Hf. Qed.

(** ** What the operations keep *)

Definition out st : bytes := outq (ssl (engine_ st)).
Definition made st : bytes := produced (ssl (engine_ st)).

(** All the ciphertext is on the wire or in the write BIO. *)
Definition clean st : Prop := wire (sock_ st) ++ out st = made st.

(** Receives left in the script, and their bytes. *)
Definition left st : nat := sum_list_with (fun r => match r with Arrived d => S (length d) | RecvError _ => 1%nat end) (recvs (sock_ st)).

(** From [st] to [st'] the stream sealed [recs] and opened [plain], received only
    when nothing lay unsent, and put no byte on the wire out of its order. *)
Record moved (recs : list bytes) (plain : bytes) st st' : Prop := {
  mv_sealed : sealed (ssl (engine_ st')) = sealed (ssl (engine_ st)) ++ recs;
  mv_opened : opened (ssl (engine_ st')) = opened (ssl (engine_ st)) ++ plain;
  mv_waits : exists k, waits (sock_ st') = waits (sock_ st) ++ replicate k 0;
  mv_left : (left st' <= left st)%nat;
  mv_fd : fd_ (sock_ st') = fd_ (sock_ st);
  mv_bite : 0 < io_bite_size_ st' < 2 ^ 31;
  mv_wire : wire (sock_ st') `prefix_of` made st'
}.

Lemma stream_moved_trans r1 r2 p1 p2 a b c : moved r1 p1 a b -> moved r2 p2 b c -> moved (r1 ++ r2) (p1 ++ p2) a c.
Proof.
  intros [A1 A2 [k1 A3] A4 A5 A6 A7] [B1 B2 [k2 B3] B4 B5 B6 B7]. constructor; try done; try lia; try congruence.
  - by rewrite B1, A1, app_assoc.
  - by rewrite B2, A2, app_assoc.
  - exists (k1 + k2)%nat. by rewrite B3, A3, replicate_add, app_assoc.
Qed.

Lemma moved_then r p a b c : moved [] [] a b -> moved r p b c -> moved r p a c.
Proof. exact (stream_moved_trans [] r [] p a b c). Qed.

Definition usable st : Prop := clean st /\ 0 < io_bite_size_ st < 2 ^ 31.

Lemma stream_moved_refl st : 0 < io_bite_size_ st < 2 ^ 31 -> wire (sock_ st) `prefix_of` made st -> moved [] [] st st.
Proof. intros Hb Hw. constructor; rewrite ?app_nil_r; try done. exists O. by rewrite app_nil_r. Qed.

Lemma clean_prefix st : clean st -> wire (sock_ st) `prefix_of` made st.
Proof. intros Hc. by exists (out st). Qed.

Lemma usable_refl st : usable st -> moved [] [] st st.
Proof. intros [Hc Hb]. apply stream_moved_refl; [done | by apply clean_prefix]. Qed.

(** A step of the engine in a usable stream. *)
Lemma engine_moved recs plain e' st :
  usable st -> stepped recs plain (engine_ st) e' -> usable (with_engine e' st) /\ moved recs plain st (with_engine e' st).
Proof.
  intros [Hc Hb] ([x [Hp Hq]] & Hs & Ho).
  assert (Hc' : clean (with_engine e' st)) by (unfold clean, out, made in *; simpl; by rewrite Hq, Hp, <- Hc, app_assoc).
  split; [by split|]. constructor; try done; [|by apply clean_prefix]. exists O. by rewrite app_nil_r.
Qed.

(** ** Moving ciphertext *)

(** A piece [d] that was taken from the BIO leaves whole, or an error does. *)
Lemma send_piece_runs fuel d st :
  (length d <= fuel)%nat -> wire (sock_ st) ++ d ++ out st = made st -> 0 < io_bite_size_ st < 2 ^ 31 ->
  runs (send_piece fuel d) st (fun _ st' => usable st' /\ moved [] [] st st' /\ engine_ st' = engine_ st) (fun _ st' => moved [] [] st st').
Proof.
  revert d st. induction fuel as [|fuel IH]; intros d st Hf Hw Hb.
  - destruct d; [|simpl in Hf; lia]. split; [by split|]. split; [|done]. apply usable_refl. by split.
  - destruct d as [|b d]; [split; [by split|]; split; [apply usable_refl; by split|done]|].
    remember (b :: d) as q eqn:Hq. replace (send_piece (S fuel) q) with
      (bind (sock_send q) (fun w => if w =? 0 then fail (system_error EPIPE) else send_piece fuel (drop (Z.to_nat w) q))) by by rewrite Hq.
    unfold runs, bind, sock_send. destruct (sends (sock_ st)) as [|[k|e] l]; [done| |].
    2: { constructor; rewrite ?app_nil_r; try done; [exists O; by rewrite app_nil_r|]. exists (q ++ out st). symmetry. exact Hw. }
    set (n := Z.max 0 (Z.min k (size q))). set (st1 := with_sock _ st). assert (Hn : 0 <= n <= size q) by (unfold n, size; lia).
    assert (H1 : moved [] [] st st1 /\ wire (sock_ st1) ++ drop (Z.to_nat n) q ++ out st1 = made st1).
    { assert (Hw1 : wire (sock_ st1) ++ drop (Z.to_nat n) q ++ out st1 = made st1).
      { change (out st1) with (out st). change (made st1) with (made st). simpl. rewrite <- app_assoc, (app_assoc (take _ _)), take_drop. done. }
      split; [|done]. constructor; rewrite ?app_nil_r; try done; [exists O; by rewrite app_nil_r|]. eexists. symmetry. exact Hw1. }
    destruct H1 as [Hm Hw1]. destruct (Z.eqb_spec n 0) as [Hz|Hz]; [exact Hm|].
    assert (Hl : (length (drop (Z.to_nat n) q) <= fuel)%nat) by (rewrite length_drop; unfold size in *; lia).
    pose proof (IH _ st1 Hl Hw1 Hb) as HI. unfold runs in HI. destruct (send_piece fuel _ st1) as [[[a|e] st']| | | |]; try done.
    + destruct HI as (Hu & Hm' & He). split; [done|]. split; [|done]. by eapply moved_then.
    + by eapply moved_then.
Qed.

Lemma grow_runs (b : bool) st E :
  usable st -> runs (if b then maybe_grow_io_bite else ret tt) st (fun _ st' => usable st' /\ moved [] [] st st' /\ engine_ st' = engine_ st /\ left st' = left st) E.
Proof.
  intros Hu. destruct b; unfold runs, maybe_grow_io_bite, ret; [|by split; [|split; [apply usable_refl|]]].
  destruct (io_bite_size_ st <? kMaxIoBiteSize); [|by split; [|split; [apply usable_refl|]]].
  destruct Hu as [Hc Hb]. split; [by split|]. split; [|done]. constructor; rewrite ?app_nil_r; try done; [exists O; by rewrite app_nil_r|by exists (out st)].
Qed.

Lemma flush_loop_runs fuel st :
  usable st -> (length (out st) <= fuel)%nat ->
  runs (flush_loop fuel) st (fun _ st' => usable st' /\ moved [] [] st st' /\ out st' = []) (fun _ st' => moved [] [] st st').
Proof.
  revert st. induction fuel as [|fuel IH]; intros st Hu Hf.
  - unfold runs, flush_loop, bind, get, output_pending, ret. rewrite pending_law. fold (out st). destruct (out st) eqn:Ho; [|simpl in Hf; lia].
    split; [done|]. split; [by apply usable_refl|done].
  - unfold runs; cbn [flush_loop]; unfold bind at 1, get at 1, output_pending. rewrite pending_law. fold (out st).
    destruct (Z.ltb_spec 0 (size (out st))) as [Hp|Hp].
    2: { split; [done|]. split; [by apply usable_refl|]. apply length_zero_iff_nil. unfold size in Hp. lia. }
    assert (Hne : out st <> []) by (intros Heq; rewrite Heq in Hp; by apply Z.lt_irrefl in Hp). destruct Hu as [Hc Hb].
    eapply (runs_bind (get io_bite_size_) _ _ (fun b st' => b = io_bite_size_ st /\ st' = st)); [by split|]. intros ? ? [-> ->].
    eapply (runs_bind _ _ _ (fun d st' => (exists e', take_output (io_bite_size_ st) (engine_ st) = (d, e') /\ st' = with_engine e' st))).
    { apply runs_engine. intros a e' He. by exists e'. }
    intros d st1 (e' & Ht & ->). apply take_step in Ht as (Hd & Hq & Hpr & Hs & Ho); [|done..]. fold (out st) in Hd, Hq.
    assert (Hm1 : moved [] [] st (with_engine e' st)).
    { constructor; simpl; rewrite ?app_nil_r; try done; [exists O; by rewrite app_nil_r|]. unfold made; simpl. rewrite Hpr. by apply clean_prefix. }
    assert (Hl : (length (drop (Z.to_nat (io_bite_size_ st)) (out st)) <= fuel)%nat) by (rewrite length_drop; unfold size in *; lia).
    eapply runs_seq; [apply send_piece_runs; [done| |done]| |].
    + unfold out, made; simpl. rewrite Hq, Hpr, Hd, take_drop. exact Hc.
    + intros e st2 H2. by eapply moved_then.
    + intros [] st2 (Hu2 & Hm2 & He2). eapply runs_bind; [by apply grow_runs|]. intros [] st3 (Hu3 & Hm3 & He3 & _).
      pose proof (moved_then _ _ _ _ _ (moved_then _ _ _ _ _ Hm1 Hm2) Hm3) as Hm.
      eapply runs_mono; [apply IH; [done|]| |].
      * unfold out. rewrite He3, He2. simpl. by rewrite Hq.
      * intros [] st4 (Hu4 & Hm4 & Ho4). split; [done|]. split; [|done]. by eapply moved_then.
      * intros e st4 Hm4. by eapply moved_then.
Qed.

Lemma flush_runs st :
  usable st -> runs flush_output st (fun _ st' => usable st' /\ moved [] [] st st' /\ out st' = []) (fun _ st' => moved [] [] st st').
Proof.
  intros Hu. apply (flush_loop_runs (Z.to_nat (output_pending (engine_ st))) st Hu). unfold output_pending. rewrite pending_law. fold (out st). unfold size. lia.
Qed.

(** With nothing unsent, a receive uses up a part of the script. *)
Lemma sock_recv_runs len st :
  usable st -> out st = [] -> 0 < len ->
  runs (sock_recv len) st (fun d st' => usable st' /\ moved [] [] st st' /\ out st' = [] /\ (left st' < left st)%nat) (fun _ st' => moved [] [] st st').
Proof.
  intros [Hc Hb] Ho Hl. unfold runs, sock_recv, output_pending. rewrite pending_law. fold (out st). rewrite Ho. change (size []) with 0.
  assert (Hm : forall l, (sum_list_with (fun r => match r with Arrived d => S (length d) | RecvError _ => 1%nat end) l <= left st)%nat ->
    moved [] [] st (with_sock (mk_sock (fd_ (sock_ st)) (sends (sock_ st)) l (wire (sock_ st)) (waits (sock_ st) ++ [0])) st)).
  { intros l Hle. constructor; simpl; rewrite ?app_nil_r; try done; [by exists 1%nat|]. exact (clean_prefix st Hc). }
  destruct (recvs (sock_ st)) as [|[d|e] l] eqn:Hr; [done| |].
  - assert (Hlt : (sum_list_with (fun r => match r with Arrived d => S (length d) | RecvError _ => 1%nat end)
      (match drop (Z.to_nat len) d with [] => l | r => Arrived r :: l end) < left st)%nat).
    { unfold left. rewrite Hr. simpl. pose proof (length_drop d (Z.to_nat len)) as Hd. destruct (drop (Z.to_nat len) d) as [|b r]; [lia|]. cbn -[Nat.sub]. cbn -[Nat.sub] in Hd. lia. }
    split; [by split|]. split; [apply Hm; lia|]. split; [done | exact Hlt].
  - apply Hm. unfold left. rewrite Hr. simpl. lia.
Qed.

Lemma fill_runs st :
  usable st -> out st = [] ->
  runs fill_input st (fun _ st' => usable st' /\ moved [] [] st st' /\ (left st' < left st)%nat) (fun _ st' => moved [] [] st st').
Proof.
  intros Hu Ho. pose proof Hu as [Hc Hb].
  eapply (runs_bind (get io_bite_size_) _ _ (fun b st' => b = io_bite_size_ st /\ st' = st)); [by split|]. intros ? ? [-> ->].
  eapply runs_bind; [apply sock_recv_runs; [done..|lia]|]. intros d st1 (Hu1 & Hm1 & Ho1 & Hl1). case_bool_decide; [exact Hm1|].
  eapply (runs_bind _ _ _ (fun r st' => usable st' /\ moved [] [] st st' /\ left st' = left st1)).
  { apply runs_engine. intros r e' (Hq & Hp & Hs & Hop)%feed_step.
    assert (Hst : stepped [] [] (engine_ st1) e') by (split_and!; [exists []|..]; rewrite ?app_nil_r; done).
    destruct (engine_moved _ _ _ _ Hu1 Hst) as [Hu2 Hm2]. split; [done|]. split; [by eapply moved_then|done]. }
  intros r st2 (Hu2 & Hm2 & Hl2). eapply (runs_bind _ _ _ (fun _ st' => st' = st2)); [by destruct r|]. intros [] ? ->.
  eapply runs_mono; [by apply grow_runs| |intros e st3 H3; exact H3]. intros [] st3 (Hu3 & Hm3 & _ & Hl3).
  split; [done|]. split; [by eapply moved_then|lia].
Qed.

(** Output first, then input: what every operation does that must wait. *)
Lemma wait_runs {A} (k : M A) st Q (E : error_t -> tls_stream_t -> Prop) :
  usable st -> (forall e st', moved [] [] st st' -> E e st') ->
  (forall st', usable st' -> moved [] [] st st' -> (left st' < left st)%nat -> runs k st' Q E) ->
  runs (bind flush_output (fun _ => bind fill_input (fun _ => k))) st Q E.
Proof.
  intros Hu HE Hk. eapply runs_seq; [by apply flush_runs|exact HE|]. intros [] st1 (Hu1 & Hm1 & Ho1).
  eapply runs_seq; [by apply fill_runs| |].
  - intros e st2 Hm2. apply HE. by eapply moved_then.
  - intros [] st2 (Hu2 & Hm2 & Hl2). apply Hk; [done|by eapply moved_then|]. pose proof (mv_left _ _ _ _ Hm1). lia.
Qed.

(** ** The operations *)

Lemma runs_from {A} (m : M A) st st1 (R : A -> tls_stream_t -> Prop) r (p : A -> bytes) :
  moved [] [] st st1 -> runs m st1 (fun a st' => R a st' /\ moved r (p a) st1 st') (fun _ st' => moved [] [] st1 st') ->
  runs m st1 (fun a st' => R a st' /\ moved r (p a) st st') (fun _ st' => moved [] [] st st').
Proof.
  intros Hm Hr. eapply runs_mono; [exact Hr|..]; cbn beta.
  - intros a st' [HR Hm']. split; [done|]. by eapply moved_then.
  - intros e st' Hm'. by eapply moved_then.
Qed.

Lemma write_record_runs fuel staged st :
  usable st -> 0 < size staged <= kRecordPayload -> (left st < fuel)%nat ->
  runs (write_record fuel staged) st (fun _ st' => usable st' /\ moved [staged] [] st st') (fun _ st' => moved [] [] st st').
Proof.
  intros Hu Hsz. revert st Hu. induction fuel as [|fuel IH]; intros st Hu Hf; [lia|]. cbn [write_record].
  rewrite bool_decide_false by (intros ->; change (size []) with 0 in Hsz; lia).
  eapply (runs_bind _ _ _ (fun s st' => usable st' /\ moved (if decide (s = StepDone) then [staged] else []) [] st st' /\ left st' = left st)).
  { apply runs_engine. intros s e' Hs%write_step; [|done]. destruct (engine_moved _ _ _ _ Hu Hs) as [Hu1 Hm1]. done. }
  intros s st1 (Hu1 & Hm1 & Hl1). destruct s; simpl in Hm1; try exact Hm1; [by split| |].
  all: eapply runs_seq; [by apply flush_runs|intros; by eapply moved_then|]; intros [] st2 (Hu2 & Hm2 & Ho2);
    eapply (runs_bind (get _) _ _ (fun b st' => b = output_pending (engine_ st2) /\ st' = st2)); [by split|]; intros ? ? [-> ->];
    unfold output_pending; rewrite pending_law; fold (out st2); rewrite Ho2; change (size [] =? 0) with true; cbn iota;
    pose proof (moved_then _ _ _ _ _ Hm1 Hm2) as Hm; (eapply runs_seq; [by apply fill_runs|intros; by eapply moved_then|]);
    intros [] st3 (Hu3 & Hm3 & Hl3); pose proof (moved_then _ _ _ _ _ Hm Hm3) as Hm';
    apply (runs_from _ _ _ (fun _ st' => usable st') [staged] (fun _ => [])); [done|]; apply IH; [done|pose proof (mv_left _ _ _ _ Hm); lia].
Qed.

(** A coroutine that moves ciphertext leaves the engine's flags alone. *)
Definition keeps_flags {A} (m : M A) : Prop :=
  forall st r st', m st = Ret (r, st') -> handshaken_ (engine_ st') = handshaken_ (engine_ st) /\ server_side (engine_ st') = server_side (engine_ st).

Lemma keeps_bind {A B} (m : M A) (k : A -> M B) : keeps_flags m -> (forall a, keeps_flags (k a)) -> keeps_flags (bind m k).
Proof.
  intros Hm Hk st r st'. unfold bind. destruct (m st) as [[[a|e] st1]| | | |] eqn:E1; try done.
  - intros E2. destruct (Hm _ _ _ E1), (Hk _ _ _ _ E2). split; congruence.
  - intros [= <- <-]. exact (Hm _ _ _ E1).
Qed.

Lemma keeps_if {A} (b : bool) (m1 m2 : M A) : keeps_flags m1 -> keeps_flags m2 -> keeps_flags (if b then m1 else m2).
Proof. by destruct b. Qed.

Lemma keeps_engine {A} (f : tls_engine_t -> A * tls_engine_t) :
  (forall e a e', f e = (a, e') -> handshaken_ e' = handshaken_ e /\ server_side e' = server_side e) -> keeps_flags (on_engine f).
Proof. intros Hf st r st'. unfold on_engine. destruct (f (engine_ st)) as [a e'] eqn:He. intros [= <- <-]. exact (Hf _ _ _ He). Qed.

Ltac keeps_leaf := intros ? ? ?; unfold of_expected, get, ret, fail, starved, sock_send, sock_recv, maybe_grow_io_bite; repeat case_match; intros; by simplify_eq/=.
Ltac keeps_engine_leaf := apply keeps_engine; unfold take_output, feed_input; intros ? ? ?; case_match; repeat case_match; intros; by simplify_eq/=.

Lemma keeps_send_piece fuel d : keeps_flags (send_piece fuel d).
Proof.
  revert d. induction fuel as [|fuel IH]; intros [|b d]; cbn [send_piece]; try keeps_leaf.
  apply keeps_bind; [keeps_leaf|]. intros w. apply keeps_if; [keeps_leaf | apply IH].
Qed.

Lemma keeps_flush : keeps_flags flush_output.
Proof.
  intros st. unfold flush_output. generalize (Z.to_nat (output_pending (engine_ st))). intros fuel. revert st. change (keeps_flags (flush_loop fuel)).
  induction fuel as [|fuel IH]; (apply keeps_bind; [keeps_leaf|]; intros p; apply keeps_if; [|keeps_leaf]); [keeps_leaf|].
  apply keeps_bind; [keeps_leaf|]. intros bite. apply keeps_bind; [keeps_engine_leaf|]. intros d. apply keeps_bind; [apply keeps_send_piece|]. intros [].
  apply keeps_bind; [apply keeps_if; keeps_leaf|]. intros []. exact IH.
Qed.

Lemma keeps_fill : keeps_flags fill_input.
Proof.
  apply keeps_bind; [keeps_leaf|]. intros bite. apply keeps_bind; [keeps_leaf|]. intros d. case_bool_decide; [keeps_leaf|].
  apply keeps_bind; [keeps_engine_leaf|]. intros r. apply keeps_bind; [destruct r; keeps_leaf|]. intros []. apply keeps_if; keeps_leaf.
Qed.

(** A handshake that is done has been checked. *)
Lemma handshake_settles fuel st st' :
  handshaken_ (engine_ st) = false -> handshake fuel st = Ret (Ok tt, st') -> handshaken_ (engine_ st') = true /\ checked (engine_ st').
Proof.
  revert st. induction fuel as [|fuel IH]; intros st Hf; [done|]. cbn [handshake]. unfold bind at 1.
  destruct (flush_output st) as [[[[]|e] st1]| | | |] eqn:E1; try done. apply keeps_flush in E1 as [E1 _].
  unfold bind at 1, on_engine at 1. destruct (engine_handshake (engine_ st1)) as [s e'] eqn:Es.
  apply handshake_checks in Es as (_ & Hd & Hr); [|congruence]. destruct s.
  - intros [= <-]. by apply Hd.
  - unfold bind. destruct (flush_output (with_engine e' st1)) as [[[[]|e] st2]| | | |] eqn:E2; try done. apply keeps_flush in E2 as [E2 _].
    destruct (fill_input st2) as [[[[]|e] st3]| | | |] eqn:E3; try done. apply keeps_fill in E3 as [E3 _]. apply IH. simpl in E2. rewrite E3, E2. auto.
  - intros Hh. eapply IH; [|exact Hh]. simpl. auto.
  - done.
  - done.
Qed.

Lemma handshake_runs fuel st :
  usable st -> (left st < fuel)%nat -> runs (handshake fuel) st (fun _ st' => usable st' /\ moved [] [] st st') (fun _ st' => moved [] [] st st').
Proof.
  revert st. induction fuel as [|fuel IH]; intros st Hu Hf; [lia|]. cbn [handshake].
  eapply runs_bind; [by apply flush_runs|]. intros [] st1 (Hu1 & Hm1 & _). pose proof (mv_left _ _ _ _ Hm1) as Hl1.
  eapply (runs_bind _ _ _ (fun s st' => usable st' /\ moved [] [] st st' /\ left st' = left st1 /\ s <> WantWrite)).
  { apply runs_engine. intros s e' [Hs Hw]%handshake_step. destruct (engine_moved _ _ _ _ Hu1 Hs) as [Hu2 Hm2]. split_and!; try done. by eapply moved_then. }
  intros s st2 (Hu2 & Hm2 & Hl2 & Hw). destruct s; try done; [].
  apply wait_runs; [done|intros; by eapply moved_then|]. intros st3 Hu3 Hm3 Hl3.
  apply (runs_from _ _ _ (fun _ st' => usable st') [] (fun _ => [])); [by eapply moved_then|]. apply IH; [done|lia].
Qed.

Lemma recv_runs fuel len st :
  usable st -> 0 < len < 2 ^ 31 -> (left st < fuel)%nat ->
  runs (recv fuel len) st (fun d st' => (usable st' /\ size d <= len /\ (d = [] -> notified (ssl (engine_ st')))) /\ moved [] d st st') (fun _ st' => moved [] [] st st').
Proof.
  intros Hu Hlen. revert st Hu. induction fuel as [|fuel IH]; intros st Hu Hf; [lia|]. cbn [recv].
  eapply (runs_bind _ _ _ (fun x st' => usable st' /\ moved [] x.2 st st' /\ left st' = left st /\ x.1 <> WantWrite /\ (if decide (x.1 = StepDone) then 0 < size x.2 <= len else x.2 = []) /\ (x.1 = StepClosed -> notified (ssl (engine_ st'))))).
  { apply runs_engine. intros [s d] e' Hr. destruct (engine_read len (engine_ st)) as [[s' d'] e''] eqn:He. simplify_eq.
    assert (Hc : s = StepClosed -> notified (ssl e')) by (intros ->; by eapply read_closed).
    apply read_step in He as (Hs & Hw & Hd); [|done]. destruct (engine_moved _ _ _ _ Hu Hs) as [Hu2 Hm2]. done. }
  intros [s d] st1 (Hu1 & Hm1 & Hl1 & Hw & Hd & Hcl). simpl in *. destruct s; simpl in Hd; try done; subst.
  - split_and!; try done; [lia|]. intros ->. change (size []) with 0 in Hd. lia.
  - apply wait_runs; [done|intros; by eapply moved_then|]. intros st2 Hu2 Hm2 Hl2. pose proof (moved_then _ _ _ _ _ Hm1 Hm2) as Hm.
    apply (runs_from _ _ _ (fun d st' => usable st' /\ size d <= len /\ (d = [] -> notified (ssl (engine_ st')))) [] id); [done|]. apply IH; [done|lia].
  - split_and!; try done; [|by intros _; apply Hcl]. change (size []) with 0. lia.
  - exact Hm1.
Qed.

Lemma shutdown_runs fuel st :
  usable st -> (left st < fuel)%nat -> runs (shutdown_write fuel) st (fun _ st' => (usable st' /\ out st' = []) /\ moved [] [] st st') (fun _ st' => moved [] [] st st').
Proof.
  revert st. induction fuel as [|fuel IH]; intros st Hu Hf; [lia|]. cbn [shutdown_write].
  eapply (runs_bind _ _ _ (fun s st' => usable st' /\ moved [] [] st st' /\ left st' = left st /\ s <> WantWrite)).
  { apply runs_engine. intros s e' [Hs Hw]%shutdown_step. by destruct (engine_moved _ _ _ _ Hu Hs). }
  intros s st1 (Hu1 & Hm1 & Hl1 & Hw). destruct s; try done.
  2: { apply wait_runs; [done|intros; by eapply moved_then|]. intros st2 Hu2 Hm2 Hl2. pose proof (moved_then _ _ _ _ _ Hm1 Hm2) as Hm.
       apply (runs_from _ _ _ (fun _ st' => usable st' /\ out st' = []) [] (fun _ => [])); [done|]. apply IH; [done|lia]. }
  all: eapply runs_seq; [by apply flush_runs|intros; by eapply moved_then|]; intros [] st2 (Hu2 & Hm2 & Ho2); split_and!; try done; by eapply moved_then.
Qed.

(** ** Gather writes *)

(** Sealed so far: full records that, with [rest], are the data. *)
Definition sealed_part (data rest : bytes) st st' : Prop :=
  exists recs, Forall (fun r => size r = kRecordPayload) recs /\ concat recs ++ rest = data /\ moved recs [] st st'.

Lemma sealed_part_trans d rest p rest' a b c : sealed_part d rest a b -> sealed_part (rest ++ p) rest' b c -> sealed_part (d ++ p) rest' a c.
Proof.
  intros (r1 & F1 & C1 & M1) (r2 & F2 & C2 & M2). exists (r1 ++ r2). split; [by apply Forall_app|]. split; [|exact (stream_moved_trans _ _ [] [] _ _ _ M1 M2)].
  by rewrite concat_app, <- app_assoc, C2, app_assoc, C1.
Qed.

Lemma sealed_part_none d st st' : moved [] [] st st' -> sealed_part d d st st'.
Proof. by exists []. Qed.

Lemma sealed_part_left d rest st st' : sealed_part d rest st st' -> (left st' <= left st)%nat.
Proof. intros (r & _ & _ & Hm). exact (mv_left _ _ _ _ Hm). Qed.

(** An error leaves whole records of a prefix of the data sealed. *)
Definition cut_short (data : bytes) st (_ : error_t) st' : Prop := exists rest, sealed_part data rest st st'.

Lemma stage_slice_runs fuel n p staged total st :
  usable st -> size staged < kRecordPayload -> (length p <= n)%nat -> (left st < fuel)%nat ->
  runs (stage_slice fuel n p staged total) st
    (fun x st' => usable st' /\ size x.1 < kRecordPayload /\ x.2 = total + size p /\ sealed_part (staged ++ p) x.1 st st') (cut_short (staged ++ p) st).
Proof.
  revert p staged total st. induction n as [|n IH]; intros p staged total st Hu Hs Hn Hf.
  { destruct p; [|simpl in Hn; lia]. split_and!; try done; [change (size []) with 0; simpl; lia|]. rewrite app_nil_r. apply sealed_part_none. by apply usable_refl. }
  destruct p as [|b p].
  { split_and!; try done; [change (size []) with 0; simpl; lia|]. rewrite app_nil_r. apply sealed_part_none. by apply usable_refl. }
  remember (b :: p) as q eqn:Hq. assert (Hq0 : 0 < size q) by (subst; unfold size; simpl; lia). cbn [stage_slice].
  set (k := if size q <? kRecordPayload - size staged then size q else kRecordPayload - size staged).
  assert (Hk : 0 < k <= size q) by (unfold k; destruct (Z.ltb_spec (size q) (kRecordPayload - size staged)); lia).
  assert (Hsz : size (staged ++ take (Z.to_nat k) q) = size staged + k) by (unfold size in *; rewrite length_app, length_take; lia).
  assert (Hdrop : size (drop (Z.to_nat k) q) = size q - k) by (unfold size in *; rewrite length_drop; lia).
  assert (Hln : (length (drop (Z.to_nat k) q) <= n)%nat) by (unfold size in *; rewrite length_drop; lia).
  assert (Hqq : staged ++ q = (staged ++ take (Z.to_nat k) q) ++ drop (Z.to_nat k) q) by by rewrite <- app_assoc, take_drop.
  rewrite Hq at 1. rewrite Hsz. destruct (Z.ltb_spec (size staged + k) kRecordPayload) as [Hlt|Hge].
  - eapply runs_mono; [apply (IH (drop (Z.to_nat k) q)); [done|lia|done|done]|..]; cbn beta.
    + intros [s' t'] st' (Hu' & Hs' & Ht' & Hp'). rewrite Hqq. split_and!; try done. simpl in *. lia.
    + intros e st'. by rewrite Hqq.
  - assert (Hfull : size (staged ++ take (Z.to_nat k) q) = kRecordPayload).
    { rewrite Hsz. unfold k in *. destruct (Z.ltb_spec (size q) (kRecordPayload - size staged)); lia. }
    eapply runs_seq; [apply (write_record_runs fuel (staged ++ take (Z.to_nat k) q)); [done|rewrite Hfull; unfold kRecordPayload; lia|done]|..].
    { intros e st' Hm. exists (staged ++ q). by apply sealed_part_none. }
    intros [] st1 [Hu1 Hm1].
    assert (Hp1 : sealed_part (staged ++ take (Z.to_nat k) q) [] st st1).
    { exists [staged ++ take (Z.to_nat k) q]. split; [by apply Forall_singleton|]. split; [|done]. simpl. by rewrite !app_nil_r. }
    pose proof (sealed_part_left _ _ _ _ Hp1). rewrite Hqq.
    eapply runs_mono; [apply (IH (drop (Z.to_nat k) q) []); [done|done|done|lia]|..]; cbn beta.
    + intros [s' t'] st' (Hu' & Hs' & Ht' & Hp'). split_and!; try done; [simpl in *; lia|]. by eapply sealed_part_trans.
    + intros e st' [rest Hp']. exists rest. by eapply sealed_part_trans.
Qed.

Lemma stage_slices_runs fuel iov staged total st :
  usable st -> size staged < kRecordPayload -> (left st < fuel)%nat ->
  runs (stage_slices fuel iov staged total) st
    (fun x st' => usable st' /\ size x.1 < kRecordPayload /\ x.2 = total + size (concat iov) /\ sealed_part (staged ++ concat iov) x.1 st st')
    (cut_short (staged ++ concat iov) st).
Proof.
  revert staged total st. induction iov as [|p iov IH]; intros staged total st Hu Hs Hf.
  { split_and!; try done; [simpl; change (size []) with 0; lia|]. simpl. rewrite app_nil_r. apply sealed_part_none. by apply usable_refl. }
  cbn [stage_slices concat]. rewrite app_assoc.
  eapply runs_seq; [by apply stage_slice_runs|..].
  - intros e st' [rest (recs & Hr & Hc & Hm)]. exists (rest ++ concat iov), recs. by rewrite app_assoc, Hc.
  - intros [s1 t1] st1 (Hu1 & Hs1 & Ht1 & Hp1). pose proof (sealed_part_left _ _ _ _ Hp1). simpl in Hs1, Ht1.
    eapply runs_mono; [apply (IH s1 t1 st1); [done|done|lia]|..]; cbn beta.
    + intros [s2 t2] st2 (Hu2 & Hs2 & Ht2 & Hp2). split_and!; try done; [simpl in *; unfold size in *; rewrite length_app; lia|].
      by eapply sealed_part_trans.
    + intros e st2 [rest Hp2]. exists rest. by eapply sealed_part_trans.
Qed.

(** Full records, and a shorter one at the end at most. *)
Definition framed (data : bytes) (recs : list bytes) : Prop :=
  concat recs = data /\
  exists full tail, recs = full ++ tail /\ Forall (fun r => size r = kRecordPayload) full /\ (tail = [] \/ exists t, tail = [t] /\ 0 < size t < kRecordPayload).

(** The whole vector was sealed, and every byte the engine produced is sent. *)
Definition written (data : bytes) st (total : Z) st' : Prop :=
  total = size data /\ wire (sock_ st') = made st' /\ usable st' /\ exists recs, framed data recs /\ moved recs [] st st'.

(** A prefix of the vector was sealed, in records; a prefix of the ciphertext is
    sent. *)
Definition write_failed (data : bytes) st (_ : error_t) st' : Prop := exists recs, concat recs `prefix_of` data /\ moved recs [] st st'.

Lemma part_failed data rest e st st' : sealed_part data rest st st' -> write_failed data st e st'.
Proof. intros (recs & _ & Hc & Hm). exists recs. split; [|done]. by exists rest. Qed.

Lemma tail_framed data rest recs :
  Forall (fun r => size r = kRecordPayload) recs -> concat recs ++ rest = data -> size rest < kRecordPayload ->
  framed data (recs ++ if 0 <? size rest then [rest] else []).
Proof.
  intros Hf Hc Hs. destruct (Z.ltb_spec 0 (size rest)) as [Hr|Hr].
  - split; [rewrite concat_app; simpl; by rewrite app_nil_r|]. exists recs, [rest]. split; [done|]. split; [done|]. right. by exists rest.
  - assert (rest = []) as -> by (apply length_zero_iff_nil; unfold size in Hr; lia). rewrite app_nil_r in *.
    split; [done|]. exists recs, []. rewrite app_nil_r. auto.
Qed.

Lemma writev_runs fuel iov st :
  usable st -> (left st < fuel)%nat -> runs (writev fuel iov) st (written (concat iov) st) (write_failed (concat iov) st).
Proof.
  intros Hu Hf. unfold writev. eapply runs_seq; [by apply (stage_slices_runs fuel iov [] 0)|intros e st' [rest Hp]; by eapply part_failed|].
  intros [s t] st1 (Hu1 & Hs1 & Ht1 & recs & Hr & Hc & Hm1). simpl in Hs1, Ht1, Hc. subst t. pose proof (mv_left _ _ _ _ Hm1).
  pose proof (tail_framed _ _ _ Hr Hc Hs1) as Hfr.
  eapply (runs_seq _ _ _ (fun _ st' => usable st' /\ moved (recs ++ if 0 <? size s then [s] else []) [] st st') (fun _ st' => moved recs [] st st')).
  - destruct (Z.ltb_spec 0 (size s)) as [Hpos|_]; [|rewrite app_nil_r; by split].
    eapply runs_mono; [apply write_record_runs; [done|lia|lia]|..]; cbn beta.
    + intros _ st2 [Hu2 Hm2]. split; [done|]. exact (stream_moved_trans _ _ [] [] _ _ _ Hm1 Hm2).
    + intros e st2 Hm2. pose proof (stream_moved_trans _ _ [] [] _ _ _ Hm1 Hm2) as Hm. by rewrite app_nil_r in Hm.
  - intros e st2 Hm2. exists recs. split; [by exists s|done].
  - intros [] st2 [Hu2 Hm2]. eapply runs_seq; [by apply flush_runs|..].
    + intros e st3 Hm3. pose proof (stream_moved_trans _ _ [] [] _ _ _ Hm2 Hm3) as Hm. rewrite app_nil_r in Hm. eexists. split; [|exact Hm]. by rewrite (proj1 Hfr).
    + intros [] st3 (Hu3 & Hm3 & Ho3). pose proof (stream_moved_trans _ _ [] [] _ _ _ Hm2 Hm3) as Hm. rewrite app_nil_r in Hm.
      split; [done|]. split; [|split; [done|]; by eexists]. destruct Hu3 as [Hc3 _]. unfold clean in Hc3. by rewrite Ho3, app_nil_r in Hc3.
Qed.
End Runs.

(** C17: TLS gather writes, over any OpenSSL that behaves as documented and any
    behaviour of the socket: with fuel for the receives in the script, the
    write never gets stuck.  If it succeeds it returns the length of the
    vector, the record layer sealed exactly the bytes of the vector in their
    order, in full records and a shorter last one, and every byte of ciphertext
    the engine ever produced is on the wire.  If it fails, whole records of a
    prefix of the vector were sealed, and the wire holds a prefix of the
    ciphertext.  In both cases the stream waited for the peer only when nothing
    lay unsent. *)
Theorem tls_writev_exact `{HL : SslLaws} fuel iov st :
  usable st -> (left st < fuel)%nat -> runs (writev fuel iov) st (written (concat iov) st) (write_failed (concat iov) st).
Proof. apply writev_runs. Qed.

(** TLS receives: with fuel for the receives in the script, a receive
    returns at most [len] bytes of plaintext, the next ones OpenSSL opened; it
    returns nothing, the end of the stream, only after the peer's
    [close_notify]; the stream waits for the peer only when nothing lies unsent,
    so neither side waits for bytes the other holds back. *)
Theorem tls_recv_exact `{HL : SslLaws} fuel len st :
  usable st -> 0 < len < 2 ^ 31 -> (left st < fuel)%nat ->
  runs (recv fuel len) st
    (fun d st' => (usable st' /\ size d <= len /\ (d = [] -> notified (ssl (engine_ st')))) /\ moved [] d st st')
    (fun _ st' => moved [] [] st st').
Proof. intros Hu Hl Hf. by apply recv_runs. Qed.

(** ** A record layer in the clear

    A model of the interface: a handshake of one message each way, records
    marked by one byte, no secrets. *)
Module Clear.

Record conn := mk_conn { q : bytes; all : bytes; recs : list bytes; plain : bytes; input : bytes; greeted : bool; cert_ok : bool }.

Definition put (x : bytes) (c : conn) := mk_conn (q c ++ x) (all c ++ x) (recs c) (plain c) (input c) (greeted c) (cert_ok c).

(** The hello goes out; when the peer's first byte is here, the last message. *)
Definition do_handshake (c : conn) : Z * conn :=
  if greeted c
  then match input c with
       | [] => (-1, c)
       | _ :: i => (1, put [20] (mk_conn (q c) (all c) (recs c) (plain c) i true (cert_ok c)))
       end
  else (-1, put [22] (mk_conn (q c) (all c) (recs c) (plain c) (input c) true (cert_ok c))).

(** A byte 0 is the peer's close. *)
Definition do_read (n : Z) (c : conn) : Z * bytes * conn :=
  match input c with
  | [] => (-1, [], c)
  | 0 :: _ => (0, [], c)
  | b :: i => (1, [b], mk_conn (q c) (all c) (recs c) (plain c ++ [b]) i (greeted c) (cert_ok c))
  end.

Definition do_write (d : bytes) (c : conn) : Z * conn :=
  let c := put (23 :: d) c in (Z.max 1 (size d), mk_conn (q c) (all c) (recs c ++ [d]) (plain c) (input c) (greeted c) (cert_ok c)).

Definition get_error (_ : conn) (r : Z) : ssl_error := if 0 <? r then SSL_ERROR_NONE else if r =? 0 then SSL_ERROR_ZERO_RETURN else SSL_ERROR_WANT_READ.

Definition take_q (n : Z) (c : conn) : Z * bytes * conn :=
  let d := take (Z.to_nat n) (q c) in (size d, d, mk_conn (drop (Z.to_nat n) (q c)) (all c) (recs c) (plain c) (input c) (greeted c) (cert_ok c)).

Definition feed (d : bytes) (c : conn) : Z * conn := (size d, mk_conn (q c) (all c) (recs c) (plain c) (input c ++ d) (greeted c) (cert_ok c)).

#[export] Instance clear_ssl : Ssl := {
  SSL_CTX := bool; SSL := conn; SSL_new ok := Some (mk_conn [] [] [] [] [] false ok); BIO_new_pair := Some;
  SSL_set_accept_state c := c; SSL_set_connect_state c := c; SSL_set_tlsext_host_name _ c := (1, c); SSL_set1_host _ c := (1, c);
  SSL_do_handshake := do_handshake; SSL_read := do_read; SSL_write := do_write; SSL_shutdown c := (0, put [21] c);
  SSL_get_error := get_error; reason_verify_failed _ := false; errno _ := 5; verify_result_ok := cert_ok; verify_mode_none _ := false;
  wbio_pending c := size (q c); wbio_read := take_q; rbio_write := feed
}.
#[export] Instance clear_view : SslView := { produced := all; outq := q; sealed := recs; opened := plain }.

Lemma put_emits x c : emits c (put x c).
Proof. by exists x. Qed.

#[export] Instance clear_laws : SslLaws.
Proof.
  constructor; simpl.
  - intros c. unfold do_handshake. destruct (greeted c); [destruct (input c)|]; split_and!; try done; try apply emits_refl; by eexists.
  - assert (Hone : forall b i c n, 0 < n -> let '(r, d, c') := (1, [b], mk_conn (q c) (all c) (recs c) (plain c ++ [b]) i (greeted c) (cert_ok c)) in
      emits c c' /\ recs c' = recs c /\ if 0 <? r then size d = r /\ r <= n /\ plain c' = plain c ++ d else plain c' = plain c).
    { intros b i c n Hn. split; [exists []; simpl; by rewrite !app_nil_r|]. split; [done|]. simpl. split_and!; [done|lia|done]. }
    intros n c Hn. unfold do_read. destruct (input c) as [|[|b|b] i]; [|exact (conj (emits_refl c) (conj eq_refl eq_refl))|exact (Hone _ i c n Hn)..].
    exact (conj (emits_refl c) (conj eq_refl eq_refl)).
  - intros d c Hd. unfold do_write. split; [by exists (23 :: d)|]. split; [done|]. destruct (Z.ltb_spec 0 (Z.max 1 (size d))); [done|lia].
  - intros c. split; [apply put_emits|done].
  - intros c r. unfold get_error. destruct (Z.ltb_spec 0 r); [by split|]. destruct (r =? 0); split; try done; lia.
  - intros c r. unfold get_error. destruct (0 <? r); [done|]. by destruct (r =? 0).
  - done.
  - intros n c Hn Hq. by split_and!.
  - intros d c. by split_and!.
Qed.

#[export] Instance clear_setup : SslSetupLaws.
Proof. constructor; simpl; [by intros ctx s s' [= <-] [= <-]|done|done]. Qed.

Definition client (ok : bool) (sends : list send_ev) (recvs : list recv_ev) : tls_stream_t :=
  new_stream (mk_sock 7 sends recvs [] []) (mk_engine (mk_conn [] [] [] [] [] false ok) false no_error false).

Lemma client_usable ok sends recvs : usable (client ok sends recvs).
Proof. by split. Qed.
End Clear.
Import Clear.

(** Two slices leave in one record, over a socket that takes three bytes and
    then the rest. *)
Lemma tls_writev_exact_witness :
  exists st', writev 1 [[1; 2]; [3; 4; 5]] (client true [Sent 3; Sent 100] []) = Ret (Ok 5, st') /\
    wire (sock_ st') = made st' /\ sealed (ssl (engine_ st')) = [[1; 2; 3; 4; 5]].
Proof.
  pose proof (tls_writev_exact 1 [[1; 2]; [3; 4; 5]] (client true [Sent 3; Sent 100] []) (client_usable _ _ _) ltac:(cbv; lia)) as H.
  unfold runs in H. eassert (Hrun : writev 1 [[1; 2]; [3; 4; 5]] (client true [Sent 3; Sent 100] []) = Ret (Ok 5, _)) by (vm_compute; reflexivity).
  rewrite Hrun in H. eexists. split; [exact Hrun|]. split; [exact (proj1 (proj2 H))|reflexivity].
Defined.

(** Plaintext after a receive, then the peer's close. *)
Lemma tls_recv_exact_witness :
  exists st', recv 5 100 (client true [] [Arrived [9; 0]]) = Ret (Ok [9], st') /\ opened (ssl (engine_ st')) = [9].
Proof.
  pose proof (tls_recv_exact 5 100 (client true [] [Arrived [9; 0]]) (client_usable _ _ _) ltac:(lia) ltac:(cbv; lia)) as H.
  unfold runs in H. eassert (Hrun : recv 5 100 (client true [] [Arrived [9; 0]]) = Ret (Ok [9], _)) by (vm_compute; reflexivity).
  rewrite Hrun in H. eexists. split; [exact Hrun | exact (mv_opened _ _ _ _ (proj2 H))].
Defined.

(** The last flight of the handshake stays in the engine when the handshake
    returns; the next operation sends it. *)
Lemma last_flight_unsent :
  exists st', handshake 5 (client true [Sent 100; Sent 100] [Arrived [1]]) = Ret (Ok tt, st') /\ wire (sock_ st') = [22] /\ out st' = [20] /\ sends (sock_ st') = [Sent 100].
Proof. eexists. split; [vm_compute; reflexivity|]. by vm_compute. Qed.

(** A handshake that failed on the certificate succeeds when it is called
    again: the engine remembers that OpenSSL finished, not what the check
    said. *)
Lemma failed_check_forgotten :
  exists st', handshake 5 (client false [Sent 100; Sent 100] [Arrived [1]]) = Ret (Unexpected (tls_error VerifyFailed), st') /\
    exists st'', handshake 5 st' = Ret (Ok tt, st'') /\ ~ checked (engine_ st'').
Proof.
  eexists. split; [vm_compute; reflexivity|]. eexists. split; [vm_compute; reflexivity|].
  intros [Hc|[Hc|Hc]]; vm_compute in Hc; discriminate.
Qed.
