(* ===== verification/TlsContext.v ===== *)
(** * TLS contexts

    [tls_context_t] of src/include/cornet/tls/context.h and src/tls/context.cc
    in a build with TLS: the set-up of an [SSL_CTX] from the options of a server
    or a client, and the ALPN callback.  OpenSSL is a parameter: [CtxOps] are
    the calls the set-up makes, [CtxLaws] what their manual pages promise.  The
    state of a set-up is the context, the thread's error queue and the objects
    it owns, so that every path can be checked for leaks and double frees. *)

From stdpp Require Import prelude list list_numbers gmap.
From Stdlib Require Import ZArith Lia.
From S2P Require Import Prelude TlsEngine TlsStream.
Open Scope Z_scope.

(** ** ALPN *)

(** [static_cast<char>]: as the byte it writes. *)
Definition alpn_wire (alpn : bytes) : bytes := u8 (size alpn) :: alpn.

(** [i + 1], [i + 1 + len] are [unsigned int]. *)
Inductive alpn_result := ALPN_OK (off len : Z) | ALERT_FATAL.

Fixpoint alpn_select_from (fuel : nat) (lst inp : bytes) (i : Z) : option alpn_result :=
  match fuel with
  | O => None
  | S fuel =>
      let inlen := size inp in
      if u32 (i + 1) <=? inlen then
        let len := nth (Z.to_nat i) inp 0 in
        if inlen <? u32 (i + 1 + len) then Some ALERT_FATAL
        else if bool_decide (view_at inp (i + 1) len = lst) then Some (ALPN_OK (i + 1) (u8 len))
        else alpn_select_from fuel lst inp (u32 (i + (1 + len)))
      else Some ALERT_FATAL
  end.

Definition alpn_select_cb (lst inp : bytes) : option alpn_result := alpn_select_from (S (length inp)) lst inp 0.

(** The protocols of an offer, up to the first entry that does not fit: the
    reference for the callback. *)
Fixpoint offers (fuel : nat) (inp : bytes) : list bytes :=
  match fuel, inp with
  | S fuel, len :: rest => if Z.of_nat (length rest) <? len then [] else take (Z.to_nat len) rest :: offers fuel (drop (Z.to_nat len) rest)
  | _, _ => []
  end.
Definition offered (inp : bytes) : list bytes := offers (length inp) inp.

Lemma offers_fuel n m inp : (length inp <= n)%nat -> (length inp <= m)%nat -> offers n inp = offers m inp.
Proof.
  revert m inp. induction n as [|n IH]; intros [|m] [|len rest]; simpl; try done; try lia. intros Hn Hm.
  case_match; [done|]. f_equal. apply IH; rewrite length_drop; lia.
Qed.

Lemma offered_cons len rest : offered (len :: rest) = if size rest <? len then [] else take (Z.to_nat len) rest :: offered (drop (Z.to_nat len) rest).
Proof. unfold offered, size. simpl. case_match; [done|]. f_equal. apply offers_fuel; rewrite length_drop; lia. Qed.

Lemma is_byte_nth inp k : Forall is_byte inp -> is_byte (nth k inp 0).
Proof.
  intros Hb. rewrite nth_lookup. destruct (inp !! k) as [b|] eqn:Hk; simpl; [by eapply Forall_lookup_1 in Hb|]. unfold is_byte. lia.
Qed.

Lemma drop_nth inp k : (k < length inp)%nat -> drop k inp = nth k inp 0 :: drop (S k) inp.
Proof. intros Hk. rewrite nth_lookup. destruct (lookup_lt_is_Some_2 _ _ Hk) as [x Hx]. rewrite Hx. by apply drop_S. Qed.

Lemma alpn_select_spec fuel lst inp i :
  Forall is_byte inp -> size inp < 2 ^ 31 -> 0 <= i <= size inp -> (length (drop (Z.to_nat i) inp) < fuel)%nat ->
  (exists off len, alpn_select_from fuel lst inp i = Some (ALPN_OK off len) /\ view_at inp off len = lst /\ 0 <= off /\ off + len <= size inp /\ lst ∈ offered (drop (Z.to_nat i) inp)) \/
  (alpn_select_from fuel lst inp i = Some ALERT_FATAL /\ lst ∉ offered (drop (Z.to_nat i) inp)).
Proof.
  intros Hb Hs. revert i. induction fuel as [|fuel IH]; intros i Hi Hf; [lia|]. simpl. unfold size in *.
  rewrite length_drop in Hf. rewrite (u32_small (i + 1)) by lia.
  destruct (Z.leb_spec (i + 1) (Z.of_nat (length inp))) as [Hl|Hl].
  2: { right. rewrite drop_ge by lia. split; [done|]. apply not_elem_of_nil. }
  pose proof (is_byte_nth inp (Z.to_nat i) Hb) as Hn. unfold is_byte in Hn. rewrite (drop_nth inp (Z.to_nat i)) by lia.
  rewrite offered_cons. unfold size. rewrite length_drop. set (len := nth (Z.to_nat i) inp 0) in *.
  rewrite (u32_small (i + 1 + len)), (u32_small (i + (1 + len))) by lia.
  destruct (Z.ltb_spec (Z.of_nat (length inp)) (i + 1 + len)), (Z.ltb_spec (Z.of_nat (length inp - S (Z.to_nat i))) len); try lia.
  { right. split; [done|]. apply not_elem_of_nil. }
  assert (Hv : view_at inp (i + 1) len = take (Z.to_nat len) (drop (S (Z.to_nat i)) inp)).
  { unfold view_at, substr. by replace (Z.to_nat (i + 1)) with (S (Z.to_nat i)) by lia. }
  case_bool_decide as He.
  - left. exists (i + 1), (u8 len). rewrite u8_small by done. split_and!; try done; try lia. rewrite <- He, Hv. left.
  - assert (Hd : drop (Z.to_nat len) (drop (S (Z.to_nat i)) inp) = drop (Z.to_nat (i + (1 + len))) inp) by (rewrite drop_drop; f_equal; lia).
    rewrite Hd. destruct (IH (i + (1 + len))) as [(off & l & Ha & Hw & H1 & H2 & H3)|[Ha Hni]]; [lia|rewrite length_drop; lia| |].
    + left. exists off, l. split_and!; try done. by right.
    + right. split; [done|]. rewrite not_elem_of_cons. split; [|done]. by rewrite <- Hv.
Qed.

(** The callback ends on every offer, selects bytes inside it that spell the
    server's protocol when that was offered, and refuses otherwise. *)
Lemma alpn_select_ok lst inp :
  Forall is_byte inp -> size inp < 2 ^ 31 ->
  (exists off len, alpn_select_cb lst inp = Some (ALPN_OK off len) /\ view_at inp off len = lst /\ 0 <= off /\ off + len <= size inp /\ lst ∈ offered inp) \/
  (alpn_select_cb lst inp = Some ALERT_FATAL /\ lst ∉ offered inp).
Proof. intros Hb Hs. apply (alpn_select_spec (S (length inp)) lst inp 0); try done; try (unfold size; lia). rewrite drop_0. lia. Qed.

(** What a client's context offers is the one protocol of its options. *)
Lemma alpn_wire_offers a : size a < 256 -> offered (alpn_wire a) = [a].
Proof.
  intros Ha. unfold alpn_wire. rewrite u8_small by (unfold is_byte, size in *; lia). rewrite offered_cons, Z.ltb_irrefl. unfold size. rewrite Nat2Z.id.
  by rewrite firstn_all, drop_all.
Qed.

Lemma alpn_agree a :
  Forall is_byte a -> size a < 256 -> exists off len, alpn_select_cb a (alpn_wire a) = Some (ALPN_OK off len) /\ view_at (alpn_wire a) off len = a.
Proof.
  intros Hb Hs. destruct (alpn_select_ok a (alpn_wire a)) as [(off & len & ? & ? & _)|[_ Hn]].
  - constructor; [|done]. rewrite u8_small; unfold is_byte, size in *; lia.
  - unfold alpn_wire, size in *. simpl. lia.
  - eauto.
  - rewrite alpn_wire_offers in Hn by done. set_solver.
Qed.

(** ** OpenSSL, as the set-up calls it *)

Inductive tls_method := TLS_server_method | TLS_client_method.

(** A call on a context: its C result, the context after it and the errors it
    pushed on the thread's queue (error codes are not 0). *)
Definition ctx_call `{Ssl} : Type := SSL_CTX -> Z * SSL_CTX * list positive.

(** A memory BIO is the bytes left in it; [X509_STORE_add_cert] acts on the
    store of the context. *)
Class CtxOps `{Ssl} := {
  X509 : Type; EVP_PKEY : Type;
  SSL_CTX_new : tls_method -> option SSL_CTX * list positive;
  SSL_CTX_set_min_proto_version : Z -> ctx_call;
  SSL_CTX_set_mode : Z -> ctx_call;
  SSL_CTX_use_certificate_chain_file : bytes -> ctx_call;
  SSL_CTX_use_certificate : X509 -> ctx_call;
  SSL_CTX_use_PrivateKey_file : bytes -> ctx_call;
  SSL_CTX_use_PrivateKey : EVP_PKEY -> ctx_call;
  SSL_CTX_check_private_key : ctx_call;
  SSL_CTX_set_verify : Z -> ctx_call;
  SSL_CTX_load_verify_locations : option bytes -> option bytes -> ctx_call;
  SSL_CTX_set_default_verify_paths : ctx_call;
  SSL_CTX_set_alpn_select_cb : bytes -> ctx_call;
  SSL_CTX_set_num_tickets : Z -> ctx_call;
  SSL_CTX_set_alpn_protos : bytes -> ctx_call;
  X509_STORE_add_cert : X509 -> ctx_call;
  BIO_new_mem_buf : bytes -> Z -> option bytes * list positive;
  PEM_read_bio_X509 : bytes -> option (X509 * bytes) * list positive;
  PEM_read_bio_PrivateKey : bytes -> option (EVP_PKEY * bytes) * list positive
}.

Definition TLS1_2_VERSION : Z := 0x303.
Definition SSL_MODE_ACCEPT_MOVING_WRITE_BUFFER : Z := 2.
Definition SSL_MODE_AUTO_RETRY : Z := 4.
Definition SSL_VERIFY_NONE : Z := 0.
Definition SSL_VERIFY_PEER : Z := 1.
Definition SSL_VERIFY_FAIL_IF_NO_PEER_CERT : Z := 2.

(** ** Options *)

Record tls_server_options_t := mk_server_options {
  cert_file : bytes; key_file : bytes; cert_pem : bytes; key_pem : bytes;
  sopt_alpn : bytes; require_client_cert : bool; num_tickets : Z; sopt_ca_file : bytes; sopt_ca_dir : bytes }.

Record tls_client_options_t := mk_client_options {
  verify_peer : bool; copt_ca_file : bytes; copt_ca_dir : bytes; ca_pem : bytes; copt_alpn : bytes }.

(** ** The state of a set-up *)

(** [queue]: the thread's error queue, oldest first; [live]: the objects this
    code holds a reference to; [misuse]: one was freed that it does not hold. *)
Record world := mk_world { queue : list positive; live : gset nat; next : nat; misuse : bool }.

Definition push (es : list positive) (w : world) : world := mk_world (queue w ++ es) (live w) (next w) (misuse w).
Definition alloc (w : world) : nat * world := (next w, mk_world (queue w) ({[next w]} ∪ live w) (S (next w)) (misuse w)).
Definition release (i : nat) (w : world) : world :=
  mk_world (queue w) (live w ∖ {[i]}) (next w) (misuse w || negb (bool_decide (i ∈ live w))).

(** [while ((e = ERR_get_error()) != 0)] takes the oldest error until none is left. *)
Fixpoint drain_queue (q : list positive) : list positive := match q with [] => [] | _ :: q => drain_queue q end.
Definition drain_ssl_queue (w : world) : world := mk_world (drain_queue (queue w)) (live w) (next w) (misuse w).

Section Setup.
Context `{CtxOps}.

(** Code that works on one context. *)
Definition M (A : Type) : Type := SSL_CTX -> world -> A * SSL_CTX * world.
#[global] Instance M_ret : MRet M := fun A a c w => (a, c, w).
#[global] Instance M_bind : MBind M := fun A B k m c w => let '(a, c, w) := m c w in k a c w.

Definition call (f : ctx_call) : M Z := fun c w => let '(r, c, es) := f c in (r, c, push es w).
Definition on_world (f : world -> world) : M unit := fun c w => (tt, c, f w).

(** A constructor: the object with the reference it gives, or [None]. *)
Definition new_obj {A} (x : option A * list positive) : M (option (nat * A)) := fun c w =>
  let w := push x.2 w in
  match x.1 with Some a => let '(i, w) := alloc w in (Some (i, a), c, w) | None => (None, c, w) end.
Definition free_obj (i : nat) : M unit := on_world (release i).

Definition init_error {A} : expected A := Unexpected (tls_error Init).

(** ** Loading *)

Definition load_cert_chain (opt : tls_server_options_t) : M (expected unit) :=
  if negb (bool_decide (cert_file opt = [])) then
    r ← call (SSL_CTX_use_certificate_chain_file (c_str (cert_file opt)));
    mret (if negb (r =? 1) then init_error else Ok tt)
  else if negb (bool_decide (cert_pem opt = [])) then
    bio ← new_obj (BIO_new_mem_buf (cert_pem opt) (to_int (size (cert_pem opt))));
    match bio with
    | None => mret init_error
    | Some (b, buf) =>
        cert ← new_obj (PEM_read_bio_X509 buf);
        _ ← free_obj b;
        match cert with
        | None => mret init_error
        | Some (x, (cert, _)) =>
            ok ← call (SSL_CTX_use_certificate cert);
            _ ← free_obj x;
            mret (if negb (ok =? 1) then init_error else Ok tt)
        end
    end
  else mret init_error.

Definition load_private_key (opt : tls_server_options_t) : M (expected unit) :=
  if negb (bool_decide (key_file opt = [])) then
    r ← call (SSL_CTX_use_PrivateKey_file (c_str (key_file opt)));
    mret (if negb (r =? 1) then init_error else Ok tt)
  else if negb (bool_decide (key_pem opt = [])) then
    bio ← new_obj (BIO_new_mem_buf (key_pem opt) (to_int (size (key_pem opt))));
    match bio with
    | None => mret init_error
    | Some (b, buf) =>
        key ← new_obj (PEM_read_bio_PrivateKey buf);
        _ ← free_obj b;
        match key with
        | None => mret init_error
        | Some (k, (key, _)) =>
            ok ← call (SSL_CTX_use_PrivateKey key);
            _ ← free_obj k;
            mret (if negb (ok =? 1) then init_error else Ok tt)
        end
    end
  else mret init_error.

Definition load_key (opt : tls_server_options_t) : M (expected unit) :=
  r ← load_private_key opt;
  match r with
  | Unexpected e => mret (Unexpected e)
  | Ok _ => r ← call SSL_CTX_check_private_key; mret (if negb (r =? 1) then init_error else Ok tt)
  end.

(** The loop over the bundle: the number of certificates loaded, or [None] when
    the store refused one; the outer [None] is the fuel. *)
Fixpoint load_ca_loop (fuel : nat) (loaded : Z) (bio : bytes) : M (option (option Z)) :=
  match fuel with
  | O => mret None
  | S fuel =>
      cert ← new_obj (PEM_read_bio_X509 bio);
      match cert with
      | None => mret (Some (Some loaded))
      | Some (x, (cert, bio)) =>
          r ← call (X509_STORE_add_cert cert);
          _ ← free_obj x;
          if negb (r =? 1) then mret (Some None) else load_ca_loop fuel (u32 (loaded + 1)) bio
      end
  end.

Definition load_ca_into_store (pem : bytes) : M (option (expected unit)) :=
  bio ← new_obj (BIO_new_mem_buf pem (to_int (size pem)));
  match bio with
  | None => mret (Some init_error)
  | Some (b, buf) =>
      r ← load_ca_loop (S (length pem)) 0 buf;
      _ ← free_obj b;
      mret (match r with None => None | Some None => Some init_error | Some (Some n) => Some (if n =? 0 then init_error else Ok tt) end)
  end.

(** ** [make_server] and [make_client] *)

Definition fail : M (expected unit) := _ ← on_world drain_ssl_queue; mret init_error.
Definition c_path (p : bytes) : option bytes := if bool_decide (p = []) then None else Some (c_str p).

Definition require_clients (opt : tls_server_options_t) : M (expected unit) :=
  if require_client_cert opt then
    _ ← call (SSL_CTX_set_verify (SSL_VERIFY_PEER ||| SSL_VERIFY_FAIL_IF_NO_PEER_CERT));
    if negb (bool_decide (sopt_ca_file opt = [])) || negb (bool_decide (sopt_ca_dir opt = [])) then
      r ← call (SSL_CTX_load_verify_locations (c_path (sopt_ca_file opt)) (c_path (sopt_ca_dir opt)));
      if negb (r =? 1) then fail else mret (Ok tt)
    else _ ← call SSL_CTX_set_default_verify_paths; mret (Ok tt)
  else mret (Ok tt).

Definition server_setup (opt : tls_server_options_t) : M (expected unit) :=
  _ ← call (SSL_CTX_set_min_proto_version TLS1_2_VERSION);
  _ ← call (SSL_CTX_set_mode (SSL_MODE_AUTO_RETRY ||| SSL_MODE_ACCEPT_MOVING_WRITE_BUFFER));
  r ← load_cert_chain opt;
  match r with Unexpected _ => fail | Ok _ =>
  r ← load_key opt;
  match r with Unexpected _ => fail | Ok _ =>
  r ← require_clients opt;
  match r with Unexpected e => mret (Unexpected e) | Ok _ =>
  _ ← (if negb (bool_decide (sopt_alpn opt = [])) then call (SSL_CTX_set_alpn_select_cb (sopt_alpn opt)) else mret 0);
  _ ← (if 0 <=? num_tickets opt then call (SSL_CTX_set_num_tickets (num_tickets opt)) else mret 0);
  mret (Ok tt) end end end.

Definition trust_anchors (opt : tls_client_options_t) : M (option (expected unit)) :=
  if verify_peer opt then
    _ ← call (SSL_CTX_set_verify SSL_VERIFY_PEER);
    if negb (bool_decide (ca_pem opt = [])) then
      r ← load_ca_into_store (ca_pem opt);
      match r with None => mret None | Some (Unexpected _) => r ← fail; mret (Some r) | Some (Ok _) => mret (Some (Ok tt)) end
    else if negb (bool_decide (copt_ca_file opt = [])) || negb (bool_decide (copt_ca_dir opt = [])) then
      r ← call (SSL_CTX_load_verify_locations (c_path (copt_ca_file opt)) (c_path (copt_ca_dir opt)));
      if negb (r =? 1) then r ← fail; mret (Some r) else mret (Some (Ok tt))
    else
      r ← call SSL_CTX_set_default_verify_paths;
      if negb (r =? 1) then r ← fail; mret (Some r) else mret (Some (Ok tt))
  else _ ← call (SSL_CTX_set_verify SSL_VERIFY_NONE); mret (Some (Ok tt)).

Definition client_setup (opt : tls_client_options_t) : M (option (expected unit)) :=
  _ ← call (SSL_CTX_set_min_proto_version TLS1_2_VERSION);
  _ ← call (SSL_CTX_set_mode (SSL_MODE_AUTO_RETRY ||| SSL_MODE_ACCEPT_MOVING_WRITE_BUFFER));
  r ← trust_anchors opt;
  match r with
  | Some (Ok _) =>
      if negb (bool_decide (copt_alpn opt = [])) then
        r ← call (SSL_CTX_set_alpn_protos (alpn_wire (copt_alpn opt)));
        if negb (r =? 0) then r ← fail; mret (Some r) else mret (Some (Ok tt))
      else mret (Some (Ok tt))
  | r => mret r
  end.

(** [tls_context_t] with its [impl]: the context and the reference it holds. *)
Record tls_context_t := mk_context { ctx : SSL_CTX; ctx_ref : nat; is_server : bool; ctx_alpn : bytes }.

(** [~impl] *)
Definition destroy_context (i : nat) (w : world) : world := release i w.

(** A context under construction belongs to [holder]: an early return destroys it. *)
Definition make_context (m : tls_method) (server : bool) (alpn : bytes) (setup : M (option (expected unit))) (w : world) : option (expected tls_context_t) * world :=
  let '(c, es) := SSL_CTX_new m in
  let w := push es w in
  match c with
  | None => (Some init_error, drain_ssl_queue w)
  | Some c =>
      let '(i, w) := alloc w in
      let '(r, c, w) := setup c w in
      match r with
      | Some (Ok _) => (Some (Ok (mk_context c i server alpn)), w)
      | Some (Unexpected e) => (Some (Unexpected e), destroy_context i w)
      | None => (None, w)
      end
  end.

Definition make_server (opt : tls_server_options_t) : world -> option (expected tls_context_t) * world :=
  make_context TLS_server_method true (sopt_alpn opt) (r ← server_setup opt; mret (Some r)).

Definition make_client (opt : tls_client_options_t) : world -> option (expected tls_context_t) * world :=
  make_context TLS_client_method false [] (client_setup opt).

(** [valid()], of a context that [make_server] or [make_client] may have filled. *)
Definition valid (holder : option tls_context_t) : bool := match holder with Some _ => true | None => false end.

(** What [tls_engine_t::create] takes of a context. *)
Definition native_ctx (holder : option tls_context_t) : option SSL_CTX := ctx <$> holder.

End Setup.

(** ** What the calls promise *)

(** Where an identity or an anchor of trust comes from. *)
Inductive material (A : Type) := FromFile (path : bytes) | FromMemory (x : A).
Arguments FromFile {A} _.
Arguments FromMemory {A} _.
Inductive anchor `{CtxOps} := AnchorCert (x : X509) | AnchorLocations (file dir : option bytes) | AnchorDefault.

(** What can be asked of a context. *)
Record ctx_view `{CtxOps} := mk_view {
  vw_min : Z; vw_mode : Z; vw_verify : Z; vw_trust : list anchor;
  vw_cert : option (material X509); vw_key : option (material EVP_PKEY);
  vw_alpn_cb : option bytes; vw_protos : bytes; vw_tickets : option Z }.

Section Views.
Context `{CtxOps}.
Implicit Types v : ctx_view.
Definition set_min (m : Z) v := mk_view _ _ m (vw_mode v) (vw_verify v) (vw_trust v) (vw_cert v) (vw_key v) (vw_alpn_cb v) (vw_protos v) (vw_tickets v).
Definition add_mode (m : Z) v := mk_view _ _ (vw_min v) (vw_mode v ||| m) (vw_verify v) (vw_trust v) (vw_cert v) (vw_key v) (vw_alpn_cb v) (vw_protos v) (vw_tickets v).
Definition set_verify (m : Z) v := mk_view _ _ (vw_min v) (vw_mode v) m (vw_trust v) (vw_cert v) (vw_key v) (vw_alpn_cb v) (vw_protos v) (vw_tickets v).
Definition set_trust (t : list anchor) v := mk_view _ _ (vw_min v) (vw_mode v) (vw_verify v) t (vw_cert v) (vw_key v) (vw_alpn_cb v) (vw_protos v) (vw_tickets v).
Definition add_trust (t : list anchor) v := set_trust (vw_trust v ++ t) v.
Definition set_cert (x : material X509) v := mk_view _ _ (vw_min v) (vw_mode v) (vw_verify v) (vw_trust v) (Some x) (vw_key v) (vw_alpn_cb v) (vw_protos v) (vw_tickets v).
Definition set_key (x : material EVP_PKEY) v := mk_view _ _ (vw_min v) (vw_mode v) (vw_verify v) (vw_trust v) (vw_cert v) (Some x) (vw_alpn_cb v) (vw_protos v) (vw_tickets v).
Definition set_alpn_cb (a : bytes) v := mk_view _ _ (vw_min v) (vw_mode v) (vw_verify v) (vw_trust v) (vw_cert v) (vw_key v) (Some a) (vw_protos v) (vw_tickets v).
Definition set_protos (a : bytes) v := mk_view _ _ (vw_min v) (vw_mode v) (vw_verify v) (vw_trust v) (vw_cert v) (vw_key v) (vw_alpn_cb v) a (vw_tickets v).
Definition set_tickets (n : Z) v := mk_view _ _ (vw_min v) (vw_mode v) (vw_verify v) (vw_trust v) (vw_cert v) (vw_key v) (vw_alpn_cb v) (vw_protos v) (Some n).

(** A call whose success, [r = ok], changes the view by [f]. *)
Definition sets (view : SSL_CTX -> ctx_view) (ok : Z) (f : ctx_view -> ctx_view) (op : ctx_call) : Prop :=
  forall c, let '(r, c', _) := op c in r = ok -> view c' = f (view c).
(** A call whose result says nothing, or is documented not to fail. *)
Definition always (view : SSL_CTX -> ctx_view) (f : ctx_view -> ctx_view) (op : ctx_call) : Prop :=
  forall c, let '(_, c', _) := op c in view c' = f (view c).
End Views.

(** From the manual pages: a new context verifies nobody and trusts nobody; the
    setters set what they are named after and nothing else, with success
    reported as 1, by [SSL_CTX_set_alpn_protos] as 0; a key that passes the
    check belongs to the certificate; a certificate read from a BIO takes bytes
    from it. *)
Class CtxLaws `{CtxOps} := {
  view : SSL_CTX -> ctx_view;
  key_of : material X509 -> material EVP_PKEY -> Prop;
  new_ctx_law m : match (SSL_CTX_new m).1 with
    | Some c => vw_verify (view c) = SSL_VERIFY_NONE /\ vw_trust (view c) = [] /\ vw_alpn_cb (view c) = None /\ vw_protos (view c) = []
    | None => True end;
  min_law : always view (set_min TLS1_2_VERSION) (SSL_CTX_set_min_proto_version TLS1_2_VERSION);
  mode_law m : always view (add_mode m) (SSL_CTX_set_mode m);
  verify_law m : always view (set_verify m) (SSL_CTX_set_verify m);
  alpn_cb_law a : always view (set_alpn_cb a) (SSL_CTX_set_alpn_select_cb a);
  tickets_law n : always view (set_tickets n) (SSL_CTX_set_num_tickets n);
  chain_file_law p : sets view 1 (set_cert (FromFile p)) (SSL_CTX_use_certificate_chain_file p);
  cert_law x : sets view 1 (set_cert (FromMemory x)) (SSL_CTX_use_certificate x);
  key_file_law p : sets view 1 (set_key (FromFile p)) (SSL_CTX_use_PrivateKey_file p);
  key_law k : sets view 1 (set_key (FromMemory k)) (SSL_CTX_use_PrivateKey k);
  check_law c : let '(r, c', _) := SSL_CTX_check_private_key c in
    view c' = view c /\ (r = 1 -> exists x k, vw_cert (view c) = Some x /\ vw_key (view c) = Some k /\ key_of x k);
  locations_law f d : sets view 1 (add_trust [AnchorLocations f d]) (SSL_CTX_load_verify_locations f d);
  default_law : sets view 1 (add_trust [AnchorDefault]) SSL_CTX_set_default_verify_paths;
  default_frame c : let '(_, c', _) := SSL_CTX_set_default_verify_paths c in exists t, view c' = set_trust t (view c);
  store_law x : sets view 1 (add_trust [AnchorCert x]) (X509_STORE_add_cert x);
  protos_law a : sets view 0 (set_protos a) (SSL_CTX_set_alpn_protos a);
  mem_buf_law d n : match (BIO_new_mem_buf d n).1 with Some b => (length b <= length d)%nat | None => True end;
  pem_law b : match (PEM_read_bio_X509 b).1 with Some (_, b') => (length b' < length b)%nat | None => True end
}.

(** ** Ownership *)

(** Since [w0] the code has come to hold the objects of [X] and no other, and
    has freed nothing it did not hold. *)
Definition owns (X : gset nat) (w0 w : world) : Prop :=
  live w = X ∪ live w0 /\ X ## live w0 /\ (forall i, i ∈ live w -> (i < next w)%nat) /\ misuse w = misuse w0.

Definition fresh_world (w : world) : Prop := forall i, i ∈ live w -> (i < next w)%nat.

Lemma owns_start w : fresh_world w -> owns ∅ w w.
Proof. intros Hw. unfold owns. split_and!; [set_solver|set_solver|done|done]. Qed.

Lemma owns_push X w0 w es : owns X w0 w -> owns X w0 (push es w).
Proof. done. Qed.

Lemma owns_drain X w0 w : owns X w0 w -> owns X w0 (drain_ssl_queue w).
Proof. done. Qed.

Lemma owns_alloc X w0 w : owns X w0 w -> next w ∉ X /\ owns ({[next w]} ∪ X) w0 (alloc w).2.
Proof.
  intros (Hl & Hd & Hn & Hm). assert (Hf : next w ∉ live w) by (intros ?%Hn; lia). rewrite Hl in Hf. split; [set_solver|].
  unfold owns. simpl. split_and!; [rewrite Hl; set_solver|set_solver| |done].
  intros i [->%elem_of_singleton|?%Hn]%elem_of_union; lia.
Qed.

Lemma owns_release X w0 w i : i ∈ X -> owns X w0 w -> owns (X ∖ {[i]}) w0 (release i w).
Proof.
  intros Hi (Hl & Hd & Hn & Hm). unfold owns. simpl. split_and!; [rewrite Hl; set_solver|set_solver| |].
  - intros j [Hj _]%elem_of_difference. by apply Hn.
  - rewrite bool_decide_true by (rewrite Hl; set_solver). simpl. by rewrite orb_false_r.
Qed.

Lemma owns_eq X Y w0 w : X = Y -> owns X w0 w -> owns Y w0 w.
Proof. by intros ->. Qed.

Lemma drain_queue_nil q : drain_queue q = [].
Proof. by induction q. Qed.

(** ** Reasoning about a set-up *)

Section Rules.
Context `{HL : CtxLaws}.
Implicit Types (c : SSL_CTX) (w : world).

Definition wp {A} (m : M A) (Q : A -> SSL_CTX -> world -> Prop) c w : Prop := let '(a, c', w') := m c w in Q a c' w'.

Lemma wp_ret {A} (a : A) Q c w : Q a c w -> wp (mret a) Q c w.
Proof. done. Qed.

Lemma wp_bind {A B} (m : M A) (k : A -> M B) Q c w : wp m (fun a => wp (k a) Q) c w -> wp (m ≫= k) Q c w.
Proof. unfold wp, mbind, M_bind. by destruct (m c w) as [[a c'] w']. Qed.

Lemma wp_mono {A} (m : M A) (P Q : A -> SSL_CTX -> world -> Prop) c w : wp m P c w -> (forall a c' w', P a c' w' -> Q a c' w') -> wp m Q c w.
Proof. unfold wp. destruct (m c w) as [[a c'] w']. auto. Qed.

Lemma wp_new {A} (x : option A * list positive) X w0 Q c w :
  owns X w0 w ->
  (forall a i w', x.1 = Some a -> i ∉ X -> owns ({[i]} ∪ X) w0 w' -> Q (Some (i, a)) c w') ->
  (forall w', x.1 = None -> owns X w0 w' -> Q None c w') -> wp (new_obj x) Q c w.
Proof.
  intros Ho Hs Hn. unfold wp, new_obj. destruct x as [[a|] es]; simpl in *.
  - destruct (owns_alloc X w0 (push es w) (owns_push _ _ _ es Ho)) as [Hi Hw]. by apply Hs.
  - apply Hn; [done|]. by apply owns_push.
Qed.

Lemma wp_free i X w0 Q c w : i ∈ X -> owns X w0 w -> (forall w', owns (X ∖ {[i]}) w0 w' -> Q tt c w') -> wp (free_obj i) Q c w.
Proof. intros Hi Ho HQ. unfold wp, free_obj, on_world. apply HQ. by apply owns_release. Qed.

Lemma wp_call_any op X w0 Q c w :
  owns X w0 w -> (forall r c' es w', op c = (r, c', es) -> owns X w0 w' -> Q r c' w') -> wp (call op) Q c w.
Proof. intros Ho HQ. unfold wp, call. destruct (op c) as [[r c'] es] eqn:Hop. eapply HQ; [done|]. by apply owns_push. Qed.

Lemma wp_sets ok f op X w0 (Q : Z -> SSL_CTX -> world -> Prop) c w :
  sets view ok f op -> owns X w0 w -> (forall r c' w', (r = ok -> view c' = f (view c)) -> owns X w0 w' -> Q r c' w') -> wp (call op) Q c w.
Proof. intros Hf Ho HQ. eapply wp_call_any; [done|]. intros r c' es w' Hop Hw. apply HQ; [|done]. specialize (Hf c). by rewrite Hop in Hf. Qed.

Lemma wp_always f op X w0 (Q : Z -> SSL_CTX -> world -> Prop) c w :
  always view f op -> owns X w0 w -> (forall r c' w', view c' = f (view c) -> owns X w0 w' -> Q r c' w') -> wp (call op) Q c w.
Proof. intros Hf Ho HQ. eapply wp_call_any; [done|]. intros r c' es w' Hop Hw. apply HQ; [|done]. specialize (Hf c). by rewrite Hop in Hf. Qed.

Lemma wp_fail X w0 (Q : expected unit -> SSL_CTX -> world -> Prop) c w :
  owns X w0 w -> (forall w', owns X w0 w' -> queue w' = [] -> Q init_error c w') -> wp fail Q c w.
Proof. intros Ho HQ. unfold wp, fail. simpl. apply HQ; [by apply owns_drain|]. simpl. apply drain_queue_nil. Qed.

(** ** What the loaders do *)

(** The certificate and the key the options name, [None] when they name none
    that can be read. *)
Definition cert_source (opt : tls_server_options_t) : option (material X509) :=
  if negb (bool_decide (cert_file opt = [])) then Some (FromFile (c_str (cert_file opt)))
  else if negb (bool_decide (cert_pem opt = [])) then
    b ← (BIO_new_mem_buf (cert_pem opt) (to_int (size (cert_pem opt)))).1; x ← (PEM_read_bio_X509 b).1; Some (FromMemory x.1)
  else None.

Definition key_source (opt : tls_server_options_t) : option (material EVP_PKEY) :=
  if negb (bool_decide (key_file opt = [])) then Some (FromFile (c_str (key_file opt)))
  else if negb (bool_decide (key_pem opt = [])) then
    b ← (BIO_new_mem_buf (key_pem opt) (to_int (size (key_pem opt)))).1; x ← (PEM_read_bio_PrivateKey b).1; Some (FromMemory x.1)
  else None.

(** The certificates a BIO yields before the first that cannot be read. *)
Fixpoint bundle (fuel : nat) (b : bytes) : list X509 :=
  match fuel with
  | O => []
  | S fuel => match (PEM_read_bio_X509 b).1 with Some (x, b') => x :: bundle fuel b' | None => [] end
  end.
Definition bundle_of (pem : bytes) : list X509 :=
  match (BIO_new_mem_buf pem (to_int (size pem))).1 with Some b => bundle (S (length pem)) b | None => [] end.

Lemma owns_back i X w0 w : i ∉ X -> owns (({[i]} ∪ X) ∖ {[i]}) w0 w -> owns X w0 w.
Proof. intros Hi. apply owns_eq. set_solver. Qed.

(** Material from a file, and from memory: read from a BIO, handed over and
    released. *)
Lemma file_ok op f X w0 c w :
  sets view 1 f op -> owns X w0 w ->
  wp (r ← call op; mret (if negb (r =? 1) then init_error else Ok tt)) (fun r c' w' => owns X w0 w' /\ forall u, r = Ok u -> view c' = f (view c)) c w.
Proof.
  intros Hf Ho. apply wp_bind. eapply wp_sets; [done..|]. intros r c' w' Hv Hw. apply wp_ret. split; [done|].
  intros u. destruct (Z.eqb_spec r 1) as [->|]; simpl; [|done]. auto.
Qed.

Lemma memory_ok {A} (mem : option bytes * list positive) (rd : bytes -> option (A * bytes) * list positive) (use : A -> ctx_call) f X w0 c w :
  (forall a, sets view 1 (f a) (use a)) -> owns X w0 w ->
  wp (bio ← new_obj mem;
      match bio with
      | None => mret init_error
      | Some (b, buf) =>
          obj ← new_obj (rd buf);
          _ ← free_obj b;
          match obj with
          | None => mret init_error
          | Some (i, (a, _)) => ok ← call (use a); _ ← free_obj i; mret (if negb (ok =? 1) then init_error else Ok tt)
          end
      end)
     (fun r c' w' => owns X w0 w' /\ forall u, r = Ok u -> exists b x, mem.1 = Some b /\ (rd b).1 = Some x /\ view c' = f x.1 (view c)) c w.
Proof.
  intros Hf Ho. apply wp_bind. eapply wp_new; [done| |]. 2: { intros w' _ Hw. apply wp_ret. by split. }
  intros buf b w1 Hbuf Hb Hw1. apply wp_bind. eapply wp_new; [done| |].
  2: { intros w' _ Hw. apply wp_bind. eapply wp_free; [|done|]; [set_solver|]. intros w2 Hw2. apply wp_ret. split; [|done]. by eapply owns_back. }
  intros [x rest] i w2 Hx Hi Hw2. apply wp_bind. eapply wp_free; [|done|]; [set_solver|]. intros w3 Hw3.
  apply wp_bind. eapply wp_sets; [apply Hf|done|]. intros r c' w4 Hv Hw4. apply wp_bind. eapply wp_free; [|done|]; [set_solver|]. intros w5 Hw5. apply wp_ret. split.
  { eapply owns_eq; [|done]. set_solver. }
  intros u. destruct (Z.eqb_spec r 1) as [->|]; simpl; [|done]. intros _. exists buf, (x, rest). auto.
Qed.

Lemma cert_chain_ok opt X w0 c w :
  owns X w0 w ->
  wp (load_cert_chain opt) (fun r c' w' => owns X w0 w' /\ forall u, r = Ok u -> exists x, cert_source opt = Some x /\ view c' = set_cert x (view c)) c w.
Proof.
  intros Ho. unfold load_cert_chain, cert_source. case_bool_decide as Hf; simpl.
  2: { eapply wp_mono; [apply file_ok; [apply chain_file_law|done]|]. intros r c' w' [Hw Hv]. eauto. }
  case_bool_decide as Hp; simpl; [apply wp_ret; by split|].
  eapply wp_mono; [apply memory_ok; [apply cert_law|done]|]. intros r c' w' [Hw Hv]. split; [done|].
  intros u (b & x & -> & Hx & ->)%Hv. simpl. rewrite Hx. simpl. eauto.
Qed.

Lemma private_key_ok opt X w0 c w :
  owns X w0 w ->
  wp (load_private_key opt) (fun r c' w' => owns X w0 w' /\ forall u, r = Ok u -> exists k, key_source opt = Some k /\ view c' = set_key k (view c)) c w.
Proof.
  intros Ho. unfold load_private_key, key_source. case_bool_decide as Hf; simpl.
  2: { eapply wp_mono; [apply file_ok; [apply key_file_law|done]|]. intros r c' w' [Hw Hv]. eauto. }
  case_bool_decide as Hp; simpl; [apply wp_ret; by split|].
  eapply wp_mono; [apply memory_ok; [apply key_law|done]|]. intros r c' w' [Hw Hv]. split; [done|].
  intros u (b & x & -> & Hx & ->)%Hv. simpl. rewrite Hx. simpl. eauto.
Qed.

Lemma key_ok opt X w0 c w :
  owns X w0 w ->
  wp (load_key opt) (fun r c' w' => owns X w0 w' /\ forall u, r = Ok u ->
    exists k x, key_source opt = Some k /\ view c' = set_key k (view c) /\ vw_cert (view c) = Some x /\ key_of x k) c w.
Proof.
  intros Ho. unfold load_key. apply wp_bind. eapply wp_mono; [by apply private_key_ok|]. intros [u|e] c1 w1 [Hw1 Hv1]; [|by apply wp_ret].
  destruct (Hv1 u eq_refl) as (k & Hk & Hv). apply wp_bind. eapply wp_call_any; [done|]. intros r c2 es w2 Hop Hw2. apply wp_ret. split; [done|].
  pose proof (check_law c1) as Hc. rewrite Hop in Hc. destruct Hc as [Hc Hm]. intros u'. destruct (Z.eqb_spec r 1) as [->|]; simpl; [|done]. intros _.
  destruct (Hm eq_refl) as (x & k' & Hx & Hk' & Hkx). rewrite Hv in Hx, Hk'. simpl in Hx, Hk'. simplify_eq. exists k', x. by rewrite Hc.
Qed.

(** The loop takes every certificate the BIO yields, counts them, and holds
    nothing at its end. *)
Lemma ca_loop_ok fuel loaded b X w0 c w :
  owns X w0 w -> (length b < fuel)%nat -> 0 <= loaded -> loaded + Z.of_nat fuel < 2 ^ 32 ->
  wp (load_ca_loop fuel loaded b) (fun r c' w' => owns X w0 w' /\ exists o, r = Some o /\
    forall n, o = Some n -> n = loaded + Z.of_nat (length (bundle fuel b)) /\ view c' = add_trust (AnchorCert <$> bundle fuel b) (view c)) c w.
Proof.
  revert loaded b c w. induction fuel as [|fuel IH]; intros loaded b c w Ho Hb Hl Hn; [lia|]. simpl.
  apply wp_bind. eapply wp_new; [done| |].
  2: { intros w' -> Hw. apply wp_ret. split; [done|]. eexists. split; [done|]. intros n [= <-]. simpl. split; [lia|]. unfold add_trust. rewrite app_nil_r. by destruct (view c). }
  intros [x b'] i w1 Hx Hi Hw1. pose proof (pem_law b) as Hp. rewrite Hx in *. apply wp_bind. eapply wp_sets; [apply store_law|done|].
  intros r c1 w2 Hv Hw2. apply wp_bind. eapply wp_free; [|done|]; [set_solver|]. intros w3 Hw3%owns_back; [|done].
  destruct (Z.eqb_spec r 1) as [->|]; simpl. 2: { apply wp_ret. split; [done|]. by eexists. }
  rewrite (u32_small (loaded + 1)) by lia. eapply wp_mono; [apply IH; [done|lia..]|]. intros o c' w' (Hw' & o' & -> & Ho'). split; [done|].
  eexists. split; [done|]. intros n ->. destruct (Ho' n eq_refl) as [-> Hvw]. simpl. split; [lia|]. rewrite Hvw, Hv by done. unfold add_trust, set_trust. simpl. by rewrite <- app_assoc.
Qed.

Lemma ca_store_ok pem X w0 c w :
  owns X w0 w -> size pem < 2 ^ 31 ->
  wp (load_ca_into_store pem) (fun r c' w' => owns X w0 w' /\ exists o, r = Some o /\
    forall u, o = Ok u -> bundle_of pem <> [] /\ view c' = add_trust (AnchorCert <$> bundle_of pem) (view c)) c w.
Proof.
  intros Ho Hs. unfold load_ca_into_store, bundle_of. apply wp_bind. eapply wp_new; [done| |].
  2: { intros w' _ Hw. apply wp_ret. split; [done|]. by eexists. }
  intros b i w1 Hb Hi Hw1. pose proof (mem_buf_law pem (to_int (size pem))) as Hl. rewrite Hb in *. apply wp_bind.
  eapply wp_mono; [apply ca_loop_ok; [done|lia|lia|unfold size in Hs; lia]|]. intros r c' w2 (Hw2 & o & -> & Hr). apply wp_bind. eapply wp_free; [|done|]; [set_solver|].
  intros w3 Hw3%owns_back; [|done]. apply wp_ret. split; [done|]. destruct o as [n|]; [|by eexists]. destruct (Hr n eq_refl) as [-> Hv].
  eexists. split; [done|]. intros u. destruct (bundle (S (length pem)) b) as [|x l]; simpl; [done|]. intros _. by split.
Qed.

(** ** What a set-up does *)

(** A phase of a set-up holds nothing new at its end; it has made the view
    satisfy [P], or failed with [Init] and the error queue drained. *)
Definition phase (X : gset nat) (w0 : world) (P : ctx_view -> Prop) (r : expected unit) c w : Prop :=
  owns X w0 w /\ match r with Ok _ => P (view c) | Unexpected e => e = tls_error Init /\ queue w = [] end.

Lemma phase_fail X w0 P c w : owns X w0 w -> wp fail (phase X w0 P) c w.
Proof. intros Ho. eapply wp_fail; [done|]. intros w' Hw Hq. by split. Qed.

Lemma phase_fail_some X w0 P c w : owns X w0 w -> wp (r ← fail; mret (Some r)) (fun o c' w' => exists r, o = Some r /\ phase X w0 P r c' w') c w.
Proof. intros Ho. apply wp_bind. eapply wp_mono; [by apply phase_fail|]. intros r c' w' Hr. apply wp_ret. eauto. Qed.

(** The anchors of a server that asks its clients for certificates. *)
Definition clients_as_asked (opt : tls_server_options_t) (v v' : ctx_view) : Prop :=
  if require_client_cert opt then
    exists t, v' = set_trust t (set_verify (SSL_VERIFY_PEER ||| SSL_VERIFY_FAIL_IF_NO_PEER_CERT) v) /\
      (sopt_ca_file opt <> [] \/ sopt_ca_dir opt <> [] -> t = vw_trust v ++ [AnchorLocations (c_path (sopt_ca_file opt)) (c_path (sopt_ca_dir opt))])
  else v' = v.

Lemma require_clients_ok opt X w0 c w : owns X w0 w -> wp (require_clients opt) (phase X w0 (clients_as_asked opt (view c))) c w.
Proof.
  intros Ho. unfold require_clients, clients_as_asked. destruct (require_client_cert opt); [|by apply wp_ret].
  apply wp_bind. eapply wp_always; [apply verify_law|done|]. intros _ c1 w1 Hv1 Hw1.
  destruct (negb (bool_decide (sopt_ca_file opt = [])) || negb (bool_decide (sopt_ca_dir opt = []))) eqn:Hca.
  - apply wp_bind. eapply wp_sets; [apply locations_law|done|]. intros r c2 w2 Hv2 Hw2. destruct (Z.eqb_spec r 1) as [->|]; simpl; [|by apply phase_fail].
    apply wp_ret. split; [done|]. eexists. rewrite Hv2, Hv1 by done. split; [done|]. done.
  - apply wp_bind. eapply wp_call_any; [done|]. intros r c2 es w2 Hop Hw2. apply wp_ret. split; [done|].
    pose proof (default_frame c1) as Hd. rewrite Hop in Hd. destruct Hd as [t ->]. exists t. rewrite Hv1. split; [done|].
    apply orb_false_iff in Hca as [Hf Hd]. apply negb_false_iff, bool_decide_eq_true in Hf, Hd. intros []; done.
Qed.

Definition server_as_asked (opt : tls_server_options_t) (v : ctx_view) : Prop :=
  vw_min v = TLS1_2_VERSION /\
  vw_verify v = (if require_client_cert opt then SSL_VERIFY_PEER ||| SSL_VERIFY_FAIL_IF_NO_PEER_CERT else SSL_VERIFY_NONE) /\
  (require_client_cert opt = true -> sopt_ca_file opt <> [] \/ sopt_ca_dir opt <> [] ->
   vw_trust v = [AnchorLocations (c_path (sopt_ca_file opt)) (c_path (sopt_ca_dir opt))]) /\
  (exists x k, cert_source opt = Some x /\ vw_cert v = Some x /\ key_source opt = Some k /\ vw_key v = Some k /\ key_of x k) /\
  vw_alpn_cb v = (if bool_decide (sopt_alpn opt = []) then None else Some (sopt_alpn opt)) /\
  (0 <= num_tickets opt -> vw_tickets v = Some (num_tickets opt)).

(** The view of a context [SSL_CTX_new] returned. *)
Definition fresh_view (v : ctx_view) : Prop := vw_verify v = SSL_VERIFY_NONE /\ vw_trust v = [] /\ vw_alpn_cb v = None /\ vw_protos v = [].

(** An optional call. *)
Lemma wp_when (b : bool) f op X w0 (Q : Z -> SSL_CTX -> world -> Prop) c w :
  always view f op -> owns X w0 w -> (forall r c' w', view c' = (if b then f (view c) else view c) -> owns X w0 w' -> Q r c' w') ->
  wp (if b then call op else mret 0) Q c w.
Proof. intros Hf Ho HQ. destruct b; [by eapply wp_always|]. apply wp_ret. by apply HQ. Qed.

Lemma server_setup_ok opt X w0 c w : fresh_view (view c) -> owns X w0 w -> wp (server_setup opt) (phase X w0 (server_as_asked opt)) c w.
Proof.
  intros (Hfv & Hft & Hfa & _) Ho. unfold server_setup. apply wp_bind. eapply wp_always; [apply min_law|done|]. intros _ c1 w1 Hv1 Hw1.
  apply wp_bind. eapply wp_always; [apply mode_law|done|]. intros _ c2 w2 Hv2 Hw2. rewrite Hv1 in Hv2. clear Hv1.
  apply wp_bind. eapply wp_mono; [by apply cert_chain_ok|]. intros [u|e] c3 w3 [Hw3 Hv3]; [|by apply phase_fail].
  destruct (Hv3 u eq_refl) as (x & Hx & Hv3'). clear Hv3. rewrite Hv2 in Hv3'. clear Hv2.
  apply wp_bind. eapply wp_mono; [by apply key_ok|]. intros [u'|e] c4 w4 [Hw4 Hv4]; [|by apply phase_fail].
  destruct (Hv4 u' eq_refl) as (k & x' & Hk & Hv4' & Hx' & Hkx). clear Hv4. rewrite Hv3' in *. simpl in Hx'. simplify_eq.
  apply wp_bind. eapply wp_mono; [by apply require_clients_ok|]. intros [[]|e] c5 w5 [Hw5 Hv5]; [|by apply wp_ret].
  apply wp_bind. eapply wp_when; [apply alpn_cb_law|done|]. intros _ c6 w6 Hv6 Hw6.
  apply wp_bind. eapply wp_when; [apply tickets_law|done|]. intros _ c7 w7 Hv7 Hw7. apply wp_ret. split; [done|].
  unfold clients_as_asked in Hv5. rewrite Hv4' in Hv5. unfold server_as_asked. rewrite Hv7, Hv6. clear Hv6 Hv7.
  assert (Ht : forall v, 0 <= num_tickets opt -> vw_tickets (if 0 <=? num_tickets opt then set_tickets (num_tickets opt) v else v) = Some (num_tickets opt)) by (intros v Hn; by rewrite (proj2 (Z.leb_le _ _) Hn)).
  destruct (require_client_cert opt); [destruct Hv5 as (t & -> & Htr)|rewrite Hv5]; (split_and!; [..|apply Ht]); destruct (0 <=? num_tickets opt); case_bool_decide; simpl; try done; try (by eauto 10).
  all: intros _ Hca; rewrite (Htr Hca); simpl; by rewrite Hft.
Qed.

(** The anchors the options of a client name: the bundle in memory wins over
    files, files over the system's. *)
Definition anchors_asked (opt : tls_client_options_t) : list anchor :=
  if negb (bool_decide (ca_pem opt = [])) then AnchorCert <$> bundle_of (ca_pem opt)
  else if negb (bool_decide (copt_ca_file opt = [])) || negb (bool_decide (copt_ca_dir opt = []))
  then [AnchorLocations (c_path (copt_ca_file opt)) (c_path (copt_ca_dir opt))] else [AnchorDefault].

Definition trust_as_asked (opt : tls_client_options_t) (v v' : ctx_view) : Prop :=
  if verify_peer opt then v' = add_trust (anchors_asked opt) (set_verify SSL_VERIFY_PEER v) /\ anchors_asked opt <> [] else v' = set_verify SSL_VERIFY_NONE v.

Lemma trust_anchors_ok opt X w0 c w :
  owns X w0 w -> size (ca_pem opt) < 2 ^ 31 ->
  wp (trust_anchors opt) (fun o c' w' => exists r, o = Some r /\ phase X w0 (trust_as_asked opt (view c)) r c' w') c w.
Proof.
  intros Ho Hs. unfold trust_anchors, trust_as_asked, anchors_asked. destruct (verify_peer opt).
  2: { apply wp_bind. eapply wp_always; [apply verify_law|done|]. intros _ c1 w1 Hv1 Hw1. apply wp_ret. eexists. split; [done|]. by split. }
  apply wp_bind. eapply wp_always; [apply verify_law|done|]. intros _ c1 w1 Hv1 Hw1. destruct (negb (bool_decide (ca_pem opt = []))) eqn:Hp.
  { apply wp_bind. eapply wp_mono; [by apply ca_store_ok|]. intros o c2 w2 (Hw2 & [u|e] & -> & Hr); [|by apply phase_fail_some].
    destruct (Hr u eq_refl) as [Hne Hv2]. apply wp_ret. eexists. split; [done|]. split; [done|]. rewrite Hv2, Hv1. split; [done|]. by destruct (bundle_of (ca_pem opt)). }
  case_match.
  all: apply wp_bind; eapply wp_sets; [apply locations_law || apply default_law|done|]; intros r c2 w2 Hv2 Hw2;
    destruct (Z.eqb_spec r 1) as [->|]; simpl; [|by apply phase_fail_some]; apply wp_ret; eexists; (split; [done|]); (split; [done|]); by rewrite Hv2, Hv1.
Qed.

Definition client_as_asked (opt : tls_client_options_t) (v : ctx_view) : Prop :=
  vw_min v = TLS1_2_VERSION /\
  vw_verify v = (if verify_peer opt then SSL_VERIFY_PEER else SSL_VERIFY_NONE) /\
  vw_trust v = (if verify_peer opt then anchors_asked opt else []) /\ (verify_peer opt = true -> vw_trust v <> []) /\
  vw_protos v = (if bool_decide (copt_alpn opt = []) then [] else alpn_wire (copt_alpn opt)).

Lemma client_setup_ok opt X w0 c w :
  fresh_view (view c) -> owns X w0 w -> size (ca_pem opt) < 2 ^ 31 ->
  wp (client_setup opt) (fun o c' w' => exists r, o = Some r /\ phase X w0 (client_as_asked opt) r c' w') c w.
Proof.
  intros (Hfv & Hft & _ & Hfp) Ho Hs. unfold client_setup. apply wp_bind. eapply wp_always; [apply min_law|done|]. intros _ c1 w1 Hv1 Hw1.
  apply wp_bind. eapply wp_always; [apply mode_law|done|]. intros _ c2 w2 Hv2 Hw2. rewrite Hv1 in Hv2. clear Hv1.
  apply wp_bind. eapply wp_mono; [by apply trust_anchors_ok|]. intros o c3 w3 ([u|e] & -> & Hw3 & Hv3); [|apply wp_ret; by eexists].
  assert (Hd : forall p v, v = set_protos p (view c3) -> p = (if bool_decide (copt_alpn opt = []) then [] else alpn_wire (copt_alpn opt)) -> client_as_asked opt v).
  { intros p v -> Hp. unfold client_as_asked, trust_as_asked in *. rewrite Hv2 in Hv3. simpl. rewrite <- Hp.
    destruct (verify_peer opt); [destruct Hv3 as [-> Hne]|rewrite Hv3]; simpl; by rewrite ?Hft. }
  assert (Hq : vw_protos (view c3) = []).
  { unfold trust_as_asked in Hv3. rewrite Hv2 in Hv3. destruct (verify_peer opt); [destruct Hv3 as [-> _]|rewrite Hv3]; done. }
  case_bool_decide as Ha; simpl.
  - apply wp_ret. eexists. split; [done|]. split; [done|]. apply (Hd []); [|done]. rewrite <- Hq. by destruct (view c3).
  - apply wp_bind. eapply wp_sets; [apply protos_law|done|]. intros r c4 w4 Hv4 Hw4. destruct (Z.eqb_spec r 0) as [->|]; simpl; [|by apply phase_fail_some].
    apply wp_ret. eexists. split; [done|]. split; [done|]. by apply (Hd (alpn_wire (copt_alpn opt))); [apply Hv4|].
Qed.

(** [holder] owns the context: a failure destroys it. *)
Definition made (server : bool) (alpn : bytes) (P : ctx_view -> Prop) (w0 : world) (o : option (expected tls_context_t)) (w : world) : Prop :=
  match o with
  | None => False
  | Some (Ok h) => owns {[ctx_ref h]} w0 w /\ P (view (ctx h)) /\ is_server h = server /\ ctx_alpn h = alpn
  | Some (Unexpected e) => owns ∅ w0 w /\ e = tls_error Init /\ queue w = []
  end.

Lemma make_context_ok m server alpn setup P w :
  fresh_world w ->
  (forall c X w1, fresh_view (view c) -> owns X w w1 -> wp setup (fun o c' w' => exists r, o = Some r /\ phase X w P r c' w') c w1) ->
  let '(o, w') := make_context m server alpn setup w in made server alpn P w o w'.
Proof.
  intros Hw Hs. unfold make_context. pose proof (new_ctx_law m) as Hn. destruct (SSL_CTX_new m) as [[c|] es]; simpl in Hn.
  2: { simpl. split_and!; [by apply owns_drain, owns_push, owns_start|done|apply drain_queue_nil]. }
  pose proof (owns_alloc _ _ _ (owns_push _ _ _ es (owns_start w Hw))) as [_ Ha]. destruct (alloc (push es w)) as [i w1] eqn:Hal.
  assert (i = next (push es w)) as -> by by (injection Hal). simpl in Ha. rewrite union_empty_r_L in Ha.
  specialize (Hs c _ w1 Hn Ha). unfold wp in Hs. destruct (setup c w1) as [[o c'] w2]. destruct Hs as ([u|e] & -> & Hw2 & Ho).
  - by split.
  - destruct Ho as [-> Hq]. simpl. split_and!; [|done|done]. eapply owns_eq; [|apply owns_release; [|done]]; set_solver.
Qed.

End Rules.

(** ** Connections made from a context *)

(** From the manual: a connection inherits the verification mode of its
    context and expects no host name; [SSL_set1_host] makes the name it is given
    the one the peer's certificate has to carry, or, given the empty one, none;
    no other call of the engine changes either; a handshake returns at most 1,
    and [SSL_ERROR_NONE] is for positive results only. *)
Definition host_asked (n : bytes) : option bytes := if bool_decide (n = []) then None else Some n.

Definition mode_kept `{Ssl} (host : SSL -> option bytes) (s s' : SSL) : Prop := verify_mode_none s' = verify_mode_none s /\ host s' = host s.

Class VerifyLaws `{CtxLaws} := {
  expected_host : SSL -> option bytes;
  new_verify_law c s : SSL_new c = Some s -> verify_mode_none s = (vw_verify (view c) =? SSL_VERIFY_NONE) /\ expected_host s = None;
  bio_verify_law s s' : BIO_new_pair s = Some s' -> mode_kept expected_host s s';
  connect_verify_law s : mode_kept expected_host s (SSL_set_connect_state s);
  sni_verify_law n s : mode_kept expected_host s (SSL_set_tlsext_host_name n s).2;
  host_verify_law n s : verify_mode_none (SSL_set1_host n s).2 = verify_mode_none s /\ ((SSL_set1_host n s).1 = 1 -> expected_host (SSL_set1_host n s).2 = host_asked n);
  handshake_verify_law s : mode_kept expected_host s (SSL_do_handshake s).2;
  read_verify_law n s : mode_kept expected_host s (SSL_read n s).2;
  write_verify_law d s : mode_kept expected_host s (SSL_write d s).2;
  shutdown_verify_law s : mode_kept expected_host s (SSL_shutdown s).2;
  wbio_verify_law n s : mode_kept expected_host s (wbio_read n s).2;
  rbio_verify_law d s : mode_kept expected_host s (rbio_write d s).2;
  handshake_result_law s : (SSL_do_handshake s).1 <= 1;
  no_error_law s r : SSL_get_error s r = SSL_ERROR_NONE -> 0 < r
}.

(** What the stream may do with an engine. *)
Inductive engine_op := OpHandshake | OpRead (len : Z) | OpWrite (buf : bytes) | OpShutdown | OpTakeOutput (len : Z) | OpFeedInput (buf : bytes).

Definition run_op `{Ssl} (e : tls_engine_t) (op : engine_op) : tls_engine_t :=
  match op with
  | OpHandshake => (engine_handshake e).2
  | OpRead len => (engine_read len e).2
  | OpWrite buf => (engine_write buf e).2
  | OpShutdown => (engine_shutdown e).2
  | OpTakeOutput len => (take_output len e).2
  | OpFeedInput buf => (feed_input buf e).2
  end.

Section Verified.
Context `{HV : VerifyLaws}.
Implicit Types e : tls_engine_t.

(** An engine of a client that checks certificates, for the host [n]. *)
Definition strict (n : option bytes) e : Prop := server_side e = false /\ verify_mode_none (ssl e) = false /\ expected_host (ssl e) = n.

Lemma create_strict c name e : vw_verify (view c) = SSL_VERIFY_PEER -> create (Some c) Client name = Ok e -> strict (host_asked (c_str name)) e.
Proof.
  intros Hv. unfold create. destruct (SSL_new c) as [s|] eqn:Hn; [|done]. apply new_verify_law in Hn as [Hn Hx]. rewrite Hv in Hn. change (_ =? _) with false in Hn.
  destruct (BIO_new_pair s) as [s1|] eqn:Hb; [|done]. apply bio_verify_law in Hb as [Hb1 Hb2]. destruct (connect_verify_law s1) as [Hc1 Hc2].
  case_bool_decide as Hname; [intros [= <-]; subst name; split_and!; simpl; try congruence; by rewrite Hc2, Hb2, Hx|].
  destruct (sni_verify_law (c_str name) (SSL_set_connect_state s1)) as [Hs1 Hs2]. destruct (SSL_set_tlsext_host_name (c_str name) _) as [r1 s2]. destruct (negb (r1 =? 1)); [done|].
  destruct (host_verify_law (c_str name) s2) as [Hh1 Hh2]. destruct (SSL_set1_host (c_str name) _) as [r2 s3]. destruct (Z.eqb_spec r2 1) as [->|]; [|done].
  simpl in *. intros [= <-]. split_and!; simpl; [done|congruence|by apply Hh2].
Qed.

Lemma classify_strict n ret b e : strict n e -> strict n (classify ret b e).2.
Proof. unfold classify. by destruct (SSL_get_error (ssl e) ret). Qed.

Lemma strict_ssl n s e : mode_kept expected_host (ssl e) s -> strict n e -> strict n (with_ssl s e).
Proof. intros [Ka Kb] (Hs & Hm & Hn). split_and!; simpl; congruence. Qed.

Lemma run_strict n e op : strict n e -> strict n (run_op e op).
Proof.
  intros He. destruct op as [|len|buf| |len|buf]; simpl.
  - unfold engine_handshake. destruct (handshaken_ e); [done|]. pose proof (strict_ssl n _ _ (handshake_verify_law (ssl e)) He) as Hk. destruct (SSL_do_handshake (ssl e)) as [r s].
    destruct (r =? 1); [|by apply classify_strict]. by case_match.
  - unfold engine_read. pose proof (strict_ssl n _ _ (read_verify_law (to_int len) (ssl e)) He) as Hk. destruct (SSL_read _ _) as [[r d] s].
    destruct (0 <? r); [done|]. apply (classify_strict n r false) in Hk. simpl in Hk. by destruct (classify r false _).
  - unfold engine_write. set (b := if _ : bool then _ else buf). pose proof (strict_ssl n _ _ (write_verify_law b (ssl e)) He) as Hk. destruct (SSL_write b _) as [r s].
    destruct (0 <? r); [done|]. by apply classify_strict.
  - unfold engine_shutdown. pose proof (strict_ssl n _ _ (shutdown_verify_law (ssl e)) He) as Hk. destruct (SSL_shutdown _) as [r s].
    destruct (0 <=? r); [done|]. by apply classify_strict.
  - unfold take_output. pose proof (strict_ssl n _ _ (wbio_verify_law (to_int len) (ssl e)) He) as Hk. by destruct (wbio_read _ _) as [[r d] s].
  - unfold feed_input. pose proof (strict_ssl n _ _ (rbio_verify_law buf (ssl e)) He) as Hk. by destruct (rbio_write _ _) as [r s].
Qed.

Lemma run_all_strict n ops e : strict n e -> strict n (foldl run_op e ops).
Proof. revert e. induction ops as [|op ops IH]; intros e He; simpl; [done|]. by apply IH, run_strict. Qed.

Lemma handshake_verifies n e e' : strict n e -> handshaken_ e = false -> engine_handshake e = (StepDone, e') -> verify_result_ok (ssl e') = true.
Proof.
  intros (Hs & Hm & _) Hh. unfold engine_handshake. rewrite Hh. destruct (handshake_verify_law (ssl e)) as [Hk _]. pose proof (handshake_result_law (ssl e)) as Hr.
  destruct (SSL_do_handshake (ssl e)) as [r s]. simpl in *. rewrite Hm in Hk. destruct (Z.eqb_spec r 1) as [->|Hne].
  - rewrite Hs, Hk. destruct (verify_result_ok s) eqn:Hv; simpl; [|done]. by intros [= <-].
  - unfold classify. simpl. destruct (SSL_get_error s r) eqn:Hg; intros [=]. apply no_error_law in Hg. lia.
Qed.

End Verified.

(** ** What contexts guarantee *)

(** Over any OpenSSL that behaves as documented, [make_server] and
    [make_client] return on all options, with the context as asked or with
    [Init] and the error queue drained; either way every BIO, certificate and
    key made on the way is freed once, and the context itself when it is not
    returned.  As asked: TLS 1.2 or newer; a server has the certificate and the
    key of its options, which match, and asks for client certificates exactly
    when told to; a client verifies its peer exactly when told to, against the
    anchors of the option that comes first and never against none, and offers
    its protocol.  The server's ALPN callback ends on every offer and picks its
    own protocol out of it when it is there, refusing the handshake otherwise; given
    what a client context with the same protocol offers, it picks it. *)
Theorem tls_contexts_sound `{CtxLaws} w :
  fresh_world w ->
  (forall opt, let '(o, w') := make_server opt w in made true (sopt_alpn opt) (server_as_asked opt) w o w') /\
  (forall opt, size (ca_pem opt) < 2 ^ 31 -> let '(o, w') := make_client opt w in made false [] (client_as_asked opt) w o w') /\
  (forall lst inp, Forall is_byte inp -> size inp < 2 ^ 31 ->
     (exists off len, alpn_select_cb lst inp = Some (ALPN_OK off len) /\ view_at inp off len = lst /\ 0 <= off /\ off + len <= size inp /\ lst ∈ offered inp) \/
     (alpn_select_cb lst inp = Some ALERT_FATAL /\ lst ∉ offered inp)) /\
  (forall a, Forall is_byte a -> size a < 256 -> exists off len, alpn_select_cb a (alpn_wire a) = Some (ALPN_OK off len) /\ view_at (alpn_wire a) off len = a).
Proof.
  intros Hw. split_and!.
  - intros opt. apply make_context_ok; [done|]. intros c X w1 Hf Ho. apply wp_bind. eapply wp_mono; [by apply server_setup_ok|].
    intros r c' w' Hr. apply wp_ret. eauto.
  - intros opt Hs. apply make_context_ok; [done|]. intros c X w1 Hf Ho. by apply client_setup_ok.
  - apply alpn_select_ok.
  - apply alpn_agree.
Qed.

(** A client whose options ask for verification: an engine created from the
    context [make_client] returned, after any operations of the stream on it,
    completes a handshake only when OpenSSL has verified the peer's
    certificate, against anchors that are the ones the options name and for the
    host it was created for. *)
Theorem client_handshake_verified `{VerifyLaws} opt w h w' name e ops e' :
  fresh_world w -> size (ca_pem opt) < 2 ^ 31 -> verify_peer opt = true ->
  make_client opt w = (Some (Ok h), w') -> create (native_ctx (Some h)) Client name = Ok e ->
  handshaken_ (foldl run_op e ops) = false -> engine_handshake (foldl run_op e ops) = (StepDone, e') ->
  verify_result_ok (ssl e') = true /\ expected_host (ssl e') = host_asked (c_str name) /\ vw_trust (view (ctx h)) = anchors_asked opt /\ anchors_asked opt <> [].
Proof.
  intros Hw Hs Hv Hm Hc Hh Hd. assert (client_as_asked opt (view (ctx h))) as (_ & Hp & Ht & Hne & _).
  { pose proof (make_context_ok TLS_client_method false [] (client_setup opt) (client_as_asked opt) w Hw (fun c X w1 Hf Ho => client_setup_ok opt X w c w1 Hf Ho Hs)) as Hk.
    unfold make_client in Hm. rewrite Hm in Hk. by destruct Hk as (_ & ? & _). }
  rewrite Hv in *. pose proof (run_all_strict _ ops _ (create_strict _ _ _ Hp Hc)) as Hst.
  split; [by eapply handshake_verifies|]. split; [|rewrite <- Ht; auto].
  pose proof (run_strict _ _ OpHandshake Hst) as (_ & _ & Hn). simpl in Hn. by rewrite Hd in Hn.
Qed.

(** ** A library to run against *)

Module Toy.
(** A context is the log of the calls that took effect, latest first.  A
    certificate or key in memory is [C] or [K] and one byte; a key belongs to
    the certificate with the same byte.  A handshake succeeds with a peer
    certified by an anchor in memory. *)
Inductive entry :=
  EMin (v : Z) | EMode (m : Z) | EVerify (m : Z) | EAlpn (a : bytes) | ETickets (n : Z) | ECert (x : material Z) | EKey (k : material Z)
| ELocations (f d : option bytes) | EDefault | EAnchor (x : Z) | EProtos (p : bytes).

Definition did (e : entry) (c : list entry) : Z * list entry * list positive := (1, e :: c, []).
Definition latest {A} (f : entry -> option A) (c : list entry) : option A := head (omap f c).
Definition latest_verify (c : list entry) : Z := default 0 (latest (fun e => match e with EVerify v => Some v | _ => None end) c).
Definition latest_cert : list entry -> option (material Z) := latest (fun e => match e with ECert x => Some x | _ => None end).
Definition latest_key : list entry -> option (material Z) := latest (fun e => match e with EKey x => Some x | _ => None end).
Definition anchored (c : list entry) : bool := existsb (fun e => match e with EAnchor _ => true | _ => false end) c.

Definition pair_ok (x k : material Z) : bool :=
  match x, k with FromFile _, FromFile _ => true | FromMemory a, FromMemory b => a =? b | _, _ => false end.
Definition check (c : list entry) : Z :=
  match latest_cert c, latest_key c with Some x, Some k => if pair_ok x k then 1 else 0 | _, _ => 0 end.

(** A connection: whether it verifies nobody and the host it expects, and the connection without keys
    of TlsStream, whose peer is certified when the context has an anchor. *)
Definition lift {A} (f : Clear.conn -> A * Clear.conn) (s : (bool * option bytes) * Clear.conn) : A * ((bool * option bytes) * Clear.conn) := let '(a, c) := f s.2 in (a, (s.1, c)).
#[export] Instance toy_ssl : Ssl := {
  SSL_CTX := list entry; SSL := (bool * option bytes) * Clear.conn; SSL_new c := Some ((latest_verify c =? 0, None), Clear.mk_conn [] [] [] [] [] false (anchored c)); BIO_new_pair := Some;
  SSL_set_accept_state s := s; SSL_set_connect_state s := s; SSL_set_tlsext_host_name _ s := (1, s); SSL_set1_host n s := (1, ((s.1.1, host_asked n), s.2));
  SSL_do_handshake := lift Clear.do_handshake; SSL_read n := lift (Clear.do_read n); SSL_write d := lift (Clear.do_write d); SSL_shutdown := lift (fun c => (0, Clear.put [21] c));
  SSL_get_error s := Clear.get_error s.2; reason_verify_failed _ := false; errno _ := 5; verify_result_ok s := Clear.cert_ok s.2; verify_mode_none s := s.1.1;
  wbio_pending s := size (Clear.q s.2); wbio_read n := lift (Clear.take_q n); rbio_write d := lift (Clear.feed d)
}.
#[export] Instance toy_ssl_view : SslView := {
  produced s := Clear.all s.2; outq s := Clear.q s.2; sealed s := Clear.recs s.2; opened s := Clear.plain s.2 }.

#[export] Instance toy_ssl_laws : SslLaws.
Proof.
  constructor; unfold emits; simpl; unfold lift.
  - intros [b c]. pose proof (handshake_law (SslLaws := Clear.clear_laws) c) as Hl. simpl in *. by destruct (Clear.do_handshake c).
  - intros n [b c] Hn. pose proof (read_law (SslLaws := Clear.clear_laws) n c Hn) as Hl. simpl in *. by destruct (Clear.do_read n c) as [[r d] c'].
  - intros d [b c] Hd. pose proof (write_law (SslLaws := Clear.clear_laws) d c Hd) as Hl. simpl in *. exact Hl.
  - intros [b c]. exact (shutdown_law (SslLaws := Clear.clear_laws) c).
  - intros [b c] r. exact (error_none_law (SslLaws := Clear.clear_laws) c r).
  - intros [b c] r. exact (want_write_law (SslLaws := Clear.clear_laws) c r).
  - done.
  - intros n [b c] Hn Hq. exact (wbio_law (SslLaws := Clear.clear_laws) n c Hn Hq).
  - intros d [b c]. exact (rbio_law (SslLaws := Clear.clear_laws) d c).
Qed.

#[export] Instance toy_ssl_setup : SslSetupLaws.
Proof. constructor; simpl; [by intros c s s' [= <-] [= <-]|done|done]. Qed.

Definition read_pem (mark : Z) (b : bytes) : option (Z * bytes) * list positive :=
  match b with m :: x :: b' => if m =? mark then (Some (x, b'), []) else (None, [9%positive]) | _ => (None, [9%positive]) end.

(** No file is called by the empty name; [0] names a file that cannot be read. *)
Definition readable (p : bytes) : bool := negb (bool_decide (p = [48])).
Definition try_file (p : bytes) (e : entry) (c : list entry) : Z * list entry * list positive := if readable p then did e c else (0, c, [2%positive]).

#[export] Instance toy_ctx : CtxOps := {
  X509 := Z; EVP_PKEY := Z;
  SSL_CTX_new _ := (Some [], []);
  SSL_CTX_set_min_proto_version v := did (EMin v);
  SSL_CTX_set_mode m := did (EMode m);
  SSL_CTX_use_certificate_chain_file p := try_file p (ECert (FromFile p));
  SSL_CTX_use_certificate x := did (ECert (FromMemory x));
  SSL_CTX_use_PrivateKey_file p := try_file p (EKey (FromFile p));
  SSL_CTX_use_PrivateKey k := did (EKey (FromMemory k));
  SSL_CTX_check_private_key c := (check c, c, []);
  SSL_CTX_set_verify m := did (EVerify m);
  SSL_CTX_load_verify_locations f d := did (ELocations f d);
  SSL_CTX_set_default_verify_paths := did EDefault;
  SSL_CTX_set_alpn_select_cb a := did (EAlpn a);
  SSL_CTX_set_num_tickets n := did (ETickets n);
  SSL_CTX_set_alpn_protos a c := (0, EProtos a :: c, []);
  X509_STORE_add_cert x := did (EAnchor x);
  BIO_new_mem_buf d _ := (Some d, []);
  PEM_read_bio_X509 := read_pem 67;
  PEM_read_bio_PrivateKey := read_pem 75
}.

Definition apply_entry (e : entry) (v : ctx_view) : ctx_view :=
  match e with
  | EMin m => set_min m v | EMode m => add_mode m v | EVerify m => set_verify m v | EAlpn a => set_alpn_cb a v | ETickets n => set_tickets n v
  | ECert x => set_cert x v | EKey k => set_key k v | ELocations f d => add_trust [AnchorLocations f d] v | EDefault => add_trust [AnchorDefault] v
  | EAnchor x => add_trust [AnchorCert x] v | EProtos p => set_protos p v
  end.
Definition toy_view (c : list entry) : ctx_view := foldr apply_entry (mk_view _ _ 0 0 0 [] None None None [] None) c.

Lemma toy_view_latest (c : list entry) : vw_cert (toy_view c) = latest_cert c /\ vw_key (toy_view c) = latest_key c /\ vw_verify (toy_view c) = latest_verify c.
Proof. induction c as [|e c (IH1 & IH2 & IH3)]; [done|]. destruct e; simpl; by rewrite ?IH1, ?IH2, ?IH3. Qed.

Lemma read_pem_shorter mark b : match (read_pem mark b).1 with Some (_, b') => (length b' < length b)%nat | None => True end.
Proof. unfold read_pem. destruct b as [|m [|x b]]; simpl; try done. destruct (m =? mark); simpl; [lia|done]. Qed.

Lemma try_file_sets p e : sets toy_view 1 (apply_entry e) (try_file p e).
Proof. intros c. unfold try_file. by destruct (readable p). Qed.

Lemma toy_check (c : list entry) :
  let '(r, c', _) := SSL_CTX_check_private_key c in
  toy_view c' = toy_view c /\ (r = 1 -> exists x k, vw_cert (toy_view c) = Some x /\ vw_key (toy_view c) = Some k /\ pair_ok x k = true).
Proof.
  simpl. split; [done|]. unfold check. destruct (toy_view_latest c) as (-> & -> & _).
  destruct (latest_cert c) as [x|], (latest_key c) as [k|]; try done. destruct (pair_ok x k) eqn:Hp; [|done]. intros _. eauto.
Qed.

#[export] Instance toy_laws : CtxLaws.
Proof.
  refine {| view := toy_view; key_of := fun x k => pair_ok x k = true; chain_file_law p := try_file_sets p (ECert (FromFile p));
            key_file_law p := try_file_sets p (EKey (FromFile p)); check_law := toy_check; pem_law := read_pem_shorter 67 |}; try done.
  - intros c. simpl. by eexists.
  - intros d n. simpl. lia.
Defined.

#[export] Instance toy_verify : VerifyLaws.
Proof.
  refine {| expected_host := fun s : SSL => s.1.2 |}; unfold mode_kept; simpl; unfold lift; try done; try (by intros s s' [= <-]).
  - intros c s [= <-]. simpl. by destruct (toy_view_latest c) as (_ & _ & ->).
  - intros s. by destruct (Clear.do_handshake s.2).
  - intros n s. by destruct (Clear.do_read n s.2).
  - intros s. pose proof (handshake_law (SslLaws := toy_ssl_laws) s) as Hl. simpl in Hl. unfold lift in Hl. destruct (Clear.do_handshake s.2) as [r c]. by destruct Hl.
  - intros s r. apply (error_none_law (SslLaws := toy_ssl_laws) s r).
Defined.

Definition start : world := mk_world [] ∅ 0 false.
Lemma start_fresh : fresh_world start.
Proof. intros i Hi. unfold start in Hi. simpl in Hi. set_solver. Qed.

Definition http11 : bytes := [104; 116; 116; 112; 47; 49; 46; 49].
Definition server_options : tls_server_options_t := mk_server_options [] [] [67; 5] [75; 5] http11 true 0 [99] [].
Definition wrong_key : tls_server_options_t := mk_server_options [] [] [67; 5] [75; 6] http11 false 0 [] [].
Definition client_options : tls_client_options_t := mk_client_options true [] [] [67; 1; 67; 2] http11.
End Toy.
Import Toy.

(** A server with a certificate and its key in memory, one whose key is
    another's, a client with a bundle of two certificates, and the handshake's
    protocol. *)
Lemma tls_contexts_sound_witness :
  (exists h w', make_server server_options start = (Some (Ok h), w') /\ server_as_asked server_options (view (ctx h)) /\ owns {[ctx_ref h]} start w') /\
  (exists w', make_server wrong_key start = (Some (Unexpected (tls_error Init)), w') /\ owns ∅ start w' /\ queue w' = []) /\
  (exists h w', make_client client_options start = (Some (Ok h), w') /\ vw_trust (view (ctx h)) = [AnchorCert 1; AnchorCert 2]) /\
  http11 ∈ offered ([2; 104; 50] ++ alpn_wire http11).
Proof.
  pose proof (tls_contexts_sound start start_fresh) as (Hs & Hc & Ha & _). split_and!.
  - specialize (Hs server_options). destruct (make_server server_options start) as [o w'] eqn:Hm. vm_compute in Hm. injection Hm as <- <-.
    destruct Hs as (Ho & Hv & _). eauto.
  - specialize (Hs wrong_key). destruct (make_server wrong_key start) as [o w'] eqn:Hm. vm_compute in Hm. injection Hm as <- <-.
    destruct Hs as (Ho & _ & Hq). eauto.
  - specialize (Hc client_options ltac:(done)). destruct (make_client client_options start) as [o w'] eqn:Hm. vm_compute in Hm. injection Hm as <- <-.
    destruct Hc as (Ho & (_ & _ & Ht & _) & _). eauto.
  - destruct (Ha http11 ([2; 104; 50] ++ alpn_wire http11)) as [(_ & _ & _ & _ & _ & _ & Hi)|[Hn _]]; [by repeat constructor|done|done|vm_compute in Hn; discriminate].
Defined.

(** A handshake that waits for the peer, sends and is fed, and ends. *)
Lemma client_handshake_verified_witness :
  exists h w' e e', make_client client_options start = (Some (Ok h), w') /\ create (native_ctx (Some h)) Client [97] = Ok e /\
    engine_handshake (foldl run_op e [OpHandshake; OpTakeOutput 9; OpFeedInput [1; 2]]) = (StepDone, e') /\ verify_result_ok (ssl e') = true /\ expected_host (ssl e') = Some [97].
Proof.
  destruct (make_client client_options start) as [o w'] eqn:Hm. pose proof Hm as Hm'. vm_compute in Hm'. injection Hm' as <- <-.
  do 4 eexists. split; [done|]. split; [reflexivity|]. split; [reflexivity|].
  eassert (Hv := client_handshake_verified client_options start _ _ [97] _ [OpHandshake; OpTakeOutput 9; OpFeedInput [1; 2]] _ start_fresh eq_refl eq_refl Hm eq_refl eq_refl eq_refl).
  split; [exact (proj1 Hv)|exact (proj1 (proj2 Hv))].
Defined.

(** The soft error that ends the reading of a bundle stays on the thread's
    queue: only failures drain it. *)
Example bundle_leaves_error : queue (make_client client_options start).2 = [9%positive].
Proof. reflexivity. Qed.

(** A protocol name of more than 255 bytes is announced with the length that is
    left of its own in a byte. *)
Example long_name_cut : head (offered (alpn_wire (replicate 257 7))) = Some [7].
Proof. reflexivity. Qed.

(** Several protocols in the server's option are taken as one name. *)
Example list_is_one_name : alpn_select_cb [104; 50; 44; 104; 51] [2; 104; 50; 2; 104; 51] = Some ALERT_FATAL.
Proof. reflexivity. Qed.
