(* ===== verification/TlsTransport.v ===== *)
(** * Transports

    [transport_t] of src/include/cornet/tls/transport.h and
    src/tls/transport.cc: one byte stream over a plain socket or a TLS stream,
    and [dial] of src/tls/dial.cc.  [Delivery] is what [writev_all] relies on;
    both kinds of transport provide it. *)

From stdpp Require Import prelude list list_numbers.
From Stdlib Require Import ZArith Lia.
From S2P Require Import Prelude Transport TlsEngine TlsStream.
Open Scope Z_scope.

Definition EALREADY : Z := 114.
Definition ETIMEDOUT : Z := 110.

(** ** Writing it all

    [writev] takes a prefix of the vector, whatever is below. *)
Class Delivery (T : Type) := { writev_once : list bytes -> T -> outcome (expected Z * T); delivered : T -> bytes; able : T -> Prop }.
Class DeliveryLaws (T : Type) `{Delivery T} : Prop := {
  writev_law l t : able t ->
    match writev_once l t with
    | Ret (Ok n, t') => 0 <= n <= size (concat l) /\ delivered t' = delivered t ++ take (Z.to_nat n) (concat l) /\ able t'
    | Ret (Unexpected _, t') => exists d, d `prefix_of` concat l /\ delivered t' = delivered t ++ d
    | Suspended => True
    | _ => False
    end
}.

Section WriteAll.
Context {T : Type} `{DeliveryLaws T}.

Record writev_stat_t := mk_stat { calls : Z; partial : Z }.

(** [for (i = done; ...)]: the vector from [done] on, advanced by [remaining]. *)
Fixpoint advance (remaining : Z) (l : list bytes) : list bytes :=
  match l with
  | [] => []
  | v :: l =>
      if 0 <? remaining then
        let take_ := if remaining <? size v then remaining else size v in
        drop (Z.to_nat take_) v :: advance (remaining - take_) l
      else v :: l
  end.
(** [while (done < n && iov[done].iov_len == 0) ++done] *)
Fixpoint skip_empty (l : list bytes) : list bytes := match l with [] :: l => skip_empty l | l => l end.

(** [l] is the vector from [done] on. *)
Fixpoint writev_all (fuel : nat) (l : list bytes) (stat : writev_stat_t) (t : T) : outcome (expected unit * T * writev_stat_t) :=
  match l with
  | [] => Ret (Ok tt, t, stat)
  | _ =>
      match fuel with
      | O => Starved
      | S fuel =>
          let stat := mk_stat (calls stat + 1) (partial stat) in
          match writev_once l t with
          | Ret (Unexpected e, t) => Ret (Unexpected e, t, stat)
          | Ret (Ok w, t) =>
              if w =? 0 then Ret (Unexpected (system_error ECONNRESET), t, stat)
              else
                let l := skip_empty (advance w l) in
                let stat := match l with [] => stat | _ => mk_stat (calls stat) (partial stat + 1) end in
                writev_all fuel l stat t
          | Suspended => Suspended | Thrown => Thrown | Undefined => Undefined | Starved => Starved
          end
      end
  end.

Lemma advance_concat n l : 0 <= n -> concat (advance n l) = drop (Z.to_nat n) (concat l).
Proof.
  revert n. induction l as [|v l IH]; intros n Hn; simpl; [by rewrite drop_nil|].
  destruct (Z.ltb_spec 0 n) as [Hp|Hz]; [|by replace n with 0 by lia].
  destruct (Z.ltb_spec n (size v)) as [Hs|Hs]; simpl.
  - rewrite IH, drop_app_le by (unfold size in *; lia). by rewrite Z.sub_diag.
  - rewrite IH, (drop_ge v), drop_app_ge by (unfold size in *; lia). simpl. f_equal. unfold size. lia.
Qed.

Lemma skip_empty_concat l : concat (skip_empty l) = concat l.
Proof. induction l as [|[|b v] l IH]; [done..| ]; done. Qed.

(** Everything, or an error after a prefix. *)
Definition all_or_prefix (data : bytes) (t : T) (r : outcome (expected unit * T * writev_stat_t)) : Prop :=
  match r with
  | Ret (Ok _, t', _) => delivered t' = delivered t ++ data
  | Ret (Unexpected _, t', _) => exists d, d `prefix_of` data /\ delivered t' = delivered t ++ d
  | Suspended => True
  | _ => False
  end.

Lemma writev_all_runs fuel l stat t : able t -> (length (concat l) < fuel)%nat -> all_or_prefix (concat l) t (writev_all fuel l stat t).
Proof.
  revert l stat t. induction fuel as [|fuel IH]; intros l stat t Ht Hf; [lia|]. destruct l as [|v l]; [simpl; by rewrite app_nil_r|].
  remember (v :: l) as q eqn:Hq. assert (Hne : q <> []) by by rewrite Hq. clear v l Hq.
  replace (writev_all (S fuel) q stat t) with
    (let stat := mk_stat (calls stat + 1) (partial stat) in
     match writev_once q t with
     | Ret (Unexpected e, t) => Ret (Unexpected e, t, stat)
     | Ret (Ok w, t) =>
         if w =? 0 then Ret (Unexpected (system_error ECONNRESET), t, stat)
         else let l := skip_empty (advance w q) in
              let stat := match l with [] => stat | _ => mk_stat (calls stat) (partial stat + 1) end in writev_all fuel l stat t
     | Suspended => Suspended | Thrown => Thrown | Undefined => Undefined | Starved => Starved
     end) by by destruct q. cbn zeta.
  pose proof (writev_law q t Ht) as Hl. destruct (writev_once q t) as [[[w|e] t1]| | | |]; try done.
  destruct Hl as (Hw & Hd & Ht1). destruct (Z.eqb_spec w 0) as [->|Hw0].
  { exists []. split; [apply prefix_nil|]. by rewrite app_nil_r, Hd, app_nil_r. }
  assert (Hc : concat (skip_empty (advance w q)) = drop (Z.to_nat w) (concat q)) by (rewrite skip_empty_concat; apply advance_concat; lia).
  set (stat' := match skip_empty (advance w q) with [] => _ | _ => _ end).
  pose proof (IH (skip_empty (advance w q)) stat' t1 Ht1) as HI. rewrite Hc, length_drop in HI. specialize (HI ltac:(unfold size in *; lia)).
  unfold all_or_prefix in *. destruct (writev_all fuel _ stat' t1) as [[[[[]|e] t2] s2]| | | |]; try done.
  - by rewrite HI, Hd, <- app_assoc, take_drop.
  - destruct HI as (d & Hp & Hd2). exists (take (Z.to_nat w) (concat q) ++ d). split; [|by rewrite Hd2, Hd, app_assoc].
    rewrite <- (take_drop (Z.to_nat w) (concat q)) at 2. by apply prefix_app.
Qed.

(** Of the calls of a write that went through all but the last were partial. *)
Lemma writev_all_counts fuel l stat t t' stat' :
  l <> [] -> writev_all fuel l stat t = Ret (Ok tt, t', stat') -> calls stat' - partial stat' = calls stat - partial stat + 1.
Proof.
  revert l stat t. induction fuel as [|fuel IH]; intros l stat t Hl; [by destruct l|]. destruct l as [|v l]; [done|]. cbn [writev_all].
  destruct (writev_once (v :: l) t) as [[[w|e] t1]| | | |]; try done. destruct (w =? 0); [done|].
  destruct (skip_empty (advance w (v :: l))) as [|v' l'] eqn:Hs.
  - destruct fuel; simpl; intros [= <- <-]; simpl; lia.
  - intros Hr%IH; [|done]. simpl in Hr. lia.
Qed.
End WriteAll.

(** ** The transport *)

Section Transport.
Context `{HL : SslLaws}.

Inductive transport_t := Plain (s : sock_t) | Tls (st : tls_stream_t).
Implicit Types t : transport_t.

Definition is_tls t : bool := match t with Tls _ => true | Plain _ => false end.
Definition native_fd t : Z := match t with Plain s => fd_ s | Tls st => fd_ (sock_ st) end.

Definition lift {A} (r : outcome (expected A * tls_stream_t)) : outcome (expected A * transport_t) :=
  let+ (a, st) := r in Ret (a, Tls st).

(** Fuel for the receives left in the script. *)
Definition enough (st : tls_stream_t) : nat := S (left st).

(** [tcp::socket_t::writev] and [recv] *)
Definition plain_writev (l : list bytes) (s : sock_t) : outcome (expected Z * sock_t) :=
  match sends s with
  | [] => Suspended
  | Sent k :: r =>
      let n := Z.max 0 (Z.min k (size (concat l))) in
      Ret (Ok n, mk_sock (fd_ s) r (recvs s) (wire s ++ take (Z.to_nat n) (concat l)) (waits s))
  | SendError e :: r => Ret (Unexpected e, mk_sock (fd_ s) r (recvs s) (wire s) (waits s))
  end.
Definition plain_recv (len : Z) (s : sock_t) : outcome (expected bytes * sock_t) :=
  match recvs s with
  | [] => Suspended
  | Arrived d :: r =>
      let r := match drop (Z.to_nat len) d with [] => r | x => Arrived x :: r end in
      Ret (Ok (take (Z.to_nat len) d), mk_sock (fd_ s) (sends s) r (wire s) (waits s ++ [0]))
  | RecvError e :: r => Ret (Unexpected e, mk_sock (fd_ s) (sends s) r (wire s) (waits s ++ [0]))
  end.

Definition transport_writev (l : list bytes) t : outcome (expected Z * transport_t) :=
  match t with
  | Plain s => let+ (r, s) := plain_writev l s in Ret (r, Plain s)
  | Tls st => lift (writev (enough st) l st)
  end.
Definition transport_recv (len : Z) t : outcome (expected bytes * transport_t) :=
  match t with
  | Plain s => let+ (r, s) := plain_recv len s in Ret (r, Plain s)
  | Tls st => lift (recv (enough st) len st)
  end.

(** [sd]: what [async_shutdown] of a plain socket returns. *)
Definition transport_shutdown (sd : expected unit) t : outcome (expected unit * transport_t) :=
  match t with
  | Plain s => Ret (sd, t)
  | Tls st => lift (shutdown_write (enough st) st)
  end.

(** [cx]: the TLS context, [None] a null pointer, [Some None] one that is not
    valid. *)
Definition start_tls (cx : option (option SSL_CTX)) (mode : engine_mode_t) (server_name : bytes) t : outcome (expected unit * transport_t) :=
  match t with
  | Tls _ => Ret (Unexpected (system_error EALREADY), t)
  | Plain s =>
      match cx with
      | None => Ret (Unexpected (tls_error Init), t)
      | Some cx =>
          match create cx mode server_name with
          | Unexpected e => Ret (Unexpected e, t)
          | Ok engine =>
              let st := new_stream s engine in
              let+ (ok, st) := handshake (enough st) st in
              match ok with
              | Unexpected e => Ret (Unexpected e, Plain (sock_ st))
              | Ok _ => Ret (Ok tt, Tls st)
              end
          end
      end
  end.

Definition release_fd (s : sock_t) : sock_t := mk_sock (-1) (sends s) (recvs s) (wire s) (waits s).
(** The descriptor handed to [async_close], if any. *)
Definition abandon t : transport_t * option Z :=
  let fd := native_fd t in
  if fd <? 0 then (t, None)
  else (match t with Plain s => Plain (release_fd s) | Tls st => Tls (with_sock (release_fd (sock_ st)) st) end, Some fd).

(** The destructor of the socket: the descriptor it closes, if any. *)
Definition destroy_transport t : option Z := if native_fd t =? -1 then None else Some (native_fd t).

(** [close_gracefully] after the half-close: at most [max_reads] receives. *)
Fixpoint drain (max_reads : nat) t : outcome transport_t :=
  match max_reads with
  | O => Ret t
  | S n =>
      let+ (r, t) := transport_recv 512 t in
      match r with
      | Ok (_ :: _) => drain n t
      | _ => Ret t
      end
  end.
Definition close_gracefully (sd : expected unit) (max_reads : nat) t : outcome transport_t :=
  let+ (_, t) := transport_shutdown sd t in drain max_reads t.

(** [dial]: the descriptor made, what the connect returned, whether the
    deadline had fired when a phase reported its error.  The result, and what
    was closed on the way. *)
Definition map_deadline (fired : bool) (e : error_t) : error_t := if fired then system_error ETIMEDOUT else e.

(** The constructors of sockets throw on a descriptor that could not be made. *)
Definition new_socket (s : sock_t) : outcome sock_t := if fd_ s <? 0 then Thrown else Ret s.

Definition dial (s : sock_t) (sock_errno : Z) (connected : expected unit) (tls_cx : option (option SSL_CTX)) (server_name : bytes) (fired1 fired2 : bool)
  : outcome (expected transport_t * list Z) :=
  let+ s := new_socket s in
  let tr := Plain s in
  let hang_up tr e := let '(tr, c) := abandon tr in Ret (Unexpected e, option_list c ++ option_list (destroy_transport tr)) in
  if native_fd tr <? 0 then Ret (Unexpected (system_error sock_errno), option_list (destroy_transport tr))
  else
    match connected with
    | Unexpected e => hang_up tr (map_deadline fired1 e)
    | Ok _ =>
        match tls_cx with
        | None => Ret (Ok tr, [])
        | Some cx =>
            let+ (hs, tr) := start_tls (Some cx) Client server_name tr in
            match hs with
            | Unexpected e => hang_up tr (map_deadline fired2 e)
            | Ok _ => Ret (Ok tr, [])
            end
        end
    end.

(** ** Both kinds deliver *)

#[export] Instance transport_delivery : Delivery transport_t := {
  writev_once := transport_writev;
  delivered t := match t with Plain s => wire s | Tls st => concat (sealed (ssl (engine_ st))) end;
  able t := match t with Plain _ => True | Tls st => usable st end
}.

#[export] Instance transport_delivery_laws : DeliveryLaws transport_t.
Proof.
  constructor. intros l [s|st]; simpl.
  - intros _. unfold plain_writev. destruct (sends s) as [|[k|e] r]; simpl; [done| |].
    + split; [unfold size; lia|]. done.
    + exists []. split; [apply prefix_nil|]. by rewrite app_nil_r.
  - intros Hu. pose proof (writev_runs (enough st) l st Hu (Nat.lt_succ_diag_r _)) as Hr. unfold runs in Hr.
    destruct (writev (enough st) l st) as [[[n|e] st']| | | |]; simpl; try done.
    + destruct Hr as (-> & _ & Hu' & recs & [Hc _] & Hm). split; [unfold size; lia|]. split; [|done].
      by rewrite (mv_sealed _ _ _ _ Hm), concat_app, Hc, take_ge by (unfold size; lia).
    + destruct Hr as (recs & Hp & Hm). exists (concat recs). split; [done|]. by rewrite (mv_sealed _ _ _ _ Hm), concat_app.
Qed.

(** ** Descriptors *)

Lemma new_stream_usable s e : wire s = [] -> quiet (ssl e) -> usable (new_stream s e).
Proof. intros Hw [Hp Hq]. split; [|done]. unfold clean, out, made; simpl. by rewrite Hw, Hp, Hq. Qed.

(** Upgrading a connection on which nothing was sent. *)
Lemma start_tls_runs `{!SslSetupLaws} cx mode name s :
  wire s = [] ->
  match start_tls cx mode name (Plain s) with
  | Ret (Ok _, t') => native_fd t' = fd_ s /\ exists st, t' = Tls st /\ usable st /\ checked (engine_ st)
  | Ret (Unexpected _, t') => native_fd t' = fd_ s /\ is_tls t' = false
  | Suspended => True
  | _ => False
  end.
Proof.
  intros Hw. unfold start_tls. destruct cx as [cx|]; [|done]. destruct (create cx mode name) as [e|] eqn:Hc; [|done].
  apply create_quiet in Hc as (Hq & Hf & _). pose proof (new_stream_usable s e Hw Hq) as Hu.
  pose proof (handshake_runs (enough (new_stream s e)) _ Hu (Nat.lt_succ_diag_r _)) as Hr. unfold runs in Hr.
  destruct (handshake _ (new_stream s e)) as [[[[]|x] st]| | | |] eqn:Hh; simpl; try done.
  - destruct Hr as [Hu' Hm]. split; [exact (mv_fd _ _ _ _ Hm)|]. exists st. split; [done|]. split; [done|]. exact (proj2 (handshake_settles _ (new_stream s e) _ Hf Hh)).
  - split; [exact (mv_fd _ _ _ _ Hr)|done].
Qed.

(** Abandoned and destroyed, a transport closes its descriptor once. *)
Lemma abandon_once t : 0 <= native_fd t -> let '(t', c) := abandon t in option_list c ++ option_list (destroy_transport t') = [native_fd t].
Proof. intros Hf. unfold abandon. destruct (Z.ltb_spec (native_fd t) 0); [lia|]. by destruct t. Qed.

(** A dial that succeeded hands over the descriptor open; one that failed has
    closed it, once; over TLS the certificate was checked; one that could not
    make a descriptor threw. *)
Definition dialled (s : sock_t) (cx : option (option SSL_CTX)) (r : outcome (expected transport_t * list Z)) : Prop :=
  match r with
  | Ret (Ok t, closed) => closed = [] /\ native_fd t = fd_ s /\ 0 <= fd_ s /\ able t /\ match cx with None => t = Plain s | Some _ => exists st, t = Tls st /\ checked (engine_ st) end
  | Ret (Unexpected _, closed) => closed = [fd_ s] /\ 0 <= fd_ s
  | Thrown => fd_ s < 0
  | Suspended => True
  | _ => False
  end.

Lemma dial_runs `{!SslSetupLaws} s en connected cx name f1 f2 : wire s = [] -> dialled s cx (dial s en connected cx name f1 f2).
Proof.
  intros Hw. unfold dialled, dial, new_socket. destruct (Z.ltb_spec (fd_ s) 0) as [|Hfd]; [done|]. cbn [bind_out native_fd]. destruct (Z.ltb_spec (fd_ s) 0) as [|_]; [lia|].
  destruct connected as [[]|e].
  - destruct cx as [cx|]; [|done]. pose proof (start_tls_runs (Some cx) Client name s Hw) as Hs.
    destruct (start_tls (Some cx) Client name (Plain s)) as [[[[]|x] t]| | | |]; try done.
    + destruct Hs as (Hn & st & -> & Hu & Hc). simpl. split_and!; try done. by exists st.
    + destruct Hs as [Hn _]. cbn [bind_out]. pose proof (abandon_once t) as Ha. destruct (abandon t) as [t' c]. rewrite Ha; [by rewrite Hn|lia].
  - pose proof (abandon_once (Plain s)) as Ha. destruct (abandon (Plain s)) as [t' c]. by rewrite Ha.
Qed.
End Transport.

(** Writing a whole vector over any transport, plain or TLS: with fuel for
    its bytes the loop over short writes ends; on success exactly the bytes of
    the vector were delivered, in order and once, and all its calls but the
    last were partial; on failure a prefix of them was. *)
Theorem transport_writes_all `{HL : SslLaws} fuel l stat (t : transport_t) :
  able t -> (length (concat l) < fuel)%nat ->
  all_or_prefix (concat l) t (writev_all fuel l stat t) /\
  forall t' stat', l <> [] -> writev_all fuel l stat t = Ret (Ok tt, t', stat') -> calls stat' - partial stat' = calls stat - partial stat + 1.
Proof. intros Ht Hf. split; [by apply writev_all_runs|]. intros t' stat'. apply writev_all_counts. Qed.

(** Dialling: whatever the connect, the certificate, the peer and the
    deadline do, a dial that succeeds hands over the descriptor it made, open
    and ready, and over TLS only after the certificate was checked; a dial
    that fails has closed the descriptor exactly once; it throws when no
    descriptor could be made, and only then. *)
Theorem dial_owns_descriptor `{HL : SslLaws} `{HS : !SslSetupLaws} s en connected cx name f1 f2 :
  wire s = [] -> dialled s cx (dial s en connected cx name f1 f2).
Proof. apply dial_runs. Qed.

Import TlsStream.Clear.

Lemma transport_writes_all_witness :
  exists t' stat', writev_all 6 [[1; 2]; []; [3; 4; 5]] (mk_stat 0 0) (Plain (mk_sock 7 [Sent 3; Sent 9] [] [] [])) = Ret (Ok tt, t', stat') /\
    delivered t' = [1; 2; 3; 4; 5] /\ calls stat' - partial stat' = 1.
Proof.
  destruct (transport_writes_all 6 [[1; 2]; []; [3; 4; 5]] (mk_stat 0 0) (Plain (mk_sock 7 [Sent 3; Sent 9] [] [] [])) I ltac:(simpl; lia)) as [H1 H2].
  eassert (Hrun : writev_all 6 [[1; 2]; []; [3; 4; 5]] (mk_stat 0 0) (Plain (mk_sock 7 [Sent 3; Sent 9] [] [] [])) = Ret (Ok tt, _, _)) by (vm_compute; reflexivity).
  rewrite Hrun in H1. do 2 eexists. split; [exact Hrun|]. split; [exact H1|]. assert (Hne : [[1; 2]; []; [3; 4; 5]] <> []) by discriminate. exact (H2 _ _ Hne Hrun).
Defined.

Lemma dial_owns_descriptor_witness :
  exists t, dial (mk_sock 7 [Sent 9; Sent 9] [Arrived [1]] [] []) 0 (Ok tt) (Some (Some true)) [104; 111] false false = Ret (Ok t, []) /\ native_fd t = 7.
Proof.
  pose proof (dial_owns_descriptor (mk_sock 7 [Sent 9; Sent 9] [Arrived [1]] [] []) 0 (Ok tt) (Some (Some true)) [104; 111] false false eq_refl) as H.
  eassert (Hrun : dial (mk_sock 7 [Sent 9; Sent 9] [Arrived [1]] [] []) 0 (Ok tt) (Some (Some true)) [104; 111] false false = Ret (Ok _, [])) by (vm_compute; reflexivity).
  rewrite Hrun in H. eexists. split; [exact Hrun | exact (proj1 (proj2 H))].
Defined.

(** A vector of empty slices is reported as a reset connection. *)
Lemma empty_vector_resets s r : sends s = Sent 0 :: r -> exists t' st, writev_all 1 [[]] (mk_stat 0 0) (Plain s) = Ret (Unexpected (system_error ECONNRESET), t', st).
Proof. intros Hs. simpl. unfold plain_writev. rewrite Hs. simpl. by do 2 eexists. Qed.

(** With no descriptor to be had the socket's constructor throws before [dial]
    looks at it: no error is returned. *)
Lemma no_descriptor_throws `{HL : SslLaws} s en connected cx name f1 f2 : fd_ s < 0 -> dial s en connected cx name f1 f2 = Thrown.
Proof. intros Hf. unfold dial, new_socket. by destruct (Z.ltb_spec (fd_ s) 0); [|lia]. Qed.
