(* ===== verification/TlsPeer.v ===== *)
(** * The peer of a TLS connection

    The verification of the peer followed through the coroutines of TlsStream
    and through [dial]: a stream over an engine that checks certificates, for
    some host, is only ever handed out with the certificate verified.  The
    clients of [dial], ClientOpen and WsConnect, rest on it. *)

From stdpp Require Import prelude list list_numbers.
From Stdlib Require Import ZArith Lia.
From S2P Require Import Prelude TlsEngine TlsStream TlsContext Transport TlsTransport.
Open Scope Z_scope.

Section Verified.
Context `{S : Ssl} `{V : !SslView} `{L : !SslLaws} `{SS : !SslSetupLaws} `{CO : !CtxOps} `{CL : !CtxLaws} `{VL : !VerifyLaws}.

(** A coroutine of the stream leaves an engine that checks certificates, for
    some host, one that does. *)
Definition keeps_strict {A} (m : TlsStream.M A) : Prop := forall n st r st', strict n (engine_ st) -> m st = Ret (r, st') -> strict n (engine_ st').

Lemma strict_bind {A B} (m : TlsStream.M A) (k : A -> TlsStream.M B) : keeps_strict m -> (forall a, keeps_strict (k a)) -> keeps_strict (TlsStream.bind m k).
Proof.
  intros Hm Hk n st r st' Hs. unfold TlsStream.bind. destruct (m st) as [[[a|e] st1]| | | |] eqn:E; try done.
  - eapply Hm in E; [|done]. by eapply Hk.
  - intros [= <- <-]. by eapply Hm.
Qed.

(** Code that does not touch the engine, and one step of it. *)
Lemma strict_still {A} (m : TlsStream.M A) : (forall st r st', m st = Ret (r, st') -> engine_ st' = engine_ st) -> keeps_strict m.
Proof. intros Hm n st r st' Hs Hr. by rewrite (Hm _ _ _ Hr). Qed.

Lemma strict_engine {A} (f : tls_engine_t -> A * tls_engine_t) op : (forall e, (f e).2 = run_op e op) -> keeps_strict (on_engine f).
Proof.
  intros Hf n st r st' Hs. unfold on_engine. specialize (Hf (engine_ st)). destruct (f (engine_ st)) as [a e]. intros [= <- <-]. simpl in *. subst e.
  by apply run_strict.
Qed.

Lemma strict_if {A} (b : bool) (m1 m2 : TlsStream.M A) : keeps_strict m1 -> keeps_strict m2 -> keeps_strict (if b then m1 else m2).
Proof. by destruct b. Qed.

Ltac still := apply strict_still; intros ? ? ?; unfold of_expected, get, TlsStream.ret, TlsStream.fail, starved, sock_send, sock_recv, maybe_grow_io_bite;
  repeat case_match; intros; by simplify_eq/=.

Lemma strict_send_piece fuel d : keeps_strict (send_piece fuel d).
Proof.
  revert d. induction fuel as [|fuel IH]; intros [|b d]; cbn [send_piece]; try still. apply strict_bind; [still|]. intros w. apply strict_if; [still|apply IH].
Qed.

Lemma strict_flush : keeps_strict flush_output.
Proof.
  assert (Hl : forall fuel, keeps_strict (flush_loop fuel)).
  { induction fuel as [|fuel IH]; cbn [flush_loop]; (apply strict_bind; [still|intros p]); (apply strict_if; [|still]); [still|].
    apply strict_bind; [still|]. intros bite. apply strict_bind; [by apply (strict_engine _ (OpTakeOutput bite))|]. intros d. apply strict_bind; [apply strict_send_piece|]. intros [].
    apply strict_bind; [apply strict_if; still|]. intros []. exact IH. }
  intros n st r st'. unfold flush_output. apply Hl.
Qed.

Lemma strict_fill : keeps_strict fill_input.
Proof.
  apply strict_bind; [still|]. intros bite. apply strict_bind; [still|]. intros d. case_bool_decide; [still|].
  apply strict_bind; [by apply (strict_engine _ (OpFeedInput d))|]. intros r. apply strict_bind; [destruct r; still|]. intros []. apply strict_if; still.
Qed.

Lemma strict_handshake fuel : keeps_strict (handshake fuel).
Proof.
  induction fuel as [|fuel IH]; [still|]. cbn [handshake]. apply strict_bind; [apply strict_flush|]. intros [].
  apply strict_bind; [by apply (strict_engine _ OpHandshake)|]. intros s. destruct s; try still; try exact IH.
  - apply strict_bind; [apply strict_flush|]. intros []. apply strict_bind; [apply strict_fill|]. intros []. exact IH.
  - apply strict_bind; [still|]. intros e. still.
Qed.

(** The peer of a transport presented a certificate that was verified, with
    [name] as the host it has to be for. *)
Definition verified_peer (name : option bytes) (t : transport_t) : Prop :=
  exists st, t = Tls st /\ handshaken_ (engine_ st) = true /\ verify_result_ok (ssl (engine_ st)) = true /\ expected_host (ssl (engine_ st)) = name.

Lemma start_tls_verified c name s t :
  vw_verify (view c) = SSL_VERIFY_PEER -> start_tls (Some (Some c)) Client name (Plain s) = Ret (Ok tt, t) -> verified_peer (host_asked (c_str name)) t.
Proof.
  intros Hv. unfold start_tls. destruct (create (Some c) Client name) as [e|] eqn:Hc; [|done]. pose proof (create_strict _ _ _ Hv Hc) as Hs.
  apply create_quiet in Hc as (_ & Hf & _). destruct (handshake (enough (new_stream s e)) (new_stream s e)) as [[[[]|x] st]| | | |] eqn:Hh; try done.
  intros [= <-]. destruct (handshake_settles _ (new_stream s e) _ Hf Hh) as [Hd Hk]. eapply strict_handshake in Hh as (Hsv & Hm & Hn); [|exact Hs].
  exists st. split_and!; [done|done| |done]. destruct Hk as [Hk|[Hk|Hk]]; congruence.
Qed.

Lemma dial_verified s en connected c name f1 f2 t closed :
  vw_verify (view c) = SSL_VERIFY_PEER -> dial s en connected (Some (Some c)) name f1 f2 = Ret (Ok t, closed) -> verified_peer (host_asked (c_str name)) t.
Proof.
  intros Hv. unfold dial, new_socket. destruct (fd_ s <? 0) eqn:Hfd; [done|]. cbn [bind_out native_fd]. rewrite Hfd. destruct connected as [[]|e]; [|by destruct (abandon (Plain s))].
  destruct (start_tls (Some (Some c)) Client name (Plain s)) as [[[[]|e] t']| | | |] eqn:Hs; try done; cbn [bind_out].
  - intros [= <- _]. by eapply start_tls_verified.
  - by destruct (abandon t').
Qed.
End Verified.
