(* ===== verification/ParserBody.v ===== *)
(** * The parser inside a body

    What llhttp is documented to do between the end of the header section and
    the end of the message, as a class of laws on the parameter, and what the
    parser answers then: runs of the window, the end of the message, or an
    error, never touching the header section. *)

From stdpp Require Import prelude list list_numbers strings.
From Stdlib Require Import ZArith Lia.
From S2P Require Import Prelude Protocol Buffer Headers Parser ParserFeed Transport.
Open Scope Z_scope.

(** ** What is documented of llhttp inside a body *)

(** A run from the middle of a body: body runs inside the window, none of
    them empty, trailer callbacks, the end of the message; a callback that
    pauses or fails ends the run. *)
Fixpoint body_tree {L} (mid : L -> Prop) (lo hi : Z) (t : ll_run L) : Prop :=
  match t with
  | LReturn HPE_OK _ l => mid l
  | LReturn (HPE_OTHER _) _ _ => True
  | LReturn _ _ _ => False
  | LCall c v k =>
      (exists pos l, k RetPaused = LReturn HPE_PAUSED pos l /\ (match pos with Some x => lo <= x <= hi | None => True end) /\
         match c with OnBody _ _ => mid l | _ => True end) /\
      (exists e pos l, k RetFail = LReturn (HPE_OTHER e) pos l) /\
      match c with
      | OnBody a n => lo <= a /\ 0 < n /\ a + n <= hi
      | OnHeaderField _ _ | OnHeaderFieldComplete | OnHeaderValue _ _ | OnHeaderValueComplete => in_trailer v = true
      | OnMessageComplete => True
      | _ => False
      end /\
      body_tree mid lo hi (k RetOk)
  end.

Class body_laws {L} (ops : llhttp_ops L) := {
  mid_body : L -> Prop;
  mid_execute : forall l off data, mid_body l -> body_tree mid_body off (off + size data) (llhttp_execute ops l off data);
  mid_resume : forall l, mid_body l -> mid_body (llhttp_resume ops l)
}.

Section Reads.
Context {L : Type} (ops : llhttp_ops L) `{!body_laws ops}.
Implicit Types p : parser_t L.

(** No trailers are kept, no sink takes the body, no header is half read. *)
Record plain p : Prop := {
  pn_trailers : max_trailers (limits_ p) = 0;
  pn_pend : Parser.pending_ (pend_ p) = blank_ref /\ pending_valid_ (pend_ p) = false;
  pn_sink : body_sink_ (body_ p) = None;
  pn_upgrade : upgrade_ (facts_ p) = false;
  pn_store : exists s, store_ p = Some s
}.

(** What the callbacks of a body leave alone. *)
Definition unmoved p p' : Prop :=
  feedst_ p' = feedst_ p /\ (forall s, store_ p = Some s -> exists s', store_ p' = Some s' /\ head_ s' = head_ s) /\ facts_ p' = facts_ p.

Lemma unmoved_trans p1 p2 p3 : unmoved p1 p2 -> unmoved p2 p3 -> unmoved p1 p3.
Proof.
  intros (A1 & A2 & A3) (B1 & B2 & B3). unfold unmoved. rewrite B1, B3. split_and!; try done.
  intros s Hs. destruct (A2 s Hs) as (s' & Hs' & <-). by apply B2.
Qed.

Definition trailer_call (c : ll_callback) : bool :=
  match c with OnHeaderField _ _ | OnHeaderFieldComplete | OnHeaderValue _ _ | OnHeaderValueComplete => true | _ => false end.

(** A trailer callback does nothing. *)
Lemma trailer_callback c v p :
  plain p -> in_trailer v = true ->
  trailer_call c = true ->
  exists p', callback c v p = Some (p', RetOk) /\ plain p' /\ unmoved p p' /\ body_ p' = body_ p /\ signals_ p' = signals_ p.
Proof.
  intros [H1 [H2 H2'] H3 H3' (s & Hs)] Hv Hc.
  assert (Hi : ignored p v = true) by (unfold ignored; by rewrite Hv, H1).
  destruct c; try done; cbn [callback]; unfold on_header_field, on_header_value, on_header_field_complete, on_header_value_complete, finish_header;
    rewrite ?Hi, ?H2', ?Hs; simpl; rewrite ?H2'; simpl; eexists; (split; [done|]); (split; [|split; [|by split]]).
  all: try (constructor; simpl; eauto; fail). all: unfold unmoved; simpl; split_and!; try done; intros s0 Hs0; simplify_eq; eauto.
Qed.

(** How a run from the middle of a body ends. *)
Inductive ended (lo hi : Z) (p p' : parser_t L) : ll_errno -> option Z -> Prop :=
| end_more x : body_ p' = body_ p -> mid_body (state_ p') -> signals_ p' = signals_ p -> ended lo hi p p' HPE_OK x
| end_done x : body_ p' = body_ p -> message_done_ (signals_ p') = true -> (match x with Some y => lo <= y <= hi | None => True end) ->
    ended lo hi p p' HPE_PAUSED x
| end_run x a n : body_ p' = mk_bodyt None (Some (a, n)) (u64 (body_received_ (body_ p) + n)) -> mid_body (state_ p') ->
    signals_ p' = mk_signals (headers_signal_ (signals_ p)) (message_done_ (signals_ p)) true ->
    lo <= a -> 0 < n -> a + n <= hi -> (match x with Some y => lo <= y <= hi | None => True end) -> ended lo hi p p' HPE_PAUSED x
| end_bad c x : ended lo hi p p' (HPE_OTHER c) x.

Lemma drive_ended t lo hi : 0 <= lo -> hi < 2 ^ 32 -> forall p,
  body_tree mid_body lo hi t -> plain p ->
  exists p' err x, drive t p = Some (p', err, x) /\ plain p' /\ unmoved p p' /\ ended lo hi p p' err x.
Proof.
  intros Hlo Hhi. induction t as [e x l|c v k IH]; intros p Ht Hp; simpl in Ht |- *.
  - exists (set_state p l), e, x. split; [done|]. split; [by destruct Hp; constructor|].
    split; [split_and!; eauto|]. destruct e; try done; by constructor.
  - destruct Ht as ((pos & l & Hpause & Hpos & Hmid) & (ec & pos' & l' & Hfail) & Hc & Hok).
    destruct (trailer_call c) eqn:Et.
    { assert (Hv : in_trailer v = true) by (by destruct c). destruct (trailer_callback c v p Hp Hv Et) as (p1 & E & Hp1 & U & B & S).
      rewrite E. destruct (IH RetOk p1 Hok Hp1) as (p' & err & x & D & Hp' & U' & En). exists p', err, x.
      split; [done|]. split; [done|]. split; [by eapply unmoved_trans|]. destruct En; rewrite ?B, ?S in *; econstructor; eauto; congruence. }
    destruct c; try done; cbn [callback].
    + unfold on_body. destruct Hp as [H1 H2 H3 H3' (s & Hs)]. cbn [store_ Parser.set_body limits_]. rewrite Hs.
      rewrite H3. destruct (_ <? _).
      * rewrite Hfail. eexists _, _, _. split; [done|]. split; [constructor; simpl; eauto|]. split; [split_and!; simpl; eauto|constructor].
      * rewrite Hpause. eexists _, _, _. split; [done|]. split; [constructor; simpl; eauto|]. split; [split_and!; simpl; eauto|].
        destruct Hc as (? & ? & ?). rewrite u32_small by lia. by eapply end_run.
    + unfold on_message_complete. rewrite Hpause. eexists _, _, _. split; [done|].
      destruct Hp as [H1 H2 H3 H3' H4]. split; [constructor; simpl; eauto|]. split; [split_and!; simpl; eauto|by apply end_done].
Qed.
(** The parser stands in a window of the receive buffer. *)
Record windowed p (end_ : Z) : Prop := {
  wd_feed : exists pos, feed_ (feedst_ p) = Some (pos, end_) /\ 0 <= pos <= end_;
  wd_store : exists s, store_ p = Some s /\ end_ <= Head.capacity (head_ s);
  wd_small : end_ < 2 ^ 32
}.

Definition same_head p p' : Prop := forall s, store_ p = Some s -> exists s', store_ p' = Some s' /\ Head.block (head_ s') = Head.block (head_ s) /\
  Head.w_ (head_ s') = Head.w_ (head_ s) /\ Head.r_ (head_ s') = Head.r_ (head_ s).

(** What a call of llhttp from the middle of a body may answer. *)
Definition answers_body p p' (end_ : Z) (r : result_t) : Prop :=
  match r with
  | NeedMore => body_ p' = body_ p /\ mid_body (state_ p')
  | BodyPaused => mid_body (state_ p') /\ exists a n, body_ p' = mk_bodyt None (Some (a, n)) (u64 (body_received_ (body_ p) + n)) /\
      0 <= a /\ 0 < n /\ a + n <= end_
  | MessageReady => body_ p' = body_ p
  | HeadersReady | UpgradeReady => False
  | PError => True
  end.

Lemma advance_windowed p pos end_ x : windowed p end_ -> 0 <= x <= end_ -> windowed (advance_to p pos end_ x) end_.
Proof. intros [_ H2 H3] Hx. constructor; simpl; eauto. Qed.

Lemma set_state_windowed p l end_ : windowed p end_ -> windowed (set_state p l) end_.
Proof. intros [H1 H2 H3]. by constructor. Qed.

Lemma end_message_head p : same_head p (end_message p) /\ body_ (end_message p) = body_ p.
Proof.
  unfold end_message, same_head. destruct (store_ p) as [s|] eqn:E; [|done]. split; [|done]. intros ? [= <-]. by eexists.
Qed.

Lemma plain_frame p p' :
  plain p -> limits_ p' = limits_ p -> pend_ p' = pend_ p -> facts_ p' = facts_ p -> body_sink_ (body_ p') = None -> same_head p p' -> plain p'.
Proof.
  intros [H1 H2 H3 H3' (s & Hs)] E1 E2 E2' E3 E4. destruct (E4 s Hs) as (s' & Hs' & _).
  constructor; rewrite ?E1, ?E2, ?E2'; eauto.
Qed.

Lemma classify_body p pos end_ err x p0 :
  plain p -> windowed p end_ -> 0 <= pos <= end_ -> ended pos end_ p0 p err x -> signals_ p0 = no_signals -> body_run_ (body_ p0) = None ->
  let '(p', r) := classify ops p pos end_ err x in
  plain p' /\ windowed p' end_ /\ same_head p p' /\ answers_body p0 p' end_ r.
Proof.
  intros Hp Hw Hpos En Hs Hr. assert (Hrefl : forall q, store_ q = store_ p -> same_head p q).
  { intros q Hq s Hss. rewrite Hq, Hss. by eexists. }
  destruct En as [x Hb Hm Hsig|x Hb Hd Hx|x a n Hb Hm Hsig Ha Hn Han Hx|c x]; unfold classify.
  - split_and!; [by destruct Hp; constructor|apply advance_windowed; [done|lia]|by apply Hrefl|done].
  - assert (0 <= default pos x <= end_) by (destruct x; simpl; lia). cbn [signals_ set_state advance_to set_feed]. rewrite Hd.
    set (q := set_state _ _). destruct (end_message_head q) as [Hq Hqb]. assert (same_head p (end_message q)) by exact Hq.
    split_and!; [| |done|].
    + eapply plain_frame; [exact Hp| | | | |done]; unfold end_message; destruct (store_ q); try done; apply (pn_sink _ Hp).
    + assert (windowed q end_) as [W1 (s & W2 & W3) W4] by (apply set_state_windowed, advance_windowed; done).
      unfold end_message. rewrite W2. constructor; simpl; eauto.
    + assert (upgrade_ (facts_ q) = false) as -> by apply (pn_upgrade _ Hp). simpl. by rewrite Hqb.
  - cbn [signals_ set_state advance_to set_feed]. rewrite Hsig, Hs. simpl. assert (0 <= default pos x <= end_) by (destruct x; simpl; lia).
    split_and!; [by destruct Hp; constructor|by apply set_state_windowed, advance_windowed|by apply Hrefl|by apply mid_resume|].
    exists a, n. split_and!; [done|lia|done|done].
  - unfold latch_error. destruct (is_error _); (split; [by destruct Hp; constructor|split; [by destruct Hw; constructor|split; [by apply Hrefl|done]]]).
Qed.

Lemma pump_body p end_ :
  plain p -> windowed p end_ -> mid_body (state_ p) -> body_run_ (body_ p) = None ->
  exists p' r, pump ops p = Some (p', r) /\ plain p' /\ windowed p' end_ /\ same_head p p' /\ answers_body p p' end_ r.
Proof.
  intros Hp Hw Hm Hr. pose proof Hw as [(pos & Hf & Hpos) (s & Hs & Hcap) Hsm]. unfold pump. rewrite Hf, Hs.
  destruct ((end_ <=? pos) && zero_fed_ (feedst_ p)) eqn:Ez.
  { eexists _, _. split; [done|]. split; [by destruct Hp; constructor|]. split; [by constructor; simpl; eauto|]. split; [|done].
    intros ? Hs'. by eexists. }
  set (p0 := set_signals _ no_signals). assert (Hp0 : plain p0) by (by destruct Hp; constructor).
  assert (Hw0 : windowed p0 end_) by (constructor; simpl; eauto).
  assert (Hsz : pos + size (Head.view (head_ s) pos (end_ - pos)) = end_).
  { unfold Head.view. rewrite size_view_at; unfold Head.capacity in *; lia. }
  pose proof (mid_execute (state_ p0) pos (Head.view (head_ s) pos (end_ - pos)) Hm) as Ht. rewrite Hsz in Ht.
  destruct (drive_ended _ pos end_ (proj1 Hpos) Hsm p0 Ht Hp0) as (p1 & err & x & -> & Hp1 & (U1 & U2 & U3) & En).
  assert (Hw1 : windowed p1 end_).
  { destruct Hw0 as [A (s0 & Hs0 & B) C]. destruct (U2 _ Hs0) as (s1 & Hs1 & Hh). constructor; [by rewrite U1|exists s1; by rewrite Hh|done]. }
  pose proof (classify_body p1 pos end_ err x p0 Hp1 Hw1 Hpos En eq_refl Hr) as H.
  destruct (classify ops p1 pos end_ err x) as [p' r]. destruct H as (G1 & G2 & G3 & G4). exists p', r. split; [done|]. split_and!; try done.
  intros s2 Hs2. destruct (U2 s2 Hs2) as (s3 & Hs3 & Hh3). destruct (G3 s3 Hs3) as (s4 & Hs4 & B1 & B2 & B3). exists s4. by rewrite B1, B2, B3, Hh3.
Qed.
End Reads.
