(* ===== verification/Url.v ===== *)
(** * URLs

    src/include/cornet/http/common/url.h and src/src/http/common/url.cc: parsing an
    absolute url into views of the caller's bytes, rebasing the views onto
    a copy, and resolving a Location value.  A view is the offset of its
    first byte in the url together with its bytes. *)

From stdpp Require Import prelude list list_numbers strings.
From Stdlib Require Import ZArith Lia.
From S2P Require Import Prelude Protocol Serializer.
Open Scope Z_scope.

Inductive scheme_t := Http | Https.
#[global] Instance scheme_t_eq_dec : EqDecision scheme_t.
Proof. solve_decision. Defined.

Definition default_port (s : scheme_t) : Z := match s with Https => 443 | Http => 80 end.
Definition scheme_name (s : scheme_t) : bytes := match s with Https => str "https" | Http => str "http" end.

(** ** Views and searches *)

Record sv := SV { sv_off : nat; sv_text : bytes }.
Definition sv_null : sv := SV 0 [].
Definition sv_substr (v : sv) (off n : nat) : sv := SV (sv_off v + off) (substr (sv_text v) off n).
Definition sv_from (v : sv) (off : nat) : sv := SV (sv_off v + off) (drop off (sv_text v)).
Definition sv_empty (v : sv) : bool := match sv_text v with [] => true | _ => false end.

(** [find_first_of] with the byte class [p]. *)
Fixpoint find_if (p : Z -> bool) (l : bytes) : option nat :=
  match l with
  | [] => None
  | c :: l => if p c then Some 0%nat else option_map S (find_if p l)
  end.
Definition find_char (c : Z) : bytes -> option nat := find_if (Z.eqb c).

(** [rfind(c)] *)
Fixpoint rfind_char (c : Z) (l : bytes) : option nat :=
  match l with
  | [] => None
  | x :: l => match rfind_char c l with
              | Some i => Some (S i)
              | None => if x =? c then Some 0%nat else None
              end
  end.

(** [find("://")] *)
Definition sep3 : bytes := [58; 47; 47].
Fixpoint find_sep (l : bytes) : option nat :=
  if bool_decide (take 3 l = sep3) then Some 0%nat
  else match l with [] => None | _ :: l => option_map S (find_sep l) end.

(** ** Parsing *)

Definition valid_host (host : bytes) : bool :=
  match host with
  | [] => false
  | _ => forallb (fun c => negb ((c <=? 0x20) || (0x7f <=? c)) &&
           negb ((c =? 47) || (c =? 92) || (c =? 63) || (c =? 35) || (c =? 64))) host
  end.

Fixpoint port_digits (text : bytes) (v : Z) : option Z :=
  match text with
  | [] => Some v
  | c :: text => if (c <? 48) || (57 <? c) then None else port_digits text (u32 (v * 10 + (c - 48)))
  end.
Definition parse_port (text : bytes) : expected Z :=
  if (size text =? 0) || (5 <? size text) then Unexpected (http_error BadUrl)
  else match port_digits text 0 with
       | None => Unexpected (http_error BadUrl)
       | Some v => if (v =? 0) || (0xffff <? v) then Unexpected (http_error BadUrl) else Ok v
       end.

Record url_t := mk_url {
  raw_ : bytes;
  authority_ : sv; host_ : sv; userinfo_ : sv; path_ : sv; query_ : sv;
  scheme_ : scheme_t; port_ : Z; explicit_port_ : bool; ipv6_ : bool
}.

Definition is_ctl (c : Z) : bool := (c <=? 0x20) || (c =? 0x7f).

(** The host, whether it is bracketed, and the text after the port colon. *)
Definition split_host (authority : sv) : expected (sv * bool * option bytes) :=
  match sv_text authority with
  | 91 :: _ =>
      match find_char 93 (sv_text authority) with
      | None => Unexpected (http_error BadUrl)
      | Some close =>
          let host := sv_substr authority 1 (close - 1) in
          match drop (close + 1) (sv_text authority) with
          | [] => Ok (host, true, None)
          | c :: port => if c =? 58 then Ok (host, true, Some port) else Unexpected (http_error BadUrl)
          end
      end
  | _ =>
      match rfind_char 58 (sv_text authority) with
      | Some colon => Ok (sv_substr authority 0 colon, false, Some (drop (colon + 1) (sv_text authority)))
      | None => Ok (authority, false, None)
      end
  end.

(** The path and the query of what follows the authority. *)
Definition split_tail (tail : sv) : sv * sv :=
  if sv_empty tail then (sv_null, sv_null)
  else
    let pq := match find_char 35 (sv_text tail) with
              | None => tail | Some frag => sv_substr tail 0 frag end in
    match find_char 63 (sv_text pq) with
    | None => (pq, sv_null)
    | Some q => (sv_substr pq 0 q, sv_from pq (q + 1))
    end.

Definition is_delim (c : Z) : bool := (c =? 47) || (c =? 63) || (c =? 35).

Definition parse (raw : bytes) : expected url_t :=
  if existsb is_ctl raw then Unexpected (http_error BadUrl)
  else match find_sep raw with
  | None | Some O => Unexpected (http_error BadUrl)
  | Some sep =>
      let scheme := take sep raw in
      match (if iequals scheme (str "http") then Some Http
             else if iequals scheme (str "https") then Some Https else None) with
      | None => Unexpected (http_error UnsupportedScheme)
      | Some s =>
          let rest := SV (sep + 3) (drop (sep + 3) raw) in
          let split := find_if is_delim (sv_text rest) in
          let authority := match split with None => rest | Some i => sv_substr rest 0 i end in
          let tail := match split with None => sv_null | Some i => sv_from rest i end in
          let '(userinfo, authority) :=
            match rfind_char 64 (sv_text authority) with
            | Some at_ => (sv_substr authority 0 at_, sv_from authority (at_ + 1))
            | None => (sv_null, authority)
            end in
          if sv_empty authority then Unexpected (http_error BadUrl)
          else match split_host authority with
          | Unexpected e => Unexpected e
          | Ok (host, v6, port_text) =>
              if negb (valid_host (sv_text host)) then Unexpected (http_error BadUrl)
              else
                match (match port_text with
                       | None => Ok (default_port s, false)
                       | Some t => match parse_port t with
                                   | Ok p => Ok (p, true) | Unexpected e => Unexpected e end
                       end) with
                | Unexpected e => Unexpected e
                | Ok (port, explicit) =>
                    let '(path, query) := split_tail tail in
                    Ok (mk_url raw authority host userinfo path query s port explicit v6)
                end
          end
      end
  end.

Definition same_origin (a b : url_t) : bool :=
  bool_decide (scheme_ a = scheme_ b) && (port_ a =? port_ b) &&
  iequals (sv_text (host_ a)) (sv_text (host_ b)).

(** [rebase]; [None] is the failed assertion on the length. *)
Definition shift (storage : bytes) (v : sv) : sv :=
  if sv_empty v then sv_null else SV (sv_off v) (substr storage (sv_off v) (length (sv_text v))).
Definition rebase (u : url_t) (storage : bytes) : option url_t :=
  if negb (length storage =? length (raw_ u))%nat then None
  else Some (mk_url storage (shift storage (authority_ u)) (shift storage (host_ u))
    (shift storage (userinfo_ u)) (shift storage (path_ u)) (shift storage (query_ u))
    (scheme_ u) (port_ u) (explicit_port_ u) (ipv6_ u)).

(** The pieces [write_absolute_url] puts, in order. *)
Definition absolute_pieces (base : url_t) (location : bytes) : list bytes :=
  match find_sep location with
  | Some _ => [location]
  | None =>
      if bool_decide (take 2 location = [47; 47]) then [scheme_name (scheme_ base); [58]; location]
      else
        [scheme_name (scheme_ base); sep3; sv_text (authority_ base)] ++
        (if bool_decide (take 1 location = [47]) then [location]
         else let dir := sv_text (path_ base) in
              [match rfind_char 47 dir with None => [47] | Some i => take (i + 1) dir end; location])
  end.

(** [put] until one does not fit. *)
Fixpoint put_pieces (cap : Z) (ps : list bytes) (out : bytes) : option bytes :=
  match ps with
  | [] => Some out
  | p :: ps => if cap <? size out + size p then None else put_pieces cap ps (out ++ p)
  end.

Definition write_absolute_url (base : url_t) (location : bytes) (cap : Z) : expected bytes :=
  match location with
  | [] => Unexpected (http_error BadUrl)
  | _ => match put_pieces cap (absolute_pieces base location) [] with
         | Some out => Ok out
         | None => Unexpected (http_error OutputOverflow)
         end
  end.

Definition ok_url (e : expected url_t) : option url_t := match e with Ok u => Some u | _ => None end.

Definition sample_url : bytes := str "https://u:p@Example.com:8443/a/b?x=1#f".
Definition sample_parsed : url_t := default (mk_url [] sv_null sv_null sv_null sv_null sv_null Http 0 false false)
  (ok_url (parse sample_url)).

(** ** Searches *)

Lemma find_if_some p l i :
  find_if p l = Some i ->
  exists c, drop i l = c :: drop (S i) l /\ p c = true /\ forallb (fun c => negb (p c)) (take i l) = true.
Proof.
  revert i. induction l as [|x l IH]; intros i; simpl; [done|]. destruct (p x) eqn:Hx.
  - intros [= <-]. by exists x.
  - destruct (find_if p l) as [j|]; [|done]. intros [= <-].
    destruct (IH j eq_refl) as (c & H1 & H2 & H3). exists c. simpl. rewrite Hx. by rewrite H1 at 1.
Qed.

Lemma find_if_none p l : find_if p l = None <-> forallb (fun c => negb (p c)) l = true.
Proof.
  induction l as [|x l IH]; simpl; [done|]. destruct (p x); simpl; [done|].
  rewrite <- IH. by destruct (find_if p l).
Qed.

Lemma rfind_some c l i :
  rfind_char c l = Some i -> drop i l = c :: drop (S i) l /\ c ∉ drop (S i) l.
Proof.
  revert i. induction l as [|x l IH]; intros i; simpl; [done|].
  assert (rfind_char c l = None -> c ∉ l) as Hnone.
  { clear. induction l as [|y l IH]; simpl; [set_solver|]. destruct (rfind_char c l); [done|].
    destruct (Z.eqb_spec y c); [done|]. set_solver. }
  destruct (rfind_char c l) as [j|].
  - intros [= <-]. by apply IH.
  - destruct (Z.eqb_spec x c) as [->|]; [|done]. intros [= <-]. simpl. rewrite drop_0. auto.
Qed.

Lemma rfind_none c l : rfind_char c l = None <-> c ∉ l.
Proof.
  induction l as [|x l IH]; simpl; [split; [set_solver|done]|].
  destruct (rfind_char c l) as [j|].
  - split; [done|]. intros Hn. destruct IH as [_ IH]. discriminate IH. set_solver.
  - destruct IH as [IH _]. specialize (IH eq_refl). destruct (Z.eqb_spec x c) as [->|]; set_solver.
Qed.

Lemma find_sep_some l i : find_sep l = Some i -> drop i l = sep3 ++ drop (i + 3) l.
Proof.
  revert i. induction l as [|x l IH]; intros i; cbn [find_sep].
  - by case_bool_decide.
  - case_bool_decide as H.
    + intros [= <-]. rewrite drop_0, Nat.add_0_l, <- H. by rewrite take_drop.
    + destruct (find_sep l) as [j|]; [|done]. intros [= <-]. simpl. by apply IH.
Qed.

(** A separator right after a run without colons is the first one. *)
Lemma find_sep_first s l : 58 ∉ s -> find_sep (s ++ sep3 ++ l) = Some (length s).
Proof.
  induction s as [|x s IH]; intros Hs; [by destruct l|].
  cbn [app find_sep]. apply not_elem_of_cons in Hs as [Hx Hs].
  rewrite bool_decide_eq_false_2; [by rewrite IH|]. destruct (s ++ sep3 ++ l) as [|y [|z r]]; intros [=]; congruence.
Qed.

Lemma take_drop_cons {A} (l : list A) i c :
  drop i l = c :: drop (S i) l -> l = take i l ++ c :: drop (S i) l.
Proof. intros H. rewrite <- H. by rewrite take_drop. Qed.

(** ** Views stay inside the url *)

Definition within (raw : bytes) (v : sv) : Prop := exists k, sv_text v = take k (drop (sv_off v) raw).

Lemma within_null raw : within raw sv_null.
Proof. by exists 0%nat. Qed.

Lemma within_substr raw v off n : within raw v -> within raw (sv_substr v off n).
Proof.
  intros [k Hk]. exists (n `min` (k - off))%nat. unfold sv_substr, substr. simpl. rewrite Hk.
  rewrite skipn_firstn_comm, take_take, drop_drop. done.
Qed.

Lemma within_from raw v off : within raw v -> within raw (sv_from v off).
Proof.
  intros [k Hk]. exists (k - off)%nat. unfold sv_from. simpl. rewrite Hk.
  by rewrite skipn_firstn_comm, drop_drop.
Qed.
#[local] Hint Resolve within_null within_substr within_from : cornet.

Lemma shift_same raw v : within raw v -> sv_text (shift raw v) = sv_text v.
Proof.
  intros [k Hk]. unfold shift. destruct (sv_empty v) eqn:E.
  { unfold sv_empty in E. by destruct (sv_text v). }
  cbn [sv_text]. unfold substr. rewrite Hk, length_take.
  destruct (decide (k <= length (drop (sv_off v) raw))%nat).
  - by rewrite Nat.min_l.
  - by rewrite Nat.min_r, !take_ge by lia.
Qed.

(** What [parse] accepts, step by step. *)
Record parsed (raw : bytes) (u : url_t) (sep : nat) (auth tail : sv) (ui : option nat) (port : option bytes) : Prop := {
  pr_ctl : existsb is_ctl raw = false;
  pr_sep : find_sep raw = Some sep;
  pr_scheme : iequals (take sep raw) (scheme_name (scheme_ u)) = true;
  pr_split : let rest := SV (sep + 3) (drop (sep + 3) raw) in
     match find_if is_delim (sv_text rest) with
     | None => auth = rest /\ tail = sv_null
     | Some i => auth = sv_substr rest 0 i /\ tail = sv_from rest i
     end;
  pr_ui : rfind_char 64 (sv_text auth) = ui;
  pr_user : userinfo_ u = match ui with Some i => sv_substr auth 0 i | None => sv_null end;
  pr_auth : authority_ u = match ui with Some i => sv_from auth (i + 1) | None => auth end;
  pr_host : split_host (authority_ u) = Ok (host_ u, ipv6_ u, port);
  pr_valid : valid_host (sv_text (host_ u)) = true;
  pr_port : match port with
            | None => port_ u = default_port (scheme_ u) /\ explicit_port_ u = false
            | Some t => parse_port t = Ok (port_ u) /\ explicit_port_ u = true
            end;
  pr_tail : split_tail tail = (path_ u, query_ u);
  pr_raw : raw_ u = raw
}.

Lemma parse_inv raw u :
  parse raw = Ok u -> exists sep auth tail ui port, parsed raw u sep auth tail ui port.
Proof.
  unfold parse. destruct (existsb is_ctl raw) eqn:Hc; [done|].
  destruct (find_sep raw) as [[|sep']|] eqn:Hs; try done. set (sep := S sep') in *.
  destruct (if iequals (take sep raw) (str "http") then _ else _) as [s|] eqn:Hsch; [|done].
  set (rest := SV (sep + 3) (drop (sep + 3) raw)).
  set (auth := match find_if is_delim (sv_text rest) with None => rest | Some i => _ end).
  set (tail := match find_if is_delim (sv_text rest) with None => sv_null | Some i => _ end).
  destruct (match rfind_char 64 (sv_text auth) with Some _ => _ | None => _ end) as [user authority] eqn:Hui.
  destruct (sv_empty authority); [done|].
  destruct (split_host authority) as [[[host v6] port]|] eqn:Hh; [|done].
  destruct (valid_host (sv_text host)) eqn:Hv; [|done]. cbn [negb].
  destruct (match port with None => _ | Some t => _ end) as [[pn ex]|] eqn:Hp; [|done].
  destruct (split_tail tail) as [path query] eqn:Ht. intros [= <-].
  exists sep, auth, tail, (rfind_char 64 (sv_text auth)), port. split; simpl; try done.
  - destruct (iequals (take sep raw) (str "http")) eqn:E1; [by simplify_eq|].
    destruct (iequals (take sep raw) (str "https")) eqn:E2; by simplify_eq.
  - unfold auth, tail, rest. simpl. by destruct (find_if is_delim _).
  - by destruct (rfind_char 64 (sv_text auth)); simplify_eq.
  - by destruct (rfind_char 64 (sv_text auth)); simplify_eq.
  - destruct port as [t|]; [|by simplify_eq]. destruct (parse_port t); by simplify_eq.
Qed.

Lemma split_host_within raw a h v6 p :
  within raw a -> split_host a = Ok (h, v6, p) -> within raw h.
Proof.
  intros Ha. unfold split_host. repeat case_match; intros; simplify_eq; auto with cornet.
Qed.

Lemma split_tail_within raw t p q : within raw t -> split_tail t = (p, q) -> within raw p /\ within raw q.
Proof.
  intros Ht. unfold split_tail. repeat case_match; intros; simplify_eq; auto 6 with cornet.
Qed.

Lemma parsed_within raw u sep auth tail ui port :
  parsed raw u sep auth tail ui port -> within raw auth /\ within raw tail.
Proof.
  intros [_ _ _ Hs _ _ _ _ _ _ _ _]. cbv zeta in Hs.
  assert (within raw (SV (sep + 3) (drop (sep + 3) raw))) as Hr.
  { exists (length (drop (sep + 3) raw)). simpl. by rewrite firstn_all. }
  destruct (find_if is_delim _); destruct Hs as [-> ->]; auto with cornet.
Qed.

(** Every view of a parsed url lies in its text, which has no control byte. *)
Lemma parse_views raw u :
  parse raw = Ok u ->
  raw_ u = raw /\ existsb is_ctl raw = false /\
  within raw (authority_ u) /\ within raw (userinfo_ u) /\ within raw (host_ u) /\
  within raw (path_ u) /\ within raw (query_ u).
Proof.
  intros H. apply parse_inv in H as (sep & auth & tail & ui & port & H).
  destruct (parsed_within _ _ _ _ _ _ _ H) as [Wa Wt].
  assert (within raw (authority_ u)) as W1 by (rewrite (pr_auth _ _ _ _ _ _ _ H); destruct ui; auto with cornet).
  assert (within raw (userinfo_ u)) as W2 by (rewrite (pr_user _ _ _ _ _ _ _ H); destruct ui; auto with cornet).
  pose proof (split_host_within _ _ _ _ _ W1 (pr_host _ _ _ _ _ _ _ H)) as W3.
  destruct (split_tail_within _ _ _ _ Wt (pr_tail _ _ _ _ _ _ _ H)) as [W4 W5].
  split; [apply H|]. split; [apply H|]. done.
Qed.

Lemma within_bytes raw v x : within raw v -> x ∈ sv_text v -> x ∈ raw.
Proof.
  intros [k ->] Hx. rewrite <- (take_drop (sv_off v) raw), elem_of_app. right.
  rewrite <- (take_drop k (drop (sv_off v) raw)), elem_of_app. by left.
Qed.

(** the views of a parsed url rebased onto a copy of its bytes read
    the same as the original ones, and nothing else of the url changes. *)
Theorem url_rebase_same raw u :
  parse raw = Ok u ->
  exists u', rebase u raw = Some u' /\
    sv_text (authority_ u') = sv_text (authority_ u) /\ sv_text (host_ u') = sv_text (host_ u) /\
    sv_text (userinfo_ u') = sv_text (userinfo_ u) /\ sv_text (path_ u') = sv_text (path_ u) /\
    sv_text (query_ u') = sv_text (query_ u) /\ same_origin u' u = true.
Proof.
  intros H. destruct (parse_views _ _ H) as (E & _ & W1 & W2 & W3 & W4 & W5).
  unfold rebase. rewrite E, Nat.eqb_refl. cbn [negb]. eexists. split; [done|].
  simpl. rewrite !shift_same by done. repeat split. unfold same_origin. simpl.
  rewrite shift_same by done. rewrite bool_decide_eq_true_2, Z.eqb_refl by done. simpl.
  rewrite iequals_fold. by apply bool_decide_eq_true.
Qed.

Lemma url_rebase_same_witness :
  exists u', rebase sample_parsed sample_url = Some u' /\ sv_text (host_ u') = str "Example.com".
Proof.
  destruct (url_rebase_same sample_url sample_parsed eq_refl) as (u' & H1 & _ & H2 & _).
  exists u'. split; [exact H1|]. rewrite H2. reflexivity.
Defined.

(** ** Reconstruction *)

Lemma split_host_text a h v6 p :
  split_host a = Ok (h, v6, p) ->
  sv_text a = (if v6 : bool then str "[" ++ sv_text h ++ str "]" else sv_text h) ++
              match p with Some t => str ":" ++ t | None => [] end.
Proof.
  unfold split_host. destruct (bool_decide (take 1 (sv_text a) = [91])) eqn:Hb.
  - apply bool_decide_eq_true in Hb. destruct (sv_text a) as [|c t] eqn:Ea; [done|]. simpl in Hb. simplify_eq.
    destruct (find_char 93 (91 :: t)) as [close|] eqn:Ef; [|done].
    apply find_if_some in Ef as (c & Hd & Hc & _). apply Z.eqb_eq in Hc as <-.
    assert (91 :: t = str "[" ++ substr (91 :: t) 1 (close - 1) ++ str "]" ++ drop (close + 1) (91 :: t)) as E.
    { destruct close as [|close]; [done|]. rewrite Nat.add_1_r. simpl in Hd |- *. rewrite Nat.sub_0_r.
      unfold substr. simpl. rewrite drop_0. f_equal. by apply take_drop_cons. }
    destruct (drop (close + 1) (91 :: t)) as [|c port] eqn:Ed; simpl in *.
    + intros [= <- <- <-]. simpl. rewrite Ea. by rewrite app_nil_r.
    + destruct (Z.eqb_spec c 58) as [->|]; [|done]. intros [= <- <- <-]. simpl. rewrite Ea.
      rewrite <- app_assoc. done.
  - apply bool_decide_eq_false in Hb.
    assert (forall A (x y : A), (match sv_text a with 91 :: _ => x | _ => y end) = y) as Hm.
    { intros A x y. destruct (sv_text a) as [|c t]; [done|]. destruct c as [|c|]; try done.
      repeat (destruct c as [c|c|]; try done). }
    rewrite Hm. destruct (rfind_char 58 (sv_text a)) as [colon|] eqn:Er; intros [= <- <- <-].
    + apply rfind_some in Er as [Hd _]. simpl. unfold substr. rewrite drop_0, Nat.add_1_r.
      by apply take_drop_cons.
    + by rewrite app_nil_r.
Qed.

Lemma split_tail_text t p q :
  split_tail t = (p, q) ->
  exists qs frag, sv_text t = sv_text p ++ qs ++ frag /\
    (qs = [] /\ sv_text q = [] \/ qs = str "?" ++ sv_text q) /\ (frag = [] \/ exists f, frag = str "#" ++ f).
Proof.
  intros H. unfold split_tail in H. destruct (sv_empty t) eqn:Ee.
  { simplify_eq. exists [], []. unfold sv_empty in Ee. destruct (sv_text t); [|done]. auto. }
  set (pq := match find_char 35 (sv_text t) with None => t | Some frag => sv_substr t 0 frag end) in *.
  assert (exists frag, sv_text t = sv_text pq ++ frag /\ (frag = [] \/ exists f, frag = str "#" ++ f))
    as (frag & Ht & Hf).
  { unfold pq. destruct (find_char 35 (sv_text t)) as [i|] eqn:E; [|exists []; by rewrite app_nil_r; auto].
    apply find_if_some in E as (c & Hd & Hc & _). apply Z.eqb_eq in Hc as <-.
    exists (35 :: drop (S i) (sv_text t)). split; [|right; by eexists].
    simpl. unfold substr. rewrite drop_0. by apply take_drop_cons. }
  destruct (find_char 63 (sv_text pq)) as [i|] eqn:E; simplify_eq.
  - apply find_if_some in E as (c & Hd & Hc & _). apply Z.eqb_eq in Hc as <-.
    exists (63 :: drop (S i) (sv_text pq)), frag. split; [|split; [right; simpl; by rewrite Nat.add_1_r|done]].
    rewrite Ht. simpl. unfold substr. rewrite drop_0. rewrite (take_drop_cons _ _ _ Hd) at 1.
    by rewrite <- app_assoc.
  - exists [], frag. auto.
Qed.

Lemma port_digits_spec text v w :
  0 <= v -> v < 10 ^ (5 - size text) -> size text <= 5 -> port_digits text v = Some w ->
  w = v * 10 ^ size text + dec_value text /\ Forall is_digit text.
Proof.
  revert v. induction text as [|c text IH]; intros v Hv Hb Hl; cbn [port_digits].
  { intros [= <-]. split; [|constructor]. unfold size. simpl. change (dec_value []) with 0. lia. }
  destruct ((c <? 48) || (57 <? c)) eqn:Hc; [done|]. apply orb_false_iff in Hc as [Hc1 Hc2].
  apply Z.ltb_ge in Hc1, Hc2. unfold size in *. cbn [length] in *. rewrite Nat2Z.inj_succ in *.
  assert (10 ^ (5 - Z.of_nat (length text)) = 10 * 10 ^ (5 - Z.succ (Z.of_nat (length text)))) as E.
  { rewrite <- Z.pow_succ_r by lia. f_equal. lia. }
  pose proof (Z.pow_le_mono_r 10 (5 - Z.of_nat (length text)) 5 ltac:(lia) ltac:(lia)).
  change (10 ^ 5) with 100000 in *.
  rewrite u32_small by lia. intros H1. apply IH in H1 as [-> Hd]; [|lia|lia|lia].
  split; [|constructor; [unfold is_digit; lia|done]].
  rewrite dec_value_cons. unfold size. rewrite Z.pow_succ_r by lia. lia.
Qed.

Lemma parse_port_spec t p :
  parse_port t = Ok p -> 1 <= p <= 65535 /\ dec_value t = p /\ Forall is_digit t /\ t <> [].
Proof.
  unfold parse_port. destruct ((size t =? 0) || (5 <? size t)) eqn:Hs; [done|].
  apply orb_false_iff in Hs as [Hs1 Hs2]. apply Z.eqb_neq in Hs1. apply Z.ltb_ge in Hs2.
  destruct (port_digits t 0) as [v|] eqn:E; [|done].
  destruct ((v =? 0) || (0xffff <? v)) eqn:Hv; [done|]. apply orb_false_iff in Hv as [Hv1 Hv2].
  apply Z.eqb_neq in Hv1. apply Z.ltb_ge in Hv2. intros [= ->].
  assert (0 <= size t) by (unfold size; lia).
  apply port_digits_spec in E as [-> Hd]; [|lia|apply Z.pow_pos_nonneg; lia|lia].
  pose proof (dec_value_nonneg t Hd). repeat split; try done; try lia. by intros ->.
Qed.

(** an accepted url is exactly its parts: scheme, "://", an optional
    userinfo with "@", the authority, the path, the query and a dropped
    fragment. The authority is the host, bracketed when IPv6, with the port
    when one was written; the host is free of control bytes, spaces and
    delimiters, and the port is in range and is the scheme's default when
    none was written. *)
Theorem url_parse_reconstruct raw u :
  parse raw = Ok u ->
  exists sch ui qs frag port,
    raw = sch ++ str "://" ++ ui ++ sv_text (authority_ u) ++ sv_text (path_ u) ++ qs ++ frag /\
    iequals sch (scheme_name (scheme_ u)) = true /\
    (ui = [] /\ sv_text (userinfo_ u) = [] \/ ui = sv_text (userinfo_ u) ++ str "@") /\
    (qs = [] /\ sv_text (query_ u) = [] \/ qs = str "?" ++ sv_text (query_ u)) /\
    (frag = [] \/ exists f, frag = str "#" ++ f) /\
    sv_text (authority_ u) =
      (if ipv6_ u then str "[" ++ sv_text (host_ u) ++ str "]" else sv_text (host_ u)) ++ port /\
    (if explicit_port_ u then exists t, port = str ":" ++ t /\ dec_value t = port_ u
     else port = [] /\ port_ u = default_port (scheme_ u)) /\
    1 <= port_ u <= 65535 /\ valid_host (sv_text (host_ u)) = true /\ existsb is_ctl raw = false.
Proof.
  intros H. apply parse_inv in H as (sep & auth & tail & ui & port & H). destruct H as [Hctl Hsep Hsch Hspl Hui Hus Hau Hh Hv Hp Ht _].
  destruct (split_tail_text _ _ _ Ht) as (qs & frag & Etail & Hqs & Hfr).
  apply split_host_text in Hh. apply find_sep_some in Hsep.
  assert (drop (sep + 3) raw = sv_text auth ++ sv_text tail) as Erest.
  { cbv zeta in Hspl. simpl in Hspl. destruct (find_if is_delim _) as [i|]; destruct Hspl as [-> ->]; simpl.
    - unfold substr. rewrite drop_0. symmetry. apply take_drop.
    - by rewrite app_nil_r. }
  exists (take sep raw), (match ui with Some i => take (i + 1) (sv_text auth) | None => [] end), qs, frag,
    (match port with Some t => str ":" ++ t | None => [] end).
  split; [|split; [done|split; [|split; [done|split; [done|split; [done|]]]]]].
  - rewrite <- (take_drop sep raw) at 1. rewrite Hsep, Erest, Etail, Hau. do 2 f_equal.
    destruct ui as [i|]; [|done]. simpl. rewrite !app_assoc. do 3 f_equal. symmetry. apply take_drop.
  - rewrite Hus. destruct ui as [i|]; [|auto]. right. apply rfind_some in Hui as [Hd _].
    simpl. unfold substr. rewrite drop_0, Nat.add_1_r. apply take_S_r.
    by rewrite <- (Nat.add_0_r i), <- lookup_drop, Hd.
  - destruct port as [t|].
    + destruct Hp as [Hp ->]. apply parse_port_spec in Hp as (Hr & Hd & _). split; [by exists t|]. done.
    + destruct Hp as [Hp ->]. rewrite Hp. split; [done|]. split; [destruct (scheme_ u); simpl; lia|done].
Qed.

Lemma url_parse_reconstruct_witness :
  parse sample_url = Ok sample_parsed /\ 1 <= port_ sample_parsed <= 65535.
Proof.
  assert (parse sample_url = Ok sample_parsed) as E by reflexivity. split; [exact E|].
  destruct (url_parse_reconstruct sample_url sample_parsed E) as (? & ? & ? & ? & ? & _ & _ & _ & _ & _ & _ & _ & H & _).
  exact H.
Defined.

(** ** Redirects *)

Lemma split_host_ext a b h v6 p :
  sv_text a = sv_text b -> split_host a = Ok (h, v6, p) ->
  exists h', split_host b = Ok (h', v6, p) /\ sv_text h' = sv_text h.
Proof.
  intros E. unfold split_host, sv_substr. rewrite E. intros H.
  repeat case_match; simplify_eq; eexists; split; try reflexivity; simpl; congruence.
Qed.

Lemma find_if_app p a c l :
  forallb (fun c => negb (p c)) a = true -> p c = true -> find_if p (a ++ c :: l) = Some (length a).
Proof.
  intros Ha Hc. induction a as [|x a IH]; simpl in *; [by rewrite Hc|].
  apply andb_true_iff in Ha as [Hx Ha]. apply negb_true_iff in Hx. rewrite Hx, IH by done. done.
Qed.

(** The authority has no delimiter and no "@", and is not empty. *)
Lemma authority_clean raw u sep auth tail ui port :
  parsed raw u sep auth tail ui port ->
  forallb (fun c => negb (is_delim c)) (sv_text (authority_ u)) = true /\
  64 ∉ sv_text (authority_ u) /\ sv_empty (authority_ u) = false /\
  existsb is_ctl (sv_text (authority_ u)) = false.
Proof.
  intros H. pose proof (parsed_within _ _ _ _ _ _ _ H) as [[k Hk] _].
  destruct H as [Hctl Hsep Hsch Hspl Hui Hus Hau Hh Hv Hp Ht _].
  assert (forallb (fun c => negb (is_delim c)) (sv_text auth) = true) as Hd.
  { cbv zeta in Hspl. destruct (find_if is_delim _) as [i|] eqn:E; destruct Hspl as [-> _].
    - apply find_if_some in E as (_ & _ & _ & E). simpl. unfold substr. by rewrite drop_0.
    - by apply find_if_none in E. }
  assert (forall (q : Z -> bool) l n, forallb q l = true -> forallb q (drop n l) = true) as Hfd.
  { intros q l n Hl. rewrite forallb_forall in *. intros x Hx. apply Hl.
    rewrite <- (firstn_skipn n l). apply in_or_app. by right. }
  split; [|split; [|split]].
  - rewrite Hau. destruct ui; [by apply Hfd|done].
  - rewrite Hau. destruct ui as [i|].
    + apply rfind_some in Hui as [_ Hn]. simpl. by rewrite Nat.add_1_r.
    + by apply rfind_none.
  - apply split_host_text in Hh. unfold sv_empty. rewrite Hh.
    unfold valid_host in Hv. destruct (sv_text (host_ u)); [done|]. by destruct (ipv6_ u).
  - apply not_true_iff_false. rewrite existsb_exists. intros (x & Hx & Hc).
    assert (In x raw) as Hin.
    { assert (In x (sv_text auth)) as Hx'.
      { rewrite Hau in Hx. destruct ui as [i|]; [|done]. simpl in Hx.
        rewrite <- (firstn_skipn (i + 1) (sv_text auth)). apply in_or_app. by right. }
      rewrite Hk in Hx'. rewrite <- (firstn_skipn (sv_off auth) raw). apply in_or_app. right.
      rewrite <- (firstn_skipn k (drop (sv_off auth) raw)). apply in_or_app. by left. }
    assert (existsb is_ctl raw = true); [|congruence]. apply existsb_exists. eauto.
Qed.

Lemma put_pieces_concat cap ps out :
  size out + size (concat ps) <= cap -> put_pieces cap ps out = Some (out ++ concat ps).
Proof.
  revert out. induction ps as [|p ps IH]; intros out; simpl; [by rewrite app_nil_r|].
  rewrite size_app. pose proof (size_nonneg (concat ps)). intros Hle.
  destruct (Z.ltb_spec cap (size out + size p)); [lia|]. rewrite IH, <- app_assoc; [done|].
  rewrite size_app. lia.
Qed.

(** Parsing a url put together from a scheme, a clean authority and a path. *)
Lemma parse_composed s (a : bytes) h v6 p (tl : bytes) pn ex :
  forallb (fun c => negb (is_delim c)) a = true -> 64 ∉ a -> a <> [] ->
  existsb is_ctl a = false -> existsb is_ctl tl = false ->
  split_host (SV 0 a) = Ok (h, v6, p) -> valid_host (sv_text h) = true ->
  (match p with
   | None => pn = default_port s /\ ex = false
   | Some t => parse_port t = Ok pn /\ ex = true end) ->
  exists u, parse (scheme_name s ++ sep3 ++ a ++ 47 :: tl) = Ok u /\
    scheme_ u = s /\ port_ u = pn /\ sv_text (host_ u) = sv_text h /\ sv_text (authority_ u) = a /\
    split_tail (SV (length (scheme_name s) + 3 + length a) (47 :: tl)) = (path_ u, query_ u).
Proof.
  intros Hd Hat Hne Hc1 Hc2 Hh Hv Hp. unfold parse.
  assert (existsb is_ctl (scheme_name s ++ sep3 ++ a ++ 47 :: tl) = false) as ->.
  { rewrite !existsb_app, Hc1. simpl. rewrite Hc2. by destruct s. }
  rewrite find_sep_first by (destruct s; apply (bool_decide_unpack _); reflexivity).
  assert (exists n, length (scheme_name s) = S n) as [n Hn] by (destruct s; by eexists).
  rewrite Hn, <- Hn. rewrite take_app_length.
  assert ((if iequals (scheme_name s) (str "http") then Some Http
    else if iequals (scheme_name s) (str "https") then Some Https else None) = Some s) as -> by by destruct s.
  assert (drop (length (scheme_name s) + 3) (scheme_name s ++ sep3 ++ a ++ 47 :: tl) = a ++ 47 :: tl) as Hdrop.
  { rewrite <- drop_drop, drop_app_length. done. }
  rewrite !Hdrop. cbn [sv_text]. rewrite (find_if_app is_delim) by done. unfold sv_substr, substr. cbn [sv_text sv_off].
  rewrite drop_0, take_app_length. assert (rfind_char 64 a = None) as -> by (by apply rfind_none).
  unfold sv_empty. cbn [sv_text]. destruct a as [|c a'] eqn:Ea; [done|]. rewrite <- Ea in *.
  edestruct (split_host_ext (SV 0 a) (SV (length (scheme_name s) + 3 + 0) a)) as (h' & -> & Hh'); [done|exact Hh|].
  rewrite Hh', Hv. cbn [negb]. unfold sv_from. cbn [sv_off sv_text]. rewrite drop_app_length.
  destruct (split_tail _) as [pp qq] eqn:Et.
  destruct p as [t|].
  - destruct Hp as [-> ->]. eexists. split; [done|]. simpl. repeat split; done.
  - destruct Hp as [-> ->]. eexists. split; [done|]. simpl. repeat split; done.
Qed.

(** an origin-relative Location resolved against a parsed url stays
    on that url's origin: when it fits and holds no "://", the url written
    for it parses, and has the same scheme, host and port. *)
Theorem redirect_same_origin raw base l cap :
  parse raw = Ok base -> existsb is_ctl l = false -> take 1 l <> [47] -> find_sep (47 :: l) = None ->
  size (concat (absolute_pieces base (47 :: l))) <= cap ->
  exists out u, write_absolute_url base (47 :: l) cap = Ok out /\ parse out = Ok u /\
    same_origin base u = true /\
    split_tail (SV (length out - length (47 :: l)) (47 :: l)) = (path_ u, query_ u).
Proof.
  intros H Hc Hl Hs Hcap. apply parse_inv in H as (sep & auth & tail & ui & port & H).
  destruct (authority_clean _ _ _ _ _ _ _ H) as (Hd & Hat & Hne & Hctl).
  unfold write_absolute_url. rewrite put_pieces_concat by (unfold size at 1; simpl; lia).
  rewrite app_nil_l. unfold absolute_pieces in *. rewrite Hs in *.
  rewrite bool_decide_eq_false_2 in * by (simpl; intros E; simplify_eq; destruct l; simplify_eq/=).
  rewrite bool_decide_eq_true_2 in * by (simpl; by rewrite take_0).
  edestruct (split_host_ext (authority_ base) (SV 0 (sv_text (authority_ base)))) as (h' & Hh' & Eh);
    [done|apply H|].
  destruct (parse_composed (scheme_ base) (sv_text (authority_ base)) h' (ipv6_ base) port l (port_ base) (explicit_port_ base))
    as (u & Hu & H1 & H2 & H3 & _ & H4); try done.
  - intros E. unfold sv_empty in Hne. by rewrite E in Hne.
  - rewrite Eh. apply H.
  - apply H.
  - eexists _, u. split; [done|]. cbn [app concat]. rewrite app_nil_r. split; [exact Hu|]. split.
    + unfold same_origin. rewrite H1, H2, H3, Eh, bool_decide_eq_true_2, Z.eqb_refl by done. simpl.
      rewrite iequals_fold. by apply bool_decide_eq_true.
    + rewrite <- H4. do 2 f_equal. unfold sep3. rewrite !length_app. simpl. lia.
Qed.

Lemma redirect_same_origin_witness :
  exists out u, write_absolute_url sample_parsed (str "/next?q=2") 128 = Ok out /\ parse out = Ok u /\
    same_origin sample_parsed u = true.
Proof.
  destruct (redirect_same_origin sample_url sample_parsed (str "next?q=2") 128) as (out & u & H1 & H2 & H3 & _);
    [reflexivity|reflexivity|discriminate|reflexivity|vm_compute; congruence|].
  exists out, u. split; [exact H1|]. split; [exact H2|exact H3].
Defined.

(** a Location whose query holds "://" is taken for absolute even
    when it is origin-relative: it is written without an authority, and the
    result does not parse. *)
Theorem redirect_query_url_rejected :
  write_absolute_url sample_parsed (str "/login?next=http://b/") 128 = Ok (str "/login?next=http://b/") /\
  parse (str "/login?next=http://b/") = Unexpected (http_error UnsupportedScheme).
Proof. split; reflexivity. Qed.
