(* ===== verification/Query.v ===== *)
(** * Query strings

    [query_t] of src/include/cornet/http/server/message.h and
    src/http/server/message.cc, and the split of a request target into path and
    query.  The views are byte lists; the iterator keeps its positions. *)

From stdpp Require Import prelude list.
From Stdlib Require Import ZArith Lia.
From S2P Require Import Prelude Url.
Open Scope nat_scope.

Record entry_t := mk_entry { key : bytes; value : bytes }.

(** [query_t::iterator] over [raw_]. *)
Record iterator_t := mk_it { pos_ : nat; next_ : nat; cur_ : entry_t }.

Definition no_entry : entry_t := mk_entry [] [].

Definition split_pair (pair : bytes) : entry_t :=
  match find_char 61 pair with
  | None => mk_entry pair []
  | Some eq => mk_entry (take eq pair) (drop (S eq) pair)
  end.

(** [advance] of an iterator at [pos]. *)
Definition advance (raw : bytes) (pos : nat) : iterator_t :=
  if length raw <? pos then mk_it pos pos no_entry
  else if pos =? length raw then mk_it (S (length raw)) (S (length raw)) no_entry
  else
    match find_char 38 (drop pos raw) with
    | None => mk_it pos (S (length raw)) (split_pair (drop pos raw))
    | Some n => mk_it pos (S (pos + n)) (split_pair (take n (drop pos raw)))
    end.

Definition begin (raw : bytes) : iterator_t := advance raw 0.
Definition at_end (raw : bytes) (it : iterator_t) : bool := pos_ it =? S (length raw).
Definition incr (raw : bytes) (it : iterator_t) : iterator_t := advance raw (next_ it).

(** A range-based [for]: the entries its body sees. *)
Fixpoint entries_from (fuel : nat) (raw : bytes) (it : iterator_t) : option (list entry_t) :=
  match fuel with
  | O => None
  | S fuel =>
      if at_end raw it then Some []
      else match entries_from fuel raw (incr raw it) with Some l => Some (cur_ it :: l) | None => None end
  end.
Definition entries (fuel : nat) (raw : bytes) : option (list entry_t) := entries_from fuel raw (begin raw).

Fixpoint get_from (fuel : nat) (raw : bytes) (k : bytes) (it : iterator_t) : option bytes :=
  match fuel with
  | O => None
  | S fuel =>
      if at_end raw it then Some []
      else if bool_decide (key (cur_ it) = k) then Some (value (cur_ it)) else get_from fuel raw k (incr raw it)
  end.
Definition get (fuel : nat) (raw k : bytes) : option bytes := get_from fuel raw k (begin raw).

(** [request_t::path] and [request_t::query] *)
Definition path (target : bytes) : bytes := match find_char 63 target with None => target | Some q => take q target end.
Definition query (target : bytes) : bytes :=
  match find_char 63 target with
  | None => []
  | Some q =>
      let rest := drop (S q) target in
      match find_char 35 rest with None => rest | Some h => take h rest end
  end.

(** ** The reference *)

(** The pieces between ampersands. *)
Fixpoint split_amp (l : bytes) : list bytes :=
  match l with
  | [] => [[]]
  | c :: l => if (38 =? c)%Z then [] :: split_amp l else match split_amp l with p :: ps => (c :: p) :: ps | [] => [[c]] end
  end.
(** A last piece that is empty does not count. *)
Fixpoint trim (ps : list bytes) : list bytes :=
  match ps with
  | [] => []
  | [[]] => []
  | p :: ps => p :: trim ps
  end.
Definition pairs (raw : bytes) : list entry_t := map split_pair (trim (split_amp raw)).
Definition first_value (k : bytes) (l : list entry_t) : bytes := default [] (value <$> head (filter (fun e => key e = k) l)).

Lemma split_amp_none l : find_char 38 l = None -> split_amp l = [l].
Proof.
  unfold find_char. induction l as [|c l IH]; cbn [find_if split_amp]; [done|]. destruct (38 =? c)%Z; [done|].
  destruct (find_if _ l); [done|]. intros _. by rewrite IH.
Qed.
Lemma split_amp_some l n : find_char 38 l = Some n -> split_amp l = take n l :: split_amp (drop (S n) l) /\ n < length l.
Proof.
  unfold find_char. revert n. induction l as [|c l IH]; intros n; cbn [find_if split_amp]; [done|]. destruct (38 =? c)%Z.
  - intros [= <-]. simpl. split; [done|lia].
  - destruct (find_if _ l) as [m|]; [|done]. intros [= <-]. destruct (IH m eq_refl) as [-> Hm]. simpl. split; [done|lia].
Qed.
Lemma trim_cons p ps : ps <> [] -> trim (p :: ps) = p :: trim ps.
Proof. intros H. destruct ps; [congruence|]. by destruct p. Qed.
Lemma split_amp_ne l : split_amp l <> [].
Proof. destruct l as [|c l]; cbn [split_amp]; [done|]. destruct (38 =? c)%Z; [done|]. by destruct (split_amp l). Qed.

(** The iterator at a position sees the pieces from there on. *)
Lemma entries_from_pairs fuel raw pos :
  pos <= length raw -> length raw - pos + 1 < fuel -> entries_from fuel raw (advance raw pos) = Some (pairs (drop pos raw)).
Proof.
  revert pos. induction fuel as [|fuel IH]; intros pos Hp Hf; [lia|]. unfold advance. destruct (Nat.ltb_spec (length raw) pos); [lia|].
  destruct (Nat.eqb_spec pos (length raw)) as [->|Hne].
  { rewrite drop_all. cbn [entries_from]. unfold at_end; simpl. by rewrite Nat.eqb_refl. }
  assert (Hd : drop pos raw <> []) by (intros Hd%(f_equal length); rewrite length_drop in Hd; simpl in Hd; lia).
  destruct (find_char 38 (drop pos raw)) as [n|] eqn:Hfind; cbn [entries_from]; unfold at_end, incr; cbn [pos_ next_ cur_].
  - destruct (Nat.eqb_spec pos (S (length raw))); [lia|]. destruct (split_amp_some _ _ Hfind) as [Hs Hn]. rewrite length_drop in Hn.
    rewrite IH by lia. unfold pairs. rewrite Hs, trim_cons by apply split_amp_ne. rewrite drop_drop. by replace (pos + S n) with (S (pos + n)) by lia.
  - destruct (Nat.eqb_spec pos (S (length raw))); [lia|]. unfold pairs. rewrite (split_amp_none _ Hfind).
    replace (entries_from fuel raw (advance raw (S (length raw)))) with (Some (@nil entry_t)).
    + destruct (drop pos raw) as [|c l] eqn:Hl; [done|]. done.
    + destruct fuel as [|fuel]; [lia|]. cbn [entries_from]. unfold advance, at_end. destruct (Nat.ltb_spec (length raw) (S (length raw))); [|lia]. cbn [pos_]. by rewrite Nat.eqb_refl.
Qed.

Lemma get_from_entries fuel raw k it l : entries_from fuel raw it = Some l -> get_from fuel raw k it = Some (first_value k l).
Proof.
  revert it l. induction fuel as [|fuel IH]; intros it l; [done|]. cbn [entries_from get_from]. destruct (at_end raw it); [by intros [= <-]|].
  destruct (entries_from fuel raw (incr raw it)) as [r|] eqn:Hr; [|done]. intros [= <-]. unfold first_value. rewrite filter_cons.
  case_bool_decide; [by rewrite decide_True by done|]. rewrite decide_False by done. exact (IH _ _ Hr).
Qed.

(** ** Writing a query *)

Definition render_pair (e : entry_t) : bytes := key e ++ 61%Z :: value e.
Fixpoint render (l : list entry_t) : bytes :=
  match l with
  | [] => []
  | [e] => render_pair e
  | e :: l => render_pair e ++ 38%Z :: render l
  end.
(** Neither separator in the key, no ampersand in the value. *)
Definition plain_entry (e : entry_t) : Prop := 38%Z ∉ key e /\ 61%Z ∉ key e /\ 38%Z ∉ value e.

Lemma find_char_app c a l : c ∉ a -> find_char c (a ++ c :: l) = Some (length a).
Proof.
  intros Ha. apply find_if_app; [|apply Z.eqb_refl]. apply forallb_forall. intros x Hx%list_elem_of_In. apply negb_true_iff, Z.eqb_neq. by intros <-.
Qed.
Lemma find_char_none c l : c ∉ l -> find_char c l = None.
Proof. intros Hl. apply find_if_none, forallb_forall. intros x Hx%list_elem_of_In. apply negb_true_iff, Z.eqb_neq. by intros <-. Qed.

Lemma split_render_pair e : plain_entry e -> split_pair (render_pair e) = e.
Proof.
  intros (_ & Hk & _). destruct e as [k v]. unfold split_pair, render_pair; simpl in *. rewrite find_char_app by done.
  rewrite take_app_length. f_equal. by rewrite (cons_middle _ k v), drop_app_ge, Nat.sub_succ_l, Nat.sub_diag by (simpl; lia).
Qed.
Lemma render_pair_plain e : plain_entry e -> 38%Z ∉ render_pair e.
Proof. intros (Hk & _ & Hv). unfold render_pair. rewrite elem_of_app, elem_of_cons. intros [?|[?|?]]; done. Qed.
Lemma render_pair_ne e : render_pair e <> [].
Proof. unfold render_pair. by destruct (key e). Qed.

Lemma pairs_render l : Forall plain_entry l -> pairs (render l) = l.
Proof.
  induction 1 as [|e l He Hl IH]; [done|]. unfold pairs in *. pose proof (render_pair_plain e He) as Hp. destruct l as [|e' l].
  - cbn [render]. rewrite split_amp_none by by apply find_char_none. destruct (render_pair e) as [|c p] eqn:Hr; [by apply render_pair_ne in Hr|].
    simpl. rewrite <- Hr. by rewrite split_render_pair.
  - change (render (e :: e' :: l)) with (render_pair e ++ 38%Z :: render (e' :: l)). destruct (split_amp_some _ _ (find_char_app 38 (render_pair e) (render (e' :: l)) Hp)) as [-> _].
    rewrite trim_cons by apply split_amp_ne. rewrite take_app_length, drop_app_ge, Nat.sub_succ_l, Nat.sub_diag by lia. cbn [drop map]. by rewrite drop_0, split_render_pair, IH.
Qed.

(** C38: Query strings: with one step of fuel per byte and two more, iterating
    sees exactly the pairs between the ampersands of the text, a last empty
    piece left out; [get] is the value of the first of them with the key, or
    empty; and the pairs of a query written from keys and values without
    separators are those keys and values. *)
Theorem query_pairs_exact raw k l :
  entries (length raw + 2) raw = Some (pairs raw) /\
  get (length raw + 2) raw k = Some (first_value k (pairs raw)) /\
  (Forall plain_entry l -> raw = render l -> pairs raw = l).
Proof.
  assert (H : entries (length raw + 2) raw = Some (pairs raw)) by (apply (entries_from_pairs _ _ 0); lia).
  split; [done|]. split; [by apply get_from_entries|]. intros Hl ->. by apply pairs_render.
Qed.

(** The target is its path, then a question mark, its query and a fragment. *)
Lemma target_split t : 63%Z ∈ t -> exists tail, t = path t ++ 63%Z :: query t ++ tail /\ (tail = [] \/ exists f, tail = 35%Z :: f).
Proof.
  intros Ht. unfold path, query. destruct (find_char 63 t) as [q|] eqn:Hq.
  - destruct (find_if_some _ _ _ Hq) as (c & Hc & ->%Z.eqb_eq%symmetry & _). assert (Hs : t = take q t ++ 63%Z :: drop (S q) t) by (rewrite <- Hc; by rewrite take_drop).
    destruct (find_char 35 (drop (S q) t)) as [h|] eqn:Hh.
    + destruct (find_if_some _ _ _ Hh) as (c & Hc' & ->%Z.eqb_eq%symmetry & _). exists (35%Z :: drop (S h) (drop (S q) t)). split; [|eauto].
      rewrite <- Hc', take_drop. exact Hs.
    + exists []. rewrite app_nil_r. auto.
  - exfalso. revert Ht. apply find_if_none in Hq. rewrite forallb_forall in Hq. intros Ht%list_elem_of_In%Hq. done.
Qed.

Definition sample_pairs : list entry_t := [mk_entry [97] [49]; mk_entry [98] []; mk_entry [99] [120; 61; 121]]%Z.

(** "a=1&b=&c=x=y" *)
Lemma query_pairs_exact_witness : entries 14 (render sample_pairs) = Some sample_pairs /\ get 14 (render sample_pairs) [99%Z] = Some [120; 61; 121]%Z.
Proof.
  assert (Hl : Forall plain_entry sample_pairs) by (unfold plain_entry; repeat constructor; simpl; set_solver).
  destruct (query_pairs_exact (render sample_pairs) [99%Z] sample_pairs) as (H1 & H2 & H3). rewrite (H3 Hl eq_refl) in H1, H2. by split.
Defined.
