(* ===== verification/Clock.v ===== *)
(** * The coarse clock

    [clock_cache_t] of src/include/cornet/utils/clock.h: the time read once per
    turn of the loop and the rendered HTTP date.  [gmtime] is what [gmtime_r]
    means: the Gregorian calendar counted from 1970, without leap seconds. *)

From Stdlib Require Import String ZArith Lia.
From stdpp Require Import prelude list.
From S2P Require Import Prelude.
Open Scope Z_scope.

(** ** The calendar *)

Definition is_leap (y : Z) : bool := (y mod 4 =? 0) && (negb (y mod 100 =? 0) || (y mod 400 =? 0)).
Definition year_days (y : Z) : Z := if is_leap y then 366 else 365.
Definition month_days (y : Z) : list Z := [31; if is_leap y then 29 else 28; 31; 30; 31; 30; 31; 31; 30; 31; 30; 31].

(** The year of a day counted from the first of [y], and the day in it. *)
Fixpoint find_year (fuel : nat) (y d : Z) : option (Z * Z) :=
  if d <? year_days y then Some (y, d) else match fuel with O => None | S fuel => find_year fuel (y + 1) (d - year_days y) end.
(** The month, from 0, and the day in it, from 0. *)
Fixpoint find_month (ms : list Z) (m d : Z) : option (Z * Z) :=
  match ms with
  | [] => None
  | n :: ms => if d <? n then Some (m, d) else find_month ms (m + 1) (d - n)
  end.

Record tm := mk_tm { tm_sec : Z; tm_min : Z; tm_hour : Z; tm_mday : Z; tm_mon : Z; tm_year : Z; tm_wday : Z }.

Definition gmtime (t : Z) : option tm :=
  let d := t / 86400 in let r := t mod 86400 in
  match find_year (Z.to_nat (d / 365)) 1970 d with
  | None => None
  | Some (y, yd) =>
      match find_month (month_days y) 0 yd with
      | None => None
      | Some (m, md) => Some (mk_tm (r mod 60) (r / 60 mod 60) (r / 3600) (md + 1) m (y - 1900) ((4 + d) mod 7))
      end
  end.

(** ** Rendering *)

Definition kDays : list bytes := map str ["Sun"; "Mon"; "Tue"; "Wed"; "Thu"; "Fri"; "Sat"]%string.
Definition kMonths : list bytes := map str ["Jan"; "Feb"; "Mar"; "Apr"; "May"; "Jun"; "Jul"; "Aug"; "Sep"; "Oct"; "Nov"; "Dec"]%string.

(** The division of [int]s. *)
Definition two_digits (v : Z) : bytes := [u8 (48 + Z.rem (Z.quot v 10) 10); u8 (48 + Z.rem v 10)].

Definition render_http_date (t : tm) : bytes :=
  let year := tm_year t + 1900 in
  nth (Z.to_nat (Z.rem (tm_wday t) 7)) kDays [] ++ str ", " ++ two_digits (tm_mday t) ++ str " " ++
  nth (Z.to_nat (Z.rem (tm_mon t) 12)) kMonths [] ++ str " " ++ two_digits (Z.quot year 100) ++ two_digits (Z.rem year 100) ++ str " " ++
  two_digits (tm_hour t) ++ str ":" ++ two_digits (tm_min t) ++ str ":" ++ two_digits (tm_sec t) ++ str " GMT".

(** ** The cache *)

Record clock_cache_t := mk_clock { mono_ns_ : Z; real_sec_ : Z; date_ : bytes; date_len_ : Z }.

(** The two clocks read: seconds and nanoseconds, seconds. *)
Definition refresh (mono_sec mono_nsec real_sec : Z) (c : clock_cache_t) : option clock_cache_t :=
  let m := u64 (u64 (u64 mono_sec * 1000000000) + u64 mono_nsec) in
  if real_sec =? real_sec_ c then Some (mk_clock m (real_sec_ c) (date_ c) (date_len_ c))
  else match gmtime real_sec with
       | Some t => let d := render_http_date t in Some (mk_clock m real_sec d (u32 (size d)))
       | None => None
       end.

Definition new_clock (mono_sec mono_nsec real_sec : Z) : option clock_cache_t := refresh mono_sec mono_nsec real_sec (mk_clock 0 0 [] 0).

(** ** Reading a date back *)

Definition digit (b : Z) : option Z := if (48 <=? b) && (b <=? 57) then Some (b - 48) else None.
Definition number2 (a b : Z) : option Z := match digit a, digit b with Some x, Some y => Some (10 * x + y) | _, _ => None end.
Fixpoint index_of (x : bytes) (l : list bytes) (i : Z) : option Z :=
  match l with [] => None | y :: l => if bool_decide (x = y) then Some i else index_of x l (i + 1) end.

Fixpoint days_before (n : nat) (y : Z) : Z := match n with O => 0 | S n => year_days y + days_before n (y + 1) end.
Definition sum_days (ms : list Z) : Z := foldr Z.add 0 ms.

(** The seconds since 1970 of a date and time. *)
Definition timegm (year mon mday hour min sec : Z) : Z :=
  (days_before (Z.to_nat (year - 1970)) 1970 + sum_days (take (Z.to_nat mon) (month_days year)) + (mday - 1)) * 86400 + hour * 3600 + min * 60 + sec.

Definition parse_http_date (d : bytes) : option Z :=
  match d with
  | [w1; w2; w3; _; _; d1; d2; _; m1; m2; m3; _; y1; y2; y3; y4; _; h1; h2; _; i1; i2; _; s1; s2; _; _; _; _] =>
      mday ← number2 d1 d2; mon ← index_of [m1; m2; m3] kMonths 0; c ← number2 y1 y2; y ← number2 y3 y4;
      hour ← number2 h1 h2; min ← number2 i1 i2; sec ← number2 s1 s2;
      Some (timegm (100 * c + y) mon mday hour min sec)
  | _ => None
  end.

(** ** The calendar is right *)

Lemma year_days_pos y : 365 <= year_days y <= 366.
Proof. unfold year_days. destruct (is_leap y); lia. Qed.

Lemma find_year_spec fuel y d y' yd :
  find_year fuel y d = Some (y', yd) -> 0 <= d -> y <= y' /\ 0 <= yd < year_days y' /\ d = days_before (Z.to_nat (y' - y)) y + yd.
Proof.
  revert y d. induction fuel as [|fuel IH]; intros y d; simpl; destruct (Z.ltb_spec d (year_days y)) as [Hd|Hd]; try done.
  1, 2: intros [= <- <-] H0; rewrite Z.sub_diag; simpl; lia.
  intros H%IH H0; [|lia]. destruct H as (Hy & Hr & He). split; [lia|]. split; [done|].
  replace (Z.to_nat (y' - y)) with (S (Z.to_nat (y' - (y + 1)))) by lia. simpl. lia.
Qed.

Lemma find_year_total fuel y d : 0 <= d < 365 * (Z.of_nat fuel + 1) -> is_Some (find_year fuel y d).
Proof.
  revert y d. induction fuel as [|fuel IH]; intros y d Hd; simpl; pose proof (year_days_pos y); destruct (Z.ltb_spec d (year_days y)); [by eexists|lia|by eexists|]. apply IH. lia.
Qed.

Lemma find_month_spec ms m d m' md :
  find_month ms m d = Some (m', md) -> 0 <= d -> m <= m' < m + Z.of_nat (length ms) /\ 0 <= md < nth (Z.to_nat (m' - m)) ms 0 /\ d = sum_days (take (Z.to_nat (m' - m)) ms) + md.
Proof.
  revert m d. induction ms as [|n ms IH]; intros m d; simpl; [done|]. destruct (Z.ltb_spec d n) as [Hd|Hd].
  - intros [= <- <-] H0. rewrite Z.sub_diag. simpl. lia.
  - intros H%IH H0; [|lia]. destruct H as (Hm & Hr & He). replace (Z.to_nat (m' - m)) with (S (Z.to_nat (m' - (m + 1)))) by lia. simpl. lia.
Qed.

Lemma find_month_total ms m d : 0 <= d < sum_days ms -> is_Some (find_month ms m d).
Proof.
  revert m d. induction ms as [|n ms IH]; intros m d Hd; simpl in *; [lia|]. destruct (Z.ltb_spec d n); [by eexists|apply IH; lia].
Qed.

Lemma month_days_sum y : sum_days (month_days y) = year_days y.
Proof. unfold month_days, year_days, sum_days. by destruct (is_leap y). Qed.

Lemma month_days_short y i : nth i (month_days y) 0 <= 31.
Proof. unfold month_days. do 12 (destruct i as [|i]; [simpl; destruct (is_leap y); lia|]). simpl. destruct i; lia. Qed.

Lemma days_before_le n m y : (n <= m)%nat -> days_before n y <= days_before m y.
Proof.
  revert m y. induction n as [|n IH]; intros m y Hm; simpl.
  - revert y. clear Hm. induction m as [|m IHm]; intros y; simpl; [lia|]. pose proof (year_days_pos y). pose proof (IHm (y + 1)). lia.
  - destruct m as [|m]; [lia|]. simpl. pose proof (IH m (y + 1) ltac:(lia)). lia.
Qed.

(** A time with a date of four-digit year. *)
Definition dated (t : Z) : Prop := 0 <= t < 253402300800.

Record tm_of (t : Z) (x : tm) : Prop := {
  of_year : 1970 <= tm_year x + 1900 <= 9999;
  of_mon : 0 <= tm_mon x < 12;
  of_mday : 1 <= tm_mday x <= 31;
  of_hour : 0 <= tm_hour x < 24;
  of_min : 0 <= tm_min x < 60;
  of_sec : 0 <= tm_sec x < 60;
  of_wday : tm_wday x = (4 + t / 86400) mod 7;
  of_time : timegm (tm_year x + 1900) (tm_mon x) (tm_mday x) (tm_hour x) (tm_min x) (tm_sec x) = t
}.

Lemma time_of_day r : 0 <= r < 86400 -> 0 <= r / 3600 < 24 /\ r / 3600 * 3600 + r / 60 mod 60 * 60 + r mod 60 = r.
Proof. intros Hr. split; [split; [apply Z.div_pos; lia|apply Z.div_lt_upper_bound; lia]|]. Z.to_euclidean_division_equations; lia. Qed.

Lemma gmtime_spec t : dated t -> exists x, gmtime t = Some x /\ tm_of t x.
Proof.
  intros Ht. unfold dated in Ht. unfold gmtime. assert (Hd : 0 <= t / 86400 < 2932897) by (split; [apply Z.div_pos; lia|apply Z.div_lt_upper_bound; lia]).
  destruct (find_year_total (Z.to_nat (t / 86400 / 365)) 1970 (t / 86400)) as [[y yd] Hy].
  { rewrite Z2Nat.id by (apply Z.div_pos; lia). split; [lia|]. pose proof (Z.mul_succ_div_gt (t / 86400) 365 ltac:(lia)). lia. }
  rewrite Hy. apply find_year_spec in Hy as (Hy1 & Hy2 & Hy3); [|lia].
  destruct (find_month_total (month_days y) 0 yd) as [[m md] Hm]; [by rewrite month_days_sum|]. rewrite Hm.
  apply find_month_spec in Hm as (Hm1 & Hm2 & Hm3); [|lia]. rewrite Z.sub_0_r in Hm2, Hm3. pose proof (month_days_short y (Z.to_nat m)).
  pose proof (Z.mod_pos_bound t 86400 ltac:(lia)) as Hr. destruct (time_of_day _ Hr) as [Hh Htod].
  assert (Hy4 : y <= 9999).
  { destruct (Z.le_gt_cases y 9999) as [|Hbig]; [done|]. pose proof (days_before_le (Z.to_nat 8030) (Z.to_nat (y - 1970)) 1970 ltac:(lia)) as Hle.
    assert (days_before (Z.to_nat 8030) 1970 = 2932897) as E9 by (vm_compute; reflexivity). lia. }
  eexists. split; [done|]. simpl in Hm1. constructor; simpl; try lia; try (apply Z.mod_pos_bound; lia); try done.
  replace (y - 1900 + 1900) with y by lia. unfold timegm. replace (md + 1 - 1) with md by lia. pose proof (Z.div_mod t 86400 ltac:(lia)). lia.
Qed.

(** ** The rendering is read back *)

Lemma two_digits_spec v : 0 <= v < 100 -> exists a b, two_digits v = [a; b] /\ number2 a b = Some v.
Proof.
  intros Hv. unfold two_digits. do 2 eexists. split; [reflexivity|].
  rewrite Z.quot_div_nonneg, !Z.rem_mod_nonneg by (try apply Z.div_pos; lia).
  pose proof (Z.mod_pos_bound (v / 10) 10 ltac:(lia)). pose proof (Z.mod_pos_bound v 10 ltac:(lia)).
  rewrite !u8_small by (unfold is_byte; lia). unfold number2, digit.
  replace ((48 <=? 48 + (v / 10) mod 10) && (48 + (v / 10) mod 10 <=? 57)) with true by (symmetry; apply andb_true_iff; lia).
  replace ((48 <=? 48 + v mod 10) && (48 + v mod 10 <=? 57)) with true by (symmetry; apply andb_true_iff; lia).
  f_equal. rewrite (Z.mod_small (v / 10)) by (split; [apply Z.div_pos; lia|apply Z.div_lt_upper_bound; lia]). pose proof (Z.div_mod v 10 ltac:(lia)). lia.
Qed.

Lemma day_name w : 0 <= w < 7 -> exists a b c, nth (Z.to_nat (Z.rem w 7)) kDays [] = [a; b; c].
Proof. intros Hw. rewrite Z.rem_small by lia. assert (w = 0 \/ w = 1 \/ w = 2 \/ w = 3 \/ w = 4 \/ w = 5 \/ w = 6) as Hc by lia. destruct Hc as [->|[->|[->|[->|[->|[->| ->]]]]]]; by do 3 eexists. Qed.

Lemma month_name m : 0 <= m < 12 -> exists a b c, nth (Z.to_nat (Z.rem m 12)) kMonths [] = [a; b; c] /\ index_of [a; b; c] kMonths 0 = Some m.
Proof.
  intros Hm. rewrite Z.rem_small by lia. assert (exists k, m = Z.of_nat k /\ (k < 12)%nat) as (k & -> & Hk) by (exists (Z.to_nat m); lia). rewrite Nat2Z.id. clear Hm.
  do 12 (destruct k as [|k]; [do 3 eexists; split; reflexivity|]). lia.
Qed.

Lemma render_read t x : tm_of t x -> length (render_http_date x) = 29%nat /\ parse_http_date (render_http_date x) = Some t.
Proof.
  intros [H1 H2 H3 H4 H5 H6 H7 H8]. unfold render_http_date.
  destruct (day_name (tm_wday x)) as (w1 & w2 & w3 & ->); [rewrite H7; apply Z.mod_pos_bound; lia|].
  destruct (month_name (tm_mon x) H2) as (m1 & m2 & m3 & -> & Hm).
  assert (Hq : 0 <= Z.quot (tm_year x + 1900) 100 < 100) by (rewrite Z.quot_div_nonneg by lia; split; [apply Z.div_pos; lia|apply Z.div_lt_upper_bound; lia]).
  assert (Hr : 0 <= Z.rem (tm_year x + 1900) 100 < 100) by (rewrite Z.rem_mod_nonneg by lia; apply Z.mod_pos_bound; lia).
  destruct (two_digits_spec (tm_mday x) ltac:(lia)) as (d1 & d2 & -> & Hd). destruct (two_digits_spec _ Hq) as (y1 & y2 & -> & Hy).
  destruct (two_digits_spec _ Hr) as (y3 & y4 & -> & Hy'). destruct (two_digits_spec (tm_hour x) ltac:(lia)) as (h1 & h2 & -> & Hh).
  destruct (two_digits_spec (tm_min x) ltac:(lia)) as (i1 & i2 & -> & Hi). destruct (two_digits_spec (tm_sec x) ltac:(lia)) as (s1 & s2 & -> & Hs).
  split; [reflexivity|]. change (str ", ") with [44; 32]. change (str " ") with [32]. change (str ":") with [58]. change (str " GMT") with [32; 71; 77; 84].
  cbn [app parse_http_date]. rewrite Hd, Hm, Hy, Hy', Hh, Hi, Hs. cbn [mbind option_bind]. f_equal.
  rewrite <- H8. f_equal. pose proof (Z.quot_rem' (tm_year x + 1900) 100). lia.
Qed.

(** A clock that was made and refreshed at the given readings; the last one. *)
Inductive ticked : Z -> Z -> Z -> clock_cache_t -> Prop :=
| ticked_new ms mn r c : dated r -> new_clock ms mn r = Some c -> ticked ms mn r c
| ticked_refresh ms mn r c ms' mn' r' c' : ticked ms mn r c -> dated r' -> refresh ms' mn' r' c = Some c' -> ticked ms' mn' r' c'.

(** The cached date belongs to the cached second; second 0 is the initial value
    and is never rendered. *)
Record cached (ms mn r : Z) (c : clock_cache_t) : Prop := {
  ca_mono : mono_ns_ c = u64 (u64 (u64 ms * 1000000000) + u64 mn);
  ca_real : real_sec_ c = r;
  ca_dated : dated (real_sec_ c);
  ca_date : real_sec_ c <> 0 -> size (date_ c) = 29 /\ date_len_ c = 29 /\ parse_http_date (date_ c) = Some (real_sec_ c)
}.

Lemma refresh_cached ms mn r c :
  dated r -> dated (real_sec_ c) -> (real_sec_ c <> 0 -> size (date_ c) = 29 /\ date_len_ c = 29 /\ parse_http_date (date_ c) = Some (real_sec_ c)) ->
  exists c', refresh ms mn r c = Some c' /\ cached ms mn r c'.
Proof.
  intros Hr Hc Hd. unfold refresh. destruct (Z.eqb_spec r (real_sec_ c)) as [->|Hn]; [by eexists|].
  destruct (gmtime_spec r Hr) as (x & Hx & Hof). rewrite Hx. eexists. split; [done|]. destruct (render_read r x Hof) as [Hl Hp].
  constructor; simpl; try done. intros _. unfold size. rewrite Hl. done.
Qed.

Lemma ticked_cached ms mn r c : ticked ms mn r c -> cached ms mn r c.
Proof.
  induction 1 as [ms mn r c Hr Hn|ms mn r c ms' mn' r' c' _ IH Hr' Hf].
  - destruct (refresh_cached ms mn r (mk_clock 0 0 [] 0)) as (c' & Hc' & Hok); [done|simpl; unfold dated; lia|done|]. unfold new_clock in Hn. congruence.
  - destruct IH as [_ _ Hd Hdate]. destruct (refresh_cached ms' mn' r' c Hr' Hd Hdate) as (c'' & Hc'' & Hok). congruence.
Qed.

Lemma mono_exact ms mn : 0 <= ms -> 0 <= mn < 1000000000 -> ms * 1000000000 + mn < 2 ^ 64 -> u64 (u64 (u64 ms * 1000000000) + u64 mn) = ms * 1000000000 + mn.
Proof. intros H1 H2 H3. rewrite (u64_small ms), (u64_small (ms * 1000000000)), (u64_small mn), u64_small by lia. done. Qed.

(** The clock: after any number of refreshes at times before the year 10000
    the next refresh succeeds, the cached monotonic time is the last reading in
    nanoseconds, the cached second is the last one read, and, unless that is
    second 0, the cached date is 29 bytes that read back as exactly that
    second. *)
Theorem clock_date_exact ms mn r c :
  ticked ms mn r c -> 0 <= ms -> 0 <= mn < 1000000000 -> ms * 1000000000 + mn < 2 ^ 64 ->
  mono_ns_ c = ms * 1000000000 + mn /\ real_sec_ c = r /\
  (r <> 0 -> size (date_ c) = 29 /\ date_len_ c = 29 /\ parse_http_date (date_ c) = Some r) /\
  forall ms' mn' r', dated r' -> is_Some (refresh ms' mn' r' c).
Proof.
  intros H%ticked_cached H1 H2 H3. destruct H as [Hm <- Hd Hdate]. split; [by rewrite Hm, mono_exact|]. split; [done|]. split; [done|].
  intros ms' mn' r' Hr. destruct (refresh_cached ms' mn' r' c Hr Hd Hdate) as (c' & Hc & _). by exists c'.
Qed.

(** Sunday the 6th of November 1994. *)
Lemma clock_date_exact_witness :
  exists c, new_clock 10 5 784111777 = Some c /\ date_ c = str "Sun, 06 Nov 1994 08:49:37 GMT" /\ parse_http_date (date_ c) = Some 784111777.
Proof.
  eassert (Hc : new_clock 10 5 784111777 = Some _) by (vm_compute; reflexivity). eexists. split; [exact Hc|]. split; [reflexivity|].
  refine (proj2 (proj2 (proj1 (proj2 (proj2 (clock_date_exact 10 5 784111777 _ (ticked_new 10 5 _ _ _ Hc) _ _ _))) _))); unfold dated; lia.
Defined.

(** At second 0 there is no date. *)
Lemma epoch_has_no_date ms mn : exists c, new_clock ms mn 0 = Some c /\ date_ c = [] /\ date_len_ c = 0.
Proof. by eexists. Qed.
