(* ===== verification/Config.v ===== *)
(** * Configuration

    Durations as text, [parse_time_str] of src/include/cornet/utils/config.h
    with the binary64 arithmetic it computes in, and what the components read
    from a configuration: the option structs of the HTTP server, the client and
    websocket sessions, the scheduler, the executor and the ring.  The TOML
    library is a parameter ([Toml]). *)

From Stdlib Require Import String.
From stdpp Require Import prelude list list_numbers.
From Stdlib Require Import ZArith Lia.
From S2P Require Import Prelude.
Open Scope string_scope.
Open Scope list_scope.
Open Scope Z_scope.

(** ** binary64 *)

(** A non-negative double is [mant * 2 ^ expo]. *)
Record b64 := mk_b64 { mant : Z; expo : Z }.

Definition num (x : b64) : Z := mant x * 2 ^ Z.max (expo x) 0.
Definition den (x : b64) : Z := 2 ^ Z.max (- expo x) 0.

(** To the nearest integer, ties to even. *)
Definition round_half_even (p q : Z) : Z :=
  let d := p / q in let r := p mod q in
  if 2 * r <? q then d else if q <? 2 * r then d + 1 else if Z.even d then d else d + 1.

(** The exponent that leaves a quotient of 53 bits, no smaller than that of the
    subnormals. *)
Definition exponent (p q : Z) : Z :=
  let e := Z.log2 p - Z.log2 q - 52 in
  let e := if p * 2 ^ Z.max (- e) 0 <? 2 ^ 52 * (q * 2 ^ Z.max e 0) then e - 1 else e in
  Z.max e (-1074).

Definition b64_round (p q : Z) : b64 :=
  let e := exponent p q in mk_b64 (round_half_even (p * 2 ^ Z.max (- e) 0) (q * 2 ^ Z.max e 0)) e.

(** The double nearest to [p / q], [None] beyond the largest. *)
Definition b64_of (p q : Z) : option b64 :=
  if p =? 0 then Some (mk_b64 0 0)
  else let x := b64_round p q in if 2 ^ 1024 <=? num x / den x then None else Some x.

(** [x * double(n)] *)
Definition b64_scale (x : b64) (n : Z) : option b64 := b64_of (num x * n) (den x).

Lemma round_half_even_near p q : 0 <= p -> 0 < q -> 2 * Z.abs (round_half_even p q * q - p) <= q.
Proof.
  intros Hp Hq. unfold round_half_even. pose proof (Z.div_mod p q ltac:(lia)) as Hd. pose proof (Z.mod_pos_bound p q Hq) as Hm.
  set (d := p / q) in *. set (r := p mod q) in *. destruct (Z.ltb_spec (2 * r) q); [nia|]. destruct (Z.ltb_spec q (2 * r)); [nia|].
  destruct (Z.even d); nia.
Qed.

Lemma round_half_even_exact n q : 0 < q -> round_half_even (n * q) q = n.
Proof. intros Hq. unfold round_half_even. rewrite Z.div_mul, Z.mod_mul by lia. destruct (Z.ltb_spec (2 * 0) q); [done|lia]. Qed.

Lemma den_pos x : 0 < den x.
Proof. unfold den. apply Z.pow_pos_nonneg; lia. Qed.

(** A quotient away from the subnormals keeps at least 52 bits. *)
Lemma exponent_normal p q :
  0 < p -> 0 < q -> q < 2 ^ 1000 -> 2 ^ 52 * (q * 2 ^ Z.max (exponent p q) 0) <= p * 2 ^ Z.max (- exponent p q) 0.
Proof.
  intros Hp Hq Hn. unfold exponent. remember (Z.log2 p - Z.log2 q - 52) as e eqn:He. cbv zeta.
  pose proof (Z.log2_spec p Hp) as [Hp1 Hp2]. pose proof (Z.log2_spec q Hq) as [Hq1 Hq2]. pose proof (Z.log2_nonneg p). pose proof (Z.log2_nonneg q).
  assert (Hlq : Z.log2 q < 1000) by (apply Z.log2_lt_pow2; lia).
  rewrite Z.pow_succ_r in Hp2, Hq2 by done.
  destruct (Z.ltb_spec (p * 2 ^ Z.max (- e) 0) (2 ^ 52 * (q * 2 ^ Z.max e 0))); [rewrite (Z.max_l (e - 1) (-1074)) by lia|by rewrite (Z.max_l e (-1074)) by lia].
  destruct (Z.le_gt_cases 0 (e - 1)).
  - rewrite (Z.max_l (e - 1)), (Z.max_r (- (e - 1))) by lia. rewrite Z.mul_1_r. transitivity (2 ^ Z.log2 p); [|done].
    replace (Z.log2 p) with (Z.log2 q + 1 + 52 + (e - 1)) by lia. rewrite !Z.pow_add_r by lia. nia.
  - rewrite (Z.max_r (e - 1)), (Z.max_l (- (e - 1))) by lia. rewrite Z.mul_1_r. transitivity (2 ^ Z.log2 p * 2 ^ (- (e - 1))).
    + rewrite <- Z.pow_add_r by lia. replace (Z.log2 p + - (e - 1)) with (Z.log2 q + 1 + 52) by lia. rewrite !Z.pow_add_r by lia. nia.
    + apply Z.mul_le_mono_nonneg_r; [apply Z.pow_nonneg; lia|done].
Qed.

(** Rounding has a relative error of at most [2 ^ -53]. *)
Definition near (x : b64) (p q : Z) : Prop := 0 <= num x /\ Z.abs (num x * q - p * den x) * 2 ^ 53 <= p * den x.

Lemma b64_round_near p q : 0 < p -> 0 < q < 2 ^ 1000 -> near (b64_round p q) p q /\ den (b64_round p q) <= q * 2 ^ 53.
Proof.
  intros Hp [Hq Hn]. pose proof (exponent_normal p q Hp Hq Hn) as Hx. unfold b64_round, near. cbv zeta.
  assert (Hd : 2 ^ Z.max (- exponent p q) 0 <= q * 2 ^ 53).
  { unfold exponent. pose proof (Z.log2_nonneg p). pose proof (Z.log2_spec q Hq) as [Hq1 _]. pose proof (Z.log2_nonneg q).
    transitivity (2 ^ (Z.log2 q + 53)); [apply Z.pow_le_mono_r; [lia|]; case_match; lia|]. rewrite Z.pow_add_r by lia. nia. }
  set (e := exponent p q) in *. unfold num, den. simpl mant. simpl expo. assert (Hpow : forall k, 0 < 2 ^ Z.max k 0) by (intros k; apply Z.pow_pos_nonneg; lia).
  pose proof (Hpow e) as He. pose proof (Hpow (- e)) as Hme.
  pose proof (round_half_even_near (p * 2 ^ Z.max (- e) 0) (q * 2 ^ Z.max e 0) ltac:(apply Z.mul_nonneg_nonneg; lia) ltac:(apply Z.mul_pos_pos; lia)) as Hr.
  set (m := round_half_even _ _) in *. set (a := 2 ^ Z.max e 0) in *. set (b := 2 ^ Z.max (- e) 0) in *.
  split; [|done]. split; [|replace (m * a * q) with (m * (q * a)) by ring; lia].
  assert (Hqa : 0 < q * a) by (by apply Z.mul_pos_pos). assert (Hpb : 0 < p * b) by (by apply Z.mul_pos_pos). clear Hx Hd Hn.
  apply Z.mul_nonneg_nonneg; [|lia]. nia.
Qed.

(** A quotient of fewer than 1000 bits does not overflow. *)
Lemma b64_of_near p q : 0 <= p < 2 ^ 64 * q -> 0 < q < 2 ^ 1000 -> exists x, b64_of p q = Some x /\ near x p q /\ den x <= q * 2 ^ 53.
Proof.
  intros Hp Hq. unfold b64_of. destruct (Z.eqb_spec p 0) as [->|Hne].
  { eexists. split; [done|]. unfold near. change (num (mk_b64 0 0)) with 0. change (den (mk_b64 0 0)) with 1. lia. }
  destruct (b64_round_near p q ltac:(lia) Hq) as [Hx Hd]. set (x := b64_round p q) in *. cbv zeta. pose proof (den_pos x). destruct Hx as [Hx1 Hx2].
  destruct (Z.leb_spec (2 ^ 1024) (num x / den x)) as [Ho|_]; [|eexists; by split_and!].
  exfalso. assert (Hxq : num x * q <= 2 * (p * den x)) by lia. assert (Hpd : p * den x < 2 ^ 64 * q * den x) by (apply Z.mul_lt_mono_pos_r; lia).
  assert (Hlt : num x < den x * 2 ^ 65) by (apply (Z.mul_lt_mono_pos_r q); lia). apply (Z.div_lt_upper_bound _ (den x) (2 ^ 65)) in Hlt; lia.
Qed.

(** An integer of up to 53 bits is exact. *)
Lemma b64_of_int n q : 0 <= n < 2 ^ 53 -> 0 < q < 2 ^ 1000 -> exists x, b64_of (n * q) q = Some x /\ num x = n * den x.
Proof.
  intros Hn Hq. unfold b64_of. destruct (Z.eqb_spec (n * q) 0) as [Hz|Hz]; [exists (mk_b64 0 0); by replace n with 0 by nia|].
  assert (He : exponent (n * q) q <= 0).
  { unfold exponent. remember (Z.log2 (n * q) - Z.log2 q - 52) as e eqn:Hle. cbv zeta. destruct (Z.le_gt_cases e 0) as [|He]; [case_match; lia|].
    pose proof (Z.log2_spec q ltac:(lia)) as [_ Hq2]. rewrite Z.pow_succ_r in Hq2 by apply Z.log2_nonneg. pose proof (Z.log2_nonneg q).
    assert (Z.log2 (n * q) < 54 + Z.log2 q). { apply Z.log2_lt_pow2; [lia|]. rewrite Z.pow_add_r by lia. nia. }
    replace e with 1 by lia. change (Z.max (- (1)) 0) with 0. change (Z.max 1 0) with 1. destruct (Z.ltb_spec (n * q * 2 ^ 0) (2 ^ 52 * (q * 2 ^ 1))) as [Hc|Hc]; [lia|exfalso; change (2 ^ 0) with 1 in Hc; change (2 ^ 1) with 2 in Hc; nia]. }
  unfold b64_round. set (e := exponent (n * q) q) in *. cbv zeta. rewrite (Z.max_r e), Z.mul_1_r by lia. rewrite <- Z.mul_assoc, (Z.mul_comm q), Z.mul_assoc, round_half_even_exact by lia.
  unfold num, den. simpl. rewrite (Z.max_r e), Z.mul_1_r by lia. rewrite Z.div_mul by (pose proof (Z.pow_pos_nonneg 2 (Z.max (- e) 0)); lia).
  destruct (Z.leb_spec (2 ^ 1024) n); [lia|]. eexists. split; [done|]. simpl. by rewrite (Z.max_r e), Z.mul_1_r by lia.
Qed.

(** ** Durations *)

(** [std::isdigit] in the C locale. *)
Definition isdigit (c : Z) : bool := (48 <=? c) && (c <=? 57).
Definition numeric (c : Z) : bool := isdigit c || (c =? 46).

(** The longest prefix of such characters, and what follows. *)
Fixpoint span (f : Z -> bool) (s : bytes) : bytes * bytes :=
  match s with
  | [] => ([], [])
  | c :: s' => if f c then let '(a, b) := span f s' in (c :: a, b) else ([], s)
  end.

Definition digits_value (s : bytes) : Z := fold_left (fun v c => 10 * v + (c - 48)) s 0.

(** The decimal that [std::from_chars] reads from the front: digits with at
    most one point among them. *)
Definition decimal (s : bytes) : option (Z * Z) :=
  let '(whole, rest) := span isdigit s in
  let frac := match rest with 46 :: rest => fst (span isdigit rest) | _ => [] end in
  if bool_decide (whole ++ frac = []) then None else Some (digits_value (whole ++ frac), 10 ^ size frac).

(** [None]: [invalid_argument] or [result_out_of_range]. *)
Definition from_chars (s : bytes) : option b64 :=
  match decimal s with
  | None => None
  | Some (p, q) => match b64_of p q with Some x => if (mant x =? 0) && negb (p =? 0) then None else Some x | None => None end
  end.

Definition multipliers : list (bytes * Z) :=
  [(str "ns", 1); (str "nsec", 1); (str "us", 1000); ([194; 181; 115], 1000); (str "usec", 1000); (str "ms", 1000000); (str "msec", 1000000);
   (str "s", 1000000000); (str "sec", 1000000000); (str "second", 1000000000); (str "m", 60000000000); (str "min", 60000000000); (str "minute", 60000000000);
   (str "h", 3600000000000); (str "hr", 3600000000000); (str "hour", 3600000000000)].

(** [multipliers.find] *)
Definition find_unit (u : bytes) : option Z := foldr (fun e r => if bool_decide (e.1 = u) then Some e.2 else r) None multipliers.

(** [Undefined]: a double outside [int64_t] is cast to it. *)
Inductive time_result := Nanos (ns : Z) | BadNumber | BadUnit | Undefined.

Definition parse_time_str (s : bytes) : time_result :=
  let '(number, unit) := span numeric s in
  if bool_decide (number = []) then BadNumber
  else
    match from_chars number with
    | None => BadNumber
    | Some value =>
        match find_unit unit with
        | None => BadUnit
        | Some ns =>
            match b64_scale value ns with
            | None => Undefined
            | Some x => let n := num x / den x in if n <? 2 ^ 63 then Nanos n else Undefined
            end
        end
    end.

(** What a duration says: the number before the unit as a fraction, times the
    unit. *)
Definition stated (s : bytes) : option (Z * Z * Z) :=
  let '(number, unit) := span numeric s in
  match decimal number, find_unit unit with Some (p, q), Some ns => Some (p, q, ns) | _, _ => None end.

Lemma span_app f s : let '(a, b) := span f s in s = a ++ b /\ Forall (fun c => f c = true) a.
Proof.
  induction s as [|c s IH]; simpl; [by split|]. destruct (f c) eqn:Hc; [|by split]. destruct (span f s) as [a b]. destruct IH as [-> IH]. split; [done|]. by constructor.
Qed.

Lemma digits_value_acc s v : 0 <= v -> Forall (fun c => isdigit c = true) s -> 0 <= fold_left (fun v c => 10 * v + (c - 48)) s v.
Proof.
  revert v. induction s as [|c s IH]; intros v Hv Hs; simpl; [done|]. apply Forall_cons in Hs as [Hc Hs]. apply IH; [|done].
  unfold isdigit in Hc. apply andb_true_iff in Hc as [Hc _]. apply Z.leb_le in Hc. lia.
Qed.

Lemma decimal_parts s p q : decimal s = Some (p, q) -> 0 <= p /\ exists k, q = 10 ^ k /\ 0 <= k <= size s.
Proof.
  unfold decimal. pose proof (span_app isdigit s) as Hs. destruct (span isdigit s) as [a b]. destruct Hs as [-> Ha].
  set (frac := match b with 46 :: rest => _ | _ => [] end). case_bool_decide; [done|]. intros [= <- <-].
  assert (Hf : Forall (fun c => isdigit c = true) frac /\ (length frac <= length b)%nat).
  { unfold frac. destruct b as [|c b]; [by split|]. destruct (decide (c = 46)) as [->|Hc].
    - pose proof (span_app isdigit b) as Hb. destruct (span isdigit b) as [x y]. destruct Hb as [-> Hx]. simpl. rewrite length_app. split; [done|lia].
    - assert (match c with 46 => fst (span isdigit b) | _ => [] end = []) as -> by (repeat (case_match; try done)). split; [done|simpl; lia]. }
  destruct Hf as [Hf Hl]. split; [apply digits_value_acc; [done|]; apply Forall_app; by split|].
  eexists. split; [done|]. unfold size. rewrite length_app. lia.
Qed.

Lemma decimal_nonneg s p q : decimal s = Some (p, q) -> 0 <= p /\ 0 < q.
Proof. intros (Hp & k & -> & Hk)%decimal_parts. split; [done|]. apply Z.pow_pos_nonneg; lia. Qed.

Lemma decimal_bounds s p q : decimal s = Some (p, q) -> size s <= 100 -> 0 <= p /\ 0 < q < 2 ^ 400.
Proof.
  intros (Hp & k & -> & Hk)%decimal_parts Hs. split; [done|]. split; [apply Z.pow_pos_nonneg; lia|].
  apply Z.le_lt_trans with (10 ^ 100); [apply Z.pow_le_mono_r; lia|done].
Qed.

Lemma find_unit_range u n : find_unit u = Some n -> 1 <= n <= 3600000000000.
Proof. unfold find_unit, multipliers. simpl. repeat (case_bool_decide; [intros [= <-]; lia|]). done. Qed.

(** ** Accuracy *)

Lemma abs_chain N D a d p q n :
  0 <= d -> 0 <= q -> 0 <= n -> 0 <= D ->
  Z.abs (N * q - p * n * D) * d <= Z.abs (N * d - a * n * D) * q + Z.abs (a * q - p * d) * (n * D).
Proof.
  intros Hd Hq Hn HD. replace (Z.abs (N * q - p * n * D) * d) with (Z.abs ((N * q - p * n * D) * d)) by (by rewrite Z.abs_mul, (Z.abs_eq d)).
  replace ((N * q - p * n * D) * d) with ((N * d - a * n * D) * q + (a * q - p * d) * (n * D)) by ring.
  etransitivity; [apply Z.abs_triangle|]. rewrite !Z.abs_mul, (Z.abs_eq q), (Z.abs_eq n), (Z.abs_eq D) by done. lia.
Qed.

(** Two roundings and a truncation: at most one nanosecond away. *)
Lemma scaled_near x p q n :
  0 <= p -> 0 < q < 2 ^ 400 -> 0 < n <= 3600000000000 -> p * n < 2 ^ 51 * q -> near x p q -> den x <= q * 2 ^ 53 ->
  exists y, b64_scale x n = Some y /\ Z.abs (num y / den y - p * n / q) <= 1 /\ 0 <= num y.
Proof.
  intros Hp Hq Hn Hb [Hx1 Hx2] Hd. pose proof (den_pos x) as Hdx. unfold b64_scale.
  assert (Hxq : num x * q <= 2 * (p * den x)) by lia.
  assert (Hxn : num x * n < 2 ^ 52 * den x).
  { apply (Z.mul_lt_mono_pos_r q); [lia|]. assert (num x * q * n <= 2 * (p * den x) * n) by (apply Z.mul_le_mono_nonneg_r; lia).
    assert (p * n * den x < 2 ^ 51 * q * den x) by (apply Z.mul_lt_mono_pos_r; lia). lia. }
  destruct (b64_of_near (num x * n) (den x)) as (y & Hy & [Hy1 Hy2] & _); [split; [apply Z.mul_nonneg_nonneg; lia|lia]|split; [done|lia]|].
  exists y. split; [done|]. split; [|done]. pose proof (den_pos y) as Hdy.
  set (N := num y) in *. set (D := den y) in *. set (a := num x) in *. set (d := den x) in *.
  assert (Hc : Z.abs (N * q - p * n * D) < q * D).
  { apply (Z.mul_lt_mono_pos_r (2 ^ 53 * d)); [lia|].
    assert (H1 : Z.abs (N * d - a * n * D) * 2 ^ 53 * q <= a * n * D * q) by (apply Z.mul_le_mono_nonneg_r; lia).
    assert (H2 : Z.abs (a * q - p * d) * 2 ^ 53 * (n * D) <= p * d * (n * D)) by (apply Z.mul_le_mono_nonneg_r; [apply Z.mul_nonneg_nonneg; lia|lia]).
    assert (H3 : a * q * (n * D) <= 2 * (p * d) * (n * D)) by (apply Z.mul_le_mono_nonneg_r; [apply Z.mul_nonneg_nonneg; lia|lia]).
    assert (H4 : p * n * (d * D) < 2 ^ 51 * q * (d * D)) by (apply Z.mul_lt_mono_pos_r; [apply Z.mul_pos_pos; lia|lia]).
    assert (H5 : Z.abs (N * q - p * n * D) * d <= Z.abs (N * d - a * n * D) * q + Z.abs (a * q - p * d) * (n * D)).
    { apply abs_chain; lia. }
    lia. }
  assert (Hf : forall u v, 0 < v -> u / v * v <= u < u / v * v + v) by (intros u v Hv; pose proof (Z.div_mod u v ltac:(lia)); pose proof (Z.mod_pos_bound u v Hv); lia).
  pose proof (Hf N D Hdy) as [F1 F2]. pose proof (Hf (p * n) q ltac:(lia)) as [F3 F4]. set (s := N / D) in *. set (t := p * n / q) in *. clear -Hc F1 F2 F3 F4 Hq Hdy.
  assert (G1 : s * D * q <= N * q) by (apply Z.mul_le_mono_nonneg_r; lia). assert (G2 : N * q < (s * D + D) * q) by (apply Z.mul_lt_mono_pos_r; lia).
  assert (G3 : t * q * D <= p * n * D) by (apply Z.mul_le_mono_nonneg_r; lia). assert (G4 : p * n * D < (t * q + q) * D) by (apply Z.mul_lt_mono_pos_r; lia).
  assert (0 < q * D) by (apply Z.mul_pos_pos; lia). assert ((s - t - 2) * (q * D) < 0) by lia. assert ((t - s - 2) * (q * D) < 0) by lia. nia.
Qed.

(** Exact on whole numbers. *)
Lemma scaled_exact x p n : 0 <= p -> 0 < n -> p * n < 2 ^ 53 -> num x = p * den x -> den x < 2 ^ 1000 -> exists y, b64_scale x n = Some y /\ num y / den y = p * n.
Proof.
  intros Hp Hn Hb Hx Hd. pose proof (den_pos x). unfold b64_scale. rewrite Hx. replace (p * den x * n) with (p * n * den x) by ring.
  destruct (b64_of_int (p * n) (den x)) as (y & Hy & Hv); [split; [apply Z.mul_nonneg_nonneg; lia|done]|by split|]. exists y. split; [done|].
  rewrite Hv. apply Z.div_mul. pose proof (den_pos y). lia.
Qed.

Lemma near_nonzero x p q : near x p q -> 0 < p -> mant x <> 0.
Proof.
  intros [_ Hx] Hp Hm. pose proof (den_pos x) as Hd. assert (Hz : num x = 0) by (unfold num; by rewrite Hm). rewrite Hz in Hx.
  assert (0 < p * den x) by (by apply Z.mul_pos_pos). lia.
Qed.

Lemma from_chars_near s p q : decimal s = Some (p, q) -> 0 <= p < 2 ^ 64 * q -> 0 < q < 2 ^ 1000 -> exists x, from_chars s = Some x /\ near x p q /\ den x <= q * 2 ^ 53 /\ b64_of p q = Some x.
Proof.
  intros Hs Hp Hq. unfold from_chars. rewrite Hs. destruct (b64_of_near p q Hp Hq) as (x & Hx & Hn & Hd). rewrite Hx. exists x.
  destruct (Z.eqb_spec p 0) as [->|Hne]; [by rewrite andb_false_r|]. pose proof (near_nonzero x p q Hn ltac:(lia)) as Hm. by rewrite (proj2 (Z.eqb_neq _ _) Hm).
Qed.

(** A duration of up to [2 ^ 51] nanoseconds is read to within one of them,
    without error when its number is whole; anything that does not say a
    duration is refused. *)
Lemma parse_time_accurate s p q n :
  stated s = Some (p, q, n) -> size s <= 100 -> p * n < 2 ^ 51 * q ->
  exists ns, parse_time_str s = Nanos ns /\ Z.abs (ns - p * n / q) <= 1 /\ (q = 1 -> ns = p * n).
Proof.
  unfold stated, parse_time_str. pose proof (span_app numeric s) as Hs. destruct (span numeric s) as [a u]. destruct Hs as [-> _].
  destruct (decimal a) as [[p' q']|] eqn:Ha; [|done]. destruct (find_unit u) as [n'|] eqn:Hu; [|done]. intros [= -> -> ->] Hl Hb.
  assert (size a <= 100) by (unfold size in *; rewrite length_app in Hl; lia). destruct (decimal_bounds a p q Ha) as [Hp Hq]; [done|]. apply find_unit_range in Hu.
  rewrite bool_decide_false by (by intros ->). assert (Hpn : p <= p * n) by nia.
  destruct (from_chars_near a p q Ha) as (x & -> & Hx & Hd & Hof); [lia|lia|]. destruct (scaled_near x p q n) as (y & Hy & Hnear & Hy0); [lia..|done|done|].
  rewrite Hy. pose proof (Z.div_lt_upper_bound (p * n) q (2 ^ 51) ltac:(lia) ltac:(lia)). destruct (Z.ltb_spec (num y / den y) (2 ^ 63)); [|lia].
  eexists. split_and!; [done|done|]. intros ->. destruct (b64_of_int p 1) as (x' & Hx' & Hv); [lia|lia|]. rewrite Z.mul_1_r, Hof in Hx'. injection Hx' as <-.
  destruct (scaled_exact x p n) as (y' & Hy' & Hv'); [lia..|done|lia|]. rewrite Hy in Hy'. by injection Hy' as <-.
Qed.

Lemma parse_time_refused s : stated s = None -> parse_time_str s = BadNumber \/ parse_time_str s = BadUnit.
Proof.
  unfold stated, parse_time_str. destruct (span numeric s) as [a u]. unfold from_chars. case_bool_decide; [by left|].
  destruct (decimal a) as [[p q]|]; [|by left]. destruct (find_unit u); [done|]. intros _. repeat (case_match; try (by left)); by right.
Qed.

(** ** Reading a configuration *)

Inductive int_type := U8 | U16 | U32 | U64 | I32 | I64.
Definition fits (t : int_type) (v : Z) : Prop :=
  match t with
  | U8 => 0 <= v < 2 ^ 8 | U16 => 0 <= v < 2 ^ 16 | U32 => 0 <= v < 2 ^ 32 | U64 => 0 <= v < 2 ^ 64
  | I32 => - 2 ^ 31 <= v < 2 ^ 31 | I64 => - 2 ^ 63 <= v < 2 ^ 63
  end.

(** toml++: [at_path] gives a view that may be empty; [value<T>] is the value
    when the node has one that a [T] can hold. *)
Class Toml := {
  config_t : Type; node : Type;
  at_path : config_t -> bytes -> node;
  value_int : int_type -> node -> option Z;
  value_bool : node -> option bool;
  value_string : node -> option bytes;
  as_array : node -> option (list node)
}.
Class TomlLaws `{Toml} := value_fits t n v : value_int t n = Some v -> fits t v.

(** What a loader leaves: the options, or an exception; [Undef] when a duration
    is out of range. *)
Inductive load_result (A : Type) := Done (a : A) | Threw | Undef.
Arguments Done {A} _.
Arguments Threw {A}.
Arguments Undef {A}.
#[export] Instance load_bind : MBind load_result := fun A B k r => match r with Done a => k a | Threw => Threw | Undef => Undef end.

(** The path of a key below a table. *)
Definition key (prefix : bytes) (k : String.string) : bytes := prefix ++ str "." ++ str k.

Section Load.
Context `{Toml}.

(** [value_or] *)
Definition or_int (t : int_type) (n : node) (d : Z) : Z := default d (value_int t n).
Definition or_bool (n : node) (d : bool) : bool := default d (value_bool n).
Definition or_string (n : node) (d : bytes) : bytes := default d (value_string n).

(** The lambda [duration]: text with a unit, or a number of milliseconds. *)
Definition duration (n : node) (target : Z) : load_result Z :=
  match value_string n with
  | Some s => match parse_time_str s with Nanos ns => Done (ns / 1000000) | Undefined => Undef | _ => Threw end
  | None => match value_int I64 n with Some ms => Done ms | None => Done target end
  end.

(** [websocket::session_options_t] *)
Record session_options_t := {
  wo_max_message_bytes : Z; wo_idle_timeout : Z; wo_close_timeout : Z; wo_timer_tick : Z; wo_recv_buffer_bytes : Z }.

Definition load_session (prefix : bytes) (c : config_t) (o : session_options_t) : load_result session_options_t :=
  let at_key k := at_path c (key prefix k) in
  d_idle_timeout ← duration (at_key "idle_timeout") (wo_idle_timeout o);
  d_close_timeout ← duration (at_key "close_timeout") (wo_close_timeout o);
  d_timer_tick ← duration (at_key "timer_tick") (wo_timer_tick o);
  Done {|
    wo_max_message_bytes := or_int U64 (at_key "max_message_bytes") (wo_max_message_bytes o);
    wo_idle_timeout := d_idle_timeout;
    wo_close_timeout := d_close_timeout;
    wo_timer_tick := d_timer_tick;
    wo_recv_buffer_bytes := or_int U32 (at_key "recv_buffer_bytes") (wo_recv_buffer_bytes o) |}.

(** [http::server_options_t], without the context for TLS, which is never
    loaded. *)
Record server_options_t := {
  so_port : Z; so_address : bytes; so_max_header_bytes : Z; so_max_headers : Z; so_max_trailers : Z; so_max_body_bytes : Z;
  so_aggregate_threshold : Z; so_stream_window_bytes : Z; so_max_pipelined : Z; so_max_connections : Z; so_head_buffer_bytes : Z;
  so_hdr_buffer_bytes : Z; so_body_buffer_bytes : Z; so_idle_timeout : Z; so_header_timeout : Z; so_body_timeout : Z; so_timer_tick : Z;
  so_drain_timeout : Z; so_handshake_timeout : Z; so_tcp_nodelay : bool; so_reuse_port : bool; so_serve_date_header : bool;
  so_serve_server_header : bool; so_lenient_headers : bool; so_lenient_chunked_length : bool; so_lenient_keep_alive : bool;
  so_ws : session_options_t }.

Definition load_server (c : config_t) (o : server_options_t) : load_result server_options_t :=
  let at_key k := at_path c (key (str "cornet.http.server") k) in
  d_idle_timeout ← duration (at_key "idle_timeout") (so_idle_timeout o);
  d_header_timeout ← duration (at_key "header_timeout") (so_header_timeout o);
  d_body_timeout ← duration (at_key "body_timeout") (so_body_timeout o);
  d_timer_tick ← duration (at_key "timer_tick") (so_timer_tick o);
  d_drain_timeout ← duration (at_key "drain_timeout") (so_drain_timeout o);
  d_handshake_timeout ← duration (at_key "handshake_timeout") (so_handshake_timeout o);
  d_ws ← load_session (str "cornet.http.server.ws") c (so_ws o);
  Done {|
    so_port := or_int U16 (at_key "port") (so_port o);
    so_address := or_string (at_key "address") (so_address o);
    so_max_header_bytes := or_int U32 (at_key "max_header_bytes") (so_max_header_bytes o);
    so_max_headers := or_int U16 (at_key "max_headers") (so_max_headers o);
    so_max_trailers := or_int U16 (at_key "max_trailers") (so_max_trailers o);
    so_max_body_bytes := or_int U64 (at_key "max_body_bytes") (so_max_body_bytes o);
    so_aggregate_threshold := or_int U32 (at_key "aggregate_threshold") (so_aggregate_threshold o);
    so_stream_window_bytes := or_int U32 (at_key "stream_window_bytes") (so_stream_window_bytes o);
    so_max_pipelined := or_int U16 (at_key "max_pipelined") (so_max_pipelined o);
    so_max_connections := or_int U32 (at_key "max_connections") (so_max_connections o);
    so_head_buffer_bytes := so_head_buffer_bytes o;
    so_hdr_buffer_bytes := so_hdr_buffer_bytes o;
    so_body_buffer_bytes := so_body_buffer_bytes o;
    so_idle_timeout := d_idle_timeout;
    so_header_timeout := d_header_timeout;
    so_body_timeout := d_body_timeout;
    so_timer_tick := d_timer_tick;
    so_drain_timeout := d_drain_timeout;
    so_handshake_timeout := d_handshake_timeout;
    so_tcp_nodelay := or_bool (at_key "tcp_nodelay") (so_tcp_nodelay o);
    so_reuse_port := or_bool (at_key "reuse_port") (so_reuse_port o);
    so_serve_date_header := or_bool (at_key "serve_date_header") (so_serve_date_header o);
    so_serve_server_header := or_bool (at_key "serve_server_header") (so_serve_server_header o);
    so_lenient_headers := or_bool (at_key "lenient_headers") (so_lenient_headers o);
    so_lenient_chunked_length := or_bool (at_key "lenient_chunked_length") (so_lenient_chunked_length o);
    so_lenient_keep_alive := or_bool (at_key "lenient_keep_alive") (so_lenient_keep_alive o);
    so_ws := d_ws |}.

(** [http::client_options_t] *)
Record client_options_t := {
  co_max_header_bytes : Z; co_max_headers : Z; co_max_trailers : Z; co_max_body_bytes : Z; co_aggregate_threshold : Z;
  co_head_buffer_bytes : Z; co_hdr_buffer_bytes : Z; co_chunk_buffer_bytes : Z; co_max_conns_per_host : Z; co_max_idle_per_host : Z;
  co_max_total_conns : Z; co_max_retries : Z; co_max_redirects : Z; co_tcp_nodelay : bool; co_send_user_agent : bool; co_send_accept : bool;
  co_user_agent : bytes; co_lenient_headers : bool; co_lenient_chunked_length : bool; co_lenient_keep_alive : bool; co_tls_verify : bool;
  co_tls_ca_file : bytes; co_tls_ca_dir : bytes; co_tls_ca_pem : bytes; co_tls_server_name : bytes; co_handshake_timeout : Z;
  co_dns_cache_entries : Z; co_dns_cache_ttl : Z; co_connect_timeout : Z; co_write_timeout : Z; co_response_timeout : Z; co_body_timeout : Z;
  co_total_timeout : Z; co_idle_timeout : Z; co_pool_wait_timeout : Z; co_timer_tick : Z }.

Definition load_client (c : config_t) (o : client_options_t) : load_result client_options_t :=
  let at_key k := at_path c (key (str "cornet.http.client") k) in
  d_dns_cache_ttl ← duration (at_key "dns_cache_ttl") (co_dns_cache_ttl o);
  d_connect_timeout ← duration (at_key "connect_timeout") (co_connect_timeout o);
  d_write_timeout ← duration (at_key "write_timeout") (co_write_timeout o);
  d_response_timeout ← duration (at_key "response_timeout") (co_response_timeout o);
  d_body_timeout ← duration (at_key "body_timeout") (co_body_timeout o);
  d_total_timeout ← duration (at_key "total_timeout") (co_total_timeout o);
  d_idle_timeout ← duration (at_key "idle_timeout") (co_idle_timeout o);
  d_pool_wait_timeout ← duration (at_key "pool_wait_timeout") (co_pool_wait_timeout o);
  d_handshake_timeout ← duration (at_key "handshake_timeout") (co_handshake_timeout o);
  d_timer_tick ← duration (at_key "timer_tick") (co_timer_tick o);
  Done {|
    co_max_header_bytes := or_int U32 (at_key "max_header_bytes") (co_max_header_bytes o);
    co_max_headers := or_int U16 (at_key "max_headers") (co_max_headers o);
    co_max_trailers := or_int U16 (at_key "max_trailers") (co_max_trailers o);
    co_max_body_bytes := or_int U64 (at_key "max_body_bytes") (co_max_body_bytes o);
    co_aggregate_threshold := or_int U32 (at_key "aggregate_threshold") (co_aggregate_threshold o);
    co_head_buffer_bytes := or_int U32 (at_key "head_buffer_bytes") (co_head_buffer_bytes o);
    co_hdr_buffer_bytes := or_int U32 (at_key "hdr_buffer_bytes") (co_hdr_buffer_bytes o);
    co_chunk_buffer_bytes := or_int U32 (at_key "chunk_buffer_bytes") (co_chunk_buffer_bytes o);
    co_max_conns_per_host := or_int U16 (at_key "max_conns_per_host") (co_max_conns_per_host o);
    co_max_idle_per_host := or_int U16 (at_key "max_idle_per_host") (co_max_idle_per_host o);
    co_max_total_conns := or_int U32 (at_key "max_total_conns") (co_max_total_conns o);
    co_max_retries := or_int U8 (at_key "max_retries") (co_max_retries o);
    co_max_redirects := or_int U8 (at_key "max_redirects") (co_max_redirects o);
    co_tcp_nodelay := or_bool (at_key "tcp_nodelay") (co_tcp_nodelay o);
    co_send_user_agent := or_bool (at_key "send_user_agent") (co_send_user_agent o);
    co_send_accept := or_bool (at_key "send_accept") (co_send_accept o);
    co_user_agent := or_string (at_key "user_agent") (co_user_agent o);
    co_lenient_headers := or_bool (at_key "lenient_headers") (co_lenient_headers o);
    co_lenient_chunked_length := or_bool (at_key "lenient_chunked_length") (co_lenient_chunked_length o);
    co_lenient_keep_alive := or_bool (at_key "lenient_keep_alive") (co_lenient_keep_alive o);
    co_tls_verify := or_bool (at_key "tls_verify") (co_tls_verify o);
    co_tls_ca_file := or_string (at_key "tls_ca_file") (co_tls_ca_file o);
    co_tls_ca_dir := or_string (at_key "tls_ca_dir") (co_tls_ca_dir o);
    co_tls_ca_pem := co_tls_ca_pem o;
    co_tls_server_name := or_string (at_key "tls_server_name") (co_tls_server_name o);
    co_handshake_timeout := d_handshake_timeout;
    co_dns_cache_entries := or_int U32 (at_key "dns_cache_entries") (co_dns_cache_entries o);
    co_dns_cache_ttl := d_dns_cache_ttl;
    co_connect_timeout := d_connect_timeout;
    co_write_timeout := d_write_timeout;
    co_response_timeout := d_response_timeout;
    co_body_timeout := d_body_timeout;
    co_total_timeout := d_total_timeout;
    co_idle_timeout := d_idle_timeout;
    co_pool_wait_timeout := d_pool_wait_timeout;
    co_timer_tick := d_timer_tick |}.

(** The [config_t*] of the source may be null. *)
Definition load_with {A} (load : config_t -> A -> load_result A) (config : option config_t) (o : A) : load_result A :=
  match config with None => Done o | Some c => load c o end.

(** [scheduler_t::scheduler_t]: [cpu_batch_] and [io_wait_] in nanoseconds. *)
Definition load_scheduler (config : option config_t) (cpu_batch io_wait : Z) : load_result (Z * Z) :=
  match config with
  | None => Done (cpu_batch, io_wait)
  | Some c =>
      match parse_time_str (or_string (at_path c (str "cornet.context.scheduler.io_wait")) (str "1ms")) with
      | Nanos ns => Done (or_int U64 (at_path c (str "cornet.context.scheduler.cpu_batch")) cpu_batch, ns)
      | Undefined => Undef | _ => Threw
      end
  end.

(** [executor_t::executor_t]: [max_task_nr], an [int] as a [size_t], and
    [thread_nr_]. *)
Definition load_executor (config : option config_t) : Z * Z :=
  match config with
  | None => (16384, 1)
  | Some c => (u64 (or_int I32 (at_path c (str "cornet.context.executor.max_task_nr")) 16384), or_int I32 (at_path c (str "cornet.context.executor.thread_nr")) 1)
  end.

(** *** The ring *)

Definition IORING_SETUP_CQSIZE : Z := 8.
Definition kFlags : list (bytes * Z) :=
  [(str "IOPOLL", 1); (str "SQPOLL", 2); (str "SQ_AFF", 4); (str "CQSIZE", IORING_SETUP_CQSIZE); (str "CLAMP", 16); (str "ATTACH_WQ", 32); (str "R_DISABLED", 64);
   (str "SUBMIT_ALL", 128); (str "COOP_TASKRUN", 256); (str "TASKRUN_FLAG", 512); (str "SINGLE_ISSUER", 4096); (str "DEFER_TASKRUN", 8192)].

Definition setup_flag_from_name (name : bytes) : Z := foldr (fun e r => if bool_decide (e.1 = name) then e.2 else r) 0 kFlags.

Definition kAutoFlags : list Z := [0].

Record ring_params := mk_params { entries_nr : Z; rp_flags : Z; rp_cq_entries : Z }.

(** What the configuration asks of the ring: capacity, flags when it names any,
    and size of the completion queue. *)
Definition ring_config (config : option config_t) : Z * option Z * Z :=
  match config with
  | None => (1024, None, 0)
  | Some c =>
      let flags := at_path c (str "cornet.context.uring.flags") in
      (or_int U32 (at_path c (str "cornet.context.uring.capacity")) 1024,
       match as_array flags with
       | Some arr => Some (fold_left (fun fl n => match value_string n with Some name => fl ||| setup_flag_from_name name | None => fl end) arr 0)
       | None => value_int U32 flags
       end,
       or_int U32 (at_path c (str "cornet.context.uring.cq_size")) 0)
  end.

(** The tiers without flags of the user's; [queue_init] is
    [io_uring_queue_init_params]. *)
Fixpoint auto_init (queue_init : ring_params -> Z) (entries cq cq_extra : Z) (tiers : list Z) : list ring_params * option ring_params :=
  match tiers with
  | [] => ([], None)
  | tier :: tiers =>
      let p := mk_params entries (tier ||| cq_extra) cq in
      let ret := queue_init p in
      if ret =? 0 then ([p], Some p)
      else if (ret =? -22) || (ret =? -95) then let '(l, r) := auto_init queue_init entries cq cq_extra tiers in (p :: l, r)
      else ([p], None)
  end.

(** [uring_t::uring_t]: the rings it tried to make, and the one it made;
    [None] when it throws. *)
Definition init_ring (queue_init : ring_params -> Z) (config : option config_t) : list ring_params * option ring_params :=
  let '(entries, user, cq) := ring_config config in
  let cq_extra := if 0 <? cq then IORING_SETUP_CQSIZE else 0 in
  match user with
  | Some flags =>
      let p := mk_params entries (flags ||| cq_extra) cq in
      ([p], if queue_init p <? 0 then None else Some p)
  | None => auto_init queue_init entries cq cq_extra kAutoFlags
  end.

End Load.

Definition default_session_options : session_options_t := {|
  wo_max_message_bytes := 16777216; wo_idle_timeout := 0; wo_close_timeout := 2000; wo_timer_tick := 100; wo_recv_buffer_bytes := 65536 |}.
Definition default_server_options : server_options_t := {|
  so_port := 8080; so_address := str "0.0.0.0"; so_max_header_bytes := 16384; so_max_headers := 64; so_max_trailers := 0;
  so_max_body_bytes := 8388608; so_aggregate_threshold := 262144; so_stream_window_bytes := 32768; so_max_pipelined := 32;
  so_max_connections := 100000; so_head_buffer_bytes := 4096; so_hdr_buffer_bytes := 8192; so_body_buffer_bytes := 16384;
  so_idle_timeout := 60000; so_header_timeout := 10000; so_body_timeout := 30000; so_timer_tick := 500; so_drain_timeout := 10000;
  so_handshake_timeout := 10000; so_tcp_nodelay := true; so_reuse_port := true; so_serve_date_header := true; so_serve_server_header := true;
  so_lenient_headers := false; so_lenient_chunked_length := false; so_lenient_keep_alive := false; so_ws := default_session_options |}.
Definition default_client_options : client_options_t := {|
  co_max_header_bytes := 16384; co_max_headers := 64; co_max_trailers := 0; co_max_body_bytes := 8388608; co_aggregate_threshold := 262144;
  co_head_buffer_bytes := 4096; co_hdr_buffer_bytes := 4096; co_chunk_buffer_bytes := 4096; co_max_conns_per_host := 8;
  co_max_idle_per_host := 4; co_max_total_conns := 1024; co_max_retries := 1; co_max_redirects := 0; co_tcp_nodelay := true;
  co_send_user_agent := true; co_send_accept := true; co_user_agent := str "cornet"; co_lenient_headers := false;
  co_lenient_chunked_length := false; co_lenient_keep_alive := false; co_tls_verify := true; co_tls_ca_file := []; co_tls_ca_dir := [];
  co_tls_ca_pem := []; co_tls_server_name := []; co_handshake_timeout := 10000; co_dns_cache_entries := 256; co_dns_cache_ttl := 30000;
  co_connect_timeout := 5000; co_write_timeout := 10000; co_response_timeout := 10000; co_body_timeout := 30000; co_total_timeout := 60000;
  co_idle_timeout := 60000; co_pool_wait_timeout := 5000; co_timer_tick := 500 |}.

(** ** What a load keeps *)

Definition session_typed (o : session_options_t) : Prop :=
  fits U64 (wo_max_message_bytes o) /\ fits I64 (wo_idle_timeout o) /\ fits I64 (wo_close_timeout o) /\ fits I64 (wo_timer_tick o) /\
  fits U32 (wo_recv_buffer_bytes o).

Definition server_typed (o : server_options_t) : Prop :=
  fits U16 (so_port o) /\ fits U32 (so_max_header_bytes o) /\ fits U16 (so_max_headers o) /\ fits U16 (so_max_trailers o) /\
  fits U64 (so_max_body_bytes o) /\ fits U32 (so_aggregate_threshold o) /\ fits U32 (so_stream_window_bytes o) /\
  fits U16 (so_max_pipelined o) /\ fits U32 (so_max_connections o) /\ fits U32 (so_head_buffer_bytes o) /\ fits U32 (so_hdr_buffer_bytes o) /\
  fits U32 (so_body_buffer_bytes o) /\ fits I64 (so_idle_timeout o) /\ fits I64 (so_header_timeout o) /\ fits I64 (so_body_timeout o) /\
  fits I64 (so_timer_tick o) /\ fits I64 (so_drain_timeout o) /\ fits I64 (so_handshake_timeout o) /\ session_typed (so_ws o).

Definition client_typed (o : client_options_t) : Prop :=
  fits U32 (co_max_header_bytes o) /\ fits U16 (co_max_headers o) /\ fits U16 (co_max_trailers o) /\ fits U64 (co_max_body_bytes o) /\
  fits U32 (co_aggregate_threshold o) /\ fits U32 (co_head_buffer_bytes o) /\ fits U32 (co_hdr_buffer_bytes o) /\
  fits U32 (co_chunk_buffer_bytes o) /\ fits U16 (co_max_conns_per_host o) /\ fits U16 (co_max_idle_per_host o) /\
  fits U32 (co_max_total_conns o) /\ fits U8 (co_max_retries o) /\ fits U8 (co_max_redirects o) /\ fits I64 (co_handshake_timeout o) /\
  fits U32 (co_dns_cache_entries o) /\ fits I64 (co_dns_cache_ttl o) /\ fits I64 (co_connect_timeout o) /\ fits I64 (co_write_timeout o) /\
  fits I64 (co_response_timeout o) /\ fits I64 (co_body_timeout o) /\ fits I64 (co_total_timeout o) /\ fits I64 (co_idle_timeout o) /\
  fits I64 (co_pool_wait_timeout o) /\ fits I64 (co_timer_tick o).

(** The keys whose value is a duration. *)
Definition session_durations (prefix : bytes) : list bytes :=
  key prefix <$> ["idle_timeout"; "close_timeout"; "timer_tick"].
Definition server_durations : list bytes :=
  (key (str "cornet.http.server") <$> ["idle_timeout"; "header_timeout"; "body_timeout"; "timer_tick"; "drain_timeout"; "handshake_timeout"]) ++
  session_durations (str "cornet.http.server.ws").
Definition client_durations : list bytes :=
  key (str "cornet.http.client") <$>
  ["dns_cache_ttl"; "connect_timeout"; "write_timeout"; "response_timeout"; "body_timeout"; "total_timeout"; "idle_timeout"; "pool_wait_timeout"; "handshake_timeout"; "timer_tick"].

Lemma round_half_even_nonneg p q : 0 <= p -> 0 < q -> 0 <= round_half_even p q.
Proof. intros Hp Hq. pose proof (Z.div_pos p q Hp Hq). unfold round_half_even. cbv zeta. repeat case_match; lia. Qed.

Lemma b64_of_nonneg p q x : 0 <= p -> 0 < q -> b64_of p q = Some x -> 0 <= num x.
Proof.
  intros Hp Hq. unfold b64_of. destruct (p =? 0); [by intros [= <-]|]. cbv zeta. case_match; [done|]. intros [= <-]. unfold num, b64_round. simpl.
  apply Z.mul_nonneg_nonneg; [|apply Z.pow_nonneg; lia]. apply round_half_even_nonneg; [apply Z.mul_nonneg_nonneg; [done|apply Z.pow_nonneg; lia]|].
  apply Z.mul_pos_pos; [done|apply Z.pow_pos_nonneg; lia].
Qed.

Lemma parse_time_range s ns : parse_time_str s = Nanos ns -> 0 <= ns < 2 ^ 63.
Proof.
  unfold parse_time_str, from_chars. destruct (span numeric s) as [a u]. case_bool_decide; [done|]. destruct (decimal a) as [[p q]|] eqn:Hd; [|done].
  apply decimal_nonneg in Hd as [Hp Hq]. destruct (b64_of p q) as [x|] eqn:Hx; [|done]. destruct ((mant x =? 0) && negb (p =? 0)); [done|].
  destruct (find_unit u) as [n|] eqn:Hu; [|done]. apply find_unit_range in Hu. unfold b64_scale. destruct (b64_of (num x * n) (den x)) as [y|] eqn:Hy; [|done].
  pose proof (den_pos x). apply b64_of_nonneg in Hx; [|done..]. apply b64_of_nonneg in Hy; [|lia|done]. pose proof (Z.div_pos (num y) (den y) Hy (den_pos y)).
  cbv zeta. destruct (Z.ltb_spec (num y / den y) (2 ^ 63)); [|done]. intros [= <-]. lia.
Qed.

Section Kept.
Context `{HT : TomlLaws}.

Lemma or_int_fits t n d : fits t d -> fits t (or_int t n d).
Proof. intros Hd. unfold or_int. destruct (value_int t n) eqn:Hv; simpl; [by eapply value_fits|done]. Qed.

Lemma or_int_idem t n d : or_int t n (or_int t n d) = or_int t n d.
Proof. unfold or_int. by destruct (value_int t n). Qed.
Lemma or_bool_idem n d : or_bool n (or_bool n d) = or_bool n d.
Proof. unfold or_bool. by destruct (value_bool n). Qed.
Lemma or_string_idem n d : or_string n (or_string n d) = or_string n d.
Proof. unfold or_string. by destruct (value_string n). Qed.

Lemma duration_fits n d v : duration n d = Done v -> fits I64 d -> fits I64 v.
Proof.
  unfold duration. destruct (value_string n) as [s|].
  - destruct (parse_time_str s) as [ns| | |] eqn:Hp; try done. apply parse_time_range in Hp. intros [= <-] _. simpl.
    pose proof (Z.div_pos ns 1000000 ltac:(lia) ltac:(lia)). pose proof (Z.div_le_upper_bound ns 1000000 ns ltac:(lia) ltac:(lia)). lia.
  - destruct (value_int I64 n) eqn:Hv; intros [= <-]; [intros _; by eapply value_fits|done].
Qed.

Lemma duration_idem n d v : duration n d = Done v -> duration n v = Done v.
Proof.
  unfold duration. destruct (value_string n) as [s|]; [by destruct (parse_time_str s)|]. destruct (value_int I64 n); congruence.
Qed.

(** Text that says a duration in range, or no text at all. *)
Definition says_duration (n : node) : Prop :=
  forall s, value_string n = Some s -> exists p q u, stated s = Some (p, q, u) /\ size s <= 100 /\ p * u < 2 ^ 51 * q.

Lemma duration_done n d : says_duration n -> exists v, duration n d = Done v.
Proof.
  intros Hn. unfold duration. destruct (value_string n) as [s|] eqn:Hs; [|destruct (value_int I64 n); by eexists].
  destruct (Hn s Hs) as (p & q & u & Hst & Hl & Hb). destruct (parse_time_accurate s p q u Hst Hl Hb) as (ns & -> & _). by eexists.
Qed.

Lemma bind_done {A B} (k : A -> load_result B) r b : (r ≫= k) = Done b -> exists a, r = Done a /\ k a = Done b.
Proof. destruct r; try done. eauto. Qed.
End Kept.

#[local] Arguments fits : simpl never.
#[local] Arguments key : simpl never.

(** Takes a load that ended apart into the durations it read. *)
Ltac load_inv H :=
  repeat (apply bind_done in H as (? & ? & H)); injection H as <-.
Create HintDb config.
#[export] Hint Resolve or_int_fits duration_fits : config.

Ltac load_typed := intros HL Ht; load_inv HL; hnf in Ht; repeat match goal with H : _ /\ _ |- _ => destruct H end; hnf; simpl; split_and!; eauto with config.
Ltac load_again :=
  intros HL; load_inv HL; simpl;
  repeat match goal with H : duration ?n _ = Done ?v |- context [duration ?n ?v] => rewrite (duration_idem _ _ _ H); simpl end; rewrite ?or_int_idem, ?or_bool_idem, ?or_string_idem.
Ltac load_done :=
  repeat match goal with |- context [duration ?n ?d] => let v := fresh "v" in let Hv := fresh "Hv" in
    destruct (duration_done n d) as [v Hv]; [assumption|rewrite Hv; simpl; clear Hv] end.

Section Loads.
Context `{HT : TomlLaws}.

Lemma session_load_typed prefix c o o' : load_session prefix c o = Done o' -> session_typed o -> session_typed o'.
Proof. load_typed. Qed.

Lemma session_load_again prefix c o o' : load_session prefix c o = Done o' -> load_session prefix c o' = Done o'.
Proof. unfold load_session. load_again. done. Qed.

Lemma session_load_done prefix c o : Forall (fun k => says_duration (at_path c k)) (session_durations prefix) -> exists o', load_session prefix c o = Done o'.
Proof. unfold session_durations. simpl. rewrite !Forall_cons. intros (? & ? & ? & _). unfold load_session. simpl. load_done. by eexists. Qed.

Lemma server_load_typed c o o' : load_server c o = Done o' -> server_typed o -> server_typed o'.
Proof. unfold server_typed. load_typed. eapply session_load_typed; eauto. Qed.

Lemma server_load_again c o o' : load_server c o = Done o' -> load_server c o' = Done o'.
Proof.
  unfold load_server. load_again.
  match goal with H : load_session _ _ _ = Done _ |- _ => rewrite (session_load_again _ _ _ _ H) end. done.
Qed.

Lemma server_load_done c o : Forall (fun k => says_duration (at_path c k)) server_durations -> exists o', load_server c o = Done o'.
Proof.
  unfold server_durations. rewrite Forall_app. intros [Hd Hs]. simpl in Hd. rewrite !Forall_cons in Hd. destruct Hd as (? & ? & ? & ? & ? & ? & _).
  unfold load_server. simpl. load_done. destruct (session_load_done _ _ (so_ws o) Hs) as [ws ->]. by eexists.
Qed.

Lemma client_load_typed c o o' : load_client c o = Done o' -> client_typed o -> client_typed o'.
Proof. load_typed. Qed.

Lemma client_load_again c o o' : load_client c o = Done o' -> load_client c o' = Done o'.
Proof. unfold load_client. load_again. done. Qed.

Lemma client_load_done c o : Forall (fun k => says_duration (at_path c k)) client_durations -> exists o', load_client c o = Done o'.
Proof.
  unfold client_durations. simpl. rewrite !Forall_cons. intros (? & ? & ? & ? & ? & ? & ? & ? & ? & ? & _). unfold load_client. simpl. load_done. by eexists.
Qed.
End Loads.

(** ** Configuration as a whole *)

(** A duration of up to [2 ^ 51] nanoseconds (26 days) written as a decimal
    with a unit is read to within one nanosecond, exactly when its number is
    whole, and text that says no duration is refused.  Loading options keeps
    every field in the range of its C++ type, ends whenever the texts of the
    duration keys say durations, and changes nothing when done again. *)
Theorem config_sound `{TomlLaws} :
  (forall s p q n, stated s = Some (p, q, n) -> size s <= 100 -> p * n < 2 ^ 51 * q ->
     exists ns, parse_time_str s = Nanos ns /\ Z.abs (ns - p * n / q) <= 1 /\ (q = 1 -> ns = p * n)) /\
  (forall s, stated s = None -> parse_time_str s = BadNumber \/ parse_time_str s = BadUnit) /\
  (forall c o, Forall (fun k => says_duration (at_path c k)) server_durations ->
     exists o', load_server c o = Done o' /\ load_server c o' = Done o' /\ (server_typed o -> server_typed o')) /\
  (forall c o, Forall (fun k => says_duration (at_path c k)) client_durations ->
     exists o', load_client c o = Done o' /\ load_client c o' = Done o' /\ (client_typed o -> client_typed o')).
Proof.
  split_and!; [apply parse_time_accurate|apply parse_time_refused|intros c o Hd..].
  - destruct (server_load_done c o Hd) as [o' Ho]. exists o'. split_and!; [done|by eapply server_load_again|by eapply server_load_typed].
  - destruct (client_load_done c o Hd) as [o' Ho]. exists o'. split_and!; [done|by eapply client_load_again|by eapply client_load_typed].
Qed.

(** The ring is the one the configuration asks for or none: flags that were set
    are tried once and never dropped, and without them the ring is made with no
    flag but the size of its completion queue. *)
Theorem ring_as_asked `{Toml} queue_init config tried made :
  init_ring queue_init config = (tried, made) ->
  let '(entries, user, cq) := ring_config config in
  let p := mk_params entries (default 0 user ||| (if 0 <? cq then IORING_SETUP_CQSIZE else 0)) cq in
  tried = [p] /\ (forall r, made = Some r -> r = p /\ 0 <= queue_init p) /\ (made = None -> queue_init p <> 0).
Proof.
  unfold init_ring. destruct (ring_config config) as [[entries user] cq]. cbv zeta. destruct user as [flags|]; simpl default.
  - intros [= <- <-]. destruct (Z.ltb_spec (queue_init (mk_params entries (flags ||| (if 0 <? cq then IORING_SETUP_CQSIZE else 0)) cq)) 0); split_and!; try done; try lia.
    intros r [= <-]. by split.
  - simpl. set (p := mk_params _ _ _). destruct (Z.eqb_spec (queue_init p) 0) as [Hz|Hz]; [|case_match]; intros [= <- <-]; split_and!; try done.
    intros r [= <-]. split; [done|lia].
Qed.

(** ** Evaluation *)

Module ToyToml.
Inductive value := TInt (v : Z) | TBool (b : bool) | TText (s : bytes) | TArray (l : list bytes).
Definition holds (t : int_type) (v : Z) : bool :=
  match t with
  | U8 => (0 <=? v) && (v <? 2 ^ 8) | U16 => (0 <=? v) && (v <? 2 ^ 16) | U32 => (0 <=? v) && (v <? 2 ^ 32) | U64 => (0 <=? v) && (v <? 2 ^ 63)
  | I32 => (- 2 ^ 31 <=? v) && (v <? 2 ^ 31) | I64 => (- 2 ^ 63 <=? v) && (v <? 2 ^ 63)
  end.
#[export] Instance toy_toml : Toml := {
  config_t := list (bytes * value); node := option value;
  at_path c k := foldr (fun e r => if bool_decide (e.1 = k) then Some e.2 else r) None c;
  value_int t n := match n with Some (TInt v) => if holds t v then Some v else None | _ => None end;
  value_bool n := match n with Some (TBool b) => Some b | _ => None end;
  value_string n := match n with Some (TText s) => Some s | _ => None end;
  as_array n := match n with Some (TArray l) => Some (Some ∘ TText <$> l) | _ => None end
}.
#[export] Instance toy_toml_laws : TomlLaws.
Proof.
  intros t n v. simpl. destruct n as [[z| | |]|]; try done. destruct (holds t z) eqn:Hh; [|done]. intros [= <-].
  destruct t; unfold fits, holds in *; apply andb_true_iff in Hh as [Ha%Z.leb_le Hb%Z.ltb_lt]; lia.
Qed.

Definition file : list (bytes * value) :=
  [(str "cornet.http.server.port", TInt 9000); (str "cornet.http.server.max_headers", TInt 70000); (str "cornet.http.server.idle_timeout", TText (str "1.5s"));
   (str "cornet.http.server.body_timeout", TInt 250); (str "cornet.http.server.lenient_headers", TBool true);
   (str "cornet.http.client.tls_ca_file", TText (str "ca.pem")); (str "cornet.http.client.write_timeout", TText (str "2m"));
   (str "cornet.context.uring.flags", TArray [str "SINGLE_ISSUER"; str "typo"; str "CLAMP"]); (str "cornet.context.uring.cq_size", TInt 4096)].
End ToyToml.
Import ToyToml.

(** A file with text and number durations, and a port that does not fit. *)
Lemma config_sound_witness :
  parse_time_str (str "90s") = Nanos 90000000000 /\ parse_time_str (str "ms") = BadNumber /\
  (exists o, load_server file default_server_options = Done o /\ so_port o = 9000 /\ so_max_headers o = 64 /\ so_idle_timeout o = 1500 /\ so_body_timeout o = 250 /\
    so_lenient_headers o = true /\ server_typed o) /\
  (exists o, load_client file default_client_options = Done o /\ co_write_timeout o = 120000 /\ co_tls_ca_file o = str "ca.pem" /\ client_typed o).
Proof.
  destruct (config_sound (H := toy_toml)) as (Ht & Hr & Hs & Hc). split_and!.
  - destruct (Ht (str "90s") 90 1 1000000000) as (ns & -> & _ & Hn); [reflexivity|reflexivity || (vm_compute; discriminate)|reflexivity|]. by rewrite Hn.
  - destruct (Hr (str "ms")) as [Hb|Hb]; [reflexivity|exact Hb|vm_compute in Hb; discriminate].
  - destruct (Hs file default_server_options) as (o & Ho & _ & Hty).
    { repeat constructor; intros s Hs'; vm_compute in Hs'; try discriminate. injection Hs' as <-. exists 15, 10, 1000000000. split; [reflexivity|]. split; [by vm_compute|lia]. }
    pose proof Ho as Ho'. vm_compute in Ho'. injection Ho' as <-. eexists. split; [exact Ho|]. do 5 (split; [reflexivity|]). apply Hty. repeat split; vm_compute; congruence.
  - destruct (Hc file default_client_options) as (o & Ho & _ & Hty).
    { repeat constructor; intros s Hs'; vm_compute in Hs'; try discriminate. injection Hs' as <-. exists 2, 1, 60000000000. split; [reflexivity|]. split; [by vm_compute|lia]. }
    pose proof Ho as Ho'. vm_compute in Ho'. injection Ho' as <-. eexists. split; [exact Ho|]. do 2 (split; [reflexivity|]). apply Hty. repeat split; vm_compute; congruence.
Defined.

(** The same ring with its flags named: the unknown name is dropped. *)
Lemma ring_as_asked_witness :
  init_ring (fun p => if rp_flags p =? 4120 then 0 else -22) (Some file) = ([mk_params 1024 4120 4096], Some (mk_params 1024 4120 4096)) /\ 0 <= 0.
Proof.
  assert (Hi : init_ring (fun p => if rp_flags p =? 4120 then 0 else -22) (Some file) = ([mk_params 1024 4120 4096], Some (mk_params 1024 4120 4096))) by reflexivity.
  split; [exact Hi|]. destruct (ring_as_asked _ _ _ _ Hi) as (_ & Hm & _). destruct (Hm _ eq_refl) as [_ Hq]. exact Hq.
Defined.

(** The product with the unit is truncated, and so is the cast to milliseconds:
    a duration whose double lies below its decimal loses a whole millisecond. *)
Example decimal_seconds_short : parse_time_str (str "4.1s") = Nanos 4099999999 /\ 4099999999 / 1000000 = 4099.
Proof. by vm_compute. Qed.

(** A bare zero, which conf/default.toml gives as the way to switch a timeout
    off, has no unit and is refused. *)
Example zero_without_unit : parse_time_str (str "0") = BadUnit.
Proof. reflexivity. Qed.

(** What follows a second point is skipped. *)
Example second_point_ignored : parse_time_str (str "1.2.3s") = Nanos 1200000000.
Proof. by vm_compute. Qed.

(** A large number of hours is a double that no [int64_t] holds. *)
Example hours_overflow : parse_time_str (str "3000000h") = Undefined.
Proof. by vm_compute. Qed.

(** An [io_wait] given as a number is not text: the built-in default is used. *)
Example io_wait_number_ignored : load_scheduler (Some [(str "cornet.context.scheduler.io_wait", TInt 5)]) 64 1000000 = Done (64, 1000000).
Proof. by vm_compute. Qed.

(** A negative [max_task_nr] becomes the largest capacity; [thread_nr] may be
    nothing or less, and then nobody runs what is offloaded. *)
Example executor_unchecked :
  load_executor (Some [(str "cornet.context.executor.max_task_nr", TInt (-1)); (str "cornet.context.executor.thread_nr", TInt 0)]) = (18446744073709551615, 0).
Proof. by vm_compute. Qed.
