(* ===== verification/ClientOpen.v ===== *)
(** * Opening client connections

    How an HTTP client is set up and comes by a connection: the constructors of
    [client_t] and [server_t] with their configuration, the context for TLS that
    [client_t::borrow] makes on the first https request, and
    [client_connection_t::open] (src/http/client/client.cc,
    src/http/client/connection.cc, src/http/server/server.cc).  The parts are
    those of Config, TlsContext, Sockets and TlsTransport; the theorem follows
    the verification of the peer through all of them. *)

From Stdlib Require Import String.
From stdpp Require Import prelude list list_numbers gmap.
From Stdlib Require Import ZArith Lia.
From S2P Require Import Prelude TlsContext Transport TlsEngine TlsStream TlsTransport TlsPeer Sockets Config.
Open Scope string_scope.
Open Scope list_scope.
Open Scope Z_scope.

(** ** Construction *)

(** The wheel is taken in the list of initialisers, the configuration loaded in
    the body: the tick of the wheel, and the options. *)
Definition new_client `{Toml} (config : option config_t) (opt : client_options_t) : Z * load_result client_options_t :=
  (co_timer_tick opt, load_with load_client config opt).
Definition new_server `{Toml} (config : option config_t) (opt : server_options_t) : Z * load_result server_options_t :=
  (so_timer_tick opt, load_with load_server config opt).

(** ** TLS on demand *)

Inductive scheme_t := Http | Https.

(** The options a client passes on; its protocol is the default of
    [tls_client_options_t]. *)
Definition tls_options (o : client_options_t) : tls_client_options_t :=
  mk_client_options (co_tls_verify o) (co_tls_ca_file o) (co_tls_ca_dir o) (co_tls_ca_pem o) (str "http/1.1").

(** The first half of [borrow]: [tls] is [opt_.tls]. *)
Definition ensure_tls `{CtxOps} (scheme : scheme_t) (o : client_options_t) (tls : option tls_context_t) (w : world)
  : option (expected unit) * option tls_context_t * world :=
  match scheme, tls with
  | Https, None =>
      match make_client (tls_options o) w with
      | (Some (Ok h), w) => (Some (Ok tt), Some h, w)
      | (Some (Unexpected e), w) => (Some (Unexpected e), None, w)
      | (None, w) => (None, None, w)
      end
  | _, _ => (Some (Ok tt), tls, w)
  end.

(** ** [client_connection_t::open] *)

Record client_metrics_t := mk_metrics { dns_lookups : Z; connect_errors : Z; conn_created : Z; conn_closed : Z }.
Definition count_lookup (m : client_metrics_t) := mk_metrics (dns_lookups m + 1) (connect_errors m) (conn_created m) (conn_closed m).
Definition count_error (m : client_metrics_t) := mk_metrics (dns_lookups m) (connect_errors m + 1) (conn_created m) (conn_closed m).
Definition count_created (m : client_metrics_t) := mk_metrics (dns_lookups m) (connect_errors m) (conn_created m + 1) (conn_closed m).
Definition count_closed (m : client_metrics_t) := mk_metrics (dns_lookups m) (connect_errors m) (conn_created m) (conn_closed m + 1).

(** What the world answers: the numeric parsers, the resolver, the socket that
    is made, the connect to an address, whether the deadlines had fired, and
    whether the buffer pool has a block for the head. *)
Record open_env := mk_env {
  pton4 : bytes -> option bytes; pton6 : bytes -> option bytes; lookup : Z + list address_t;
  sock : sock_t; sock_errno : Z; connect : address_t -> expected unit; fired_connect : bool; fired_handshake : bool; head_ok : bool }.

Definition ENOMEM : Z := 12.

Section Open.
Context `{CtxOps}.

Record client_connection_t := mk_connection { tr_ : transport_t; conn_host : bytes; conn_port : Z; scheme_ : scheme_t; keep_alive_ : bool }.

(** A given address is used as it is; otherwise the host is resolved. *)
Definition open_address (env : open_env) (pre : option address_t) (host : bytes) (port : Z) (m : client_metrics_t) : expected address_t * client_metrics_t :=
  match pre with
  | Some a => (Ok a, m)
  | None =>
      let m := match try_resolve_numeric (pton4 env) (pton6 env) host port with Some _ => m | None => count_lookup m end in
      match resolve (pton4 env) (pton6 env) (lookup env) host port AF_UNSPEC with
      | Unexpected e => (Unexpected e, count_error m)
      | Ok a => (Ok a, m)
      end
  end.

(** [~client_connection_t], of a connection that has a transport and nothing else. *)
Definition destroy_connection (t : transport_t) (m : client_metrics_t) : list Z * client_metrics_t :=
  if 0 <=? native_fd t then
    let '(t, c) := abandon t in (option_list c ++ option_list (destroy_transport t), count_closed m)
  else (option_list (destroy_transport t), m).

(** The result, the descriptors closed on the way, the counters. *)
Definition open (env : open_env) (o : client_options_t) (tls : option tls_context_t) (pre : option address_t) (host : bytes) (port : Z) (scheme : scheme_t) (m : client_metrics_t)
  : outcome (expected client_connection_t * list Z * client_metrics_t) :=
  let '(addr, m) := open_address env pre host port m in
  match addr with
  | Unexpected e => Ret (Unexpected e, [], m)
  | Ok addr =>
      let sni := if bool_decide (co_tls_server_name o = []) then host else co_tls_server_name o in
      let tls_cx := match scheme with Https => (fun h => native_ctx (Some h)) <$> tls | Http => None end in
      let server_name := match scheme with Https => sni | Http => [] end in
      let+ (r, closed) := dial (sock env) (sock_errno env) (connect env addr) tls_cx server_name (fired_connect env) (fired_handshake env) in
      match r with
      | Unexpected e => Ret (Unexpected e, closed, count_error m)
      | Ok tr =>
          if head_ok env then Ret (Ok (mk_connection tr host port scheme true), closed, count_created m)
          else let '(c, m) := destroy_connection tr m in Ret (Unexpected (system_error ENOMEM), closed ++ c, m)
      end
  end.
End Open.

(** The name the certificate of the peer is checked for. *)
Definition sni_host (o : client_options_t) (host : bytes) : bytes := if bool_decide (co_tls_server_name o = []) then host else co_tls_server_name o.

(** ** What opening guarantees *)

Section Sound.
Context `{S : Ssl} `{V : !SslView} `{L : !SslLaws} `{SS : !SslSetupLaws} `{CO : !CtxOps} `{CL : !CtxLaws} `{VL : !VerifyLaws}.

(** A connection owns the descriptor that was made, and is counted as created;
    a failure has closed the descriptor, once, unless none was made because the
    host has no address. *)
Definition opened_well (env : open_env) (addr : expected address_t) (m : client_metrics_t) (r : outcome (expected client_connection_t * list Z * client_metrics_t)) : Prop :=
  match r with
  | Ret (Ok c, closed, m') => closed = [] /\ native_fd (tr_ c) = fd_ (sock env) /\ 0 <= fd_ (sock env) /\ conn_created m' = conn_created m + 1 /\ connect_errors m' = connect_errors m
  | Ret (Unexpected _, closed, m') => closed = (match addr with Ok _ => [fd_ (sock env)] | Unexpected _ => [] end) /\ conn_created m' = conn_created m
  | Thrown => fd_ (sock env) < 0 (* no descriptor was made *)
  | Suspended => True
  | _ => False
  end.

Lemma open_address_counts env pre host port m a m' :
  open_address env pre host port m = (a, m') -> conn_created m' = conn_created m /\ (forall x, a = Ok x -> connect_errors m' = connect_errors m).
Proof. unfold open_address. destruct pre; [by intros [= <- <-]|]. repeat case_match; intros [= <- <-]; by split. Qed.

Lemma open_runs env o tls pre host port scheme m : wire (sock env) = [] -> opened_well env (open_address env pre host port m).1 m (open env o tls pre host port scheme m).
Proof.
  intros Hw. unfold open. destruct (open_address env pre host port m) as [[a|e] m1] eqn:Ha; apply open_address_counts in Ha as [Hc He]; [|by split].
  cbv zeta. set (cx := match scheme with Https => _ | Http => None end). set (name := match scheme with Https => _ | Http => _ end).
  pose proof (dial_runs (sock env) (sock_errno env) (connect env a) cx name (fired_connect env) (fired_handshake env) Hw) as Hd. unfold dialled in Hd.
  destruct (dial _ _ _ _ _ _ _) as [[[t|e] closed]| | | |]; cbn [bind_out]; try done.
  - destruct Hd as (-> & Hn & Hf & _). destruct (head_ok env); simpl; [rewrite Hc, (He a eq_refl); by split_and!|].
    unfold destroy_connection. destruct (Z.leb_spec 0 (native_fd t)) as [Hp|]; [|lia]. pose proof (abandon_once t Hp) as Hb. destruct (abandon t) as [t' c].
    simpl. split; [by rewrite Hb, Hn|done].
  - destruct Hd as [-> _]. by split.
Qed.

Lemma open_verified env o h pre host port m c closed m' :
  vw_verify (view (ctx h)) = SSL_VERIFY_PEER -> open env o (Some h) pre host port Https m = Ret (Ok c, closed, m') -> verified_peer (host_asked (c_str (sni_host o host))) (tr_ c).
Proof.
  intros Hv. unfold open. destruct (open_address env pre host port m) as [[a|e] m1]; [|done]. cbv zeta. simpl fmap. unfold native_ctx. simpl fmap.
  destruct (dial _ _ _ _ _ _ _) as [[[t|e] cl]| | | |] eqn:Hd; cbn [bind_out]; try done. destruct (head_ok env); [|by destruct (destroy_connection t m1)].
  intros [= <- _ _]. simpl. by eapply dial_verified.
Qed.
End Sound.

(** C18: Over any OpenSSL that behaves as documented, the first https request of
    a client makes a context or fails with nothing left over, and from then on,
    with verification on, a connection opened for https is a TLS stream whose
    handshake ended and whose peer presented a certificate that OpenSSL
    verified against exactly the anchors the client's options name, for the
    server name of the options or, without one, the host of the request (an
    empty name asks for no check of it); in every case an opened connection
    owns the one descriptor that was made and is counted once; a failed opening
    has closed it exactly once, or made none because the host did not resolve;
    it throws only when no descriptor could be made. *)
Theorem https_peer_verified `{S : Ssl} `{V : !SslView} `{L : !SslLaws} `{SS : !SslSetupLaws} `{CO : !CtxOps} `{CL : !CtxLaws} `{VL : !VerifyLaws} o w r tls w' :
  fresh_world w -> size (co_tls_ca_pem o) < 2 ^ 31 -> co_tls_verify o = true ->
  ensure_tls Https o None w = (r, tls, w') ->
  match r with
  | Some (Ok _) => forall env pre host port m, wire (sock env) = [] ->
      opened_well env (open_address env pre host port m).1 m (open env o tls pre host port Https m) /\
      forall c closed m', open env o tls pre host port Https m = Ret (Ok c, closed, m') ->
        verified_peer (host_asked (c_str (sni_host o host))) (tr_ c) /\ exists h, tls = Some h /\ vw_trust (view (ctx h)) = anchors_asked (tls_options o) /\ anchors_asked (tls_options o) <> []
  | Some (Unexpected _) => tls = None /\ owns ∅ w w'
  | None => False
  end.
Proof.
  intros Hw Hs Hv. unfold ensure_tls.
  pose proof (make_context_ok TLS_client_method false [] (client_setup (tls_options o)) (client_as_asked (tls_options o)) w Hw (fun c X w1 Hf Ho => client_setup_ok (tls_options o) X w c w1 Hf Ho Hs)) as Hk.
  change (make_context TLS_client_method false [] (client_setup (tls_options o)) w) with (make_client (tls_options o) w) in Hk.
  destruct (make_client (tls_options o) w) as [[[h|e]|] w1]; intros [= <- <- <-]; simpl in Hk; [|by destruct Hk|done].
  destruct Hk as (_ & (_ & Hvp & Ht & Hne & _) & _). simpl in Hvp, Ht, Hne. rewrite Hv in *.
  intros env pre host port m Hwire. split; [by apply open_runs|]. intros c closed m' Ho. split; [by eapply open_verified|].
  exists h. split_and!; [done|done|]. rewrite <- Ht. auto.
Qed.

Import TlsContext.Toy ToyToml.

(** ** Evaluation *)

Definition https_options : client_options_t :=
  {| co_max_header_bytes := 16384; co_max_headers := 64; co_max_trailers := 0; co_max_body_bytes := 8388608; co_aggregate_threshold := 262144; co_head_buffer_bytes := 4096;
     co_hdr_buffer_bytes := 4096; co_chunk_buffer_bytes := 4096; co_max_conns_per_host := 8; co_max_idle_per_host := 4; co_max_total_conns := 1024; co_max_retries := 1;
     co_max_redirects := 0; co_tcp_nodelay := true; co_send_user_agent := true; co_send_accept := true; co_user_agent := []; co_lenient_headers := false;
     co_lenient_chunked_length := false; co_lenient_keep_alive := false; co_tls_verify := true; co_tls_ca_file := []; co_tls_ca_dir := []; co_tls_ca_pem := [67; 1];
     co_tls_server_name := []; co_handshake_timeout := 0; co_dns_cache_entries := 0; co_dns_cache_ttl := 0; co_connect_timeout := 0; co_write_timeout := 0;
     co_response_timeout := 0; co_body_timeout := 0; co_total_timeout := 0; co_idle_timeout := 0; co_pool_wait_timeout := 0; co_timer_tick := 500 |}.

Definition one_address : address_t := mk_address AF_INET [10; 0; 0; 1] 443.
Definition answering (fd : Z) (head : bool) : open_env :=
  mk_env (fun _ => None) (fun _ => None) (inr [one_address]) (mk_sock fd [Sent 9; Sent 9] [Arrived [1]] [] []) 24 (fun _ => Ok tt) false false head.

(** The first request of a client with an anchor in memory, to a peer certified
    by it. *)
Lemma https_peer_verified_witness :
  exists tls w' c m', ensure_tls Https https_options None start = (Some (Ok tt), tls, w') /\
    open (answering 7 true) https_options tls None [104] 443 Https (mk_metrics 0 0 0 0) = Ret (Ok c, [], m') /\
    native_fd (tr_ c) = 7 /\ m' = mk_metrics 1 0 1 0 /\ verified_peer (Some [104]) (tr_ c).
Proof.
  destruct (ensure_tls Https https_options None start) as [[r tls] w'] eqn:He.
  pose proof (https_peer_verified https_options start r tls w' start_fresh ltac:(reflexivity) eq_refl He) as Hs.
  pose proof He as He'. vm_compute in He'. injection He' as <- <- <-. destruct (Hs (answering 7 true) None [104] 443 (mk_metrics 0 0 0 0) eq_refl) as [_ Hv].
  do 4 eexists. split; [reflexivity|]. split; [vm_compute; reflexivity|]. split; [reflexivity|]. split; [reflexivity|].
  refine (proj1 (Hv _ _ _ _)). vm_compute. reflexivity.
Defined.

(** Without a block for the head the connection is given up: a connection is
    counted as closed that was never counted as created. *)
Example closed_not_created :
  open (answering 7 false) https_options None None [104] 80 Http (mk_metrics 0 0 0 0) = Ret (Unexpected (system_error ENOMEM), [7], mk_metrics 1 0 0 1).
Proof. by vm_compute. Qed.

(** The tick of the configuration comes after the wheel was taken. *)
Example configured_tick_unused :
  new_client (Some [(str "cornet.http.client.timer_tick", TInt 50)]) https_options =
    (500, load_client [(str "cornet.http.client.timer_tick", TInt 50)] https_options) /\
  match load_client [(str "cornet.http.client.timer_tick", TInt 50)] https_options with Done o => co_timer_tick o = 50 | _ => False end.
Proof. by vm_compute. Qed.
