(* ===== verification/ClientRequest.v ===== *)
(** * Outbound requests

    [client_request_t] of src/include/cornet/http/client/message.h and
    src/src/http/client/message.cc, the url cache of
    src/src/http/client/client.cc ([parse_cached]), and the framing of a
    request by src/src/http/client/connection.cc ([frame_request_head],
    [stage_request]).

    [acquire] is the buffer pool: a block of at least the size asked for, or
    nothing.  The bytes a request refers to ([body_static], [body_owned]) are
    in the state as bytes.  The segments given to writev are the wire. *)

From stdpp Require Import prelude list list_numbers strings.
From Stdlib Require Import ZArith Lia.
From S2P Require Import Prelude Protocol Buffer Serializer HeadLines Url.
Open Scope Z_scope.

(** ** Data *)

(** The framing headers the caller wrote itself. *)
Record saw_t := mk_saw {
  saw_host_ : bool; saw_content_length_ : bool; saw_connection_ : bool; saw_transfer_encoding_ : bool;
  saw_user_agent_ : bool; saw_accept_ : bool; saw_expect_ : bool; saw_authorization_ : bool
}.
Definition saw_none : saw_t := mk_saw false false false false false false false false.

(** What the caller set; [None] where the [has_] flag is false. *)
Record overrides_t := mk_overrides {
  timeout_ : option Z; max_retries_ : option Z; max_redirects_ : option Z; idempotent_ : option bool;
  expect_continue_ : bool
}.

Record client_request_t := mk_request {
  url_lease_ : option bytes; url_len_ : Z; url_ : url_t;
  hdr_ : out_buffer_t; body_out_ : out_buffer_t;
  source_ : body_source_t; body_len_ : Z; external_ : bytes;
  method_ : method_t; over_ : overrides_t; saw_ : saw_t; req_err_ : error_t
}.

Definition no_url : url_t := mk_url [] sv_null sv_null sv_null sv_null sv_null Http 80 false false.
Definition no_out : out_buffer_t := mk_out None 0 no_error.

Definition blank_request : client_request_t :=
  mk_request None 0 no_url no_out no_out SrcNone 0 [] Get (mk_overrides None None None None false) saw_none no_error.

Definition set_url (l : option bytes) (n : Z) (u : url_t) (q : client_request_t) : client_request_t :=
  mk_request l n u (hdr_ q) (body_out_ q) (source_ q) (body_len_ q) (external_ q) (method_ q) (over_ q) (saw_ q) (req_err_ q).
Definition set_hdr (h : out_buffer_t) (s : saw_t) (q : client_request_t) : client_request_t :=
  mk_request (url_lease_ q) (url_len_ q) (url_ q) h (body_out_ q) (source_ q) (body_len_ q) (external_ q) (method_ q) (over_ q) s (req_err_ q).
Definition set_body (o : out_buffer_t) (s : body_source_t) (n : Z) (e : bytes) (q : client_request_t) : client_request_t :=
  mk_request (url_lease_ q) (url_len_ q) (url_ q) (hdr_ q) o s n e (method_ q) (over_ q) (saw_ q) (req_err_ q).
Definition set_method (m : method_t) (q : client_request_t) : client_request_t :=
  mk_request (url_lease_ q) (url_len_ q) (url_ q) (hdr_ q) (body_out_ q) (source_ q) (body_len_ q) (external_ q) m (over_ q) (saw_ q) (req_err_ q).
Definition set_over (v : overrides_t) (q : client_request_t) : client_request_t :=
  mk_request (url_lease_ q) (url_len_ q) (url_ q) (hdr_ q) (body_out_ q) (source_ q) (body_len_ q) (external_ q) (method_ q) v (saw_ q) (req_err_ q).
Definition req_fail (e : error_t) (q : client_request_t) : client_request_t :=
  if is_error (req_err_ q) then q
  else mk_request (url_lease_ q) (url_len_ q) (url_ q) (hdr_ q) (body_out_ q) (source_ q) (body_len_ q) (external_ q) (method_ q) (over_ q) (saw_ q) e.

(** ** The url cache *)

Record url_cache_slot_t := mk_slot { slot_raw : bytes; slot_parsed : url_t }.
Abbreviation url_cache := (list url_cache_slot_t).

Definition empty_cache : url_cache := replicate 128 (mk_slot [] no_url).

Definition fnv1a (url : bytes) : Z :=
  fold_left (fun h c => u64 ((h ^^^ c) * 1099511628211)) url 14695981039346656037.

(** The index is the hash modulo the size of the array, so it is in range. *)
Definition parse_cached (c : url_cache) (url : bytes) : url_cache * expected url_t :=
  match url with
  | [] => (c, Unexpected (http_error BadUrl))
  | _ =>
      let i := Z.to_nat (fnv1a url mod Z.of_nat (length c)) in
      let slot := nth i c (mk_slot [] no_url) in
      if bool_decide (slot_raw slot = url) then (c, Ok (slot_parsed slot))
      else match Url.parse url with
           | Unexpected e => (c, Unexpected e)
           | Ok u => (<[i := mk_slot url u]> c, Ok u)
           end
  end.

Section Request.
Context (acquire : Z -> option bytes).

(** ** Building a request *)

(** [retarget]; [owner] is the cache of the client the request belongs to.
    A failed assertion of [rebase] is [None]. *)
Definition retarget (owner : option url_cache) (url : bytes) (q : client_request_t)
    : option (option url_cache * client_request_t * expected unit) :=
  match url with
  | [] => Some (owner, q, Unexpected (http_error BadUrl))
  | _ =>
      let fits := match url_lease_ q with Some b => size url <=? size b | None => false end in
      match (if fits then url_lease_ q else acquire (u32 (size url))) with
      | None => Some (owner, q, Unexpected (system_error ENOMEM))
      | Some block =>
          match write_at block 0 url with
          | None => None
          | Some block =>
              let owned := view_at block 0 (u32 (size url)) in
              match owner with
              | Some c =>
                  let '(c, r) := parse_cached c url in
                  match r with
                  | Unexpected e => Some (Some c, set_url (Some block) (u32 (size url)) (url_ q) q, Unexpected e)
                  | Ok u => match rebase u owned with
                            | None => None
                            | Some u => Some (Some c, set_url (Some block) (u32 (size url)) u q, Ok tt)
                            end
                  end
              | None =>
                  match Url.parse owned with
                  | Unexpected e => Some (None, set_url (Some block) (u32 (size url)) (url_ q) q, Unexpected e)
                  | Ok u => Some (None, set_url (Some block) (u32 (size url)) u q, Ok tt)
                  end
              end
          end
      end
  end.

(** [make]: [init] on a fresh request. *)
Definition make (owner : option url_cache) (m : method_t) (url : bytes) (hdr_bytes : Z)
    : option (option url_cache * expected client_request_t) :=
  let q := set_method m blank_request in
  match acquire hdr_bytes with
  | None => Some (owner, Unexpected (system_error ENOMEM))
  | Some h =>
      let q := set_hdr (reset (Some h) (hdr_ q)) (saw_ q) q in
      match retarget owner url q with
      | None => None
      | Some (owner, q, Ok _) => Some (owner, Ok q)
      | Some (owner, _, Unexpected e) => Some (owner, Unexpected e)
      end
  end.

Definition note_framing_header (f : field_t) (s : saw_t) : saw_t :=
  let '(mk_saw h cl cn te ua ac ex au) := s in
  match f with
  | Host => mk_saw true cl cn te ua ac ex au
  | ContentLength => mk_saw h true cn te ua ac ex au
  | Connection => mk_saw h cl true te ua ac ex au
  | TransferEncoding => mk_saw h cl cn true ua ac ex au
  | UserAgent => mk_saw h cl cn te true ac ex au
  | Accept => mk_saw h cl cn te ua true ex au
  | Expect => mk_saw h cl cn te ua ac true au
  | Authorization => mk_saw h cl cn te ua ac ex true
  | _ => s
  end.

(** The three overloads of [header]. *)
Definition req_header_field (f : field_t) (value : bytes) (q : client_request_t) : client_request_t :=
  set_hdr (header_field f value (hdr_ q)) (note_framing_header f (saw_ q)) q.
Definition req_header (name value : bytes) (q : client_request_t) : client_request_t :=
  set_hdr (header_name name value (hdr_ q)) (note_framing_header (field_from_name name) (saw_ q)) q.
Definition req_header_u64 (f : field_t) (value : Z) (q : client_request_t) : client_request_t :=
  set_hdr (header_u64 f value (hdr_ q)) (note_framing_header f (saw_ q)) q.

Definition drop_body (q : client_request_t) : client_request_t :=
  set_body (clear (body_out_ q)) SrcNone 0 [] q.

Definition ensure_body_buffer (n : Z) (q : client_request_t) : client_request_t * expected unit :=
  let enough := match lease_ (body_out_ q) with Some b => n <=? size b | None => false end in
  if enough then (q, Ok tt)
  else match acquire n with
       | None => (q, Unexpected (system_error ENOMEM))
       | Some b => (set_body (reset (Some b) (body_out_ q)) (source_ q) (body_len_ q) (external_ q) q, Ok tt)
       end.

Definition req_body (data : bytes) (q : client_request_t) : client_request_t :=
  if negb (bool_decide (source_ q = SrcNone)) then req_fail (http_error InvalidState) q
  else match data with
       | [] => q
       | _ =>
           match ensure_body_buffer (u32 (size data)) q with
           | (q, Unexpected e) => req_fail e q
           | (q, Ok _) =>
               let o := put data (body_out_ q) in
               let q := set_body o (source_ q) (body_len_ q) (external_ q) q in
               if failed o then req_fail (err_ o) q
               else set_body o SrcInline (size data) (external_ q) q
           end
       end.

Definition body_static (data : bytes) (q : client_request_t) : client_request_t :=
  if negb (bool_decide (source_ q = SrcNone)) then req_fail (http_error InvalidState) q
  else match data with
       | [] => q
       | _ => set_body (body_out_ q) SrcExternal (size data) data q
       end.

(** [lease] is the block handed over; [len] of its bytes are the body. *)
Definition body_owned (lease : option bytes) (len : Z) (q : client_request_t) : client_request_t :=
  if negb (bool_decide (source_ q = SrcNone)) then req_fail (http_error InvalidState) q
  else match lease with
       | None => q
       | Some b => if len =? 0 then q else set_body (body_out_ q) SrcExternal len (view_at b 0 len) q
       end.

Definition inline_body (q : client_request_t) : bytes :=
  match lease_ (body_out_ q) with Some _ => out_view (body_out_ q) | None => [] end.

Definition body_view (q : client_request_t) : bytes :=
  match source_ q with SrcInline => inline_body q | SrcExternal => external_ q | _ => [] end.

Definition req_error (q : client_request_t) : error_t :=
  if is_error (req_err_ q) then req_err_ q
  else if failed (hdr_ q) then err_ (hdr_ q)
  else if failed (body_out_ q) then err_ (body_out_ q)
  else no_error.

Definition req_failed (q : client_request_t) : bool := is_error (req_error q).

(** ** Framing *)

Record framing_options_t := mk_framing { send_user_agent : bool; send_accept : bool; user_agent : bytes }.

Definition method_needs_zero_length (m : method_t) : bool :=
  match m with Post | Put | Patch => true | _ => false end.

Definition frame_request_head (opt : framing_options_t) (q : client_request_t) (chunked_upload : bool) (o : out_buffer_t) : out_buffer_t :=
  let s := saw_ q in
  let o := request_line (method_ q) (sv_text (path_ (url_ q))) (sv_text (query_ (url_ q))) Http11 o in
  let o := when (negb (saw_host_ s)) (header_field Host (sv_text (authority_ (url_ q)))) o in
  let o := when (send_user_agent opt && negb (saw_user_agent_ s)) (header_field UserAgent (user_agent opt)) o in
  let o := when (send_accept opt && negb (saw_accept_ s)) (header_field Accept (str "*/*")) o in
  let o := when (negb (saw_connection_ s)) (header_field Connection (str "keep-alive")) o in
  let o :=
    if chunked_upload then when (negb (saw_transfer_encoding_ s)) (header_field TransferEncoding (str "chunked")) o
    else when (negb (saw_content_length_ s) && negb (saw_transfer_encoding_ s) &&
               ((0 <? body_len_ q) || method_needs_zero_length (method_ q)))
           (header_u64 ContentLength (body_len_ q)) o in
  when (expect_continue_ (over_ q) && negb (saw_expect_ s) && (0 <? body_len_ q))
    (header_field Expect (str "100-continue")) o.

Definition frame_head (opt : framing_options_t) (q : client_request_t) (chunked_upload : bool) (head_out : out_buffer_t) : out_buffer_t :=
  frame_request_head opt q chunked_upload (clear head_out).

(** The segments [stage_request] hands to writev. *)
Definition stage_request (q : client_request_t) (head_only : bool) (head_out : out_buffer_t) : list bytes :=
  (if 0 <? size_ head_out then [out_view head_out] else []) ++
  (match out_view (hdr_ q) with [] => [] | h => [h] end) ++
  [crlf] ++
  (if negb head_only && (0 <? body_len_ q) then match body_view q with [] => [] | b => [b] end else []).
End Request.

(** ** The url cache is transparent *)

(** A slot is empty or holds the parse of its own text. *)
Definition cache_ok (c : url_cache) : Prop :=
  length c = 128%nat /\ Forall (fun s => slot_raw s = [] \/ Url.parse (slot_raw s) = Ok (slot_parsed s)) c.

Lemma empty_cache_ok : cache_ok empty_cache.
Proof. split; [done|]. apply Forall_replicate. by left. Qed.

Lemma parse_cached_spec c url c' r :
  cache_ok c -> url <> [] -> parse_cached c url = (c', r) -> cache_ok c' /\ r = Url.parse url.
Proof.
  intros [Hl Hc] Hne. unfold parse_cached. destruct url as [|x url']; [done|]. set (url := x :: url') in *.
  set (i := Z.to_nat _). set (slot := nth i c _).
  destruct (bool_decide_reflect (slot_raw slot = url)) as [E|_].
  - intros [= <- <-]. split; [done|].
    assert (slot_raw slot = [] \/ Url.parse (slot_raw slot) = Ok (slot_parsed slot)) as [E0|H0]; [| |by rewrite <- E].
    + unfold slot. destruct (nth_in_or_default i c (mk_slot [] no_url)) as [Hin| ->]; [|by left].
      rewrite List.Forall_forall in Hc. by apply Hc.
    + by rewrite E in E0.
  - destruct (Url.parse url) as [u|e] eqn:Ep; intros [= <- <-]; [|done]. split; [|done].
    split; [by rewrite length_insert|]. apply Forall_insert; [done|]. by right.
Qed.

(** What matters of a url: its text by parts. *)
Definition url_text (u : url_t) : list bytes * (scheme_t * Z) :=
  ([sv_text (authority_ u); sv_text (host_ u); sv_text (userinfo_ u); sv_text (path_ u); sv_text (query_ u)],
   (scheme_ u, port_ u)).

Definition owner_ok (o : option url_cache) : Prop := match o with Some c => cache_ok c | None => True end.

(** The owner's cache after an operation. *)
Definition next_owner (o o' : option url_cache) : Prop :=
  match o with Some _ => exists c, o' = Some c /\ cache_ok c | None => o' = None end.

Lemma next_owner_ok o o' : next_owner o o' -> owner_ok o'.
Proof. destruct o; simpl; [by intros (c & -> & ?)|by intros ->]. Qed.

Section Retarget.
Context (acquire : Z -> option bytes) (Hacq : forall n d, acquire n = Some d -> n <= size d < 2 ^ 32).

(** The request's own block, large enough for the url. *)
Lemma retarget_block url q :
  size url < 2 ^ 32 ->
  let fits := match url_lease_ q with Some b => size url <=? size b | None => false end in
  match (if fits then url_lease_ q else acquire (u32 (size url))) with
  | None => True
  | Some block => exists b, write_at block 0 url = Some b /\ view_at b 0 (u32 (size url)) = url
  end.
Proof.
  intros Hs. cbv zeta. pose proof (size_nonneg url). rewrite u32_small by lia.
  match goal with |- match ?x with _ => _ end => destruct x as [block|] eqn:E; [|done] end.
  assert (Hb : size url <= size block).
  { destruct (url_lease_ q) as [b|]; [destruct (_ <=? _) eqn:Ef; simplify_eq; [lia|]|]; apply Hacq in E; lia. }
  destruct (write_at_some block 0 url) as (b & Ew & Hsz); [lia..|]. exists b. split; [done|].
  by rewrite (write_at_view _ _ _ _ Ew).
Qed.

(** [retarget] never overruns its block nor trips [rebase]'s assertion, and
    it does to the request what parsing the url afresh does. *)
Lemma retarget_spec owner url q :
  owner_ok owner -> url <> [] -> size url < 2 ^ 32 ->
  exists owner' q' r, retarget acquire owner url q = Some (owner', q', r) /\ next_owner owner owner' /\
    (exists l n u, q' = set_url l n u q) /\
    match r with
    | Ok _ => exists u, Url.parse url = Ok u /\ url_text (url_ q') = url_text u /\ raw_ (url_ q') = url
    | Unexpected e => url_ q' = url_ q /\ (e = system_error ENOMEM \/ Url.parse url = Unexpected e)
    end.
Proof.
  intros Ho Hne Hs. unfold retarget. destruct url as [|x url']; [done|]. set (url := x :: url') in *.
  pose proof (retarget_block url q Hs) as Hb. cbv zeta in Hb |- *.
  match type of Hb with match ?x with _ => _ end => destruct x as [block|] end.
  2:{ eexists _, q, _. split; [done|]. split; [destruct owner; simpl in *; eauto|]. split; [|split; [done|by left]].
      exists (url_lease_ q), (url_len_ q), (url_ q). by destruct q. }
  destruct Hb as (b & -> & ->). destruct owner as [c|].
  - destruct (parse_cached c url) as [c' r] eqn:Ec. apply parse_cached_spec in Ec as [Hc' ->]; [|done|done].
    destruct (Url.parse url) as [u|e] eqn:Ep.
    + destruct (url_rebase_same _ _ Ep) as (u' & Er & E1 & E2 & E3 & E4 & E5 & _). rewrite Er.
      eexists _, _, _. split; [done|]. split; [simpl; eauto|]. split; [eauto|]. exists u. split; [done|]. simpl.
      unfold rebase in Er. destruct (negb _); simplify_eq. simpl in *. unfold url_text. simpl. by rewrite E1, E2, E3, E4, E5.
    + eexists _, _, _. split; [done|]. split; [simpl; eauto|]. split; [eauto|]. split; [done|by right].
  - destruct (Url.parse url) as [u|e] eqn:Ep; eexists _, _, _; (split; [done|]); (split; [done|]); (split; [eauto|]).
    + exists u. simpl. split; [done|]. split; [done|]. by apply parse_views in Ep as [? _].
    + split; [done|by right].
Qed.
End Retarget.

(** ** Framing *)

(** *** The lines of a head *)

Definition add_headers (hs : list (bytes * bytes)) (q : client_request_t) : client_request_t :=
  fold_left (fun q h => req_header h.1 h.2 q) hs q.

(** Whether one of the calls names the field. *)
Definition written (f : field_t) (hs : list (bytes * bytes)) : bool :=
  existsb (fun h => bool_decide (field_from_name h.1 = f)) hs.

Definition path_text (u : url_t) : bytes :=
  (match sv_text (path_ u) with [] => str "/" | p => p end) ++
  (match sv_text (query_ u) with [] => [] | p => str "?" ++ p end).

(** The lines that are to precede the caller's: the request line, and each
    framing header that the caller did not write. *)
Definition request_lines (opt : framing_options_t) (m : method_t) (u : url_t) (hs : list (bytes * bytes))
    (expect chunked : bool) (n : Z) : list bytes :=
  [method_name m ++ str " " ++ path_text u ++ str " HTTP/1.1"] ++
  (if negb (written Host hs) then [field_line Host (sv_text (authority_ u))] else []) ++
  (if send_user_agent opt && negb (written UserAgent hs) then [field_line UserAgent (user_agent opt)] else []) ++
  (if send_accept opt && negb (written Accept hs) then [field_line Accept (str "*/*")] else []) ++
  (if negb (written Connection hs) then [field_line Connection (str "keep-alive")] else []) ++
  (if chunked then if negb (written TransferEncoding hs) then [field_line TransferEncoding (str "chunked")] else []
   else if negb (written ContentLength hs) && negb (written TransferEncoding hs) && ((0 <? n) || method_needs_zero_length m)
        then [field_line ContentLength (write_u64 n)] else []) ++
  (if expect && negb (written Expect hs) && (0 <? n) then [field_line Expect (str "100-continue")] else []).

Definition saw_of (f : field_t) (s : saw_t) : option bool :=
  match f with
  | Host => Some (saw_host_ s) | ContentLength => Some (saw_content_length_ s) | Connection => Some (saw_connection_ s)
  | TransferEncoding => Some (saw_transfer_encoding_ s) | UserAgent => Some (saw_user_agent_ s)
  | Accept => Some (saw_accept_ s) | Expect => Some (saw_expect_ s) | Authorization => Some (saw_authorization_ s)
  | _ => None
  end.

Lemma saw_note f g s b :
  saw_of f s = Some b -> saw_of f (note_framing_header g s) = Some (b || bool_decide (g = f)).
Proof.
  destruct s, f; simpl; intros [= <-]; destruct g; rewrite ?orb_false_r, ?orb_true_r; reflexivity.
Qed.

Lemma saw_headers f hs : forall q b,
  saw_of f (saw_ q) = Some b -> saw_of f (saw_ (add_headers hs q)) = Some (b || written f hs).
Proof.
  induction hs as [|h hs IH]; intros q b Hb; simpl; [by rewrite orb_false_r|].
  rewrite (IH _ (b || bool_decide (field_from_name h.1 = f))) by by apply saw_note. by rewrite orb_assoc.
Qed.

Lemma add_headers_hdr hs : forall q, hdr_ (add_headers hs q) = put_headers hs (hdr_ q).
Proof. induction hs as [|h hs IH]; intros q; simpl; [done|]. by rewrite IH. Qed.

(** The calls change nothing but the header block and the flags. *)
Lemma add_headers_rest hs : forall q, exists h s, add_headers hs q = set_hdr h s q.
Proof.
  induction hs as [|x hs IH]; intros q; simpl; [exists (hdr_ q), (saw_ q); by destruct q|].
  destruct (IH (req_header x.1 x.2 q)) as (h & s & ->). by exists h, s.
Qed.

(** A url's text is fit for a line. *)
Lemma url_view_clean raw u v :
  Url.parse raw = Ok u -> size raw < 2 ^ 32 -> within raw v -> has_crlf (sv_text v) = false /\ size (sv_text v) < 2 ^ 32.
Proof.
  intros Hp Hs Hw. apply parse_views in Hp as (_ & Hctl & _). split.
  - unfold has_crlf. apply orb_false_iff.
    assert (forall c, is_ctl c = true -> existsb (Z.eqb c) (sv_text v) = false) as Hc; [|split; by apply Hc].
    intros c Hc. apply not_true_iff_false. rewrite existsb_exists. intros (x & Hx & Hxc%Z.eqb_eq). subst x.
    assert (existsb is_ctl raw = true); [|congruence]. apply existsb_exists. exists c. split; [|done].
    apply list_elem_of_In. eapply within_bytes; [done|]. by apply list_elem_of_In.
  - destruct Hw as [k ->]. unfold size in *. rewrite length_take, length_drop. lia.
Qed.

(** The request as the caller described it. *)
Record describes (q : client_request_t) (m : method_t) (u : url_t) (hs : list (bytes * bytes)) (n : Z) : Prop := {
  de_method : method_ q = m;
  de_url : url_text (url_ q) = url_text u;
  de_saw f b : saw_of f (saw_ q) = Some b -> b = written f hs;
  de_len : body_len_ q = n
}.

Lemma frame_emits opt q m raw u hs n chunked :
  describes q m u hs n -> Url.parse raw = Ok u -> size raw < 2 ^ 32 -> size (user_agent opt) < 2 ^ 32 -> 0 <= n < 2 ^ 64 ->
  emits (frame_request_head opt q chunked)
    (text_of (request_lines opt m u hs (expect_continue_ (over_ q)) chunked n))
    (Forall (fun t => has_crlf t = false) (request_lines opt m u hs (expect_continue_ (over_ q)) chunked n)).
Proof.
  intros [Em Eu Es En] Hp Hraw Hua Hn. pose proof (parse_views _ _ Hp) as (_ & _ & Wa & _ & _ & Wp & Wq).
  destruct (url_view_clean _ _ _ Hp Hraw Wa) as [Ca Sa]. destruct (url_view_clean _ _ _ Hp Hraw Wp) as [Cp Sp].
  destruct (url_view_clean _ _ _ Hp Hraw Wq) as [Cq Sq].
  injection Eu as Ea _ _ Ep Eq _ _.
  assert (H1 : emits (request_line m (sv_text (path_ u)) (sv_text (query_ u)) Http11)
    (text_of [method_name m ++ str " " ++ path_text u ++ str " HTTP/1.1"])
    (Forall (fun t => has_crlf t = false) [method_name m ++ str " " ++ path_text u ++ str " HTTP/1.1"])).
  { eapply emits_mono; [eapply emits_writes, request_line_exact; done| |].
    - unfold request_line_text, path_text, text_of. cbn [map concat].
      destruct (sv_text (path_ u)), (sv_text (query_ u)); by rewrite app_nil_r, <- !app_assoc.
    - intros _. constructor; [|done]. unfold path_text. rewrite !has_crlf_app.
      assert (has_crlf (match sv_text (path_ u) with [] => str "/" | p => p end) = false) as ->.
      { by destruct (sv_text (path_ u)). }
      assert (has_crlf (match sv_text (query_ u) with [] => [] | p => str "?" ++ p end) = false) as ->.
      { destruct (sv_text (query_ u)); [done|]. by rewrite has_crlf_app, Cq. }
      by destruct m. }
  assert (HL : forall b f v, f <> Other -> size v < 2 ^ 32 -> emits (when b (header_field f v))
     (text_of (if b then [field_line f v] else [])) (Forall (fun t => has_crlf t = false) (if b then [field_line f v] else []))).
  { intros b f v Hf Hv. eapply emits_line; [by apply emits_header_field|]. intros Hc. by apply field_line_clean. }
  unfold frame_request_head, request_lines. rewrite Em, Ea, Ep, Eq, En.
  rewrite (Es Host _ eq_refl), (Es UserAgent _ eq_refl), (Es Accept _ eq_refl), (Es Connection _ eq_refl),
    (Es TransferEncoding _ eq_refl), (Es ContentLength _ eq_refl), (Es Expect _ eq_refl).
  set (L := if chunked then _ else _).
  assert (HM : emits (fun o => if chunked then when (negb (written TransferEncoding hs)) (header_field TransferEncoding (str "chunked")) o
      else when (negb (written ContentLength hs) && negb (written TransferEncoding hs) && ((0 <? n) || method_needs_zero_length m))
        (header_u64 ContentLength n) o) (text_of L) (Forall (fun t => has_crlf t = false) L)).
  { subst L. destruct chunked; [by apply HL|]. eapply emits_line; [by apply emits_header_u64|].
    intros _. by apply field_line_clean, decimal_clean. }
  pose proof (emits_then _ _ _ _ (emits_then _ _ _ _ (emits_then _ _ _ _ (emits_then _ _ _ _ (emits_then _ _ _ _ (emits_then _ _ _ _ H1
    (HL (negb (written Host hs)) Host _ ltac:(done) Sa))
    (HL (send_user_agent opt && negb (written UserAgent hs)) UserAgent _ ltac:(done) Hua))
    (HL (send_accept opt && negb (written Accept hs)) Accept (str "*/*") ltac:(done) ltac:(done)))
    (HL (negb (written Connection hs)) Connection (str "keep-alive") ltac:(done) ltac:(done))) HM)
    (HL (expect_continue_ (over_ q) && negb (written Expect hs) && (0 <? n)) Expect (str "100-continue") ltac:(done) ltac:(done))) as H.
  rewrite <- !app_assoc in H. exact H.
Qed.

Section Wire.
Context (acquire : Z -> option bytes) (Hacq : forall n d, acquire n = Some d -> n <= size d < 2 ^ 32).

(** A request that has its url and nothing else. *)
Record fresh (q : client_request_t) (m : method_t) (u : url_t) : Prop := {
  fr_method : method_ q = m;
  fr_url : url_text (url_ q) = url_text u;
  fr_saw : saw_ q = saw_none;
  fr_hdr : ok (hdr_ q) /\ failed (hdr_ q) = false /\ out_view (hdr_ q) = [];
  fr_body : source_ q = SrcNone /\ body_len_ q = 0 /\ body_out_ q = no_out /\ external_ q = [];
  fr_err : req_err_ q = no_error
}.

Lemma make_spec owner m url hb owner' q :
  owner_ok owner -> size url < 2 ^ 32 -> 0 <= hb -> make acquire owner m url hb = Some (owner', Ok q) ->
  owner_ok owner' /\ exists u, Url.parse url = Ok u /\ fresh q m u.
Proof.
  intros Ho Hs Hb. unfold make. destruct (acquire hb) as [h|] eqn:Eh; [|done]. apply Hacq in Eh.
  set (q0 := set_hdr _ _ _). destruct url as [|x url']; [done|]. set (url := x :: url') in *.
  destruct (retarget_spec acquire Hacq owner url q0 Ho) as (o' & q' & r & -> & Ho' & (l & n & u0 & ->) & Hr); [done|done|].
  destruct r as [[]|e]; [|done]. intros [= <- <-]. destruct Hr as (u & Hp & Hu & _). split; [by eapply next_owner_ok|]. exists u. split; [done|].
  constructor; try done. simpl. split; [|done]. unfold ok, block. simpl. lia.
Qed.

Lemma req_body_spec b q :
  size b < 2 ^ 32 -> source_ q = SrcNone -> body_len_ q = 0 -> body_out_ q = no_out -> req_err_ q = no_error ->
  is_error (req_err_ (req_body acquire b q)) = false ->
  body_len_ (req_body acquire b q) = size b /\ body_view (req_body acquire b q) = b /\
  exists o s n e, req_body acquire b q = set_body o s n e q.
Proof.
  intros Hs Hsrc Hlen Ho He. unfold req_body. rewrite Hsrc. cbn [negb bool_decide decide decide_rel].
  destruct b as [|x b'].
  { intros _. simpl. rewrite Hlen. unfold body_view. rewrite Hsrc. split; [done|]. split; [done|].
    exists (body_out_ q), (source_ q), (body_len_ q), (external_ q). by destruct q. }
  set (b := x :: b') in *. pose proof (size_nonneg b). unfold ensure_body_buffer. rewrite Ho. cbn [lease_ no_out].
  rewrite u32_small by lia. destruct (acquire (size b)) as [blk|] eqn:Ea.
  2:{ unfold req_fail. rewrite He. by simpl. }
  apply Hacq in Ea. cbn [body_out_ set_body]. set (o := reset (Some blk) no_out).
  assert (Hok : ok o) by (unfold ok, block; simpl; lia).
  pose proof (put_writes b Hs) as W. pose proof (wr_fits _ _ _ W o Hok eq_refl) as Hfit.
  rewrite Hfit by (unfold block; simpl; lia). intros _.
  destruct (wr_done _ _ _ W o Hok eq_refl) as [V _]; [apply Hfit; unfold block; simpl; lia|].
  simpl. split; [done|]. split.
  - unfold body_view, inline_body. simpl. destruct (lease_ (put b o)) eqn:El; [by rewrite V|].
    destruct (wr_ok _ _ _ W o Hok) as [_ Hblk]. unfold block in Hblk. rewrite El in Hblk. simpl in Hblk. unfold size in *. simpl in *. lia.
  - eauto 10.
Qed.

Lemma failed_errors q :
  req_failed q = false -> is_error (req_err_ q) = false /\ failed (hdr_ q) = false.
Proof.
  unfold req_failed, req_error. destruct (is_error (req_err_ q)) eqn:E; [congruence|]. intros H. split; [done|].
  destruct (failed (hdr_ q)) eqn:E2; [|done]. unfold failed in E2. congruence.
Qed.
End Wire.

(** The segments are the two blocks, the blank line and the body. *)
Lemma stage_concat q h :
  ok h -> body_len_ q = size (body_view q) ->
  concat (stage_request q false h) = out_view h ++ out_view (hdr_ q) ++ crlf ++ body_view q.
Proof.
  intros [Hok _] Hlen. unfold stage_request. rewrite !concat_app. f_equal; [|f_equal; [|f_equal]].
  - destruct (0 <? size_ h) eqn:E; [simpl; by rewrite app_nil_r|]. unfold out_view.
    assert (size_ h = 0) as -> by lia. done.
  - destruct (out_view (hdr_ q)); [done|]. simpl. by rewrite app_nil_r.
  - simpl. rewrite Hlen. destruct (body_view q) as [|x l]; [done|].
    destruct (0 <? size (x :: l)) eqn:E; [simpl; by rewrite app_nil_r|].
    apply Z.ltb_ge in E. unfold size in E. cbn [length] in E. lia.
Qed.

(** C5: what a request puts on the wire. For a request built from a url, a
    method, any header calls and a body, none of which failed, the segments
    given to writev concatenate to a head and exactly the body; the head
    splits into the request line, the framing headers the caller did not
    write itself, one line per header call, and the empty line. In
    particular no call injects a line, no framing header is sent twice, and
    when the caller left the framing alone a body is announced by one
    Content-Length with its exact length. *)
Theorem client_request_on_wire acquire owner owner' m url hdr_bytes q0 v hs b opt head_out :
  (forall n d, acquire n = Some d -> n <= size d < 2 ^ 32) -> owner_ok owner ->
  size url < 2 ^ 32 -> 0 <= hdr_bytes -> make acquire owner m url hdr_bytes = Some (owner', Ok q0) ->
  Forall (fun h => size h.1 < 2 ^ 32 /\ size h.2 < 2 ^ 32) hs -> size b < 2 ^ 32 -> size (user_agent opt) < 2 ^ 32 ->
  let q := req_body acquire b (add_headers hs (set_over v q0)) in
  req_failed q = false -> ok head_out -> failed (frame_head opt q false head_out) = false ->
  exists u head,
    Url.parse url = Ok u /\ concat (stage_request q false (frame_head opt q false head_out)) = head ++ b /\
    split_lines head [] = request_lines opt m u hs (expect_continue_ v) false (size b) ++ map header_text hs ++ [[]; []].
Proof.
  intros Hacq Ho Hurl Hhb Hmake Hhs Hb Hua q Hq Hok Hf.
  destruct (make_spec acquire Hacq _ _ _ _ _ _ Ho Hurl Hhb Hmake) as (_ & u & Hp & Hfr).
  destruct Hfr as [Fm Fu Fs (Fh1 & Fh2 & Fh3) (Fb1 & Fb2 & Fb3 & Fb4) Fe].
  destruct (add_headers_rest hs (set_over v q0)) as (h & s & Eh).
  assert (Hhdr : h = put_headers hs (hdr_ q0)) by (pose proof (add_headers_hdr hs (set_over v q0)) as E; by rewrite Eh in E).
  destruct (failed_errors q Hq) as [He1 He2].
  destruct (req_body_spec acquire Hacq b (add_headers hs (set_over v q0))) as (Hlen & Hview & o & sr & n & e & Eq); rewrite ?Eh; try done.
  { unfold q in He1. by rewrite Eh in He1. }
  fold q in Hlen, Hview, Eq. rewrite Eh in Eq.
  assert (Hdesc : describes q m u hs (size b)).
  { split; [by rewrite Eq|by rewrite Eq| |done]. intros f x. rewrite Eq. simpl. intros Hx.
    pose proof (saw_headers f hs (set_over v q0)) as Hsw. rewrite Eh in Hsw. simpl in Hsw. rewrite Fs in Hsw.
    destruct f; simpl in *; try done; specialize (Hsw false eq_refl); rewrite orb_false_l in Hsw; congruence. }
  assert (Hov : expect_continue_ (over_ q) = expect_continue_ v) by by rewrite Eq.
  pose proof (size_nonneg b) as Hnn.
  pose proof (frame_emits opt q m url u hs (size b) false Hdesc Hp Hurl Hua ltac:(lia)) as HE. rewrite Hov in HE.
  assert (Hok' : ok (clear head_out)) by (destruct Hok; unfold ok, block in *; simpl; pose proof (size_nonneg (default [] (lease_ head_out))); lia).
  destruct (em_done _ _ _ HE (clear head_out) Hok' eq_refl Hf) as (Hok2 & V & Hclean). change (out_view (clear head_out)) with (@nil Z) in V. simpl in V.
  assert (Hh : hdr_ q = put_headers hs (hdr_ q0)) by by rewrite Eq.
  rewrite Hh in He2. destruct (put_headers_view hs (hdr_ q0) Fh1 Fh2 Hhs He2) as (_ & Hc2 & V2). rewrite Fh3 in V2. simpl in V2.
  exists u, (out_view (frame_head opt q false head_out) ++ out_view (hdr_ q) ++ crlf). split; [done|]. split.
  - rewrite stage_concat by (done || by rewrite Hview). by rewrite Hview, <- !app_assoc.
  - unfold frame_head. rewrite V, Hh, V2, split_text_of by done. f_equal.
    pose proof (split_text_of (map header_text hs) crlf) as Hs. unfold text_of in Hs. rewrite map_map in Hs.
    apply Hs. by apply Forall_map.
Qed.

(** A pool that gives blocks of the size asked for. *)
Definition pool_of_zeros (n : Z) : option bytes :=
  if (0 <=? n) && (n <? 2 ^ 32) then Some (replicate (Z.to_nat n) 0) else None.

Lemma pool_of_zeros_ok n d : pool_of_zeros n = Some d -> n <= size d < 2 ^ 32.
Proof.
  unfold pool_of_zeros. destruct (_ && _) eqn:E; [|done]. intros [= <-]. apply andb_true_iff in E as [E1 E2].
  unfold size. rewrite length_replicate. lia.
Qed.

Definition plain_framing : framing_options_t := mk_framing false false [].
Definition head_block : out_buffer_t := mk_out (Some (replicate 256 0)) 0 no_error.

(** A request to [http://h/p?x] of the client's cache. *)
Definition sample_request (m : method_t) : client_request_t :=
  match make pool_of_zeros (Some empty_cache) m (str "http://h/p?x") 64 with
  | Some (_, Ok q) => q
  | _ => blank_request
  end.

Lemma client_request_on_wire_witness :
  let q := req_body pool_of_zeros (str "abc") (add_headers [(str "X", str "1")] (set_over (mk_overrides None None None None false) (sample_request Post))) in
  exists u head, Url.parse (str "http://h/p?x") = Ok u /\
    concat (stage_request q false (frame_head plain_framing q false head_block)) = head ++ str "abc" /\
    split_lines head [] = [str "POST /p?x HTTP/1.1"; str "Host: h"; str "Connection: keep-alive"; str "Content-Length: 3"; str "X: 1"; []; []].
Proof.
  destruct (client_request_on_wire pool_of_zeros (Some empty_cache)
     (match make pool_of_zeros (Some empty_cache) Post (str "http://h/p?x") 64 with Some (c, _) => c | None => None end)
     Post (str "http://h/p?x") 64 (sample_request Post) (mk_overrides None None None None false) [(str "X", str "1")] (str "abc")
     plain_framing head_block) as (u & head & Hp & Hw & Hl);
    [exact pool_of_zeros_ok|exact empty_cache_ok|reflexivity|lia|vm_compute; reflexivity|repeat constructor|reflexivity|reflexivity
    |vm_compute; reflexivity|split; vm_compute; split; congruence|vm_compute; reflexivity|].
  exists u, head. split; [exact Hp|]. split; [exact Hw|]. rewrite Hl. injection Hp as <-. vm_compute. reflexivity.
Defined.

(** the url cache is transparent: from any cache the client can have,
    pointing a request at a url through it succeeds or fails exactly as
    parsing the url afresh does (up to memory), leaves the request with the
    same scheme, port and view texts over its own copy of the bytes, never
    trips [rebase]'s assertion nor overruns the block, and leaves a cache of
    the same kind. *)
Theorem url_cache_transparent acquire c url q :
  (forall n d, acquire n = Some d -> n <= size d < 2 ^ 32) -> cache_ok c -> url <> [] -> size url < 2 ^ 32 ->
  exists c' q' r, retarget acquire (Some c) url q = Some (Some c', q', r) /\ cache_ok c' /\
    match r with
    | Ok _ => exists u, Url.parse url = Ok u /\ url_text (url_ q') = url_text u /\ raw_ (url_ q') = url
    | Unexpected e => url_ q' = url_ q /\ (e = system_error ENOMEM \/ Url.parse url = Unexpected e)
    end.
Proof.
  intros Ha Hc Hne Hs. destruct (retarget_spec acquire Ha (Some c) url q Hc Hne Hs) as (o & q' & r & E & Ho & _ & Hr).
  destruct Ho as (c' & -> & Hc'). by exists c', q', r.
Qed.

Lemma url_cache_transparent_witness :
  exists c' q' r, retarget pool_of_zeros (Some empty_cache) (str "http://h/p?x") blank_request = Some (Some c', q', r) /\ cache_ok c'.
Proof.
  destruct (url_cache_transparent pool_of_zeros empty_cache (str "http://h/p?x") blank_request) as (c' & q' & r & H1 & H2 & _);
    [exact pool_of_zeros_ok|exact empty_cache_ok|discriminate|reflexivity|].
  exists c', q', r. split; [exact H1|exact H2].
Defined.
