(* ===== verification/ClientExchange.v ===== *)
(** * The exchange on a client connection

    [client_connection_t] of src/include/cornet/http/client/connection.h and
    src/src/http/client/connection.cc: writing a request, reading the response
    headers past the interim ones, taking the body whole or run by run,
    handing the response over, and the chunked upload; with the receive state
    [inbound_t] of src/src/http/client/message.cc.

    The receive buffers of the exchange in flight are the parser's store; the
    body buffer is the parser's sink while it is one.  The transport is a
    script of reads and the number of bytes it will still take, after which a
    write fails with [fault] or, without one, because the deadline fires.
    The counters and the arming of deadlines are left out. *)

From stdpp Require Import prelude list list_numbers strings.
From Stdlib Require Import ZArith Lia.
From S2P Require Import Prelude Protocol Buffer Serializer HeadLines Headers Parser Transport Url ClientRequest.
Open Scope Z_scope.

(** ** State *)

(** What [inbound_t] holds besides the buffers. *)
Record inbound_t := mk_inbound {
  nb_body : Body.body_buffer_t; nb_status : Z; nb_version : version_t; nb_content_length : Z;
  nb_keep_alive : bool; nb_chunked : bool; nb_has_content_length : bool
}.
Definition blank_inbound : inbound_t := mk_inbound Body.released 200 VUnknown 0 false false false.

(** A response that owns its buffers. *)
Record client_response_t := mk_client_response { r_node : inbound_t; r_store : option store_t }.

Record flags_t := mk_flags {
  headers_done_ : bool; body_complete_ : bool; keep_alive_ : bool; responded_ : bool;
  broken_ : bool; streaming_ : bool; chunked_upload_ : bool
}.

Record client_t (L : Type) := mk_client {
  parser_ : parser_t L; node_ : option inbound_t; head_out_ : out_buffer_t; chunk_out_ : out_buffer_t;
  body_window_ : Z; exchanges_ : Z; flags : flags_t;
  fired : bool; input : list recv_t; wire : bytes; accepts : Z; fault : option error_t
}.
Arguments mk_client {L}. Arguments parser_ {L}. Arguments node_ {L}. Arguments head_out_ {L}. Arguments chunk_out_ {L}.
Arguments body_window_ {L}. Arguments exchanges_ {L}. Arguments flags {L}. Arguments fired {L}. Arguments input {L}.
Arguments wire {L}. Arguments accepts {L}. Arguments fault {L}.

Record exchange_options_t := mk_exchange_options {
  framing : framing_options_t; max_header_bytes : Z; max_body_bytes : Z; aggregate_threshold : Z;
  head_buffer_bytes : Z; chunk_buffer_bytes : Z
}.

Section Setters.
Context {L : Type}.
Implicit Types s : client_t L.

Definition set_parser (p : parser_t L) s : client_t L :=
  mk_client p (node_ s) (head_out_ s) (chunk_out_ s) (body_window_ s) (exchanges_ s) (flags s) (fired s) (input s) (wire s) (accepts s) (fault s).
Definition set_node (n : option inbound_t) s : client_t L :=
  mk_client (parser_ s) n (head_out_ s) (chunk_out_ s) (body_window_ s) (exchanges_ s) (flags s) (fired s) (input s) (wire s) (accepts s) (fault s).
Definition set_outs (h c : out_buffer_t) s : client_t L :=
  mk_client (parser_ s) (node_ s) h c (body_window_ s) (exchanges_ s) (flags s) (fired s) (input s) (wire s) (accepts s) (fault s).
Definition set_window (w : Z) s : client_t L :=
  mk_client (parser_ s) (node_ s) (head_out_ s) (chunk_out_ s) w (exchanges_ s) (flags s) (fired s) (input s) (wire s) (accepts s) (fault s).
Definition set_exchanges (n : Z) s : client_t L :=
  mk_client (parser_ s) (node_ s) (head_out_ s) (chunk_out_ s) (body_window_ s) n (flags s) (fired s) (input s) (wire s) (accepts s) (fault s).
Definition set_flags (f : flags_t) s : client_t L :=
  mk_client (parser_ s) (node_ s) (head_out_ s) (chunk_out_ s) (body_window_ s) (exchanges_ s) f (fired s) (input s) (wire s) (accepts s) (fault s).
Definition set_input (fired : bool) (i : list recv_t) s : client_t L :=
  mk_client (parser_ s) (node_ s) (head_out_ s) (chunk_out_ s) (body_window_ s) (exchanges_ s) (flags s) fired i (wire s) (accepts s) (fault s).
Definition set_wire (fired : bool) (w : bytes) (a : Z) s : client_t L :=
  mk_client (parser_ s) (node_ s) (head_out_ s) (chunk_out_ s) (body_window_ s) (exchanges_ s) (flags s) fired (input s) w a (fault s).

Definition set_headers_done b s := let f := flags s in
  set_flags (mk_flags b (body_complete_ f) (keep_alive_ f) (responded_ f) (broken_ f) (streaming_ f) (chunked_upload_ f)) s.
Definition set_complete b s := let f := flags s in
  set_flags (mk_flags (headers_done_ f) b (keep_alive_ f) (responded_ f) (broken_ f) (streaming_ f) (chunked_upload_ f)) s.
Definition set_keep_alive b s := let f := flags s in
  set_flags (mk_flags (headers_done_ f) (body_complete_ f) b (responded_ f) (broken_ f) (streaming_ f) (chunked_upload_ f)) s.
Definition set_responded s := let f := flags s in
  set_flags (mk_flags (headers_done_ f) (body_complete_ f) (keep_alive_ f) true (broken_ f) (streaming_ f) (chunked_upload_ f)) s.
Definition set_broken s := let f := flags s in
  set_flags (mk_flags (headers_done_ f) (body_complete_ f) (keep_alive_ f) (responded_ f) true (streaming_ f) (chunked_upload_ f)) s.
Definition set_streaming b s := let f := flags s in
  set_flags (mk_flags (headers_done_ f) (body_complete_ f) (keep_alive_ f) (responded_ f) (broken_ f) b (chunked_upload_ f)) s.

(** The receive buffer and the body buffer of the exchange in flight. *)
Definition head s : option Head.head_buffer_t :=
  match node_ s, store_ (parser_ s) with Some _, Some st => Some (head_ st) | _, _ => None end.
Definition set_receive (h : Head.head_buffer_t) s : client_t L :=
  match store_ (parser_ s) with
  | Some st => set_parser (set_store (parser_ s) (Parser.set_head st h)) s
  | None => s
  end.
Definition sink s : option Body.body_buffer_t := body_sink_ (body_ (parser_ s)).
Definition with_body (b : Body.body_buffer_t) (n : inbound_t) : inbound_t :=
  mk_inbound b (nb_status n) (nb_version n) (nb_content_length n) (nb_keep_alive n) (nb_chunked n) (nb_has_content_length n).
Definition body_buffer s (n : inbound_t) : Body.body_buffer_t := default (nb_body n) (sink s).
(** The sink, and with [None] the body back in its node. *)
Definition set_body_sink (k : option Body.body_buffer_t) s : client_t L :=
  let s := match node_ s with Some n => set_node (Some (with_body (body_buffer s n) n)) s | None => s end in
  set_parser (put_sink k (parser_ s)) s.

(** The body buffer replaced where it is. *)
Definition put_body (b : Body.body_buffer_t) s : client_t L :=
  let s := match node_ s with Some n => set_node (Some (with_body b n)) s | None => s end in
  set_parser (put_sink (match sink s with Some _ => Some b | None => None end) (parser_ s)) s.

Definition reusable s : bool :=
  negb (broken_ (flags s)) && negb (fired s) && keep_alive_ (flags s) && body_complete_ (flags s).
Definition responded s : bool := responded_ (flags s).
Definition status s : Z := match node_ s with Some n => if headers_done_ (flags s) then nb_status n else 0 | None => 0 end.
End Setters.

Section Exchange.
Context {L : Type} (ops : llhttp_ops L) (acquire : Z -> option bytes) (ndebug : bool) (sizeof_inbound : Z) (opt : exchange_options_t).
Implicit Types s : client_t L.

Definition client_assert {A} (b : bool) (x : outcome A) : outcome A := if ndebug || b then x else Undefined.

(** ** Set-up and tear-down *)

Definition construct (lim : parser_limits_t) (l : L) (i : list recv_t) (accepts : Z) (fault : option error_t) : client_t L :=
  let none := mk_out None 0 no_error in
  mk_client (set_limits ops lim (Parser.make ops l Response)) None none none 0 0 (mk_flags false true false false false false false)
    false i [] accepts fault.

Definition attach s : client_t L * expected unit :=
  match acquire (head_buffer_bytes opt) with
  | None => (s, Unexpected (system_error ENOMEM))
  | Some b => (set_outs (Serializer.reset (Some b) (head_out_ s)) (chunk_out_ s) s, Ok tt)
  end.

(** [adopt], and [open] once the transport is connected. *)
Definition adopt (lim : parser_limits_t) (l : L) (i : list recv_t) (accepts : Z) (fault : option error_t) : expected (client_t L) :=
  let '(s, r) := attach (construct lim l i accepts fault) in
  match r with Ok _ => Ok (set_keep_alive true s) | Unexpected e => Unexpected e end.

(** [inbound_t::create]: the block of the node, then its receive buffer. *)
Definition create : option Head.head_buffer_t :=
  match acquire sizeof_inbound with
  | None => None
  | Some _ => match acquire (max_header_bytes opt) with Some b => Some (Head.reset (Some b) Head.empty) | None => None end
  end.

Definition ensure_node s : client_t L * expected unit :=
  match node_ s with
  | Some _ => (s, Ok tt)
  | None =>
      match create with
      | None => (s, Unexpected (system_error ENOMEM))
      | Some h => (set_node (Some blank_inbound) (set_parser (Parser.reset ops (bind h Spill.init empty_headers (parser_ s))) s), Ok tt)
      end
  end.

Definition close s : client_t L :=
  set_broken (set_outs (out_release (head_out_ s)) (out_release (chunk_out_ s)) (set_node None s)).

(** The cancellation reaches the operation in flight as a failed read. *)
Definition abort s : client_t L := set_broken s.

(** ** Writing *)

Definition write_staged (segs : list bytes) s : client_t L * expected unit :=
  let d := concat segs in
  if size d <=? accepts s then (set_wire (fired s) (wire s ++ d) (accepts s - size d) s, Ok tt)
  else
    let late := fired s || match fault s with None => true | Some _ => false end in
    (set_broken (set_wire late (wire s ++ take (Z.to_nat (accepts s)) d) 0 s),
     Unexpected (if late then system_error ETIMEDOUT else default (system_error ETIMEDOUT) (fault s))).

(** ** Reading *)

Definition fill s : outcome (client_t L * expected Z) :=
  match head s with
  | None => Undefined
  | Some h =>
      let w := Head.writable h in
      if w =? 0 then Ret (s, Unexpected (http_error HeaderTooLarge))
      else match input s with
           | [] => Suspended
           | RecvFailed e :: i => Ret (set_input (fired s) i s, Unexpected (if fired s then system_error ETIMEDOUT else e))
           | TimedOut :: i => Ret (set_input true i s, Unexpected (system_error ETIMEDOUT))
           | Received d :: i =>
               let got := take (Z.to_nat w) d in
               let i := match drop (Z.to_nat w) d with [] => i | rest => Received rest :: i end in
               match got with
               | [] => Ret (set_input (fired s) i s, Ok 0)
               | _ => let+ h := of_option (Head.fill got h) in Ret (set_responded (set_receive h (set_input (fired s) i s)), Ok (size got))
               end
           end
  end.

Definition resume_parser s : outcome (client_t L * result_t) :=
  let+ (p, r) := of_option (resume ops (parser_ s)) in Ret (set_parser p s, r).
Definition execute_at (off n : Z) s : outcome (client_t L * result_t) :=
  let+ (p, r) := of_option (execute ops off n (parser_ s)) in Ret (set_parser p s, r).
Definition execute_filled (n : Z) s : outcome (client_t L * result_t) :=
  match head s with
  | None => Undefined
  | Some h => execute_at (u32 (Head.w_ h - n)) n s
  end.

Definition record_headers s : outcome (client_t L) :=
  match node_ s with
  | None => Undefined
  | Some n =>
      let f := facts_ (parser_ s) in
      let n := mk_inbound (nb_body n) (status_code_ f) (version_ f) (content_length_ f) (nb_keep_alive n) (chunked_ f) (has_content_length_ f) in
      Ret (set_headers_done true (set_keep_alive (Parser.keep_alive_ f) (set_node (Some n) s)))
  end.

Definition finish_message s : client_t L :=
  let s := set_complete true s in
  if has_pending_input (parser_ s) then set_keep_alive false s else s.

(** The loop of [read_headers]; [true] is a stop at 100 Continue. *)
Fixpoint read_headers_loop (fuel : nat) (need_fill stop_at_continue : bool) s : outcome (client_t L * expected bool) :=
  match fuel with
  | O => Starved
  | S fuel =>
      let+ (s, first) :=
        (if need_fill then
           let+ (s, got) := fill s in
           match got with
           | Unexpected e => Ret (set_broken s, inr e)
           | Ok n =>
               if n =? 0 then Ret (set_broken s, inr (http_error ResponseIncomplete))
               else let+ (s, r) := execute_filled n s in Ret (s, inl r)
           end
         else let+ (s, r) := resume_parser s in Ret (s, inl r)) in
      match first with
      | inr e => Ret (s, Unexpected e)
      | inl NeedMore => read_headers_loop fuel true stop_at_continue s
      | inl PError => Ret (set_broken s, Unexpected (error_ (parser_ s)))
      | inl UpgradeReady => Ret (set_broken s, Unexpected (http_error BadUpgrade))
      | inl BodyPaused => Ret (set_broken s, Unexpected (http_error InvalidState))
      | inl r =>
          let st := status_code_ (facts_ (parser_ s)) in
          if status_is_informational st && negb (st =? 101) then
            let s := set_parser (Parser.reset ops (parser_ s)) s in
            if stop_at_continue && (st =? 100) then Ret (s, Ok true)
            else read_headers_loop fuel (negb (has_pending_input (parser_ s))) stop_at_continue s
          else
            let+ s := record_headers s in
            let s := set_complete false (set_window (consumed_offset_ (feedst_ (parser_ s))) s) in
            Ret (match r with MessageReady => finish_message s | _ => s end, Ok false)
      end
  end.

Definition read_headers (fuel : nat) (m : method_t) (stop_at_continue : bool) s : outcome (client_t L * expected bool) :=
  let s := set_parser (set_response_to m (parser_ s)) s in
  read_headers_loop fuel (negb (has_pending_input (parser_ s))) stop_at_continue s.

(** ** The body *)

Definition prepare_body (stream : bool) s : outcome (client_t L * expected unit) :=
  let s := set_streaming stream s in
  let f := facts_ (parser_ s) in
  if body_complete_ (flags s) || stream then Ret (set_body_sink None s, Ok tt)
  else
    let s := if has_content_length_ f then s else set_body_sink None s in
    match node_ s with
    | None => Undefined
    | Some n =>
        if has_content_length_ f then
          if max_body_bytes opt <? content_length_ f then Ret (s, Unexpected (http_error BodyTooLarge))
          else
            let '(b, r) := Body.reserve_exact acquire (content_length_ f) (body_buffer s n) in
            match r with
            | Ok _ => Ret (set_body_sink (Some b) s, Ok tt)
            | Unexpected e => Ret (put_body b s, Unexpected e)
            end
        else
          let initial := if aggregate_threshold opt <? 16384 then aggregate_threshold opt else 16384 in
          let '(b, r) := Body.reserve_exact acquire (if initial =? 0 then 4096 else initial) (nb_body n) in
          Ret (set_node (Some (with_body b n)) s, r)
    end.

(** [while (next < want) next *= 2], in 64 bits. *)
Fixpoint double_to (fuel : nat) (next want : Z) : outcome Z :=
  if next <? want then match fuel with O => Starved | S fuel => double_to fuel (u64 (next * 2)) want end
  else Ret next.

Definition append_body (run : bytes) s : outcome (client_t L * expected unit) :=
  match run, node_ s with
  | [], _ => Ret (s, Ok tt)
  | _, None => Undefined
  | _, Some n =>
      let b := nb_body n in
      let want := u64 (Body.size_ b + size run) in
      if max_body_bytes opt <? want then Ret (s, Unexpected (http_error BodyTooLarge))
      else
        let+ (b, r) :=
          (if Body.cap_ b <? want then
             let+ next := double_to 64 (if Body.cap_ b =? 0 then aggregate_threshold opt else u64 (Body.cap_ b * 2)) want in
             let next := if max_body_bytes opt <? next then max_body_bytes opt else next in
             of_option (Body.grow acquire (u32 next) b)
           else Ret (b, Ok tt)) in
        match r with
        | Unexpected e => Ret (set_node (Some (with_body b n)) s, Unexpected e)
        | Ok _ =>
            let+ (b, r) := of_option (Body.append run b) in
            Ret (set_node (Some (with_body b n)) s, r)
        end
  end.

Definition refill_body s : outcome (client_t L * expected Z) :=
  client_assert (negb (mid_header (parser_ s)))
    (match head s with
     | None => Undefined
     | Some h => fill (set_receive (Head.rewind_to (body_window_ s) h) s)
     end).

(** What is pending at the end of the message, or the end. *)
Definition last_run s : client_t L * expected bytes :=
  let s := finish_message s in
  match pending_run (parser_ s) with
  | [] => (s, Ok [])
  | tail => (set_parser (clear_pending_run (parser_ s)) s, Ok tail)
  end.

Fixpoint read_body_loop (fuel : nat) s : outcome (client_t L * expected bytes) :=
  match fuel with
  | O => Starved
  | S fuel =>
      match pending_run (parser_ s) with
      | _ :: _ => Ret (set_parser (clear_pending_run (parser_ s)) s, Ok (pending_run (parser_ s)))
      | [] =>
          if body_complete_ (flags s) then Ret (s, Ok [])
          else
            let+ (s, r) := resume_parser s in
            match r with
            | BodyPaused => read_body_loop fuel s
            | MessageReady => Ret (finish_message s, Ok [])
            | PError => Ret (set_broken s, Unexpected (error_ (parser_ s)))
            | NeedMore =>
                let+ (s, got) := refill_body s in
                match got with
                | Unexpected e => Ret (set_broken s, Unexpected e)
                | Ok n =>
                    if n =? 0 then
                      let s := set_keep_alive false s in
                      let f := facts_ (parser_ s) in
                      let cut s := Ret (set_broken s, Unexpected (http_error ResponseIncomplete)) in
                      if negb (has_content_length_ f) && negb (chunked_ f) then
                        let+ (p, r) := of_option (Parser.finish ops (parser_ s)) in
                        let s := set_parser p s in
                        match r with MessageReady => Ret (last_run s) | _ => cut s end
                      else cut s
                    else
                      let+ (s, r2) := execute_at (body_window_ s) n s in
                      match r2 with
                      | PError => Ret (set_broken s, Unexpected (error_ (parser_ s)))
                      | MessageReady => Ret (last_run s)
                      | _ => read_body_loop fuel s
                      end
                end
            | _ =>
                let e := error_ (parser_ s) in
                Ret (set_broken s, Unexpected (if is_error e then e else http_error InvalidState))
            end
      end
  end.

Definition read_body (fuel : nat) s : outcome (client_t L * expected bytes) :=
  match node_ s with
  | None => Ret (s, Unexpected (http_error InvalidState))
  | Some _ => read_body_loop fuel s
  end.

Fixpoint drain_body (runs fuel : nat) s : outcome (client_t L * expected unit) :=
  match runs with
  | O => Starved
  | S runs =>
      let+ (s, r) := read_body fuel s in
      match r with
      | Unexpected e => Ret (s, Unexpected e)
      | Ok [] => Ret (s, Ok tt)
      | Ok _ => drain_body runs fuel s
      end
  end.

(** [aggregate_body] when the length is unknown, and when the parser copies
    into the reservation. *)
Fixpoint aggregate_runs (runs fuel : nat) s : outcome (client_t L * expected unit) :=
  match runs with
  | O => Starved
  | S runs =>
      let+ (s, r) := read_body fuel s in
      match r with
      | Unexpected e => Ret (s, Unexpected e)
      | Ok [] => Ret (s, Ok tt)
      | Ok run =>
          let+ (s, r) := append_body run s in
          match r with Unexpected e => Ret (set_broken s, Unexpected e) | Ok _ => aggregate_runs runs fuel s end
      end
  end.

Fixpoint aggregate_exact (fuel : nat) s : outcome (client_t L * expected unit) :=
  match fuel with
  | O => Starved
  | S fuel =>
      let+ (s, r) := resume_parser s in
      match r with
      | MessageReady => Ret (finish_message s, Ok tt)
      | PError => Ret (set_broken s, Unexpected (error_ (parser_ s)))
      | NeedMore =>
          let+ (s, got) := refill_body s in
          match got with
          | Unexpected e => Ret (set_broken s, Unexpected e)
          | Ok n =>
              if n =? 0 then Ret (set_keep_alive false (set_broken s), Unexpected (http_error ResponseIncomplete))
              else
                let+ (s, r2) := execute_at (body_window_ s) n s in
                match r2 with
                | PError => Ret (set_broken s, Unexpected (error_ (parser_ s)))
                | MessageReady => Ret (finish_message s, Ok tt)
                | _ => aggregate_exact fuel s
                end
          end
      | _ => Ret (set_broken s, Unexpected (http_error InvalidState))
      end
  end.

Definition aggregate_body (fuel : nat) s : outcome (client_t L * expected unit) :=
  if body_complete_ (flags s) then Ret (s, Ok tt)
  else if negb (has_content_length_ (facts_ (parser_ s))) then aggregate_runs fuel fuel s
  else aggregate_exact fuel s.

(** ** The exchange *)

(** The parser keeps pointing at the buffers handed over, the sink among
    them; it is bound anew before it is driven again. *)
Definition take_response s : client_t L * expected client_response_t :=
  match node_ s with
  | Some n =>
      if negb (headers_done_ (flags s)) || negb (body_complete_ (flags s)) then (s, Unexpected (http_error InvalidState))
      else
        let n := mk_inbound (body_buffer s n) (nb_status n) (nb_version n) (nb_content_length n) (keep_alive_ (flags s)) (nb_chunked n) (nb_has_content_length n) in
        let store := store_ (parser_ s) in
        let s := set_node None s in
        (set_parser (put_sink None (parser_ s)) (set_streaming false (set_headers_done false s)), Ok (mk_client_response n store))
  | None => (s, Unexpected (http_error InvalidState))
  end.

(** What both exchanges do to the flags when they start. *)
Definition start_exchange (chunked_upload : bool) s : client_t L :=
  let f := flags s in
  set_flags (mk_flags false false (keep_alive_ f) false (broken_ f) (streaming_ f) chunked_upload) (set_exchanges (u32 (exchanges_ s + 1)) s).

Definition send_and_read_headers (fuel : nat) (q : client_request_t) s : outcome (client_t L * expected unit) :=
  if req_failed q then Ret (s, Unexpected (req_error q))
  else
    let '(s, r) := ensure_node s in
    match r with
    | Unexpected e => Ret (s, Unexpected e)
    | Ok _ =>
        let s := start_exchange false s in
        let o := frame_head (framing opt) q false (head_out_ s) in
        let s := set_outs o (chunk_out_ s) s in
        if failed o then Ret (set_broken s, Unexpected (err_ o))
        else
          let expect_continue := expect_continue_ (over_ q) && (0 <? body_len_ q) in
          let '(s, r) := write_staged (stage_request q expect_continue (head_out_ s)) s in
          match r with
          | Unexpected e => Ret (s, Unexpected e)
          | Ok _ =>
              let final s :=
                let+ (s, got) := read_headers fuel (method_ q) false s in
                Ret (s, match got with Ok _ => Ok tt | Unexpected e => Unexpected e end) in
              if expect_continue then
                let+ (s, paused) := read_headers fuel (method_ q) true s in
                match paused with
                | Unexpected e => Ret (s, Unexpected e)
                | Ok true =>
                    let '(s, r) := write_staged (match body_view q with [] => [] | b => [b] end) s in
                    match r with Unexpected e => Ret (s, Unexpected e) | Ok _ => final s end
                | Ok false => Ret (set_keep_alive false s, Ok tt)
                end
              else final s
          end
    end.

Definition take_whole (fuel : nat) s : outcome (client_t L * expected client_response_t) :=
  let+ (s, r) := prepare_body false s in
  match r with
  | Unexpected e => Ret (set_broken s, Unexpected e)
  | Ok _ =>
      let+ (s, r) := aggregate_body fuel s in
      match r with
      | Unexpected e => Ret (s, Unexpected e)
      | Ok _ => Ret (take_response s)
      end
  end.

Definition exchange (fuel : nat) (q : client_request_t) s : outcome (client_t L * expected client_response_t) :=
  let+ (s, r) := send_and_read_headers fuel q s in
  match r with
  | Unexpected e => Ret (s, Unexpected e)
  | Ok _ => take_whole fuel s
  end.

Definition begin_exchange (fuel : nat) (q : client_request_t) s : outcome (client_t L * expected unit) :=
  let+ (s, r) := send_and_read_headers fuel q s in
  match r with
  | Unexpected e => Ret (s, Unexpected e)
  | Ok _ =>
      let+ (s, r) := prepare_body true s in
      match r with Unexpected e => Ret (set_broken s, Unexpected e) | Ok _ => Ret (s, Ok tt) end
  end.

(** ** The chunked upload *)

(** The buffer of the chunk-size lines, on first use. *)
Definition ensure_chunk_out s : client_t L * expected unit :=
  match lease_ (chunk_out_ s) with
  | Some _ => (s, Ok tt)
  | None =>
      match acquire (chunk_buffer_bytes opt) with
      | None => (s, Unexpected (system_error ENOMEM))
      | Some b => (set_outs (head_out_ s) (Serializer.reset (Some b) (chunk_out_ s)) s, Ok tt)
      end
  end.

Definition begin_chunked (q : client_request_t) s : client_t L * expected unit :=
  if req_failed q then (s, Unexpected (req_error q))
  else if 0 <? body_len_ q then (s, Unexpected (http_error InvalidState))
  else
    let '(s, r) := ensure_node s in
    match r with
    | Unexpected e => (s, Unexpected e)
    | Ok _ =>
        let '(s, r) := ensure_chunk_out s in
        match r with
        | Unexpected e => (s, Unexpected e)
        | Ok _ =>
            let s := start_exchange true s in
            let o := frame_head (framing opt) q true (head_out_ s) in
            let s := set_outs o (chunk_out_ s) s in
            if failed o then (set_broken s, Unexpected (err_ o))
            else write_staged (stage_request q true (head_out_ s)) s
        end
    end.

Definition write_chunk (data : bytes) s : client_t L * expected unit :=
  if negb (chunked_upload_ (flags s)) then (s, Unexpected (http_error InvalidState))
  else match data with
       | [] => (s, Ok tt)
       | _ =>
           let o := put (write_chunk_size (size data)) (Serializer.clear (chunk_out_ s)) in
           let s := set_outs (head_out_ s) o s in
           if failed o then (set_broken s, Unexpected (err_ o))
           else write_staged [out_view o; data; crlf] s
       end.

Definition finish_chunks s : client_t L * expected unit :=
  if negb (chunked_upload_ (flags s)) then (s, Unexpected (http_error InvalidState))
  else write_staged [str "0" ++ crlf ++ crlf] s.

Definition read_response (fuel : nat) (m : method_t) s : outcome (client_t L * expected client_response_t) :=
  let+ (s, got) := read_headers fuel m false s in
  match got with
  | Unexpected e => Ret (s, Unexpected e)
  | Ok _ => take_whole fuel s
  end.
End Exchange.
