(* ===== verification/ClientReuse.v ===== *)
(** * When a client connection may be used again

    The discipline of [client_connection_t] (ClientExchange.v): every way an
    exchange can fail after something was written leaves the connection
    unusable, and one that may be kept has its response complete with nothing
    unread behind it; what [responded] tells the retry rule. *)

From stdpp Require Import prelude list list_numbers strings.
From Stdlib Require Import ZArith Lia.
From S2P Require Import Prelude Protocol Buffer Serializer HeadLines Headers Parser Transport Url ClientRequest ClientExchange.
Open Scope Z_scope.

Lemma bind_ret {A B} (x : outcome A) (f : A -> outcome B) b : bind_out x f = Ret b -> exists a, x = Ret a /\ f a = Ret b.
Proof. destruct x; try done. by eexists. Qed.
Lemma of_option_ret {A} (x : option A) a : of_option x = Ret a -> x = Some a.
Proof. destruct x; [by intros [= ->]|done]. Qed.

(** Takes the returns of a computation apart. *)
Ltac rets := repeat first
  [ match goal with H : bind_out _ _ = Ret _ |- _ => apply bind_ret in H; destruct H as ([? ?] & ? & H) end
  | match goal with H : Ret _ = Ret _ |- _ => injection H as H; subst end
  | match goal with H : of_option _ = Ret _ |- _ => apply of_option_ret in H end ].

Section Discipline.
Context {L : Type} (ops : llhttp_ops L) (acquire : Z -> option bytes) (ndebug : bool) (sizeof_inbound : Z) (opt : exchange_options_t).
Implicit Types s : client_t L.

(** A complete message on a connection that may be kept has nothing unread
    behind it. *)
Definition settled s : Prop :=
  body_complete_ (flags s) = true -> keep_alive_ (flags s) = true -> has_pending_input (parser_ s) = false.

Lemma finish_settled s : settled (finish_message s) /\ body_complete_ (flags (finish_message s)) = true.
Proof.
  unfold finish_message, settled. cbn [parser_ set_complete set_flags].
  destruct (has_pending_input (parser_ s)) eqn:E; split; done.
Qed.
Lemma finish_frame s : node_ (finish_message s) = node_ s /\ headers_done_ (flags (finish_message s)) = headers_done_ (flags s).
Proof. unfold finish_message. by destruct (has_pending_input _). Qed.

(** What a read leaves of the connection's state. *)
Definition same_state s s' : Prop :=
  node_ s' = node_ s /\ headers_done_ (flags s') = headers_done_ (flags s) /\ body_complete_ (flags s') = body_complete_ (flags s) /\
  keep_alive_ (flags s') = keep_alive_ (flags s) /\ broken_ (flags s') = broken_ (flags s).

Lemma same_refl s : same_state s s. Proof. done. Qed.
Lemma same_trans s1 s2 s3 : same_state s1 s2 -> same_state s2 s3 -> same_state s1 s3.
Proof. intros (A1 & A2 & A3 & A4 & A5) (B1 & B2 & B3 & B4 & B5). unfold same_state. by rewrite B1, B2, B3, B4, B5. Qed.

Lemma receive_same h s : same_state s (set_receive h s).
Proof. unfold set_receive. by destruct (store_ _). Qed.

Lemma fill_same s s' r : fill s = Ret (s', r) -> same_state s s'.
Proof.
  unfold fill. intros H. destruct (head s) as [h|]; [|done]. destruct (_ =? 0); [by rets|].
  destruct (input s) as [|[d|e|] i]; try (by rets); try done.
  destruct (take _ d) eqn:Et; [by rets|]. apply bind_ret in H. destruct H as (h' & _ & H). rets.
  eapply same_trans; [|apply (receive_same h')]. done.
Qed.
Lemma resume_same s s' r : resume_parser ops s = Ret (s', r) -> same_state s s'.
Proof. unfold resume_parser. intros H. by rets. Qed.
Lemma execute_same off n s s' r : execute_at ops off n s = Ret (s', r) -> same_state s s'.
Proof. unfold execute_at. intros H. by rets. Qed.
Lemma execute_filled_same n s s' r : execute_filled ops n s = Ret (s', r) -> same_state s s'.
Proof. unfold execute_filled. destruct (head s); [apply execute_same|done]. Qed.
Lemma refill_same s s' r : refill_body ndebug s = Ret (s', r) -> same_state s s'.
Proof.
  unfold refill_body, client_assert. destruct (ndebug || _); [|done]. destruct (head s) as [h|]; [|done]. intros H.
  eapply same_trans; [apply receive_same|by eapply fill_same].
Qed.

(** The headers: broken, stopped at an interim response, or recorded. *)
Lemma read_headers_loop_spec fuel : forall need stop s s' r,
  read_headers_loop ops fuel need stop s = Ret (s', r) ->
  match r with
  | Unexpected _ => broken_ (flags s') = true
  | Ok true => body_complete_ (flags s') = body_complete_ (flags s) /\ is_Some (node_ s') = is_Some (node_ s)
  | Ok false => headers_done_ (flags s') = true /\ settled s' /\ is_Some (node_ s')
  end.
Proof.
  induction fuel as [|fuel IH]; intros need stop s s' r H; [done|]. cbn [read_headers_loop] in H.
  apply bind_ret in H. destruct H as ([s1 first] & Hf & H).
  assert (F : match first with inr _ => broken_ (flags s1) = true | inl _ => same_state s s1 end).
  { destruct need; [|rets; by eapply resume_same]. apply bind_ret in Hf. destruct Hf as ([s0 got] & Hg & Hf). apply fill_same in Hg.
    destruct got as [n|e]; [|by rets]. destruct (n =? 0); [by rets|]. rets. eapply same_trans; [done|by eapply execute_filled_same]. }
  destruct first as [r1|e]; [|by rets]. destruct F as (Fn & _ & Fc & _ & _).
  destruct r1; try (by rets).
  - apply IH in H. by rewrite <- Fn, <- Fc.
  - destruct (_ && _); [|apply bind_ret in H; destruct H as (s2 & Hr & H)].
    + destruct (stop && _); [rets; simpl; by rewrite Fn, Fc|]. apply IH in H. cbn in H. by rewrite <- Fn, <- Fc.
    + unfold record_headers in Hr. destruct (node_ s1) as [n|] eqn:En; [|done]. injection Hr as <-. rets. split; [done|]. split; [done|by eexists].
  - destruct (_ && _); [|apply bind_ret in H; destruct H as (s2 & Hr & H)].
    + destruct (stop && _); [rets; simpl; by rewrite Fn, Fc|]. apply IH in H. cbn in H. by rewrite <- Fn, <- Fc.
    + unfold record_headers in Hr. destruct (node_ s1) as [n|] eqn:En; [|done]. injection Hr as <-. rets.
      match goal with |- context[finish_message ?x] => destruct (finish_frame x) as [-> ->]; destruct (finish_settled x) end.
      split; [done|]. split; [done|by eexists].
Qed.

Lemma read_headers_no_stop fuel : forall need s s', read_headers_loop ops fuel need false s <> Ret (s', Ok true).
Proof.
  induction fuel as [|fuel IH]; intros need s s' H; [done|]. cbn [read_headers_loop] in H.
  apply bind_ret in H. destruct H as ([s1 [r1|e]] & _ & H); [|done]. destruct r1; try done; try (by apply IH in H).
  all: (destruct (_ && _); [by apply IH in H|]); apply bind_ret in H; by destruct H as (s2 & _ & H).
Qed.

Lemma settled_same s s' : same_state s s' -> body_complete_ (flags s) = false -> settled s'.
Proof. intros (_ & _ & H & _) Hc Hc'. congruence. Qed.

(** The outcome of a step of the body: broken, or settled in the same
    exchange. *)
Definition taken {A} s (done : A -> bool) (s' : client_t L) (r : expected A) : Prop :=
  match r with
  | Unexpected _ => broken_ (flags s') = true
  | Ok d => settled s' /\ node_ s' = node_ s /\ headers_done_ (flags s') = headers_done_ (flags s) /\
      (done d = true -> body_complete_ (flags s') = true)
  end.

Definition is_nil {A} (l : list A) : bool := match l with [] => true | _ => false end.

Lemma last_run_taken s s' r : last_run s = (s', r) -> taken s is_nil s' r.
Proof.
  unfold last_run. destruct (finish_settled s) as [Hs Hc], (finish_frame s) as [Hn Hh].
  destruct (pending_run _); intros [= <- <-]; simpl; split_and!; done.
Qed.

Lemma taken_frame {A} s1 s (fin : A -> bool) s' r :
  taken s1 fin s' r -> node_ s1 = node_ s -> headers_done_ (flags s1) = headers_done_ (flags s) -> taken s fin s' r.
Proof. destruct r; [|done]. simpl. intros H N D. by rewrite <- N, <- D. Qed.

Lemma read_body_loop_spec fuel : forall s s' r, settled s -> read_body_loop ops ndebug fuel s = Ret (s', r) -> taken s is_nil s' r.
Proof.
  induction fuel as [|fuel IH]; intros s s' r Hs H; [done|]. cbn [read_body_loop] in H.
  destruct (pending_run (parser_ s)) eqn:Ep; [|by rets].
  destruct (body_complete_ (flags s)) eqn:Ec; [by rets|].
  apply bind_ret in H. destruct H as ([s1 r1] & H1 & H). apply resume_same in H1. pose proof H1 as (N1 & D1 & _ & _).
  destruct r1; try (by rets).
  - apply bind_ret in H. destruct H as ([s2 got] & H2 & H). apply refill_same in H2. destruct got as [n|e]; [|by rets].
    pose proof (same_trans _ _ _ H1 H2) as H12. pose proof H12 as (N2 & D2 & _). destruct (n =? 0).
    + destruct (_ && _); [|by rets]. apply bind_ret in H. destruct H as ([p r2] & _ & H).
      destruct r2; try (by rets). injection H as H. apply last_run_taken in H. by eapply taken_frame.
    + apply bind_ret in H. destruct H as ([s3 r3] & H3 & H). apply execute_same in H3.
      pose proof (same_trans _ _ _ H12 H3) as H13. pose proof H13 as (N3 & D3 & _).
      destruct r3; try (by rets); try (apply IH in H; [|by apply (settled_same s)]);
        try (injection H as H; apply last_run_taken in H); by eapply taken_frame.
  - rets. simpl. destruct (finish_settled s1) as [? ?], (finish_frame s1) as [-> ->]. by rewrite N1, D1.
  - apply IH in H; [|by apply (settled_same s)]. by eapply taken_frame.
Qed.

Lemma append_body_frame run s s' r : append_body acquire opt run s = Ret (s', r) -> flags s' = flags s /\ parser_ s' = parser_ s.
Proof.
  unfold append_body. intros H. destruct run as [|x run]; [by rets|]. destruct (node_ s) as [n|]; [|done].
  destruct (_ <? _); [by rets|]. apply bind_ret in H. destruct H as ([b r1] & _ & H). destruct r1; [|by rets].
  apply bind_ret in H. destruct H as ([b2 r2] & _ & H). by rets.
Qed.

(** The outcome of taking a whole body. *)
Definition whole s (s' : client_t L) (r : expected unit) : Prop :=
  match r with
  | Unexpected _ => broken_ (flags s') = true
  | Ok _ => settled s' /\ body_complete_ (flags s') = true /\ headers_done_ (flags s') = headers_done_ (flags s) /\ is_Some (node_ s')
  end.

Lemma aggregate_runs_spec n : forall fuel s s' r,
  settled s -> is_Some (node_ s) -> aggregate_runs ops acquire ndebug opt n fuel s = Ret (s', r) -> whole s s' r.
Proof.
  induction n as [|n IH]; intros fuel s s' r Hs Hn H; [done|]. cbn [aggregate_runs] in H.
  apply bind_ret in H. destruct H as ([s1 r1] & H1 & H). unfold read_body in H1. destruct (node_ s) as [nd|] eqn:En; [|by destruct Hn].
  apply read_body_loop_spec in H1; [|done]. destruct r1 as [d|e]; [|by rets]. destruct H1 as (S1 & N1 & D1 & C1).
  destruct d as [|x d]; [rets; simpl; by rewrite D1, C1, N1, En|].
  apply bind_ret in H. destruct H as ([s2 r2] & H2 & H). pose proof H2 as E2. apply append_body_frame in H2. destruct H2 as [F2 P2].
  destruct r2; [|by rets]. apply IH in H.
  - destruct r; [|done]. destruct H as (K1 & K2 & K3 & K4). simpl. by rewrite K3, F2, D1.
  - unfold settled. by rewrite F2, P2.
  - unfold append_body in E2. rewrite N1, En in E2. destruct (_ <? _); [done|]. apply bind_ret in E2. destruct E2 as ([b3 r3] & _ & E2).
    destruct r3; [|by rets]. apply bind_ret in E2. destruct E2 as ([b4 r4] & _ & E2). rets. by eexists.
Qed.

Lemma aggregate_exact_spec fuel : forall s s' r, is_Some (node_ s) -> aggregate_exact ops ndebug fuel s = Ret (s', r) -> whole s s' r.
Proof.
  induction fuel as [|fuel IH]; intros s s' r Hn H; [done|]. cbn [aggregate_exact] in H.
  assert (Fin : forall s1, same_state s s1 -> whole s (finish_message s1) (Ok tt)).
  { intros s1 (N & D & _). destruct (finish_settled s1), (finish_frame s1) as [Nf F]. simpl. by rewrite F, D, Nf, N. }
  apply bind_ret in H. destruct H as ([s1 r1] & H1 & H). apply resume_same in H1. destruct r1; try (by rets); [|by rets; apply Fin].
  apply bind_ret in H. destruct H as ([s2 got] & H2 & H). apply refill_same in H2. destruct got as [k|e]; [|by rets].
  destruct (k =? 0); [by rets|]. apply bind_ret in H. destruct H as ([s3 r3] & H3 & H). apply execute_same in H3.
  pose proof (same_trans _ _ _ H1 (same_trans _ _ _ H2 H3)) as H13. pose proof H13 as (N3 & D3 & _).
  destruct r3; try (by rets); try (by rets; apply Fin); (apply IH in H; [|by rewrite N3]); (destruct r; [|done]); destruct H as (K1 & K2 & K3 & K4); simpl; by rewrite K3, D3.
Qed.

Lemma aggregate_body_spec fuel s s' r :
  settled s -> is_Some (node_ s) -> aggregate_body ops acquire ndebug opt fuel s = Ret (s', r) -> whole s s' r.
Proof.
  intros Hs Hn. unfold aggregate_body. destruct (body_complete_ (flags s)) eqn:Ec; [intros; by rets|].
  destruct (negb _); [by apply aggregate_runs_spec|by apply aggregate_exact_spec].
Qed.

Lemma sink_frame k s : flags (set_body_sink k s) = flags s /\ feedst_ (parser_ (set_body_sink k s)) = feedst_ (parser_ s) /\
  (is_Some (node_ s) -> is_Some (node_ (set_body_sink k s))).
Proof. unfold set_body_sink. destruct (node_ s) as [n|]; simpl; split_and!; try done. Qed.

Lemma prepare_body_spec stream s s' : settled s -> is_Some (node_ s) ->
  prepare_body acquire opt stream s = Ret (s', Ok tt) -> settled s' /\ is_Some (node_ s') /\ headers_done_ (flags s') = headers_done_ (flags s).
Proof.
  intros Hs Hn. unfold prepare_body. set (s0 := set_streaming stream s). assert (K0 : settled s0 /\ is_Some (node_ s0)) by done.
  assert (SK : forall k, settled (set_body_sink k s0) /\ is_Some (node_ (set_body_sink k s0)) /\ headers_done_ (flags (set_body_sink k s0)) = headers_done_ (flags s)).
  { intros k. destruct (sink_frame k s0) as (F1 & F2 & F3). unfold settled, has_pending_input. rewrite F1, F2. split; [apply Hs|]. split; [by apply F3|done]. }
  destruct (_ || _); [intros; rets; apply SK|]. destruct (has_content_length_ _) eqn:Eh.
  - destruct (node_ s0) as [n|] eqn:En; [|done]. destruct (_ <? _); [done|]. destruct (Body.reserve_exact _ _ _) as [b rr]. destruct rr; [|done].
    intros; rets. apply SK.
  - destruct (node_ (set_body_sink None s0)) as [n|] eqn:En; [|done]. destruct (Body.reserve_exact _ _ _) as [b rr]. intros; rets.
    destruct (SK None) as (K1 & K2 & K3). split; [done|]. split; [by eexists|done].
Qed.

Lemma take_whole_spec fuel s s' r :
  settled s -> is_Some (node_ s) -> headers_done_ (flags s) = true -> take_whole ops acquire ndebug opt fuel s = Ret (s', r) ->
  match r with
  | Unexpected _ => broken_ (flags s') = true
  | Ok resp => settled s' /\ body_complete_ (flags s') = true /\ nb_keep_alive (r_node resp) = keep_alive_ (flags s') /\ node_ s' = None
  end.
Proof.
  intros Hs Hn Hd H. unfold take_whole in H. apply bind_ret in H. destruct H as ([s1 r1] & H1 & H). destruct r1 as [[]|]; [|by rets].
  apply prepare_body_spec in H1; [|done..]. destruct H1 as (S1 & N1 & D1). apply bind_ret in H. destruct H as ([s2 r2] & H2 & H).
  apply aggregate_body_spec in H2; [|done..]. destruct r2; [|by rets]. destruct H2 as (S2 & C2 & D2 & N2). injection H as H.
  unfold take_response in H. destruct (node_ s2) as [n|]; [|by destruct N2]. rewrite D2, D1, Hd, C2 in H. injection H as <- <-.
  split_and!; done.
Qed.

(** Nothing was written and nothing read. *)
Definition untouched s s' : Prop := wire s' = wire s /\ input s' = input s /\ reusable s' = reusable s.

Lemma broken_not_reusable s : broken_ (flags s) = true -> reusable s = false.
Proof. unfold reusable. by intros ->. Qed.

Lemma ensure_node_untouched s s' r : ensure_node ops acquire sizeof_inbound opt s = (s', r) ->
  untouched s s' /\ (r = Ok tt -> is_Some (node_ s')).
Proof.
  unfold ensure_node. destruct (node_ s) eqn:En; [intros [= <- <-]; split; [done|by eexists]|].
  destruct (create _ _ _); intros [= <- <-]; (split; [done|]); [by eexists|done].
Qed.

Lemma write_staged_spec segs s s' r : write_staged segs s = (s', r) ->
  node_ s' = node_ s /\ body_complete_ (flags s') = body_complete_ (flags s) /\ (forall e, r = Unexpected e -> broken_ (flags s') = true).
Proof. unfold write_staged. destruct (_ <=? _); intros [= <- <-]; split_and!; done. Qed.

Lemma read_headers_spec fuel m stop s s' r :
  read_headers ops fuel m stop s = Ret (s', r) ->
  match r with
  | Unexpected _ => broken_ (flags s') = true
  | Ok true => body_complete_ (flags s') = body_complete_ (flags s)
  | Ok false => headers_done_ (flags s') = true /\ settled s' /\ is_Some (node_ s')
  end.
Proof. unfold read_headers. intros H. apply read_headers_loop_spec in H. destruct r as [[]|]; try done. apply H. Qed.

Lemma keep_alive_off_settled s : settled (set_keep_alive false s).
Proof. by intros _. Qed.

Lemma send_and_read_headers_spec fuel q s s' r :
  send_and_read_headers ops acquire sizeof_inbound opt fuel q s = Ret (s', r) ->
  match r with
  | Unexpected _ => reusable s' = false \/ untouched s s'
  | Ok _ => headers_done_ (flags s') = true /\ settled s' /\ is_Some (node_ s')
  end.
Proof.
  unfold send_and_read_headers. destruct (req_failed q); [intros; rets; by right|].
  destruct (ensure_node _ _ _ _ _) as [s1 r1] eqn:E1. apply ensure_node_untouched in E1. destruct E1 as [U1 N1].
  destruct r1 as [[]|]; [|intros; rets; by right]. destruct (failed _); [intros; rets; left; by apply broken_not_reusable|].
  destruct (write_staged _ _) as [s2 r2] eqn:E2. apply write_staged_spec in E2. destruct E2 as (N2 & C2 & B2).
  destruct r2; [|intros; rets; left; apply broken_not_reusable; by eapply B2].
  assert (Fin : forall s3 s4 r4, (let+ (s, got) := read_headers ops fuel (method_ q) false s3 in
      Ret (s, match got with Ok _ => Ok tt | Unexpected e => Unexpected e end)) = Ret (s4, r4) ->
    match r4 with Unexpected _ => reusable s4 = false \/ untouched s s4 | Ok _ => headers_done_ (flags s4) = true /\ settled s4 /\ is_Some (node_ s4) end).
  { intros s3 s4 r4 H. apply bind_ret in H. destruct H as ([s5 got] & H5 & H). pose proof H5 as H6. apply read_headers_spec in H5.
    rets. destruct got as [[]|]; [|done|left; by apply broken_not_reusable].
    exfalso. revert H6. unfold read_headers. apply read_headers_no_stop. }
  destruct (_ && _); [|apply Fin]. intros H. apply bind_ret in H. destruct H as ([s3 p3] & H3 & H). apply read_headers_spec in H3.
  destruct p3 as [[]|]; [| |rets; left; by apply broken_not_reusable].
  - destruct (write_staged _ s3) as [s4 r4] eqn:E4. apply write_staged_spec in E4. destruct E4 as (N4 & C4 & B4).
    destruct r4; [by apply Fin in H|rets; left; apply broken_not_reusable; by eapply B4].
  - rets. destruct H3 as (K1 & K2 & K3). split; [done|]. split; [apply keep_alive_off_settled|done].
Qed.

(** ** Silence of the peer *)

Definition quiet (x : recv_t) : Prop := match x with Received d => d = [] | _ => True end.

(** What was read from [s] to [s'] held no byte, unless [s'] says so. *)
Definition silent s s' : Prop :=
  (responded s = true -> responded s' = true) /\
  (responded s' = false -> exists pre, input s = pre ++ input s' /\ Forall quiet pre).

Lemma silent_eq s s' : responded s' = responded s -> input s' = input s -> silent s s'.
Proof. intros H1 H2. split; [by rewrite H1|]. intros _. exists []. by rewrite H2. Qed.
Lemma silent_trans s1 s2 s3 : silent s1 s2 -> silent s2 s3 -> silent s1 s3.
Proof.
  intros [A1 A2] [B1 B2]. split; [auto|]. intros H. destruct (B2 H) as (p2 & E2 & Q2).
  destruct A2 as (p1 & E1 & Q1); [destruct (responded s2); [by rewrite B1 in H|done]|].
  exists (p1 ++ p2). rewrite E1, E2, app_assoc. split; [done|by apply Forall_app].
Qed.
Lemma silent_refl s : silent s s. Proof. by apply silent_eq. Qed.
Lemma silent_after s s1 s2 : silent s s1 -> responded s2 = responded s1 -> input s2 = input s1 -> silent s s2.
Proof. intros H A B. eapply silent_trans; [exact H|by apply silent_eq]. Qed.

Lemma fill_silent s s' r : fill s = Ret (s', r) -> silent s s'.
Proof.
  unfold fill. intros H. destruct (head s) as [h|] eqn:Eh; [|done]. destruct (Z.eqb_spec (Head.writable h) 0) as [|Hw]; [rets; apply silent_refl|].
  destruct (input s) as [|[d|e|] i] eqn:Ei; [done| |rets; split; [done|]; intros _..].
  2: { exists [RecvFailed e]. by rewrite Ei; split; [|repeat constructor]. }
  2: { exists [TimedOut]. by rewrite Ei; split; [|repeat constructor]. }
  destruct (take _ d) as [|x g] eqn:Et.
  - rets. split; [done|]. intros _. destruct d as [|y d]; [exists [Received []]; rewrite Ei, drop_nil; by split; [|repeat constructor]|].
    destruct (Z.to_nat _); [|done]. exists []. by rewrite Ei.
  - apply bind_ret in H. destruct H as (h' & _ & H). rets. split; done.
Qed.
Lemma receive_silent h s : silent s (set_receive h s).
Proof. unfold set_receive. destruct (store_ _); by apply silent_eq. Qed.
Lemma refill_silent s s' r : refill_body ndebug s = Ret (s', r) -> silent s s'.
Proof.
  unfold refill_body, client_assert. destruct (ndebug || _); [|done]. destruct (head s) as [h|]; [|done]. intros H.
  eapply silent_trans; [apply receive_silent|by eapply fill_silent].
Qed.
Lemma resume_silent s s' r : resume_parser ops s = Ret (s', r) -> silent s s'.
Proof. unfold resume_parser. intros H. rets. by apply silent_eq. Qed.
Lemma execute_silent off n s s' r : execute_at ops off n s = Ret (s', r) -> silent s s'.
Proof. unfold execute_at. intros H. rets. by apply silent_eq. Qed.
Lemma execute_filled_silent n s s' r : execute_filled ops n s = Ret (s', r) -> silent s s'.
Proof. unfold execute_filled. destruct (head s); [apply execute_silent|done]. Qed.
Lemma finish_silent s : silent s (finish_message s).
Proof. unfold finish_message. destruct (has_pending_input _); by apply silent_eq. Qed.

Ltac quietly := first [apply silent_refl | eassumption | eapply silent_after; [eassumption|reflexivity|reflexivity]].

Lemma record_silent s s' : record_headers s = Ret s' -> silent s s'.
Proof. unfold record_headers. destruct (node_ s); [|done]. intros [= <-]. by apply silent_eq. Qed.

Lemma read_headers_loop_silent fuel : forall need stop s s' r, read_headers_loop ops fuel need stop s = Ret (s', r) -> silent s s'.
Proof.
  induction fuel as [|fuel IH]; intros need stop s s' r H; [done|]. cbn [read_headers_loop] in H.
  apply bind_ret in H. destruct H as ([s1 first] & Hf & H).
  assert (F : silent s s1).
  { destruct need; [|rets; by eapply resume_silent]. apply bind_ret in Hf. destruct Hf as ([s0 got] & Hg & Hf). apply fill_silent in Hg.
    destruct got as [n|e]; [|rets; quietly]. destruct (n =? 0); [rets; quietly|]. rets. eapply silent_trans; [done|by eapply execute_filled_silent]. }
  destruct first as [r1|e]; [|by rets]. destruct r1; try (rets; quietly); try (eapply silent_trans; [exact F|by apply IH in H]).
  all: destruct (_ && _);
    [destruct (stop && _); [rets; quietly|apply IH in H; eapply silent_trans; [exact F|]; by eapply silent_trans; [|exact H]; apply silent_eq]|].
  all: apply bind_ret in H; destruct H as (s2 & Hr & H); apply record_silent in Hr; rets.
  - eapply silent_trans; [exact F|]. quietly.
  - eapply silent_trans; [exact F|]. eapply silent_trans; [exact Hr|]. eapply silent_trans; [|apply finish_silent]. by apply silent_eq.
Qed.

Lemma last_run_silent s s' r : last_run s = (s', r) -> silent s s'.
Proof.
  unfold last_run. pose proof (finish_silent s). destruct (pending_run _); intros [= <- <-]; quietly.
Qed.

Lemma read_body_loop_silent fuel : forall s s' r, read_body_loop ops ndebug fuel s = Ret (s', r) -> silent s s'.
Proof.
  induction fuel as [|fuel IH]; intros s s' r H; [done|]. cbn [read_body_loop] in H.
  destruct (pending_run (parser_ s)) eqn:Ep; [|rets; by apply silent_eq].
  destruct (body_complete_ (flags s)); [rets; quietly|].
  apply bind_ret in H. destruct H as ([s1 r1] & H1 & H). apply resume_silent in H1.
  destruct r1; try (rets; quietly); try (eapply silent_trans; [exact H1|by apply IH in H]); try (rets; eapply silent_trans; [exact H1|apply finish_silent]).
  apply bind_ret in H. destruct H as ([s2 got] & H2 & H). apply refill_silent in H2. pose proof (silent_trans _ _ _ H1 H2) as H12.
  destruct got as [n|e]; [|rets; quietly]. destruct (n =? 0).
  - destruct (_ && _); [|rets; quietly]. apply bind_ret in H. destruct H as ([p r2] & _ & H).
    destruct r2; try (rets; quietly). injection H as H. apply last_run_silent in H. eapply silent_trans; [|exact H]. quietly.
  - apply bind_ret in H. destruct H as ([s3 r3] & H3 & H). apply execute_silent in H3. pose proof (silent_trans _ _ _ H12 H3) as H13.
    destruct r3; try (rets; quietly); try (eapply silent_trans; [exact H13|by apply IH in H]).
    injection H as H. apply last_run_silent in H. by eapply silent_trans.
Qed.

Lemma append_body_silent run s s' r : append_body acquire opt run s = Ret (s', r) -> silent s s'.
Proof.
  intros H. apply silent_eq; [unfold responded; by rewrite (proj1 (append_body_frame _ _ _ _ H))|].
  unfold append_body in H. destruct run as [|x run]; [by rets|]. destruct (node_ s) as [n|]; [|done].
  destruct (_ <? _); [by rets|]. apply bind_ret in H. destruct H as ([b r1] & _ & H). destruct r1; [|by rets].
  apply bind_ret in H. destruct H as ([b2 r2] & _ & H). by rets.
Qed.

Lemma read_body_silent fuel s s' r : read_body ops ndebug fuel s = Ret (s', r) -> silent s s'.
Proof. unfold read_body. destruct (node_ s); [apply read_body_loop_silent|intros; rets; quietly]. Qed.

Lemma aggregate_runs_silent n : forall fuel s s' r, aggregate_runs ops acquire ndebug opt n fuel s = Ret (s', r) -> silent s s'.
Proof.
  induction n as [|n IH]; intros fuel s s' r H; [done|]. cbn [aggregate_runs] in H.
  apply bind_ret in H. destruct H as ([s1 r1] & H1 & H). apply read_body_silent in H1.
  destruct r1 as [[|x d]|e]; [rets; quietly| |rets; quietly]. apply bind_ret in H. destruct H as ([s2 r2] & H2 & H). apply append_body_silent in H2.
  pose proof (silent_trans _ _ _ H1 H2) as H12. destruct r2; [|rets; quietly]. apply IH in H. by eapply silent_trans.
Qed.

Lemma aggregate_exact_silent fuel : forall s s' r, aggregate_exact ops ndebug fuel s = Ret (s', r) -> silent s s'.
Proof.
  induction fuel as [|fuel IH]; intros s s' r H; [done|]. cbn [aggregate_exact] in H.
  apply bind_ret in H. destruct H as ([s1 r1] & H1 & H). apply resume_silent in H1.
  destruct r1; try (rets; quietly); [|rets; eapply silent_trans; [exact H1|apply finish_silent]].
  apply bind_ret in H. destruct H as ([s2 got] & H2 & H). apply refill_silent in H2. pose proof (silent_trans _ _ _ H1 H2) as H12.
  destruct got as [k|e]; [|rets; quietly]. destruct (k =? 0); [rets; quietly|].
  apply bind_ret in H. destruct H as ([s3 r3] & H3 & H). apply execute_silent in H3. pose proof (silent_trans _ _ _ H12 H3) as H13.
  destruct r3; try (rets; quietly); try (eapply silent_trans; [exact H13|by apply IH in H]).
  rets. eapply silent_trans; [exact H13|apply finish_silent].
Qed.

Lemma sink_silent k s : responded (set_body_sink k s) = responded s /\ input (set_body_sink k s) = input s.
Proof. unfold set_body_sink. by destruct (node_ s). Qed.

Lemma prepare_body_silent stream s s' r : prepare_body acquire opt stream s = Ret (s', r) -> silent s s'.
Proof.
  unfold prepare_body. set (s0 := set_streaming stream s). assert (H0 : silent s s0) by (by apply silent_eq).
  assert (SK : forall k, silent s (set_body_sink k s0)).
  { intros k. destruct (sink_silent k s0). eapply silent_trans; [exact H0|by apply silent_eq]. }
  destruct (_ || _); [intros; rets; apply SK|]. destruct (has_content_length_ _).
  - destruct (node_ s0) as [n|] eqn:En; [|done]. destruct (_ <? _); [intros; by rets|].
    destruct (Body.reserve_exact _ _ _) as [b [|e]]; intros; rets; [apply SK|].
    unfold put_body. rewrite En. quietly.
  - destruct (node_ (set_body_sink None s0)) as [n|]; [|done]. destruct (Body.reserve_exact _ _ _) as [b rr]. intros; rets.
    specialize (SK None). quietly.
Qed.

Lemma take_whole_silent fuel s s' r : take_whole ops acquire ndebug opt fuel s = Ret (s', r) -> silent s s'.
Proof.
  unfold take_whole. intros H. apply bind_ret in H. destruct H as ([s1 r1] & H1 & H). apply prepare_body_silent in H1.
  destruct r1; [|rets; quietly]. apply bind_ret in H. destruct H as ([s2 r2] & H2 & H).
  assert (silent s s2).
  { eapply silent_trans; [exact H1|]. unfold aggregate_body in H2. destruct (body_complete_ _); [rets; quietly|].
    destruct (negb _); [by eapply aggregate_runs_silent|by eapply aggregate_exact_silent]. }
  destruct r2; [|by rets]. unfold take_response in H. destruct (node_ s2); [destruct (_ || _)|]; rets; quietly.
Qed.

Lemma write_staged_silent segs s s' r : write_staged segs s = (s', r) -> silent s s'.
Proof. unfold write_staged. destruct (_ <=? _); intros [= <- <-]; by apply silent_eq. Qed.

Lemma read_headers_silent fuel m stop s s' r : read_headers ops fuel m stop s = Ret (s', r) -> silent s s'.
Proof. unfold read_headers. intros H. apply read_headers_loop_silent in H. eapply silent_trans; [|exact H]. by apply silent_eq. Qed.

(** From the start of the exchange on. *)
Definition heard s s' : Prop := responded s' = false -> exists pre, input s = pre ++ input s' /\ Forall quiet pre.

Lemma send_and_read_headers_heard fuel q s s' r :
  send_and_read_headers ops acquire sizeof_inbound opt fuel q s = Ret (s', r) -> heard s s'.
Proof.
  assert (R : heard s s) by (intros _; by exists []).
  unfold send_and_read_headers. destruct (req_failed q); [intros; by rets|].
  destruct (ensure_node _ _ _ _ _) as [s1 r1] eqn:E1. apply ensure_node_untouched in E1. destruct E1 as [(_ & I1 & _) _].
  assert (R1 : heard s s1) by (intros _; exists []; by rewrite I1). destruct r1; [|intros; by rets].
  assert (T : forall s2, silent (start_exchange false s1) s2 -> heard s s2).
  { intros s2 [_ H2] Hr. destruct (H2 Hr) as (pre & E & Q). exists pre. by rewrite <- I1. }
  destruct (failed _); [intros; rets; apply T; by apply silent_eq|].
  destruct (write_staged _ _) as [s2 r2] eqn:E2. apply write_staged_silent in E2.
  assert (S2 : silent (start_exchange false s1) s2) by (eapply silent_trans; [|exact E2]; by apply silent_eq).
  destruct r2; [|intros; rets; by apply T].
  assert (Fin : forall s3 s4 r4, silent (start_exchange false s1) s3 -> (let+ (s, got) := read_headers ops fuel (method_ q) false s3 in
      Ret (s, match got with Ok _ => Ok tt | Unexpected e => Unexpected e end)) = Ret (s4, r4) -> heard s s4).
  { intros s3 s4 r4 H3 H. apply bind_ret in H. destruct H as ([s5 got] & H5 & H). apply read_headers_silent in H5.
    rets. apply T. by eapply silent_trans. }
  destruct (_ && _); [|by apply Fin]. intros H. apply bind_ret in H. destruct H as ([s3 p3] & H3 & H). apply read_headers_silent in H3.
  pose proof (silent_trans _ _ _ S2 H3) as S3. destruct p3 as [[]|]; [|rets; apply T; quietly|rets; by apply T].
  destruct (write_staged _ s3) as [s4 r4] eqn:E4. apply write_staged_silent in E4. pose proof (silent_trans _ _ _ S3 E4) as S4.
  destruct r4; [by eapply Fin in H|rets; by apply T].
Qed.

Lemma heard_silent s s1 s2 : heard s s1 -> silent s1 s2 -> heard s s2.
Proof.
  intros H1 [M H2] Hr. destruct (H2 Hr) as (p2 & E2 & Q2). destruct H1 as (p1 & E1 & Q1); [by destruct (responded s1); [rewrite M in Hr|]|].
  exists (p1 ++ p2). rewrite E1, E2, app_assoc. split; [done|by apply Forall_app].
Qed.
End Discipline.

(** C12: when a connection may be used again. An exchange that fails leaves
    the connection unusable, unless it failed before anything was written or
    read and changed nothing; one that succeeds has handed its buffers over,
    reports the connection's own keep-alive decision, and leaves the
    connection usable only if no byte is waiting behind the response. *)
Theorem client_reuse_discipline {L} (ops : llhttp_ops L) acquire ndebug sizeof_inbound opt fuel q (s s' : client_t L) r :
  exchange ops acquire ndebug sizeof_inbound opt fuel q s = Ret (s', r) ->
  match r with
  | Unexpected _ => reusable s' = false \/ untouched s s'
  | Ok resp => node_ s' = None /\ nb_keep_alive (r_node resp) = keep_alive_ (flags s') /\
      (reusable s' = true -> nb_keep_alive (r_node resp) = true /\ has_pending_input (parser_ s') = false)
  end.
Proof.
  unfold exchange. intros H. apply bind_ret in H. destruct H as ([s1 r1] & H1 & H). apply send_and_read_headers_spec in H1.
  destruct r1; [|by rets]. destruct H1 as (D1 & S1 & N1). apply take_whole_spec in H; [|done..].
  destruct r as [resp|]; [|left; by apply broken_not_reusable]. destruct H as (S2 & C2 & K2 & N2). split; [done|]. split; [done|].
  unfold reusable. rewrite !andb_true_iff. intros (((_ & _) & K) & C). split; [congruence|by apply S2].
Qed.

(** what the retry rule relies on. If after an exchange the connection
    says that the peer has not responded, then not one byte was taken from
    the transport since the exchange began: every read in between failed,
    timed out or found the end of the stream. *)
Theorem client_responded_sound {L} (ops : llhttp_ops L) acquire ndebug sizeof_inbound opt fuel q (s s' : client_t L) r :
  exchange ops acquire ndebug sizeof_inbound opt fuel q s = Ret (s', r) -> responded s' = false ->
  exists pre, input s = pre ++ input s' /\ Forall quiet pre.
Proof.
  unfold exchange. intros H. apply bind_ret in H. destruct H as ([s1 r1] & H1 & H). apply send_and_read_headers_heard in H1.
  destruct r1; [|rets; apply H1]. apply take_whole_silent in H. by apply (heard_silent s s1 s').
Qed.
