(* ===== verification/ClientBody.v ===== *)
(** * Response bodies and uploads on the client

    Over the connection of ClientExchange.v: collecting a body of unknown
    length is reading it as a stream and concatenating the runs, within the
    limit; a chunked upload is on the wire one message that decodes to the
    pieces written. *)

From stdpp Require Import prelude list list_numbers strings.
From Stdlib Require Import ZArith Lia.
From S2P Require Import Prelude Protocol Buffer Serializer HeadLines Chunked Headers Parser Transport Url ClientRequest ClientExchange ClientReuse.
Open Scope Z_scope.

(** ** Growing *)

Lemma double_to_spec fuel : forall next want, 1 <= next -> next < 2 ^ 33 -> want <= 2 ^ 32 -> want <= next * 2 ^ Z.of_nat fuel ->
  exists m, double_to fuel next want = Ret m /\ want <= m /\ m < 2 ^ 33.
Proof.
  induction fuel as [|fuel IH]; intros next want H1 H2 Hw Hf; cbn [double_to].
  { rewrite (proj2 (Z.ltb_ge next want)) by (simpl in Hf; lia). exists next. simpl in Hf. split; [done|]. lia. }
  destruct (Z.ltb_spec next want); [|exists next; split; [done|]; lia].
  assert (u64 (next * 2) = next * 2) as -> by (apply u64_small; lia). apply IH; try lia.
  rewrite Nat2Z.inj_succ, Z.pow_succ_r in Hf by lia. lia.
Qed.

Section Aggregate.
Context {L : Type} (ops : llhttp_ops L) (acquire : Z -> option bytes) (ndebug : bool) (opt : exchange_options_t).
Implicit Types s : client_t L.

Hypothesis acquire_enough : forall n d, acquire n = Some d -> n <= size d < 2 ^ 32.
Hypothesis acquire_ready : forall n, 0 <= n <= max_body_bytes opt -> is_Some (acquire n).
Hypothesis max_fits : max_body_bytes opt < 2 ^ 32.

Lemma append_body_fits d s nd :
  node_ s = Some nd -> Body.ok (nb_body nd) -> 0 < Body.cap_ (nb_body nd) -> Body.size_ (nb_body nd) + size d <= max_body_bytes opt ->
  exists b, append_body acquire opt d s = Ret (set_node (Some (with_body b nd)) s, Ok tt) /\ Body.ok b /\ 0 < Body.cap_ b /\
    Body.view b = Body.view (nb_body nd) ++ d.
Proof.
  intros Hn Hok Hc Hfit. pose proof (size_nonneg d) as Hd. pose proof Hok as (Hs & Hcap & Hlt). unfold append_body.
  destruct d as [|x d].
  { exists (nb_body nd). rewrite app_nil_r. split; [|done]. destruct s, nd. simpl in *. by subst. }
  rewrite Hn. cbv beta iota zeta. set (run := x :: d) in *. set (b := nb_body nd) in *.
  assert (u64 (Body.size_ b + size run) = Body.size_ b + size run) as -> by (apply u64_small; lia).
  rewrite (proj2 (Z.ltb_ge _ _)) by lia.
  assert (G : exists b1, (if Body.cap_ b <? Body.size_ b + size run then
      let+ next := double_to 64 (if Body.cap_ b =? 0 then aggregate_threshold opt else u64 (Body.cap_ b * 2)) (Body.size_ b + size run) in
      of_option (Body.grow acquire (u32 (if max_body_bytes opt <? next then max_body_bytes opt else next)) b)
    else Ret (b, Ok tt)) = Ret (b1, Ok tt) /\ Body.ok b1 /\ 0 < Body.cap_ b1 /\ Body.view b1 = Body.view b /\ Body.size_ b1 = Body.size_ b /\
      Body.size_ b + size run <= Body.cap_ b1).
  { destruct (Z.ltb_spec (Body.cap_ b) (Body.size_ b + size run)); [|by exists b; split_and!; try done; lia].
    rewrite (proj2 (Z.eqb_neq _ _)) by lia. assert (u64 (Body.cap_ b * 2) = Body.cap_ b * 2) as -> by (apply u64_small; lia).
    destruct (double_to_spec 64 (Body.cap_ b * 2) (Body.size_ b + size run)) as (m & -> & Hm & Hm2); [lia..| |].
    { change (2 ^ Z.of_nat 64) with (2 ^ 64). nia. }
    cbn [bind_out]. set (next := if max_body_bytes opt <? m then max_body_bytes opt else m).
    assert (Body.size_ b + size run <= next <= max_body_bytes opt) as Hnx by (subst next; destruct (Z.ltb_spec (max_body_bytes opt) m); lia).
    rewrite u32_small by lia. destruct (Body.grow_spec acquire acquire_enough next b Hok) as (b1 & r & -> & K1 & K2 & K3 & K4 & K5); [lia|].
    cbn [of_option]. rewrite K5 in * by (right; apply acquire_ready; lia). specialize (K3 eq_refl).
    exists b1. split_and!; try done; lia. }
  destruct G as (b1 & -> & O1 & C1 & V1 & S1 & F1). cbn [bind_out].
  destruct (Body.append_spec run b1 O1) as (b2 & r & -> & O2 & C2 & H2); [rewrite S1; destruct O1 as (_ & _ & ?); lia|].
  cbn [of_option bind_out]. rewrite S1 in H2. rewrite (proj2 (Z.leb_le _ _)) in H2 by lia. destruct H2 as [-> V2].
  exists b2. split; [done|]. split; [done|]. split; [lia|]. by rewrite V2, V1.
Qed.

Lemma append_body_over d s nd :
  node_ s = Some nd -> Body.ok (nb_body nd) -> size d < 2 ^ 32 -> d <> [] -> max_body_bytes opt < Body.size_ (nb_body nd) + size d ->
  append_body acquire opt d s = Ret (s, Unexpected (http_error BodyTooLarge)).
Proof.
  intros Hn (Hs & Hcap & Hlt) Hd Hne Hov. unfold append_body. destruct d as [|x d]; [done|]. rewrite Hn.
  pose proof (size_nonneg (x :: d)). rewrite u64_small by lia. by rewrite (proj2 (Z.ltb_lt _ _)) by lia.
Qed.

(** ** Reading does not look at the node *)

Definition lift {A} (n : inbound_t) (x : outcome (client_t L * A)) : outcome (client_t L * A) :=
  let+ (s, r) := x in Ret (set_node (Some n) s, r).

Lemma lift_bind {A B} n (x : outcome (client_t L * A)) (f g : client_t L * A -> outcome (client_t L * B)) :
  (forall s r, x = Ret (s, r) -> g (set_node (Some n) s, r) = lift n (f (s, r))) -> bind_out (lift n x) g = lift n (bind_out x f).
Proof. destruct x as [[s r]| | | |]; simpl; try done. intros H. by apply H. Qed.

Lemma receive_lift n h s : set_receive h (set_node (Some n) s) = set_node (Some n) (set_receive h s).
Proof. unfold set_receive. simpl. by destruct (store_ (parser_ s)). Qed.

Lemma fill_lift n s : is_Some (node_ s) -> fill (set_node (Some n) s) = lift n (fill s).
Proof.
  intros [n0 Hn]. unfold fill, head. rewrite Hn. cbn [node_ set_node parser_]. destruct (store_ (parser_ s)) as [st|] eqn:Est; [|done].
  destruct (_ =? 0); [done|]. cbn [input set_node fired]. destruct (input s) as [|[d|e|] i]; try done.
  destruct (take _ d); [done|]. destruct (of_option _) as [h| | | |]; try done. simpl. f_equal. f_equal.
  unfold set_receive. simpl. rewrite Est. done.
Qed.

Lemma fill_node s s' r : fill s = Ret (s', r) -> node_ s' = node_ s.
Proof. intros H. apply fill_same in H. apply H. Qed.

Lemma refill_lift n s : is_Some (node_ s) -> refill_body ndebug (set_node (Some n) s) = lift n (refill_body ndebug s).
Proof.
  intros Hn. unfold refill_body, client_assert. cbn [parser_ set_node]. destruct (ndebug || _); [|done].
  unfold head. destruct (node_ s) as [n0|] eqn:En; [|by destruct Hn]. cbn [node_ set_node parser_].
  destruct (store_ (parser_ s)) as [st|]; [|done]. cbn [body_window_ set_node]. rewrite receive_lift. apply fill_lift.
  unfold set_receive. destruct (store_ _); by rewrite ?En.
Qed.

Lemma resume_lift n s : resume_parser ops (set_node (Some n) s) = lift n (resume_parser ops s).
Proof. unfold resume_parser. cbn [parser_ set_node]. by destruct (of_option _) as [[p r]| | | |]. Qed.
Lemma execute_lift n off k s : execute_at ops off k (set_node (Some n) s) = lift n (execute_at ops off k s).
Proof. unfold execute_at. cbn [parser_ set_node]. by destruct (of_option _) as [[p r]| | | |]. Qed.
Lemma finish_lift n s : finish_message (set_node (Some n) s) = set_node (Some n) (finish_message s).
Proof. unfold finish_message. cbn. by destruct (has_pending_input _). Qed.
Lemma last_run_lift n s : Ret (last_run (set_node (Some n) s)) = lift n (Ret (last_run s)).
Proof. unfold last_run. rewrite finish_lift. cbn [parser_ set_node]. by destruct (pending_run _). Qed.

Lemma read_body_loop_lift n fuel : forall s, is_Some (node_ s) ->
  read_body_loop ops ndebug fuel (set_node (Some n) s) = lift n (read_body_loop ops ndebug fuel s).
Proof.
  induction fuel as [|fuel IH]; intros s Hn; [done|]. cbn [read_body_loop]. cbn [parser_ set_node flags].
  destruct (pending_run (parser_ s)) eqn:Ep; [|done]. destruct (body_complete_ (flags s)); [done|].
  rewrite resume_lift. apply lift_bind. intros s1 r1 H1. apply resume_same in H1. destruct H1 as (N1 & _). rewrite <- N1 in Hn.
  destruct r1; try done; [| |by apply IH].
  - rewrite refill_lift by done. apply lift_bind. intros s2 got H2. apply refill_same in H2. destruct H2 as (N2 & _). rewrite <- N2 in Hn.
    destruct got as [k|e]; [|done]. destruct (k =? 0).
    + cbn [parser_ set_node set_keep_alive set_flags flags]. destruct (_ && _); [|done].
      destruct (of_option _) as [[p r]| | | |]; try done. cbn [bind_out].
      change (set_parser p (set_keep_alive false (set_node (Some n) s2))) with (set_node (Some n) (set_parser p (set_keep_alive false s2))).
      destruct r; try done. apply last_run_lift.
    + cbn [body_window_ set_node]. rewrite execute_lift. apply lift_bind. intros s3 r3 H3. apply execute_same in H3 as (N3 & _).
      rewrite <- N3 in Hn. destruct r3; try done; (apply last_run_lift || by apply IH).
  - rewrite finish_lift. done.
Qed.

(** ** Collecting and streaming *)

(** The runs a caller gets who reads the body as a stream, [n] times at most,
    up to the end or an error. *)
Fixpoint stream_runs (n fuel : nat) s : outcome (client_t L * (list bytes * option error_t)) :=
  match n with
  | O => Starved
  | S n =>
      let+ (s, r) := read_body ops ndebug fuel s in
      match r with
      | Unexpected e => Ret (s, ([], Some e))
      | Ok [] => Ret (s, ([], None))
      | Ok d => let+ (s, out) := stream_runs n fuel s in Ret (s, (d :: fst out, snd out))
      end
  end.

Lemma read_body_lift n fuel s : is_Some (node_ s) -> read_body ops ndebug fuel (set_node (Some n) s) = lift n (read_body ops ndebug fuel s).
Proof. intros Hn. unfold read_body. cbn [node_ set_node]. rewrite read_body_loop_lift by done. destruct (node_ s); [done|by destruct Hn]. Qed.

Lemma set_node_same n s : node_ s = Some n -> set_node (Some n) s = s.
Proof. destruct s. simpl. by intros ->. Qed.
Lemma with_body_same n : with_body (nb_body n) n = n. Proof. by destruct n. Qed.

Lemma read_body_node fuel s s' r n : node_ s = Some n -> read_body ops ndebug fuel s = Ret (s', r) -> node_ s' = Some n.
Proof.
  intros Hn H. pose proof (read_body_lift n fuel s ltac:(by eexists)) as E. rewrite set_node_same, H in E by done.
  injection E as E. by rewrite E.
Qed.

Lemma stream_runs_lift n k : forall fuel s, is_Some (node_ s) -> stream_runs k fuel (set_node (Some n) s) = lift n (stream_runs k fuel s).
Proof.
  induction k as [|k IH]; intros fuel s Hn; [done|]. cbn [stream_runs]. rewrite read_body_lift by done. apply lift_bind. intros s1 r1 H1.
  destruct r1 as [[|x d]|e]; [done| |done]. destruct Hn as [n0 Hn]. pose proof (read_body_node _ _ _ _ _ Hn H1) as N1.
  rewrite IH by (by eexists). by apply lift_bind.
Qed.

Lemma aggregate_stream k : forall fuel s nd s1 ds,
  node_ s = Some nd -> Body.ok (nb_body nd) -> 0 < Body.cap_ (nb_body nd) -> Body.size_ (nb_body nd) <= max_body_bytes opt ->
  stream_runs k fuel s = Ret (s1, (ds, None)) -> Forall (fun d => size d < 2 ^ 32) ds ->
  if Body.size_ (nb_body nd) + size (concat ds) <=? max_body_bytes opt
  then exists b, aggregate_runs ops acquire ndebug opt k fuel s = Ret (set_node (Some (with_body b nd)) s1, Ok tt) /\ Body.ok b /\
         Body.view b = Body.view (nb_body nd) ++ concat ds
  else exists s2, aggregate_runs ops acquire ndebug opt k fuel s = Ret (s2, Unexpected (http_error BodyTooLarge)) /\ broken_ (flags s2) = true.
Proof.
  induction k as [|k IH]; intros fuel s nd s1 ds Hn Hok Hc Hle H Hds; [done|]. cbn [stream_runs aggregate_runs] in *.
  apply bind_ret in H. destruct H as ([s' r] & Hr & H). rewrite Hr. cbn [bind_out]. pose proof (read_body_node _ _ _ _ _ Hn Hr) as Hn'.
  destruct r as [[|x d]|e]; [| |done].
  { rets. cbn [concat]. change (size []) with 0. rewrite (proj2 (Z.leb_le _ _)) by lia. exists (nb_body nd).
    rewrite with_body_same, set_node_same, app_nil_r by done. done. }
  apply bind_ret in H. destruct H as ([s2 [ds' e']] & Hs & H). injection H as <- <- ->. cbn [fst snd concat] in *.
  inversion Hds as [|? ? Hd1 Hds']; subst. rewrite size_app. pose proof (size_nonneg (concat ds')).
  destruct (Z.leb_spec (Body.size_ (nb_body nd) + size (x :: d)) (max_body_bytes opt)) as [Hfit|Hov].
  - destruct (append_body_fits (x :: d) s' nd Hn' Hok Hc Hfit) as (b & -> & Ob & Cb & Vb). cbn [bind_out].
    pose proof (stream_runs_lift (with_body b nd) k fuel s' ltac:(by eexists)) as El. rewrite Hs in El. cbn [lift bind_out] in El.
    assert (Sb : Body.size_ b = Body.size_ (nb_body nd) + size (x :: d)).
    { rewrite <- (Body.size_view b Ob), Vb, size_app. by rewrite (Body.size_view _ Hok). }
    specialize (IH fuel (set_node (Some (with_body b nd)) s') (with_body b nd) _ ds' eq_refl Ob Cb ltac:(simpl; lia) El Hds').
    cbn [nb_body with_body] in IH. rewrite Sb in IH. replace (Body.size_ (nb_body nd) + size (x :: d) + size (concat ds'))
      with (Body.size_ (nb_body nd) + (size (x :: d) + size (concat ds'))) in IH by lia.
    destruct (_ <=? _); destruct IH as (z & -> & IH); [|by exists z]. exists z. destruct IH as [Oz Vz]. split; [done|].
    split; [done|]. rewrite Vz, Vb. by rewrite <- app_assoc.
  - rewrite (append_body_over (x :: d) s' nd) by done. cbn [bind_out]. rewrite (proj2 (Z.leb_gt _ _)) by lia. by eexists.
Qed.
End Aggregate.

(** collecting a response body of unknown length is reading it as a
    stream and concatenating the runs. If a caller reading the body run by
    run gets [ds] and then the end, then collecting it from the same state
    succeeds with exactly the bytes of [ds] when they fit the limit, leaving
    the connection as the stream would; otherwise it reports that the body is
    too large and the connection is broken. The buffer grows by doubling and
    never loses or moves a byte. *)
Theorem client_collects_stream {L} (ops : llhttp_ops L) acquire ndebug opt k fuel (s s1 : client_t L) nd ds :
  (forall n d, acquire n = Some d -> n <= size d < 2 ^ 32) -> (forall n, 0 <= n <= max_body_bytes opt -> is_Some (acquire n)) ->
  0 <= max_body_bytes opt < 2 ^ 32 -> node_ s = Some nd -> Body.ok (nb_body nd) -> 0 < Body.cap_ (nb_body nd) -> Body.view (nb_body nd) = [] ->
  stream_runs ops ndebug k fuel s = Ret (s1, (ds, None)) -> Forall (fun d => size d < 2 ^ 32) ds ->
  if size (concat ds) <=? max_body_bytes opt
  then exists b, aggregate_runs ops acquire ndebug opt k fuel s = Ret (set_node (Some (with_body b nd)) s1, Ok tt) /\ Body.view b = concat ds
  else exists s2, aggregate_runs ops acquire ndebug opt k fuel s = Ret (s2, Unexpected (http_error BodyTooLarge)) /\ reusable s2 = false.
Proof.
  intros Ha Hr Hm Hn Hok Hc Hv Hs Hds.
  assert (Hz : Body.size_ (nb_body nd) = 0) by (rewrite <- (Body.size_view _ Hok), Hv; done).
  pose proof (aggregate_stream ops acquire ndebug opt Ha Hr ltac:(lia) k fuel s nd s1 ds Hn Hok Hc ltac:(lia) Hs Hds) as H.
  rewrite Hz, Z.add_0_l, Hv in H. destruct (_ <=? _); destruct H as (z & H & H1); exists z; (split; [done|]).
  - by destruct H1 as [_ ->].
  - by apply broken_not_reusable.
Qed.

(** ** The chunked upload *)

Section Upload.
Context {L : Type} (ops : llhttp_ops L) (acquire : Z -> option bytes) (sizeof_inbound : Z) (opt : exchange_options_t).
Implicit Types s : client_t L.

Fixpoint upload_chunks (ds : list bytes) s : client_t L * expected unit :=
  match ds with
  | [] => finish_chunks s
  | d :: ds => let '(s, r) := write_chunk d s in match r with Ok _ => upload_chunks ds s | Unexpected e => (s, Unexpected e) end
  end.

(** A caller that streams a request body. *)
Definition upload (q : client_request_t) (ds : list bytes) s : client_t L * expected unit :=
  let '(s, r) := begin_chunked ops acquire sizeof_inbound opt q s in
  match r with Ok _ => upload_chunks ds s | Unexpected e => (s, Unexpected e) end.

(** In the middle of an upload. *)
Definition uploading s : Prop := chunked_upload_ (flags s) = true /\ body_complete_ (flags s) = false /\ Serializer.ok (chunk_out_ s).

(** All of [d] was written, or a prefix of it and the connection is broken. *)
Definition sent s (out : client_t L * expected unit) (d : bytes) : Prop :=
  match out with
  | (s', Ok _) => uploading s' /\ wire s' = wire s ++ d
  | (s', Unexpected _) => broken_ (flags s') = true /\ exists p, p `prefix_of` d /\ wire s' = wire s ++ p
  end.

Lemma sent_seq s s1 s2 (out : client_t L * expected unit) d1 d2 :
  sent s (s1, Ok tt) d1 -> wire s2 = wire s1 -> sent s2 out d2 -> sent s out (d1 ++ d2).
Proof.
  intros [_ E1] E2. destruct out as [s' [[]|e]]; simpl.
  - intros [H E]. split; [done|]. by rewrite E, E2, E1, app_assoc.
  - intros [H (p & Hp & E)]. split; [done|]. exists (d1 ++ p). split; [by apply prefix_app|]. by rewrite E, E2, E1, app_assoc.
Qed.

Lemma write_staged_sent segs s : uploading s -> sent s (write_staged segs s) (concat segs).
Proof.
  intros H. unfold write_staged. destruct (_ <=? _); [done|]. split; [done|]. eexists. split; [|done]. apply prefix_take.
Qed.

Lemma write_chunk_sent d s : size d < 2 ^ 64 -> uploading s -> sent s (write_chunk d s) (chunk d).
Proof.
  intros Hd Hu. pose proof Hu as (H1 & H2 & H3). unfold write_chunk. rewrite H1. cbn [negb]. destruct d as [|x d].
  { split; [done|]. by rewrite app_nil_r. }
  set (o := put _ _). destruct (write_u64_chunk_roundtrip (size (x :: d))) as (_ & digits & E & _ & _ & Hl).
  { pose proof (size_nonneg (x :: d)). lia. }
  assert (size (write_chunk_size (size (x :: d))) < 2 ^ 32) as Hsz by (rewrite E, size_app; change (size [13; 10]) with 2; lia).
  assert (Hc : Serializer.ok (Serializer.clear (chunk_out_ s))).
  { destruct H3. unfold Serializer.ok, Serializer.block in *. simpl. pose proof (size_nonneg (default [] (lease_ (chunk_out_ s)))). lia. }
  destruct (put_writes _ Hsz) as [W1 W2 W3 _ _]. destruct (W1 _ Hc) as [Ok1 _]. fold o in Ok1.
  destruct (failed o) eqn:Ef.
  { split; [done|]. exists []. split; [apply prefix_nil|]. by rewrite app_nil_r. }
  destruct (W3 _ Hc eq_refl Ef) as [V _]. fold o in V. change (out_view (Serializer.clear (chunk_out_ s))) with (@nil Z) in V. simpl in V.
  rewrite V. change (chunk (x :: d)) with (concat [write_chunk_size (size (x :: d)); x :: d; crlf]).
  apply (write_staged_sent _ (set_outs (head_out_ s) o s)). done.
Qed.

Lemma upload_chunks_sent ds : forall s, Forall (fun d => size d < 2 ^ 64) ds -> uploading s -> sent s (upload_chunks ds s) (chunked_body ds).
Proof.
  induction ds as [|d ds IH]; intros s Hds Hu; cbn [upload_chunks].
  - unfold finish_chunks. destruct Hu as (H1 & H2 & H3). rewrite H1. exact (write_staged_sent [str "0" ++ crlf ++ crlf] s (conj H1 (conj H2 H3))).
  - inversion Hds as [|? ? Hd Hds']; subst. pose proof (write_chunk_sent d s Hd Hu) as Hw.
    unfold chunked_body. cbn [map concat]. rewrite <- app_assoc. destruct (write_chunk d s) as [s1 [[]|e]].
    + eapply sent_seq; [exact Hw|done|]. apply IH; [done|apply Hw].
    + destruct Hw as [B (p & Hp & E)]. split; [done|]. exists p. split; [by apply prefix_app_r|done].
Qed.

Hypothesis acquire_enough : forall n d, acquire n = Some d -> n <= size d < 2 ^ 32.

Lemma ensure_chunk_out_spec s : Serializer.ok (chunk_out_ s) ->
  (exists e, ensure_chunk_out acquire opt s = (s, Unexpected e)) \/
  exists c, Serializer.ok c /\ ensure_chunk_out acquire opt s = (set_outs (head_out_ s) c s, Ok tt).
Proof.
  intros Hok. unfold ensure_chunk_out. destruct (lease_ (chunk_out_ s)) eqn:El.
  - right. exists (chunk_out_ s). split; [done|]. by destruct s.
  - destruct (acquire _) as [b|] eqn:Eb; [|left; by eexists]. right. eexists. split; [|done].
    apply acquire_enough in Eb. pose proof (size_nonneg b). unfold Serializer.ok, Serializer.block. simpl. lia.
Qed.

Lemma begin_chunked_sent q s : Serializer.ok (chunk_out_ s) ->
  let out := begin_chunked ops acquire sizeof_inbound opt q s in
  (exists e, out.2 = Unexpected e /\ untouched s out.1) \/
  sent s out (concat (stage_request q true (frame_head (framing opt) q true (head_out_ s)))).
Proof.
  intros Hok. unfold begin_chunked. destruct (req_failed q); [left; by eexists|]. destruct (0 <? body_len_ q); [left; by eexists|].
  destruct (ensure_node _ _ _ _ _) as [s1 r1] eqn:E1. pose proof (ensure_node_untouched _ _ _ _ _ _ _ E1) as [(U1 & U2 & U3) _].
  assert (O1 : head_out_ s1 = head_out_ s /\ chunk_out_ s1 = chunk_out_ s).
  { unfold ensure_node in E1. destruct (node_ s); [by injection E1 as <- _|]. destruct (create _ _ _); by injection E1 as <- _. }
  destruct O1 as [Oh Oc]. destruct r1; [|left; by eexists].
  destruct (ensure_chunk_out_spec s1) as [(e & ->)|(c & Hc & ->)]; [by rewrite Oc|left; by eexists|].
  right. cbn [head_out_ chunk_out_ set_outs start_exchange set_flags set_exchanges].
  rewrite Oh. set (o := frame_head _ _ _ _). destruct (failed o).
  - split; [done|]. exists []. split; [apply prefix_nil|]. simpl. by rewrite app_nil_r.
  - match goal with |- sent _ (write_staged _ ?x) ?d => pose proof (write_staged_sent (stage_request q true o) x) as W end.
    destruct (write_staged _ _) as [s2 [[]|e]]; [|destruct W as [W1 (p & Hp & E)]; [done|]; split; [done|]; exists p; split; [done|by rewrite E; simpl; rewrite U1]].
    destruct W as [W1 E]; [done|]. split; [done|]. rewrite E. simpl. by rewrite U1.
Qed.
End Upload.

(** C13: a streamed upload. What a client that opens a chunked upload, writes
    the pieces [ds] and finishes puts on the wire is the request head and one
    chunked body, which a decoder reads back as exactly the concatenation of
    the pieces (empty ones write nothing, and do not end the body). If any
    step fails, the wire holds a prefix of that message and the connection
    cannot be used again, unless nothing was written at all; and until the
    response has been read the connection cannot be used for another
    request. *)
Theorem client_upload_roundtrip {L} (ops : llhttp_ops L) acquire sizeof_inbound opt q ds (s s' : client_t L) r :
  (forall n d, acquire n = Some d -> n <= size d < 2 ^ 32) -> Serializer.ok (chunk_out_ s) -> Forall (fun d => size d < 2 ^ 64) ds ->
  upload ops acquire sizeof_inbound opt q ds s = (s', r) ->
  dechunk (S (length ds)) (chunked_body ds) = Some (concat ds) /\
  let message := concat (stage_request q true (frame_head (framing opt) q true (head_out_ s))) ++ chunked_body ds in
  match r with
  | Ok _ => wire s' = wire s ++ message /\ reusable s' = false
  | Unexpected _ => (reusable s' = false /\ exists p, p `prefix_of` message /\ wire s' = wire s ++ p) \/ untouched s s'
  end.
Proof.
  intros Ha Hok Hds H. split; [apply dechunk_body; [lia|done]|]. unfold upload in H.
  destruct (begin_chunked_sent ops acquire sizeof_inbound opt Ha q s Hok) as [(e & E & U)|Hb].
  { destruct (begin_chunked _ _ _ _ _ _) as [s1 r1]. simpl in E, U. subst r1. injection H as <- <-. by right. }
  destruct (begin_chunked _ _ _ _ _ _) as [s1 [[]|e]].
  - pose proof (upload_chunks_sent ds s1 Hds ltac:(apply Hb)) as Hc. rewrite H in Hc. pose proof (sent_seq _ _ _ _ _ _ Hb eq_refl Hc) as Hall.
    destruct r; [|left]; destruct Hall as [A B].
    + split; [done|]. destruct A as (_ & A & _). unfold reusable. by rewrite A, andb_false_r.
    + split; [by apply broken_not_reusable|done].
  - injection H as <- <-. left. destruct Hb as [B (p & Hp & E)]. split; [by apply broken_not_reusable|]. exists p. split; [by apply prefix_app_r|done].
Qed.
