(* ===== verification/ClientCases.v ===== *)
(** * Client connections on concrete input

    A small llhttp for responses, the instances of the theorems on the client
    connection, and what happens to a connection whose response was read as a
    stream and dropped. *)

From stdpp Require Import prelude list list_numbers strings.
From Stdlib Require Import ZArith Lia.
From S2P Require Import Prelude Protocol Buffer Serializer HeadLines Chunked Headers Parser ParserFeed Transport Url ClientRequest ClientExchange ClientReuse ClientBody.
Open Scope Z_scope.

(** Responses of one head line and a body of ten bytes. *)
Module MiniResponse.

Inductive stage := RStart | RHead | RBody (left : nat).

Definition view : ll_view := mk_llv false HTTP_GET 200 1 1 true false 0.
Definition call (c : ll_callback) (pos : Z) (l : stage) (t : ll_run stage) : ll_run stage := LCall c view (fun r => after r pos l t).
Definition finished (pos : Z) : ll_run stage := call OnMessageComplete pos RStart (LReturn HPE_OK None RStart).

Fixpoint go (st : stage) (pos : Z) (data : bytes) : ll_run stage :=
  match data with
  | [] => match st with RBody O => finished pos | _ => LReturn HPE_OK None st end
  | b :: data =>
      let next := pos + 1 in
      match st with
      | RStart => call OnMessageBegin pos st (go RHead next data)
      | RHead => if b =? 10 then call OnHeadersComplete next (RBody 10) (go (RBody 10) next data) else go RHead next data
      | RBody (S k) => call (OnBody pos 1) next (RBody k) (go (RBody k) next data)
      | RBody O => finished pos
      end
  end.

Definition ops : llhttp_ops stage :=
  mk_llhttp stage go (fun l => LReturn HPE_OK None l) (fun l => l) (fun l => l) (fun _ => RStart) (fun _ _ _ l => l) (fun _ => 0).

Definition head : bytes := str "HTTP 200" ++ [10].
Definition response : bytes := head ++ str "0123456789".
Definition options : exchange_options_t := mk_exchange_options plain_framing 16 64 4 256 64.
Definition connection (i : list recv_t) : client_t stage :=
  match adopt ops pool_of_zeros options default_limits RStart i 1000 None with
  | Ok s => s
  | Unexpected _ => construct ops default_limits RStart [] 0 None
  end.
Definition request : client_request_t := sample_request Get.
Abbreviation fetch := (exchange ops pool_of_zeros true 64 options 20 request).

(** The body of the response, and whether the connection may be kept. *)
Definition result (x : outcome (client_t stage * expected client_response_t)) : outcome (bool * expected bytes) :=
  let+ (s, r) := x in
  Ret (reusable s, match r with Ok p => Ok (Body.view (nb_body (r_node p))) | Unexpected e => Unexpected e end).
End MiniResponse.

Import MiniResponse.

Lemma client_reuse_discipline_witness :
  exists s' p, fetch (connection [Received response]) = Ret (s', Ok p) /\
    node_ s' = None /\ reusable s' = true /\ nb_keep_alive (r_node p) = true /\ has_pending_input (parser_ s') = false.
Proof.
  assert (Hr : match fetch (connection [Received response]) with Ret (s', r) => reusable s' = true /\ match r with Ok _ => True | _ => False end | _ => False end)
    by (vm_compute; split; [reflexivity|exact I]).
  destruct (fetch (connection [Received response])) as [[s' r]| | | |] eqn:E; try destruct Hr.
  rename H into Hr, H0 into Hk. destruct r as [p|e]; [|destruct Hk]. exists s', p. split; [reflexivity|].
  destruct (client_reuse_discipline ops pool_of_zeros true 64 options 20 request (connection [Received response]) s' (Ok p) E) as (H1 & H2 & H3).
  split; [exact H1|]. split; [exact Hr|]. exact (H3 Hr).
Defined.

(** The peer closes without a byte. *)
Lemma client_responded_sound_witness :
  exists s' r, fetch (connection [Received []; Received response]) = Ret (s', r) /\ responded s' = false /\
    exists pre, [Received []; Received response] = pre ++ input s' /\ Forall quiet pre.
Proof.
  assert (Hr : match fetch (connection [Received []; Received response]) with Ret (s', _) => responded s' = false | _ => False end) by (vm_compute; reflexivity).
  destruct (fetch (connection [Received []; Received response])) as [[s' r]| | | |] eqn:E; [|destruct Hr..].
  exists s', r. split; [reflexivity|]. split; [exact Hr|].
  exact (client_responded_sound ops pool_of_zeros true 64 options 20 request (connection [Received []; Received response]) s' r E Hr).
Defined.

(** A connection in front of the body, with four bytes reserved. *)
Definition before_body : client_t stage :=
  match begin_exchange ops pool_of_zeros 64 options 20 request (connection [Received response]) with
  | Ret (s, _) => match prepare_body pool_of_zeros options false s with Ret (s, _) => s | _ => s end
  | _ => connection []
  end.
Definition reserved : inbound_t := match node_ before_body with Some n => n | None => blank_inbound end.

Lemma client_collects_stream_witness :
  exists b s1, Body.view b = str "0123456789" /\ aggregate_runs ops pool_of_zeros true options 20 20 before_body = Ret (set_node (Some (with_body b reserved)) s1, Ok tt).
Proof.
  assert (Hd : match stream_runs ops true 20 20 before_body with
    Ret (_, (ds, e)) => concat ds = str "0123456789" /\ forallb (fun d => size d <? 2 ^ 32) ds = true /\ e = None | _ => False end)
    by (vm_compute; repeat split).
  destruct (stream_runs ops true 20 20 before_body) as [[s1 [ds e]]| | | |] eqn:E; [|destruct Hd..].
  destruct Hd as (Hc & Hf & ->). assert (Hf' : Forall (fun d => size d < 2 ^ 32) ds)
    by (apply List.Forall_forall; intros d Hd; apply Z.ltb_lt; exact (proj1 (List.forallb_forall _ _) Hf d Hd)).
  pose proof (client_collects_stream ops pool_of_zeros true options 20 20 before_body s1 reserved ds pool_of_zeros_ok) as H.
  rewrite Hc in H. destruct H as (b & H1 & H2); [|vm_compute; split; congruence|vm_compute; reflexivity|vm_compute; repeat split; congruence|vm_compute; reflexivity|vm_compute; reflexivity|exact E|exact Hf'|].
  - intros n [Hn1 Hn2]. change (max_body_bytes options) with 64 in Hn2. unfold pool_of_zeros. rewrite (proj2 (Z.leb_le 0 n)), (proj2 (Z.ltb_lt n (2 ^ 32))) by lia. by eexists.
  - exists b, s1. split; [exact H2|exact H1].
Defined.

Lemma client_upload_roundtrip_witness :
  exists s', upload ops pool_of_zeros 64 options (sample_request Post) [str "ab"; []; str "c"] (connection []) = (s', Ok tt) /\
    dechunk 4 (chunked_body [str "ab"; []; str "c"]) = Some (str "abc") /\ reusable s' = false.
Proof.
  destruct (upload ops pool_of_zeros 64 options (sample_request Post) [str "ab"; []; str "c"] (connection [])) as [s' r] eqn:E.
  assert (Hr : r = Ok tt) by (apply (f_equal snd) in E; rewrite <- (E : _ = r); vm_compute; reflexivity). subst r.
  destruct (client_upload_roundtrip ops pool_of_zeros 64 options (sample_request Post) [str "ab"; []; str "c"] (connection []) s' (Ok tt)
    pool_of_zeros_ok) as (H1 & H2 & H3); [vm_compute; repeat split; congruence|repeat constructor|exact E|].
  exists s'. split; [reflexivity|]. split; [exact H1|exact H3].
Defined.

(** ** A connection kept after a drained stream *)

(** Reading the response as a stream to its end and dropping the stream. *)
Definition streamed (s : client_t stage) : outcome (client_t stage) :=
  let+ (s, r) := begin_exchange ops pool_of_zeros 64 options 20 request s in
  let+ (s, r) := drain_body ops true 20 20 s in
  Ret s.

(** a connection whose response was read as a stream to its end is
    reported usable, but it keeps its receive buffer with the bytes of that
    response in it: the next exchange appends behind them and fails because
    the header section no longer fits, although the same response taken whole
    leaves the connection able to serve the next request. *)
Theorem drained_stream_fills_buffer :
  let again (x : outcome (client_t stage * expected client_response_t)) := let+ (s, _) := x in result (fetch s) in
  again (fetch (connection [Received response; Received response])) = Ret (true, Ok (str "0123456789")) /\
  (let+ s := streamed (connection [Received response; Received response]) in Ret (reusable s)) = Ret true /\
  (let+ s := streamed (connection [Received response; Received response]) in result (fetch s)) = Ret (false, Unexpected (http_error HeaderTooLarge)).
Proof. vm_compute. repeat split. Qed.
