(* ===== verification/ClientSend.v ===== *)
(** * Sending a request: retries and redirects

    [client_t::send] of src/src/http/client/client.cc, with [follow],
    [remaining] and the redirect predicates.  The connection pool
    ([ClientPool]) and the exchange on a connection are the environment: the
    [i]-th attempt of a call finds, in an arbitrary sequence, whether a
    connection was lent, what the exchange on it returned, and the clock.
    The log records what the client did with it. *)

From stdpp Require Import prelude list list_numbers strings.
From Stdlib Require Import ZArith Lia.
From S2P Require Import Prelude Protocol Buffer Serializer HeadLines Url ClientRequest.
Open Scope Z_scope.

(** ** Data *)

Definition ETIMEDOUT : Z := 110.

(** What [send] reads of a response: its status and its Location header. *)
Record client_response_t := mk_response { status_code : Z; location : bytes }.

Inductive lend_t := LendFailed (e : error_t) | Lent (reused : bool).

(** One attempt: the answer of [borrow], the clock, and what [exchange],
    [reusable] and [responded] return. *)
Record attempt_t := mk_attempt {
  at_lend : lend_t; at_now : Z; at_result : expected client_response_t; at_reusable : bool; at_responded : bool
}.

Abbreviation env_t := (nat -> attempt_t).

(** Exchanging the request in the [i]-th attempt within a budget (0 for
    none), and handing the connection back. *)
Inductive event_t :=
| EExchange (i : nat) (q : client_request_t) (budget : Z)
| EGiveBack (i : nat) (reusable : bool).

Record send_options_t := mk_send { max_retries : Z; max_redirects : Z; total_timeout : Z }.

(** ** Operations *)

Definition is_redirect (code : Z) : bool :=
  (code =? 301) || (code =? 302) || (code =? 303) || (code =? 307) || (code =? 308).
Definition redirect_becomes_get (code : Z) : bool := (code =? 301) || (code =? 302) || (code =? 303).

(** Milliseconds left, at least one while there is a deadline. *)
Definition remaining_ms (deadline now : Z) : Z :=
  if deadline =? 0 then 0 else if deadline <=? now then 1 else (deadline - now) / 1000000 + 1.

Definition error_code (e : error_t) : Z := let '(Error c _) := e in c.

Section Send.
Context (acquire : Z -> option bytes) (opt : send_options_t) (env : env_t).

(** The loop over attempts: [tries] left, the next attempt's number. *)
Fixpoint attempts (tries : nat) (i : nat) (deadline : Z) (idempotent : bool) (q : client_request_t)
    : list event_t * nat * expected client_response_t :=
  match tries with
  | O => ([], i, Unexpected (http_error InvalidState))
  | S tries =>
      let a := env i in
      match at_lend a with
      | LendFailed e => ([], S i, Unexpected e)
      | Lent reused =>
          let log := [EExchange i q (remaining_ms deadline (at_now a)); EGiveBack i (at_reusable a)] in
          match at_result a with
          | Ok r => (log, S i, Ok r)
          | Unexpected err =>
              let retryable := reused && idempotent && negb (at_responded a) && negb (error_code err =? ETIMEDOUT)
                               && negb (bool_decide (tries = O)) in
              if negb retryable then (log, S i, Unexpected err)
              else let '(log', i', r) := attempts tries (S i) deadline idempotent q in (log ++ log', i', r)
          end
      end
  end.

(** [follow]: the request rewritten, or [false] and the request as it is
    left; [None] is a fault of [retarget]. *)
Definition follow (c : url_cache) (q : client_request_t) (r : client_response_t)
    : option (url_cache * client_request_t * bool) :=
  match location r with
  | [] => Some (c, q, false)
  | loc =>
      match write_absolute_url (url_ q) loc 2048 with
      | Unexpected _ => Some (c, q, false)
      | Ok absolute =>
          match Url.parse absolute with
          | Unexpected _ => Some (c, q, false)
          | Ok target =>
              if negb (same_origin target (url_ q)) && saw_authorization_ (saw_ q) then Some (c, q, false)
              else
                let q := if redirect_becomes_get (status_code r) then drop_body (set_method Get q) else q in
                match retarget acquire (Some c) absolute q with
                | Some (Some c, q, Ok _) => Some (c, q, true)
                | Some (Some c, q, Unexpected _) => Some (c, q, false)
                | _ => None
                end
          end
      end
  end.

Definition tries_of (q : client_request_t) : nat := Z.to_nat (u32 (1 + default (max_retries opt) (max_retries_ (over_ q)))).
Definition idempotent_of (q : client_request_t) : bool := default (method_is_idempotent (method_ q)) (idempotent_ (over_ q)).

(** The outer loop: one turn per hop. *)
Fixpoint hops (redirects_left : nat) (i : nat) (deadline : Z) (c : url_cache) (q : client_request_t)
    : option (list event_t * url_cache * expected client_response_t) :=
  let '(log, i, result) := attempts (tries_of q) i deadline (idempotent_of q) q in
  match result with
  | Unexpected e => Some (log, c, Unexpected e)
  | Ok r =>
      match redirects_left with
      | O => Some (log, c, Ok r)
      | S fewer =>
          if negb (is_redirect (status_code r)) then Some (log, c, Ok r)
          else match follow c q r with
               | None => None
               | Some (c, _, false) => Some (log, c, Ok r)
               | Some (c, q, true) =>
                   match hops fewer i deadline c q with
                   | Some (log', c, result) => Some (log ++ log', c, result)
                   | None => None
                   end
               end
      end
  end.

(** [send], at the time [now]. *)
Definition send (now : Z) (c : url_cache) (q : client_request_t)
    : option (list event_t * url_cache * expected client_response_t) :=
  if req_failed q then Some ([], c, Unexpected (req_error q))
  else
    let total := default (total_timeout opt) (timeout_ (over_ q)) in
    let deadline := if 0 <? total then u64 (now + u64 (total * 1000000)) else 0 in
    hops (Z.to_nat (default (max_redirects opt) (max_redirects_ (over_ q)))) 0 deadline c q.
End Send.

(** ** What a hop keeps *)

(** What a redirect may not change. *)
Record same_caller (q q' : client_request_t) : Prop := {
  sc_over : over_ q' = over_ q;
  sc_saw : saw_ q' = saw_ q;
  sc_hdr : hdr_ q' = hdr_ q
}.

#[global] Instance same_caller_preorder : PreOrder same_caller.
Proof. split; [by constructor|]. intros q1 q2 q3 [] []. constructor; congruence. Qed.

Lemma same_origin_text u u' v : url_text u = url_text u' -> same_origin v u = same_origin v u' /\ same_origin u v = same_origin u' v.
Proof. unfold url_text, same_origin. intros [= _ E _ _ _ Es Ep]. by rewrite E, Es, Ep. Qed.

Lemma same_origin_trans a b c : same_origin a b = true -> same_origin b c = true -> same_origin a c = true.
Proof.
  unfold same_origin. rewrite !andb_true_iff, !bool_decide_eq_true, !Z.eqb_eq, !iequals_fold, !bool_decide_eq_true.
  intuition congruence.
Qed.

Lemma same_origin_refl a : same_origin a a = true.
Proof. unfold same_origin. rewrite !andb_true_iff, bool_decide_eq_true, Z.eqb_eq, iequals_fold, bool_decide_eq_true. done. Qed.

Lemma put_pieces_size cap ps : forall out res, put_pieces cap ps out = Some res -> size out <= cap -> size res <= cap.
Proof.
  induction ps as [|p ps IH]; simpl; intros out res; [by intros [= <-]|].
  destruct (_ <? _) eqn:E; [done|]. intros H _. eapply IH; [done|]. rewrite size_app. lia.
Qed.

Section Follow.
Context (acquire : Z -> option bytes) (Hacq : forall n d, acquire n = Some d -> n <= size d < 2 ^ 32).

(** A followed redirect: same caller, a body only if the method is kept, and
    the same origin when the caller sent credentials. *)
Record follows (q : client_request_t) (r : client_response_t) (q' : client_request_t) : Prop := {
  fo_caller : same_caller q q';
  fo_origin : saw_authorization_ (saw_ q) = true -> same_origin (url_ q') (url_ q) = true;
  fo_method : if redirect_becomes_get (status_code r) then method_ q' = Get /\ body_len_ q' = 0 /\ body_view q' = []
              else method_ q' = method_ q /\ body_len_ q' = body_len_ q /\ body_view q' = body_view q
}.

Lemma follow_spec c q r :
  cache_ok c -> exists c' q' b, follow acquire c q r = Some (c', q', b) /\ cache_ok c' /\ (b = true -> follows q r q').
Proof.
  intros Hc. unfold follow. destruct (location r) as [|x loc]; [by exists c, q, false|].
  destruct (write_absolute_url _ _ _) as [a|] eqn:Ea; [|by exists c, q, false].
  destruct (Url.parse a) as [t|] eqn:Et; [|by exists c, q, false].
  destruct (negb (same_origin t (url_ q)) && _) eqn:Eo; [by exists c, q, false|].
  assert (Hs : size a < 2 ^ 32).
  { unfold write_absolute_url in Ea. destruct (put_pieces _ _ _) as [o|] eqn:Ep; simplify_eq.
    apply put_pieces_size in Ep; [lia|unfold size; simpl; lia]. }
  assert (Hne : a <> []) by (intros ->; by vm_compute in Et).
  set (q1 := if redirect_becomes_get _ then _ else q).
  destruct (retarget_spec acquire Hacq (Some c) a q1 Hc Hne Hs) as (o & q' & res & -> & (c' & -> & Hc') & (l & n & u & ->) & Hr).
  destruct res as [[]|e]; [|by exists c', (set_url l n u q1), false]. exists c', (set_url l n u q1), true. split; [done|]. split; [done|].
  intros _. destruct Hr as (t' & Et' & Hu & _). rewrite Et in Et'. injection Et' as <-. constructor.
  - subst q1. destruct (redirect_becomes_get _); by constructor.
  - intros Ha. rewrite Ha, andb_true_r in Eo. apply negb_false_iff in Eo. by rewrite (proj2 (same_origin_text _ _ (url_ q) Hu)).
  - subst q1. destruct (redirect_becomes_get _); done.
Qed.
End Follow.

(** ** Runs *)

Section Runs.
Context (acquire : Z -> option bytes) (Hacq : forall n d, acquire n = Some d -> n <= size d < 2 ^ 32).
Context (opt : send_options_t) (env : env_t) (deadline : Z).

(** One exchange and the return of its connection. *)
Definition turn (q : client_request_t) (j : nat) : list event_t :=
  [EExchange j q (remaining_ms deadline (at_now (env j))); EGiveBack j (at_reusable (env j))].

Definition turns (q : client_request_t) (i n : nat) : list event_t := concat (map (turn q) (seq i n)).

(** The failures that are worth another attempt: a pooled connection died
    before answering an idempotent request, not by timeout. *)
Definition replayable (idempotent : bool) (j : nat) : Prop :=
  at_lend (env j) = Lent true /\ idempotent = true /\ at_responded (env j) = false /\
  exists e, at_result (env j) = Unexpected e /\ error_code e <> ETIMEDOUT.

Lemma attempts_spec tries : forall i idem q log i' r,
  attempts env tries i deadline idem q = (log, i', r) ->
  exists n, (n <= tries)%nat /\ log = turns q i n /\ (forall j, (i <= j)%nat -> (S j < i + n)%nat -> replayable idem j) /\
    (forall x, r = Ok x -> (0 < n)%nat /\ at_result (env (i + n - 1)) = Ok x /\ i' = (i + n)%nat).
Proof.
  induction tries as [|tries IH]; intros i idem q log i' r; simpl.
  { intros [= <- <- <-]. exists 0%nat. split; [lia|]. split; [done|]. split; [intros; lia|done]. }
  destruct (at_lend (env i)) as [e|reused] eqn:El.
  { intros [= <- <- <-]. exists 0%nat. split; [lia|]. split; [done|]. split; [intros; lia|done]. }
  destruct (at_result (env i)) as [x|e] eqn:Er.
  { intros [= <- <- <-]. exists 1%nat. split; [lia|]. split; [done|]. split; [intros; lia|].
    intros y [= <-]. rewrite Nat.add_1_r, Nat.sub_succ, Nat.sub_0_r. split; [lia|done]. }
  destruct (negb _) eqn:Ex.
  { intros [= <- <- <-]. exists 1%nat. split; [lia|]. split; [done|]. split; [intros; lia|done]. }
  destruct (attempts env tries (S i) deadline idem q) as [[log' i2] r2] eqn:Ea. intros [= <- <- <-].
  apply IH in Ea as (n & Hn & -> & Hrep & Hok). exists (S n). split; [lia|]. split; [done|]. split.
  - intros j Hj Hjn. destruct (decide (j = i)) as [->|]; [|apply Hrep; lia].
    apply negb_false_iff in Ex. rewrite !andb_true_iff in Ex. destruct Ex as [[[[E1 E2] E3] E4] _].
    destruct reused; [|done]. split; [done|]. split; [done|]. split; [by destruct (at_responded (env i))|].
    exists e. split; [done|]. apply negb_true_iff in E4. lia.
  - intros x Hx. destruct (Hok x Hx) as (H1 & H2 & ->). split; [lia|].
    replace (i + S n - 1)%nat with (S i + n - 1)%nat by lia. split; [done|lia].
Qed.

(** A run of [send] on a request, from the [i]-th attempt on, with at most so
    many redirects. *)
Inductive run : nat -> nat -> client_request_t -> list event_t -> Prop :=
| run_last red i q n :
    (n <= tries_of opt q)%nat -> (forall j, (i <= j)%nat -> (S j < i + n)%nat -> replayable (idempotent_of q) j) ->
    run red i q (turns q i n)
| run_hop red i q n r q' log :
    (0 < n <= tries_of opt q)%nat -> (forall j, (i <= j)%nat -> (S j < i + n)%nat -> replayable (idempotent_of q) j) ->
    at_result (env (i + n - 1)) = Ok r -> is_redirect (status_code r) = true -> follows q r q' ->
    run red (i + n) q' log -> run (S red) i q (turns q i n ++ log).

Lemma hops_run red : forall i c q, cache_ok c ->
  exists log c' r, hops acquire opt env red i deadline c q = Some (log, c', r) /\ cache_ok c' /\ run red i q log.
Proof.
  induction red as [|red IH]; intros i c q Hc; simpl;
    destruct (attempts env (tries_of opt q) i deadline (idempotent_of q) q) as [[log i'] r] eqn:Ea;
    apply attempts_spec in Ea as (n & Hn & -> & Hrep & Hok).
  - destruct r; eexists _, _, _; (split; [done|]); (split; [done|]); by apply run_last.
  - destruct r as [r|e]; [|eexists _, _, _; split; [done|]; split; [done|]; by apply run_last].
    destruct (is_redirect (status_code r)) eqn:Er; simpl;
      [|eexists _, _, _; split; [done|]; split; [done|]; by apply run_last].
    destruct (Hok r eq_refl) as (Hpos & Hres & ->).
    destruct (follow_spec acquire Hacq c q r Hc) as (c1 & q1 & [] & -> & Hc1 & Hf);
      [|eexists _, _, _; split; [done|]; split; [done|]; by apply run_last].
    destruct (IH (i + n)%nat c1 q1 Hc1) as (log' & c2 & r2 & -> & Hc2 & Hrun).
    eexists _, _, _. split; [done|]. split; [done|]. by eapply run_hop; [|done|done|done|by apply Hf|].
Qed.

(** *** Consequences *)

Definition exchanged (log : list event_t) : list client_request_t :=
  omap (fun e => match e with EExchange _ q _ => Some q | EGiveBack _ _ => None end) log.

(** Every connection taken is handed back before anything else is done. *)
Fixpoint settled (log : list event_t) : Prop :=
  match log with
  | [] => True
  | EExchange i _ _ :: EGiveBack j b :: log => i = j /\ b = at_reusable (env i) /\ settled log
  | _ => False
  end.

Lemma settled_turns q i n log : settled log -> settled (turns q i n ++ log).
Proof.
  revert i. induction n as [|n IH]; intros i H; [done|].
  change (turns q i (S n)) with (turn q i ++ turns q (S i) n). simpl. split; [done|]. split; [done|]. by apply IH.
Qed.

Lemma exchanged_turns q i n : exchanged (turns q i n) = replicate n q.
Proof. revert i. induction n as [|n IH]; intros i; [done|]. unfold turns in *. simpl. by rewrite <- (IH (S i)). Qed.

Lemma exchanged_app a b : exchanged (a ++ b) = exchanged a ++ exchanged b.
Proof. apply omap_app. Qed.

Lemma tries_caller q q' : same_caller q q' -> tries_of opt q' = tries_of opt q.
Proof. intros H. unfold tries_of. by rewrite (sc_over _ _ H). Qed.

Lemma run_settled red i q log : run red i q log -> settled log.
Proof.
  induction 1 as [red i q n Hn Hrep|red i q n r q' log Hn Hrep Hr Hred Hf Hrun IH]; [|by apply settled_turns].
  rewrite <- (app_nil_r (turns q i n)). by apply settled_turns.
Qed.

Lemma run_count red i q log : run red i q log -> (length (exchanged log) <= (1 + red) * tries_of opt q)%nat.
Proof.
  induction 1 as [red i q n Hn Hrep|red i q n r q' log Hn Hrep Hr Hred Hf Hrun IH].
  - rewrite exchanged_turns, length_replicate. nia.
  - rewrite exchanged_app, exchanged_turns, length_app, length_replicate, (tries_caller q q') in * by apply Hf. nia.
Qed.

Lemma run_origin red i q log : run red i q log -> saw_authorization_ (saw_ q) = true ->
  Forall (fun q' => same_origin (url_ q') (url_ q) = true) (exchanged log).
Proof.
  induction 1 as [red i q n Hn Hrep|red i q n r q' log Hn Hrep Hr Hred Hf Hrun IH]; intros Ha.
  - rewrite exchanged_turns. apply Forall_replicate, same_origin_refl.
  - rewrite exchanged_app, exchanged_turns. apply Forall_app. split; [apply Forall_replicate, same_origin_refl|].
    rewrite (sc_saw _ _ (fo_caller _ _ _ Hf)) in IH. eapply Forall_impl; [by apply IH|]. intros q2 H2.
    eapply same_origin_trans; [exact H2|]. by apply (fo_origin _ _ _ Hf).
Qed.

Lemma run_headers red i q log : run red i q log -> Forall (same_caller q) (exchanged log).
Proof.
  induction 1 as [red i q n Hn Hrep|red i q n r q' log Hn Hrep Hr Hred Hf Hrun IH].
  - rewrite exchanged_turns. by apply Forall_replicate.
  - rewrite exchanged_app, exchanged_turns. apply Forall_app. split; [by apply Forall_replicate|].
    eapply Forall_impl; [exact IH|]. intros q2 H2. etransitivity; [apply Hf|done].
Qed.

Lemma turns_elem q i n j q' b :
  EExchange j q' b ∈ turns q i n -> q' = q /\ (i <= j < i + n)%nat.
Proof.
  revert i. induction n as [|n IH]; intros i; [by intros ?%elem_of_nil|].
  change (turns q i (S n)) with (turn q i ++ turns q (S i) n).
  rewrite elem_of_app. intros [Hin|Hin].
  - unfold turn in Hin. rewrite !elem_of_cons, elem_of_nil in Hin. destruct Hin as [[= -> -> _]|[[=]|[]]]. split; [done|lia].
  - apply IH in Hin as [? ?]. split; [done|lia].
Qed.

(** Attempts are numbered from the first on; the first is with the request
    the run starts with. *)
Lemma run_elem red i q log j q' b :
  run red i q log -> EExchange j q' b ∈ log -> (i <= j)%nat /\ (j = i -> q' = q).
Proof.
  induction 1 as [red i q n Hn Hrep|red i q n r q1 log Hn Hrep Hr Hred Hf Hrun IH].
  - intros [-> ?]%turns_elem. split; [lia|done].
  - rewrite elem_of_app. intros [[-> ?]%turns_elem|Hin]; [split; [lia|done]|]. apply IH in Hin as [? _]. split; [lia|]. intros ->. lia.
Qed.

(** Between two attempts in a row there was a redirect that was followed, or
    a failure that was worth replaying. *)
Lemma run_replay red i q log j q1 q2 b1 b2 :
  run red i q log -> EExchange j q1 b1 ∈ log -> EExchange (S j) q2 b2 ∈ log ->
  (exists r, at_result (env j) = Ok r /\ is_redirect (status_code r) = true /\ follows q1 r q2) \/
  (q2 = q1 /\ replayable (idempotent_of q1) j).
Proof.
  induction 1 as [red i q n Hn Hrep|red i q n r q' log Hn Hrep Hr Hred Hf Hrun IH].
  - intros [-> ?]%turns_elem [-> ?]%turns_elem. right. split; [done|]. apply Hrep; lia.
  - rewrite !elem_of_app. intros [[-> H1]%turns_elem|H1] [[-> H2]%turns_elem|H2].
    + right. split; [done|]. apply Hrep; lia.
    + left. destruct (run_elem _ _ _ _ _ _ _ Hrun H2) as [Hj Hq2].
      assert (j = (i + n - 1)%nat) as -> by lia. rewrite Hq2 by lia. by exists r.
    + apply (run_elem _ _ _ _ _ _ _ Hrun) in H1 as [? _]. lia.
    + by apply IH.
Qed.
End Runs.

(** ** Theorems *)

Section Theorems.
Context (acquire : Z -> option bytes) (Hacq : forall n d, acquire n = Some d -> n <= size d < 2 ^ 32).

Lemma send_run opt env now c q :
  cache_ok c ->
  exists log c' r, send acquire opt env now c q = Some (log, c', r) /\ cache_ok c' /\
    exists deadline, run opt env deadline (Z.to_nat (default (max_redirects opt) (max_redirects_ (over_ q)))) 0 q log.
Proof.
  intros Hc. unfold send. destruct (req_failed q).
  - eexists _, _, _. split; [done|]. split; [done|]. exists 0. apply (run_last opt env 0 _ 0 q 0); [lia|intros; lia].
  - destruct (hops_run acquire Hacq opt env (if 0 <? default (total_timeout opt) (timeout_ (over_ q)) then
        u64 (now + u64 (default (total_timeout opt) (timeout_ (over_ q)) * 1000000)) else 0)
        (Z.to_nat (default (max_redirects opt) (max_redirects_ (over_ q)))) 0 c q Hc) as (log & c' & r & E & Hc' & Hrun).
    exists log, c', r. split; [exact E|]. split; [done|]. by eexists.
Qed.
End Theorems.

(** C39: [send] returns, whatever the network does: it makes at most one
    exchange per try and hop, that is (redirects + 1) times (retries + 1), and
    every connection it borrowed was handed back right after its exchange,
    with the connection's own verdict on whether it can be reused. *)
Theorem client_send_terminates acquire opt env now c q :
  (forall n d, acquire n = Some d -> n <= size d < 2 ^ 32) -> cache_ok c ->
  0 <= default (max_retries opt) (max_retries_ (over_ q)) < 256 ->
  exists log c' r, send acquire opt env now c q = Some (log, c', r) /\ cache_ok c' /\ settled env log /\
    Z.of_nat (length (exchanged log)) <=
      (1 + Z.max 0 (default (max_redirects opt) (max_redirects_ (over_ q)))) * (1 + default (max_retries opt) (max_retries_ (over_ q))).
Proof.
  intros Hacq Hc Hr. destruct (send_run acquire Hacq opt env now c q Hc) as (log & c' & r & E & Hc' & dl & Hrun).
  exists log, c', r. split; [done|]. split; [done|]. split; [by eapply run_settled|].
  apply run_count in Hrun. unfold tries_of in Hrun. rewrite u32_small in Hrun by lia. nia.
Qed.

(** C14: credentials do not cross an origin: when the caller wrote an
    Authorization header, every exchange of the call, through all its
    redirects, goes to a url of the origin of the first one (scheme, host up
    to case, and port). *)
Theorem client_credentials_same_origin acquire opt env now c q log c' r :
  (forall n d, acquire n = Some d -> n <= size d < 2 ^ 32) -> cache_ok c -> saw_authorization_ (saw_ q) = true ->
  send acquire opt env now c q = Some (log, c', r) ->
  Forall (fun q' => same_origin (url_ q') (url_ q) = true /\ hdr_ q' = hdr_ q) (exchanged log).
Proof.
  intros Hacq Hc Ha Hs. destruct (send_run acquire Hacq opt env now c q Hc) as (log' & c2 & r2 & E & _ & dl & Hrun).
  rewrite Hs in E. simplify_eq. apply Forall_and. split; [by eapply run_origin|].
  eapply Forall_impl; [by eapply run_headers|]. intros q' H. apply H.
Qed.

(** C15: a request is sent again only when that is safe: of two exchanges in a
    row, either the first was answered by a redirect and the second is that
    redirect followed (as a GET without a body after 301, 302 and 303, with
    the same method and body after 307 and 308), or the request is the same,
    idempotent by its method or by the caller's word, and the first attempt
    was on a connection from the pool that died before any byte of an answer,
    not by timeout. *)
Theorem client_replays_only_safe acquire opt env now c q log c' r j q1 q2 b1 b2 :
  (forall n d, acquire n = Some d -> n <= size d < 2 ^ 32) -> cache_ok c ->
  send acquire opt env now c q = Some (log, c', r) ->
  EExchange j q1 b1 ∈ log -> EExchange (S j) q2 b2 ∈ log ->
  (exists x, at_result (env j) = Ok x /\ is_redirect (status_code x) = true /\
     if redirect_becomes_get (status_code x) then method_ q2 = Get /\ body_len_ q2 = 0 /\ body_view q2 = []
     else method_ q2 = method_ q1 /\ body_len_ q2 = body_len_ q1 /\ body_view q2 = body_view q1) \/
  (q2 = q1 /\ default (method_is_idempotent (method_ q1)) (idempotent_ (over_ q1)) = true /\
   at_lend (env j) = Lent true /\ at_responded (env j) = false /\
   exists e, at_result (env j) = Unexpected e /\ error_code e <> ETIMEDOUT).
Proof.
  intros Hacq Hc Hs H1 H2. destruct (send_run acquire Hacq opt env now c q Hc) as (log' & c2 & r2 & E & _ & dl & Hrun).
  rewrite Hs in E. simplify_eq. destruct (run_replay _ _ _ _ _ _ _ _ _ _ _ _ Hrun H1 H2) as [(x & Hx & Hred & Hf)|(-> & Hl & Hi & Hresp & He)].
  - left. exists x. split; [done|]. split; [done|]. apply Hf.
  - right. done.
Qed.

(** A pooled connection dies, the retry is redirected, the redirect answered. *)
Definition sample_env : env_t := fun i =>
  match i with
  | 0%nat => mk_attempt (Lent true) 0 (Unexpected (system_error 104)) false false
  | 1%nat => mk_attempt (Lent false) 0 (Ok (mk_response 302 (str "/next"))) true true
  | _ => mk_attempt (Lent true) 0 (Ok (mk_response 200 [])) true true
  end.
Definition sample_options : send_options_t := mk_send 1 2 60000.
Definition signed_request : client_request_t := req_header (str "Authorization") (str "x") (sample_request Get).

Definition sample_log : list event_t :=
  match send pool_of_zeros sample_options sample_env 0 empty_cache signed_request with Some (l, _, _) => l | None => [] end.
Definition exchange_at (j : nat) : client_request_t := nth j (exchanged sample_log) blank_request.

Lemma client_send_terminates_witness :
  length (exchanged sample_log) = 3%nat /\
  exists log c' r, send pool_of_zeros sample_options sample_env 0 empty_cache signed_request = Some (log, c', r) /\ settled sample_env log.
Proof.
  split; [vm_compute; reflexivity|].
  destruct (client_send_terminates pool_of_zeros sample_options sample_env 0 empty_cache signed_request) as (log & c' & r & H1 & _ & H2 & _);
    [exact pool_of_zeros_ok|exact empty_cache_ok|vm_compute; split; congruence|].
  exists log, c', r. split; [exact H1|exact H2].
Defined.

Lemma sample_sent : exists c' r, send pool_of_zeros sample_options sample_env 0 empty_cache signed_request = Some (sample_log, c', r).
Proof. eexists _, _. vm_compute. reflexivity. Qed.

Lemma client_credentials_same_origin_witness :
  map (fun q => sv_text (path_ (url_ q))) (exchanged sample_log) = [str "/p"; str "/p"; str "/next"] /\
  Forall (fun q' => same_origin (url_ q') (url_ signed_request) = true /\ hdr_ q' = hdr_ signed_request) (exchanged sample_log).
Proof.
  split; [vm_compute; reflexivity|]. destruct sample_sent as (c' & r & H).
  exact (client_credentials_same_origin pool_of_zeros sample_options sample_env 0 empty_cache signed_request sample_log c' r
    pool_of_zeros_ok empty_cache_ok eq_refl H).
Defined.

Lemma client_replays_only_safe_witness :
  at_result (sample_env 0) = Unexpected (system_error 104) /\
  ((exists x, at_result (sample_env 0) = Ok x /\ is_redirect (status_code x) = true /\
     if redirect_becomes_get (status_code x) then method_ (exchange_at 1) = Get /\ body_len_ (exchange_at 1) = 0 /\ body_view (exchange_at 1) = []
     else method_ (exchange_at 1) = method_ (exchange_at 0) /\ body_len_ (exchange_at 1) = body_len_ (exchange_at 0)
          /\ body_view (exchange_at 1) = body_view (exchange_at 0)) \/
   (exchange_at 1 = exchange_at 0 /\
    default (method_is_idempotent (method_ (exchange_at 0))) (idempotent_ (over_ (exchange_at 0))) = true /\
    at_lend (sample_env 0) = Lent true /\ at_responded (sample_env 0) = false /\
    exists e, at_result (sample_env 0) = Unexpected e /\ error_code e <> ETIMEDOUT)).
Proof.
  split; [reflexivity|]. destruct sample_sent as (c' & r & H).
  assert (E0 : sample_log !! 0%nat = Some (EExchange 0 (exchange_at 0) 60001)) by (vm_compute; reflexivity).
  assert (E1 : sample_log !! 2%nat = Some (EExchange 1 (exchange_at 1) 60001)) by (vm_compute; reflexivity).
  exact (client_replays_only_safe pool_of_zeros sample_options sample_env 0 empty_cache signed_request sample_log c' r 0
    (exchange_at 0) (exchange_at 1) 60001 60001 pool_of_zeros_ok empty_cache_ok H (list_elem_of_lookup_2 _ _ _ E0) (list_elem_of_lookup_2 _ _ _ E1)).
Defined.

(** a redirect that turns a POST into a GET drops the body but not the
    headers the caller staged: a Content-Length written by hand stays, so
    the GET announces a body that is never sent. *)
Theorem redirect_keeps_content_length :
  let q := req_body pool_of_zeros (str "abc") (add_headers [(str "Content-Length", str "3")] (sample_request Post)) in
  exists c' q', follow pool_of_zeros empty_cache q (mk_response 303 (str "/x")) = Some (c', q', true) /\
    let wire := concat (stage_request q' false (frame_head plain_framing q' false head_block)) in
    split_lines wire [] = [str "GET /x HTTP/1.1"; str "Host: h"; str "Connection: keep-alive"; str "Content-Length: 3"; []; []].
Proof. eexists _, _. split; [vm_compute; reflexivity|]. vm_compute. reflexivity. Qed.
