(* ===== verification/ClientHandles.v ===== *)
(** * Streams and uploads of the client

    [client_stream_t] and [client_upload_t] of
    src/include/cornet/http/client/client.h and src/http/client/client.cc, with
    [client_t::stream] and [client_t::upload] that make them: who holds a
    connection of the pool and who gives it back.  Connections and handle
    objects are named by numbers.  What a connection answers
    ([begin_exchange], [reusable], ...) is part of the step; giving back a
    connection that is not lent is [None].  Opening a stream or an upload, with
    its retries, is one step: what other requests do while it waits concerns
    other connections, since a connection that is lent is not lent again. *)

From stdpp Require Import prelude gmap list fin_maps.
From Stdlib Require Import ZArith Lia.
From S2P Require Import Prelude Protocol ClientSend.
Open Scope Z_scope.

(** ** State *)

(** [loans] and [given]: every connection taken from the pool and every one
    given back (and whether as reusable), in order. *)
Record book_t := mk_book { lent : gset Z; loans : list Z; given : list (Z * bool); handles : gmap Z (option Z) }.
Implicit Types s : book_t.

Definition new_book : book_t := mk_book ∅ [] [] ∅.
Definition lend (c : Z) s := mk_book ({[c]} ∪ lent s) (loans s ++ [c]) (given s) (handles s).
Definition set_handle (h : Z) (o : option Z) s := mk_book (lent s) (loans s) (given s) (<[h := o]> (handles s)).

(** [client_t::give_back], which releases to the pool. *)
Definition give_back (c : Z) (reusable : bool) s : option book_t :=
  if decide (c ∈ lent s) then Some (mk_book (lent s ∖ {[c]}) (loans s) (given s ++ [(c, reusable)]) (handles s)) else None.

(** ** Opening *)

(** One attempt of [stream]: the error of [borrow] or the connection and
    whether it was reused; what [begin_exchange] and [responded] return. *)
Record open_t := mk_open { op_lend : expected (Z * bool); op_begun : expected unit; op_responded : bool }.

(** The loop of [stream]; [last] is the error so far. *)
Fixpoint stream_attempts (tries : nat) (idempotent : bool) (env : list open_t) (last : error_t) s : option (expected Z * book_t) :=
  match tries, env with
  | O, _ | _, [] => Some (Unexpected last, s)
  | S tries, a :: env =>
      match op_lend a with
      | Unexpected e => Some (Unexpected e, s)
      | Ok (c, reused) =>
          let s := lend c s in
          match op_begun a with
          | Ok _ => Some (Ok c, s)
          | Unexpected e =>
              match give_back c false s with
              | None => None
              | Some s =>
                  let retryable := reused && idempotent && negb (op_responded a) && negb (error_code e =? ETIMEDOUT) && negb (bool_decide (tries = O)) in
                  if negb retryable then Some (Unexpected e, s) else stream_attempts tries idempotent env e s
              end
          end
      end
  end.

(** [upload]: one attempt. *)
Definition upload_open (a : open_t) s : option (expected Z * book_t) :=
  match op_lend a with
  | Unexpected e => Some (Unexpected e, s)
  | Ok (c, _) =>
      let s := lend c s in
      match op_begun a with
      | Ok _ => Some (Ok c, s)
      | Unexpected e => match give_back c false s with Some s => Some (Unexpected e, s) | None => None end
      end
  end.

(** [stream] and [upload] of a request; [failed]: the error the request
    carries. *)
Definition stream (failed : option error_t) (tries : nat) (idempotent : bool) (env : list open_t) s : option (expected Z * book_t) :=
  match failed with Some e => Some (Unexpected e, s) | None => stream_attempts tries idempotent env no_error s end.
Definition upload (failed : option error_t) (a : open_t) s : option (expected Z * book_t) :=
  match failed with Some e => Some (Unexpected e, s) | None => upload_open a s end.

(** The handle [h] made of the result. *)
Definition make_handle (h : Z) (r : option (expected Z * book_t)) : option book_t :=
  match r with
  | Some (Ok c, s) => Some (set_handle h (Some c) s)
  | Some (Unexpected _, s) => Some s
  | None => None
  end.

(** ** Handles *)

(** The private [give_back]: of a stream with what the connection says, of an
    upload as not reusable. *)
Definition handle_give_back (h : Z) (reusable : bool) s : option book_t :=
  match handles s !! h with
  | Some (Some c) => match give_back c reusable s with Some s => Some (set_handle h None s) | None => None end
  | Some None => Some s
  | None => None
  end.

Definition drop_handle (h : Z) (reusable : bool) s : option book_t :=
  match handle_give_back h reusable s with
  | Some s => Some (mk_book (lent s) (loans s) (given s) (delete h (handles s)))
  | None => None
  end.

Definition move_handle (h h' : Z) s : option book_t :=
  match handles s !! h with Some o => Some (set_handle h' o (set_handle h None s)) | None => None end.

(** [h' = std::move(h)] *)
Definition assign_handle (h' h : Z) (reusable : bool) s : option book_t :=
  if decide (h = h') then Some s
  else match handle_give_back h' reusable s with
       | Some s => match handles s !! h with Some o => Some (set_handle h' o (set_handle h None s)) | None => None end
       | None => None
       end.

(** A stream asks its connection, an upload does not. *)
Definition drop_stream (h : Z) (conn_reusable : bool) : book_t -> option book_t := drop_handle h conn_reusable.
Definition drop_upload (h : Z) : book_t -> option book_t := drop_handle h false.
Definition assign_stream (h' h : Z) (conn_reusable : bool) : book_t -> option book_t := assign_handle h' h conn_reusable.
Definition assign_upload (h' h : Z) : book_t -> option book_t := assign_handle h' h false.

(** [read], [drain] and [write]: what the connection answers, or an invalid
    state. *)
Definition use_handle (h : Z) (answer : expected unit) s : option (expected unit) :=
  match handles s !! h with
  | Some (Some c) => if decide (c ∈ lent s) then Some answer else None
  | Some None => Some (Unexpected (http_error InvalidState))
  | None => None
  end.

(** [client_stream_t::finish] *)
Definition stream_finish (h : Z) (resp : expected unit) (reusable : bool) s : option (expected unit * book_t) :=
  match handles s !! h with
  | Some None => Some (Unexpected (http_error InvalidState), s)
  | Some (Some _) => match handle_give_back h reusable s with Some s => Some (resp, s) | None => None end
  | None => None
  end.

(** [client_upload_t::finish]: the results of [finish_chunks] and
    [read_response]. *)
Definition upload_finish (h : Z) (chunks resp : expected unit) (reusable : bool) s : option (expected unit * book_t) :=
  match handles s !! h with
  | Some None => Some (Unexpected (http_error InvalidState), s)
  | Some (Some _) =>
      match chunks with
      | Unexpected e => match handle_give_back h false s with Some s => Some (Unexpected e, s) | None => None end
      | Ok _ => match handle_give_back h (match resp with Ok _ => reusable | Unexpected _ => false end) s with Some s => Some (resp, s) | None => None end
      end
  | None => None
  end.

(** ** Any use

    The pool lends what is not lent (ClientPool). *)
Definition fresh_loans (env : list open_t) s : Prop := Forall (fun a => match op_lend a with Ok (c, _) => c ∉ lent s | Unexpected _ => True end) env.

Inductive handled : book_t -> Prop :=
| hd_new : handled new_book
| hd_stream s h f tries idem env s' : handled s -> handles s !! h = None -> fresh_loans env s -> make_handle h (stream f tries idem env s) = Some s' -> handled s'
| hd_upload s h f a s' : handled s -> handles s !! h = None -> fresh_loans [a] s -> make_handle h (upload f a s) = Some s' -> handled s'
| hd_drop s h b s' : handled s -> drop_handle h b s = Some s' -> handled s'
| hd_move s h h' s' : handled s -> handles s !! h' = None -> move_handle h h' s = Some s' -> handled s'
| hd_assign s h h' b s' : handled s -> is_Some (handles s !! h') -> assign_handle h' h b s = Some s' -> handled s'
| hd_sfinish s h r b e s' : handled s -> stream_finish h r b s = Some (e, s') -> handled s'
| hd_ufinish s h c r b e s' : handled s -> upload_finish h c r b s = Some (e, s') -> handled s'.

(** Loans of [c], and how often it came back. *)
Definition loans_of (c : Z) s : nat := length (filter (fun x => x = c) (loans s)).
Definition returns_of (c : Z) s : nat := length (filter (fun x => x.1 = c) (given s)).

Record book_ok s : Prop := {
  b_lent : forall c, c ∈ lent s <-> exists h, handles s !! h = Some (Some c);
  b_one : forall h h' c, handles s !! h = Some (Some c) -> handles s !! h' = Some (Some c) -> h = h';
  b_count : forall c, loans_of c s = (returns_of c s + if decide (c ∈ lent s) then 1 else 0)%nat
}.

(** ** The book is kept *)

Lemma loans_lend c d s : loans_of c (lend d s) = (loans_of c s + if decide (d = c) then 1 else 0)%nat.
Proof. unfold loans_of, lend; simpl. rewrite filter_app, length_app, filter_cons. by destruct (decide (d = c)). Qed.

Lemma returns_give c d b s s' : give_back d b s = Some s' -> returns_of c s' = (returns_of c s + if decide (d = c) then 1 else 0)%nat.
Proof. unfold returns_of, give_back. case_decide; [|done]. intros [= <-]; simpl. rewrite filter_app, length_app, filter_cons. simpl. by destruct (decide (d = c)). Qed.

(** Lent and given back at once. *)
Lemma attempt_ok s c : book_ok s -> c ∉ lent s -> exists s', give_back c false (lend c s) = Some s' /\ book_ok s' /\ lent s' = lent s /\ handles s' = handles s.
Proof.
  intros H Hc. unfold give_back, lend; simpl. rewrite decide_True by set_solver. eexists. split; [done|].
  assert (Hl : ({[c]} ∪ lent s) ∖ {[c]} = lent s) by set_solver. rewrite Hl. split; [|done].
  constructor; simpl; try apply H. intros d. pose proof (b_count s H d) as Hd. unfold loans_of, returns_of in *; simpl.
  rewrite !filter_app, !length_app, !filter_cons. simpl. destruct (decide (c = d)) as [->|Hn]; simpl; lia.
Qed.

Lemma hold_ok s h c : book_ok s -> c ∉ lent s -> handles s !! h = None -> book_ok (set_handle h (Some c) (lend c s)).
Proof.
  intros [A B C] Hc Hh. constructor; simpl.
  - intros d. rewrite elem_of_union, elem_of_singleton, A. split.
    + intros [->|[h' Hh']]; [exists h; by rewrite lookup_insert_eq|]. exists h'. rewrite lookup_insert_ne; [done|]. congruence.
    + intros [h' [[<- [= <-]]|[_ Hh']]%lookup_insert_Some]; [by left|right; by exists h'].
  - assert (Hno : forall k, handles s !! k <> Some (Some c)) by (intros k Hk; apply Hc, A; by exists k).
    intros h1 h2 d [[<- ?]|[Hn1 H1]]%lookup_insert_Some [[<- ?]|[Hn2 H2]]%lookup_insert_Some; simplify_eq; try done; [by destruct (Hno h2)|by destruct (Hno h1)|by eapply B].
  - intros d. change (loans_of d (lend c s) = (returns_of d s + if decide (d ∈ {[c]} ∪ lent s) then 1 else 0)%nat). rewrite loans_lend, C.
    destruct (decide (c = d)) as [->|Hn].
    + rewrite (decide_False (P := d ∈ lent s)), decide_True by set_solver. lia.
    + destruct (decide (d ∈ lent s)); [rewrite decide_True by set_solver | rewrite decide_False by set_solver]; lia.
Qed.

(** What a call of [stream] or [upload] leaves. *)
Definition opened_well (h : Z) s (r : option (expected Z * book_t)) : Prop := exists s', make_handle h r = Some s' /\ book_ok s'.

Lemma stream_attempts_ok h tries idem env last s :
  book_ok s -> handles s !! h = None -> fresh_loans env s -> opened_well h s (stream_attempts tries idem env last s).
Proof.
  revert env last s. induction tries as [|tries IH]; intros env last s H Hh Hf; [by exists s; destruct env|]. destruct env as [|a env]; [by exists s|].
  apply Forall_cons in Hf as [Ha Hf]. cbn [stream_attempts]. destruct (op_lend a) as [[c reused]|e]; [|by exists s].
  destruct (op_begun a) as [[]|e]; [eexists; split; [done|by apply hold_ok]|].
  destruct (attempt_ok s c H Ha) as (s1 & -> & H1 & Hl & Hs). case_match; [by exists s1|].
  apply IH; [done|by rewrite Hs|]. unfold fresh_loans in *. by rewrite Hl.
Qed.

Lemma upload_open_ok h a s : book_ok s -> handles s !! h = None -> fresh_loans [a] s -> opened_well h s (upload_open a s).
Proof.
  intros H Hh [Ha _]%Forall_cons. unfold upload_open. destruct (op_lend a) as [[c reused]|e]; [|by exists s].
  destruct (op_begun a) as [[]|e]; [eexists; split; [done|by apply hold_ok]|].
  destruct (attempt_ok s c H Ha) as (s1 & -> & H1 & _). by exists s1.
Qed.

(** A handle gives back what it holds, and then holds nothing. *)
Lemma handle_give_back_ok h b s :
  book_ok s -> is_Some (handles s !! h) ->
  exists s', handle_give_back h b s = Some s' /\ book_ok s' /\ handles s' = <[h := None]> (handles s) /\
    (forall c, handles s !! h = Some (Some c) -> given s' = given s ++ [(c, b)] /\ c ∉ lent s').
Proof.
  intros H [o Hh]. unfold handle_give_back. rewrite Hh. destruct o as [c|].
  - assert (Hc : c ∈ lent s) by (apply (b_lent s H); by exists h). unfold give_back. rewrite decide_True by done. eexists. split; [done|].
    split; [|split; [done|]; intros d [= <-]; split; [done|set_solver]]. destruct H as [A B C]. constructor; simpl.
    + intros d. rewrite elem_of_difference, elem_of_singleton, A. split.
      * intros [[k Hk] Hn]. exists k. rewrite lookup_insert_ne; [done|]. congruence.
      * intros [k [[_ ?]|[Hn Hk]]%lookup_insert_Some]; [done|]. split; [by exists k|]. intros ->. apply Hn. by eapply B.
    + intros k k' d [[_ ?]|[_ Hk]]%lookup_insert_Some [[_ ?]|[_ Hk']]%lookup_insert_Some; try done. by eapply B.
    + intros d. pose proof (C d) as Hd. unfold loans_of, returns_of in *; simpl. rewrite filter_app, length_app, filter_cons. simpl.
      destruct (decide (c = d)) as [->|Hn]; simpl.
      * rewrite decide_True in Hd by done. rewrite (decide_False (P := d ∈ lent s ∖ _)) by set_solver. lia.
      * destruct (decide (d ∈ lent s)); [rewrite decide_True by set_solver | rewrite decide_False by set_solver]; lia.
  - exists s. split; [done|]. split; [done|]. split; [by rewrite insert_id|]. intros c ?. congruence.
Qed.

(** The holders of connections renamed. *)
Lemma handle_move_ok h h' o s :
  book_ok s -> handles s !! h = Some o -> (forall c, handles s !! h' <> Some (Some c)) -> h <> h' -> book_ok (set_handle h' o (set_handle h None s)).
Proof.
  intros [A B C] Hh Hh' Hn. assert (Hiff : forall k c, <[h' := o]> (<[h := None]> (handles s)) !! k = Some (Some c) <-> (k = h' /\ handles s !! h = Some (Some c)) \/ (k <> h /\ k <> h' /\ handles s !! k = Some (Some c))).
  { intros k c. rewrite !lookup_insert_Some. rewrite Hh. naive_solver. }
  constructor; simpl.
  - intros c. rewrite A. setoid_rewrite Hiff. split.
    + intros [k Hk]. destruct (decide (k = h)) as [->|Hk1]; [exists h'; auto|]. exists k. right. split_and!; try done. intros ->. by destruct (Hh' c).
    + intros [k [[-> Hk]|(_ & _ & Hk)]]; eauto.
  - intros k k' c Hk%Hiff Hk'%Hiff. destruct Hk as [[-> Hk]|(N1 & N2 & Hk)], Hk' as [[-> Hk']|(M1 & M2 & Hk')]; try done.
    + by destruct (M1 (B _ _ _ Hk' Hk)).
    + by destruct (N1 (B _ _ _ Hk Hk')).
    + by eapply B.
  - exact C.
Qed.

Lemma forget_ok h s : book_ok s -> handles s !! h = Some None -> book_ok (mk_book (lent s) (loans s) (given s) (delete h (handles s))).
Proof.
  intros [A B C] Hh. constructor; simpl; [|intros k k' c [_ Hk]%lookup_delete_Some [_ Hk']%lookup_delete_Some; by eapply B|exact C].
  intros c. rewrite A. split; intros [k Hk]; [exists k; rewrite lookup_delete_ne; [done|congruence]|exists k; by apply lookup_delete_Some in Hk as [_ Hk]].
Qed.

(** ** Every use *)

Lemma drop_handle_ok h b s : book_ok s -> is_Some (handles s !! h) -> exists s', drop_handle h b s = Some s' /\ book_ok s'.
Proof.
  intros H Hh. unfold drop_handle. destruct (handle_give_back_ok h b s H Hh) as (s1 & -> & H1 & Hs & _). eexists. split; [done|].
  apply forget_ok; [done|]. by rewrite Hs, lookup_insert_eq.
Qed.

Lemma assign_handle_ok h' h b s : book_ok s -> is_Some (handles s !! h) -> is_Some (handles s !! h') -> exists s', assign_handle h' h b s = Some s' /\ book_ok s'.
Proof.
  intros H [o Hh] Hh'. unfold assign_handle. case_decide as Hn; [by exists s|].
  destruct (handle_give_back_ok h' b s H Hh') as (s1 & -> & H1 & Hs & _). assert (Hh1 : handles s1 !! h = Some o) by by rewrite Hs, lookup_insert_ne.
  rewrite Hh1. eexists. split; [done|]. apply handle_move_ok; try done. intros c. rewrite Hs, lookup_insert_eq. congruence.
Qed.

Lemma stream_finish_ok h r b s :
  book_ok s -> is_Some (handles s !! h) -> exists e s', stream_finish h r b s = Some (e, s') /\ book_ok s' /\ handles s' !! h = Some None.
Proof.
  intros H Hh. unfold stream_finish. pose proof Hh as [[c|] Ho]; rewrite Ho; [|by do 2 eexists].
  destruct (handle_give_back_ok h b s H Hh) as (s1 & -> & H1 & Hs & _). do 2 eexists. split; [done|]. split; [done|]. by rewrite Hs, lookup_insert_eq.
Qed.

Lemma upload_finish_ok h k r b s :
  book_ok s -> is_Some (handles s !! h) -> exists e s', upload_finish h k r b s = Some (e, s') /\ book_ok s' /\ handles s' !! h = Some None.
Proof.
  intros H Hh. unfold upload_finish. pose proof Hh as [[c|] Ho]; rewrite Ho; [|by do 2 eexists].
  assert (Hg : forall b', exists s1, handle_give_back h b' s = Some s1 /\ book_ok s1 /\ handles s1 !! h = Some None).
  { intros b'. destruct (handle_give_back_ok h b' s H Hh) as (s1 & He & H1 & Hs & _). exists s1. split; [done|]. split; [done|]. by rewrite Hs, lookup_insert_eq. }
  destruct k as [[]|e].
  - destruct (Hg (match r with Ok _ => b | Unexpected _ => false end)) as (s1 & -> & H1 & Hs). by do 2 eexists.
  - destruct (Hg false) as (s1 & -> & H1 & Hs). by do 2 eexists.
Qed.

Lemma handled_ok s : handled s -> book_ok s.
Proof.
  induction 1 as [|s h f tries idem env s' _ IH Hh Hf Hs|s h f a s' _ IH Hh Hf Hs|s h b s' _ IH Hs|s h h' s' _ IH Hh Hs|s h h' b s' _ IH Hh Hs|s h r b e s' _ IH Hs|s h c r b e s' _ IH Hs].
  - constructor; simpl; [intros c; rewrite elem_of_empty; split; [done|]; by intros [h ?]|done|done].
  - destruct f as [e|]; [by simplify_eq/=|]. destruct (stream_attempts_ok h tries idem env no_error s IH Hh Hf) as (s1 & H1 & H2). simpl in Hs. congruence.
  - destruct f as [e|]; [by simplify_eq/=|]. destruct (upload_open_ok h a s IH Hh Hf) as (s1 & H1 & H2). simpl in Hs. congruence.
  - assert (is_Some (handles s !! h)) as Hi by (unfold drop_handle, handle_give_back in Hs; destruct (handles s !! h); by eauto).
    destruct (drop_handle_ok h b s IH Hi) as (s1 & H1 & H2). congruence.
  - unfold move_handle in Hs. destruct (handles s !! h) as [o|] eqn:Ho; [|done]. simplify_eq. apply handle_move_ok; try done; [by intros c; rewrite Hh|congruence].
  - unfold assign_handle in Hs. case_decide as Hn; [by simplify_eq|]. destruct (handle_give_back_ok h' b s IH Hh) as (s1 & H1 & H2 & H3 & _).
    rewrite H1 in Hs. destruct (handles s1 !! h) as [o|] eqn:Ho; [|done]. simplify_eq. apply handle_move_ok; try done. intros c. rewrite H3, lookup_insert_eq. congruence.
  - assert (is_Some (handles s !! h)) as Hi by (unfold stream_finish in Hs; destruct (handles s !! h); by eauto).
    destruct (stream_finish_ok h r b s IH Hi) as (e1 & s1 & H1 & H2 & _). congruence.
  - assert (is_Some (handles s !! h)) as Hi by (unfold upload_finish in Hs; destruct (handles s !! h); by eauto).
    destruct (upload_finish_ok h c r b s IH Hi) as (e1 & s1 & H1 & H2 & _). congruence.
Qed.

(** C20: Streams and uploads return what they borrow: after any use of the
    client's streaming interface, retries and failed openings included, the
    connections on loan are exactly those held by a handle, each by one; every
    loan of a connection came back exactly once or is still out; and every
    handle can be dropped, overwritten and finished, after which it is empty
    and holds no connection back. *)
Theorem handles_return_once s :
  handled s ->
  (forall c, c ∈ lent s <-> exists h, handles s !! h = Some (Some c)) /\
  (forall h h' c, handles s !! h = Some (Some c) -> handles s !! h' = Some (Some c) -> h = h') /\
  (forall c, loans_of c s = (returns_of c s + if decide (c ∈ lent s) then 1 else 0)%nat) /\
  (forall h b, is_Some (handles s !! h) -> is_Some (drop_handle h b s)) /\
  (forall h h' b, is_Some (handles s !! h) -> is_Some (handles s !! h') -> is_Some (assign_handle h' h b s)) /\
  (forall h r b, is_Some (handles s !! h) -> exists e s', stream_finish h r b s = Some (e, s') /\ handles s' !! h = Some None) /\
  (forall h k r b, is_Some (handles s !! h) -> exists e s', upload_finish h k r b s = Some (e, s') /\ handles s' !! h = Some None).
Proof.
  intros H%handled_ok. split_and!; [apply H..| | | |].
  - intros h b Hh. destruct (drop_handle_ok h b s H Hh) as (s' & Hs & _). by exists s'.
  - intros h h' b Hh Hh'. destruct (assign_handle_ok h' h b s H Hh Hh') as (s' & Hs & _). by exists s'.
  - intros h r b Hh. destruct (stream_finish_ok h r b s H Hh) as (e & s' & Hs & _ & Hn). eauto.
  - intros h k r b Hh. destruct (upload_finish_ok h k r b s H Hh) as (e & s' & Hs & _ & Hn). eauto.
Qed.

(** The first connection, from the pool, dies; the second serves. *)
Definition sample_opens : list open_t := [mk_open (Ok (5, true)) (Unexpected (system_error 104)) false; mk_open (Ok (6, false)) (Ok tt) false].

Lemma handles_return_once_witness :
  exists s, make_handle 1 (stream None 2 true sample_opens new_book) = Some s /\ given s = [(5, false)] /\ is_Some (drop_handle 1 true s).
Proof.
  eassert (Hs : make_handle 1 (stream None 2 true sample_opens new_book) = Some _) by reflexivity.
  eexists. split; [exact Hs|]. split; [reflexivity|].
  assert (Hh : handled _) by (eapply (hd_stream new_book 1 None 2 true sample_opens); [apply hd_new|reflexivity|repeat constructor; simpl; set_solver|exact Hs]).
  destruct (handles_return_once _ Hh) as (_ & _ & _ & Hd & _). apply Hd. by eexists.
Defined.
