(* ===== verification/ClientPool.v ===== *)
(** * The client's connection pool

    src/include/cornet/http/client/pool.h and src/src/http/client/pool.cc:
    connections grouped by origin, lent to one request at a time, kept idle
    between requests, with a queue of requests waiting for one; and the
    cache of resolved addresses.

    A request is a coroutine of [acquire]: its suspension points (resolving
    and opening, and the wait for a connection) are its states here, and
    everything between two suspension points is one function.  Connections
    and requests are identified by numbers; whether a connection is still
    reusable and alive when asked is an input. *)

From stdpp Require Import prelude gmap list fin_maps fin_sets.
From Stdlib Require Import ZArith Lia.
From S2P Require Import Prelude Protocol Url.
Open Scope Z_scope.

Abbreviation conn_id := nat.
Abbreviation req_id := nat.

(** ** State *)

Definition bucket_key (port : Z) (scheme : scheme_t) : Z :=
  (port <<< 1) ||| (match scheme with Https => 1 | Http => 0 end).

(** An origin: the key of the outer map and the one of the inner map. *)
Abbreviation origin := (bytes * Z)%type.

Record bucket_t := mk_bucket {
  idle : list conn_id; busy : list conn_id; waiters : list req_id; opening : Z
}.
Definition empty_bucket : bucket_t := mk_bucket [] [] [] 0.

Record client_options_t := mk_options {
  max_conns_per_host : Z; max_total_conns : Z; max_idle_per_host : Z;
  idle_timeout : Z; pool_wait_timeout : Z
}.

(** What a parked request is resumed with: its [waiter_t]. *)
Inductive wake_t := Expired | Granted (c : option conn_id).

#[global] Instance wake_t_eq_dec : EqDecision wake_t.
Proof. solve_decision. Defined.

(** Where a request stands. *)
Inductive request_t :=
| ROpening (k : origin)            (* resolving or connecting, an opening slot taken *)
| RParked (k : origin)             (* suspended in [wait_awaiter] *)
| RWoken (k : origin) (w : wake_t) (* handed to the scheduler, not yet resumed *)
| RHolding (c : conn_id).          (* [acquire] returned this connection *)

#[global] Instance request_t_eq_dec : EqDecision request_t.
Proof. solve_decision. Defined.

(** [conns] are the open connections with the origin each was opened for;
    [idle_armed] and [wait_armed] the timers on the wheel. *)
Record pool_t := mk_pool {
  buckets : gmap origin bucket_t;
  conns : gmap conn_id origin;
  total_ : Z;
  idle_armed : gset conn_id;
  wait_armed : gset req_id;
  requests : gmap req_id request_t
}.

Definition empty_pool : pool_t := mk_pool ∅ ∅ 0 ∅ ∅ ∅.

Definition bucket (s : pool_t) (k : origin) : bucket_t := default empty_bucket (buckets s !! k).

Definition set_bucket (s : pool_t) (k : origin) (b : bucket_t) : pool_t :=
  mk_pool (<[k := b]> (buckets s)) (conns s) (total_ s) (idle_armed s) (wait_armed s) (requests s).
Definition set_request (s : pool_t) (r : req_id) (x : request_t) : pool_t :=
  mk_pool (buckets s) (conns s) (total_ s) (idle_armed s) (wait_armed s) (<[r := x]> (requests s)).
Definition end_request (s : pool_t) (r : req_id) : pool_t :=
  mk_pool (buckets s) (conns s) (total_ s) (idle_armed s) (wait_armed s) (delete r (requests s)).
Definition cancel_idle (s : pool_t) (c : conn_id) : pool_t :=
  mk_pool (buckets s) (conns s) (total_ s) (idle_armed s ∖ {[c]}) (wait_armed s) (requests s).
Definition cancel_wait (s : pool_t) (r : req_id) : pool_t :=
  mk_pool (buckets s) (conns s) (total_ s) (idle_armed s) (wait_armed s ∖ {[r]}) (requests s).

Definition set_idle (b : bucket_t) (l : list conn_id) : bucket_t := mk_bucket l (busy b) (waiters b) (opening b).
Definition set_busy (b : bucket_t) (l : list conn_id) : bucket_t := mk_bucket (idle b) l (waiters b) (opening b).
Definition set_waiters (b : bucket_t) (l : list req_id) : bucket_t := mk_bucket (idle b) (busy b) l (opening b).
Definition set_opening (b : bucket_t) (n : Z) : bucket_t := mk_bucket (idle b) (busy b) (waiters b) n.

(** [conn->close()] and the guarded decrement that follows it. *)
Definition close_conn (s : pool_t) (c : conn_id) : pool_t :=
  mk_pool (buckets s) (delete c (conns s)) (if 0 <? total_ s then total_ s - 1 else total_ s)
    (idle_armed s) (wait_armed s) (requests s).

(** [bucket_for]: the origin's bucket, created if missing. *)
Definition bucket_for (s : pool_t) (k : origin) : pool_t := set_bucket s k (bucket s k).

(** [detach]: the first occurrence out of the list, [None] if there is none. *)
Fixpoint detach (l : list conn_id) (c : conn_id) : option (list conn_id) :=
  match l with
  | [] => None
  | x :: l => if decide (x = c) then Some l else match detach l c with Some l' => Some (x :: l') | None => None end
  end.

Section Pool.
Context (opt : client_options_t).

(** ** Operations *)

Definition arm_idle (s : pool_t) (c : conn_id) : pool_t :=
  if 0 <? idle_timeout opt
  then mk_pool (buckets s) (conns s) (total_ s) ({[c]} ∪ idle_armed s) (wait_armed s) (requests s) else s.

(** The front waiter leaves the queue with [w] and is scheduled. *)
Definition wake_front (s : pool_t) (k : origin) (w : wake_t) : pool_t :=
  match waiters (bucket s k) with
  | [] => s
  | r :: rest =>
      let s := set_bucket s k (set_waiters (bucket s k) rest) in
      set_request (cancel_wait s r) r (RWoken k w)
  end.

Definition grant_or_park (s : pool_t) (k : origin) (c : conn_id) (alive : bool) : pool_t :=
  match waiters (bucket s k) with
  | _ :: _ =>
      if negb alive then wake_front (close_conn s c) k (Granted None)
      else
        let s := wake_front s k (Granted (Some c)) in
        set_bucket s k (set_busy (bucket s k) (busy (bucket s k) ++ [c]))
  | [] =>
      if max_idle_per_host opt <=? Z.of_nat (length (idle (bucket s k))) then close_conn s c
      else
        let s := arm_idle s c in
        set_bucket s k (set_idle (bucket s k) (idle (bucket s k) ++ [c]))
  end.

Definition release (s : pool_t) (c : conn_id) (reusable alive : bool) : pool_t :=
  match conns s !! c with
  | None => s   (* the pointer is to a connection that exists *)
  | Some k =>
      let s := bucket_for s k in
      match detach (busy (bucket s k)) c with
      | None => s
      | Some l =>
          let s := set_bucket s k (set_busy (bucket s k) l) in
          if negb reusable then wake_front (close_conn s c) k (Granted None)
          else grant_or_park s k c alive
      end
  end.

Definition drop_idle (s : pool_t) (c : conn_id) : pool_t :=
  match conns s !! c with
  | None => s
  | Some k =>
      let s := bucket_for s k in
      match detach (idle (bucket s k)) c with
      | None => s
      | Some l => close_conn (set_bucket s k (set_idle (bucket s k) l)) c
      end
  end.

(** The wheel fires the node: it is off the wheel when its callback runs. *)
Definition on_idle_expired (s : pool_t) (c : conn_id) : pool_t := drop_idle (cancel_idle s c) c.

Definition on_wait_expired (s : pool_t) (r : req_id) : pool_t :=
  match requests s !! r with
  | Some (RParked k) =>
      let s := cancel_wait s r in
      let s := set_bucket s k (set_waiters (bucket s k) (filter (fun x => x <> r) (waiters (bucket s k)))) in
      set_request s r (RWoken k Expired)
  | _ => s
  end.

(** [wait_awaiter::await_suspend]. *)
Definition await_suspend (s : pool_t) (r : req_id) (k : origin) : pool_t :=
  let s := set_bucket s k (set_waiters (bucket s k) (waiters (bucket s k) ++ [r])) in
  let s := if 0 <? pool_wait_timeout opt
           then mk_pool (buckets s) (conns s) (total_ s) (idle_armed s) ({[r]} ∪ wait_armed s) (requests s) else s in
  set_request s r (RParked k).

(** The loop over idle connections, newest first; [ok c] tells whether the
    connection is reusable and alive.  The fuel is the length of the list. *)
Fixpoint idle_loop (fuel : nat) (ok : conn_id -> bool) (s : pool_t) (k : origin) : pool_t * option conn_id :=
  match fuel, last (idle (bucket s k)) with
  | S fuel, Some c =>
      let s := set_bucket s k (set_idle (bucket s k) (removelast (idle (bucket s k)))) in
      let s := cancel_idle s c in
      if negb (ok c) then idle_loop fuel ok (close_conn s c) k
      else (set_bucket s k (set_busy (bucket s k) (busy (bucket s k) ++ [c])), Some c)
  | _, _ => (s, None)
  end.

(** One turn of the loop of [acquire], up to its next suspension point. *)
Definition acquire_turn (ok : conn_id -> bool) (s : pool_t) (r : req_id) (k : origin) : pool_t :=
  let '(s, got) := idle_loop (length (idle (bucket s k))) ok s k in
  match got with
  | Some c => set_request s r (RHolding c)
  | None =>
      let b := bucket s k in
      if (Z.of_nat (length (busy b)) + opening b <? max_conns_per_host opt) && (total_ s <? max_total_conns opt)
      then set_request (set_bucket s k (set_opening b (u32 (opening b + 1)))) r (ROpening k)
      else await_suspend s r k
  end.

Definition acquire (ok : conn_id -> bool) (s : pool_t) (r : req_id) (k : origin) : pool_t :=
  acquire_turn ok (bucket_for s k) r k.

(** [opening_guard_t]'s destructor, on the bucket the coroutine refers to;
    [None] when that bucket is gone. *)
Definition guard_exit (s : pool_t) (k : origin) : option pool_t :=
  match buckets s !! k with
  | Some b => Some (set_bucket s k (set_opening b (u32 (opening b - 1))))
  | None => None
  end.

(** Resolving or opening failed: [acquire] returns the error. *)
Definition open_failed (s : pool_t) (r : req_id) (k : origin) : option pool_t :=
  match guard_exit s k with Some s => Some (end_request s r) | None => None end.

(** The connection [c] is open. *)
Definition open_done (s : pool_t) (r : req_id) (k : origin) (c : conn_id) : option pool_t :=
  match buckets s !! k with
  | None => None
  | Some b =>
      let s := set_bucket s k (set_busy b (busy b ++ [c])) in
      let s := mk_pool (buckets s) (<[c := k]> (conns s)) (u32 (total_ s + 1)) (idle_armed s) (wait_armed s) (requests s) in
      match guard_exit s k with Some s => Some (set_request s r (RHolding c)) | None => None end
  end.

(** [~wait_awaiter]: the timer, and the queue of the bucket pointed to. *)
Definition awaiter_exit (s : pool_t) (r : req_id) (k : origin) : option pool_t :=
  let s := cancel_wait s r in
  match buckets s !! k with
  | Some b => Some (set_bucket s k (set_waiters b (filter (fun x => x <> r) (waiters b))))
  | None => None
  end.

(** A woken request runs: [await_resume], the awaiter's destructor, and the
    rest of the turn. *)
Definition resume (ok : conn_id -> bool) (s : pool_t) (r : req_id) (k : origin) (w : wake_t) : option pool_t :=
  match awaiter_exit (cancel_wait s r) r k with
  | None => None
  | Some s =>
      match w with
      | Expired => Some (end_request s r)
      | Granted (Some c) => Some (set_request s r (RHolding c))
      | Granted None => Some (acquire_turn ok s r k)
      end
  end.

(** The coroutine's frame is destroyed at a suspension point. *)
Definition destroy_frame (s : pool_t) (r : req_id) : option pool_t :=
  match requests s !! r with
  | Some (ROpening k) => open_failed s r k
  | Some (RParked k) | Some (RWoken k _) =>
      match awaiter_exit s r k with Some s => Some (end_request s r) | None => None end
  | _ => Some s
  end.

(** [clear()]. *)
Definition expire_all (k : origin) (s : pool_t) (rs : list req_id) : pool_t :=
  foldl (fun s r => set_request (cancel_wait s r) r (RWoken k Expired)) s rs.
Definition clear_bucket (s : pool_t) (k : origin) (b : bucket_t) : pool_t :=
  let s := expire_all k s (waiters b) in
  let s := foldl (fun s c => mk_pool (buckets s) (delete c (conns s)) (total_ s) (idle_armed s ∖ {[c]}) (wait_armed s) (requests s)) s (idle b) in
  foldl (fun s c => mk_pool (buckets s) (delete c (conns s)) (total_ s) (idle_armed s) (wait_armed s) (requests s)) s (busy b).
Definition clear (s : pool_t) : pool_t :=
  let s := foldl (fun s kb => clear_bucket s kb.1 kb.2) s (map_to_list (buckets s)) in
  mk_pool ∅ (conns s) 0 (idle_armed s) (wait_armed s) (requests s).

(** ** Steps *)

(** The events of a client's life; [kill] admits destroying the frame of a
    request that was woken and has not run yet. *)
Inductive pool_step (kill : bool) (s : pool_t) : pool_t -> Prop :=
| step_acquire ok r k : requests s !! r = None -> pool_step kill s (acquire ok s r k)
| step_opened r k c s' : requests s !! r = Some (ROpening k) -> conns s !! c = None ->
    Z.of_nat (base.size (conns s)) < 2 ^ 32 - 1 -> open_done s r k c = Some s' -> pool_step kill s s'
| step_open_failed r k s' : requests s !! r = Some (ROpening k) -> open_failed s r k = Some s' -> pool_step kill s s'
| step_resume ok r k w s' : requests s !! r = Some (RWoken k w) -> resume ok s r k w = Some s' -> pool_step kill s s'
| step_release r c reusable alive : requests s !! r = Some (RHolding c) ->
    pool_step kill s (release (end_request s r) c reusable alive)
| step_idle_expired c : c ∈ idle_armed s -> pool_step kill s (on_idle_expired s c)
| step_wait_expired r : r ∈ wait_armed s -> pool_step kill s (on_wait_expired s r)
| step_destroy r x s' : requests s !! r = Some x ->
    (forall k w, x = RWoken k w -> kill = true) -> (forall c, x <> RHolding c) ->
    destroy_frame s r = Some s' -> pool_step kill s s'.
End Pool.

(** ** Connections *)

(** A connection taken out of its list and not yet disposed of. *)
Abbreviation hand_t := (option (conn_id * origin)).

Definition extra (h : hand_t) (k : origin) : Z :=
  match h with Some (_, k') => if decide (k = k') then 1 else 0 | None => 0 end.

Definition held (h : hand_t) (c : conn_id) : Prop := exists k, h = Some (c, k).

Definition load (b : bucket_t) : Z := Z.of_nat (length (idle b)) + Z.of_nat (length (busy b)) + opening b.

(** Every open connection is in exactly one list, that of its own origin
    (or in hand); the limits per host hold; the total is exact; and the
    connections with a timer armed are the idle ones. *)
Record conns_ok (opt : client_options_t) (h : hand_t) (s : pool_t) : Prop := {
  co_nodup k : NoDup (idle (bucket s k) ++ busy (bucket s k));
  co_in k c : c ∈ idle (bucket s k) ++ busy (bucket s k) <-> conns s !! c = Some k /\ ~ held h c;
  co_hand c k : h = Some (c, k) -> conns s !! c = Some k;
  co_room k : load (bucket s k) + extra h k <= max_conns_per_host opt;
  co_idle k : Z.of_nat (length (idle (bucket s k))) <= max_idle_per_host opt;
  co_total : total_ s = Z.of_nat (base.size (conns s));
  co_armed c : c ∈ idle_armed s <-> 0 < idle_timeout opt /\ exists k, c ∈ idle (bucket s k)
}.

Lemma bucket_set s k b k' : bucket (set_bucket s k b) k' = if decide (k' = k) then b else bucket s k'.
Proof.
  unfold bucket, set_bucket. simpl. destruct (decide (k' = k)) as [->|].
  - by rewrite lookup_insert_eq.
  - by rewrite lookup_insert_ne.
Qed.

Lemma bucket_for_bucket s k k' : bucket (bucket_for s k) k' = bucket s k'.
Proof. unfold bucket_for. rewrite bucket_set. by destruct (decide _) as [->|]. Qed.

Lemma filter_neq_id (l : list nat) r : r ∉ l -> filter (fun x => x <> r) l = l.
Proof.
  induction l as [|x l IH]; [done|]. rewrite not_elem_of_cons. intros [Hne Hl].
  rewrite filter_cons_True by congruence. by rewrite IH.
Qed.

Lemma filter_neq_elem (l : list nat) r x : x ∈ filter (fun y => y <> r) l <-> x ∈ l /\ x <> r.
Proof. rewrite list_elem_of_filter. tauto. Qed.

Lemma detach_perm l c l' : detach l c = Some l' -> c :: l' ≡ₚ l.
Proof.
  revert l'. induction l as [|x l IH]; simpl; intros l' H; [done|].
  destruct (decide (x = c)) as [->|]; [by simplify_eq|].
  destruct (detach l c) as [m|]; simplify_eq. rewrite <- (IH m) by done. apply Permutation_swap.
Qed.

Lemma detach_some l c : c ∈ l -> exists l', detach l c = Some l'.
Proof.
  induction l as [|x l IH]; simpl; [by rewrite elem_of_nil|]. destruct (decide (x = c)) as [|Hn]; [eauto|].
  rewrite elem_of_cons. intros [->|Hin]; [done|]. destruct (IH Hin) as [l' ->]. eauto.
Qed.

(** Only the buckets, the connections, the total and the idle timers matter. *)
Lemma conns_ok_ext opt h s s' :
  (forall k, idle (bucket s' k) = idle (bucket s k)) -> (forall k, busy (bucket s' k) = busy (bucket s k)) ->
  (forall k, load (bucket s' k) + extra h k <= max_conns_per_host opt) ->
  conns s' = conns s -> total_ s' = total_ s -> idle_armed s' = idle_armed s ->
  conns_ok opt h s -> conns_ok opt h s'.
Proof.
  intros Hi Hb Hl Hc Ht Ha []. constructor; intros *; rewrite ?Hi, ?Hb, ?Hc, ?Ht, ?Ha; auto.
  setoid_rewrite Hi. auto.
Qed.

Section Hand.
Context (opt : client_options_t).

(** A connection leaves the lists of its bucket. *)
Lemma conns_ok_take s s' k c b :
  conns_ok opt None s -> c :: idle b ++ busy b ≡ₚ idle (bucket s k) ++ busy (bucket s k) ->
  opening b = opening (bucket s k) ->
  (forall x, x ∈ idle b <-> x ∈ idle (bucket s k) /\ x <> c) ->
  (length (idle b) <= length (idle (bucket s k)))%nat ->
  (forall k', bucket s' k' = if decide (k' = k) then b else bucket s k') -> conns s' = conns s -> total_ s' = total_ s ->
  (forall x, x ∈ idle_armed s' <-> x ∈ idle_armed s /\ x <> c) ->
  conns_ok opt (Some (c, k)) s'.
Proof.
  intros [Hnd Hin Hh Hr Hid Ht Ha] Hp Ho Hidle Hlen Hbk Hc Htot Harm.
  assert (Hk : conns s !! c = Some k) by (apply Hin; rewrite <- Hp; by left).
  assert (Hheld : forall x, held (Some (c, k)) x <-> x = c) by (intros x; split; [by intros [? [= -> ->]]|intros ->; by exists k]).
  constructor; try (intros k'; rewrite Hbk; destruct (decide (k' = k)) as [->|Hne]).
  - specialize (Hnd k). rewrite <- Hp in Hnd. by apply NoDup_cons in Hnd as [_ ?].
  - apply Hnd.
  - intros x. rewrite Hc, Hheld. specialize (Hnd k). rewrite <- Hp in Hnd. apply NoDup_cons in Hnd as [Hcn _].
    specialize (Hin k x). rewrite <- Hp, elem_of_cons in Hin. split.
    + intros Hx. split; [apply Hin; by right|]. by intros ->.
    + intros [Hx Hxc]. destruct (proj2 Hin) as [?|?]; [split; [done|by intros [? ?]]|done|done].
  - intros x. rewrite Hc, Hheld, Hin. split; intros [Hx _]; (split; [done|]); [intros ->; congruence|by intros [? ?]].
  - intros x k' [= <- <-]. by rewrite Hc.
  - specialize (Hr k). apply Permutation_length in Hp. unfold load, extra in *. rewrite decide_True by done.
    simpl in Hp. rewrite !length_app in Hp. lia.
  - specialize (Hr k'). unfold load, extra in *. rewrite decide_False by done. lia.
  - specialize (Hid k). lia.
  - apply Hid.
  - by rewrite Htot, Hc.
  - intros x. rewrite Harm, Ha. split.
    + intros [[? [k' Hk']] Hxc]. split; [done|]. exists k'. rewrite Hbk. destruct (decide (k' = k)) as [->|]; [by apply Hidle|done].
    + intros [? [k' Hk']]. rewrite Hbk in Hk'. destruct (decide (k' = k)) as [->|].
      * apply Hidle in Hk' as [??]. eauto.
      * split; [eauto|]. intros ->. assert (conns s !! c = Some k'); [|congruence].
        apply Hin. set_solver.
Qed.

(** The connection in hand goes back into its bucket. *)
Lemma conns_ok_put s s' k c b :
  conns_ok opt (Some (c, k)) s -> idle b ++ busy b ≡ₚ c :: idle (bucket s k) ++ busy (bucket s k) ->
  opening b = opening (bucket s k) ->
  Z.of_nat (length (idle b)) <= max_idle_per_host opt ->
  (forall k', bucket s' k' = if decide (k' = k) then b else bucket s k') -> conns s' = conns s -> total_ s' = total_ s ->
  (forall x, x ∈ idle_armed s' <-> x ∈ idle_armed s \/ 0 < idle_timeout opt /\ x = c /\ c ∈ idle b) ->
  (forall x, x ∈ idle b <-> x ∈ idle (bucket s k) \/ (x = c /\ c ∈ idle b)) ->
  conns_ok opt None s'.
Proof.
  intros [Hnd Hin Hh Hr Hid Ht Ha] Hp Ho Hlen Hbk Hc Htot Harm Hidle.
  specialize (Hh c k eq_refl).
  assert (Hheld : forall x, held (Some (c, k)) x <-> x = c) by (intros x; split; [by intros [? [= -> ->]]|intros ->; by exists k]).
  assert (Hno : forall x, ~ held None x) by (by intros x [? ?]).
  constructor; try (intros k'; rewrite Hbk; destruct (decide (k' = k)) as [->|Hne]).
  - rewrite Hp. apply NoDup_cons. split; [|apply Hnd]. rewrite Hin, Hheld. tauto.
  - apply Hnd.
  - intros x. rewrite Hp, Hc, elem_of_cons, Hin, Hheld. split; [|destruct (decide (x = c)); naive_solver].
    intros [->|[? ?]]; split; auto.
  - intros x. rewrite Hc, Hin, Hheld. split; [|intros [? ?]; split; [done|intros ->; congruence]].
    intros [? ?]; split; auto.
  - intros x k' [=].
  - specialize (Hr k). apply Permutation_length in Hp. unfold load, extra in *. rewrite decide_True in Hr by done.
    simpl in Hp. rewrite !length_app in Hp. lia.
  - specialize (Hr k'). unfold load, extra in *. rewrite decide_False in Hr by done. lia.
  - done.
  - apply Hid.
  - by rewrite Htot, Hc.
  - intros x. rewrite Harm, Ha. split.
    + intros [[? [k' Hk']]|(? & -> & ?)]; (split; [done|]); [|exists k; by rewrite Hbk, decide_True].
      exists k'. rewrite Hbk. destruct (decide (k' = k)) as [->|]; [apply Hidle; by left|done].
    + intros [? [k' Hk']]. rewrite Hbk in Hk'. destruct (decide (k' = k)) as [->|]; [|eauto].
      apply Hidle in Hk' as [?|[-> ?]]; eauto.
Qed.

(** The connection in hand is closed. *)
Lemma conns_ok_close s k c : conns_ok opt (Some (c, k)) s -> conns_ok opt None (close_conn s c).
Proof.
  intros [Hnd Hin Hh Hr Hid Ht Ha]. specialize (Hh c k eq_refl).
  assert (Hheld : forall x, held (Some (c, k)) x <-> x = c) by (intros x; split; [by intros [? [= -> ->]]|intros ->; by exists k]).
  assert (Hsz : (base.size (delete c (conns s)) = base.size (conns s) - 1)%nat).
  { rewrite map_size_delete, Hh. simpl. lia. }
  assert (Hpos : (0 < base.size (conns s))%nat).
  { apply Nat.neq_0_lt_0. intros H0. apply map_size_empty_inv in H0. rewrite H0 in Hh. by rewrite lookup_empty in Hh. }
  constructor; unfold bucket in *; simpl; auto; try done.
  - intros k' x. rewrite Hin, lookup_delete_Some, Hheld. split.
    + intros [? ?]. repeat split; [congruence|done|by intros [? ?]].
    + intros [[? ?] _]. split; congruence.
  - intros k'. specialize (Hr k'). unfold extra in *. destruct (decide _); lia.
  - rewrite Ht. destruct (0 <? _) eqn:E; lia.
Qed.
End Hand.

(** ** Requests *)

Definition opens (x : option request_t) (k : origin) : Z := if decide (x = Some (ROpening k)) then 1 else 0.

Definition count_opening (k : origin) (R : gmap req_id request_t) : Z :=
  Z.of_nat (base.size (filter (fun p : req_id * request_t => p.2 = ROpening k) R)).

(** The origin whose bucket a suspended request refers to. *)
Definition origin_of (x : request_t) : option origin :=
  match x with ROpening k | RParked k | RWoken k _ => Some k | RHolding _ => None end.

(** The [opening] counters count the requests that are opening; a queue
    holds exactly the parked requests, once each; they are the ones with a
    timer; and the bucket a suspended request points to exists. *)
Record reqs_ok (opt : client_options_t) (s : pool_t) : Prop := {
  ro_opening k : opening (bucket s k) = count_opening k (requests s);
  ro_nodup k : NoDup (waiters (bucket s k));
  ro_parked k r : r ∈ waiters (bucket s k) <-> requests s !! r = Some (RParked k);
  ro_armed r : r ∈ wait_armed s <-> 0 < pool_wait_timeout opt /\ exists k, requests s !! r = Some (RParked k);
  ro_bucket r x k : requests s !! r = Some x -> origin_of x = Some k -> is_Some (buckets s !! k)
}.

Definition put_request (r : req_id) (y : option request_t) (R : gmap req_id request_t) : gmap req_id request_t :=
  partial_alter (fun _ => y) r R.

Lemma put_lookup r y R r' : put_request r y R !! r' = if decide (r' = r) then y else R !! r'.
Proof.
  unfold put_request. destruct (decide (r' = r)) as [->|]; [by rewrite lookup_partial_alter_eq|by rewrite lookup_partial_alter_ne].
Qed.

Lemma count_put k r y R :
  count_opening k (put_request r y R) = count_opening k R + opens y k - opens (R !! r) k.
Proof.
  assert (Hd : count_opening k (delete r R) = count_opening k R - opens (R !! r) k).
  { unfold count_opening, opens. rewrite map_filter_delete, map_size_delete.
    destruct (decide (R !! r = Some (ROpening k))) as [E|E].
    - assert (Hin : filter (fun p : req_id * request_t => p.2 = ROpening k) R !! r = Some (ROpening k)) by by apply map_lookup_filter_Some.
      rewrite Hin. assert (base.size (filter (fun p : req_id * request_t => p.2 = ROpening k) R) <> 0%nat); [|simpl; lia].
      intros H0. apply map_size_empty_inv in H0. rewrite H0 in Hin. by rewrite lookup_empty in Hin.
    - destruct (filter _ R !! r) eqn:E2; simpl; [|lia].
      apply map_lookup_filter_Some in E2 as [? ?]. simpl in *. subst. done. }
  destruct y as [y|].
  - change (put_request r (Some y) R) with (<[r := y]> R). rewrite <- (insert_delete_eq R r y).
    unfold count_opening in *. destruct (decide (y = ROpening k)) as [->|Hne].
    + rewrite map_filter_insert_True by done. rewrite map_size_insert_None.
      * unfold opens at 1. rewrite decide_True by done. lia.
      * apply map_lookup_filter_None. left. by rewrite lookup_delete_eq.
    + rewrite map_filter_insert_False by done. rewrite delete_delete_eq. unfold opens at 1. rewrite decide_False by congruence. lia.
  - change (put_request r None R) with (delete r R). rewrite Hd. unfold opens at 2. rewrite decide_False by done. lia.
Qed.

(** One request moves from a state to another, with its traces in the
    counters, the queues and the timers. *)
Lemma reqs_ok_change opt s s' r y :
  reqs_ok opt s -> requests s' = put_request r y (requests s) ->
  (forall k, opening (bucket s' k) = opening (bucket s k) + opens y k - opens (requests s !! r) k) ->
  (forall k, NoDup (waiters (bucket s' k))) ->
  (forall k r', r' ∈ waiters (bucket s' k) <-> if decide (r' = r) then y = Some (RParked k) else r' ∈ waiters (bucket s k)) ->
  (forall r', r' ∈ wait_armed s' <->
     if decide (r' = r) then 0 < pool_wait_timeout opt /\ exists k, y = Some (RParked k) else r' ∈ wait_armed s) ->
  (forall k, is_Some (buckets s !! k) \/ (exists x, y = Some x /\ origin_of x = Some k) -> is_Some (buckets s' !! k)) ->
  reqs_ok opt s'.
Proof.
  intros [Ho Hn Hp Ha Hb] HR Ho' Hn' Hp' Ha' Hb'. constructor.
  - intros k. rewrite Ho', HR, count_put, Ho. done.
  - done.
  - intros k r'. rewrite Hp', HR, put_lookup. destruct (decide (r' = r)); [done|apply Hp].
  - intros r'. rewrite Ha', HR. setoid_rewrite put_lookup. destruct (decide (r' = r)); [done|apply Ha].
  - intros r' x k. rewrite HR, put_lookup. destruct (decide (r' = r)); intros Hx Hk; apply Hb'; eauto.
Qed.

(** ** Ownership *)

(** The connection a request was lent. *)
Definition conn_of (x : option request_t) : option conn_id :=
  match x with
  | Some (RHolding c) | Some (RWoken _ (Granted (Some c))) => Some c
  | _ => None
  end.

Definition busy_of (s : pool_t) (c : conn_id) : Prop := exists k, c ∈ busy (bucket s k).

(** A lent connection is busy and lent to one request only; unless woken
    requests can be destroyed, a busy connection is lent to somebody. *)
Record own_ok (kill : bool) (B : conn_id -> Prop) (R : gmap req_id request_t) : Prop := {
  ow_busy r c : conn_of (R !! r) = Some c -> B c;
  ow_inj r r' c : conn_of (R !! r) = Some c -> conn_of (R !! r') = Some c -> r = r';
  ow_all : kill = false -> forall c, B c -> exists r, conn_of (R !! r) = Some c
}.

Lemma own_ok_change kill B B' R r y :
  own_ok kill B R ->
  (forall c, B' c <-> (B c /\ conn_of (R !! r) <> Some c) \/ conn_of y = Some c) ->
  (forall c, conn_of y = Some c -> ~ B c \/ conn_of (R !! r) = Some c) ->
  own_ok kill B' (put_request r y R).
Proof.
  intros [Hb Hi Ha] HB Hy. constructor.
  - intros r' c. rewrite put_lookup, HB. destruct (decide (r' = r)) as [->|Hne]; [by right|].
    intros Hc. left. split; [eauto|]. intros Hr. apply Hne. eauto.
  - intros r1 r2 c. rewrite !put_lookup. destruct (decide (r1 = r)) as [->|H1], (decide (r2 = r)) as [->|H2]; eauto.
    + intros Hc1 Hc2. destruct (Hy _ Hc1) as [Hn|Hr]; [by destruct Hn; eauto|eauto].
    + intros Hc1 Hc2. destruct (Hy _ Hc2) as [Hn|Hr]; [by destruct Hn; eauto|eauto].
  - intros Hk c. rewrite HB. intros [[Hc Hr]|Hc].
    + destruct (Ha Hk c Hc) as [r' Hr']. exists r'. rewrite put_lookup. by destruct (decide (r' = r)) as [->|].
    + exists r. by rewrite put_lookup, decide_True.
Qed.

(** Without [ow_all] a request may vanish with its connection. *)
Lemma own_ok_lose B R r : own_ok true B R -> own_ok true B (put_request r None R).
Proof.
  intros [Hb Hi Ha]. constructor; [| |done].
  - intros r' c. rewrite put_lookup. destruct (decide _); [done|eauto].
  - intros r1 r2 c. rewrite !put_lookup. destruct (decide _); [done|]. destruct (decide (r2 = r)); [done|eauto].
Qed.

Lemma own_ok_ext kill B B' R : (forall c, B' c <-> B c) -> own_ok kill B R -> own_ok kill B' R.
Proof. intros H [Hb Hi Ha]. constructor; [intros *; rewrite H; eauto|eauto|]. intros Hk c. rewrite H. eauto. Qed.

(** ** The invariant *)

Definition options_ok (opt : client_options_t) : Prop :=
  0 <= max_conns_per_host opt < 2 ^ 32 /\ 0 <= max_idle_per_host opt.

Record pool_ok (opt : client_options_t) (kill : bool) (s : pool_t) : Prop := {
  po_conns : conns_ok opt None s;
  po_reqs : reqs_ok opt s;
  po_own : own_ok kill (busy_of s) (requests s)
}.

(** Moves of connections between idle lists and the outside leave the
    queues, the counters and the requests alone. *)
Record same_queues (s s' : pool_t) : Prop := {
  sq_requests : requests s' = requests s;
  sq_armed : wait_armed s' = wait_armed s;
  sq_waiters k : waiters (bucket s' k) = waiters (bucket s k);
  sq_opening k : opening (bucket s' k) = opening (bucket s k);
  sq_dom k : is_Some (buckets s !! k) -> is_Some (buckets s' !! k)
}.

#[global] Instance same_queues_preorder : PreOrder same_queues.
Proof.
  split.
  - intros s. by constructor.
  - intros s1 s2 s3 [] []. constructor; try congruence; auto.
Qed.

Lemma same_queues_set s k b :
  waiters b = waiters (bucket s k) -> opening b = opening (bucket s k) -> same_queues s (set_bucket s k b).
Proof.
  intros Hw Ho. constructor; try done; intros k'; rewrite ?bucket_set; try (by destruct (decide (k' = k)) as [->|]).
  intros H. simpl. apply lookup_insert_is_Some'. by right.
Qed.

Lemma reqs_ok_same opt s s' : same_queues s s' -> reqs_ok opt s -> reqs_ok opt s'.
Proof.
  intros [HR Ha Hw Ho Hd] []. constructor; intros *; rewrite ?HR, ?Ha, ?Hw, ?Ho; auto. intros ? ?. eauto.
Qed.

Lemma busy_of_set s k b x :
  busy_of (set_bucket s k b) x <-> x ∈ busy b \/ exists k', k' <> k /\ x ∈ busy (bucket s k').
Proof.
  unfold busy_of. split.
  - intros [k' Hk']. rewrite bucket_set in Hk'. destruct (decide (k' = k)); eauto.
  - intros [Hx|(k' & Hne & Hx)]; [exists k; by rewrite bucket_set, decide_True|exists k'; by rewrite bucket_set, decide_False].
Qed.

Lemma busy_of_split s k x : busy_of s x <-> x ∈ busy (bucket s k) \/ exists k', k' <> k /\ x ∈ busy (bucket s k').
Proof.
  unfold busy_of. split; [|naive_solver]. intros [k' H]. destruct (decide (k' = k)) as [->|]; eauto.
Qed.

(** Pushing onto a busy list. *)
Lemma busy_of_push s k c x :
  busy_of (set_bucket s k (set_busy (bucket s k) (busy (bucket s k) ++ [c]))) x <-> busy_of s x \/ x = c.
Proof.
  rewrite busy_of_set, (busy_of_split s k). simpl. rewrite elem_of_app, list_elem_of_singleton. tauto.
Qed.

Lemma busy_of_same s k b x : busy b = busy (bucket s k) -> busy_of (set_bucket s k b) x <-> busy_of s x.
Proof. intros H. by rewrite busy_of_set, (busy_of_split s k), H. Qed.

Section Steps.
Context (opt : client_options_t) (Hopt : options_ok opt).

Lemma conns_ok_busy h s k c : conns_ok opt h s -> conns s !! c = Some k -> busy_of s c -> c ∈ busy (bucket s k).
Proof.
  intros H Hc [k' Hk']. assert (conns s !! c = Some k'); [|congruence].
  apply (co_in _ _ _ H k' c). apply elem_of_app. by right.
Qed.

Lemma conns_ok_hand_idle s k c : conns_ok opt (Some (c, k)) s -> ~ busy_of s c.
Proof.
  intros H [k' Hk']. assert (Hn : ~ held (Some (c, k)) c); [|destruct Hn; by exists k].
  apply (co_in _ _ _ H k' c). apply elem_of_app. by right.
Qed.

(** The connection in hand is lent. *)
Lemma lend_ok s k c :
  conns_ok opt (Some (c, k)) s ->
  conns_ok opt None (set_bucket s k (set_busy (bucket s k) (busy (bucket s k) ++ [c]))).
Proof.
  intros H. assert (Hc : c ∉ idle (bucket s k)).
  { intros Hc. assert (Hn : ~ held (Some (c, k)) c); [|destruct Hn; by exists k].
    apply (co_in _ _ _ H k c). apply elem_of_app. by left. }
  eapply conns_ok_put; [done|simpl| | |intros k'; apply bucket_set|..]; simpl; try done.
  - by rewrite app_assoc, <- Permutation_cons_append.
  - apply (co_idle _ _ _ H).
  - naive_solver.
  - naive_solver.
Qed.

(** The connection in hand is parked. *)
Lemma park_ok s k c :
  conns_ok opt (Some (c, k)) s -> Z.of_nat (length (idle (bucket s k))) < max_idle_per_host opt ->
  conns_ok opt None (set_bucket (arm_idle opt s c) k
    (set_idle (bucket (arm_idle opt s c) k) (idle (bucket (arm_idle opt s c) k) ++ [c]))).
Proof.
  intros H Hlt. assert (Hb : forall k', bucket (arm_idle opt s c) k' = bucket s k') by (intros; unfold arm_idle; by destruct (0 <? _)).
  rewrite Hb. apply (conns_ok_put opt s _ k c (set_idle (bucket s k) (idle (bucket s k) ++ [c]))); simpl; try done.
  - rewrite <- app_assoc. simpl. symmetry. apply Permutation_middle.
  - rewrite length_app. simpl. lia.
  - intros k'. by rewrite bucket_set, Hb.
  - unfold arm_idle. by destruct (0 <? _).
  - unfold arm_idle. by destruct (0 <? _).
  - intros x. unfold arm_idle. destruct (0 <? idle_timeout opt) eqn:E; simpl.
    + assert (0 < idle_timeout opt) by lia. rewrite elem_of_union, elem_of_singleton, elem_of_app, list_elem_of_singleton. tauto.
    + assert (~ 0 < idle_timeout opt) by lia. tauto.
  - intros x. rewrite !elem_of_app, !list_elem_of_singleton. naive_solver.
Qed.

(** Detaching from a busy list. *)
Lemma detach_busy_ok s k c l :
  conns_ok opt None s -> detach (busy (bucket s k)) c = Some l ->
  conns_ok opt (Some (c, k)) (set_bucket s k (set_busy (bucket s k) l)).
Proof.
  intros H Hd. apply detach_perm in Hd. pose proof (co_nodup _ _ _ H k) as Hnd.
  assert (Hc : c ∉ idle (bucket s k)).
  { intros Hi. apply NoDup_app in Hnd as (_ & Hdis & _). apply (Hdis c Hi). rewrite <- Hd. by left. }
  assert (Ha : c ∉ idle_armed s).
  { rewrite (co_armed _ _ _ H). intros [_ [k' Hk']].
    assert (H1 : conns s !! c = Some k') by (apply (co_in _ _ _ H); apply elem_of_app; by left).
    assert (H2 : conns s !! c = Some k) by (apply (co_in _ _ _ H); apply elem_of_app; right; rewrite <- Hd; by left).
    congruence. }
  apply (conns_ok_take opt s _ k c (set_busy (bucket s k) l)); simpl; try done.
  - rewrite <- Hd. apply Permutation_middle.
  - intros x. split; [intros Hx; split; [done|by intros ->]|tauto].
  - intros k'. apply bucket_set.
  - intros x. split; [intros Hx; split; [done|by intros ->]|tauto].
Qed.

Lemma detach_busy_of s k c l x :
  conns_ok opt None s -> detach (busy (bucket s k)) c = Some l ->
  busy_of (set_bucket s k (set_busy (bucket s k) l)) x <-> busy_of s x /\ x <> c.
Proof.
  intros H Hd. pose proof (conns_ok_hand_idle _ _ _ (detach_busy_ok _ _ _ _ H Hd)) as Hn.
  apply detach_perm in Hd. rewrite (busy_of_split s k), <- Hd, elem_of_cons.
  rewrite busy_of_set in Hn |- *. simpl in *. destruct (decide (x = c)) as [->|]; tauto.
Qed.

(** Taking the newest idle connection. *)
Lemma take_idle_ok s k c l :
  conns_ok opt None s -> c :: l ≡ₚ idle (bucket s k) ->
  conns_ok opt (Some (c, k)) (cancel_idle (set_bucket s k (set_idle (bucket s k) l)) c).
Proof.
  intros H Hp. pose proof (co_nodup _ _ _ H k) as Hnd. apply NoDup_app in Hnd as (Hnd & _ & _).
  rewrite <- Hp in Hnd. apply NoDup_cons in Hnd as [Hc _].
  apply (conns_ok_take opt s _ k c (set_idle (bucket s k) l)); simpl; try done.
  - by rewrite <- Hp.
  - intros x. rewrite <- Hp, elem_of_cons. split; [intros Hx; split; [by right|by intros ->]|tauto].
  - apply Permutation_length in Hp. simpl in *. lia.
  - intros k'. apply bucket_set.
  - intros x. rewrite elem_of_difference, elem_of_singleton. done.
Qed.

Lemma close_frame s c : same_queues s (close_conn s c) /\ (forall x, busy_of (close_conn s c) x <-> busy_of s x).
Proof. split; [by constructor|done]. Qed.

Lemma idle_loop_ok ok k fuel : forall s s' got,
  conns_ok opt None s -> (length (idle (bucket s k)) <= fuel)%nat -> idle_loop fuel ok s k = (s', got) ->
  conns_ok opt None s' /\ same_queues s s' /\
  match got with
  | Some c => ~ busy_of s c /\ forall x, busy_of s' x <-> busy_of s x \/ x = c
  | None => idle (bucket s' k) = [] /\ forall x, busy_of s' x <-> busy_of s x
  end.
Proof.
  induction fuel as [|fuel IH]; intros s s' got H Hlen; simpl.
  - intros [= <- <-]. destruct (idle (bucket s k)) eqn:E; simpl in *; [|lia]. done.
  - destruct (last (idle (bucket s k))) as [c|] eqn:El.
    2:{ intros [= <- <-]. apply last_None in El. done. }
    apply last_Some in El as [l El]. rewrite El, removelast_last.
    set (s1 := cancel_idle (set_bucket s k (set_idle (bucket s k) l)) c).
    assert (H1 : conns_ok opt (Some (c, k)) s1) by (apply take_idle_ok; [done|by rewrite El, <- Permutation_cons_append]).
    assert (Hq : same_queues s s1) by (transitivity (set_bucket s k (set_idle (bucket s k) l)); [by apply same_queues_set|done]).
    assert (Hb : forall x, busy_of s1 x <-> busy_of s x) by (intros x; by apply busy_of_same).
    destruct (ok c); simpl.
    + intros [= <- <-]. split; [by apply lend_ok|]. split; [etransitivity; [done|by apply same_queues_set]|].
      split; [rewrite <- Hb; by eapply conns_ok_hand_idle|]. intros x. by rewrite busy_of_push, Hb.
    + intros Hl. apply IH in Hl as (? & ? & Hg); [|by eapply conns_ok_close|].
      2:{ subst s1. unfold bucket at 1. simpl. rewrite lookup_insert_eq. simpl. rewrite El, length_app in Hlen. simpl in Hlen. lia. }
      split; [done|]. split; [etransitivity; [done|]; etransitivity; [apply close_frame|done]|].
      destruct got as [c'|]; (destruct Hg as [? Hg]; split; [|intros x; rewrite Hg]); try done; by rewrite <- Hb.
Qed.

(** A request without a trace in the counters and the queues. *)
Definition quiet (x : option request_t) : Prop :=
  match x with Some (ROpening _) | Some (RParked _) => False | _ => True end.

Lemma quiet_opens x k : quiet x -> opens x k = 0.
Proof. unfold opens. by destruct (decide _) as [->|]. Qed.

Lemma parked_opens k k' : opens (Some (RParked k)) k' = 0.
Proof. unfold opens. by rewrite decide_False. Qed.

Lemma quiet_waiters s r k : reqs_ok opt s -> quiet (requests s !! r) -> r ∉ waiters (bucket s k).
Proof. intros H Hq Hr. apply (ro_parked _ _ H) in Hr. by rewrite Hr in Hq. Qed.

Lemma quiet_armed s r : reqs_ok opt s -> quiet (requests s !! r) -> r ∉ wait_armed s.
Proof. intros H Hq Hr. apply (ro_armed _ _ H) in Hr as [_ [k Hr]]. by rewrite Hr in Hq. Qed.

Definition with_request (s : pool_t) (r : req_id) (y : option request_t) : pool_t :=
  mk_pool (buckets s) (conns s) (total_ s) (idle_armed s) (wait_armed s) (put_request r y (requests s)).

Lemma reqs_quiet s r y :
  reqs_ok opt s -> quiet (requests s !! r) -> quiet y ->
  (forall x k, y = Some x -> origin_of x = Some k -> is_Some (buckets s !! k)) -> reqs_ok opt (with_request s r y).
Proof.
  intros H Hx Hy Ho. apply (reqs_ok_change opt s _ r y); simpl; auto.
  - intros k. rewrite !quiet_opens by done. unfold bucket. simpl. lia.
  - intros k. apply (ro_nodup _ _ H).
  - intros k r'. destruct (decide (r' = r)) as [->|]; [|done].
    split; [intros Hr; by apply (quiet_waiters s r k) in Hr|]. by intros ->.
  - intros r'. destruct (decide (r' = r)) as [->|]; [|done].
    split; [intros Hr; by apply (quiet_armed s r) in Hr|]. by intros [_ [k ->]].
  - intros k [?|(x & -> & Hx')]; eauto.
Qed.

Lemma conns_ok_with_request h s r y : conns_ok opt h s -> conns_ok opt h (with_request s r y).
Proof. intros []. by constructor. Qed.

(** An opening slot is taken. *)
Lemma start_opening_ok s r k :
  reqs_ok opt s -> conns_ok opt None s -> quiet (requests s !! r) -> is_Some (buckets s !! k) ->
  load (bucket s k) < max_conns_per_host opt ->
  let s' := set_request (set_bucket s k (set_opening (bucket s k) (u32 (opening (bucket s k) + 1)))) r (ROpening k) in
  reqs_ok opt s' /\ conns_ok opt None s' /\ (forall x, busy_of s' x <-> busy_of s x).
Proof.
  intros HR HC Hq Hk Hl s'.
  assert (Hu : u32 (opening (bucket s k) + 1) = opening (bucket s k) + 1).
  { unfold load in Hl. rewrite (ro_opening _ _ HR k) in *. destruct Hopt. apply Z.mod_small. unfold count_opening in *. lia. }
  assert (Hbk : forall k', bucket s' k' = if decide (k' = k) then set_opening (bucket s k) (opening (bucket s k) + 1) else bucket s k').
  { intros k'. subst s'. rewrite Hu. apply bucket_set. }
  split; [|split].
  - apply (reqs_ok_change opt s s' r (Some (ROpening k))); [done|done|..].
    + intros k'. rewrite Hbk, (quiet_opens (requests s !! r)) by done. unfold opens.
      destruct (decide (k' = k)) as [->|]; [rewrite decide_True by done|rewrite decide_False by congruence]; simpl; lia.
    + intros k'. rewrite Hbk. destruct (decide _) as [->|]; apply (ro_nodup _ _ HR).
    + intros k' r'. rewrite Hbk. destruct (decide (r' = r)) as [->|]; destruct (decide (k' = k)) as [->|]; simpl; try done;
        (split; [intros Hr; by apply (quiet_waiters s r) in Hr|done]).
    + intros r'. simpl. destruct (decide (r' = r)) as [->|]; [|done].
      split; [intros Hr; by apply (quiet_armed s r) in Hr|by intros [_ [? ?]]].
    + intros k' Hk'. simpl. apply lookup_insert_is_Some'. destruct Hk' as [?|(x & [= <-] & [= <-])]; [by right|by left].
  - apply (conns_ok_ext opt None s); try done; intros k'; rewrite Hbk; destruct (decide (k' = k)) as [->|]; try done.
    + unfold load in *. simpl. lia.
    + apply (co_room _ _ _ HC).
  - intros x. by apply (busy_of_same s k).
Qed.

(** The slot is given back. *)
Lemma end_opening_ok s r k y :
  reqs_ok opt s -> conns_ok opt None s -> requests s !! r = Some (ROpening k) -> quiet y ->
  (forall x, y = Some x -> origin_of x = None) ->
  let s' := with_request (set_bucket s k (set_opening (bucket s k) (u32 (opening (bucket s k) - 1)))) r y in
  u32 (opening (bucket s k) - 1) = opening (bucket s k) - 1 /\ reqs_ok opt s'.
Proof.
  intros HR HC Hr Hy Ho s'.
  assert (Hpos : 1 <= opening (bucket s k)).
  { rewrite (ro_opening _ _ HR). pose proof (count_put k r None (requests s)) as Hc. rewrite Hr in Hc. unfold opens in Hc.
    rewrite decide_False, decide_True in Hc by done. unfold count_opening in *. lia. }
  assert (Hu : u32 (opening (bucket s k) - 1) = opening (bucket s k) - 1).
  { pose proof (co_room _ _ _ HC k) as Hl. unfold load, extra in Hl. destruct Hopt. apply Z.mod_small. lia. }
  split; [done|]. assert (Hbk : forall k', bucket s' k' = if decide (k' = k) then set_opening (bucket s k) (opening (bucket s k) - 1) else bucket s k').
  { intros k'. subst s'. rewrite Hu. apply bucket_set. }
  assert (Hnp : forall k', y <> Some (RParked k')) by (intros k' ->; done).
  apply (reqs_ok_change opt s s' r y); [done|done|..].
  - intros k'. rewrite Hbk, Hr, (quiet_opens y) by done. unfold opens.
    destruct (decide (k' = k)) as [->|]; [rewrite decide_True by done|rewrite decide_False by congruence]; simpl; lia.
  - intros k'. rewrite Hbk. destruct (decide _) as [->|]; apply (ro_nodup _ _ HR).
  - intros k' r'. rewrite Hbk. destruct (decide (r' = r)) as [->|]; destruct (decide (k' = k)) as [->|]; simpl; try done;
      (split; [intros Hw; apply (ro_parked _ _ HR) in Hw; congruence|intros ->; by destruct (Hnp _ eq_refl)]).
  - intros r'. simpl. destruct (decide (r' = r)) as [->|]; [|done].
    split; [intros Hw; apply (ro_armed _ _ HR) in Hw as [_ [? ?]]; congruence|intros [_ [? ->]]; by destruct (Hnp _ eq_refl)].
  - intros k' Hk'. simpl. apply lookup_insert_is_Some'. right. destruct Hk' as [?|(x & -> & Hx)]; [done|].
    by rewrite Ho in Hx.
Qed.

(** A request parks. *)
Lemma await_suspend_ok s r k :
  reqs_ok opt s -> conns_ok opt None s -> quiet (requests s !! r) ->
  let s' := await_suspend opt s r k in
  reqs_ok opt s' /\ conns_ok opt None s' /\ (forall x, busy_of s' x <-> busy_of s x).
Proof.
  intros HR HC Hq s'.
  assert (Hbk : forall k', bucket s' k' = if decide (k' = k) then set_waiters (bucket s k) (waiters (bucket s k) ++ [r]) else bucket s k').
  { intros k'. subst s'. unfold await_suspend. destruct (0 <? _); apply bucket_set. }
  assert (Hw : requests s' = put_request r (Some (RParked k)) (requests s) /\ buckets s' = <[k := set_waiters (bucket s k) (waiters (bucket s k) ++ [r])]> (buckets s)
     /\ conns s' = conns s /\ total_ s' = total_ s /\ idle_armed s' = idle_armed s).
  { subst s'. unfold await_suspend. by destruct (0 <? _). }
  destruct Hw as (HRq & HB & Hc & Ht & Hi). split; [|split].
  - apply (reqs_ok_change opt s s' r (Some (RParked k))); [done|done|..].
    + intros k'. rewrite Hbk, (quiet_opens (requests s !! r)), parked_opens by done.
      destruct (decide (k' = k)) as [->|]; simpl; lia.
    + intros k'. rewrite Hbk. destruct (decide _) as [->|]; [|apply (ro_nodup _ _ HR)]. simpl. apply NoDup_app. split; [apply (ro_nodup _ _ HR)|].
      split; [|apply NoDup_singleton]. intros x Hx Hx'. apply list_elem_of_singleton in Hx' as ->. by apply (quiet_waiters s r) in Hx.
    + intros k' r'. rewrite Hbk. destruct (decide (k' = k)) as [->|]; simpl; rewrite ?elem_of_app, ?list_elem_of_singleton;
        destruct (decide (r' = r)) as [->|]; try tauto.
      split; [intros Hr; by apply (quiet_waiters s r) in Hr|congruence].
    + intros r'. subst s'. unfold await_suspend. destruct (0 <? pool_wait_timeout opt) eqn:E; simpl.
      * rewrite elem_of_union, elem_of_singleton. destruct (decide (r' = r)); [|tauto]. split; [intros _; split; [lia|eauto]|by left].
      * destruct (decide (r' = r)) as [->|]; [|done]. split; [intros Hr; by apply (quiet_armed s r) in Hr|lia].
    + intros k' Hk'. rewrite HB. apply lookup_insert_is_Some'. destruct Hk' as [?|(x & [= <-] & [= <-])]; [by right|by left].
  - apply (conns_ok_ext opt None s); try done; intros k'; rewrite Hbk; destruct (decide (k' = k)) as [->|]; try done;
      apply (co_room _ _ _ HC).
  - intros x. unfold busy_of. setoid_rewrite Hbk. split; intros [k' Hk']; exists k'; by destruct (decide (k' = k)) as [->|].
Qed.

(** A parked request leaves the queue. *)
Lemma unpark_ok h s r k l y :
  reqs_ok opt s -> conns_ok opt h s -> requests s !! r = Some (RParked k) ->
  NoDup l -> (forall x, x ∈ l <-> x ∈ waiters (bucket s k) /\ x <> r) -> quiet y ->
  (forall x k', y = Some x -> origin_of x = Some k' -> k' = k) ->
  let s' := with_request (cancel_wait (set_bucket s k (set_waiters (bucket s k) l)) r) r y in
  reqs_ok opt s' /\ conns_ok opt h s' /\ (forall x, busy_of s' x <-> busy_of s x).
Proof.
  intros HR HC Hr Hnd Hl Hy Ho s'.
  assert (Hbk : forall k', bucket s' k' = if decide (k' = k) then set_waiters (bucket s k) l else bucket s k')
    by (intros k'; apply bucket_set).
  assert (Hnp : forall k', y <> Some (RParked k')) by (intros k' ->; done).
  split; [|split].
  - apply (reqs_ok_change opt s s' r y); [done|done|..].
    + intros k'. rewrite Hbk, Hr, (quiet_opens y), parked_opens by done.
      destruct (decide (k' = k)) as [->|]; simpl; lia.
    + intros k'. rewrite Hbk. destruct (decide _) as [->|]; [done|apply (ro_nodup _ _ HR)].
    + intros k' r'. rewrite Hbk. destruct (decide (k' = k)) as [->|]; simpl; rewrite ?Hl;
        destruct (decide (r' = r)) as [->|]; try tauto.
      * split; [tauto|intros E; by destruct (Hnp _ E)].
      * split; [|intros E; by destruct (Hnp _ E)]. intros Hw. apply (ro_parked _ _ HR) in Hw. congruence.
    + intros r'. simpl. rewrite elem_of_difference, elem_of_singleton. destruct (decide (r' = r)) as [->|]; [|tauto].
      split; [tauto|]. intros [_ [? E]]. by destruct (Hnp _ E).
    + intros k' Hk'. simpl. apply lookup_insert_is_Some'. destruct Hk' as [?|(x & Hx & Hx')]; [by right|left]. symmetry. eauto.
  - apply (conns_ok_ext opt h s); try done; intros k'; rewrite Hbk; destruct (decide (k' = k)) as [->|]; try done;
      apply (co_room _ _ _ HC).
  - intros x. by apply (busy_of_same s k).
Qed.

Lemma own_neutral kill s s' r y :
  own_ok kill (busy_of s) (requests s) -> requests s' = put_request r y (requests s) ->
  conn_of (requests s !! r) = None -> conn_of y = None -> (forall x, busy_of s' x <-> busy_of s x) ->
  own_ok kill (busy_of s') (requests s').
Proof.
  intros H -> Hr Hy HB. apply (own_ok_change kill (busy_of s)); [done| |congruence].
  intros c. rewrite HB, Hr, Hy. split; [by left|]. intros [[? _]|[=]]. done.
Qed.

Lemma acquire_turn_ok kill ok s r k :
  pool_ok opt kill s -> quiet (requests s !! r) -> conn_of (requests s !! r) = None -> is_Some (buckets s !! k) ->
  pool_ok opt kill (acquire_turn opt ok s r k).
Proof.
  intros [HC HR HO] Hq Hr Hk. unfold acquire_turn. destruct (idle_loop _ _ _ _) as [s' got] eqn:El.
  apply idle_loop_ok in El as (HC' & HQ & Hg); [|done|done].
  assert (HR' : reqs_ok opt s') by by eapply reqs_ok_same.
  rewrite <- (sq_requests _ _ HQ) in HO, Hq, Hr. pose proof (sq_dom _ _ HQ k Hk) as Hk'.
  destruct got as [c|].
  - destruct Hg as [Hnb Hb]. constructor.
    + by apply (conns_ok_with_request None s' r (Some (RHolding c))).
    + apply (reqs_quiet s' r (Some (RHolding c))); [done..|by intros ? ? [= <-]].
    + apply (own_ok_change kill (busy_of s)); [done| |intros x [= <-]; by left].
      intros x. change (busy_of (set_request s' r (RHolding c)) x) with (busy_of s' x). rewrite Hr, Hb. simpl. naive_solver.
  - destruct Hg as [Hi Hb]. apply (own_ok_ext _ _ (busy_of s')) in HO; [|done].
    destruct (_ && _) eqn:Eroom.
    + apply andb_true_iff in Eroom as [Eroom _]. destruct (start_opening_ok s' r k) as (? & ? & ?); [done..| |].
      { unfold load. rewrite Hi. simpl. lia. }
      constructor; [done|done|]. by apply (own_neutral kill s' _ r (Some (ROpening k))).
    + destruct (await_suspend_ok s' r k) as (? & ? & ?); [done..|].
      constructor; [done|done|]. apply (own_neutral kill s' _ r (Some (RParked k))); [done| |done..].
      unfold await_suspend. by destruct (0 <? _).
Qed.

Lemma wake_front_ok h s k w :
  reqs_ok opt s -> conns_ok opt h s ->
  let s' := wake_front s k w in
  reqs_ok opt s' /\ conns_ok opt h s' /\ (forall x, busy_of s' x <-> busy_of s x) /\
  match waiters (bucket s k) with
  | [] => s' = s
  | r :: _ => requests s !! r = Some (RParked k) /\ requests s' = put_request r (Some (RWoken k w)) (requests s)
  end.
Proof.
  intros HR HC. unfold wake_front. destruct (waiters (bucket s k)) as [|r rest] eqn:E; [done|].
  assert (Hr : requests s !! r = Some (RParked k)) by (apply (ro_parked _ _ HR); rewrite E; by left).
  pose proof (ro_nodup _ _ HR k) as Hnd. rewrite E in Hnd. apply NoDup_cons in Hnd as [Hn Hnd].
  destruct (unpark_ok h s r k rest (Some (RWoken k w))) as (? & ? & ?); try done.
  - intros x. rewrite E, elem_of_cons. split; [|tauto]. intros Hx. split; [by right|by intros ->].
  - by intros x k' [= <-] [= <-].
Qed.

(** A slot is announced to the oldest waiter, or a connection handed to it. *)
Lemma wake_slot_ok kill s k :
  pool_ok opt kill s -> pool_ok opt kill (wake_front s k (Granted None)).
Proof.
  intros [HC HR HO]. destruct (wake_front_ok None s k (Granted None) HR HC) as (HR' & HC' & Hb & Hm).
  destruct (waiters (bucket s k)) as [|r rest]; [by rewrite Hm|]. destruct Hm as [Hr Hm].
  constructor; [done|done|]. eapply own_neutral; [done|done|by rewrite Hr|done|done].
Qed.

Lemma grant_or_park_ok kill s k c alive :
  conns_ok opt (Some (c, k)) s -> reqs_ok opt s -> own_ok kill (busy_of s) (requests s) ->
  pool_ok opt kill (grant_or_park opt s k c alive).
Proof.
  intros HC HR HO. unfold grant_or_park.
  assert (Hclose : pool_ok opt kill (close_conn s c)).
  { constructor; [by eapply conns_ok_close|eapply reqs_ok_same; [apply (close_frame s c)|done]|done]. }
  destruct (waiters (bucket s k)) as [|r rest] eqn:E.
  - destruct (_ <=? _) eqn:Efull; [done|].
    assert (Hq : same_queues s (arm_idle opt s c)) by (unfold arm_idle; by destruct (0 <? _); constructor).
    constructor; [by apply park_ok; [|lia]| |].
    + eapply reqs_ok_same; [|done]. etransitivity; [done|]. by apply same_queues_set.
    + simpl. rewrite (sq_requests _ _ Hq). eapply own_ok_ext; [|done]. intros x. rewrite busy_of_same by done.
      unfold arm_idle. by destruct (0 <? _).
  - destruct alive; simpl; [|by apply wake_slot_ok].
    destruct (wake_front_ok _ s k (Granted (Some c)) HR HC) as (HR' & HC' & Hb & Hm). rewrite E in Hm. destruct Hm as [Hr Hm].
    set (s' := wake_front s k (Granted (Some c))) in *. constructor; [by apply lend_ok| |].
    + eapply reqs_ok_same; [|done]. by apply same_queues_set.
    + simpl. rewrite Hm. apply (own_ok_change kill (busy_of s)); [done| |].
      * intros x. rewrite busy_of_push, Hb, Hr. simpl. naive_solver.
      * intros x [= <-]. left. by eapply conns_ok_hand_idle.
Qed.

Lemma release_ok kill s r c reusable alive :
  pool_ok opt kill s -> requests s !! r = Some (RHolding c) ->
  pool_ok opt kill (release opt (end_request s r) c reusable alive).
Proof.
  intros [HC HR HO] Hr. assert (Hbc : busy_of s c) by (eapply ow_busy; [done|by rewrite Hr]).
  assert (Hk : exists k, conns s !! c = Some k).
  { destruct Hbc as [k Hk]. exists k. apply (co_in _ _ _ HC k c), elem_of_app. by right. }
  destruct Hk as [k Hk]. pose proof (conns_ok_busy None s k c HC Hk Hbc) as Hin.
  unfold release. simpl. rewrite Hk. set (s1 := bucket_for (end_request s r) k).
  assert (Hb1 : forall k', bucket s1 k' = bucket s k') by (intros k'; apply (bucket_for_bucket (end_request s r))).
  assert (HC1 : conns_ok opt None s1).
  { apply (conns_ok_ext opt None s); try done; intros k'; rewrite Hb1; try done. apply (co_room _ _ _ HC). }
  assert (HR1 : reqs_ok opt s1).
  { eapply reqs_ok_same; [by apply same_queues_set|]. apply (reqs_quiet s r None); [done|by rewrite Hr|done|done]. }
  rewrite Hb1. destruct (detach_some _ _ Hin) as [l Hl]. rewrite Hl.
  rewrite <- Hb1 in Hl |- *. pose proof (detach_busy_ok s1 k c l HC1 Hl) as HC2. set (s2 := set_bucket s1 k _) in *.
  assert (HR2 : reqs_ok opt s2) by (eapply reqs_ok_same; [|done]; by apply same_queues_set).
  assert (HO2 : own_ok kill (busy_of s2) (requests s2)).
  { apply (own_ok_change kill (busy_of s) _ (requests s) r None); [done| |done].
    intros x. unfold s2. rewrite (detach_busy_of s1 k c l) by done. unfold busy_of. setoid_rewrite Hb1. rewrite Hr. simpl. naive_solver. }
  destruct reusable; simpl; [by apply grant_or_park_ok|].
  apply wake_slot_ok. constructor; [by eapply conns_ok_close|eapply reqs_ok_same; [apply (close_frame s2 c)|done]|done].
Qed.

Lemma bucket_some s k b : buckets s !! k = Some b -> b = bucket s k.
Proof. unfold bucket. by intros ->. Qed.

(** A fresh connection is in hand, in place of an opening slot. *)
Lemma fresh_conn_ok s k c :
  conns_ok opt None s -> conns s !! c = None ->
  conns_ok opt (Some (c, k))
    (mk_pool (<[k := set_opening (bucket s k) (opening (bucket s k) - 1)]> (buckets s)) (<[c := k]> (conns s))
       (total_ s + 1) (idle_armed s) (wait_armed s) (requests s)).
Proof.
  intros [Hnd Hin Hh Hr Hid Ht Ha] Hc. set (s' := mk_pool _ _ _ _ _ _).
  assert (Hbk : forall k', bucket s' k' = if decide (k' = k) then set_opening (bucket s k) (opening (bucket s k) - 1) else bucket s k')
    by (intros k'; apply bucket_set).
  assert (Hi : forall k', idle (bucket s' k') = idle (bucket s k')) by (intros k'; rewrite Hbk; by destruct (decide _) as [->|]).
  assert (Hb : forall k', busy (bucket s' k') = busy (bucket s k')) by (intros k'; rewrite Hbk; by destruct (decide _) as [->|]).
  constructor; try (intros k'; rewrite ?Hi, ?Hb); auto.
  - intros x. rewrite Hin. simpl. rewrite lookup_insert_Some. split.
    + intros [Hx _]. split; [right; split; [congruence|done]|]. intros [? [= -> _]]. congruence.
    + intros [[[-> ->]|[Hne Hx]] Hn]; [destruct Hn; by exists k'|]. split; [done|by intros [? ?]].
  - intros k0 [= <- <-]. simpl. by rewrite lookup_insert_eq.
  - specialize (Hr k'). rewrite Hbk. unfold load, extra in *. destruct (decide (k' = k)) as [->|]; simpl; lia.
  - simpl. rewrite Ht, map_size_insert_None by done. lia.
  - simpl. rewrite Ha. setoid_rewrite Hi. done.
Qed.

Lemma open_done_ok kill s r k c s' :
  pool_ok opt kill s -> requests s !! r = Some (ROpening k) -> conns s !! c = None ->
  Z.of_nat (base.size (conns s)) < 2 ^ 32 - 1 -> open_done s r k c = Some s' -> pool_ok opt kill s'.
Proof.
  intros [HC HR HO] Hr Hc Hsz. unfold open_done, guard_exit. destruct (buckets s !! k) as [b|] eqn:Eb; [|done].
  apply bucket_some in Eb as ->. simpl. rewrite lookup_insert_eq. simpl. intros [= <-].
  destruct (end_opening_ok s r k (Some (RHolding c)) HR HC Hr) as [Hu HR']; [done|by intros x [= <-]|].
  assert (Ht : u32 (total_ s + 1) = total_ s + 1) by (rewrite (co_total _ _ _ HC); apply Z.mod_small; lia).
  assert (Hnb : ~ busy_of s c).
  { intros [k' Hk']. assert (conns s !! c = Some k') as E; [apply (co_in _ _ _ HC k' c), elem_of_app; by right|congruence]. }
  pose proof (lend_ok _ _ _ (fresh_conn_ok s k c HC Hc)) as HC'. set (s1 := mk_pool _ _ _ _ _ _) in HC'. set (s2 := set_request _ _ _).
  assert (Hb1 : forall k', bucket s1 k' = if decide (k' = k) then set_opening (bucket s k) (opening (bucket s k) - 1) else bucket s k')
    by (intros k'; apply bucket_set).
  assert (Hbk : forall k', bucket s2 k' = bucket (set_bucket s1 k (set_busy (bucket s1 k) (busy (bucket s1 k) ++ [c]))) k').
  { intros k'. rewrite bucket_set, !Hb1, (decide_True (P := k = k)) by done. etransitivity; [apply bucket_set|].
    destruct (decide (k' = k)) as [->|]; [by rewrite Hu|]. etransitivity; [apply (bucket_set s k)|by rewrite decide_False]. }
  constructor.
  - eapply conns_ok_ext; [..|exact HC']; try done; try (intros k'; by rewrite Hbk).
    intros k'. rewrite Hbk. apply (co_room _ _ _ HC').
  - eapply reqs_ok_same; [|exact HR']. constructor; try done; intros k'.
    + rewrite Hbk, bucket_set, !Hb1. change (bucket (with_request ?x _ _) k') with (bucket x k'). rewrite bucket_set.
      rewrite (decide_True (P := k = k)) by done. by destruct (decide (k' = k)).
    + rewrite Hbk, bucket_set, !Hb1. change (bucket (with_request ?x _ _) k') with (bucket x k'). rewrite bucket_set, Hu.
      rewrite (decide_True (P := k = k)) by done. by destruct (decide (k' = k)).
    + intros [z Hz]. simpl in *. apply lookup_insert_is_Some'. destruct (decide (k = k')); [by left|right]. apply lookup_insert_is_Some'.
      right. by rewrite lookup_insert_ne in Hz.
  - apply (own_ok_change kill (busy_of s) _ (requests s) r (Some (RHolding c))); [done| |intros x [= <-]; by left].
    intros x. rewrite Hr. simpl. transitivity (busy_of s x \/ x = c); [|naive_solver].
    transitivity (busy_of (set_bucket s1 k (set_busy (bucket s1 k) (busy (bucket s1 k) ++ [c]))) x).
    + unfold busy_of. by setoid_rewrite Hbk.
    + rewrite busy_of_push. pose proof (busy_of_same s k (set_opening (bucket s k) (opening (bucket s k) - 1)) x eq_refl) as Hs.
      change (busy_of s1 x) with (busy_of (set_bucket s k (set_opening (bucket s k) (opening (bucket s k) - 1))) x). by rewrite Hs.
Qed.

Lemma open_failed_ok kill s r k s' :
  pool_ok opt kill s -> requests s !! r = Some (ROpening k) -> open_failed s r k = Some s' -> pool_ok opt kill s'.
Proof.
  intros [HC HR HO] Hr. unfold open_failed, guard_exit. destruct (buckets s !! k) as [b|] eqn:Eb; [|done].
  apply bucket_some in Eb as ->. intros [= <-]. destruct (end_opening_ok s r k None HR HC Hr) as [Hu HR']; [done..|].
  constructor; [|done|].
  - apply (conns_ok_ext opt None s); try done; intros k';
      change (bucket (end_request ?x r) k') with (bucket x k'); rewrite Hu, bucket_set; destruct (decide _) as [->|]; try done.
    + pose proof (co_room _ _ _ HC k). unfold load, extra in *. simpl. lia.
    + apply (co_room _ _ _ HC).
  - apply (own_neutral kill s _ r None); try done; [by rewrite Hr|]. intros x. by apply (busy_of_same s k).
Qed.

(** The awaiter of a request that has left the queue removes nothing. *)
Lemma awaiter_exit_woken s r k :
  reqs_ok opt s -> quiet (requests s !! r) -> is_Some (buckets s !! k) ->
  exists s', awaiter_exit s r k = Some s' /\ same_queues s s' /\ (forall k', bucket s' k' = bucket s k') /\
    conns s' = conns s /\ total_ s' = total_ s /\ idle_armed s' = idle_armed s.
Proof.
  intros HR Hq [b Hb]. unfold awaiter_exit. simpl. rewrite Hb. eexists. split; [done|]. apply bucket_some in Hb as ->.
  assert (Hf : filter (fun x => x <> r) (waiters (bucket s k)) = waiters (bucket s k)).
  { apply filter_neq_id. by apply quiet_waiters. }
  rewrite Hf. assert (Hbk : forall k', bucket (set_bucket (cancel_wait s r) k (set_waiters (bucket s k) (waiters (bucket s k)))) k' = bucket s k').
  { intros k'. rewrite bucket_set. destruct (decide _) as [->|]; [by destruct (bucket s k)|done]. }
  split; [|done]. constructor; try done; try (intros k'; by rewrite Hbk).
  - simpl. pose proof (quiet_armed s r HR Hq). set_solver.
  - intros k' Hk'. simpl. apply lookup_insert_is_Some'. by right.
Qed.

Lemma resume_ok kill ok s r k w s' :
  pool_ok opt kill s -> requests s !! r = Some (RWoken k w) -> resume opt ok s r k w = Some s' -> pool_ok opt kill s'.
Proof.
  intros [HC HR HO] Hr. unfold resume.
  assert (Hq0 : same_queues s (cancel_wait s r)).
  { constructor; try done. simpl. assert (r ∉ wait_armed s) by (apply quiet_armed; [done|by rewrite Hr]). set_solver. }
  destruct (awaiter_exit_woken (cancel_wait s r) r k) as (s1 & -> & Hq & Hb & Hc & Ht & Hi).
  { by eapply reqs_ok_same. } { simpl. by rewrite Hr. } { by eapply (ro_bucket _ _ HR). }
  assert (HC1 : conns_ok opt None s1).
  { apply (conns_ok_ext opt None s); try done; intros k'; rewrite Hb; try done. apply (co_room _ _ _ HC). }
  assert (HR1 : reqs_ok opt s1) by (eapply reqs_ok_same; [|exact HR]; by etransitivity).
  assert (HRq : requests s1 = requests s) by apply (sq_requests _ _ Hq).
  assert (HO1 : own_ok kill (busy_of s1) (requests s1)).
  { rewrite HRq. eapply own_ok_ext; [|done]. intros x. unfold busy_of. by setoid_rewrite Hb. }
  assert (Hr1 : requests s1 !! r = Some (RWoken k w)) by by rewrite HRq.
  assert (Hend : quiet (requests s1 !! r)) by by rewrite Hr1.
  destruct w as [|[c|]]; intros [= <-].
  - constructor; [by apply (conns_ok_with_request None s1 r None)|by apply (reqs_quiet s1 r None)|].
    apply (own_neutral kill s1 _ r None); try done. by rewrite Hr1.
  - constructor; [by apply (conns_ok_with_request None s1 r (Some (RHolding c)))|
      apply (reqs_quiet s1 r (Some (RHolding c))); [done..|by intros ? ? [= <-]]|].
    assert (Hbc : busy_of s1 c) by (eapply ow_busy; [done|by rewrite Hr1]).
    apply (own_ok_change kill (busy_of s1) _ (requests s1) r (Some (RHolding c))); [done| |].
    + intros x. change (busy_of (set_request s1 r (RHolding c)) x) with (busy_of s1 x). rewrite Hr1. simpl.
      destruct (decide (x = c)) as [->|]; naive_solver.
    + intros x [= <-]. right. by rewrite Hr1.
  - apply acquire_turn_ok; [by constructor|done|by rewrite Hr1|].
    eapply (ro_bucket _ _ HR1); [done|done].
Qed.

Lemma acquire_ok kill ok s r k :
  pool_ok opt kill s -> requests s !! r = None -> pool_ok opt kill (acquire opt ok s r k).
Proof.
  intros [HC HR HO] Hr. unfold acquire.
  apply acquire_turn_ok; [|by simpl; rewrite Hr|by simpl; rewrite Hr|simpl; apply lookup_insert_is_Some'; by left].
  constructor.
  - apply (conns_ok_ext opt None s); try done; intros k'; rewrite bucket_for_bucket; try done. apply (co_room _ _ _ HC).
  - eapply reqs_ok_same; [|done]. by apply same_queues_set.
  - simpl. eapply own_ok_ext; [|done]. intros x. unfold busy_of. by setoid_rewrite bucket_for_bucket.
Qed.

Lemma on_idle_expired_ok kill s c :
  pool_ok opt kill s -> c ∈ idle_armed s -> pool_ok opt kill (on_idle_expired s c).
Proof.
  intros [HC HR HO] Ha. unfold on_idle_expired, drop_idle.
  apply (co_armed _ _ _ HC) in Ha as [_ [k Hk]].
  assert (Hc : conns s !! c = Some k) by (apply (co_in _ _ _ HC), elem_of_app; by left).
  simpl. rewrite Hc. set (s1 := bucket_for (cancel_idle s c) k).
  assert (Hb1 : forall k', bucket s1 k' = bucket s k') by (intros k'; apply (bucket_for_bucket (cancel_idle s c))).
  destruct (detach_some _ _ Hk) as [l Hl]. rewrite Hb1, Hl. pose proof (detach_perm _ _ _ Hl) as Hp.
  pose proof (take_idle_ok s k c l HC Hp) as HC2. set (s2 := set_bucket s1 k (set_idle (bucket s k) l)).
  assert (Hb2 : forall k', bucket s2 k' = bucket (cancel_idle (set_bucket s k (set_idle (bucket s k) l)) c) k').
  { intros k'. unfold s2. rewrite bucket_set, Hb1. symmetry. apply (bucket_set s k). }
  assert (HC3 : conns_ok opt (Some (c, k)) s2).
  { eapply conns_ok_ext; [..|exact HC2]; try done; intros k'; rewrite Hb2; try done. apply (co_room _ _ _ HC2). }
  constructor; [by eapply conns_ok_close| |].
  - eapply reqs_ok_same; [|exact HR]. etransitivity; [|apply (close_frame s2 c)]. transitivity s1.
    + transitivity (cancel_idle s c); [done|]. by apply same_queues_set.
    + apply same_queues_set; by rewrite Hb1.
  - simpl. eapply own_ok_ext; [|done]. intros x. change (busy_of (close_conn s2 c) x) with (busy_of s2 x).
    unfold s2. rewrite (busy_of_same s1 k) by by rewrite Hb1. unfold busy_of. by setoid_rewrite Hb1.
Qed.

(** The queue of the bucket loses [r], by whichever way it is removed. *)
Lemma filter_unpark s r k y :
  reqs_ok opt s -> conns_ok opt None s -> requests s !! r = Some (RParked k) -> quiet y ->
  (forall x k', y = Some x -> origin_of x = Some k' -> k' = k) -> forall kill,
  own_ok kill (busy_of s) (requests s) -> conn_of y = None ->
  pool_ok opt kill (with_request (cancel_wait (set_bucket s k
    (set_waiters (bucket s k) (filter (fun x => x <> r) (waiters (bucket s k))))) r) r y).
Proof.
  intros HR HC Hr Hy Ho kill HO Hcy.
  destruct (unpark_ok None s r k (filter (fun x => x <> r) (waiters (bucket s k))) y) as (? & ? & ?); try done.
  - apply NoDup_filter, (ro_nodup _ _ HR).
  - intros x. apply filter_neq_elem.
  - constructor; [done|done|]. eapply own_neutral; [done|done|by rewrite Hr|done|done].
Qed.

Lemma on_wait_expired_ok kill s r : pool_ok opt kill s -> pool_ok opt kill (on_wait_expired s r).
Proof.
  intros HP. pose proof HP as [HC HR HO]. unfold on_wait_expired. destruct (requests s !! r) as [[k|k|k w|c]|] eqn:Hr; try done.
  apply (filter_unpark s r k (Some (RWoken k Expired))); try done. by intros x k' [= <-] [= <-].
Qed.

Lemma destroy_ok kill s r x s' :
  pool_ok opt kill s -> requests s !! r = Some x -> (forall k w, x = RWoken k w -> kill = true) ->
  destroy_frame s r = Some s' -> pool_ok opt kill s'.
Proof.
  intros HP Hr Hx. pose proof HP as [HC HR HO]. unfold destroy_frame. rewrite Hr.
  destruct x as [k|k|k w|c]; [by apply open_failed_ok| | |by intros [= <-]].
  - unfold awaiter_exit. simpl. destruct (buckets s !! k) as [b|] eqn:Eb; [|done]. apply bucket_some in Eb as ->. intros [= <-].
    by apply (filter_unpark s r k None).
  - destruct (awaiter_exit_woken s r k) as (s1 & -> & Hq & Hb & Hc & Ht & Hi);
      [done|by rewrite Hr|by eapply (ro_bucket _ _ HR)|]. intros [= <-]. constructor.
    + apply (conns_ok_with_request None s1 r None), (conns_ok_ext opt None s); try done; intros k'; rewrite Hb; try done.
      apply (co_room _ _ _ HC).
    + apply (reqs_quiet s1 r None); [by eapply reqs_ok_same|by rewrite (sq_requests _ _ Hq), Hr|done|done].
    + rewrite (Hx k w eq_refl) in *. simpl. rewrite (sq_requests _ _ Hq). apply (own_ok_lose _ _ r).
      eapply own_ok_ext; [|done]. intros x. unfold busy_of. by setoid_rewrite <- Hb.
Qed.

Lemma pool_step_ok kill s s' : pool_ok opt kill s -> pool_step opt kill s s' -> pool_ok opt kill s'.
Proof.
  intros H []; eauto using acquire_ok, open_done_ok, open_failed_ok, resume_ok, release_ok, on_idle_expired_ok, on_wait_expired_ok, destroy_ok.
Qed.

Lemma empty_pool_ok kill : pool_ok opt kill empty_pool.
Proof.
  destruct Hopt as [? ?]. assert (Hb : forall k, bucket empty_pool k = empty_bucket) by done.
  assert (HR : forall r, requests empty_pool !! r = None) by done.
  constructor; constructor; try done; intros *; rewrite ?Hb, ?HR; simpl; try done.
  - constructor.
  - rewrite elem_of_nil. split; [done|]. by intros [? _].
  - unfold load. simpl. lia.
  - rewrite elem_of_empty. split; [done|]. intros [_ [k Hk]]. by apply elem_of_nil in Hk.
  - constructor.
  - rewrite elem_of_nil. done.
  - rewrite elem_of_empty. split; [done|]. by intros [_ [k Hk]].
  - intros _ c [k Hk]. by apply elem_of_nil in Hk.
Qed.

Lemma steps_ok kill s0 s : rtc (pool_step opt kill) s0 s -> pool_ok opt kill s0 -> pool_ok opt kill s.
Proof. induction 1 as [|s0 s1 s2 Hstep _ IH]; [done|]. intros H0. apply IH. by eapply pool_step_ok. Qed.

Lemma reachable_ok kill s : rtc (pool_step opt kill) empty_pool s -> pool_ok opt kill s.
Proof. intros H. by eapply steps_ok, empty_pool_ok. Qed.
End Steps.

(** ** Theorems *)

(** C6: whatever the requests, the network, the timers and the destruction of
    request frames do, the pool's books are right: every open connection is
    in exactly one list, that of the origin it was opened for; the idle, busy
    and opening connections of an origin never exceed [max_conns_per_host],
    nor the idle ones [max_idle_per_host]; [total_] is the number of open
    connections; the idle connections are those with an expiry timer; the
    queue of an origin holds each request parked on it once, and those are
    the ones with a wait timer; and a suspended request's bucket exists. *)
Theorem pool_books_balance opt kill s :
  options_ok opt -> rtc (pool_step opt kill) empty_pool s ->
  (forall k c, c ∈ idle (bucket s k) ++ busy (bucket s k) <-> conns s !! c = Some k) /\
  (forall k, NoDup (idle (bucket s k) ++ busy (bucket s k))) /\
  (forall k, Z.of_nat (length (idle (bucket s k))) + Z.of_nat (length (busy (bucket s k))) + opening (bucket s k) <= max_conns_per_host opt
     /\ Z.of_nat (length (idle (bucket s k))) <= max_idle_per_host opt /\ 0 <= opening (bucket s k)) /\
  total_ s = Z.of_nat (base.size (conns s)) /\
  (forall c, c ∈ idle_armed s <-> 0 < idle_timeout opt /\ exists k, c ∈ idle (bucket s k)) /\
  (forall k, NoDup (waiters (bucket s k)) /\ forall r, r ∈ waiters (bucket s k) <-> requests s !! r = Some (RParked k)) /\
  (forall r, r ∈ wait_armed s <-> 0 < pool_wait_timeout opt /\ exists k, requests s !! r = Some (RParked k)) /\
  (forall r x k, requests s !! r = Some x -> origin_of x = Some k -> is_Some (buckets s !! k)).
Proof.
  intros Ho Hs. destruct (reachable_ok opt Ho kill s Hs) as [HC HR _]. repeat apply conj.
  - intros k c. rewrite (co_in _ _ _ HC). split; [tauto|]. intros ?. split; [done|by intros [? ?]].
  - apply (co_nodup _ _ _ HC).
  - intros k. pose proof (co_room _ _ _ HC k). pose proof (co_idle _ _ _ HC k). rewrite (ro_opening _ _ HR) in *.
    unfold load, extra, count_opening in *. rewrite (ro_opening _ _ HR) in *. unfold count_opening in *. lia.
  - apply (co_total _ _ _ HC).
  - apply (co_armed _ _ _ HC).
  - intros k. split; [apply (ro_nodup _ _ HR)|apply (ro_parked _ _ HR)].
  - apply (ro_armed _ _ HR).
  - apply (ro_bucket _ _ HR).
Qed.

(** C16: a connection is lent to one request at a time: two requests that hold
    a connection, or have been granted one and not run yet, have different
    ones, each open and counted busy.  As long as no frame is destroyed
    between its wake-up and its resumption, nothing leaks: every busy
    connection is lent to some request. *)
Theorem pool_lends_exclusively opt kill s :
  options_ok opt -> rtc (pool_step opt kill) empty_pool s ->
  (forall r r' c, conn_of (requests s !! r) = Some c -> conn_of (requests s !! r') = Some c -> r = r') /\
  (forall r c, conn_of (requests s !! r) = Some c -> exists k, conns s !! c = Some k /\ c ∈ busy (bucket s k)) /\
  (kill = false -> forall k c, c ∈ busy (bucket s k) -> exists r, conn_of (requests s !! r) = Some c).
Proof.
  intros Ho Hs. destruct (reachable_ok opt Ho kill s Hs) as [HC _ HO]. split; [|split].
  - apply (ow_inj _ _ _ HO).
  - intros r c Hc. destruct (ow_busy _ _ _ HO r c Hc) as [k Hk]. exists k. split; [|done].
    apply (co_in _ _ _ HC), elem_of_app. by right.
  - intros Hk k c Hc. apply (ow_all _ _ _ HO Hk). by exists k.
Qed.

(** The pool's scenarios below: one connection per host, no wait timeout,
    [max] connections in all. *)
Definition small_options (max : Z) : client_options_t := mk_options 1 max 1 1000 0.
Definition here : origin := ([], bucket_key 80 Http).
Definition there : origin := ([], bucket_key 443 Https).
Definition usable : conn_id -> bool := fun _ => true.

(** The pool after the operations, from the state [o], if none failed. *)
Fixpoint run_pool (s : pool_t) (os : list (pool_t -> option pool_t)) : option pool_t :=
  match os with
  | [] => Some s
  | o :: os => match o s with Some s => run_pool s os | None => None end
  end.

Section Scenario.
Context (max : Z).
Let opt := small_options max.

(** Request 1 opens a connection (7), request 2 parks. *)
Definition two_requests : list (pool_t -> option pool_t) :=
  [ (fun s => Some (acquire opt usable s 1 here)); (fun s => Some (acquire opt usable s 2 here)) ].
Definition one_served : list (pool_t -> option pool_t) := two_requests ++ [ (fun s => open_done s 1 here 7) ].
Definition handed_over : list (pool_t -> option pool_t) :=
  one_served ++ [ (fun s => Some (release opt (end_request s 1) 7 true true)) ].
End Scenario.

Definition pool_of (os : list (pool_t -> option pool_t)) : pool_t := default empty_pool (run_pool empty_pool os).

Lemma two_requests_reached kill : rtc (pool_step (small_options 1) kill) empty_pool (pool_of (two_requests 1)).
Proof.
  assert (E : pool_of (two_requests 1) = acquire (small_options 1) usable (acquire (small_options 1) usable empty_pool 1 here) 2 here)
    by (vm_compute; reflexivity).
  rewrite E. eapply rtc_l; [by apply (step_acquire _ kill _ usable 1 here)|].
  eapply rtc_l; [by apply (step_acquire _ kill _ usable 2 here)|]. apply rtc_refl.
Qed.

Lemma one_served_reached kill : rtc (pool_step (small_options 1) kill) empty_pool (pool_of (one_served 1)).
Proof.
  eapply rtc_r; [apply two_requests_reached|]. apply (step_opened _ kill _ 1 here 7); vm_compute; reflexivity.
Qed.

Lemma handed_over_reached kill : rtc (pool_step (small_options 1) kill) empty_pool (pool_of (handed_over 1)).
Proof.
  assert (E : pool_of (handed_over 1) = release (small_options 1) (end_request (pool_of (one_served 1)) 1) 7 true true)
    by (vm_compute; reflexivity).
  rewrite E. eapply rtc_r; [apply one_served_reached|]. apply step_release. vm_compute. reflexivity.
Qed.

Lemma pool_books_balance_witness :
  waiters (bucket (pool_of (one_served 1)) here) = [2%nat] /\ busy (bucket (pool_of (one_served 1)) here) = [7%nat] /\
  total_ (pool_of (one_served 1)) = Z.of_nat (base.size (conns (pool_of (one_served 1)))).
Proof.
  split; [vm_compute; reflexivity|]. split; [vm_compute; reflexivity|].
  apply (pool_books_balance (small_options 1) false (pool_of (one_served 1))); [split; simpl; lia|apply one_served_reached].
Defined.

Lemma pool_lends_exclusively_witness :
  busy (bucket (pool_of (handed_over 1)) here) = [7%nat] /\
  forall r r' c, conn_of (requests (pool_of (handed_over 1)) !! r) = Some c ->
    conn_of (requests (pool_of (handed_over 1)) !! r') = Some c -> r = r'.
Proof.
  split; [vm_compute; reflexivity|].
  apply (pool_lends_exclusively (small_options 1) false (pool_of (handed_over 1))); [split; simpl; lia|apply handed_over_reached].
Defined.

(** a connection handed back goes to whoever has waited longest: the head
    of the queue of its origin, and no other request, is woken, with the
    connection itself when it can be reused and is alive, and otherwise, the
    connection being closed, with a free slot; its wait timer is disarmed. *)
Theorem pool_release_serves_oldest opt kill s r0 c k r rest reusable alive :
  options_ok opt -> rtc (pool_step opt kill) empty_pool s ->
  requests s !! r0 = Some (RHolding c) -> conns s !! c = Some k -> waiters (bucket s k) = r :: rest ->
  let s' := release opt (end_request s r0) c reusable alive in
  requests s' !! r = Some (RWoken k (Granted (if reusable && alive then Some c else None))) /\
  waiters (bucket s' k) = rest /\ r ∉ wait_armed s' /\
  conns s' !! c = (if reusable && alive then Some k else None) /\
  (forall r', r' <> r -> r' <> r0 -> requests s' !! r' = requests s !! r').
Proof.
  intros Ho Hs Hr0 Hc Hw s'. pose proof (reachable_ok opt Ho kill s Hs) as HP. pose proof HP as [HC HR HO].
  assert (Hin : c ∈ busy (bucket s k)) by (eapply conns_ok_busy; [done|done|]; eapply ow_busy; [done|by rewrite Hr0]).
  destruct (detach_some _ _ Hin) as [l Hl].
  assert (Hne : r <> r0) by (intros ->; assert (E : requests s !! r0 = Some (RParked k)) by (apply (ro_parked _ _ HR); rewrite Hw; by left); congruence).
  subst s'. unfold release. simpl. rewrite Hc. rewrite !(bucket_for_bucket (end_request s r0)).
  change (bucket (end_request s r0) k) with (bucket s k). rewrite Hl.
  set (s2 := set_bucket (bucket_for (end_request s r0) k) k (set_busy (bucket s k) l)).
  assert (Hb2 : bucket s2 k = set_busy (bucket s k) l) by (unfold s2; rewrite bucket_set; by rewrite decide_True).
  assert (Hfr : forall s3 w, bucket s3 k = set_busy (bucket s k) l -> requests s3 = delete r0 (requests s) ->
    requests (wake_front s3 k w) !! r = Some (RWoken k w) /\ waiters (bucket (wake_front s3 k w) k) = rest /\
    r ∉ wait_armed (wake_front s3 k w) /\ conns (wake_front s3 k w) = conns s3 /\
    (forall r', r' <> r -> r' <> r0 -> requests (wake_front s3 k w) !! r' = requests s !! r')).
  { intros s3 w Hb HRq. unfold wake_front. rewrite Hb. simpl. rewrite Hw. simpl. rewrite lookup_insert_eq, HRq.
    split; [done|]. split; [|split; [set_solver|split; [done|]]].
    - change (bucket (set_request (cancel_wait ?x r) r (RWoken k w)) k) with (bucket x k). rewrite bucket_set. by rewrite decide_True.
    - intros r' H1 H2. by rewrite lookup_insert_ne, lookup_delete_ne by congruence. }
  destruct reusable; simpl.
  - unfold grant_or_park. rewrite Hb2. simpl. rewrite Hw. destruct alive; simpl.
    + destruct (Hfr s2 (Granted (Some c)) Hb2 eq_refl) as (? & Hq & ? & Hcs & ?). rewrite Hcs. simpl.
      split; [done|]. split; [rewrite bucket_set; by rewrite decide_True|]. done.
    + destruct (Hfr (close_conn s2 c) (Granted None) Hb2 eq_refl) as (? & ? & ? & Hcs & ?). rewrite Hcs. simpl.
      by rewrite lookup_delete_eq.
  - destruct (Hfr (close_conn s2 c) (Granted None) Hb2 eq_refl) as (? & ? & ? & Hcs & ?). rewrite Hcs. simpl.
    by rewrite lookup_delete_eq.
Qed.

Lemma pool_release_serves_oldest_witness :
  requests (release (small_options 1) (end_request (pool_of (one_served 1)) 1) 7 true true) !! 2%nat
    = Some (RWoken here (Granted (Some 7%nat))).
Proof.
  apply (pool_release_serves_oldest (small_options 1) false (pool_of (one_served 1)) 1 7 here 2 [] true true);
    [split; simpl; lia|apply one_served_reached|vm_compute; reflexivity..].
Defined.

(** as long as the pool is not cleared, no continuation of a suspended
    request touches a bucket that is gone: the guard of an opening request,
    the awaiter of a parked or woken one, and the destruction of either find
    their bucket. *)
Theorem pool_continuations_safe opt kill s r x :
  options_ok opt -> rtc (pool_step opt kill) empty_pool s -> requests s !! r = Some x ->
  is_Some (destroy_frame s r) /\
  (forall k c, x = ROpening k -> is_Some (open_done s r k c) /\ is_Some (open_failed s r k)) /\
  (forall ok k w, x = RWoken k w -> is_Some (resume opt ok s r k w)).
Proof.
  intros Ho Hs Hr. destruct (reachable_ok opt Ho kill s Hs) as [HC HR HO].
  assert (Hb : forall k, origin_of x = Some k -> is_Some (buckets s !! k)) by (intros k; by apply (ro_bucket _ _ HR r)).
  assert (Hopen : forall k, x = ROpening k -> is_Some (open_failed s r k)).
  { intros k ->. destruct (Hb k eq_refl) as [b E]. unfold open_failed, guard_exit. rewrite E. eauto. }
  assert (Hexit : forall k, origin_of x = Some k -> is_Some (awaiter_exit s r k)).
  { intros k Hk. destruct (Hb k Hk) as [b E]. unfold awaiter_exit. simpl. rewrite E. eauto. }
  split; [|split].
  - unfold destroy_frame. rewrite Hr. destruct x as [k|k|k w|c]; eauto; by destruct (Hexit k eq_refl) as [? ->].
  - intros k c ->. split; [|eauto]. destruct (Hb k eq_refl) as [b E]. unfold open_done, guard_exit. rewrite E. simpl.
    rewrite lookup_insert_eq. eauto.
  - intros ok k w ->. unfold resume, awaiter_exit. simpl. destruct (Hb k eq_refl) as [b E]. rewrite E.
    destruct w as [|[c|]]; eauto.
Qed.

Lemma pool_continuations_safe_witness :
  requests (pool_of (handed_over 1)) !! 2%nat = Some (RWoken here (Granted (Some 7%nat))) /\
  is_Some (resume (small_options 1) usable (pool_of (handed_over 1)) 2 here (Granted (Some 7%nat))).
Proof.
  split; [vm_compute; reflexivity|].
  apply (pool_continuations_safe (small_options 1) false (pool_of (handed_over 1)) 2 (RWoken here (Granted (Some 7%nat))));
    [split; simpl; lia|apply handed_over_reached|vm_compute; reflexivity|reflexivity].
Defined.

(** an opening that fails gives its slot back and wakes nobody: with one
    connection per host, request 1 opening and request 2 parked behind it,
    the failure of request 1 leaves the origin with no connection, none
    opening, and request 2 parked without a timer. *)
Theorem pool_failed_open_strands_waiter :
  exists s, run_pool empty_pool (two_requests 1 ++ [ (fun s => open_failed s 1 here) ]) = Some s /\
    rtc (pool_step (small_options 1) false) empty_pool s /\
    bucket s here = mk_bucket [] [] [2%nat] 0 /\ base.size (conns s) = 0%nat /\ wait_armed s = ∅ /\
    requests s !! 2%nat = Some (RParked here) /\ base.size (requests s) = 1%nat.
Proof.
  eexists. split; [vm_compute; reflexivity|]. split; [|vm_compute; repeat split; reflexivity].
  eapply rtc_r; [apply two_requests_reached|].
  apply (step_open_failed _ _ _ 1 here); vm_compute; reflexivity.
Qed.

(** the frame of a request that was granted a connection and has not run
    yet takes the connection with it: [~wait_awaiter] does not return it, and
    the origin's only slot stays busy with no request holding it. *)
Theorem pool_destroyed_grant_leaks :
  exists s, run_pool empty_pool (handed_over 1 ++ [ (fun s => destroy_frame s 2) ]) = Some s /\
    rtc (pool_step (small_options 1) true) empty_pool s /\
    bucket s here = mk_bucket [] [7%nat] [] 0 /\ base.size (requests s) = 0%nat.
Proof.
  eexists. split; [vm_compute; reflexivity|]. split; [|vm_compute; split; reflexivity].
  eapply rtc_r; [apply handed_over_reached|].
  apply (step_destroy _ _ _ 2 (RWoken here (Granted (Some 7%nat)))); [vm_compute; reflexivity|done|done|vm_compute; reflexivity].
Qed.

(** the test against [max_total_conns] does not count connections being
    opened: with a total limit of one, requests to two origins open two. *)
Theorem pool_total_overshoots :
  exists s, run_pool empty_pool
      [ (fun s => Some (acquire (small_options 1) usable s 1 here)); (fun s => Some (acquire (small_options 1) usable s 2 there));
        (fun s => open_done s 1 here 7); (fun s => open_done s 2 there 8) ] = Some s /\
    total_ s = 2 /\ max_total_conns (small_options 1) = 1.
Proof. eexists. split; [vm_compute; reflexivity|]. split; reflexivity. Qed.

(** [clear()] frees the buckets that suspended requests still point to:
    after it, neither an opening request nor a parked one has a bucket left
    for its guard or its awaiter. *)
Theorem pool_clear_dangles :
  let s := clear (pool_of (two_requests 1)) in
  requests s !! 1%nat = Some (ROpening here) /\ open_failed s 1 here = None /\
  requests s !! 2%nat = Some (RWoken here Expired) /\ resume (small_options 1) usable s 2 here Expired = None.
Proof. vm_compute. repeat split; reflexivity. Qed.
