(* ===== verification/Dns.v ===== *)
(** * The client's cache of resolved addresses

    [dns_cache_t] of src/include/cornet/http/client/pool.h and
    src/src/http/client/pool.cc.  The table is a [std::map] keyed by host:
    here its entries in key order.  [resolve] suspends once, while the
    resolver runs, so it is two functions: up to the suspension, and from the
    resolver's answer on.  The recogniser of numeric literals ([inet_pton]) is
    an argument, the resolver's answers and the clock are inputs. *)

From stdpp Require Import prelude list sorting.
From Stdlib Require Import ZArith Lia.
From S2P Require Import Prelude.
Open Scope Z_scope.

(** ** Data *)

Inductive family_t := AF_INET | AF_INET6 | AF_OTHER.

(** [sockaddr_storage]: family, port in network order, and the rest. *)
Record resolved_address := mk_address { ss_family : family_t; sin_port : Z; sin_rest : bytes }.

Record entry_t := mk_entry { addr : resolved_address; expires_ns : Z }.

Record dns_options_t := mk_dns_options { dns_cache_entries : Z; dns_cache_ttl : Z }.

Abbreviation table_t := (list (bytes * entry_t)).

Record metrics_t := mk_metrics { dns_lookups : Z; dns_cache_hits : Z }.

Record dns_cache_t := mk_cache { entries_ : table_t; metrics_ : metrics_t }.

(** [htons] on a little-endian machine. *)
Definition htons (port : Z) : Z := ((port &&& 255) <<< 8) ||| (port >>> 8).

Definition set_port (a : resolved_address) (port : Z) : resolved_address :=
  match ss_family a with
  | AF_INET6 | AF_INET => mk_address (ss_family a) (htons port) (sin_rest a)
  | AF_OTHER => a
  end.

(** ** The ordered map *)

(** [std::less<>] on strings: lexicographic. *)
Fixpoint key_lt (a b : bytes) : bool :=
  match a, b with
  | _, [] => false
  | [], _ :: _ => true
  | x :: a, y :: b => if x <? y then true else if y <? x then false else key_lt a b
  end.

Fixpoint find (t : table_t) (h : bytes) : option entry_t :=
  match t with
  | [] => None
  | (k, e) :: t => if decide (k = h) then Some e else find t h
  end.

Definition erase (t : table_t) (h : bytes) : table_t := filter (fun p => p.1 <> h) t.

Fixpoint insert_or_assign (t : table_t) (h : bytes) (e : entry_t) : table_t :=
  match t with
  | [] => [(h, e)]
  | (k, x) :: t' =>
      if key_lt h k then (h, e) :: t
      else if decide (k = h) then (h, e) :: t'
      else (k, x) :: insert_or_assign t' h e
  end.

(** ** Operations *)

Section Dns.
Context (opt : dns_options_t).
Context (try_resolve_numeric : bytes -> Z -> option resolved_address).

Definition store (now : Z) (t : table_t) (host : bytes) (a : resolved_address) : table_t :=
  if (dns_cache_entries opt =? 0) || (dns_cache_ttl opt <=? 0) then t
  else
    let t :=
      if dns_cache_entries opt <=? Z.of_nat (length t) then
        let t := filter (fun p => now < expires_ns p.2) t in
        if dns_cache_entries opt <=? Z.of_nat (length t) then tail t else t
      else t in
    insert_or_assign t host (mk_entry a (u64 (now + u64 (dns_cache_ttl opt * 1000000)))).

Inductive resolve_t := Ready (a : resolved_address) | Lookup.

(** [resolve] up to its suspension. *)
Definition resolve (now : Z) (s : dns_cache_t) (host : bytes) (port : Z) : dns_cache_t * resolve_t :=
  match try_resolve_numeric host port with
  | Some a => (s, Ready a)
  | None =>
      let miss t := (mk_cache t (mk_metrics (u64 (dns_lookups (metrics_ s) + 1)) (dns_cache_hits (metrics_ s))), Lookup) in
      match find (entries_ s) host with
      | Some e =>
          if now <? expires_ns e then
            (mk_cache (entries_ s) (mk_metrics (dns_lookups (metrics_ s)) (u64 (dns_cache_hits (metrics_ s) + 1))),
             Ready (set_port (addr e) port))
          else miss (erase (entries_ s) host)
      | None => miss (entries_ s)
      end
  end.

(** ... and from the resolver's answer on; [None] is an error, passed on. *)
Definition resolved (now : Z) (s : dns_cache_t) (host : bytes) (answer : option resolved_address) : dns_cache_t :=
  match answer with
  | Some a => mk_cache (store now (entries_ s) host a) (metrics_ s)
  | None => s
  end.

Definition clear (s : dns_cache_t) : dns_cache_t := mk_cache [] (metrics_ s).

(** ** Runs *)

(** The clock, the lookups under way, the resolver's answers so far with
    their times, and the answers [resolve] gave from the cache or from a
    literal. *)
Record run_t := mk_run {
  cache : dns_cache_t; clock : Z; pending : list (bytes * Z);
  answers : list (bytes * resolved_address * Z)
}.

Definition start : run_t := mk_run (mk_cache [] (mk_metrics 0 0)) 0 [] [].

Inductive run_step (s : run_t) : run_t -> Prop :=
| step_tick t : clock s <= t -> t + dns_cache_ttl opt * 1000000 < 2 ^ 64 ->
    run_step s (mk_run (cache s) t (pending s) (answers s))
| step_hit host port c a : resolve (clock s) (cache s) host port = (c, Ready a) ->
    run_step s (mk_run c (clock s) (pending s) (answers s))
| step_miss host port c : resolve (clock s) (cache s) host port = (c, Lookup) ->
    run_step s (mk_run c (clock s) ((host, port) :: pending s) (answers s))
| step_answer l1 l2 host port a : pending s = l1 ++ (host, port) :: l2 ->
    run_step s (mk_run (resolved (clock s) (cache s) host (Some a)) (clock s) (l1 ++ l2) ((host, a, clock s) :: answers s))
| step_failure l1 l2 host port : pending s = l1 ++ (host, port) :: l2 ->
    run_step s (mk_run (resolved (clock s) (cache s) host None) (clock s) (l1 ++ l2) (answers s))
| step_clear : run_step s (mk_run (clear (cache s)) (clock s) (pending s) (answers s)).
End Dns.

(** ** The order *)

Lemma key_lt_irrefl a : key_lt a a = false.
Proof. induction a as [|x a IH]; simpl; [done|]. by rewrite Z.ltb_irrefl. Qed.

Lemma key_lt_trans a b c : key_lt a b = true -> key_lt b c = true -> key_lt a c = true.
Proof.
  revert b c. induction a as [|x a IH]; intros [|y b] [|z c]; simpl; try done.
  destruct (x <? y) eqn:E1, (y <? z) eqn:E2, (x <? z) eqn:E3; try done; try lia;
    destruct (y <? x) eqn:E4; try done; destruct (z <? y) eqn:E5; try done; destruct (z <? x) eqn:E6; try done; try lia.
  apply IH.
Qed.

Lemma key_lt_total a b : key_lt a b = false -> a <> b -> key_lt b a = true.
Proof.
  revert b. induction a as [|x a IH]; intros [|y b]; simpl; try done.
  destruct (x <? y) eqn:E1; [done|]. destruct (y <? x) eqn:E2; [done|]. intros H Hne. apply IH; [done|].
  intros ->. apply Hne. f_equal. lia.
Qed.

(** A table in order. *)
Definition ordered (t : table_t) : Prop := StronglySorted (fun p q => key_lt p.1 q.1 = true) t.

Lemma ordered_filter (P : bytes * entry_t -> Prop) `{!forall p, Decision (P p)} t : ordered t -> ordered (filter P t).
Proof.
  unfold ordered. induction 1 as [|p t Ht IH Hall]; [constructor|]. destruct (decide (P p)).
  - rewrite filter_cons_True by done. constructor; [done|]. apply Forall_forall. intros q [_ Hq]%list_elem_of_filter.
    rewrite Forall_forall in Hall. auto.
  - by rewrite filter_cons_False.
Qed.

Lemma ordered_tail t : ordered t -> ordered (tail t).
Proof. destruct t; [done|]. by intros [? ?]%StronglySorted_inv. Qed.

Lemma insert_elem t h e p : p ∈ insert_or_assign t h e -> p = (h, e) \/ p ∈ t.
Proof.
  induction t as [|[k x] t IH]; simpl; [rewrite list_elem_of_singleton; tauto|].
  destruct (key_lt h k); [rewrite elem_of_cons; tauto|]. destruct (decide (k = h)); rewrite !elem_of_cons; naive_solver.
Qed.

Lemma insert_length t h e : (length (insert_or_assign t h e) <= S (length t))%nat.
Proof. induction t as [|[k x] t IH]; simpl; [lia|]. destruct (key_lt h k); simpl; [lia|]. destruct (decide (k = h)); simpl; lia. Qed.

Lemma insert_ordered t h e : ordered t -> ordered (insert_or_assign t h e).
Proof.
  induction t as [|[k x] t IH]; simpl; intros H; [repeat constructor|].
  pose proof H as [Ht Hall]%StronglySorted_inv. rewrite Forall_forall in Hall. simpl in *.
  destruct (key_lt h k) eqn:E.
  - constructor; [done|]. apply Forall_forall. intros p [->|Hp]%elem_of_cons; simpl; [done|]. eapply key_lt_trans; [done|auto].
  - destruct (decide (k = h)) as [->|Hne].
    + constructor; [done|]. apply Forall_forall. auto.
    + constructor; [by apply IH|]. apply Forall_forall. intros p [->|Hp]%insert_elem; simpl; [by apply key_lt_total|auto].
Qed.

Lemma ordered_nodup t : ordered t -> NoDup t.*1.
Proof.
  induction 1 as [|[k x] t Ht IH Hall]; simpl; constructor; [|done].
  intros ([k' x'] & Hk & Hin)%list_elem_of_fmap. simpl in *. subst k'. rewrite Forall_forall in Hall. specialize (Hall _ Hin).
  simpl in Hall. by rewrite key_lt_irrefl in Hall.
Qed.

Lemma find_elem t h e : find t h = Some e -> (h, e) ∈ t.
Proof.
  induction t as [|[k x] t IH]; simpl; [done|]. destruct (decide (k = h)) as [->|].
  - intros [= ->]. by left.
  - intros H. right. auto.
Qed.

Lemma find_insert t h e : find (insert_or_assign t h e) h = Some e.
Proof.
  induction t as [|[k x] t IH]; simpl; [by rewrite decide_True|]. destruct (key_lt h k); simpl; [by rewrite decide_True|].
  destruct (decide (k = h)) as [->|]; simpl; [by rewrite decide_True|by rewrite decide_False].
Qed.

(** ** Invariant *)

(** The table is ordered and within its limit, and each entry is an answer
    the resolver gave for that host, expiring one ttl after it. *)
Record cache_ok (opt : dns_options_t) (s : run_t) : Prop := {
  ck_ordered : ordered (entries_ (cache s));
  ck_limit : Z.of_nat (length (entries_ (cache s))) <= dns_cache_entries opt;
  ck_source h e : (h, e) ∈ entries_ (cache s) ->
    exists t, (h, addr e, t) ∈ answers s /\ t <= clock s /\ expires_ns e = t + dns_cache_ttl opt * 1000000;
  ck_clock : 0 <= clock s /\ clock s + dns_cache_ttl opt * 1000000 < 2 ^ 64
}.

Section Invariant.
Context (opt : dns_options_t) (numeric : bytes -> Z -> option resolved_address).
Context (Hent : 0 <= dns_cache_entries opt) (Httl : dns_cache_ttl opt * 1000000 < 2 ^ 64).

Lemma expiry_exact now : 0 < dns_cache_ttl opt -> 0 <= now -> now + dns_cache_ttl opt * 1000000 < 2 ^ 64 ->
  u64 (now + u64 (dns_cache_ttl opt * 1000000)) = now + dns_cache_ttl opt * 1000000.
Proof. intros. rewrite (u64_small (_ * _)), u64_small by lia. done. Qed.

(** What [store] leaves: the new entry or an old one, in order, within the limit. *)
Lemma store_ok now t h a :
  ordered t -> Z.of_nat (length t) <= dns_cache_entries opt -> 0 <= now -> now + dns_cache_ttl opt * 1000000 < 2 ^ 64 ->
  let t' := store opt now t h a in
  ordered t' /\ Z.of_nat (length t') <= dns_cache_entries opt /\
  (forall p, p ∈ t' -> p ∈ t \/ p = (h, mk_entry a (now + dns_cache_ttl opt * 1000000))).
Proof.
  intros Ho Hl Hn Hc. unfold store. destruct ((_ =? 0) || _) eqn:E; [naive_solver|].
  apply orb_false_iff in E as [E1 E2]. rewrite expiry_exact by lia.
  match goal with |- context [insert_or_assign ?x h _] => set (t1 := x) end.
  assert (H1 : ordered t1 /\ Z.of_nat (length t1) < dns_cache_entries opt /\ forall p, p ∈ t1 -> p ∈ t).
  { subst t1. set (f := filter (fun p : bytes * entry_t => now < expires_ns p.2) t). assert (Hf : ordered f) by by apply ordered_filter.
    assert (Hfl : (length f <= length t)%nat) by apply length_filter.
    assert (Hfe : forall p, p ∈ f -> p ∈ t) by (intros p; unfold f; rewrite list_elem_of_filter; tauto).
    destruct (_ <=? Z.of_nat (length t)) eqn:E3; [|split; [done|split; [lia|done]]].
    destruct (_ <=? Z.of_nat (length f)) eqn:E4; [|split; [done|split; [lia|done]]].
    apply Z.leb_le in E4. apply Z.eqb_neq in E1.
    split; [by apply ordered_tail|]. destruct f as [|p0 f']; cbn [length tail] in *; [lia|]. split; [lia|]. intros p Hp. apply Hfe. by right. }
  destruct H1 as (H1 & H2 & H3). split; [by apply insert_ordered|]. split.
  - pose proof (insert_length t1 h (mk_entry a (now + dns_cache_ttl opt * 1000000))). lia.
  - intros p [->|Hp]%insert_elem; auto.
Qed.

Lemma resolve_entries now s h port c r : resolve numeric now s h port = (c, r) ->
  entries_ c = entries_ s \/ entries_ c = erase (entries_ s) h.
Proof.
  unfold resolve. destruct (numeric h port); [intros [= <- <-]; by left|].
  destruct (find _ h) as [e|]; [destruct (now <? _)|]; intros [= <- <-]; auto.
Qed.

(** Dropping entries keeps the invariant. *)
Lemma cache_ok_shrink s c p :
  cache_ok opt s -> entries_ c = entries_ (cache s) \/ entries_ c = [] \/ (exists h, entries_ c = erase (entries_ (cache s)) h) ->
  cache_ok opt (mk_run c (clock s) p (answers s)).
Proof.
  intros [Ho Hl Hs Hc] H.
  assert (Hsub : ordered (entries_ c) /\ (length (entries_ c) <= length (entries_ (cache s)))%nat /\
     forall x, x ∈ entries_ c -> x ∈ entries_ (cache s)).
  { destruct H as [->|[->|[h ->]]]; [done|split; [constructor|split; [simpl; lia|intros x Hx; by apply elem_of_nil in Hx]]|].
    split; [by apply ordered_filter|]. split; [apply length_filter|]. intros x. unfold erase. rewrite list_elem_of_filter. tauto. }
  destruct Hsub as (H1 & H2 & H3). constructor; simpl; [done|lia| |done]. intros h e Hin. apply Hs. auto.
Qed.

Lemma run_step_ok s s' : cache_ok opt s -> run_step opt numeric s s' -> cache_ok opt s'.
Proof.
  intros H Hstep. pose proof H as [Ho Hl Hs [Hc0 Hc]]. destruct Hstep.
  - constructor; simpl; [done..| |lia]. intros h e Hin. destruct (Hs h e Hin) as (t0 & ? & ? & ?). exists t0. split; [done|]. split; [lia|done].
  - apply cache_ok_shrink; [done|]. destruct (resolve_entries _ _ _ _ _ _ H0); eauto.
  - apply cache_ok_shrink; [done|]. destruct (resolve_entries _ _ _ _ _ _ H0); eauto.
  - destruct (store_ok (clock s) (entries_ (cache s)) host a) as (H1 & H2 & H3); [done..|].
    constructor; simpl; [done|done| |done]. intros h e Hin. destruct (H3 _ Hin) as [Hold|[= -> ->]].
    + destruct (Hs h e Hold) as (t0 & ? & ? & ?). exists t0. split; [by right|done].
    + exists (clock s). simpl. split; [by left|]. split; [lia|done].
  - apply (cache_ok_shrink s (cache s)); [done|by left].
  - apply cache_ok_shrink; [done|right; by left].
Qed.

Lemma run_ok s0 s : rtc (run_step opt numeric) s0 s -> cache_ok opt s0 -> cache_ok opt s.
Proof. induction 1 as [|s0 s1 s2 Hstep _ IH]; [done|]. intros H0. apply IH. by eapply run_step_ok. Qed.

Lemma start_ok : cache_ok opt start.
Proof. constructor; simpl; [constructor|lia| |lia]. intros h e Hin. by apply elem_of_nil in Hin. Qed.
End Invariant.

(** however lookups, answers, failures and the passing of time interleave,
    the cache holds at most [dns_cache_entries] hosts, each once; an answer
    it gives without a lookup is either a numeric literal or an address the
    resolver returned for that very host less than one ttl before, with the
    port of the request; and an answer just stored is found. *)
Theorem dns_cache_sound opt numeric s :
  0 <= dns_cache_entries opt -> dns_cache_ttl opt * 1000000 < 2 ^ 64 -> rtc (run_step opt numeric) start s ->
  Z.of_nat (length (entries_ (cache s))) <= dns_cache_entries opt /\ NoDup (entries_ (cache s)).*1 /\
  (forall host port c a, resolve numeric (clock s) (cache s) host port = (c, Ready a) ->
     numeric host port = Some a \/
     exists a0 t, (host, a0, t) ∈ answers s /\ t <= clock s < t + dns_cache_ttl opt * 1000000 /\ a = set_port a0 port) /\
  (forall host a, 0 < dns_cache_entries opt -> 0 < dns_cache_ttl opt ->
     find (entries_ (resolved opt (clock s) (cache s) host (Some a))) host
     = Some (mk_entry a (clock s + dns_cache_ttl opt * 1000000))).
Proof.
  intros He Ht Hs. pose proof (run_ok opt numeric He Ht _ _ Hs (start_ok opt He Ht)) as [Ho Hl Hsrc [Hc0 Hc]].
  split; [done|]. split; [by apply ordered_nodup|]. split.
  - intros host port c a. unfold resolve. destruct (numeric host port) as [x|]; [intros [= _ <-]; by left|].
    destruct (find _ host) as [e|] eqn:Ef; [|done]. destruct (_ <? _) eqn:E; [|done]. intros [= _ <-]. right.
    apply find_elem in Ef. destruct (Hsrc _ _ Ef) as (t & ? & ? & ?). exists (addr e), t. split; [done|]. split; [lia|done].
  - intros host a He' Ht'. simpl. unfold store. destruct ((_ =? 0) || _) eqn:E; [lia|].
    by rewrite find_insert, expiry_exact by lia.
Qed.

Lemma dns_cache_sound_witness :
  let opt := mk_dns_options 1 30000 in
  let a := mk_address AF_INET 0 [10; 0; 0; 1] in
  let s := mk_run (resolved opt 0 (mk_cache [] (mk_metrics 1 0)) [104] (Some a)) 0 [] [([104], a, 0)] in
  resolve (fun _ _ => None) 0 (cache s) [104] 80 = (mk_cache (entries_ (cache s)) (mk_metrics 1 1), Ready (mk_address AF_INET 20480 [10; 0; 0; 1])) /\
  Z.of_nat (length (entries_ (cache s))) <= 1.
Proof.
  intros opt a s. split; [reflexivity|].
  apply (dns_cache_sound opt (fun _ _ => None) s); [simpl; lia|simpl; lia|].
  eapply rtc_l; [apply (step_miss opt (fun _ _ => None) start [104] 80); reflexivity|].
  eapply rtc_l; [apply (step_answer opt _ _ [] [] [104] 80 a); reflexivity|]. apply rtc_refl.
Defined.
