(* ===== verification/Router.v ===== *)
(** * Request router

    src/include/cornet/http/server/router.h and src/src/http/server/router.cc:
    exact paths in a table keyed by method and normalised path, dynamic ones
    in a trie walked with an explicit backtracking stack; path parameters in
    [param_slots_t] of src/include/cornet/http/server/message.h.

    A route's target is opaque here ([target]); registering an exact path
    twice is undefined in the source and is [None] (see [add]). *)

From stdpp Require Import prelude gmap list list_numbers strings.
From Stdlib Require Import ZArith Lia.
From S2P Require Import Prelude Protocol.
Open Scope Z_scope.

(** ** Small vector *)

Module SmallVec.
Section SmallVec.
Context {T : Type} (N : nat) (dummy : T).

Record small_vec_t := mk_vec { inline_ : list T; spill_ : option (list T); size_ : nat }.

Definition init : small_vec_t := mk_vec (replicate N dummy) None 0.

Definition clear (v : small_vec_t) : small_vec_t :=
  mk_vec (inline_ v) (match spill_ v with Some _ => Some [] | None => None end) 0.

Definition push_back (x : T) (v : small_vec_t) : small_vec_t :=
  match spill_ v with
  | Some s => mk_vec (inline_ v) (Some (s ++ [x])) (size_ v)
  | None =>
      if (size_ v <? N)%nat then mk_vec (<[size_ v := x]> (inline_ v)) None (S (size_ v))
      else mk_vec (inline_ v) (Some (take (size_ v) (inline_ v) ++ [x])) (size_ v)
  end.

Definition pop_back (v : small_vec_t) : small_vec_t :=
  match spill_ v with
  | Some s => mk_vec (inline_ v) (Some (removelast s)) (size_ v)
  | None => mk_vec (inline_ v) None (size_ v - 1)
  end.

Definition back (v : small_vec_t) : T :=
  match spill_ v with Some s => List.last s dummy | None => nth (size_ v - 1) (inline_ v) dummy end.

Definition index (v : small_vec_t) (i : nat) : T :=
  match spill_ v with Some s => nth i s dummy | None => nth i (inline_ v) dummy end.

Definition vec_size (v : small_vec_t) : nat :=
  match spill_ v with Some s => length s | None => size_ v end.

(** The elements. *)
Definition contents (v : small_vec_t) : list T :=
  match spill_ v with Some s => s | None => take (size_ v) (inline_ v) end.

Definition ok (v : small_vec_t) : Prop := length (inline_ v) = N /\ (size_ v <= N)%nat.

Lemma contents_size v : ok v -> length (contents v) = vec_size v.
Proof. intros [Hl Hs]. unfold contents, vec_size. destruct (spill_ v); [done|]. rewrite length_take. lia. Qed.

(** The small vector is a list: the spill to the heap is invisible. *)
Lemma small_vec_push v x :
  ok v -> ok (push_back x v) /\ contents (push_back x v) = contents v ++ [x].
Proof.
  intros [Hl Hs]. unfold ok, contents, push_back. destruct v as [inl [s|] sz]; simpl in *; [done|].
  destruct (Nat.ltb_spec sz N); simpl; rewrite ?length_insert; [|done]. split; [lia|].
  rewrite (take_S_r _ _ x) by (apply list_lookup_insert_eq; lia). by rewrite take_insert_ge.
Qed.

Lemma small_vec_pop v :
  ok v -> ok (pop_back v) /\ contents (pop_back v) = removelast (contents v).
Proof.
  intros [Hl Hs]. unfold ok, contents, pop_back. destruct v as [inl [s|] sz]; simpl in *; [done|].
  split; [lia|]. destruct sz as [|sz]; [done|]. simpl. rewrite Nat.sub_0_r. symmetry.
  apply removelast_firstn. lia.
Qed.

Lemma small_vec_read v i :
  ok v -> (i < vec_size v)%nat ->
  index v i = nth i (contents v) dummy /\ back v = List.last (contents v) dummy.
Proof.
  intros [Hl Hs]. unfold vec_size, index, back, contents. destruct v as [inl [s|] sz]; simpl in *; [done|].
  intros Hi. assert (forall k, (k < sz)%nat -> nth k inl dummy = nth k (take sz inl) dummy) as Hnth.
  { intros k Hk. by rewrite !nth_lookup, lookup_take_lt by lia. }
  split; [by apply Hnth|]. rewrite Hnth by lia.
  destruct (exists_last (l := take sz inl)) as (l & y & E).
  { intros E. apply (f_equal length) in E. rewrite length_take in E. simpl in E. lia. }
  assert (sz = S (length l)) as Hsz.
  { apply (f_equal length) in E. rewrite length_take, length_app in E. simpl in E. lia. }
  rewrite E, List.last_last. replace (sz - 1)%nat with (length l) by lia.
  by rewrite app_nth2, Nat.sub_diag by lia.
Qed.
End SmallVec.
End SmallVec.

(** ** Path segments *)

Fixpoint skip_slashes (i : nat) (p : bytes) : nat * bytes :=
  match p with
  | c :: r => if c =? 47 then skip_slashes (S i) r else (i, p)
  | [] => (i, [])
  end.

(** The bytes up to the next slash: [path.substr(i, path.find('/', i) - i)]. *)
Fixpoint take_seg (p : bytes) : bytes :=
  match p with
  | c :: p => if c =? 47 then [] else c :: take_seg p
  | [] => []
  end.

(** A segment with its offset in the path (the view's data pointer). *)
Abbreviation seg_t := (nat * bytes)%type (only parsing).

(** The loop of [split_path] from offset [i], [p] the path from there on;
    each turn consumes a segment, so the path's length bounds the turns. *)
Fixpoint split_loop (fuel i : nat) (p : bytes) : list seg_t :=
  match fuel with
  | O => []
  | S fuel =>
      let '(i, p) := skip_slashes i p in
      match p with
      | [] => []
      | _ => let seg := take_seg p in
             (i, seg) :: split_loop fuel (i + length seg) (drop (length seg) p)
      end
  end.
Definition split_path (path : bytes) : list seg_t := split_loop (length path) 0 path.

Definition method_slot (m : method_t) : nat :=
  match m with
  | Get => 0 | Head => 1 | Post => 2 | Put => 3 | Delete => 4
  | Patch => 5 | Options => 6 | Connect => 7 | Trace => 8 | MUnknown => 9
  end.

(** [normalise_key_into]: [None] when the key does not fit in [cap] bytes. *)
Fixpoint key_loop (fuel cap : nat) (p : bytes) (out : bytes) : option bytes :=
  match fuel with
  | O => Some out
  | S fuel =>
      let '(_, p) := skip_slashes 0 p in
      match p with
      | [] => Some out
      | _ => let seg := take_seg p in
             if (cap <? length out + 1 + length seg)%nat then None
             else key_loop fuel cap (drop (length seg) p) (out ++ 47 :: seg)
      end
  end.
Definition normalise_key_into (m : method_t) (path : bytes) (cap : nat) : option bytes :=
  if (cap <? 2)%nat then None
  else match key_loop (length path) cap path [48 + Z.of_nat (method_slot m)] with
       | Some out => Some (if (length out =? 1)%nat then out ++ [47] else out)
       | None => None
       end.

Definition exact_key (m : method_t) (path : bytes) : bytes := (48 + Z.of_nat (method_slot m)) :: path.

(** Each segment behind a slash. *)
Definition join (segs : list seg_t) : bytes := concat (map (fun s => 47 :: s.2) segs).

Definition normalise (path : bytes) : bytes :=
  let out := join (split_path path) in
  match out with [] => [47] | _ => out end.

(** The stack-built key and the heap-built key. *)
Lemma key_loop_spec fuel cap i p out :
  match key_loop fuel cap p out with
  | Some k => k = out ++ join (split_loop fuel i p)
  | None => (cap < length out + length (join (split_loop fuel i p)))%nat
  end.
Proof.
  revert i p out. induction fuel as [|fuel IH]; intros i p out; cbn [key_loop split_loop];
    [by rewrite app_nil_r|].
  assert (forall j k, (skip_slashes j p).2 = (skip_slashes k p).2) as Hskip.
  { clear. induction p as [|c p IH]; intros j k; simpl; [done|]. by destruct (c =? 47). }
  specialize (Hskip 0%nat i). destruct (skip_slashes 0 p) as [j0 q], (skip_slashes i p) as [j q'].
  simpl in Hskip. subst q'. destruct q as [|c q]; [by rewrite app_nil_r|].
  set (seg := take_seg (c :: q)). unfold join in *. cbn [map concat snd].
  destruct (Nat.ltb_spec cap (length out + 1 + length seg)) as [H|H].
  - simpl. rewrite length_app. simpl. lia.
  - specialize (IH (j + length seg)%nat (drop (length seg) (c :: q)) (out ++ 47 :: seg)).
    destruct (key_loop fuel cap _ _).
    + rewrite IH. by rewrite <- app_assoc.
    + rewrite !length_app in *. simpl in *. lia.
Qed.

Lemma normalise_key_spec m path cap k :
  normalise_key_into m path cap = Some k -> k = exact_key m (normalise path).
Proof.
  unfold normalise_key_into. destruct (cap <? 2)%nat; [done|].
  pose proof (key_loop_spec (length path) cap 0 path [48 + Z.of_nat (method_slot m)]) as H.
  destruct (key_loop _ _ _ _) as [out|]; [|done]. intros [= <-]. unfold exact_key, normalise, split_path.
  rewrite H. by destruct (join _).
Qed.

(** ** Routes and the trie *)

Inductive kind_t := KSync | KAsync | KWebSocket.
Inductive body_policy_t := PAuto | PAggregate | PStream.

(** The handlers of a route are opaque: [target] identifies them. *)
Record route_t := mk_route {
  kind : kind_t; body : body_policy_t; target : Z; param_names : list bytes
}.

Definition with_names (r : route_t) (ns : list bytes) : route_t :=
  mk_route (kind r) (body r) (target r) ns.

(** [routes[kMethodSlots]] holds at most one route per slot. *)
Inductive node_t := Node
  (literal : list (bytes * node_t)) (param : option node_t) (wildcard : option node_t)
  (routes : gmap nat route_t).

Definition literal (n : node_t) := let 'Node l _ _ _ := n in l.
Definition param (n : node_t) := let 'Node _ p _ _ := n in p.
Definition wildcard (n : node_t) := let 'Node _ _ w _ := n in w.
Definition routes (n : node_t) := let 'Node _ _ _ r := n in r.

Definition empty_node : node_t := Node [] None None ∅.
Definition has_any_route (n : node_t) : bool := negb (bool_decide (routes n = ∅)).

Fixpoint find_lit (s : bytes) (l : list (bytes * node_t)) : option node_t :=
  match l with
  | [] => None
  | (k, n) :: l => if bool_decide (k = s) then Some n else find_lit s l
  end.
Fixpoint set_lit (s : bytes) (n : node_t) (l : list (bytes * node_t)) : list (bytes * node_t) :=
  match l with
  | [] => [(s, n)]
  | (k, m) :: l => if bool_decide (k = s) then (k, n) :: l else (k, m) :: set_lit s n l
  end.

Definition is_param (seg : bytes) : bool := match seg with c :: _ => c =? 58 | [] => false end.
Definition is_wild (seg : bytes) : bool := match seg with c :: _ => c =? 42 | [] => false end.

Definition set_route (slot : nat) (r : route_t) (n : node_t) : node_t :=
  Node (literal n) (param n) (wildcard n) (<[slot := r]> (routes n)).

(** The walk of [add] that finds or makes the node of a dynamic path,
    collecting the parameter names, and stores the route there. *)
Fixpoint add_walk (segs : list bytes) (names : list bytes) (slot : nat) (r : route_t) (n : node_t) : node_t :=
  match segs with
  | [] => set_route slot (with_names r names) n
  | seg :: segs =>
      if is_param seg then
        Node (literal n)
          (Some (add_walk segs (names ++ [drop 1 seg]) slot r (default empty_node (param n))))
          (wildcard n) (routes n)
      else if is_wild seg then
        Node (literal n) (param n)
          (Some (set_route slot (with_names r (names ++ [drop 1 seg])) (default empty_node (wildcard n))))
          (routes n)
      else
        Node (set_lit seg (add_walk segs names slot r (default empty_node (find_lit seg (literal n)))) (literal n))
          (param n) (wildcard n) (routes n)
  end.

Record router_t := mk_router { exact : gmap bytes route_t; root : node_t; count_ : Z }.

Definition empty_router : router_t := mk_router ∅ empty_node 0.

Definition dynamic (path : bytes) : bool :=
  existsb (fun s => is_param s.2 || is_wild s.2) (split_path path).

(** Registering an exact path twice reads the new route through a pointer
    whose owner was moved into [emplace]: [None]. *)
Definition add (m : method_t) (path : bytes) (r : route_t) (rt : router_t) : option router_t :=
  let count := u32 (count_ rt + 1) in
  if negb (dynamic path) then
    let key := exact_key m (normalise path) in
    match exact rt !! key with
    | Some _ => None
    | None => Some (mk_router (<[key := r]> (exact rt)) (root rt) count)
    end
  else
    Some (mk_router (exact rt)
            (add_walk (map snd (split_path path)) (param_names r) (method_slot m) r (root rt)) count).

(** ** Matching *)

(** [param_slots_t] *)
Definition kMax : nat := 8.
Record param_slots_t := mk_slots { slots : list (bytes * bytes) }.
Definition slots_add (name value : bytes) (s : param_slots_t) : param_slots_t :=
  if (length (slots s) <? kMax)%nat then mk_slots (slots s ++ [(name, value)]) else s.
Definition slots_get (name : bytes) (s : param_slots_t) : bytes :=
  match List.find (fun e => bool_decide (e.1 = name)) (slots s) with Some e => e.2 | None => [] end.

Record match_t := mk_match { route : option route_t; method_mismatch : bool }.

Inductive alt_t := AParam | AWildcard.
(** [fr_seg] is the rest of the segments from index [seg]. *)
Record frame_t := mk_frame { fr_node : node_t; fr_seg : list seg_t; fr_params : nat; fr_alt : alt_t }.

Definition capture (v : bytes) (captured : list bytes) : list bytes :=
  if (length captured <? kMax)%nat then captured ++ [v] else captured.

(** [try_descend]: the node reached when the segments are used up, or the
    captures and the stack of alternatives left when it is stuck. *)
Fixpoint try_descend (path : bytes) (segs : list seg_t) (n : node_t) (cap : list bytes) (stack : list frame_t)
    : (node_t * list bytes) + (list bytes * list frame_t) :=
  match segs with
  | [] => inl (n, cap)
  | (off, seg) :: rest =>
      match find_lit seg (literal n) with
      | Some child =>
          let stack :=
            match param n with
            | Some _ => mk_frame n segs (length cap) AParam :: stack
            | None => match wildcard n with
                      | Some _ => mk_frame n segs (length cap) AWildcard :: stack
                      | None => stack
                      end
            end in
          try_descend path rest child cap stack
      | None =>
          match param n with
          | Some p =>
              let stack := match wildcard n with
                           | Some _ => mk_frame n segs (length cap) AWildcard :: stack
                           | None => stack
                           end in
              try_descend path rest p (capture seg cap) stack
          | None =>
              match wildcard n with
              | Some w => inl (w, capture (drop off path) cap)
              | None => inr (cap, stack)
              end
          end
      end
  end.

(** The loop [while (!matched && !stack.empty())]. *)
Fixpoint backtrack (fuel : nat) (path : bytes) (cap : list bytes) (stack : list frame_t)
    : option (option (node_t * list bytes)) :=
  match stack with
  | [] => Some None
  | f :: stack =>
      match fuel with
      | O => None
      | S fuel =>
          let cap := take (fr_params f) cap in
          let n := fr_node f in
          match fr_seg f with
          | [] => None
          | (off, seg) :: rest =>
              match fr_alt f, param n with
              | AParam, Some p =>
                  let stack := match wildcard n with
                               | Some _ => mk_frame n (fr_seg f) (length cap) AWildcard :: stack
                               | None => stack
                               end in
                  match try_descend path rest p (capture seg cap) stack with
                  | inl r => Some (Some r)
                  | inr (cap, stack) => backtrack fuel path cap stack
                  end
              | _, _ =>
                  match wildcard n with
                  | Some w => Some (Some (w, capture (drop off path) cap))
                  | None => backtrack fuel path cap stack
                  end
              end
          end
      end
  end.

(** Twice as many turns per remaining segment are enough ([walk_dfs]). *)
Definition walk_fuel (segs : list seg_t) : nat := (2 ^ (length segs + 1))%nat.

Definition walk (path : bytes) (root : node_t) : option (node_t * list bytes) :=
  let segs := split_path path in
  match try_descend path segs root [] [] with
  | inl r => Some r
  | inr (cap, stack) =>
      match backtrack (walk_fuel segs) path cap stack with Some r => r | None => None end
  end.

Fixpoint bind_params (names values : list bytes) (out : param_slots_t) : param_slots_t :=
  match names, values with
  | n :: names, v :: values => bind_params names values (slots_add n v out)
  | _, _ => out
  end.

Definition match_ (m : method_t) (path : bytes) (rt : router_t) : match_t * param_slots_t :=
  let out := mk_slots [] in
  let hit := match normalise_key_into m path 256 with
             | Some key => exact rt !! key
             | None => exact rt !! exact_key m (normalise path)
             end in
  match hit with
  | Some r => (mk_match (Some r) false, out)
  | None =>
      match walk path (root rt) with
      | None => (mk_match None false, out)
      | Some (n, captured) =>
          match routes n !! method_slot m with
          | None => (mk_match None (has_any_route n), out)
          | Some r => (mk_match (Some r) false, bind_params (param_names r) captured out)
          end
      end
  end.

(** ** The walk is a depth-first search *)

Definition or_else {A} (x y : option A) : option A := match x with Some _ => x | None => y end.
Lemma or_else_assoc {A} (x y z : option A) : or_else (or_else x y) z = or_else x (or_else y z).
Proof. by destruct x. Qed.

(** Literal child first, then the parameter, then the wildcard. *)
Fixpoint dfs (path : bytes) (segs : list seg_t) (n : node_t) (cap : list bytes) : option (node_t * list bytes) :=
  match segs with
  | [] => Some (n, cap)
  | (off, seg) :: rest =>
      or_else (match find_lit seg (literal n) with Some c => dfs path rest c cap | None => None end)
        (or_else (match param n with Some p => dfs path rest p (capture seg cap) | None => None end)
           (match wildcard n with Some w => Some (w, capture (drop off path) cap) | None => None end))
  end.

(** What a suspended alternative still offers. *)
Definition eval_frame (path : bytes) (cap : list bytes) (f : frame_t) : option (node_t * list bytes) :=
  match fr_seg f with
  | [] => None
  | (off, seg) :: rest =>
      let wild := match wildcard (fr_node f) with
                  | Some w => Some (w, capture (drop off path) cap) | None => None end in
      match fr_alt f with
      | AParam => or_else (match param (fr_node f) with
                           | Some p => dfs path rest p (capture seg cap) | None => None end) wild
      | AWildcard => wild
      end
  end.

Fixpoint eval_stack (path : bytes) (cap : list bytes) (s : list frame_t) : option (node_t * list bytes) :=
  match s with
  | [] => None
  | f :: s => or_else (eval_frame path (take (fr_params f) cap) f) (eval_stack path cap s)
  end.

Fixpoint stack_ok (b : nat) (s : list frame_t) : Prop :=
  match s with
  | [] => True
  | f :: s => (fr_params f <= b)%nat /\ fr_seg f <> [] /\
      (match fr_alt f with AParam => param (fr_node f) <> None | AWildcard => wildcard (fr_node f) <> None end) /\
      stack_ok (fr_params f) s
  end.

Definition weight (f : frame_t) : nat :=
  match fr_alt f with AParam => 2 ^ length (fr_seg f) | AWildcard => 1 end.
Fixpoint weights (s : list frame_t) : nat :=
  match s with [] => 0 | f :: s => weight f + weights s end.

Lemma stack_ok_mono a b s : (a <= b)%nat -> stack_ok a s -> stack_ok b s.
Proof. destruct s as [|f s]; simpl; [done|]. intros Hab (H1 & H2 & H3 & H4). repeat split; (done || lia). Qed.

Lemma eval_stack_take path b s c c' :
  stack_ok b s -> take b c = take b c' -> eval_stack path c s = eval_stack path c' s.
Proof.
  revert b. induction s as [|f s IH]; intros b; simpl; [done|]. intros (H1 & _ & _ & H4) E.
  assert (take (fr_params f) c = take (fr_params f) c') as E'.
  { rewrite <- (Nat.min_l (fr_params f) b) by done. by rewrite <- !take_take, E. }
  by rewrite E', (IH _ H4 E').
Qed.

Lemma take_capture v cap : take (length cap) (capture v cap) = cap.
Proof. unfold capture. destruct (_ <? _)%nat; [apply take_app_length|]. by rewrite firstn_all. Qed.

Lemma capture_length v cap : (length cap <= length (capture v cap))%nat.
Proof. unfold capture. destruct (_ <? _)%nat; [rewrite length_app; simpl; lia|done]. Qed.

Lemma pow2_pos k : (1 <= 2 ^ k)%nat.
Proof. induction k; simpl; lia. Qed.

(** [try_descend] either reaches what the search finds first, or leaves a
    stack that offers everything the search had left. *)
Lemma try_descend_spec path segs n cap s :
  stack_ok (length cap) s ->
  match try_descend path segs n cap s with
  | inl r => dfs path segs n cap = Some r
  | inr (cap', s') => stack_ok (length cap') s' /\
      eval_stack path cap' s' = or_else (dfs path segs n cap) (eval_stack path cap s) /\
      (weights s' + 2 <= weights s + 2 ^ (length segs + 1))%nat
  end.
Proof.
  revert n cap s. induction segs as [|[off seg] rest IH]; intros n cap s Hok; [done|].
  cbn [try_descend dfs length]. destruct (find_lit seg (literal n)) as [child|].
  - set (s2 := match param n with Some _ => _ | None => _ end).
    assert (stack_ok (length cap) s2 /\ (weights s2 <= weights s + 2 ^ S (length rest))%nat /\
      eval_stack path cap s2 = or_else (or_else (match param n with Some p => dfs path rest p (capture seg cap) | None => None end)
        (match wildcard n with Some w => Some (w, capture (drop off path) cap) | None => None end)) (eval_stack path cap s))
      as (Hok2 & Hw2 & He2).
    { pose proof (pow2_pos (S (length rest))). unfold s2.
      destruct (param n) as [p|] eqn:Ep; [|destruct (wildcard n) as [w|] eqn:Ew; [|by repeat split; [|lia]]].
      all: cbn [stack_ok eval_stack fr_params fr_seg fr_alt fr_node weights];
        unfold eval_frame; cbn [fr_params fr_seg fr_alt fr_node]; rewrite firstn_all, ?Ep, ?Ew.
      all: repeat split; try done; unfold weight; cbn [fr_alt fr_seg length]; lia. }
    specialize (IH child cap s2 Hok2). destruct (try_descend path rest child cap s2) as [r|[cap' s']].
    + by rewrite IH.
    + destruct IH as (H1 & H2 & H3). split; [done|]. split.
      * by rewrite H2, He2, !or_else_assoc.
      * rewrite Nat.add_1_r in *. simpl in *. lia.
  - destruct (param n) as [p|] eqn:Ep.
    + set (s2 := match wildcard n with Some _ => _ | None => _ end).
      assert (stack_ok (length cap) s2 /\ (weights s2 <= weights s + 1)%nat /\
        eval_stack path cap s2 = or_else (match wildcard n with Some w => Some (w, capture (drop off path) cap) | None => None end)
          (eval_stack path cap s)) as (Hok2 & Hw2 & He2).
      { unfold s2. destruct (wildcard n) as [w|] eqn:Ew; [|by repeat split; [|lia]].
        cbn [stack_ok eval_stack fr_params fr_seg fr_alt fr_node weights];
        unfold eval_frame; cbn [fr_params fr_seg fr_alt fr_node]; rewrite firstn_all, Ew.
        repeat split; try done; unfold weight; cbn [fr_alt fr_seg length]; lia. }
      pose proof (stack_ok_mono _ _ _ (capture_length seg cap) Hok2) as Hok3.
      specialize (IH p (capture seg cap) s2 Hok3).
      destruct (try_descend path rest p (capture seg cap) s2) as [r|[cap' s']].
      * by rewrite IH.
      * destruct IH as (H1 & H2 & H3). split; [done|]. split.
        -- rewrite H2. cbn [or_else]. rewrite or_else_assoc. f_equal. rewrite <- He2.
           apply (eval_stack_take _ (length cap)); [done|]. by rewrite take_capture, firstn_all.
        -- rewrite Nat.add_1_r in *. pose proof (pow2_pos (S (length rest))). simpl in *. lia.
    + destruct (wildcard n) as [w|]; [done|]. cbn [or_else]. split; [done|]. split; [done|].
      rewrite Nat.add_1_r. simpl. pose proof (pow2_pos (length rest)). lia.
Qed.

Lemma backtrack_spec fuel path cap s :
  stack_ok (length cap) s -> (weights s <= fuel)%nat ->
  backtrack fuel path cap s = Some (eval_stack path cap s).
Proof.
  revert cap s. induction fuel as [|fuel IH]; intros cap [|f s] Hok Hw; try done.
  { cbn [weights] in Hw. unfold weight in Hw. pose proof (pow2_pos (length (fr_seg f))).
    destruct (fr_alt f); lia. }
  destruct Hok as (Hp & Hs & Ha & Hok). cbn [backtrack eval_stack weights] in *.
  set (c := take (fr_params f) cap) in *.
  assert (length c = fr_params f) as Hc by (unfold c; rewrite length_take; lia).
  assert (eval_stack path cap s = eval_stack path c s) as Ec.
  { apply (eval_stack_take _ (fr_params f)); [done|]. unfold c. by rewrite take_take, Nat.min_id. }
  rewrite Ec. clearbody c. unfold eval_frame. destruct (fr_seg f) as [|[off seg] rest] eqn:Es; [done|].
  unfold weight in Hw. rewrite Es in Hw. destruct (fr_alt f).
  - destruct (param (fr_node f)) as [p|] eqn:Ep; [|done].
    set (s2 := match wildcard (fr_node f) with Some _ => _ | None => _ end).
    assert (stack_ok (length c) s2 /\ (weights s2 <= weights s + 1)%nat /\
      eval_stack path c s2 = or_else (match wildcard (fr_node f) with
        | Some w => Some (w, capture (drop off path) c) | None => None end) (eval_stack path c s)) as (Hok2 & Hw2 & He2).
    { rewrite <- Hc in Hok. unfold s2. destruct (wildcard (fr_node f)) as [w|] eqn:Ew; [|by repeat split; [|lia]].
      cbn [stack_ok eval_stack fr_params fr_seg fr_alt fr_node weights]; unfold eval_frame;
        cbn [fr_params fr_seg fr_alt fr_node]; rewrite firstn_all, Ew.
      repeat split; try done; try congruence; unfold weight; cbn [fr_alt]; lia. }
    pose proof (stack_ok_mono _ _ _ (capture_length seg c) Hok2) as Hok3.
    pose proof (try_descend_spec path rest p (capture seg c) s2 Hok3) as H.
    destruct (try_descend path rest p (capture seg c) s2) as [r|[c' s']]; [by rewrite H|].
    destruct H as (H1 & H2 & H3). rewrite IH; [|done|].
    + rewrite H2, or_else_assoc, <- He2. do 2 f_equal.
      apply (eval_stack_take _ (length c)); [done|]. by rewrite take_capture, firstn_all.
    + rewrite Nat.add_1_r in H3. simpl in *. lia.
  - destruct (wildcard (fr_node f)) as [w|]; [|done]. destruct (param (fr_node f)); done.
Qed.

Lemma walk_dfs path root : walk path root = dfs path (split_path path) root [].
Proof.
  unfold walk. pose proof (try_descend_spec path (split_path path) root [] [] I) as H.
  destruct (try_descend path (split_path path) root [] []) as [r|[cap s]]; [done|].
  destruct H as (H1 & H2 & H3). rewrite backtrack_spec; [|done|].
  - rewrite H2. by destruct (dfs _ _ _ _).
  - unfold walk_fuel. simpl in H3. lia.
Qed.

(** the walk with its explicit stack always terminates within its
    bound and finds exactly what the recursive search finds: at each node the
    literal child is tried before the parameter, and the parameter before
    the wildcard, every alternative reachable after a dead end. *)
Theorem router_walk_is_search path root : walk path root = dfs path (split_path path) root [].
Proof. apply walk_dfs. Qed.

(** ** The trie as a table of patterns *)

Inductive pelem := PLit (s : bytes) | PPar | PWild.
#[global] Instance pelem_eq_dec : EqDecision pelem.
Proof. solve_decision. Defined.

(** The pattern a registered path denotes; a wildcard ends it. *)
Fixpoint pattern (segs : list bytes) : list pelem :=
  match segs with
  | [] => []
  | s :: segs => if is_param s then PPar :: pattern segs
                 else if is_wild s then [PWild] else PLit s :: pattern segs
  end.
Fixpoint names (segs : list bytes) : list bytes :=
  match segs with
  | [] => []
  | s :: segs => if is_param s then drop 1 s :: names segs
                 else if is_wild s then [drop 1 s] else names segs
  end.

Fixpoint node_at (p : list pelem) (n : node_t) : option node_t :=
  match p with
  | [] => Some n
  | e :: p =>
      match (match e with PLit s => find_lit s (literal n) | PPar => param n | PWild => wildcard n end) with
      | Some m => node_at p m
      | None => None
      end
  end.
Definition table (n : node_t) (p : list pelem) (slot : nat) : option route_t :=
  match node_at p n with Some m => routes m !! slot | None => None end.

Lemma find_set_lit s t n l :
  find_lit t (set_lit s n l) = if decide (s = t) then Some n else find_lit t l.
Proof.
  induction l as [|[k m] l IH]; simpl.
  { case_bool_decide; case_decide; congruence. }
  destruct (decide (k = s)) as [->|Hne].
  - rewrite (bool_decide_eq_true_2 (s = s)) by done. simpl. case_bool_decide; case_decide; congruence.
  - rewrite (bool_decide_eq_false_2 (k = s)) by done. simpl. rewrite IH.
    case_bool_decide; case_decide; congruence.
Qed.

Lemma table_empty p slot : table empty_node p slot = None.
Proof.
  unfold table. by destruct p as [|[] p].
Qed.

Lemma table_default o p slot :
  table (default empty_node o) p slot = match o with Some n => table n p slot | None => None end.
Proof. destruct o; [done|apply table_empty]. Qed.

Lemma table_cons n e p slot :
  table n (e :: p) slot =
  match (match e with PLit s => find_lit s (literal n) | PPar => param n | PWild => wildcard n end) with
  | Some m => table m p slot | None => None end.
Proof. unfold table. simpl. by destruct (match e with PLit _ => _ | PPar => _ | PWild => _ end). Qed.

Lemma table_set_route slot r n p s :
  table (set_route slot r n) p s = if decide (p = [] /\ s = slot) then Some r else table n p s.
Proof.
  destruct p as [|e p].
  - unfold table. simpl. destruct (decide (s = slot)) as [->|Hne].
    + rewrite decide_True by done. apply lookup_insert_eq.
    + rewrite decide_False by naive_solver. by apply lookup_insert_ne.
  - rewrite decide_False by naive_solver. by rewrite !table_cons.
Qed.

(** Registration updates the table at one pattern and one method. *)
Lemma table_add segs ns slot r n p s :
  table (add_walk segs ns slot r n) p s =
  if decide (p = pattern segs /\ s = slot) then Some (with_names r (ns ++ names segs)) else table n p s.
Proof.
  revert ns n p. induction segs as [|seg segs IH]; intros ns n p; cbn [add_walk pattern names].
  { rewrite table_set_route, app_nil_r. by repeat case_decide. }
  destruct (is_param seg); [|destruct (is_wild seg)].
  all: destruct p as [|e p]; [by rewrite decide_False by naive_solver|].
  all: rewrite !table_cons; destruct e as [t| |]; cbn [literal param wildcard];
    try (by rewrite decide_False by naive_solver).
  - rewrite IH, table_default, <- app_assoc.
    destruct (decide (p = pattern segs /\ s = slot)) as [[-> ->]|Hn].
    + by rewrite decide_True by done.
    + by rewrite decide_False by naive_solver.
  - rewrite table_set_route, table_default. destruct (decide (p = [] /\ s = slot)) as [[-> ->]|Hn].
    + by rewrite decide_True by done.
    + by rewrite decide_False by naive_solver.
  - rewrite find_set_lit. destruct (decide (seg = t)) as [->|Hne].
    + rewrite IH, table_default. destruct (decide (p = pattern segs /\ s = slot)) as [[-> ->]|Hn].
      * by rewrite decide_True by done.
      * by rewrite decide_False by naive_solver.
    + by rewrite decide_False by naive_solver.
Qed.

(** ** Matching against registered patterns *)

(** The values a pattern's parameters take on a path, when it matches:
    a parameter takes one segment, a wildcard the rest of the path. *)
Fixpoint pmatch (path : bytes) (p : list pelem) (segs : list seg_t) : option (list bytes) :=
  match p, segs with
  | [], [] => Some []
  | PLit s :: p, (_, t) :: segs => if decide (s = t) then pmatch path p segs else None
  | PPar :: p, (_, t) :: segs => match pmatch path p segs with Some vs => Some (t :: vs) | None => None end
  | [PWild], (off, _) :: _ => Some [drop off path]
  | _, _ => None
  end.

Definition captures (vs : list bytes) (cap : list bytes) : list bytes :=
  fold_left (fun c v => capture v c) vs cap.

Lemma dfs_sound path segs n cap n' cap' :
  dfs path segs n cap = Some (n', cap') ->
  exists p vs, node_at p n = Some n' /\ pmatch path p segs = Some vs /\ cap' = captures vs cap.
Proof.
  revert n cap. induction segs as [|[off seg] rest IH]; intros n cap; cbn [dfs].
  { intros [= <- <-]. by exists [], []. }
  destruct (match find_lit seg (literal n) with Some _ => _ | None => _ end) as [[n1 c1]|] eqn:E1; cbn [or_else].
  { intros [= <- <-]. destruct (find_lit seg (literal n)) as [c|] eqn:El; [|done].
    destruct (IH _ _ E1) as (p & vs & H1 & H2 & H3). exists (PLit seg :: p), vs. simpl.
    by rewrite El, decide_True. }
  destruct (match param n with Some _ => _ | None => _ end) as [[n2 c2]|] eqn:E2; cbn [or_else].
  { intros [= <- <-]. destruct (param n) as [c|] eqn:Ep; [|done].
    destruct (IH _ _ E2) as (p & vs & H1 & H2 & H3). exists (PPar :: p), (seg :: vs). simpl.
    by rewrite Ep, H2. }
  destruct (wildcard n) as [w|] eqn:Ew; [|done]. intros [= <- <-].
  exists [PWild], [drop off path]. simpl. by rewrite Ew.
Qed.

Lemma dfs_complete path segs n cap p n' vs :
  node_at p n = Some n' -> pmatch path p segs = Some vs -> dfs path segs n cap <> None.
Proof.
  revert n cap p vs. induction segs as [|[off seg] rest IH]; intros n cap p vs Hn Hm; [done|].
  cbn [dfs]. destruct p as [|[t| |] p]; simpl in Hn, Hm; try done.
  - destruct (decide (t = seg)) as [->|]; [|done]. destruct (find_lit seg (literal n)) as [c|]; [|done].
    specialize (IH c cap p vs Hn Hm). by destruct (dfs path rest c cap).
  - destruct (param n) as [c|]; [|done]. destruct (pmatch path p rest) as [vs'|] eqn:Em; [|done].
    specialize (IH c (capture seg cap) p vs' Hn Em).
    destruct (dfs path rest c (capture seg cap)); [|done]. by destruct (match find_lit _ _ with Some _ => _ | None => _ end).
  - destruct (wildcard n) as [w|]; [|done].
    by destruct (match find_lit _ _ with Some _ => _ | None => _ end), (match param n with Some _ => _ | None => _ end).
Qed.

(** A registration, and the router built from a list of them. *)
Record reg_t := mk_reg { rg_method : method_t; rg_path : bytes; rg_route : route_t }.

Fixpoint build (regs : list reg_t) : option router_t :=
  match regs with
  | [] => Some empty_router
  | g :: regs => match build regs with
                 | Some rt => add (rg_method g) (rg_path g) (rg_route g) rt
                 | None => None
                 end
  end.

Definition rg_segs (g : reg_t) : list bytes := map snd (split_path (rg_path g)).
Definition rg_key (g : reg_t) : bytes := exact_key (rg_method g) (normalise (rg_path g)).
Definition rg_named (g : reg_t) : route_t :=
  with_names (rg_route g) (param_names (rg_route g) ++ names (rg_segs g)).

Record built (rt : router_t) (regs : list reg_t) : Prop := {
  bl_exact : forall k r, exact rt !! k = Some r ->
    exists g, g ∈ regs /\ dynamic (rg_path g) = false /\ rg_key g = k /\ rg_route g = r;
  bl_exact_all : forall g, g ∈ regs -> dynamic (rg_path g) = false ->
    exact rt !! rg_key g = Some (rg_route g);
  bl_table : forall p s r, table (root rt) p s = Some r ->
    exists g, g ∈ regs /\ dynamic (rg_path g) = true /\ pattern (rg_segs g) = p /\
      method_slot (rg_method g) = s /\ r = rg_named g;
  bl_table_all : forall g, g ∈ regs -> dynamic (rg_path g) = true ->
    table (root rt) (pattern (rg_segs g)) (method_slot (rg_method g)) <> None
}.

Lemma build_built regs rt : build regs = Some rt -> built rt regs.
Proof.
  revert rt. induction regs as [|g regs IH]; intros rt; simpl.
  { intros [= <-]. split; simpl; try set_solver.
    intros p s r. by rewrite table_empty. }
  destruct (build regs) as [rt0|]; [|done]. specialize (IH _ eq_refl). destruct IH as [H1 H2 H3 H4].
  unfold add. destruct (dynamic (rg_path g)) eqn:Hd; cbn [negb].
  - intros [= <-]. split; simpl.
    + intros k r Hk. destruct (H1 _ _ Hk) as (g' & ? & ?). exists g'. set_solver.
    + intros g' [->|Hin]%elem_of_cons Hd'; [congruence|]. by apply H2.
    + intros p s r. rewrite table_add. case_decide as E.
      * intros [= <-]. destruct E as [-> ->]. exists g. unfold rg_named, rg_segs. set_solver.
      * intros Hr. destruct (H3 _ _ _ Hr) as (g' & ? & ?). exists g'. set_solver.
    + intros g' Hin Hd'. rewrite table_add. case_decide; [done|].
      apply elem_of_cons in Hin as [->|Hin]; [naive_solver|]. by apply H4.
  - fold (rg_key g). destruct (exact rt0 !! rg_key g) eqn:Ek; [done|]. intros [= <-]. split; simpl.
    + intros k r. destruct (decide (rg_key g = k)) as [<-|Hne].
      * rewrite lookup_insert_eq. intros [= <-]. exists g. set_solver.
      * rewrite lookup_insert_ne by done. intros Hk. destruct (H1 _ _ Hk) as (g' & ? & ?). exists g'. set_solver.
    + intros g' [->|Hin]%elem_of_cons Hd'; [by rewrite lookup_insert_eq|].
      rewrite lookup_insert_ne; [by apply H2|]. intros E. rewrite E, (H2 _ Hin Hd') in Ek. done.
    + intros p s r Hr. destruct (H3 _ _ _ Hr) as (g' & ? & ?). exists g'. set_solver.
    + intros g' [->|Hin]%elem_of_cons Hd'; [congruence|]. by apply H4.
Qed.

Lemma method_slot_inj m m' : method_slot m = method_slot m' -> m = m'.
Proof. by destruct m, m'. Qed.

(** Both ways of building the key probe the table with the same one. *)
Lemma match_key m path rt :
  (match normalise_key_into m path 256 with
   | Some key => exact rt !! key
   | None => exact rt !! exact_key m (normalise path)
   end) = exact rt !! exact_key m (normalise path).
Proof.
  destruct (normalise_key_into m path 256) as [k|] eqn:E; [|done].
  by rewrite (normalise_key_spec _ _ _ _ E).
Qed.

(** How a registration answers a request. *)
Definition answers (g : reg_t) (m : method_t) (path : bytes) (r : route_t) (ps : param_slots_t) : Prop :=
  rg_method g = m /\
  if dynamic (rg_path g)
  then exists vs, pmatch path (pattern (rg_segs g)) (split_path path) = Some vs /\
         r = rg_named g /\ ps = bind_params (param_names r) (captures vs []) (mk_slots [])
  else normalise (rg_path g) = normalise path /\ r = rg_route g /\ ps = mk_slots [].

(** C7: the router is sound and its search complete. A matched route was
    registered for that method under a path that matches the request, and
    its parameters are bound to the segments the pattern assigns them; an
    exact registration of the request's path always answers; and when any
    registered pattern matches, the trie walk reaches a node. *)
Theorem router_match_correct regs rt m path :
  build regs = Some rt ->
  (forall r mm ps, match_ m path rt = (mk_match (Some r) mm, ps) -> exists g, g ∈ regs /\ answers g m path r ps) /\
  (forall g, g ∈ regs -> dynamic (rg_path g) = false -> rg_method g = m ->
     normalise (rg_path g) = normalise path ->
     match_ m path rt = (mk_match (Some (rg_route g)) false, mk_slots [])) /\
  (forall g vs, g ∈ regs -> dynamic (rg_path g) = true ->
     pmatch path (pattern (rg_segs g)) (split_path path) = Some vs -> walk path (root rt) <> None).
Proof.
  intros Hb. apply build_built in Hb as [H1 H2 H3 H4]. unfold match_. rewrite match_key. repeat split.
  - intros r mm ps. destruct (exact rt !! _) as [r'|] eqn:Ek.
    + intros [= <- <- <-]. destruct (H1 _ _ Ek) as (g & Hin & Hd & Hk & Hr). exists g. split; [done|].
      unfold answers. rewrite Hd. unfold rg_key, exact_key in Hk. simplify_eq.
      split; [apply method_slot_inj; lia|]. done.
    + destruct (walk path (root rt)) as [[n cap]|] eqn:Ew; [|done].
      destruct (routes n !! method_slot m) as [r'|] eqn:Er; [|done]. intros [= <- <- <-].
      rewrite walk_dfs in Ew. apply dfs_sound in Ew as (p & vs & Hn & Hm & ->).
      destruct (H3 p (method_slot m) r') as (g & Hin & Hd & Hp & Hs & Hr); [unfold table; by rewrite Hn|].
      exists g. split; [done|]. unfold answers. rewrite Hd. split; [by apply method_slot_inj|].
      exists vs. by rewrite Hp.
  - intros g Hin Hd <- Hn. rewrite <- Hn. fold (rg_key g). by rewrite (H2 _ Hin Hd).
  - intros g vs Hin Hd Hm. rewrite walk_dfs. specialize (H4 _ Hin Hd). unfold table in H4.
    destruct (node_at _ _) as [n|] eqn:En; [|done]. by eapply dfs_complete.
Qed.

Definition sample_route (t : Z) : route_t := mk_route KSync PAuto t [].
Definition sample_regs : list reg_t :=
  [mk_reg Get (str "/users/:id/*rest") (sample_route 1); mk_reg Get (str "/users/me") (sample_route 2)].

Lemma router_match_correct_witness :
  exists rt, build sample_regs = Some rt /\
    match_ Get (str "/users//me/") rt = (mk_match (Some (sample_route 2)) false, mk_slots []) /\
    walk (str "/users/7/a/b") (root rt) <> None.
Proof.
  destruct (build sample_regs) as [rt|] eqn:E; [|vm_compute in E; discriminate E].
  exists rt. split; [reflexivity|].
  destruct (router_match_correct sample_regs rt Get (str "/users//me/") E) as (_ & H & _).
  destruct (router_match_correct sample_regs rt Get (str "/users/7/a/b") E) as (_ & _ & H2).
  split.
  - apply (H (mk_reg Get (str "/users/me") (sample_route 2))); [|reflexivity|reflexivity|reflexivity].
    apply list_elem_of_here || (apply list_elem_of_further; apply list_elem_of_here).
  - eapply (H2 (mk_reg Get (str "/users/:id/*rest") (sample_route 1)));
      [apply list_elem_of_here|reflexivity|reflexivity].
Defined.

(** the search stops at the first node it reaches, whether or not that
    node carries a route: with /a/b/:x and /a/:y registered, a request for
    /a/b ends on the interior node of the first pattern and is not found,
    although the second pattern matches it. *)
Theorem router_interior_node_shadows :
  let regs := [mk_reg Get (str "/a/b/:x") (sample_route 1); mk_reg Get (str "/a/:y") (sample_route 2)] in
  exists rt, build regs = Some rt /\
    pmatch (str "/a/b") (pattern (map snd (split_path (str "/a/:y")))) (split_path (str "/a/b")) = Some [str "b"] /\
    match_ Get (str "/a/b") rt = (mk_match None false, mk_slots []).
Proof. eexists. split; [vm_compute; reflexivity|]. split; reflexivity. Qed.

(** a request for an exact path registered under another method only
    is reported as not found, not as a method mismatch. *)
Theorem router_exact_path_no_mismatch :
  exists rt, build [mk_reg Get (str "/x") (sample_route 1)] = Some rt /\
    match_ Get (str "/x") rt = (mk_match (Some (sample_route 1)) false, mk_slots []) /\
    match_ Post (str "/x") rt = (mk_match None false, mk_slots []).
Proof. eexists. split; [vm_compute; reflexivity|]. split; vm_compute; reflexivity. Qed.
