(* ===== verification/ServerResponse.v ===== *)
(** * Responses: building, framing, batching, streaming

    [response_t] and [body_writer_t] of src/include/cornet/http/server/message.h
    and src/src/http/server/message.cc, and the writing half of
    [connection_t] (src/src/http/server/connection.cc): framing a response
    into the staging buffers, batching the responses of pipelined requests
    into one gather-write, error and interim responses, and chunked streaming.

    The transport is the bytes it has taken and the number of bytes it will
    still take before it fails.  A file body is the bytes of the file; the
    ownership of blocks and pinned objects is not repeated here (see
    [Buffer.Pool]), a body outside the staging buffers is its bytes. *)

From stdpp Require Import prelude list list_numbers strings.
From Stdlib Require Import ZArith Lia.
From S2P Require Import Prelude Protocol Buffer Serializer HeadLines.
Open Scope Z_scope.

(** ** State *)

Record framing_seen_t := mk_seen {
  saw_content_length_ : bool; saw_connection_ : bool; saw_date_ : bool; saw_transfer_encoding_ : bool
}.

Record response_t := mk_resp {
  status_ : Z; source_ : body_source_t;
  hdr_off_ : Z; hdr_end_ : Z; body_off_ : Z; body_len_ : Z;
  external_ : bytes; file_ : option bytes; seen_ : framing_seen_t; resp_err_ : error_t
}.

Record pending_t := mk_pending {
  head_off : Z; head_len : Z; hdr_off : Z; hdr_len : Z;
  source : body_source_t; body_off : Z; body_len : Z; external : bytes; file_bytes : bytes
}.
Definition no_pending : pending_t := mk_pending 0 0 0 0 SrcNone 0 0 [] [].

(** The writing half of a connection. *)
Record conn_t := mk_conn {
  head_out_ : out_buffer_t; hdr_out_ : out_buffer_t; body_out_ : out_buffer_t; stream_out_ : out_buffer_t;
  resp_ : response_t; pending_ : list pending_t;
  in_body_ : bool; close_after_flush_ : bool; closing_ : bool;
  streaming_write_ : bool; headers_staged_ : bool; stream_finished_ : bool;
  wire : bytes; accepts : Z
}.

Record server_options_t := mk_server { serve_date_header : bool; serve_server_header : bool; http_date : option bytes }.

Definition kPending : nat := 64.
Definition kMaxPendingIov : nat := 192.

Definition set_resp (r : response_t) (c : conn_t) : conn_t :=
  mk_conn (head_out_ c) (hdr_out_ c) (body_out_ c) (stream_out_ c) r (pending_ c) (in_body_ c) (close_after_flush_ c) (closing_ c)
    (streaming_write_ c) (headers_staged_ c) (stream_finished_ c) (wire c) (accepts c).
Definition set_head (o : out_buffer_t) (c : conn_t) : conn_t :=
  mk_conn o (hdr_out_ c) (body_out_ c) (stream_out_ c) (resp_ c) (pending_ c) (in_body_ c) (close_after_flush_ c) (closing_ c)
    (streaming_write_ c) (headers_staged_ c) (stream_finished_ c) (wire c) (accepts c).
Definition set_hdr (o : out_buffer_t) (c : conn_t) : conn_t :=
  mk_conn (head_out_ c) o (body_out_ c) (stream_out_ c) (resp_ c) (pending_ c) (in_body_ c) (close_after_flush_ c) (closing_ c)
    (streaming_write_ c) (headers_staged_ c) (stream_finished_ c) (wire c) (accepts c).
Definition set_bodyo (o : out_buffer_t) (c : conn_t) : conn_t :=
  mk_conn (head_out_ c) (hdr_out_ c) o (stream_out_ c) (resp_ c) (pending_ c) (in_body_ c) (close_after_flush_ c) (closing_ c)
    (streaming_write_ c) (headers_staged_ c) (stream_finished_ c) (wire c) (accepts c).
Definition set_stream (o : out_buffer_t) (c : conn_t) : conn_t :=
  mk_conn (head_out_ c) (hdr_out_ c) (body_out_ c) o (resp_ c) (pending_ c) (in_body_ c) (close_after_flush_ c) (closing_ c)
    (streaming_write_ c) (headers_staged_ c) (stream_finished_ c) (wire c) (accepts c).
Definition set_pending (l : list pending_t) (c : conn_t) : conn_t :=
  mk_conn (head_out_ c) (hdr_out_ c) (body_out_ c) (stream_out_ c) (resp_ c) l (in_body_ c) (close_after_flush_ c) (closing_ c)
    (streaming_write_ c) (headers_staged_ c) (stream_finished_ c) (wire c) (accepts c).
Definition set_flags (body close closing : bool) (c : conn_t) : conn_t :=
  mk_conn (head_out_ c) (hdr_out_ c) (body_out_ c) (stream_out_ c) (resp_ c) (pending_ c) body close closing
    (streaming_write_ c) (headers_staged_ c) (stream_finished_ c) (wire c) (accepts c).
Definition set_streaming (write staged finished : bool) (c : conn_t) : conn_t :=
  mk_conn (head_out_ c) (hdr_out_ c) (body_out_ c) (stream_out_ c) (resp_ c) (pending_ c) (in_body_ c) (close_after_flush_ c) (closing_ c)
    write staged finished (wire c) (accepts c).
Definition set_wire (w : bytes) (n : Z) (c : conn_t) : conn_t :=
  mk_conn (head_out_ c) (hdr_out_ c) (body_out_ c) (stream_out_ c) (resp_ c) (pending_ c) (in_body_ c) (close_after_flush_ c) (closing_ c)
    (streaming_write_ c) (headers_staged_ c) (stream_finished_ c) w n.

(** ** The response *)

Definition no_seen : framing_seen_t := mk_seen false false false false.

(** [begin]: the regions start where the buffers stand. *)
Definition begin (c : conn_t) : conn_t :=
  set_resp (mk_resp 200 SrcNone (size_ (hdr_out_ c)) (size_ (hdr_out_ c)) (size_ (body_out_ c)) 0 [] None no_seen no_error) c.

Definition with_status (s : Z) (r : response_t) : response_t :=
  mk_resp s (source_ r) (hdr_off_ r) (hdr_end_ r) (body_off_ r) (body_len_ r) (external_ r) (file_ r) (seen_ r) (resp_err_ r).
Definition with_hdr_end (n : Z) (r : response_t) : response_t :=
  mk_resp (status_ r) (source_ r) (hdr_off_ r) n (body_off_ r) (body_len_ r) (external_ r) (file_ r) (seen_ r) (resp_err_ r).
Definition with_seen (s : framing_seen_t) (r : response_t) : response_t :=
  mk_resp (status_ r) (source_ r) (hdr_off_ r) (hdr_end_ r) (body_off_ r) (body_len_ r) (external_ r) (file_ r) s (resp_err_ r).
Definition with_body (s : body_source_t) (off len : Z) (e : bytes) (f : option bytes) (r : response_t) : response_t :=
  mk_resp (status_ r) s (hdr_off_ r) (hdr_end_ r) off len e f (seen_ r) (resp_err_ r).
Definition resp_fail (e : error_t) (r : response_t) : response_t :=
  if is_error (resp_err_ r) then r
  else mk_resp (status_ r) (source_ r) (hdr_off_ r) (hdr_end_ r) (body_off_ r) (body_len_ r) (external_ r) (file_ r) (seen_ r) e.

Definition status (s : Z) (c : conn_t) : conn_t := set_resp (with_status s (resp_ c)) c.
Definition cfail (e : error_t) (c : conn_t) : conn_t := set_resp (resp_fail e (resp_ c)) c.

Definition resp_error (c : conn_t) : error_t :=
  if is_error (resp_err_ (resp_ c)) then resp_err_ (resp_ c)
  else if failed (hdr_out_ c) then err_ (hdr_out_ c)
  else if failed (body_out_ c) then err_ (body_out_ c)
  else no_error.
Definition resp_failed (c : conn_t) : bool := is_error (resp_error c).

Definition hdr_length (r : response_t) : Z := if hdr_off_ r <? hdr_end_ r then hdr_end_ r - hdr_off_ r else 0.

Definition note_framing_header (f : field_t) (s : framing_seen_t) : framing_seen_t :=
  let '(mk_seen cl cn d te) := s in
  match f with
  | ContentLength => mk_seen true cn d te
  | Connection => mk_seen cl true d te
  | Date => mk_seen cl cn true te
  | TransferEncoding => mk_seen cl cn d true
  | _ => s
  end.

(** The three overloads of [header]: note, write, move the end. *)
Definition staged_header (f : field_t) (w : out_buffer_t -> out_buffer_t) (c : conn_t) : conn_t :=
  let r := with_seen (note_framing_header f (seen_ (resp_ c))) (resp_ c) in
  let o := w (hdr_out_ c) in
  set_hdr o (set_resp (with_hdr_end (size_ o) r) c).
Definition resp_header_field (f : field_t) (v : bytes) : conn_t -> conn_t := staged_header f (header_field f v).
Definition resp_header (n v : bytes) : conn_t -> conn_t := staged_header (field_from_name n) (header_name n v).
Definition resp_header_u64 (f : field_t) (v : Z) : conn_t -> conn_t := staged_header f (header_u64 f v).

Definition body (data : bytes) (c : conn_t) : conn_t :=
  let r := resp_ c in
  if negb (bool_decide (source_ r = SrcNone)) then cfail (http_error InvalidState) c
  else if remaining (body_out_ c) <? size data
  then set_resp (with_body SrcExternal (body_off_ r) (size data) data (file_ r) r) c
  else
    let off := size_ (body_out_ c) in
    let o := put data (body_out_ c) in
    let c := set_bodyo o c in
    let r := with_body (source_ r) off (body_len_ r) (external_ r) (file_ r) r in
    if failed o then cfail (err_ o) (set_resp r c)
    else set_resp (with_body SrcInline off (size data) (external_ r) (file_ r) r) c.

Definition body_static (data : bytes) (c : conn_t) : conn_t :=
  let r := resp_ c in
  if negb (bool_decide (source_ r = SrcNone)) then cfail (http_error InvalidState) c
  else set_resp (with_body SrcExternal (body_off_ r) (size data) data (file_ r) r) c.

Definition body_owned (lease : option bytes) (len : Z) (c : conn_t) : conn_t :=
  let r := resp_ c in
  if negb (bool_decide (source_ r = SrcNone)) then cfail (http_error InvalidState) c
  else match lease with
       | None => cfail (http_error InvalidState) c
       | Some b =>
           if size b <? len then cfail (http_error InvalidState) c
           else set_resp (with_body SrcExternal (body_off_ r) len (view_at b 0 len) (file_ r) r) c
       end.

Definition text (s : bytes) (c : conn_t) : conn_t := body s (resp_header_field ContentType (str "text/plain; charset=utf-8") c).
Definition json (s : bytes) (c : conn_t) : conn_t := body s (resp_header_field ContentType (str "application/json") c).
Definition html (s : bytes) (c : conn_t) : conn_t := body s (resp_header_field ContentType (str "text/html; charset=utf-8") c).
Definition not_found (c : conn_t) : conn_t := text (str "Not Found") (status 404 c).
Definition redirect (location : bytes) (s : Z) (c : conn_t) : conn_t := resp_header_field Location location (status s c).

(** [local_file]: the content of the regular file, if it opens as one. *)
Definition local_file (content : option bytes) (c : conn_t) : conn_t * bool :=
  let r := resp_ c in
  if negb (bool_decide (source_ r = SrcNone)) then (cfail (http_error InvalidState) c, false)
  else match content with
       | None => (text (str "Not Found") (status 404 c), false)
       | Some d => (set_resp (with_body SrcFile (body_off_ r) (size d) (external_ r) (Some d) r) c, true)
       end.

Definition seal_headers (c : conn_t) : conn_t :=
  let o := put_crlf (hdr_out_ c) in
  set_hdr o (set_resp (with_hdr_end (size_ o) (resp_ c)) c).

(** ** Framing *)

Definition status_forces_close (s : Z) : bool :=
  existsb (Z.eqb s) [400; 408; 413; 414; 431; 500; 501; 503; 505].

Definition kHdrServer : bytes := str "Server: cornet" ++ crlf.
Definition kHdrConnKeepAlive : bytes := str "Connection: keep-alive" ++ crlf.
Definition kHdrConnClose : bytes := str "Connection: close" ++ crlf.
Definition kHdrServerKeepAlive : bytes := kHdrServer ++ kHdrConnKeepAlive.
Definition kHdrServerClose : bytes := kHdrServer ++ kHdrConnClose.

Section Framing.
Context (opt : server_options_t).

Definition server_block (seen : framing_seen_t) (close_after : bool) (o : out_buffer_t) : out_buffer_t :=
  let emit_server := serve_server_header opt in
  let emit_conn := negb (saw_connection_ seen) in
  if emit_server && emit_conn then put (if close_after then kHdrServerClose else kHdrServerKeepAlive) o
  else if emit_server then put kHdrServer o
  else if emit_conn then put (if close_after then kHdrConnClose else kHdrConnKeepAlive) o
  else o.

Definition frame_head (close_after : bool) (c : conn_t) : conn_t :=
  let c := seal_headers c in
  let r := resp_ c in
  let seen := seen_ r in
  let o := put_status_line (status_ r) (head_out_ c) in
  let o := when (serve_date_header opt && negb (saw_date_ seen)) (date_header (http_date opt)) o in
  let o := server_block seen close_after o in
  let streaming := bool_decide (source_ r = SrcStreaming) in
  let o := when (negb (saw_content_length_ seen) && negb (saw_transfer_encoding_ seen) && negb streaming
                 && negb (status_forbids_body (status_ r))) (header_u64 ContentLength (body_len_ r)) o in
  let o := when (streaming && negb (saw_transfer_encoding_ seen)) (header_field TransferEncoding (str "chunked")) o in
  set_head o c.

Definition push_pending (p : pending_t) (c : conn_t) : option conn_t :=
  if (length (pending_ c) <? kPending)%nat then Some (set_pending (pending_ c ++ [p]) c) else None.

Definition frame_response (head_request close_after : bool) (c : conn_t) : conn_t :=
  if bool_decide (source_ (resp_ c) = SrcStreaming) then set_streaming true (headers_staged_ c) (stream_finished_ c) c
  else
    let no_body := status_forbids_body (status_ (resp_ c)) in
    let off := size_ (head_out_ c) in
    let c := frame_head close_after c in
    let r := resp_ c in
    let p := mk_pending off (u32 (size_ (head_out_ c) - off)) (hdr_off_ r) (hdr_length r) SrcNone 0 0 [] [] in
    let '(p, r) :=
      if negb no_body && negb head_request && (0 <? body_len_ r) then
        let n := u32 (body_len_ r) in
        match source_ r with
        | SrcInline => (mk_pending off (head_len p) (hdr_off_ r) (hdr_length r) SrcInline (body_off_ r) n [] [], r)
        | SrcFile => (mk_pending off (head_len p) (hdr_off_ r) (hdr_length r) SrcFile 0 n [] (default [] (file_ r)),
                      with_body SrcFile (body_off_ r) (body_len_ r) (external_ r) None r)
        | s => (mk_pending off (head_len p) (hdr_off_ r) (hdr_length r) s 0 n (external_ r) [], r)
        end
      else (p, with_body (source_ r) (body_off_ r) (body_len_ r) (external_ r) None r) in
    let c := set_resp r c in
    match push_pending p c with
    | Some c => c
    | None => set_head (fail (http_error OutputOverflow) (head_out_ c)) c
    end.

Definition write_error (s : Z) (head_request : bool) (c : conn_t) : conn_t :=
  let c := set_flags false (close_after_flush_ c) (closing_ c) c in
  let c := status s (begin c) in
  let c := resp_header_field ContentType (str "text/plain; charset=utf-8") c in
  let c := body_static (reason_phrase s) c in
  let c := frame_response head_request true c in
  set_flags (in_body_ c) true (closing_ c) c.

Definition write_continue (c : conn_t) : conn_t :=
  let off := size_ (head_out_ c) in
  let o := put_crlf (put_status_line 100 (head_out_ c)) in
  let c := set_head o c in
  default c (push_pending (mk_pending off (u32 (size_ o - off)) 0 0 SrcNone 0 0 [] []) c).

(** What follows a handler that has returned. *)
Definition needs_streaming_settlement (c : conn_t) : bool :=
  bool_decide (source_ (resp_ c) = SrcStreaming) && negb (stream_finished_ c).

Definition settle_streaming (head_request : bool) (c : conn_t) : conn_t :=
  if headers_staged_ c then
    let c := set_stream (clear (stream_out_ c)) (set_hdr (clear (hdr_out_ c)) (set_head (clear (head_out_ c)) c)) in
    write_error 500 head_request c
  else set_flags (in_body_ c) (close_after_flush_ c) true c.

(** The end of a dispatch; [true] when the round ends with it. *)
Definition finish_dispatch (keep_alive head_request : bool) (c : conn_t) : conn_t * bool :=
  if resp_failed c then (write_error 500 head_request c, true)
  else
    let close_after := negb keep_alive || closing_ c || status_forces_close (status_ (resp_ c)) in
    if needs_streaming_settlement c then
      let c := settle_streaming head_request c in
      (set_flags (in_body_ c) true (closing_ c) c, true)
    else
      let c := frame_response head_request close_after c in
      if close_after then (set_flags (in_body_ c) true (closing_ c) c, true) else (c, false).
End Framing.

(** ** Writing *)

(** [writev_all]: everything, or an error after what the transport took. *)
Definition writev_span (segs : list bytes) (c : conn_t) : conn_t * expected unit :=
  let d := concat segs in
  if size d <=? accepts c then (set_wire (wire c ++ d) (accepts c - size d) c, Ok tt)
  else (set_wire (wire c ++ take (Z.to_nat (accepts c)) d) 0 c, Unexpected (system_error 104)).

Definition segment (o : out_buffer_t) (off len : Z) : list bytes := if len =? 0 then [] else [view_at (block o) off len].

Definition head_segments (c : conn_t) (p : pending_t) : list bytes :=
  segment (head_out_ c) (head_off p) (head_len p) ++ segment (hdr_out_ c) (hdr_off p) (hdr_len p).

Definition body_segments (c : conn_t) (p : pending_t) : list bytes :=
  if body_len p =? 0 then []
  else match source p with
       | SrcInline => [view_at (block (body_out_ c)) (body_off p) (body_len p)]
       | SrcExternal => [take (Z.to_nat (body_len p)) (external p)]
       | _ => []
       end.

(** [build_iovecs], stopping when three more entries may not fit. *)
Fixpoint build_iovecs (c : conn_t) (ps : list pending_t) (iov : list bytes) : list bytes :=
  match ps with
  | [] => iov
  | p :: ps =>
      if (kMaxPendingIov <? length iov + 3)%nat then iov
      else build_iovecs c ps (iov ++ head_segments c p ++ body_segments c p)
  end.

Definition is_file (p : pending_t) : bool := bool_decide (source p = SrcFile).

(** The run of responses before the first file body. *)
Fixpoint until_file (ps : list pending_t) : list pending_t * list pending_t :=
  match ps with
  | [] => ([], [])
  | p :: ps' => if is_file p then ([], ps) else let '(a, b) := until_file ps' in (p :: a, b)
  end.

(** The loop around file bodies, one round per file. *)
Fixpoint flush_files (fuel : nat) (ps : list pending_t) (c : conn_t) : conn_t * expected unit :=
  match fuel with
  | O => (c, Ok tt)
  | S fuel =>
      let '(a, rest) := until_file ps in
      let '(c, r) := match a with [] => (c, Ok tt) | _ => writev_span (build_iovecs c a []) c end in
      match r, rest with
      | Unexpected e, _ => (c, Unexpected e)
      | Ok _, [] => (c, Ok tt)
      | Ok _, p :: ps =>
          let '(c, r) := match head_segments c p with [] => (c, Ok tt) | hv => writev_span hv c end in
          match r with
          | Unexpected e => (c, Unexpected e)
          | Ok _ =>
              let '(c, r) := writev_span [take (Z.to_nat (body_len p)) (file_bytes p)] c in
              match r with
              | Unexpected e => (c, Unexpected e)
              | Ok _ => flush_files fuel ps c
              end
          end
      end
  end.

Definition flush (c : conn_t) : conn_t * expected unit :=
  match pending_ c with
  | [] => (c, Ok tt)
  | ps =>
      if failed (head_out_ c) then (c, Unexpected (err_ (head_out_ c)))
      else if failed (hdr_out_ c) then (c, Unexpected (err_ (hdr_out_ c)))
      else if failed (body_out_ c) then (c, Unexpected (err_ (body_out_ c)))
      else if negb (existsb is_file ps) then writev_span (build_iovecs c ps []) c
      else flush_files (S (length ps)) ps c
  end.

Definition reset_round (c : conn_t) : conn_t :=
  mk_conn (clear (head_out_ c)) (clear (hdr_out_ c)) (clear (body_out_ c)) (clear (stream_out_ c)) (resp_ c) []
    (in_body_ c) (close_after_flush_ c) (closing_ c) false false false (wire c) (accepts c).

(** ** Streaming *)

Definition stage_headers (opt : server_options_t) (c : conn_t) : conn_t :=
  let c := frame_head opt false c in
  set_streaming (streaming_write_ c) true (stream_finished_ c) c.

(** [response_t::chunked]. *)
Definition chunked (opt : server_options_t) (c : conn_t) : conn_t :=
  let c := if negb (bool_decide (source_ (resp_ c) = SrcNone)) then cfail (http_error InvalidState) c else c in
  let r := resp_ c in
  stage_headers opt (set_resp (with_body SrcStreaming (body_off_ r) (body_len_ r) (external_ r) (file_ r) r) c).

Definition flush_stream (c : conn_t) : conn_t * expected unit :=
  let so := stream_out_ c in
  if failed so then (c, Unexpected (err_ so))
  else if size_ so =? 0 then (c, Ok tt)
  else
    let first := headers_staged_ c in
    let c := if first then set_streaming (streaming_write_ c) false (stream_finished_ c) c else c in
    let iov := (if first then segment (head_out_ c) 0 (size_ (head_out_ c)) ++ segment (hdr_out_ c) 0 (hdr_length (resp_ c)) else [])
               ++ segment so 0 (size_ so) in
    let '(c, r) := writev_span iov c in
    match r with
    | Unexpected e => (c, Unexpected e)
    | Ok _ => (set_stream (clear (stream_out_ c)) c, Ok tt)
    end.

Definition write_direct (data : bytes) (c : conn_t) : conn_t * expected unit :=
  match data with [] => (c, Ok tt) | _ => writev_span [data] c end.

(** [body_writer_t::write]; the length is narrowed to 32 bits first. *)
Definition writer_write (data : bytes) (c : conn_t) : conn_t * expected unit :=
  if failed (head_out_ c) || failed (hdr_out_ c) then (c, Unexpected (http_error InvalidState))
  else
    let len := u32 (size data) in
    if len =? 0 then (c, Ok tt)
    else
      let line := write_chunk_size len in
      if u32 (len + size line + 2) <=? remaining (stream_out_ c) then
        flush_stream (set_stream (put_crlf (put data (put line (stream_out_ c)))) c)
      else
        let '(c, r) := flush_stream (set_stream (put line (stream_out_ c)) c) in
        match r with
        | Unexpected e => (c, Unexpected e)
        | Ok _ =>
            let '(c, r) := write_direct data c in
            match r with
            | Unexpected e => (c, Unexpected e)
            | Ok _ => flush_stream (set_stream (put_crlf (stream_out_ c)) c)
            end
        end.

(** [body_writer_t::finish]. *)
Definition writer_finish (c : conn_t) : conn_t * expected unit :=
  let '(c, r) := flush_stream (set_stream (put (str "0" ++ crlf ++ crlf) (stream_out_ c)) c) in
  match r with
  | Unexpected e => (c, Unexpected e)
  | Ok _ => (set_streaming (streaming_write_ c) (headers_staged_ c) true c, Ok tt)
  end.

(** ** Regions of the staging buffers *)

Lemma size_out_view o : ok o -> size (out_view o) = size_ o.
Proof. intros Hok. pose proof Hok as [? _]. rewrite out_view_block by done. apply size_view_at; lia. Qed.

Lemma view_in_out o off len :
  ok o -> 0 <= off -> 0 <= len -> off + len <= size_ o -> view_at (block o) off len = view_at (out_view o) off len.
Proof.
  intros Hok H1 H2 H3. rewrite (out_view_block o Hok). unfold view_at, substr. simpl. rewrite drop_0.
  rewrite skipn_firstn_comm, take_take. f_equal. lia.
Qed.

Lemma view_app_l (a d : bytes) off len :
  0 <= off -> 0 <= len -> off + len <= size a -> view_at (a ++ d) off len = view_at a off len.
Proof.
  intros H1 H2 H3. unfold view_at, substr, size in *. rewrite drop_app_le by lia. apply take_app_le. rewrite length_drop. lia.
Qed.

Lemma view_app_r (a d : bytes) : view_at (a ++ d) (size a) (size d) = d.
Proof.
  unfold view_at, substr, size. rewrite !Nat2Z.id, drop_app_length. by apply take_ge.
Qed.

(** The buffer grew by a run. *)
Definition grew (o o' : out_buffer_t) (d : bytes) : Prop := ok o' /\ out_view o' = out_view o ++ d.

Lemma grew_size o o' d : ok o -> grew o o' d -> size_ o' = size_ o + size d.
Proof. intros Hok [Hok' V]. rewrite <- (size_out_view o' Hok'), V, size_app, size_out_view by done. done. Qed.

Lemma grew_stable o o' d off len :
  ok o -> grew o o' d -> 0 <= off -> 0 <= len -> off + len <= size_ o -> view_at (block o') off len = view_at (block o) off len.
Proof.
  intros Hok G H1 H2 H3. pose proof (grew_size _ _ _ Hok G) as Hs. destruct G as [Hok' V]. pose proof (size_nonneg d).
  rewrite !view_in_out, V by (done || lia). apply view_app_l; [done..|]. by rewrite size_out_view.
Qed.

Lemma grew_region o o' d : ok o -> grew o o' d -> view_at (block o') (size_ o) (size d) = d.
Proof.
  intros Hok G. pose proof (grew_size _ _ _ Hok G) as Hs. destruct G as [Hok' V]. pose proof (size_nonneg d). pose proof Hok as [? _].
  rewrite view_in_out, V by (done || lia). rewrite <- (size_out_view o Hok). apply view_app_r.
Qed.

Lemma grew_refl o : ok o -> grew o o [].
Proof. intros. split; [done|by rewrite app_nil_r]. Qed.

Lemma grew_trans o1 o2 o3 a b : grew o1 o2 a -> grew o2 o3 b -> grew o1 o3 (a ++ b).
Proof. intros [_ V1] [Hok V2]. split; [done|]. by rewrite V2, V1, app_assoc. Qed.

Lemma emits_grew f d P o : emits f d P -> ok o -> failed o = false -> failed (f o) = false -> grew o (f o) d /\ P.
Proof. intros H Hok H1 H2. destruct (em_done _ _ _ H o Hok H1 H2) as (? & ? & ?). done. Qed.

(** ** Handlers *)

Inductive hcall := CName (n v : bytes) | CField (f : field_t) (v : bytes) | CNum (f : field_t) (n : Z).
Inductive hbody := NoBody | Copied (d : bytes) | Referenced (d : bytes) | FileBody (d : bytes).

(** A handler that sets a status, writes headers and gives at most one body. *)
Record handler_t := mk_handler { h_status : Z; h_calls : list hcall; h_body : hbody }.

Definition run_call (x : hcall) : conn_t -> conn_t :=
  match x with
  | CName n v => resp_header n v
  | CField f v => resp_header_field f v
  | CNum f n => resp_header_u64 f n
  end.
Definition run_body (b : hbody) (c : conn_t) : conn_t :=
  match b with NoBody => c | Copied d => body d c | Referenced d => body_static d c | FileBody d => fst (local_file (Some d) c) end.
Definition run_handler (h : handler_t) (c : conn_t) : conn_t :=
  run_body (h_body h) (fold_left (fun c x => run_call x c) (h_calls h) (status (h_status h) (begin c))).

Definition call_field (x : hcall) : field_t :=
  match x with CName n _ => field_from_name n | CField f _ | CNum f _ => f end.
Definition call_line (x : hcall) : bytes :=
  match x with CName n v => header_text (n, v) | CField f v => field_line f v | CNum f n => field_line f (write_u64 n) end.
Definition call_fits (x : hcall) : Prop :=
  match x with
  | CName n v => size n < 2 ^ 32 /\ size v < 2 ^ 32
  | CField f v => f <> Other /\ size v < 2 ^ 32
  | CNum f n => f <> Other /\ 0 <= n < 2 ^ 64
  end.
Definition written (f : field_t) (xs : list hcall) : bool := existsb (fun x => bool_decide (call_field x = f)) xs.
Definition body_text (b : hbody) : bytes := match b with NoBody => [] | Copied d | Referenced d | FileBody d => d end.

Definition handler_fits (h : handler_t) : Prop :=
  0 <= h_status h < 2 ^ 16 /\ Forall call_fits (h_calls h) /\ size (body_text (h_body h)) < 2 ^ 32.

(** ** What is to reach the wire *)

(** The lines the server adds: status, Date, Server, Connection and
    Content-Length, the last three unless the handler wrote them or the
    status has no body. *)
Definition server_lines (opt : server_options_t) (close_after : bool) (h : handler_t) : list bytes :=
  let xs := h_calls h in
  [str "HTTP/1.1 " ++ write_u64 (h_status h) ++ str " " ++ reason_phrase (h_status h)] ++
  (match http_date opt with
   | Some (x :: d) => if serve_date_header opt && negb (written Date xs) then [field_line Date (x :: d)] else []
   | _ => []
   end) ++
  (if serve_server_header opt then [str "Server: cornet"] else []) ++
  (if negb (written Connection xs) then [str (if close_after then "Connection: close" else "Connection: keep-alive")] else []) ++
  (if negb (written ContentLength xs) && negb (written TransferEncoding xs) && negb (status_forbids_body (h_status h))
   then [field_line ContentLength (write_u64 (size (body_text (h_body h))))] else []).

Definition sent_body (head_request : bool) (h : handler_t) : bytes :=
  if status_forbids_body (h_status h) || head_request then [] else body_text (h_body h).

Definition response_bytes (opt : server_options_t) (close_after head_request : bool) (h : handler_t) : bytes :=
  text_of (server_lines opt close_after h) ++ text_of (map call_line (h_calls h)) ++ crlf ++ sent_body head_request h.

(** ** Header calls *)

Definition write_call (x : hcall) : out_buffer_t -> out_buffer_t :=
  match x with CName n v => header_name n v | CField f v => header_field f v | CNum f n => header_u64 f n end.
Definition write_calls (xs : list hcall) (o : out_buffer_t) : out_buffer_t := fold_left (fun o x => write_call x o) xs o.
Definition note_calls (xs : list hcall) (s : framing_seen_t) : framing_seen_t :=
  fold_left (fun s x => note_framing_header (call_field x) s) xs s.

Lemma emits_header_name n v :
  size n < 2 ^ 32 -> size v < 2 ^ 32 ->
  emits (header_name n v) (header_text (n, v) ++ crlf) (has_crlf (header_text (n, v)) = false).
Proof.
  intros Hn Hv. destruct (has_crlf n || has_crlf v) eqn:E.
  - split; unfold header_name; rewrite E.
    + intros o Ho. unfold fail. unfold failed in *. by rewrite Ho.
    + intros o Hok Ho. unfold fail, failed in *. by rewrite Ho.
  - apply orb_false_iff in E as [E1 E2]. eapply emits_mono; [eapply emits_writes, header_name_writes; done| |].
    + unfold header_line, header_text. cbn [fst snd]. by rewrite <- !app_assoc.
    + intros _. unfold header_text. cbn [fst snd]. by rewrite !has_crlf_app, E1, E2.
Qed.

Lemma emits_call x : call_fits x -> emits (write_call x) (call_line x ++ crlf) (has_crlf (call_line x) = false).
Proof.
  destruct x as [n v|f v|f n]; simpl; intros [H1 H2].
  - by apply emits_header_name.
  - eapply emits_mono; [by apply emits_header_field|done|apply field_line_clean].
  - eapply emits_mono; [by apply emits_header_u64|done|]. intros _. by apply field_line_clean, decimal_clean.
Qed.

Lemma emits_calls xs :
  Forall call_fits xs ->
  emits (write_calls xs) (text_of (map call_line xs)) (Forall (fun t => has_crlf t = false) (map call_line xs)).
Proof.
  induction 1 as [|x xs Hx _ IH].
  - split; [done|]. intros o Hok Hf _. simpl. rewrite app_nil_r. split; [done|]. split; [done|constructor].
  - eapply emits_mono; [exact (emits_seq _ _ _ _ _ _ (emits_call x Hx) IH)|done|]. intros [? ?]. by constructor.
Qed.

Lemma run_calls xs : forall c,
  fold_left (fun c x => run_call x c) xs c =
  set_hdr (write_calls xs (hdr_out_ c))
    (set_resp (with_hdr_end (match xs with [] => hdr_end_ (resp_ c) | _ => size_ (write_calls xs (hdr_out_ c)) end)
      (with_seen (note_calls xs (seen_ (resp_ c))) (resp_ c))) c).
Proof.
  induction xs as [|x xs IH]; intros c; [by destruct c as [? ? ? ? []]|]. simpl. rewrite IH.
  assert (run_call x c = staged_header (call_field x) (write_call x) c) as -> by by destruct x.
  unfold staged_header. cbn. by destruct xs.
Qed.

Definition seen_of (f : field_t) (s : framing_seen_t) : option bool :=
  match f with
  | ContentLength => Some (saw_content_length_ s) | Connection => Some (saw_connection_ s)
  | Date => Some (saw_date_ s) | TransferEncoding => Some (saw_transfer_encoding_ s)
  | _ => None
  end.

Lemma seen_calls f xs : forall s b, seen_of f s = Some b -> seen_of f (note_calls xs s) = Some (b || written f xs).
Proof.
  induction xs as [|x xs IH]; intros s b Hb; simpl; [by rewrite orb_false_r|].
  rewrite (IH _ (b || bool_decide (call_field x = f))); [by rewrite orb_assoc|].
  destruct s, f; simpl in *; simplify_eq; destruct (call_field x); rewrite ?orb_false_r, ?orb_true_r; reflexivity.
Qed.

(** ** A handler's effect *)

(** Where the response's body is. *)
Definition body_at (c : conn_t) (off : Z) (d : bytes) : Prop :=
  match source_ (resp_ c) with
  | SrcNone => d = []
  | SrcInline => body_off_ (resp_ c) = off /\ off + size d <= size_ (body_out_ c) /\ view_at (block (body_out_ c)) off (size d) = d
  | SrcExternal => external_ (resp_ c) = d
  | SrcFile => file_ (resp_ c) = Some d
  | SrcStreaming => False
  end.

Record handled (c : conn_t) (h : handler_t) (c' : conn_t) : Prop := {
  ha_head : head_out_ c' = head_out_ c;
  ha_hdr : grew (hdr_out_ c) (hdr_out_ c') (text_of (map call_line (h_calls h)));
  ha_clean : Forall (fun t => has_crlf t = false) (map call_line (h_calls h));
  ha_body : exists d, grew (body_out_ c) (body_out_ c') d;
  ha_status : status_ (resp_ c') = h_status h;
  ha_region : hdr_off_ (resp_ c') = size_ (hdr_out_ c) /\ hdr_end_ (resp_ c') = size_ (hdr_out_ c');
  ha_len : body_len_ (resp_ c') = size (body_text (h_body h));
  ha_at : body_at c' (size_ (body_out_ c)) (body_text (h_body h));
  ha_seen f b : seen_of f (seen_ (resp_ c')) = Some b -> b = written f (h_calls h);
  ha_ok : failed (hdr_out_ c') = false /\ failed (body_out_ c') = false;
  ha_rest : pending_ c' = pending_ c /\ wire c' = wire c /\ accepts c' = accepts c /\ closing_ c' = closing_ c /\
            close_after_flush_ c' = close_after_flush_ c /\ in_body_ c' = in_body_ c
}.

Lemma not_failed c : resp_failed c = false ->
  is_error (resp_err_ (resp_ c)) = false /\ failed (hdr_out_ c) = false /\ failed (body_out_ c) = false.
Proof.
  unfold resp_failed, resp_error. destruct (is_error (resp_err_ (resp_ c))) eqn:E1; [congruence|].
  destruct (failed (hdr_out_ c)) eqn:E2; [unfold failed in E2; congruence|].
  destruct (failed (body_out_ c)) eqn:E3; [unfold failed in E3; congruence|done].
Qed.

Lemma set_resp_bodyo r o c : set_resp r (set_bodyo o c) = set_bodyo o (set_resp r c).
Proof. done. Qed.

(** The state after the header calls. *)
Record headed (c : conn_t) (h : handler_t) (c1 : conn_t) : Prop := {
  hd_same : c1 = set_hdr (hdr_out_ c1) (set_resp (resp_ c1) c);
  hd_hdr : hdr_out_ c1 = write_calls (h_calls h) (hdr_out_ c);
  hd_resp : resp_ c1 = mk_resp (h_status h) SrcNone (size_ (hdr_out_ c)) (size_ (write_calls (h_calls h) (hdr_out_ c)))
    (size_ (body_out_ c)) 0 [] None (note_calls (h_calls h) no_seen) no_error
}.

Lemma handler_headers h c :
  headed c h (fold_left (fun c x => run_call x c) (h_calls h) (status (h_status h) (begin c))).
Proof.
  rewrite run_calls. constructor; [done|done|]. simpl. unfold with_hdr_end. simpl. f_equal. by destruct (h_calls h).
Qed.

Lemma handled_intro h c c1 src off len e f o d :
  handler_fits h -> ok (hdr_out_ c) -> failed (hdr_out_ c) = false -> headed c h c1 -> failed (hdr_out_ c1) = false ->
  grew (body_out_ c) o d -> failed o = false -> len = size (body_text (h_body h)) ->
  body_at (set_bodyo o (set_resp (with_body src off len e f (resp_ c1)) c1)) (size_ (body_out_ c)) (body_text (h_body h)) ->
  handled c h (set_bodyo o (set_resp (with_body src off len e f (resp_ c1)) c1)).
Proof.
  intros (_ & Hcalls & _) Hh Fh [Es Eh Er] Fh1 Go Fo Hlen Hat. rewrite Eh in *.
  destruct (emits_grew _ _ _ _ (emits_calls _ Hcalls) Hh Fh Fh1) as [Gh Hclean].
  constructor; simpl; rewrite ?Er, ?Eh; simpl; try done; try (by rewrite Es); [by exists d|].
  intros f0 b Hf. assert (seen_of f0 no_seen = Some false) as H0 by (by destruct f0).
  rewrite (seen_calls f0 _ _ _ H0) in Hf. by simplify_eq.
Qed.

Lemma run_handler_spec h c :
  handler_fits h -> ok (hdr_out_ c) -> ok (body_out_ c) -> failed (hdr_out_ c) = false -> failed (body_out_ c) = false ->
  resp_failed (run_handler h c) = false -> handled c h (run_handler h c).
Proof.
  intros Hfit Hh Hb Fh Fb HF. unfold run_handler in *. pose proof (handler_headers h c) as H1.
  set (c1 := fold_left _ _ _) in *. clearbody c1. pose proof H1 as [Es Eh Er].
  assert (Eb : body_out_ c1 = body_out_ c) by (by rewrite Es).
  assert (Esrc : source_ (resp_ c1) = SrcNone) by (by rewrite Er).
  assert (Hid : forall r, set_resp r c1 = set_bodyo (body_out_ c) (set_resp r c1)) by (intros; rewrite <- Eb; by destruct c1).
  assert (HF1 : failed (hdr_out_ c1) = false).
  { apply not_failed in HF as (_ & HF & _). unfold run_body, body, body_static, local_file, cfail in HF.
    destruct (h_body h); simpl in HF; repeat case_match; done. }
  pose proof (handled_intro h c c1) as K. unfold run_body in *. destruct (h_body h) as [|d|d|d] eqn:Hd.
  - replace c1 with (set_bodyo (body_out_ c) (set_resp (with_body SrcNone (size_ (body_out_ c)) 0 [] None (resp_ c1)) c1)).
    + eapply K; try done; by apply grew_refl.
    + rewrite <- Hid. assert (with_body SrcNone (size_ (body_out_ c)) 0 [] None (resp_ c1) = resp_ c1) as -> by (by rewrite Er).
      by destruct c1.
  - unfold body in *. rewrite Esrc, Eb in *. simpl in *. destruct (remaining (body_out_ c) <? size d) eqn:Hfits.
    + rewrite Hid. eapply K; try done. by apply grew_refl.
    + destruct (failed (put d (body_out_ c))) eqn:Fp.
      { apply not_failed in HF as (_ & _ & HF). simpl in HF. congruence. }
      assert (Hsz : size d < 2 ^ 32) by (destruct Hfit as (_ & _ & Hs); by rewrite Hd in Hs).
      destruct (emits_grew _ _ _ _ (emits_writes _ _ _ (put_writes d Hsz)) Hb Fb Fp) as [G _].
      rewrite set_resp_bodyo. eapply K; try done. unfold body_at. simpl. split_and!; [done| |by apply grew_region].
      by rewrite (grew_size _ _ _ Hb G).
  - unfold body_static in *. rewrite Esrc in *. simpl in *. rewrite Hid. eapply K; try done. by apply grew_refl.
  - unfold local_file in *. rewrite Esrc in *. simpl in *. rewrite Hid. eapply K; try done. by apply grew_refl.
Qed.

(** ** Queued responses *)

(** The bytes a queued response stands for. *)
Definition queued_body (c : conn_t) (p : pending_t) : bytes :=
  match source p with
  | SrcInline => view_at (block (body_out_ c)) (body_off p) (body_len p)
  | SrcExternal => take (Z.to_nat (body_len p)) (external p)
  | SrcFile => take (Z.to_nat (body_len p)) (file_bytes p)
  | _ => []
  end.
Definition queued_bytes (c : conn_t) (p : pending_t) : bytes :=
  view_at (block (head_out_ c)) (head_off p) (head_len p) ++ view_at (block (hdr_out_ c)) (hdr_off p) (hdr_len p) ++ queued_body c p.

Definition in_range (o : out_buffer_t) (off len : Z) : Prop := 0 <= off /\ 0 <= len /\ off + len <= size_ o.

Record placed (c : conn_t) (p : pending_t) (t : bytes) : Prop := {
  pl_head : in_range (head_out_ c) (head_off p) (head_len p);
  pl_hdr : in_range (hdr_out_ c) (hdr_off p) (hdr_len p);
  pl_body : source p = SrcInline -> in_range (body_out_ c) (body_off p) (body_len p);
  pl_bytes : queued_bytes c p = t
}.

Record healthy (o : out_buffer_t) : Prop := { he_ok : ok o; he_live : failed o = false }.

(** The staging buffers only grew between two states. *)
Definition extends (c c' : conn_t) : Prop :=
  (exists d, grew (head_out_ c) (head_out_ c') d) /\ (exists d, grew (hdr_out_ c) (hdr_out_ c') d) /\
  (exists d, grew (body_out_ c) (body_out_ c') d).

Record sound (c : conn_t) (ts : list bytes) : Prop := {
  so_head : healthy (head_out_ c); so_hdr : healthy (hdr_out_ c); so_body : healthy (body_out_ c);
  so_placed : Forall2 (placed c) (pending_ c) ts
}.

Lemma range_grew o o' d off len : ok o -> grew o o' d -> in_range o off len ->
  in_range o' off len /\ view_at (block o') off len = view_at (block o) off len.
Proof.
  intros Hok G (H1 & H2 & H3). pose proof (grew_size _ _ _ Hok G). pose proof (size_nonneg d).
  split; [split_and!; lia|by eapply grew_stable].
Qed.

Lemma placed_extends c c' p t :
  ok (head_out_ c) -> ok (hdr_out_ c) -> ok (body_out_ c) -> extends c c' -> placed c p t -> placed c' p t.
Proof.
  intros O1 O2 O3 ([d1 G1] & [d2 G2] & [d3 G3]) [P1 P2 P3 <-].
  destruct (range_grew _ _ _ _ _ O1 G1 P1) as [R1 V1]. destruct (range_grew _ _ _ _ _ O2 G2 P2) as [R2 V2].
  constructor; try done.
  - intros Hs. by destruct (range_grew _ _ _ _ _ O3 G3 (P3 Hs)).
  - unfold queued_bytes. rewrite V1, V2. do 2 f_equal. unfold queued_body. destruct (source p) eqn:Hs; try done.
    by destruct (range_grew _ _ _ _ _ O3 G3 (P3 eq_refl)).
Qed.

(** ** Flushing a batch *)

Lemma segment_bytes o off len : concat (segment o off len) = view_at (block o) off len.
Proof.
  unfold segment. destruct (Z.eqb_spec len 0) as [->|]; simpl; [|by rewrite app_nil_r].
  unfold view_at, substr. by rewrite take_0.
Qed.

Lemma segment_count o off len : (length (segment o off len) <= 1)%nat.
Proof. unfold segment. destruct (len =? 0); simpl; lia. Qed.

Lemma head_segments_bytes c p :
  concat (head_segments c p) = view_at (block (head_out_ c)) (head_off p) (head_len p) ++ view_at (block (hdr_out_ c)) (hdr_off p) (hdr_len p).
Proof. unfold head_segments. by rewrite concat_app, !segment_bytes. Qed.

Lemma segments_bytes c p :
  is_file p = false -> concat (head_segments c p ++ body_segments c p) = queued_bytes c p.
Proof.
  intros Hf. rewrite concat_app, head_segments_bytes. unfold queued_bytes. rewrite <- app_assoc. do 2 f_equal.
  unfold body_segments, queued_body, is_file in *.
  destruct (Z.eqb_spec (body_len p) 0) as [->|]; destruct (source p); simpl in *; try done; by rewrite app_nil_r.
Qed.

Lemma segments_count c p : (length (head_segments c p ++ body_segments c p) <= 3)%nat.
Proof.
  unfold head_segments. rewrite !length_app. pose proof (segment_count (head_out_ c) (head_off p) (head_len p)).
  pose proof (segment_count (hdr_out_ c) (hdr_off p) (hdr_len p)).
  unfold body_segments. destruct (body_len p =? 0); [simpl; lia|]. destruct (source p); simpl; lia.
Qed.

(** A batch of [kPending] fits the vector: nothing is split off. *)
Lemma build_iovecs_all c ps : forall iov,
  (length iov + 3 * length ps <= kMaxPendingIov)%nat -> forallb (fun p => negb (is_file p)) ps = true ->
  concat (build_iovecs c ps iov) = concat iov ++ concat (map (queued_bytes c) ps).
Proof.
  induction ps as [|p ps IH]; intros iov Hn Hf; simpl in *; [by rewrite app_nil_r|].
  apply andb_true_iff in Hf as [Hp Hf]. apply negb_true_iff in Hp.
  destruct (Nat.ltb_spec kMaxPendingIov (length iov + 3)) as [?|_]; [lia|].
  pose proof (segments_count c p). rewrite IH; [|rewrite length_app; lia|done].
  by rewrite concat_app, segments_bytes, <- app_assoc.
Qed.

(** [delivers c out d]: all of [d] reached the wire, or an error after a
    prefix of it, according to what the transport takes. *)
Definition delivers (c : conn_t) (out : conn_t * expected unit) (d : bytes) : Prop :=
  if size d <=? accepts c then out = (set_wire (wire c ++ d) (accepts c - size d) c, Ok tt)
  else exists p n e, p `prefix_of` d /\ out = (set_wire (wire c ++ p) n c, Unexpected e).

Lemma delivers_nil c : 0 <= accepts c -> delivers c (c, Ok tt) [].
Proof.
  intros H. unfold delivers. destruct (Z.leb_spec (size []) (accepts c)) as [_|Hn]; [|unfold size in Hn; simpl in Hn; lia].
  rewrite app_nil_r, Z.sub_0_r. by destruct c.
Qed.

Lemma writev_delivers segs c : delivers c (writev_span segs c) (concat segs).
Proof.
  unfold delivers, writev_span. destruct (size (concat segs) <=? accepts c); [done|].
  eexists _, _, _. split; [apply prefix_take|done].
Qed.

Lemma delivers_seq c out1 out2 d1 d2 :
  delivers c out1 d1 -> (forall c1, out1 = (c1, Ok tt) -> delivers c1 out2 d2) ->
  (forall c1 e, out1 = (c1, Unexpected e) -> out2 = out1) ->
  delivers c out2 (d1 ++ d2).
Proof.
  unfold delivers. intros H1 H2 H3. rewrite size_app. pose proof (size_nonneg d2). pose proof (size_nonneg d1).
  destruct (Z.leb_spec (size d1) (accepts c)) as [L1|L1].
  - specialize (H2 _ H1). simpl in H2. destruct (Z.leb_spec (size d2) (accepts c - size d1)) as [L2|L2].
    + destruct (Z.leb_spec (size d1 + size d2) (accepts c)); [|lia]. rewrite H2. unfold set_wire. simpl. f_equal. f_equal; [by rewrite app_assoc|lia].
    + destruct (Z.leb_spec (size d1 + size d2) (accepts c)); [lia|]. destruct H2 as (p & n & e & Hp & ->).
      exists (d1 ++ p), n, e. split; [by apply prefix_app|]. by rewrite app_assoc.
  - destruct (Z.leb_spec (size d1 + size d2) (accepts c)); [lia|]. destruct H1 as (p & n & e & Hp & E).
    rewrite (H3 _ _ E), E. exists p, n, e. split; [|done]. by apply prefix_app_r.
Qed.

Lemma until_file_split ps : forall a b, until_file ps = (a, b) ->
  ps = a ++ b /\ forallb (fun p => negb (is_file p)) a = true /\ match b with [] => True | p :: _ => is_file p = true end.
Proof.
  induction ps as [|p ps IH]; intros a b E; simpl in E; [by simplify_eq|]. destruct (is_file p) eqn:Ep; [by simplify_eq|].
  destruct (until_file ps) as [a' b'] eqn:Eu. simplify_eq. destruct (IH _ _ eq_refl) as (-> & Ha & Hb). simpl. by rewrite Ep, Ha.
Qed.

Lemma batch_delivers c a :
  0 <= accepts c -> (3 * length a <= kMaxPendingIov)%nat -> forallb (fun p => negb (is_file p)) a = true ->
  delivers c (match a with [] => (c, Ok tt) | _ => writev_span (build_iovecs c a []) c end) (concat (map (queued_bytes c) a)).
Proof.
  intros H0 Hn Ha. destruct a as [|p a]; [by apply delivers_nil|].
  rewrite <- (app_nil_l (concat _)). change [] with (@concat Z []) at 2. rewrite <- build_iovecs_all by (simpl in *; lia || done). apply writev_delivers.
Qed.

Lemma delivers_accepts c c1 d : delivers c (c1, Ok tt) d -> 0 <= accepts c1 /\ exists w n, c1 = set_wire w n c.
Proof.
  unfold delivers. destruct (Z.leb_spec (size d) (accepts c)); [|by intros (? & ? & ? & ? & ?)].
  intros [= ->]. simpl. split; [lia|eauto].
Qed.

Lemma file_delivers c p :
  0 <= accepts c -> is_file p = true ->
  delivers c (let '(c, r) := match head_segments c p with [] => (c, Ok tt) | hv => writev_span hv c end in
              match r with
              | Unexpected e => (c, Unexpected e)
              | Ok _ => writev_span [take (Z.to_nat (body_len p)) (file_bytes p)] c
              end) (queued_bytes c p).
Proof.
  intros H0 Hf. assert (queued_bytes c p = concat (head_segments c p) ++ concat [take (Z.to_nat (body_len p)) (file_bytes p)]) as ->.
  { rewrite head_segments_bytes. unfold queued_bytes, queued_body, is_file in *. rewrite <- app_assoc. do 2 f_equal.
    apply bool_decide_eq_true in Hf. rewrite Hf. simpl. by rewrite app_nil_r. }
  assert (Hh : delivers c (match head_segments c p with [] => (c, Ok tt) | hv => writev_span hv c end) (concat (head_segments c p))).
  { destruct (head_segments c p); [by apply delivers_nil|apply writev_delivers]. }
  set (o1 := match head_segments c p with [] => _ | _ => _ end) in *. destruct o1 as [c1 [[]|e]] eqn:E1.
  - eapply delivers_seq; [exact Hh| |done]. intros ? [= <-]. apply writev_delivers.
  - eapply delivers_seq; [exact Hh|done|done].
Qed.

Lemma flush_files_delivers fuel : forall ps c,
  (length ps < fuel)%nat -> 0 <= accepts c -> (3 * length ps <= kMaxPendingIov)%nat ->
  delivers c (flush_files fuel ps c) (concat (map (queued_bytes c) ps)).
Proof.
  induction fuel as [|fuel IH]; intros ps c Hfuel H0 Hn; [lia|]. cbn [flush_files].
  destruct (until_file ps) as [a b] eqn:Eu. destruct (until_file_split _ _ _ Eu) as (-> & Ha & Hb). rewrite length_app in *.
  rewrite map_app, concat_app. pose proof (batch_delivers c a H0 ltac:(lia) Ha) as D1.
  set (o1 := match a with [] => _ | _ => _ end) in *. destruct o1 as [c1 [[]|e]] eqn:E1; clear o1 E1.
  2: { eapply delivers_seq; [exact D1|done|done]. }
  destruct (delivers_accepts _ _ _ D1) as (H1 & w & n & E).
  destruct b as [|p b].
  { eapply delivers_seq; [exact D1| |done]. intros ? [= <-]. by apply delivers_nil. }
  eapply delivers_seq; [exact D1| |done]. intros ? [= <-].
  replace (map (queued_bytes c)) with (map (queued_bytes c1)) by (by rewrite E). cbn [map concat].
  pose proof (file_delivers c1 p H1 Hb) as D2.
  set (o2 := match head_segments c1 p with [] => _ | _ => _ end) in *. destruct o2 as [c2 [[]|e]] eqn:E2; clear o2 E2.
  2: { eapply delivers_seq; [exact D2|done|done]. }
  set (o3 := writev_span [take _ _] c2) in *. destruct o3 as [c3 [[]|e]] eqn:E3; clear o3 E3.
  2: { eapply delivers_seq; [exact D2|done|done]. }
  destruct (delivers_accepts _ _ _ D2) as (H3 & w3 & n3 & E3).
  eapply delivers_seq; [exact D2| |done]. intros ? [= <-].
  replace (map (queued_bytes c1)) with (map (queued_bytes c3)) by (by rewrite E3). simpl in *. apply IH; [lia|done|lia].
Qed.

Lemma placed_bytes c ps ts : Forall2 (placed c) ps ts -> map (queued_bytes c) ps = ts.
Proof. induction 1 as [|p t ps ts Hp _ IH]; [done|]. simpl. by rewrite IH, (pl_bytes _ _ _ Hp). Qed.

Lemma flush_delivers c ts :
  sound c ts -> 0 <= accepts c -> (length (pending_ c) <= kPending)%nat -> delivers c (flush c) (concat ts).
Proof.
  intros [[_ F1] [_ F2] [_ F3] HP] H0 Hn. rewrite <- (placed_bytes _ _ _ HP). unfold kPending in Hn. unfold flush.
  destruct (pending_ c) as [|p ps] eqn:Ep; [by apply delivers_nil|]. rewrite F1, F2, F3, <- Ep in *.
  assert (3 * length (pending_ c) <= kMaxPendingIov)%nat by (unfold kMaxPendingIov; lia).
  destruct (existsb is_file (pending_ c)) eqn:Ef; cbn [negb].
  - apply flush_files_delivers; [lia|done|done].
  - assert (Hmatch : forall A (x y : A), match pending_ c with [] => x | _ => y end = y) by (intros; by rewrite Ep).
    pose proof (batch_delivers c (pending_ c) H0 ltac:(done)) as D. rewrite Hmatch in D. apply D.
    apply forallb_forall. intros x Hx. apply negb_true_iff. apply not_true_iff_false. intros Hfx.
    apply not_true_iff_false in Ef. apply Ef, existsb_exists. eauto.
Qed.

(** ** Framing a response *)

Definition date_fits (opt : server_options_t) : Prop := forall d, http_date opt = Some d -> size d < 2 ^ 32.

(** The head the server writes, as a function of the response. *)
Definition write_head (opt : server_options_t) (close_after : bool) (r : response_t) (o : out_buffer_t) : out_buffer_t :=
  let seen := seen_ r in
  let o := put_status_line (status_ r) o in
  let o := when (serve_date_header opt && negb (saw_date_ seen)) (date_header (http_date opt)) o in
  let o := server_block opt seen close_after o in
  let streaming := bool_decide (source_ r = SrcStreaming) in
  let o := when (negb (saw_content_length_ seen) && negb (saw_transfer_encoding_ seen) && negb streaming
                 && negb (status_forbids_body (status_ r))) (header_u64 ContentLength (body_len_ r)) o in
  when (streaming && negb (saw_transfer_encoding_ seen)) (header_field TransferEncoding (str "chunked")) o.

Lemma frame_head_eq opt close c :
  frame_head opt close c = set_head (write_head opt close (resp_ (seal_headers c)) (head_out_ c)) (seal_headers c).
Proof. done. Qed.

Lemma emits_text f (ls : list bytes) (P : Prop) : emits f (text_of ls) P -> emits f (text_of ls) True.
Proof. intros H. by eapply emits_mono. Qed.

Lemma emits_both f g a b : emits f (text_of a) True -> emits g (text_of b) True -> emits (fun o => g (f o)) (text_of (a ++ b)) True.
Proof. intros F G. eapply emits_mono; [eapply emits_seq; [exact F|exact G]|by rewrite text_of_app|done]. Qed.

Lemma emits_id : emits (fun o => o) (text_of []) True.
Proof. split; [done|]. intros o Hok _ _. by rewrite app_nil_r. Qed.

Lemma emits_put d : size d < 2 ^ 32 -> emits (put d) d True.
Proof. intros H. by eapply emits_writes, put_writes. Qed.

Lemma emits_date opt (b : bool) :
  date_fits opt ->
  emits (when b (date_header (http_date opt)))
    (text_of (match http_date opt with Some (x :: d) => if b then [field_line Date (x :: d)] else [] | _ => [] end)) True.
Proof.
  intros Hfit. unfold date_header. destruct (http_date opt) as [[|x d]|] eqn:Ed; destruct b; try apply emits_id.
  eapply emits_mono; [refine (emits_seq _ _ _ _ _ _ (emits_seq _ _ _ _ _ _ (emits_put (str "Date: ") eq_refl) (emits_put (x :: d) _)) (emits_put crlf eq_refl)); by apply Hfit| |done].
  unfold text_of, field_line. simpl. by rewrite <- !app_assoc.
Qed.

Lemma emits_server_block opt seen close :
  emits (server_block opt seen close)
    (text_of ((if serve_server_header opt then [str "Server: cornet"] else []) ++
              (if negb (saw_connection_ seen) then [str (if close then "Connection: close" else "Connection: keep-alive")] else []))) True.
Proof.
  unfold server_block. destruct (serve_server_header opt), (saw_connection_ seen), close; simpl; try apply emits_id;
    (eapply emits_mono; [apply emits_put; reflexivity|reflexivity|done]).
Qed.

Lemma emits_head opt close h r :
  handler_fits h -> date_fits opt -> status_ r = h_status h -> source_ r <> SrcStreaming -> body_len_ r = size (body_text (h_body h)) ->
  (forall f b, seen_of f (seen_ r) = Some b -> b = written f (h_calls h)) ->
  emits (write_head opt close r) (text_of (server_lines opt close h)) True.
Proof.
  intros (Hst & _ & Hsz) Hdate Es Hns El Hseen. unfold write_head. rewrite Es, El, (bool_decide_eq_false_2 _ Hns).
  rewrite (Hseen Date _ eq_refl), (Hseen ContentLength _ eq_refl), (Hseen TransferEncoding _ eq_refl). cbn [andb negb when].
  rewrite andb_true_r. unfold server_lines.
  assert (Hst' : emits (put_status_line (h_status h)) (text_of [str "HTTP/1.1 " ++ write_u64 (h_status h) ++ str " " ++ reason_phrase (h_status h)]) True).
  { eapply emits_mono; [eapply emits_writes, status_line_exact; lia| |done]. unfold text_of. cbn [map concat]. by rewrite app_nil_r, <- !app_assoc. }
  match type of Hst' with emits _ (text_of ?l) _ => set (sl := l) in * end. clearbody sl.
  rewrite <- (Hseen Connection _ eq_refl). rewrite !app_assoc. rewrite <- (app_assoc _ (if serve_server_header opt then _ else _)).
  apply (emits_both (fun o => server_block opt (seen_ r) close (when (serve_date_header opt && negb (written Date (h_calls h))) (date_header (http_date opt)) (put_status_line (h_status h) o)))).
  2: { eapply emits_text, emits_line; [apply emits_header_u64; [done|pose proof (size_nonneg (body_text (h_body h))); lia]|].
       intros _. apply field_line_clean, decimal_clean. pose proof (size_nonneg (body_text (h_body h))); lia. }
  apply (emits_both (fun o => when (serve_date_header opt && negb (written Date (h_calls h))) (date_header (http_date opt)) (put_status_line (h_status h) o))).
  2: apply emits_server_block.
  apply (emits_both _ _ _ _ Hst'), emits_date, Hdate.
Qed.

(** The entry a response queues, once its head is framed. *)
Definition entry_of (no_body : bool) (off : Z) (c : conn_t) : pending_t :=
  let r := resp_ c in
  let '(s, boff, n, e, f) :=
    if negb no_body && (0 <? body_len_ r) then
      match source_ r with
      | SrcInline => (SrcInline, body_off_ r, u32 (body_len_ r), [], [])
      | SrcFile => (SrcFile, 0, u32 (body_len_ r), [], default [] (file_ r))
      | s => (s, 0, u32 (body_len_ r), external_ r, [])
      end
    else (SrcNone, 0, 0, [], []) in
  mk_pending off (u32 (size_ (head_out_ c) - off)) (hdr_off_ r) (hdr_length r) s boff n e f.

Lemma frame_response_shape opt hr close c :
  source_ (resp_ c) <> SrcStreaming -> (length (pending_ c) < kPending)%nat ->
  exists r, frame_response opt hr close c =
    set_pending (pending_ c ++ [entry_of (status_forbids_body (status_ (resp_ c)) || hr) (size_ (head_out_ c)) (frame_head opt close c)])
      (set_resp r (frame_head opt close c)).
Proof.
  intros Hns Hn. unfold frame_response. rewrite (bool_decide_eq_false_2 _ Hns).
  match goal with |- context [let '(p, r) := ?X in _] => destruct X as [p r] eqn:EX end.
  assert (p = entry_of (status_forbids_body (status_ (resp_ c)) || hr) (size_ (head_out_ c)) (frame_head opt close c)) as ->.
  { unfold entry_of. rewrite negb_orb. simpl in *. repeat case_match; simplify_eq; done. }
  exists r. unfold push_pending. simpl. by apply Nat.ltb_lt in Hn as ->.
Qed.

(** Where the queued body is, and that it is what is to be sent. *)
Lemma entry_body c h c1 c2 (nb : bool) off :
  handler_fits h -> handled c h c1 -> body_out_ c2 = body_out_ c1 -> ok (body_out_ c) ->
  source_ (resp_ c2) = source_ (resp_ c1) -> body_off_ (resp_ c2) = body_off_ (resp_ c1) -> body_len_ (resp_ c2) = body_len_ (resp_ c1) ->
  external_ (resp_ c2) = external_ (resp_ c1) -> file_ (resp_ c2) = file_ (resp_ c1) ->
  (source (entry_of nb off c2) = SrcInline -> in_range (body_out_ c2) (body_off (entry_of nb off c2)) (body_len (entry_of nb off c2))) /\
  queued_body c2 (entry_of nb off c2) = (if nb then [] else body_text (h_body h)).
Proof.
  intros (_ & _ & Hsz) H Eb Ho E1 E2 E3 E4 E5. pose proof (ha_at _ _ _ H) as Hat. pose proof (ha_len _ _ _ H) as Hl.
  unfold entry_of, queued_body, body_at in *. rewrite E1, E2, E3, E4, E5, Eb, Hl in *. set (d := body_text (h_body h)) in *.
  pose proof (size_nonneg d). pose proof Ho as [[? _] _].
  assert (Hd : size d = 0 -> d = []) by (destruct d; [done|unfold size; simpl; lia]).
  assert (Ht : take (Z.to_nat (size d)) d = d) by (apply take_ge; unfold size; lia).
  destruct nb; simpl; [done|]. destruct (Z.ltb_spec 0 (size d)); simpl.
  - rewrite (u32_small (size d)) by lia. destruct (source_ (resp_ c1)); simpl.
    + by rewrite Hat.
    + destruct Hat as (-> & ? & ->). split; [intros _; split_and!; lia|done].
    + by rewrite Hat.
    + done.
    + by rewrite Hat.
  - split; [done|]. symmetry. apply Hd. lia.
Qed.

Lemma handled_not_streaming c h c1 : handled c h c1 -> source_ (resp_ c1) <> SrcStreaming.
Proof. intros H Hs. pose proof (ha_at _ _ _ H) as Hat. unfold body_at in Hat. by rewrite Hs in Hat. Qed.

Lemma placed_frame c l r p t : placed c p t -> placed (set_pending l (set_resp r c)) p t.
Proof. by intros [? ? ? <-]. Qed.

(** A freshly framed entry lies at the ends of the buffers. *)
Lemma entry_placed c c2 nb a b t :
  ok (head_out_ c) -> ok (hdr_out_ c) -> grew (head_out_ c) (head_out_ c2) a -> grew (hdr_out_ c) (hdr_out_ c2) b ->
  hdr_off_ (resp_ c2) = size_ (hdr_out_ c) -> hdr_end_ (resp_ c2) = size_ (hdr_out_ c2) ->
  (source (entry_of nb (size_ (head_out_ c)) c2) = SrcInline -> in_range (body_out_ c2) (body_off (entry_of nb (size_ (head_out_ c)) c2)) (body_len (entry_of nb (size_ (head_out_ c)) c2))) ->
  queued_body c2 (entry_of nb (size_ (head_out_ c)) c2) = t ->
  placed c2 (entry_of nb (size_ (head_out_ c)) c2) (a ++ b ++ t).
Proof.
  intros O1 O2 G1 G2 R1 R2 HB Ht. pose proof (grew_size _ _ _ O1 G1) as S1. pose proof (grew_size _ _ _ O2 G2) as S2.
  pose proof (size_nonneg a). pose proof (size_nonneg b). pose proof O1 as [[? _] _]. pose proof O2 as [[? _] _]. pose proof G1 as [[? ?] _].
  set (e := entry_of _ _ _) in *.
  assert (Eh : head_off e = size_ (head_out_ c) /\ head_len e = size a).
  { subst e. unfold entry_of. repeat case_match; simpl; (split; [done|]); rewrite S1; rewrite u32_small; lia. }
  assert (Ed : hdr_off e = size_ (hdr_out_ c) /\ hdr_len e = size b).
  { assert (Hl : hdr_length (resp_ c2) = size b) by (unfold hdr_length; rewrite R1, R2, S2; bool_destruct; zify_bool; lia).
    subst e. unfold entry_of. repeat case_match; simpl; rewrite Hl, R1; done. }
  destruct Eh as [Eh1 Eh2], Ed as [Ed1 Ed2]. constructor; [| |done|].
  - unfold in_range. rewrite Eh1, Eh2, S1. lia.
  - unfold in_range. rewrite Ed1, Ed2, S2. lia.
  - unfold queued_bytes. rewrite Eh1, Eh2, Ed1, Ed2, Ht. f_equal; [by apply grew_region|]. f_equal. by apply grew_region.
Qed.

Lemma frame_response_sound opt hr close h c c1 ts :
  handler_fits h -> date_fits opt -> sound c ts -> handled c h c1 -> (length (pending_ c) < kPending)%nat ->
  failed (head_out_ (frame_response opt hr close c1)) = false -> failed (hdr_out_ (frame_response opt hr close c1)) = false ->
  sound (frame_response opt hr close c1) (ts ++ [response_bytes opt close hr h]).
Proof.
  intros Hfit Hdate [[O1 F1] [O2 F2] [O3 F3] HP] H Hn. pose proof (handled_not_streaming _ _ _ H) as Hns.
  destruct (ha_rest _ _ _ H) as (Ep & _). destruct (frame_response_shape opt hr close c1 Hns) as (r & ->); [by rewrite Ep|].
  rewrite frame_head_eq. set (c2 := set_head _ _). cbn [head_out_ hdr_out_ set_pending set_resp]. rewrite Ep, (ha_head _ _ _ H). intros FH FD.
  pose proof (ha_ok _ _ _ H) as [Fh1 Fb1]. destruct (ha_hdr _ _ _ H) as [Oh1 Vh1]. destruct (ha_region _ _ _ H) as [Roff Rend].
  destruct (emits_grew _ _ _ _ (emits_put crlf eq_refl) Oh1 Fh1 FD) as [G2 _].
  pose proof (grew_trans _ _ _ _ _ (ha_hdr _ _ _ H) G2) as G2'. pose proof (ha_body _ _ _ H) as [db G3].
  assert (HE : emits (write_head opt close (resp_ (seal_headers c1))) (text_of (server_lines opt close h)) True).
  { apply emits_head; try done; [apply (ha_status _ _ _ H)|apply (ha_len _ _ _ H)|apply (ha_seen _ _ _ H)]. }
  unfold c2 in FH. simpl in FH. rewrite (ha_head _ _ _ H) in FH. destruct (emits_grew _ _ _ _ HE O1 F1 FH) as [G1 _].
  assert (Eh2 : head_out_ c2 = write_head opt close (resp_ (seal_headers c1)) (head_out_ c)) by (unfold c2; simpl; by rewrite (ha_head _ _ _ H)).
  assert (X : extends c (set_pending (pending_ c ++ [entry_of (status_forbids_body (status_ (resp_ c1)) || hr) (size_ (head_out_ c)) c2]) (set_resp r c2))).
  { split_and!; [|by eexists|by exists db]. exists (text_of (server_lines opt close h)). cbn [head_out_ set_pending set_resp]. by rewrite Eh2. }
  constructor.
  - split; [|cbn [head_out_ set_pending set_resp]; by rewrite Eh2]. cbn [head_out_ set_pending set_resp]. rewrite Eh2. apply G1.
  - split; [apply G2'|done].
  - split; [apply G3|done].
  - cbn [pending_ set_pending]. apply Forall2_app.
    + eapply Forall2_impl; [exact HP|]. intros p t. by apply placed_extends.
    + constructor; [|constructor]. apply placed_frame.
      assert (Hsb : sent_body hr h = if status_forbids_body (status_ (resp_ c1)) || hr then [] else body_text (h_body h))
        by (unfold sent_body; by rewrite (ha_status _ _ _ H)).
      unfold response_bytes. rewrite (app_assoc (text_of (map call_line (h_calls h)))), Hsb.
      destruct (entry_body c h c1 c2 (status_forbids_body (status_ (resp_ c1)) || hr) (size_ (head_out_ c)) Hfit H eq_refl O3 eq_refl eq_refl eq_refl eq_refl eq_refl) as [B1 B2].
      apply entry_placed with (c := c); try done; by rewrite Eh2.
Qed.

(** ** A round of requests *)

Record request_in := mk_in { in_handler : handler_t; in_keep_alive : bool; in_head : bool }.

(** The dispatches of one round, up to the one that ends it. *)
Fixpoint serve (opt : server_options_t) (reqs : list request_in) (c : conn_t) : conn_t :=
  match reqs with
  | [] => c
  | q :: reqs =>
      let '(c, stop) := finish_dispatch opt (in_keep_alive q) (in_head q) (run_handler (in_handler q) c) in
      if stop then c else serve opt reqs c
  end.

Definition closes (q : request_in) : bool := negb (in_keep_alive q) || status_forces_close (h_status (in_handler q)).

(** What the round is to answer. *)
Fixpoint answers (opt : server_options_t) (reqs : list request_in) : list bytes :=
  match reqs with
  | [] => []
  | q :: reqs => response_bytes opt (closes q) (in_head q) (in_handler q) :: if closes q then [] else answers opt reqs
  end.

(** An output buffer has failed and something is queued: [flush] refuses. *)
Definition broken (c : conn_t) : Prop := (failed (head_out_ c) = true \/ failed (hdr_out_ c) = true) /\ pending_ c <> [].

Definition same_wire (c c' : conn_t) : Prop := wire c' = wire c /\ accepts c' = accepts c /\ closing_ c' = closing_ c.

(** Writers do nothing to a failed buffer. *)
Definition idles (f : out_buffer_t -> out_buffer_t) : Prop := forall o, failed o = true -> f o = o.

Lemma idles_seq f g : idles f -> idles g -> idles (fun o => g (f o)).
Proof. intros F G o Ho. by rewrite (F o Ho), (G o Ho). Qed.
Lemma idles_when b f : idles f -> idles (when b f).
Proof. by destruct b. Qed.
Lemma idles_put d : idles (put d).
Proof. intros o Ho. unfold put, failed in *. by rewrite Ho. Qed.
Lemma idles_put_u64 v : idles (put_u64 v).
Proof. intros o Ho. unfold put_u64, failed in *. by rewrite Ho. Qed.
Lemma idles_prefix f : idles (put_prefix f).
Proof. unfold put_prefix. destruct (field_prefix f); [apply idles_put|done]. Qed.
Lemma idles_line f g : idles f -> idles g -> idles (fun o => put_crlf (g (f o))).
Proof. intros F G. apply (idles_seq (fun o => g (f o)) put_crlf); [by apply idles_seq|apply idles_put]. Qed.
Lemma idles_fail e : idles (fail e).
Proof. intros o Ho. unfold fail, failed in *. by rewrite Ho. Qed.
#[local] Hint Resolve idles_put idles_put_u64 idles_prefix idles_fail idles_when : cornet.

Lemma idles_header_field f v : idles (header_field f v).
Proof. unfold header_field. destruct (has_crlf v); [auto with cornet|]. apply idles_line; auto with cornet. Qed.
Lemma idles_header_u64 f v : idles (header_u64 f v).
Proof. apply idles_line; auto with cornet. Qed.
Lemma idles_header_name n v : idles (header_name n v).
Proof.
  unfold header_name. destruct (has_crlf n || has_crlf v); [auto with cornet|].
  apply (idles_line (fun o => put (str ": ") (put n o))); [|auto with cornet]. apply idles_seq; auto with cornet.
Qed.
Lemma idles_status s : idles (put_status_line s).
Proof.
  unfold put_status_line. destruct (status_line s); [auto with cornet|].
  apply (idles_line (fun o => put_byte 32 (put_u64 (u16 s) (put (str "HTTP/1.1 ") o)))); [|auto with cornet].
  apply (idles_seq (fun o => put_u64 (u16 s) (put (str "HTTP/1.1 ") o)) (put_byte 32)); [apply idles_seq; auto with cornet|apply idles_put].
Qed.
Lemma idles_date d : idles (date_header d).
Proof. unfold date_header. destruct d as [[|x d]|]; try done. apply idles_line; auto with cornet. Qed.
Lemma idles_server_block opt seen close : idles (server_block opt seen close).
Proof. unfold server_block. bool_destruct; auto with cornet; done. Qed.
#[local] Hint Resolve idles_header_field idles_header_u64 idles_header_name idles_status idles_date idles_server_block : cornet.

Lemma idles_write_head opt close r : idles (write_head opt close r).
Proof.
  intros o Ho. unfold write_head.
  rewrite (idles_status _ o Ho), (idles_when _ _ (idles_date _) o Ho), (idles_server_block _ _ _ o Ho), (idles_when _ _ (idles_header_u64 _ _) o Ho).
  by apply (idles_when _ _ (idles_header_field _ _)).
Qed.

Lemma idles_calls xs : idles (write_calls xs).
Proof.
  intros o Ho. induction xs as [|x xs IH]; [done|]. simpl.
  assert (write_call x o = o) as -> by (destruct x; [by apply idles_header_name|by apply idles_header_field|by apply idles_header_u64]). exact IH.
Qed.

(** What framing never undoes. *)
Lemma frame_response_keeps opt hr close c :
  source_ (resp_ c) <> SrcStreaming ->
  let c2 := frame_response opt hr close c in
  (failed (head_out_ c) = true -> failed (head_out_ c2) = true) /\ (failed (hdr_out_ c) = true -> failed (hdr_out_ c2) = true) /\
  pending_ c2 <> [] /\ same_wire c c2.
Proof.
  intros Hns c2. subst c2. unfold frame_response. rewrite (bool_decide_eq_false_2 _ Hns).
  match goal with |- context [let '(p, r) := ?X in _] => destruct X as [p r] end.
  assert (H1 : failed (head_out_ c) = true -> failed (head_out_ (frame_head opt close c)) = true).
  { intros Hf. rewrite frame_head_eq. simpl. by rewrite (idles_write_head _ _ _ _ Hf). }
  assert (H2 : failed (hdr_out_ c) = true -> failed (hdr_out_ (frame_head opt close c)) = true).
  { intros Hf. rewrite frame_head_eq. simpl. unfold put_crlf. by rewrite (idles_put _ _ Hf). }
  unfold push_pending. simpl pending_. destruct (Nat.ltb_spec (length (pending_ c)) kPending) as [?|Hn]; cbn.
  - split_and!; [done|done| |by split_and!]. by destruct (pending_ c).
  - split_and!; [|done| |by split_and!].
    + intros Hf. by rewrite (idles_fail _ _ (H1 Hf)), H1.
    + destruct (pending_ c); [unfold kPending in *; simpl in *; lia|done].
Qed.

Lemma run_handler_keeps h c :
  let c1 := run_handler h c in
  head_out_ c1 = head_out_ c /\ pending_ c1 = pending_ c /\ same_wire c c1 /\ source_ (resp_ c1) <> SrcStreaming /\
  status_ (resp_ c1) = h_status h /\ (failed (hdr_out_ c) = true -> failed (hdr_out_ c1) = true) /\
  (resp_failed c1 = true -> ok (hdr_out_ c) -> failed (body_out_ c) = false -> ok (body_out_ c) -> handler_fits h -> failed (hdr_out_ c1) = true).
Proof.
  intros c1. subst c1. unfold run_handler. pose proof (handler_headers h c) as [Es Eh Er]. set (c1 := fold_left _ _ _) in *. clearbody c1.
  assert (HL : failed (hdr_out_ c) = true -> failed (hdr_out_ c1) = true) by (intros Hf; by rewrite Eh, (idles_calls _ _ Hf)).
  assert (HR : resp_err_ (resp_ c1) = no_error) by (by rewrite Er).
  assert (Eb : body_out_ c1 = body_out_ c) by (by rewrite Es).
  assert (B : head_out_ c1 = head_out_ c /\ pending_ c1 = pending_ c /\ same_wire c c1 /\ source_ (resp_ c1) = SrcNone /\ status_ (resp_ c1) = h_status h).
  { rewrite Es, Er. done. }
  destruct B as (B1 & B2 & B3 & B4 & B5). unfold resp_failed, resp_error, run_body, body, body_static, local_file, cfail, resp_fail.
  rewrite B4, HR, ?Eb in *. destruct (h_body h) as [|d|d|d] eqn:Ed; simpl; rewrite ?B4, ?HR, ?Eb; simpl.
  2: destruct (remaining (body_out_ c) <? size d) eqn:Hr; simpl; rewrite ?B4, ?HR, ?Eb; simpl;
    [|destruct (failed (put d (body_out_ c))) eqn:Hp; simpl; rewrite ?B4, ?HR; simpl].
  all: split_and!; try done; intros HF Oh Fb Ob Hfit; destruct (failed (hdr_out_ c1)) eqn:Hh; try done;
    rewrite ?Fb, ?Hp in HF; try done.
  exfalso. assert (failed (put d (body_out_ c)) = false); [|congruence].
  destruct Hfit as (_ & _ & Hs). rewrite Ed in Hs. apply (wr_fits _ _ _ (put_writes d Hs)); try done.
  rewrite remaining_ok in Hr by done. apply Z.ltb_ge in Hr. lia.
Qed.

Lemma write_error_broken opt s hr c :
  failed (head_out_ c) = true \/ failed (hdr_out_ c) = true ->
  broken (write_error opt s hr c) /\ same_wire c (write_error opt s hr c).
Proof.
  intros Hf. unfold write_error. set (c0 := set_flags _ _ _ c). set (c1 := resp_header_field _ _ (status s (begin c0))).
  assert (Hb : body_static (reason_phrase s) c1 = set_resp (with_body SrcExternal (body_off_ (resp_ c1)) (size (reason_phrase s)) (reason_phrase s) (file_ (resp_ c1)) (resp_ c1)) c1) by done.
  rewrite Hb. set (c2 := set_resp _ c1). destruct (frame_response_keeps opt hr true c2 ltac:(done)) as (K1 & K2 & K3 & K4).
  split; [|exact K4]. split; [|exact K3]. destruct Hf as [Hf|Hf]; [left; by apply K1|right; apply K2].
  change (hdr_out_ c2) with (header_field ContentType (str "text/plain; charset=utf-8") (hdr_out_ c)).
  by rewrite (idles_header_field _ _ _ Hf).
Qed.

Lemma broken_or_sound c ts : sound c ts -> ~ broken c.
Proof. intros [[_ F1] [_ F2] _ _] [[H|H] _]; congruence. Qed.

(** One dispatch. *)
Lemma dispatch_step opt q c ts :
  date_fits opt -> handler_fits (in_handler q) -> closing_ c = false ->
  sound c ts \/ broken c -> (sound c ts -> length (pending_ c) < kPending)%nat ->
  let '(c', stop) := finish_dispatch opt (in_keep_alive q) (in_head q) (run_handler (in_handler q) c) in
  same_wire c c' /\
  (sound c' (ts ++ [response_bytes opt (closes q) (in_head q) (in_handler q)]) /\ stop = closes q /\ sound c ts \/ broken c').
Proof.
  intros Hdate Hfit Hc Hs Hn. destruct (run_handler_keeps (in_handler q) c) as (Kh & Kp & Kw & Ks & Kst & Kl & Kf).
  set (c1 := run_handler (in_handler q) c) in *.
  assert (Ecl : negb (in_keep_alive q) || closing_ c1 || status_forces_close (status_ (resp_ c1)) = closes q).
  { destruct Kw as (_ & _ & ->). unfold closes. by rewrite Hc, Kst, orb_false_r. }
  assert (Kn : needs_streaming_settlement c1 = false) by (unfold needs_streaming_settlement; by rewrite (bool_decide_eq_false_2 _ Ks)).
  assert (Htrans : forall c2, same_wire c1 c2 -> same_wire c c2).
  { intros c2 (W1 & W2 & W3). destruct Kw as (V1 & V2 & V3). split_and!; congruence. }
  assert (Hbr : broken c -> failed (head_out_ c1) = true \/ failed (hdr_out_ c1) = true).
  { intros [[Hf|Hf] _]; [left; by rewrite Kh|right; by apply Kl]. }
  destruct (frame_response_keeps opt (in_head q) (closes q) c1 Ks) as (F1 & F2 & F3 & F4).
  unfold finish_dispatch. rewrite Ecl, Kn. destruct (resp_failed c1) eqn:HF.
  { destruct (write_error_broken opt 500 (in_head q) c1) as [B W]; [|split; [by apply Htrans|by right]].
    destruct Hs as [[[? ?] [? ?] [? ?] _]|Hb]; [right; by apply Kf|by apply Hbr]. }
  set (c2 := frame_response opt (in_head q) (closes q) c1) in *.
  assert (Hfin : sound c2 (ts ++ [response_bytes opt (closes q) (in_head q) (in_handler q)]) /\ sound c ts \/ broken c2).
  { destruct Hs as [Hs|Hb]; [|right; split; [|done]; destruct (Hbr Hb); auto].
    destruct (failed (head_out_ c2)) eqn:E1; [right; split; [by left|done]|].
    destruct (failed (hdr_out_ c2)) eqn:E2; [right; split; [by right|done]|]. left. split; [|done]. pose proof Hs as [[? ?] [? ?] [? ?] _].
    eapply frame_response_sound; try done; [by apply run_handler_spec|by apply Hn]. }
  destruct (closes q); (split; [by apply Htrans|]); (destruct Hfin as [[Hfin Hs0]|Hfin]; [left; split_and!; try done|right; done]).
  destruct Hfin as [? ? ? HP]. constructor; try done. eapply Forall2_impl; [exact HP|]. by intros p t [? ? ? <-].
Qed.

Lemma same_wire_trans c1 c2 c3 : same_wire c1 c2 -> same_wire c2 c3 -> same_wire c1 c3.
Proof. intros (? & ? & ?) (? & ? & ?). split_and!; congruence. Qed.

Lemma serve_broken opt reqs : forall c,
  date_fits opt -> Forall (fun q => handler_fits (in_handler q)) reqs -> closing_ c = false -> broken c ->
  same_wire c (serve opt reqs c) /\ broken (serve opt reqs c).
Proof.
  induction reqs as [|q reqs IH]; intros c Hdate Hfit Hc Hb; [done|]. inversion Hfit as [|? ? Hq Hr]; subst.
  pose proof (dispatch_step opt q c [] Hdate Hq Hc (or_intror Hb) ltac:(intros H; by apply broken_or_sound in H)) as D.
  simpl. destruct (finish_dispatch _ _ _ _) as [c1 stop]. destruct D as [W D].
  destruct D as [(_ & _ & H)|D]; [by apply broken_or_sound in H|]. destruct stop; [done|].
  destruct (IH c1) as [W' B]; try done; [by destruct W as (_ & _ & ->)|]. split; [by eapply same_wire_trans|done].
Qed.

Lemma serve_spec opt reqs : forall c ts,
  date_fits opt -> Forall (fun q => handler_fits (in_handler q)) reqs -> closing_ c = false ->
  sound c ts -> (length (pending_ c) + length reqs <= kPending)%nat ->
  same_wire c (serve opt reqs c) /\
  (sound (serve opt reqs c) (ts ++ answers opt reqs) /\ (length (pending_ (serve opt reqs c)) <= kPending)%nat \/ broken (serve opt reqs c)).
Proof.
  induction reqs as [|q reqs IH]; intros c ts Hdate Hfit Hc Hs Hn.
  - split; [done|]. simpl. rewrite app_nil_r. left. simpl in *. split; [done|lia].
  - inversion Hfit as [|? ? Hq Hr]; subst. simpl in *.
    pose proof (dispatch_step opt q c ts Hdate Hq Hc (or_introl Hs) ltac:(intros; lia)) as D.
    destruct (finish_dispatch _ _ _ _) as [c1 stop]. destruct D as [W D]. pose proof W as (_ & _ & W3).
    destruct D as [(D & -> & _)|D].
    + assert (length (pending_ c1) = S (length (pending_ c))) as Hl.
      { apply so_placed, Forall2_length in D, Hs. rewrite length_app in D. simpl in *. lia. }
      destruct (closes q); [split; [done|]; left; split; [done|lia]|].
      destruct (IH c1 _ Hdate Hr ltac:(by rewrite W3) D ltac:(lia)) as [W' D']. rewrite <- app_assoc in D'.
      split; [by eapply same_wire_trans|done].
    + destruct stop; [by auto|]. destruct (serve_broken opt reqs c1 Hdate Hr ltac:(by rewrite W3) D) as [W' D'].
      split; [by eapply same_wire_trans|by right].
Qed.

(** A connection at the start of a round. *)
Record fresh (c : conn_t) : Prop := {
  fr_head : ok (head_out_ c); fr_hdr : ok (hdr_out_ c); fr_body : ok (body_out_ c); fr_open : closing_ c = false
}.

Lemma reset_sound c : fresh c -> sound (reset_round c) [].
Proof.
  assert (forall o, ok o -> healthy (clear o)) as Hc.
  { intros o [? ?]. split; [|done]. split; [|done]. unfold clear, block in *. simpl. lia. }
  intros []. constructor; simpl; auto.
Qed.

(** C4: the responses to a round of pipelined requests leave in one batch,
    in order and intact. From a reset connection, for any handlers that set
    a status, write headers and give at most one body (copied, referenced or
    a file; below 4 GiB, and not streamed), up to the sixty-four a round may
    queue: if no output buffer
    overflowed or refused a header, [flush] writes exactly the concatenation
    of the status line, the server's lines, the handler's headers and the
    body of every response up to the first that closes the connection, no
    body for HEAD or a status that forbids one; if the transport fails it
    has taken a prefix of that; and if a buffer failed nothing at all is
    written, not even the 500 that docs/http_server.md promises, and the
    error is returned. *)
Theorem server_pipeline_wire opt reqs c :
  fresh c -> date_fits opt -> 0 <= accepts c -> (length reqs <= kPending)%nat ->
  Forall (fun q => handler_fits (in_handler q)) reqs ->
  let c1 := serve opt reqs (reset_round c) in
  let expect := concat (answers opt reqs) in
  let '(c2, r) := flush c1 in
  if failed (head_out_ c1) || failed (hdr_out_ c1) then wire c2 = wire c /\ exists e, r = Unexpected e
  else if size expect <=? accepts c then wire c2 = wire c ++ expect /\ r = Ok tt
  else (exists p, p `prefix_of` expect /\ wire c2 = wire c ++ p) /\ exists e, r = Unexpected e.
Proof.
  intros Hc Hdate H0 Hn Hfit c1 expect.
  destruct (serve_spec opt reqs (reset_round c) [] Hdate Hfit ltac:(apply (fr_open _ Hc)) (reset_sound c Hc) Hn) as [(W1 & W2 & _) [[S L]|B]];
    fold c1 in W1, W2.
  - fold c1 in S, L. pose proof (flush_delivers c1 _ S ltac:(by rewrite W2) L) as D. destruct S as [[_ F1] [_ F2] _ _].
    rewrite F1, F2. cbn [orb]. unfold delivers in D. rewrite W1, W2 in D. simpl in D. fold expect in D.
    destruct (size expect <=? accepts c); [by rewrite D|]. destruct D as (p & n & e & Hp & ->). simpl. eauto.
  - fold c1 in B. destruct B as [Hf Hp]. unfold flush. destruct (pending_ c1) as [|p ps] eqn:E; [done|].
    simpl in W1. destruct (failed (head_out_ c1)) eqn:E1; simpl; [by eauto|]. destruct Hf as [|Hf]; [done|]. rewrite Hf. eauto.
Qed.

(** ** Witnesses *)

Definition room (n : nat) : out_buffer_t := mk_out (Some (replicate n 0)) 0 no_error.

Definition sample_opt : server_options_t := mk_server true true (Some (str "Thu, 01 Jan 1970 00:00:00 GMT")).

Definition sample_conn : conn_t :=
  mk_conn (room 512) (room 128) (room 16) (room 64) (resp_ (begin (mk_conn (room 0) (room 0) (room 0) (room 0)
    (mk_resp 200 SrcNone 0 0 0 0 [] None no_seen no_error) [] false false false false false false [] 0)))
    [] false false false false false false (str ">") 4096.

Definition sample_round : list request_in :=
  [ mk_in (mk_handler 200 [CField ContentType (str "text/plain")] (Copied (str "hi"))) true false;
    mk_in (mk_handler 200 [CName (str "X-Id") (str "7")] (FileBody (str "file body"))) true false;
    mk_in (mk_handler 404 [CNum ContentLength 9] (Referenced (str "Not Found"))) false true;
    mk_in (mk_handler 200 [] NoBody) true false ].

Lemma sample_fresh : fresh sample_conn.
Proof. constructor; try reflexivity; vm_compute; repeat split; congruence. Qed.

Lemma server_pipeline_wire_witness :
  let '(c2, r) := flush (serve sample_opt sample_round (reset_round sample_conn)) in
  wire c2 = str ">" ++ concat (answers sample_opt sample_round) /\ r = Ok tt /\ length (answers sample_opt sample_round) = 3%nat.
Proof.
  assert (H : Forall (fun q => handler_fits (in_handler q)) sample_round).
  { repeat (apply Forall_cons; split); try apply Forall_nil; try exact I; (split; [done|split; [repeat constructor; done|done]]). }
  pose proof (server_pipeline_wire sample_opt sample_round sample_conn sample_fresh
    ltac:(intros d [= <-]; reflexivity) ltac:(discriminate) ltac:(vm_compute; lia) H) as K. vm_compute in K.
  vm_compute. exact (conj (proj1 K) (conj (proj2 K) eq_refl)).
Defined.
