(* ===== verification/ServerStream.v ===== *)
(** * Streamed responses

    [response_t::chunked] and [body_writer_t] of
    src/src/http/server/message.cc over the connection of [ServerResponse]:
    what a streamed body is on the wire, that a chunked decoder reads it back,
    and what happens when the stream is not alone in its round. *)

From stdpp Require Import prelude list list_numbers strings.
From Stdlib Require Import ZArith Lia.
From S2P Require Import Prelude Protocol Buffer Serializer HeadLines Chunked ServerResponse.
Open Scope Z_scope.

Fixpoint stream_all (ds : list bytes) (c : conn_t) : conn_t * expected unit :=
  match ds with
  | [] => writer_finish c
  | d :: ds =>
      let '(c, r) := writer_write d c in
      match r with Ok _ => stream_all ds c | Unexpected e => (c, Unexpected e) end
  end.

(** A handler that streams: the status and the headers, [chunked], each
    piece written, the stream finished. *)
Definition stream_handler (opt : server_options_t) (s : Z) (xs : list hcall) (ds : list bytes) (c : conn_t) : conn_t * expected unit :=
  stream_all ds (chunked opt (fold_left (fun c x => run_call x c) xs (status s (begin c)))).

(** ** What is to reach the wire *)

Definition stream_lines (opt : server_options_t) (s : Z) (xs : list hcall) : list bytes :=
  [str "HTTP/1.1 " ++ write_u64 s ++ str " " ++ reason_phrase s] ++
  (match http_date opt with
   | Some (x :: d) => if serve_date_header opt && negb (written Date xs) then [field_line Date (x :: d)] else []
   | _ => []
   end) ++
  (if serve_server_header opt then [str "Server: cornet"] else []) ++
  (if negb (written Connection xs) then [str "Connection: keep-alive"] else []) ++
  (if negb (written TransferEncoding xs) then [field_line TransferEncoding (str "chunked")] else []).

Definition stream_head (opt : server_options_t) (s : Z) (xs : list hcall) : bytes :=
  text_of (stream_lines opt s xs) ++ text_of (map call_line xs) ++ crlf.

(** ** Sending *)

(** All of [d] reached the wire, or an error after a prefix of it. *)
Definition sends (c : conn_t) (out : conn_t * expected unit) (d : bytes) : Prop :=
  (size d <= accepts c -> out.2 = Ok tt /\ wire out.1 = wire c ++ d /\ accepts out.1 = accepts c - size d) /\
  (accepts c < size d -> (exists e, out.2 = Unexpected e) /\ exists p, p `prefix_of` d /\ wire out.1 = wire c ++ p).

Lemma sends_seq c c1 r1 out2 d1 d2 :
  sends c (c1, r1) d1 -> (r1 = Ok tt -> sends c1 out2 d2) -> (forall e, r1 = Unexpected e -> out2 = (c1, Unexpected e)) ->
  sends c out2 (d1 ++ d2).
Proof.
  unfold sends. simpl. intros [A1 A2] B F. rewrite size_app. pose proof (size_nonneg d2). split; intros Hs.
  - destruct A1 as (-> & W & A); [lia|]. destruct (B eq_refl) as [B1 _]. destruct B1 as (-> & -> & ->); [lia|].
    rewrite W, app_assoc. split_and!; [done|done|lia].
  - destruct (Z.le_gt_cases (size d1) (accepts c)) as [Hle|Hgt].
    + destruct A1 as (-> & W & A); [done|]. destruct (B eq_refl) as [_ B2]. destruct B2 as (He & p & Hp & Hw); [lia|].
      split; [done|]. exists (d1 ++ p). split; [by apply prefix_app|]. by rewrite Hw, W, app_assoc.
    + destruct A2 as ((e & ->) & p & Hp & W); [lia|]. rewrite (F e eq_refl). simpl. split; [by exists e|].
      exists p. split; [by apply prefix_app_r|done].
Qed.

(** What a flush of the stream puts before the staged bytes. *)
Definition lead (c : conn_t) : bytes :=
  if headers_staged_ c then view_at (block (head_out_ c)) 0 (size_ (head_out_ c)) ++ view_at (block (hdr_out_ c)) 0 (hdr_length (resp_ c))
  else [].

Record ready (cap : Z) (c : conn_t) : Prop := {
  rd_head : failed (head_out_ c) = false; rd_hdr : failed (hdr_out_ c) = false;
  rd_ok : ok (stream_out_ c); rd_live : failed (stream_out_ c) = false; rd_empty : size_ (stream_out_ c) = 0;
  rd_cap : size (block (stream_out_ c)) = cap
}.

Lemma flush_stream_sends cap c o d :
  ready cap c -> grew (stream_out_ c) o d -> failed o = false -> size (block o) = cap -> d <> [] ->
  sends c (flush_stream (set_stream o c)) (lead c ++ d) /\
  ((flush_stream (set_stream o c)).2 = Ok tt ->
     ready cap (flush_stream (set_stream o c)).1 /\ lead (flush_stream (set_stream o c)).1 = []).
Proof.
  intros [H1 H2 H3 H4 H5 H6] G Fo Hcap Hd. pose proof (grew_size _ _ _ H3 G) as Sz. rewrite H5 in Sz. destruct G as [Oo Vo].
  assert (0 < size d) by (destruct d; [done|unfold size; simpl; lia]).
  assert (Ev : view_at (block o) 0 (size_ o) = d).
  { rewrite <- out_view_block, Vo by done. rewrite (out_view_block _ H3), H5. done. }
  unfold flush_stream. cbn [stream_out_ set_stream]. rewrite Fo. destruct (Z.eqb_spec (size_ o) 0) as [|_]; [lia|].
  match goal with |- context [writev_span _ ?x] => set (c0 := x) end.
  match goal with |- context [writev_span ?i c0] => set (iov := i) end.
  assert (Ei : concat iov = lead c ++ d).
  { unfold iov, lead, c0. rewrite concat_app, segment_bytes, Ev. f_equal. cbn [headers_staged_ set_stream].
    destruct (headers_staged_ c); [|done]. by rewrite concat_app, !segment_bytes. }
  assert (E0 : wire c0 = wire c /\ accepts c0 = accepts c /\ head_out_ c0 = head_out_ c /\ hdr_out_ c0 = hdr_out_ c /\ stream_out_ c0 = o /\ headers_staged_ c0 = false).
  { unfold c0. cbn. by destruct (headers_staged_ c) eqn:E. }
  destruct E0 as (W0 & A0 & B1 & B2 & B3 & B4). unfold writev_span. rewrite Ei, A0. unfold sends.
  destruct (Z.leb_spec (size (lead c ++ d)) (accepts c)); cbn; rewrite ?W0; (split; [split; intros; try lia|]); try done.
  - intros _. unfold lead. cbn. rewrite B4. split; [|done]. constructor; cbn; rewrite ?B1, ?B2, ?B3; try done.
    destruct Oo as [? ?]. unfold ok, clear, block in *. simpl in *. lia.
  - split; [by eexists|]. eexists. split; [apply prefix_take|done].
Qed.

Lemma stream_put_grows d o :
  ok o -> failed o = false -> size_ o + size d <= size (block o) ->
  grew o (put d o) d /\ failed (put d o) = false /\ size (block (put d o)) = size (block o).
Proof.
  intros Hok Hf Hfit. assert (Hd : size d < 2 ^ 32) by (destruct Hok as [? ?]; lia). pose proof (put_writes d Hd) as W.
  pose proof (wr_fits _ _ _ W o Hok Hf Hfit) as F. destruct (wr_ok _ _ _ W o Hok) as [O E].
  destruct (wr_done _ _ _ W o Hok Hf F) as [V _]. done.
Qed.

Lemma writev_sends d c : sends c (writev_span [d] c) d.
Proof.
  pose proof (writev_delivers [d] c) as D. assert (concat [d] = d) as Ec by apply app_nil_r. rewrite Ec in D. unfold delivers in D. unfold sends.
  destruct (Z.leb_spec (size d) (accepts c)); [rewrite D; cbn; split; [done|lia]|].
  destruct D as (p & n & e & Hp & ->). cbn. split; [lia|]. intros _. split; [by eexists|by exists p].
Qed.

(** The longest chunk-size line. *)
Definition kMinStream : Z := 18.

Lemma writer_write_sends cap c d :
  ready cap c -> kMinStream <= cap -> d <> [] -> size d + 20 < 2 ^ 32 ->
  sends c (writer_write d c) (lead c ++ chunk d) /\
  ((writer_write d c).2 = Ok tt -> ready cap (writer_write d c).1 /\ lead (writer_write d c).1 = []).
Proof.
  intros R Hcap Hd Hsz. pose proof R as [H1 H2 H3 H4 H5 H6]. unfold kMinStream in Hcap. pose proof (size_nonneg d).
  assert (0 < size d) by (destruct d; [done|unfold size; simpl; lia]).
  destruct (write_u64_chunk_roundtrip (size d) ltac:(lia)) as (_ & ds & El & _ & _ & Hl).
  assert (Sl : 3 <= size (write_chunk_size (size d)) <= 18) by (rewrite El, size_app; change (size [13; 10]) with 2; lia).
  assert (chunk d = write_chunk_size (size d) ++ d ++ crlf) as -> by (by destruct d).
  unfold writer_write. rewrite H1, H2. cbn [orb]. rewrite (u32_small (size d)) by lia.
  destruct (Z.eqb_spec (size d) 0) as [|_]; [lia|]. set (line := write_chunk_size (size d)) in *.
  assert (Hne : line <> []) by (intros E; rewrite E in Sl; change (size []) with 0 in Sl; lia).
  rewrite u32_small by lia. rewrite remaining_ok, H5, H6 by done.
  destruct (stream_put_grows line (stream_out_ c) H3 H4 ltac:(lia)) as (G1 & F1 & B1).
  pose proof (grew_size _ _ _ H3 G1) as S1. rewrite H5 in S1. pose proof G1 as [O1 _].
  destruct (Z.leb_spec (size d + size line + 2) (cap - 0)) as [Hfit|Hbig].
  - destruct (stream_put_grows d _ O1 F1 ltac:(lia)) as (G2 & F2 & B2). pose proof (grew_size _ _ _ O1 G2) as S2. pose proof G2 as [O2 _].
    destruct (stream_put_grows crlf _ O2 F2 ltac:(change (size crlf) with 2; lia)) as (G3 & F3 & B3).
    apply (flush_stream_sends cap c _ _ R); [|done|unfold put_crlf; fold crlf; congruence|by intros [? _]%app_nil].
    exact (grew_trans _ _ _ _ _ G1 (grew_trans _ _ _ _ _ G2 G3)).
  - destruct (flush_stream_sends cap c _ line R G1 F1 ltac:(congruence) Hne) as [D1 K1].
    destruct (flush_stream _) as [c1 r1]. simpl in K1. rewrite app_assoc.
    destruct r1 as [[]|e]; [|split; [|done]; eapply sends_seq; [exact D1|done|by intros ? [= ->]]].
    destruct (K1 eq_refl) as [R1 L1]. unfold write_direct. destruct d as [|x d]; [done|]. set (dd := x :: d) in *.
    pose proof (writev_sends dd c1) as D2.
    assert (R2 : forall w n, ready cap (set_wire w n c1)) by (intros; destruct R1; by constructor).
    assert (Hw : exists w n, (writev_span [dd] c1).1 = set_wire w n c1) by (unfold writev_span; destruct (_ <=? _); eauto).
    destruct (writev_span [dd] c1) as [c2 r2]. destruct Hw as (w & n & Hw). simpl in Hw.
    assert (D12 : sends c (match r2 with Ok _ => (c2, Ok tt) | Unexpected e => (c2, Unexpected e) end) ((lead c ++ line) ++ dd)).
    { eapply sends_seq; [exact D1| |done]. intros _. by destruct r2 as [[]|]. }
    rewrite app_assoc. destruct r2 as [[]|e]; [|split; [|done]; eapply sends_seq; [exact D12|done|by intros ? [= ->]]].
    specialize (R2 w n). rewrite <- Hw in R2. pose proof R2 as [_ _ J3 J4 J5 J6].
    assert (L2 : lead c2 = []) by (rewrite Hw; exact L1).
    destruct (stream_put_grows crlf (stream_out_ c2) J3 J4 ltac:(change (size crlf) with 2; lia)) as (G3 & F3 & B3).
    destruct (flush_stream_sends cap c2 _ crlf R2 G3 F3 ltac:(congruence) ltac:(done)) as [D3 K3]. rewrite L2 in D3. split; [|exact K3].
    eapply sends_seq; [exact D12|by intros _|done].
Qed.

Lemma stream_all_sends cap ds : forall c,
  ready cap c -> kMinStream <= cap -> Forall (fun d => size d + 20 < 2 ^ 32) ds ->
  sends c (stream_all ds c) (lead c ++ chunked_body ds) /\ ((stream_all ds c).2 = Ok tt -> stream_finished_ (stream_all ds c).1 = true).
Proof.
  induction ds as [|d ds IH]; intros c R Hcap Hs; simpl.
  - pose proof R as [_ _ H3 H4 H5 H6]. unfold kMinStream in *.
    destruct (stream_put_grows (str "0" ++ crlf ++ crlf) (stream_out_ c) H3 H4) as (G & F & B); [assert (size (str "0" ++ crlf ++ crlf) = 5) by reflexivity; lia|].
    unfold writer_finish. destruct (flush_stream_sends cap c _ _ R G F ltac:(congruence) ltac:(done)) as [D K].
    destruct (flush_stream _) as [c1 [[]|e]]; (split; [|done]); exact D.
  - inversion Hs as [|? ? Hd Hr]; subst. unfold chunked_body. cbn [map concat]. rewrite <- app_assoc.
    destruct d as [|x d]. { unfold writer_write. rewrite (rd_head _ _ R), (rd_hdr _ _ R). simpl. by apply IH. }
    destruct (writer_write_sends cap c (x :: d) R Hcap ltac:(done) Hd) as [D K]. rewrite app_assoc.
    destruct (writer_write _ c) as [c1 r1]. simpl in K. destruct r1 as [[]|e].
    + destruct (K eq_refl) as [R1 L1]. destruct (IH c1 R1 Hcap Hr) as [D2 K2]. rewrite L1 in D2. split; [|done].
      eapply sends_seq; [exact D|done|done].
    + split; [|done]. eapply sends_seq; [exact D|done|by intros ? [= ->]].
Qed.

(** ** The head of a stream *)

Lemma emits_stream_head opt s xs r :
  0 <= s < 2 ^ 16 -> date_fits opt -> status_ r = s -> source_ r = SrcStreaming ->
  (forall f b, seen_of f (seen_ r) = Some b -> b = written f xs) ->
  emits (write_head opt false r) (text_of (stream_lines opt s xs)) True.
Proof.
  intros Hst Hdate Es Hns Hseen. unfold write_head. rewrite Es, Hns.
  rewrite (Hseen Date _ eq_refl), (Hseen TransferEncoding _ eq_refl). cbn [andb negb when bool_decide decide_rel].
  rewrite andb_false_r. unfold stream_lines. cbn [when].
  assert (Hl : emits (put_status_line s) (text_of [str "HTTP/1.1 " ++ write_u64 s ++ str " " ++ reason_phrase s]) True).
  { eapply emits_mono; [eapply emits_writes, status_line_exact; lia| |done]. unfold text_of. cbn [map concat]. by rewrite app_nil_r, <- !app_assoc. }
  match type of Hl with emits _ (text_of ?l) _ => set (sl := l) in * end. clearbody sl.
  rewrite <- (Hseen Connection _ eq_refl). rewrite !app_assoc. rewrite <- (app_assoc _ (if serve_server_header opt then _ else _)).
  apply (emits_both (fun o => server_block opt (seen_ r) false (when (serve_date_header opt && negb (written Date xs)) (date_header (http_date opt)) (put_status_line s o)))).
  2: { eapply emits_text, emits_line; [by apply emits_header_field|]. intros _. by apply field_line_clean. }
  apply (emits_both (fun o => when (serve_date_header opt && negb (written Date xs)) (date_header (http_date opt)) (put_status_line s o))).
  2: exact (emits_server_block opt (seen_ r) false).
  apply (emits_both _ _ _ _ Hl), emits_date, Hdate.
Qed.

Lemma chunked_staged opt s xs c :
  fresh c -> date_fits opt -> 0 <= s < 2 ^ 16 -> Forall call_fits xs -> ok (stream_out_ c) ->
  let c1 := chunked opt (fold_left (fun c x => run_call x c) xs (status s (begin (reset_round c)))) in
  failed (head_out_ c1) = false -> failed (hdr_out_ c1) = false ->
  ready (size (block (stream_out_ c))) c1 /\ lead c1 = stream_head opt s xs /\ wire c1 = wire c /\ accepts c1 = accepts c.
Proof.
  intros [O1 O2 _ _] Hdate Hs Hx Os c1 F1 F2. pose proof (handler_headers (mk_handler s xs NoBody) (reset_round c)) as [Es Eh Er].
  cbn [h_calls h_status] in *. set (c0 := fold_left _ _ _) in *. clearbody c0.
  assert (Cl : forall o, ok o -> ok (clear o) /\ failed (clear o) = false /\ out_view (clear o) = []).
  { intros o [? ?]. split; [|by unfold out_view]. unfold ok, clear, block in *. simpl. lia. }
  destruct (Cl _ O1) as (C1 & C2 & C3). destruct (Cl _ O2) as (D1 & D2 & D3). destruct (Cl _ Os) as (S1 & S2 & _).
  assert (Ec : c1 = set_streaming false true false (frame_head opt false (set_resp (with_body SrcStreaming (body_off_ (resp_ c0)) (body_len_ (resp_ c0)) (external_ (resp_ c0)) (file_ (resp_ c0)) (resp_ c0)) c0))).
  { assert (E1 : streaming_write_ c0 = false) by (by rewrite Es). assert (E2 : stream_finished_ c0 = false) by (by rewrite Es).
    assert (E3 : source_ (resp_ c0) = SrcNone) by (by rewrite Er).
    unfold c1, chunked, stage_headers. rewrite E3. simpl. f_equal; [exact E1|exact E2]. }
  clearbody c1. subst c1. rewrite frame_head_eq in *. set (r := resp_ (seal_headers _)) in *.
  assert (Hh0 : head_out_ c0 = clear (head_out_ c)) by (by rewrite Es).
  assert (HE : emits (write_head opt false r) (text_of (stream_lines opt s xs)) True).
  { apply emits_stream_head; try done; subst r; simpl; rewrite Er; [done|]. simpl. intros f b Hf.
    assert (seen_of f no_seen = Some false) as H0 by (by destruct f). rewrite (seen_calls f _ _ _ H0) in Hf. by simplify_eq. }
  simpl in F1, F2. rewrite Hh0 in F1. destruct (emits_grew _ _ _ _ HE C1 C2 F1) as [G1 _].
  simpl in Eh. rewrite Eh in F2. destruct (failed (write_calls xs (clear (hdr_out_ c)))) eqn:F3.
  { unfold put_crlf in F2. rewrite (idles_put _ _ F3) in F2. congruence. }
  destruct (emits_grew _ _ _ _ (emits_calls xs Hx) D1 D2 F3) as [G2 _]. pose proof G2 as [O3 _].
  destruct (emits_grew _ _ _ _ (emits_put crlf eq_refl) O3 F3 F2) as [G3 _]. pose proof (grew_trans _ _ _ _ _ G2 G3) as G4.
  split_and!; [| |by rewrite Es|by rewrite Es].
  - constructor; simpl; rewrite ?Hh0, ?Eh; try done; by rewrite Es.
  - unfold lead, stream_head, hdr_length. simpl. rewrite Hh0, Eh, Er. simpl. destruct G1 as [G1 V1], G4 as [G4 V4].
    rewrite <- out_view_block, V1, C3 by done. simpl. f_equal. unfold put_crlf. fold crlf. pose proof G4 as [[? _] _].
    set (o := put crlf _) in *. rewrite Z.sub_0_r. replace (if 0 <? size_ o then size_ o else 0) with (size_ o) by (destruct (Z.ltb_spec 0 (size_ o)); lia).
    by rewrite <- out_view_block, V4, D3 by done.
Qed.

(** C9: a streamed response is one well-formed chunked message, when it is
    the first response of its round (behind a pipelined one it is not, see
    below), each piece is shorter than 2^32 - 20 bytes, the staging buffer
    has room for a chunk header and the response head fits its buffers.
    Whatever pieces the handler then writes (empty ones, ones larger than the
    staging buffer): the bytes that leave are the head with
    Transfer-Encoding: chunked, one chunk per non-empty piece and the
    terminator, or a prefix of them and an error if the transport stops; a
    decoder of the chunked coding reads back exactly the concatenation of the
    pieces; and the stream is marked finished only when all has left. *)
Theorem server_stream_roundtrip opt s xs ds c :
  fresh c -> date_fits opt -> 0 <= s < 2 ^ 16 -> Forall call_fits xs ->
  ok (stream_out_ c) -> kMinStream <= size (block (stream_out_ c)) -> Forall (fun d => size d + 20 < 2 ^ 32) ds ->
  let staged := chunked opt (fold_left (fun c x => run_call x c) xs (status s (begin (reset_round c)))) in
  failed (head_out_ staged) = false -> failed (hdr_out_ staged) = false ->
  let out := stream_handler opt s xs ds (reset_round c) in
  sends c out (stream_head opt s xs ++ chunked_body ds) /\
  dechunk (S (length ds)) (chunked_body ds) = Some (concat ds) /\
  (out.2 = Ok tt -> stream_finished_ out.1 = true).
Proof.
  intros Hc Hdate Hs Hx Os Hcap Hd staged F1 F2 out.
  destruct (chunked_staged opt s xs c Hc Hdate Hs Hx Os F1 F2) as (R & L & W & A). fold staged in R, L, W, A.
  destruct (stream_all_sends _ ds staged R Hcap Hd) as [D K]. rewrite L in D. unfold sends in *. rewrite W, A in D.
  split; [exact D|]. split; [|exact K]. apply dechunk_body; [lia|]. eapply Forall_impl; [exact Hd|]. simpl. intros. lia.
Qed.

Lemma server_stream_roundtrip_witness :
  let pieces := [str "hello "; []; replicate 100 120; str "world"] in
  let out := stream_handler sample_opt 200 [CName (str "X-Id") (str "7")] pieces (reset_round sample_conn) in
  out.2 = Ok tt /\ wire out.1 = str ">" ++ stream_head sample_opt 200 [CName (str "X-Id") (str "7")] ++ chunked_body pieces /\
  dechunk 5 (chunked_body pieces) = Some (concat pieces).
Proof.
  intros pieces out.
  destruct (server_stream_roundtrip sample_opt 200 [CName (str "X-Id") (str "7")] pieces sample_conn sample_fresh
    ltac:(intros d [= <-]; reflexivity) ltac:(done) ltac:(repeat constructor; done) ltac:(vm_compute; repeat split; congruence)
    ltac:(vm_compute; congruence) ltac:(repeat constructor; done) ltac:(reflexivity) ltac:(reflexivity)) as ((H & _) & Hd & _).
  destruct H as (H1 & H2 & _); [vm_compute; congruence|]. split; [exact H1|]. split; [exact H2|exact Hd].
Defined.

(** ** Streams that are not alone *)

(** A streamed response behind a queued one: the head sent with the first
    chunk is the whole of [head_out_] and the start of [hdr_out_], which
    belong to the queued response. *)
Definition stream_second : list request_in := [ mk_in (mk_handler 200 [CName (str "X-First") (str "1")] (Copied (str "one"))) true false ].
Definition stream_expected : bytes :=
  concat (answers (mk_server false false None) stream_second) ++
  str "HTTP/1.1 200 OK" ++ crlf ++ str "Connection: keep-alive" ++ crlf ++ str "Transfer-Encoding: chunked" ++ crlf ++ crlf ++
  str "3" ++ crlf ++ str "two" ++ crlf ++ str "0" ++ crlf ++ crlf.
Definition stream_behind : conn_t :=
  let opt := mk_server false false None in
  let c := serve opt stream_second (reset_round sample_conn) in
  let c := fst (stream_handler opt 200 [] [str "two"] c) in
  fst (flush (fst (finish_dispatch opt true false c))).

(** a chunked response behind a queued pipelined one corrupts the
    connection: the first flush of the stream sends the queued response's
    head, a fragment of its headers and the stream's own body as one message,
    and the queued response follows it. *)
Theorem stream_behind_pipelined_corrupts :
  wire stream_behind =
    str ">HTTP/1.1 200 OK" ++ crlf ++ str "Connection: keep-alive" ++ crlf ++ str "Content-Length: 3" ++ crlf ++
    str "HTTP/1.1 200 OK" ++ crlf ++ str "Connection: keep-alive" ++ crlf ++ str "Transfer-Encoding: chunked" ++ crlf ++ 
    str "X-" ++ str "3" ++ crlf ++ str "two" ++ crlf ++ str "0" ++ crlf ++ crlf ++
    concat (answers (mk_server false false None) stream_second) /\
  wire stream_behind <> str ">" ++ stream_expected.
Proof. split; [reflexivity|vm_compute; congruence]. Qed.

(** The handler returned without writing: the connection answers 500 instead,
    after clearing the buffers the queued response still lies in. *)
Definition stream_abandoned : conn_t :=
  let opt := mk_server false false None in
  let c := serve opt stream_second (reset_round sample_conn) in
  fst (flush (fst (finish_dispatch opt true false (chunked opt (begin c))))).

(** a stream abandoned behind a queued response destroys that response:
    its entry now shows the bytes of the error that overwrote it. *)
Theorem stream_abandoned_overwrites :
  wire stream_abandoned =
    str ">HTTP/1.1 500 Internal Server Error" ++ crlf ++ str "Connection: close" ++ crlf ++ str "Conte" ++
    str "Content-Type: " ++ str "one" ++
    str "HTTP/1.1 500 Internal Server Error" ++ crlf ++ str "Connection: close" ++ crlf ++ str "Content-Length: 21" ++ crlf ++
    str "Content-Type: text/plain; charset=utf-8" ++ crlf ++ crlf ++ str "Internal Server Error".
Proof. reflexivity. Qed.
