(* ===== verification/FileBody.v ===== *)
(** * File bodies of responses

    [splice_file_to_socket], [stream_file_over_tls] and the descriptors of
    [flush] in src/http/server/connection.cc.  The file is its bytes; what each
    call of the kernel moves is a script.  [Suspended] is a connection that
    waits for more of it. *)

From stdpp Require Import prelude list list_numbers.
From Stdlib Require Import ZArith Lia.
From S2P Require Import Prelude Transport TlsEngine TlsStream TlsTransport.
Open Scope Z_scope.

Definition EIO : Z := 5.
Definition kChunk : Z := 64 * 1024.

(** The bytes a call moves that may move up to [avail]: some, while there are. *)
Definition moves (n avail : Z) : Z := if avail <=? 0 then 0 else Z.max 1 (Z.min n avail).

(** ** Through the pipe *)

(** [ins], [outs]: what the calls into and out of the pipe do; [sent]: the bytes
    on the socket. *)
Record pipe_t := mk_pipe { ins : list (expected Z); outs : list (expected Z); pipe : bytes; sent : bytes }.

Definition splice_in (content : bytes) (pos chunk : Z) (k : pipe_t) : outcome (expected Z * pipe_t) :=
  match ins k with
  | [] => Suspended
  | Unexpected e :: r => Ret (Unexpected e, mk_pipe r (outs k) (pipe k) (sent k))
  | Ok n :: r =>
      let n := moves n (Z.min chunk (size content - pos)) in
      Ret (Ok n, mk_pipe r (outs k) (pipe k ++ view_at content pos n) (sent k))
  end.
Definition splice_out (len : Z) (k : pipe_t) : outcome (expected Z * pipe_t) :=
  match outs k with
  | [] => Suspended
  | Unexpected e :: r => Ret (Unexpected e, mk_pipe (ins k) r (pipe k) (sent k))
  | Ok n :: r =>
      let n := Z.max 0 (Z.min n (Z.min len (size (pipe k)))) in
      Ret (Ok n, mk_pipe (ins k) r (drop (Z.to_nat n) (pipe k)) (sent k ++ take (Z.to_nat n) (pipe k)))
  end.

(** [while (left > 0)] *)
Fixpoint pipe_to_socket (fuel : nat) (left : Z) (k : pipe_t) : outcome (expected unit * pipe_t) :=
  if left <=? 0 then Ret (Ok tt, k)
  else
    match fuel with
    | O => Starved
    | S fuel =>
        let+ (w, k) := splice_out left k in
        match w with
        | Unexpected e => Ret (Unexpected e, k)
        | Ok w => if w =? 0 then Ret (Unexpected (system_error ECONNRESET), k) else pipe_to_socket fuel (u32 (left - w)) k
        end
    end.

(** [have_pipe]: what [ensure_splice_pipe] returned, else the error. *)
Fixpoint splice_loop (fuel : nat) (content : bytes) (pos len : Z) (k : pipe_t) : outcome (expected unit * Z * pipe_t) :=
  if len <=? 0 then Ret (Ok tt, pos, k)
  else
    match fuel with
    | O => Starved
    | S fuel =>
        let+ (n, k) := splice_in content pos (Z.min len kChunk) k in
        match n with
        | Unexpected e => Ret (Unexpected e, pos, k)
        | Ok n =>
            if n =? 0 then Ret (Unexpected (system_error ECONNRESET), pos, k)
            else
              let pos := pos + n in
              let left := u32 n in
              let len := u64 (len - left) in
              let+ (r, k) := pipe_to_socket (Z.to_nat left) left k in
              match r with
              | Unexpected e => Ret (Unexpected e, pos, k)
              | Ok _ => splice_loop fuel content pos len k
              end
        end
    end.
Definition splice_file_to_socket (have_pipe : expected unit) (content : bytes) (pos len : Z) (k : pipe_t) : outcome (expected unit * Z * pipe_t) :=
  match have_pipe with
  | Unexpected e => Ret (Unexpected e, pos, k)
  | Ok _ => splice_loop (Z.to_nat len) content pos len k
  end.

(** ** Through a buffer *)

Section Buffered.
Context {T : Type} `{DeliveryLaws T}.

(** [while (iov.iov_len > 0)] *)
Fixpoint send_buffer (fuel : nat) (d : bytes) (t : T) : outcome (expected unit * T) :=
  match d with
  | [] => Ret (Ok tt, t)
  | _ =>
      match fuel with
      | O => Starved
      | S fuel =>
          let+ (w, t) := writev_once [d] t in
          match w with
          | Unexpected e => Ret (Unexpected e, t)
          | Ok w => if w =? 0 then Ret (Unexpected (system_error ECONNRESET), t) else send_buffer fuel (drop (Z.to_nat w) d) t
          end
      end
  end.

(** [reads]: what the calls of [pread] do. *)
Fixpoint stream_file_over_tls (fuel : nat) (content : bytes) (pos len : Z) (reads : list (expected Z)) (t : T) : outcome (expected unit * Z * T) :=
  if len <=? 0 then Ret (Ok tt, pos, t)
  else
    match fuel, reads with
    | O, _ => Starved
    | _, [] => Suspended
    | S _, Unexpected e :: _ => Ret (Unexpected e, pos, t)
    | S fuel, Ok n :: reads =>
        let want := Z.min len kChunk in
        let n := moves n (Z.min want (size content - pos)) in
        if n =? 0 then Ret (Unexpected (system_error EIO), pos, t)
        else
          let d := view_at content pos n in
          let+ (r, t) := send_buffer (length d) d t in
          match r with
          | Unexpected e => Ret (Unexpected e, pos + n, t)
          | Ok _ => stream_file_over_tls fuel content (pos + n) (u64 (len - n)) reads t
          end
    end.
End Buffered.

(** ** What leaves *)

Lemma moves_range n avail : (moves n avail = 0 /\ avail <= 0) \/ 1 <= moves n avail <= avail.
Proof. unfold moves. destruct (Z.leb_spec avail 0); [by left|right; lia]. Qed.

Lemma pipe_spec fuel left k :
  0 <= left < 2 ^ 32 -> left <= size (pipe k) -> (Z.to_nat left <= fuel)%nat ->
  match pipe_to_socket fuel left k with
  | Ret (r, k') => ins k' = ins k /\ sent k ++ pipe k = sent k' ++ pipe k' /\ sent k `prefix_of` sent k' /\ (r = Ok tt -> size (pipe k') = size (pipe k) - left)
  | Suspended => True
  | _ => False
  end.
Proof.
  revert left k. induction fuel as [|fuel IH]; intros left k Hl Hp Hf; cbn [pipe_to_socket].
  - destruct (Z.leb_spec left 0); [|lia]. split_and!; try done. intros _. lia.
  - destruct (Z.leb_spec left 0); [split_and!; try done; intros _; lia|]. unfold splice_out. destruct (outs k) as [|[n|e] r]; cbn [bind_out]; [done| |done].
    set (w := Z.max 0 (Z.min n (Z.min left (size (pipe k))))). set (k1 := mk_pipe _ _ _ _). assert (Hw : 0 <= w <= left) by (unfold w; lia).
    assert (H1 : sent k ++ pipe k = sent k1 ++ pipe k1) by (simpl; by rewrite <- app_assoc, take_drop).
    assert (H2 : sent k `prefix_of` sent k1) by by eexists. assert (Hs : size (pipe k1) = size (pipe k) - w) by (unfold size in *; simpl; rewrite length_drop; lia).
    destruct (Z.eqb_spec w 0); [done|]. rewrite u32_small by lia. pose proof (IH (left - w) k1 ltac:(lia) ltac:(lia) ltac:(lia)) as HI.
    destruct (pipe_to_socket fuel (left - w) k1) as [[r' k']| | | |]; try done. destruct HI as (I1 & I2 & I3 & I4). split_and!; [done|by rewrite H1|by etrans|]. intros Hr. rewrite (I4 Hr). lia.
Qed.

(** [done], the bytes of the file from [pos] on that left. *)
Definition file_left (content : bytes) (pos len : Z) (r : expected unit) (pos' : Z) (before after : bytes) : Prop :=
  exists d, after = before ++ d /\ d `prefix_of` view_at content pos (pos' - pos) /\ pos <= pos' <= pos + len /\ (r = Ok tt -> pos' = pos + len /\ d = view_at content pos len).

Lemma view_app content pos n m : 0 <= pos -> 0 <= n -> 0 <= m -> view_at content pos (n + m) = view_at content pos n ++ view_at content (pos + n) m.
Proof. intros. apply view_at_split; lia. Qed.

Lemma prefix_grow content pos n pos' d : 0 <= pos -> 0 <= n -> pos + n <= pos' -> d `prefix_of` view_at content (pos + n) (pos' - (pos + n)) -> (view_at content pos n ++ d) `prefix_of` view_at content pos (pos' - pos).
Proof.
  intros Hp Hn Hle Hd. replace (pos' - pos) with (n + (pos' - (pos + n))) by lia. rewrite view_app by lia. by apply prefix_app.
Qed.

Lemma splice_spec fuel content pos len k :
  0 <= pos -> 0 <= len < 2 ^ 64 -> (Z.to_nat len <= fuel)%nat -> pipe k = [] ->
  match splice_loop fuel content pos len k with
  | Ret (r, pos', k') => file_left content pos len r pos' (sent k) (sent k') /\ (r = Ok tt -> pipe k' = [])
  | Suspended => True
  | _ => False
  end.
Proof.
  revert pos len k. induction fuel as [|fuel IH]; intros pos len k Hp Hl Hf Hk; cbn [splice_loop].
  - destruct (Z.leb_spec len 0); [|lia]. split; [|done]. exists []. rewrite app_nil_r. split_and!; try done; [apply prefix_nil|lia..|]. intros _. split; [lia|]. by replace len with 0 by lia.
  - destruct (Z.leb_spec len 0).
    { split; [|done]. exists []. rewrite app_nil_r. split_and!; try done; [apply prefix_nil|lia..|]. intros _. split; [lia|]. by replace len with 0 by lia. }
    assert (Hnone : forall e, file_left content pos len (Unexpected e) pos (sent k) (sent k)) by (intros e; exists []; rewrite app_nil_r; split_and!; try done; [apply prefix_nil|lia..]).
    unfold splice_in. destruct (ins k) as [|[n|e] r]; cbn [bind_out]; [done| |by split]. set (avail := Z.min (Z.min len kChunk) (size content - pos)).
    destruct (moves_range n avail) as [[-> _]|Hm]; [by split|]. set (m := moves n avail) in *. assert (Hav : avail <= len /\ avail <= 65536 /\ pos + avail <= size content) by (unfold avail, kChunk; lia).
    destruct (Z.eqb_spec m 0); [lia|]. set (k1 := mk_pipe _ _ _ _). rewrite u32_small, u64_small by lia.
    assert (Hv : size (view_at content pos m) = m) by (apply size_view_at; lia). assert (Hk1 : pipe k1 = view_at content pos m) by (simpl; by rewrite Hk).
    pose proof (pipe_spec (Z.to_nat m) m k1 ltac:(lia) ltac:(rewrite Hk1, Hv; lia) ltac:(lia)) as HP. destruct (pipe_to_socket (Z.to_nat m) m k1) as [[r1 k2]| | | |]; try done; cbn [bind_out].
    destruct HP as (_ & P1 & (d & P2) & P3). change (sent k1) with (sent k) in *. rewrite Hk1, P2, <- app_assoc in P1. apply app_inv_head in P1. destruct r1 as [[]|e].
    + assert (Hk2 : pipe k2 = []) by (apply length_zero_iff_nil; rewrite Hk1, Hv in P3; specialize (P3 eq_refl); unfold size in P3; lia). rewrite Hk2, app_nil_r in P1.
      pose proof (IH (pos + m) (len - m) k2 ltac:(lia) ltac:(lia) ltac:(lia) Hk2) as HI. destruct (splice_loop fuel content (pos + m) (len - m) k2) as [[[r2 pos'] k3]| | | |]; try done.
      destruct HI as ((d2 & D1 & D2 & D3 & D4) & HE). split; [|done]. exists (d ++ d2). rewrite D1, P2, app_assoc. split; [done|]. rewrite <- P1. split; [apply prefix_grow; done || lia|]. split; [lia|].
      intros Hr. destruct (D4 Hr) as [-> ->]. split; [lia|]. rewrite <- view_app by lia. f_equal. lia.
    + split; [|done]. exists d. split; [done|]. split; [replace (pos + m - pos) with m by lia; rewrite P1; by eexists|]. split; [lia|done].
Qed.

Section BufferedSpec.
Context {T : Type} `{DeliveryLaws T}.

Lemma send_buffer_spec fuel (d : bytes) t :
  able t -> (length d <= fuel)%nat ->
  match send_buffer fuel d t with
  | Ret (Ok _, t') => delivered t' = delivered t ++ d /\ able t'
  | Ret (Unexpected _, t') => exists x, x `prefix_of` d /\ delivered t' = delivered t ++ x
  | Suspended => True
  | _ => False
  end.
Proof.
  revert d t. induction fuel as [|fuel IH]; intros d t Ha Hf; (destruct d as [|b d]; [simpl; by rewrite app_nil_r|]); [simpl in Hf; lia|].
  remember (b :: d) as q eqn:Hq. replace (send_buffer (S fuel) q t) with
    (let+ (w, t) := writev_once [q] t in
     match w with
     | Unexpected e => Ret (Unexpected e, t)
     | Ok w => if w =? 0 then Ret (Unexpected (system_error ECONNRESET), t) else send_buffer fuel (drop (Z.to_nat w) q) t
     end) by by rewrite Hq. clear b d Hq.
  pose proof (writev_law [q] t Ha) as Hw. cbn [concat] in Hw. rewrite app_nil_r in Hw. destruct (writev_once [q] t) as [[[w|e] t1]| | | |]; try done; cbn [bind_out].
  destruct Hw as (Hw & Hd & Ha1). destruct (Z.eqb_spec w 0) as [->|Hw0]; [exists []; split; [apply prefix_nil|by rewrite app_nil_r, Hd, app_nil_r]|].
  pose proof (IH (drop (Z.to_nat w) q) t1 Ha1 ltac:(rewrite length_drop; unfold size in *; lia)) as HI. destruct (send_buffer fuel _ t1) as [[[[]|e] t2]| | | |]; try done.
  - destruct HI as [HI Ha2]. split; [|done]. by rewrite HI, Hd, <- app_assoc, take_drop.
  - destruct HI as (x & Hx & HI). exists (take (Z.to_nat w) q ++ x). split; [|by rewrite HI, Hd, app_assoc]. rewrite <- (take_drop (Z.to_nat w) q) at 2. by apply prefix_app.
Qed.

Lemma stream_spec fuel content pos len reads t :
  0 <= pos -> 0 <= len < 2 ^ 64 -> (Z.to_nat len <= fuel)%nat -> able t ->
  match stream_file_over_tls fuel content pos len reads t with
  | Ret (r, pos', t') => file_left content pos len r pos' (delivered t) (delivered t')
  | Suspended => True
  | _ => False
  end.
Proof.
  revert pos len reads t. induction fuel as [|fuel IH]; intros pos len reads t Hp Hl Hf Ha; cbn [stream_file_over_tls].
  - destruct (Z.leb_spec len 0); [|lia]. exists []. rewrite app_nil_r. split_and!; try done; [apply prefix_nil|lia..|]. intros _. split; [lia|]. by replace len with 0 by lia.
  - destruct (Z.leb_spec len 0).
    { exists []. rewrite app_nil_r. split_and!; try done; [apply prefix_nil|lia..|]. intros _. split; [lia|]. by replace len with 0 by lia. }
    assert (Hnone : forall e, file_left content pos len (Unexpected e) pos (delivered t) (delivered t)) by (intros e; exists []; rewrite app_nil_r; split_and!; try done; [apply prefix_nil|lia..]).
    destruct reads as [|[n|e] reads]; [done| |by apply Hnone]. set (avail := Z.min (Z.min len kChunk) (size content - pos)).
    destruct (moves_range n avail) as [[-> _]|Hm]; [by apply Hnone|]. set (m := moves n avail) in *. assert (Hav : avail <= len /\ pos + avail <= size content) by (unfold avail; lia).
    destruct (Z.eqb_spec m 0); [lia|]. rewrite u64_small by lia. assert (Hv : size (view_at content pos m) = m) by (apply size_view_at; lia).
    pose proof (send_buffer_spec (length (view_at content pos m)) (view_at content pos m) t Ha ltac:(lia)) as HS.
    destruct (send_buffer _ (view_at content pos m) t) as [[[[]|e] t1]| | | |]; try done; cbn [bind_out].
    + destruct HS as [HS Ha1]. pose proof (IH (pos + m) (len - m) reads t1 ltac:(lia) ltac:(lia) ltac:(lia) Ha1) as HI.
      destruct (stream_file_over_tls fuel content (pos + m) (len - m) reads t1) as [[[r2 pos'] t2]| | | |]; try done.
      destruct HI as (d2 & D1 & D2 & D3 & D4). exists (view_at content pos m ++ d2). rewrite D1, HS, app_assoc. split; [done|]. split; [apply prefix_grow; done || lia|]. split; [lia|].
      intros Hr. destruct (D4 Hr) as [-> ->]. split; [lia|]. rewrite <- view_app by lia. f_equal. lia.
    + destruct HS as (x & Hx & HS). exists x. split; [done|]. split; [by replace (pos + m - pos) with m by lia|]. split; [lia|done].
Qed.
End BufferedSpec.

(** ** Descriptors *)

(** A staged response: the descriptor of its file, if its body is one.
    [results]: whether the awaits of [flush] succeed, in order.  The responses
    still staged, the descriptors closed, and whether the flush succeeded. *)
Fixpoint span_inline (ps : list (option Z)) : bool * list (option Z) :=
  match ps with None :: ps => (true, (span_inline ps).2) | ps => (false, ps) end.

Fixpoint flush_fds (fuel : nat) (ps : list (option Z)) (results : list bool) (closed : list Z) : outcome (list (option Z) * list Z * bool) :=
  match ps, fuel with
  | [], _ => Ret ([], closed, true)
  | _, O => Starved
  | _, S fuel =>
      let '(some, rest) := span_inline ps in
      let file rest results :=
        match rest with
        | Some fd :: rest' =>
            match results with
            | false :: _ => Ret (rest, closed, false)
            | true :: ok :: results => if ok : bool then flush_fds fuel rest' results (closed ++ [fd]) else Ret (rest', closed ++ [fd], false)
            | _ => Suspended
            end
        | _ => Ret ([], closed, true)
        end in
      if some then match results with [] => Suspended | false :: _ => Ret (ps, closed, false) | true :: results => file rest results end
      else file rest results
  end.

(** [reset_round] forgets the staged responses, and the descriptors in them. *)
Definition leaked (ps : list (option Z)) : list Z := omap id ps.

Lemma span_fds ps : leaked (span_inline ps).2 = leaked ps /\ (length (span_inline ps).2 <= length ps)%nat /\ match (span_inline ps).2 with None :: _ => False | _ => True end.
Proof.
  induction ps as [|[fd|] ps IH]; simpl; [done|split; [done|lia]|]. destruct IH as (I1 & I2 & I3). split; [done|]. split; [lia|done].
Qed.

Lemma flush_fds_spec fuel ps results closed :
  (length ps <= fuel)%nat ->
  match flush_fds fuel ps results closed with
  | Ret (ps', closed', ok) => closed' ++ leaked ps' = closed ++ leaked ps /\ (ok = true -> ps' = [])
  | Suspended => True
  | _ => False
  end.
Proof.
  revert ps results closed. induction fuel as [|fuel IH]; intros ps results closed Hf; (destruct ps as [|p ps]; [by simpl|]); [simpl in Hf; lia|].
  remember (p :: ps) as q eqn:Hq. assert (Hne : q <> []) by by subst. clear p ps Hq. cbn [flush_fds]. destruct q as [|p ps] eqn:Hq; [done|]. rewrite <- Hq in *. clear Hq p ps.
  destruct (span_fds q) as (S1 & S2 & S3). destruct (span_inline q) as [some rest]. cbn [snd] in *.
  assert (Hfile : forall results, match (match rest with
        | Some fd :: rest' => match results with false :: _ => Ret (rest, closed, false) | true :: ok :: results => if ok : bool then flush_fds fuel rest' results (closed ++ [fd]) else Ret (rest', closed ++ [fd], false) | _ => Suspended end
        | _ => Ret ([], closed, true) end) with
      | Ret (ps', closed', ok) => closed' ++ leaked ps' = closed ++ leaked q /\ (ok = true -> ps' = []) | Suspended => True | _ => False end).
  { intros rs. rewrite <- S1. destruct rest as [|[fd|] rest]; [done| |done]. destruct rs as [|[] [|[] rs]]; try done.
    - pose proof (IH rest rs (closed ++ [fd]) ltac:(simpl in S2; lia)) as HI. destruct (flush_fds fuel rest rs (closed ++ [fd])) as [[[ps' cl'] ok]| | | |]; try done.
      destruct HI as [HI1 HI2]. split; [|done]. rewrite HI1, <- app_assoc. done.
    - split; [by rewrite <- app_assoc|done]. }
  destruct some; [|apply Hfile]. destruct results as [|[] results]; [done|apply Hfile|done].
Qed.

(** File bodies: with fuel for the length, neither way of sending gets stuck.
    Over the pipe and over TLS alike, a transfer that succeeds has put on the
    wire exactly the bytes of the file from [pos] on, [len] of them, in order
    and once, and left the pipe empty; one that fails a prefix of what was read.
    A flush that succeeds has closed every file it sent exactly once. *)
Theorem file_body_exact {T} `{DeliveryLaws T} have_pipe content pos len k reads (t : T) ps results :
  0 <= pos -> 0 <= len < 2 ^ 64 -> pipe k = [] -> able t ->
  match splice_file_to_socket have_pipe content pos len k with
  | Ret (r, pos', k') => file_left content pos len r pos' (sent k) (sent k') /\ (r = Ok tt -> pipe k' = [])
  | Suspended => True
  | _ => False
  end /\
  match stream_file_over_tls (Z.to_nat len) content pos len reads t with
  | Ret (r, pos', t') => file_left content pos len r pos' (delivered t) (delivered t')
  | Suspended => True
  | _ => False
  end /\
  match flush_fds (length ps) ps results [] with
  | Ret (_, closed, true) => closed = omap id ps
  | Ret (ps', closed, false) => closed ++ leaked ps' = omap id ps
  | Suspended => True
  | _ => False
  end.
Proof.
  intros Hp Hl Hk Ha. split_and!.
  - unfold splice_file_to_socket. destruct have_pipe as [u|e]; [by apply splice_spec|]. split; [|done]. exists []. rewrite app_nil_r. split_and!; try done; [apply prefix_nil|lia..].
  - by apply stream_spec.
  - pose proof (flush_fds_spec (length ps) ps results [] ltac:(lia)) as HF. destruct (flush_fds (length ps) ps results []) as [[[ps' cl] []]| | | |]; try done; [|by destruct HF].
    destruct HF as [HF1 HF2]. rewrite (HF2 eq_refl), app_nil_r in HF1. done.
Qed.

Import TlsStream.Clear.

Lemma file_body_exact_witness :
  match splice_file_to_socket (Ok tt) [1; 2; 3; 4; 5] 1 3 (mk_pipe [Ok 2; Ok 9] [Ok 1; Ok 1; Ok 7] [] []) with
  | Ret (r, pos', k') => r = Ok tt /\ pos' = 4 /\ sent k' = [2; 3; 4] /\ file_left [1; 2; 3; 4; 5] 1 3 r pos' [] (sent k')
  | _ => False
  end.
Proof.
  pose proof (file_body_exact (Ok tt) [1; 2; 3; 4; 5] 1 3 (mk_pipe [Ok 2; Ok 9] [Ok 1; Ok 1; Ok 7] [] []) [] (Plain (mk_sock 7 [] [] [] [])) [Some 4] [true; true]
    ltac:(lia) ltac:(lia) eq_refl I) as [H1 _].
  eassert (Hrun : splice_file_to_socket (Ok tt) [1; 2; 3; 4; 5] 1 3 (mk_pipe [Ok 2; Ok 9] [Ok 1; Ok 1; Ok 7] [] []) = Ret (Ok tt, _, _)) by (vm_compute; reflexivity).
  rewrite Hrun in *. split; [reflexivity|]. split; [reflexivity|]. split; [reflexivity|exact (proj1 H1)].
Defined.

(** A flush that fails leaves the files behind the failure open for good. *)
Example failed_flush_leaks :
  flush_fds 3 [None; Some 7; Some 8] [true; true; false] [] = Ret ([Some 8], [7], false) /\ flush_fds 2 [None; Some 7] [false] [] = Ret ([None; Some 7], [], false).
Proof. by split. Qed.
