(* ===== verification/Handshake.v ===== *)
(** * The WebSocket opening handshake

    src/include/cornet/websocket/common/handshake.h and
    src/src/websocket/common/handshake.cc: the streaming SHA-1, base64, the
    accept key and the two handshake messages. *)

From stdpp Require Import prelude list list_numbers strings.
From Stdlib Require Import ZArith Lia.
From S2P Require Import Prelude Protocol Serializer.
Open Scope Z_scope.

(** ** SHA-1 *)

Record sha1_t := mk_sha1 { h_ : list Z; block_ : bytes; used_ : Z; total_ : Z }.

Definition sha1_iv : list Z := [0x67452301; 0xEFCDAB89; 0x98BADCFE; 0x10325476; 0xC3D2E1F0].
Definition sha1_init : sha1_t := mk_sha1 sha1_iv (replicate 64 0) 0 0.

Definition rol (v n : Z) : Z := u32 (v <<< n) ||| (v >>> (32 - n)).

Definition wi (w : list Z) (i : nat) : Z := nth i w 0.

(** The message schedule: sixteen big-endian words, then the recurrence. *)
Definition load_words (block : bytes) : list Z :=
  map (fun i => (wi block (4 * i) <<< 24) ||| (wi block (4 * i + 1) <<< 16) |||
                (wi block (4 * i + 2) <<< 8) ||| wi block (4 * i + 3)) (seq 0 16).
Definition schedule (block : bytes) : list Z :=
  fold_left (fun w i =>
    w ++ [rol (wi w (i - 3) ^^^ wi w (i - 8) ^^^ wi w (i - 14) ^^^ wi w (i - 16)) 1])
    (seq 16 64) (load_words block).

(** [~b] on 32 bits. *)
Definition not32 (b : Z) : Z := b ^^^ 0xFFFFFFFF.

Definition round_f (i : nat) (b c d : Z) : Z * Z :=
  if (i <? 20)%nat then ((b &&& c) ||| (not32 b &&& d), 0x5A827999)
  else if (i <? 40)%nat then (b ^^^ c ^^^ d, 0x6ED9EBA1)
  else if (i <? 60)%nat then ((b &&& c) ||| (b &&& d) ||| (c &&& d), 0x8F1BBCDC)
  else (b ^^^ c ^^^ d, 0xCA62C1D6).

Definition round (w : list Z) (s : Z * Z * Z * Z * Z) (i : nat) : Z * Z * Z * Z * Z :=
  let '(a, b, c, d, e) := s in
  let '(f, k) := round_f i b c d in
  (u32 (rol a 5 + f + e + k + wi w i), a, rol b 30, c, d).

Definition compress (h : list Z) (block : bytes) : list Z :=
  let w := schedule block in
  let '(a, b, c, d, e) :=
    fold_left (round w) (seq 0 80) (wi h 0, wi h 1, wi h 2, wi h 3, wi h 4) in
  [u32 (wi h 0 + a); u32 (wi h 1 + b); u32 (wi h 2 + c); u32 (wi h 3 + d); u32 (wi h 4 + e)].

(** The loop of [update]: fill the block, compress it when full.  Every
    turn takes at least a byte, so the data's length bounds the turns. *)
Fixpoint update_loop (fuel : nat) (p : bytes) (s : sha1_t) : sha1_t :=
  match fuel with
  | O => s
  | S fuel =>
      match p with
      | [] => s
      | _ =>
          let len := size p in
          let t := if 64 - used_ s <? len then 64 - used_ s else len in
          let blk := match write_at (block_ s) (used_ s) (take (Z.to_nat t) p) with
                     | Some b => b | None => block_ s end in
          let used := used_ s + t in
          update_loop fuel (drop (Z.to_nat t) p)
            (if used =? 64 then mk_sha1 (compress (h_ s) blk) blk 0 (total_ s)
             else mk_sha1 (h_ s) blk used (total_ s))
      end
  end.
Definition update (p : bytes) (s : sha1_t) : sha1_t :=
  update_loop (length p) p (mk_sha1 (h_ s) (block_ s) (used_ s) (u64 (total_ s + size p))).

Definition be_bytes (n : nat) (v : Z) : bytes :=
  map (fun i => u8 (v >>> (8 * Z.of_nat (n - 1 - i)))) (seq 0 n).

Definition final (s : sha1_t) : bytes :=
  let bits := u64 (total_ s * 8) in
  let s := update [0x80] s in
  let want := if used_ s <=? 56 then 56 - used_ s else 64 + 56 - used_ s in
  let s := update (replicate (Z.to_nat want) 0) s in
  let s := update (be_bytes 8 bits) s in
  concat (map (be_bytes 4) (h_ s)).

(** ** Base64 *)

Definition kAlphabet : bytes := str "ABCDEFGHIJKLMNOPQRSTUVWXYZabcdefghijklmnopqrstuvwxyz0123456789+/".
Definition alpha (i : Z) : Z := nth (Z.to_nat i) kAlphabet 0.

Fixpoint base64_encode (l : bytes) : bytes :=
  match l with
  | a :: b :: c :: l =>
      let v := (a <<< 16) ||| (b <<< 8) ||| c in
      alpha (v >>> 18) :: alpha ((v >>> 12) &&& 0x3F) :: alpha ((v >>> 6) &&& 0x3F) :: alpha (v &&& 0x3F)
      :: base64_encode l
  | [a; b] =>
      let v := (a <<< 16) ||| (b <<< 8) in
      [alpha (v >>> 18); alpha ((v >>> 12) &&& 0x3F); alpha ((v >>> 6) &&& 0x3F); 61]
  | [a] => let v := a <<< 16 in [alpha (v >>> 18); alpha ((v >>> 12) &&& 0x3F); 61; 61]
  | [] => []
  end.

(** The lambda [val]; [None] is -1. *)
Definition b64_val (c : Z) : option Z :=
  if (65 <=? c) && (c <=? 90) then Some (c - 65)
  else if (97 <=? c) && (c <=? 122) then Some (26 + (c - 97))
  else if (48 <=? c) && (c <=? 57) then Some (52 + (c - 48))
  else if c =? 43 then Some 62
  else if c =? 47 then Some 63
  else if c =? 61 then Some 0
  else None.

(** The inner loop over one group of four: padding count and values. *)
Fixpoint group_loop (last : bool) (j : Z) (cs : bytes) (pad : Z) (vs : list Z) : option (Z * list Z) :=
  match cs with
  | [] => Some (pad, vs)
  | c :: cs =>
      if (c =? 61) && (negb last || (j <? 2)) then None
      else
        let pad' := if c =? 61 then pad + 1 else pad in
        if negb (c =? 61) && (0 <? pad) then None
        else match b64_val c with
             | None => None
             | Some v => group_loop last (j + 1) cs pad' (vs ++ [v])
             end
  end.

Fixpoint decode_loop (l : bytes) (cap : Z) (out : bytes) : option bytes :=
  match l with
  | [] => Some out
  | a :: b :: c :: d :: l =>
      let last := match l with [] => true | _ => false end in
      match group_loop last 0 [a; b; c; d] 0 [] with
      | None => None
      | Some (pad, vs) =>
          if 2 <? pad then None
          else
            let word := (wi vs 0 <<< 18) ||| (wi vs 1 <<< 12) ||| (wi vs 2 <<< 6) ||| wi vs 3 in
            let n := 3 - pad in
            if cap <? size out + n then None
            else decode_loop l cap
              (out ++ take (Z.to_nat n) [u8 (word >>> 16); u8 (word >>> 8); u8 word])
      end
  | _ => None
  end.
Definition base64_decode (l : bytes) (cap : Z) : option bytes :=
  match l with
  | [] => None
  | _ => if negb (size l mod 4 =? 0) then None else decode_loop l cap []
  end.

(** ** Keys *)

Definition kRfc6455Guid : bytes := str "258EAFA5-E914-47DA-95CA-C5AB0DC85B11".
Definition kKeyLen : Z := 24.
Definition kAcceptLen : Z := 28.

Definition accept_key (key : bytes) : bytes :=
  base64_encode (final (update kRfc6455Guid (update key sha1_init))).

(** [make_key] on the sixteen bytes the kernel returned. *)
Definition make_key (nonce : bytes) : bytes := base64_encode nonce.

Definition key_valid (key : bytes) : bool :=
  if negb (size key =? kKeyLen) then false
  else match base64_decode key 16 with Some _ => true | None => false end.

(** ** Handshake messages *)

Definition kHdrUpgradeWebSocket : bytes := str "Upgrade: websocket" ++ [13; 10].
Definition kHdrConnUpgrade : bytes := str "Connection: Upgrade" ++ [13; 10].
Definition kSecWebSocketKey : bytes := str "Sec-WebSocket-Key".
Definition kSecWebSocketAccept : bytes := str "Sec-WebSocket-Accept".
Definition kSecWebSocketProtocol : bytes := str "Sec-WebSocket-Protocol".

Definition frame_handshake_response (key subprotocol : bytes) (o : out_buffer_t) : out_buffer_t :=
  if existsb (fun c => (c =? 13) || (c =? 10)) subprotocol then fail (http_error InvalidHeader) o
  else
    let o := match status_line 101 with Some line => put line o | None => o end in
    let o := put (str ": ") (put kSecWebSocketAccept (put kHdrConnUpgrade (put kHdrUpgradeWebSocket o))) in
    let o := put_crlf (put (accept_key key) o) in
    let o := match subprotocol with
             | [] => o
             | _ => put_crlf (put subprotocol (put (str ": ") (put kSecWebSocketProtocol o)))
             end in
    put_crlf o.

Definition frame_handshake_request (host path query key subprotocols : bytes) (o : out_buffer_t) : out_buffer_t :=
  let o := header_field Host host (request_line Get path query Http11 o) in
  let o := put (str ": ") (put kSecWebSocketKey (put kHdrConnUpgrade (put kHdrUpgradeWebSocket o))) in
  let o := put_crlf (put key o) in
  let o := put (str "Sec-WebSocket-Version: 13" ++ [13; 10]) o in
  let o := match subprotocols with
           | [] => o
           | _ => put_crlf (put subprotocols (put (str ": ") (put kSecWebSocketProtocol o)))
           end in
  put_crlf o.

(** The example of RFC 6455, section 1.3. *)
Example accept_key_rfc : accept_key (str "dGhlIHNhbXBsZSBub25jZQ==") = str "s3pPLMBiTxaQ9kYGzzhZRbK+xOo=".
Proof. vm_compute. reflexivity. Qed.

(** ** The streaming digest against the padded message *)

Section Chain.
Context (f : list Z -> bytes -> list Z).

(** The chaining value after the first [n] blocks of [m]. *)
Fixpoint chain (n : nat) (m : bytes) (h : list Z) : list Z :=
  match n with
  | O => h
  | S n => chain n (drop 64 m) (f h (take 64 m))
  end.

Lemma chain_S n m h : chain (S n) m h = chain n (drop 64 m) (f h (take 64 m)).
Proof. reflexivity. Qed.

Lemma chain_snoc n m h : chain (S n) m h = f (chain n m h) (take 64 (drop (64 * n) m)).
Proof.
  revert m h. induction n as [|n IH]; intros m h.
  - rewrite chain_S, Nat.mul_0_r, drop_0. reflexivity.
  - rewrite chain_S, IH, drop_drop, chain_S. repeat f_equal. lia.
Qed.

Lemma chain_app n m d h : (64 * n <= length m)%nat -> chain n (m ++ d) h = chain n m h.
Proof.
  revert m h. induction n as [|n IH]; intros m h Hl; [reflexivity|]. rewrite !chain_S.
  rewrite take_app_le, drop_app_le by lia. apply IH. rewrite length_drop. lia.
Qed.
End Chain.

Definition absorb : nat -> bytes -> list Z -> list Z := chain compress.

(** The state after absorbing [m]. *)
Record absorbed (s : sha1_t) (m : bytes) : Prop := {
  ab_used : 0 <= used_ s < 64;
  ab_len : size (block_ s) = 64;
  ab_blocks : exists n, length m = (64 * n + Z.to_nat (used_ s))%nat /\ h_ s = absorb n m sha1_iv /\
    view_at (block_ s) 0 (used_ s) = drop (64 * n) m
}.

Lemma init_absorbed : absorbed sha1_init [].
Proof. split; [simpl; lia|done|]. by exists 0%nat. Qed.

(** One turn of the loop: [t] bytes that fit in the block. *)
Lemma turn_absorbed s m d :
  absorbed s m -> used_ s + size d <= 64 ->
  exists blk, write_at (block_ s) (used_ s) d = Some blk /\
    absorbed (if used_ s + size d =? 64 then mk_sha1 (compress (h_ s) blk) blk 0 (total_ s)
              else mk_sha1 (h_ s) blk (used_ s + size d) (total_ s)) (m ++ d).
Proof.
  intros [Hu Hb (n & Hn & Hh & Hv)] Hd. pose proof (size_nonneg d) as H0.
  destruct (write_at_some (block_ s) (used_ s) d) as (blk & Ew & Hs); [lia..|]. exists blk. split; [done|].
  pose proof (write_at_append _ _ _ _ Ew ltac:(lia)) as Hap. rewrite Hv in Hap.
  assert (drop (64 * n) (m ++ d) = drop (64 * n) m ++ d) as Hdr by (apply drop_app_le; lia).
  destruct (Z.eqb_spec (used_ s + size d) 64) as [E|E].
  - split; simpl; [lia|lia|]. exists (S n). rewrite length_app. unfold size in E.
    split; [lia|]. split; [|simpl; rewrite drop_ge by (rewrite length_app; lia); done].
    unfold absorb in *. rewrite chain_snoc, chain_app, <- Hh by lia. f_equal. rewrite Hdr, <- Hap.
    unfold view_at, substr. rewrite drop_0. unfold size in *. rewrite E.
    rewrite take_take. symmetry. apply take_ge. lia.
  - split; simpl; [lia|lia|]. exists n. rewrite length_app. split; [unfold size in *; lia|].
    split; [unfold absorb in *; rewrite chain_app by lia; exact Hh|]. by rewrite Hap.
Qed.

Lemma update_absorbed s m d : absorbed s m -> absorbed (update d s) (m ++ d).
Proof.
  intros H. unfold update.
  assert (absorbed (mk_sha1 (h_ s) (block_ s) (used_ s) (u64 (total_ s + size d))) m) as H' by (destruct H; by split).
  revert H'. generalize (mk_sha1 (h_ s) (block_ s) (used_ s) (u64 (total_ s + size d))). clear H s.
  assert (forall fuel d m s, (length d <= fuel)%nat -> absorbed s m -> absorbed (update_loop fuel d s) (m ++ d)) as Hl.
  { clear. induction fuel as [|fuel IH]; intros d m s Hf H.
    { destruct d; [|simpl in Hf; lia]. by rewrite app_nil_r. }
    cbn [update_loop]. destruct d as [|c d']; [by rewrite app_nil_r|]. set (d := c :: d') in *.
    set (t := if 64 - used_ s <? size d then 64 - used_ s else size d).
    pose proof (ab_used _ _ H) as Hu.
    assert (1 <= t <= size d /\ used_ s + t <= 64) as [Ht1 Ht2].
    { unfold t, d, size. cbn [length]. destruct (Z.ltb_spec (64 - used_ s) (Z.of_nat (S (length d')))); lia. }
    assert (size (take (Z.to_nat t) d) = t) as Hst by (unfold size in *; rewrite length_take; lia).
    destruct (turn_absorbed s m (take (Z.to_nat t) d) H) as (blk & Ew & Ha); [lia|]. rewrite Ew.
    rewrite Hst in Ha. rewrite <- (take_drop (Z.to_nat t) d) at 2. rewrite app_assoc. apply IH; [|done].
    rewrite length_drop. lia. }
  intros s H. by apply Hl.
Qed.

Lemma update_loop_total fuel p s : total_ (update_loop fuel p s) = total_ s.
Proof.
  revert p s. induction fuel as [|fuel IH]; intros p s; simpl; [done|]. destruct p; [done|].
  rewrite IH. by destruct (_ =? 64).
Qed.

Lemma update_total p s : total_ (update p s) = u64 (total_ s + size p).
Proof. unfold update. by rewrite update_loop_total. Qed.

(** FIPS 180: a one bit, zeros to 56 bytes modulo 64, the bit length. *)
Definition sha1_pad (m : bytes) : bytes :=
  m ++ [0x80] ++ replicate (Z.to_nat ((56 - (size m + 1)) mod 64)) 0 ++ be_bytes 8 (8 * size m).
Definition sha1_spec (m : bytes) : bytes :=
  concat (map (be_bytes 4) (absorb (length (sha1_pad m) / 64) (sha1_pad m) sha1_iv)).

Lemma absorbed_used s m : absorbed s m -> used_ s = size m mod 64.
Proof.
  intros [Hu _ (n & Hn & _)]. unfold size. rewrite Hn.
  replace (Z.of_nat (64 * n + Z.to_nat (used_ s))) with (used_ s + Z.of_nat n * 64) by lia.
  by rewrite Z.mod_add, Z.mod_small by lia.
Qed.

Lemma final_spec s m :
  absorbed s m -> total_ s = size m -> size m < 2 ^ 61 -> final s = sha1_spec m.
Proof.
  intros H Ht Hm. pose proof (size_nonneg m) as H0. unfold final. rewrite Ht, u64_small by lia.
  pose proof (update_absorbed _ _ [0x80] H) as H1. set (s1 := update [0x80] s) in *.
  pose proof (absorbed_used _ _ H1) as Hu1. pose proof (ab_used _ _ H1) as Hr1.
  rewrite size_app in Hu1. change (size [0x80]) with 1 in Hu1.
  assert ((if used_ s1 <=? 56 then 56 - used_ s1 else 64 + 56 - used_ s1) mod 64 = (56 - (size m + 1)) mod 64) as Hw.
  { rewrite <- (Zminus_mod_idemp_r 56 (size m + 1)), <- Hu1.
    destruct (Z.leb_spec (used_ s1) 56); [done|].
    replace (64 + 56 - used_ s1) with (56 - used_ s1 + 1 * 64) by lia. by rewrite Z.mod_add. }
  rewrite Z.mod_small in Hw by (destruct (Z.leb_spec (used_ s1) 56); lia). rewrite Hw.
  set (z := replicate (Z.to_nat ((56 - (size m + 1)) mod 64)) 0).
  pose proof (update_absorbed _ _ z H1) as H2. rewrite (Z.mul_comm (size m)).
  pose proof (update_absorbed _ _ (be_bytes 8 (8 * size m)) H2) as H3.
  set (s3 := update _ (update z s1)) in *.
  rewrite <- !app_assoc in H3.
  change (m ++ [0x80] ++ z ++ be_bytes 8 (8 * size m)) with (sha1_pad m) in H3.
  unfold sha1_spec. do 2 f_equal.
  pose proof (absorbed_used _ _ H3) as Hu3.
  assert (size (sha1_pad m) mod 64 = 0) as Hz.
  { unfold sha1_pad. rewrite !size_app. change (size [0x80]) with 1.
    assert (size (be_bytes 8 (8 * size m)) = 8) as -> by done.
    unfold size at 2. rewrite length_replicate.
    pose proof (Z.mod_pos_bound (56 - (size m + 1)) 64 ltac:(lia)). rewrite Z2Nat.id by lia.
    replace (size m + (1 + ((56 - (size m + 1)) mod 64 + 8))) with ((size m + 9) + (56 - (size m + 1)) mod 64) by lia.
    rewrite Z.add_mod_idemp_r by lia. replace (size m + 9 + (56 - (size m + 1))) with (1 * 64) by lia. done. }
  rewrite Hz in Hu3. destruct (ab_blocks _ _ H3) as (n & Hn & Hh & _). rewrite Hh. f_equal.
  rewrite Hu3 in Hn. rewrite Hn. change (Z.to_nat 0) with 0%nat.
  by rewrite Nat.add_0_r, Nat.mul_comm, Nat.div_mul by lia.
Qed.

Lemma accept_key_spec key :
  size key < 2 ^ 60 -> accept_key key = base64_encode (sha1_spec (key ++ kRfc6455Guid)).
Proof.
  intros Hk. unfold accept_key. f_equal. pose proof (size_nonneg key).
  assert (size kRfc6455Guid = 36) as Hg by done.
  apply final_spec.
  - apply update_absorbed. rewrite <- (app_nil_l key). apply update_absorbed, init_absorbed.
  - rewrite !update_total, size_app. rewrite (u64_small (total_ sha1_init + size key)) by (simpl; lia).
    rewrite u64_small by (simpl; lia). simpl. lia.
  - rewrite size_app. lia.
Qed.

(** the streaming hasher computes SHA-1 of the concatenation of
    whatever pieces it is fed, in particular the accept key is the base64 of
    the digest of key and GUID. *)
Theorem sha1_streaming ps :
  size (concat ps) < 2 ^ 61 ->
  final (fold_left (fun s p => update p s) ps sha1_init) = sha1_spec (concat ps) /\
  (forall key, size key < 2 ^ 60 -> accept_key key = base64_encode (sha1_spec (key ++ kRfc6455Guid))).
Proof.
  assert (forall qs s m, absorbed s m -> total_ s = size m -> size (m ++ concat qs) < 2 ^ 61 ->
    final (fold_left (fun s p => update p s) qs s) = sha1_spec (m ++ concat qs)) as Hgen.
  { induction qs as [|q qs IH]; intros s m Ha Ht Hs; cbn [fold_left concat] in *.
    { rewrite app_nil_r in *. by apply final_spec. }
    rewrite app_assoc in *. apply IH; [by apply update_absorbed| |done].
    rewrite update_total, Ht, size_app. apply u64_small. rewrite !size_app in Hs.
    pose proof (size_nonneg m). pose proof (size_nonneg q). pose proof (size_nonneg (concat qs)). lia. }
  intros Hs. split; [by apply (Hgen ps sha1_init []); [apply init_absorbed|done|]|].
  intros key Hk. apply accept_key_spec, Hk.
Qed.

Lemma sha1_streaming_witness :
  size (concat [str "ab"; str "c"]) < 2 ^ 61 /\
  sha1_spec (concat [str "ab"; str "c"]) = [0xa9; 0x99; 0x3e; 0x36; 0x47; 0x06; 0x81; 0x6a; 0xba; 0x3e; 0x25; 0x71; 0x78; 0x50;
    0xc2; 0x6c; 0x9c; 0xd0; 0xd8; 0x9d].
Proof.
  split; [reflexivity|].
  rewrite <- (proj1 (sha1_streaming [str "ab"; str "c"] eq_refl)). vm_compute. reflexivity.
Defined.

(** ** Base64 round trip *)

(** The three bytes of a 24-bit word and its four sextets. *)
Lemma alpha_val i : 0 <= i < 64 -> b64_val (alpha i) = Some i /\ alpha i <> 61.
Proof.
  intros Hi.
  assert (forallb (fun i => bool_decide (b64_val (alpha i) = Some i) && negb (alpha i =? 61)) (seqZ 0 64) = true) as H
    by (vm_compute; done).
  rewrite forallb_forall in H. specialize (H i). rewrite andb_true_iff, negb_true_iff, Z.eqb_neq in H.
  destruct H as [H1 H2]; [apply list_elem_of_In, elem_of_seqZ; lia|]. by apply bool_decide_eq_true in H1.
Qed.

Definition sextets (v : Z) : list Z := [v / 2 ^ 18; v / 2 ^ 12 mod 64; v / 2 ^ 6 mod 64; v mod 64].

Lemma land63 x : x &&& 0x3F = x mod 64.
Proof. change 0x3F with (Z.ones 6). by rewrite Z.land_ones. Qed.

Lemma encode_word v :
  [alpha (v >>> 18); alpha ((v >>> 12) &&& 0x3F); alpha ((v >>> 6) &&& 0x3F); alpha (v &&& 0x3F)] =
  map alpha (sextets v).
Proof. unfold sextets. by rewrite !land63, !Z.shiftr_div_pow2. Qed.

Lemma sextets_range v : 0 <= v < 2 ^ 24 -> Forall (fun x => 0 <= x < 64) (sextets v).
Proof.
  intros Hv. unfold sextets.
  pose proof (Z.mod_pos_bound (v / 2 ^ 12) 64 ltac:(lia)). pose proof (Z.mod_pos_bound (v / 2 ^ 6) 64 ltac:(lia)).
  pose proof (Z.mod_pos_bound v 64 ltac:(lia)).
  assert (0 <= v / 2 ^ 18 < 64) by (split; [apply Z.div_pos; lia|apply Z.div_lt_upper_bound; lia]).
  by repeat (apply Forall_cons_2; [done|]).
Qed.

Lemma sextets_join v :
  0 <= v < 2 ^ 24 ->
  (wi (sextets v) 0 <<< 18) ||| (wi (sextets v) 1 <<< 12) ||| (wi (sextets v) 2 <<< 6) ||| wi (sextets v) 3 = v.
Proof.
  intros Hv. pose proof (sextets_range v Hv) as Hr. unfold sextets in *. simpl in Hr. unfold wi. cbn [nth].
  inversion_clear Hr as [|? ? H1 Hr1]. inversion_clear Hr1 as [|? ? H2 Hr2].
  inversion_clear Hr2 as [|? ? H3 Hr3]. inversion_clear Hr3 as [|? ? H4 _].
  set (a := v / 2 ^ 18) in *. set (b := (v / 2 ^ 12) mod 64) in *. set (c := (v / 2 ^ 6) mod 64) in *. set (d := v mod 64) in *.
  rewrite <- !Z.lor_assoc.
  rewrite (lor_shiftl_add c d 6) by (change (2 ^ 6) with 64; lia).
  rewrite (lor_shiftl_add b _ 12) by (change (2 ^ 6) with 64; change (2 ^ 12) with 4096; lia).
  rewrite (lor_shiftl_add a _ 18)
    by (change (2 ^ 6) with 64; change (2 ^ 12) with 4096; change (2 ^ 18) with 262144; lia).
  unfold a, b, c, d. change (2 ^ 6) with 64. change (2 ^ 12) with 4096. change (2 ^ 18) with 262144.
  pose proof (Z.div_mod v 64 ltac:(lia)). pose proof (Z.div_mod (v / 64) 64 ltac:(lia)).
  pose proof (Z.div_mod (v / 4096) 64 ltac:(lia)).
  rewrite (Z.div_div v 64 64) in * by lia. change (64 * 64) with 4096 in *.
  rewrite (Z.div_div v 4096 64) in * by lia. change (4096 * 64) with 262144 in *. lia.
Qed.

(** Three bytes as one word. *)
Lemma join_bytes a b c :
  is_byte a -> is_byte b -> is_byte c ->
  (a <<< 16) ||| (b <<< 8) ||| c = a * 65536 + b * 256 + c.
Proof.
  unfold is_byte. intros. rewrite <- Z.lor_assoc.
  rewrite (lor_shiftl_add b c 8) by (change (2 ^ 8) with 256; lia).
  rewrite (lor_shiftl_add a _ 16) by (change (2 ^ 8) with 256; change (2 ^ 16) with 65536; lia).
  change (2 ^ 8) with 256. change (2 ^ 16) with 65536. lia.
Qed.

Lemma split_bytes a b c :
  is_byte a -> is_byte b -> is_byte c ->
  let v := a * 65536 + b * 256 + c in [u8 (v >>> 16); u8 (v >>> 8); u8 v] = [a; b; c].
Proof.
  unfold is_byte, u8. intros Ha Hb Hc. rewrite !Z.shiftr_div_pow2 by lia.
  change (2 ^ 16) with 65536. change (2 ^ 8) with 256. repeat f_equal.
  - replace (a * 65536 + b * 256 + c) with (b * 256 + c + a * 65536) by lia.
    rewrite Z.div_add, (Z.div_small (b * 256 + c)) by lia. apply Z.mod_small. lia.
  - replace (a * 65536 + b * 256 + c) with (c + (a * 256 + b) * 256) by lia.
    rewrite Z.div_add, (Z.div_small c) by lia. replace (0 + (a * 256 + b)) with (b + a * 256) by lia.
    rewrite Z.mod_add by lia. apply Z.mod_small. lia.
  - replace (a * 65536 + b * 256 + c) with (c + (a * 256 + b) * 256) by lia.
    rewrite Z.mod_add by lia. apply Z.mod_small. lia.
Qed.

(** A full group decodes to its three bytes. *)
Lemma group_full last v :
  0 <= v < 2 ^ 24 ->
  group_loop last 0 (map alpha (sextets v)) 0 [] = Some (0, sextets v).
Proof.
  intros Hv. pose proof (sextets_range v Hv) as Hr.
  assert (forall xs j vs, Forall (fun x => 0 <= x < 64) xs ->
    group_loop last j (map alpha xs) 0 vs = Some (0, vs ++ xs)) as Hg.
  { induction xs as [|x xs IH]; intros j vs Hx; [by rewrite app_nil_r|]. inversion Hx as [|? ? H1 H2]; subst.
    destruct (alpha_val x H1) as [E1 E2]. cbn [map group_loop].
    destruct (Z.eqb_spec (alpha x) 61); [done|]. simpl. rewrite E1, IH by done. by rewrite <- app_assoc. }
  by apply (Hg (sextets v) 0 []).
Qed.

Lemma group_pad2 x y :
  0 <= x < 64 -> 0 <= y < 64 -> group_loop true 0 [alpha x; alpha y; 61; 61] 0 [] = Some (2, [x; y; 0; 0]).
Proof.
  intros Hx Hy. destruct (alpha_val x Hx) as [E1 E2], (alpha_val y Hy) as [E3 E4].
  cbn [group_loop]. destruct (Z.eqb_spec (alpha x) 61); [done|]. simpl. rewrite E1.
  destruct (Z.eqb_spec (alpha y) 61); [done|]. simpl. by rewrite E3.
Qed.

Lemma group_pad1 x y z :
  0 <= x < 64 -> 0 <= y < 64 -> 0 <= z < 64 ->
  group_loop true 0 [alpha x; alpha y; alpha z; 61] 0 [] = Some (1, [x; y; z; 0]).
Proof.
  intros Hx Hy Hz. destruct (alpha_val x Hx) as [E1 E2], (alpha_val y Hy) as [E3 E4], (alpha_val z Hz) as [E5 E6].
  cbn [group_loop]. destruct (Z.eqb_spec (alpha x) 61); [done|]. simpl. rewrite E1.
  destruct (Z.eqb_spec (alpha y) 61); [done|]. simpl. rewrite E3.
  destruct (Z.eqb_spec (alpha z) 61); [done|]. simpl. by rewrite E5.
Qed.

Lemma word_range a b c : is_byte a -> is_byte b -> is_byte c -> 0 <= a * 65536 + b * 256 + c < 2 ^ 24.
Proof. unfold is_byte. change (2 ^ 24) with 16777216. lia. Qed.

Lemma list3_ind {A} (P : list A -> Prop) :
  P [] -> (forall a, P [a]) -> (forall a b, P [a; b]) ->
  (forall a b c l, P l -> P (a :: b :: c :: l)) -> forall l, P l.
Proof.
  intros H0 H1 H2 H3 l. enough (forall n l, (length l <= n)%nat -> P l) as H by by apply (H (length l)).
  induction n as [|n IH]; intros [|a [|b [|c l']]] Hl; simpl in Hl; try lia; auto. apply H3, IH. lia.
Qed.

(** The last group of one byte: the missing bytes are zero in the word. *)
Lemma decode_one a cap out :
  is_byte a -> size out + 1 <= cap -> decode_loop (base64_encode [a]) cap out = Some (out ++ [a]).
Proof.
  intros Ha Hc. cbn [base64_encode].
  pose proof (join_bytes a 0 0 Ha ltac:(done) ltac:(done)) as Ej. rewrite Z.shiftl_0_l, !Z.lor_0_r in Ej.
  rewrite Ej. set (v := a * 65536 + 0 * 256 + 0). pose proof (word_range a 0 0 Ha ltac:(done) ltac:(done)) as Hv.
  pose proof (sextets_range v Hv) as Hr. unfold sextets in Hr.
  inversion_clear Hr as [|? ? R1 Hr1]. inversion_clear Hr1 as [|? ? R2 _].
  rewrite land63, !Z.shiftr_div_pow2 by lia. cbn [decode_loop]. rewrite group_pad2 by done. simpl Z.ltb.
  assert (sextets v = [v / 2 ^ 18; v / 2 ^ 12 mod 64; 0; 0]) as Es.
  { unfold sextets, v. repeat f_equal; rewrite !Z.add_0_r.
    - change (2 ^ 6) with 64. replace (a * 65536) with (a * 1024 * 64) by lia. rewrite Z.div_mul by lia.
      replace (a * 1024) with (a * 16 * 64) by lia. apply Z.mod_mul. lia.
    - replace (a * 65536) with (a * 1024 * 64) by lia. apply Z.mod_mul. lia. }
  rewrite <- Es, sextets_join by done. unfold size in Hc |- *.
  destruct (Z.ltb_spec cap (Z.of_nat (length out) + (3 - 2))); [lia|].
  unfold v. by rewrite split_bytes by done.
Qed.

Lemma decode_two a b cap out :
  is_byte a -> is_byte b -> size out + 2 <= cap ->
  decode_loop (base64_encode [a; b]) cap out = Some (out ++ [a; b]).
Proof.
  intros Ha Hb Hc. cbn [base64_encode].
  pose proof (join_bytes a b 0 Ha Hb ltac:(done)) as Ej. rewrite Z.lor_0_r in Ej.
  rewrite Ej. set (v := a * 65536 + b * 256 + 0). pose proof (word_range a b 0 Ha Hb ltac:(done)) as Hv.
  pose proof (sextets_range v Hv) as Hr. unfold sextets in Hr.
  inversion_clear Hr as [|? ? R1 Hr1]. inversion_clear Hr1 as [|? ? R2 Hr2]. inversion_clear Hr2 as [|? ? R3 _].
  rewrite !land63, !Z.shiftr_div_pow2 by lia. cbn [decode_loop]. rewrite group_pad1 by done. simpl Z.ltb.
  assert (sextets v = [v / 2 ^ 18; v / 2 ^ 12 mod 64; v / 2 ^ 6 mod 64; 0]) as Es.
  { unfold sextets, v. repeat f_equal. rewrite Z.add_0_r.
    replace (a * 65536 + b * 256) with ((a * 1024 + b * 4) * 64) by lia. apply Z.mod_mul. lia. }
  rewrite <- Es, sextets_join by done. unfold size in Hc |- *.
  destruct (Z.ltb_spec cap (Z.of_nat (length out) + (3 - 1))); [lia|].
  unfold v. by rewrite split_bytes by done.
Qed.

Lemma decode_three a b c l cap out :
  is_byte a -> is_byte b -> is_byte c -> size out + 3 <= cap ->
  decode_loop (base64_encode (a :: b :: c :: l)) cap out =
  decode_loop (base64_encode l) cap (out ++ [a; b; c]).
Proof.
  intros Ha Hb Hc Hcap. pose proof (word_range a b c Ha Hb Hc) as Hv.
  assert (base64_encode (a :: b :: c :: l) = map alpha (sextets (a * 65536 + b * 256 + c)) ++ base64_encode l) as ->.
  { cbn [base64_encode]. rewrite join_bytes by done. by rewrite <- encode_word. }
  pose proof (group_full (match base64_encode l with [] => true | _ => false end) _ Hv) as Hg.
  pose proof (sextets_join _ Hv) as Hj. pose proof (split_bytes a b c Ha Hb Hc) as Hs. cbv zeta in Hs.
  set (v := a * 65536 + b * 256 + c) in *. unfold sextets in Hg |- *. cbn [map app decode_loop] in *.
  rewrite Hg. fold (sextets v) in *. rewrite Hj. simpl Z.ltb. unfold size in *.
  destruct (Z.ltb_spec cap (Z.of_nat (length out) + (3 - 0))); [lia|]. by rewrite Hs.
Qed.

Lemma decode_encode data cap out :
  Forall is_byte data -> size out + size data <= cap ->
  decode_loop (base64_encode data) cap out = Some (out ++ data).
Proof.
  revert out. induction data as [|a|a b|a b c l IH] using list3_ind; intros out Hb Hc.
  - cbn. by rewrite app_nil_r.
  - inversion Hb as [|? ? Ha _]; subst. by apply decode_one.
  - inversion Hb as [|? ? Ha Hb1]; subst. inversion Hb1; subst. by apply decode_two.
  - inversion Hb as [|? ? Ha Hb1]; subst. inversion Hb1 as [|? ? Hb2 Hb3]; subst. inversion Hb3; subst.
    unfold size in Hc. cbn [length] in Hc. rewrite decode_three by (done || (unfold size; lia)).
    rewrite IH, <- app_assoc; [done|done|]. unfold size. rewrite length_app. simpl. lia.
Qed.

Lemma encode_length data : size (base64_encode data) = 4 * ((size data + 2) / 3).
Proof.
  induction data as [|a|a b|a b c l IH] using list3_ind; [done..|]. cbn [base64_encode].
  unfold size in *. cbn [length]. rewrite !Nat2Z.inj_succ, IH.
  replace (Z.succ (Z.succ (Z.succ (Z.of_nat (length l)))) + 2) with (Z.of_nat (length l) + 2 + 1 * 3) by lia.
  rewrite Z.div_add by lia. lia.
Qed.

(** decoding inverts encoding for every non-empty run of bytes that
    fits the destination; the encoding is four characters per started group
    of three; and so a key made from sixteen bytes is always valid. *)
Theorem base64_roundtrip data cap :
  Forall is_byte data -> data <> [] -> size data <= cap ->
  base64_decode (base64_encode data) cap = Some data /\
  size (base64_encode data) = 4 * ((size data + 2) / 3) /\
  (size data = 16 -> key_valid (make_key data) = true).
Proof.
  intros Hb Hne Hc.
  assert (forall k, size data <= k -> base64_decode (base64_encode data) k = Some data) as Hd.
  { intros k Hk. unfold base64_decode. destruct (base64_encode data) as [|x e] eqn:E.
    - apply (f_equal size) in E. rewrite encode_length in E. change (size []) with 0 in E.
      destruct data; [done|]. unfold size in E. cbn [length] in E.
      pose proof (Z.div_str_pos (Z.of_nat (S (length data)) + 2) 3). lia.
    - rewrite <- E, encode_length, Z.mul_comm, Z.mod_mul by lia. simpl. by apply decode_encode. }
  split; [by apply Hd|]. split; [apply encode_length|]. intros H16. unfold key_valid, make_key.
  rewrite encode_length, H16. simpl. rewrite Hd by lia. done.
Qed.

Lemma base64_roundtrip_witness :
  base64_decode (base64_encode (str "any carnal pleas")) 16 = Some (str "any carnal pleas") /\
  key_valid (make_key (str "any carnal pleas")) = true.
Proof.
  destruct (base64_roundtrip (str "any carnal pleas") 16 (str_bytes _)) as (H1 & _ & H2);
    [discriminate|vm_compute; congruence|].
  split; [exact H1|]. apply H2. reflexivity.
Defined.

(** the key check accepts more than encodings of sixteen bytes: the
    unused low bits of the last sextet are ignored, so a value that no nonce
    encodes to is valid. *)
Theorem key_valid_noncanonical :
  key_valid (str "AAAAAAAAAAAAAAAAAAAAAB==") = true /\
  forall nonce, Forall is_byte nonce -> make_key nonce <> str "AAAAAAAAAAAAAAAAAAAAAB==".
Proof.
  split; [reflexivity|]. intros nonce Hb E. unfold make_key in E.
  pose proof (encode_length nonce) as Hl. rewrite E in Hl.
  change (size (str "AAAAAAAAAAAAAAAAAAAAAB==")) with 24 in Hl.
  pose proof (Z.div_mod (size nonce + 2) 3 ltac:(lia)). pose proof (Z.mod_pos_bound (size nonce + 2) 3 ltac:(lia)).
  pose proof (decode_encode nonce 18 [] Hb) as Hd. change (size []) with 0 in Hd. rewrite E in Hd.
  specialize (Hd ltac:(lia)). vm_compute in Hd. injection Hd as <-. vm_compute in E. discriminate E.
Qed.

(** ** The 101 response *)

Lemma compress_length h b : length (compress h b) = 5%nat.
Proof. unfold compress. by destruct (fold_left _ _ _) as [[[[? ?] ?] ?] ?]. Qed.

Lemma chain_length f n m h :
  (forall h b, length (f h b) = 5%nat) -> length h = 5%nat -> length (chain f n m h) = 5%nat.
Proof.
  intros Hf. revert m h. induction n as [|n IH]; intros m h Hh; [exact Hh|]. rewrite chain_S. apply IH, Hf.
Qed.

Lemma sha1_spec_length m : size (sha1_spec m) = 20 /\ Forall is_byte (sha1_spec m).
Proof.
  unfold sha1_spec. set (h := absorb _ _ _).
  assert (length h = 5%nat) as Hh by (apply chain_length; [apply compress_length|reflexivity]).
  clearbody h. destruct h as [|h0 [|h1 [|h2 [|h3 [|h4 [|]]]]]]; try discriminate Hh. split; [reflexivity|].
  cbn [map concat]. unfold be_bytes. repeat (apply Forall_app; split); auto with cornet.
Qed.

Lemma alpha_no_crlf i : 0 <= i < 64 -> alpha i <> 13 /\ alpha i <> 10.
Proof.
  intros Hi.
  assert (forallb (fun i => negb (alpha i =? 13) && negb (alpha i =? 10)) (seqZ 0 64) = true) as H by (vm_compute; done).
  rewrite forallb_forall in H. specialize (H i). rewrite andb_true_iff, !negb_true_iff, !Z.eqb_neq in H.
  apply H, list_elem_of_In, elem_of_seqZ. lia.
Qed.

Lemma map_alpha_no_crlf xs : Forall (fun x => 0 <= x < 64) xs -> has_crlf (map alpha xs) = false.
Proof.
  unfold has_crlf. induction 1 as [|x xs Hx _ IH]; [done|]. cbn [map existsb].
  destruct (alpha_no_crlf x Hx). apply orb_false_iff in IH as [-> ->].
  destruct (Z.eqb_spec 13 (alpha x)); [congruence|]. destruct (Z.eqb_spec 10 (alpha x)); [congruence|]. done.
Qed.

Lemma encode_no_crlf data : Forall is_byte data -> has_crlf (base64_encode data) = false.
Proof.
  induction data as [|a|a b|a b c l IH] using list3_ind; intros Hb; [done|..].
  - inversion Hb as [|? ? Ha _]; subst. cbn [base64_encode].
    pose proof (sextets_range _ (word_range a 0 0 Ha ltac:(done) ltac:(done))) as Hr.
    pose proof (join_bytes a 0 0 Ha ltac:(done) ltac:(done)) as Ej. rewrite Z.shiftl_0_l, !Z.lor_0_r in Ej.
    rewrite Ej, land63, !Z.shiftr_div_pow2 by lia. apply (Forall_take _ 2) in Hr.
    pose proof (map_alpha_no_crlf _ Hr) as Hn. unfold sextets in Hn. cbn [map take firstn] in Hn.
    match goal with |- has_crlf [?x; ?y; _; _] = _ => change [x; y; 61; 61] with ([x; y] ++ [61; 61]) end.
    by rewrite has_crlf_app, Hn.
  - inversion Hb as [|? ? Ha Hb1]; subst. inversion Hb1 as [|? ? Hb2 _]; subst. cbn [base64_encode].
    pose proof (sextets_range _ (word_range a b 0 Ha Hb2 ltac:(done))) as Hr.
    pose proof (join_bytes a b 0 Ha Hb2 ltac:(done)) as Ej. rewrite Z.lor_0_r in Ej.
    rewrite Ej, !land63, !Z.shiftr_div_pow2 by lia. apply (Forall_take _ 3) in Hr.
    pose proof (map_alpha_no_crlf _ Hr) as Hn. unfold sextets in Hn. cbn [map take firstn] in Hn.
    match goal with |- has_crlf [?x; ?y; ?z; _] = _ => change [x; y; z; 61] with ([x; y; z] ++ [61]) end.
    by rewrite has_crlf_app, Hn.
  - inversion Hb as [|? ? Ha Hb1]; subst. inversion Hb1 as [|? ? Hb2 Hb3]; subst. inversion Hb3; subst.
    assert (base64_encode (a :: b :: c :: l) = map alpha (sextets (a * 65536 + b * 256 + c)) ++ base64_encode l) as ->.
    { cbn [base64_encode]. rewrite join_bytes by done. by rewrite <- encode_word. }
    rewrite has_crlf_app, IH, map_alpha_no_crlf by (done || by apply sextets_range, word_range). done.
Qed.

(** The lines a 101 response is to consist of. *)
Definition response_lines (key subprotocol : bytes) : list bytes :=
  [str "HTTP/1.1 101 Switching Protocols"; str "Upgrade: websocket"; str "Connection: Upgrade";
   kSecWebSocketAccept ++ str ": " ++ base64_encode (sha1_spec (key ++ kRfc6455Guid))] ++
  (match subprotocol with [] => [] | _ => [kSecWebSocketProtocol ++ str ": " ++ subprotocol] end) ++ [[]].

Definition wire_lines (ls : list bytes) : bytes := concat (map (fun l => l ++ crlf) ls).

Lemma tainted_has_crlf s : existsb (fun c => (c =? 13) || (c =? 10)) s = has_crlf s.
Proof.
  unfold has_crlf. induction s as [|c s IH]; [done|]. cbn [existsb]. rewrite IH, (Z.eqb_sym 13), (Z.eqb_sym 10).
  by destruct (c =? 13), (c =? 10), (existsb (Z.eqb 13) s), (existsb (Z.eqb 10) s).
Qed.

Lemma response_writes key sub :
  size key < 2 ^ 60 -> size sub < 2 ^ 32 -> has_crlf sub = false ->
  exists need, writes (frame_handshake_response key sub) (wire_lines (response_lines key sub)) need.
Proof.
  intros Hk Hs Hc. unfold frame_handshake_response. rewrite tainted_has_crlf, Hc.
  rewrite (accept_key_spec key Hk). destruct (sha1_spec_length (key ++ kRfc6455Guid)) as [Hl _].
  unfold response_lines. pose proof (encode_length (sha1_spec (key ++ kRfc6455Guid))) as Ha. rewrite Hl in Ha.
  change (4 * ((20 + 2) / 3)) with 28 in Ha.
  set (acc := base64_encode _) in *. clearbody acc. clear Hl. assert (size acc < 2 ^ 32) as Hacc by lia.
  pose proof (writes_seq _ _ _ _ _ _ (put_writes (str "HTTP/1.1 101 Switching Protocols" ++ crlf) eq_refl)
    (put_writes kHdrUpgradeWebSocket eq_refl)) as W1.
  pose proof (writes_seq _ _ _ _ _ _ (writes_seq _ _ _ _ _ _ (writes_seq _ _ _ _ _ _ W1
    (put_writes kHdrConnUpgrade eq_refl)) (put_writes kSecWebSocketAccept eq_refl)) (put_writes (str ": ") eq_refl)) as W2.
  pose proof (writes_seq _ _ _ _ _ _ (writes_seq _ _ _ _ _ _ W2 (put_writes acc Hacc)) (put_writes crlf eq_refl)) as W3.
  unfold wire_lines. destruct sub as [|c sub]; eexists.
  - eapply writes_eq; [exact (writes_seq _ _ _ _ _ _ W3 (put_writes crlf eq_refl))| |reflexivity].
    cbn [map concat app]. by rewrite <- !app_assoc.
  - eapply writes_eq; [|..|reflexivity].
    + exact (writes_seq _ _ _ _ _ _ (writes_seq _ _ _ _ _ _ (writes_seq _ _ _ _ _ _ (writes_seq _ _ _ _ _ _
        (writes_seq _ _ _ _ _ _ W3 (put_writes kSecWebSocketProtocol eq_refl)) (put_writes (str ": ") eq_refl))
        (put_writes (c :: sub) Hs)) (put_writes crlf eq_refl)) (put_writes crlf eq_refl)).
    + cbn [map concat app]. by rewrite <- !app_assoc.
Qed.

Lemma split_wire ls :
  Forall (fun l => has_crlf l = false) ls -> split_lines (wire_lines ls) [] = ls ++ [[]].
Proof.
  unfold wire_lines. induction 1 as [|l ls Hl _ IH]; [reflexivity|]. cbn [map concat].
  rewrite <- app_assoc, split_lines_run by done. by rewrite IH.
Qed.

Lemma response_clean key sub :
  has_crlf sub = false -> Forall (fun l => has_crlf l = false) (response_lines key sub).
Proof.
  intros Hs. destruct (sha1_spec_length (key ++ kRfc6455Guid)) as [_ Hb]. unfold response_lines.
  apply Forall_app. split.
  - repeat (apply Forall_cons_2; [first [reflexivity | rewrite !has_crlf_app, encode_no_crlf by done; reflexivity]|]).
    constructor.
  - destruct sub as [|c sub]; [by apply Forall_singleton|].
    apply Forall_cons_2; [|by apply Forall_singleton]. rewrite !has_crlf_app, Hs. reflexivity.
Qed.

(** the 101 answer is, line by line, the status line, the two upgrade
    headers, the accept key of the client's key and, when one was chosen,
    the subprotocol, then the blank line; a subprotocol with CR or LF fails
    the buffer before anything is written. *)
Theorem handshake_response_lines key sub o :
  size key < 2 ^ 60 -> size sub < 2 ^ 32 -> ok o -> failed o = false ->
  if has_crlf sub
  then err_ (frame_handshake_response key sub o) = http_error InvalidHeader /\
       out_view (frame_handshake_response key sub o) = out_view o
  else failed (frame_handshake_response key sub o) = false ->
       exists d, out_view (frame_handshake_response key sub o) = out_view o ++ d /\
         split_lines d [] = response_lines key sub ++ [[]].
Proof.
  intros Hk Hs Hok Hf. destruct (has_crlf sub) eqn:Hc.
  - unfold frame_handshake_response, fail. rewrite tainted_has_crlf, Hc. unfold failed in Hf. by rewrite Hf.
  - intros Hd. destruct (response_writes key sub Hk Hs Hc) as [need W].
    destruct (wr_done _ _ _ W o Hok Hf Hd) as [V _]. eexists. split; [exact V|].
    by apply split_wire, response_clean.
Qed.

Definition wide_out : out_buffer_t := mk_out (Some (replicate 256 0)) 0 no_error.

Lemma handshake_response_lines_witness :
  exists d, out_view (frame_handshake_response (str "dGhlIHNhbXBsZSBub25jZQ==") (str "chat") wide_out) = d /\
    nth 3 (split_lines d []) [] = str "Sec-WebSocket-Accept: s3pPLMBiTxaQ9kYGzzhZRbK+xOo=".
Proof.
  pose proof (handshake_response_lines (str "dGhlIHNhbXBsZSBub25jZQ==") (str "chat") wide_out
    eq_refl eq_refl ltac:(vm_compute; repeat split; congruence) eq_refl) as H.
  destruct H as (d & Hv & Hl); [vm_compute; reflexivity|]. exists d. split; [exact Hv|].
  rewrite Hl. vm_compute. reflexivity.
Defined.

(** the client's request does not vet its subprotocol list: an offer
    holding CRLF puts a header of its own on the wire. *)
Theorem handshake_request_injects :
  split_lines (out_view (frame_handshake_request (str "h") [] [] (str "K")
    (str "chat" ++ crlf ++ str "X-Injected: 1") wide_out)) [] =
  [str "GET / HTTP/1.1"; str "Host: h"; str "Upgrade: websocket"; str "Connection: Upgrade";
   str "Sec-WebSocket-Key: K"; str "Sec-WebSocket-Version: 13"; str "Sec-WebSocket-Protocol: chat";
   str "X-Injected: 1"; []; []].
Proof. vm_compute. reflexivity. Qed.
