(* ===== verification/WsConnect.v ===== *)
(** * Connecting a websocket

    [websocket::connect] of src/websocket/client.cc with its two helpers: the
    upgrade exchange over the transport of TlsTransport with the parser of
    Parser, and the validation of the server's answer.  Resolving, random bytes
    and the deadline are arguments: what [resolve] returned, the key, whether
    the deadline had fired when a phase failed. *)

From Stdlib Require Import String ZArith Lia.
From stdpp Require Import prelude list.
From S2P Require Import Prelude TlsEngine TlsStream TlsContext TlsTransport TlsPeer Protocol Buffer Serializer Headers Parser ParserFeed Transport Url WsFrame Handshake.
Open Scope Z_scope.

(** ** The answer *)

Record handshake_result_t := mk_result {
  r_status : Z; r_upgrade : bytes; r_connection : bytes; r_accept : bytes; r_protocol : bytes; r_extensions : bytes; r_leftover : bytes
}.

Definition refused {A} : expected A := Unexpected (websocket_error HandshakeFailed).

(** The loop over the pieces of Connection, the empty ones included. *)
Fixpoint token_scan (fuel : nat) (v : bytes) : bool :=
  match fuel with
  | O => false
  | S fuel =>
      let '(piece, rest) := cut_comma v in
      if iequals (trim piece) (str "upgrade") then true
      else match rest with None => false | Some v => token_scan fuel v end
  end.

Definition validate_handshake_response (res : handshake_result_t) (key : bytes) (offered : list bytes) : expected bytes :=
  if negb (r_status res =? 101) then refused
  else if negb (iequals (r_upgrade res) (str "websocket")) then refused
  else if negb (token_scan (S (length (r_connection res))) (r_connection res)) then refused
  else if negb (bool_decide (r_accept res = accept_key key)) then refused
  else if negb (bool_decide (r_extensions res = [])) then refused
  else if bool_decide (r_protocol res = []) then Ok []
  else if existsb (fun o => bool_decide (r_protocol res = o)) offered then Ok (r_protocol res)
  else refused.

Definition kSecWebSocketExtensions : bytes := str "Sec-WebSocket-Extensions".

(** ** The exchange *)

Section Exchange.
Context `{SslView} {L : Type} (ops : llhttp_ops L).
Implicit Types p : parser_t L.

(** The header fields of the answer, copied out, and the bytes behind it. *)
Definition capture p : option handshake_result_t :=
  match store_ p with
  | None => None
  | Some s =>
      let h := live s in let off := consumed_offset_ (feedst_ p) in
      Some (mk_result (status_code_ (facts_ p)) (get_field h Upgrade) (get_field h Connection) (get_name h kSecWebSocketAccept)
              (get_name h kSecWebSocketProtocol) (get_name h kSecWebSocketExtensions) (Head.view (head_ s) off (u32 (Head.w_ (head_ s) - off))))
  end.

(** The inner [for (;;)]: a result, or [None] to read on. *)
Fixpoint settle (fuel : nat) (r : Parser.result_t) p : outcome (parser_t L * option (expected handshake_result_t)) :=
  match r with
  | UpgradeReady => let+ out := of_option (capture p) in Ret (p, Some (Ok out))
  | HeadersReady | BodyPaused =>
      match fuel with
      | O => Starved
      | S fuel => let+ (p, r) := of_option (resume ops p) in settle fuel r p
      end
  | MessageReady | PError => Ret (p, Some refused)
  | Parser.NeedMore => Ret (p, None)
  end.

(** The outer loop: [turns] bounds the receives, [fuel] the resumes of one. *)
Fixpoint read_answer (turns fuel : nat) p (t : transport_t) : outcome (expected handshake_result_t * transport_t) :=
  match turns with
  | O => Starved
  | S turns =>
      match store_ p with
      | None => Undefined
      | Some s =>
          let w := Head.writable (head_ s) in
          if w =? 0 then Ret (Unexpected (http_error HeaderTooLarge), t)
          else
            let+ (n, t) := transport_recv w t in
            match n with
            | Unexpected e => Ret (Unexpected e, t)
            | Ok [] => Ret (Unexpected (system_error ECONNRESET), t)
            | Ok d =>
                let+ h := of_option (Head.fill d (head_ s)) in
                let+ (p, r) := of_option (execute ops (u32 (Head.w_ h - size d)) (size d) (set_store p (set_head s h))) in
                let+ (p, out) := settle fuel r p in
                match out with Some out => Ret (out, t) | None => read_answer turns fuel p t end
            end
      end
  end.

(** The parser of the exchange, over its buffer; [lease] is the block of 16 KiB
    from the pool. *)
Definition answer_parser (l : L) (lease : option bytes) : parser_t L :=
  Parser.bind (Head.reset lease Head.empty) Spill.init empty_headers (Parser.make ops l Response).

Definition http_upgrade_exchange (turns fuel : nat) (l : L) (lease : option bytes) (request : bytes) (t : transport_t)
    : outcome (expected handshake_result_t * transport_t) :=
  let+ (w, t, _) := writev_all (S (length request)) [request] (mk_stat 0 0) t in
  match w with
  | Unexpected e => Ret (Unexpected e, t)
  | Ok _ =>
      read_answer turns fuel (answer_parser l lease) t
  end.

(** ** Connecting *)

(** The scheme, and the url with the scheme of the http machinery. *)
Definition ws_url (url : bytes) : option (bool * bytes) :=
  if bool_decide (take 5 url = str "ws://") then Some (false, str "http://" ++ drop 5 url)
  else if bool_decide (take 6 url = str "wss://") then Some (true, str "https://" ++ drop 6 url)
  else None.

Fixpoint join_protocols (l : list bytes) : bytes := match l with [] => [] | [x] => x | x :: l => x ++ str ", " ++ join_protocols l end.

Record ws_options_t := mk_ws_options { tls_cx : option (option SSL_CTX); tls_server_name : bytes; subprotocols : list bytes }.

(** What the outside contributes: the resolver, the socket and its connect, the
    deadline in each phase, the random key, the two buffers, the parser. *)
Record ws_env_t := mk_ws_env {
  resolved : expected unit; sock : sock_t; sock_errno : Z; connected : expected unit; fired_connect : bool; fired_handshake : bool; fired_upgrade : bool;
  key : bytes; out_lease : option bytes; in_lease : option bytes; ll_init : L
}.

(** A session: its transport, the bytes it starts with, its subprotocol. *)
Record session_start := mk_start { ss_transport : transport_t; ss_leftover : bytes; ss_subprotocol : bytes }.

(** The result, and the descriptors closed. *)
Definition connect (turns fuel : nat) (url : bytes) (opt : ws_options_t) (env : ws_env_t) : outcome (expected session_start * list Z) :=
  match ws_url url with
  | None => Ret (Unexpected (http_error UnsupportedScheme), [])
  | Some (secure, http_url) =>
      match Url.parse http_url with
      | Unexpected e => Ret (Unexpected e, [])
      | Ok u =>
          if negb (sv_empty (userinfo_ u)) then Ret (Unexpected (http_error BadUrl), [])
          else if secure && negb (bool_decide (is_Some (tls_cx opt))) then Ret (Unexpected (tls_error Disabled), [])
          else
            match resolved env with
            | Unexpected e => Ret (Unexpected e, [])
            | Ok _ =>
                let sni := match tls_server_name opt with [] => sv_text (host_ u) | n => n end in
                let cx := if secure then tls_cx opt else None in
                let+ (tr, closed) := dial (sock env) (sock_errno env) (connected env) cx (if secure then sni else []) (fired_connect env) (fired_handshake env) in
                match tr with
                | Unexpected e => Ret (Unexpected e, closed)
                | Ok tr =>
                    let hang_up e tr := let '(tr, c) := abandon tr in Ret (Unexpected e, option_list c ++ option_list (destroy_transport tr)) in
                    let o := frame_handshake_request (sv_text (authority_ u)) (sv_text (path_ u)) (sv_text (query_ u)) (key env)
                               (join_protocols (subprotocols opt)) (Serializer.reset (out_lease env) (mk_out None 0 no_error)) in
                    if failed o then hang_up (Serializer.err_ o) tr
                    else
                      let+ (exch, tr) := http_upgrade_exchange turns fuel (ll_init env) (in_lease env) (out_view o) tr in
                      match exch with
                      | Unexpected e => hang_up (map_deadline (fired_upgrade env) e) tr
                      | Ok res =>
                          match validate_handshake_response res (key env) (subprotocols opt) with
                          | Unexpected e => hang_up e tr
                          | Ok proto => Ret (Ok (mk_start tr (r_leftover res) proto), [])
                          end
                      end
                end
            end
      end
  end.
End Exchange.

(** ** The answer that is accepted *)

Lemma token_scan_spec fuel v : (length v < fuel)%nat -> token_scan fuel v = existsb (fun p => iequals (trim p) (str "upgrade")) (split_comma v).
Proof.
  revert v. induction fuel as [|fuel IH]; intros v Hf; [lia|]. cbn [token_scan]. rewrite cut_split. destruct (cut_comma v) as [p [r|]] eqn:E; cbn [existsb].
  - destruct (iequals (trim p) _); [done|]. simpl. apply IH. apply cut_shorter in E. lia.
  - by destruct (iequals (trim p) _).
Qed.

(** RFC 6455, sections 4.1 and 9.1. *)
Record acceptable (res : handshake_result_t) (key : bytes) (offered : list bytes) (proto : bytes) : Prop := {
  ac_status : r_status res = 101;
  ac_upgrade : iequals (r_upgrade res) (str "websocket") = true;
  ac_connection : exists p, p ∈ split_comma (r_connection res) /\ iequals (trim p) (str "upgrade") = true;
  ac_accept : r_accept res = accept_key key;
  ac_extensions : r_extensions res = [];
  ac_protocol : proto = r_protocol res /\ (proto = [] \/ proto ∈ offered)
}.

Lemma validate_acceptable res key offered proto : validate_handshake_response res key offered = Ok proto <-> acceptable res key offered proto.
Proof.
  unfold validate_handshake_response. rewrite token_scan_spec by lia. split.
  - destruct (Z.eqb_spec (r_status res) 101) as [Hs|]; cbn [negb]; [|done]. destruct (iequals (r_upgrade res) _) eqn:Hu; cbn [negb]; [|done].
    destruct (existsb _ (split_comma _)) eqn:Hc; cbn [negb]; [|done]. case_bool_decide as Ha; cbn [negb]; [|done]. case_bool_decide as He; cbn [negb]; [|done].
    apply existsb_exists in Hc as (p & Hp & Ht). apply list_elem_of_In in Hp. case_bool_decide as Hpr.
    + intros [= <-]. constructor; eauto.
    + destruct (existsb _ offered) eqn:Ho; [|done]. intros [= <-]. apply existsb_exists in Ho as (o & Ho & Hb%bool_decide_eq_true). apply list_elem_of_In in Ho.
      constructor; eauto. split; [done|]. right. by rewrite Hb.
  - intros [Hs Hu (p & Hp & Ht) Ha He [-> Hpr]]. rewrite Hs, Hu, Ha, He. rewrite Z.eqb_refl, !bool_decide_true by done. cbn [negb].
    replace (existsb _ (split_comma (r_connection res))) with true by (symmetry; apply existsb_exists; exists p; split; [by apply list_elem_of_In|done]). cbn [negb].
    case_bool_decide as Hn; [by rewrite Hn|]. destruct Hpr as [|Hin]; [done|].
    replace (existsb _ offered) with true; [done|]. symmetry. apply existsb_exists. exists (r_protocol res). split; [by apply list_elem_of_In|by apply bool_decide_true].
Qed.

(** ** No byte is lost *)

Section Bytes.
Context {L : Type} (ops : llhttp_ops L) `{!llhttp_laws ops}.
Implicit Types p : parser_t L.

(** The receive buffer holds exactly [R]. *)
Definition holding p (R : bytes) : Prop :=
  exists s, store_ p = Some s /\ Head.ok (head_ s) /\ Head.w_ (head_ s) = size R /\ Head.view (head_ s) 0 (size R) = R.

Lemma holding_kept p p' R : holding p R -> kept_head p p' -> holding p' R.
Proof.
  intros (s & Hs & Hok & Hw & Hv) Hk. destruct (Hk s Hs) as (s' & Hs' & A1 & A2 & A3). exists s'. split; [done|].
  unfold Head.ok, Head.view, Head.capacity, Head.block in *. rewrite A1, A2, A3. done.
Qed.

Lemma fill_holding s h' d R :
  Head.ok (head_ s) -> Head.w_ (head_ s) = size R -> Head.view (head_ s) 0 (size R) = R -> Head.fill d (head_ s) = Some h' ->
  Head.ok h' /\ Head.w_ h' = size (R ++ d) /\ Head.view h' 0 (size (R ++ d)) = R ++ d /\ Head.capacity h' = Head.capacity (head_ s).
Proof.
  intros Hok Hw Hv Hf. assert (Hfit : Head.w_ (head_ s) + size d <= Head.capacity (head_ s)).
  { unfold Head.fill, write_at in Hf. destruct ((0 <=? _) && _) eqn:Hb; [|done]. apply andb_true_iff in Hb as [_ Hb%Z.leb_le]. exact Hb. }
  destruct (head_filled d _ Hok Hfit) as (h2 & Hf2 & [F1 F2 F3 F4]). assert (h2 = h') as <- by congruence. rewrite size_app, <- Hw.
  split; [done|]. split; [done|]. split; [|done]. destruct Hok as (Hr & _). unfold Head.fill in Hf2. destruct (write_at _ _ d) as [b|] eqn:Eb; [|done].
  injection Hf2 as <-. unfold Head.view, Head.block. simpl. rewrite (write_at_append _ _ _ _ Eb) by lia. rewrite Hw. unfold Head.view in Hv. by rewrite Hv.
Qed.

(** The call that ended the head at an upgrade: llhttp stopped there, at [stop]. *)
Definition upgraded p' (stop : Z) : Prop :=
  exists q pos end_ err at_, pump ops q = Some (p', UpgradeReady) /\ feed_ (feedst_ q) = Some (pos, end_) /\
    llhttp_answer ops q = Some (err, at_) /\ (err = HPE_PAUSED \/ err = HPE_PAUSED_UPGRADE) /\ stop = default pos at_ /\ consumed_offset_ (feedst_ p') = stop.

Lemma pump_upgraded q p' pos end_ base : stands q pos end_ base -> pump ops q = Some (p', UpgradeReady) -> exists stop, upgraded p' stop /\ pos <= stop <= end_ /\ stands p' stop end_ base.
Proof.
  intros Hst Hp. destruct (pump_moves ops _ _ _ _ _ _ Hst Hp) as (x & S1 & S2 & S3). destruct S3 as [S3|(Hx & _)]; [|done].
  destruct (pump_fed ops _ _ _ _ _ _ Hst Hp) as (y & y' & _ & _ & Hf & _ & _ & _ & Hc & _ & Ha). specialize (Hc ltac:(done)).
  exists x. split; [|split; [split; [lia|apply (st_range _ _ _ _ S1)]|done]]. rewrite (st_feed _ _ _ _ Hst) in Hf. simplify_eq.
  destruct (llhttp_answer ops q) as [[[] at_]|] eqn:Hl; try discriminate Ha; try (destruct Ha as [_ Ha]; discriminate Ha); try (destruct Ha as [Ha _]; discriminate Ha).
  all: destruct Ha as [Ha _]; eexists q, y, end_, _, at_; split_and!; try done; try (by left); try (by right); try apply (st_feed _ _ _ _ Hst); congruence.
Qed.

Lemma pump_ready q p' r pos end_ base : stands q pos end_ base -> pump ops q = Some (p', r) -> exists x, stands p' x end_ base /\ pos <= x /\ (r = UpgradeReady -> upgraded p' x).
Proof.
  intros Hst Hp. assert (r = UpgradeReady \/ r <> UpgradeReady) as [->|Hr] by (destruct r; auto).
  - destruct (pump_upgraded _ _ _ _ _ Hst Hp) as (x & Hu & Hx & S1). exists x. split_and!; [done|lia|done].
  - destruct (pump_moves ops _ _ _ _ _ _ Hst Hp) as (x & S1 & S2 & _). exists x. split_and!; done.
Qed.

(** The inner loop moves on and, at an upgrade, reports where llhttp stopped. *)
Definition settled p pos end_ base p' (out : option (expected handshake_result_t)) : Prop :=
  kept_head p p' /\ exists pos', pos <= pos' /\ stands p' pos' end_ base /\
  match out with Some (Ok res) => upgraded p' pos' /\ capture p' = Some res | _ => True end.

Lemma settle_spec fuel : forall r p p' out pos end_ base,
  stands p pos end_ base -> (r = UpgradeReady -> upgraded p pos) -> settle ops fuel r p = Ret (p', out) ->
  settled p pos end_ base p' out.
Proof.
  assert (Hstay : forall p pos end_ base out, stands p pos end_ base -> (forall res, out <> Some (Ok res)) -> settled p pos end_ base p out).
  { intros p pos end_ base out Hst Ho. split; [apply kept_head_refl|]. exists pos. split; [lia|]. split; [done|]. destruct out as [[res|e]|]; [by destruct (Ho res)|done..]. }
  assert (Hdone : forall p p' out pos end_ base, stands p pos end_ base -> upgraded p pos ->
    (let+ res := of_option (capture p) in Ret (p, Some (Ok res))) = Ret (p', out) -> settled p pos end_ base p' out).
  { intros p p' out pos end_ base Hst Hc. destruct (capture p) as [res|] eqn:Hcap; [|done]. intros [= <- <-]. split; [apply kept_head_refl|]. by exists pos. }
  induction fuel as [|fuel IH]; intros r p p' out pos end_ base Hst Hc; destruct r; cbn [settle]; try done;
    try (by intros [= <- <-]; apply Hstay); try (by apply (Hdone _ _ _ _ _ base); [|apply Hc]).
  all: unfold resume; destruct (st_store _ _ _ _ Hst) as (s & Hs & _); rewrite Hs; destruct (pump ops p) as [[p1 r1]|] eqn:Hp; [|done]; simpl; intros Hr;
    destruct (pump_ready _ _ _ _ _ _ Hst Hp) as (x & S1 & S2 & S3);
    (destruct (IH r1 p1 p' out x end_ base S1 S3 Hr) as (K1 & y & Hy & Hsy & Hres));
    (split; [eapply kept_head_trans; [by eapply pump_keeps|done]|]); exists y; split_and!; done || lia.
Qed.
End Bytes.

(** ** What the transport does meanwhile *)

Section Exchanged.
Context `{HL : SslLaws} {L : Type} (ops : llhttp_ops L) `{!llhttp_laws ops}.
Implicit Types (p : parser_t L) (t : transport_t).

(** The bytes still to come in from a plain socket. *)
Definition coming (s : sock_t) : bytes := concat (map (fun r => match r with Arrived d => d | RecvError _ => [] end) (recvs s)).

(** From [t] to [t'] the peer's bytes [R] were taken, the next ones, and the
    descriptor is the same. *)
Definition gave t t' (R : bytes) : Prop :=
  match t, t' with
  | Plain s, Plain s' => fd_ s' = fd_ s /\ coming s = R ++ coming s'
  | Tls st, Tls st' => fd_ (sock_ st') = fd_ (sock_ st) /\ opened (ssl (engine_ st')) = opened (ssl (engine_ st)) ++ R
  | _, _ => False
  end.

Lemma gave_refl t : gave t t [].
Proof. destruct t; simpl; by rewrite ?app_nil_r. Qed.
Lemma gave_trans t1 t2 t3 R1 R2 : gave t1 t2 R1 -> gave t2 t3 R2 -> gave t1 t3 (R1 ++ R2).
Proof.
  destruct t1, t2, t3; simpl; try done; intros [F1 G1] [F2 G2]; (split; [congruence|]); [by rewrite G1, G2, app_assoc|by rewrite G2, G1, app_assoc].
Qed.
Lemma gave_fd t t' R : gave t t' R -> native_fd t' = native_fd t.
Proof. destruct t, t'; simpl; try done; by intros [? _]. Qed.

Lemma recv_gives len t :
  able t -> 0 < len < 2 ^ 31 ->
  match transport_recv len t with
  | Ret (Ok d, t') => gave t t' d /\ able t' /\ size d <= len /\ delivered t' = delivered t
  | Ret (Unexpected _, t') => gave t t' []
  | Suspended => True
  | _ => False
  end.
Proof.
  intros Ha Hl. destruct t as [s|st]; cbn [transport_recv transport_writev].
  - unfold plain_recv. destruct (recvs s) as [|[d|e] r] eqn:Hr; simpl; [done| |]; unfold coming; rewrite Hr; simpl; [|done].
    split; [split; [done|]|split; [done|split; [unfold size; rewrite length_take; lia|done]]].
    rewrite <- (take_drop (Z.to_nat len) d) at 1. rewrite <- app_assoc. f_equal. by destruct (drop (Z.to_nat len) d).
  - pose proof (recv_runs (enough st) len st Ha Hl (Nat.lt_succ_diag_r _)) as Hr. unfold runs in Hr.
    destruct (recv (enough st) len st) as [[[d|e] st']| | | |]; cbn; try done.
    + destruct Hr as [(Hu & Hs & _) Hm]. split; [split; [exact (mv_fd _ _ _ _ Hm)|exact (mv_opened _ _ _ _ Hm)]|]. split; [done|]. split; [done|].
      by rewrite (mv_sealed _ _ _ _ Hm), app_nil_r.
    + split; [exact (mv_fd _ _ _ _ Hr)|exact (mv_opened _ _ _ _ Hr)].
Qed.

Lemma writev_gives l t :
  able t -> match transport_writev l t with Ret (_, t') => gave t t' [] | _ => True end.
Proof.
  intros Ha. destruct t as [s|st]; cbn [transport_recv transport_writev].
  - unfold plain_writev. destruct (sends s) as [|[k|e] r]; simpl; [done| |]; done.
  - pose proof (writev_runs (enough st) l st Ha (Nat.lt_succ_diag_r _)) as Hr. unfold runs in Hr.
    destruct (writev (enough st) l st) as [[[d|e] st']| | | |]; cbn; try done.
    + destruct Hr as (_ & _ & _ & recs & _ & Hm). split; [exact (mv_fd _ _ _ _ Hm)|exact (mv_opened _ _ _ _ Hm)].
    + destruct Hr as (recs & _ & Hm). split; [exact (mv_fd _ _ _ _ Hm)|exact (mv_opened _ _ _ _ Hm)].
Qed.

Lemma writev_all_gives fuel l stat t :
  able t -> match writev_all fuel l stat t with Ret (r, t', _) => gave t t' [] /\ (r = Ok tt -> able t') | _ => True end.
Proof.
  revert l stat t. induction fuel as [|fuel IH]; intros l stat t Ha; (destruct l as [|v l]; cbn [writev_all]; [by split; [apply gave_refl|]|]); [done|].
  pose proof (writev_gives (v :: l) t Ha) as Hg. pose proof (writev_law (v :: l) t Ha) as Hw. change (writev_once (v :: l) t) with (transport_writev (v :: l) t) in *.
  destruct (transport_writev (v :: l) t) as [[[w|e] t1]| | | |]; try done. destruct (w =? 0); [done|]. destruct Hw as (_ & _ & Ha1).
  cbv zeta. set (st1 := match skip_empty _ with [] => _ | _ => _ end). pose proof (IH (skip_empty (advance w (v :: l))) st1 t1 Ha1) as HI.
  destruct (writev_all fuel _ st1 t1) as [[[r t2] s2]| | | |]; try done. destruct HI as [H1 H2]. split; [|done]. exact (gave_trans _ _ _ [] [] Hg H1).
Qed.

(** ** The exchange *)

(** The parser between two receives. *)
Record awaiting p (R : bytes) (cap : Z) : Prop := {
  aw_holds : exists s, store_ p = Some s /\ Head.ok (head_ s) /\ Head.w_ (head_ s) = size R /\ Head.view (head_ s) 0 (size R) = R /\ Head.capacity (head_ s) = cap;
  aw_count : 0 <= consumed_ (feedst_ p) < 2 ^ 32
}.

(** The parser alone, given the pieces that were received, up to the one that
    settles the matter. *)
Fixpoint digest (fuel : nat) (segs : list bytes) p : outcome (parser_t L * option (expected handshake_result_t)) :=
  match segs with
  | [] => Ret (p, None)
  | d :: segs =>
      match store_ p with
      | None => Undefined
      | Some s =>
          let+ h := of_option (Head.fill d (head_ s)) in
          let+ (p, r) := of_option (execute ops (u32 (Head.w_ h - size d)) (size d) (set_store p (set_head s h))) in
          let+ (p, out) := settle ops fuel r p in
          match out, segs with None, _ => digest fuel segs p | _, [] => Ret (p, out) | _, _ => Undefined end
      end
  end.

(** The answer [res] is what the parser [p0] makes of the pieces [segs], with
    the last of which llhttp ended the head at [stop]; what lies behind it is
    kept. *)
Definition read_from (fuel : nat) p0 (segs : list bytes) (res : handshake_result_t) : Prop :=
  exists p stop, digest fuel segs p0 = Ret (p, Some (Ok res)) /\ capture p = Some res /\ upgraded ops p stop /\
    0 <= stop <= size (concat segs) /\ r_leftover res = drop (Z.to_nat stop) (concat segs).

(** What the exchange does, in terms of the pieces received: [segs]. *)
Definition answered t (turns fuel : nat) (cap : Z) (R0 : bytes) p0 (x : outcome (expected handshake_result_t * transport_t)) : Prop :=
  match x with
  | Ret (r, t') => exists segs, gave t t' (concat segs) /\
      match r with
      | Ok res => delivered t' = delivered t /\ exists p stop, digest fuel segs p0 = Ret (p, Some (Ok res)) /\ capture p = Some res /\ upgraded ops p stop /\
          0 <= stop <= size (R0 ++ concat segs) /\ r_leftover res = drop (Z.to_nat stop) (R0 ++ concat segs)
      | Unexpected _ => True
      end
  | Starved => Z.of_nat turns <= cap - size R0 \/ exists segs, digest fuel segs p0 = Starved
  | Undefined => exists segs, digest fuel segs p0 = Undefined
  | Suspended => True
  | Thrown => False
  end.

Lemma capture_leftover p R res pos :
  holding p R -> consumed_offset_ (feedst_ p) = pos -> 0 <= pos <= size R -> capture p = Some res -> r_leftover res = drop (Z.to_nat pos) R.
Proof.
  intros (s & Hs & (_ & Hw1 & Hw2) & Hw & Hv) Hc Hp. unfold capture. rewrite Hs, Hc, Hw. intros [= <-]. cbn [r_leftover].
  rewrite u32_small by lia. unfold Head.view, view_at, substr in *. rewrite <- (f_equal (drop (Z.to_nat pos)) Hv).
  change (Z.to_nat 0) with O. rewrite drop_0, skipn_firstn_comm. f_equal. lia.
Qed.
Lemma awaiting_holding p R cap : awaiting p R cap -> holding p R.
Proof. intros [(s & Hs & Hok & Hw & Hv & _) _]. by exists s. Qed.

(** One receive: what came is in the buffer, and the parser has seen it. *)
Lemma receive_settles fuel p R cap s h d p1 r p' out :
  awaiting p R cap -> store_ p = Some s -> d <> [] -> Head.fill d (head_ s) = Some h ->
  execute ops (u32 (Head.w_ h - size d)) (size d) (set_store p (set_head s h)) = Some (p1, r) -> settle ops fuel r p1 = Ret (p', out) ->
  awaiting p' (R ++ d) cap /\
  match out with
  | Some (Ok res) => exists stop, capture p' = Some res /\ upgraded ops p' stop /\ 0 <= stop <= size (R ++ d) /\ r_leftover res = drop (Z.to_nat stop) (R ++ d)
  | _ => True
  end.
Proof.
  intros [(s0 & Hs0 & Hok & Hw & Hv & Hcap) Hcn] Hs Hd Hf He Hst. assert (s0 = s) as -> by congruence.
  destruct (fill_holding s h d R Hok Hw Hv Hf) as (Hok' & Hw' & Hv' & Hcap').
  assert (Hoff : u32 (Head.w_ h - size d) = size R). { rewrite Hw', size_app. replace (size R + size d - size d) with (size R) by lia. destruct Hok as (? & ? & ?). apply u32_small. unfold size in *. lia. }
  rewrite Hoff in He. unfold execute in He. cbn [store_ set_store] in He. set (p0 := set_feed _ _) in He. pose proof Hok' as (Hb1 & Hb2 & Hb3). rewrite Hw', size_app in Hb2.
  assert (Hp0 : stands p0 (size R) (size R + size d) (consumed_ (feedst_ p) - size R)).
  { constructor; simpl; [done|unfold size in *; lia|rewrite Z.sub_add; symmetry; by apply u32_small|]. eexists. split; [done|]. exact Hb2. }
  destruct (pump_ready ops _ _ _ _ _ _ Hp0 He) as (x & S1 & S2 & S3).
  destruct (settle_spec ops fuel r p1 p' out x _ _ S1 S3 Hst) as (K & y & Hy & Sy & Hres).
  assert (Hkept : kept_head p0 p') by (eapply kept_head_trans; [by eapply pump_keeps|exact K]).
  assert (Hh0 : holding p0 (R ++ d)) by (exists (set_head s h); done).
  pose proof (holding_kept _ _ _ Hh0 Hkept) as Hh'. split.
  - constructor.
    + destruct (Hkept (set_head s h) eq_refl) as (s' & Hs' & A1 & A2 & A3). destruct Hh' as (s2 & Hs2 & B1 & B2 & B3). assert (s2 = s') as -> by congruence.
      exists s'. split_and!; try done; [apply B1..|]. rewrite <- Hcap, <- Hcap'. unfold Head.capacity, Head.block. by rewrite A1.
    + rewrite (st_consumed _ _ _ _ Sy). apply Z.mod_pos_bound. lia.
  - destruct out as [[res|]|]; try done. destruct Hres as [Hc Hcp]. destruct (st_range _ _ _ _ Sy) as [Hr _]. rewrite <- size_app in Hr.
    exists y. split_and!; try done; try lia. pose proof Hc as (_ & _ & _ & _ & _ & _ & _ & _ & _ & _ & Ho). eapply capture_leftover; [exact Hh'|exact Ho|lia|exact Hcp].
Qed.

Lemma settle_returns fuel : forall r p, match settle ops fuel r p with Thrown | Suspended => False | _ => True end.
Proof.
  induction fuel as [|fuel IH]; intros r p; destruct r; cbn [settle]; try done; try (by destruct (capture p)).
  all: destruct (resume ops p) as [[p1 r1]|]; [|done]; apply IH.
Qed.

(** A piece more in front. *)
Lemma answered_cons turns fuel t t1 R cap p p2 s h q p1 r x :
  store_ p = Some s -> Head.fill q (head_ s) = Some h -> execute ops (u32 (Head.w_ h - size q)) (size q) (set_store p (set_head s h)) = Some (p1, r) ->
  settle ops fuel r p1 = Ret (p2, None) -> q <> [] -> gave t t1 q -> delivered t1 = delivered t ->
  answered t1 turns fuel cap (R ++ q) p2 x -> answered t (S turns) fuel cap R p x.
Proof.
  intros Hs Hf He Hst Hq Hg Hd. assert (Hdg : forall segs, digest fuel (q :: segs) p = digest fuel segs p2).
  { intros segs. cbn [digest]. rewrite Hs, Hf. cbn [of_option bind_out]. rewrite He. cbn [of_option bind_out]. rewrite Hst. done. }
  unfold answered. destruct x as [[res t2]| | | |]; try done.
  - intros (segs & Hg2 & Hr). exists (q :: segs). split; [by eapply gave_trans|]. destruct res as [res|]; [|done].
    rewrite Hdg. cbn [concat]. rewrite app_assoc. destruct Hr as [Hd2 Hr]. split; [congruence|done].
  - intros (segs & Hu). exists (q :: segs). by rewrite Hdg.
  - intros [Hu|(segs & Hu)]; [left|right; exists (q :: segs); by rewrite Hdg]. rewrite size_app in Hu. destruct q; [done|]. unfold size in *. simpl in *. lia.
Qed.

Lemma read_answer_runs turns fuel : forall p t R cap,
  awaiting p R cap -> cap < 2 ^ 31 -> able t -> answered t turns fuel cap R p (read_answer ops turns fuel p t).
Proof.
  induction turns as [|turns IH]; intros p t R cap Hp Hcap Ha.
  { simpl. left. destruct (aw_holds _ _ _ Hp) as (s & _ & (_ & Hw & _) & Hsz & _ & Hc). simpl. lia. }
  cbn [read_answer]. destruct (aw_holds _ _ _ Hp) as (s & Hs & (Hr & Hw & Hlt) & Hsz & Hv & Hc). rewrite Hs.
  destruct (Z.eqb_spec (Head.writable (head_ s)) 0) as [|Hw0]. { exists []. split; [apply gave_refl|done]. }
  assert (Hwr : 0 < Head.writable (head_ s) < 2 ^ 31).
  { unfold Head.writable, Head.capacity, Head.block in *. destruct (Head.lease_ (head_ s)) as [b|]; simpl in *; [|done]. unfold size in *. lia. }
  pose proof (recv_gives _ t Ha Hwr) as Hg. destruct (transport_recv _ t) as [[[d|e] t1]| | | |]; try done; cbn [bind_out].
  2: { exists []. done. }
  destruct Hg as (Hg & Ha1 & Hsd & Hdl). destruct d as [|b d]. { exists []. done. }
  remember (b :: d) as q eqn:Hq. assert (Hqn : q <> []) by by subst. clear b d Hq.
  destruct q as [|b d] eqn:Hq; [done|]. rewrite <- Hq in *. clear Hq b d.
  destruct (Head.fill q (head_ s)) as [h|] eqn:Hf; [|exists [q]; simpl; by rewrite Hs, Hf]. cbn [of_option bind_out].
  destruct (execute ops _ _ _) as [[p1 r]|] eqn:He; [|exists [q]; simpl; by rewrite Hs, Hf; simpl; rewrite He]. cbn [of_option bind_out].
  pose proof (settle_returns fuel r p1) as Hnt. destruct (settle ops fuel r p1) as [[p2 out]| | | |] eqn:Hst; try done; cbn [bind_out].
  - destruct (receive_settles fuel p R cap s h q p1 r p2 out Hp Hs Hqn Hf He Hst) as [Hp2 Hres]. destruct out as [out|]; [|by eapply answered_cons; eauto].
    exists [q]. simpl. rewrite app_nil_r. split; [done|]. destruct out as [res|]; [|done]. split; [done|]. destruct Hres as (stop & Hres). exists p2, stop.
    split; [|done]. by rewrite Hs, Hf; simpl; rewrite He; simpl; rewrite Hst.
  - exists [q]. simpl. by rewrite Hs, Hf; simpl; rewrite He; simpl; rewrite Hst.
  - right. exists [q]. simpl. by rewrite Hs, Hf; simpl; rewrite He; simpl; rewrite Hst.
Qed.

Definition lease_cap (lease : option bytes) : Z := size (default [] lease).

Lemma exchange_runs turns fuel l lease request t :
  lease_cap lease < 2 ^ 31 -> lease_cap lease < Z.of_nat turns -> able t ->
  match http_upgrade_exchange ops turns fuel l lease request t with
  | Ret (r, t') => exists segs, gave t t' (concat segs) /\
      match r with Ok res => delivered t' = delivered t ++ request /\ read_from fuel (answer_parser ops l lease) segs res | Unexpected _ => True end
  | Starved => exists segs, digest fuel segs (answer_parser ops l lease) = Starved
  | Undefined => exists segs, digest fuel segs (answer_parser ops l lease) = Undefined
  | Suspended => True
  | Thrown => False
  end.
Proof.
  intros Hc Ht Ha. unfold http_upgrade_exchange. pose proof (writev_all_gives (S (length request)) [request] (mk_stat 0 0) t Ha) as Hg.
  pose proof (writev_all_runs (S (length request)) [request] (mk_stat 0 0) t Ha ltac:(simpl; rewrite app_nil_r; lia)) as Hw. unfold all_or_prefix in Hw.
  cbn [concat] in Hw. rewrite app_nil_r in Hw. destruct (writev_all _ _ _ t) as [[[[[]|e] t1] st1]| | | |]; try done; cbn [bind_out].
  2: { exists []. by destruct Hg. }
  destruct Hg as [Hg Ha1]. specialize (Ha1 eq_refl). set (p := answer_parser ops l lease).
  assert (Hp : awaiting p [] (lease_cap lease)).
  { constructor; [|simpl; lia]. eexists. split; [done|]. unfold Head.ok, Head.capacity, Head.block, lease_cap in *; simpl. change (size []) with 0.
    pose proof (size_nonneg (default [] lease)). split_and!; try done; lia. }
  pose proof (read_answer_runs turns fuel p t1 [] (lease_cap lease) Hp Hc Ha1) as Hr. unfold answered in Hr.
  destruct (read_answer ops turns fuel p t1) as [[r t2]| | | |]; try done.
  - destruct Hr as (segs & Hg2 & Hres). exists segs. split; [exact (gave_trans _ _ _ [] _ Hg Hg2)|]. destruct r; [|done]. destruct Hres as [Hd Hres]. split; [congruence|exact Hres].
  - destruct Hr as [Hr|]; [change (size []) with 0 in Hr; lia|done].
Qed.
End Exchanged.

(** ** Connecting *)

Section Connect.
Context `{S : Ssl} `{V : !SslView} `{HL : !SslLaws} `{HS : !SslSetupLaws} `{CO : !CtxOps} `{CL : !CtxLaws} `{VL : !VerifyLaws}
  {L : Type} (ops : llhttp_ops L) `{!llhttp_laws ops}.
Implicit Types (opt : ws_options_t) (env : ws_env_t (L := L)).

(** A url that is dialled: a websocket scheme, no credentials in it, a TLS
    context where the scheme asks for one, and the name resolved. *)
Definition dials url opt env (secure : bool) (u : url_t) : Prop :=
  exists http_url, ws_url url = Some (secure, http_url) /\ Url.parse http_url = Ok u /\ sv_empty (userinfo_ u) = true /\
    (secure = true -> is_Some (tls_cx opt)) /\ resolved env = Ok tt.

Definition request_of opt env (u : url_t) : bytes :=
  out_view (frame_handshake_request (sv_text (authority_ u)) (sv_text (path_ u)) (sv_text (query_ u)) (key env)
    (join_protocols (subprotocols opt)) (Serializer.reset (out_lease env) (mk_out None 0 no_error))).

(** The name the certificate of the server is checked for. *)
Definition ws_sni opt (u : url_t) : bytes := match tls_server_name opt with [] => sv_text (host_ u) | n => n end.

(** The transport the upgrade runs over.  Whether certificates are checked at
    all is up to the context the caller passed. *)
Definition connected_to opt env (secure : bool) (u : url_t) (t : transport_t) : Prop :=
  if secure then is_tls t = true /\ forall c, tls_cx opt = Some (Some c) -> vw_verify (view c) = SSL_VERIFY_PEER -> verified_peer (host_asked (c_str (ws_sni opt u))) t
  else t = Plain (sock env).

(** What a session starts with. *)
Definition session_sound (fuel : nat) opt env (secure : bool) (u : url_t) (ss : session_start) : Prop :=
  exists t segs res,
    connected_to opt env secure u t /\
    delivered (ss_transport ss) = delivered t ++ request_of opt env u /\
    gave t (ss_transport ss) (concat segs) /\ read_from ops fuel (answer_parser ops (ll_init env) (in_lease env)) segs res /\ ss_leftover ss = r_leftover res /\
    acceptable res (key env) (subprotocols opt) (ss_subprotocol ss) /\ native_fd (ss_transport ss) = fd_ (sock env).

(** What a dial that fails closes. *)
Definition hung_up env : list Z := [fd_ (sock env)].

Definition connect_promise (fuel : nat) url opt env (x : outcome (expected session_start * list Z)) : Prop :=
  match x with
  | Ret (Ok ss, closed) => closed = [] /\ exists secure u, dials url opt env secure u /\ session_sound fuel opt env secure u ss
  | Ret (Unexpected _, closed) =>
      (forall secure u, dials url opt env secure u -> closed = hung_up env) /\
      ((forall secure u, ~ dials url opt env secure u) -> closed = [])
  | Thrown => fd_ (sock env) < 0 /\ exists secure u, dials url opt env secure u
  | Starved => exists segs, digest ops fuel segs (answer_parser ops (ll_init env) (in_lease env)) = Starved
  | Undefined => exists segs, digest ops fuel segs (answer_parser ops (ll_init env) (in_lease env)) = Undefined
  | Suspended => True
  end.

Lemma not_dialled fuel url opt env e : (forall secure u, ~ dials url opt env secure u) -> connect_promise fuel url opt env (Ret (Unexpected e, [])).
Proof. intros Hn. split; [|done]. intros secure u Hd. by destruct (Hn secure u). Qed.

Lemma dialled_and_closed fuel url opt env secure u e : dials url opt env secure u -> connect_promise fuel url opt env (Ret (Unexpected e, hung_up env)).
Proof. intros Hd. split; [done|]. intros Hn. by destruct (Hn secure u). Qed.

Lemma hang_up_promise fuel url opt env secure u e t :
  dials url opt env secure u -> 0 <= fd_ (sock env) -> native_fd t = fd_ (sock env) ->
  connect_promise fuel url opt env (let '(t, c) := abandon t in Ret (Unexpected e, option_list c ++ option_list (destroy_transport t))).
Proof.
  intros Hd Hf Ht. pose proof (abandon_once t ltac:(lia)) as Ha. destruct (abandon t) as [t' c]. rewrite Ha, Ht. by eapply dialled_and_closed.
Qed.

Lemma connect_runs turns fuel url opt env :
  wire (sock env) = [] -> lease_cap (in_lease env) < 2 ^ 31 -> lease_cap (in_lease env) < Z.of_nat turns ->
  connect_promise fuel url opt env (connect ops turns fuel url opt env).
Proof.
  intros Hw Hc Ht. unfold connect. destruct (ws_url url) as [[secure http_url]|] eqn:Hu.
  2: { apply not_dialled. intros se u (h & Hx & _). congruence. }
  destruct (Url.parse http_url) as [u|e] eqn:Hp.
  2: { apply not_dialled. intros se u (h & Hx & Hy & _). congruence. }
  destruct (sv_empty (userinfo_ u)) eqn:Hi; cbn [negb].
  2: { apply not_dialled. intros se u' (h & Hx & Hy & Hz & _). congruence. }
  destruct (secure && negb (bool_decide (is_Some (tls_cx opt)))) eqn:Hs.
  { apply not_dialled. intros se u' (h & Hx & _ & _ & Hz & _). apply andb_true_iff in Hs as [-> Hb%negb_true_iff%bool_decide_eq_false]. naive_solver. }
  destruct (resolved env) as [[]|e] eqn:Hr.
  2: { apply not_dialled. intros se u' (h & _ & _ & _ & _ & Hx). congruence. }
  assert (Hd : dials url opt env secure u).
  { exists http_url. split_and!; try done. intros ->. simpl in Hs. apply negb_false_iff, bool_decide_eq_true in Hs. done. }
  cbv zeta. set (cx := if secure then tls_cx opt else None). set (sni := match tls_server_name opt with [] => _ | _ => _ end).
  pose proof (dial_runs (sock env) (sock_errno env) (connected env) cx (if secure then sni else []) (fired_connect env) (fired_handshake env) Hw) as Hdl.
  unfold dialled in Hdl. destruct (dial _ _ _ _ _ _ _) as [[[t|e] closed]| | | |] eqn:Hdial; try done; cbn [bind_out].
  2: { destruct Hdl as [-> _]. by eapply dialled_and_closed. }
  2: { split; [done|]. by exists secure, u. }
  destruct Hdl as (-> & Hfd & Hpos & Ha & Hk).
  set (o := frame_handshake_request _ _ _ _ _ _). destruct (failed o); [by eapply hang_up_promise|].
  pose proof (exchange_runs ops turns fuel (ll_init env) (in_lease env) (out_view o) t Hc Ht Ha) as Hx.
  destruct (http_upgrade_exchange _ _ _ _ _ _ t) as [[[res|e] t1]| | | |]; try done; cbn [bind_out]; destruct Hx as (segs & Hg & Hx).
  2: { eapply hang_up_promise; [done..|]. by rewrite (gave_fd _ _ _ Hg). }
  destruct Hx as [Hdv Hrf]. destruct (validate_handshake_response res (key env) (subprotocols opt)) as [proto|e] eqn:Hv.
  2: { eapply hang_up_promise; [done..|]. by rewrite (gave_fd _ _ _ Hg). }
  apply validate_acceptable in Hv. split; [done|]. exists secure, u. split; [done|]. exists t, segs, res.
  split; [|split_and!; try done; cbn [ss_transport]; by rewrite (gave_fd _ _ _ Hg)].
  destruct secure; [|done]. subst cx. destruct Hd as (_ & _ & _ & _ & Hsome & _). split.
  - destruct (tls_cx opt); [by destruct Hk as (st & -> & _)|]. by destruct (Hsome eq_refl).
  - intros c Hcx Hpeer. rewrite Hcx in Hdial. by eapply dial_verified.
Qed.
End Connect.


(** ** A handshake in the clear *)

Import TlsContext.Toy.

Module Sample.

Definition view : ll_view := mk_llv false HTTP_GET 101 1 1 true true 0.

(** An llhttp that finds the header fields at these places of the first window
    and the end of the head at [fin]. *)
Definition call (c : ll_callback) (pos : Z) (t : ll_run unit) : ll_run unit := LCall c view (fun r => after r pos tt t).
Fixpoint fields (pos : Z) (l : list (Z * Z * Z * Z)) (t : ll_run unit) : ll_run unit :=
  match l with
  | [] => t
  | (n, nl, v, vl) :: l =>
      call (OnHeaderField n nl) pos (call OnHeaderFieldComplete pos (call (OnHeaderValue v vl) pos (call OnHeaderValueComplete pos (fields pos l t))))
  end.
Definition execute (l : list (Z * Z * Z * Z)) (fin : Z) (_ : unit) (off : Z) (data : bytes) : ll_run unit :=
  let pos := off + Z.max 0 (Z.min fin (size data)) in
  call OnMessageBegin pos (fields pos l (call OnHeadersComplete pos (call OnMessageComplete pos (LReturn HPE_OK None tt)))).
Definition ops l fin : llhttp_ops unit :=
  mk_llhttp unit (execute l fin) (fun l => LReturn HPE_OK None l) (fun l => l) (fun l => l) (fun l => l) (fun _ _ _ l => l) (fun _ => 0).

#[export] Instance laws l fin : llhttp_laws (ops l fin).
Proof.
  split; intros [] off data; pose proof (size_nonneg data).
  - assert (Hp : off <= off + Z.max 0 (Z.min fin (size data)) <= off + size data) by lia. unfold ops, llhttp_execute, execute. cbv zeta. revert Hp. generalize (off + Z.max 0 (Z.min fin (size data))) as pos.
    intros pos Hp. apply after_returns; [exact Hp|]. induction l as [|[[[n nl] v] vl] l IH]; cbn [fields]; repeat (apply after_returns; [exact Hp|]); done.
  - unfold ops, llhttp_execute, execute. cbv zeta. apply after_obeys. induction l as [|[[[n nl] v] vl] l IH]; cbn [fields]; repeat apply after_obeys; done.
Qed.

Definition answer : bytes :=
  str "HTTP/1.1 101 X" ++ [13; 10] ++ str "Upgrade: websocket" ++ [13; 10] ++ str "Connection: Upgrade" ++ [13; 10] ++
  str "Sec-WebSocket-Accept: s3pPLMBiTxaQ9kYGzzhZRbK+xOo=" ++ [13; 10; 13; 10].
Definition places : list (Z * Z * Z * Z) := [(16, 7, 25, 9); (36, 10, 48, 7); (57, 20, 79, 28)].

Definition options : ws_options_t := mk_ws_options None [] [].
Definition env : ws_env_t (L := unit) :=
  mk_ws_env (Ok tt) (mk_sock 7 [Sent 1000] [Arrived (answer ++ [129; 2; 104; 105])] [] []) 0 (Ok tt) false false false
    (str "dGhlIHNhbXBsZSBub25jZQ==") (Some (replicate 512 0)) (Some (replicate 256 0)) tt.
End Sample.

