(* ===== verification/ServerLoop.v ===== *)
(** * The connection loop of the server

    The reading half of [connection_t] (src/src/http/server/connection.cc):
    filling the receive buffer, choosing between an aggregated and a streamed
    body, feeding the parser, dispatching to routes and filters, the upgrade
    to websocket, and the rounds of [run]; with [body_reader_t] and the
    request path of src/src/http/server/message.cc and the upgrade checks of
    src/src/websocket/server.cc.

    It composes the parser ([Parser]), the router ([Router]) and the writing
    half ([ServerResponse]).  What the transport will deliver is a script;
    [Suspended] is a connection waiting for more of it, [Thrown] a C++
    exception leaving the loop, [Undefined] a failed assertion or a null
    buffer, [Starved] a fuel that was too small.  The counters and the
    timeouts' arming are left out; a deadline that fires is an element of the
    script.  A websocket session is represented by the bytes it starts with
    and its subprotocol (see Session.v). *)

From stdpp Require Import prelude gmap list list_numbers strings.
From Stdlib Require Import ZArith Lia.
From S2P Require Import Prelude Protocol Buffer Serializer HeadLines Headers Parser ParserFeed Transport Router ServerResponse Handshake.
Open Scope Z_scope.

(** ** State *)

Record loop_options_t := mk_loop_options {
  framing : server_options_t;
  max_body : Z; aggregate_threshold : Z; stream_window_bytes : Z; max_pipelined : Z
}.

(** What a handler sees of the request. *)
Record request_t := mk_request {
  rq_method : method_t; rq_target : bytes; rq_path : bytes; rq_params : param_slots_t;
  rq_headers : headers_t; rq_body : bytes
}.

Record loop_t (L : Type) := mk_loop {
  parser_ : parser_t L;
  conn : conn_t;
  bodybuf_ : Body.body_buffer_t;
  params_ : param_slots_t;
  route_ : option route_t;
  body_mode_ : body_mode_t;
  req_body_ : bytes;
  reader_complete_ : bool;
  body_window_ : Z;
  streaming_ : bool;
  body_complete_ : bool;
  pipelined : Z;
  fired : bool;
  upgraded_ : bool;
  session : option (bytes * bytes);
  input : list recv_t
}.
Arguments mk_loop {L}. Arguments parser_ {L}. Arguments conn {L}. Arguments bodybuf_ {L}. Arguments params_ {L}. Arguments route_ {L}.
Arguments body_mode_ {L}. Arguments req_body_ {L}. Arguments reader_complete_ {L}. Arguments body_window_ {L}. Arguments streaming_ {L}.
Arguments body_complete_ {L}. Arguments pipelined {L}. Arguments fired {L}. Arguments upgraded_ {L}. Arguments session {L}. Arguments input {L}.

Section Setters.
Context {L : Type}.
Implicit Types s : loop_t L.

Definition set_parser (p : parser_t L) s : loop_t L :=
  mk_loop p (conn s) (bodybuf_ s) (params_ s) (route_ s) (body_mode_ s) (req_body_ s) (reader_complete_ s) (body_window_ s)
    (streaming_ s) (body_complete_ s) (pipelined s) (fired s) (upgraded_ s) (session s) (input s).
Definition set_conn (c : conn_t) s : loop_t L :=
  mk_loop (parser_ s) c (bodybuf_ s) (params_ s) (route_ s) (body_mode_ s) (req_body_ s) (reader_complete_ s) (body_window_ s)
    (streaming_ s) (body_complete_ s) (pipelined s) (fired s) (upgraded_ s) (session s) (input s).
Definition set_route (r : option route_t) (ps : param_slots_t) s : loop_t L :=
  mk_loop (parser_ s) (conn s) (bodybuf_ s) ps r (body_mode_ s) (req_body_ s) (reader_complete_ s) (body_window_ s)
    (streaming_ s) (body_complete_ s) (pipelined s) (fired s) (upgraded_ s) (session s) (input s).
Definition set_mode (m : body_mode_t) (streaming complete : bool) s : loop_t L :=
  mk_loop (parser_ s) (conn s) (bodybuf_ s) (params_ s) (route_ s) m (req_body_ s) (reader_complete_ s) (body_window_ s)
    streaming complete (pipelined s) (fired s) (upgraded_ s) (session s) (input s).
Definition set_req_body (b : bytes) s : loop_t L :=
  mk_loop (parser_ s) (conn s) (bodybuf_ s) (params_ s) (route_ s) (body_mode_ s) b (reader_complete_ s) (body_window_ s)
    (streaming_ s) (body_complete_ s) (pipelined s) (fired s) (upgraded_ s) (session s) (input s).
Definition set_reader (b : bool) s : loop_t L :=
  mk_loop (parser_ s) (conn s) (bodybuf_ s) (params_ s) (route_ s) (body_mode_ s) (req_body_ s) b (body_window_ s)
    (streaming_ s) (body_complete_ s) (pipelined s) (fired s) (upgraded_ s) (session s) (input s).
Definition set_window (w : Z) s : loop_t L :=
  mk_loop (parser_ s) (conn s) (bodybuf_ s) (params_ s) (route_ s) (body_mode_ s) (req_body_ s) (reader_complete_ s) w
    (streaming_ s) (body_complete_ s) (pipelined s) (fired s) (upgraded_ s) (session s) (input s).
Definition set_complete (b : bool) s : loop_t L := set_mode (body_mode_ s) (streaming_ s) b s.
Definition set_pipelined (n : Z) s : loop_t L :=
  mk_loop (parser_ s) (conn s) (bodybuf_ s) (params_ s) (route_ s) (body_mode_ s) (req_body_ s) (reader_complete_ s) (body_window_ s)
    (streaming_ s) (body_complete_ s) n (fired s) (upgraded_ s) (session s) (input s).
Definition set_input (i : list recv_t) s : loop_t L :=
  mk_loop (parser_ s) (conn s) (bodybuf_ s) (params_ s) (route_ s) (body_mode_ s) (req_body_ s) (reader_complete_ s) (body_window_ s)
    (streaming_ s) (body_complete_ s) (pipelined s) (fired s) (upgraded_ s) (session s) i.
Definition set_fired s : loop_t L :=
  mk_loop (parser_ s) (conn s) (bodybuf_ s) (params_ s) (route_ s) (body_mode_ s) (req_body_ s) (reader_complete_ s) (body_window_ s)
    (streaming_ s) (body_complete_ s) (pipelined s) true (upgraded_ s) (session s) (input s).
Definition set_upgraded (x : option (bytes * bytes)) s : loop_t L :=
  mk_loop (parser_ s) (conn s) (bodybuf_ s) (params_ s) (route_ s) (body_mode_ s) (req_body_ s) (reader_complete_ s) (body_window_ s)
    (streaming_ s) (body_complete_ s) (pipelined s) (fired s) true x (input s).

(** [body_] is shared with the parser while it is its sink. *)
Definition sink s : option Body.body_buffer_t := body_sink_ (body_ (parser_ s)).
Definition body_buffer s : Body.body_buffer_t := default (bodybuf_ s) (sink s).
Definition put_body (b : Body.body_buffer_t) s : loop_t L :=
  mk_loop (put_sink (match sink s with Some _ => Some b | None => None end) (parser_ s)) (conn s) b (params_ s) (route_ s)
    (body_mode_ s) (req_body_ s) (reader_complete_ s) (body_window_ s)
    (streaming_ s) (body_complete_ s) (pipelined s) (fired s) (upgraded_ s) (session s) (input s).
Definition set_body_sink (on : bool) s : loop_t L :=
  let b := body_buffer s in
  let s := put_body b s in
  set_parser (put_sink (if on then Some b else None) (parser_ s)) s.

(** The receive buffer. *)
Definition in_ s : option Head.head_buffer_t := match store_ (parser_ s) with Some st => Some (head_ st) | None => None end.
Definition set_in (h : Head.head_buffer_t) s : loop_t L :=
  match store_ (parser_ s) with
  | Some st => set_parser (set_store (parser_ s) (Parser.set_head st h)) s
  | None => s
  end.

Definition pending_body s : bytes :=
  match in_ s, body_run_ (body_ (parser_ s)) with Some h, Some (off, n) => Head.view h off n | _, _ => [] end.
Definition clear_pending_body s : loop_t L :=
  let b := body_ (parser_ s) in set_parser (Parser.set_body (parser_ s) (mk_bodyt (body_sink_ b) None (body_received_ b))) s.
End Setters.

(** ** The request *)

(** The path: the target up to the query. *)
Fixpoint before (c : Z) (t : bytes) : bytes := match t with x :: t => if x =? c then [] else x :: before c t | [] => [] end.
Definition path (target : bytes) : bytes := before 63 target.

Definition kSecWebSocketVersion : bytes := str "Sec-WebSocket-Version".

(** [websocket::validate_request]. *)
Definition validate_request (q : request_t) : option bytes :=
  if negb (bool_decide (rq_method q = Get)) then None
  else if negb (iequals (get_field (rq_headers q) Upgrade) (str "websocket")) then None
  else if negb (bool_decide (get_name (rq_headers q) kSecWebSocketVersion = str "13")) then None
  else
    let key := get_name (rq_headers q) kSecWebSocketKey in
    if key_valid key then Some key else None.

(** ** Handlers *)

(** A handler: calls on the response, reads of a streamed body. *)
Inductive hprog :=
| HReturn
| HAct (f : conn_t -> conn_t * expected unit) (k : expected unit -> hprog)
| HRead (k : expected bytes -> hprog).

Definition filter_t := request_t -> conn_t -> conn_t * bool.

Record accept_info_t := mk_accept { accepted : bool; refuse_with : Z; subprotocol : bytes }.

Record service_t := mk_service {
  routes_of : router_t;
  fallback_route : option route_t;
  filters : list filter_t;
  handler : Z -> request_t -> hprog;
  ws_accept : Z -> option (request_t -> accept_info_t)
}.

Definition is_some {A} (x : option A) : bool := match x with Some _ => true | None => false end.
Definition is_websocket (r : route_t) : bool := match kind r with KWebSocket => true | _ => false end.

(** [run_filters], and [run_sync_filters], which differ in suspending only. *)
Fixpoint run_filters (fs : list filter_t) (q : request_t) (c : conn_t) : conn_t * bool :=
  match fs with
  | [] => (c, true)
  | f :: fs => let '(c, go) := f q c in if go then run_filters fs q c else (c, false)
  end.

(** The llhttp codes the error-to-status map names. *)
Record ll_codes := mk_codes { hpe_invalid_method : Z; hpe_invalid_version : Z; hpe_invalid_url : Z }.

Section Loop.
Context {L : Type} (ops : llhttp_ops L) (codes : ll_codes) (acquire : Z -> option bytes) (ndebug : bool) (opt : loop_options_t) (svc : service_t).
Implicit Types s : loop_t L.

Definition status_of (e : error_t) : Z :=
  status_for_error (hpe_invalid_method codes) (hpe_invalid_version codes) (hpe_invalid_url codes) e.

(** [CORNET_ASSERT]. *)
Definition asserting {A} (b : bool) (x : outcome A) : outcome A := if ndebug || b then x else Undefined.

Definition request_of s : request_t :=
  mk_request (method_ (facts_ (parser_ s))) (Parser.target (parser_ s)) (path (Parser.target (parser_ s))) (params_ s)
    (match store_ (parser_ s) with Some st => live st | None => empty_headers end) (req_body_ s).

(** ** Setup *)

(** The constructor: nothing attached, the parser bound and limited. *)
Definition construct (lim : parser_limits_t) (l : L) (i : list recv_t) (accepts : Z) : loop_t L :=
  let none := mk_out None 0 no_error in
  let c := mk_conn none none none none (mk_resp 200 SrcNone 0 0 0 0 [] None no_seen no_error) [] false false false false false false [] accepts in
  mk_loop (set_limits ops lim (bind Head.empty Spill.init empty_headers (make ops l Request))) c Body.released (mk_slots []) None BEmpty []
    false 0 false false 0 false false None i.

Record buffer_sizes_t := mk_sizes { max_header_bytes : Z; head_buffer_bytes : Z; hdr_buffer_bytes : Z; body_buffer_bytes : Z }.

Definition attach_buffers (sz : buffer_sizes_t) s : loop_t L * expected unit :=
  let enomem := Unexpected (system_error ENOMEM) in
  match acquire (max_header_bytes sz) with
  | None => (s, enomem)
  | Some b =>
  let s := match in_ s with Some h => set_in (Head.reset (Some b) h) s | None => s end in
  match acquire (head_buffer_bytes sz) with
  | None => (s, enomem)
  | Some b =>
  let s := set_conn (ServerResponse.set_head (Serializer.reset (Some b) (head_out_ (conn s))) (conn s)) s in
  match acquire (hdr_buffer_bytes sz) with
  | None => (s, enomem)
  | Some b =>
  let s := set_conn (set_hdr (Serializer.reset (Some b) (hdr_out_ (conn s))) (conn s)) s in
  match acquire (body_buffer_bytes sz) with
  | None => (s, enomem)
  | Some b =>
  let s := set_conn (set_bodyo (Serializer.reset (Some b) (body_out_ (conn s))) (conn s)) s in
  match acquire (body_buffer_bytes sz) with
  | None => (s, enomem)
  | Some b => (set_conn (set_stream (Serializer.reset (Some b) (stream_out_ (conn s))) (conn s)) s, Ok tt)
  end end end end end.

(** ** Reading *)

(** [fill]; a longer delivery than the window stays in the socket. *)
Definition fill s : outcome (loop_t L * expected Z) :=
  match in_ s with
  | None => Undefined
  | Some h =>
      let w := Head.writable h in
      if w =? 0 then Ret (s, Unexpected (http_error HeaderTooLarge))
      else match input s with
           | [] => Suspended
           | RecvFailed e :: i => Ret (set_input i s, Unexpected (if fired s then system_error ETIMEDOUT else e))
           | TimedOut :: i => Ret (set_fired (set_input i s), Unexpected (system_error ETIMEDOUT))
           | Received d :: i =>
               let got := take (Z.to_nat w) d in
               let i := match drop (Z.to_nat w) d with [] => i | rest => Received rest :: i end in
               match got with
               | [] => Ret (set_input i s, Ok 0)
               | _ => let+ h := of_option (Head.fill got h) in Ret (set_in h (set_input i s), Ok (size got))
               end
           end
  end.

Definition execute_filled (n : Z) s : outcome (loop_t L * result_t) :=
  match in_ s with
  | None => Undefined
  | Some h => let+ (p, r) := of_option (execute ops (u32 (Head.w_ h - n)) n (parser_ s)) in Ret (set_parser p s, r)
  end.
Definition resume_parser s : outcome (loop_t L * result_t) :=
  let+ (p, r) := of_option (resume ops (parser_ s)) in Ret (set_parser p s, r).

Definition rewind_in s : loop_t L :=
  match in_ s with Some h => set_in (Head.rewind_to (body_window_ s) h) s | None => s end.

(** [prepare_body]. *)
Definition prepare_body (route : option route_t) s : loop_t L * expected unit :=
  let f := facts_ (parser_ s) in
  let policy := match route with Some r => Router.body r | None => PAuto end in
  if negb (chunked_ f || (0 <? content_length_ f)) then
    (set_body_sink false (set_mode BEmpty false true (set_req_body [] (put_body (Body.clear (body_buffer s)) s))), Ok tt)
  else if has_content_length_ f && (max_body opt <? content_length_ f) then (s, Unexpected (http_error BodyTooLarge))
  else
    let aggregate := match policy with
                     | PAggregate => true
                     | PStream => false
                     | PAuto => has_content_length_ f && (content_length_ f <=? aggregate_threshold opt)
                     end in
    if aggregate then
      let '(b, r) := Body.reserve_exact acquire (if has_content_length_ f then content_length_ f else max_body opt) (body_buffer s) in
      let s := put_body b s in
      match r with
      | Unexpected e => (s, Unexpected e)
      | Ok _ => (set_mode BExact false false (set_body_sink true s), Ok tt)
      end
    else
      let '(b, r) := Body.reserve_window acquire (stream_window_bytes opt) (body_buffer s) in
      let s := put_body b s in
      match r with
      | Unexpected e => (s, Unexpected e)
      | Ok _ => (set_req_body [] (set_mode BStream true false (set_body_sink false s)), Ok tt)
      end.

(** [read_body_chunk]. *)
Fixpoint read_body_chunk (fuel : nat) s : outcome (loop_t L * expected bytes) :=
  match fuel with
  | O => Starved
  | S fuel =>
      let pending := pending_body s in
      match pending with
      | _ :: _ => Ret (clear_pending_body s, Ok pending)
      | [] =>
          if body_complete_ s then Ret (s, Ok [])
          else
            let+ (s, r) := resume_parser s in
            match r with
            | BodyPaused => read_body_chunk fuel s
            | MessageReady => Ret (set_complete true s, Ok [])
            | PError => Ret (s, Unexpected (error_ (parser_ s)))
            | NeedMore =>
                asserting (negb (mid_header (parser_ s)))
                (let+ (s, got) := fill (rewind_in s) in
                 match got with
                 | Unexpected e => Ret (s, Unexpected e)
                 | Ok n =>
                     if n =? 0 then Ret (s, Unexpected (system_error ECONNRESET))
                     else
                       let+ (s, r2) := execute_filled n s in
                       match r2 with
                       | PError => Ret (s, Unexpected (error_ (parser_ s)))
                       | MessageReady =>
                           let s := set_complete true s in
                           match pending_body s with
                           | [] => Ret (s, Ok [])
                           | tail => Ret (clear_pending_body s, Ok tail)
                           end
                       | _ => read_body_chunk fuel s
                       end
                 end)
            | _ =>
                let e := error_ (parser_ s) in
                Ret (s, Unexpected (if is_error e then e else http_error InvalidState))
            end
      end
  end.
(** [body_reader_t::read] and [drain]. *)
Definition reader_read (fuel : nat) s : outcome (loop_t L * expected bytes) :=
  let+ (s, r) := read_body_chunk fuel s in
  match r with
  | Ok [] => Ret (set_reader true s, r)
  | _ => Ret (s, r)
  end.

Fixpoint drain (turns fuel : nat) s : outcome (loop_t L * expected unit) :=
  if reader_complete_ s then Ret (s, Ok tt)
  else match turns with
       | O => Starved
       | S turns =>
           let+ (s, r) := read_body_chunk fuel s in
           match r with
           | Unexpected e => Ret (s, Unexpected e)
           | Ok [] => Ret (set_reader true s, Ok tt)
           | Ok _ => drain turns fuel s
           end
       end.

(** ** Dispatch *)

Fixpoint run_prog (fuel : nat) (p : hprog) s : outcome (loop_t L) :=
  match p with
  | HReturn => Ret s
  | HAct f k => let '(c, r) := f (conn s) in run_prog fuel (k r) (set_conn c s)
  | HRead k => let+ (s, r) := reader_read fuel s in run_prog fuel (k r) s
  end.

(** Filters and handler, or a 404.  A websocket route has neither handler:
    calling its empty [std::function] throws. *)
Definition invoke (fuel : nat) s : outcome (loop_t L) :=
  match route_ s with
  | None => Ret (set_conn (not_found (conn s)) s)
  | Some r =>
      let '(c, proceed) := run_filters (filters svc) (request_of s) (conn s) in
      let s := set_conn c s in
      if proceed then
        if is_websocket r then Thrown
        else run_prog fuel (handler svc (Router.target r) (request_of s)) s
      else Ret s
  end.

Definition head_request s : bool := bool_decide (method_ (facts_ (parser_ s)) = Protocol.Head).
Definition refuse (status : Z) s : loop_t L := set_conn (write_error (framing opt) status (head_request s) (conn s)) s.
Definition set_in_body (b : bool) s : loop_t L :=
  set_conn (set_flags b (close_after_flush_ (conn s)) (closing_ (conn s)) (conn s)) s.
Definition plan_close s : loop_t L := set_conn (set_flags (in_body_ (conn s)) true (closing_ (conn s)) (conn s)) s.

(** After the handler: frame, then the next pipelined request or the end of
    the round ([None]). *)
Definition answered (release_body : bool) s : outcome (loop_t L * option result_t) :=
  let '(c, stop) := finish_dispatch (framing opt) (keep_alive_ (facts_ (parser_ s))) (head_request s) (conn s) in
  let s := set_conn c s in
  if stop then Ret (s, None)
  else
    let s := if release_body then put_body (Body.release (body_buffer s)) s else s in
    let s := set_parser (reset ops (parser_ s)) s in
    let s := set_pipelined (u32 (pipelined s + 1)) s in
    if max_pipelined opt <=? pipelined s then Ret (s, None)
    else if has_pending_input (parser_ s) then let+ (s, r) := resume_parser s in Ret (s, Some r)
    else Ret (s, Some NeedMore).

(** ** The cases of the inner loop *)

Definition on_headers_ready (fuel : nat) s : outcome (loop_t L * option result_t) :=
  let p := parser_ s in
  let s := set_route (route_ s) (mk_slots []) (set_reader (reader_complete_ s) (set_req_body [] (set_conn (begin (conn s)) s))) in
  if bool_decide (version_ (facts_ p) = VUnknown) then Ret (refuse 505 s, None)
  else
    let q := request_of s in
    let '(m, ps) := match_ (rq_method q) (rq_path q) (routes_of svc) in
    if negb (is_some (route m)) && method_mismatch m then Ret (refuse 405 (set_route None ps s), None)
    else
      let s := set_route (match route m with Some r => Some r | None => fallback_route svc end) ps s in
      let plain_ws := match route_ s with Some r => is_websocket r && negb (upgrade_ (facts_ p)) | None => false end in
      if plain_ws then Ret (refuse 426 s, None)
      else
        let '(s, r) := prepare_body (route_ s) s in
        match r with
        | Unexpected e => Ret (refuse (status_of e) s, None)
        | Ok _ =>
            let s := set_in_body (negb (body_complete_ s)) (set_window (consumed_offset_ (feedst_ (parser_ s))) s) in
            let s := if expects_continue_ (facts_ p) then set_conn (write_continue (conn s)) s else s in
            if streaming_ s then
              let+ s := invoke fuel (set_reader false s) in
              let+ (s, d) := drain fuel fuel s in
              match d with
              | Unexpected e => Ret (refuse (status_of e) s, None)
              | Ok _ => answered false (set_in_body false s)
              end
            else let+ (s, r) := resume_parser s in Ret (s, Some r)
        end.

Definition on_message_ready (fuel : nat) s : outcome (loop_t L * option result_t) :=
  let s := set_req_body (Body.view (body_buffer s)) s in
  let s := set_in_body false (set_complete true s) in
  let+ s := invoke fuel s in
  answered true s.

(** [reset_round] with its release of the body. *)
Definition reset_loop (c : conn_t) s : loop_t L :=
  let s := set_conn (reset_round c) s in
  if in_body_ (conn s) then s else put_body (Body.release (body_buffer s)) s.

(** [run_websocket] up to the start of the session: its unread bytes. *)
Definition run_websocket (key subprotocol : bytes) s : loop_t L :=
  let '(c, r) := flush (conn s) in
  let s := reset_loop c s in
  match r with
  | Unexpected _ => set_upgraded None s
  | Ok _ =>
      let o := frame_handshake_response key subprotocol (head_out_ (conn s)) in
      let c := ServerResponse.set_head o (conn s) in
      if failed o then set_upgraded None (set_conn c s)
      else
        let '(c, r) := writev_span [view_at (block o) 0 (Serializer.size_ o)] c in
        let s := set_conn (ServerResponse.set_head (Serializer.clear (head_out_ c)) c) s in
        match r, in_ s with
        | Ok _, Some h =>
            let off := consumed_offset_ (feedst_ (parser_ s)) in
            set_upgraded (Some (Head.view h off (u32 (Head.w_ h - off)), subprotocol)) s
        | _, _ => set_upgraded None s
        end
  end.

Definition on_upgrade s : outcome (loop_t L * option result_t) :=
  match route_ s with
  | Some r =>
      if negb (is_websocket r) then Ret (refuse 501 s, None)
      else match validate_request (request_of s) with
           | None => Ret (refuse 400 s, None)
           | Some key =>
               let '(c, proceed) := run_filters (filters svc) (request_of s) (conn s) in
               let s := set_conn c s in
               if negb proceed then Ret (plan_close (set_conn (frame_response (framing opt) (head_request s) true (conn s)) s), None)
               else
                 match (match ws_accept svc (Router.target r) with Some f => Some (f (request_of s)) | None => None end) with
                 | Some a =>
                     if accepted a then Ret (plan_close (run_websocket key (subprotocol a) s), None)
                     else Ret (refuse (refuse_with a) s, None)
                 | None => Ret (plan_close (run_websocket key [] s), None)
                 end
           end
  | None => Ret (refuse 501 s, None)
  end.

Definition turn (fuel : nat) (r : result_t) s : outcome (loop_t L * option result_t) :=
  match r with
  | NeedMore => Ret (s, None)
  | PError => Ret (refuse (status_of (error_ (parser_ s))) s, None)
  | UpgradeReady => on_upgrade s
  | HeadersReady => on_headers_ready fuel s
  | BodyPaused => Ret (refuse 500 s, None)
  | MessageReady => on_message_ready fuel s
  end.

(** The inner loop, until the round is done. *)
Fixpoint turns (n fuel : nat) (r : result_t) s : outcome (loop_t L) :=
  match n with
  | O => Starved
  | S n =>
      let+ (s, next) := turn fuel r s in
      match next with None => Ret s | Some r => turns n fuel r s end
  end.

(** ** The rounds of [run] *)

Definition reclaim s : outcome (loop_t L) :=
  if negb (in_body_ (conn s)) && negb (has_pending_input (parser_ s)) then
    match in_ s with
    | None => Undefined
    | Some h =>
        let h := Head.consume (Head.readable h) h in
        asserting (negb (Head.parsing_ h))
          (let+ (g, _) := of_option (Head.compact (Head.end_message h)) in
           Ret (set_in (if Head.parsing_ h then Head.begin_message g else g) s))
    end
  else Ret s.

Inductive step_t := Again | Leave.

(** One turn of the outer loop. *)
Definition round (n fuel : nat) s : outcome (loop_t L * step_t) :=
  let quiet := negb (has_pending_input (parser_ s)) in
  let rewinds := in_body_ (conn s) && quiet in
  asserting (negb rewinds || negb (mid_header (parser_ s)))
  (let s := if rewinds then rewind_in s else s in
   let+ (s, first) :=
     (if quiet then
        let+ (s, got) := fill s in
        match got with
        | Ok 0 => Ret (s, inr Leave)
        | Ok k => let+ (s, r) := execute_filled k s in Ret (s, inl r)
        | Unexpected e =>
            if code e =? EAGAIN then Ret (s, inr Again)
            else if bool_decide (domain e = DHttp) then
              let '(c, r) := flush (conn (refuse (status_of e) s)) in
              Ret (match r with Ok _ => set_conn c s | Unexpected _ => reset_loop c s end, inr Leave)
            else Ret (s, inr Leave)
        end
      else let+ (s, r) := resume_parser s in Ret (s, inl r)) in
   match first with
   | inr x => Ret (s, x)
   | inl r =>
       let+ s := turns n fuel r s in
       let '(c, w) := flush (conn s) in
       let s := reset_loop c s in
       match w with
       | Unexpected _ => Ret (s, Leave)
       | Ok _ =>
           if close_after_flush_ c then Ret (s, Leave)
           else let+ s := reclaim s in Ret (set_pipelined 0 s, Again)
       end
   end).

(** The loop, [rounds] times at most. *)
Fixpoint run (rounds n fuel : nat) s : outcome (loop_t L) :=
  match rounds with
  | O => Starved
  | S rounds =>
      if closing_ (conn s) || fired s then Ret s
      else
        let+ (s, x) := round n fuel s in
        match x with Leave => Ret s | Again => run rounds n fuel s end
  end.
End Loop.

(** ** A small llhttp

    Requests of the form "METHOD target version CRLF (name: value CRLF)*
    CRLF" without a body, taken byte by byte, with the callbacks and pauses of
    the interface. *)

Module Mini.

Inductive stage := MStart | MMethod | MUrl | MVersion | MLine | MName | MColon | MValue | MLf | MEnd | MDone.

Definition view : ll_view := mk_llv false HTTP_GET 0 1 1 true false 0.
Definition call (c : ll_callback) (pos : Z) (l : stage) (t : ll_run stage) : ll_run stage :=
  LCall c view (fun r => after r pos l t).

(** At [pos], in a run of [n] bytes that started at [start]. *)
Fixpoint go (st : stage) (start n pos : Z) (data : bytes) : ll_run stage :=
  match data with
  | [] =>
      let stop := LReturn HPE_OK None st in
      if n =? 0 then stop
      else match st with
           | MUrl => call (OnUrl start n) pos st stop
           | MName => call (OnHeaderField start n) pos st stop
           | MValue => call (OnHeaderValue start n) pos st stop
           | _ => stop
           end
  | b :: data =>
      let next := pos + 1 in
      match st with
      | MStart => call OnMessageBegin pos st (go MMethod 0 0 next data)
      | MMethod => if b =? 32 then go MUrl next 0 next data else go MMethod 0 0 next data
      | MUrl => if b =? 32 then call (OnUrl start n) pos st (go MVersion 0 0 next data)
                else go MUrl (if n =? 0 then pos else start) (n + 1) next data
      | MVersion => if b =? 10 then go MLine 0 0 next data else go MVersion 0 0 next data
      | MLine => if b =? 13 then go MEnd 0 0 next data else go MName pos 1 next data
      | MName => if b =? 58 then call (OnHeaderField start n) pos st (call OnHeaderFieldComplete pos st (go MColon 0 0 next data))
                 else go MName (if n =? 0 then pos else start) (n + 1) next data
      | MColon => if b =? 32 then go MColon 0 0 next data else go MValue pos 1 next data
      | MValue => if b =? 13 then call (OnHeaderValue start n) pos st (call OnHeaderValueComplete pos st (go MLf 0 0 next data))
                  else go MValue (if n =? 0 then pos else start) (n + 1) next data
      | MLf => go MLine 0 0 next data
      | MEnd => call OnHeadersComplete next MDone (go MDone 0 0 next data)
      | MDone => call OnMessageComplete pos MStart (LReturn HPE_OK None MStart)
      end
  end.

Definition execute (l : stage) (off : Z) (data : bytes) : ll_run stage :=
  match l, data with
  | MDone, [] => call OnMessageComplete off MStart (LReturn HPE_OK None MStart)
  | _, _ => go l 0 0 off data
  end.

Definition ops : llhttp_ops stage :=
  mk_llhttp stage execute (fun l => LReturn HPE_OK None l) (fun l => l) (fun l => l) (fun _ => MStart) (fun _ _ _ l => l) (fun _ => 0).

Lemma go_laws data : forall st start n pos lo hi,
  lo <= pos -> hi = pos + size data -> returns_in lo hi (go st start n pos data) /\ obeys (go st start n pos data).
Proof.
  assert (C : forall c pos l lo hi t, lo <= pos <= hi -> returns_in lo hi t /\ obeys t -> returns_in lo hi (call c pos l t) /\ obeys (call c pos l t)).
  { intros c pos l lo hi t Hp [H1 H2]. split; [by apply after_returns|by apply after_obeys]. }
  induction data as [|b data IH]; intros st start n pos lo hi Hlo Hhi; cbn [go].
  - change (size []) with 0 in Hhi. destruct (n =? 0); [done|]. destruct st; try done; apply C; done || lia.
  - assert (Hs : size (b :: data) = 1 + size data) by (unfold size; simpl; lia). pose proof (size_nonneg data).
    destruct st; repeat case_match; repeat (apply C; [lia|]); done || (apply IH; lia).
Qed.

#[export] Instance laws : llhttp_laws ops.
Proof.
  split; intros l off data; cbn [llhttp_execute ops]; unfold execute;
    (destruct l; try (by apply go_laws with (lo := off) (hi := off + size data)); destruct data as [|b data]).
  all: try (eapply go_laws; done). all: try (apply go_laws with (lo := off) (hi := off + size (b :: data)); done || lia).
  - apply after_returns; [change (size []) with 0; lia|done].
  - by apply after_obeys.
Qed.

End Mini.

(** ** A header section in two pieces *)

Definition blocks (n : Z) : option bytes := Some (replicate (Z.to_nat n) 0).
Definition plain_options : loop_options_t := mk_loop_options (mk_server false false None) 4096 1024 64 32.
Definition echo_target : service_t :=
  mk_service empty_router (Some (mk_route KSync PAuto 0 [])) [] (fun _ q => HAct (fun c => (text (rq_target q) c, Ok tt)) (fun _ => HReturn))
    (fun _ => None).

(** What a connection that receives these pieces answers. *)
Definition answer (ndebug : bool) (i : list recv_t) : outcome bytes :=
  let s := construct Mini.ops default_limits Mini.MStart i 4096 in
  let s := fst (attach_buffers blocks (mk_sizes 64 256 256 64) s) in
  let+ s := run Mini.ops (mk_codes 6 9 7) blocks ndebug plain_options echo_target 4 8 8 s in
  Ret (wire (conn s)).

Definition split_at : bytes := str "GET /a HTTP/1.1" ++ crlf.
Definition split_rest : bytes := str "Host: x" ++ crlf ++ crlf.
Definition echoed (body : String.string) : bytes :=
  str "HTTP/1.1 200 OK" ++ crlf ++ str "Connection: keep-alive" ++ crlf ++ str "Content-Length: 2" ++ crlf ++
  str "Content-Type: text/plain; charset=utf-8" ++ crlf ++ crlf ++ str body.

(** ** A header section in two pieces *)

Section SplitHeader.
Context {L : Type} (ops : llhttp_ops L) `{!llhttp_laws ops} (codes : ll_codes) (acquire : Z -> option bytes) (ndebug : bool) (opt : loop_options_t) (svc : service_t).
Implicit Types s : loop_t L.

(** A connection at the start of a round, with nothing to resume or to write,
    that gets the piece [d]. *)
Record listens s (h : Head.head_buffer_t) (d : bytes) (i : list recv_t) : Prop := {
  ls_in : in_ s = Some h; ls_ok : Head.ok h; ls_input : input s = Received d :: i; ls_fits : 0 < size d <= Head.writable h;
  ls_count : 0 <= consumed_ (feedst_ (parser_ s)) < 2 ^ 32; ls_fed : has_pending_input (parser_ s) = false;
  ls_body : in_body_ (conn s) = false; ls_clear : ServerResponse.pending_ (conn s) = []; ls_stay : close_after_flush_ (conn s) = false
}.

Lemma in_set_in s h h' : in_ s = Some h -> in_ (set_in h' s) = Some h'.
Proof. unfold in_, set_in. simpl. by destruct (store_ (parser_ s)). Qed.

Lemma fill_takes s h d i : in_ s = Some h -> Head.ok h -> input s = Received d :: i -> 0 < size d <= Head.writable h ->
  exists h', fill s = Ret (set_in h' (set_input i s), Ok (size d)) /\ Head.ok h' /\ Head.w_ h' = Head.w_ h + size d /\ Head.view h' (Head.w_ h) (size d) = d.
Proof.
  intros Hi Hok Hin Hs. unfold fill. rewrite Hi, Hin. assert (Hw : Head.writable h = Head.capacity h - Head.w_ h).
  { unfold Head.writable, Head.capacity, Head.block in *. destruct (Head.lease_ h); [done|]. simpl in *. lia. }
  destruct (Z.eqb_spec (Head.writable h) 0); [lia|]. rewrite take_ge, drop_ge by (unfold size in *; lia).
  destruct (head_filled d h Hok ltac:(lia)) as (h' & Hf & _). destruct (Head.fill_spec d h h' Hok Hf) as (Hok' & Hw' & _ & _ & _ & Hv).
  exists h'. split; [|done]. destruct d as [|b d]; [change (size []) with 0 in Hs; lia|]. by rewrite Hf.
Qed.

(** The parser has taken all of the piece and asks for more. *)
Lemma piece_taken s h d i s0 s1 : listens s h d i -> fill s = Ret (s0, Ok (size d)) -> execute_filled ops (size d) s0 = Ret (s1, NeedMore) ->
  conn s1 = conn s /\ input s1 = i /\ has_pending_input (parser_ s1) = false /\ exists h1, in_ s1 = Some h1 /\ Head.ok h1.
Proof.
  intros [Hi Hok Hin Hs Hc Hf Hb Hp Hst] Hfill. destruct (fill_takes s h d i Hi Hok Hin Hs) as (h' & Hfill' & Hok' & Hw' & _).
  rewrite Hfill in Hfill'. injection Hfill' as ->. unfold execute_filled. rewrite (in_set_in (set_input i s) h) by done.
  destruct (store_ (parser_ s)) as [st|] eqn:Est; [|unfold in_ in Hi; by rewrite Est in Hi]. rewrite Hw', Z.add_simpl_r.
  assert (Hh : head_ st = h) by (unfold in_ in Hi; rewrite Est in Hi; congruence). pose proof Hok as (Hr & Hw & Hcap). pose proof Hok' as (Hr' & Hcw' & Hcap').
  unfold set_in at 1. cbn [parser_ set_input]. rewrite Est. cbn [parser_ set_parser]. rewrite u32_small by lia.
  set (p0 := set_store (parser_ s) (Parser.set_head st h')). destruct (execute ops (Head.w_ h) (size d) p0) as [[p1 r]|] eqn:He; [|done]. simpl. intros [= <- ->].
  rewrite (execute_pump ops _ _ p0 (Parser.set_head st h') eq_refl) in He.
  set (q := set_feed p0 _) in He. assert (Hst0 : stands q (Head.w_ h) (Head.w_ h + size d) (consumed_ (feedst_ p0) - Head.w_ h)).
  { constructor; simpl; [done|lia|rewrite Z.sub_add; symmetry; by apply u32_small|]. eexists. split; [done|]. simpl. lia. }
  destruct (pump_fed ops _ _ _ _ _ _ Hst0 He) as (x & y & _ & _ & _ & Hfy & _ & _ & _ & Hend & _). specialize (Hend eq_refl).
  split_and!; [by unfold set_in; simpl; rewrite Est|by unfold set_in; simpl; rewrite Est|unfold has_pending_input; simpl; rewrite Hfy; apply Z.ltb_ge; lia|].
  destruct (pump_keeps ops _ _ _ He (Parser.set_head st h') eq_refl) as (s' & Hs' & A1 & A2 & A3). exists (head_ s'). split; [unfold in_; simpl; by rewrite Hs'|].
  unfold Head.ok, Head.capacity, Head.block in *. simpl in *. by rewrite A1, A2, A3.
Qed.

(** The buffer as [reclaim] leaves it: from its front, whatever was parsed. *)
Definition restarted (h h' : Head.head_buffer_t) : Prop :=
  Head.w_ h' = 0 /\ Head.r_ h' = 0 /\ Head.lease_ h' = Head.lease_ h /\ Head.parsing_ h' = Head.parsing_ h.

Lemma reclaim_restarts s h : in_ s = Some h -> Head.ok h -> in_body_ (conn s) = false -> has_pending_input (parser_ s) = false ->
  if ndebug || negb (Head.parsing_ h) then exists h', reclaim ndebug s = Ret (set_in h' s) /\ restarted h h' else reclaim ndebug s = Undefined.
Proof.
  intros Hi (Hr & Hw & Hc) Hb Hp. unfold reclaim. rewrite Hb, Hp, Hi. cbn [negb andb]. cbv zeta.
  assert (Hg : Head.consume (Head.readable h) h = Head.mk_head (Head.lease_ h) (Head.w_ h) (Head.w_ h) (Head.parsing_ h)).
  { unfold Head.consume, Head.readable. rewrite (u32_small (Head.w_ h - Head.r_ h)) by lia. f_equal. rewrite u32_small by lia. lia. }
  rewrite Hg. cbn [Head.parsing_]. unfold asserting. destruct (ndebug || negb (Head.parsing_ h)); [|done]. unfold Head.compact. cbn [Head.parsing_ Head.end_message Head.r_ Head.w_ Head.lease_].
  destruct (Z.eqb_spec (Head.w_ h) 0) as [Hz|Hz].
  - cbn [of_option bind_out]. eexists. split; [done|]. unfold restarted. by destruct (Head.parsing_ h).
  - rewrite Z.sub_diag. cbn [of_option bind_out]. eexists. split; [done|]. unfold restarted. by destruct (Head.parsing_ h).
Qed.

(** The round that takes the piece and asks for more. *)
Lemma round_restarts n fuel s h d i s0 s1 h1 : listens s h d i -> fill s = Ret (s0, Ok (size d)) -> execute_filled ops (size d) s0 = Ret (s1, NeedMore) -> in_ s1 = Some h1 ->
  if ndebug || negb (Head.parsing_ h1)
  then exists s2 h2, round ops codes acquire ndebug opt svc (S n) fuel s = Ret (s2, Again) /\ in_ s2 = Some h2 /\ restarted h1 h2 /\ input s2 = i /\
    target_ (parser_ s2) = target_ (parser_ s1) /\ facts_ (parser_ s2) = facts_ (parser_ s1) /\ headers_ <$> store_ (parser_ s2) = headers_ <$> store_ (parser_ s1)
  else round ops codes acquire ndebug opt svc (S n) fuel s = Undefined.
Proof.
  intros Hl Hfill He Hi1. destruct (piece_taken _ _ _ _ _ _ Hl Hfill He) as (Hc1 & Hin1 & Hp1 & h1' & Hi1' & Hok1). rewrite Hi1 in Hi1'. injection Hi1' as <-.
  destruct Hl as [Hi Hok Hin Hs Hc Hf Hb Hpd Hst]. set (s1' := reset_loop (conn s1) s1).
  assert (Hr : in_ s1' = Some h1 /\ in_body_ (conn s1') = false /\ has_pending_input (parser_ s1') = false).
  { unfold s1', reset_loop. rewrite Hc1. simpl. rewrite Hb. simpl. done. }
  destruct Hr as (R1 & R2 & R3). pose proof (reclaim_restarts s1' h1 R1 Hok1 R2 R3) as Hrec.
  assert (Hround : round ops codes acquire ndebug opt svc (S n) fuel s = let+ s := reclaim ndebug s1' in Ret (set_pipelined 0 s, Again)).
  { unfold round. rewrite Hf, Hb. cbn [negb andb]. unfold asserting at 1. rewrite orb_true_r. rewrite Hfill. cbn [bind_out].
    destruct (size d) as [|k|k] eqn:Hd; [lia| |lia]. rewrite He. cbn [bind_out turns turn]. unfold flush. rewrite Hc1, Hpd. cbv beta iota zeta. fold s1'. rewrite <- Hc1. fold s1'.
    by rewrite Hc1, Hst. }
  rewrite Hround. destruct (ndebug || negb (Head.parsing_ h1)); [|by rewrite Hrec].
  destruct Hrec as (h2 & Hrec & Hh2). rewrite Hrec. cbn [bind_out]. eexists _, h2. split; [done|]. split; [|split; [done|]].
  - change (in_ (set_pipelined 0 (set_in h2 s1'))) with (in_ (set_in h2 s1')). by eapply in_set_in.
  - unfold set_in. destruct (store_ (parser_ s1')) as [st|] eqn:Est; [|unfold in_ in R1; by rewrite Est in R1].
    unfold s1', reset_loop in *. rewrite Hc1 in *. simpl in *. rewrite Hb in *. simpl in *. rewrite Est. split; [exact Hin1|]. repeat split.
Qed.

(** The piece after it lands on the front of the buffer, under the offsets that
    were recorded. *)
Lemma next_overwrites s2 h1 h2 d2 i2 : in_ s2 = Some h2 -> restarted h1 h2 -> Head.capacity h1 < 2 ^ 32 -> input s2 = Received d2 :: i2 -> 0 < size d2 <= Head.capacity h1 ->
  exists s3 h3, fill s2 = Ret (s3, Ok (size d2)) /\ in_ s3 = Some h3 /\ target_ (parser_ s3) = target_ (parser_ s2) /\ headers_ <$> store_ (parser_ s3) = headers_ <$> store_ (parser_ s2) /\
    forall off len, 0 <= off -> 0 <= len -> off + len <= size d2 -> Head.view h3 off len = view_at d2 off len.
Proof.
  intros Hi (Hw & Hr & Hl & _) Hc Hin Hs. assert (Hcap : Head.capacity h2 = Head.capacity h1) by (unfold Head.capacity, Head.block; by rewrite Hl).
  assert (Hok : Head.ok h2) by (unfold Head.ok; rewrite Hw, Hr, Hcap; lia).
  destruct (fill_takes s2 h2 d2 i2 Hi Hok Hin) as (h3 & Hf & _ & _ & Hv).
  { assert (Head.writable h2 = Head.capacity h2) as ->; [|lia]. unfold Head.writable, Head.capacity, Head.block. rewrite Hw. destruct (Head.lease_ h2); [apply Z.sub_0_r|done]. }
  exists (set_in h3 (set_input i2 s2)), h3. split; [done|]. split; [by eapply in_set_in|]. unfold set_in. cbn [parser_ set_input].
  destruct (store_ (parser_ s2)) as [st|] eqn:Est; [|unfold in_ in Hi; by rewrite Est in Hi]. split; [done|]. split; [done|].
  rewrite Hw in Hv. unfold Head.view in *. intros off len Ho Hn Hb. rewrite <- Hv. unfold view_at, substr. rewrite skipn_firstn_comm, take_take. f_equal. unfold size in *. lia.
Qed.
End SplitHeader.

(** C40: Whatever llhttp, options, routes and service: when a connection that
    waits for a request reads a piece of its header section, with which a
    message has begun but its headers are not complete, the round ends by
    reclaiming the receive buffer (no body is being read), although a message
    is being parsed.  With assertions enabled that aborts the process.
    Otherwise the buffer starts again from its front while the parser keeps the
    offsets it recorded, and the next piece is read over the first: every
    offset below its size, that of the target for one, now shows the second
    piece. *)
Theorem split_header_overwritten {L} (ops : llhttp_ops L) {Hll : llhttp_laws ops} codes acquire (ndebug : bool) opt svc n fuel (s : loop_t L) h d i s0 s1 h1 :
  listens s h d i -> fill s = Ret (s0, Ok (size d)) -> execute_filled ops (size d) s0 = Ret (s1, NeedMore) -> in_ s1 = Some h1 -> Head.parsing_ h1 = true ->
  if ndebug
  then exists s2 h2, round ops codes acquire ndebug opt svc (S n) fuel s = Ret (s2, Again) /\ in_ s2 = Some h2 /\ restarted h1 h2 /\
    target_ (parser_ s2) = target_ (parser_ s1) /\ headers_ <$> store_ (parser_ s2) = headers_ <$> store_ (parser_ s1) /\
    forall d2 i2, i = Received d2 :: i2 -> 0 < size d2 <= Head.capacity h1 ->
      exists s3 h3, fill s2 = Ret (s3, Ok (size d2)) /\ in_ s3 = Some h3 /\
        target_ (parser_ s3) = target_ (parser_ s1) /\ headers_ <$> store_ (parser_ s3) = headers_ <$> store_ (parser_ s1) /\
        forall off len, 0 <= off -> 0 <= len -> off + len <= size d2 -> Head.view h3 off len = view_at d2 off len
  else round ops codes acquire ndebug opt svc (S n) fuel s = Undefined.
Proof.
  intros Hl Hfill He Hi1 Hp. pose proof (round_restarts ops codes acquire ndebug opt svc n fuel _ _ _ _ _ _ _ Hl Hfill He Hi1) as Hr.
  destruct (piece_taken ops _ _ _ _ _ _ Hl Hfill He) as (_ & _ & _ & h1' & Hi1' & (_ & _ & Hcap)). rewrite Hi1 in Hi1'. injection Hi1' as <-.
  rewrite Hp in Hr. cbn [negb] in Hr. rewrite orb_false_r in Hr. destruct ndebug; [|done].
  destruct Hr as (s2 & h2 & Hr & Hi2 & Hh2 & Hin2 & Ht & _ & Hh). exists s2, h2. split_and!; try done.
  intros d2 i2 -> Hd2. destruct (next_overwrites s2 h1 h2 d2 i2 Hi2 Hh2 Hcap Hin2 Hd2) as (s3 & h3 & Hf & Hi3 & Ht3 & Hh3 & Hv). exists s3, h3. split_and!; try done; congruence.
Qed.

(** A request whose first line comes alone: a connection that has just been set
    up. *)
Definition split_loop : loop_t Mini.stage :=
  fst (attach_buffers blocks (mk_sizes 64 256 256 64) (construct Mini.ops default_limits Mini.MStart [Received split_at; Received split_rest] 4096)).

Definition split_filled : loop_t Mini.stage := match fill split_loop with Ret (s, _) => s | _ => split_loop end.
Definition split_fed : loop_t Mini.stage := match execute_filled Mini.ops (size split_at) split_filled with Ret (s, _) => s | _ => split_filled end.

Lemma split_header_overwritten_witness :
  exists s2 s3 h3, round Mini.ops (mk_codes 6 9 7) blocks true plain_options echo_target 8 8 split_loop = Ret (s2, Again) /\ fill s2 = Ret (s3, Ok 11) /\ in_ s3 = Some h3 /\
    target_ (parser_ s3) = mk_target 4 2 false /\ Head.view h3 4 2 = str ": ".
Proof.
  assert (Hfill : fill split_loop = Ret (split_filled, Ok (size split_at))) by (vm_compute; reflexivity).
  assert (He : execute_filled Mini.ops (size split_at) split_filled = Ret (split_fed, NeedMore)) by (vm_compute; reflexivity).
  destruct (in_ split_fed) as [h1|] eqn:Hi; [|vm_compute in Hi; discriminate Hi].
  assert (Hp : Head.parsing_ h1 = true /\ Head.capacity h1 = 64) by (vm_compute in Hi; injection Hi as <-; split; reflexivity).
  assert (Hl : listens split_loop (Head.mk_head (blocks 64) 0 0 false) split_at [Received split_rest]).
  { constructor; try (vm_compute; reflexivity); vm_compute; repeat split; discriminate. }
  destruct (split_header_overwritten Mini.ops (Hll := Mini.laws) (mk_codes 6 9 7) blocks true plain_options echo_target 7 8 split_loop _ _ _ _ _ _ Hl Hfill He Hi (proj1 Hp)) as (s2 & h2 & Hr & _ & _ & _ & _ & Hn).
  destruct (Hn split_rest [] eq_refl ltac:(rewrite (proj2 Hp); vm_compute; split; [reflexivity|discriminate])) as (s3 & h3 & Hf & Hi3 & Ht & _ & Hv).
  exists s2, s3, h3. split; [exact Hr|]. split; [exact Hf|]. split; [exact Hi3|]. split; [rewrite Ht; reflexivity|].
  rewrite Hv; [reflexivity|lia|lia|vm_compute; discriminate].
Defined.

(** The request read in one piece is answered for its target; read in two it is
    answered for bytes of the second piece, or aborts. *)
Example split_header_answered :
  answer true [Received (split_at ++ split_rest); Received []] = Ret (echoed "/a") /\
  answer true [Received split_at; Received split_rest; Received []] = Ret (echoed ": ") /\
  answer false [Received split_at; Received split_rest; Received []] = Undefined.
Proof. vm_compute. repeat split. Qed.

(** ** An upgrade request with a body *)

Section UpgradeWithBody.
Context {L : Type} (ops : llhttp_ops L) (codes : ll_codes) (acquire : Z -> option bytes) (ndebug : bool) (opt : loop_options_t) (svc : service_t).

Lemma invoke_websocket fuel (s : loop_t L) r :
  route_ s = Some r -> is_websocket r = true -> (forall q c, (run_filters (filters svc) q c).2 = true) -> invoke ops ndebug svc fuel s = Thrown.
Proof.
  intros Hr Hw Hf. unfold invoke. rewrite Hr, Hw. specialize (Hf (request_of s) (conn s)).
  destruct (run_filters _ _ _) as [c go]. simpl in Hf. by subst go.
Qed.

(** a request that asks a websocket route for the upgrade and carries a
    body never reaches the upgrade: the loop takes the body first and
    dispatches the request as a plain one, calling the route's empty handler.
    The exception leaves the connection loop, both when the body is streamed
    (here: chunked) and when it was aggregated. *)
Theorem upgrade_with_body_throws fuel (s : loop_t L) r m ps :
  let f := facts_ (parser_ s) in
  is_websocket r = true -> (forall q c, (run_filters (filters svc) q c).2 = true) ->
  (route_ s = Some r -> on_message_ready ops ndebug opt svc fuel s = Thrown) /\
  (version_ f <> VUnknown -> upgrade_ f = true -> chunked_ f = true -> has_content_length_ f = false ->
   Router.body r <> PAggregate -> (Body.reserve_window acquire (stream_window_bytes opt) (body_buffer s)).2 = Ok tt ->
   match_ (method_ f) (path (Parser.target (parser_ s))) (routes_of svc) = (m, ps) -> route m = Some r ->
   on_headers_ready ops codes acquire ndebug opt svc fuel s = Thrown).
Proof.
  intros f Hw Hf. split.
  - intros Hr. unfold on_message_ready. by rewrite invoke_websocket with (r := r).
  - intros Hv Hu Hc Hl Hb Hres Hm Hrt. unfold on_headers_ready. rewrite bool_decide_false by done.
    cbn [request_of rq_method rq_path parser_ set_route set_reader set_req_body set_conn]. fold f. rewrite Hm, Hrt. cbn [is_some negb andb].
    unfold set_route at 1; cbn [route_]. rewrite Hw, Hu. cbn [negb andb].
    match goal with |- context[prepare_body acquire opt _ ?x] => set (s1 := x) end.
    assert (E : (prepare_body acquire opt (route_ s1) s1).2 = Ok tt /\ streaming_ (prepare_body acquire opt (route_ s1) s1).1 = true /\
                route_ (prepare_body acquire opt (route_ s1) s1).1 = Some r).
    { unfold prepare_body. replace (facts_ (parser_ s1)) with f by done. rewrite Hc, Hl. cbn [orb negb andb]. replace (route_ s1) with (Some r) by done.
      replace (body_buffer s1) with (body_buffer s) by done.
      destruct (Body.reserve_window _ _ _) as [b rr]. cbn [snd] in Hres. subst rr. destruct (Router.body r); done. }
    destruct (prepare_body acquire opt (route_ s1) s1) as [s2 rr]. cbn [fst snd] in E. destruct E as (-> & Hs & Hr2).
    destruct (expects_continue_ _); cbn [streaming_ set_conn set_in_body set_window]; rewrite Hs; by rewrite invoke_websocket with (r := r).
Qed.
End UpgradeWithBody.

(** The state at the end of the header section of "GET /ws", chunked and
    asking for the upgrade. *)
Definition upgrade_loop : loop_t Mini.stage :=
  let h := Head.mk_head (Some (str "/ws" ++ [0; 0])) 0 3 true in
  set_parser (mk_parser Mini.MDone Request default_limits MUnknown (Some (mk_store h Spill.init empty_headers)) no_pend (mk_target 0 3 false)
    (mk_facts Get Http11 0 false 0 true true true false) no_signals (mk_bodyt None None 0) (mk_feed (Some (3, 3)) 3 3 false) no_error)
    (construct Mini.ops default_limits Mini.MDone [] 4096).
Definition ws_route : route_t := mk_route KWebSocket PAuto 0 [].
Definition ws_service : service_t :=
  mk_service (default empty_router (add Get (str "/ws") ws_route empty_router)) None [] (fun _ _ => HReturn) (fun _ => None).

Lemma upgrade_with_body_throws_witness :
  on_headers_ready Mini.ops (mk_codes 6 9 7) blocks true plain_options ws_service 8 upgrade_loop = Thrown /\
  on_message_ready Mini.ops true plain_options ws_service 8 (set_route (Some ws_route) (mk_slots []) upgrade_loop) = Thrown.
Proof.
  split.
  - destruct (match_ Get (str "/ws") (routes_of ws_service)) as [m ps] eqn:Em.
    refine (proj2 (upgrade_with_body_throws Mini.ops (mk_codes 6 9 7) blocks true plain_options ws_service 8 upgrade_loop ws_route m ps eq_refl _)
      _ _ _ _ _ _ Em _); try done.
    apply (f_equal (fun x => route (fst x))) in Em. rewrite <- (Em : _ = route m). vm_compute. reflexivity.
  - by apply (proj1 (upgrade_with_body_throws Mini.ops (mk_codes 6 9 7) blocks true plain_options ws_service 8 _ ws_route (mk_match None false) (mk_slots []) eq_refl (fun _ _ => eq_refl))).
Defined.
