(* ===== verification/ServerBody.v ===== *)
(** * Request bodies on the server

    What the connection loop promises a handler about the body: a streamed
    one is handed over run by run, without disturbing the
    headers; an aggregated one fits the block reserved for it. *)

From stdpp Require Import prelude gmap list list_numbers strings.
From Stdlib Require Import ZArith Lia.
From S2P Require Import Prelude Protocol Buffer Serializer HeadLines Headers Parser ParserFeed Transport ParserBody Router ServerResponse Handshake ServerLoop.
Open Scope Z_scope.

(** ** The receive buffer during a body *)

Section Stream.
Context {L : Type} (ops : llhttp_ops L) `{!body_laws ops} (ndebug : bool).
Implicit Types s : loop_t L.

(** [s'] is [s] with another receive buffer and input. *)
Definition refilled s s' (h : Head.head_buffer_t) : Prop :=
  exists st i, store_ (parser_ s) = Some st /\ s' = set_parser (set_store (parser_ s) (Parser.set_head st h)) (set_input i s) /\
    (supply i < supply (input s))%nat.

Lemma loop_fill_spec s h :
  in_ s = Some h -> Head.ok h ->
  match fill s with
  | Ret (s', Ok n) => (n = 0 /\ parser_ s' = parser_ s /\ body_window_ s' = body_window_ s) \/ exists h', refilled s s' h' /\ filled h h' n /\ 0 < n
  | Ret (s', Unexpected _) => parser_ s' = parser_ s /\ body_window_ s' = body_window_ s
  | Suspended => True
  | _ => False
  end.
Proof.
  intros Hin Hok. unfold fill. rewrite Hin. pose proof Hok as (H1 & H2 & H3). unfold in_ in Hin.
  destruct (store_ (parser_ s)) as [st|] eqn:Est; [|done]. injection Hin as <-.
  destruct (Z.eqb_spec (Head.writable (head_ st)) 0) as [|Hw]; [done|]. destruct (input s) as [|[d|e|] i] eqn:Ei; try done.
  assert (Hcap : Head.writable (head_ st) = Head.capacity (head_ st) - Head.w_ (head_ st) /\ 0 < Head.writable (head_ st)).
  { unfold Head.writable, Head.capacity, Head.block in *. destruct (Head.lease_ (head_ st)); simpl in *; lia. }
  set (k := Z.to_nat (Head.writable (head_ st))) in *. destruct (take k d) as [|x got] eqn:Eg; [by left|].
  rewrite <- Eg. destruct (head_filled (take k d) (head_ st) Hok) as (h' & Ef & F).
  { unfold size. rewrite length_take. subst k. lia. }
  rewrite Ef. cbn [of_option bind_out]. right. exists h'. split; [|split; [done|unfold size; rewrite Eg; simpl; lia]].
  unfold set_in. cbn [parser_ set_input]. rewrite Est. exists st. eexists. split; [done|]. split; [done|]. rewrite Ei. simpl.
  assert (length (take k d) + length (drop k d) = length d)%nat by (rewrite <- length_app; by rewrite take_drop).
  destruct (drop k d) as [|y r] eqn:Ed; simpl in *; [lia|]. rewrite Eg in *. simpl in *. lia.
Qed.
(** A run the parser paused on: nonempty, inside the receive buffer. *)
Definition run_ready (p : parser_t L) : Prop :=
  match body_run_ (body_ p), store_ p with
  | None, _ => True
  | Some (a, n), Some st => 0 <= a /\ 0 < n /\ a + n <= Head.capacity (head_ st)
  | _, _ => False
  end.

(** Inside a streamed body. *)
Record reading s : Prop := {
  re_plain : plain (parser_ s);
  re_window : exists end_, windowed (parser_ s) end_;
  re_mid : body_complete_ s = false -> mid_body (state_ (parser_ s));
  re_head : exists h, in_ s = Some h /\ Head.ok h /\ 0 <= body_window_ s <= Head.w_ h;
  re_run : run_ready (parser_ s);
  re_count : 0 <= body_received_ (body_ (parser_ s)) < 2 ^ 64
}.

Definition received s : Z := body_received_ (body_ (parser_ s)).
Definition owed s : Z := size (pending_body s).

(** The header section below the window is untouched. *)
Definition kept s s' : Prop :=
  body_window_ s' = body_window_ s /\
  exists h h', in_ s = Some h /\ in_ s' = Some h' /\ Head.capacity h' = Head.capacity h /\
    forall o n, 0 <= o -> 0 <= n -> o + n <= body_window_ s -> Head.view h' o n = Head.view h o n.

Lemma kept_refl s : reading s -> kept s s.
Proof. intros [_ _ _ (h & Hh & _) _ _]. split; [done|]. by exists h, h. Qed.

Lemma kept_trans s1 s2 s3 : kept s1 s2 -> kept s2 s3 -> kept s1 s3.
Proof.
  intros (E1 & h1 & h2 & A1 & A2 & A3 & A4) (E2 & h2' & h3 & B1 & B2 & B3 & B4). rewrite A2 in B1. injection B1 as <-.
  split; [congruence|]. exists h1, h3. split_and!; try done; [congruence|]. intros. rewrite B4, A4 by (rewrite ?E1; lia). done.
Qed.

Lemma same_head_in s p' : same_head (parser_ s) p' -> forall h, in_ s = Some h ->
  exists h', in_ (set_parser p' s) = Some h' /\ Head.block h' = Head.block h /\ Head.w_ h' = Head.w_ h /\ Head.r_ h' = Head.r_ h.
Proof.
  intros H h. unfold in_. cbn [parser_ set_parser]. destruct (store_ (parser_ s)) as [st|] eqn:E; [|done]. intros [= <-].
  destruct (H st E) as (st' & -> & ? & ? & ?). eauto.
Qed.

(** After a call of llhttp the loop is still inside the body. *)
Lemma step_kept s p' : reading s -> same_head (parser_ s) p' -> kept s (set_parser p' s) /\
  exists h', in_ (set_parser p' s) = Some h' /\ Head.ok h' /\ 0 <= body_window_ s <= Head.w_ h'.
Proof.
  intros [P W M (h & Hh & Hok & Hw) R _] SH. destruct (same_head_in s p' SH h Hh) as (h' & Hh' & B1 & B2 & B3). split.
  - split; [done|]. exists h, h'. split_and!; try done; [unfold Head.capacity; by rewrite B1|]. intros. unfold Head.view. by rewrite B1.
  - exists h'. split; [done|]. unfold Head.ok, Head.capacity in *. by rewrite B1, B2, B3.
Qed.

Lemma step_more s p' end_ :
  reading s -> plain p' -> windowed p' end_ -> same_head (parser_ s) p' -> answers_body ops (parser_ s) p' end_ NeedMore ->
  body_run_ (body_ (parser_ s)) = None ->
  reading (set_parser p' s) /\ received (set_parser p' s) = received s /\ body_run_ (body_ p') = None.
Proof.
  intros Hs P' W' SH [A1 A2] Hn. destruct (step_kept s p' Hs SH) as [_ Hh]. split.
  - constructor; cbn [parser_ set_parser body_complete_ body_window_]; eauto; [unfold run_ready; by rewrite A1, Hn|rewrite A1; apply (re_count _ Hs)].
  - unfold received. cbn [parser_ set_parser]. rewrite A1. done.
Qed.

Lemma step_run s p' end_ :
  reading s -> plain p' -> windowed p' end_ -> same_head (parser_ s) p' -> answers_body ops (parser_ s) p' end_ BodyPaused ->
  reading (set_parser p' s) /\ 0 < owed (set_parser p' s) /\ received (set_parser p' s) = u64 (received s + owed (set_parser p' s)).
Proof.
  intros Hs P' W' SH (Hm & a & n & Eb & Ha & Hn & Han). destruct (step_kept s p' Hs SH) as [_ Hh].
  pose proof W' as [_ (st & Est & Hcap) _].
  assert (Eo : owed (set_parser p' s) = n).
  { unfold owed, pending_body, in_. cbn [parser_ set_parser]. rewrite Est, Eb. cbn [body_run_]. unfold Head.view.
    apply size_view_at; unfold Head.capacity in *; lia. }
  split; [|split; [by rewrite Eo|]].
  - constructor; cbn [parser_ set_parser body_complete_ body_window_]; eauto; [unfold run_ready; rewrite Eb, Est; cbn [body_run_]; lia|rewrite Eb; apply u64_range].
  - rewrite Eo. unfold received. cbn [parser_ set_parser]. by rewrite Eb.
Qed.

Lemma reading_pump s : reading s -> body_complete_ s = false -> body_run_ (body_ (parser_ s)) = None ->
  exists p' r end_, pump ops (parser_ s) = Some (p', r) /\ plain p' /\ windowed p' end_ /\ same_head (parser_ s) p' /\ answers_body ops (parser_ s) p' end_ r.
Proof.
  intros [P [e W] M _ _ _] Hc Hn. destruct (pump_body ops (parser_ s) e P W (M Hc) Hn) as (p' & r & ?). by exists p', r, e.
Qed.
(** Changing the receive buffer below the parser. *)
Lemma plain_head (p : parser_t L) st h : plain p -> store_ p = Some st -> plain (set_store p (Parser.set_head st h)).
Proof. intros [H1 H2 H3 H3' H4] Hs. constructor; simpl; eauto. Qed.

Lemma rewind_reading s : reading s -> body_run_ (body_ (parser_ s)) = None ->
  reading (rewind_in s) /\ kept s (rewind_in s) /\ received (rewind_in s) = received s /\ body_run_ (body_ (parser_ (rewind_in s))) = None /\
  input (rewind_in s) = input s /\ body_complete_ (rewind_in s) = body_complete_ s /\ mid_header (parser_ (rewind_in s)) = mid_header (parser_ s).
Proof.
  intros [P [e [W1 (st & W2 & W3) W4]] M (h & Hh & Hok & Hw) R C] Hn. unfold rewind_in. rewrite Hh. unfold in_ in Hh. rewrite W2 in Hh. injection Hh as <-.
  unfold set_in. rewrite W2. set (s' := set_parser _ s). assert (Hin : in_ s' = Some (Head.rewind_to (body_window_ s) (head_ st))) by done.
  assert (Hok' : Head.ok (Head.rewind_to (body_window_ s) (head_ st))).
  { destruct Hok as (? & ? & ?). unfold Head.ok, Head.capacity, Head.block in *. simpl. lia. }
  split_and!; try done.
  - constructor; [by apply plain_head|exists e; constructor; simpl; eauto|done|exists (Head.rewind_to (body_window_ s) (head_ st)); simpl; split_and!; done || lia| |done].
    unfold run_ready. simpl. by rewrite Hn.
  - split; [done|]. exists (head_ st). eexists. split; [unfold in_; by rewrite W2|]. split; [exact Hin|done].
Qed.

Lemma refill_reading s s' h h' n :
  reading s -> body_run_ (body_ (parser_ s)) = None -> in_ s = Some h -> refilled s s' h' -> filled h h' n -> 0 < n ->
  reading s' /\ kept s s' /\ received s' = received s /\ body_run_ (body_ (parser_ s')) = None /\ (supply (input s') < supply (input s))%nat /\
  body_complete_ s' = body_complete_ s /\ in_ s' = Some h'.
Proof.
  intros [P [e [W1 (st & W2 & W3) W4]] M (h0 & Hh & Hok & Hw) R C] Hn Hin (st' & i & Hst & -> & Hi) [F1 F2 F3 F4] Hpos.
  rewrite W2 in Hst. injection Hst as <-. rewrite Hin in Hh. injection Hh as <-. unfold in_ in Hin. rewrite W2 in Hin. injection Hin as <-.
  split_and!; try done.
  - constructor; [by apply plain_head|exists e; constructor; simpl; eauto; eexists; split; [done|]; simpl; by rewrite F3|done
      |exists h'; simpl; split_and!; done || lia| |done]. unfold run_ready. simpl. by rewrite Hn.
  - split; [done|]. exists (head_ st), h'. split; [unfold in_; by rewrite W2|]. split; [done|]. split; [done|]. intros. apply F4; lia.
Qed.

Lemma execute_reading s h n :
  reading s -> body_complete_ s = false -> body_run_ (body_ (parser_ s)) = None -> in_ s = Some h -> 0 < n <= Head.w_ h ->
  exists p' r end_, execute_filled ops n s = Ret (set_parser p' s, r) /\ plain p' /\ windowed p' end_ /\ same_head (parser_ s) p' /\
    answers_body ops (parser_ s) p' end_ r.
Proof.
  intros [P [e [W1 (st & W2 & W3) W4]] M (h0 & Hh & Hok & Hw) R C] Hc Hn Hin Hb. rewrite Hin in Hh. injection Hh as <-.
  pose proof Hok as (? & ? & ?). unfold execute_filled. rewrite Hin. rewrite u32_small by lia. unfold execute. rewrite W2.
  set (p0 := set_feed (parser_ s) _). assert (P0 : plain p0) by (by destruct P; constructor).
  unfold in_ in Hin. rewrite W2 in Hin. injection Hin as <-.
  assert (W0 : windowed p0 (Head.w_ (head_ st) - n + n)) by (constructor; simpl; [eexists; split; [done|lia]|exists st; split; [done|lia]|lia]).
  destruct (pump_body ops p0 _ P0 W0 (M Hc) Hn) as (p' & r & -> & X1 & X2 & X3 & X4). simpl. exists p', r. eexists. split; [done|]. done.
Qed.

Lemma plain_not_mid (p : parser_t L) : plain p -> mid_header p = false.
Proof. intros [_ [H1 H2] _ _ _]. unfold mid_header. rewrite H2, H1. done. Qed.
Lemma owed_none s : body_run_ (body_ (parser_ s)) = None -> owed s = 0.
Proof. intros H. unfold owed, pending_body. rewrite H. by destruct (in_ s). Qed.

Lemma not_owed s : reading s -> pending_body s = [] -> body_run_ (body_ (parser_ s)) = None.
Proof.
  intros [P _ _ _ R _] Hp. unfold pending_body, run_ready, in_ in *. destruct (body_run_ _) as [[a n]|]; [|done].
  destruct (store_ (parser_ s)) as [st|]; [|done]. exfalso. apply (f_equal size) in Hp. unfold Head.view in Hp.
  rewrite size_view_at in Hp by (unfold Head.capacity in *; lia). unfold size in Hp. simpl in Hp. lia.
Qed.

(** A pending run is handed over at once. *)
Lemma hand_over s d : reading s -> pending_body s = d ->
  reading (clear_pending_body s) /\ kept s (clear_pending_body s) /\ owed (clear_pending_body s) = 0 /\ received (clear_pending_body s) = received s.
Proof.
  intros [P [e [W1 W2 W3]] M (h & Hh & Hok & Hw) R C] Hd. split_and!; try done.
  - constructor; [by destruct P; constructor|by exists e; constructor|done|by exists h|done|done].
  - split; [done|]. by exists h, h.
  - by apply owed_none.
Qed.

(** What a read promises. *)
Definition read_promise s (fuel : nat) (x : outcome (loop_t L * expected bytes)) : Prop :=
  match x with
  | Ret (s', Ok d) => reading s' /\ kept s s' /\ owed s' = 0 /\ received s' = u64 (received s + size d - owed s) /\
      (d = [] -> body_complete_ s' = true) /\ (supply (input s') <= supply (input s))%nat
  | Ret (s', Unexpected _) => kept s s'
  | Suspended => True
  | Thrown | Undefined => False
  | Starved => (fuel < supply (input s) + 2)%nat
  end.

Lemma step_done s p' end_ n :
  reading s -> plain p' -> windowed p' end_ -> same_head (parser_ s) p' -> answers_body ops (parser_ s) p' end_ MessageReady ->
  body_run_ (body_ (parser_ s)) = None ->
  pending_body (set_complete true (set_parser p' s)) = [] /\ read_promise s n (Ret (set_complete true (set_parser p' s), Ok [])).
Proof.
  intros Hs P' W' SH A Hn. simpl in A. destruct (step_kept s p' Hs SH) as [K (h & Hh & Hok & Hw)].
  assert (Hr : body_run_ (body_ p') = None) by (by rewrite A). pose proof (re_count _ Hs).
  split. { unfold pending_body. cbn [parser_ set_complete set_mode set_parser]. rewrite Hr. by destruct (in_ _). }
  split_and!; [|exact K|by apply (owed_none (set_complete true (set_parser p' s)))| |done|done].
  - constructor; cbn [parser_ set_complete set_mode set_parser]; eauto; [done|unfold run_ready; by rewrite Hr|by rewrite A].
  - rewrite (owed_none s Hn). unfold received. cbn [parser_ set_complete set_mode set_parser]. rewrite A, Z.add_0_r, Z.sub_0_r. symmetry. by apply u64_small.
Qed.

Lemma read_done s : reading s -> owed s = 0 -> forall n, read_promise s n (Ret (set_complete true s, Ok [])).
Proof.
  intros [P W M (h & Hh & Hok & Hw) R C] Ho n. split_and!; try done.
  - constructor; [done|done|done|by exists h|done|done].
  - split; [done|]. by exists h, h.
  - rewrite Ho. symmetry. unfold received. rewrite Z.add_0_r, Z.sub_0_r. by apply u64_small.
Qed.

Lemma read_pending fuel n s : reading s -> 0 < owed s -> read_promise s n (read_body_chunk ops ndebug (S fuel) s).
Proof.
  intros Hs Ho. cbn [read_body_chunk]. unfold owed in Ho. destruct (pending_body s) as [|x d] eqn:Ep; [unfold size in Ho; simpl in Ho; lia|].
  destruct (hand_over s _ Hs Ep) as (H1 & H2 & H3 & H4). split_and!; try done. rewrite H4. unfold owed. rewrite Ep.
  pose proof (re_count _ Hs). replace (received s + size (x :: d) - size (x :: d)) with (received s) by lia. symmetry. by apply u64_small.
Qed.

Lemma promise_trans s s1 n m x :
  kept s s1 -> owed s = 0 -> received s1 = u64 (received s + owed s1) -> (m < supply (input s1) + 2 -> n < supply (input s) + 2)%nat ->
  (supply (input s1) <= supply (input s))%nat -> read_promise s1 m x -> read_promise s n x.
Proof.
  intros K Ho Hr Hf Hle. destruct x as [[s' [d|e]]| | | |]; simpl; try done; [|intros K'; by eapply kept_trans].
  intros (H1 & H2 & H3 & H4 & H5 & H6). split_and!; try done; [by eapply kept_trans| |lia]. rewrite H4, Hr, Ho. unfold u64.
  rewrite <- (Zminus_mod_idemp_l (_ + size d)), Zplus_mod_idemp_l, Zminus_mod_idemp_l. f_equal. lia.
Qed.

(** One turn of the loop that finds nothing pending. *)
Lemma read_refill fuel s :
  (forall s, reading s -> read_promise s fuel (read_body_chunk ops ndebug fuel s)) ->
  reading s -> body_complete_ s = false -> body_run_ (body_ (parser_ s)) = None ->
  read_promise s (S fuel)
    (let+ (s, got) := fill (rewind_in s) in
     match got with
     | Unexpected e => Ret (s, Unexpected e)
     | Ok n =>
         if n =? 0 then Ret (s, Unexpected (system_error ECONNRESET))
         else
           let+ (s, r2) := execute_filled ops n s in
           match r2 with
           | PError => Ret (s, Unexpected (error_ (parser_ s)))
           | MessageReady =>
               let s := set_complete true s in
               match pending_body s with [] => Ret (s, Ok []) | tail => Ret (clear_pending_body s, Ok tail) end
           | _ => read_body_chunk ops ndebug fuel s
           end
     end).
Proof.
  intros IH Hs Hc Hn. pose proof (owed_none s Hn) as Ho.
  destruct (rewind_reading s Hs Hn) as (R0 & K0 & C0 & N0 & I0 & B0 & _). set (s0 := rewind_in s) in *.
  destruct (re_head _ R0) as (h & Hh & Hok & _). pose proof (loop_fill_spec s0 h Hh Hok) as F.
  destruct (fill s0) as [[s1 [n|err]]| | | |]; try done; cbn [bind_out].
  2: { destruct F as [F1 F2]. eapply kept_trans; [exact K0|]. split; [done|]. exists h, h. unfold in_ in *. by rewrite F1. }
  destruct (Z.eqb_spec n 0) as [->|Hn0].
  { destruct F as [(_ & F1 & F2)|(? & _ & _ & ?)]; [|lia]. eapply kept_trans; [exact K0|]. split; [done|]. exists h, h. unfold in_ in *. by rewrite F1. }
  destruct F as [[? _]|(h' & RF & FI & Hpos)]; [done|].
  destruct (refill_reading s0 s1 h h' n R0 N0 Hh RF FI Hpos) as (R1 & K1 & C1 & N1 & I1 & B1 & Hh1).
  assert (Hw1 : 0 < n <= Head.w_ h') by (rewrite (fi_w _ _ _ FI); destruct Hok as (? & ? & ?); lia).
  destruct (execute_reading s1 h' n R1 ltac:(congruence) N1 Hh1 Hw1) as (p' & r & e & -> & P' & W' & SH & A). cbn [bind_out].
  destruct (step_kept s1 p' R1 SH) as [K2 _]. pose proof (kept_trans _ _ _ K0 (kept_trans _ _ _ K1 K2)) as K.
  assert (Hsup : forall m, (m < supply (input s1) + 2 -> S m < supply (input s) + 2)%nat) by (rewrite <- I0; lia).
  destruct r; try done.
  - destruct (step_more s1 p' e R1 P' W' SH A N1) as (R2 & C2 & N2).
    eapply promise_trans; [exact K|done| |apply Hsup|cbn; rewrite <- I0; lia|apply IH, R2]. rewrite (owed_none (set_parser p' s1) N2), C2, C1, C0, Z.add_0_r. symmetry. apply u64_small, (re_count _ Hs).
  - destruct (step_done s1 p' e (S fuel) R1 P' W' SH A N1) as [Hp Hd]. cbv zeta. rewrite Hp.
    eapply (promise_trans s s1 _ (S fuel)); [exact (kept_trans _ _ _ K0 K1)|done| | | |exact Hd].
    + rewrite (owed_none s1 N1), C1, C0, Z.add_0_r. symmetry. apply u64_small, (re_count _ Hs).
    + rewrite <- I0. lia.
    + rewrite <- I0. lia.
  - destruct (step_run s1 p' e R1 P' W' SH A) as (R2 & O2 & C2).
    eapply promise_trans; [exact K|done| |apply Hsup|cbn; rewrite <- I0; lia|apply IH, R2]. by rewrite C2, C1, C0.
Qed.

Lemma read_spec fuel : forall s, reading s -> read_promise s fuel (read_body_chunk ops ndebug fuel s).
Proof.
  induction fuel as [|fuel IH]; intros s Hs; [simpl; lia|].
  destruct (pending_body s) as [|x d] eqn:Ep.
  2: { apply read_pending; [done|]. unfold owed. rewrite Ep. unfold size. simpl. lia. }
  pose proof (not_owed s Hs Ep) as Hn. pose proof (owed_none s Hn) as Ho.
  cbn [read_body_chunk]. rewrite Ep. destruct (body_complete_ s) eqn:Hc.
  { replace s with (set_complete true s) at 2; [by apply read_done|]. unfold set_complete, set_mode. rewrite <- Hc. by destruct s. }
  destruct (reading_pump s Hs Hc Hn) as (p' & r & e & Epump & P' & W' & SH & A).
  unfold resume_parser, resume. destruct (pn_store _ (re_plain _ Hs)) as (st & Hst). rewrite Hst, Epump. cbn [of_option bind_out].
  destruct (step_kept s p' Hs SH) as [K _]. destruct r; try done.
  - destruct (step_more s p' e Hs P' W' SH A Hn) as (R2 & C2 & N2). unfold asserting. assert (mid_header (parser_ (set_parser p' s)) = false) as -> by (by apply plain_not_mid). rewrite orb_true_r.
    eapply (promise_trans s (set_parser p' s) _ (S fuel)); [exact K|done| |done|done|apply read_refill; done].
    rewrite (owed_none (set_parser p' s) N2), C2, Z.add_0_r. symmetry. apply u64_small, (re_count _ Hs).
  - by apply (step_done s p' e (S fuel) Hs P' W' SH A Hn).
  - destruct (step_run s p' e Hs P' W' SH A) as (R2 & O2 & C2). destruct fuel as [|fuel]; [simpl; lia|].
    eapply (promise_trans s (set_parser p' s) _ (S (S fuel))); [exact K|done|done|done|done|by apply read_pending].
Qed.
(** A handler that reads at most [n] times, to the end or an error. *)
Fixpoint read_all (n fuel : nat) s : outcome (loop_t L * list bytes * option error_t) :=
  match n with
  | O => Ret (s, [], None)
  | S n =>
      let+ (s, r) := reader_read ops ndebug fuel s in
      match r with
      | Unexpected e => Ret (s, [], Some e)
      | Ok [] => Ret (s, [], None)
      | Ok d => let+ (s, ds, e) := read_all n fuel s in Ret (s, d :: ds, e)
      end
  end.

Lemma set_reader_reading b s : reading s -> reading (set_reader b s) /\ kept s (set_reader b s).
Proof. intros Hs. pose proof (kept_refl s Hs) as K. destruct Hs. split; [by constructor|exact K]. Qed.

Lemma read_all_spec n fuel : forall s,
  reading s -> owed s = 0 -> (supply (input s) + 2 <= fuel)%nat ->
  match read_all n fuel s with
  | Ret (s', ds, e) => kept s s' /\
      (e = None -> received s' = u64 (received s + size (concat ds)) /\ ((length ds < n)%nat -> body_complete_ s' = true))
  | Suspended => True
  | _ => False
  end.
Proof.
  induction n as [|n IH]; intros s Hs Ho Hf; cbn [read_all].
  { split; [by apply kept_refl|]. intros _. cbn. rewrite Z.add_0_r. split; [|lia]. symmetry. apply u64_small, (re_count _ Hs). }
  unfold reader_read. pose proof (read_spec fuel s Hs) as R. destruct (read_body_chunk ops ndebug fuel s) as [[s1 [d|e]]| | | |]; cbn [bind_out] in *; try done; [|simpl in R; lia].
  destruct R as (R1 & K1 & O1 & C1 & D1 & L1). rewrite Ho, Z.sub_0_r in C1. destruct d as [|x d]; cbn [bind_out].
  { split; [exact K1|]. intros _. split; [exact C1|]. intros _. by apply D1. }
  specialize (IH s1 R1 O1 ltac:(lia)). destruct (read_all n fuel s1) as [[[s2 ds] e]| | | |]; cbn [bind_out]; try done.
  destruct IH as [K2 IH]. split; [by eapply kept_trans|]. intros He. destruct (IH He) as [C2 D2]. split.
  - rewrite C2, C1. cbn [concat]. rewrite size_app. unfold u64. rewrite Zplus_mod_idemp_l. f_equal. lia.
  - simpl. intros Hl. apply D2. lia.
Qed.
End Stream.

(** C10: the runs of a streamed request body reach the handler and leave
    the headers alone. From the moment the headers are ready, whatever
    pieces the transport delivers and however llhttp splits the body into
    runs, a handler that keeps reading is never blocked except on the
    transport (enough fuel: two more turns than there are bytes and
    deliveries to come), gets runs whose sizes add up to exactly the body
    bytes the parser counted, sees the end only when the message is complete,
    and throughout, every header view below the body window still shows the
    bytes it showed. *)
Theorem server_body_stream_exact {L} (ops : llhttp_ops L) {Hl : body_laws ops} ndebug n fuel s :
  reading ops s -> owed s = 0 -> (supply (input s) + 2 <= fuel)%nat ->
  match read_all ops ndebug n fuel s with
  | Ret (s', ds, e) => kept s s' /\
      (e = None -> received s' = u64 (received s + size (concat ds)) /\ ((length ds < n)%nat -> body_complete_ s' = true))
  | Suspended => True
  | _ => False
  end.
Proof. apply read_all_spec. Qed.

(** ** Choosing how to take a body *)

Definition announced (opt : loop_options_t) (f : facts_t) : Z := if has_content_length_ f then content_length_ f else max_body opt.

Section Prepare.
Context {L : Type} (acquire : Z -> option bytes) (opt : loop_options_t).
Hypothesis acquire_enough : forall n d, acquire n = Some d -> n <= size d < 2 ^ 32.
Implicit Types s : loop_t L.

Lemma body_buffer_put b s : body_buffer (put_body b s) = b.
Proof. unfold body_buffer, put_body, sink. cbn. by destruct (body_sink_ (body_ (parser_ s))). Qed.

Lemma sink_attached b s : sink (set_body_sink true (put_body b s)) = Some b.
Proof. unfold set_body_sink. by rewrite body_buffer_put. Qed.

Lemma reserve_exact_spec n b0 b :
  0 <= n -> Body.reserve_exact acquire n b0 = (b, Ok tt) -> Body.ok b /\ Body.view b = [] /\ Body.cap_ b = n.
Proof.
  intros Hn. unfold Body.reserve_exact. destruct (Z.eqb_spec n 0) as [->|]; [by intros [= <-]|].
  destruct (Z.ltb_spec 0xffffffff n) as [|Hlt]; [done|]. rewrite u32_small by lia.
  destruct (acquire n) as [d|] eqn:E; [|done]. intros [= <-]. pose proof (acquire_enough _ _ E).
  split; [unfold Body.ok, Body.block; simpl; lia|done].
Qed.

Lemma prepare_aggregate route s s' :
  0 <= content_length_ (facts_ (parser_ s)) -> 0 <= max_body opt ->
  prepare_body acquire opt route s = (s', Ok tt) -> body_mode_ s' = BExact ->
  exists b, sink s' = Some b /\ Body.ok b /\ Body.view b = [] /\ Body.cap_ b = announced opt (facts_ (parser_ s)) /\
    announced opt (facts_ (parser_ s)) <= max_body opt /\ streaming_ s' = false /\ body_complete_ s' = false.
Proof.
  intros Hcl Hmax. unfold prepare_body. set (f := facts_ (parser_ s)) in *. destruct (negb _); [by intros [= <-]|].
  destruct (has_content_length_ f && (max_body opt <? content_length_ f)) eqn:Ebig; [done|].
  set (aggregate := match _ with PAuto => _ | PAggregate => true | PStream => false end). destruct aggregate.
  - fold (announced opt f). destruct (Body.reserve_exact acquire (announced opt f) (body_buffer s)) as [b [[]|e]] eqn:Er; [|done].
    assert (Hann : 0 <= announced opt f <= max_body opt).
    { unfold announced. destruct (has_content_length_ f); [|lia]. simpl in Ebig. apply Z.ltb_ge in Ebig. lia. }
    destruct (reserve_exact_spec _ _ _ (proj1 Hann) Er) as (O & V & C). intros [= <-] _. exists b.
    split_and!; try done; [|lia]. exact (sink_attached b s).
  - destruct (Body.reserve_window acquire (stream_window_bytes opt) (body_buffer s)) as [b [[]|e]]; [|done]. by intros [= <-].
Qed.
End Prepare.

(** C36: an aggregated body fits the block reserved for it when its headers
    arrived. Whatever the route's policy, if the connection decides to
    aggregate, the sink it gives the parser is empty and its capacity is
    exactly the announced length (the configured maximum for a chunked body),
    never more than the maximum. Any runs appended to it afterwards (none so
    long that it wraps the 32-bit sum of the room check) stay inside the block
    and leave every byte at or above the capacity as it was; runs that add up
    to at most the announced length are all taken and come out as one
    contiguous body equal to their concatenation; otherwise the first run
    that does not fit is refused with OutputOverflow, the capacity is
    unchanged and the body holds exactly the runs before it. *)
Theorem server_aggregate_exact {L} (acquire : Z -> option bytes) opt route (s s' : loop_t L) :
  (forall n d, acquire n = Some d -> n <= size d < 2 ^ 32) ->
  0 <= content_length_ (facts_ (parser_ s)) -> 0 <= max_body opt ->
  prepare_body acquire opt route s = (s', Ok tt) -> body_mode_ s' = BExact ->
  let cap := announced opt (facts_ (parser_ s)) in
  cap <= max_body opt /\
  exists b, sink s' = Some b /\ Body.cap_ b = cap /\ Body.view b = [] /\ cap <= size (Body.block b) /\
    forall runs, Forall (fun r => cap + size r < 2 ^ 32) runs ->
    exists b' r, Body.append_all runs b = Some (b', r) /\ Body.cap_ b' = cap /\
      drop (Z.to_nat cap) (Body.block b') = drop (Z.to_nat cap) (Body.block b) /\
      if size (concat runs) <=? cap then r = Ok tt /\ Body.view b' = concat runs
      else r = Unexpected (http_error OutputOverflow) /\
           exists n, (n < length runs)%nat /\ Body.view b' = concat (take n runs) /\ cap < size (concat (take (S n) runs)).
Proof.
  intros Hacq Hcl Hmax Hp Hm. destruct (prepare_aggregate acquire opt Hacq route s s' Hcl Hmax Hp Hm) as (b & Hs & Ho & Hv & Hc & Hle & _).
  cbn zeta. rewrite <- Hc in *. split; [done|]. exists b. split_and!; try done; [apply Ho|]. intros runs Hr.
  destruct (Body.append_all_exact runs b Ho Hr) as (b' & r & Ha & _ & H1 & H2 & H3). rewrite Hv in H3. eauto 10.
Qed.

(** ** Witnesses *)

(** An llhttp in the middle of a body of known length. *)
Module MiniBody.

Definition execute (l : nat) (off : Z) (data : bytes) : ll_run nat :=
  match l, data with
  | O, _ => LCall OnMessageComplete Mini.view (fun r => after r off O (LReturn HPE_OK None O))
  | _, [] => LReturn HPE_OK None l
  | _, _ =>
      let n := Nat.min l (length data) in
      LCall (OnBody off (Z.of_nat n)) Mini.view (fun r => after r (off + Z.of_nat n) (l - n)%nat (LReturn HPE_OK None (l - n)%nat))
  end.

Definition ops : llhttp_ops nat :=
  mk_llhttp nat execute (fun l => LReturn HPE_OK None l) (fun l => l) (fun l => l) (fun _ => O) (fun _ _ _ l => l) (fun _ => 0).

#[export] Instance laws : body_laws ops.
Proof.
  refine (Build_body_laws _ ops (fun _ => True) _ _); [|done]. intros l off data _. cbn [llhttp_execute ops]. unfold execute.
  pose proof (size_nonneg data). destruct l as [|l]; [|destruct data as [|x d]; [done|]].
  - simpl. split; [eexists _, _; split; [done|]; split; [lia|done]|]. split; [by eexists _, _, _|done].
  - set (n := Nat.min (S l) (length (x :: d))). assert (0 < n <= length (x :: d))%nat by (subst n; simpl; lia).
    assert (Z.of_nat n <= size (x :: d)) by (unfold size; lia).
    split; [eexists _, _; split; [done|]; split; [lia|done]|]. split; [by eexists _, _, _|]. split; [lia|done].
Defined.

(** Four bytes of header section, two of a body of six, room for two more. *)
Definition head : Head.head_buffer_t := Head.mk_head (Some (str "HDR:ab" ++ [0; 0])) 0 6 true.
Definition parser : parser_t nat :=
  mk_parser 6%nat Request default_limits MUnknown (Some (mk_store head Spill.init empty_headers)) no_pend no_target
    (mk_facts Post Http11 0 true 6 false true false false) no_signals (mk_bodyt None None 0) (mk_feed (Some (4, 6)) 4 4 false) no_error.
Definition loop : loop_t nat :=
  set_mode BStream true false (set_window 4 (set_parser parser (construct ops default_limits 6%nat [Received (str "cdef")] 0))).

Lemma loop_reading : reading ops loop.
Proof.
  constructor.
  - constructor; try done. by eexists.
  - exists 6. constructor; [by exists 4|eexists; split; [done|vm_compute; congruence]|done].
  - intros _. exact I.
  - exists head. split; [done|]. split; [vm_compute; repeat split; congruence|vm_compute; split; congruence].
  - exact I.
  - vm_compute. split; congruence.
Qed.

End MiniBody.

Lemma server_body_stream_exact_witness :
  exists s', read_all MiniBody.ops false 9 7 MiniBody.loop = Ret (s', [str "ab"; str "cdef"], None) /\
    kept MiniBody.loop s' /\ received s' = 6 /\ body_complete_ s' = true.
Proof.
  pose proof (server_body_stream_exact MiniBody.ops false 9 7 MiniBody.loop MiniBody.loop_reading eq_refl ltac:(vm_compute; lia)) as H.
  assert (Hds : match read_all MiniBody.ops false 9 7 MiniBody.loop with
    Ret (_, ds, e) => ds = [str "ab"; str "cdef"] /\ e = None | _ => False end) by (vm_compute; split; reflexivity).
  destruct (read_all MiniBody.ops false 9 7 MiniBody.loop) as [[[s' ds] e]| | | |]; try done. destruct Hds as [-> ->]. exists s'.
  destruct H as [K H]. destruct (H eq_refl) as [C D]. split; [done|]. split; [exact K|]. split; [rewrite C; reflexivity|].
  apply D. simpl. lia.
Defined.

Lemma server_aggregate_exact_witness :
  exists s' b b' b2, prepare_body blocks plain_options None MiniBody.loop = (s', Ok tt) /\ sink s' = Some b /\ Body.cap_ b = 6 /\
    Body.append_all [str "ab"; str "cdef"] b = Some (b', Ok tt) /\ Body.view b' = str "abcdef" /\
    Body.append_all [str "ab"; str "cdefg"] b = Some (b2, Unexpected (http_error OutputOverflow)) /\ Body.view b2 = str "ab".
Proof.
  assert (Hacq : forall n d, (if (0 <=? n) && (n <? 100) then blocks n else None) = Some d -> n <= size d < 2 ^ 32).
  { intros n d. destruct (Z.leb_spec 0 n), (Z.ltb_spec n 100); simpl; try done. intros [= <-]. unfold size. rewrite length_replicate. lia. }
  set (acq := fun n => if (0 <=? n) && (n <? 100) then blocks n else None) in *.
  assert (Hp : (prepare_body acq plain_options None MiniBody.loop).2 = Ok tt /\ body_mode_ (prepare_body acq plain_options None MiniBody.loop).1 = BExact)
    by (vm_compute; split; reflexivity).
  assert (Heq : prepare_body blocks plain_options None MiniBody.loop = prepare_body acq plain_options None MiniBody.loop) by (vm_compute; reflexivity).
  rewrite Heq. destruct (prepare_body acq plain_options None MiniBody.loop) as [s' r] eqn:E. destruct Hp as [Hr Hm]. cbn [fst snd] in Hr, Hm. subst r.
  destruct (server_aggregate_exact acq plain_options None MiniBody.loop s' Hacq ltac:(vm_compute; congruence)
    ltac:(vm_compute; congruence) E Hm) as (_ & b & Hb & Hc & _ & _ & Hfit).
  destruct (Hfit [str "ab"; str "cdef"]) as (b' & r & H1 & _ & _ & H2); [repeat constructor|].
  change (size (concat [str "ab"; str "cdef"]) <=? _) with true in H2. destruct H2 as [-> H2].
  destruct (Hfit [str "ab"; str "cdefg"]) as (b2 & r & H3 & _ & _ & H4); [repeat constructor|].
  change (size (concat [str "ab"; str "cdefg"]) <=? _) with false in H4. destruct H4 as [-> (n & Hn & Hv & Hover)].
  exists s', b, b', b2. split_and!; try done. destruct n as [|[|n]]; [vm_compute in Hover; congruence|done|simpl in Hn; lia].
Defined.
