(* ===== verification/ServerLife.v ===== *)
(** * The life of a server

    [server_t] of src/include/cornet/http/server/server.h and
    src/http/server/server.cc: accepting, the connections as children of a
    scope, draining and stopping.  Everything runs on the owner thread; a step
    is what happens between two suspension points.  Connections are named by
    numbers; what a connection does while it is served is one step here (its
    own model is in ServerLoop), which ends normally or by an exception of the
    handler, past the book-keeping of [serve_connection]. *)

From stdpp Require Import prelude gmap list fin_maps.
From Stdlib Require Import ZArith Lia.
From S2P Require Import Prelude Counting.
Open Scope Z_scope.

(** ** State *)

Inductive server_state_t := Running | Draining | Stopped.
#[global] Instance server_state_eq_dec : EqDecision server_state_t.
Proof. solve_decision. Defined.

(** The coroutine [serve_connection]: queued, in the TLS handshake, in
    [conn.run] (and whether it was asked to close), ended, ended by an exception
    that left [conn.run]. *)
Inductive conn_pc := Spawned | Handshaking | Serving (asked : bool) | Over | Thrown.
Definition serving (p : conn_pc) : bool := match p with Serving _ => true | _ => false end.
Definition thrown (p : conn_pc) : bool := match p with Thrown => true | _ => false end.
Definition alive (p : conn_pc) : bool := match p with Over | Thrown => false | _ => true end.

(** The coroutine [serve]: not called, waiting in accept, in the pause after an
    exhaustion of descriptors, waiting for the scope, returned. *)
Inductive serve_pc := NotServing | Accepting | BackingOff | Joining | Returned.
#[global] Instance serve_pc_eq_dec : EqDecision serve_pc.
Proof. solve_decision. Defined.

(** [closed]: the descriptors closed by the server itself.  [dangling]: a call
    was made through a pointer of [active_] to a destroyed connection. *)
Record server_t := mk_server {
  state_ : server_state_t; conns_ : Z; active_ : list Z; listener_ : bool; serve_at : serve_pc; kids : gmap Z conn_pc;
  closed : list Z; tls_handshake_errors : Z; scope_cancelled : bool; dangling : bool
}.
Implicit Types s : server_t.

Definition with_serve (p : serve_pc) s := mk_server (state_ s) (conns_ s) (active_ s) (listener_ s) p (kids s) (closed s) (tls_handshake_errors s) (scope_cancelled s) (dangling s).
Definition with_state (x : server_state_t) s := mk_server x (conns_ s) (active_ s) (listener_ s) (serve_at s) (kids s) (closed s) (tls_handshake_errors s) (scope_cancelled s) (dangling s).
Definition with_kid (k : Z) (p : conn_pc) s := mk_server (state_ s) (conns_ s) (active_ s) (listener_ s) (serve_at s) (<[k := p]> (kids s)) (closed s) (tls_handshake_errors s) (scope_cancelled s) (dangling s).
Definition with_closed (fd : Z) s := mk_server (state_ s) (conns_ s) (active_ s) (listener_ s) (serve_at s) (kids s) (closed s ++ [fd]) (tls_handshake_errors s) (scope_cancelled s) (dangling s).

(** A server that listens. *)
Definition new_server : server_t := mk_server Stopped 0 [] true NotServing ∅ [] 0 false false.

(** [server_options_t]: the limit on connections, whether TLS is configured. *)
Record options_t := mk_options { max_connections : Z; tls : bool }.

Section Server.
Variable opt : options_t.

(** ** Accepting *)

Definition ECANCELED : Z := 125.
Definition EBADF : Z := 9.
Definition EINVAL : Z := 22.
Definition EMFILE : Z := 24.
Definition ENFILE : Z := 23.
Definition ENOBUFS : Z := 105.
Definition ENOMEM : Z := 12.

Definition fd_exhausted (err : Z) : bool := (err =? EMFILE) || (err =? ENFILE) || (err =? ENOBUFS) || (err =? ENOMEM).

(** [while (state_ == state_t::Running)] *)
Definition loop_test s : server_t := with_serve (if decide (state_ s = Running) then Accepting else Joining) s.

Definition serve s : server_t :=
  if listener_ s then loop_test (with_state Running s) else with_serve Returned s.

(** [k] is the accepted descriptor and names the connection. *)
Definition accepted (k : Z) s : server_t :=
  if negb (bool_decide (state_ s = Running)) then with_serve Joining (with_closed k s)
  else if max_connections opt <=? conns_ s then loop_test (with_closed k s)
  else loop_test (with_kid k Spawned s).

Definition accept_failed (err : Z) s : server_t :=
  if (err =? ECANCELED) || (err =? EBADF) || (err =? EINVAL) then with_serve Joining s
  else if fd_exhausted err then with_serve BackingOff s
  else loop_test s.

(** ** A connection *)

Definition enter (k : Z) s : server_t :=
  mk_server (state_ s) (u32 (conns_ s + 1)) (active_ s ++ [k]) (listener_ s) (serve_at s) (<[k := Serving false]> (kids s)) (closed s) (tls_handshake_errors s) (scope_cancelled s) (dangling s).

Definition conn_start (k : Z) s : server_t := if tls opt then with_kid k Handshaking s else enter k s.

Definition handshake_done (ok : bool) (k : Z) s : server_t :=
  if ok then enter k s
  else mk_server (state_ s) (conns_ s) (active_ s) (listener_ s) (serve_at s) (<[k := Over]> (kids s)) (closed s ++ [k]) (tls_handshake_errors s + 1) (scope_cancelled s) (dangling s).

(** [std::find] and [erase] *)
Fixpoint erase_first (k : Z) (l : list Z) : list Z := match l with [] => [] | x :: l => if x =? k then l else x :: erase_first k l end.

Definition conn_end (k : Z) s : server_t :=
  mk_server (state_ s) (u32 (conns_ s - 1)) (erase_first k (active_ s)) (listener_ s) (serve_at s) (<[k := Over]> (kids s)) (closed s) (tls_handshake_errors s) (scope_cancelled s) (dangling s).

(** An exception leaves [conn.run]: [serve_connection] has no handler, so the
    connection is destroyed with its frame and the lines behind the await are
    skipped; the scope records the failure and cancels itself. *)
Definition conn_throw (k : Z) s : server_t :=
  mk_server (state_ s) (conns_ s) (active_ s) (listener_ s) (serve_at s) (<[k := Thrown]> (kids s)) (closed s) (tls_handshake_errors s) true (dangling s).

(** ** Winding down *)

Definition ask (p : conn_pc) : conn_pc := match p with Serving _ => Serving true | p => p end.
(** [conn->request_close()] of every connection in [active_]. *)
Definition ask_all (l : list Z) (m : gmap Z conn_pc) : gmap Z conn_pc := map_imap (fun k p => Some (if bool_decide (k ∈ l) then ask p else p)) m.

Definition drain s : server_t :=
  if negb (bool_decide (state_ s = Running)) then s
  else mk_server Draining (conns_ s) (active_ s) false (serve_at s) (ask_all (active_ s) (kids s)) (closed s) (tls_handshake_errors s) (scope_cancelled s)
         (dangling s || existsb (fun k => match kids s !! k with Some Thrown => true | _ => false end) (active_ s)).

Definition stop s : server_t :=
  let s := drain s in
  mk_server Stopped (conns_ s) (active_ s) (listener_ s) (serve_at s) (kids s) (closed s) (tls_handshake_errors s)
    (match serve_at s with NotServing => scope_cancelled s | _ => true end) (dangling s).

(** The scope resumes [serve] when its last child has ended. *)
Definition joined s : server_t := with_serve Returned (with_state Stopped s).

(** ** Any use

    [serve] is called once.  The descriptors of connections are fresh. *)
Inductive step : server_t -> server_t -> Prop :=
| st_serve s : serve_at s = NotServing -> step s (serve s)
| st_accept s k : serve_at s = Accepting -> kids s !! k = None -> step s (accepted k s)
| st_fail s e : serve_at s = Accepting -> step s (accept_failed e s)
| st_resume s : serve_at s = BackingOff -> step s (loop_test s)
| st_start s k : kids s !! k = Some Spawned -> step s (conn_start k s)
| st_handshake s k ok : kids s !! k = Some Handshaking -> step s (handshake_done ok k s)
| st_end s k b : kids s !! k = Some (Serving b) -> step s (conn_end k s)
| st_throw s k b : kids s !! k = Some (Serving b) -> step s (conn_throw k s)
| st_drain s : step s (drain s)
| st_stop s : step s (stop s)
| st_join s : serve_at s = Joining -> count_if alive (kids s) = O -> step s (joined s).

(** The connections [conns_] counts: those that entered and did not leave. *)
Definition counted (p : conn_pc) : bool := serving p || thrown p.

Inductive reach : server_t -> Prop :=
| reach_new : reach new_server
| reach_step s s' : reach s -> step s s' -> Z.of_nat (count_if counted (kids s')) < 2 ^ 32 -> reach s'.

(** ** What holds *)

Record life_ok s : Prop := {
  l_conns : conns_ s = Z.of_nat (count_if counted (kids s));
  l_nodup : NoDup (active_ s);
  l_active : forall k, k ∈ active_ s <-> exists p, kids s !! k = Some p /\ counted p = true;
  l_over : serve_at s = Returned -> count_if alive (kids s) = O;
  l_none : serve_at s = NotServing -> kids s = ∅;
  l_dangling : dangling s = true -> exists k, kids s !! k = Some Thrown
}.

Lemma erase_first_spec k l : NoDup l -> NoDup (erase_first k l) /\ forall x, x ∈ erase_first k l <-> x ∈ l /\ x <> k.
Proof.
  induction 1 as [|y l Hy Hl [IH1 IH2]]; simpl; [split; [constructor|]; intros x; rewrite elem_of_nil; tauto|].
  destruct (Z.eqb_spec y k) as [->|Hn].
  - split; [done|]. intros x. rewrite elem_of_cons. split; [|naive_solver]. intros Hx. split; [by right|]. by intros ->.
  - split.
    + constructor; [|done]. rewrite IH2. tauto.
    + intros x. rewrite !elem_of_cons, IH2. naive_solver.
Qed.

Lemma ask_all_lookup l m k : ask_all l m !! k = (fun p => if bool_decide (k ∈ l) then ask p else p) <$> m !! k.
Proof. unfold ask_all. rewrite map_lookup_imap. by destruct (m !! k). Qed.

Lemma ask_counted p : counted (ask p) = counted p /\ alive (ask p) = alive p.
Proof. by destruct p. Qed.

(** Two disjoint kinds are counted apart. *)
Lemma counted_split (m : gmap Z conn_pc) : count_if counted m = (count_if serving m + count_if thrown m)%nat.
Proof.
  induction m as [|k p m Hk IH] using map_ind; [by rewrite !count_empty|]. rewrite !count_insert by done. destruct p; simpl; lia.
Qed.

(** Counting is blind to being asked. *)
Lemma ask_all_count (P : conn_pc -> bool) l m : (forall p, P (ask p) = P p) -> count_if P (ask_all l m) = count_if P m.
Proof.
  intros HP. unfold ask_all. induction m as [|k p m Hk IH] using map_ind; [by rewrite map_imap_empty|].
  rewrite map_imap_insert. rewrite !count_insert; [|done|by rewrite map_lookup_imap, Hk].
  rewrite IH. case_bool_decide; by rewrite ?HP.
Qed.

(** A step that leaves the connections alone. *)
Lemma life_same s s' :
  life_ok s -> conns_ s' = conns_ s -> active_ s' = active_ s -> kids s' = kids s -> dangling s' = dangling s ->
  (serve_at s' = Returned -> serve_at s = Returned \/ count_if alive (kids s) = O) -> (serve_at s' = NotServing -> serve_at s = NotServing) -> life_ok s'.
Proof.
  intros [A B C D F G] H1 H2 H3 H6 H4 H5. constructor; rewrite ?H1, ?H2, ?H3, ?H6; try done; [|auto]. intros [HR|HR]%H4; auto.
Qed.

Lemma dangling_kept (m : gmap Z conn_pc) k p q : m !! k = p -> p <> Some Thrown -> (exists x, m !! x = Some Thrown) -> exists x, <[k := q]> m !! x = Some Thrown.
Proof. intros Hk Hp [x Hx]. exists x. rewrite lookup_insert_ne; [done|]. intros ->. congruence. Qed.

(** One connection moves from [p] to [q], neither of them counted. *)
Lemma life_kid s k p s' :
  life_ok s -> kids s' = <[k := p]> (kids s) -> conns_ s' = conns_ s -> active_ s' = active_ s -> dangling s' = dangling s -> counted p = false ->
  (forall q, kids s !! k = Some q -> counted q = false) -> serve_at s' <> Returned -> serve_at s' <> NotServing -> life_ok s'.
Proof.
  intros [A B C D F G] H1 H2 H3 H4 Hp Hk HR HN. constructor; rewrite ?H1, ?H2, ?H3, ?H4; try done.
  - rewrite A. f_equal. destruct (kids s !! k) as [q|] eqn:Hq.
    + symmetry. apply count_same with q; [done|]. by rewrite Hp, (Hk q).
    + by rewrite count_insert, Hp.
  - intros x. rewrite C. destruct (decide (x = k)) as [->|Hx]; [|by rewrite lookup_insert_ne by done]. rewrite lookup_insert_eq.
    split; [intros (q & Hq & Hc); by rewrite (Hk q Hq) in Hc|]. intros (q & [= <-] & Hc). congruence.
  - intros Hd%G. eapply dangling_kept; [reflexivity| |done]. intros Hq. by specialize (Hk _ Hq).
Qed.

Lemma life_busy s k p : life_ok s -> kids s !! k = Some p -> alive p = true -> serve_at s <> Returned /\ serve_at s <> NotServing.
Proof.
  intros H Hk Hp. split.
  - intros HR%(l_over s H). pose proof (count_pos alive (kids s) k p Hk Hp) as Hc. lia.
  - intros HN%(l_none s H). by rewrite HN in Hk.
Qed.

Lemma life_enter s k p :
  life_ok s -> kids s !! k = Some p -> p = Spawned \/ p = Handshaking -> Z.of_nat (count_if counted (kids (enter k s))) < 2 ^ 32 -> life_ok (enter k s).
Proof.
  intros H Hk Hp Hb. destruct (life_busy s k p H Hk) as [HR HN]; [by destruct Hp; subst|]. destruct H as [A B C D F G].
  pose proof (count_replace counted (kids s) k p (Serving false) Hk) as Hc. assert (counted p = false) as Hsp by by destruct Hp; subst.
  rewrite Hsp in Hc. simpl in *. constructor; simpl; try done.
  - rewrite A, u32_small by lia. lia.
  - apply NoDup_app. split; [done|]. split; [|apply NoDup_singleton]. intros x Hx ->%list_elem_of_singleton. apply C in Hx as (q & Hx & Hq). congruence.
  - intros x. rewrite elem_of_app, list_elem_of_singleton, C. destruct (decide (x = k)) as [->|Hx].
    + rewrite lookup_insert_eq. split; [by exists (Serving false)|by right].
    + rewrite lookup_insert_ne by done. naive_solver.
  - intros Hd%G. eapply dangling_kept; [exact Hk| |done]. by destruct Hp; subst.
Qed.

Lemma life_end s k b : life_ok s -> kids s !! k = Some (Serving b) -> Z.of_nat (count_if counted (kids s)) < 2 ^ 32 -> life_ok (conn_end k s).
Proof.
  intros H Hk Hb. destruct (life_busy s k _ H Hk) as [HR HN]; [done|]. destruct H as [A B C D F G].
  pose proof (count_replace counted (kids s) k (Serving b) Over Hk) as Hc. simpl in Hc. destruct (erase_first_spec k _ B) as [E1 E2].
  constructor; simpl; try done.
  - rewrite A, u32_small by lia. lia.
  - intros x. rewrite E2, C. destruct (decide (x = k)) as [->|Hx]; [rewrite lookup_insert_eq; naive_solver|]. rewrite lookup_insert_ne by done. naive_solver.
  - intros Hd%G. by eapply dangling_kept; [exact Hk| |].
Qed.

(** The exception leaves the counts as they are: the connection stays in them. *)
Lemma life_throw s k b : life_ok s -> kids s !! k = Some (Serving b) -> life_ok (conn_throw k s).
Proof.
  intros H Hk. destruct (life_busy s k _ H Hk) as [HR HN]; [done|]. destruct H as [A B C D F G]. constructor; simpl; try done.
  - rewrite A. f_equal. symmetry. by eapply count_same.
  - intros x. rewrite C. destruct (decide (x = k)) as [->|Hx]; [|by rewrite lookup_insert_ne by done].
    split; intros _; [exists Thrown; by rewrite lookup_insert_eq|by exists (Serving b)].
  - intros _. exists k. by rewrite lookup_insert_eq.
Qed.

Lemma life_drain s : life_ok s -> life_ok (drain s).
Proof.
  intros H. unfold drain. case_bool_decide; [|done]. simpl. destruct H as [A B C D F G]. constructor; simpl; try done.
  - rewrite ask_all_count; [done|]. intros p. apply ask_counted.
  - intros k. rewrite ask_all_lookup, C. destruct (kids s !! k) as [p|] eqn:Hk; simpl; [|naive_solver].
    rewrite bool_decide_decide. destruct (decide _); destruct p; simpl; naive_solver.
  - intros HR%D. rewrite ask_all_count; [done|]. intros p. apply ask_counted.
  - intros HN%F. rewrite HN. apply map_imap_empty.
  - intros [Hd|Hd]%orb_true_iff.
    + destruct (G Hd) as [k Hk]. exists k. rewrite ask_all_lookup, Hk. simpl. by case_bool_decide.
    + apply existsb_exists in Hd as (k & _ & Hk). exists k. rewrite ask_all_lookup. destruct (kids s !! k) as [[]|]; try done. simpl. by case_bool_decide.
Qed.

Lemma life_loop_test s : life_ok s -> serve_at s <> NotServing -> life_ok (loop_test s).
Proof. intros H HN. apply (life_same s); try done; unfold loop_test; simpl; by case_decide. Qed.

Lemma life_accepted s k : life_ok s -> serve_at s = Accepting -> kids s !! k = None -> life_ok (accepted k s).
Proof.
  intros H Ha Hk. unfold accepted. destruct (negb _); [by apply (life_same s)|]. destruct (_ <=? _).
  - apply life_loop_test; [apply (life_same s); simpl; auto|]. simpl. congruence.
  - apply (life_kid s k Spawned); try done; unfold loop_test; simpl; [congruence|by case_decide..].
Qed.

Lemma life_step s s' : life_ok s -> step s s' -> Z.of_nat (count_if counted (kids s)) < 2 ^ 32 -> Z.of_nat (count_if counted (kids s')) < 2 ^ 32 -> life_ok s'.
Proof.
  intros H Hs Hb Hb'. destruct Hs as [s HN|s k Ha Hk|s e Ha|s Ha|s k Hk|s k ok Hk|s k b Hk|s k b Hk|s|s|s HJ Hc].
  - unfold serve. pose proof (l_none s H HN) as Hk. destruct (listener_ s); apply (life_same s); try done; unfold loop_test; simpl; try (by case_decide); [].
    intros _. right. by rewrite Hk, count_empty.
  - by apply life_accepted.
  - unfold accept_failed. destruct (_ || _ || _); [by apply (life_same s)|]. destruct (fd_exhausted e); [by apply (life_same s)|].
    apply life_loop_test; [done|congruence].
  - apply life_loop_test; [done|congruence].
  - destruct (life_busy s k _ H Hk) as [HR HN]; [done|]. unfold conn_start in *. destruct (tls opt).
    + apply (life_kid s k Handshaking); try done. intros q Hq. by simplify_eq.
    + apply life_enter with Spawned; auto.
  - destruct (life_busy s k _ H Hk) as [HR HN]; [done|]. destruct ok; simpl in *.
    + apply life_enter with Handshaking; auto.
    + apply (life_kid s k Over); try done. intros q Hq. by simplify_eq.
  - by apply life_end with b.
  - by apply life_throw with b.
  - by apply life_drain.
  - pose proof (life_drain s H) as Hd. unfold stop. by apply (life_same (drain s)); try done; left.
  - apply (life_same s); try done. by right.
Qed.

Lemma reach_life s : reach s -> life_ok s /\ Z.of_nat (count_if counted (kids s)) < 2 ^ 32.
Proof.
  induction 1 as [|s s' _ [IH Hb] Hs Hb'].
  - split; [|simpl; by rewrite count_empty]. constructor; simpl; try done; [constructor|]. intros k. rewrite elem_of_nil, lookup_empty. split; [done|]. by intros (q & Hq & _).
  - split; [by eapply life_step|done].
Qed.

(** After a drain nothing is accepted any more: not running is for good. *)
Lemma stays_down s s' : step s s' -> serve_at s <> NotServing -> state_ s <> Running -> state_ s' <> Running.
Proof.
  intros Hs HN Hd. destruct Hs as [s|s k Ha Hk|s e Ha|s Ha|s k Hk|s k ok Hk|s k b Hk|s k b Hk|s|s|s HJ Hc]; try done.
  - unfold accepted. by rewrite bool_decide_false.
  - unfold accept_failed. repeat case_match; done.
  - unfold conn_start. by destruct (tls opt).
  - by destruct ok.
  - unfold drain. by rewrite bool_decide_false.
Qed.

Lemma asked_all s k b : life_ok s -> state_ s = Running -> kids s !! k = Some (Serving b) -> kids (drain s) !! k = Some (Serving true).
Proof.
  intros H Hr Hk. unfold drain. rewrite bool_decide_true by done. simpl. rewrite ask_all_lookup, Hk. simpl.
  rewrite bool_decide_true; [done|]. apply (l_active s H). eauto.
Qed.

(** C11: The server's books: in every state it can reach, [conns_] is the number
    of connections being served plus the number of those that ended by an
    exception of their handler, and [active_] lists exactly these; so while no
    handler has thrown both are exact, and every exception leaves one count and
    one dangling pointer behind for good. A connection is accepted only while
    the server runs, and then only below the limit; once it does not run it
    never runs again; a drain asks every connection that is being served to
    close, and calls through a dangling pointer only if a handler threw; and
    when [serve] has returned every connection it ever accepted has ended.
    Counts are taken to stay below 2^32. *)
Theorem server_books s :
  reach s ->
  conns_ s = Z.of_nat (count_if serving (kids s)) + Z.of_nat (count_if thrown (kids s)) /\
  (forall k, k ∈ active_ s <-> (exists b, kids s !! k = Some (Serving b)) \/ kids s !! k = Some Thrown) /\ NoDup (active_ s) /\
  (forall k, kids (accepted k s) <> kids s -> state_ s = Running /\ conns_ s < max_connections opt) /\
  (forall s', step s s' -> serve_at s <> NotServing -> state_ s <> Running -> state_ s' <> Running) /\
  (forall k b, state_ s = Running -> kids s !! k = Some (Serving b) -> kids (drain s) !! k = Some (Serving true)) /\
  (dangling s = true -> exists k, kids s !! k = Some Thrown) /\
  (serve_at s = Returned -> forall k p, kids s !! k = Some p -> p = Over \/ p = Thrown).
Proof.
  intros [H _]%reach_life. split_and!.
  - rewrite (l_conns s H), counted_split. lia.
  - intros k. rewrite (l_active s H). split; [intros ([] & Hk & Hc); try done; eauto|]. intros [[b Hk]|Hk]; eauto.
  - apply H.
  - intros k. unfold accepted. case_bool_decide; simpl; [|done]. destruct (Z.leb_spec (max_connections opt) (conns_ s)); simpl; [done|]. done.
  - intros s'. apply stays_down.
  - intros k b. by apply asked_all.
  - apply H.
  - intros HR%(l_over s H) k p Hk. pose proof (count_pos alive (kids s) k p Hk) as Hc. destruct p; auto; simpl in Hc; specialize (Hc eq_refl); lia.
Qed.
End Server.

(** Serving over TLS with a limit of one. *)
Definition one_tls : options_t := mk_options 1 true.

Definition two_in_handshake : server_t := conn_start one_tls 2 (accepted one_tls 2 (conn_start one_tls 1 (accepted one_tls 1 (serve new_server)))).

Ltac life_steps := repeat (eapply reach_step; [|econstructor; reflexivity|reflexivity]); apply reach_new.

Lemma two_in_handshake_reach : reach one_tls two_in_handshake.
Proof. life_steps. Qed.

Lemma server_books_witness :
  conns_ two_in_handshake = 0 /\ kids (drain (handshake_done true 1 two_in_handshake)) !! 1 = Some (Serving true).
Proof.
  pose proof (server_books one_tls two_in_handshake two_in_handshake_reach) as (H & _). split; [exact H|].
  assert (Hr : reach one_tls (handshake_done true 1 two_in_handshake)) by (eapply reach_step; [exact two_in_handshake_reach|by constructor|reflexivity]).
  destruct (server_books one_tls _ Hr) as (_ & _ & _ & _ & _ & Hd & _). by apply (Hd 1 false).
Defined.

(** A connection counts only from the end of its handshake: with TLS the limit
    is passed. *)
Lemma limit_passed_in_handshake :
  exists s, reach one_tls s /\ conns_ s = 2 /\ max_connections one_tls = 1.
Proof.
  exists (handshake_done true 2 (handshake_done true 1 two_in_handshake)). split; [|done].
  eapply reach_step; [|by constructor|reflexivity]. eapply reach_step; [exact two_in_handshake_reach|by constructor|reflexivity].
Qed.

(** A drain does not reach a connection in its handshake: it is served
    afterwards and was not asked to close, and nothing asks it later. *)
Lemma drain_misses_handshake :
  exists s, reach one_tls s /\ state_ s = Draining /\ kids s !! 1 = Some (Serving false) /\ drain s = s.
Proof.
  exists (handshake_done true 1 (drain two_in_handshake)). split; [|done].
  eapply reach_step; [|by constructor|reflexivity]. eapply reach_step; [exact two_in_handshake_reach|apply st_drain|reflexivity].
Qed.

(** A handler that throws: with nothing left being served the limit of one is
    reached for good, and a drain calls through the pointer left behind. *)
Lemma thrown_stays_counted :
  exists s, reach one_tls s /\ count_if serving (kids s) = O /\ conns_ s = max_connections one_tls /\
    (forall k, kids (accepted one_tls k s) = kids s) /\ dangling (drain s) = true.
Proof.
  exists (conn_throw 1 (handshake_done true 1 two_in_handshake)). split_and!; [|done..|].
  - eapply reach_step; [|by econstructor|reflexivity]. eapply reach_step; [exact two_in_handshake_reach|by constructor|reflexivity].
  - reflexivity.
Qed.
