(* ===== verification/Session.v ===== *)
(** * WebSocket session

    src/include/cornet/websocket/session.h and src/src/websocket/session.cc: the
    receive machinery ([step]), reassembly of fragments, the close
    handshake and the senders.

    The transport is an explicit environment: [input] is what the reads will
    return (a run of bytes, an empty run at end of file, or an error with
    whether the session's deadline has fired), [outs] the outcomes of the
    coming writes (success once it runs out), [wire] the frames written.  A
    read takes at most the writable window and leaves the rest of the run
    for the next read.  A coroutine waiting for input that is not there is
    [Suspend].  Time is not modelled: arming a deadline has no effect of
    its own, its firing is part of the environment.  A frame reaches the wire
    whole, in the order in which the writes begin; [close] is two halves, since
    the coroutine of the other direction may run between its write and the
    change of state behind it.  Payloads are shorter
    than 4 GiB (the scratch buffer's size is a 32-bit value). *)

From stdpp Require Import prelude list list_numbers strings.
From Stdlib Require Import ZArith Lia.
From S2P Require Import Prelude WsFrame Buffer.
Open Scope Z_scope.

Definition E2BIG : Z := 7.
Definition ECONNRESET : Z := 104.

(** [close_code_t] *)
Definition code_Normal : Z := 1000.
Definition code_GoingAway : Z := 1001.
Definition code_ProtocolError : Z := 1002.
Definition code_NoStatus : Z := 1005.
Definition code_Abnormal : Z := 1006.
Definition code_MessageTooBig : Z := 1009.

Inductive state_t := Open | CloseSent | CloseReceived.
#[global] Instance state_t_eq_dec : EqDecision state_t.
Proof. solve_decision. Defined.

Inductive io_event :=
| Recv (d : bytes)
| RecvFail (e : error_t) (deadline_fired : bool).

Record env_t := mk_env {
  input : list io_event; outs : list (option error_t); wire : list bytes; fired : bool; fd_open : bool
}.

Record message_t := mk_message { m_opcode : opcode_t; m_payload : bytes }.

Definition close_code (m : message_t) : Z :=
  if negb (bool_decide (m_opcode m = Close)) then code_NoStatus
  else match m_payload m with
       | a :: b :: _ => u16 (u16 (a <<< 8) ||| b)
       | _ => code_NoStatus
       end.
Definition close_reason (m : message_t) : bytes :=
  if negb (bool_decide (m_opcode m = Close)) || (size (m_payload m) <=? 2) then [] else drop 2 (m_payload m).

(** The receive half and the rest of the session's members. *)
Record rx_t := mk_rx {
  decoder_ : frame_decoder_t;
  in_ : Head.head_buffer_t;
  msg_ : Body.body_buffer_t;
  cur_ : frame_t;
  frame_open_ : bool;
  cur_remaining_ : Z;
  frag_opcode_ : opcode_t;
  fragment_open_ : bool
}.
Record session_t := mk_session {
  rx : rx_t;
  out_ : Body.body_buffer_t;
  mask_seed_ : Z;
  state_ : state_t;
  closing_ : bool;
  finished_ : bool;
  env : env_t
}.

(** What a coroutine yields: a result, a wait for input, or out of fuel. *)
Inductive outcome (A : Type) :=
| Ret (r : expected A)
| Suspend
| OutOfFuel.
Arguments Ret {A} r.
Arguments Suspend {A}.
Arguments OutOfFuel {A}.

Definition set_rx (s : session_t) (r : rx_t) : session_t :=
  mk_session r (out_ s) (mask_seed_ s) (state_ s) (closing_ s) (finished_ s) (env s).
Definition set_env (s : session_t) (e : env_t) : session_t :=
  mk_session (rx s) (out_ s) (mask_seed_ s) (state_ s) (closing_ s) (finished_ s) e.
Definition set_state (s : session_t) (st : state_t) : session_t :=
  mk_session (rx s) (out_ s) (mask_seed_ s) st (closing_ s) (finished_ s) (env s).
Definition set_seed (s : session_t) (x : Z) : session_t :=
  mk_session (rx s) (out_ s) x (state_ s) (closing_ s) (finished_ s) (env s).
Definition set_out (s : session_t) (o : Body.body_buffer_t) : session_t :=
  mk_session (rx s) o (mask_seed_ s) (state_ s) (closing_ s) (finished_ s) (env s).
Definition set_finished (s : session_t) : session_t :=
  mk_session (rx s) (out_ s) (mask_seed_ s) (state_ s) (closing_ s) true (env s).

Definition set_in (r : rx_t) (h : Head.head_buffer_t) : rx_t :=
  mk_rx (decoder_ r) h (msg_ r) (cur_ r) (frame_open_ r) (cur_remaining_ r) (frag_opcode_ r) (fragment_open_ r).
Definition set_msg (r : rx_t) (m : Body.body_buffer_t) : rx_t :=
  mk_rx (decoder_ r) (in_ r) m (cur_ r) (frame_open_ r) (cur_remaining_ r) (frag_opcode_ r) (fragment_open_ r).
Definition set_frame (r : rx_t) (f : frame_t) (open : bool) (remaining : Z) : rx_t :=
  mk_rx (decoder_ r) (in_ r) (msg_ r) f open remaining (frag_opcode_ r) (fragment_open_ r).
Definition set_frag (r : rx_t) (op : opcode_t) (open : bool) : rx_t :=
  mk_rx (decoder_ r) (in_ r) (msg_ r) (cur_ r) (frame_open_ r) (cur_remaining_ r) op open.
Definition set_decoder (r : rx_t) (d : frame_decoder_t) : rx_t :=
  mk_rx d (in_ r) (msg_ r) (cur_ r) (frame_open_ r) (cur_remaining_ r) (frag_opcode_ r) (fragment_open_ r).

Definition window (s : session_t) : bytes :=
  Head.view (in_ (rx s)) (Head.r_ (in_ (rx s))) (Head.readable (in_ (rx s))).

(** ** Masks and writes *)

(** One round of xorshift32. *)
Definition xorshift32 (x : Z) : Z :=
  let x := x ^^^ u32 (x <<< 13) in
  let x := x ^^^ (x >>> 17) in
  x ^^^ u32 (x <<< 5).

(** The [do ... while (x == 0)] loop. *)
Fixpoint mask_loop (fuel : nat) (x : Z) : Z :=
  let x := xorshift32 x in
  match fuel with
  | O => x
  | S fuel => if x =? 0 then mask_loop fuel x else x
  end.

Definition next_mask_key (s : session_t) : session_t * Z :=
  let x := mask_loop 1 (mask_seed_ s) in (set_seed s x, x).

(** [writev_span]: one frame, all or nothing. *)
Definition writev_span (s : session_t) (frame : bytes) : session_t * expected unit :=
  let e := env s in
  match outs e with
  | Some err :: outs => (set_env s (mk_env (input e) outs (wire e) (fired e) (fd_open e)), Unexpected err)
  | o => (set_env s (mk_env (input e) (tail o) (wire e ++ [frame]) (fired e) (fd_open e)), Ok tt)
  end.

Section Session.
(** The pool, the session's role and its message limit. *)
Context (acquire : Z -> option bytes) (role : role_t) (max_message_bytes : Z).

Definition send_control (s : session_t) (op : opcode_t) (payload : bytes) : session_t * expected unit :=
  let payload := take 125 payload in
  match role with
  | Client =>
      let '(s, key) := next_mask_key s in
      writev_span s (write_frame_header true op (size payload) key ++ apply_mask key payload 0)
  | Server => writev_span s (write_frame_header true op (size payload) 0 ++ payload)
  end.

Definition send (s : session_t) (payload : bytes) (op : opcode_t) : session_t * expected unit :=
  if negb (opcode_is_data op) then (s, Unexpected (websocket_error InvalidOpcode))
  else if negb (bool_decide (state_ s = Open)) then (s, Unexpected (websocket_error Closed))
  else
    match role with
    | Client =>
        let '(s, key) := next_mask_key s in
        let hdr := write_frame_header true op (size payload) key in
        match payload with
        | [] => writev_span s hdr
        | _ =>
            match Body.grow acquire (size payload) (out_ s) with
            | Some (o, Ok _) => writev_span (set_out s o) (hdr ++ apply_mask key payload 0)
            | Some (o, Unexpected e) => (set_out s o, Unexpected e)
            | None => (s, Unexpected (system_error E2BIG))
            end
        end
    | Server => writev_span s (write_frame_header true op (size payload) 0 ++ payload)
    end.

Definition ping (s : session_t) (payload : bytes) : session_t * expected unit :=
  if negb (bool_decide (state_ s = Open)) then (s, Unexpected (websocket_error Closed))
  else send_control s Ping payload.

(** [close] up to its [co_await]: it has returned ([inl]), or its frame is
    with the transport and the coroutine waits for the outcome ([inr]). *)
Definition close_begin (s : session_t) (code : Z) (reason : bytes) : (session_t * expected unit) + (session_t * expected unit) :=
  if negb (bool_decide (state_ s = Open)) then inl (s, Ok tt)
  else if (code =? code_NoStatus) || (code =? code_Abnormal) || negb (close_code_valid code)
  then inl (s, Unexpected (websocket_error InvalidCloseCode))
  else inr (send_control s Close (u8 (code >>> 8) :: u8 code :: take 123 reason)).

(** What it does when it resumes: only now the state changes. *)
Definition close_end (s : session_t) (ok : expected unit) : session_t * expected unit :=
  match ok with
  | Unexpected e => (s, Unexpected e)
  | Ok _ => (set_state s CloseSent, Ok tt)
  end.

Definition close (s : session_t) (code : Z) (reason : bytes) : session_t * expected unit :=
  match close_begin s code reason with
  | inl r => r
  | inr (s, ok) => close_end s ok
  end.

Definition request_close (s : session_t) : session_t :=
  mk_session (rx s) (out_ s) (mask_seed_ s) (state_ s) true (finished_ s)
    (mk_env (input (env s)) (outs (env s)) (wire (env s)) true (fd_open (env s))).

(** [err] is the numeric value of the [websocket_error_t]. *)
Definition fail_protocol (s : session_t) (err code : Z) : session_t * outcome message_t :=
  let s := if bool_decide (state_ s = Open) && negb (fired (env s)) then fst (close s code []) else s in
  (s, Ret (Unexpected (Error err DWebsocket))).

(** ** Reading *)

Definition fill (s : session_t) : session_t * outcome Z :=
  let h := in_ (rx s) in
  let h := if Head.writable h =? 0
           then match Head.compact h with Some (h, _) => h | None => h end else h in
  let s := set_rx s (set_in (rx s) h) in
  let w := Head.writable h in
  if w =? 0 then (s, Ret (Unexpected (system_error E2BIG)))
  else
    let e := env s in
    match input e with
    | [] => (s, Suspend)
    | RecvFail err f :: rest =>
        (set_env s (mk_env rest (outs e) (wire e) (fired e || f) (fd_open e)), Ret (Unexpected err))
    | Recv d :: rest =>
        let n := Z.min (size d) w in
        let left := drop (Z.to_nat n) d in
        let rest := match left with [] => rest | _ => Recv left :: rest end in
        let s := set_env s (mk_env rest (outs e) (wire e) (fired e) (fd_open e)) in
        match Head.fill (take (Z.to_nat n) d) h with
        | Some h => (set_rx s (set_in (rx s) h), Ret (Ok n))
        | None => (s, Ret (Unexpected (system_error E2BIG)))
        end
    end.

(** A turn of [step]: [inl] goes round the loop, [inr] leaves it. *)
Definition turn := (session_t + (session_t * outcome message_t))%type.

(** Wait for more input: [fill], with end of file an abnormal closure. *)
Definition refill (s : session_t) : turn :=
  match fill s with
  | (s, Ret (Ok n)) => if n =? 0 then inr (s, Ret (Unexpected (system_error ECONNRESET))) else inl s
  | (s, Ret (Unexpected e)) => inr (s, Ret (Unexpected e))
  | (s, Suspend) => inr (s, Suspend)
  | (s, OutOfFuel) => inr (s, OutOfFuel)
  end.

(** Parse the next frame header and apply the message-level rules. *)
Definition open_frame (s : session_t) : turn :=
  let r := rx s in
  let '(res, d, f) := parse (decoder_ r) (window s) frame_init in
  let s := set_rx s (set_decoder r d) in
  match res with
  | FError =>
      let err := err_ d in
      if bool_decide (domain err = DWebsocket) then
        inr (fail_protocol s (code err)
               (if code err =? websocket_error_val MessageTooLarge then code_MessageTooBig else code_ProtocolError))
      else inr (s, Ret (Unexpected err))
  | NeedMore => refill s
  | Frame =>
      let r := rx s in
      let enter r := inl (set_rx s (set_frame (set_in r (Head.consume (header_len f) (in_ r))) f true (payload_len f))) in
      if opcode_is_data (opcode f) then
        if fragment_open_ r then inr (fail_protocol s (websocket_error_val ContinuationExpected) code_ProtocolError)
        else if max_message_bytes <? payload_len f then inr (fail_protocol s (websocket_error_val MessageTooLarge) code_MessageTooBig)
        else enter (set_msg r (Body.clear (msg_ r)))
      else if bool_decide (opcode f = Continue) then
        if negb (fragment_open_ r) then inr (fail_protocol s (websocket_error_val ContinuationUnexpected) code_ProtocolError)
        else if max_message_bytes <? u64 (Body.size_ (msg_ r) + payload_len f)
        then inr (fail_protocol s (websocket_error_val MessageTooLarge) code_MessageTooBig)
        else enter r
      else enter r
  end.

(** A control payload is handled whole. *)
Definition on_control (s : session_t) : turn :=
  let r := rx s in
  let f := cur_ r in
  let consumed := u64 (payload_len f - cur_remaining_ r) in
  let w := window s in
  if size w <? cur_remaining_ r then refill s
  else
    let payload := take (Z.to_nat (cur_remaining_ r)) w in
    let payload := if masked f then apply_mask (mask_key f) payload consumed else payload in
    let s := set_rx s (set_frame (set_in r (Head.consume (u32 (cur_remaining_ r)) (in_ r))) f false 0) in
    match opcode f with
    | Ping =>
        match send_control s Pong payload with
        | (s, Ok _) => inl s
        | (s, Unexpected e) => inr (s, Ret (Unexpected e))
        end
    | Pong => inl s
    | Close =>
        if size payload =? 1 then inr (fail_protocol s (websocket_error_val InvalidCloseCode) code_ProtocolError)
        else if (2 <=? size payload) &&
                negb (close_code_valid (u16 (u16 (nth 0 payload 0 <<< 8) ||| nth 1 payload 0)))
        then inr (fail_protocol s (websocket_error_val InvalidCloseCode) code_ProtocolError)
        else
          let echo_needed := bool_decide (state_ s = Open) in
          let s := set_state s CloseReceived in
          if echo_needed then
            match send_control s Close payload with
            | (s, Ok _) => inr (s, Ret (Ok (mk_message Close payload)))
            | (s, Unexpected e) => inr (s, Ret (Unexpected e))
            end
          else inr (s, Ret (Ok (mk_message Close payload)))
    | _ => inr (s, Ret (Unexpected (websocket_error InvalidOpcode)))
    end.

(** [msg_.grow(pool_, n)] and [msg_.append(part)]: the buffer, or the error. *)
Definition aggregate (m : Body.body_buffer_t) (n : Z) (part : bytes) : Body.body_buffer_t + error_t :=
  match Body.grow acquire n m with
  | Some (m, Ok _) =>
      match Body.append part m with
      | Some (m, Ok _) => inl m
      | Some (_, Unexpected e) => inr e
      | None => inr (system_error E2BIG)
      end
  | Some (_, Unexpected e) => inr e
  | None => inr (system_error E2BIG)
  end.

(** A run of a data frame's payload. *)
Definition on_data (deliver : bool) (s : session_t) : turn :=
  let r := rx s in
  let f := cur_ r in
  let consumed := u64 (payload_len f - cur_remaining_ r) in
  let w := window s in
  match w with
  | [] => refill s
  | _ =>
      let run := u32 (Z.min (size w) (cur_remaining_ r)) in
      let part := take (Z.to_nat run) w in
      let part := if masked f then apply_mask (mask_key f) part consumed else part in
      let direct := negb (fragment_open_ r) && (run =? payload_len f) in
      match (if direct then inl (msg_ r) else aggregate (msg_ r) (u32 (Body.size_ (msg_ r) + run)) part) with
      | inr e => inr (s, Ret (Unexpected e))
      | inl m =>
          let left := cur_remaining_ r - run in
          let r := set_frame (set_in (set_msg r m) (Head.consume run (in_ r))) f (0 <? left) left in
          if 0 <? left then inl (set_rx s r)
          else
            let msg := mk_message (if fragment_open_ r then frag_opcode_ r else opcode f)
                         (if direct then part else Body.view (msg_ r)) in
            let r := if direct then r else set_frag r (frag_opcode_ r) false in
            if negb (fin f) then
              let r := if fragment_open_ r then r else set_frag r (opcode f) true in
              if direct then
                match aggregate (msg_ r) run part with
                | inl m => inl (set_rx s (set_msg r m))
                | inr e => inr (set_rx s r, Ret (Unexpected e))
                end
              else inl (set_rx s r)
            else if deliver then inr (set_rx s r, Ret (Ok msg))
            else inl (set_rx s r)
      end
  end.

(** The first half of a turn: a header, unless a frame is already open. *)
Definition ensure_frame (s : session_t) : turn := if frame_open_ (rx s) then inl s else open_frame s.

Definition step_turn (deliver : bool) (s : session_t) : turn :=
  match ensure_frame s with
  | inr o => inr o
  | inl s =>
      if negb (frame_open_ (rx s)) then inl s      (* more input was read: parse again *)
      else if opcode_is_control (opcode (cur_ (rx s))) then on_control s
      else on_data deliver s
  end.

Fixpoint step (fuel : nat) (deliver : bool) (s : session_t) : session_t * outcome message_t :=
  match fuel with
  | O => (s, OutOfFuel)
  | S fuel => match step_turn deliver s with inl s => step fuel deliver s | inr o => o end
  end.

Definition recv (fuel : nat) (s : session_t) : session_t * outcome message_t :=
  if bool_decide (state_ s = CloseReceived) || finished_ s
  then (s, Ret (Unexpected (websocket_error Closed)))
  else step fuel true s.

(** The wait of [finish] for the peer's Close. *)
Fixpoint close_wait (fuel : nat) (s : session_t) : session_t * outcome unit :=
  match fuel with
  | O => (s, OutOfFuel)
  | S fuel =>
      if bool_decide (state_ s = CloseReceived) || fired (env s) then (s, Ret (Ok tt))
      else match step fuel false s with
           | (s, Ret (Ok _)) => close_wait fuel s
           | (s, Ret (Unexpected _)) => (s, Ret (Ok tt))
           | (s, Suspend) => (s, Suspend)
           | (s, OutOfFuel) => (s, OutOfFuel)
           end
  end.

(** [abandon] closes the transport; the graceful half-close before it only
    reads and discards. *)
Definition abandon (s : session_t) : session_t :=
  let e := env s in
  set_finished (set_env s (mk_env (input e) (outs e) (wire e) (fired e) false)).

Definition finish (fuel : nat) (s : session_t) : session_t * outcome unit :=
  if finished_ s || negb (fd_open (env s)) then (set_finished s, Ret (Ok tt))
  else
    let s := if bool_decide (state_ s = Open) && negb (fired (env s))
             then fst (close s (if closing_ s then code_GoingAway else code_Normal) []) else s in
    if negb (bool_decide (state_ s = CloseReceived)) && negb (fired (env s)) then
      match close_wait fuel s with
      | (s, Ret _) => (abandon s, Ret (Ok tt))
      | o => o
      end
    else (abandon s, Ret (Ok tt)).
End Session.

(** ** Masking keys *)

Lemma shl_fixpoint x k : 0 <= k -> x = u32 (x <<< k) -> forall n, x = (x * 2 ^ (k * Z.of_nat n)) mod 2 ^ 32.
Proof.
  intros Hk E. unfold u32 in E. rewrite Z.shiftl_mul_pow2 in E by done. induction n as [|n IH].
  - rewrite Z.mul_0_r, Z.pow_0_r, Z.mul_1_r. rewrite E at 2. rewrite Z.mod_mod by lia. done.
  - rewrite Nat2Z.inj_succ, Z.mul_succ_r, Z.pow_add_r by lia. rewrite Z.mul_assoc.
    rewrite <- Z.mul_mod_idemp_l, <- IH by lia. exact E.
Qed.

Lemma shl_nonzero x k : 0 < x < 2 ^ 32 -> 0 < k -> x ^^^ u32 (x <<< k) <> 0.
Proof.
  intros Hx Hk E. apply Z.lxor_eq in E. pose proof (shl_fixpoint x k ltac:(lia) E 32) as H.
  replace (k * Z.of_nat 32) with (32 + (k - 1) * 32) in H by lia.
  rewrite Z.pow_add_r, (Z.mul_comm (2 ^ 32)), Z.mul_assoc, Z.mod_mul in H by lia. lia.
Qed.

Lemma shr_nonzero x k : 0 < x -> 0 < k -> x ^^^ (x >>> k) <> 0.
Proof.
  intros Hx Hk E. apply Z.lxor_eq in E. rewrite Z.shiftr_div_pow2 in E by lia.
  pose proof (Z.div_lt x (2 ^ k) Hx). pose proof (Z.pow_gt_1 2 k). lia.
Qed.

Lemma xorshift32_range x : 0 < x < 2 ^ 32 -> 0 < xorshift32 x < 2 ^ 32.
Proof.
  intros Hx. unfold xorshift32. set (a := x ^^^ u32 (x <<< 13)).
  assert (0 < a < 2 ^ 32) as Ha.
  { pose proof (shl_nonzero x 13 Hx ltac:(lia)).
    pose proof (lxor_bound x (u32 (x <<< 13)) 32 ltac:(lia) ltac:(lia) (u32_range _)). unfold a. lia. }
  set (b := a ^^^ (a >>> 17)).
  assert (0 < b < 2 ^ 32) as Hb.
  { pose proof (shr_nonzero a 17 ltac:(lia) ltac:(lia)).
    assert (0 <= a >>> 17 < 2 ^ 32) as Hs.
    { rewrite Z.shiftr_div_pow2 by lia. split; [apply Z.div_pos; lia|].
      apply Z.div_lt_upper_bound; [lia|]. change (2 ^ 17) with 131072. lia. }
    pose proof (lxor_bound a (a >>> 17) 32 ltac:(lia) ltac:(lia) Hs). unfold b. lia. }
  pose proof (shl_nonzero b 5 Hb ltac:(lia)).
  pose proof (lxor_bound b (u32 (b <<< 5)) 32 ltac:(lia) ltac:(lia) (u32_range _)). lia.
Qed.

Lemma mask_loop_range x : 0 < x < 2 ^ 32 -> 0 < mask_loop 1 x < 2 ^ 32.
Proof.
  intros Hx. pose proof (xorshift32_range x Hx). cbn [mask_loop].
  by destruct (Z.eqb_spec (xorshift32 x) 0); [lia|].
Qed.

(** from a nonzero seed a masking key is never zero, the value that
    would be written as an unmasked frame, and the generator's state stays
    nonzero, so every later key is nonzero too. *)
Theorem mask_key_nonzero s n :
  0 < mask_seed_ s < 2 ^ 32 ->
  let s' := Nat.iter n (fun s => fst (next_mask_key s)) s in
  0 < snd (next_mask_key s') < 2 ^ 32 /\ 0 < mask_seed_ s' < 2 ^ 32.
Proof.
  intros Hs s'. assert (0 < mask_seed_ s' < 2 ^ 32) as H.
  { unfold s'. clear s'. induction n as [|n IH]; [done|]. simpl. by apply mask_loop_range. }
  split; [by apply mask_loop_range|done].
Qed.

(** ** The close discipline *)

(** The frames a session writes start with FIN and the opcode. *)
Definition is_close_frame (f : bytes) : bool := match f with b :: _ => b =? 0x88 | [] => false end.
Definition is_pong_frame (f : bytes) : bool := match f with b :: _ => b =? 0x8A | [] => false end.

(** At most one Close, and nothing but Pongs behind it. *)
Fixpoint closes_once (w : list bytes) : Prop :=
  match w with
  | [] => True
  | f :: w => if is_close_frame f then Forall (fun f => is_pong_frame f = true) w else closes_once w
  end.

Definition close_frames (w : list bytes) : nat := length (List.filter is_close_frame w).

(** A discipline of the wire: what holds always and what holds while the
    session is open, such that an open session may write anything, plain
    frames keep it open, and a Pong may come at any time. *)
Record discipline := {
  d_always : list bytes -> Prop;
  d_open : list bytes -> Prop;
  d_write : forall w f, d_open w -> d_always (w ++ [f]);
  d_plain : forall w f, d_open w -> is_close_frame f = false -> d_open (w ++ [f]);
  d_pong : forall w f, d_always w -> is_pong_frame f = true -> d_always (w ++ [f])
}.

Definition disciplined (D : discipline) (s : session_t) : Prop :=
  d_always D (wire (env s)) /\ (state_ s = Open -> d_open D (wire (env s))).

Lemma closes_once_open w f : Forall (fun f => is_close_frame f = false) w -> closes_once (w ++ [f]).
Proof.
  induction 1 as [|g w Hg _ IH]; simpl; [by destruct (is_close_frame f); [constructor|]|]. by rewrite Hg.
Qed.

Lemma closes_once_pong w f : closes_once w -> is_pong_frame f = true -> closes_once (w ++ [f]).
Proof.
  intros Hw Hf. induction w as [|g w IH]; simpl in *; [by destruct (is_close_frame f); [constructor|]|].
  destruct (is_close_frame g); [|by apply IH]. apply Forall_app. split; [done|by apply Forall_singleton].
Qed.

Lemma close_frames_snoc w f : close_frames (w ++ [f]) = (close_frames w + if is_close_frame f then 1 else 0)%nat.
Proof. unfold close_frames. rewrite List.filter_app, length_app. simpl. by destruct (is_close_frame f). Qed.

Lemma pong_not_close f : is_pong_frame f = true -> is_close_frame f = false.
Proof. destruct f as [|b f]; [done|]. simpl. rewrite Z.eqb_eq. by intros ->. Qed.

Definition once : discipline.
Proof.
  refine {| d_always := closes_once; d_open := Forall (fun f => is_close_frame f = false) |}.
  - exact closes_once_open.
  - intros w f Hw Hf. apply Forall_app. split; [done|by apply Forall_singleton].
  - exact closes_once_pong.
Defined.

(** At most [n] Close frames while open and one more afterwards. *)
Definition at_most (n : nat) : discipline.
Proof.
  refine {| d_always := fun w => (close_frames w <= S n)%nat; d_open := fun w => (close_frames w <= n)%nat |};
    intros w f; rewrite close_frames_snoc.
  - destruct (is_close_frame f); lia.
  - intros H ->. lia.
  - intros H ->%pong_not_close. lia.
Defined.

(** Not open any more. *)
Definition shut (n : nat) : discipline.
Proof.
  refine {| d_always := fun w => (close_frames w <= n)%nat; d_open := fun _ => False |}; try done.
  intros w f H Hp. rewrite close_frames_snoc, (pong_not_close f Hp). lia.
Defined.

Lemma header_first fin op len key : exists l, write_frame_header fin op len key = byte0 fin op :: l.
Proof.
  unfold write_frame_header. assert (u8 ((if fin then 0x80 else 0x00) ||| opcode_val op) = byte0 fin op) as ->
    by (destruct fin, op; reflexivity).
  destruct (len <=? kMaxControlPayload); [by eexists|]. destruct (len <=? 0xFFFF); by eexists.
Qed.

(** [only_writes s s' f]: everything but the environment is as it was, and
    at most the frame [f] was written. *)
Lemma writev_wire s f s' r :
  writev_span s f = (s', r) ->
  state_ s' = state_ s /\ rx s' = rx s /\
  (r = Ok tt /\ wire (env s') = wire (env s) ++ [f] \/ (exists e, r = Unexpected e) /\ wire (env s') = wire (env s)).
Proof.
  unfold writev_span. destruct (outs (env s)) as [|[e|] o]; intros [= <- <-]; simpl; split; eauto.
Qed.

Lemma send_control_wire role s op payload s' r :
  send_control role s op payload = (s', r) ->
  state_ s' = state_ s /\ rx s' = rx s /\
  exists l, (r = Ok tt /\ wire (env s') = wire (env s) ++ [byte0 true op :: l]) \/
            ((exists e, r = Unexpected e) /\ wire (env s') = wire (env s)).
Proof.
  unfold send_control. set (p := take 125 payload).
  destruct role; cbn [next_mask_key]; intros H; apply writev_wire in H as (H1 & H2 & H3).
  - destruct (header_first true op (size p) (mask_loop 1 (mask_seed_ s))) as [l Hl]. rewrite Hl in H3. simpl in *.
    repeat split; try done. exists (l ++ apply_mask (mask_loop 1 (mask_seed_ s)) p 0). destruct H3; eauto.
  - destruct (header_first true op (size p) 0) as [l Hl]. rewrite Hl in H3.
    repeat split; try done. exists (l ++ p). destruct H3; eauto.
Qed.

Section Disciplined.
Context (D : discipline).

Lemma close_disciplined role s code reason : disciplined D s -> disciplined D (fst (close role s code reason)).
Proof.
  intros [H1 H2]. unfold close, close_begin. destruct (bool_decide (state_ s = Open)) eqn:Eo; [|done].
  apply bool_decide_eq_true in Eo. cbn [negb]. destruct (_ || _); [done|].
  destruct (send_control role s Close _) as [s' r] eqn:E.
  apply send_control_wire in E as (Hs & _ & l & [[-> Hw]|[[e ->] Hw]]); unfold disciplined; simpl.
  - rewrite Hw. split; [by apply d_write, H2|done].
  - rewrite Hw, Hs. auto.
Qed.

Lemma fail_disciplined role s err code : disciplined D s -> disciplined D (fst (fail_protocol role s err code)).
Proof. intros H. unfold fail_protocol. simpl. destruct (_ && _); [by apply close_disciplined|done]. Qed.

(** Steps that leave the state and the wire alone keep the discipline. *)
Lemma disciplined_same s s' :
  disciplined D s -> state_ s' = state_ s -> wire (env s') = wire (env s) -> disciplined D s'.
Proof. unfold disciplined. intros H -> ->. done. Qed.

Lemma fill_quiet s s' o : fill s = (s', o) -> state_ s' = state_ s /\ wire (env s') = wire (env s).
Proof. unfold fill. intros H. repeat case_match; simplify_eq; done. Qed.

(** The session a turn leaves behind. *)
Definition turn_session (t : turn) : session_t := match t with inl s => s | inr (s, _) => s end.

Lemma refill_disciplined s : disciplined D s -> disciplined D (turn_session (refill s)).
Proof.
  intros H. unfold refill. destruct (fill s) as [s' o] eqn:E. apply fill_quiet in E as [E1 E2].
  assert (disciplined D s') by (by eapply disciplined_same). by repeat case_match; simplify_eq/=.
Qed.

Lemma open_frame_disciplined role max s : disciplined D s -> disciplined D (turn_session (open_frame role max s)).
Proof.
  intros H. unfold open_frame. destruct (parse _ _ _) as [[res d] f].
  assert (disciplined D (set_rx s (set_decoder (rx s) d))) as H' by (by eapply disciplined_same).
  assert (forall err code, disciplined D (turn_session (inr (fail_protocol role (set_rx s (set_decoder (rx s) d)) err code))))
    as Hf.
  { intros. pose proof (fail_disciplined role _ err code H') as E. by destruct (fail_protocol _ _ _ _). }
  destruct res.
  - by apply refill_disciplined.
  - repeat case_match; auto; by eapply disciplined_same.
  - repeat case_match; auto.
Qed.

Lemma on_control_disciplined role s : disciplined D s -> disciplined D (turn_session (on_control role s)).
Proof.
  intros H. unfold on_control. destruct (_ <? _); [by apply refill_disciplined|].
  set (p := if masked _ then _ else _).
  set (s1 := set_rx s _). assert (disciplined D s1) as H1 by (by eapply disciplined_same).
  assert (forall err code, disciplined D (turn_session (inr (fail_protocol role s1 err code)))) as Hf.
  { intros. pose proof (fail_disciplined role _ err code H1) as E. by destruct (fail_protocol _ _ _ _). }
  clearbody p s1. destruct (opcode (cur_ (rx s))); try done.
  - destruct (size p =? 1); [done|]. destruct (_ && _); [done|].
    destruct (bool_decide (state_ s1 = Open)) eqn:Eo.
    + apply bool_decide_eq_true in Eo. destruct (send_control role (set_state s1 CloseReceived) Close p) as [s2 r] eqn:E.
      apply send_control_wire in E as (Hs & _ & l & [[-> Hw]|[[e ->] Hw]]); unfold disciplined; simpl in *.
      * rewrite Hw, Hs. split; [by apply d_write, H1|done].
      * rewrite Hw, Hs. split; [apply H1|done].
    + destruct H1. by split.
  - destruct (send_control role s1 Pong p) as [s2 r] eqn:E.
    apply send_control_wire in E as (Hs & _ & l & [[-> Hw]|[[e ->] Hw]]); unfold disciplined; simpl in *.
    + rewrite Hw, Hs. destruct H1 as [H1 H2]. split; [by apply d_pong|].
      intros Ho. apply d_plain; [by apply H2|done].
    + rewrite Hw, Hs. done.
Qed.

Lemma on_data_disciplined acquire deliver s : disciplined D s -> disciplined D (turn_session (on_data acquire deliver s)).
Proof.
  intros H. unfold on_data. destruct (window s) eqn:Ew; [by apply refill_disciplined|].
  repeat case_match; simpl; done || by eapply disciplined_same.
Qed.

Lemma step_disciplined acquire role max fuel deliver s :
  disciplined D s -> disciplined D (fst (step acquire role max fuel deliver s)).
Proof.
  revert s. induction fuel as [|fuel IH]; intros s H; [done|]. cbn [step].
  assert (disciplined D (turn_session (step_turn acquire role max deliver s))) as Ht.
  { unfold step_turn.
    assert (disciplined D (turn_session (ensure_frame role max s))) as Ho
      by (unfold ensure_frame; destruct (frame_open_ (rx s)); [done|by apply open_frame_disciplined]).
    destruct (ensure_frame role max s) as [s1|[s1 o]]; [|done]. simpl in Ho.
    destruct (frame_open_ (rx s1)); [|done]. cbn [negb].
    destruct (opcode_is_control _); [by apply on_control_disciplined|by apply on_data_disciplined]. }
  destruct (step_turn acquire role max deliver s) as [s1|[s1 o]]; [by apply IH|done].
Qed.

(** The operations a session's user and the server perform on it. *)
Inductive op_t :=
| OSend (payload : bytes) (op : opcode_t) | OPing (payload : bytes) | OClose (code : Z) (reason : bytes)
| ORecv (fuel : nat) | ORequestClose | OFinish (fuel : nat)
| OInput (ev : list io_event) | OOutcomes (o : list (option error_t)).

Definition run_op (acquire : Z -> option bytes) (role : role_t) (max : Z) (s : session_t) (o : op_t) : session_t :=
  match o with
  | OSend p op => fst (send acquire role s p op)
  | OPing p => fst (ping role s p)
  | OClose c r => fst (close role s c r)
  | ORecv fuel => fst (recv acquire role max fuel s)
  | ORequestClose => request_close s
  | OFinish fuel => fst (finish acquire role max fuel s)
  | OInput ev => let e := env s in
      set_env s (mk_env (input e ++ ev) (outs e) (wire e) (fired e) (fd_open e))
  | OOutcomes os => let e := env s in
      set_env s (mk_env (input e) (outs e ++ os) (wire e) (fired e) (fd_open e))
  end.

Lemma send_open_disciplined s f s' r :
  disciplined D s -> state_ s = Open -> is_close_frame f = false -> writev_span s f = (s', r) -> disciplined D s'.
Proof.
  intros [H1 H2] Ho Hf E. apply writev_wire in E as (Hs & _ & [[_ Hw]|[_ Hw]]); unfold disciplined; rewrite Hw, Hs.
  - split; [by apply d_write, H2|]. intros _. apply d_plain; [by apply H2|done].
  - done.
Qed.

Lemma data_not_close op len key l :
  opcode_is_data op = true -> is_close_frame (write_frame_header true op len key ++ l) = false.
Proof. intros Ho. destruct (header_first true op len key) as [l' ->]. by destruct op. Qed.

Lemma send_disciplined acquire role s p op : disciplined D s -> disciplined D (fst (send acquire role s p op)).
Proof.
  intros H. unfold send. destruct (opcode_is_data op) eqn:Eo; [|done]. cbn [negb].
  destruct (bool_decide (state_ s = Open)) eqn:Es; [|done]. apply bool_decide_eq_true in Es. cbn [negb].
  assert (forall s1 f, state_ s1 = state_ s -> wire (env s1) = wire (env s) -> is_close_frame f = false ->
    disciplined D (fst (writev_span s1 f))) as Hw.
  { intros s1 f Hs Hw Hf. destruct (writev_span s1 f) as [s2 r] eqn:E.
    eapply send_open_disciplined; [by eapply disciplined_same|congruence|done|done]. }
  destruct role; cbn [next_mask_key].
  - destruct p as [|c p].
    + apply Hw; [done|done|]. rewrite <- (app_nil_r (write_frame_header _ _ _ _)). by apply data_not_close.
    + destruct (Body.grow _ _ _) as [[o [?|e]]|]; [|by eapply disciplined_same..].
      apply Hw; [done|done|by apply data_not_close].
  - apply Hw; [done|done|by apply data_not_close].
Qed.

Lemma close_wait_disciplined acquire role max fuel s :
  disciplined D s -> disciplined D (fst (close_wait acquire role max fuel s)).
Proof.
  revert s. induction fuel as [|fuel IH]; intros s H; [done|]. cbn [close_wait]. destruct (_ || _); [done|].
  pose proof (step_disciplined acquire role max fuel false s H) as Hs.
  destruct (step acquire role max fuel false s) as [s1 [[m|e]| |]]; simpl in *; auto.
Qed.

Lemma op_disciplined acquire role max s o : disciplined D s -> disciplined D (run_op acquire role max s o).
Proof.
  intros H. destruct o as [p op|p|c r|fuel| |fuel|ev|os]; simpl.
  - by apply send_disciplined.
  - unfold ping. destruct (bool_decide (state_ s = Open)) eqn:Es; [|done]. cbn [negb].
    apply bool_decide_eq_true in Es. destruct (send_control role s Ping p) as [s1 r] eqn:E.
    apply send_control_wire in E as (Hs & _ & l & [[-> Hw]|[[e ->] Hw]]); unfold disciplined; simpl;
      rewrite Hw, Hs; [|done]. destruct H as [H1 H2]. split; [by apply d_write, H2|].
    intros _. apply d_plain; [by apply H2|done].
  - by apply close_disciplined.
  - unfold recv. destruct (_ || _); [done|]. by apply step_disciplined.
  - by eapply disciplined_same.
  - unfold finish. destruct (_ || _); [by eapply disciplined_same|].
    set (s1 := if _ && _ then _ else s).
    assert (disciplined D s1) as H1 by (unfold s1; destruct (_ && _); [by apply close_disciplined|done]).
    clearbody s1. destruct (negb _ && negb _); [|by eapply disciplined_same].
    pose proof (close_wait_disciplined acquire role max fuel s1 H1) as H2.
    destruct (close_wait acquire role max fuel s1) as [s2 [r| |]]; simpl in *; auto; by eapply disciplined_same.
  - by eapply disciplined_same.
  - by eapply disciplined_same.
Qed.

End Disciplined.

(** *** Closes that overlap other operations *)

(** A reader and a writer may drive a session at once.  [send], [ping], the
    Pong and the echo of a Close are done with the session's state when their
    write begins, so their place in the order is where their write begins;
    [close] changes the state when it resumes, and what runs between the two
    halves still sees [Open].  The [close] that [fail_protocol] and [finish]
    make is part of their operation and taken whole.  A frame is taken to be
    on the wire once its write begins. *)
Inductive act_t := Whole (o : op_t) | CloseBegin (code : Z) (reason : bytes) | CloseEnd.

(** The session and the outcome a suspended [close] is about to be given. *)
Definition shared_t : Type := session_t * option (expected unit).

Definition run_act (acquire : Z -> option bytes) (role : role_t) (max : Z) (x : shared_t) (a : act_t) : shared_t :=
  let '(s, waiting) := x in
  match a, waiting with
  | Whole o, _ => (run_op acquire role max s o, waiting)
  | CloseBegin code reason, None =>
      match close_begin role s code reason with
      | inl (s, _) => (s, None)
      | inr (s, ok) => (s, Some ok)
      end
  | CloseEnd, Some ok => (fst (close_end s ok), None)
  | _, _ => x
  end.

(** What may happen to a session without any of its operations running. *)
Definition outside (o : op_t) : bool :=
  match o with ORequestClose | OInput _ | OOutcomes _ => true | _ => false end.

(** No operation runs between the two halves of a [close]. *)
Fixpoint alone (busy : bool) (l : list act_t) : Prop :=
  match l with
  | [] => True
  | Whole o :: l => (busy = true -> outside o = true) /\ alone busy l
  | CloseBegin _ _ :: l => alone true l
  | CloseEnd :: l => alone false l
  end.

Lemma close_begin_spec role s code reason :
  match close_begin role s code reason with
  | inl (s', _) => s' = s
  | inr (s', Ok _) => state_ s = Open /\ state_ s' = Open /\ exists f, is_close_frame f = true /\ wire (env s') = wire (env s) ++ [f]
  | inr (s', Unexpected _) => state_ s = Open /\ state_ s' = Open /\ wire (env s') = wire (env s)
  end.
Proof.
  unfold close_begin. destruct (bool_decide (state_ s = Open)) eqn:Eo; [|done]. apply bool_decide_eq_true in Eo. cbn [negb].
  destruct (_ || _); [done|]. destruct (send_control role s Close _) as [s' r] eqn:E.
  apply send_control_wire in E as (Hs & _ & l & [[-> Hw]|[[e ->] Hw]]); rewrite Hs, Eo; [|done].
  split_and!; try done. exists (byte0 true Close :: l). done.
Qed.

Lemma outside_same acquire role max s o :
  outside o = true -> let s' := run_op acquire role max s o in state_ s' = state_ s /\ wire (env s') = wire (env s).
Proof. by destruct o. Qed.

(** In a run of unbroken closes: the wire is in order, and a Close waiting to
    be confirmed was the last frame. *)
Definition unbroken (x : shared_t) : Prop :=
  match x.2 with
  | Some (Ok _) => closes_once (wire (env x.1))
  | _ => disciplined once x.1
  end.

Lemma run_alone acquire role max l : forall x busy,
  (busy = false -> x.2 = None) -> alone busy l -> unbroken x -> unbroken (fold_left (run_act acquire role max) l x).
Proof.
  induction l as [|a l IH]; intros [s w] busy Hb Ha Hu; [done|]. cbn [fold_left].
  destruct a as [o|code reason|]; cbn [alone] in Ha; cbn [fst snd] in Hb.
  - destruct Ha as [Ho Ha]. apply (IH _ busy); [done|done|]. unfold unbroken in *. cbn [run_act snd fst] in *.
    destruct w as [[[]|e]|]; [|by apply op_disciplined..].
    destruct busy; [|by specialize (Hb eq_refl)]. destruct (outside_same acquire role max s o (Ho eq_refl)) as [_ ->]. done.
  - apply (IH _ true); [done|done|]. cbn [run_act]. destruct w as [ok|]; [done|]. unfold unbroken in *. cbn [fst snd] in *.
    pose proof (close_begin_spec role s code reason) as Hc. destruct (close_begin role s code reason) as [[s' r]|[s' [[]|e]]]; cbn [fst snd].
    + by subst s'.
    + destruct Hc as (Ho & _ & f & _ & ->). apply closes_once_open. by apply Hu.
    + destruct Hc as (Ho & Ho' & Hw). eapply disciplined_same; [exact Hu|congruence|done].
  - apply (IH _ false); [by destruct w|done|]. destruct w as [[[]|e]|]; unfold unbroken in *; cbn in *; [|done..]. by split.
Qed.

(** In any run: no Close while open except the one a suspended [close] has
    just written, and at most two in all. *)
Definition bounded (x : shared_t) : Prop :=
  disciplined (shut 2) x.1 \/
  match x.2 with Some (Ok _) => disciplined (at_most 1) x.1 | _ => disciplined (at_most 0) x.1 end.

Lemma run_bounded acquire role max a x : bounded x -> bounded (run_act acquire role max x a).
Proof.
  destruct x as [s w], a as [o|code reason|]; unfold bounded; cbn [run_act fst snd].
  - intros [H|H]; [left; by apply op_disciplined|right]. destruct w as [[|]|]; by apply op_disciplined.
  - destruct w as [ok|]; [done|]. pose proof (close_begin_spec role s code reason) as Hc.
    destruct (close_begin role s code reason) as [[s' r]|[s' [[]|e]]]; cbn [fst snd].
    + by subst s'.
    + destruct Hc as (Ho & Ho' & f & Hf & Hw). intros [[_ H]|[_ H]]; [by destruct (H Ho)|right].
      specialize (H Ho). cbn in H. unfold disciplined. rewrite Hw. cbn. rewrite close_frames_snoc, Hf. lia.
    + destruct Hc as (Ho & Ho' & Hw). intros [H|H]; [left|right]; (eapply disciplined_same; [exact H|congruence|done]).
  - destruct w as [[[]|e]|]; cbn; [|done..]. intros [[H _]|[H _]]; left; by split.
Qed.

(** C2: whatever a handler, the server and the peer do, in any order and
    with any write failures, as long as no other operation runs between the
    moment a [close] hands its frame to the transport and the moment it
    resumes, a session puts at most one Close frame on the wire, and nothing
    after it except Pongs: no data and no Ping follows the Close. When the
    documented second coroutine does run in that gap, where the state still
    reads [Open], a second Close can go out, but never a third. Frames are
    taken to reach the wire whole and in the order their writes begin. *)
Theorem session_close_discipline acquire role max s acts :
  wire (env s) = [] ->
  let w := wire (env (fold_left (run_act acquire role max) acts (s, None)).1) in
  (alone false acts -> closes_once w) /\ (close_frames w <= 2)%nat.
Proof.
  intros Hw w. split.
  - intros Ha. assert (unbroken (s, None)) as H0 by (unfold unbroken, disciplined; cbn; by rewrite Hw).
    pose proof (run_alone acquire role max acts (s, None) false (fun _ => eq_refl) Ha H0) as H. unfold unbroken in H. unfold w.
    destruct (fold_left _ acts _) as [s' [[|]|]]; cbn in *; (done || apply H).
  - assert (bounded (s, None)) as H0 by (right; unfold disciplined; cbn; rewrite Hw; cbn; lia).
    assert (H : bounded (fold_left (run_act acquire role max) acts (s, None))).
    { revert H0. generalize (s, @None (expected unit)). induction acts as [|a l IH]; intros x H; [done|]. cbn. by apply IH, run_bounded. }
    unfold w. destruct H as [[H _]|H]; [exact H|].
    destruct (fold_left _ acts _) as [s' [[|]|]]; cbn in *; destruct H as [H _]; cbn in H; lia.
Qed.

(** ** Delivery *)

Definition ev_data (e : io_event) : bytes := match e with Recv d => d | RecvFail _ _ => [] end.

(** Reads that each return at least a byte. *)
Definition flowing (evs : list io_event) : Prop :=
  Forall (fun e => match e with Recv d => d <> [] | RecvFail _ _ => False end) evs.

(** The bytes the session has yet to consume: its window, then the wire. *)
Definition stream (s : session_t) : bytes :=
  Head.unread (in_ (rx s)) ++ concat (map ev_data (input (env s))).

Definition window_ok (s : session_t) : Prop :=
  Head.ok (in_ (rx s)) /\ Head.parsing_ (in_ (rx s)) = false /\ kMaxFrameHeaderLen < Head.capacity (in_ (rx s)).

Lemma window_unread s : Head.ok (in_ (rx s)) -> window s = Head.unread (in_ (rx s)).
Proof.
  intros (Hr & Hw & Hc). unfold window, Head.unread, Head.readable. by rewrite u32_small by lia.
Qed.

Lemma size_unread h : Head.ok h -> size (Head.unread h) = Head.w_ h - Head.r_ h.
Proof. intros (Hr & Hw & Hc). unfold Head.unread, Head.view. apply size_view_at; unfold Head.capacity in *; lia. Qed.

(** Making room never fails while the window is not full of unread bytes. *)
Lemma room h :
  Head.ok h -> Head.parsing_ h = false -> size (Head.unread h) < Head.capacity h ->
  let h' := if Head.writable h =? 0 then match Head.compact h with Some (h', _) => h' | None => h end else h in
  Head.ok h' /\ Head.parsing_ h' = false /\ Head.unread h' = Head.unread h /\
  Head.capacity h' = Head.capacity h /\ 0 < Head.writable h' /\
  Head.writable h' = Head.capacity h' - Head.w_ h'.
Proof.
  intros Hok Hp Hsz h'.
  assert (forall g, Head.ok g -> 0 < Head.capacity g -> Head.writable g = Head.capacity g - Head.w_ g) as Hwr.
  { intros g (_ & _ & _) Hg. unfold Head.writable, Head.capacity, Head.block in *. by destruct (Head.lease_ g). }
  assert (0 < Head.capacity h) as Hcap by (pose proof (Nat2Z.is_nonneg (length (Head.unread h))); unfold size in Hsz; lia).
  unfold h'. destruct (Z.eqb_spec (Head.writable h) 0) as [E|E].
  - pose proof (Head.compact_spec h Hok) as Hc. destruct (Head.compact h) as [[g b]|]; [|congruence].
    destruct Hc as (_ & Hpg & Hg & Hr & Hu & Hcg). rewrite (Hwr g Hg) by lia.
    rewrite <- Hu in Hsz. rewrite (size_unread g Hg) in Hsz. repeat split; (done || lia || apply Hg).
  - rewrite (Hwr h Hok Hcap) in *. destruct Hok as (? & ? & ?). repeat split; (done || lia).
Qed.

(** A read moves bytes from the wire to the window. *)
Lemma fill_moves s :
  window_ok s -> size (Head.unread (in_ (rx s))) < Head.capacity (in_ (rx s)) ->
  flowing (input (env s)) -> input (env s) <> [] ->
  exists n h evs, 0 < n /\
    fill s = (set_rx (set_env s (mk_env evs (outs (env s)) (wire (env s)) (fired (env s)) (fd_open (env s))))
                (set_in (rx s) h), Ret (Ok n)) /\
    flowing evs /\ Head.ok h /\ Head.parsing_ h = false /\ Head.capacity h = Head.capacity (in_ (rx s)) /\
    size (Head.unread h) = size (Head.unread (in_ (rx s))) + n /\
    Head.unread h ++ concat (map ev_data evs) = stream s.
Proof.
  intros (Hok & Hp & _) Hsz Hfl Hne.
  destruct (room _ Hok Hp Hsz) as (Hok1 & Hp1 & Hu1 & Hc1 & Hw1 & Hw2). unfold fill, stream. cbv zeta in *.
  set (h1 := if Head.writable (in_ (rx s)) =? 0 then _ else _) in *. clearbody h1. simpl.
  destruct (Z.eqb_spec (Head.writable h1) 0) as [|_]; [lia|].
  destruct (input (env s)) as [|[d|e f] rest]; [done| |by inversion Hfl].
  inversion Hfl as [|? ? Hd Hrest]; subst. set (n := Z.min (size d) (Head.writable h1)).
  assert (0 < size d) as Hd0 by (destruct d; [done|unfold size; simpl; lia]).
  assert (size (take (Z.to_nat n) d) = n) as Hn by (unfold size in *; rewrite length_take; lia).
  unfold Head.fill. destruct (write_at_some (Head.block h1) (Head.w_ h1) (take (Z.to_nat n) d)) as (b & Ew & Hb).
  { destruct Hok1; lia. } { unfold Head.capacity in *. lia. }
  pose proof (Head.fill_spec (take (Z.to_nat n) d) h1) as Hfs. unfold Head.fill in Hfs. rewrite Ew in *.
  destruct (Hfs _ Hok1 eq_refl) as (Hok2 & Hw & Hr & Hp2 & Hv1 & Hv2). clear Hfs.
  set (h2 := Head.commit _ _) in *.
  assert (Head.capacity h2 = Head.capacity h1) as Hcap
    by (unfold h2, Head.capacity; unfold Head.block at 1; simpl; exact Hb).
  clearbody h2.
  eexists n, h2, _. split; [lia|]. split; [reflexivity|]. split; [|split; [done|split; [congruence|]]].
  { destruct (drop (Z.to_nat n) d) eqn:E; [done|]. constructor; [done|exact Hrest]. }
  split; [congruence|].
  rewrite (size_unread _ Hok2). rewrite Hw, Hr, Hn. rewrite <- Hu1, (size_unread _ Hok1).
  split; [lia|]. unfold Head.unread at 1. rewrite Hw, Hr, Hn.
  destruct Hok1 as (Hr1 & _ & _).
  replace (Head.w_ h1 + n - Head.r_ h1) with ((Head.w_ h1 - Head.r_ h1) + n) by lia.
  unfold Head.view at 1. rewrite view_at_split by lia.
  replace (Head.r_ h1 + (Head.w_ h1 - Head.r_ h1)) with (Head.w_ h1) by lia.
  unfold Head.view in Hv1, Hv2. rewrite Hv1 by lia. rewrite Hn in Hv2. rewrite Hv2, <- !app_assoc. f_equal.
  cbn [map concat ev_data]. rewrite <- (take_drop (Z.to_nat n) d) at 3. rewrite <- app_assoc. f_equal.
  by destruct (drop (Z.to_nat n) d) eqn:E.
Qed.

Section Delivery.
Context (acquire : Z -> option bytes) (role : role_t) (max : Z).
Hypothesis acquire_enough : forall n d, acquire n = Some d -> n <= size d < 2 ^ 32.
Hypothesis acquire_succeeds : forall n, 0 <= n < 2 ^ 32 -> is_Some (acquire n).

(** [s] goes round the loop some number of times and is then [s']. *)
Definition reaches (deliver : bool) (s s' : session_t) : Prop :=
  exists n, forall fuel, step acquire role max (n + fuel) deliver s = step acquire role max fuel deliver s'.

Lemma reaches_refl deliver s : reaches deliver s s.
Proof. by exists 0%nat. Qed.

Lemma reaches_turn deliver s s1 s' :
  step_turn acquire role max deliver s = inl s1 -> reaches deliver s1 s' -> reaches deliver s s'.
Proof. intros E [n H]. exists (S n). intros fuel. simpl. rewrite E. apply H. Qed.

(** [s'] is [s] after some reads. *)
Record moved (s s' : session_t) : Prop := {
  mv_rx : exists h, rx s' = set_in (rx s) h;
  mv_env : exists evs, env s' = mk_env evs (outs (env s)) (wire (env s)) (fired (env s)) (fd_open (env s));
  mv_rest : out_ s' = out_ s /\ mask_seed_ s' = mask_seed_ s /\ state_ s' = state_ s /\
            closing_ s' = closing_ s /\ finished_ s' = finished_ s;
  mv_ok : window_ok s';
  mv_flow : flowing (input (env s'));
  mv_stream : stream s' = stream s;
  mv_cap : Head.capacity (in_ (rx s')) = Head.capacity (in_ (rx s))
}.

Lemma moved_refl s : window_ok s -> flowing (input (env s)) -> moved s s.
Proof.
  intros Hw Hf. split; try done.
  - exists (in_ (rx s)). by destruct (rx s).
  - exists (input (env s)). by destruct (env s).
Qed.

Lemma moved_trans s1 s2 s3 : moved s1 s2 -> moved s2 s3 -> moved s1 s3.
Proof.
  intros [[h1 A1] [e1 A2] A3 A4 A5 A6 A7] [[h2 B1] [e2 B2] B3 B4 B5 B6 B7]. split; try done; try congruence.
  - exists h2. by rewrite B1, A1.
  - exists e2. by rewrite B2, A2.
  - destruct A3 as (?&?&?&?&?), B3 as (?&?&?&?&?). repeat split; congruence.
Qed.

(** With more on the wire than in the window, [refill] reads at least a byte. *)
Lemma refill_moves s :
  window_ok s -> flowing (input (env s)) ->
  size (Head.unread (in_ (rx s))) < Head.capacity (in_ (rx s)) ->
  size (Head.unread (in_ (rx s))) < size (stream s) ->
  exists s', refill s = inl s' /\ moved s s' /\
    size (Head.unread (in_ (rx s))) < size (Head.unread (in_ (rx s'))).
Proof.
  intros Hw Hf Hc Hs.
  assert (input (env s) <> []) as Hne.
  { intros E. unfold stream in Hs. rewrite E, app_nil_r in Hs. lia. }
  destruct (fill_moves s Hw Hc Hf Hne) as (n & h & evs & Hn & E & Hfl & Hok & Hp & Hcap & Hsz & Hst).
  eexists. unfold refill. rewrite E. destruct (Z.eqb_spec n 0); [lia|]. split; [reflexivity|].
  split; [|simpl; lia]. destruct Hw as (_ & _ & Hk). split; simpl; try done.
  - by exists h.
  - by exists evs.
  - split; [exact Hok|]. split; [exact Hp|]. simpl. by rewrite Hcap.
Qed.

(** A session waiting at a frame boundary. *)
Definition idle (s : session_t) : Prop :=
  frame_open_ (rx s) = false /\ is_error (err_ (decoder_ (rx s))) = false /\ role_ (decoder_ (rx s)) = role.

Lemma moved_idle s s' : moved s s' -> idle s -> idle s'.
Proof. intros [[h E] _ _ _ _ _ _]. unfold idle. by rewrite E. Qed.

Lemma write_header_size op len key : 0 <= len -> 2 <= size (write_frame_header true op len key) <= kMaxFrameHeaderLen.
Proof. intros. by apply write_size. Qed.

(** Reading on until the whole header is in the window. *)
Lemma header_arrives deliver s op len key rest :
  window_ok s -> flowing (input (env s)) -> idle s ->
  sendable role true op len key -> stream s = write_frame_header true op len key ++ rest ->
  exists s' w, reaches deliver s s' /\ moved s s' /\ idle s' /\
    Head.unread (in_ (rx s')) = write_frame_header true op len key ++ w.
Proof.
  intros Hw Hf Hi Hsend Hst. set (hdr := write_frame_header true op len key) in *.
  assert (0 <= len) as Hlen by (destruct Hsend; lia).
  pose proof (write_header_size op len key Hlen) as Hh. fold hdr in Hh.
  remember (Z.to_nat (size hdr - size (Head.unread (in_ (rx s))))) as k eqn:Hk.
  revert s Hw Hf Hi Hst Hk. induction k as [k IH] using lt_wf_ind. intros s Hw Hf Hi Hst Hk.
  set (u := Head.unread (in_ (rx s))) in *.
  destruct (Z.le_gt_cases (size hdr) (size u)) as [Hge|Hlt].
  - exists s, (drop (length hdr) u). split; [apply reaches_refl|]. split; [by apply moved_refl|]. split; [done|].
    fold u. rewrite <- (take_drop (length hdr) u) at 1. f_equal.
    unfold stream in Hst. fold u in Hst. apply (f_equal (take (length hdr))) in Hst.
    rewrite take_app_length, take_app_le in Hst by (unfold size in *; lia). done.
  - assert (u = take (length u) hdr) as Hu.
    { unfold stream in Hst. fold u in Hst. apply (f_equal (take (length u))) in Hst.
      rewrite take_app_length, take_app_le in Hst by (unfold size in *; lia). done. }
    destruct Hi as (Hfo & He & Hr). pose proof Hw as (Hok & Hp & Hcap).
    assert (parse (decoder_ (rx s)) (window s) frame_init = (NeedMore, decoder_ (rx s), frame_init)) as Hparse.
    { rewrite window_unread by done. fold u. rewrite Hu. apply parse_short; [done|by rewrite Hr|].
      unfold size in Hlt. unfold hdr in Hlt. lia. }
    destruct (refill_moves s) as (s1 & E1 & Hm & Hgrow); [done|done|fold u; lia| |].
    { fold u. rewrite Hst, size_app. pose proof (size_nonneg rest). lia. }
    assert (step_turn acquire role max deliver s = inl s1) as Hturn.
    { unfold step_turn, ensure_frame. rewrite Hfo. unfold open_frame. rewrite Hparse.
      assert (set_rx s (set_decoder (rx s) (decoder_ (rx s))) = s) as -> by (by destruct s as [[]]).
      rewrite E1. pose proof (moved_idle _ _ Hm) as Hid. destruct Hid as (-> & _); [done|]. done. }
    destruct (IH (Z.to_nat (size hdr - size (Head.unread (in_ (rx s1)))))) with (s := s1) as (s2 & w & H1 & H2 & H3 & H4).
    + fold u in Hgrow. lia.
    + apply Hm.
    + apply Hm.
    + by eapply moved_idle.
    + by rewrite (mv_stream _ _ Hm).
    + done.
    + exists s2, w. split; [by eapply reaches_turn|]. split; [by eapply moved_trans|]. done.
Qed.

(** *** The payload *)

Lemma aggregate_spec m part :
  Body.ok m -> Body.size_ m + size part < 2 ^ 32 ->
  exists m', aggregate acquire m (u32 (Body.size_ m + size part)) part = inl m' /\ Body.ok m' /\
    Body.view m' = Body.view m ++ part.
Proof.
  intros Hok Hlt. pose proof Hok as (Hs & _). pose proof (size_nonneg part). unfold aggregate.
  rewrite u32_small by lia.
  destruct (Body.grow_spec acquire acquire_enough (Body.size_ m + size part) m Hok ltac:(lia))
    as (m1 & r & -> & Hok1 & Hv1 & Hcap & Hs1 & Hr).
  assert (r = Ok tt) as -> by (apply Hr; right; apply acquire_succeeds; lia). clear Hr. specialize (Hcap eq_refl).
  destruct (Body.append_spec part m1 Hok1) as (m2 & r & -> & Hok2 & _ & Hr); [lia|].
  rewrite Hs1 in Hr. destruct (Z.leb_spec (Body.size_ m + size part) (Body.cap_ m1)); [|lia].
  destruct Hr as [-> Hv2]. exists m2. by rewrite Hv2, Hv1.
Qed.

Lemma consume_unread n h :
  Head.ok h -> 0 <= n <= size (Head.unread h) ->
  Head.ok (Head.consume n h) /\ Head.unread (Head.consume n h) = drop (Z.to_nat n) (Head.unread h) /\
  Head.capacity (Head.consume n h) = Head.capacity h.
Proof.
  intros Hok Hn. rewrite size_unread in Hn by done. destruct Hok as (Hr & Hw & Hc).
  unfold Head.ok, Head.unread, Head.view, Head.consume, Head.capacity, Head.block in *. simpl in *.
  rewrite u32_small by lia. split; [lia|]. split; [|done].
  unfold view_at, substr. rewrite skipn_firstn_comm, drop_drop. f_equal; [lia|]. f_equal. lia.
Qed.

(** A payload as it travels, from byte [off] on. *)
Definition travel (key : Z) (l : bytes) (off : Z) : bytes := if key =? 0 then l else mask_spec key l off.

Lemma size_travel key l off : size (travel key l off) = size l.
Proof. unfold travel, size. destruct (key =? 0); [done|]. by rewrite length_mask_spec. Qed.

Lemma travel_app key l1 l2 off : travel key (l1 ++ l2) off = travel key l1 off ++ travel key l2 (off + size l1).
Proof. unfold travel. destruct (key =? 0); [done|]. apply mask_spec_app. Qed.

(** Unmasking a run gives the run back. *)
Lemma untravel key l off :
  0 <= key < 2 ^ 32 -> Forall is_byte l ->
  (if negb (key =? 0) then apply_mask key (travel key l off) off else travel key l off) = l.
Proof.
  intros Hk Hl. unfold travel. destruct (key =? 0); [done|]. simpl.
  rewrite apply_mask_correct; [apply mask_spec_involutive|done|by apply mask_spec_byte].
Qed.

Record at_rest (s : session_t) : Prop := {
  ar_idle : idle s;
  ar_frag : fragment_open_ (rx s) = false;
  ar_msg : Body.ok (msg_ (rx s));
  ar_window : window_ok s;
  ar_flow : flowing (input (env s))
}.

(** In the middle of a frame: [before] has been aggregated, [todo] is to come. *)
Record receiving (s : session_t) (op : opcode_t) (key : Z) (before todo rest : bytes) : Prop := {
  rc_open : frame_open_ (rx s) = true;
  rc_cur : exists hl, cur_ (rx s) = mk_frame true op (size (before ++ todo)) (negb (key =? 0)) key hl;
  rc_left : cur_remaining_ (rx s) = size todo;
  rc_frag : fragment_open_ (rx s) = false;
  rc_err : is_error (err_ (decoder_ (rx s))) = false /\ role_ (decoder_ (rx s)) = role;
  rc_msg : Body.ok (msg_ (rx s)) /\ Body.view (msg_ (rx s)) = before;
  rc_window : window_ok s;
  rc_flow : flowing (input (env s));
  rc_stream : stream s = travel key todo (size before) ++ rest
}.

Lemma receiving_moved s s' op key before todo rest :
  moved s s' -> receiving s op key before todo rest -> receiving s' op key before todo rest.
Proof.
  intros [[h E] _ _ Hw Hf Hst _] [A1 A2 A3 A4 A5 A6 A7 A8 A9]. split; rewrite ?E; try done. by rewrite Hst.
Qed.

(** The part of the window that belongs to the frame, unmasked. *)
Lemma run_of s op key before todo rest :
  receiving s op key before todo rest -> 0 <= key < 2 ^ 32 -> Forall is_byte todo ->
  let w := Head.unread (in_ (rx s)) in
  let run := Z.min (size w) (size todo) in
  (if negb (key =? 0) then apply_mask key (take (Z.to_nat run) w) (size before) else take (Z.to_nat run) w)
  = take (Z.to_nat run) todo.
Proof.
  intros H Hk Hb w run.
  assert (take (Z.to_nat run) w = travel key (take (Z.to_nat run) todo) (size before)) as ->.
  { pose proof (rc_stream _ _ _ _ _ _ H) as Hs. unfold stream in Hs. fold w in Hs.
    apply (f_equal (take (Z.to_nat run))) in Hs. rewrite take_app_le in Hs by (unfold run, size; lia).
    rewrite Hs. rewrite <- (take_drop (Z.to_nat run) todo) at 1. rewrite travel_app, <- app_assoc.
    rewrite take_app_le by (pose proof (size_travel key (take (Z.to_nat run) todo) (size before)) as E;
      unfold size in *; rewrite length_take in E; lia).
    apply take_ge. pose proof (size_travel key (take (Z.to_nat run) todo) (size before)) as E.
    unfold size in *. rewrite length_take in E. lia. }
  apply untravel; [done|by apply Forall_take].
Qed.

(** The stream after a run has been consumed. *)
Lemma stream_consume s op key before todo rest run m f open left fop frag d :
  receiving s op key before todo rest -> 0 <= run <= size (Head.unread (in_ (rx s))) -> run <= size todo ->
  let s' := set_rx s (mk_rx d (Head.consume run (in_ (rx s))) m f open left fop frag) in
  stream s' = travel key (drop (Z.to_nat run) todo) (size before + run) ++ rest /\ window_ok s'.
Proof.
  intros H Hr1 Hr2 s'. destruct (rc_window _ _ _ _ _ _ H) as (Hok & Hp & Hc).
  destruct (consume_unread run _ Hok Hr1) as (Hok' & Hu & Hcap). split.
  - unfold stream, s'. simpl. rewrite Hu. pose proof (rc_stream _ _ _ _ _ _ H) as Hs. unfold stream in Hs.
    apply (f_equal (drop (Z.to_nat run))) in Hs. rewrite drop_app_le in Hs by (unfold size in *; lia).
    rewrite Hs. rewrite <- (take_drop (Z.to_nat run) todo) at 1. rewrite travel_app, <- app_assoc.
    assert (size (travel key (take (Z.to_nat run) todo) (size before)) = run) as Hl
      by (rewrite size_travel; unfold size in *; rewrite length_take; lia).
    rewrite drop_app_ge by (unfold size in *; lia).
    assert (size (take (Z.to_nat run) todo) = run) as -> by (unfold size in *; rewrite length_take; lia).
    replace (Z.to_nat run - length (travel key (take (Z.to_nat run) todo) (size before)))%nat with 0%nat
      by (unfold size in *; lia). done.
  - unfold window_ok, s'. simpl. by rewrite Hcap.
Qed.

(** One turn on a non-empty window: more to come, or the message. *)
Lemma data_turn s op key before todo rest :
  receiving s op key before todo rest -> 0 <= key < 2 ^ 32 -> Forall is_byte todo ->
  opcode_is_data op = true -> size (before ++ todo) < 2 ^ 32 -> todo <> [] -> window s <> [] ->
  (exists s' b t, step_turn acquire role max true s = inl s' /\ receiving s' op key b t rest /\
     b ++ t = before ++ todo /\ t <> [] /\ (length t < length todo)%nat /\ Forall is_byte t) \/
  (exists s', step_turn acquire role max true s = inr (s', Ret (Ok (mk_message op (before ++ todo)))) /\
     at_rest s' /\ stream s' = rest).
Proof.
  intros H Hk Hb Hop Hlen Hne Hw. pose proof H as [A1 [hl A2] A3 A4 A5 [A6 A6'] A7 A8 A9].
  pose proof (run_of _ _ _ _ _ _ H Hk Hb) as Hrun. cbv zeta in Hrun.
  assert (opcode_is_control op = false) as Hnc by (by destruct op).
  unfold step_turn, ensure_frame. rewrite A1. cbn [negb]. rewrite A1, A2. simpl opcode. rewrite Hnc. cbn [negb].
  unfold on_data. rewrite A2, A3, A4. cbn [payload_len masked mask_key fin opcode negb andb].
  rewrite window_unread in * by apply A7.
  set (w := Head.unread (in_ (rx s))) in *. destruct w as [|c0 w0] eqn:Ew; [done|]. rewrite <- Ew in *. clear Hw.
  assert (0 < size w) by (rewrite Ew; unfold size; simpl; lia). clear Ew c0 w0.
  assert (0 < size todo) by (destruct todo; [done|unfold size; simpl; lia]).
  pose proof (size_nonneg before). rewrite size_app in *. rewrite u32_small by lia.
  replace (size before + size todo - size todo) with (size before) by lia. rewrite u64_small by lia.
  set (run := Z.min (size w) (size todo)) in *. assert (0 < run <= size todo /\ run <= size w) as [Hr1 Hr2] by lia.
  rewrite Hrun. set (part := take (Z.to_nat run) todo) in *.
  assert (size part = run) as Hpart by (unfold part, size in *; rewrite length_take; lia).
  assert (Body.size_ (msg_ (rx s)) = size before) as Hmsz by (rewrite <- (Body.size_view _ A6); congruence).
  destruct (Z.eqb_spec run (size before + size todo)) as [Ed|Ed].
  - (* the whole payload in one run *)
    right. assert (size before = 0 /\ run = size todo) as [Hb0 Hrt] by lia.
    assert (before = []) as -> by (destruct before; [done|unfold size in Hb0; simpl in Hb0; lia]).
    replace (size todo - run) with 0 by lia. cbn [Z.ltb Z.compare andb].
    assert (part = todo) as Hpt by (unfold part; apply take_ge; unfold size in *; lia).
    eexists. split; [unfold set_msg, set_in, set_frame, set_frag; simpl; rewrite ?A4, Hpt; reflexivity|].
    edestruct (stream_consume s op key [] todo rest run) as [Hst Hwin]; [exact H|fold w; lia|lia|].
    split; [|rewrite Hst, drop_ge by (unfold size in *; lia); unfold travel; by destruct (key =? 0)].
    split; simpl; done.
  - destruct (aggregate_spec (msg_ (rx s)) part A6) as (m & Hag & Hokm & Hvm); [lia|].
    rewrite Hpart in Hag. cbn [andb]. rewrite Hag. clear Hag.
    destruct (Z.ltb_spec 0 (size todo - run)) as [Hmore|Hdone].
    + left. eexists _, (before ++ part), (drop (Z.to_nat run) todo). split; [reflexivity|].
      edestruct (stream_consume s op key before todo rest run) as [Hst Hwin]; [exact H|fold w; lia|lia|].
      split; [|split; [by rewrite <- app_assoc; unfold part; rewrite take_drop|]].
      * split; simpl; try done.
        -- exists hl. rewrite <- app_assoc. unfold part. by rewrite take_drop, size_app.
        -- unfold size. rewrite length_drop. unfold size in *. lia.
        -- by rewrite Hvm, A6'.
        -- rewrite size_app, Hpart. exact Hst.
      * split; [intros E; apply (f_equal length) in E; rewrite length_drop in E; unfold size in *; simpl in E; lia|].
        split; [rewrite length_drop; unfold size in *; lia|by apply Forall_drop].
    + right. assert (part = todo) as Hpt by (unfold part; apply take_ge; unfold size in *; lia).
      eexists. split; [unfold set_msg, set_in, set_frame, set_frag; simpl; rewrite ?A4, Hvm, A6', Hpt; reflexivity|].
      edestruct (stream_consume s op key before todo rest run) as [Hst Hwin]; [exact H|fold w; lia|lia|].
      split; [|rewrite Hst, drop_ge by (unfold size in *; lia); unfold travel; by destruct (key =? 0)].
      split; simpl; done.
Qed.

Lemma payload_arrives s op key before todo rest :
  receiving s op key before todo rest -> 0 <= key < 2 ^ 32 -> Forall is_byte todo ->
  opcode_is_data op = true -> size (before ++ todo) < 2 ^ 32 -> todo <> [] ->
  exists n s', (forall fuel, step acquire role max (n + fuel) true s =
                  (s', Ret (Ok (mk_message op (before ++ todo))))) /\ at_rest s' /\ stream s' = rest.
Proof.
  intros H Hk Hb Hop Hlen Hne. remember (length todo) as k eqn:Hkk.
  revert s before todo H Hb Hlen Hne Hkk. induction k as [k IH] using lt_wf_ind. intros s before todo H Hb Hlen Hne ->.
  assert (forall s1, receiving s1 op key before todo rest -> window s1 <> [] ->
    exists n s', (forall fuel, step acquire role max (n + fuel) true s1 =
                    (s', Ret (Ok (mk_message op (before ++ todo))))) /\ at_rest s' /\ stream s' = rest) as Hgo.
  { intros s1 H1 Hw1.
    destruct (data_turn s1 op key before todo rest H1 Hk Hb Hop Hlen Hne Hw1)
      as [(s2 & b & t & Et & H2 & Eb & Hnt & Hlt & Hbt)|(s2 & Et & Hr & Hs)].
    - destruct (IH (length t) Hlt s2 b t) as (n & s3 & Hst & Hr & Hs); [done|done|by rewrite Eb|done|done|].
      exists (S n), s3. split; [|done]. intros fuel. simpl. rewrite Et, Hst. by rewrite Eb.
    - exists 1%nat, s2. split; [|done]. intros fuel. simpl. by rewrite Et. }
  destruct (window s) as [|c w] eqn:Ew; [|by apply Hgo; [done|congruence]].
  pose proof H as [A1 [hl A2] A3 A4 A5 A6 A7 A8 A9]. pose proof A7 as (Hok & Hp & Hcap).
  rewrite window_unread in Ew by done.
  destruct (refill_moves s) as (s1 & E1 & Hm & Hgrow); [done|done| | |].
  { rewrite Ew. unfold kMaxFrameHeaderLen in Hcap. change (size []) with 0. lia. }
  { rewrite Ew, A9, size_app, size_travel. change (size []) with 0. pose proof (size_nonneg rest).
    destruct todo; [done|]. unfold size. simpl. lia. }
  destruct (Hgo s1) as (n & s' & Hst & Hr); [by eapply receiving_moved| |].
  { rewrite window_unread by apply Hm. rewrite Ew in Hgrow. change (size []) with 0 in Hgrow.
    intros E. rewrite E in Hgrow. change (size []) with 0 in Hgrow. lia. }
  exists (S n), s'. split; [|done]. intros fuel. simpl. unfold step_turn, ensure_frame. rewrite A1. rewrite A1, A2.
  cbn [opcode negb]. assert (opcode_is_control op = false) as -> by (by destruct op).
  unfold on_data. rewrite window_unread, Ew by done. by rewrite E1, Hst.
Qed.

(** The header of a data frame opens it: from there the payload is to come. *)
Lemma frame_opens s op key payload rest :
  at_rest s -> opcode_is_data op = true -> sendable role true op (size payload) key ->
  size payload <= max -> size payload < 2 ^ 32 ->
  stream s = (write_frame_header true op (size payload) key ++ travel key payload 0) ++ rest ->
  exists n s', (forall fuel, step acquire role max (n + S fuel) true s = step acquire role max (S fuel) true s') /\
    receiving s' op key [] payload rest.
Proof.
  intros Hr Hop Hs Hmax Hlt Hst. rewrite <- app_assoc in Hst.
  destruct (header_arrives true s op (size payload) key (travel key payload 0 ++ rest)) as (s1 & w & [n1 Hn1] & Hm & Hi & Hu);
    try done; [apply Hr..|].
  destruct Hm as [[h Eh] _ _ Hw1 Hf1 Hst1 _]. pose proof Hw1 as (Hok1 & Hp1 & Hc1).
  set (hdr := write_frame_header true op (size payload) key) in *.
  assert (0 <= key < 2 ^ 32) as Hk by (destruct Hs as (_ & _ & Hs); destruct role; lia).
  destruct Hi as (Hfo & He & Hro).
  pose proof (parse_write (decoder_ (rx s1)) frame_init true op (size payload) key w He ltac:(by rewrite Hro)) as Hpw.
  cbv zeta in Hpw. fold hdr in Hpw. rewrite <- Hu, <- window_unread in Hpw by done.
  set (f := mk_frame true op (size payload) (negb (key =? 0)) key (size hdr)) in *.
  set (r1 := set_msg (rx s1) (Body.clear (msg_ (rx s1)))).
  set (s2 := set_rx s1 (set_frame (set_in r1 (Head.consume (size hdr) (in_ r1))) f true (size payload))).
  assert (fragment_open_ (rx s1) = false) as Hfr by (rewrite Eh; apply Hr).
  assert (Body.ok (msg_ (rx s1))) as Hmsg by (rewrite Eh; apply Hr).
  assert (open_frame role max s1 = inl s2) as Hopen.
  { unfold open_frame. rewrite Hpw.
    assert (set_rx s1 (set_decoder (rx s1) (decoder_ (rx s1))) = s1) as -> by (by destruct s1 as [[]]).
    unfold f at 1 2 3. cbn [opcode payload_len]. rewrite Hop, Hfr.
    destruct (Z.ltb_spec max (size payload)); [lia|]. done. }
  assert (size hdr <= size (Head.unread (in_ (rx s1)))) as Hsz
    by (rewrite Hu, size_app; pose proof (size_nonneg w); lia).
  destruct (consume_unread (size hdr) _ Hok1) as (Hok2 & Hu2 & Hcap2); [pose proof (size_nonneg hdr); lia|].
  assert (receiving s2 op key [] payload rest) as Hrec.
  { split; simpl; try done.
    - by exists (size hdr).
    - split; [|done]. destruct Hmsg as (? & ? & ?). unfold Body.ok, Body.clear, Body.block in *. simpl. lia.
    - rewrite Hst in Hst1. unfold stream in *. simpl. rewrite Hu2. rewrite Hu in Hst1 |- *.
      rewrite drop_app_le by (unfold size; lia). unfold size at 1. rewrite Nat2Z.id, drop_all. simpl.
      rewrite <- app_assoc in Hst1. by apply app_inv_head in Hst1. }
  exists n1, s2. split; [|done]. intros fuel. rewrite Hn1. cbn [step].
  assert (step_turn acquire role max true s1 = step_turn acquire role max true s2) as ->; [|done].
  unfold step_turn, ensure_frame. by rewrite Hfo, Hopen.
Qed.

(** A frame without payload is delivered once the window holds a byte behind
    its header. *)
Lemma empty_turn s op key rest :
  receiving s op key [] [] rest -> opcode_is_data op = true -> window s <> [] ->
  exists s', step_turn acquire role max true s = inr (s', Ret (Ok (mk_message op []))) /\ at_rest s' /\ stream s' = rest.
Proof.
  intros H Hop Hw. pose proof H as [A1 [hl A2] A3 A4 A5 [A6 A6'] A7 A8 A9].
  assert (opcode_is_control op = false) as Hnc by (by destruct op).
  unfold step_turn, ensure_frame. rewrite A1. cbn [negb]. rewrite A1, A2. simpl opcode. rewrite Hnc. cbn [negb].
  unfold on_data. rewrite A2, A3, A4. cbn [payload_len masked mask_key fin opcode negb andb app].
  change (size []) with 0. rewrite (window_unread s) in * by apply A7.
  destruct (Head.unread (in_ (rx s))) as [|c0 w0] eqn:Ew; [done|]. pose proof (size_nonneg (c0 :: w0)).
  replace (u32 (Z.min (size (c0 :: w0)) 0)) with 0 by (by rewrite Z.min_r by lia). cbn [Z.to_nat take Z.eqb Z.sub Z.ltb Z.compare].
  assert (forall off, (if negb (key =? 0) then apply_mask key [] off else []) = []) as Hnil by (intros; by destruct (negb (key =? 0))).
  rewrite Hnil. eexists. split; [unfold set_msg, set_in, set_frame, set_frag; simpl; rewrite ?A4; reflexivity|].
  edestruct (stream_consume s op key [] [] rest 0) as [Hst Hwin]; [exact H|rewrite Ew; lia|done|].
  split; [split; simpl; done|]. rewrite Hst. unfold travel. by destruct (key =? 0).
Qed.

Lemma empty_step fuel s : window s = [] -> frame_open_ (rx s) = true -> opcode_is_data (opcode (cur_ (rx s))) = true ->
  step acquire role max (S fuel) true s = match refill s with inl s' => step acquire role max fuel true s' | inr o => o end.
Proof.
  intros Hw Ho Hop. cbn [step]. unfold step_turn, ensure_frame. rewrite Ho. cbn [negb]. rewrite Ho. cbn [negb].
  assert (opcode_is_control (opcode (cur_ (rx s))) = false) as -> by (by destruct (opcode (cur_ (rx s)))).
  unfold on_data. rewrite Hw. done.
Qed.

Lemma empty_arrives s op key rest :
  receiving s op key [] [] rest -> opcode_is_data op = true -> rest <> [] ->
  exists n s', (forall fuel, step acquire role max (S n + fuel) true s = (s', Ret (Ok (mk_message op [])))) /\
    at_rest s' /\ stream s' = rest.
Proof.
  intros H Hop Hne. pose proof H as [A1 [hl A2] A3 A4 A5 A6 A7 A8 A9]. pose proof A7 as (Hok & Hp & Hcap).
  destruct (window s) as [|c w] eqn:Ew.
  - assert (Eu := Ew). rewrite window_unread in Eu by done.
    destruct (refill_moves s) as (s1 & E1 & Hm & Hgrow); [done|done| | |].
    { rewrite Eu. unfold kMaxFrameHeaderLen in Hcap. change (size []) with 0. lia. }
    { rewrite Eu, A9, size_app, size_travel. change (size []) with 0. destruct rest; [done|]. unfold size. simpl. lia. }
    destruct (empty_turn s1 op key rest) as (s' & Et & Hr & Hs); [by eapply receiving_moved|done| |].
    { rewrite window_unread by apply Hm. rewrite Eu in Hgrow. intros E. rewrite E in Hgrow. lia. }
    exists 1%nat, s'. split; [|done]. intros fuel. change (2 + fuel)%nat with (S (S fuel)).
    rewrite empty_step by (done || by rewrite A2). rewrite E1. cbn [step]. by rewrite Et.
  - destruct (empty_turn s op key rest H Hop) as (s' & Et & Hr & Hs); [congruence|].
    exists 0%nat, s'. split; [|done]. intros fuel. cbn [Nat.add step]. by rewrite Et.
Qed.

(** With nothing behind it the receiver keeps waiting. *)
Lemma empty_waits s op key fuel :
  receiving s op key [] [] [] -> opcode_is_data op = true -> snd (step acquire role max (S fuel) true s) = Suspend.
Proof.
  intros [A1 [hl A2] A3 A4 A5 A6 A7 A8 A9] Hop. pose proof A7 as (Hok & Hp & Hcap).
  assert (travel key [] (size []) = []) as Et by (unfold travel; by destruct (key =? 0)). rewrite Et in A9. unfold stream in A9.
  apply app_eq_nil in A9 as [Eu Ei].
  assert (input (env s) = []) as Hi.
  { destruct A8 as [|e evs He _]; [done|]. destruct e as [d|]; [|done]. by destruct d. }
  rewrite empty_step by (rewrite ?window_unread, ?A2; done). unfold refill, fill.
  destruct (room _ Hok Hp) as (_ & _ & _ & _ & Hw1 & _). { rewrite Eu. unfold kMaxFrameHeaderLen in Hcap. change (size []) with 0. lia. }
  cbv zeta in *. set (h1 := if Head.writable (in_ (rx s)) =? 0 then _ else _) in *. clearbody h1.
  destruct (Z.eqb_spec (Head.writable h1) 0) as [|_]; [lia|]. cbn [env set_rx]. by rewrite Hi.
Qed.

(** A whole data frame. *)
Lemma message_arrives s op key payload rest :
  at_rest s -> opcode_is_data op = true -> sendable role true op (size payload) key ->
  Forall is_byte payload -> payload ++ rest <> [] -> size payload <= max -> size payload < 2 ^ 32 ->
  stream s = (write_frame_header true op (size payload) key ++ travel key payload 0) ++ rest ->
  exists n s', (forall fuel, step acquire role max (n + fuel) true s =
                  (s', Ret (Ok (mk_message op payload)))) /\ at_rest s' /\ stream s' = rest.
Proof.
  intros Hr Hop Hs Hb Hne Hmax Hlt Hst. assert (0 <= key < 2 ^ 32) as Hk by (destruct Hs as (_ & _ & Hs); destruct role; lia).
  destruct (frame_opens s op key payload rest Hr Hop Hs Hmax Hlt Hst) as (n1 & s1 & Hn1 & Hrec).
  assert (exists n2 s', (forall fuel, step acquire role max (S n2 + fuel) true s1 = (s', Ret (Ok (mk_message op payload)))) /\
    at_rest s' /\ stream s' = rest) as (n2 & s' & Hn2 & Hr2 & Hs2).
  { destruct payload as [|c p]; [by eapply empty_arrives|].
    destruct (payload_arrives s1 op key [] (c :: p) rest Hrec) as ([|n2] & s' & Hn2 & Hr2 & Hs2); try done.
    - by specialize (Hn2 0%nat).
    - by exists n2, s'. }
  exists (n1 + S n2)%nat, s'. split; [|done]. intros fuel. rewrite <- Nat.add_assoc. cbn [Nat.add] in *. rewrite Hn1. apply Hn2.
Qed.

(** *** Sending *)

Definition peer : role_t := match role with Server => Client | Client => Server end.

(** A session able to send: open, writes succeed, a nonzero mask seed. *)
Definition sender (s : session_t) : Prop :=
  state_ s = Open /\ outs (env s) = [] /\ 0 < mask_seed_ s < 2 ^ 32 /\ Body.ok (out_ s).

Lemma send_writes s op payload :
  sender s -> opcode_is_data op = true -> Forall is_byte payload -> size payload < 2 ^ 32 ->
  exists s' key, send acquire peer s payload op = (s', Ok tt) /\ sender s' /\
    sendable role true op (size payload) key /\
    wire (env s') = wire (env s) ++ [write_frame_header true op (size payload) key ++ travel key payload 0].
Proof.
  intros (Ho & Hw & Hk & Hout) Hop Hb Hlt. pose proof (size_nonneg payload).
  unfold send. rewrite Hop, Ho. cbn [negb]. rewrite bool_decide_eq_true_2 by done. cbn [negb].
  unfold peer, sendable. destruct role.
  - (* the receiver is the client: an unmasked frame *)
    unfold writev_span. rewrite Hw. eexists _, 0. split; [reflexivity|]. simpl.
    split; [by unfold sender; simpl; auto|]. split; [|done].
    split; [lia|]. split; [by destruct op|done].
  - unfold next_mask_key. pose proof (mask_loop_range _ Hk) as Hkey.
    set (key := mask_loop 1 (mask_seed_ s)) in *. clearbody key.
    destruct payload as [|c p].
    { unfold writev_span. cbn [env set_seed]. rewrite Hw. eexists _, key. split; [reflexivity|]. cbn [set_env wire env state_ outs tail set_seed].
      split; [by unfold sender; simpl; auto|]. split; [split; [lia|]; split; [by destruct op|done]|].
      assert (travel key [] 0 = []) as -> by (unfold travel; by destruct (key =? 0)). by rewrite app_nil_r. }
    set (payload := c :: p) in *. simpl out_.
    destruct (Body.grow_spec acquire acquire_enough (size payload) (out_ s) Hout ltac:(lia))
      as (o & r & -> & Hok & _ & _ & _ & Hr).
    assert (r = Ok tt) as -> by (apply Hr; right; apply acquire_succeeds; lia).
    unfold writev_span. simpl. rewrite Hw. eexists _, key. split; [reflexivity|]. simpl.
    split; [by unfold sender; simpl; auto|]. split; [split; [lia|]; split; [by destruct op|done]|].
    do 3 f_equal. unfold travel. destruct (Z.eqb_spec key 0); [lia|].
    apply apply_mask_correct; [lia|done].
Qed.

(** Delivering a data message leaves the close state alone. *)
Definition keeps (s s' : session_t) : Prop := state_ s' = state_ s /\ finished_ s' = finished_ s.

Lemma send_control_keeps r s op p : keeps s (fst (send_control r s op p)).
Proof.
  unfold send_control, keeps. destruct r; cbn [next_mask_key]; unfold writev_span; simpl;
    by destruct (outs (env s)) as [|[?|] ?].
Qed.

Lemma fill_keeps s : keeps s (fst (fill s)).
Proof. unfold fill, keeps. by repeat case_match. Qed.

Definition quiet (s : session_t) (t : turn) : Prop :=
  match t with
  | inl s' => keeps s s'
  | inr (s', Ret (Ok m)) => m_opcode m <> Close -> keeps s s'
  | inr _ => True
  end.

Lemma refill_quiet s : quiet s (refill s).
Proof.
  unfold refill, quiet. pose proof (fill_keeps s) as H. destruct (fill s) as [s' o]. simpl in H.
  by repeat case_match; simplify_eq.
Qed.

Lemma turn_quiet deliver s : quiet s (step_turn acquire role max deliver s).
Proof.
  assert (quiet s (ensure_frame role max s)) as H1.
  { unfold ensure_frame. destruct (frame_open_ (rx s)); [done|]. unfold open_frame.
    destruct (parse _ _ _) as [[res d] f]. destruct res.
    - apply (refill_quiet (set_rx s (set_decoder (rx s) d))).
    - unfold fail_protocol. by repeat case_match; simplify_eq.
    - unfold fail_protocol. by repeat case_match; simplify_eq. }
  unfold step_turn. destruct (ensure_frame role max s) as [s1|[s1 o]]; [|done]. simpl in H1.
  destruct (negb (frame_open_ (rx s1))); [done|].
  assert (forall t, quiet s1 t -> quiet s t) as Hlift.
  { unfold quiet, keeps in *. destruct H1 as [E1 E2]. intros t Ht. repeat case_match; rewrite <- ?E1, <- ?E2; done. }
  apply Hlift. destruct (opcode_is_control _).
  - unfold on_control. destruct (_ <? _); [apply refill_quiet|]. set (s2 := set_rx s1 _).
    assert (keeps s1 s2) as Hk by done. clearbody s2. destruct (opcode _); try done.
    + unfold fail_protocol. repeat case_match; simplify_eq; simpl; done.
    + match goal with |- context [send_control role s2 Pong ?p] => pose proof (send_control_keeps role s2 Pong p) as H2;
        destruct (send_control role s2 Pong p) as [s3 [?|?]] end; [|done].
      change (keeps s1 s3). unfold keeps in *. simpl in *. intuition congruence.
  - unfold on_data. destruct (window s1) eqn:Ew; [apply refill_quiet|]. by repeat case_match.
Qed.

Lemma step_keeps fuel s s' m :
  step acquire role max fuel true s = (s', Ret (Ok m)) -> m_opcode m <> Close -> keeps s s'.
Proof.
  revert s. induction fuel as [|fuel IH]; intros s; [done|]. cbn [step]. pose proof (turn_quiet true s) as Hq.
  destruct (step_turn acquire role max true s) as [s1|[s1 o]].
  - intros H Hm. specialize (IH _ H Hm). change (keeps s s1) in Hq. unfold keeps in *. intuition congruence.
  - intros [= -> ->]. exact Hq.
Qed.

Definition send_all (s : session_t) (ms : list message_t) : session_t :=
  fold_left (fun s m => fst (send acquire peer s (m_payload m) (m_opcode m))) ms s.

(** Messages a session can carry: data within the limits. *)
Definition carried (m : message_t) : Prop :=
  opcode_is_data (m_opcode m) = true /\ Forall is_byte (m_payload m) /\
  size (m_payload m) <= max /\ size (m_payload m) < 2 ^ 32.

(** [recv] called once per expected message: what it returned, and how the
    call ended that did not return one. *)
Fixpoint recv_all (fuel k : nat) (s : session_t) : list message_t * option (outcome message_t) :=
  match k with
  | O => ([], None)
  | S k => match recv acquire role max fuel s with
           | (s, Ret (Ok m)) => let '(ms, o) := recv_all fuel k s in (m :: ms, o)
           | (s, o) => ([], Some o)
           end
  end.

(** The last message is empty and no byte came behind it. *)
Definition held_back (ms : list message_t) (rest : bytes) : bool :=
  match last ms with
  | Some m => bool_decide (m_payload m = []) && bool_decide (rest = [])
  | None => false
  end.

(** The frame of a message as the sender writes it. *)
Definition framed (m : message_t) (f : bytes) : Prop :=
  exists key, sendable role true (m_opcode m) (size (m_payload m)) key /\
    f = write_frame_header true (m_opcode m) (size (m_payload m)) key ++ travel key (m_payload m) 0.

(** The wire grows by one frame per message. *)
Lemma send_all_wire s ms :
  sender s -> Forall carried ms ->
  exists fs, wire (env (send_all s ms)) = wire (env s) ++ fs /\ Forall2 framed ms fs.
Proof.
  intros Hs Hc. revert s Hs. induction Hc as [|m ms (H1 & H2 & H4 & H5) _ IH]; intros s Hs.
  { exists []. simpl. by rewrite app_nil_r. }
  destruct (send_writes s (m_opcode m) (m_payload m) Hs H1 H2 H5) as (s1 & key & E & Hs1 & Hk & Hw).
  destruct (IH s1 Hs1) as (fs & Hw1 & Hf). unfold send_all in *. simpl. rewrite E. simpl.
  eexists (_ :: fs). rewrite Hw1, Hw, <- app_assoc. split; [reflexivity|]. constructor; [by exists key|done].
Qed.

Lemma framed_nonempty m f : framed m f -> f <> [].
Proof.
  intros (key & _ & ->). destruct (header_first true (m_opcode m) (size (m_payload m)) key) as [l ->]. done.
Qed.

Lemma recv_open fuel s : state_ s <> CloseReceived -> finished_ s = false -> recv acquire role max fuel s = step acquire role max fuel true s.
Proof. intros H1 H2. unfold recv. by rewrite bool_decide_eq_false_2, H2. Qed.

Lemma held_back_cons m ms rest : ms <> [] -> held_back (m :: ms) rest = held_back ms rest.
Proof. by destruct ms. Qed.

Lemma frames_arrive ms fs rest s :
  Forall carried ms -> Forall2 framed ms fs ->
  at_rest s -> state_ s <> CloseReceived -> finished_ s = false -> stream s = concat fs ++ rest ->
  exists n, forall fuel, (n <= fuel)%nat ->
    recv_all fuel (length ms) s = if held_back ms rest then (removelast ms, Some Suspend) else (ms, None).
Proof.
  intros Hc Hf. revert s Hc. induction Hf as [|m f ms fs Hm Hf IH]; intros s Hc Hr Hst Hfin Hs.
  { by exists 0%nat. }
  inversion Hc as [|? ? (H1 & H2 & H4 & H5) Hc']; subst. destruct Hm as (key & Hk & ->).
  cbn [concat] in Hs. rewrite <- app_assoc in Hs.
  destruct (decide (m_payload m ++ concat fs ++ rest = [])) as [E|E].
  - apply app_eq_nil in E as [Ep E]. apply app_eq_nil in E as [Ef Er]. subst rest.
    assert (ms = []) as -> by (destruct Hf as [|? f' ? ? Hm']; [done|]; cbn in Ef; apply app_eq_nil in Ef as [Ef _]; by destruct (framed_nonempty _ _ Hm')).
    destruct (frame_opens s (m_opcode m) key (m_payload m) (concat fs ++ []) Hr H1 Hk H4 H5 Hs) as (n1 & s1 & Hn1 & Hrec).
    rewrite Ef, Ep in Hrec. exists (n1 + 1)%nat. intros fuel Hfuel. cbn [length recv_all]. rewrite recv_open by done.
    replace fuel with (n1 + S (fuel - n1 - 1))%nat by lia. rewrite Hn1.
    pose proof (empty_waits s1 (m_opcode m) key (fuel - n1 - 1) Hrec H1) as Hsus.
    destruct (step acquire role max (S (fuel - n1 - 1)) true s1) as [s2 o]. cbn in Hsus. subst o. unfold held_back. cbn. by rewrite Ep.
  - destruct (message_arrives s (m_opcode m) key (m_payload m) (concat fs ++ rest) Hr H1 Hk H2 E H4 H5 Hs)
      as (n1 & s1 & Hn1 & Hr1 & Hs1).
    assert (state_ s1 <> CloseReceived /\ finished_ s1 = false) as [Hst1 Hfin1].
    { destruct (step_keeps (n1 + 0) s s1 _ (Hn1 0%nat)) as [E1 E2]; [simpl; intros E'; by rewrite E' in H1|].
      rewrite E1, E2. done. }
    destruct (IH s1 Hc' Hr1 Hst1 Hfin1 Hs1) as (n2 & Hn2). exists (n1 + n2)%nat. intros fuel Hfuel.
    cbn [length recv_all]. rewrite recv_open by done.
    replace fuel with (n1 + (fuel - n1))%nat at 1 by lia. rewrite Hn1, Hn2 by lia.
    destruct Hf as [|m' f' ms fs Hm' Hf].
    + cbn in E |- *. unfold held_back. cbn. destruct m as [op p]. cbn in *.
      destruct (decide (p = [])) as [->|Hp]; [|by rewrite (bool_decide_eq_false_2 (p = []))].
      by rewrite (bool_decide_eq_false_2 (rest = [])) by done.
    + rewrite (held_back_cons m) by done. destruct (held_back (m' :: ms) rest); by destruct m.
Qed.
End Delivery.

(** C1: messages sent by one session, empty ones included, are received by
    its peer exactly, in order, however the transport splits the bytes into
    reads: each [recv] returns the next message with its opcode and payload,
    whether it was delivered from the window or aggregated from runs, masked
    or not. There is one exception and it is exact: when the last message is
    empty and no further byte has arrived behind its frame, the [recv] for it
    keeps waiting, the messages before it having been delivered. Messages are
    data within the receiver's limit and shorter than 4 GiB; the writes of
    the sender succeed and buffers are to be had. *)
Theorem session_delivers acquire role max s r ms rest :
  (forall n d, acquire n = Some d -> n <= size d < 2 ^ 32) ->
  (forall n, 0 <= n < 2 ^ 32 -> is_Some (acquire n)) ->
  sender s -> wire (env s) = [] -> Forall (carried max) ms ->
  at_rest role r -> state_ r <> CloseReceived -> finished_ r = false ->
  stream r = concat (wire (env (send_all acquire role s ms))) ++ rest ->
  exists n, forall fuel, (n <= fuel)%nat ->
    recv_all acquire role max fuel (length ms) r =
      if held_back ms rest then (removelast ms, Some Suspend) else (ms, None).
Proof.
  intros Ha1 Ha2 Hs Hw Hc Hr Hst Hfin Hstream.
  destruct (send_all_wire acquire role max Ha1 Ha2 s ms Hs Hc) as (fs & Hfs & Hf). rewrite Hw in Hfs. simpl in Hfs.
  rewrite Hfs in Hstream. by eapply (frames_arrive acquire role max Ha1 Ha2).
Qed.

(** *** Concrete sessions *)

Definition alloc (n : Z) : option bytes :=
  if (0 <=? n) && (n <? 2 ^ 32) then Some (replicate (Z.to_nat n) 0) else None.

Lemma alloc_enough n d : alloc n = Some d -> n <= size d < 2 ^ 32.
Proof.
  unfold alloc. destruct (Z.leb_spec 0 n), (Z.ltb_spec n (2 ^ 32)); try done. intros [= <-].
  unfold size. rewrite length_replicate. lia.
Qed.

Lemma alloc_succeeds n : 0 <= n < 2 ^ 32 -> is_Some (alloc n).
Proof.
  intros Hn. unfold alloc. destruct (Z.leb_spec 0 n), (Z.ltb_spec n (2 ^ 32)); try lia. by eexists.
Qed.

(** A fresh session with a 16-byte window and the given reads to come. *)
Definition fresh (role : role_t) (evs : list io_event) : session_t :=
  mk_session
    (mk_rx (decoder_init role) (Head.mk_head (Some (replicate 16 0)) 0 0 false) Body.released frame_init
       false 0 Continue false)
    Body.released 0x2545F491 Open false false (mk_env evs [] [] false true).

Lemma mask_key_nonzero_witness : 0 < snd (next_mask_key (fresh Client [])) < 2 ^ 32.
Proof.
  exact (proj1 (mask_key_nonzero (fresh Client []) 0 ltac:(simpl; lia))).
Defined.

Definition sample_acts : list act_t :=
  [Whole (OInput [Recv [0x89; 1; 7]; Recv [0x88; 2; 3; 0xE8]]); Whole (ORecv 9); Whole (OSend [104] Text);
   CloseBegin 1000 []; Whole ORequestClose; CloseEnd; Whole (OFinish 9)].

Lemma session_close_discipline_witness :
  let w := wire (env (fold_left (run_act alloc Client 100) sample_acts (fresh Client [], None)).1) in
  closes_once w /\ (close_frames w <= 2)%nat.
Proof.
  destruct (session_close_discipline alloc Client 100 (fresh Client []) sample_acts eq_refl) as [H1 H2].
  split; [apply H1; by repeat split|exact H2].
Defined.

(** Why the gap matters: a Close from the peer that arrives while [close] is
    suspended is echoed, so two Close frames go out, and the resumed [close]
    turns [CloseReceived] back into [CloseSent]; and a [send] in the gap puts
    data behind the Close. *)
Theorem session_close_overlaps :
  (let x := fold_left (run_act alloc Server 100)
      [CloseBegin 1000 []; Whole (OInput [Recv [0x88; 0x82; 0; 0; 0; 1; 3; 0xE8]]); Whole (ORecv 9); CloseEnd] (fresh Server [], None) in
   close_frames (wire (env x.1)) = 2%nat /\ state_ x.1 = CloseSent) /\
  (let x := fold_left (run_act alloc Server 100) [CloseBegin 1000 []; Whole (OSend [104] Text); CloseEnd] (fresh Server [], None) in
   wire (env x.1) = [[0x88; 2; 3; 0xE8]; [0x81; 1; 104]]).
Proof. split; vm_compute; [split|]; reflexivity. Qed.

Definition sample_messages : list message_t := [mk_message Text (str "hello, websocket"); mk_message Text []; mk_message Binary [1; 2; 3]].

(** The client's frames, cut into reads of three bytes. *)
Fixpoint cut (fuel : nat) (l : bytes) : list io_event :=
  match fuel, l with
  | S fuel, _ :: _ => Recv (take 3 l) :: cut fuel (drop 3 l)
  | _, _ => []
  end.
Definition sample_wire : bytes := concat (wire (env (send_all alloc Server (fresh Client []) sample_messages))).

Lemma session_delivers_witness :
  exists n, recv_all alloc Server 100 n 3 (fresh Server (cut 99 sample_wire)) = (sample_messages, None).
Proof.
  destruct (session_delivers alloc Server 100 (fresh Client []) (fresh Server (cut 99 sample_wire)) sample_messages [])
    as [n Hn].
  - exact alloc_enough.
  - exact alloc_succeeds.
  - unfold sender. simpl. split; [reflexivity|]. split; [reflexivity|]. split; [lia|].
    unfold Body.ok. simpl. unfold size. simpl. lia.
  - reflexivity.
  - repeat (apply Forall_cons_2; [|]); [..|constructor];
      (split; [reflexivity|]; split; [apply (bool_decide_unpack _); reflexivity|];
       split; [vm_compute; congruence|vm_compute; congruence]).
  - split.
    + repeat split.
    + reflexivity.
    + unfold Body.ok. simpl. unfold size. simpl. lia.
    + split; [|split; [reflexivity|vm_compute; congruence]]. vm_compute. repeat split; congruence.
    + vm_compute. repeat (apply Forall_cons_2; [discriminate|]). constructor.
  - discriminate.
  - reflexivity.
  - vm_compute. reflexivity.
  - exists n. exact (Hn n (le_n n)).
Defined.

(** a message of three or more fragments is delivered as a
    continuation: a middle fragment overwrites the opcode the first one
    recorded. *)
Theorem session_fragments_lose_opcode :
  snd (recv alloc Client 100 20 (fresh Client [Recv [0x01; 1; 97; 0x00; 1; 98; 0x80; 1; 99]])) =
    Ret (Ok (mk_message Continue (str "abc"))) /\
  snd (recv alloc Client 100 20 (fresh Client [Recv [0x01; 1; 97; 0x80; 1; 99]])) =
    Ret (Ok (mk_message Text (str "ac"))).
Proof. split; vm_compute; reflexivity. Qed.

(** an empty message whose frame ends the window is not delivered:
    [recv] waits for bytes the frame does not have, and reports a reset if
    the peer closes instead; the same frame with a byte behind it is
    delivered. *)
Theorem session_empty_message_waits :
  snd (recv alloc Client 100 20 (fresh Client [Recv [0x81; 0]])) = Suspend /\
  snd (recv alloc Client 100 20 (fresh Client [Recv [0x81; 0]; Recv []])) =
    Ret (Unexpected (system_error ECONNRESET)) /\
  snd (recv alloc Client 100 20 (fresh Client [Recv [0x81; 0; 0x89]])) = Ret (Ok (mk_message Text [])).
Proof. split; [|split]; vm_compute; reflexivity. Qed.
